(* ===== verification/_CoqProject ===== *)
-Q . S2P
Prelude.v
Errors.v
Unicode.v
Crc16.v
AtomicOps.v
RefPtr.v
IntrusiveList.v
Threads.v
ThreadLists.v
Scheduler.v
PriorityScheduler.v
EdfScheduler.v
ControlScheduler.v
Interrupts.v
SleepList.v
StdHeap.v
Mutex.v
Queues.v
Pthread.v
TimeConv.v
OsTimer.v
ProcessPool.v
Bytes.v
ElfLoader.v
Processes.v
Mpu.v
Syscalls.v
Events.v
Lifecycle.v
Directories.v
MountpointFs.v
DevFs.v
FatLocks.v
FatNames.v
Fat32.v
Terminal.v
PathResolution.v
StringParts.v
FileAccess.v
SystemSetup.v
Guards.v
CLib.v
