(* ===== verification/Prelude.v ===== *)
(** * Verification of the Miosix kernel

    Miosix is a real-time kernel for microcontrollers, in C++ ([src/miosix]).
    This library models its core (scheduling, synchronization, time,
    containers, files) and proves that each part does what it is for.  Paths
    below are relative to [src/miosix].

    ** The parts of the program and how they meet

    The kernel keeps threads, objects with flags and a priority, in a
    scheduler.  What blocks a thread (a lock, a queue, a sleep, a join) sets one
    of its flags and yields; what wakes it clears the flag and, when the woken
    thread has a higher priority, yields or asks for a switch.  Critical
    sections are made with two nesting counters, one that disables interrupts and one that
    pauses the scheduler.  The timer gives the time in nanoseconds and the
    interrupts that wake sleeping threads.  On top of the threads there is a
    virtual filesystem: descriptor tables, mounted filesystems, path
    resolution, reference counted files.  Processes run programs loaded from files in
    memory, and reach the kernel through system calls that check their pointers.

    ** The files, in dependency order

    - [Prelude] (this file): integers at their width, the [outcome] monad of
      computations that may stop, tactics.
    - [Errors] ([kernel/error.h]): the error codes.  [exec A] is a
      computation that gives an [A], or calls the error handler ([Err]), or is
      undefined behaviour ([Undefined]: a null or dangling pointer, an index out of
      bounds), or has spent the model's fuel ([OutOfFuel]).
    - [Unicode] ([util/unicode.h], [.cpp]): reading, writing and validating UTF-8, and the
      conversions with UTF-16.
    - [Crc16] ([util/crc16.cpp]): the checksum of a block of data.
    - [AtomicOps] ([arch/common/core/atomic_ops_impl_cortexMx.h]): the
      lock-free operations, an instruction at a time.
    - [RefPtr] ([kernel/intrusive.h], [intrusive_ref_ptr]): counted pointers.
    - [IntrusiveList] ([kernel/intrusive.h]): the doubly linked list, as a
      store of nodes.
    - [Threads] ([kernel/kernel.h], [.cpp]): [Thread::ThreadFlags] and the
      thread objects.  [ThreadLists]: circular lists of threads linked through
      [schedData.next], that both schedulers use.
    - [Scheduler] ([kernel/scheduler/scheduler.h]): the class of the
      schedulers.  Its operations are those of [basic_scheduler], its laws say
      what a client can rely on, in terms of the set of threads, their flags and
      priorities.  [PriorityScheduler] and [EdfScheduler]
      ([kernel/scheduler/priority/], [kernel/scheduler/edf/]) are its
      instances; [Mutex], [Queues], [Pthread] and [Lifecycle] are proved over
      any instance.
    - [ControlScheduler] ([kernel/scheduler/control/]): the scheduler that runs
      threads in rounds, for bursts that a regulator computes, in floating or
      fixed point.  It does not choose by priority, so it is not an
      instance of the class; it has a specification of its own.
    - [Interrupts] ([kernel/kernel.h], [.cpp]): [disableInterrupts],
      [pauseKernel] and the locks on them, the deep sleep counter.
    - [SleepList] ([kernel/kernel.cpp]): [Thread::sleep] and the like, the
      sleeping list and [IRQwakeThreads].
    - [StdHeap]: [std::push_heap] and [std::make_heap], used by mutexes, as
      an interface with the guarantees of the C++ standard.
    - [Mutex] ([kernel/sync.h], [.cpp]): mutexes with priority inheritance.
    - [Queues] ([kernel/queue.h]): [Queue], [DynUnsyncQueue], [BufferQueue].
    - [Pthread] ([kernel/pthread_private.h], [pthread.cpp]): the mutexes and
      condition variables without priority inheritance.
    - [TimeConv] ([kernel/timeconversion.h], [.cpp]): ticks and nanoseconds.
    - [OsTimer] ([interfaces/os_timer.h]): a 64 bit timer from a 16 or 32 bit one.
    - [ProcessPool] ([kernel/process_pool.h], [.cpp]): the allocator of process images.
    - [Bytes]: memory as a list of bytes, and little endian words in it.
    - [ElfLoader] ([kernel/elf_program.h], [.cpp]): the checks of an
      executable file, and the memory image made from it.
    - [Processes] ([kernel/process.h], [.cpp]): the tree of processes,
      creation, [waitpid] and the end of a process.
    - [Mpu] ([arch/common/core/mpu_cortexMx.h], [.cpp]): the memory regions of
      a process, and the checks of pointers.
    - [Syscalls] ([kernel/process.cpp], [SystemMap.cpp]): the construction of a
      process and its system calls.
    - [Events] ([e20/callback.h], [e20.h], [e20.cpp]): callbacks, and the queues
      of events between threads and interrupt routines.
    - [Lifecycle] ([kernel/kernel.cpp]): creation, detach, join and end of
      threads, and the idle thread that deletes them.
    - [Directories] ([filesystem/file.h], [.cpp]): directory entries in the
      buffer of a program, and [getdents].
    - [MountpointFs] ([filesystem/mountpointfs/]): the filesystem of mount points.
    - [DevFs] ([filesystem/devfs/]): devices, their names, and files on them.
    - [FatLocks], [FatNames] ([filesystem/fat32/ff.cpp]): the table of open
      files of a FAT volume, and its long names in UTF-8.
    - [Fat32] ([filesystem/fat32/fat32.cpp]): the FAT32 filesystem of the kernel, on
      an interface of the FatFs library.
    - [Terminal] ([filesystem/console/]): the terminal (line editing, echo,
      conversion of newlines) and the default console.
    - [PathResolution] ([filesystem/file_access.cpp]): paths, mount points and symbolic links.
    - [StringParts] ([filesystem/stringpart.h], [.cpp]): substrings made in place, which
      are the values that the other files use.
    - [FileAccess] ([filesystem/file_access.cpp], [file.cpp]): descriptor
      tables, files, mounting and unmounting.
    - [SystemSetup] ([filesystem/file_access.cpp]): [basicFilesystemSetup], which
      puts [MountpointFs], [DevFs] and [Fat32] behind the interface of [FileAccess].

    - [Guards] ([stdlib_integration/libstdcpp_integration.cpp], [kernel/pthread.cpp]): static objects and
      [pthread_once], which initialize once, behind one interface.
    - [CLib] ([stdlib_integration/libc_integration.cpp]): the memory of the heap, the
      POSIX clocks, [errno] and the file functions of the C library.

    Each file defines the state of its component as a record, then its
    operations under the names of the source, then what it means (an abstract
    state, an invariant, or a specification) and the theorems.

    ** How code becomes definitions

    Integers are [Z] within the range of their type, with [wrapU] and [wrapS]
    where the code can wrap.  Objects that are pointed to live in stores
    ([gmap]) by address, so that aliasing is visible.  A function that blocks
    is cut at its yield: it leaves the thread at a place, from which it goes on
    when it runs again; interleavings are sequences of such operations, since
    each runs with interrupts disabled, the kernel paused, or a mutex locked.
    [AtomicOps] is finer: any two instructions can be separated by others.

    ** What is proved

    - Refinement of an abstract object: [list_programs_refine] (a list),
      [priority_scheduler_refines] and [edf_scheduler_refines] (the scheduler's
      laws, which say the same of two very different structures),
      [queue_refines], [dyn_queue_refines] and [buffer_queue_refines] (bounded
      queues), [control_scheduler_refines] (turns in rounds, whatever the regulator
      computes), [monitor_refines] (a monitor, for mutexes and condition
      variables), [flags_refine], [refptr_collects] (plain pointers with a
      garbage collector), [atomic_ops_linearizable] (atomic operations),
      [processes_refine] (a table of parents, exit codes and waiting threads),
      [fixed_queue_refines] (a bounded queue of events), [fat_locks_refine] (a map of what is open),
      [string_parts_are_values] (substrings that are values), [guards_refine]
      (an object that is initialized once), [sbrk_refines] (a break within the heap).
    - Types: [callbacks_type_safe] (an untyped buffer is only used at the type
      of the object in it).
    - Safety: [mutual_exclusion], [locks_nest], [umount_safe] (nothing is
      unmounted under an open file), [accepted_program_loads] (a file that
      passes the checks is loaded within bounds), [syscalls_confined] (a process
      makes the kernel touch only its own memory), [utf_conversions_safe].
    - Invariants over all executions: [sleepers_wake], [lifecycle_correct],
      [files_accounted], [fat32_files_accounted] (the FatFs objects that are open are
      those in use and those that failed to close), [devices_identified], [mountpoints_listed].
    - What every branch does: [lock_branches], [unlock_hands_over],
      [setPriority_inherits], [list_operations], [edf_list_operations],
      [IRQfindNextThread_chooses], [resolvePath_correct] (against an inductive
      meaning of paths), [descriptors_open_and_close],
      [system_files] (what [stat] and [open] of [/dev/name] find), [mul64x32d32_exact],
      [validateUtf8_decides], [nextUtf8_exact], [list_traversal],
      [process_pool_correct], [nesting_errors],
      [calls_answered].
    - Round trips, equivalences and bounds: [putUtf8_roundtrip],
      [utf_conversions_correct], [listing_complete] and [fat32_listing_complete] (a
      directory through buffers), [long_names_roundtrip] (names of files), [read_edits_line] (reading a line is the editing of its keys, block by
      block), [clocks_exact] (POSIX clocks on the kernel's time), [write_then_read] (newline conversion), [crc16_ccitt] (against polynomial
      division), [round_trip] (ticks and nanoseconds),
      [pending_bit_trick] (the 64 bit time is exact when the counter
      overflows during the reading), [sleep_at_least].
    - Progress and termination: [round_robin], [a_turn_each_round], [missed_wakeup_yields], [no_lost_wait],
      [no_event_forgotten], [initialization_progresses] (no deadlock between constructors),
      [interrupt_when_due], [constructor_terminates]; and no operation of any
      component runs out of fuel or into undefined behaviour under its
      invariant, because the theorems state that a result is returned.

    The examples whose names start with [ex_] run the definitions; some
    show behaviour that is not the documented one.

    ** Fuel

    Loops that are not structural take fuel, which the callers compute from
    the state and the theorems show to be enough: the number of nodes for
    lists and rings, the length of the path plus [PATH_MAX] for resolution
    (a symbolic link is followed once, and gives a path within [PATH_MAX]),
    the number of bits for the search of [TimeConv], the number of retries
    for the timer.  [umount] makes its three checks by recursion on their number.

    ** Parameters

    Code outside the repository, or that only touches hardware, is an
    interface with the properties that are relied on: the heap algorithms of the C++ library
    ([StdHeap]), the hardware timer ([OsTimer]), filesystems and files
    ([PathResolution], [FileAccess]), derived devices ([DevFs]), the FatFs library ([Fat32]).  Each is instantiated in an example.

    ** Not modelled

    - Register-level code: [arch/], drivers, boot, context switch (assembler),
      busy-wait delays, [util/software_i2c.h] and the like: their effect is on devices.
    - Vendored code: CMSIS, and the FatFs library in [filesystem/fat32] but for
      its table of open files and its long names.
    - Of the adaptation of the C and C++ libraries ([stdlib_integration]), what ends the program,
      locks of the allocator, and the functions on processes that always fail.
    - Logging, tools, examples and board support.
    - The single-burst variant of the control-based scheduler, which is compiled out, and the
      clock synchronization of [time/], which is not part of the build of the kernel.
    - Of modelled classes: the stack of new threads, thread-safety of the C++ containers
      that are only used under a lock. *)
From stdpp Require Export base numbers list list_numbers gmap option strings.
From Stdlib Require Export ZArith Lia.

#[export] Set Default Goal Selector "!".

(** ** Machine integers

    A w-bit unsigned C integer is a [Z] in [0, 2^w); a signed one a [Z] in
    [-2^(w-1), 2^(w-1)).  [wrapU] and [wrapS] are the conversions to these
    types (C++ [basic.types] modular conversion, which GCC uses for the signed
    ones too). *)
Declare Scope miosix_scope.
Delimit Scope miosix_scope with miosix.

Local Open Scope Z_scope.

Definition wrapU (w z : Z) : Z := z mod 2 ^ w.
Definition wrapS (w z : Z) : Z :=
  let u := z mod 2 ^ w in if u <? 2 ^ (w - 1) then u else u - 2 ^ w.

Abbreviation u8 := (wrapU 8).
Abbreviation u16 := (wrapU 16).
Abbreviation u32 := (wrapU 32).
Abbreviation u64 := (wrapU 64).
Abbreviation s16 := (wrapS 16).
Abbreviation s32 := (wrapS 32).
Abbreviation s64 := (wrapS 64).

Lemma wrapU_bound w z : 0 <= w -> 0 <= wrapU w z < 2 ^ w.
Proof. intros. apply Z.mod_pos_bound, Z.pow_pos_nonneg; lia. Qed.

Lemma wrapU_small w z : 0 <= z < 2 ^ w -> wrapU w z = z.
Proof. apply Z.mod_small. Qed.

Lemma wrapS_small w z : 0 < w -> - 2 ^ (w - 1) <= z < 2 ^ (w - 1) -> wrapS w z = z.
Proof.
  intros Hw Hz. unfold wrapS.
  assert (Hp : 2 ^ w = 2 * 2 ^ (w - 1)).
  { replace w with (Z.succ (w - 1)) at 1 by lia. rewrite Z.pow_succ_r by lia. lia. }
  destruct (decide (0 <= z)).
  - rewrite Z.mod_small by lia.
    destruct (Z.ltb_spec z (2 ^ (w - 1))); lia.
  - replace (z mod 2 ^ w) with (z + 2 ^ w).
    + destruct (Z.ltb_spec (z + 2 ^ w) (2 ^ (w - 1))); lia.
    + symmetry. rewrite <- (Z_mod_plus_full z 1), Z.mul_1_l. apply Z.mod_small. lia.
Qed.

Lemma wrapS_bound w z : 0 < w -> - 2 ^ (w - 1) <= wrapS w z < 2 ^ (w - 1).
Proof.
  intros Hw. unfold wrapS.
  assert (Hp : 2 ^ w = 2 * 2 ^ (w - 1)).
  { replace w with (Z.succ (w - 1)) at 1 by lia. rewrite Z.pow_succ_r by lia. lia. }
  pose proof (Z.mod_pos_bound z (2 ^ w) ltac:(lia)).
  destruct (Z.ltb_spec (z mod 2 ^ w) (2 ^ (w - 1))); lia.
Qed.

(** ** Bit fields *)

(** A bitwise or of a field with bits above it is an addition. *)
Lemma lor_shiftl_add n x k :
  0 <= n -> 0 <= x < 2 ^ n -> Z.lor x (Z.shiftl k n) = x + k * 2 ^ n.
Proof.
  intros Hn Hx. rewrite <- Z.add_lor_land, Z.shiftl_mul_pow2 by done.
  assert (Z.land x (k * 2 ^ n) = 0) as ->; [|lia].
  apply Z.bits_inj'. intros i Hi. rewrite Z.land_spec, Z.bits_0.
  destruct (Z.lt_ge_cases i n).
  - rewrite Z.mul_pow2_bits_low by lia. apply andb_false_r.
  - rewrite <- (Z.mod_small x (2 ^ n)) by lia.
    rewrite Z.mod_pow2_bits_high by lia. done.
Qed.

Lemma land_ones_mod n x m : 0 <= n -> m = Z.ones n -> Z.land x m = x mod 2 ^ n.
Proof. intros ? ->. by apply Z.land_ones. Qed.

(** A property of bytes is checked by trying the 256 values. *)
Lemma forall_byte (P : Z -> bool) :
  forallb P (seqZ 0 256) = true -> forall c, 0 <= c < 256 -> P c = true.
Proof.
  intros H c Hc. rewrite forallb_forall in H. apply H.
  apply list_elem_of_In, elem_of_seqZ. lia.
Qed.

(** ** Computations that may not complete

    [Done x] is a computation that returns [x]; [Fault e] one that stops
    with [e] (an error handler that does not return, an exception, or
    undefined behaviour, depending on [E]). *)
Inductive outcome (E A : Type) : Type :=
| Done (x : A)
| Fault (e : E).
Arguments Done {E A} x.
Arguments Fault {E A} e.

#[export] Instance outcome_ret {E} : MRet (outcome E) := fun A x => Done x.
#[export] Instance outcome_bind {E} : MBind (outcome E) := fun A B f m =>
  match m with Done x => f x | Fault e => Fault e end.

Lemma outcome_bind_Done {E A B} (m : outcome E A) (f : A -> outcome E B) y :
  m ≫= f = Done y <-> exists x, m = Done x /\ f x = Done y.
Proof. destruct m as [x|e]; simpl; split; [eauto|by intros (?&[= <-]&?)|done|by intros (?&?&?)]. Qed.

Lemma option_bind_Some_iff {A B} (m : option A) (f : A -> option B) y :
  m ≫= f = Some y <-> exists x, m = Some x /\ f x = Some y.
Proof. apply bind_Some. Qed.

(** Removing an element that does not occur. *)
Lemma filter_ne_id {A} `{EqDecision A} (x : A) (l : list A) : x ∉ l -> filter (fun y => y <> x) l = l.
Proof.
  induction l as [|y l IH]; intros Hx; [done|]. apply not_elem_of_cons in Hx as [? Hx].
  rewrite filter_cons_True, IH by auto. done.
Qed.

(** ** Tactics *)

(** Split every binding of a successful computation. *)
Ltac inv_bind :=
  repeat match goal with
  | H : mbind _ _ = Done _ |- _ =>
      apply outcome_bind_Done in H; destruct H as (? & ? & H); simplify_eq/=
  | H : mbind _ _ = Some _ |- _ =>
      apply bind_Some in H; destruct H as (? & ? & H); simplify_eq/=
  end.

(** Case analysis on the boolean comparisons the code branches on. *)
Ltac case_cmp :=
  match goal with
  | |- context [if ?a <? ?b then _ else _] => destruct (Z.ltb_spec a b)
  | |- context [if ?a <=? ?b then _ else _] => destruct (Z.leb_spec a b)
  | |- context [if ?a =? ?b then _ else _] => destruct (Z.eqb_spec a b)
  end.

Create HintDb miosix.
#[export] Hint Resolve wrapU_bound wrapS_bound : miosix.
