(* ===== verification/Errors.v ===== *)
(** * Error values

    The kernel's error codes ([kernel/error.h]) and the ways a modelled
    computation can stop. *)
From S2P Require Import Prelude.

(** [enum Error]; [errorHandler] reboots the system for each of them, so it
    never returns to its caller. *)
Inductive Error :=
| OUT_OF_MEMORY
| STACK_OVERFLOW
| UNEXPECTED
| PAUSE_KERNEL_NESTING
| DISABLE_INTERRUPTS_NESTING
| MUTEX_DEADLOCK
| NESTING_OVERFLOW
| INTERRUPTS_ENABLED_AT_BOOT.

#[export] Instance Error_eq_dec : EqDecision Error.
Proof. solve_decision. Defined.

(** How kernel code stops: in the error handler; in C++ undefined behaviour
    (null or dangling pointer, index outside an array); with the model's fuel
    spent (every theorem about a loop shows a fuel for which it is not). *)
Inductive fault :=
| Err (e : Error)
| Undefined
| OutOfFuel.

Abbreviation exec := (outcome fault).

Definition errorHandler {A} (e : Error) : exec A := Fault (Err e).

(** Dereference of a pointer that may be null. *)
Definition deref {A} (p : option A) : exec A :=
  match p with Some x => Done x | None => Fault Undefined end.

Lemma deref_Done {A} (p : option A) x : deref p = Done x <-> p = Some x.
Proof. destruct p; simpl; split; congruence. Qed.
