(* ===== verification/Unicode.v ===== *)
(** * Unicode conversions

    Model of [util/unicode.h] and [util/unicode.cpp]: decoding a code point
    out of an utf8 iterator, encoding one, converting whole strings between
    utf8 and utf16, validating a string.  A C string is the list of the code
    units from the pointer to the end of the buffer it points into; an
    iterator is the suffix not yet read, and reading past the end of the
    buffer is [Undefined].  The buffer written through [dst] is the list of
    the units written so far. *)
From S2P Require Import Prelude Errors.

Local Open Scope Z_scope.

(** ** The code *)

(** [enum Unicode::error] *)
Inductive error := OK | INSUFFICIENT_SPACE | INVALID_STRING.

#[export] Instance error_eq_dec : EqDecision error.
Proof. solve_decision. Defined.

Definition invalid : Z := 0xffffffff.

(** The loop over the continuation bytes; [None] is the early
    [return invalid]. *)
Fixpoint nextUtf8_loop (additionalBytes : nat) (checkEnd : bool) (c : Z)
    (it : list Z) : exec (option Z * list Z) :=
  match additionalBytes with
  | O => Done (Some c, it)
  | S n =>
      match it with
      | [] => if checkEnd then Done (None, []) else Fault Undefined
      | b :: it =>
          let next := u8 b in
          if negb (Z.land next 0xc0 =? 0x80) then Done (None, it)
          else nextUtf8_loop n checkEnd
                 (Z.lor (u32 (Z.shiftl c 6)) (Z.land next 0x3f)) it
      end
  end.

(** The private [nextUtf8(it,end,checkEnd)]; the iterator range is [it]. *)
Definition nextUtf8_impl (it : list Z) (checkEnd : bool) : exec (Z * list Z) :=
  match it with
  | [] => if checkEnd then Done (0, []) else Fault Undefined
  | b :: it =>
      let c := u8 b in
      if c <? 0x80 then Done (c, it) else
      let more (c : Z) (additionalBytes : nat) (least : Z) :=
        '(r, it) ← nextUtf8_loop additionalBytes checkEnd c it;
        match r with
        | None => Done (invalid, it)
        | Some c =>
            if c <? least then Done (invalid, it) else
            if (0xd800 <=? c) && (c <=? 0xdfff) then Done (invalid, it) else
            if 0x10ffff <? c then Done (invalid, it) else
            Done (c, it)
        end in
      if Z.land c 0xe0 =? 0xc0 then more (Z.land c 0x1f) 1%nat 0x80
      else if Z.land c 0xf0 =? 0xe0 then more (Z.land c 0x0f) 2%nat 0x800
      else if Z.land c 0xf8 =? 0xf0 then more (Z.land c 0x07) 3%nat 0x10000
      else Done (invalid, it)
  end.

(** [nextUtf8(it,end)]: the range has an end. *)
Definition nextUtf8_range (it : list Z) : exec (Z * list Z) := nextUtf8_impl it true.

(** [nextUtf8(it)]: the string is nul-terminated. *)
Definition nextUtf8 (it : list Z) : exec (Z * list Z) := nextUtf8_impl it false.

(** The macro [PUT(x)]: return from the function when [dst] is full, write
    [x] (converted to the unit type of [w] bits) and go on otherwise. *)
Definition PUT (w dstSize : Z) (x : Z) (dst : list Z)
    (k : list Z -> error * Z * list Z) : error * Z * list Z :=
  if dstSize <=? Z.of_nat (length dst)
  then (INSUFFICIENT_SPACE, Z.of_nat (length dst), dst)
  else k (dst ++ [wrapU w x]).

(** [putUtf8]: error code, bytes used, bytes written. *)
Definition putUtf8 (c dstSize : Z) : error * Z * list Z :=
  if (0xd800 <=? c) && (c <=? 0xdfff) then (INVALID_STRING, 0, []) else
  if 0x10ffff <? c then (INVALID_STRING, 0, []) else
  let PUT := PUT 8 dstSize in
  let done dst := (OK, Z.of_nat (length dst), dst) in
  if c <? 0x80 then PUT c [] done else
  let last dst := PUT (Z.lor (Z.land c 0x3f) 0x80) dst done in
  if c <? 0x800 then
    PUT (Z.lor (Z.shiftr c 6) 0xc0) [] last
  else if c <? 0x10000 then
    PUT (Z.lor (Z.shiftr c 12) 0xe0) [] (fun dst =>
    PUT (Z.lor (Z.land (Z.shiftr c 6) 0x3f) 0x80) dst last)
  else
    PUT (Z.lor (Z.shiftr c 18) 0xf0) [] (fun dst =>
    PUT (Z.lor (Z.land (Z.shiftr c 12) 0x3f) 0x80) dst (fun dst =>
    PUT (Z.lor (Z.land (Z.shiftr c 6) 0x3f) 0x80) dst last)).

(** [PUT] inside a loop that may also fault. *)
Definition PUT_loop (w dstSize : Z) (x : Z) (dst : list Z)
    (k : list Z -> exec (error * Z * list Z)) : exec (error * Z * list Z) :=
  if dstSize <=? Z.of_nat (length dst)
  then Done (INSUFFICIENT_SPACE, Z.of_nat (length dst), dst)
  else k (dst ++ [wrapU w x]).

(** [PUT(0); return make_pair(OK,length-1);] *)
Definition terminate (w dstSize : Z) (dst : list Z) : exec (error * Z * list Z) :=
  PUT_loop w dstSize 0 dst (fun dst => Done (OK, Z.of_nat (length dst) - 1, dst)).

Fixpoint utf8toutf16_loop (fuel : nat) (dstSize : Z) (src dst : list Z)
    : exec (error * Z * list Z) :=
  match fuel with
  | O => Fault OutOfFuel
  | S fuel =>
      '(c, src) ← nextUtf8 src;
      if c =? 0 then terminate 16 dstSize dst else
      if c =? invalid then Done (INVALID_STRING, Z.of_nat (length dst), dst) else
      if 0xffff <? c then
        let leadOffset := 0xd800 - Z.shiftr 0x10000 10 in
        PUT_loop 16 dstSize (leadOffset + Z.shiftr c 10) dst (fun dst =>
        PUT_loop 16 dstSize (0xdc00 + Z.land c 0x3ff) dst (fun dst =>
        utf8toutf16_loop fuel dstSize src dst))
      else PUT_loop 16 dstSize c dst (fun dst => utf8toutf16_loop fuel dstSize src dst)
  end.

(** [utf8toutf16]: every iteration reads a byte, so one more than the buffer
    is fuel enough. *)
Definition utf8toutf16 (dstSize : Z) (src : list Z) : exec (error * Z * list Z) :=
  utf8toutf16_loop (S (length src)) dstSize src [].

(** [srcu++] on an utf16 buffer *)
Definition next_unit (src : list Z) : exec (Z * list Z) :=
  match src with [] => Fault Undefined | u :: src => Done (u16 u, src) end.

Fixpoint utf16toutf8_loop (fuel : nat) (dstSize : Z) (srcu dst : list Z)
    : exec (error * Z * list Z) :=
  match fuel with
  | O => Fault OutOfFuel
  | S fuel =>
      '(c, srcu) ← next_unit srcu;
      if c =? 0 then terminate 8 dstSize dst else
      let put (c : Z) (srcu : list Z) :=
        let length := Z.of_nat (length dst) in
        let '(first, second, written) := putUtf8 c (dstSize - length) in
        let dst := dst ++ written in
        let length := length + second in
        if bool_decide (first = OK) then utf16toutf8_loop fuel dstSize srcu dst
        else Done (first, length, dst) in
      if c <? 0x80 then
        PUT_loop 8 dstSize c dst (fun dst => utf16toutf8_loop fuel dstSize srcu dst)
      else if (0xd800 <=? c) && (c <=? 0xdbff) then
        '(next, srcu) ← next_unit srcu;
        if (next <? 0xdc00) || (0xdfff <? next)
        then Done (INVALID_STRING, Z.of_nat (length dst), dst) else
        let surrogateOffset := u32 (0x10000 - Z.shiftl 0xd800 10 - 0xdc00) in
        put (u32 (Z.shiftl c 10 + next + surrogateOffset)) srcu
      else if (0xdc00 <=? c) && (c <=? 0xdfff)
      then Done (INVALID_STRING, Z.of_nat (length dst), dst)
      else put c srcu
  end.

Definition utf16toutf8 (dstSize : Z) (src : list Z) : exec (error * Z * list Z) :=
  utf16toutf8_loop (S (length src)) dstSize src [].

Fixpoint validateUtf8_loop (fuel : nat) (str iter : list Z) : exec (bool * Z) :=
  match fuel with
  | O => Fault OutOfFuel
  | S fuel =>
      '(codePoint, iter) ← nextUtf8 iter;
      let len := Z.of_nat (length str) - Z.of_nat (length iter) in
      if codePoint =? 0 then Done (true, len) else
      if codePoint =? invalid then Done (false, len) else
      validateUtf8_loop fuel str iter
  end.

(** [validateUtf8]: [iter-str] is the number of bytes read. *)
Definition validateUtf8 (str : list Z) : exec (bool * Z) :=
  validateUtf8_loop (S (length str)) str str.

(** ** The Unicode standard's encodings, as arithmetic *)

(** Scalar values: code points without the surrogates. *)
Definition scalar (c : Z) : Prop := 0 <= c <= 0x10ffff /\ ~ (0xd800 <= c <= 0xdfff).

#[export] Instance scalar_dec c : Decision (scalar c).
Proof. unfold scalar. apply _. Defined.

Definition enc8 (c : Z) : list Z :=
  if c <? 0x80 then [c]
  else if c <? 0x800 then [0xc0 + c / 64; 0x80 + c mod 64]
  else if c <? 0x10000 then
    [0xe0 + c / 4096; 0x80 + (c / 64) mod 64; 0x80 + c mod 64]
  else
    [0xf0 + c / 262144; 0x80 + (c / 4096) mod 64; 0x80 + (c / 64) mod 64; 0x80 + c mod 64].

Definition enc16 (c : Z) : list Z :=
  if c <? 0x10000 then [c]
  else [0xd800 + (c - 0x10000) / 1024; 0xdc00 + (c - 0x10000) mod 1024].

Abbreviation byte b := (0 <= b < 256).

(** What a bounded writer leaves in [dst]: everything and its nul, or as much
    of it as fits. *)
Definition bounded (dstSize : Z) (out : list Z) : error * Z * list Z :=
  if Z.of_nat (length out) <? dstSize then (OK, Z.of_nat (length out), out ++ [0])
  else (INSUFFICIENT_SPACE, Z.of_nat (Z.to_nat dstSize), take (Z.to_nat dstSize) (out ++ [0])).

(** ** Bit tests as arithmetic *)

Lemma lead1 b : byte b -> (Z.land b 0xe0 =? 0xc0) = ((0xc0 <=? b) && (b <? 0xe0)).
Proof. intros Hb. apply eqb_true_iff. revert b Hb. by apply forall_byte. Qed.
Lemma lead2 b : byte b -> (Z.land b 0xf0 =? 0xe0) = ((0xe0 <=? b) && (b <? 0xf0)).
Proof. intros Hb. apply eqb_true_iff. revert b Hb. by apply forall_byte. Qed.
Lemma lead3 b : byte b -> (Z.land b 0xf8 =? 0xf0) = ((0xf0 <=? b) && (b <? 0xf8)).
Proof. intros Hb. apply eqb_true_iff. revert b Hb. by apply forall_byte. Qed.
Lemma cont_test b : byte b -> (Z.land b 0xc0 =? 0x80) = ((0x80 <=? b) && (b <? 0xc0)).
Proof. intros Hb. apply eqb_true_iff. revert b Hb. by apply forall_byte. Qed.
Lemma land_1f b : Z.land b 0x1f = b mod 32.
Proof. by apply (land_ones_mod 5). Qed.
Lemma land_0f b : Z.land b 0x0f = b mod 16.
Proof. by apply (land_ones_mod 4). Qed.
Lemma land_07 b : Z.land b 0x07 = b mod 8.
Proof. by apply (land_ones_mod 3). Qed.
Lemma land_3f b : Z.land b 0x3f = b mod 64.
Proof. by apply (land_ones_mod 6). Qed.
Lemma land_3ff b : Z.land b 0x3ff = b mod 1024.
Proof. by apply (land_ones_mod 10). Qed.

(** Appending six bits to the code point under construction. *)
Lemma append6 c b :
  0 <= c < 2 ^ 26 -> Z.lor (u32 (Z.shiftl c 6)) (Z.land b 0x3f) = c * 64 + b mod 64.
Proof.
  intros Hc. rewrite land_3f, wrapU_small, Z.lor_comm.
  - rewrite lor_shiftl_add by (auto with lia; apply Z.mod_pos_bound; lia). lia.
  - rewrite Z.shiftl_mul_pow2; lia.
Qed.

Ltac lor_marker n k :=
  intros; match goal with |- Z.lor ?x _ = _ =>
    let E := fresh in pose proof (lor_shiftl_add n x k ltac:(lia) ltac:(lia)) as E;
    let m := eval vm_compute in (Z.shiftl k n) in
    change (Z.shiftl k n) with m in E;
    let m := eval vm_compute in (k * 2 ^ n) in
    change (k * 2 ^ n) with m in E; lia end.

(** Setting the marker bits of a continuation byte, of a lead byte. *)
Lemma lor_80 x : 0 <= x < 64 -> Z.lor x 0x80 = 0x80 + x.
Proof. lor_marker 7 1. Qed.
Lemma lor_c0 x : 0 <= x < 32 -> Z.lor x 0xc0 = 0xc0 + x.
Proof. lor_marker 6 3. Qed.
Lemma lor_e0 x : 0 <= x < 16 -> Z.lor x 0xe0 = 0xe0 + x.
Proof. lor_marker 5 7. Qed.
Lemma lor_f0 x : 0 <= x < 8 -> Z.lor x 0xf0 = 0xf0 + x.
Proof. lor_marker 4 15. Qed.

Ltac zdiv := Z.div_mod_to_equations; lia.

(** ** Encoding *)

Lemma PUT_8 dstSize x dst k :
  byte x ->
  PUT 8 dstSize x dst k =
  if dstSize <=? Z.of_nat (length dst)
  then (INSUFFICIENT_SPACE, Z.of_nat (length dst), dst) else k (dst ++ [x]).
Proof. intros. unfold PUT. by rewrite wrapU_small. Qed.

(** What [putUtf8] should do: all of the encoding, or what fits. *)
Definition put_spec (c dstSize : Z) : error * Z * list Z :=
  if decide (scalar c) then
    if Z.of_nat (length (enc8 c)) <=? dstSize
    then (OK, Z.of_nat (length (enc8 c)), enc8 c)
    else (INSUFFICIENT_SPACE, Z.of_nat (Z.to_nat dstSize), take (Z.to_nat dstSize) (enc8 c))
  else (INVALID_STRING, 0, []).

Lemma shiftr_div_n c n : 0 <= n -> Z.shiftr c n = c / 2 ^ n.
Proof. by apply Z.shiftr_div_pow2. Qed.

Ltac small_size dstSize :=
  let H := fresh in
  assert (H : dstSize <= 0 \/ dstSize = 1 \/ dstSize = 2 \/ dstSize = 3 \/ 4 <= dstSize) by lia;
  destruct H as [H|[->|[->|[->|H]]]];
  [replace (Z.to_nat dstSize) with O by lia| | | |].

Lemma putUtf8_correct c dstSize : 0 <= c -> putUtf8 c dstSize = put_spec c dstSize.
Proof.
  intros Hc0. unfold putUtf8, put_spec, enc8.
  destruct (decide (scalar c)) as [[Hc Hs]|Hn].
  2: { unfold scalar in Hn.
       destruct (Z.leb_spec 0xd800 c), (Z.leb_spec c 0xdfff), (Z.ltb_spec 0x10ffff c);
         simpl; first [done|exfalso; apply Hn; lia]. }
  assert ((0xd800 <=? c) && (c <=? 0xdfff) = false) as -> by lia.
  assert ((0x10ffff <? c) = false) as -> by lia.
  rewrite land_3f, !shiftr_div_n, !land_3f by lia.
  destruct (Z.ltb_spec c 0x80); [|destruct (Z.ltb_spec c 0x800); [|destruct (Z.ltb_spec c 0x10000)]].
  all: rewrite ?(lor_80 (c mod 64)), ?(lor_80 ((c / 2 ^ 6) mod 64)),
    ?(lor_80 ((c / 2 ^ 12) mod 64)), ?lor_c0, ?lor_e0, ?lor_f0 by zdiv;
    rewrite !PUT_8 by zdiv; simpl length;
    change (2 ^ 6) with 64; change (2 ^ 12) with 4096; change (2 ^ 18) with 262144;
    rewrite ?PUT_8 by zdiv.
  all: small_size dstSize; repeat (case_cmp; simpl; try lia); try done.
  all: repeat (rewrite PUT_8 by zdiv; simpl; repeat (case_cmp; simpl; try lia)); done.
Qed.

(** ** Decoding *)

(** One step of the continuation loop, in arithmetic. *)
Lemma nextUtf8_loop_cons n e c b it :
  0 <= c < 2 ^ 26 -> byte b ->
  nextUtf8_loop (S n) e c (b :: it) =
  if (0x80 <=? b) && (b <? 0xc0) then nextUtf8_loop n e (c * 64 + (b - 0x80)) it
  else Done (None, it).
Proof.
  intros Hc Hb. simpl. rewrite (wrapU_small 8 b) by done.
  rewrite cont_test, append6 by done.
  destruct ((0x80 <=? b) && (b <? 0xc0)) eqn:E; simpl; [|done].
  do 2 f_equal. zdiv.
Qed.

Lemma enc8_byte c : scalar c -> Forall (fun b => byte b) (enc8 c).
Proof.
  intros [Hc _]. unfold enc8.
  repeat case_cmp; repeat constructor; zdiv.
Qed.

Lemma enc8_bounds c : (1 <= length (enc8 c) <= 4)%nat.
Proof. unfold enc8. repeat case_cmp; simpl; lia. Qed.

Lemma nextUtf8_enc8 c rest e :
  scalar c -> nextUtf8_impl (enc8 c ++ rest) e = Done (c, rest).
Proof.
  intros Hc. assert (Hb := enc8_byte c Hc). destruct Hc as [Hc Hs]. unfold enc8 in *.
  repeat case_cmp; simpl app; unfold nextUtf8_impl; inversion Hb; subst;
    rewrite wrapU_small by lia.
  1: by rewrite (proj2 (Z.ltb_lt c 0x80)).
  all: rewrite (proj2 (Z.ltb_ge _ 0x80)) by zdiv;
    rewrite ?lead1, ?lead2, ?lead3, ?land_1f, ?land_0f, ?land_07 by lia.
  - rewrite (proj2 (andb_true_iff _ _)) by zdiv.
    rewrite nextUtf8_loop_cons by zdiv.
    rewrite (proj2 (andb_true_iff _ _)) by zdiv. simpl.
    replace (_ * 64 + _) with c by zdiv.
    repeat case_cmp; try lia. by rewrite (proj2 (andb_false_iff _ _)) by zdiv.
  - assert ((0xc0 <=? 0xe0 + c / 4096) && (0xe0 + c / 4096 <? 0xe0) = false) as -> by zdiv.
    rewrite (proj2 (andb_true_iff _ _)) by zdiv.
    do 2 (rewrite nextUtf8_loop_cons by zdiv;
          rewrite (proj2 (andb_true_iff _ _)) by zdiv). simpl.
    replace ((_ * 64 + _) * 64 + _) with c by zdiv.
    repeat case_cmp; try lia. by rewrite (proj2 (andb_false_iff _ _)) by zdiv.
  - assert ((0xc0 <=? 0xf0 + c / 262144) && (0xf0 + c / 262144 <? 0xe0) = false) as -> by zdiv.
    assert ((0xe0 <=? 0xf0 + c / 262144) && (0xf0 + c / 262144 <? 0xf0) = false) as -> by zdiv.
    rewrite (proj2 (andb_true_iff _ _)) by zdiv.
    do 3 (rewrite nextUtf8_loop_cons by zdiv;
          rewrite (proj2 (andb_true_iff _ _)) by zdiv). simpl.
    replace (((_ * 64 + _) * 64 + _) * 64 + _) with c by zdiv.
    repeat case_cmp; try lia. by rewrite (proj2 (andb_false_iff _ _)) by zdiv.
Qed.

Lemma nextUtf8_loop_inv n e c it c' rest :
  0 <= c < 2 ^ (26 - 6 * Z.of_nat n) -> (n <= 3)%nat -> Forall (fun b => byte b) it ->
  nextUtf8_loop n e c it = Done (Some c', rest) ->
  exists bs, length bs = n /\ it = bs ++ rest /\ Forall (fun b => 0x80 <= b < 0xc0) bs /\
    c' = fold_left (fun c b => c * 64 + (b - 0x80)) bs c.
Proof.
  revert c it. induction n as [|n IH]; intros c it Hc Hn Hit H.
  { simplify_eq/=. by exists []. }
  destruct it as [|b it]; [by destruct e|]. inversion Hit; subst.
  assert (Hp : 0 < 2 ^ (26 - 6 * Z.of_nat (S n))) by lia.
  assert (Hpow : 2 ^ (26 - 6 * Z.of_nat n) = 64 * 2 ^ (26 - 6 * Z.of_nat (S n))).
  { change 64 with (2 ^ 6). rewrite <- Z.pow_add_r by lia. f_equal. lia. }
  assert (2 ^ (26 - 6 * Z.of_nat n) <= 2 ^ 26) by (apply Z.pow_le_mono_r; lia).
  rewrite nextUtf8_loop_cons in H by lia.
  destruct ((0x80 <=? b) && (b <? 0xc0)) eqn:E; [|done].
  apply IH in H as (bs & Hl & -> & Hbs & ->); [|lia|lia|done].
  exists (b :: bs). simpl. split_and!; try done; [lia|]. constructor; [lia|done].
Qed.

(** A multi-byte lead: what the decoder accepted is the canonical encoding. *)
Lemma nextUtf8_inv it e c rest :
  Forall (fun b => byte b) it -> nextUtf8_impl it e = Done (c, rest) -> c <> invalid ->
  (it = [] /\ e = true /\ c = 0 /\ rest = []) \/ (scalar c /\ it = enc8 c ++ rest).
Proof.
  intros Hit H Hc. destruct it as [|b it]; [destruct e; simplify_eq/=; by left|right].
  inversion Hit as [|?? Hb Hit']; subst. unfold nextUtf8_impl in H. rewrite wrapU_small in H by done.
  destruct (Z.ltb_spec b 0x80).
  { simplify_eq/=. split; [unfold scalar; lia|]. unfold enc8. by rewrite (proj2 (Z.ltb_lt c 0x80)). }
  rewrite lead1, lead2, lead3, land_1f, land_0f, land_07 in H by done.
  assert (Hmore : forall n c0 least,
    0 <= c0 < 2 ^ (26 - 6 * Z.of_nat n) -> (n <= 3)%nat ->
    ('(r, it) ← nextUtf8_loop n e c0 it;
        match r with
        | None => Done (invalid, it)
        | Some c =>
            if c <? least then Done (invalid, it) else
            if (0xd800 <=? c) && (c <=? 0xdfff) then Done (invalid, it) else
            if 0x10ffff <? c then Done (invalid, it) else
            Done (c, it)
        end) = Done (c, rest) ->
    exists bs, length bs = n /\ it = bs ++ rest /\ Forall (fun b => 0x80 <= b < 0xc0) bs /\
      c = fold_left (fun c b => c * 64 + (b - 0x80)) bs c0 /\ least <= c /\
      ~ (0xd800 <= c <= 0xdfff) /\ c <= 0x10ffff).
  { intros n c0 least Hc0 Hn Hm. destruct (nextUtf8_loop n e c0 it) as [[r it']|] eqn:El; [|done].
    simpl in Hm. destruct r as [c'|]; [|congruence].
    apply nextUtf8_loop_inv in El as (bs & ? & ? & ? & ?); try done.
    destruct (Z.ltb_spec c' least); [congruence|].
    destruct ((0xd800 <=? c') && (c' <=? 0xdfff)) eqn:?; [congruence|].
    destruct (Z.ltb_spec 0x10ffff c'); [congruence|]. simplify_eq/=.
    exists bs. split_and!; try done. lia. }
  destruct ((0xc0 <=? b) && (b <? 0xe0)) eqn:E1;
    [|destruct ((0xe0 <=? b) && (b <? 0xf0)) eqn:E2;
      [|destruct ((0xf0 <=? b) && (b <? 0xf8)) eqn:E3; [|congruence]]].
  all: apply Hmore in H as (bs & Hl & -> & Hbs & Hfold & ? & ? & ?);
    [clear Hmore|vm_compute (2 ^ _); zdiv|lia].
  all: repeat (destruct bs as [|? bs]; try discriminate Hl); simpl in Hfold;
    rewrite !Forall_cons in Hbs; destruct_and!;
    split; [unfold scalar; split; zdiv|];
    unfold enc8; repeat case_cmp; try lia; try zdiv; simpl; repeat f_equal; zdiv.
Qed.

(** ** Whole strings *)

(** The characters of a C string: scalar values other than the terminator. *)
Abbreviation chars cs := (Forall (fun c => scalar c /\ c <> 0) cs).

Lemma nextUtf8_nul junk : nextUtf8 (0 :: junk) = Done (0, junk).
Proof. done. Qed.

Section writer.
Context (w dstSize : Z).
Implicit Types (dst out : list Z).

(** Nothing beyond [dstSize] has been written. *)
Abbreviation fits dst := (Z.of_nat (length dst) <= Z.max 0 dstSize).

Lemma bounded_full dst out :
  fits dst -> dstSize <= Z.of_nat (length dst) ->
  bounded dstSize (dst ++ out) = (INSUFFICIENT_SPACE, Z.of_nat (length dst), dst).
Proof.
  intros Hf Hfull. unfold bounded. rewrite length_app.
  destruct (Z.ltb_spec (Z.of_nat (length dst + length out)) dstSize); [lia|].
  replace (Z.to_nat dstSize) with (length dst) by lia.
  by rewrite <- app_assoc, take_app_length.
Qed.

Lemma PUT_loop_bounded x dst out k :
  0 <= x < 2 ^ w -> fits dst ->
  (fits (dst ++ [x]) -> k (dst ++ [x]) = Done (bounded dstSize ((dst ++ [x]) ++ out))) ->
  PUT_loop w dstSize x dst k = Done (bounded dstSize (dst ++ x :: out)).
Proof.
  intros Hx Hf Hk. unfold PUT_loop. case_cmp.
  - by rewrite bounded_full.
  - rewrite wrapU_small, Hk, <- app_assoc by (done || rewrite length_app; simpl; lia). done.
Qed.

Lemma terminate_bounded dst :
  0 <= w -> fits dst -> terminate w dstSize dst = Done (bounded dstSize dst).
Proof.
  intros Hw Hf. unfold terminate, PUT_loop, bounded.
  destruct (Z.leb_spec dstSize (Z.of_nat (length dst))), (Z.ltb_spec (Z.of_nat (length dst)) dstSize); try lia.
  - replace (Z.to_nat dstSize) with (length dst) by lia. by rewrite take_app_length.
  - rewrite length_app, wrapU_small by (split; [lia|apply Z.pow_pos_nonneg; lia]).
    simpl. repeat f_equal. lia.
Qed.
End writer.

Lemma enc8_cons_not_nil cs : (length cs <= length (flat_map enc8 cs))%nat.
Proof. induction cs as [|c cs IH]; simpl; [lia|]. rewrite length_app. pose proof (enc8_bounds c). lia. Qed.

Lemma enc16_bounds c : (1 <= length (enc16 c) <= 2)%nat.
Proof. unfold enc16. case_cmp; simpl; lia. Qed.

Lemma enc16_cons_not_nil cs : (length cs <= length (flat_map enc16 cs))%nat.
Proof. induction cs as [|c cs IH]; simpl; [lia|]. rewrite length_app. pose proof (enc16_bounds c). lia. Qed.

Lemma utf8toutf16_loop_correct cs junk dstSize fuel dst :
  chars cs -> (length cs < fuel)%nat -> Z.of_nat (length dst) <= Z.max 0 dstSize ->
  utf8toutf16_loop fuel dstSize (flat_map enc8 cs ++ 0 :: junk) dst =
  Done (bounded dstSize (dst ++ flat_map enc16 cs)).
Proof.
  revert fuel dst. induction cs as [|c cs IH]; intros fuel dst Hcs Hfuel Hdst;
    (destruct fuel as [|fuel]; [simpl in Hfuel; lia|]).
  - simpl. rewrite app_nil_r. by apply terminate_bounded.
  - inversion Hcs as [|?? [Hc Hc0] Hcs']; subst.
    cbn [utf8toutf16_loop flat_map]. rewrite <- app_assoc. unfold nextUtf8 at 1.
    rewrite nextUtf8_enc8 by done. cbn [mbind outcome_bind].
    destruct Hc as [Hc Hs]. simpl in Hfuel. unfold enc16.
    rewrite (proj2 (Z.eqb_neq c 0)), (proj2 (Z.eqb_neq c invalid)) by (unfold invalid; lia).
    destruct (Z.ltb_spec 0xffff c), (Z.ltb_spec c 0x10000); try lia.
    + rewrite land_3ff, (shiftr_div_n c) by lia. change (2 ^ 10) with 1024.
      change (0xd800 - Z.shiftr 0x10000 10) with 55232.
      replace (55232 + c / 1024) with (0xd800 + (c - 0x10000) / 1024) by zdiv.
      replace (0xdc00 + c mod 1024) with (0xdc00 + (c - 0x10000) mod 1024) by zdiv.
      simpl app. apply PUT_loop_bounded; [zdiv|done|]. intros Hd1.
      apply PUT_loop_bounded; [zdiv|done|]. intros Hd2.
      by rewrite IH by (done || lia).
    + simpl app. apply PUT_loop_bounded; [lia|done|]. intros Hd1.
      by rewrite IH by (done || lia).
Qed.

Lemma next_unit_cons u src : 0 <= u < 2 ^ 16 -> next_unit (u :: src) = Done (u, src).
Proof. intros. unfold next_unit. by rewrite wrapU_small. Qed.

(** Joining the surrogate pair of a code point gives it back. *)
Lemma surrogate_join c :
  0x10000 <= c <= 0x10ffff ->
  u32 (Z.shiftl (0xd800 + (c - 0x10000) / 1024) 10 + (0xdc00 + (c - 0x10000) mod 1024)
       + u32 (0x10000 - Z.shiftl 0xd800 10 - 0xdc00)) = c.
Proof.
  intros Hc. pose proof (Z.div_mod (c - 0x10000) 1024 ltac:(lia)) as E.
  assert (u32 (0x10000 - Z.shiftl 0xd800 10 - 0xdc00) = 4238353408) as -> by reflexivity.
  rewrite Z.shiftl_mul_pow2 by lia. unfold wrapU.
  replace (_ + _) with (c + 1 * 2 ^ 32) by (clear - E; lia).
  rewrite Z_mod_plus_full, Z.mod_small; lia.
Qed.

Lemma utf16toutf8_loop_correct cs junk dstSize fuel dst :
  chars cs -> (length cs < fuel)%nat -> Z.of_nat (length dst) <= Z.max 0 dstSize ->
  utf16toutf8_loop fuel dstSize (flat_map enc16 cs ++ 0 :: junk) dst =
  Done (bounded dstSize (dst ++ flat_map enc8 cs)).
Proof.
  revert fuel dst. induction cs as [|c cs IH]; intros fuel dst Hcs Hfuel Hdst;
    (destruct fuel as [|fuel]; [simpl in Hfuel; lia|]).
  { simpl. rewrite app_nil_r. by apply terminate_bounded. }
  inversion Hcs as [|?? [Hc Hc0] Hcs']; subst. simpl in Hfuel.
  assert (Hput : forall k,
    (let '(first, second, written) := putUtf8 c (dstSize - Z.of_nat (length dst)) in
     let dst' := dst ++ written in
     let len := Z.of_nat (length dst) + second in
     if bool_decide (first = OK)
     then utf16toutf8_loop fuel dstSize (flat_map enc16 cs ++ 0 :: junk) dst'
     else Done (first, len, dst')) = k ->
    k = Done (bounded dstSize (dst ++ enc8 c ++ flat_map enc8 cs))).
  { intros k <-. destruct (Hc) as [Hr _].
    rewrite putUtf8_correct by lia. unfold put_spec. rewrite decide_True by done.
    destruct (Z.leb_spec (Z.of_nat (length (enc8 c))) (dstSize - Z.of_nat (length dst))).
    - rewrite bool_decide_true by done.
      rewrite IH by (done || rewrite ?length_app; lia). by rewrite <- app_assoc.
    - rewrite bool_decide_false by done. unfold bounded. rewrite !length_app.
      destruct (Z.ltb_spec (Z.of_nat (length dst + (length (enc8 c) + length (flat_map enc8 cs)))) dstSize); [lia|].
      do 2 f_equal; [f_equal; lia|].
      rewrite <- !app_assoc, (take_app dst), (take_ge dst) by lia. f_equal.
      rewrite take_app_le by lia. f_equal. lia. }
  destruct Hc as [Hc Hs]. cbn [utf16toutf8_loop flat_map]. rewrite <- app_assoc. unfold enc16 at 1.
  destruct (Z.ltb_spec c 0x10000).
  - simpl app. rewrite next_unit_cons by lia. cbn [mbind outcome_bind].
    rewrite (proj2 (Z.eqb_neq c 0)) by lia.
    destruct (Z.ltb_spec c 0x80).
    + unfold enc8 at 1. rewrite (proj2 (Z.ltb_lt c 0x80)) by done. simpl app.
      apply PUT_loop_bounded; [lia|done|]. intros Hd.
      by rewrite IH by (done || lia).
    + rewrite (proj2 (andb_false_iff _ _)), (proj2 (andb_false_iff _ _)) by lia. by apply Hput.
  - simpl app. rewrite next_unit_cons by zdiv. cbn [mbind outcome_bind].
    rewrite (proj2 (Z.eqb_neq _ 0)), (proj2 (Z.ltb_ge _ 0x80)) by zdiv.
    rewrite (proj2 (andb_true_iff _ _)) by zdiv.
    rewrite next_unit_cons by zdiv. cbn [mbind outcome_bind].
    rewrite (proj2 (orb_false_iff _ _)) by zdiv.
    replace (u32 (Z.shiftl _ 10 + _ + _)) with c; [by apply Hput|].
    symmetry. apply surrogate_join; lia.
Qed.

(** ** Arbitrary nul-terminated buffers *)

Lemma nextUtf8_loop_total n c it :
  0 <= c < 2 ^ (26 - 6 * Z.of_nat n) -> (n <= 3)%nat ->
  Forall (fun b => byte b) it -> 0 ∈ it ->
  exists r rest, nextUtf8_loop n false c it = Done (r, rest) /\
    (length rest <= length it)%nat /\ (r <> None -> 0 ∈ rest).
Proof.
  revert c it. induction n as [|n IH]; intros c it Hc Hn Hit H0; [by exists (Some c), it|].
  destruct it as [|b it]; [by apply not_elem_of_nil in H0|].
  inversion Hit; subst.
  assert (Hp : 0 < 2 ^ (26 - 6 * Z.of_nat (S n))) by lia.
  assert (Hpow : 2 ^ (26 - 6 * Z.of_nat n) = 64 * 2 ^ (26 - 6 * Z.of_nat (S n))).
  { change 64 with (2 ^ 6). rewrite <- Z.pow_add_r by lia. f_equal. lia. }
  assert (2 ^ (26 - 6 * Z.of_nat n) <= 2 ^ 26) by (apply Z.pow_le_mono_r; lia).
  rewrite nextUtf8_loop_cons by lia.
  destruct ((0x80 <=? b) && (b <? 0xc0)) eqn:E; [|by exists None, it; simpl; split_and!; try lia].
  apply elem_of_cons in H0 as [?|H0]; [by subst b|].
  destruct (IH (c * 64 + (b - 0x80)) it) as (r & rest & ? & ? & ?); [lia|lia|done|done|].
  exists r, rest. simpl. split_and!; try done. lia.
Qed.

Lemma nextUtf8_total it :
  Forall (fun b => byte b) it -> 0 ∈ it ->
  exists c rest, nextUtf8 it = Done (c, rest) /\ (length rest < length it)%nat /\
    (c = 0 \/ c = invalid \/ 0 ∈ rest).
Proof.
  intros Hit H0. destruct it as [|b it]; [by apply not_elem_of_nil in H0|].
  inversion Hit as [|?? Hb Hit']; subst. unfold nextUtf8, nextUtf8_impl. rewrite wrapU_small by done.
  destruct (Z.ltb_spec b 0x80).
  { exists b, it. apply elem_of_cons in H0. simpl. split_and!; [done|lia|].
    destruct H0; [left; done|auto]. }
  apply elem_of_cons in H0 as [?|H0]; [lia|].
  rewrite lead1, lead2, lead3, land_1f, land_0f, land_07 by done.
  assert (Hmore : forall n c0 least,
    0 <= c0 < 2 ^ (26 - 6 * Z.of_nat n) -> (n <= 3)%nat ->
    exists c rest, ('(r, it) ← nextUtf8_loop n false c0 it;
        match r with
        | None => Done (invalid, it)
        | Some c =>
            if c <? least then Done (invalid, it) else
            if (0xd800 <=? c) && (c <=? 0xdfff) then Done (invalid, it) else
            if 0x10ffff <? c then Done (invalid, it) else
            Done (c, it)
        end) = Done (c, rest) /\ (length rest < length (b :: it))%nat /\
      (c = 0 \/ c = invalid \/ 0 ∈ rest)).
  { intros n c0 least Hc0 Hn.
    destruct (nextUtf8_loop_total n c0 it) as (r & rest & -> & Hl & Hr); try done. simpl.
    destruct r as [c|]; [|exists invalid, rest; split_and!; auto with lia].
    specialize (Hr ltac:(done)).
    repeat match goal with |- context [if ?t then _ else _] => destruct t end;
      eexists _, rest; split_and!; try done; auto with lia. }
  repeat match goal with |- context [if ?t then _ else _] => destruct t end;
    try (apply Hmore; [vm_compute (2 ^ _); zdiv|lia]).
  exists invalid, it. simpl. split_and!; auto with lia.
Qed.

Lemma PUT_loop_total w dstSize x dst k P :
  Z.of_nat (length dst) <= Z.max 0 dstSize ->
  P (INSUFFICIENT_SPACE, Z.of_nat (length dst), dst) ->
  (Z.of_nat (length (dst ++ [wrapU w x])) <= Z.max 0 dstSize ->
   exists r, k (dst ++ [wrapU w x]) = Done r /\ P r) ->
  exists r, PUT_loop w dstSize x dst k = Done r /\ P r.
Proof.
  intros Hd HP Hk. unfold PUT_loop. case_cmp; [eauto|].
  apply Hk. rewrite length_app. simpl. lia.
Qed.

(** What the caller of a bounded writer may rely on whatever the input. *)
Definition in_bounds (dstSize : Z) (r : error * Z * list Z) : Prop :=
  Z.of_nat (length r.2) <= Z.max 0 dstSize /\
  r.1.2 = Z.of_nat (length r.2) - (if bool_decide (r.1.1 = OK) then 1 else 0) /\
  (r.1.1 = OK -> last r.2 = Some 0).

Lemma in_bounds_error dstSize e dst :
  e <> OK -> Z.of_nat (length dst) <= Z.max 0 dstSize ->
  in_bounds dstSize (e, Z.of_nat (length dst), dst).
Proof. intros He Hd. unfold in_bounds. simpl. rewrite bool_decide_false by done. split_and!; [done|lia|done]. Qed.

Lemma terminate_total w dstSize dst :
  Z.of_nat (length dst) <= Z.max 0 dstSize ->
  exists r, terminate w dstSize dst = Done r /\ in_bounds dstSize r.
Proof.
  intros Hd. unfold terminate. apply PUT_loop_total; [done|by apply in_bounds_error|].
  intros Hd'. eexists. split; [done|]. unfold in_bounds. simpl.
  split_and!; [done|done|]. intros _. rewrite last_snoc. unfold wrapU. by rewrite Zmod_0_l.
Qed.

(** ** Properties *)

Lemma utf8toutf16_loop_total dstSize fuel src dst :
  (length src < fuel)%nat -> Forall (fun b => byte b) src -> 0 ∈ src ->
  Z.of_nat (length dst) <= Z.max 0 dstSize ->
  exists r, utf8toutf16_loop fuel dstSize src dst = Done r /\ in_bounds dstSize r.
Proof.
  revert src dst. induction fuel as [|fuel IH]; intros src dst Hf Hs H0 Hd; [lia|].
  destruct (nextUtf8_total src Hs H0) as (c & rest & Hn & Hl & Hc).
  simpl. rewrite Hn. simpl.
  destruct (Z.eqb_spec c 0); [by apply terminate_total|].
  destruct (Z.eqb_spec c invalid); [eexists; split; [done|by apply in_bounds_error]|].
  assert (Hrest : Forall (fun b => byte b) rest).
  { apply nextUtf8_inv in Hn as [(_&?&?)|[_ ->]]; [done|by apply Forall_app in Hs as []|done|done]. }
  assert (0 ∈ rest) by naive_solver.
  repeat case_cmp; repeat (apply PUT_loop_total; [done|by apply in_bounds_error|intros]);
    apply IH; done || lia.
Qed.

Lemma utf16toutf8_loop_total dstSize fuel src dst :
  (length src < fuel)%nat -> Forall (fun u => 0 <= u < 2 ^ 16) src -> 0 ∈ src ->
  Z.of_nat (length dst) <= Z.max 0 dstSize ->
  exists r, utf16toutf8_loop fuel dstSize src dst = Done r /\ in_bounds dstSize r.
Proof.
  revert src dst. induction fuel as [|fuel IH]; intros src dst Hf Hs H0 Hd; [lia|].
  destruct src as [|u src]; [by apply not_elem_of_nil in H0|].
  inversion Hs as [|?? Hu Hs']; subst. simpl in Hf.
  cbn [utf16toutf8_loop]. rewrite next_unit_cons by done. cbn [mbind outcome_bind].
  destruct (Z.eqb_spec u 0); [by apply terminate_total|].
  apply elem_of_cons in H0 as [?|H0]; [lia|].
  assert (Hput : forall c src', 0 <= c -> (length src' < fuel)%nat ->
    Forall (fun u => 0 <= u < 2 ^ 16) src' -> 0 ∈ src' ->
    exists r, (let '(first, second, written) := putUtf8 c (dstSize - Z.of_nat (length dst)) in
     let dst' := dst ++ written in
     let len := Z.of_nat (length dst) + second in
     if bool_decide (first = OK) then utf16toutf8_loop fuel dstSize src' dst'
     else Done (first, len, dst')) = Done r /\ in_bounds dstSize r).
  { intros c src' Hc Hsrc' Hs'' H0'. rewrite putUtf8_correct by done. unfold put_spec.
    destruct (decide (scalar c)); [case_cmp|].
    - rewrite bool_decide_true by done. apply IH; try done. rewrite length_app. lia.
    - rewrite bool_decide_false by done. eexists. split; [done|].
      assert (length (take (Z.to_nat (dstSize - Z.of_nat (length dst))) (enc8 c)) =
              Z.to_nat (dstSize - Z.of_nat (length dst))) as El by (apply length_take_le; lia).
      unfold in_bounds. simpl. rewrite length_app, El. split_and!; [lia|lia|done].
    - rewrite bool_decide_false by done. eexists. split; [done|].
      unfold in_bounds. simpl. rewrite app_nil_r. split_and!; [lia|lia|done]. }
  destruct (Z.ltb_spec u 0x80).
  { apply PUT_loop_total; [done|by apply in_bounds_error|intros]. apply IH; done || lia. }
  destruct ((0xd800 <=? u) && (u <=? 0xdbff)).
  - destruct src as [|v src]; [by apply not_elem_of_nil in H0|].
    inversion Hs' as [|?? Hv Hs'']; subst. rewrite next_unit_cons by done. cbn [mbind outcome_bind].
    destruct ((v <? 0xdc00) || (0xdfff <? v)) eqn:Hv'.
    { eexists; split; [done|by apply in_bounds_error]. }
    apply elem_of_cons in H0 as [?|H0]; [lia|]. simpl in Hf.
    apply Hput; try done; [apply wrapU_bound|]; lia.
  - destruct ((0xdc00 <=? u) && (u <=? 0xdfff)).
    { eexists; split; [done|by apply in_bounds_error]. }
    apply Hput; try done; lia.
Qed.

(** [nextUtf8] accepts exactly the well formed utf8: for a buffer of bytes,
    it returns a code point other than [Unicode::invalid] if and only if the
    buffer starts with the canonical encoding of a scalar value (no overlong
    form, no surrogate, nothing above 0x10ffff), which is the value returned,
    and the iterator is left right after that encoding.  The only other case
    is the 0 of an exhausted range. *)
Theorem nextUtf8_exact it e c rest :
  Forall (fun b => byte b) it ->
  nextUtf8_impl it e = Done (c, rest) /\ c <> invalid <->
  (it = [] /\ e = true /\ c = 0 /\ rest = []) \/ (scalar c /\ it = enc8 c ++ rest).
Proof.
  intros Hit. split.
  - intros [H Hc]. by apply nextUtf8_inv.
  - intros [(->&->&->&->)|[Hc ->]]; [done|]. rewrite nextUtf8_enc8 by done.
    split; [done|]. destruct Hc. unfold invalid. lia.
Qed.

Lemma nextUtf8_exact_witness :
  scalar 0x20ac /\ [0xe2; 0x82; 0xac; 0x21] = enc8 0x20ac ++ [0x21].
Proof.
  destruct (proj1 (nextUtf8_exact [0xe2; 0x82; 0xac; 0x21] false 0x20ac [0x21]
    ltac:(repeat constructor; lia)) ltac:(split; [reflexivity|done])) as [[[=] _]|H].
  exact H.
Defined.

(** [putUtf8] on every code point and buffer size: a scalar value that fits
    is written as its encoding and its length returned with OK; one that does
    not fit writes the bytes that fit and nothing past [dstSize]; a surrogate
    or a value above 0x10ffff writes nothing and is INVALID_STRING.  What it
    writes for a scalar value is decoded by [nextUtf8] to that value. *)
Theorem putUtf8_roundtrip c dstSize rest :
  0 <= c ->
  putUtf8 c dstSize = put_spec c dstSize /\
  (scalar c -> 4 <= dstSize ->
   nextUtf8 ((putUtf8 c dstSize).2 ++ rest) = Done (c, rest)).
Proof.
  intros Hc. rewrite putUtf8_correct by done. split; [done|].
  intros Hs Hd. unfold put_spec. rewrite decide_True by done.
  pose proof (enc8_bounds c). case_cmp; [|lia]. by apply nextUtf8_enc8.
Qed.

Lemma putUtf8_roundtrip_witness :
  putUtf8 0x1f600 3 = (INSUFFICIENT_SPACE, 3, [0xf0; 0x9f; 0x98]) /\
  nextUtf8 ((putUtf8 0x1f600 4).2 ++ [0x41]) = Done (0x1f600, [0x41]).
Proof.
  split.
  - rewrite (proj1 (putUtf8_roundtrip 0x1f600 3 [] ltac:(lia))). reflexivity.
  - apply (proj2 (putUtf8_roundtrip 0x1f600 4 [0x41] ltac:(lia))); [unfold scalar; lia|lia].
Defined.

(** C40: The string conversions are the two encodings of the same sequence of
    scalar values: [utf8toutf16] turns the utf8 string of any characters into
    their utf16 string and [utf16toutf8] turns it back, with the length
    without the terminator when the destination holds the string and its nul,
    and with INSUFFICIENT_SPACE and the part that fits otherwise. *)
Theorem utf_conversions_correct cs junk dstSize :
  chars cs ->
  utf8toutf16 dstSize (flat_map enc8 cs ++ 0 :: junk) =
    Done (bounded dstSize (flat_map enc16 cs)) /\
  utf16toutf8 dstSize (flat_map enc16 cs ++ 0 :: junk) =
    Done (bounded dstSize (flat_map enc8 cs)).
Proof.
  intros Hcs. unfold utf8toutf16, utf16toutf8. split.
  - rewrite utf8toutf16_loop_correct; simpl; try done; [|lia].
    rewrite length_app. pose proof (enc8_cons_not_nil cs). lia.
  - rewrite utf16toutf8_loop_correct; simpl; try done; [|lia].
    rewrite length_app. pose proof (enc16_cons_not_nil cs). lia.
Qed.

Lemma utf_conversions_correct_witness :
  utf8toutf16 3 [0xf0; 0x9f; 0x98; 0x80; 0] = Done (OK, 2, [0xd83d; 0xde00; 0]) /\
  utf16toutf8 5 [0xd83d; 0xde00; 0] = Done (OK, 4, [0xf0; 0x9f; 0x98; 0x80; 0]).
Proof.
  assert (Hc : chars [0x1f600]) by (repeat constructor; unfold scalar; lia).
  split.
  - exact (proj1 (utf_conversions_correct [0x1f600] [] 3 Hc)).
  - exact (proj2 (utf_conversions_correct [0x1f600] [] 5 Hc)).
Defined.

(** Memory safety of the conversions: on any nul-terminated buffer, valid or
    not, they return (they neither run past the terminator nor loop), they
    write at most [dstSize] units, the length they return is the number of
    units written, without the nul when the result is OK, and an OK result is
    nul-terminated. *)
Theorem utf_conversions_safe src src16 dstSize :
  Forall (fun b => byte b) src -> 0 ∈ src ->
  Forall (fun u => 0 <= u < 2 ^ 16) src16 -> 0 ∈ src16 ->
  (exists r, utf8toutf16 dstSize src = Done r /\ in_bounds dstSize r) /\
  (exists r, utf16toutf8 dstSize src16 = Done r /\ in_bounds dstSize r).
Proof.
  intros. split.
  - apply utf8toutf16_loop_total; simpl; done || lia.
  - apply utf16toutf8_loop_total; simpl; done || lia.
Qed.

Lemma utf_conversions_safe_witness :
  exists r, utf8toutf16 1 [0xc0; 0x80; 0] = Done r /\ in_bounds 1 r.
Proof.
  apply (utf_conversions_safe [0xc0; 0x80; 0] [0] 1).
  - repeat constructor; lia.
  - set_solver.
  - repeat constructor; lia.
  - set_solver.
Defined.

Lemma validateUtf8_loop_correct fuel str iter :
  (length iter < fuel)%nat -> Forall (fun b => byte b) iter -> 0 ∈ iter ->
  exists ok len, validateUtf8_loop fuel str iter = Done (ok, len) /\
    (ok = true <-> exists cs junk, chars cs /\ iter = flat_map enc8 cs ++ 0 :: junk /\
       len = Z.of_nat (length str) - Z.of_nat (length junk)).
Proof.
  revert iter. induction fuel as [|fuel IH]; intros iter Hf Hb H0; [lia|].
  destruct (nextUtf8_total iter Hb H0) as (c & rest & Hn & Hl & Hc).
  simpl. rewrite Hn. simpl.
  assert (Hcons : forall c' cs junk, chars (c' :: cs) ->
    iter = flat_map enc8 (c' :: cs) ++ 0 :: junk -> c = c' /\ rest = flat_map enc8 cs ++ 0 :: junk).
  { intros c' cs junk Hcs ->. inversion Hcs as [|?? [? ?]]; subst. simpl in Hn.
    rewrite <- app_assoc in Hn. unfold nextUtf8 in Hn. rewrite nextUtf8_enc8 in Hn by done. by simplify_eq. }
  destruct (Z.eqb_spec c 0) as [->|Hc0]; [|destruct (Z.eqb_spec c invalid) as [->|Hci]].
  - eexists _, _. split; [done|]. split; [intros _|done].
    apply nextUtf8_inv in Hn as [(->&?&_)|[_ ->]]; [done| |done|done].
    by exists [], rest.
  - eexists _, _. split; [done|]. split; [done|]. intros ([|c' cs] & junk & Hcs & -> & _).
    + by simpl in Hn.
    + destruct (Hcons _ _ _ Hcs eq_refl) as [<- _].
      inversion Hcs as [|?? [[? _] _]]; subst. unfold invalid in *. lia.
  - pose proof Hn as Hs. apply nextUtf8_inv in Hs as [(_&?&_)|[Hs ->]]; [done| |done|done].
    destruct (IH rest) as (ok & len & -> & Hok); [lia|by apply Forall_app in Hb as []|naive_solver|].
    eexists _, _. split; [done|]. rewrite Hok. split.
    + intros (cs & junk & Hcs & -> & ->). exists (c :: cs), junk. simpl. rewrite <- app_assoc.
      split_and!; [by constructor|done|done].
    + intros ([|c' cs] & junk & Hcs & E & ->).
      * exfalso. unfold nextUtf8 in Hn. rewrite E in Hn. by simplify_eq/=.
      * destruct (Hcons _ _ _ Hcs E) as [_ ->]. inversion Hcs; subst. by exists cs, junk.
Qed.

(** [validateUtf8] decides validity: on any nul-terminated buffer it returns,
    and the bool is true exactly when the bytes up to the first nul are the
    utf8 encoding of a sequence of scalar values; the length is then the
    number of bytes read, terminator included. *)
Theorem validateUtf8_decides str :
  Forall (fun b => byte b) str -> 0 ∈ str ->
  exists ok len, validateUtf8 str = Done (ok, len) /\
    (ok = true <-> exists cs junk, chars cs /\ str = flat_map enc8 cs ++ 0 :: junk /\
       len = Z.of_nat (length str) - Z.of_nat (length junk)).
Proof. intros. apply validateUtf8_loop_correct; done || lia. Qed.

Lemma validateUtf8_decides_witness :
  exists ok len, validateUtf8 [0xc3; 0xa8; 0; 7] = Done (ok, len) /\ ok = true /\ len = 3.
Proof.
  destruct (validateUtf8_decides [0xc3; 0xa8; 0; 7]) as (ok & len & H & _);
    [repeat constructor; lia|set_solver|].
  exists ok, len. split; [exact H|]. vm_compute in H. by simplify_eq.
Defined.
