(* ===== verification/Crc16.v ===== *)
(** * Checksums

    [util/crc16.cpp]: the 16 bit CCITT checksum, a byte at a time with shifts,
    and the definition by bits it stands for. *)
From S2P Require Import Prelude.

Local Open Scope Z_scope.

Module Crc16.

Definition crc16Update (crc data : Z) : Z :=
  let x := Z.land (Z.lxor (Z.shiftr crc 8) data) 0xff in
  let x := Z.lxor x (Z.shiftr x 4) in
  u16 (Z.lxor (Z.lxor (Z.lxor (Z.shiftl crc 8) (Z.shiftl x 12)) (Z.shiftl x 5)) x).

(** The loop over the message. *)
Definition crc16_from (crc : Z) (message : list Z) : Z := fold_left crc16Update message crc.
Definition crc16 (message : list Z) : Z := crc16_from 0xffff message.

(** ** By bits

    The remainder by [x^16 + x^12 + x^5 + 1] of the message. *)
Definition crc_bit (c : Z) : Z := Z.lxor (Z.land (Z.shiftl c 1) 0xffff) (if Z.testbit c 15 then 0x1021 else 0).
Definition crc_bits (c : Z) : Z := Nat.iter 8 crc_bit c.
Definition crc_byte (crc data : Z) : Z := crc_bits (Z.lxor crc (Z.shiftl data 8)).
Definition crc_ccitt (message : list Z) : Z := fold_left crc_byte message 0xffff.

Lemma land_lxor a b m : Z.land (Z.lxor a b) m = Z.lxor (Z.land a m) (Z.land b m).
Proof. apply Z.bits_inj'. intros i Hi. rewrite Z.lxor_spec, !Z.land_spec, Z.lxor_spec. by destruct (Z.testbit a i), (Z.testbit b i), (Z.testbit m i). Qed.

Lemma lxor_4 a b c d : Z.lxor (Z.lxor a b) (Z.lxor c d) = Z.lxor (Z.lxor a c) (Z.lxor b d).
Proof. rewrite !Z.lxor_assoc. f_equal. rewrite <- !Z.lxor_assoc. f_equal. apply Z.lxor_comm. Qed.

Lemma crc_bit_lxor a b : crc_bit (Z.lxor a b) = Z.lxor (crc_bit a) (crc_bit b).
Proof.
  unfold crc_bit. rewrite Z.shiftl_lxor, land_lxor, Z.lxor_spec, lxor_4. f_equal.
  destruct (Z.testbit a 15), (Z.testbit b 15); reflexivity.
Qed.

Lemma crc_bits_lxor a b : crc_bits (Z.lxor a b) = Z.lxor (crc_bits a) (crc_bits b).
Proof. unfold crc_bits. cbn [Nat.iter nat_rect]. by rewrite !crc_bit_lxor. Qed.

(** What the shifts do to a byte. *)
Definition table (x : Z) : Z := let x := Z.lxor x (Z.shiftr x 4) in Z.land (Z.lxor (Z.lxor (Z.shiftl x 12) (Z.shiftl x 5)) x) 0xffff.

Lemma table_bits x : 0 <= x < 256 -> table x = crc_bits (Z.shiftl x 8).
Proof. intros Hx. apply Z.eqb_eq. revert x Hx. apply (forall_byte (fun x => table x =? crc_bits (Z.shiftl x 8))). vm_compute. reflexivity. Qed.

Lemma low_bits x : 0 <= x < 256 -> Z.shiftl x 8 = crc_bits x.
Proof. intros Hx. apply Z.eqb_eq. revert x Hx. apply (forall_byte (fun x => Z.shiftl x 8 =? crc_bits x)). vm_compute. reflexivity. Qed.

(** The two bytes of a checksum. *)
Definition high (c : Z) : Z := Z.shiftr c 8.
Definition low (c : Z) : Z := Z.land c 0xff.

Lemma high_low c : c = Z.lxor (Z.shiftl (high c) 8) (low c).
Proof.
  apply Z.bits_inj'. intros i Hi. unfold high, low. rewrite Z.lxor_spec, Z.land_spec, Z.shiftl_spec by done. change 0xff with (Z.ones 8).
  destruct (Z.lt_ge_cases i 8).
  - rewrite (Z.testbit_neg_r _ (i - 8)) by lia. rewrite Z.ones_spec_low by lia. by rewrite andb_true_r.
  - rewrite Z.shiftr_spec by lia. rewrite Z.ones_spec_high by lia. rewrite andb_false_r, xorb_false_r. f_equal. lia.
Qed.

Lemma high_bound c : 0 <= c < 2 ^ 16 -> 0 <= high c < 256.
Proof. intros Hc. unfold high. rewrite Z.shiftr_div_pow2 by lia. change (2 ^ 8) with 256. change (2 ^ 16) with (256 * 256) in Hc. split; [apply Z.div_pos; lia|apply Z.div_lt_upper_bound; lia]. Qed.

Lemma low_bound c : 0 <= low c < 256.
Proof. unfold low. change 0xff with (Z.ones 8). rewrite Z.land_ones by lia. apply Z.mod_pos_bound. done. Qed.

Lemma byte_lxor a b : 0 <= a < 256 -> 0 <= b < 256 -> 0 <= Z.lxor a b < 256.
Proof.
  intros Ha Hb. assert (E : Z.lxor a b = low (Z.lxor a b)); [|rewrite E; apply low_bound].
  unfold low. rewrite land_lxor. change 0xff with (Z.ones 8). rewrite !Z.land_ones by lia. by rewrite !Z.mod_small.
Qed.

(** The shifts compute the remainder. *)
Lemma crc16Update_table crc data : 0 <= crc < 2 ^ 16 -> 0 <= data < 256 -> crc16Update crc data = Z.lxor (Z.shiftl (low crc) 8) (table (Z.lxor (high crc) data)).
Proof.
  intros Hc Hd. unfold crc16Update. pose proof (byte_lxor _ _ (high_bound crc Hc) Hd) as Hx. fold (high crc).
  replace (Z.land (Z.lxor (high crc) data) 0xff) with (Z.lxor (high crc) data) by (change 0xff with (Z.ones 8); rewrite Z.land_ones by lia; by rewrite Z.mod_small).
  unfold table, wrapU. set (y := Z.lxor _ (Z.shiftr _ 4)). rewrite <- Z.land_ones by lia. change (Z.ones 16) with 0xffff.
  rewrite !Z.lxor_assoc, land_lxor. f_equal. apply Z.bits_inj'. intros i Hi. unfold low. rewrite Z.land_spec. change 0xffff with (Z.ones 16). change 0xff with (Z.ones 8).
  rewrite !Z.shiftl_spec by done. destruct (Z.lt_ge_cases i 8); [by rewrite !(Z.testbit_neg_r _ (i - 8)) by lia|]. rewrite Z.land_spec.
  destruct (Z.lt_ge_cases i 16); [rewrite !Z.ones_spec_low by lia|rewrite !Z.ones_spec_high by lia]; done.
Qed.

Lemma crc16Update_bits crc data : 0 <= crc < 2 ^ 16 -> 0 <= data < 256 -> crc16Update crc data = crc_byte crc data.
Proof.
  intros Hc Hd. rewrite crc16Update_table by done. pose proof (byte_lxor _ _ (high_bound crc Hc) Hd) as Hx.
  rewrite table_bits, low_bits by (done || apply low_bound). rewrite <- crc_bits_lxor. unfold crc_byte. f_equal.
  rewrite (high_low crc) at 3. rewrite Z.shiftl_lxor. rewrite !Z.lxor_assoc, (Z.lxor_comm (low crc)), !Z.lxor_assoc. f_equal. apply Z.lxor_comm.
Qed.

Lemma crc16Update_bound crc data : 0 <= crc16Update crc data < 2 ^ 16.
Proof. by apply wrapU_bound. Qed.

(** A byte is recovered from the low byte of its entry. *)
Definition untable (y : Z) : Z := let x := Z.lxor y (Z.land (Z.shiftl y 5) 0xff) in Z.lxor x (Z.shiftr x 4).

Lemma untable_table x : 0 <= x < 256 -> untable (low (table x)) = x.
Proof. intros Hx. apply Z.eqb_eq. revert x Hx. apply (forall_byte (fun x => untable (low (table x)) =? x)). vm_compute. reflexivity. Qed.

Lemma table_inj x y : 0 <= x < 256 -> 0 <= y < 256 -> low (table x) = low (table y) -> x = y.
Proof. intros Hx Hy E. by rewrite <- (untable_table x), E, untable_table. Qed.

Lemma low_update crc data : 0 <= crc < 2 ^ 16 -> 0 <= data < 256 -> low (crc16Update crc data) = low (table (Z.lxor (high crc) data)).
Proof.
  intros Hc Hd. rewrite crc16Update_table by done. unfold low. rewrite land_lxor.
  replace (Z.land (Z.shiftl (Z.land crc 255) 8) 255) with 0; [apply Z.lxor_0_l|]. apply Z.bits_inj'. intros i Hi. change 255 with (Z.ones 8).
  rewrite Z.bits_0, Z.land_spec, Z.shiftl_spec by done. destruct (Z.lt_ge_cases i 8); [by rewrite Z.testbit_neg_r by lia|]. by rewrite Z.ones_spec_high, andb_false_r by lia.
Qed.

(** The update is reversible, in both arguments. *)
Lemma crc16Update_inj crc crc' data data' :
  0 <= crc < 2 ^ 16 -> 0 <= crc' < 2 ^ 16 -> 0 <= data < 256 -> 0 <= data' < 256 -> crc16Update crc data = crc16Update crc' data' ->
  Z.lxor (high crc) data = Z.lxor (high crc') data' /\ low crc = low crc'.
Proof.
  intros Hc Hc' Hd Hd' E. pose proof (byte_lxor _ _ (high_bound crc Hc) Hd) as Hx. pose proof (byte_lxor _ _ (high_bound crc' Hc') Hd') as Hx'.
  assert (Ex : Z.lxor (high crc) data = Z.lxor (high crc') data').
  { apply table_inj; [done..|]. rewrite <- !low_update by done. by rewrite E. }
  split; [done|]. rewrite !crc16Update_table, Ex in E by done. apply (f_equal (fun v => Z.lxor v (table (Z.lxor (high crc') data')))) in E.
  rewrite !Z.lxor_assoc, Z.lxor_nilpotent, !Z.lxor_0_r in E. apply (f_equal (fun v => Z.shiftr v 8)) in E. by rewrite !Z.shiftr_shiftl_l in E by lia.
Qed.

Definition is_message (m : list Z) : Prop := Forall (fun c => 0 <= c < 256) m.

Lemma fold_left_cons {A B} (f : A -> B -> A) x l a : fold_left f (x :: l) a = fold_left f l (f a x).
Proof. reflexivity. Qed.

Lemma crc16_from_cons crc c m : crc16_from crc (c :: m) = crc16_from (crc16Update crc c) m.
Proof. apply fold_left_cons. Qed.

Lemma crc16_from_bound crc m : 0 <= crc < 2 ^ 16 -> 0 <= crc16_from crc m < 2 ^ 16.
Proof. revert crc. induction m as [|c m IH]; intros crc Hc; [done|]. rewrite crc16_from_cons. apply IH, crc16Update_bound. Qed.

Lemma crc16_from_inj m : forall crc crc', is_message m -> 0 <= crc < 2 ^ 16 -> 0 <= crc' < 2 ^ 16 -> crc16_from crc m = crc16_from crc' m -> crc = crc'.
Proof.
  induction m as [|c m IH]; intros crc crc' Hm Hc Hc' E; [done|]. inversion Hm as [|?? Hb Hm']; subst.
  assert (Eu : crc16Update crc c = crc16Update crc' c) by (rewrite !crc16_from_cons in E; apply IH; [done|apply crc16Update_bound..|exact E]).
  destruct (crc16Update_inj crc crc' c c Hc Hc' Hb Hb Eu) as [Eh El]. rewrite (high_low crc), (high_low crc'), El. do 2 f_equal.
  apply (f_equal (fun v => Z.lxor v c)) in Eh. by rewrite !Z.lxor_assoc, Z.lxor_nilpotent, !Z.lxor_0_r in Eh.
Qed.

Lemma crc16_from_bits m : forall crc, is_message m -> 0 <= crc < 2 ^ 16 -> crc16_from crc m = fold_left crc_byte m crc.
Proof.
  induction m as [|c m IH]; intros crc Hm Hc; [done|]. inversion Hm as [|?? Hb Hm']; subst.
  rewrite crc16_from_cons, fold_left_cons, <- crc16Update_bits by done. apply IH; [done|apply crc16Update_bound].
Qed.

Lemma crc16_from_app crc a x b : crc16_from crc (a ++ x :: b) = crc16_from (crc16Update (crc16_from crc a) x) b.
Proof. unfold crc16_from. by rewrite fold_left_app. Qed.

(** One changed byte. *)
Lemma crc16_from_changed crc a x y b :
  is_message (a ++ x :: b) -> 0 <= crc < 2 ^ 16 -> 0 <= y < 256 -> crc16_from crc (a ++ y :: b) = crc16_from crc (a ++ x :: b) -> y = x.
Proof.
  intros Hm Hc Hy E. apply Forall_app in Hm as [Ha Hb]. inversion Hb as [|?? Hx Hb']; subst. rewrite !crc16_from_app in E.
  pose proof (crc16_from_bound crc a Hc) as Hi. apply crc16_from_inj in E; [|done|apply crc16Update_bound..].
  destruct (crc16Update_inj _ _ y x Hi Hi Hy Hx E) as [Ex _]. apply (f_equal (fun v => Z.lxor (high (crc16_from crc a)) v)) in Ex.
  by rewrite <- !Z.lxor_assoc, Z.lxor_nilpotent, !Z.lxor_0_l in Ex.
Qed.

(** [crc16] is the CCITT checksum of the message, as defined by
    bits, in the 16 bits of its type; and a message of which one byte is changed has
    another checksum. *)
Theorem crc16_ccitt m :
  is_message m -> crc16 m = crc_ccitt m /\ 0 <= crc16 m < 2 ^ 16 /\
  forall a x y b, m = a ++ x :: b -> 0 <= y < 256 -> y <> x -> crc16 (a ++ y :: b) <> crc16 m.
Proof.
  intros Hm. assert (Hs : 0 <= 0xffff < 2 ^ 16) by done. split_and!; [by apply crc16_from_bits|by apply crc16_from_bound|by apply crc16_from_bound|].
  intros a x y b -> Hy Hne E. exact (Hne (crc16_from_changed 0xffff a x y b Hm Hs Hy E)).
Qed.

(** The checksum of [123456789]. *)
Example ex_crc16 : crc16 (map (fun k => 48 + k) (seqZ 1 9)) = 0x29b1.
Proof. vm_compute. reflexivity. Qed.

Lemma crc16_ccitt_witness : crc16 [1; 2; 3] = crc_ccitt [1; 2; 3] /\ crc16 [1; 4; 3] <> crc16 [1; 2; 3].
Proof.
  destruct (crc16_ccitt [1; 2; 3]) as (E & _ & Hd); [repeat constructor; done|]. split; [exact E|].
  apply (Hd [1] 2 4 [3]); [reflexivity|split; [discriminate|reflexivity]|discriminate].
Defined.

End Crc16.
