(* ===== verification/AtomicOps.v ===== *)
(** * Atomic operations

    The lock-free operations of [arch/common/core/atomic_ops_impl_cortexMx.h],
    one instruction at a time, on a processor that can switch thread between
    any two instructions, and the operations that [interfaces/atomic_ops.h]
    says they are. *)
From S2P Require Import Prelude.

Local Open Scope Z_scope.

Module AtomicOps.

(** ** Memory

    Words by address.  An [int] or a pointer is kept in its word as an
    unsigned number; the address of [int *q] plus [n] is [q + 4n]. *)
Definition memory := Z -> Z.
Definition store (m : memory) (p v : Z) : memory := fun q => if decide (q = p) then v else m q.

Lemma store_eq m p v : store m p v p = v.
Proof. unfold store. by rewrite decide_True. Qed.
Lemma store_ne m p v q : q <> p -> store m p v q = m q.
Proof. intros. unfold store. by rewrite decide_False. Qed.

(** ** The operations, as documented *)
Inductive call :=
| atomicSwap (p v : Z)
| atomicAdd (p incr : Z)
| atomicAddExchange (p incr : Z)
| atomicCompareAndSwap (p prev next : Z)
| atomicFetchAndIncrement (p offset incr : Z).

#[export] Instance call_eq_dec : EqDecision call.
Proof. solve_decision. Defined.

Definition word_at (q n : Z) : Z := u32 (q + 4 * n).

(** [interfaces/atomic_ops.h]: the effect of each operation, in one step, and
    the word it returns ([atomicAdd] returns nothing, here 0). *)
Definition spec (c : call) (m : memory) : memory * Z :=
  match c with
  | atomicSwap p v => (store m p (u32 v), m p)
  | atomicAdd p incr => (store m p (u32 (m p + incr)), 0)
  | atomicAddExchange p incr => (store m p (u32 (m p + incr)), m p)
  | atomicCompareAndSwap p prev next => (if m p =? u32 prev then store m p (u32 next) else m, m p)
  | atomicFetchAndIncrement p offset incr =>
      let result := m p in
      if result =? 0 then (m, 0)
      else (store m (word_at result offset) (u32 (m (word_at result offset) + incr)), result)
  end.

(** ** The code

    Where a thread is inside an operation. *)
Inductive pc :=
| Start
| Loaded (value : Z)             (**r after [__LDREXW], before [__STREXW] *)
| Mismatch (result : Z)          (**r [result!=prev], before [__CLREX] *)
| GotPointer (result : Z)        (**r after [result=*p] *)
| GotCount (result rc : Z)       (**r after [rc=__LDREXW(rcp)] *)
| Checked (result rc : Z)        (**r after [result==*p] *)
| Changed                        (**r [result!=*p], before [__CLREX] *)
| Return (result : Z).

(** Memory and the exclusive monitor of the processor. *)
Record cpu := mkCpu { mem : memory; monitor : bool }.

(** [__LDREXW] sets the monitor.  [__STREXW] stores only when the monitor is
    set, and may fail also when it is ([ok]); it clears it, as does [__CLREX]. *)
Definition LDREXW (p : Z) (s : cpu) : Z * cpu := (mem s p, mkCpu (mem s) true).
Definition STREXW (ok : bool) (v p : Z) (s : cpu) : bool * cpu :=
  if monitor s && ok then (true, mkCpu (store (mem s) p (u32 v)) false) else (false, mkCpu (mem s) false).
Definition CLREX (s : cpu) : cpu := mkCpu (mem s) false.

(** The next instruction of each operation. *)
Definition atomicSwap_instr (p v : Z) (ok : bool) (k : pc) (s : cpu) : pc * cpu :=
  match k with
  | Start => let '(result, s) := LDREXW p s in (Loaded result, s)
  | Loaded result => let '(done, s) := STREXW ok v p s in (if done then Return result else Start, s)
  | k => (k, s)
  end.

Definition atomicAdd_instr (p incr : Z) (ok : bool) (k : pc) (s : cpu) : pc * cpu :=
  match k with
  | Start => let '(value, s) := LDREXW p s in (Loaded value, s)
  | Loaded value => let '(done, s) := STREXW ok (value + incr) p s in (if done then Return 0 else Start, s)
  | k => (k, s)
  end.

Definition atomicAddExchange_instr (p incr : Z) (ok : bool) (k : pc) (s : cpu) : pc * cpu :=
  match k with
  | Start => let '(result, s) := LDREXW p s in (Loaded result, s)
  | Loaded result => let '(done, s) := STREXW ok (result + incr) p s in (if done then Return result else Start, s)
  | k => (k, s)
  end.

Definition atomicCompareAndSwap_instr (p prev next : Z) (ok : bool) (k : pc) (s : cpu) : pc * cpu :=
  match k with
  | Start => let '(result, s) := LDREXW p s in (if result =? u32 prev then Loaded result else Mismatch result, s)
  | Loaded result => let '(done, s) := STREXW ok next p s in (if done then Return result else Start, s)
  | Mismatch result => (Return result, CLREX s)
  | k => (k, s)
  end.

Definition atomicFetchAndIncrement_instr (p offset incr : Z) (ok : bool) (k : pc) (s : cpu) : pc * cpu :=
  match k with
  | Start => let result := mem s p in (if result =? 0 then Return 0 else GotPointer result, s)
  | GotPointer result => let '(rc, s) := LDREXW (word_at result offset) s in (GotCount result rc, s)
  | GotCount result rc => (if result =? mem s p then Checked result rc else Changed, s)
  | Changed => (Start, CLREX s)
  | Checked result rc =>
      let '(done, s) := STREXW ok (rc + incr) (word_at result offset) s in
      (if done then Return result else Start, s)
  | k => (k, s)
  end.

Definition instr (c : call) : bool -> pc -> cpu -> pc * cpu :=
  match c with
  | atomicSwap p v => atomicSwap_instr p v
  | atomicAdd p incr => atomicAdd_instr p incr
  | atomicAddExchange p incr => atomicAddExchange_instr p incr
  | atomicCompareAndSwap p prev next => atomicCompareAndSwap_instr p prev next
  | atomicFetchAndIncrement p offset incr => atomicFetchAndIncrement_instr p offset incr
  end.

(** ** Threads and interrupts

    One thread (or interrupt routine) runs; any number are stopped inside or
    outside an operation. *)
Record machine := mkMachine { proc : cpu; running : nat; threads : gmap nat (call * pc) }.

(** What the rest of the program sees. *)
Inductive event :=
| Invoke (t : nat) (c : call)
| Result (t : nat) (c : call) (result : Z)
| Write (p v : Z).

(** A switch is an exception entry or return, that clears the monitor.  Code
    outside an operation may write any word. *)
Inductive step : machine -> list event -> machine -> Prop :=
| step_switch s r ths t : step (mkMachine s r ths) [] (mkMachine (CLREX s) t ths)
| step_invoke s r ths c : ths !! r = None -> step (mkMachine s r ths) [Invoke r c] (mkMachine s r (<[r:=(c, Start)]> ths))
| step_instr s r ths c k ok k' s' :
    ths !! r = Some (c, k) -> instr c ok k s = (k', s') ->
    step (mkMachine s r ths) [] (mkMachine s' r (<[r:=(c, k')]> ths))
| step_return s r ths c result :
    ths !! r = Some (c, Return result) -> step (mkMachine s r ths) [Result r c result] (mkMachine s r (delete r ths))
| step_write s r ths p v :
    ths !! r = None -> step (mkMachine s r ths) [Write p v] (mkMachine (mkCpu (store (mem s) p v) (monitor s)) r ths).

Inductive steps : machine -> list event -> machine -> Prop :=
| steps_nil M : steps M [] M
| steps_snoc M es M' e M'' : steps M es M' -> step M' e M'' -> steps M (es ++ e) M''.

(** ** The abstract machine

    An operation that was invoked takes effect at once, at some moment before
    it returns. *)
Inductive status := Pending | Performed (result : Z).
Record abstract := mkAbstract { amem : memory; calls : gmap nat (call * status) }.

Inductive astep : abstract -> list event -> abstract -> Prop :=
| astep_invoke m cs t c : cs !! t = None -> astep (mkAbstract m cs) [Invoke t c] (mkAbstract m (<[t:=(c, Pending)]> cs))
| astep_perform m cs t c :
    cs !! t = Some (c, Pending) ->
    astep (mkAbstract m cs) [] (mkAbstract (spec c m).1 (<[t:=(c, Performed (spec c m).2)]> cs))
| astep_return m cs t c result :
    cs !! t = Some (c, Performed result) -> astep (mkAbstract m cs) [Result t c result] (mkAbstract m (delete t cs))
| astep_write m cs p v : astep (mkAbstract m cs) [Write p v] (mkAbstract (store m p v) cs).

Inductive asteps : abstract -> list event -> abstract -> Prop :=
| asteps_nil A : asteps A [] A
| asteps_snoc A es A' e A'' : asteps A es A' -> astep A' e A'' -> asteps A (es ++ e) A''.

(** ** The simulation *)
Definition status_of (k : pc) : status :=
  match k with Mismatch result | Return result => Performed result | _ => Pending end.

(** Where each operation can be, and what the monitor, while it is set,
    guarantees to the thread that runs. *)
Definition location_ok (c : call) (k : pc) : Prop :=
  match k, c with
  | Start, _ | Return _, _ => True
  | Loaded v, atomicCompareAndSwap _ prev _ => v = u32 prev
  | Loaded _, atomicFetchAndIncrement _ _ _ => False
  | Loaded _, _ => True
  | Mismatch v, atomicCompareAndSwap _ prev _ => True
  | GotPointer v, atomicFetchAndIncrement _ _ _ | GotCount v _, atomicFetchAndIncrement _ _ _
  | Checked v _, atomicFetchAndIncrement _ _ _ => v <> 0
  | Changed, atomicFetchAndIncrement _ _ _ => True
  | _, _ => False
  end.

Definition exclusive (c : call) (k : pc) (m : memory) : Prop :=
  match k, c with
  | Loaded v, (atomicSwap p _ | atomicAdd p _ | atomicAddExchange p _ | atomicCompareAndSwap p _ _) => m p = v
  | GotCount v rc, atomicFetchAndIncrement _ offset _ => m (word_at v offset) = rc
  | Checked v rc, atomicFetchAndIncrement p offset _ => m p = v /\ m (word_at v offset) = rc
  | _, _ => True
  end.

Record simulates (M : machine) (A : abstract) : Prop := {
  sim_mem : mem (proc M) = amem A;
  sim_calls : calls A = (prod_map id status_of) <$> threads M;
  sim_locations t c k : threads M !! t = Some (c, k) -> location_ok c k;
  sim_exclusive c k :
    monitor (proc M) = true -> threads M !! running M = Some (c, k) -> exclusive c k (mem (proc M));
}.

(** One instruction does nothing the others can see, or performs the whole
    operation. *)
Lemma instr_simulated c ok k s k' s' :
  location_ok c k -> (monitor s = true -> exclusive c k (mem s)) -> instr c ok k s = (k', s') ->
  location_ok c k' /\ (monitor s' = true -> exclusive c k' (mem s')) /\
  ((mem s' = mem s /\ status_of k' = status_of k) \/
   (status_of k = Pending /\ mem s' = (spec c (mem s)).1 /\ status_of k' = Performed (spec c (mem s)).2)).
Proof.
  intros Hl He Hi. destruct c as [p v|p i|p i|p prev next|p o i], k; simpl in *; try done;
    unfold STREXW, LDREXW, CLREX in Hi; repeat case_match; simplify_eq/=;
    repeat match goal with
    | H : _ && _ = true |- _ => apply andb_prop in H as [? ?]
    | H : (_ =? _) = true |- _ => apply Z.eqb_eq in H
    | H : (_ =? _) = false |- _ => apply Z.eqb_neq in H
    end; simpl in *; split_and?; try done; try (by left); try (by intros; split; auto).
  all: try match goal with Hm : monitor _ = true |- _ => specialize (He Hm); try match type of He with _ /\ _ => destruct He end; subst end.
  all: first [done | congruence | by right | right; split_and?; (done || congruence)].
Qed.

Lemma step_simulated M A e M' :
  simulates M A -> step M e M' -> exists A', asteps A e A' /\ simulates M' A'.
Proof.
  intros [Hm Hc Hl He] Hs. destruct A as [m cs]. simpl in *. subst.
  destruct Hs as [s r ths t|s r ths c Hr|s r ths c k ok k' s' Hr Hi|s r ths c result Hr|s r ths p v Hr]; simpl in *.
  - eexists. split; [constructor|]. split; simpl; [done|done|done|by intros].
  - exists (mkAbstract (mem s) (<[r:=(c, Pending)]> (prod_map id status_of <$> ths))). split.
    { eapply (asteps_snoc _ [] _ [_]); [constructor|]. constructor. by rewrite lookup_fmap, Hr. }
    split; simpl; [done|by rewrite fmap_insert| |].
    + intros t c' k [[<- [= <- <-]]|[_ Ht]]%lookup_insert_Some; [by destruct c|by eapply Hl].
    + intros c' k _ Hk. rewrite lookup_insert_eq in Hk. injection Hk as <- <-. by destruct c.
  - destruct (instr_simulated c ok k s k' s' (Hl _ _ _ Hr) (fun Hm => He _ _ Hm Hr) Hi) as (Hl' & He' & Heff).
    assert (Hlocs : forall t c0 k0, <[r:=(c, k')]> ths !! t = Some (c0, k0) -> location_ok c0 k0)
      by (intros t c0 k0 [[<- [= <- <-]]|[_ Ht]]%lookup_insert_Some; [done|by eapply Hl]).
    assert (Hexc : forall c0 k0, monitor s' = true -> <[r:=(c, k')]> ths !! r = Some (c0, k0) -> exclusive c0 k0 (mem s'))
      by (intros c0 k0 Hm Hk; rewrite lookup_insert_eq in Hk; injection Hk as <- <-; by apply He').
    destruct Heff as [[Hm Hst]|(Hst & Hm & Hst')].
    + eexists. split; [constructor|]. split; simpl; [done| |done|done].
      rewrite fmap_insert. unfold prod_map at 1. simpl. rewrite insert_id; [done|]. rewrite lookup_fmap, Hr. simpl. by rewrite <- Hst.
    + exists (mkAbstract (spec c (mem s)).1 (<[r:=(c, Performed (spec c (mem s)).2)]> (prod_map id status_of <$> ths))). split.
      { eapply (asteps_snoc _ [] _ []); [constructor|]. constructor. rewrite lookup_fmap, Hr. unfold prod_map. simpl. by rewrite Hst. }
      split; simpl; [done| |done|done]. rewrite fmap_insert. unfold prod_map at 2. simpl. by rewrite Hst'.
  - exists (mkAbstract (mem s) (delete r (prod_map id status_of <$> ths))). split.
    { eapply (asteps_snoc _ [] _ [_]); [constructor|]. constructor. by rewrite lookup_fmap, Hr. }
    split; simpl; [done|by rewrite fmap_delete| |].
    + intros t c' k [_ Ht]%lookup_delete_Some. by eapply Hl.
    + intros c' k _ Hk. by rewrite lookup_delete_eq in Hk.
  - exists (mkAbstract (store (mem s) p v) (prod_map id status_of <$> ths)). split.
    { eapply (asteps_snoc _ [] _ [_]); constructor. }
    split; simpl; [done|done|done|]. intros c k _ Hk. congruence.
Qed.

Lemma asteps_app A es A' es' A'' : asteps A es A' -> asteps A' es' A'' -> asteps A (es ++ es') A''.
Proof.
  intros H1 H2. induction H2 as [|A1 es1 A2 e A3 _ IH Hs]; [by rewrite app_nil_r|].
  rewrite app_assoc. by eapply asteps_snoc; [apply IH|].
Qed.

Lemma steps_simulated M A es M' :
  simulates M A -> steps M es M' -> exists A', asteps A es A' /\ simulates M' A'.
Proof.
  intros Hsim Hs. induction Hs as [|M es M1 e M2 _ IH Hs]; [by eexists; split; [constructor|]|].
  destruct (IH Hsim) as (A1 & HA1 & Hsim1). destruct (step_simulated _ _ _ _ Hsim1 Hs) as (A2 & HA2 & Hsim2).
  exists A2. split; [by eapply asteps_app|done].
Qed.

Lemma simulates_initial m r : simulates (mkMachine (mkCpu m false) r ∅) (mkAbstract m ∅).
Proof. split; simpl; [done|by rewrite fmap_empty|by intros ??? ?%lookup_empty_Some|done]. Qed.

(** ** A thread left alone

    Its own instructions, when no switch comes and no [__STREXW] fails without
    reason. *)
Definition own_step (c : call) (ks : pc * cpu) : pc * cpu := instr c true ks.1 ks.2.

Lemma alone_returns c k s : location_ok c k -> exists result s', Nat.iter 8 (own_step c) (k, s) = (Return result, s').
Proof.
  unfold own_step. destruct s as [m []], c as [p v|p i|p i|p prev next|p o i], k; simpl; try done; intros Hl;
    unfold STREXW, LDREXW, CLREX; simpl; repeat (case_match; simplify_eq/=; rewrite ?Z.eqb_refl in *; simplify_eq/=); eauto.
Qed.

(** C2: the operations of [atomic_ops_impl_cortexMx.h] are atomic, in every
    execution, whatever the switches between their instructions, the failures
    of [__STREXW] and what other code writes: what is seen of an execution is
    an execution in which each operation takes effect at once, as
    [atomic_ops.h] says, between its call and its return, and the memory is the
    same.  No operation waits for another thread: from wherever it is, a thread
    left alone returns after at most eight instructions. *)
Theorem atomic_ops_linearizable m r es M :
  steps (mkMachine (mkCpu m false) r ∅) es M ->
  (exists A, asteps (mkAbstract m ∅) es A /\ amem A = mem (proc M)) /\
  forall c k, threads M !! running M = Some (c, k) ->
    exists result s', Nat.iter 8 (own_step c) (k, proc M) = (Return result, s').
Proof.
  intros Hs. destruct (steps_simulated _ _ _ _ (simulates_initial m r) Hs) as (A & HA & Hsim). split.
  - exists A. split; [done|]. by rewrite (sim_mem _ _ Hsim).
  - intros c k Hk. by eapply alone_returns, sim_locations.
Qed.

(** ** Running an execution *)
Inductive action := Switch (t : nat) | Call (c : call) | Instr (ok : bool) | Leave | Store (p v : Z).

Definition act (a : action) (M : machine) : option (list event * machine) :=
  let '(mkMachine s r ths) := M in
  match a, ths !! r with
  | Switch t, _ => Some ([], mkMachine (CLREX s) t ths)
  | Call c, None => Some ([Invoke r c], mkMachine s r (<[r:=(c, Start)]> ths))
  | Instr ok, Some (c, k) => let '(k', s') := instr c ok k s in Some ([], mkMachine s' r (<[r:=(c, k')]> ths))
  | Leave, Some (c, Return result) => Some ([Result r c result], mkMachine s r (delete r ths))
  | Store p v, None => Some ([Write p v], mkMachine (mkCpu (store (mem s) p v) (monitor s)) r ths)
  | _, _ => None
  end.

Fixpoint run (l : list action) (es : list event) (M : machine) : option (list event * machine) :=
  match l with [] => Some (es, M) | a :: l => '(e, M) ← act a M; run l (es ++ e) M end.

Lemma run_steps l M0 es M es' M' : steps M0 es M -> run l es M = Some (es', M') -> steps M0 es' M'.
Proof.
  revert es M. induction l as [|a l IH]; intros es M Hs Hr; simpl in Hr; [by injection Hr as <- <-|].
  destruct (act a M) as [[e M1]|] eqn:Ha; [|done]. simpl in Hr. apply (IH (es ++ e) M1); [|done].
  eapply steps_snoc; [done|]. destruct M as [s r ths]. unfold act in Ha.
  destruct a, (ths !! r) as [[c0 k]|] eqn:Hk; try done; repeat case_match; simplify_eq; by econstructor.
Qed.

(** A thread is stopped between [__LDREXW] and [__STREXW] of an increment, and
    another one adds 5; a third loads a pointer that changes meanwhile. *)
Definition initial : memory := store (store (store (fun _ => 0) 100 7) 200 400) 400 1.

Definition schedule : list action :=
  [Call (atomicAddExchange 100 1); Instr true; Switch 1%nat; Call (atomicAdd 100 5); Instr true; Instr false; Instr true;
   Instr true; Leave; Switch 2%nat; Call (atomicFetchAndIncrement 200 0 1); Instr true; Instr true; Switch 0%nat; Instr true;
   Instr true; Instr true; Leave; Store 200 500; Switch 2%nat; Instr true; Instr true; Instr true; Instr true; Instr true;
   Instr true; Leave].

Definition trace : list event :=
  [Invoke 0 (atomicAddExchange 100 1); Invoke 1 (atomicAdd 100 5); Result 1 (atomicAdd 100 5) 0;
   Invoke 2 (atomicFetchAndIncrement 200 0 1); Result 0 (atomicAddExchange 100 1) 12; Write 200 500;
   Result 2 (atomicFetchAndIncrement 200 0 1) 500].

Lemma schedule_runs :
  fst <$> run schedule [] (mkMachine (mkCpu initial false) 0 ∅) = Some trace.
Proof. vm_compute. reflexivity. Qed.

Lemma atomic_ops_linearizable_witness :
  exists M, steps (mkMachine (mkCpu initial false) 0 ∅) trace M /\
    (exists A, asteps (mkAbstract initial ∅) trace A /\ amem A = mem (proc M)).
Proof.
  destruct (run schedule [] (mkMachine (mkCpu initial false) 0 ∅)) as [[es M]|] eqn:Hr.
  - pose proof schedule_runs as Ht. rewrite Hr in Ht. injection Ht as ->.
    pose proof (run_steps _ _ [] _ _ _ (steps_nil _) Hr) as Hs.
    exists M. split; [exact Hs|]. exact (proj1 (atomic_ops_linearizable _ _ _ _ Hs)).
  - pose proof schedule_runs as Ht. by rewrite Hr in Ht.
Defined.

End AtomicOps.
