(* ===== verification/RefPtr.v ===== *)
(** * Reference counted pointers

    Class [intrusive_ref_ptr] of [kernel/intrusive.h]: the count is in the
    object, and the pointer that brings it to zero deletes the object.  The
    destructor of an object destroys the pointers that are its members, which
    can delete further objects.  The counts are not bounded here: a pointer is
    four bytes, so that at most 2^30 of them fit in memory and an [int] counts
    them. *)
From S2P Require Import Prelude Errors.

Local Open Scope Z_scope.

(** What constructors and destructors of the objects do to the rest of the
    program, and an account of the live objects that they keep. *)
Class Resource (A S : Type) := {
  constructed : A -> S -> S;
  destroyed : A -> S -> S;
  accounts : gmap positive A -> S -> Prop;
  accounts_constructed m s o a : accounts m s -> m !! o = None -> accounts (<[o:=a]> m) (constructed a s);
  accounts_destroyed m s o a : accounts m s -> m !! o = Some a -> accounts (delete o m) (destroyed a s);
}.

(** A pointer is a variable, or a member of the object that is its [owner]; an
    object has its members in the order of their declaration. *)
Class Members (L A : Type) := {
  owner : L -> option positive;
  members : positive -> A -> list L;
  members_owner o a l : l ∈ members o a -> owner l = Some o;
}.

Module RefPtr.
Section ref_ptr.
(** Pointers [L]; objects' contents [A]; the rest of the program [S]. *)
Context {L A S : Type} `{Countable L} `{Resource A S} `{Members L A}.

(** The live objects with their count; the pointers that are not null; a
    pointer that is not constructed is as a null one. *)
Record heap := mkHeap {
  objects : gmap positive (A * Z);
  pointers : gmap L positive;
  outside : S;
}.

Definition get (l : L) (h : heap) : option positive := pointers h !! l.
Definition set_object (l : L) (o : option positive) (h : heap) : heap :=
  mkHeap (objects h) (partial_alter (fun _ => o) l (pointers h)) (outside h).
Definition set_count (o : positive) (a : A) (n : Z) (h : heap) : heap :=
  mkHeap (<[o:=(a, n)]> (objects h)) (pointers h) (outside h).
Definition contents (h : heap) : gmap positive A := fst <$> objects h.

(** A pointer is there when it is a variable, or the object it is in is.  Using
    another one is undefined behaviour. *)
Definition exists_in (k : gmap positive A) (l : L) : bool :=
  match owner l with
  | None => true
  | Some o => match k !! o with Some a => bool_decide (l ∈ members o a) | None => false end
  end.
Definition access (l : L) (h : heap) : exec () := if exists_in (contents h) l then Done () else Fault Undefined.

Definition incrementRefCount (o : option positive) (h : heap) : exec heap :=
  match o with
  | None => Done h
  | Some o => '(a, n) ← deref (objects h !! o); Done (set_count o a (n + 1) h)
  end.

Definition decrementRefCount (o : option positive) (h : heap) : exec (bool * heap) :=
  match o with
  | None => Done (false, h)
  | Some o => '(a, n) ← deref (objects h !! o); Done ((n =? 1), set_count o a (n - 1) h)
  end.

(** [reset], that is also the destructor, with [rel] for
    [if(decrementRefCount()) delete object]. *)
Definition reset_by (rel : option positive -> heap -> exec heap) (l : L) (h : heap) : exec heap :=
  _ ← access l h; h ← rel (get l h) h; _ ← access l h; Done (set_object l None h).

Fixpoint reset_all (rel : option positive -> heap -> exec heap) (ls : list L) (h : heap) : exec heap :=
  match ls with [] => Done h | l :: ls => h ← reset_by rel l h; reset_all rel ls h end.

(** The operator [delete]: the body of the destructor, the members from the
    last one, the memory. *)
Definition delete_by (rel : option positive -> heap -> exec heap) (o : option positive) (h : heap) : exec heap :=
  o ← deref o; '(a, _) ← deref (objects h !! o);
  h ← reset_all rel (rev (members o a)) (mkHeap (objects h) (pointers h) (destroyed a (outside h)));
  Done (mkHeap (delete o (objects h)) (pointers h) (outside h)).

(** [if(decrementRefCount()) delete object], where [delete] can do the same, to
    a depth of at most [n]. *)
Fixpoint release_n (n : nat) (o : option positive) (h : heap) : exec heap :=
  match n with
  | O => Fault OutOfFuel
  | Datatypes.S n => '(last, h) ← decrementRefCount o h; if (last : bool) then delete_by (release_n n) o h else Done h
  end.

(** Each object is deleted once. *)
Definition release (o : option positive) (h : heap) : exec heap := release_n (Datatypes.S (size (objects h))) o h.

(** [new] of an object at address [o], whose count is zero. *)
Definition new_object (o : positive) (a : A) (h : heap) : heap :=
  mkHeap (<[o:=(a, 0)]> (objects h)) (pointers h) (constructed a (outside h)).

(** Constructors from a raw pointer, and from a pointer. *)
Definition construct (l : L) (o : option positive) (h : heap) : exec heap := _ ← access l h; incrementRefCount o (set_object l o h).
Definition copy_construct (l r : L) (h : heap) : exec heap := _ ← access r h; construct l (get r h) h.

(** [operator=]: from a pointer, which is read again after the old object is
    released, and from a raw pointer. *)
Definition assign (l r : L) (h : heap) : exec heap :=
  _ ← access l h; _ ← access r h;
  if decide (get l h = get r h) then Done h
  else
    h ← release (get l h) h;
    _ ← access r h; _ ← access l h;
    let h := set_object l (get r h) h in incrementRefCount (get l h) h.

Definition assign_raw (l : L) (o : option positive) (h : heap) : exec heap :=
  _ ← access l h; h ← release (get l h) h; _ ← access l h; let h := set_object l o h in incrementRefCount o h.

Definition reset (l : L) (h : heap) : exec heap := reset_by release l h.

Definition swap (l r : L) (h : heap) : exec heap :=
  _ ← access l h; _ ← access r h; let t := get l h in Done (set_object r t (set_object l (get r h) h)).

Definition use_count (l : L) (h : heap) : exec Z :=
  _ ← access l h; match get l h with None => Done 0 | Some o => '(_, n) ← deref (objects h !! o); Done n end.

(** The methods [atomic_load] and [atomic_exchange]: [t] is the pointer they
    return.  Reading the pointer and incrementing the count is one operation,
    [atomicFetchAndIncrement]. *)
Definition atomic_load (t l : L) (h : heap) : exec heap :=
  _ ← access t h; _ ← access l h;
  match get l h with
  | None => Done (set_object t None h)
  | Some o => '(a, n) ← deref (objects h !! o); Done (set_object t (Some o) (set_count o a (n + 1) h))
  end.

Definition atomic_exchange (t l r : L) (h : heap) : exec heap :=
  _ ← access t h; _ ← access l h; _ ← access r h;
  let temp := get r h in
  h ← incrementRefCount temp h;
  let old := get l h in Done (set_object t old (set_object l temp h)).

(** ** Garbage

    An object that only members of garbage point to, in the pointers [m]. *)
Inductive unreferenced (m : gmap L positive) : positive -> Prop :=
| Unreferenced o :
    (forall l, m !! l = Some o -> owner l <> None) ->
    (forall l x, m !! l = Some o -> owner l = Some x -> unreferenced m x) -> unreferenced m o.

(** Plain pointers, and the objects in memory. *)
Record collected := mkCollected { vars : gmap L positive; memory : gmap positive A }.

(** The collector: what no pointer points to goes, and the pointers in it. *)
Definition sweep1 (c : collected) : collected :=
  let k := filter (fun p => p.1 ∈ (map_img (vars c) : gset positive)) (memory c) in
  mkCollected (filter (fun p => exists_in k p.1 = true) (vars c)) k.
Fixpoint sweep (n : nat) (c : collected) : collected := match n with O => c | Datatypes.S n => sweep n (sweep1 c) end.
Definition collect (m : gmap L positive) (k : gmap positive A) : collected := sweep (size k) (mkCollected m k).

(** What the collector leaves: the objects that are not garbage, and the
    pointers that are not in garbage. *)
Record swept (m : gmap L positive) (k : gmap positive A) (c : collected) : Prop := {
  swept_vars : vars c ⊆ m;
  swept_memory : memory c ⊆ k;
  swept_gone o a : k !! o = Some a -> memory c !! o = None -> unreferenced m o;
  swept_lost l o : m !! l = Some o -> vars c !! l = None -> exists x, owner l = Some x /\ unreferenced m x;
  swept_homes l : is_Some (vars c !! l) -> exists_in (memory c) l = true;
  swept_pointed o : is_Some (memory c !! o) -> exists l, vars c !! l = Some o;
}.

Lemma exists_in_owner k l x : exists_in k l = true -> owner l = Some x -> is_Some (k !! x).
Proof. unfold exists_in. intros E Ho. rewrite Ho in E. by destruct (k !! x). Qed.

Lemma exists_in_weaken k k' l : k ⊆ k' -> exists_in k l = true -> exists_in k' l = true.
Proof. unfold exists_in. intros Hs. destruct (owner l) as [x|]; [|done]. destruct (k !! x) as [a|] eqn:E; [|done]. by rewrite (lookup_weaken _ _ _ _ E Hs). Qed.

Lemma exists_in_lost k k' l : k' ⊆ k -> exists_in k l = true -> exists_in k' l = false -> exists x, owner l = Some x /\ is_Some (k !! x) /\ k' !! x = None.
Proof.
  intros Hs E E'. unfold exists_in in *. destruct (owner l) as [x|]; [|done]. exists x. destruct (k' !! x) as [a|] eqn:Ek'.
  - rewrite (lookup_weaken _ _ _ _ Ek' Hs), E' in E. done.
  - by destruct (k !! x).
Qed.

Lemma swept_unreferenced m k c o : swept m k c -> unreferenced m o -> memory c !! o = None.
Proof.
  intros Hc. induction 1 as [o Hv _ IH]. apply eq_None_not_Some. intros Ho.
  destruct (swept_pointed _ _ _ Hc o Ho) as [l Hl]. assert (Hm : m !! l = Some o) by (by eapply lookup_weaken, swept_vars).
  destruct (owner l) as [x|] eqn:El; [|by destruct (Hv l Hm)]. specialize (IH l x Hm El).
  destruct (exists_in_owner (memory c) l x) as [a Ha]; [|done|congruence]. eapply swept_homes; [done|by exists o].
Qed.

(** The result is unique, so the order of deletions makes no difference. *)
Lemma swept_unique m k c c' : swept m k c -> swept m k c' -> c = c'.
Proof.
  intros Hc Hc'.
  assert (Hk : forall c1 c2, swept m k c1 -> swept m k c2 -> memory c1 ⊆ memory c2).
  { intros c1 c2 W1 W2. apply map_subseteq_spec. intros o a Ho. assert (Hko : k !! o = Some a) by (by eapply lookup_weaken, swept_memory).
    destruct (memory c2 !! o) as [b|] eqn:E; [rewrite (lookup_weaken _ _ _ _ E (swept_memory _ _ _ W2)) in Hko; congruence|].
    pose proof (swept_unreferenced _ _ _ _ W1 (swept_gone _ _ _ W2 _ _ Hko E)). congruence. }
  assert (Hv : forall c1 c2, swept m k c1 -> swept m k c2 -> vars c1 ⊆ vars c2).
  { intros c1 c2 W1 W2. apply map_subseteq_spec. intros l o Hl. assert (Hm : m !! l = Some o) by (by eapply lookup_weaken, swept_vars).
    destruct (vars c2 !! l) as [p|] eqn:E; [rewrite (lookup_weaken _ _ _ _ E (swept_vars _ _ _ W2)) in Hm; congruence|].
    destruct (swept_lost _ _ _ W2 _ _ Hm E) as (x & Hx & Hu). pose proof (swept_unreferenced _ _ _ _ W1 Hu) as Hno.
    destruct (exists_in_owner (memory c1) l x) as [a Ha]; [|done|congruence]. eapply swept_homes; [done|by exists o]. }
  destruct c as [v k1], c' as [v' k1']. f_equal; apply (anti_symm (⊆)); [by apply (Hv (mkCollected v k1) (mkCollected v' k1'))
    |by apply (Hv (mkCollected v' k1') (mkCollected v k1))|by apply (Hk (mkCollected v k1) (mkCollected v' k1'))|by apply (Hk (mkCollected v' k1') (mkCollected v k1))].
Qed.

(** [swept] but for the last condition, as the collector goes. *)
Definition sweeping (m : gmap L positive) (k : gmap positive A) (c : collected) : Prop :=
  vars c ⊆ m /\ memory c ⊆ k /\ (forall o a, k !! o = Some a -> memory c !! o = None -> unreferenced m o) /\
  (forall l o, m !! l = Some o -> vars c !! l = None -> exists x, owner l = Some x /\ unreferenced m x) /\
  (forall l, is_Some (vars c !! l) -> exists_in (memory c) l = true).

Lemma sweep1_sweeping m k c : sweeping m k c -> sweeping m k (sweep1 c).
Proof.
  intros (Hv & Hk & Hgone & Hlost & Hhome).
  assert (Hk1 : memory (sweep1 c) ⊆ memory c) by apply map_filter_subseteq.
  assert (Hgone1 : forall o a, k !! o = Some a -> memory (sweep1 c) !! o = None -> unreferenced m o).
  { intros o a Ho Hno. destruct (memory c !! o) as [b|] eqn:Eb; [|by eapply Hgone].
    assert (Himg : forall l, vars c !! l <> Some o).
    { intros l Hl. apply map_lookup_filter_None in Hno as [Hno|Hno]; [congruence|]. apply (Hno b Eb). apply elem_of_map_img. by exists l. }
    assert (Hm : forall l, m !! l = Some o -> exists x, owner l = Some x /\ unreferenced m x).
    { intros l Hl. apply (Hlost l o Hl). destruct (vars c !! l) as [p|] eqn:E; [|done]. rewrite (lookup_weaken _ _ _ _ E Hv) in Hl. congruence. }
    constructor; [intros l (x & -> & _)%Hm; done|]. intros l x (y & E & Hu)%Hm ?. congruence. }
  split_and!; [by etransitivity; [apply map_filter_subseteq|]|by etransitivity|done| |].
  - intros l o Hl Hno. destruct (vars c !! l) as [p|] eqn:E; [|by eapply Hlost].
    apply map_lookup_filter_None in Hno as [Hno|Hno]; [congruence|]. specialize (Hno p E). simpl in Hno. apply not_true_is_false in Hno.
    destruct (exists_in_lost (memory c) _ l Hk1 (Hhome l ltac:(by eexists)) Hno) as (x & Hx & [a Ha] & Hnone).
    exists x. split; [done|]. eapply Hgone1; [by eapply lookup_weaken|done].
  - intros l [o Ho]. by apply map_lookup_filter_Some in Ho as [_ Ho].
Qed.

Lemma sweep1_fixed c : (forall l, is_Some (vars c !! l) -> exists_in (memory c) l = true) -> memory (sweep1 c) = memory c -> sweep1 c = c.
Proof.
  intros Hhome Hk. destruct c as [v k]. unfold sweep1 in *. simpl in *. rewrite Hk. f_equal. apply map_filter_id. intros l o Hl. apply Hhome. by exists o.
Qed.

Lemma sweep_fixed n c : sweep1 c = c -> sweep n c = c.
Proof. intros Hc. induction n as [|n IH]; [done|]. simpl. by rewrite Hc. Qed.

Lemma sweep_swept m k n c : sweeping m k c -> (size (memory c) <= n)%nat -> swept m k (sweep n c).
Proof.
  revert c. induction n as [|n IH]; intros c Hc Hn.
  - destruct Hc as (? & ? & ? & ? & ?). split; try done. intros o [a Ha]. simpl in Ha. rewrite (map_size_empty_inv (memory c)) in Ha by lia. done.
  - assert (Hk1 : memory (sweep1 c) ⊆ memory c) by apply map_filter_subseteq.
    destruct (decide (size (memory c) <= size (memory (sweep1 c)))%nat) as [Hs|Hs].
    + assert (Hfix : sweep1 c = c) by (apply sweep1_fixed; [apply Hc|by apply map_subseteq_size_eq]).
      rewrite (sweep_fixed _ _ Hfix). destruct Hc as (? & ? & ? & ? & ?). split; try done. intros o [a Ha]. rewrite <- Hfix in Ha.
      apply map_lookup_filter_Some in Ha as [_ Ha]. by apply elem_of_map_img in Ha.
    + apply IH; [by apply sweep1_sweeping|lia].
Qed.

Lemma collect_swept m k : (forall l, is_Some (m !! l) -> exists_in k l = true) -> swept m k (collect m k).
Proof. intros Hm. apply sweep_swept; [|done]. unfold sweeping. cbn [vars memory]. split_and!; [done|done|intros; congruence|intros; congruence|exact Hm]. Qed.

(** Pointing a pointer that stays to an object that stays. *)
Lemma swept_put m k c l p :
  swept (delete l m) k c -> is_Some (memory c !! p) -> exists_in (memory c) l = true ->
  swept (<[l:=p]> m) k (mkCollected (<[l:=p]> (vars c)) (memory c)).
Proof.
  intros Hc Hp Hl.
  assert (Hu : forall o, unreferenced (delete l m) o -> unreferenced (<[l:=p]> m) o).
  { intros o Ho. pose proof (swept_unreferenced _ _ _ _ Hc Ho) as Hno. induction Ho as [o Hv Hx IH].
    assert (Hne : forall r, <[l:=p]> m !! r = Some o -> delete l m !! r = Some o).
    { intros r [[<- ->]|[? ?]]%lookup_insert_Some; [destruct Hp; congruence|by rewrite lookup_delete_ne]. }
    constructor; [intros r Hr; by apply Hv, Hne|]. intros r x Hr Ex. apply (IH r x (Hne r Hr) Ex).
    apply (swept_unreferenced _ _ _ _ Hc). by apply (Hx r x (Hne r Hr)). }
  assert (Hvl : vars c !! l = None).
  { destruct (vars c !! l) as [q|] eqn:E; [|done]. pose proof (lookup_weaken _ _ _ _ E (swept_vars _ _ _ Hc)) as E'. by rewrite lookup_delete_eq in E'. }
  split; simpl.
  - transitivity (<[l:=p]> (delete l m)); [apply insert_mono; apply (swept_vars _ _ _ Hc)|by rewrite insert_delete_eq].
  - apply (swept_memory _ _ _ Hc).
  - intros o a Ho Hno. apply Hu. by eapply swept_gone.
  - intros r o [[<- _]|[Hne Hr]]%lookup_insert_Some Hno; [by rewrite lookup_insert_eq in Hno|]. rewrite lookup_insert_ne in Hno by done.
    destruct (swept_lost _ _ _ Hc r o) as (x & Hx & Hux); [by rewrite lookup_delete_ne|done|]. exists x. split; [done|by apply Hu].
  - intros r Hr. destruct (decide (r = l)) as [->|Hne]; [done|]. rewrite lookup_insert_ne in Hr by done. by eapply swept_homes.
  - intros o Ho. destruct (swept_pointed _ _ _ Hc o Ho) as [r Hr]. exists r. rewrite lookup_insert_ne; [done|]. intros <-. congruence.
Qed.

(** When no pointer is a member, the pointers are those of the program. *)
Lemma swept_plain m k c : (forall l, owner l = None) -> swept m k c -> vars c = m.
Proof.
  intros Hno Hc. apply (anti_symm (⊆)); [apply (swept_vars _ _ _ Hc)|]. apply map_subseteq_spec. intros l o Hl.
  destruct (vars c !! l) as [p|] eqn:E; [rewrite (lookup_weaken _ _ _ _ E (swept_vars _ _ _ Hc)) in Hl; congruence|].
  destruct (swept_lost _ _ _ Hc l o Hl E) as (x & Hx & _). by rewrite Hno in Hx.
Qed.

(** ** Counting pointers *)
Definition refs (o : positive) (m : gmap L positive) : Z := Z.of_nat (size (filter (fun p => p.2 = o) m)).
Definition owned (o : positive) (cs : list positive) : Z := Z.of_nat (length (filter (fun o' => o' = o) cs)).
Definition is_one (o : positive) (p : option positive) : Z := if decide (p = Some o) then 1 else 0.

Lemma refs_delete o l m : refs o (delete l m) = refs o m - is_one o (m !! l).
Proof.
  unfold refs, is_one. rewrite map_filter_delete. case_decide as Hl.
  - assert (is_Some (filter (fun q : L * positive => q.2 = o) m !! l)) as Hs by (exists o; by apply map_lookup_filter_Some).
    rewrite map_size_delete_Some by done. destruct Hs as [x Hs]. assert (size (filter (fun q => q.2 = o) m) <> 0%nat); [|lia].
    intros E%map_size_empty_inv. rewrite E in Hs. done.
  - rewrite map_size_delete_None; [lia|]. apply map_lookup_filter_None. right. intros x Hx Ho. simpl in Ho. by subst.
Qed.

Lemma refs_insert o l p m : refs o (<[l:=p]> m) = refs o m - is_one o (m !! l) + is_one o (Some p).
Proof.
  rewrite <- refs_delete, <- (insert_delete_eq m). unfold refs, is_one. rewrite map_filter_insert. simpl. destruct (decide (p = o)) as [->|Ho].
  - rewrite (decide_True (P := Some o = Some o)) by done. rewrite map_size_insert_None; [lia|]. apply map_lookup_filter_None. left. apply lookup_delete_eq.
  - rewrite (decide_False (P := Some p = Some o)) by congruence. rewrite delete_delete_eq. lia.
Qed.

Lemma refs_pointer o m : refs o m <> 0 <-> exists l, m !! l = Some o.
Proof.
  unfold refs. split.
  - intros Hn. destruct (map_choose (filter (fun p => p.2 = o) m)) as (l & o' & Hl).
    { intros E. apply Hn. by rewrite E, map_size_empty. }
    apply map_lookup_filter_Some in Hl as [Hl Ho]. simpl in Ho. subst. by exists l.
  - intros [l Hl] E. assert (filter (fun p => p.2 = o) m = ∅) as Ef by (apply map_size_empty_inv; lia).
    apply (map_filter_empty_not_lookup _ _ l o Ef) in Hl; [done|done].
Qed.

Lemma refs_nonneg o m : 0 <= refs o m.
Proof. unfold refs. lia. Qed.

Lemma owned_one o x : owned o [x] = is_one o (Some x).
Proof. unfold owned, is_one. rewrite filter_cons. repeat case_decide; simpl; try congruence; lia. Qed.
Lemma owned_none o : owned o [] = 0.
Proof. done. Qed.
Lemma is_one_nonneg o p : 0 <= is_one o p.
Proof. unfold is_one. case_decide; lia. Qed.
Lemma is_one_same o : is_one o (Some o) = 1.
Proof. unfold is_one. by rewrite decide_True. Qed.
Lemma is_one_ne o p : p <> Some o -> is_one o p = 0.
Proof. intros Hp. unfold is_one. by rewrite decide_False. Qed.

Lemma get_set l k p h : get k (set_object l p h) = if decide (k = l) then p else get k h.
Proof.
  unfold get, set_object. simpl. case_decide; [subst; by rewrite lookup_partial_alter_eq|by rewrite lookup_partial_alter_ne].
Qed.

Lemma set_set l p q h : set_object l p (set_object l q h) = set_object l p h.
Proof. unfold set_object. simpl. f_equal. apply map_eq. intros k. destruct (decide (k = l)) as [->|]; [by rewrite !lookup_partial_alter_eq|by rewrite !lookup_partial_alter_ne]. Qed.

Lemma set_get l h : set_object l (get l h) h = h.
Proof. destruct h as [m p s]. unfold set_object, get. simpl. f_equal. apply map_eq. intros k. destruct (decide (k = l)) as [->|]; [by rewrite lookup_partial_alter_eq|by rewrite lookup_partial_alter_ne]. Qed.

Lemma contents_set_count o a n h : fst <$> objects h !! o = Some a -> contents (set_count o a n h) = contents h.
Proof.
  intros Ho. unfold contents, set_count. simpl. rewrite fmap_insert. simpl. apply insert_id. by rewrite lookup_fmap.
Qed.

Lemma contents_Some o h : is_Some (contents h !! o) <-> is_Some (objects h !! o).
Proof. unfold contents. rewrite lookup_fmap. by rewrite fmap_is_Some. Qed.

(** Between the operations: the counts are the numbers of pointers. *)
Record counted (h : heap) : Prop := {
  counted_objects o a n : objects h !! o = Some (a, n) -> n = refs o (pointers h);
  counted_used o a n : objects h !! o = Some (a, n) -> 0 < n;
  counted_pointers l o : get l h = Some o -> is_Some (objects h !! o);
  counted_homes l : is_Some (get l h) -> exists_in (contents h) l = true;
  counted_accounts : accounts (contents h) (outside h);
}.

Lemma counted_pointed h o : counted h -> is_Some (contents h !! o) -> exists l, pointers h !! l = Some o.
Proof.
  intros Hc [[a n] Ho]%contents_Some. pose proof (counted_objects _ Hc _ _ _ Ho). pose proof (counted_used _ Hc _ _ _ Ho). apply refs_pointer. lia.
Qed.

Lemma live_pointed h o : counted h -> is_Some (objects h !! o) <-> exists l, get l h = Some o.
Proof. intros Hc. split; [intros Ho%contents_Some; by apply counted_pointed|intros [l Hl]; by eapply counted_pointers]. Qed.

(** The objects that are left of [k] are those pointed to. *)
Lemma counted_contents h k o a : counted h -> contents h ⊆ k -> contents h !! o = Some a <-> k !! o = Some a /\ exists l, get l h = Some o.
Proof.
  intros Hc Hs. split.
  - intros Ho. split; [by eapply lookup_weaken|]. apply (live_pointed _ _ Hc), contents_Some. by exists a.
  - intros [Ho Hl]. apply (live_pointed _ _ Hc) in Hl. apply contents_Some in Hl as [b Hb]. rewrite (lookup_weaken _ _ _ _ Hb Hs) in Ho. congruence.
Qed.

Lemma same_pointers h h' : counted h -> counted h' -> pointers h' = pointers h -> contents h' ⊆ contents h -> contents h' = contents h.
Proof.
  intros Hc Hc' Hp Hs. apply map_eq. intros o. apply option_eq. intros a. rewrite (counted_contents h' _ o a Hc' Hs). unfold get. rewrite Hp. split; [tauto|].
  intros Ho. split; [done|]. apply (counted_pointed h o Hc). by exists a.
Qed.

(** The pointers are then those the collector keeps. *)
Lemma counted_swept h m k :
  counted h -> pointers h ⊆ m -> contents h ⊆ k ->
  (forall o a, k !! o = Some a -> contents h !! o = None -> unreferenced m o) ->
  (forall l o, m !! l = Some o -> pointers h !! l = None -> exists x, owner l = Some x /\ unreferenced m x) ->
  swept m k (mkCollected (pointers h) (contents h)).
Proof. intros Hc Hp Hk Hgone Hlost. split; simpl; try done; [apply (counted_homes _ Hc)|intros o; by apply counted_pointed]. Qed.

Lemma counted_self h : counted h -> swept (pointers h) (contents h) (mkCollected (pointers h) (contents h)).
Proof. intros Hc. apply counted_swept; [done|done|done|intros; congruence|intros; congruence]. Qed.

(** ** Deleting objects

    While objects are deleted: [m] and [k] are the pointers and the contents at
    the start; [ds] the objects whose destructors run, [cs] the
    raw pointers that still count, [st] the pointers being reset, which do not
    count any more. *)
Section collecting.
Context (m : gmap L positive) (k : gmap positive A).

Definition view (st : gset L) (h : heap) : gmap L positive := filter (fun p => p.1 ∉ st) (pointers h).
Definition living (ds : gset positive) (h : heap) : gmap positive A := filter (fun p => p.1 ∉ ds) (contents h).
Definition alive (ds : gset positive) (h : heap) : nat := size (living ds h).

Record collecting (ds : gset positive) (cs : list positive) (st : gset L) (h : heap) : Prop := {
  col_count o a n : objects h !! o = Some (a, n) -> n = refs o (view st h) + owned o cs;
  col_used o a n : objects h !! o = Some (a, n) -> o ∉ ds -> 0 < n;
  col_dying o : o ∈ ds -> (exists a, objects h !! o = Some (a, 0)) /\ unreferenced m o;
  col_pointers l o : view st h !! l = Some o -> is_Some (objects h !! o);
  col_owned o : o ∈ cs -> is_Some (objects h !! o);
  col_homes l : is_Some (get l h) -> exists_in (contents h) l = true;
  col_stale l x : l ∈ st -> owner l = Some x -> x ∈ ds \/ ~ unreferenced m x;
  col_sub : view st h ⊆ m;
  col_lost l o : m !! l = Some o -> view st h !! l = None -> exists x, owner l = Some x /\ unreferenced m x;
  col_kept : contents h ⊆ k;
  col_gone o a : k !! o = Some a -> contents h !! o = None -> unreferenced m o;
  col_accounts : accounts (living ds h) (outside h);
}.

Lemma view_lookup st h l o : view st h !! l = Some o <-> get l h = Some o /\ l ∉ st.
Proof. unfold view, get. by rewrite map_lookup_filter_Some. Qed.

Lemma view_stale l st h : view ({[l]} ∪ st) h = delete l (view st h).
Proof.
  apply map_eq. intros r. apply option_eq. intros o. rewrite lookup_delete_Some, !view_lookup, elem_of_union, elem_of_singleton. naive_solver.
Qed.

Lemma view_reset l st h : view st (set_object l None h) = delete l (view st h).
Proof.
  apply map_eq. intros r. apply option_eq. intros o. rewrite lookup_delete_Some, !view_lookup, get_set. case_decide; naive_solver.
Qed.

Lemma set_count_contents o a n n' h : objects h !! o = Some (a, n) -> contents (set_count o a n' h) = contents h.
Proof. intros Ho. apply contents_set_count. by rewrite Ho. Qed.

(** The last pointer is released, or not. *)
Lemma decrement_more ds st h o a n :
  collecting ds [o] st h -> objects h !! o = Some (a, n) -> n <> 1 -> collecting ds [] st (set_count o a (n - 1) h).
Proof.
  intros Hc Ho Hn. pose proof (set_count_contents o a n (n - 1) h Ho) as Hcont.
  pose proof (col_count _ _ _ _ Hc _ _ _ Ho) as Hcount. rewrite owned_one, is_one_same in Hcount. pose proof (refs_nonneg o (view st h)).
  assert (Hds : o ∉ ds) by (intros [[b Hb] _]%(col_dying _ _ _ _ Hc); rewrite Hb in Ho; injection Ho as _ E; lia).
  split; unfold living; rewrite ?Hcont; try apply Hc; simpl.
  - intros o' a' n' [[<- [= <- <-]]|[Hne Ho']]%lookup_insert_Some; [unfold view in *; simpl; rewrite owned_none; lia|].
    rewrite (col_count _ _ _ _ Hc _ _ _ Ho'), owned_one, is_one_ne by congruence. done.
  - intros o' a' n' [[<- [= <- <-]]|[Hne Ho']]%lookup_insert_Some Hd; [lia|by eapply col_used].
  - intros x Hx. rewrite lookup_insert_ne by (intros <-; done). by apply (col_dying _ _ _ _ Hc).
  - intros l o' Hl. apply lookup_insert_is_Some. destruct (decide (o = o')); [by left|right; split; [done|]]. by eapply (col_pointers _ _ _ _ Hc).
  - intros o' []%elem_of_nil.
Qed.

Lemma decrement_last ds st h o a :
  collecting ds [o] st h -> objects h !! o = Some (a, 1) ->
  (o ∉ ds) /\ unreferenced m o /\ collecting ({[o]} ∪ ds) [] st (mkHeap (<[o:=(a, 0)]> (objects h)) (pointers h) (destroyed a (outside h))).
Proof.
  intros Hc Ho. set (h' := mkHeap _ _ _).
  assert (Hcont : contents h' = contents h) by apply (set_count_contents o a 1 0 h Ho).
  pose proof (col_count _ _ _ _ Hc _ _ _ Ho) as Hcount. rewrite owned_one, is_one_same in Hcount. pose proof (refs_nonneg o (view st h)).
  assert (Hds : o ∉ ds) by (intros [[b Hb] _]%(col_dying _ _ _ _ Hc); rewrite Hb in Ho; injection Ho as _ E; lia).
  assert (Hno : forall l, view st h !! l <> Some o) by (intros l Hl; assert (refs o (view st h) <> 0) by (apply refs_pointer; by exists l); lia).
  assert (Hlost : forall l, m !! l = Some o -> exists x, owner l = Some x /\ unreferenced m x).
  { intros l Hl. apply (col_lost _ _ _ _ Hc l o Hl). destruct (view st h !! l) as [p|] eqn:E; [|done].
    rewrite (lookup_weaken _ _ _ _ E (col_sub _ _ _ _ Hc)) in Hl. by destruct (Hno l); rewrite E. }
  assert (Hun : unreferenced m o).
  { constructor; [intros l (x & -> & _)%Hlost; done|]. intros l x (y & E & Hu)%Hlost Ex. congruence. }
  split; [done|]. split; [done|].
  split; rewrite ?Hcont; try apply Hc; subst h'; cbn [objects outside].
  - intros o' a' n' [[<- [= <- <-]]|[Hne Ho']]%lookup_insert_Some; [change (view st (mkHeap _ _ _)) with (view st h); rewrite owned_none; lia|].
    rewrite (col_count _ _ _ _ Hc _ _ _ Ho'), owned_one, is_one_ne by congruence. done.
  - intros o' a' n' [[<- [= <- <-]]|[Hne Ho']]%lookup_insert_Some Hd; [set_solver|]. eapply (col_used _ _ _ _ Hc); [done|set_solver].
  - intros x [->%elem_of_singleton|Hx]%elem_of_union; [split; [|done]; exists a; by rewrite lookup_insert_eq|].
    rewrite lookup_insert_ne by (intros <-; done). by apply (col_dying _ _ _ _ Hc).
  - intros l o' Hl. apply lookup_insert_is_Some. destruct (decide (o = o')); [by left|right; split; [done|]]. by eapply (col_pointers _ _ _ _ Hc).
  - intros o' []%elem_of_nil.
  - intros l x Hl Hx. destruct (col_stale _ _ _ _ Hc l x Hl Hx); [left; set_solver|by right].
  - unfold living. rewrite Hcont. assert (E : filter (fun p => p.1 ∉ {[o]} ∪ ds) (contents h) = delete o (living ds h)).
    { apply map_eq. intros x. apply option_eq. intros b. unfold living. rewrite lookup_delete_Some, !map_lookup_filter_Some. simpl.
      rewrite elem_of_union, elem_of_singleton. naive_solver. }
    rewrite E. apply accounts_destroyed; [apply (col_accounts _ _ _ _ Hc)|]. apply map_lookup_filter_Some. split; [|done].
    unfold contents. by rewrite lookup_fmap, Ho.
Qed.

(** The memory of an object whose members are destroyed is free. *)
Lemma free_object ds st h o a n :
  collecting ({[o]} ∪ ds) [] st h -> o ∉ ds -> objects h !! o = Some (a, n) -> (forall l, l ∈ members o a -> get l h = None) ->
  (forall l, l ∈ st -> owner l <> Some o) ->
  collecting ds [] st (mkHeap (delete o (objects h)) (pointers h) (outside h)).
Proof.
  intros Hc Hds Ho Hmem Hst. destruct (col_dying _ _ _ _ Hc o ltac:(set_solver)) as [[b Hb] Hun]. rewrite Hb in Ho. injection Ho as -> <-.
  pose proof (col_count _ _ _ _ Hc _ _ _ Hb) as Hcount. rewrite owned_none in Hcount.
  set (h' := mkHeap _ _ _). assert (Hcont : contents h' = delete o (contents h)) by apply fmap_delete.
  assert (Hoc : contents h !! o = Some a) by (unfold contents; by rewrite lookup_fmap, Hb).
  split; try apply Hc; subst h'; cbn [objects outside].
  - intros o' a' n' [Hne Ho']%lookup_delete_Some. by eapply (col_count _ _ _ _ Hc).
  - intros o' a' n' [Hne Ho']%lookup_delete_Some Hd. eapply (col_used _ _ _ _ Hc); [done|set_solver].
  - intros x Hx. rewrite lookup_delete_ne by (intros <-; done). apply (col_dying _ _ _ _ Hc). set_solver.
  - intros l o' Hl. rewrite lookup_delete_ne; [by eapply (col_pointers _ _ _ _ Hc)|]. intros <-.
    assert (refs o (view st h) <> 0) by (apply refs_pointer; by exists l). lia.
  - intros o' []%elem_of_nil.
  - intros l Hl. pose proof (col_homes _ _ _ _ Hc l Hl) as Hh. rewrite Hcont. unfold exists_in in *. destruct (owner l) as [x|]; [|done].
    destruct (decide (x = o)) as [->|Hne]; [|by rewrite lookup_delete_ne]. rewrite Hoc in Hh. apply bool_decide_eq_true in Hh.
    destruct Hl as [p Hp]. change (get l h = Some p) in Hp. by rewrite (Hmem l Hh) in Hp.
  - intros l x Hl Hx. destruct (col_stale _ _ _ _ Hc l x Hl Hx) as [Hd|]; [left|by right]. apply elem_of_union in Hd as [->%elem_of_singleton|]; [|done].
    by destruct (Hst l Hl).
  - rewrite Hcont. etransitivity; [apply delete_subseteq|apply (col_kept _ _ _ _ Hc)].
  - intros x b Hx. rewrite Hcont. destruct (decide (x = o)) as [->|Hne]; [done|]. rewrite lookup_delete_ne by done. by eapply (col_gone _ _ _ _ Hc).
  - assert (E : living ds (mkHeap (delete o (objects h)) (pointers h) (outside h)) = living ({[o]} ∪ ds) h); [|rewrite E; apply (col_accounts _ _ _ _ Hc)].
    unfold living. rewrite Hcont. apply map_eq. intros x. apply option_eq. intros b. rewrite !map_lookup_filter_Some, lookup_delete_Some. simpl.
    rewrite elem_of_union, elem_of_singleton. naive_solver.
Qed.

(** A member of an object that is being destroyed. *)
Lemma take_member ds st h l p x :
  collecting ds [] st h -> view st h !! l = Some p -> owner l = Some x -> x ∈ ds -> collecting ds [p] ({[l]} ∪ st) h.
Proof.
  intros Hc Hl Hx Hd. split; rewrite ?view_stale; try apply Hc.
  - intros o a n Ho. rewrite (col_count _ _ _ _ Hc _ _ _ Ho), refs_delete, Hl, owned_none, owned_one. lia.
  - intros r o Hr. apply lookup_delete_Some in Hr as [_ Hr]. by eapply (col_pointers _ _ _ _ Hc).
  - intros o ->%list_elem_of_singleton. by eapply (col_pointers _ _ _ _ Hc).
  - intros r y [->%elem_of_singleton|Hr]%elem_of_union Hy; [left; congruence|by eapply (col_stale _ _ _ _ Hc)].
  - etransitivity; [apply delete_subseteq|apply (col_sub _ _ _ _ Hc)].
  - intros r o Hr. destruct (decide (r = l)) as [->|Hne]; [|rewrite lookup_delete_ne by done; by eapply (col_lost _ _ _ _ Hc)].
    intros _. exists x. split; [done|]. by apply (col_dying _ _ _ _ Hc).
Qed.

Lemma reset_member ds st h l : collecting ds [] ({[l]} ∪ st) h -> collecting ds [] st (set_object l None h).
Proof.
  intros Hc. assert (Hv : view st (set_object l None h) = view ({[l]} ∪ st) h) by (by rewrite view_reset, view_stale).
  split; rewrite ?Hv; try apply Hc.
  - intros r Hr. apply (col_homes _ _ _ _ Hc). rewrite get_set in Hr. case_decide; [by destruct Hr|done].
  - intros r y Hr. apply (col_stale _ _ _ _ Hc). set_solver.
Qed.

(** A release that ends: it needs as much depth as there are objects. *)
Definition settles (n : nat) : Prop := forall ds st h o, collecting ds [o] st h -> (alive ds h < n)%nat ->
  exists h', release_n n (Some o) h = Done h' /\ collecting ds [] st h' /\ pointers h' ⊆ pointers h /\ contents h' ⊆ contents h.

Lemma alive_mono ds h h' : contents h' ⊆ contents h -> (alive ds h' <= alive ds h)%nat.
Proof. intros Hs. apply map_subseteq_size. by apply map_filter_subseteq_mono. Qed.

Lemma alive_less ds h o : o ∉ ds -> is_Some (contents h !! o) -> (alive ({[o]} ∪ ds) h < alive ds h)%nat.
Proof.
  intros Ho [a Ha]. unfold alive. assert (E : living ({[o]} ∪ ds) h = delete o (living ds h)).
  { apply map_eq. intros x. apply option_eq. intros b. unfold living. rewrite lookup_delete_Some, !map_lookup_filter_Some. simpl.
    rewrite elem_of_union, elem_of_singleton. naive_solver. }
  assert (Hin : living ds h !! o = Some a) by (by apply map_lookup_filter_Some).
  rewrite E, map_size_delete_Some by (by exists a). assert (size (living ds h) <> 0%nat); [|lia]. intros E0%map_size_empty_inv. by rewrite E0 in Hin.
Qed.

Lemma access_Done l h : exists_in (contents h) l = true -> access l h = Done ().
Proof. unfold access. by intros ->. Qed.

Lemma release_None n h : (0 < n)%nat -> release_n n None h = Done h.
Proof. by destruct n; [lia|]. Qed.

Lemma dying_contents ds cs st h h' o a :
  collecting ds cs st h' -> o ∈ ds -> contents h !! o = Some a -> contents h' ⊆ contents h -> contents h' !! o = Some a.
Proof.
  intros Hc Ho Ha Hs. destruct (col_dying _ _ _ _ Hc o Ho) as [[b Hb] _].
  assert (Hb' : contents h' !! o = Some b) by (unfold contents; by rewrite lookup_fmap, Hb).
  rewrite (lookup_weaken _ _ _ _ Hb' Hs) in Ha. congruence.
Qed.

(** The members of an object being destroyed. *)
Lemma reset_member_spec n ds st h o a l :
  settles n -> collecting ds [] st h -> (alive ds h < n)%nat -> o ∈ ds -> contents h !! o = Some a -> l ∈ members o a -> l ∉ st ->
  exists h', reset_by (release_n n) l h = Done h' /\ collecting ds [] st h' /\ get l h' = None /\ pointers h' ⊆ pointers h /\ contents h' ⊆ contents h.
Proof.
  intros Hn Hc Hal Ho Ha Hl Hst. pose proof (members_owner o a l Hl) as Hown.
  assert (Hex : forall h', contents h' !! o = Some a -> access l h' = Done ()).
  { intros h' Ha'. apply access_Done. unfold exists_in. rewrite Hown, Ha'. by apply bool_decide_eq_true. }
  unfold reset_by. rewrite (Hex h Ha). cbn [mbind outcome_bind]. destruct (get l h) as [p|] eqn:Hp.
  - assert (Hv : view st h !! l = Some p) by (by apply view_lookup).
    destruct (Hn ds ({[l]} ∪ st) h p) as (h1 & -> & Hc1 & Hp1 & Hk1); [by eapply take_member|done|]. cbn [mbind outcome_bind].
    rewrite Hex by (by eapply dying_contents). cbn [mbind outcome_bind]. eexists. split; [done|]. split; [by apply reset_member|].
    split; [by rewrite get_set, decide_True|]. split; [|done]. etransitivity; [|exact Hp1]. change (delete l (pointers h1) ⊆ pointers h1). apply delete_subseteq.
  - rewrite release_None by lia. cbn [mbind outcome_bind]. rewrite (Hex h Ha). cbn [mbind outcome_bind].
    exists (set_object l None h). rewrite <- Hp, set_get. done.
Qed.

Lemma reset_all_spec n ds st o a ls h :
  settles n -> collecting ds [] st h -> (alive ds h < n)%nat -> o ∈ ds -> contents h !! o = Some a ->
  (forall l, l ∈ ls -> l ∈ members o a) -> (forall l, owner l = Some o -> l ∉ st) ->
  exists h', reset_all (release_n n) ls h = Done h' /\ collecting ds [] st h' /\ pointers h' ⊆ pointers h /\ contents h' ⊆ contents h /\
    forall l, l ∈ ls -> get l h' = None.
Proof.
  intros Hn. revert h. induction ls as [|l ls IH]; intros h Hc Hal Ho Ha Hls Hst; cbn [reset_all].
  { exists h. split_and!; try done. by intros l ?%elem_of_nil. }
  assert (Hl : l ∈ members o a) by (apply Hls; by apply elem_of_cons; left).
  destruct (reset_member_spec n ds st h o a l) as (h1 & -> & Hc1 & Hg1 & Hp1 & Hk1); [done..|by eapply Hst, members_owner|]. cbn [mbind outcome_bind].
  pose proof (alive_mono ds h h1 Hk1). destruct (IH h1) as (h2 & Hr & Hc2 & Hp2 & Hk2 & Hg2); [done|lia|done|by eapply dying_contents| |done|].
  { intros r Hr. apply Hls. by apply elem_of_cons; right. }
  exists h2. split_and!; [done|done|by etransitivity|by etransitivity|]. intros r [->|Hr']%elem_of_cons; [|by apply Hg2].
  destruct (get l h2) as [q|] eqn:E; [|done]. unfold get in *. by rewrite (lookup_weaken _ _ _ _ E Hp2) in Hg1.
Qed.

Lemma release_settles n : settles n.
Proof.
  induction n as [|n IH]; intros ds st h o Hc Hal; [lia|]. cbn [release_n].
  destruct (col_owned _ _ _ _ Hc o) as [[a c] Ho]; [by left|]. cbn [decrementRefCount]. rewrite Ho. cbn [mbind outcome_bind deref].
  destruct (Z.eqb_spec c 1) as [->|Hne].
  - destruct (decrement_last ds st h o a Hc Ho) as (Hds & Hun & Hc1). set (h1 := mkHeap _ _ _) in Hc1.
    assert (Hcont : contents h1 = contents h) by apply (set_count_contents o a 1 0 h Ho).
    assert (Hst : forall l, owner l = Some o -> l ∉ st) by (intros l Hl Hin; by destruct (col_stale _ _ _ _ Hc l o Hin Hl)).
    assert (Hoc : contents h !! o = Some a) by (unfold contents; by rewrite lookup_fmap, Ho).
    assert (Hal1 : (alive ({[o]} ∪ ds) h1 < n)%nat).
    { pose proof (alive_less ds h o Hds ltac:(by eexists)) as Hlt. unfold alive, living in *. rewrite Hcont. lia. }
    unfold delete_by, set_count. cbn [mbind outcome_bind deref objects pointers outside]. rewrite lookup_insert_eq. cbn [mbind outcome_bind deref].
    change (1 - 1) with 0. fold h1. destruct (reset_all_spec n ({[o]} ∪ ds) st o a (rev (members o a)) h1) as (h2 & -> & Hc2 & Hp2 & Hk2 & Hg2);
      [done|done|done|set_solver|by rewrite Hcont| |done|].
    { intros l. by rewrite !list_elem_of_In, <- in_rev. }
    cbn [mbind outcome_bind]. eexists. split; [done|].
    assert (Ha2 : contents h2 !! o = Some a) by (eapply dying_contents; [done|set_solver|by rewrite <- Hcont in Hoc|done]).
    assert (exists z, objects h2 !! o = Some (a, z)) as [z Hz].
    { unfold contents in Ha2. rewrite lookup_fmap in Ha2. destruct (objects h2 !! o) as [[b z]|]; [|done]. exists z. simpl in Ha2. congruence. }
    split_and!; [|exact Hp2|].
    + eapply free_object; [done|done|done| |by intros l Hin ?%Hst]. intros l Hl. apply Hg2. by rewrite list_elem_of_In, <- in_rev, <- list_elem_of_In.
    + etransitivity; [|rewrite <- Hcont; exact Hk2]. unfold contents. simpl. rewrite fmap_delete. apply delete_subseteq.
  - eexists. split; [done|]. split; [by eapply decrement_more|]. split; [done|]. by rewrite (set_count_contents o a c (c - 1) h Ho).
Qed.
End collecting.

(** ** The methods *)
Definition set_pointer (l : L) (p : option positive) (m : gmap L positive) : gmap L positive := partial_alter (fun _ => p) l m.

Lemma set_pointer_same l m : set_pointer l (m !! l) m = m.
Proof.
  apply map_eq. intros k. unfold set_pointer.
  destruct (decide (k = l)) as [->|]; [by rewrite lookup_partial_alter_eq|by rewrite lookup_partial_alter_ne].
Qed.

Lemma pointer_live h l o : counted h -> get l h = Some o -> is_Some (objects h !! o).
Proof. intros Hc. apply (counted_pointers _ Hc). Qed.

(** A new pointer, counted. *)
Lemma counted_put h l o a n :
  counted h -> get l h = None -> exists_in (contents h) l = true -> objects h !! o = Some (a, n) ->
  counted (set_object l (Some o) (set_count o a (n + 1) h)).
Proof.
  intros Hc Hl Hex Ho. assert (Hcont : contents (set_count o a (n + 1) h) = contents h) by (by apply (set_count_contents o a n)).
  assert (Hrefs : forall x, refs x (<[l:=o]> (pointers h)) = refs x (pointers h) + is_one x (Some o)).
  { intros x. rewrite refs_insert. unfold get in Hl. rewrite Hl. change (is_one x None) with 0. lia. }
  split.
  - intros x b c Hx. change (<[o:=(a, n + 1)]> (objects h) !! x = Some (b, c)) in Hx. change (c = refs x (<[l:=o]> (pointers h))). rewrite Hrefs.
    apply lookup_insert_Some in Hx as [[<- [= <- <-]]|[Hne Hx]]; [by rewrite is_one_same, (counted_objects _ Hc _ _ _ Ho)|].
    rewrite is_one_ne, (counted_objects _ Hc _ _ _ Hx) by congruence. lia.
  - intros x b c Hx. change (<[o:=(a, n + 1)]> (objects h) !! x = Some (b, c)) in Hx.
    apply lookup_insert_Some in Hx as [[<- [= <- <-]]|[Hne Hx]]; [pose proof (counted_used _ Hc _ _ _ Ho); lia|by eapply counted_used].
  - intros r x Hr. simpl. apply lookup_insert_is_Some. destruct (decide (o = x)); [by left|right; split; [done|]].
    rewrite get_set in Hr. case_decide; [congruence|]. by eapply (counted_pointers _ Hc).
  - intros r Hr. change (exists_in (contents (set_count o a (n + 1) h)) r = true). rewrite Hcont. rewrite get_set in Hr. case_decide; [by subst|].
    by apply (counted_homes _ Hc).
  - change (accounts (contents (set_count o a (n + 1) h)) (outside h)). rewrite Hcont. apply (counted_accounts _ Hc).
Qed.

(** Moving pointers about, their number for each object being the same. *)
Lemma counted_moves h h' :
  counted h -> objects h' = objects h -> outside h' = outside h -> (forall o, refs o (pointers h') = refs o (pointers h)) ->
  (forall l, is_Some (get l h') -> exists_in (contents h) l = true) -> counted h'.
Proof.
  intros Hc Hobj Hout Hsum Hhome. assert (Hcont : contents h' = contents h) by (unfold contents; by rewrite Hobj).
  split; rewrite ?Hcont, ?Hobj, ?Hout; [|apply Hc| |done|apply Hc].
  - intros o a n Ho. rewrite Hsum. by eapply counted_objects.
  - intros l o Hl. assert (refs o (pointers h') <> 0) as Hr by (apply refs_pointer; by exists l). rewrite Hsum in Hr.
    apply refs_pointer in Hr as [r Hr]. by eapply (counted_pointers _ Hc).
Qed.

(** Releasing the object of a pointer, which stays itself. *)
Lemma release_counted h l :
  counted h -> (forall x, owner l = Some x -> ~ unreferenced (delete l (pointers h)) x) ->
  exists h1, release (get l h) h = Done h1 /\ counted (set_object l None h1) /\
    swept (delete l (pointers h)) (contents h) (mkCollected (pointers (set_object l None h1)) (contents h1)).
Proof.
  intros Hc Hsurv. unfold release. destruct (get l h) as [o|] eqn:Hl.
  - destruct (counted_pointers _ Hc l o Hl) as [[a n] Ho]. set (m := delete l (pointers h)).
    assert (Hv : forall h', view {[l]} h' = delete l (pointers h')).
    { intros h'. rewrite <- (union_empty_r_L {[l]}), view_stale. f_equal. apply map_filter_id. set_solver. }
    assert (Hrefs : forall x, refs x m = refs x (pointers h) - is_one x (Some o)) by (intros x; unfold m; rewrite refs_delete; unfold get in Hl; by rewrite Hl).
    assert (Hliv : forall h', living ∅ h' = contents h') by (intros h'; apply map_filter_id; set_solver).
    assert (Hcol : collecting m (contents h) ∅ [o] {[l]} h).
    { split; rewrite ?Hv, ?Hliv; fold m.
      - intros x b c Hx. rewrite Hrefs, owned_one, (counted_objects _ Hc _ _ _ Hx). lia.
      - intros x b c Hx _. by eapply counted_used.
      - intros x []%elem_of_empty.
      - intros r x [_ Hr]%lookup_delete_Some. by eapply (counted_pointers _ Hc).
      - intros x ->%list_elem_of_singleton. by eexists.
      - apply (counted_homes _ Hc).
      - intros r x ->%elem_of_singleton Hx. right. by apply Hsurv.
      - reflexivity.
      - intros r x Hr Hno. congruence.
      - reflexivity.
      - intros x b Hx Hno. congruence.
      - apply (counted_accounts _ Hc). }
    destruct (release_settles m (contents h) (Datatypes.S (size (objects h))) ∅ {[l]} h o Hcol) as (h1 & -> & Hc1 & Hp1 & Hk1).
    { unfold alive. rewrite Hliv. unfold contents. rewrite map_size_fmap. lia. }
    exists h1. split; [done|].
    assert (Hptr : pointers (set_object l None h1) = view {[l]} h1) by (by rewrite Hv).
    assert (Hcnt : counted (set_object l None h1)).
    { split; rewrite ?Hptr; cbn [objects outside set_object].
      - intros x b c Hx. rewrite (col_count _ _ _ _ _ _ Hc1 _ _ _ Hx), owned_none. lia.
      - intros x b c Hx. by eapply (col_used _ _ _ _ _ _ Hc1).
      - intros r x Hr. apply (col_pointers _ _ _ _ _ _ Hc1 r). rewrite get_set in Hr. case_decide as Hrl; [done|].
        apply view_lookup. split; [done|]. by rewrite elem_of_singleton.
      - intros r Hr. apply (col_homes _ _ _ _ _ _ Hc1). rewrite get_set in Hr. case_decide; [by destruct Hr|done].
      - change (contents (set_object l None h1)) with (contents h1). rewrite <- Hliv. apply (col_accounts _ _ _ _ _ _ Hc1). }
    split; [done|]. apply (counted_swept (set_object l None h1)); [done|rewrite Hptr; apply (col_sub _ _ _ _ _ _ Hc1)|apply (col_kept _ _ _ _ _ _ Hc1)|..].
    + intros x b Hx Hno. by eapply (col_gone _ _ _ _ _ _ Hc1).
    + intros r x Hr Hno. rewrite Hptr in Hno. by eapply (col_lost _ _ _ _ _ _ Hc1).
  - exists h. split; [done|]. rewrite <- Hl, set_get. split; [done|]. rewrite delete_id by exact Hl. by apply counted_self.
Qed.

(** What a method does: the counts are right again, and the pointers and
    objects are those that the collector keeps of [m]; or no object goes. *)
Definition settled (h : heap) (m : gmap L positive) (r : exec heap) : Prop :=
  exists h', r = Done h' /\ counted h' /\ swept m (contents h) (mkCollected (pointers h') (contents h')).
Definition keeps_all (h : heap) (m : gmap L positive) (r : exec heap) : Prop :=
  exists h', r = Done h' /\ counted h' /\ pointers h' = m /\ contents h' = contents h.

Lemma keeps_settled h m r : keeps_all h m r -> settled h m r.
Proof. intros (h' & -> & Hc & <- & E). exists h'. split; [done|]. split; [done|]. rewrite <- E. by apply counted_self. Qed.

Lemma construct_keeps h l p :
  counted h -> get l h = None -> exists_in (contents h) l = true -> (forall o, p = Some o -> is_Some (objects h !! o)) ->
  keeps_all h (set_pointer l p (pointers h)) (construct l p h).
Proof.
  intros Hc Hl Hex Hp. unfold construct. rewrite access_Done by done. cbn [mbind outcome_bind]. destruct p as [o|].
  - destruct (Hp o eq_refl) as [[a n] Ho]. cbn [incrementRefCount objects set_object]. rewrite Ho. cbn [mbind outcome_bind deref].
    exists (set_object l (Some o) (set_count o a (n + 1) h)). split; [done|]. split; [by eapply counted_put|]. split; [done|].
    by apply (set_count_contents o a n).
  - exists h. unfold incrementRefCount. rewrite <- Hl, set_get. split_and!; try done. unfold get. by rewrite set_pointer_same.
Qed.

Lemma load_construct h t l : exists_in (contents h) l = true -> atomic_load t l h = construct t (get l h) h.
Proof.
  intros Hl. unfold atomic_load, construct. rewrite (access_Done l) by done. destruct (access t h); [|done]. cbn [mbind outcome_bind].
  destruct (get l h) as [o|]; [|done]. cbn [incrementRefCount objects set_object]. by destruct (objects h !! o) as [[a n]|].
Qed.

Lemma load_keeps h t l :
  counted h -> get t h = None -> exists_in (contents h) t = true -> exists_in (contents h) l = true ->
  keeps_all h (set_pointer t (get l h) (pointers h)) (atomic_load t l h).
Proof. intros Hc Ht Hex Hl. rewrite load_construct by done. apply construct_keeps; [done..|]. intros o. by apply pointer_live. Qed.

Lemma refs_set l p o m : refs o (set_pointer l p m) = refs o m - is_one o (m !! l) + is_one o p.
Proof.
  destruct p as [p|]; [apply refs_insert|]. change (set_pointer l None m) with (delete l m). rewrite refs_delete. change (is_one o None) with 0. lia.
Qed.

Lemma lookup_set l p r m : set_pointer l p m !! r = if decide (r = l) then p else m !! r.
Proof. unfold set_pointer. case_decide; [subst; by rewrite lookup_partial_alter_eq|by rewrite lookup_partial_alter_ne]. Qed.

Lemma swap_keeps h l r :
  counted h -> exists_in (contents h) l = true -> exists_in (contents h) r = true ->
  keeps_all h (set_pointer r (get l h) (set_pointer l (get r h) (pointers h))) (swap l r h).
Proof.
  intros Hc Hl Hr. unfold swap. rewrite !access_Done by done. cbn [mbind outcome_bind]. eexists. split; [done|]. split; [|done].
  apply (counted_moves h); [done|done|done|..].
  - intros o. change (refs o (set_pointer r (get l h) (set_pointer l (get r h) (pointers h))) = refs o (pointers h)). rewrite !refs_set, lookup_set. unfold get. destruct (decide (r = l)) as [->|]; lia.
  - intros s Hs. rewrite !get_set in Hs. repeat case_decide; subst; try done. by apply (counted_homes _ Hc).
Qed.

Lemma exchange_keeps h t l r :
  counted h -> get t h = None -> exists_in (contents h) t = true -> exists_in (contents h) l = true -> exists_in (contents h) r = true -> t <> l ->
  keeps_all h (set_pointer t (get l h) (set_pointer l (get r h) (pointers h))) (atomic_exchange t l r h).
Proof.
  intros Hc Ht Hext Hexl Hexr Htl.
  destruct (construct_keeps h t (get r h) Hc Ht Hext (fun o => pointer_live h r o Hc)) as (h1 & Hcon & Hc1 & Hp1 & Hk1).
  destruct (swap_keeps h1 t l Hc1) as (h2 & Hs & Hc2 & Hp2 & Hk2); [by rewrite Hk1..|]. unfold swap in Hs. rewrite !access_Done in Hs by (by rewrite Hk1).
  cbn [mbind outcome_bind] in Hs. injection Hs as <-.
  assert (Hm : set_pointer l (get t h1) (set_pointer t (get l h1) (pointers h1)) = set_pointer t (get l h) (set_pointer l (get r h) (pointers h))).
  { unfold get. rewrite Hp1. apply map_eq. intros s. rewrite !lookup_set. repeat case_decide; try congruence; done. }
  unfold construct in Hcon. unfold atomic_exchange. rewrite !access_Done by done. rewrite access_Done in Hcon by done. cbn [mbind outcome_bind] in *.
  assert (E : exists h3, incrementRefCount (get r h) h = Done h3 /\ h1 = set_object t (get r h) h3).
  { destruct (get r h) as [o|]; [|exists h; split; [done|]; by injection Hcon as <-]. cbn [incrementRefCount objects set_object] in *.
    destruct (objects h !! o) as [[a n]|]; [|done]. cbn [mbind outcome_bind deref] in *. injection Hcon as <-. by eexists. }
  destruct E as (h3 & -> & ->). cbn [mbind outcome_bind].
  assert (Hg : get l h3 = get l (set_object t (get r h) h3)) by (rewrite get_set, decide_False by done; done).
  eexists. split; [done|]. rewrite <- Hm, <- Hk1.
  assert (E : set_object t (get l h3) (set_object l (get r h) h3) = set_object l (get t (set_object t (get r h) h3)) (set_object t (get l (set_object t (get r h) h3)) (set_object t (get r h) h3))).
  { rewrite set_set, <- Hg, get_set, decide_True by done. unfold set_object. cbn [objects pointers outside]. f_equal.
    change (set_pointer t (get l h3) (set_pointer l (get r h) (pointers h3)) = set_pointer l (get r h) (set_pointer t (get l h3) (pointers h3))).
    apply map_eq. intros s. rewrite !lookup_set. repeat case_decide; congruence. }
  rewrite E. split_and!; [done|done|done].
Qed.

(** The assignments: release, then point to an object that is still there. *)
Lemma fill_settled h h1 l p :
  counted (set_object l None h1) -> exists_in (contents h1) l = true ->
  swept (delete l (pointers h)) (contents h) (mkCollected (pointers (set_object l None h1)) (contents h1)) ->
  (forall o, p = Some o -> is_Some (contents h1 !! o)) ->
  settled h (set_pointer l p (pointers h)) (incrementRefCount p (set_object l p h1)).
Proof.
  intros Hc Hex Hsw Hp. destruct p as [o|]; [|by exists (set_object l None h1)].
  destruct (proj1 (contents_Some o h1) (Hp o eq_refl)) as [[a n] Ho]. cbn [incrementRefCount objects set_object]. rewrite Ho. cbn [mbind outcome_bind deref].
  exists (set_object l (Some o) (set_count o a (n + 1) h1)). split; [done|].
  assert (Hput : counted (set_object l (Some o) (set_count o a (n + 1) (set_object l None h1)))).
  { eapply counted_put; [done|by rewrite get_set, decide_True|done|done]. }
  change (set_count o a (n + 1) (set_object l None h1)) with (set_object l None (set_count o a (n + 1) h1)) in Hput. rewrite set_set in Hput.
  split; [done|]. pose proof (swept_put _ _ _ l o Hsw (Hp o eq_refl) Hex) as Hsw'. cbn [vars memory] in Hsw'.
  assert (E : contents (set_object l (Some o) (set_count o a (n + 1) h1)) = contents h1) by (by apply (set_count_contents o a n)). rewrite E.
  assert (Ep : pointers (set_object l (Some o) (set_count o a (n + 1) h1)) = <[l:=o]> (pointers (set_object l None h1))).
  { simpl. apply map_eq. intros s. destruct (decide (s = l)) as [->|]; [by rewrite lookup_insert_eq, lookup_partial_alter_eq|by rewrite lookup_insert_ne, !lookup_partial_alter_ne]. }
  rewrite Ep. exact Hsw'.
Qed.

(** The objects that are left when a pointer's object is released. *)
Definition left_by (l : L) (m : gmap L positive) (k : gmap positive A) : gmap positive A := memory (collect (delete l m) k).

Definition stays (p : option positive) (k : gmap positive A) : bool := match p with Some o => bool_decide (is_Some (k !! o)) | None => true end.

Lemma release_left h l :
  counted h -> exists_in (left_by l (pointers h) (contents h)) l = true ->
  exists h1, release (get l h) h = Done h1 /\ counted (set_object l None h1) /\ contents h1 = left_by l (pointers h) (contents h) /\
    swept (delete l (pointers h)) (contents h) (mkCollected (pointers (set_object l None h1)) (contents h1)).
Proof.
  intros Hc Hex. assert (Hsw : swept (delete l (pointers h)) (contents h) (collect (delete l (pointers h)) (contents h))).
  { apply collect_swept. intros r [o [_ Hr]%lookup_delete_Some]. apply (counted_homes _ Hc). by exists o. }
  destruct (release_counted h l Hc) as (h1 & Hr & Hc1 & Hsw1).
  { intros x Hx Hu. destruct (exists_in_owner _ _ _ Hex Hx) as [a Ha]. unfold left_by in Ha. by rewrite (swept_unreferenced _ _ _ _ Hsw Hu) in Ha. }
  exists h1. split; [done|]. split; [done|]. split; [|done]. unfold left_by. by rewrite (swept_unique _ _ _ _ Hsw Hsw1).
Qed.

Lemma swept_get h h1 l r o :
  swept (delete l (pointers h)) (contents h) (mkCollected (pointers (set_object l None h1)) (contents h1)) -> r <> l ->
  exists_in (contents h1) r = true -> get r h = Some o -> get r h1 = Some o.
Proof.
  intros Hsw Hne Hex Hr. assert (Hd : delete l (pointers h) !! r = Some o) by (by rewrite lookup_delete_ne).
  assert (E : get r h1 = pointers (set_object l None h1) !! r) by (change (get r h1 = get r (set_object l None h1)); by rewrite get_set, decide_False).
  rewrite E. destruct (pointers (set_object l None h1) !! r) as [q|] eqn:Eq.
  - pose proof (lookup_weaken _ _ _ _ Eq (swept_vars _ _ _ Hsw)) as Hw. congruence.
  - destruct (swept_lost _ _ _ Hsw r o Hd Eq) as (x & Hx & Hu). destruct (exists_in_owner _ _ _ Hex Hx) as [a Ha].
    pose proof (swept_unreferenced _ _ _ _ Hsw Hu) as Hno. simpl in Hno. congruence.
Qed.

Lemma assign_settled h l r :
  counted h -> exists_in (contents h) l = true -> exists_in (contents h) r = true -> get l h <> get r h ->
  exists_in (left_by l (pointers h) (contents h)) l = true ->
  if exists_in (left_by l (pointers h) (contents h)) r then settled h (set_pointer l (get r h) (pointers h)) (assign l r h)
  else assign l r h = Fault Undefined.
Proof.
  intros Hc Hl Hr Hne Hsurv. unfold assign. rewrite !access_Done by done. cbn [mbind outcome_bind]. rewrite decide_False by done.
  destruct (release_left h l Hc Hsurv) as (h1 & -> & Hc1 & Hk1 & Hsw). cbn [mbind outcome_bind]. rewrite <- Hk1 in *.
  destruct (exists_in (contents h1) r) eqn:Er; [|assert (Ef : access r h1 = Fault Undefined) by (unfold access; by rewrite Er); by rewrite Ef].
  rewrite !access_Done by done. cbn [mbind outcome_bind]. assert (Hrl : r <> l) by (intros ->; congruence).
  assert (Hg : get r h1 = get r h).
  { destruct (get r h) as [o|] eqn:Eo; [by eapply swept_get|]. destruct (get r h1) as [q|] eqn:Eq; [|done].
    assert (Hq : pointers (set_object l None h1) !! r = Some q) by (change (get r (set_object l None h1) = Some q); by rewrite get_set, decide_False).
    pose proof (lookup_weaken _ _ _ _ Hq (swept_vars _ _ _ Hsw)) as Hw. apply lookup_delete_Some in Hw as [_ Hw]. unfold get in Eo. congruence. }
  rewrite get_set, decide_True, Hg by done. apply fill_settled; [done|done|done|]. intros o Ho.
  apply contents_Some. apply (counted_pointers _ Hc1 r). rewrite get_set, decide_False by done. congruence.
Qed.

Lemma assign_same h l r : counted h -> exists_in (contents h) l = true -> exists_in (contents h) r = true -> get l h = get r h ->
  keeps_all h (set_pointer l (get r h) (pointers h)) (assign l r h).
Proof.
  intros Hc Hl Hr E. unfold assign. rewrite !access_Done by done. cbn [mbind outcome_bind]. rewrite decide_True by done.
  exists h. split_and!; try done. rewrite <- E. unfold get. by rewrite set_pointer_same.
Qed.

Lemma assign_raw_settled h l p :
  counted h -> exists_in (contents h) l = true -> exists_in (left_by l (pointers h) (contents h)) l = true ->
  if stays p (left_by l (pointers h) (contents h)) then settled h (set_pointer l p (pointers h)) (assign_raw l p h)
  else assign_raw l p h = Fault Undefined.
Proof.
  intros Hc Hl Hsurv. unfold assign_raw. rewrite !access_Done by done. cbn [mbind outcome_bind].
  destruct (release_left h l Hc Hsurv) as (h1 & -> & Hc1 & Hk1 & Hsw). cbn [mbind outcome_bind]. rewrite <- Hk1 in *.
  rewrite access_Done by done. cbn [mbind outcome_bind]. destruct p as [o|]; cbn [stays]; [case_bool_decide as Hp|].
  - apply fill_settled; [done..|]. by intros o' [= <-].
  - rewrite contents_Some in Hp. cbn [incrementRefCount objects set_object]. by destruct (objects h1 !! o) as [x|]; [destruct Hp|].
  - by apply (fill_settled h h1 l None).
Qed.

Lemma reset_settled h l :
  counted h -> exists_in (contents h) l = true -> exists_in (left_by l (pointers h) (contents h)) l = true ->
  settled h (set_pointer l None (pointers h)) (reset l h).
Proof.
  intros Hc Hl Hsurv. unfold reset, reset_by. rewrite !access_Done by done. cbn [mbind outcome_bind].
  destruct (release_left h l Hc Hsurv) as (h1 & -> & Hc1 & Hk1 & Hsw). cbn [mbind outcome_bind]. rewrite <- Hk1 in *.
  rewrite access_Done by done. cbn [mbind outcome_bind]. by exists (set_object l None h1).
Qed.

(** *** When no pointer is a member

    Then only the object of the pointer goes. *)
Section plain.
Context (no_owner : forall l, owner l = None).

Definition leaves (h : heap) (m : gmap L positive) (r : exec heap) : Prop :=
  exists h', r = Done h' /\ counted h' /\ pointers h' = m /\ contents h' ⊆ contents h.

Lemma always_there k l : exists_in k l = true.
Proof. unfold exists_in. by rewrite no_owner. Qed.

Lemma settled_leaves h m r : settled h m r -> leaves h m r.
Proof.
  intros (h' & -> & Hc & Hsw). exists h'. split_and!; [done|done| |apply (swept_memory _ _ _ Hsw)]. by apply (swept_plain _ _ _ no_owner Hsw).
Qed.
Lemma keeps_leaves h m r : keeps_all h m r -> leaves h m r.
Proof. by intros ?%keeps_settled%settled_leaves. Qed.

Lemma assign_counted h l r : counted h -> leaves h (set_pointer l (get r h) (pointers h)) (assign l r h).
Proof.
  intros Hc. destruct (decide (get l h = get r h)) as [E|E]; [by apply keeps_leaves, assign_same; try apply always_there|].
  pose proof (assign_settled h l r Hc) as Ha. rewrite !always_there in Ha. by apply settled_leaves, Ha.
Qed.

Lemma reset_counted h l : counted h -> leaves h (set_pointer l None (pointers h)) (reset l h).
Proof. intros Hc. by apply settled_leaves, reset_settled; try apply always_there. Qed.

Lemma atomic_load_counted h t l : counted h -> get t h = None -> leaves h (set_pointer t (get l h) (pointers h)) (atomic_load t l h).
Proof. intros Hc Ht. by apply keeps_leaves, load_keeps; try apply always_there. Qed.

Lemma atomic_exchange_counted h t l r : counted h -> get t h = None -> t <> l ->
  leaves h (set_pointer t (get l h) (set_pointer l (get r h) (pointers h))) (atomic_exchange t l r h).
Proof. intros Hc Ht Htl. by apply keeps_leaves, exchange_keeps; try apply always_there. Qed.

End plain.

(** A new object, and a variable that points to it. *)
Lemma create_counted h l o a :
  counted h -> owner l = None -> get l h = None -> objects h !! o = None ->
  exists h', construct l (Some o) (new_object o a h) = Done h' /\ counted h' /\
    pointers h' = set_pointer l (Some o) (pointers h) /\ contents h' = <[o:=a]> (contents h) /\ outside h' = constructed a (outside h).
Proof.
  intros Hc Hown Hl Ho. unfold construct, access, exists_in. rewrite Hown. cbn [mbind outcome_bind incrementRefCount set_object new_object objects].
  rewrite lookup_insert_eq. cbn [mbind outcome_bind deref]. eexists. split; [done|].
  assert (Hno : refs o (pointers h) = 0).
  { destruct (decide (refs o (pointers h) = 0)) as [|Hr]; [done|]. apply refs_pointer in Hr as [r Hr]. destruct (counted_pointers _ Hc r o Hr). congruence. }
  assert (Hcont : fst <$> <[o:=(a, 0 + 1)]> (<[o:=(a, 0)]> (objects h)) = <[o:=a]> (contents h)) by by rewrite insert_insert_eq, fmap_insert.
  assert (Hnone : contents h !! o = None) by (unfold contents; by rewrite lookup_fmap, Ho).
  split_and!; [|done|exact Hcont|done]. unfold set_count, set_object, new_object. cbn [objects pointers outside].
  change (partial_alter (fun _ => Some o) l (pointers h)) with (<[l:=o]> (pointers h)).
  assert (Hrefs : forall x, refs x (<[l:=o]> (pointers h)) = refs x (pointers h) + is_one x (Some o)).
  { intros x. rewrite refs_insert. unfold get in Hl. rewrite Hl. change (is_one x None) with 0. lia. }
  split; unfold contents, get; cbn [objects pointers outside]; rewrite ?Hcont, ?insert_insert_eq.
  - intros x b n Hx. rewrite Hrefs. apply lookup_insert_Some in Hx as [[<- [= <- <-]]|[Hne Hx]]; [rewrite is_one_same; lia|].
    rewrite is_one_ne, (counted_objects _ Hc _ _ _ Hx) by congruence. lia.
  - intros x b n [[<- [= <- <-]]|[Hne Hx]]%lookup_insert_Some; [lia|by eapply counted_used].
  - intros r x [[<- <-]|[Hne Hr]]%lookup_insert_Some; apply lookup_insert_is_Some; [by left|]. destruct (decide (o = x)); [by left|right; split; [done|]].
    by eapply (counted_pointers _ Hc).
  - intros r Hr. eapply exists_in_weaken; [by apply insert_subseteq|]. destruct (decide (r = l)) as [->|Hne]; [unfold exists_in; by rewrite Hown|].
    apply (counted_homes _ Hc). unfold get. by rewrite lookup_insert_ne in Hr.
  - apply accounts_constructed; [apply (counted_accounts _ Hc)|done].
Qed.

(** ** Programs *)
Inductive op :=
| Create (l : L) (o : positive) (a : A)  (**r a variable [l], that points to a new object at address [o] *)
| Copy (l r : L)                         (**r a variable [l] *)
| Assign (l r : L)
| AssignRaw (l r : L)                    (**r [l=r.get()] *)
| Reset (l : L)
| Swap (l r : L)
| Load (t l : L)
| Exchange (t l r : L).

Definition step (x : op) (h : heap) : exec heap :=
  match x with
  | Create l o a => construct l (Some o) (new_object o a h)
  | Copy l r => copy_construct l r h
  | Assign l r => assign l r h
  | AssignRaw l r => _ ← access r h; assign_raw l (get r h) h
  | Reset l => reset l h
  | Swap l r => swap l r h
  | Load t l => atomic_load t l h
  | Exchange t l r => atomic_exchange t l r h
  end.

Fixpoint run (xs : list op) (h : heap) : exec heap :=
  match xs with [] => Done h | x :: xs => h ← step x h; run xs h end.

(** What the program sees to: it uses pointers that exist; a variable is
    constructed once; new objects have memory of their own; a
    method does not delete the object that its own pointer is a member of. *)
Definition there (l : L) (c : collected) : Prop := exists_in (memory c) l = true.
Definition unused (l : L) (c : collected) : Prop := owner l = None /\ vars c !! l = None.
Definition stays_itself (l : L) (c : collected) : Prop := exists_in (left_by l (vars c) (memory c)) l = true.

Definition legal (x : op) (c : collected) : Prop :=
  match x with
  | Create l o a => unused l c /\ memory c !! o = None
  | Copy l r | Load l r => unused l c /\ there r c
  | Exchange t l r => unused t c /\ there l c /\ there r c /\ t <> l
  | Assign l r => there l c /\ there r c /\ (vars c !! l = vars c !! r \/ stays_itself l c)
  | AssignRaw l r => there l c /\ there r c /\ stays_itself l c
  | Reset l => there l c /\ stays_itself l c
  | Swap l r => there l c /\ there r c
  end.

#[export] Instance legal_dec x c : Decision (legal x c).
Proof. destruct x; simpl; unfold unused, there, stays_itself; apply _. Defined.

(** With plain pointers and a collector. *)
Definition collected_step (x : op) (c : collected) : collected :=
  let m := vars c in
  match x with
  | Create l o a => collect (set_pointer l (Some o) m) (<[o:=a]> (memory c))
  | Copy l r | Assign l r | AssignRaw l r | Load l r => collect (set_pointer l (m !! r) m) (memory c)
  | Reset l => collect (set_pointer l None m) (memory c)
  | Swap l r => collect (set_pointer r (m !! l) (set_pointer l (m !! r) m)) (memory c)
  | Exchange t l r => collect (set_pointer t (m !! l) (set_pointer l (m !! r) m)) (memory c)
  end.

(** The assignments that use what they have freed: the right hand side is a pointer in an
    object, or is the raw pointer to an object, that is deleted when the left hand
    side is released. *)
Definition uses_freed (x : op) (c : collected) : bool :=
  match x with
  | Assign l r => negb (bool_decide (vars c !! l = vars c !! r)) && negb (exists_in (left_by l (vars c) (memory c)) r)
  | AssignRaw l r => negb (stays (vars c !! r) (left_by l (vars c) (memory c)))
  | _ => false
  end.

Fixpoint lawful (xs : list op) (c : collected) : bool :=
  match xs with [] => true | x :: xs => bool_decide (legal x c) && (uses_freed x c || lawful xs (collected_step x c)) end.

Fixpoint collected_run (xs : list op) (c : collected) : exec collected :=
  match xs with [] => Done c | x :: xs => if uses_freed x c then Fault Undefined else collected_run xs (collected_step x c) end.

Lemma settled_collected h m r :
  counted h -> settled h m r -> (forall l, is_Some (m !! l) -> exists_in (contents h) l = true) ->
  exists h', r = Done h' /\ counted h' /\ collect m (contents h) = mkCollected (pointers h') (contents h').
Proof. intros Hc (h' & -> & Hc' & Hsw) Hm. exists h'. split_and!; [done|done|]. by eapply swept_unique; [apply collect_swept|]. Qed.

Lemma set_homes h l p : counted h -> exists_in (contents h) l = true -> forall s, is_Some (set_pointer l p (pointers h) !! s) -> exists_in (contents h) s = true.
Proof. intros Hc Hl s. rewrite lookup_set. case_decide; [by subst|]. apply (counted_homes _ Hc). Qed.

Lemma set_homes2 h l p r q : counted h -> exists_in (contents h) l = true -> exists_in (contents h) r = true ->
  forall s, is_Some (set_pointer r q (set_pointer l p (pointers h)) !! s) -> exists_in (contents h) s = true.
Proof. intros Hc Hl Hr s. rewrite !lookup_set. repeat case_decide; [by subst|by subst|]. apply (counted_homes _ Hc). Qed.

Lemma unused_there l c k : unused l c -> exists_in k l = true.
Proof. intros [Hl _]. unfold exists_in. by rewrite Hl. Qed.

Lemma step_collected x h :
  counted h -> let c := mkCollected (pointers h) (contents h) in legal x c ->
  if uses_freed x c then step x h = Fault Undefined
  else exists h', step x h = Done h' /\ counted h' /\ collected_step x c = mkCollected (pointers h') (contents h').
Proof.
  intros Hc c Hl. destruct x as [l o a|l r|l r|l r|l|l r|t l|t l r]; simpl in Hl; cbn [uses_freed step].
  - destruct Hl as [[Hown Hv] Ho]. assert (Hno : objects h !! o = None).
    { apply eq_None_not_Some. intros Ho'%contents_Some. simpl in Ho. rewrite Ho in Ho'. by destruct Ho'. }
    destruct (create_counted h l o a Hc Hown Hv Hno) as (h' & -> & Hc' & Hp & Hk & _). exists h'. split_and!; [done|done|].
    simpl. rewrite <- Hk, <- Hp. eapply swept_unique; [apply collect_swept, (counted_homes _ Hc')|by apply counted_self].
  - destruct Hl as [Hu Hr]. unfold copy_construct. rewrite access_Done by exact Hr. cbn [mbind outcome_bind].
    apply settled_collected; [done| |by apply set_homes; [|by eapply unused_there]].
    apply keeps_settled, construct_keeps; [done|apply Hu|by eapply unused_there|]. intros o. by apply pointer_live.
  - destruct Hl as (Hl & Hr & Hs). simpl in Hs. destruct (decide (pointers h !! l = pointers h !! r)) as [E|E].
    + rewrite bool_decide_true by exact E. simpl. apply settled_collected; [done| |by apply set_homes]. by apply keeps_settled, assign_same.
    + rewrite bool_decide_false by exact E. destruct Hs as [|Hs]; [done|]. pose proof (assign_settled h l r Hc Hl Hr E Hs) as Ha. simpl.
      destruct (exists_in (left_by l (pointers h) (contents h)) r); simpl; [|done]. apply settled_collected; [done|exact Ha|by apply set_homes].
  - destruct Hl as (Hl & Hr & Hs). pose proof (assign_raw_settled h l (get r h) Hc Hl Hs) as Ha. rewrite access_Done by exact Hr. cbn [mbind outcome_bind].
    change (pointers h !! r) with (get r h). simpl vars. simpl memory.
    change (pointers h !! r) with (get r h). destruct (stays (get r h) _); simpl; [|done]. apply settled_collected; [done|exact Ha|by apply set_homes].
  - destruct Hl as [Hl Hs]. apply settled_collected; [done|by apply reset_settled|by apply set_homes].
  - destruct Hl as [Hl Hr]. apply settled_collected; [done|by apply keeps_settled, swap_keeps|by apply set_homes2].
  - destruct Hl as [Hu Hr]. apply settled_collected; [done| |by apply set_homes; [|by eapply unused_there]].
    apply keeps_settled, load_keeps; [done|apply Hu|by eapply unused_there|done].
  - destruct Hl as (Hu & Hl & Hr & Htl). apply settled_collected; [done| |by apply set_homes2; [| |by eapply unused_there]].
    apply keeps_settled, exchange_keeps; [done|apply Hu|by eapply unused_there|done..].
Qed.

Lemma run_collected xs h :
  counted h -> let c := mkCollected (pointers h) (contents h) in lawful xs c = true ->
  match collected_run xs c with
  | Done c' => exists h', run xs h = Done h' /\ counted h' /\ c' = mkCollected (pointers h') (contents h')
  | Fault f => run xs h = Fault f
  end.
Proof.
  revert h. induction xs as [|x xs IH]; intros h Hc c Hl; cbn [lawful collected_run run] in *; [by exists h|].
  apply andb_prop in Hl as [Hl%bool_decide_eq_true Hrest]. pose proof (step_collected x h Hc Hl) as Hs. fold c in Hs.
  destruct (uses_freed x c); [by rewrite Hs|]. destruct Hs as (h1 & -> & Hc1 & E). cbn [mbind outcome_bind]. rewrite E in *. by apply IH.
Qed.

Definition no_pointers (s : S) : heap := mkHeap ∅ ∅ s.

Lemma no_pointers_counted s : accounts ∅ s -> counted (no_pointers s).
Proof. intros Hs. split; unfold contents, get; simpl; [done|done|done|by intros l []|by rewrite fmap_empty]. Qed.

(** C5: a program on [intrusive_ref_ptr]s, which can be variables and members of
    the counted objects, is a program on plain pointers with a collector that
    deletes the objects to which no pointer is left, and those that only
    members of deleted objects point to; objects in a cycle are not
    deleted.  The program uses pointers that exist, and a method does not delete
    the object its own pointer is in.  Then nothing that was deleted is used,
    deleted or counted again, whatever the objects, with one exception, that is undefined: an
    assignment whose right hand side is in an object, or is the raw pointer to an
    object, which the release of the left hand side deletes.  Otherwise the
    pointers and objects are those of the collector, the count of an object is the number of the
    pointers to it, and constructors and destructors have run for exactly the objects that exist. *)
Theorem refptr_collects xs s :
  accounts ∅ s -> lawful xs (mkCollected ∅ ∅) = true ->
  match collected_run xs (mkCollected ∅ ∅) with
  | Fault f => f = Undefined /\ run xs (no_pointers s) = Fault f
  | Done c =>
      exists h, run xs (no_pointers s) = Done h /\ pointers h = vars c /\ contents h = memory c /\ accounts (memory c) (outside h) /\
        (forall o a n, objects h !! o = Some (a, n) -> n = refs o (pointers h) /\ 0 < n) /\
        (forall l, there l c -> use_count l h = Done (match get l h with Some o => refs o (pointers h) | None => 0 end))
  end.
Proof.
  intros Hs Hl. pose proof (run_collected xs (no_pointers s) (no_pointers_counted s Hs)) as Hr. unfold contents in Hr. simpl in Hr. rewrite fmap_empty in Hr.
  specialize (Hr Hl). destruct (collected_run xs (mkCollected ∅ ∅)) as [c|f] eqn:E.
  - destruct Hr as (h & Hrun & Hc & ->). exists h. split_and!; [done|done|done|apply (counted_accounts _ Hc)| |].
    + intros o a n Ho. split; [by eapply counted_objects|by eapply counted_used].
    + intros l Hlt. unfold use_count. rewrite access_Done by exact Hlt. cbn [mbind outcome_bind]. destruct (get l h) as [o|] eqn:Hg; [|done].
      destruct (pointer_live _ _ _ Hc Hg) as [[a n] Ho]. rewrite Ho. cbn [mbind outcome_bind deref]. by rewrite (counted_objects _ Hc _ _ _ Ho).
  - split; [|done]. revert E. clear. generalize (mkCollected ∅ ∅). induction xs as [|x xs IH]; intros c E; simpl in E; [done|].
    destruct (uses_freed x c); [congruence|by eapply IH].
Qed.

End ref_ptr.

Arguments heap : clear implicits.
Arguments heap L A S {_ _}.
Arguments op : clear implicits.

(** *** Examples

    Variables, and objects that have as many pointers as their content says. *)
Definition place : Type := nat + positive * nat.
#[local] Instance node_members : Members place nat.
Proof.
  refine {| owner l := match l with inl _ => None | inr (o, _) => Some o end; members o n := (fun i => inr (o, i)) <$> seq 0 n |}.
  intros o a l [i [-> _]]%list_elem_of_fmap. done.
Defined.

(** An object that counts the objects of its class. *)
#[local] Instance counter : Resource nat Z.
Proof.
  refine {| constructed _ n := n + 1; destroyed _ n := n - 1; accounts m n := n = Z.of_nat (size m) |}.
  - intros m s o a -> Ho. rewrite map_size_insert_None by done. lia.
  - intros m s o a -> Ho. rewrite map_size_delete_Some by done. assert (size m <> 0%nat); [|lia].
    intros E%map_size_empty_inv. by rewrite E in Ho.
Defined.

Definition v (i : nat) : place := inl i.
Definition next (o : positive) : place := inr (o, 0%nat).

(** A list of three objects, whose first one is then released: the two others
    go with it, and what is in variables stays. *)
Definition example : list (op place nat) :=
  [Create (v 0) 1 1; Create (v 1) 2 1; Create (v 2) 3 0; Assign (next 1) (v 1); Assign (next 2) (v 2); Reset (v 1); Reset (v 2);
   Create (v 3) 4 1; Load (v 4) (next 1); Exchange (v 5) (next 4) (v 4); Reset (v 4); Reset (next 4); Assign (v 0) (v 3); Swap (v 6) (v 3); AssignRaw (v 7) (v 6)]%nat.

Lemma refptr_collects_witness :
  exists h : heap place nat Z, run example (no_pointers 0) = Done h /\
    pointers h = {[v 0 := 4%positive; v 6 := 4%positive; v 7 := 4%positive]} /\ contents h = {[4%positive := 1%nat]} /\
    outside h = 1 /\ use_count (v 7) h = Done 3.
Proof.
  pose proof (refptr_collects (L := place) (A := nat) (S := Z) example 0 (eq_refl : accounts (∅ : gmap positive nat) 0) ltac:(vm_compute; reflexivity)) as H.
  assert (E : collected_run example (mkCollected ∅ ∅) = Done (mkCollected {[v 0 := 4%positive; v 6 := 4%positive; v 7 := 4%positive]} {[4%positive := 1%nat]}))
    by (vm_compute; reflexivity).
  rewrite E in H. destruct H as (h & Hr & Hp & Hk & Ha & Hn & Hu). exists h. split_and!; [done|done|done|done|].
  rewrite Hu by reflexivity. unfold get, refs. rewrite Hp. reflexivity.
Defined.

(** [p=p->next], of the only pointer to an object: the object is deleted, and
    then its [next] is read. *)
Example ex_next :
  let xs := [Create (v 0) 1 1; Create (v 1) 2 0; Assign (next 1) (v 1); Assign (v 0) (next 1)]%nat in
  lawful xs (mkCollected ∅ ∅) = true /\ run xs (no_pointers 0) = Fault Undefined.
Proof. split; vm_compute; reflexivity. Qed.

(** The same variable and its raw pointer: the object is deleted, then used. *)
Example ex_raw_self : run [Create (v 0) 1 1; AssignRaw (v 0) (v 0)]%nat (no_pointers 0) = Fault Undefined.
Proof. vm_compute. reflexivity. Qed.

(** Two objects that point to each other stay. *)
Example ex_cycle :
  match run [Create (v 0) 1 1; Create (v 1) 2 1; Assign (next 1) (v 1); Assign (next 2) (v 0); Reset (v 0); Reset (v 1)]%nat (no_pointers 0) with
  | Done h => contents h = {[1%positive := 1%nat; 2%positive := 1%nat]} /\ outside h = 2
  | Fault _ => False
  end.
Proof. vm_compute. split; reflexivity. Qed.

End RefPtr.
