(* ===== verification/IntrusiveList.v ===== *)
(** * Intrusive doubly linked lists

    Model of [IntrusiveListItem] and [IntrusiveList] of [kernel/intrusive.h].
    The items are nodes of a store addressed by pointers, linked through
    their own [next] and [prev] fields; a list is its [head], its [tail] and
    the embedded [emptyListItem], a node that closes the list into a ring.
    The operations are the pointer updates of the code; the theorems relate
    them to operations on the list of the nodes. *)
From S2P Require Import Prelude Errors.

(** ** The store and the list object *)

(** A non-null pointer to an item; a null pointer is [None]. *)
Abbreviation addr := positive.

(** The [next] and [prev] fields of every item (an address that is not in the
    map holds [nullptr], the initial value of both), and the data of one
    list: the address of its [emptyListItem], [head] and [tail]. *)
Record state := State {
  nxt : gmap addr addr;
  prv : gmap addr addr;
  emptyListItem : addr;
  head : addr;
  tail : addr;
}.

Definition set_next (p : addr) (v : option addr) (s : state) : state :=
  State (partial_alter (fun _ => v) p (nxt s)) (prv s) (emptyListItem s) (head s) (tail s).
Definition set_prev (p : addr) (v : option addr) (s : state) : state :=
  State (nxt s) (partial_alter (fun _ => v) p (prv s)) (emptyListItem s) (head s) (tail s).
Definition set_head (p : addr) (s : state) : state :=
  State (nxt s) (prv s) (emptyListItem s) p (tail s).
Definition set_tail (p : addr) (s : state) : state :=
  State (nxt s) (prv s) (emptyListItem s) (head s) p.

(** The constructor, on a store where [e] is the embedded item. *)
Definition IntrusiveList_new (nxt prv : gmap addr addr) (e : addr) : state :=
  set_prev e (Some e) (set_next e (Some e) (State nxt prv e e e)).

Definition push_back (item : addr) (s : state) : exec state :=
  let e := emptyListItem s in
  let s := set_next item (Some e) s in
  let s := set_prev item (Some (tail s)) s in
  let s := set_tail item s in
  let s := set_prev e (Some item) s in
  if bool_decide (head s = e) then
    let s := set_head (tail s) s in
    Done (set_next e (Some (head s)) s)
  else
    p ← deref (prv s !! item);
    Done (set_next p (Some item) s).

Definition removeLastItem (s : state) : state :=
  let e := emptyListItem s in
  let s := set_next (head s) None s in
  let s := set_prev (head s) None s in
  let s := set_next e (Some e) s in
  let s := set_prev e (Some e) s in
  set_head e (set_tail e s).

Definition pop_back (s : state) : exec state :=
  let e := emptyListItem s in
  if bool_decide (tail s = head s) then Done (removeLastItem s)
  else
    p ← deref (prv s !! tail s);
    let s := set_next p (Some e) s in
    let s := set_prev e (prv s !! tail s) s in
    let s := set_prev (tail s) None s in
    let s := set_next (tail s) None s in
    t ← deref (prv s !! e);
    Done (set_tail t s).

Definition push_front (item : addr) (s : state) : exec state :=
  let e := emptyListItem s in
  let s := set_prev item (Some e) s in
  s ← (if bool_decide (head s ≠ e) then
         let s := set_next item (Some (head s)) s in
         n ← deref (nxt s !! item);
         let s := set_prev n (Some item) s in
         Done (set_next e (Some item) s)
       else
         let s := set_next item (Some e) s in
         let s := set_tail item s in
         let s := set_prev e (Some item) s in
         Done (set_next e (Some item) s));
  Done (set_head item s).

Definition pop_front (s : state) : exec state :=
  let e := emptyListItem s in
  if bool_decide (tail s = head s) then Done (removeLastItem s)
  else
    n ← deref (nxt s !! head s);
    let s := set_prev n (Some e) s in
    let s := set_prev (head s) None s in
    let s := set_next e (nxt s !! head s) s in
    let s := set_next (head s) None s in
    h ← deref (nxt s !! e);
    Done (set_head h s).

(** *** Iterators: the pointer [cur], which may be null. *)
Abbreviation iterator := (option addr).

Definition begin (s : state) : iterator := Some (head s).
Definition end_ (s : state) : iterator := Some (emptyListItem s).
Definition it_incr (s : state) (it : iterator) : exec iterator :=
  cur ← deref it; Done (nxt s !! cur).
Definition it_decr (s : state) (it : iterator) : exec iterator :=
  cur ← deref it; Done (prv s !! cur).

Definition insert_ (position : iterator) (item : addr) (s : state) : exec state :=
  let e := emptyListItem s in
  if bool_decide (head s = e) then
    let s := set_head item s in
    let s := set_tail item s in
    let s := set_next item (Some e) s in
    let s := set_prev item (Some e) s in
    let s := set_next e (Some item) s in
    Done (set_prev e (Some item) s)
  else
    let s := set_next item position s in
    pos ← deref position;
    let s := set_prev item (prv s !! pos) s in
    p ← deref (prv s !! item);
    let s := set_next p (Some item) s in
    let s := set_prev pos (Some item) s in
    let s := if bool_decide (prv s !! item = Some e) then set_head item s else s in
    let s := if bool_decide (nxt s !! item = Some e) then set_tail item s else s in
    Done s.

Definition erase (it : iterator) (s : state) : exec (iterator * state) :=
  let e := emptyListItem s in
  p ← deref it;
  if bool_decide (nxt s !! p = None \/ prv s !! p = None) then Done (it, s)
  else if bool_decide (p = e) then Done (it, s)
  else
    result ← it_incr s it;
    n ← deref (nxt s !! p);
    let s := set_prev n (prv s !! p) s in
    q ← deref (prv s !! p);
    let s := set_next q (nxt s !! p) s in
    let s := set_next p None s in
    let s := set_prev p None s in
    h ← deref (nxt s !! e);
    let s := set_head h s in
    t ← deref (prv s !! e);
    let s := set_tail t s in
    Done (result, s).

Definition front (s : state) : addr := head s.
Definition back (s : state) : addr := tail s.
Definition empty (s : state) : bool := bool_decide (head s = emptyListItem s).

(** ** Segments *)

Definition link (s : state) (a b : addr) : Prop := nxt s !! a = Some b /\ prv s !! b = Some a.

(** [seg s a xs b]: from [a], following [next], the nodes [xs], then [b];
    following [prev] from [b], the same backwards. *)
Fixpoint seg (s : state) (a : addr) (xs : list addr) (b : addr) : Prop :=
  match xs with
  | [] => link s a b
  | x :: xs => link s a x /\ seg s x xs b
  end.

Lemma seg_app s a xs y ys b : seg s a (xs ++ y :: ys) b <-> seg s a xs y /\ seg s y ys b.
Proof. revert a. induction xs as [|x xs IH]; intros a; simpl; [done|]. rewrite IH. tauto. Qed.

(** A segment depends on the [next] of its nodes and start and on the [prev]
    of its nodes and end. *)
Lemma seg_frame s s' a xs b :
  (forall p, p ∈ a :: xs -> nxt s' !! p = nxt s !! p) ->
  (forall p, p ∈ b :: xs -> prv s' !! p = prv s !! p) ->
  seg s a xs b -> seg s' a xs b.
Proof.
  revert a. induction xs as [|x xs IH]; intros a Hn Hp H; simpl in *.
  - unfold link in *. rewrite Hn, Hp by set_solver. done.
  - destruct H as [[? ?] H]. unfold link. rewrite Hn, Hp by set_solver.
    split; [done|]. apply IH; [set_solver|set_solver|done].
Qed.

Definition unlinked (s : state) (p : addr) : Prop := nxt s !! p = None /\ prv s !! p = None.

(** The ring through [emptyListItem] holds exactly [xs]. *)
Record rep (s : state) (xs : list addr) : Prop := Rep {
  rep_seg : seg s (emptyListItem s) xs (emptyListItem s);
  rep_nodup : NoDup (emptyListItem s :: xs);
  rep_head : head s = default (emptyListItem s) (list.head xs);
  rep_tail : tail s = default (emptyListItem s) (last xs);
}.

(** The store outside a set of nodes is not touched. *)
Definition frame (s s' : state) (P : addr -> Prop) : Prop :=
  emptyListItem s' = emptyListItem s /\
  forall p, ~ P p -> nxt s' !! p = nxt s !! p /\ prv s' !! p = prv s !! p.

(** Lookups in a store after some pointer updates. *)
Ltac heap_simpl := cbn [nxt prv emptyListItem head tail set_next set_prev set_head set_tail] in *.
Ltac heap :=
  heap_simpl; repeat (rewrite lookup_partial_alter; case_decide); simplify_eq; try congruence.

Ltac heap_in :=
  repeat match goal with
  | H : context [partial_alter _ _ _ !! _] |- _ => rewrite lookup_partial_alter in H; case_decide
  end; simplify_eq; try congruence.

Lemma rep_new nx pv e : rep (IntrusiveList_new nx pv e) [].
Proof. unfold IntrusiveList_new. split; try done; [|repeat constructor; set_solver]. split; heap; done. Qed.

Lemma rep_head_empty s xs : rep s xs -> head s = emptyListItem s <-> xs = [].
Proof.
  intros [_ Hnd Hh _]. rewrite Hh. destruct xs; simpl; [by split|].
  apply NoDup_cons in Hnd as [? _]. split; [intros ->; set_solver|by intros [=]].
Qed.

Lemma rep_empty s xs : rep s xs -> empty s = bool_decide (xs = []).
Proof. intros H. unfold empty. apply bool_decide_ext. by apply rep_head_empty. Qed.

Lemma last_snoc_default {A} (xs : list A) x d : default d (last (xs ++ [x])) = x.
Proof. by rewrite last_snoc. Qed.

Lemma seg_first s a x xs b : seg s a (x :: xs) b -> nxt s !! a = Some x.
Proof. intros [[? ?] ?]. done. Qed.
Lemma seg_next s a xs b : seg s a xs b -> nxt s !! a = Some (default b (list.head xs)).
Proof. destruct xs; simpl; [by intros [? ?]|]. by intros [[? ?] ?]. Qed.
Lemma seg_prev s a xs b : seg s a xs b -> prv s !! b = Some (default a (last xs)).
Proof.
  destruct xs as [|xs x _] using rev_ind; [by intros [? ?]|].
  rewrite seg_app, last_snoc. by intros [? [? ?]].
Qed.
Lemma seg_link s a xs x ys b :
  seg s a (xs ++ x :: ys) b ->
  nxt s !! x = Some (default b (list.head ys)) /\ prv s !! x = Some (default a (last xs)).
Proof. rewrite seg_app. intros [? ?]. split; [by apply seg_next|by apply seg_prev]. Qed.

(** A ring is a representation when its ends are recorded in the list object. *)
Lemma rep_intro s xs :
  seg s (emptyListItem s) xs (emptyListItem s) -> NoDup (emptyListItem s :: xs) ->
  nxt s !! emptyListItem s = Some (head s) -> prv s !! emptyListItem s = Some (tail s) -> rep s xs.
Proof.
  intros Hs Hn Hh Ht. split; try done.
  - apply seg_next in Hs. congruence.
  - apply seg_prev in Hs. congruence.
Qed.

Lemma rep_next_empty s xs : rep s xs -> nxt s !! emptyListItem s = Some (head s).
Proof. intros [Hs _ Hh _]. apply seg_next in Hs. congruence. Qed.
Lemma rep_prev_empty s xs : rep s xs -> prv s !! emptyListItem s = Some (tail s).
Proof. intros [Hs _ _ Ht]. apply seg_prev in Hs. congruence. Qed.

(** Inequalities that follow from the absence of duplicates. *)
Ltac nodup_solver :=
  repeat match goal with
  | H : NoDup (_ :: _) |- _ => apply NoDup_cons in H as [? H]
  | H : NoDup (_ ++ _) |- _ => apply NoDup_app in H as (? & ? & H)
  end; set_solver.

(** Linking a fresh node between the last node of [l] and the first of [r]. *)
Lemma seg_splice s s' e l x r :
  let a := default e (last l) in
  let b := default e (list.head r) in
  NoDup (e :: l ++ r) -> x ∉ e :: l ++ r ->
  nxt s' !! a = Some x -> nxt s' !! x = Some b -> prv s' !! b = Some x -> prv s' !! x = Some a ->
  (forall p, p <> a -> p <> x -> nxt s' !! p = nxt s !! p) ->
  (forall p, p <> b -> p <> x -> prv s' !! p = prv s !! p) ->
  seg s e (l ++ r) e -> seg s' e (l ++ x :: r) e.
Proof.
  intros a b Hnd Hx Ha Hxb Hb Hxa Hn Hp Hs. apply seg_app.
  destruct l as [|t l' _] using rev_ind; destruct r as [|y r']; subst a b; simpl in *;
    rewrite ?last_snoc in *; simpl in *; rewrite <- ?app_assoc, ?app_nil_r in *; simpl in *.
  - done.
  - destruct Hs as [_ Hs]. split_and!; try done.
    revert Hs. apply seg_frame; intros p Hpr; [apply Hn|apply Hp]; intros ->; nodup_solver.
  - apply seg_app in Hs as [Hs _].
    split; [apply seg_app; split; [|done]|done].
    revert Hs. apply seg_frame; intros p Hpr; [apply Hn|apply Hp]; intros ->; nodup_solver.
  - apply seg_app in Hs as (Hs1 & _ & Hs2).
    split; [apply seg_app; split; [revert Hs1|done]|split; [done|revert Hs2]];
      apply seg_frame; intros p Hpr; [apply Hn|apply Hp|apply Hn|apply Hp]; intros ->; nodup_solver.
Qed.

(** Unlinking a node. *)
Lemma seg_unsplice s s' e l x r :
  let a := default e (last l) in
  let b := default e (list.head r) in
  NoDup (e :: l ++ x :: r) ->
  nxt s' !! a = Some b -> prv s' !! b = Some a ->
  (forall p, p <> a -> p <> x -> nxt s' !! p = nxt s !! p) ->
  (forall p, p <> b -> p <> x -> prv s' !! p = prv s !! p) ->
  seg s e (l ++ x :: r) e -> seg s' e (l ++ r) e.
Proof.
  intros a b Hnd Ha Hb Hn Hp Hs. apply seg_app in Hs as [Hs1 Hs2].
  destruct l as [|t l' _] using rev_ind; destruct r as [|y r']; subst a b; simpl in *;
    rewrite ?last_snoc in *; simpl in *; rewrite <- ?app_assoc, ?app_nil_r in *; simpl in *.
  - done.
  - destruct Hs2 as [_ Hs2]. split; [done|].
    revert Hs2. apply seg_frame; intros p Hpr; [apply Hn|apply Hp]; intros ->; nodup_solver.
  - apply seg_app in Hs1 as [Hs1 _]. apply seg_app. split; [|done].
    revert Hs1. apply seg_frame; intros p Hpr; [apply Hn|apply Hp]; intros ->; nodup_solver.
  - apply seg_app in Hs1 as [Hs1 _]. destruct Hs2 as [_ Hs2].
    apply seg_app; split; [revert Hs1|split; [done|revert Hs2]];
      apply seg_frame; intros p Hpr; [apply Hn|apply Hp|apply Hn|apply Hp]; intros ->; nodup_solver.
Qed.

Lemma rep_splice s s' l x r a b :
  rep s (l ++ r) -> x ∉ emptyListItem s :: l ++ r ->
  a = default (emptyListItem s) (last l) -> b = default (emptyListItem s) (list.head r) ->
  emptyListItem s' = emptyListItem s ->
  nxt s' !! a = Some x -> nxt s' !! x = Some b -> prv s' !! b = Some x -> prv s' !! x = Some a ->
  (forall p, p <> a -> p <> x -> nxt s' !! p = nxt s !! p) ->
  (forall p, p <> b -> p <> x -> prv s' !! p = prv s !! p) ->
  nxt s' !! emptyListItem s = Some (head s') -> prv s' !! emptyListItem s = Some (tail s') ->
  rep s' (l ++ x :: r).
Proof.
  intros [Hs Hnd _ _] Hx -> -> He Ha Hxb Hb Hxa Hn Hp Hh Ht.
  apply rep_intro; rewrite He; try done.
  - by apply seg_splice with s.
  - apply not_elem_of_cons in Hx as [? Hx]. apply NoDup_cons in Hnd as [? Hnd].
    constructor; [set_solver|]. rewrite <- Permutation_middle. by constructor.
Qed.

Lemma rep_unsplice s s' l x r a b :
  rep s (l ++ x :: r) ->
  a = default (emptyListItem s) (last l) -> b = default (emptyListItem s) (list.head r) ->
  emptyListItem s' = emptyListItem s ->
  nxt s' !! a = Some b -> prv s' !! b = Some a ->
  (forall p, p <> a -> p <> x -> nxt s' !! p = nxt s !! p) ->
  (forall p, p <> b -> p <> x -> prv s' !! p = prv s !! p) ->
  nxt s' !! emptyListItem s = Some (head s') -> prv s' !! emptyListItem s = Some (tail s') ->
  rep s' (l ++ r).
Proof.
  intros [Hs Hnd _ _] -> -> He Ha Hb Hn Hp Hh Ht.
  apply rep_intro; rewrite He; try done.
  - by apply seg_unsplice with s x.
  - apply NoDup_cons in Hnd as [? Hnd]. rewrite <- Permutation_middle in Hnd.
    apply NoDup_cons in Hnd as [_ Hnd]. constructor; [set_solver|done].
Qed.

(** ** The operations *)

(** What an operation that turns [xs] into [ys] does: the ring of the result
    is [ys], the items that left it have null links, and no link of a node
    outside both is touched. *)
Record done_with (s : state) (xs ys : list addr) (s' : state) : Prop := DoneWith {
  dw_rep : rep s' ys;
  dw_unlinked : forall p, p ∈ xs -> p ∉ ys -> unlinked s' p;
  dw_frame : frame s s' (fun p => p ∈ emptyListItem s :: xs ++ ys);
}.

Ltac fresh_ne := repeat match goal with
  | H : _ ∉ _ :: _ |- _ => apply not_elem_of_cons in H as [? H]
  | H : _ ∉ _ ++ _ |- _ => apply not_elem_of_app in H as [? H]
  end.

Lemma default_last_in (e : addr) l : default e (last l) = e \/ default e (last l) ∈ l.
Proof.
  destruct l as [|t l _] using rev_ind; [by left|right]. rewrite last_snoc. simpl. set_solver.
Qed.
Lemma default_head_in (e : addr) l : default e (list.head l) = e \/ default e (list.head l) ∈ l.
Proof. destruct l; [by left|right]. simpl. set_solver. Qed.

Lemma rep_tail_in s xs : rep s xs -> tail s ∈ emptyListItem s :: xs.
Proof. intros [_ _ _ ->]. destruct (default_last_in (emptyListItem s) xs); set_solver. Qed.
Lemma rep_head_in s xs : rep s xs -> head s ∈ emptyListItem s :: xs.
Proof. intros [_ _ -> _]. destruct (default_head_in (emptyListItem s) xs); set_solver. Qed.

Lemma rep_tail_head s xs : rep s xs -> tail s = head s <-> (length xs <= 1)%nat.
Proof.
  intros [_ Hnd -> ->]. destruct xs as [|x [|y ys]]; simpl; [split; [lia|done]|split; [lia|done]|].
  split; [|lia]. intros E. exfalso.
  destruct (last_is_Some (y :: ys)) as [_ [t Ht]]; [done|].
  change (default (emptyListItem s) (last (y :: ys)) = x) in E. rewrite Ht in E. simpl in E. subst t.
  apply last_Some_elem_of in Ht. nodup_solver.
Qed.

Lemma removeLastItem_spec s xs :
  rep s xs -> (length xs <= 1)%nat -> done_with s xs [] (removeLastItem s).
Proof.
  intros Hr Hl. pose proof Hr as [_ Hnd Hh _]. unfold removeLastItem. split.
  - apply rep_intro; heap_simpl; [split|repeat constructor; set_solver| |]; heap.
  - intros p Hp _. destruct xs as [|x [|??]]; simpl in *; [set_solver| |lia].
    apply list_elem_of_singleton in Hp as ->. subst. split; heap; nodup_solver.
  - split; [done|]. intros p Hp.
    assert (p <> head s) by (pose proof (rep_head_in s xs Hr); set_solver).
    split; heap; set_solver.
Qed.

(** The three links an insertion between [a] and [b] has to set. *)
Lemma done_splice s s' l x r a b :
  rep s (l ++ r) -> x ∉ emptyListItem s :: l ++ r ->
  a = default (emptyListItem s) (last l) -> b = default (emptyListItem s) (list.head r) ->
  emptyListItem s' = emptyListItem s ->
  nxt s' !! a = Some x -> nxt s' !! x = Some b -> prv s' !! b = Some x -> prv s' !! x = Some a ->
  (forall p, p <> a -> p <> x -> nxt s' !! p = nxt s !! p) ->
  (forall p, p <> b -> p <> x -> prv s' !! p = prv s !! p) ->
  nxt s' !! emptyListItem s = Some (head s') -> prv s' !! emptyListItem s = Some (tail s') ->
  done_with s (l ++ r) (l ++ x :: r) s'.
Proof.
  intros Hr Hx Ha Hb He H1 H2 H3 H4 Hn Hp Hh Ht. split.
  - by apply (rep_splice s s' l x r a b).
  - set_solver.
  - split; [done|]. intros p Hpn.
    pose proof (default_last_in (emptyListItem s) l). pose proof (default_head_in (emptyListItem s) r).
    split; [apply Hn|apply Hp]; subst; set_solver.
Qed.

(** ... and a removal. *)
Lemma done_unsplice s s' l x r a b :
  rep s (l ++ x :: r) ->
  a = default (emptyListItem s) (last l) -> b = default (emptyListItem s) (list.head r) ->
  emptyListItem s' = emptyListItem s ->
  nxt s' !! a = Some b -> prv s' !! b = Some a -> unlinked s' x ->
  (forall p, p <> a -> p <> x -> nxt s' !! p = nxt s !! p) ->
  (forall p, p <> b -> p <> x -> prv s' !! p = prv s !! p) ->
  nxt s' !! emptyListItem s = Some (head s') -> prv s' !! emptyListItem s = Some (tail s') ->
  done_with s (l ++ x :: r) (l ++ r) s'.
Proof.
  intros Hr Ha Hb He H1 H2 Hx Hn Hp Hh Ht. split.
  - by apply (rep_unsplice s s' l x r a b).
  - intros p Hpi Hpn. assert (p = x) as -> by set_solver. done.
  - split; [done|]. intros p Hpn.
    pose proof (default_last_in (emptyListItem s) l). pose proof (default_head_in (emptyListItem s) r).
    split; [apply Hn|apply Hp]; subst; set_solver.
Qed.

Lemma rep_ends s xs :
  rep s xs -> xs <> [] -> head s <> emptyListItem s /\ tail s <> emptyListItem s.
Proof.
  intros Hr Hne. split; [by rewrite (rep_head_empty s xs)|].
  destruct Hr as [_ Hnd _ ->]. destruct xs as [|t l _] using rev_ind; [done|].
  rewrite last_snoc. simpl. intros ->. nodup_solver.
Qed.

Lemma push_back_spec s xs x :
  rep s xs -> x ∉ emptyListItem s :: xs ->
  exists s', push_back x s = Done s' /\ done_with s xs (xs ++ [x]) s'.
Proof.
  intros Hr Hx. pose proof (rep_tail_in s xs Hr). pose proof (rep_head_empty s xs Hr) as Hhe.
  pose proof (rep_next_empty s xs Hr). pose proof (rep_ends s xs Hr). pose proof Hr as [_ _ _ Htl].
  assert (x <> emptyListItem s /\ x <> tail s) as [Hxe Hxt] by (split; set_solver).
  unfold push_back. heap_simpl. rewrite lookup_partial_alter_ne, lookup_partial_alter_eq by done.
  rewrite <- (app_nil_r xs) in Hr, Hx |- *. rewrite <- app_assoc.
  case_bool_decide as He; simpl; (eexists; split; [done|]).
  - apply Hhe in He as ->. simpl in *.
    apply (done_splice s _ [] x [] (emptyListItem s) (emptyListItem s)); try done; try intros p ??; heap.
  - apply (done_splice s _ xs x [] (tail s) (emptyListItem s)); try done; try intros p ??; heap; tauto.
Qed.

Lemma push_front_spec s xs x :
  rep s xs -> x ∉ emptyListItem s :: xs ->
  exists s', push_front x s = Done s' /\ done_with s xs (x :: xs) s'.
Proof.
  intros Hr Hx. pose proof (rep_head_in s xs Hr). pose proof (rep_head_empty s xs Hr) as Hhe.
  pose proof (rep_prev_empty s xs Hr). pose proof Hr as [_ _ Hhd _].
  assert (x <> emptyListItem s /\ x <> head s) as [Hxe Hxh] by (split; set_solver).
  unfold push_front. heap_simpl.
  case_bool_decide as He; simpl.
  - rewrite lookup_partial_alter_eq. simpl. eexists. split; [done|].
    apply (done_splice s _ [] x xs (emptyListItem s) (head s)); try done; try intros p ??; heap.
  - assert (head s = emptyListItem s) as E by (destruct (decide (head s = emptyListItem s)); done).
    apply Hhe in E as ->. simpl in *. eexists. split; [done|].
    apply (done_splice s _ [] x [] (emptyListItem s) (emptyListItem s)); try done; try intros p ??; heap.
Qed.

Lemma pop_back_spec s xs :
  rep s xs -> exists s', pop_back s = Done s' /\ done_with s xs (take (length xs - 1) xs) s'.
Proof.
  intros Hr. unfold pop_back. case_bool_decide as He.
  - apply (rep_tail_head s xs Hr) in He. eexists. split; [done|].
    replace (length xs - 1)%nat with O by lia. by apply removeLastItem_spec.
  - rewrite (rep_tail_head s xs Hr) in He.
    destruct xs as [|t l _] using rev_ind; [simpl in He; lia|].
    rewrite length_app in He |- *. simpl in He |- *.
    rewrite Nat.add_sub, take_app_length.
    pose proof (rep_next_empty _ _ Hr). pose proof Hr as [Hs Hnd _ Htl].
    rewrite last_snoc in Htl. simpl in Htl. subst t.
    apply seg_link in Hs as [Hn Hp]. simpl in Hn.
    pose proof (default_last_in (emptyListItem s) l) as Ha. set (a := default _ (last l)) in *.
    assert (tail s <> emptyListItem s /\ tail s <> a) as [? ?].
    { destruct Ha as [->|Ha]; split; try (intros E; rewrite <- E in *); nodup_solver. }
    assert (a <> emptyListItem s). { subst a. destruct l as [|y l _] using rev_ind; [simpl in He; lia|].
      rewrite last_snoc in *. simpl in *. intros E. rewrite E in *. nodup_solver. }
    rewrite Hp. simpl. heap_simpl. rewrite lookup_partial_alter_ne, lookup_partial_alter_eq by done.
    simpl. eexists. split; [done|].
    eassert (done_with s (l ++ [tail s]) (l ++ []) _) as Hd; [|by rewrite app_nil_r in Hd].
    apply (done_unsplice s _ l (tail s) [] a (emptyListItem s)); try done; try (split; heap; done);
      try intros p ??; heap.
Qed.

Lemma pop_front_spec s xs :
  rep s xs -> exists s', pop_front s = Done s' /\ done_with s xs (tl xs) s'.
Proof.
  intros Hr. unfold pop_front. case_bool_decide as He.
  - apply (rep_tail_head s xs Hr) in He. eexists. split; [done|].
    replace (tl xs) with (@nil addr) by (destruct xs as [|? [|??]]; simpl in *; done || lia).
    by apply removeLastItem_spec.
  - rewrite (rep_tail_head s xs Hr) in He.
    destruct xs as [|h [|y r]]; simpl in He; try lia. simpl tl.
    pose proof (rep_prev_empty _ _ Hr). pose proof Hr as [Hs Hnd Hhd _]. simpl in Hhd. subst h.
    apply (seg_link s _ [] (head s)) in Hs as [Hn Hp]. simpl in Hn, Hp.
    assert (head s <> emptyListItem s /\ head s <> y /\ y <> emptyListItem s) as (?&?&?)
      by (split_and!; nodup_solver).
    rewrite Hn. simpl. heap_simpl. rewrite lookup_partial_alter_ne, lookup_partial_alter_eq by done.
    rewrite Hn. simpl. eexists. split; [done|].
    apply (done_unsplice s _ [] (head s) (y :: r) (emptyListItem s) y); try done; try (split; heap; done);
      try intros p ??; heap.
Qed.

(** Insertion before the item (or the end) that [r] starts with. *)
Lemma insert_spec s l r x :
  rep s (l ++ r) -> x ∉ emptyListItem s :: l ++ r ->
  exists s', insert_ (Some (default (emptyListItem s) (list.head r))) x s = Done s' /\
    done_with s (l ++ r) (l ++ x :: r) s'.
Proof.
  intros Hr Hx. pose proof (rep_head_empty _ _ Hr) as Hhe.
  pose proof (rep_next_empty _ _ Hr). pose proof (rep_prev_empty _ _ Hr).
  pose proof (default_last_in (emptyListItem s) l). pose proof (default_head_in (emptyListItem s) r).
  unfold insert_. heap_simpl. case_bool_decide as He.
  - apply Hhe in He. apply app_eq_nil in He as [-> ->]. simpl in *. eexists. split; [done|].
    apply (done_splice s _ [] x [] (emptyListItem s) (emptyListItem s)); try done; try intros p ??; heap; set_solver.
  - set (b := default _ (list.head r)) in *. set (a := default _ (last l)) in *.
    assert (x <> emptyListItem s /\ x <> a /\ x <> b) as (?&?&?) by (split_and!; set_solver).
    pose proof Hr as [Hs Hnd Hhd Htl].
    assert (Hpb : prv s !! b = Some a /\ nxt s !! a = Some b).
    { destruct r as [|y r]; subst a b; simpl in *.
      - rewrite app_nil_r in Hs. split; [by apply seg_prev|].
        destruct l as [|t l _] using rev_ind; [by apply seg_next in Hs|].
        rewrite last_snoc. by apply seg_link in Hs as [? _].
      - split; [by apply seg_link in Hs as [_ ?]|].
        destruct l as [|t l _] using rev_ind; [by apply seg_next in Hs|].
        rewrite last_snoc. rewrite <- app_assoc in Hs. by apply seg_link in Hs as [? _]. }
    destruct Hpb as [Hpb Hna].
    simpl. heap_simpl. rewrite lookup_partial_alter_eq, Hpb. simpl.
    eexists. split; [done|].
    apply (done_splice s _ l x r a b); try done; try intros p ??;
      repeat case_bool_decide; heap_simpl; heap_in; heap.
Qed.

Lemma erase_spec s l x r :
  rep s (l ++ x :: r) ->
  exists s', erase (Some x) s = Done (Some (default (emptyListItem s) (list.head r)), s') /\
    done_with s (l ++ x :: r) (l ++ r) s'.
Proof.
  intros Hr. pose proof (rep_next_empty _ _ Hr). pose proof (rep_prev_empty _ _ Hr).
  pose proof (default_last_in (emptyListItem s) l) as Hal. pose proof (default_head_in (emptyListItem s) r) as Hbr.
  pose proof Hr as [Hs Hnd Hhd Htl]. pose proof (seg_link _ _ _ _ _ _ Hs) as [Hn Hp].
  assert (Hpb : prv s !! default (emptyListItem s) (list.head r) = Some x /\
                nxt s !! default (emptyListItem s) (last l) = Some x).
  { apply seg_app in Hs as [Hs1 Hs2]. split.
    - destruct r as [|y r]; simpl; [by apply seg_prev in Hs2|by destruct Hs2 as [[??]?]].
    - destruct l as [|t l _] using rev_ind; [by apply seg_next in Hs1|].
      rewrite last_snoc. simpl. by apply seg_link in Hs1 as [? _]. }
  destruct Hpb as [Hpb Hna].
  set (b := default _ (list.head r)) in *. set (a := default _ (last l)) in *.
  assert (x <> emptyListItem s /\ x <> a /\ x <> b) as (?&?&?).
  { split_and!; [|intros E; rewrite <- E in Hal; clear Hn Hp Hna Hpb|
      intros E; rewrite <- E in Hbr; clear Hn Hp Hna Hpb]; nodup_solver. }
  unfold erase, it_incr. simpl. rewrite Hn, Hp. rewrite !bool_decide_false by naive_solver.
  simpl. heap_simpl.
  assert (partial_alter (fun _ => Some a) b (prv s) !! x = Some a) as -> by heap. simpl.
  pose (s1 := set_prev x None (set_next x None (set_next a (Some b) (set_prev b (Some a) s)))).
  assert (Hh : exists h, nxt s1 !! emptyListItem s = Some h)
    by (subst s1; destruct (decide (a = emptyListItem s)); [exists b|exists (head s)]; heap).
  assert (Ht : exists t, prv s1 !! emptyListItem s = Some t)
    by (subst s1; destruct (decide (b = emptyListItem s)); [exists a|exists (tail s)]; heap).
  destruct Hh as [h Hh], Ht as [t Ht]. subst s1. heap_simpl. rewrite Hh. simpl. rewrite Ht. simpl.
  eexists. split; [done|].
  apply (done_unsplice s _ l x r a b); try done; [| |split|..]; try intros p ??; heap.
Qed.

(** An item that is not linked, or the end of the list, is left alone. *)
Lemma erase_unlinked s p : unlinked s p -> erase (Some p) s = Done (Some p, s).
Proof. intros [Hn Hp]. unfold erase. simpl. rewrite Hn. by rewrite bool_decide_true by auto. Qed.

Lemma erase_end s : erase (end_ s) s = Done (end_ s, s).
Proof. unfold erase, end_. simpl. repeat case_bool_decide; done. Qed.

(** ** Programs over a list *)

Inductive op :=
| PushBack (x : addr) | PushFront (x : addr) | PopBack | PopFront
| Insert (position x : addr) | Erase (x : addr).

(** The code's effect on the store. *)
Definition run_op (o : op) (s : state) : exec state :=
  match o with
  | PushBack x => push_back x s
  | PushFront x => push_front x s
  | PopBack => pop_back s
  | PopFront => pop_front s
  | Insert pos x => insert_ (Some pos) x s
  | Erase x => '(_, s) ← erase (Some x) s; Done s
  end.

Fixpoint run_ops (os : list op) (s : state) : exec state :=
  match os with [] => Done s | o :: os => s ← run_op o s; run_ops os s end.

(** The intended effect on the sequence of items; [e] is the end position. *)
Fixpoint insert_before (pos x : addr) (xs : list addr) : list addr :=
  match xs with
  | [] => [x]
  | y :: xs => if decide (y = pos) then x :: y :: xs else y :: insert_before pos x xs
  end.

Definition spec_op (o : op) (xs : list addr) : list addr :=
  match o with
  | PushBack x => xs ++ [x]
  | PushFront x => x :: xs
  | PopBack => take (length xs - 1) xs
  | PopFront => tl xs
  | Insert pos x => insert_before pos x xs
  | Erase x => filter (fun y => y <> x) xs
  end.

(** The caller adds items that are not in the list, and names positions of
    the list (or its end). *)
Definition valid_op (e : addr) (o : op) (xs : list addr) : Prop :=
  match o with
  | PushBack x | PushFront x => x ∉ e :: xs
  | PopBack | PopFront => True
  | Insert pos x => (x ∉ e :: xs) /\ (pos ∈ e :: xs)
  | Erase x => x ∈ xs
  end.

Fixpoint valid_ops (e : addr) (os : list op) (xs : list addr) : Prop :=
  match os with
  | [] => True
  | o :: os => valid_op e o xs /\ valid_ops e os (spec_op o xs)
  end.

Lemma insert_before_end e x xs : e ∉ xs -> insert_before e x xs = xs ++ [x].
Proof.
  induction xs as [|y xs IH]; intros He; simpl; [done|].
  rewrite decide_False by set_solver. by rewrite IH by set_solver.
Qed.

Lemma insert_before_middle pos x l r :
  pos ∉ l -> insert_before pos x (l ++ pos :: r) = l ++ x :: pos :: r.
Proof.
  induction l as [|y l IH]; intros He; simpl; [by rewrite decide_True|].
  rewrite decide_False by set_solver. by rewrite IH by set_solver.
Qed.

Lemma filter_remove (l : list addr) (x : addr) r :
  x ∉ l -> x ∉ r -> filter (fun y => y <> x) (l ++ x :: r) = l ++ r.
Proof.
  intros Hl Hr. rewrite filter_app, filter_cons_False by auto.
  by rewrite !filter_ne_id.
Qed.

Lemma run_op_refines s xs o :
  rep s xs -> valid_op (emptyListItem s) o xs ->
  exists s', run_op o s = Done s' /\ done_with s xs (spec_op o xs) s'.
Proof.
  intros Hr Hv. pose proof Hr as [_ Hnd _ _]. destruct o as [x|x| | |pos x|x]; simpl in *.
  - by apply push_back_spec.
  - by apply push_front_spec.
  - by apply pop_back_spec.
  - by apply pop_front_spec.
  - destruct Hv as [Hx Hpos]. apply NoDup_cons in Hnd as [Hex Hnd].
    apply elem_of_cons in Hpos as [->|Hpos].
    + rewrite insert_before_end by done. rewrite <- (app_nil_r xs) in Hr, Hx.
      destruct (insert_spec s xs [] x Hr Hx) as (s' & H1 & H2). rewrite app_nil_r in H2. eauto.
    + apply list_elem_of_split in Hpos as (l & r & ->).
      rewrite insert_before_middle by nodup_solver. by apply (insert_spec s l (pos :: r)).
  - apply list_elem_of_split in Hv as (l & r & ->). apply NoDup_cons in Hnd as [_ Hnd].
    rewrite filter_remove by nodup_solver.
    destruct (erase_spec s l x r Hr) as (s' & -> & ?). simpl. eauto.
Qed.

(** The items an operation adds or removes by name. *)
Definition items_of (o : op) : list addr :=
  match o with
  | PushBack x | PushFront x | Insert _ x | Erase x => [x]
  | PopBack | PopFront => []
  end.

Lemma elem_of_insert_before pos x xs p : p ∈ insert_before pos x xs <-> p ∈ x :: xs.
Proof. induction xs as [|y xs IH]; simpl; [done|]. case_decide; [done|]. set_solver. Qed.

Lemma spec_op_subset o xs p : p ∈ spec_op o xs -> p ∈ xs ++ items_of o.
Proof.
  destruct o as [x|x| | |pos x|x]; simpl; intros Hp; try set_solver.
  - apply elem_of_take in Hp as (i & Hp & _). apply list_elem_of_lookup_2 in Hp. set_solver.
  - destruct xs; set_solver.
  - apply elem_of_insert_before in Hp. set_solver.
  - apply list_elem_of_filter in Hp as [_ Hp]. set_solver.
Qed.

Lemma items_of_kept e o xs p :
  valid_op e o xs -> p ∈ items_of o -> p ∉ spec_op o xs -> p ∈ xs.
Proof.
  destruct o as [x|x| | |pos x|x]; simpl; intros Hv Hp Hn; try set_solver.
  rewrite elem_of_insert_before in Hn. set_solver.
Qed.

(** Following [++it] from [it] up to the end of the list. *)
Fixpoint walk (fuel : nat) (s : state) (it : iterator) : exec (list addr) :=
  match fuel with
  | O => Fault OutOfFuel
  | S fuel =>
      if bool_decide (it = end_ s) then Done []
      else
        x ← deref it;
        it ← it_incr s it;
        xs ← walk fuel s it;
        Done (x :: xs)
  end.

(** ... and [--it] from the end down to it. *)
Fixpoint walk_back (fuel : nat) (s : state) (it : iterator) : exec (list addr) :=
  match fuel with
  | O => Fault OutOfFuel
  | S fuel =>
      it ← it_decr s it;
      if bool_decide (it = end_ s) then Done []
      else
        x ← deref it;
        xs ← walk_back fuel s it;
        Done (x :: xs)
  end.

Lemma walk_seg s a xs fuel :
  seg s a xs (emptyListItem s) -> emptyListItem s ∉ xs -> (length xs < fuel)%nat ->
  walk fuel s (nxt s !! a) = Done xs.
Proof.
  revert a fuel. induction xs as [|x xs IH]; intros a [|fuel] Hs He Hf; simpl in Hf; try lia.
  - destruct Hs as [Hn _]. simpl. by rewrite Hn, bool_decide_true.
  - destruct Hs as [[Hn _] Hs]. simpl. rewrite Hn. unfold end_.
    rewrite bool_decide_false by set_solver. simpl. by rewrite (IH x) by (done || set_solver || lia).
Qed.

Lemma walk_back_seg s xs b fuel :
  seg s (emptyListItem s) xs b -> emptyListItem s ∉ xs -> (length xs < fuel)%nat ->
  walk_back fuel s (Some b) = Done (reverse xs).
Proof.
  revert b fuel. induction xs as [|x xs IH] using rev_ind; intros b [|fuel] Hs He Hf;
    rewrite ?length_app in Hf; simpl in Hf; try lia; pose proof (seg_prev _ _ _ _ Hs) as Hp.
  - simpl. rewrite Hp. by rewrite bool_decide_true.
  - rewrite last_snoc in Hp. simpl in Hp. apply seg_app in Hs as [Hs _].
    simpl. rewrite Hp. unfold end_. rewrite bool_decide_false by set_solver. simpl.
    rewrite (IH x) by (done || set_solver || lia). by rewrite reverse_app.
Qed.

(** ** Properties *)

(** C1: Every program of list operations refines the same operations on a
    sequence: started on a list that holds [xs], with items and positions the
    caller may use, it completes without following a null pointer and the
    list then holds the sequence the operations describe; every item that was
    in the list, or was used by the program, and is not in the list at the end
    is unlinked (both links null); every other node of the store is untouched. *)
Theorem list_programs_refine os s xs :
  rep s xs -> valid_ops (emptyListItem s) os xs ->
  let ys := foldl (fun ys o => spec_op o ys) xs os in
  exists s', run_ops os s = Done s' /\ rep s' ys /\
    (forall p, p ∈ xs ++ flat_map items_of os -> p ∉ ys -> unlinked s' p) /\
    frame s s' (fun p => p ∈ emptyListItem s :: xs ++ flat_map items_of os).
Proof.
  revert s xs. induction os as [|o os IH]; intros s xs Hr Hv ys.
  { exists s. subst ys. simpl. rewrite app_nil_r. split_and!; [done|done|done|by split]. }
  destruct Hv as [Ho Hv]. destruct (run_op_refines s xs o Hr Ho) as (s1 & Hs1 & [Hr1 Hu1 [He1 Hf1]]).
  rewrite <- He1 in Hv. destruct (IH s1 _ Hr1 Hv) as (s2 & Hs2 & Hr2 & Hu2 & [He2 Hf2]).
  pose proof (spec_op_subset o xs) as Hsub. pose proof (fun p => items_of_kept _ o xs p Ho) as Hit.
  exists s2. simpl. rewrite Hs1. split_and!; [done|done| |].
  - intros p Hp Hn. destruct (decide (p ∈ spec_op o xs ++ flat_map items_of os)); [by apply Hu2|].
    assert (Hpu : unlinked s1 p) by (apply Hu1; set_solver).
    assert (p <> emptyListItem s).
    { intros ->. destruct Hr as [_ Hnd _ _]. apply NoDup_cons in Hnd as [? _].
      destruct o; simpl in *; set_solver. }
    unfold unlinked. destruct (Hf2 p) as [-> ->]; [rewrite He1; set_solver|done].
  - split; [congruence|]. intros p Hp. rewrite He1 in Hf2.
    destruct (Hf2 p) as [-> ->]; [set_solver|]. apply Hf1. set_solver.
Qed.

Lemma list_programs_refine_witness :
  exists s', run_ops [PushBack 2; PushFront 3; Insert 2 4; Insert 1 5; Erase 3; PopBack]%positive
      (IntrusiveList_new ∅ ∅ 1%positive) = Done s' /\ rep s' [4; 2]%positive.
Proof.
  destruct (list_programs_refine [PushBack 2; PushFront 3; Insert 2 4; Insert 1 5; Erase 3; PopBack]%positive
    (IntrusiveList_new ∅ ∅ 1%positive) [] (rep_new ∅ ∅ 1%positive)) as (s' & H1 & H2 & _).
  - simpl. split_and!; try done; set_solver.
  - exists s'. split; [exact H1|exact H2].
Defined.

(** Traversal: from [begin()], [++] visits exactly the items of the list in
    order and then reaches [end()]; from [end()], [--] visits them in reverse;
    [front()], [back()] and [empty()] agree with the sequence. *)
Theorem list_traversal s xs fuel :
  rep s xs -> (length xs < fuel)%nat ->
  walk fuel s (begin s) = Done xs /\ walk_back fuel s (end_ s) = Done (reverse xs) /\
  (empty s = true <-> xs = []) /\
  (forall x, list.head xs = Some x -> front s = x) /\ (forall x, last xs = Some x -> back s = x).
Proof.
  intros Hr Hf. pose proof Hr as [Hs Hnd Hh Ht]. apply NoDup_cons in Hnd as [He _].
  split_and!.
  - pose proof (rep_next_empty s xs Hr) as Hn. unfold begin. rewrite <- Hn. by apply walk_seg.
  - by apply walk_back_seg.
  - rewrite (rep_empty s xs Hr). apply bool_decide_eq_true.
  - intros x Hx. unfold front. by rewrite Hh, Hx.
  - intros x Hx. unfold back. by rewrite Ht, Hx.
Qed.

Lemma list_traversal_witness :
  exists s', push_back 2 (IntrusiveList_new ∅ ∅ 1)%positive = Done s' /\
    walk 2 s' (begin s') = Done [2%positive].
Proof.
  destruct (push_back_spec _ [] 2%positive (rep_new ∅ ∅ 1%positive)) as (s' & Hs & [Hr _ _]); [set_solver|].
  exists s'. split; [exact Hs|]. apply (list_traversal s' [2%positive] 2 Hr). simpl. lia.
Defined.
