(* ===== verification/Threads.v ===== *)
(** * Thread objects

    Class [Thread] of [kernel/kernel.h]: the status bit field [ThreadFlags]
    and the fields the kernel, the schedulers and the mutexes keep in every
    thread, as objects of a heap.  An operation on a pointer that is not in
    the heap (a thread whose memory was freed) is undefined behaviour. *)
From S2P Require Import Prelude Errors.

Local Open Scope Z_scope.

(** ** Thread::ThreadFlags *)
Module ThreadFlags.

Definition WAIT := Z.shiftl 1 0.
Definition SLEEP := Z.shiftl 1 1.
Definition DELETED := Z.shiftl 1 2.
Definition DELETING := Z.shiftl 1 3.
Definition DETACHED := Z.shiftl 1 4.
Definition WAIT_JOIN := Z.shiftl 1 5.
Definition WAIT_COND := Z.shiftl 1 6.
Definition USERSPACE := Z.shiftl 1 7.

(** [flags |= m] and [flags &= ~m] on an unsigned short, [m] unsigned int. *)
Definition set_mask (m f : Z) : Z := u16 (Z.lor f m).
Definition clear_mask (m f : Z) : Z := u16 (Z.land f (u32 (Z.lnot m))).
Definition set_to (m : Z) (b : bool) (f : Z) : Z := if b then set_mask m f else clear_mask m f.

Definition IRQsetWait (waiting : bool) (f : Z) : Z := set_to WAIT waiting f.
Definition IRQsetJoinWait (waiting : bool) (f : Z) : Z := set_to WAIT_JOIN waiting f.
Definition IRQsetCondWait (waiting : bool) (f : Z) : Z := set_to WAIT_COND waiting f.
Definition IRQsetSleep (sleeping : bool) (f : Z) : Z := set_to SLEEP sleeping f.
Definition IRQsetDeleted (f : Z) : Z := set_mask DELETED f.
Definition IRQsetDeleting (f : Z) : Z := set_mask DELETING f.
Definition IRQsetDetached (f : Z) : Z := set_mask DETACHED f.
Definition IRQsetUserspace (userspace : bool) (f : Z) : Z := set_to USERSPACE userspace f.

Definition has (m f : Z) : bool := negb (Z.land f m =? 0).
Definition isWaiting (f : Z) : bool := has WAIT f.
Definition isSleeping (f : Z) : bool := has SLEEP f.
Definition isDeleted (f : Z) : bool := Z.land f 0x14 =? 0x14.
Definition isDeletedJoin (f : Z) : bool := has DELETED f.
Definition isDeleting (f : Z) : bool := has DELETING f.
Definition isReady (f : Z) : bool := Z.land f 0x67 =? 0.
Definition isDetached (f : Z) : bool := has DETACHED f.
Definition isWaitingJoin (f : Z) : bool := has WAIT_JOIN f.
Definition isWaitingCond (f : Z) : bool := has WAIT_COND f.
Definition isInUserspace (f : Z) : bool := has USERSPACE f.

(** *** What the bit field means *)

Record status := Status {
  waiting : bool; sleeping : bool; deleted : bool; deleting : bool;
  detached : bool; waitingJoin : bool; waitingCond : bool; userspace : bool;
}.

(** The status a value of the field stands for. *)
Definition decode (f : Z) : status :=
  Status (Z.testbit f 0) (Z.testbit f 1) (Z.testbit f 2) (Z.testbit f 3)
         (Z.testbit f 4) (Z.testbit f 5) (Z.testbit f 6) (Z.testbit f 7).

Definition encode (s : status) : Z :=
  Z.b2z (waiting s) + 2 * Z.b2z (sleeping s) + 4 * Z.b2z (deleted s) + 8 * Z.b2z (deleting s)
  + 16 * Z.b2z (detached s) + 32 * Z.b2z (waitingJoin s) + 64 * Z.b2z (waitingCond s)
  + 128 * Z.b2z (userspace s).

(** The values that occur: bits above [USERSPACE] are never set. *)
Definition valid (f : Z) : Prop := 0 <= f < 256.

Lemma valid_encode f : valid f <-> f = encode (decode f).
Proof.
  split.
  - intros Hf. apply Z.eqb_eq.
    refine (forall_byte (fun f => f =? encode (decode f)) _ f Hf). by vm_compute.
  - intros ->. unfold valid, encode. destruct (decode f) as [[] [] [] [] [] [] [] []]; simpl; lia.
Qed.

Lemma decode_encode s : decode (encode s) = s.
Proof. by destruct s as [[] [] [] [] [] [] [] []]. Qed.
Lemma encode_valid s : valid (encode s).
Proof. rewrite valid_encode. by rewrite decode_encode. Qed.

(** The setters. *)
Inductive op :=
| SetWait (b : bool) | SetJoinWait (b : bool) | SetCondWait (b : bool) | SetSleep (b : bool)
| SetDeleted | SetDeleting | SetDetached | SetUserspace (b : bool).

Definition run (o : op) : Z -> Z :=
  match o with
  | SetWait b => IRQsetWait b | SetJoinWait b => IRQsetJoinWait b
  | SetCondWait b => IRQsetCondWait b | SetSleep b => IRQsetSleep b
  | SetDeleted => IRQsetDeleted | SetDeleting => IRQsetDeleting
  | SetDetached => IRQsetDetached | SetUserspace b => IRQsetUserspace b
  end.

Definition run_status (o : op) '(Status w s d dg dt wj wc us) : status :=
  match o with
  | SetWait b => Status b s d dg dt wj wc us
  | SetJoinWait b => Status w s d dg dt b wc us
  | SetCondWait b => Status w s d dg dt wj b us
  | SetSleep b => Status w b d dg dt wj wc us
  | SetDeleted => Status w s true dg dt wj wc us
  | SetDeleting => Status w s d true dt wj wc us
  | SetDetached => Status w s d dg true wj wc us
  | SetUserspace b => Status w s d dg dt wj wc b
  end.

Lemma run_encode o s : run o (encode s) = encode (run_status o s).
Proof. destruct o as [[]|[]|[]|[]| | | |[]]; destruct s as [[] [] [] [] [] [] [] []]; by vm_compute. Qed.

Lemma run_valid o f : valid f -> valid (run o f) /\ decode (run o f) = run_status o (decode f).
Proof.
  intros Hf. apply valid_encode in Hf. pose proof (run_encode o (decode f)) as E.
  rewrite <- Hf in E. rewrite E. split; [apply encode_valid|apply decode_encode].
Qed.

(** The queries on a status. *)
Lemma queries_encode s :
  let f := encode s in
  isWaiting f = waiting s /\ isSleeping f = sleeping s /\
  isDeleted f = deleted s && detached s /\ isDeletedJoin f = deleted s /\
  isDeleting f = deleting s /\ isDetached f = detached s /\
  isWaitingJoin f = waitingJoin s /\ isWaitingCond f = waitingCond s /\
  isInUserspace f = userspace s /\
  isReady f = negb (waiting s || sleeping s || deleted s || waitingJoin s || waitingCond s).
Proof. destruct s as [[] [] [] [] [] [] [] []]; by vm_compute. Qed.

Lemma run_all_valid ops f :
  valid f ->
  valid (foldl (fun f o => run o f) f ops) /\
  decode (foldl (fun f o => run o f) f ops) = foldl (fun s o => run_status o s) (decode f) ops.
Proof.
  revert f. induction ops as [|o ops IH]; intros f Hf; cbn [foldl]; [done|].
  destruct (run_valid o f Hf) as [Hv Hd]. rewrite <- Hd. by apply IH.
Qed.

(** Queries after a setter, as the clients use them. *)
Lemma isReady_valid f : valid f ->
  isReady f = negb (waiting (decode f) || sleeping (decode f) || deleted (decode f)
                    || waitingJoin (decode f) || waitingCond (decode f)).
Proof. intros Hf. rewrite (proj1 (valid_encode f) Hf). rewrite decode_encode. apply queries_encode. Qed.
Lemma isDeleted_valid f : valid f -> isDeleted f = deleted (decode f) && detached (decode f).
Proof. intros Hf. rewrite (proj1 (valid_encode f) Hf). rewrite decode_encode. apply queries_encode. Qed.
Lemma isDeletedJoin_valid f : valid f -> isDeletedJoin f = deleted (decode f).
Proof. intros Hf. rewrite (proj1 (valid_encode f) Hf). rewrite decode_encode. apply queries_encode. Qed.
Lemma isDetached_valid f : valid f -> isDetached f = detached (decode f).
Proof. intros Hf. rewrite (proj1 (valid_encode f) Hf). rewrite decode_encode. apply queries_encode. Qed.

Lemma isWaiting_valid f : valid f -> isWaiting f = waiting (decode f).
Proof. intros Hf. rewrite (proj1 (valid_encode f) Hf). rewrite decode_encode. apply queries_encode. Qed.
Lemma IRQsetWait_valid b f : valid f -> valid (IRQsetWait b f) /\ isWaiting (IRQsetWait b f) = b.
Proof.
  intros Hf. destruct (run_valid (SetWait b) f Hf) as [Hv Hd]. cbn [run] in Hv, Hd. split; [done|].
  rewrite isWaiting_valid, Hd by done. by destruct (decode f).
Qed.

Lemma isWaitingCond_valid f : valid f -> isWaitingCond f = waitingCond (decode f).
Proof. intros Hf. rewrite (proj1 (valid_encode f) Hf). rewrite decode_encode. apply queries_encode. Qed.
Lemma IRQsetWait_cond b f : valid f -> isWaitingCond (IRQsetWait b f) = isWaitingCond f.
Proof.
  intros Hf. destruct (run_valid (SetWait b) f Hf) as [Hv Hd]. cbn [run] in Hv, Hd.
  rewrite !isWaitingCond_valid, Hd by done. by destruct (decode f).
Qed.
Lemma IRQsetCondWait_valid b f :
  valid f -> valid (IRQsetCondWait b f) /\ isWaitingCond (IRQsetCondWait b f) = b /\ isWaiting (IRQsetCondWait b f) = isWaiting f.
Proof.
  intros Hf. destruct (run_valid (SetCondWait b) f Hf) as [Hv Hd]. cbn [run] in Hv, Hd. split; [done|].
  rewrite isWaitingCond_valid, !isWaiting_valid, Hd by done. by destruct (decode f).
Qed.

(** The thread status word implements a record of eight independent
    flags.  Any sequence of setters on a new thread leaves a word in
    [0, 256) whose bits are the flags the setters describe, each changing its
    own flag and no other; a thread is ready exactly when it is not waiting,
    sleeping, deleted, joining or on a condition variable, and its memory may
    be reclaimed exactly when it is both deleted and detached. *)
Theorem flags_refine (ops : list op) :
  let f := foldl (fun f o => run o f) 0 ops in
  let s := foldl (fun s o => run_status o s)
             (Status false false false false false false false false) ops in
  valid f /\ f = encode s /\
  isWaiting f = waiting s /\ isSleeping f = sleeping s /\
  isDeleted f = deleted s && detached s /\ isDeletedJoin f = deleted s /\
  isDeleting f = deleting s /\ isDetached f = detached s /\
  isWaitingJoin f = waitingJoin s /\ isWaitingCond f = waitingCond s /\
  isInUserspace f = userspace s /\
  isReady f = negb (waiting s || sleeping s || deleted s || waitingJoin s || waitingCond s).
Proof.
  intros f s.
  destruct (run_all_valid ops 0) as [Hv Hd]; [by unfold valid|].
  change (foldl _ (decode 0) ops) with s in Hd. change (foldl _ 0 ops) with f in Hv, Hd.
  assert (f = encode s) as -> by (rewrite <- Hd; by apply valid_encode).
  split; [done|]. split; [done|]. apply queries_encode.
Qed.

#[global] Arguments valid _ : simpl never.
#[global] Arguments IRQsetWait _ _ : simpl never.
#[global] Arguments IRQsetJoinWait _ _ : simpl never.
#[global] Arguments IRQsetCondWait _ _ : simpl never.
#[global] Arguments IRQsetSleep _ _ : simpl never.
#[global] Arguments IRQsetDeleted _ : simpl never.
#[global] Arguments IRQsetDeleting _ : simpl never.
#[global] Arguments IRQsetDetached _ : simpl never.
#[global] Arguments IRQsetUserspace _ _ : simpl never.
#[global] Arguments isWaiting _ : simpl never.
#[global] Arguments isSleeping _ : simpl never.
#[global] Arguments isDeleted _ : simpl never.
#[global] Arguments isDeletedJoin _ : simpl never.
#[global] Arguments isDeleting _ : simpl never.
#[global] Arguments isReady _ : simpl never.
#[global] Arguments isDetached _ : simpl never.
#[global] Arguments isWaitingJoin _ : simpl never.
#[global] Arguments isWaitingCond _ : simpl never.
#[global] Arguments isInUserspace _ : simpl never.
#[global] Arguments decode _ : simpl never.
#[global] Arguments encode _ : simpl never.

End ThreadFlags.

(** ** The thread object *)

(** The fields modelled: [flags.flags], [schedData] (priority or deadline,
    and [next]), [savedPriority], [mutexLocked], [mutexWaiting] and
    [joinData], a union of two pointers: one pointer, read through either
    member. *)
Record Thread := mkThread {
  flags : Z;
  priority : Z;
  schedNext : option positive;
  savedPriority : Z;
  mutexLocked : option positive;
  mutexWaiting : option positive;
  joinData : option positive;
}.

Definition set_flags (f : Z -> Z) (t : Thread) : Thread :=
  mkThread (f (flags t)) (priority t) (schedNext t) (savedPriority t) (mutexLocked t) (mutexWaiting t) (joinData t).
Definition set_priority (p : Z) (t : Thread) : Thread :=
  mkThread (flags t) p (schedNext t) (savedPriority t) (mutexLocked t) (mutexWaiting t) (joinData t).
Definition set_schedNext (n : option positive) (t : Thread) : Thread :=
  mkThread (flags t) (priority t) n (savedPriority t) (mutexLocked t) (mutexWaiting t) (joinData t).
Definition set_savedPriority (p : Z) (t : Thread) : Thread :=
  mkThread (flags t) (priority t) (schedNext t) p (mutexLocked t) (mutexWaiting t) (joinData t).
Definition set_mutexLocked (m : option positive) (t : Thread) : Thread :=
  mkThread (flags t) (priority t) (schedNext t) (savedPriority t) m (mutexWaiting t) (joinData t).
Definition set_mutexWaiting (m : option positive) (t : Thread) : Thread :=
  mkThread (flags t) (priority t) (schedNext t) (savedPriority t) (mutexLocked t) m (joinData t).
Definition set_joinData (j : option positive) (t : Thread) : Thread :=
  mkThread (flags t) (priority t) (schedNext t) (savedPriority t) (mutexLocked t) (mutexWaiting t) j.

(** The constructor: [flags(), savedPriority(0), mutexLocked(0),
    mutexWaiting(0)], no thread waiting to join. *)
Definition new_Thread (schedPriority : Z) : Thread :=
  mkThread 0 schedPriority None 0 None None None.

Abbreviation threads := (gmap positive Thread).

(** [p->field] and [p->field = ...]. *)
Definition load (h : threads) (p : positive) : exec Thread := deref (h !! p).
Definition store (h : threads) (p : positive) (f : Thread -> Thread) : exec threads :=
  t ← load h p; Done (<[p := f t]> h).

Definition ready (h : threads) (p : positive) : bool :=
  match h !! p with Some t => ThreadFlags.isReady (flags t) | None => false end.
Definition dead (h : threads) (p : positive) : bool :=
  match h !! p with Some t => ThreadFlags.isDeleted (flags t) | None => false end.

Lemma load_Some h p t : h !! p = Some t -> load h p = Done t.
Proof. unfold load. by intros ->. Qed.
Lemma store_Some h p t f : h !! p = Some t -> store h p f = Done (<[p := f t]> h).
Proof. unfold store, load. by intros ->. Qed.
Lemma load_Done h p t : load h p = Done t <-> h !! p = Some t.
Proof. apply deref_Done. Qed.

(** *** Heaps that differ in the scheduler's fields only *)

Definition strip (t : Thread) : Thread := set_priority 0 (set_schedNext None t).
Definition same_but_sched (h h' : threads) : Prop := strip <$> h' = strip <$> h.

#[export] Instance same_but_sched_equiv : Equivalence same_but_sched.
Proof. split; unfold same_but_sched; repeat intro; congruence. Qed.

Lemma strip_insert h p t t' :
  h !! p = Some t -> strip t' = strip t -> same_but_sched h (<[p := t']> h).
Proof.
  intros Hp Ht. unfold same_but_sched. apply map_eq. intros q.
  rewrite !lookup_fmap. destruct (decide (q = p)) as [->|].
  - by rewrite lookup_insert_eq, Hp; simpl; rewrite Ht.
  - by rewrite lookup_insert_ne.
Qed.

Lemma same_lookup h h' p t :
  same_but_sched h h' -> h !! p = Some t -> exists t', h' !! p = Some t' /\ strip t' = strip t.
Proof.
  intros Hs Hp. assert (Hq := f_equal (fun m => m !! p) Hs). simpl in Hq.
  rewrite !lookup_fmap, Hp in Hq. destruct (h' !! p) as [t'|]; [|done]. exists t'.
  split; [done|]. by apply (inj Some).
Qed.

Lemma strip_flags t t' : strip t' = strip t -> flags t' = flags t.
Proof. by intros [=]. Qed.

Lemma same_lookup_None h h' p : same_but_sched h h' -> h' !! p = None <-> h !! p = None.
Proof.
  intros Hs. assert (Hq := f_equal (fun m => m !! p) Hs). simpl in Hq.
  rewrite !lookup_fmap in Hq. destruct (h' !! p), (h !! p); naive_solver.
Qed.

Lemma same_flags h h' p : same_but_sched h h' -> flags <$> h' !! p = flags <$> h !! p.
Proof.
  intros Hs. assert (Hq := f_equal (fun m => m !! p) Hs). simpl in Hq.
  rewrite !lookup_fmap in Hq. destruct (h' !! p), (h !! p); try done. simpl.
  f_equal. apply strip_flags. by apply (inj Some).
Qed.

Lemma same_ready h h' p : same_but_sched h h' -> ready h' p = ready h p.
Proof.
  intros Hs%(fun H => same_flags h h' p H). unfold ready.
  destruct (h' !! p), (h !! p); simpl in Hs; congruence.
Qed.
Lemma same_dead h h' p : same_but_sched h h' -> dead h' p = dead h p.
Proof.
  intros Hs%(fun H => same_flags h h' p H). unfold dead.
  destruct (h' !! p), (h !! p); simpl in Hs; congruence.
Qed.

(** *** Threads whose scheduler fields are the same *)

Definition sched_fields (t : Thread) : Z * option positive := (priority t, schedNext t).
Definition same_sched (h h' : threads) (p : positive) : Prop :=
  sched_fields <$> h' !! p = sched_fields <$> h !! p.

Lemma same_sched_priority h h' p : same_sched h h' p -> priority <$> h' !! p = priority <$> h !! p.
Proof. unfold same_sched. destruct (h' !! p), (h !! p); simpl; try done. by intros [= -> _]. Qed.
Lemma same_sched_next h h' p : same_sched h h' p -> schedNext <$> h' !! p = schedNext <$> h !! p.
Proof. unfold same_sched. destruct (h' !! p), (h !! p); simpl; try done. by intros [= _ ->]. Qed.
Lemma same_sched_lookup h h' p : h' !! p = h !! p -> same_sched h h' p.
Proof. unfold same_sched. by intros ->. Qed.
Lemma same_sched_insert_ne h p q t : p <> q -> same_sched h (<[p := t]> h) q.
Proof. intros. apply same_sched_lookup. by rewrite lookup_insert_ne. Qed.

#[export] Hint Resolve same_sched_lookup same_sched_insert_ne : miosix.
#[export] Hint Resolve ThreadFlags.encode_valid : miosix.
