(* ===== verification/ThreadLists.v ===== *)
(** * Lists of threads linked through [schedData.next]

    The schedulers keep their threads in singly linked lists (the EDF
    scheduler) or rings (the priority scheduler) that go through the thread
    objects.  [chain] is the shape of a piece of such a list; the lemmas are
    its behaviour under the pointer updates the schedulers make. *)
From S2P Require Import Prelude Errors Threads.

(** The [schedData.next] of a thread: [None] for a pointer not in the heap. *)
Definition next_of (h : threads) (p : positive) : option (option positive) := schedNext <$> h !! p.

(** From [x], following [next], the threads [xs], then [e]. *)
Fixpoint chain (h : threads) (x : positive) (xs : list positive) (e : option positive) : Prop :=
  match xs with
  | [] => next_of h x = Some e
  | y :: ys => next_of h x = Some (Some y) /\ chain h y ys e
  end.

Lemma next_of_Some h p n : next_of h p = Some n <-> exists t, h !! p = Some t /\ schedNext t = n.
Proof. unfold next_of. rewrite fmap_Some. naive_solver. Qed.

Lemma next_of_insert h p t : next_of (<[p := t]> h) p = Some (schedNext t).
Proof. unfold next_of. by rewrite lookup_insert_eq. Qed.
Lemma next_of_insert_ne h p q t : p <> q -> next_of (<[p := t]> h) q = next_of h q.
Proof. intros. unfold next_of. by rewrite lookup_insert_ne. Qed.
Lemma next_of_delete_ne h p q : p <> q -> next_of (delete p h) q = next_of h q.
Proof. intros. unfold next_of. by rewrite lookup_delete_ne. Qed.

Lemma chain_app h x xs y ys e :
  chain h x (xs ++ y :: ys) e <-> chain h x xs (Some y) /\ chain h y ys e.
Proof. revert x. induction xs as [|z xs IH]; intros x; simpl; [done|]. rewrite IH. tauto. Qed.

Lemma chain_frame h h' x xs e :
  (forall p, p ∈ x :: xs -> next_of h' p = next_of h p) -> chain h x xs e -> chain h' x xs e.
Proof.
  revert x. induction xs as [|y ys IH]; intros x Hf; simpl; [by rewrite Hf by set_solver|].
  rewrite Hf by set_solver. intros [? ?]. split; [done|]. apply IH; [set_solver|done].
Qed.

Lemma chain_in_heap h x xs e p : chain h x xs e -> p ∈ x :: xs -> is_Some (h !! p).
Proof.
  revert x. induction xs as [|y ys IH]; intros x Hc Hp; simpl in Hc.
  - apply list_elem_of_singleton in Hp as ->. apply next_of_Some in Hc as (t & -> & _). done.
  - destruct Hc as [Hn Hc]. apply elem_of_cons in Hp as [->|Hp]; [|by eapply IH].
    apply next_of_Some in Hn as (t & -> & _). done.
Qed.

Lemma chain_first h x xs e :
  chain h x xs e -> exists t, h !! x = Some t /\
    schedNext t = match xs with [] => e | y :: _ => Some y end.
Proof. destruct xs; simpl; [|intros [? _]]; by apply next_of_Some. Qed.

(** Redirecting the last thread of a chain. *)
Lemma chain_set_last h x xs z e t :
  NoDup (x :: xs) -> last (x :: xs) = Some z -> chain h x xs e -> chain (<[z := t]> h) x xs (schedNext t).
Proof.
  revert x. induction xs as [|y ys IH]; intros x Hnd Hz Hc.
  - simpl in *. simplify_eq. apply next_of_insert.
  - destruct Hc as [Hn Hc]. apply NoDup_cons in Hnd as [Hx Hnd]. split.
    + rewrite next_of_insert_ne; [done|]. intros ->. apply Hx.
      apply last_Some_elem_of. by rewrite <- Hz.
    + apply IH; [done| |done]. by rewrite <- Hz.
Qed.

(** Inserting a thread after the first one of a chain. *)
Lemma chain_insert_second h x xs e y tx ty :
  chain h x xs e -> NoDup (x :: xs) -> y ∉ x :: xs ->
  next_of h x = Some (schedNext ty) -> schedNext tx = Some y ->
  chain (<[x := tx]> (<[y := ty]> h)) x (y :: xs) e.
Proof.
  intros Hc Hnd Hy Hty Htx. apply NoDup_cons in Hnd as [Hx Hnd].
  split; [by rewrite next_of_insert, Htx|].
  assert (x <> y) by set_solver.
  destruct xs as [|z zs]; simpl in *.
  - rewrite next_of_insert_ne by done. rewrite next_of_insert. congruence.
  - destruct Hc as [Hn Hc]. split.
    + rewrite next_of_insert_ne by done. rewrite next_of_insert. congruence.
    + revert Hc. apply chain_frame. intros p Hp.
      rewrite !next_of_insert_ne by set_solver. done.
Qed.

(** Unlinking the thread after [w]. *)
Lemma chain_unlink h x l w y r e t :
  chain h x (l ++ y :: r) e -> NoDup (x :: l ++ y :: r) ->
  w = default x (last l) -> Some (schedNext t) = next_of h y ->
  chain (<[w := t]> h) x (l ++ r) e.
Proof.
  intros Hc Hnd Hw Ht. apply chain_app in Hc as [Hl Hr].
  assert (Hlast : last (x :: l) = Some w).
  { destruct l as [|a l _] using rev_ind; [by subst|]. rewrite last_snoc in Hw.
    rewrite app_comm_cons, last_snoc. simpl in Hw. congruence. }
  assert (Hnl : NoDup (x :: l)).
  { rewrite app_comm_cons in Hnd. by apply NoDup_app in Hnd as (? & _ & _). }
  assert (Hl' := chain_set_last h x l w (Some y) t Hnl Hlast Hl).
  destruct r as [|z zs]; simpl in Hr.
  - rewrite app_nil_r. assert (schedNext t = e) as <- by congruence. done.
  - destruct Hr as [Hn Hr]. assert (Hz : schedNext t = Some z) by congruence. apply chain_app.
    split; [by rewrite <- Hz|]. revert Hr. apply chain_frame. intros p Hp.
    apply next_of_insert_ne. intros ->.
    assert (p ∈ x :: l) by by apply last_Some_elem_of.
    rewrite app_comm_cons in Hnd. apply NoDup_app in Hnd as (_ & Hd & _). set_solver.
Qed.

(** A ring can be entered at any of its threads. *)
Lemma ring_rotate h x a y b :
  chain h x (a ++ y :: b) (Some x) -> chain h y (b ++ x :: a) (Some y).
Proof. rewrite !chain_app. tauto. Qed.

(** The threads of a list that are not dead, and the first ready one. *)
Definition alive (h : threads) (l : list positive) : list positive := filter (fun p => dead h p = false) l.
Definition first_ready (h : threads) (l : list positive) : option positive :=
  list.head (filter (fun p => ready h p = true) l).


Lemma dead_alive_app h l r : alive h (l ++ r) = alive h l ++ alive h r.
Proof. apply filter_app. Qed.

(** A list of distinct threads of the heap is no longer than the heap. *)
Lemma length_le_heap (h : threads) (l : list positive) :
  NoDup l -> (forall p, p ∈ l -> is_Some (h !! p)) -> length l <= size h.
Proof.
  intros Hnd Hl. rewrite <- size_dom, <- (size_list_to_set (C := gset positive) l) by done.
  apply subseteq_size. intros p Hp. apply elem_of_list_to_set in Hp. apply elem_of_dom. by apply Hl.
Qed.

(** ** Reclaiming threads

    [h'] is [h] without the threads [D], whose memory was freed; only [next]
    fields of the others may differ. *)
Definition unlink (t : Thread) : Thread := set_schedNext None t.

Definition reclaims (D : list positive) (h h' : threads) : Prop :=
  forall p, (p ∈ D -> h' !! p = None) /\ (p ∉ D -> unlink <$> h' !! p = unlink <$> h !! p).

Lemma reclaims_refl h : reclaims [] h h.
Proof. intros p. split; [set_solver|done]. Qed.

Lemma reclaims_trans D D' h h1 h2 :
  reclaims D h h1 -> reclaims D' h1 h2 -> reclaims (D ++ D') h h2.
Proof.
  intros H1 H2 p. destruct (H1 p) as [Hd Hk], (H2 p) as [Hd' Hk']. split.
  - intros Hp. destruct (decide (p ∈ D')); [by apply Hd'|].
    assert (p ∈ D) as HD by set_solver. specialize (Hk' ltac:(done)).
    rewrite (Hd HD) in Hk'. by destruct (h2 !! p).
  - intros Hp. rewrite Hk', Hk by set_solver. done.
Qed.

Lemma reclaims_store h p t t' :
  h !! p = Some t -> unlink t' = unlink t -> reclaims [] h (<[p := t']> h).
Proof.
  intros Hp Ht q. split; [set_solver|intros _]. destruct (decide (p = q)) as [->|].
  - rewrite lookup_insert_eq, Hp. simpl. by rewrite Ht.
  - by rewrite lookup_insert_ne.
Qed.
Lemma reclaims_delete h p : reclaims [p] h (delete p h).
Proof.
  intros q. split; [intros ->%list_elem_of_singleton; apply lookup_delete_eq|].
  intros Hq. rewrite lookup_delete_ne; [done|]. set_solver.
Qed.

Lemma reclaims_ext D D' h h' : (forall p, p ∈ D <-> p ∈ D') -> reclaims D h h' -> reclaims D' h h'.
Proof. intros HD H p. rewrite <- HD. apply H. Qed.

(** What is observed of a thread that is not reclaimed. *)
Lemma reclaims_field {A} (f : Thread -> A) D h h' p :
  (forall t t', unlink t' = unlink t -> f t' = f t) ->
  reclaims D h h' -> p ∉ D -> f <$> h' !! p = f <$> h !! p.
Proof.
  intros Hf H Hp. destruct (H p) as [_ Hk]. specialize (Hk Hp).
  destruct (h' !! p), (h !! p); try done. simpl in *. f_equal. apply Hf. by apply (inj Some).
Qed.

Lemma reclaims_dead D h h' p : reclaims D h h' -> p ∉ D -> dead h' p = dead h p.
Proof.
  intros H Hp. assert (Hq : flags <$> h' !! p = flags <$> h !! p).
  { eapply reclaims_field; [|done..]. by intros ? ? [=]. }
  unfold dead. destruct (h' !! p), (h !! p); simpl in Hq; congruence.
Qed.
Lemma reclaims_priority D h h' p :
  reclaims D h h' -> p ∉ D -> priority <$> h' !! p = priority <$> h !! p.
Proof. intros H Hp. eapply reclaims_field; [|done..]. by intros ? ? [=]. Qed.
Lemma reclaims_alive D h h' l :
  reclaims D h h' -> (forall p, p ∈ l -> p ∉ D) -> alive h' l = alive h l.
Proof.
  intros H Hl. induction l as [|p l IH]; [done|]. unfold alive in *. rewrite !filter_cons.
  rewrite (reclaims_dead D h h' p), IH by (done || set_solver). done.
Qed.

Lemma reclaims_same h h' : reclaims [] h h' -> same_but_sched h h'.
Proof.
  intros H. apply map_eq. intros p. rewrite !lookup_fmap.
  change (strip <$> h' !! p = strip <$> h !! p). eapply reclaims_field; [|done|set_solver].
  intros t t' Ht. change (strip (unlink t') = strip (unlink t)). by rewrite Ht.
Qed.

Definition deads (h : threads) (l : list positive) : list positive := filter (fun p => dead h p = true) l.

Lemma elem_of_deads h l p : p ∈ deads h l <-> p ∈ l /\ dead h p = true.
Proof. unfold deads. rewrite list_elem_of_filter. tauto. Qed.
Lemma elem_of_alive h l p : p ∈ alive h l <-> p ∈ l /\ dead h p = false.
Proof. unfold alive. rewrite list_elem_of_filter. tauto. Qed.

Lemma dead_true h p t : h !! p = Some t -> dead h p = ThreadFlags.isDeleted (flags t).
Proof. unfold dead. by intros ->. Qed.
Lemma ready_true h p t : h !! p = Some t -> ready h p = ThreadFlags.isReady (flags t).
Proof. unfold ready. by intros ->. Qed.

(** The [next] of the last thread of a prefix of a chain. *)
Lemma chain_next_last h x l xs e :
  chain h x (l ++ xs) e ->
  exists t, h !! default x (last l) = Some t /\
    schedNext t = match xs with [] => e | y :: _ => Some y end.
Proof.
  revert x. induction l as [|z l IH]; intros x Hc; [by apply chain_first|].
  destruct Hc as [_ Hc]. destruct (IH z Hc) as (t & Ht & Hn). exists t.
  split; [|done]. rewrite last_cons. destruct (last l); done.
Qed.

Lemma reclaims_deads D h h' l :
  reclaims D h h' -> (forall p, p ∈ l -> p ∉ D) -> deads h' l = deads h l.
Proof.
  intros H Hl. induction l as [|p l IH]; [done|]. unfold deads in *. rewrite !filter_cons.
  rewrite (reclaims_dead D h h' p), IH by (done || set_solver). done.
Qed.

Lemma alive_none h l : (forall p, p ∈ l -> dead h p = true) -> alive h l = [].
Proof.
  intros Hl. induction l as [|p l IH]; [done|]. unfold alive in *.
  rewrite filter_cons_False by (by rewrite Hl by set_solver). apply IH. set_solver.
Qed.
Lemma deads_all h l : (forall p, p ∈ l -> dead h p = true) -> deads h l = l.
Proof.
  intros Hl. induction l as [|p l IH]; [done|]. unfold deads in *.
  rewrite filter_cons_True by (by apply Hl; set_solver). f_equal. apply IH. set_solver.
Qed.

(** ** The first ready thread *)

Lemma first_ready_cons h p l :
  first_ready h (p :: l) = if ready h p then Some p else first_ready h l.
Proof. unfold first_ready. rewrite filter_cons. by destruct (ready h p). Qed.

Lemma first_ready_Some h l c :
  first_ready h l = Some c <->
  exists a b, l = a ++ c :: b /\ ready h c = true /\ (forall p, p ∈ a -> ready h p = false).
Proof.
  split.
  - induction l as [|x l IH]; [done|]. rewrite first_ready_cons. destruct (ready h x) eqn:Ex.
    + intros [= <-]. exists [], l. split_and!; [done|done|set_solver].
    + intros (a & b & -> & Hc & Ha)%IH. exists (x :: a), b. split_and!; [done|done|].
      intros p [->|Hp]%elem_of_cons; auto.
  - intros (a & b & -> & Hc & Ha). induction a as [|x a IH]; simpl; rewrite first_ready_cons.
    + by rewrite Hc.
    + rewrite Ha by set_solver. apply IH. set_solver.
Qed.
Lemma first_ready_None h l : first_ready h l = None <-> forall p, p ∈ l -> ready h p = false.
Proof.
  induction l as [|x l IH]; [split; [set_solver|done]|]. rewrite first_ready_cons.
  destruct (ready h x) eqn:Ex.
  - split; [done|]. intros Hf. rewrite (Hf x) in Ex; [done|set_solver].
  - rewrite IH. set_solver.
Qed.

(** The threads of a ring with [c] first, when they are visited as [v]. *)
Definition rotate_to (c : positive) (v : list positive) : list positive :=
  match list_find (fun p => p = c) v with
  | Some (i, _) => drop i v ++ take i v
  | None => v
  end.
Lemma rotate_to_spec c a b : c ∉ a -> rotate_to c (a ++ c :: b) = c :: b ++ a.
Proof.
  intros Ha. unfold rotate_to.
  assert (list_find (fun p => p = c) (a ++ c :: b) = Some (length a, c)) as ->.
  { apply list_find_Some. split_and!; [|done|].
    - by rewrite lookup_app_r, Nat.sub_diag by lia.
    - intros j y Hj Hlt ->. apply Ha. rewrite lookup_app_l in Hj by done. by eapply list_elem_of_lookup_2. }
  by rewrite drop_app_length, take_app_length.
Qed.

(** Reclaiming [D] removes exactly those threads. *)
Lemma reclaims_filter D h h' (P : positive -> Prop) `{!forall p, Decision (P p)} :
  reclaims D h h' -> (forall p, p ∈ D <-> P p) ->
  same_but_sched (filter (fun '(p, _) => ~ P p) h) h'.
Proof.
  intros Hrec HD. apply map_eq. intros p. rewrite !lookup_fmap.
  change (strip <$> h' !! p = strip <$> filter (fun '(p, _) => ~ P p) h !! p).
  destruct (decide (P p)) as [Hp|Hp].
  - destruct (Hrec p) as [Hn _]. rewrite Hn by by apply HD.
    rewrite map_lookup_filter_None_2; [done|]. right. intros t _ Hnp. done.
  - rewrite (reclaims_field strip D h h' p); [|intros t t' Ht; change (strip (unlink t') = strip (unlink t)); by rewrite Ht|done|by rewrite HD].
    destruct (h !! p) as [t|] eqn:E.
    + rewrite (map_lookup_filter_Some_2 _ _ p t); done.
    + rewrite map_lookup_filter_None_2; [done|]. by left.
Qed.

(** Inserting a thread after [w]. *)
Lemma chain_insert_after h x l w r e y tw ty :
  chain h x (l ++ r) e -> NoDup (x :: l ++ r) -> y ∉ x :: l ++ r -> w = default x (last l) ->
  next_of h w = Some (schedNext ty) -> schedNext tw = Some y ->
  chain (<[w := tw]> (<[y := ty]> h)) x (l ++ y :: r) e.
Proof.
  intros Hc Hnd Hy Hw Hty Htw. destruct l as [|z l _] using rev_ind.
  { simpl in *. subst w. by apply chain_insert_second. }
  rewrite last_snoc in Hw. simpl in Hw. subst z. rewrite <- app_assoc in *. simpl in *.
  apply chain_app in Hc as [Hl Hr]. rewrite app_comm_cons in Hnd, Hy.
  apply NoDup_app in Hnd as (Hndl & Hd & Hndr). apply chain_app. split.
  - revert Hl. apply chain_frame. intros p Hp. rewrite !next_of_insert_ne; [done| |].
    + intros ->. set_solver.
    + intros ->. apply (Hd p Hp). set_solver.
  - apply chain_insert_second; try done. set_solver.
Qed.

Lemma last_default_in (x : positive) l : default x (last l) ∈ x :: l.
Proof. destruct (last l) as [z|] eqn:Ez; simpl; [apply last_Some_elem_of in Ez|]; set_solver. Qed.

(** ** Null terminated lists

    From the pointer [q], the threads [xs]. *)
Definition path (h : threads) (q : option positive) (xs : list positive) : Prop :=
  match xs with [] => q = None | x :: r => q = Some x /\ chain h x r None end.

Lemma path_in_heap h q xs p : path h q xs -> p ∈ xs -> is_Some (h !! p).
Proof. destruct xs as [|x r]; [set_solver|]. intros [_ Hc] Hp. by eapply chain_in_heap. Qed.

Lemma path_length h q xs : path h q xs -> NoDup xs -> (length xs < S (size h))%nat.
Proof.
  intros Hp Hnd. assert (length xs <= size h)%nat; [|lia].
  apply length_le_heap; [done|]. intros p Hin. exact (path_in_heap _ _ _ _ Hp Hin).
Qed.

Lemma path_cons h q x r :
  path h q (x :: r) -> q = Some x /\ exists t, h !! x = Some t /\ path h (schedNext t) r.
Proof.
  intros [-> Hc]. split; [done|]. destruct (chain_first _ _ _ _ Hc) as (t & Ht & Hn).
  exists t. split; [done|]. destruct r as [|y r]; [done|]. by destruct Hc.
Qed.

Lemma path_frame h h' q xs :
  (forall p, p ∈ xs -> next_of h' p = next_of h p) -> path h q xs -> path h' q xs.
Proof. destruct xs; [done|]. intros Hf [? Hc]. split; [done|]. by eapply chain_frame. Qed.
