(* ===== verification/Scheduler.v ===== *)
(** * The scheduler interface

    [kernel/scheduler/scheduler.h]: [basic_scheduler<T>] forwards to the
    scheduler [T] selected at build time.  [SchedulerOps] is the set of
    functions it forwards to, [Scheduler] what the kernel and the mutexes
    rely on; the schedulers are the instances. *)
From S2P Require Import Prelude Errors Threads.

Local Open Scope Z_scope.

(** The globals of [kernel.cpp] a scheduler reads: [kernel_running], the
    wakeup time at the front of [sleepingList], the current time. *)
Record sched_env := SchedEnv {
  kernel_running : Z;
  firstWakeup : option Z;
  IRQgetTime : Z;
}.

(** The globals it sets: [cur], and whether [ctxsave] is the thread's user
    mode save area, with the MPU enabled, or its kernel mode one. *)
Record running := Running { cur : positive; userCtx : bool }.

Class SchedulerOps (S : Type) := {
  PKaddThread : positive -> Z -> S -> threads -> exec (bool * S * threads);
  PKexists : positive -> S -> threads -> exec bool;
  PKremoveDeadThreads : S -> threads -> exec (S * threads);
  PKsetPriority : positive -> Z -> S -> threads -> exec (S * threads);
  getPriority : positive -> threads -> exec Z;
  IRQsetIdleThread : positive -> S -> threads -> exec (S * threads);
  IRQfindNextThread : sched_env -> running -> S -> threads -> exec (Z * running * S);
  IRQgetNextPreemption : S -> Z;
  (** [Priority]: [validate], [operator<] and [mutexLessOp]. *)
  validate : Z -> bool;
  less : Z -> Z -> bool;
  mutexLessOp : Z -> Z -> bool;
}.

(** What the kernel relies on.  [sched_rep s h m]: the scheduler holds the
    threads of [m], each with its priority. *)
Class Scheduler (S : Type) `{SchedulerOps S} := {
  sched_rep : S -> threads -> gmap positive Z -> Prop;

  (** The priorities are ordered by urgency, for preemption and for priority
      inheritance alike. *)
  urgency : Z -> Z;
  urgency_inj a b : urgency a = urgency b -> a = b;
  less_urgency a b : less a b = (urgency a <? urgency b);
  mutexLessOp_urgency a b : mutexLessOp a b = (urgency a <? urgency b);

  rep_in_heap s h m t : sched_rep s h m -> is_Some (m !! t) -> is_Some (h !! t);

  (** The priority is kept in the thread. *)
  getPriority_reads h t tt : h !! t = Some tt -> getPriority t h = Done (priority tt);

  getPriority_law s h m t p : sched_rep s h m -> m !! t = Some p -> getPriority t h = Done p;

  (** Changes of the threads outside the scheduler's own fields. *)
  rep_stable s h h' m :
    (forall p, is_Some (h !! p) -> same_sched h h' p) ->
    sched_rep s h m -> sched_rep s h' m;

  PKaddThread_law s h m t p :
    sched_rep s h m -> validate p = true -> is_Some (h !! t) -> m !! t = None ->
    schedNext <$> h !! t = Some None ->
    exists s' h', PKaddThread t p s h = Done (true, s', h') /\
      sched_rep s' h' (<[t := p]> m) /\ same_but_sched h h';

  PKexists_law s h m t :
    sched_rep s h m -> PKexists t s h = Done (bool_decide (is_Some (m !! t)) && negb (dead h t));

  PKremoveDeadThreads_law s h m :
    sched_rep s h m -> (exists t, is_Some (m !! t) /\ dead h t = false) ->
    exists s' h', PKremoveDeadThreads s h = Done (s', h') /\
      sched_rep s' h' (filter (fun '(t, _) => dead h t = false) m) /\
      same_but_sched (filter (fun '(t, _) => ~ (is_Some (m !! t) /\ dead h t = true)) h) h';

  PKsetPriority_law s h m t p :
    sched_rep s h m -> validate p = true -> is_Some (m !! t) ->
    exists s' h', PKsetPriority t p s h = Done (s', h') /\
      sched_rep s' h' (<[t := p]> m) /\ same_but_sched h h';

  (** A ready thread of the highest priority runs. *)
  IRQfindNextThread_law s h m env r :
    sched_rep s h m -> kernel_running env = 0 ->
    (exists t, is_Some (m !! t) /\ ready h t = true) ->
    exists b r' s', IRQfindNextThread env r s h = Done (b, r', s') /\
      sched_rep s' h m /\
      ready h (cur r') = true /\
      exists p, m !! cur r' = Some p /\
        forall u q, m !! u = Some q -> ready h u = true -> less p q = false;

  (** Nothing changes while the kernel is paused. *)
  IRQfindNextThread_paused s h env r :
    kernel_running env <> 0 -> exists b, IRQfindNextThread env r s h = Done (b, r, s);
}.

(** ** Programs over a scheduler

    What the kernel does with the scheduler: create a thread and hand it
    over, change its status flags, change its priority, reclaim the dead
    threads, choose the next thread to run.  [run_prog] is a sequence of
    these on the scheduler's own state; [abs_prog] what it means on the map of
    the scheduled threads to their priorities. *)
Inductive sched_op :=
| CreateThread (t : positive) (p : Z)
| SetFlags (t : positive) (o : ThreadFlags.op)
| SetPriority (t : positive) (p : Z)
| RemoveDeadThreads
| FindNextThread (env : sched_env).

(** The scheduled threads with their priorities, and every thread in memory
    but for the scheduler's fields. *)
Record abstract := Abstract { prios : gmap positive Z; mem : threads }.

Section programs.
Context {S : Type} `{Scheduler S}.

Definition run_op (o : sched_op) (s : S) (h : threads) (r : running) : exec (S * threads * running) :=
  match o with
  | CreateThread t p =>
      '(_, s, h) ← PKaddThread t p s (<[t := new_Thread 0]> h);
      Done (s, h, r)
  | SetFlags t f => h ← store h t (set_flags (ThreadFlags.run f)); Done (s, h, r)
  | SetPriority t p => '(s, h) ← PKsetPriority t p s h; Done (s, h, r)
  | RemoveDeadThreads => '(s, h) ← PKremoveDeadThreads s h; Done (s, h, r)
  | FindNextThread env => '(_, r, s) ← IRQfindNextThread env r s h; Done (s, h, r)
  end.

Fixpoint run_prog (ops : list sched_op) (s : S) (h : threads) (r : running) : exec (S * threads * running * list positive) :=
  match ops with
  | [] => Done (s, h, r, [])
  | o :: ops =>
      '(s, h, r) ← run_op o s h r;
      '(s', h', r', trace) ← run_prog ops s h r;
      Done (s', h', r', match o with FindNextThread _ => cur r :: trace | _ => trace end)
  end.

Definition abs_op (o : sched_op) (a : abstract) : abstract :=
  match o with
  | CreateThread t p => Abstract (<[t := p]> (prios a)) (<[t := new_Thread 0]> (mem a))
  | SetFlags t f => Abstract (prios a) (alter (set_flags (ThreadFlags.run f)) t (mem a))
  | SetPriority t p => Abstract (<[t := p]> (prios a)) (mem a)
  | RemoveDeadThreads =>
      Abstract (filter (fun '(t, _) => dead (mem a) t = false) (prios a))
               (filter (fun '(t, _) => ~ (is_Some (prios a !! t) /\ dead (mem a) t = true)) (mem a))
  | FindNextThread env => a
  end.

Definition some_ready (a : abstract) : Prop :=
  exists t, is_Some (prios a !! t) /\ ready (mem a) t = true.

(** When an operation may be called. *)
Definition op_ok (o : sched_op) (a : abstract) : Prop :=
  match o with
  | CreateThread t p => mem a !! t = None /\ validate p = true
  | SetFlags t f => is_Some (mem a !! t)
  | SetPriority t p => is_Some (prios a !! t) /\ validate p = true
  | RemoveDeadThreads => exists t, is_Some (prios a !! t) /\ dead (mem a) t = false
  | FindNextThread env => kernel_running env = 0 /\ some_ready a
  end.

Fixpoint prog_ok (ops : list sched_op) (a : abstract) : Prop :=
  match ops with
  | [] => True
  | o :: ops => op_ok o a /\ prog_ok ops (abs_op o a)
  end.

Fixpoint abs_prog (ops : list sched_op) (a : abstract) : abstract :=
  match ops with [] => a | o :: ops => abs_prog ops (abs_op o a) end.

(** [c] is ready and no ready thread has a higher priority. *)
Definition best (a : abstract) (c : positive) : Prop :=
  ready (mem a) c = true /\
  exists p, prios a !! c = Some p /\
    forall u q, prios a !! u = Some q -> ready (mem a) u = true -> less p q = false.

(** The states in which the next thread is chosen. *)
Fixpoint decisions (ops : list sched_op) (a : abstract) : list abstract :=
  match ops with
  | [] => []
  | o :: ops => match o with FindNextThread _ => a :: decisions ops a | _ => decisions ops (abs_op o a) end
  end.

(** The scheduler's state and the memory stand for [a]. *)
Definition stands_for (s : S) (h : threads) (a : abstract) : Prop :=
  sched_rep s h (prios a) /\ same_but_sched (mem a) h.

Lemma stands_for_heap s h a t : stands_for s h a -> is_Some (h !! t) <-> is_Some (mem a !! t).
Proof.
  intros [_ Hs]. pose proof (same_lookup_None _ _ t Hs) as Hn.
  rewrite <- !not_eq_None_Some. tauto.
Qed.

Lemma sched_op_refines o s h r a :
  stands_for s h a -> op_ok o a ->
  exists s' h' r', run_op o s h r = Done (s', h', r') /\ stands_for s' h' (abs_op o a) /\
    match o with FindNextThread _ => best a (cur r') | _ => True end.
Proof.
  intros Ha Hok. pose proof Ha as [Hrep Hs]. destruct o as [t p|t f|t p| |env]; simpl in *.
  - destruct Hok as [Ht Hp].
    assert (Hth : h !! t = None) by by apply (same_lookup_None _ _ t Hs).
    destruct (PKaddThread_law s (<[t := new_Thread 0]> h) (prios a) t p) as (s' & h' & Hrun & Hrep' & Hs').
    + apply (rep_stable s h); [|done]. intros q [tq Hq]. apply same_sched_insert_ne. congruence.
    + done.
    + by rewrite lookup_insert_eq.
    + destruct (prios a !! t) eqn:E; [|done].
      assert (is_Some (h !! t)) as [? ?] by (eapply rep_in_heap; [done|by rewrite E]). congruence.
    + by rewrite lookup_insert_eq.
    + rewrite Hrun. simpl. do 3 eexists. split; [done|]. split; [|done]. split; [done|]. simpl.
      etrans; [|done]. unfold same_but_sched in *. by rewrite !fmap_insert, Hs.
  - assert (is_Some (h !! t)) as [th Hth] by by apply (stands_for_heap s h a).
    rewrite (store_Some _ _ _ _ Hth). simpl. do 3 eexists. split; [done|]. split; [|done]. split; simpl.
    + apply (rep_stable s h); [|done]. intros q _. unfold same_sched.
      destruct (decide (q = t)) as [->|]; [by rewrite lookup_insert_eq, Hth|by rewrite lookup_insert_ne].
    + apply map_eq. intros q. rewrite !lookup_fmap.
      pose proof (f_equal (fun m => m !! q) Hs) as Hq. simpl in Hq. rewrite !lookup_fmap in Hq.
      destruct (decide (q = t)) as [->|].
      * rewrite lookup_insert_eq, lookup_alter_eq. rewrite Hth in Hq.
        destruct (mem a !! t) as [ta|]; [|done]. unfold strip, set_priority, set_schedNext, set_flags in *.
        simpl in *. congruence.
      * by rewrite lookup_insert_ne, lookup_alter_ne.
  - destruct Hok as [Ht Hp].
    destruct (PKsetPriority_law s h (prios a) t p Hrep Hp Ht) as (s' & h' & -> & Hrep' & Hs').
    simpl. do 3 eexists. split; [done|]. split; [|done]. split; [done|]. simpl. by etrans.
  - destruct Hok as (t & Ht & Hd).
    assert (Hdead : forall u, dead h u = dead (mem a) u) by (intros u; by apply same_dead).
    destruct (PKremoveDeadThreads_law s h (prios a) Hrep) as (s' & h' & -> & Hrep' & Hs').
    { exists t. by rewrite Hdead. }
    simpl. do 3 eexists. split; [done|]. split; [|done]. split; simpl.
    + replace (filter (fun '(t, _) => dead (mem a) t = false) (prios a))
        with (filter (fun '(t, _) => dead h t = false) (prios a)); [done|].
      apply map_filter_ext. intros u q _. simpl. by rewrite Hdead.
    + etrans; [|done]. apply map_eq. intros q. rewrite !lookup_fmap, !map_lookup_filter.
      pose proof (f_equal (fun m => m !! q) Hs) as Hq. simpl in Hq. rewrite !lookup_fmap in Hq.
      destruct (h !! q), (mem a !! q); try done; simpl in *.
      repeat case_guard; simpl; try done; rewrite Hdead in *; tauto.
  - destruct Hok as [Hk (t & Ht & Hr)].
    assert (Hready : forall u, ready h u = ready (mem a) u) by (intros u; by apply same_ready).
    destruct (IRQfindNextThread_law s h (prios a) env r Hrep Hk) as (b & r' & s' & -> & Hrep' & Hc & p & Hp & Hmax).
    { exists t. by rewrite Hready. }
    simpl. do 3 eexists. split; [done|]. split; [done|]. split; [by rewrite <- Hready|].
    exists p. split; [done|]. intros u q Hu Hur. apply (Hmax u q Hu). by rewrite Hready.
Qed.

Lemma run_prog_refines ops s h r a :
  stands_for s h a -> prog_ok ops a ->
  exists s' h' r' trace, run_prog ops s h r = Done (s', h', r', trace) /\
    stands_for s' h' (abs_prog ops a) /\ Forall2 best (decisions ops a) trace.
Proof.
  revert s h r a. induction ops as [|o ops IH]; intros s h r a Ha Hok; simpl.
  { do 4 eexists. split_and!; [done|done|constructor]. }
  destruct Hok as [Ho Hok].
  destruct (sched_op_refines o s h r a Ha Ho) as (s1 & h1 & r1 & -> & Ha1 & Hb). simpl.
  destruct (IH s1 h1 r1 _ Ha1 Hok) as (s' & h' & r' & trace & -> & Ha' & Ht). simpl.
  do 4 eexists. split_and!; [done|done|]. destruct o; try done. by constructor.
Qed.

End programs.
