(* ===== verification/PriorityScheduler.v ===== *)
(** * The priority scheduler

    [kernel/scheduler/priority/]: one ring of threads per priority, entered
    at [thread_list[priority]]; the first ready thread after the head of the
    highest ring that has one is run, and becomes the head. *)
From Stdlib Require Import Sorted.
From S2P Require Import Prelude Errors Threads ThreadLists Scheduler.

Local Open Scope Z_scope.

Module PriorityScheduler.

(** [config/miosix_settings.h], with [SCHED_TYPE_PRIORITY]. *)
Definition PRIORITY_MAX : Z := 4.
Definition MAX_TIME_SLICE : Z := 1000000.
Definition INT64_MAX : Z := 2 ^ 63 - 1.

(** ** PrioritySchedulerPriority *)
Definition validate (p : Z) : bool := (0 <=? p) && (p <? PRIORITY_MAX).
Definition mutexLessOp (a b : Z) : bool := a <? b.
Definition less (a b : Z) : bool := a <? b.

(** ** The static data of the class *)
Record sched := Sched {
  thread_list : list (option positive);
  idle : option positive;
  nextPeriodicPreemption : Z;
}.

Definition initial : sched := Sched (replicate (Z.to_nat PRIORITY_MAX) None) None INT64_MAX.

(** [thread_list[i]], read and written; an index out of the array is
    undefined behaviour. *)
Definition get_slot (s : sched) (i : Z) : exec (option positive) :=
  if i <? 0 then Fault Undefined else deref (thread_list s !! Z.to_nat i).
Definition set_slot (s : sched) (i : Z) (q : option positive) : sched :=
  Sched (<[Z.to_nat i := q]> (thread_list s)) (idle s) (nextPeriodicPreemption s).

(** Steps a loop over a ring may take. *)
Definition fuel (h : threads) : nat := S (size h).

(** The priorities from [PRIORITY_MAX-1] down to 0. *)
Definition priorities : list Z := rev (seqZ 0 PRIORITY_MAX).

(** ** Operations *)

(** The insertion of a thread in the list of a priority, at the end of
    [PKaddThread] and of [PKsetPriority]. *)
Definition link_thread (thread : positive) (prio : Z) (s : sched) (h : threads) : exec (sched * threads) :=
  q ← get_slot s prio;
  match q with
  | None =>
      h ← store h thread (set_schedNext (Some thread));
      Done (set_slot s prio (Some thread), h)
  | Some hd =>
      t ← load h hd;
      h ← store h thread (set_schedNext (schedNext t));
      h ← store h hd (set_schedNext (Some thread));
      Done (s, h)
  end.

Definition PKaddThread (thread : positive) (prio : Z) (s : sched) (h : threads) : exec (bool * sched * threads) :=
  h ← store h thread (set_priority prio);
  '(s, h) ← link_thread thread prio s h;
  Done (true, s, h).

(** The inner [for(;;)] of [PKexists]. *)
Fixpoint exists_loop (n : nat) (h : threads) (thread hd temp : positive) : exec bool :=
  match n with
  | O => Fault OutOfFuel
  | S n =>
      t ← load h temp;
      if bool_decide (temp = thread) && negb (ThreadFlags.isDeleted (flags t)) then Done true
      else if bool_decide (schedNext t = Some hd) then Done false
      else temp ← deref (schedNext t); exists_loop n h thread hd temp
  end.

Fixpoint exists_levels (ps : list Z) (thread : positive) (s : sched) (h : threads) : exec bool :=
  match ps with
  | [] => Done false
  | i :: ps =>
      q ← get_slot s i;
      match q with
      | None => exists_levels ps thread s h
      | Some hd =>
          found ← exists_loop (fuel h) h thread hd hd;
          if found : bool then Done true else exists_levels ps thread s h
      end
  end.

Definition PKexists (thread : positive) (s : sched) (h : threads) : exec bool :=
  exists_levels priorities thread s h.

(** [while(tail->schedData.next!=hd) tail=tail->schedData.next;] *)
Fixpoint find_tail (n : nat) (h : threads) (hd tail : positive) : exec positive :=
  match n with
  | O => Fault OutOfFuel
  | S n =>
      t ← load h tail;
      if bool_decide (schedNext t = Some hd) then Done tail
      else tail ← deref (schedNext t); find_tail n h hd tail
  end.

(** [PKremoveDeadThreads], the removal of the first threads of a list: [hd]
    is [thread_list[i]], [tail] is known when [first] is true. *)
Fixpoint remove_first (n : nat) (hd : positive) (tail : option positive) (h : threads)
    : exec (option positive * threads) :=
  match n with
  | O => Fault OutOfFuel
  | S n =>
      t ← load h hd;
      if ThreadFlags.isDeleted (flags t) then
        if bool_decide (schedNext t = Some hd) then Done (None, delete hd h)
        else
          tail ← match tail with Some p => Done p | None => find_tail (fuel h) h hd hd end;
          hd' ← deref (schedNext t);
          h ← store h tail (set_schedNext (Some hd'));
          remove_first n hd' (Some tail) (delete hd h)
      else Done (Some hd, h)
  end.

(** The general case: threads that are not the first. *)
Fixpoint remove_rest (n : nat) (hd temp : positive) (h : threads) : exec threads :=
  match n with
  | O => Fault OutOfFuel
  | S n =>
      t ← load h temp;
      if bool_decide (schedNext t = Some hd) then Done h
      else
        d ← deref (schedNext t);
        td ← load h d;
        if ThreadFlags.isDeleted (flags td) then
          h ← store h temp (set_schedNext (schedNext td));
          remove_rest n hd temp (delete d h)
        else remove_rest n hd d h
  end.

Fixpoint remove_levels (ps : list Z) (s : sched) (h : threads) : exec (sched * threads) :=
  match ps with
  | [] => Done (s, h)
  | i :: ps =>
      q ← get_slot s i;
      match q with
      | None => remove_levels ps s h
      | Some hd =>
          '(q, h) ← remove_first (fuel h) hd None h;
          let s := set_slot s i q in
          match q with
          | None => remove_levels ps s h
          | Some hd => h ← remove_rest (fuel h) hd hd h; remove_levels ps s h
          end
      end
  end.

Definition PKremoveDeadThreads (s : sched) (h : threads) : exec (sched * threads) :=
  remove_levels priorities s h.

Definition getPriority (thread : positive) (h : threads) : exec Z :=
  t ← load h thread; Done (priority t).

(** The [for(;;)] of [PKsetPriority]. *)
Fixpoint unlink_loop (n : nat) (h : threads) (thread hd temp : positive) : exec threads :=
  match n with
  | O => Fault OutOfFuel
  | S n =>
      t ← load h temp;
      if bool_decide (schedNext t = Some hd) then errorHandler UNEXPECTED
      else if bool_decide (schedNext t = Some thread) then
        tt ← load h thread;
        store h temp (set_schedNext (schedNext tt))
      else temp ← deref (schedNext t); unlink_loop n h thread hd temp
  end.

(** [PKsetPriority], the removal of the thread from its old list. *)
Definition unlink_thread (thread : positive) (oldPriority : Z) (s : sched) (h : threads) : exec (sched * threads) :=
  q ← get_slot s oldPriority;
  if bool_decide (q = Some thread) then
    t ← load h thread;
    if bool_decide (schedNext t = Some thread) then Done (set_slot s oldPriority None, h)
    else
      tail ← find_tail (fuel h) h thread thread;
      hd ← deref (schedNext t);
      h ← store h tail (set_schedNext (Some hd));
      Done (set_slot s oldPriority (Some hd), h)
  else
    hd ← deref q;
    h ← unlink_loop (fuel h) h thread hd hd;
    Done (s, h).

Definition PKsetPriority (thread : positive) (newPriority : Z) (s : sched) (h : threads) : exec (sched * threads) :=
  oldPriority ← getPriority thread h;
  h ← store h thread (set_priority newPriority);
  '(s, h) ← unlink_thread thread oldPriority s h;
  link_thread thread newPriority s h.

Definition IRQsetIdleThread (idleThread : positive) (s : sched) (h : threads) : exec (sched * threads) :=
  h ← store h idleThread (set_priority (-1));
  Done (Sched (thread_list s) (Some idleThread) (nextPeriodicPreemption s), h).

Definition IRQgetNextPreemption (s : sched) : Z := nextPeriodicPreemption s.

Definition IRQsetNextPreemption (env : sched_env) (curIsIdleThread : bool) (s : sched) : sched :=
  let firstWakeupInList := default INT64_MAX (firstWakeup env) in
  let next := if curIsIdleThread then firstWakeupInList
              else Z.min firstWakeupInList (s64 (IRQgetTime env + MAX_TIME_SLICE)) in
  Sched (thread_list s) (idle s) next.

(** The inner [for(;;)] of [IRQfindNextThread]: [start] is the thread after
    the head. *)
Fixpoint find_ready (n : nat) (h : threads) (start temp : positive) : exec (option positive) :=
  match n with
  | O => Fault OutOfFuel
  | S n =>
      t ← load h temp;
      if ThreadFlags.isReady (flags t) then Done (Some temp)
      else if bool_decide (schedNext t = Some start) then Done None
      else temp ← deref (schedNext t); find_ready n h start temp
  end.

Fixpoint find_levels (ps : list Z) (env : sched_env) (s : sched) (h : threads) : exec (running * sched) :=
  match ps with
  | [] =>
      i ← deref (idle s);
      _ ← load h i;
      Done (Running i false, IRQsetNextPreemption env true s)
  | i :: ps =>
      q ← get_slot s i;
      match q with
      | None => find_levels ps env s h
      | Some hd =>
          t ← load h hd;
          start ← deref (schedNext t);
          found ← find_ready (fuel h) h start start;
          match found with
          | Some temp =>
              t ← load h temp;
              Done (Running temp (ThreadFlags.isInUserspace (flags t)),
                    IRQsetNextPreemption env false (set_slot s i (Some temp)))
          | None => find_levels ps env s h
          end
      end
  end.

Definition IRQfindNextThread (env : sched_env) (r : running) (s : sched) (h : threads) : exec (Z * running * sched) :=
  if negb (kernel_running env =? 0) then Done (MAX_TIME_SLICE, r, s)
  else '(r, s) ← find_levels priorities env s h; Done (MAX_TIME_SLICE, r, s).

#[export] Instance ops : SchedulerOps sched := {
  PKaddThread := PKaddThread;
  PKexists := PKexists;
  PKremoveDeadThreads := PKremoveDeadThreads;
  PKsetPriority := PKsetPriority;
  getPriority := getPriority;
  IRQsetIdleThread := IRQsetIdleThread;
  IRQfindNextThread := IRQfindNextThread;
  IRQgetNextPreemption := IRQgetNextPreemption;
  validate := validate;
  less := less;
  mutexLessOp := mutexLessOp;
}.

(** ** The lists of threads *)

(** The ring entered at [q] holds [xs]. *)
Definition ring (h : threads) (q : option positive) (xs : list positive) : Prop :=
  match xs with [] => q = None | x :: r => q = Some x /\ chain h x r (Some x) end.

Record level (h : threads) (i : Z) (q : option positive) (xs : list positive) : Prop := Level {
  level_ring : ring h q xs;
  level_nodup : NoDup xs;
  level_priority : forall p, p ∈ xs -> priority <$> h !! p = Some i;
}.

(** The list of a priority, in the order of the ring, from its head. *)
Abbreviation queues := (list (list positive)).
Definition queue (qs : queues) (i : Z) : list positive := default [] (qs !! Z.to_nat i).

Record rep (s : sched) (h : threads) (qs : queues) : Prop := Rep {
  rep_slots : length (thread_list s) = Z.to_nat PRIORITY_MAX;
  rep_queues : length qs = Z.to_nat PRIORITY_MAX;
  rep_level : forall i, 0 <= i < PRIORITY_MAX -> level h i (default None (thread_list s !! Z.to_nat i)) (queue qs i);
}.

Lemma get_slot_Done s h qs i :
  rep s h qs -> 0 <= i < PRIORITY_MAX ->
  get_slot s i = Done (default None (thread_list s !! Z.to_nat i)).
Proof.
  intros Hr Hi. unfold get_slot. destruct (Z.ltb_spec i 0); [lia|].
  destruct (lookup_lt_is_Some_2 (thread_list s) (Z.to_nat i)) as [q ->]; [|done].
  rewrite (rep_slots _ _ _ Hr). unfold PRIORITY_MAX in *. lia.
Qed.

Lemma level_in_heap h i q xs p : level h i q xs -> p ∈ xs -> is_Some (h !! p).
Proof. intros Hl Hp. apply (level_priority _ _ _ _ Hl) in Hp. by destruct (h !! p). Qed.

Lemma level_length h i q xs : level h i q xs -> (length xs < fuel h)%nat.
Proof.
  intros Hl. unfold fuel. assert (length xs <= size h)%nat; [|lia].
  apply length_le_heap; [apply Hl|]. intros p. by eapply level_in_heap.
Qed.

Lemma level_frame h h' i q xs :
  (forall p, p ∈ xs -> same_sched h h' p) ->
  level h i q xs -> level h' i q xs.
Proof.
  intros Hf [Hr Hn Hp]. split; [|done|].
  - destruct xs as [|x r]; [done|]. destruct Hr as [-> Hc]. split; [done|].
    revert Hc. apply chain_frame. intros p Hin. by apply same_sched_next, Hf.
  - intros p Hin. rewrite <- (Hp p Hin). by apply same_sched_priority, Hf.
Qed.

Lemma fuel_S h : fuel h = S (size h).
Proof. done. Qed.
#[local] Opaque fuel.

(** A thread has one priority, hence is in one list. *)
Lemma queue_disjoint s h qs i j p :
  rep s h qs -> 0 <= i < PRIORITY_MAX -> 0 <= j < PRIORITY_MAX ->
  p ∈ queue qs i -> p ∈ queue qs j -> i = j.
Proof.
  intros Hr Hi Hj Hpi Hpj.
  apply (level_priority _ _ _ _ (rep_level _ _ _ Hr i Hi)) in Hpi.
  apply (level_priority _ _ _ _ (rep_level _ _ _ Hr j Hj)) in Hpj. congruence.
Qed.

Lemma queue_insert qs i j xs :
  length qs = Z.to_nat PRIORITY_MAX -> 0 <= i < PRIORITY_MAX -> 0 <= j ->
  queue (<[Z.to_nat i := xs]> qs) j = if decide (i = j) then xs else queue qs j.
Proof.
  intros Hl Hi Hj. unfold queue. case_decide as Hij.
  - subst. rewrite list_lookup_insert_eq; [done|]. unfold PRIORITY_MAX in *. lia.
  - rewrite list_lookup_insert_ne; [done|]. lia.
Qed.

(** Changing one list. *)
Lemma rep_update s h h' qs i q xs :
  rep s h qs -> 0 <= i < PRIORITY_MAX -> level h' i q xs ->
  (forall j p, 0 <= j < PRIORITY_MAX -> j <> i -> p ∈ queue qs j -> same_sched h h' p) ->
  rep (set_slot s i q) h' (<[Z.to_nat i := xs]> qs).
Proof.
  intros [Hs Hq Hl] Hi Hx Hf. split; simpl; [by rewrite length_insert..|].
  intros j Hj. rewrite queue_insert by (done || lia).
  case_decide as Hij.
  - subst j. rewrite list_lookup_insert_eq by (unfold PRIORITY_MAX in *; lia). done.
  - rewrite list_lookup_insert_ne by lia. eapply level_frame; [|by apply Hl].
    intros p Hp. by eapply Hf.
Qed.

(** The same without a change of the head. *)
Lemma rep_update_same s h h' qs i xs :
  rep s h qs -> 0 <= i < PRIORITY_MAX ->
  level h' i (default None (thread_list s !! Z.to_nat i)) xs ->
  (forall j p, 0 <= j < PRIORITY_MAX -> j <> i -> p ∈ queue qs j -> same_sched h h' p) ->
  rep s h' (<[Z.to_nat i := xs]> qs).
Proof.
  intros Hr Hi Hx Hf. assert (H := rep_update s h h' qs i _ xs Hr Hi Hx Hf).
  unfold set_slot in H. rewrite list_insert_id in H; [by destruct s|].
  assert (Z.to_nat i < length (thread_list s))%nat as [q Hq]%lookup_lt_is_Some_2.
  { rewrite (rep_slots _ _ _ Hr). unfold PRIORITY_MAX in *. lia. }
  by rewrite Hq.
Qed.

(** ** Adding a thread *)

Definition add_after_head (t : positive) (xs : list positive) : list positive :=
  match xs with [] => [t] | x :: r => x :: t :: r end.

Lemma elem_of_add_after_head t xs p : p ∈ add_after_head t xs <-> p = t \/ p ∈ xs.
Proof. destruct xs; simpl; set_solver. Qed.

Lemma add_after_head_nodup t xs : NoDup xs -> t ∉ xs -> NoDup (add_after_head t xs).
Proof.
  destruct xs as [|x r]; simpl; intros Hnd Ht; [by apply NoDup_singleton|].
  apply NoDup_cons in Hnd as [Hx Hr]. apply not_elem_of_cons in Ht as [? ?].
  constructor; [apply not_elem_of_cons|constructor]; auto.
Qed.

(** The scheduler's other data. *)
Definition same_globals (s s' : sched) : Prop :=
  idle s' = idle s /\ nextPeriodicPreemption s' = nextPeriodicPreemption s.

Lemma link_thread_spec s h qs t i tt :
  rep s h qs -> 0 <= i < PRIORITY_MAX -> h !! t = Some tt -> priority tt = i ->
  (forall j, 0 <= j < PRIORITY_MAX -> t ∉ queue qs j) ->
  exists s' h', link_thread t i s h = Done (s', h') /\
    rep s' h' (<[Z.to_nat i := add_after_head t (queue qs i)]> qs) /\
    reclaims [] h h' /\ same_globals s s'.
Proof.
  intros Hr Hi Ht Hp Hnew. unfold link_thread. rewrite (get_slot_Done s h qs) by done. simpl.
  destruct (rep_level _ _ _ Hr i Hi) as [Hring Hnd Hprio] eqn:El. clear El.
  specialize (Hnew i Hi) as Hti. destruct (queue qs i) as [|hd r] eqn:Eq; simpl in Hring.
  - rewrite Hring. simpl. rewrite (store_Some _ _ _ _ Ht). simpl.
    eexists _, _. split_and!; [done| |by eapply reclaims_store|done].
    eapply rep_update; [done|done| |].
    + split; [|repeat constructor; set_solver|].
      * split; [done|]. apply next_of_insert.
      * intros p ->%list_elem_of_singleton. rewrite lookup_insert_eq. simpl. by rewrite Hp.
    + intros j p Hj Hji Hin. apply same_sched_insert_ne. intros ->. by apply (Hnew j).
  - destruct Hring as [-> Hc]. destruct (chain_first _ _ _ _ Hc) as (th & Hth & Hnext).
    simpl. rewrite (load_Some _ _ _ Hth). simpl. rewrite (store_Some _ _ _ _ Ht). simpl.
    assert (Hne : t <> hd) by set_solver.
    rewrite (store_Some _ hd th) by (by rewrite lookup_insert_ne). simpl.
    eexists s, _. split_and!; [done| | |done].
    + apply rep_update_same with h; [done|done| |].
      * assert (Hq : default None (thread_list s !! Z.to_nat i) = Some hd).
        { pose proof (level_ring _ _ _ _ (rep_level _ _ _ Hr i Hi)) as Hx. rewrite Eq in Hx. apply Hx. }
        rewrite Hq. split.
        -- split; [done|]. apply chain_insert_second; try done.
           unfold next_of. by rewrite Hth.
        -- by apply (add_after_head_nodup t (hd :: r)).
        -- intros p Hin. destruct (decide (p = hd)) as [->|].
           { rewrite lookup_insert_eq. simpl. rewrite <- (Hprio hd) by set_solver. by rewrite Hth. }
           rewrite lookup_insert_ne by done. destruct (decide (p = t)) as [->|].
           { rewrite lookup_insert_eq. simpl. by rewrite Hp. }
           rewrite lookup_insert_ne by done. apply Hprio. set_solver.
      * intros j p Hj Hji Hin. apply same_sched_lookup.
        rewrite !lookup_insert_ne; [done| |]; intros ->; [by apply (Hnew j)|].
        apply Hji. eapply (queue_disjoint s h); try done. rewrite Eq. set_solver.
    + eapply (reclaims_trans [] []);
        [apply (reclaims_store h t tt) with (t' := set_schedNext (schedNext th) tt)|apply (reclaims_store _ hd th)];
        by rewrite ?lookup_insert_ne.
Qed.

Lemma same_but_sched_store h p t t' :
  h !! p = Some t -> strip t' = strip t -> same_but_sched h (<[p := t']> h).
Proof. apply strip_insert. Qed.

Lemma rep_store_priority s h qs t tt i :
  rep s h qs -> h !! t = Some tt -> (forall j, 0 <= j < PRIORITY_MAX -> t ∉ queue qs j) ->
  rep s (<[t := set_priority i tt]> h) qs.
Proof.
  intros [Hs Hq Hl] Ht Hnew. split; [done|done|]. intros j Hj.
  eapply level_frame; [|by apply Hl]. intros p Hp. apply same_sched_insert_ne.
  intros ->. by apply (Hnew j).
Qed.

Lemma PKaddThread_spec s h qs t i :
  rep s h qs -> 0 <= i < PRIORITY_MAX -> is_Some (h !! t) ->
  (forall j, 0 <= j < PRIORITY_MAX -> t ∉ queue qs j) ->
  exists s' h', PKaddThread t i s h = Done (true, s', h') /\
    rep s' h' (<[Z.to_nat i := add_after_head t (queue qs i)]> qs) /\
    same_but_sched h h' /\ same_globals s s'.
Proof.
  intros Hr Hi [tt Ht] Hnew. unfold PKaddThread. rewrite (store_Some _ _ _ _ Ht). simpl.
  destruct (link_thread_spec s (<[t := set_priority i tt]> h) qs t i (set_priority i tt))
    as (s' & h' & -> & Hr' & Hrec & Hg); simpl; try done.
  - by apply rep_store_priority.
  - apply lookup_insert_eq.
  - exists s', h'. split_and!; [done..| |done].
    etrans; [by apply (strip_insert h t tt (set_priority i tt))|]. by apply reclaims_same.
Qed.

(** ** Looking a thread up *)

Lemma exists_loop_spec n h t hd l temp r :
  chain h temp r (Some hd) -> hd ∉ r -> (length r < n)%nat -> l = temp :: r ->
  exists_loop n h t hd temp = Done (bool_decide (t ∈ l) && negb (dead h t)).
Proof.
  revert temp r l. induction n as [|n IH]; intros temp r l Hc Hhd Hn ->; [lia|]. simpl.
  destruct (chain_first _ _ _ _ Hc) as (tt & Ht & Hnext). rewrite (load_Some _ _ _ Ht). simpl.
  destruct (decide (temp = t)) as [->|Hne].
  - rewrite (bool_decide_eq_true_2 (t = t)), (bool_decide_eq_true_2 (t ∈ _)) by set_solver. simpl.
    unfold dead. rewrite Ht. destruct (ThreadFlags.isDeleted (flags tt)) eqn:Ed; simpl; [|done].
    destruct r as [|y r]; [by rewrite Hnext, bool_decide_eq_true_2|].
    rewrite Hnext. rewrite bool_decide_eq_false_2 by (intros [= ->]; set_solver). simpl.
    destruct Hc as [_ Hc]. rewrite (IH y r (y :: r)) by (done || set_solver || (simpl in *; lia)).
    unfold dead. rewrite Ht, Ed. simpl. by rewrite andb_false_r.
  - rewrite (bool_decide_eq_false_2 (temp = t)) by done. simpl.
    destruct r as [|y r].
    + rewrite Hnext, bool_decide_eq_true_2 by done. rewrite bool_decide_eq_false_2 by set_solver. done.
    + rewrite Hnext. rewrite bool_decide_eq_false_2 by (intros [= ->]; set_solver). simpl.
      destruct Hc as [_ Hc]. rewrite (IH y r (y :: r)) by (done || set_solver || (simpl in *; lia)).
      f_equal. f_equal. apply bool_decide_ext. set_solver.
Qed.

(** A thread in some list. *)
Definition scheduled (qs : queues) (t : positive) : Prop :=
  exists i, 0 <= i < PRIORITY_MAX /\ t ∈ queue qs i.

Lemma exists_levels_spec ps s h qs t :
  rep s h qs -> (forall i, i ∈ ps -> 0 <= i < PRIORITY_MAX) ->
  exists b, exists_levels ps t s h = Done (b && negb (dead h t)) /\
    (b = true <-> exists i, i ∈ ps /\ t ∈ queue qs i).
Proof.
  intros Hr. induction ps as [|i ps IH]; intros Hps.
  - exists false. split; [done|]. split; [done|]. intros (i & Hi & _). set_solver.
  - destruct IH as (b & Hb & Hiff); [set_solver|]. simpl.
    assert (Hi : 0 <= i < PRIORITY_MAX) by (apply Hps; set_solver).
    rewrite (get_slot_Done s h qs) by done. simpl.
    pose proof (rep_level _ _ _ Hr i Hi) as Hl. destruct (Hl) as [Hring Hnd _].
    destruct (queue qs i) as [|hd r] eqn:Eq.
    + rewrite Hring. exists b. split; [done|]. rewrite Hiff. split.
      * intros (j & Hj & Hin). exists j. set_solver.
      * intros (j & [->|Hj]%elem_of_cons & Hin); [rewrite Eq in Hin; set_solver|eauto].
    + destruct Hring as [-> Hc]. apply NoDup_cons in Hnd as [Hhd _].
      rewrite (exists_loop_spec _ h t hd (hd :: r) hd r);
        [|done|done|apply level_length in Hl; simpl in Hl; lia|done].
      exists (bool_decide (t ∈ hd :: r) || b). split.
      * simpl. case_bool_decide; simpl; [|done]. by destruct (dead h t); simpl; rewrite ?Hb, ?andb_false_r.
      * rewrite orb_true_iff, bool_decide_eq_true, Hiff. split.
        -- intros [Hin|(j & ? & ?)]; [exists i; rewrite Eq|exists j]; set_solver.
        -- intros (j & [->|Hj]%elem_of_cons & Hin); [rewrite Eq in Hin|]; eauto.
Qed.

Lemma elem_of_priorities i : i ∈ priorities <-> 0 <= i < PRIORITY_MAX.
Proof.
  unfold priorities. rewrite list_elem_of_In, <- in_rev, <- list_elem_of_In, elem_of_seqZ.
  unfold PRIORITY_MAX. lia.
Qed.

Lemma PKexists_spec s h qs t :
  rep s h qs ->
  exists b, PKexists t s h = Done (b && negb (dead h t)) /\ (b = true <-> scheduled qs t).
Proof.
  intros Hr. destruct (exists_levels_spec priorities s h qs t Hr) as (b & Hb & Hiff).
  - intros i. apply elem_of_priorities.
  - exists b. split; [done|]. rewrite Hiff. unfold scheduled. by setoid_rewrite elem_of_priorities.
Qed.

(** ** Reclaiming the dead threads *)

Lemma find_tail_spec n h hd temp r :
  chain h temp r (Some hd) -> hd ∉ r -> (length r < n)%nat ->
  find_tail n h hd temp = Done (default temp (last r)).
Proof.
  revert temp r. induction n as [|n IH]; intros temp r Hc Hhd Hn; [lia|]. simpl.
  destruct (chain_first _ _ _ _ Hc) as (t & Ht & Hnext). rewrite (load_Some _ _ _ Ht). simpl.
  rewrite Hnext. destruct r as [|y r]; [by rewrite bool_decide_eq_true_2|].
  rewrite bool_decide_eq_false_2 by (intros [= ->]; set_solver). simpl.
  destruct Hc as [_ Hc]. rewrite (IH y r) by (done || set_solver || (simpl in *; lia)).
  rewrite last_cons. by destruct (last r).
Qed.

Lemma chain_fuel h x r e : chain h x r e -> NoDup (x :: r) -> (length r < fuel h)%nat.
Proof.
  intros Hc Hnd. assert (length (x :: r) <= size h)%nat as Hle.
  { apply length_le_heap; [done|]. intros p Hp. by eapply chain_in_heap. }
  rewrite fuel_S. simpl in Hle. lia.
Qed.

Lemma remove_first_spec n hd tail h r :
  chain h hd r (Some hd) -> NoDup (hd :: r) -> (length r < n)%nat ->
  (tail = None \/ tail = last (hd :: r)) ->
  exists D rest h', hd :: r = D ++ rest /\
    (forall p, p ∈ D -> dead h p = true) /\ (forall y, list.head rest = Some y -> dead h y = false) /\
    remove_first n hd tail h = Done (list.head rest, h') /\
    reclaims D h h' /\ (forall p, p ∉ hd :: r -> h' !! p = h !! p) /\ ring h' (list.head rest) rest.
Proof.
  revert hd tail h r. induction n as [|n IH]; intros hd tail h r Hc Hnd Hn Htail; [lia|]. simpl.
  destruct (chain_first _ _ _ _ Hc) as (t & Ht & Hnext). rewrite (load_Some _ _ _ Ht). simpl.
  destruct (ThreadFlags.isDeleted (flags t)) eqn:Ed; cycle 1.
  { exists [], (hd :: r), h. split_and!; try done; [set_solver| |apply reclaims_refl].
    intros y [= <-]. by rewrite (dead_true _ _ _ Ht). }
  destruct r as [|y r].
  { rewrite Hnext, bool_decide_eq_true_2 by done. exists [hd], [], (delete hd h).
    split_and!; try done; [|apply reclaims_delete|].
    - intros p ->%list_elem_of_singleton. by rewrite (dead_true _ _ _ Ht).
    - intros p Hp. rewrite lookup_delete_ne; [done|]. set_solver. }
  rewrite Hnext. apply NoDup_cons in Hnd as [Hhd Hnd].
  rewrite bool_decide_eq_false_2 by (intros [= ->]; set_solver).
  assert (exists tl, last (y :: r) = Some tl) as [tl Htl].
  { destruct (last (y :: r)) eqn:E; [eauto|by apply last_None in E]. }
  assert ((match tail with Some p => Done p | None => find_tail (fuel h) h hd hd end : exec positive) = Done tl) as ->.
  { rewrite last_cons, Htl in Htail. destruct Htail as [->| ->]; [|done].
    rewrite (find_tail_spec _ _ _ _ _ Hc) by (done || by apply (chain_fuel _ hd _ (Some hd)); [|constructor]).
    by rewrite Htl. }
  simpl. destruct Hc as [_ Hc].
  assert (tl ∈ y :: r) as Hin by by apply last_Some_elem_of.
  destruct (chain_in_heap _ _ _ _ tl Hc Hin) as [ttl Httl].
  rewrite (store_Some _ _ _ _ Httl). simpl.
  set (h1 := <[tl := set_schedNext (Some y) ttl]> h).
  assert (Hrec : reclaims [hd] h (delete hd h1)).
  { eapply (reclaims_trans [] [hd]); [by apply (reclaims_store h tl ttl (set_schedNext (Some y) ttl))|apply reclaims_delete]. }
  destruct (IH y (Some tl) (delete hd h1) r) as (D & rest & h' & Heq & HD & Hrest & -> & Hrec' & Hfr & Hring).
  - eapply chain_frame; [|by apply (chain_set_last h y r tl (Some hd) (set_schedNext (Some y) ttl))].
    intros p Hp. apply next_of_delete_ne. intros ->. by apply Hhd.
  - done.
  - simpl in Hn. lia.
  - by right.
  - assert (Hdead : forall p, p ∈ y :: r -> dead (delete hd h1) p = dead h p).
    { intros p Hp. apply (reclaims_dead [hd]); [done|]. intros ->%list_elem_of_singleton. by apply Hhd. }
    exists (hd :: D), rest, h'. split_and!; try done.
    + by rewrite Heq.
    + intros p [->|Hp]%elem_of_cons; [by rewrite (dead_true _ _ _ Ht)|].
      rewrite <- Hdead; [by apply HD|]. rewrite Heq. set_solver.
    + intros z Hz. rewrite <- Hdead; [by apply Hrest|]. rewrite Heq.
      destruct rest; simplify_eq/=. set_solver.
    + by apply (reclaims_trans [hd] D h (delete hd h1)).
    + intros p Hp. rewrite Hfr by set_solver. rewrite lookup_delete_ne by set_solver.
      apply lookup_insert_ne. set_solver.
Qed.

Lemma remove_rest_spec n hd h l xs :
  chain h hd (l ++ xs) (Some hd) -> NoDup (hd :: l ++ xs) -> (length xs < n)%nat ->
  exists h', remove_rest n hd (default hd (last l)) h = Done h' /\
    chain h' hd (l ++ alive h xs) (Some hd) /\ reclaims (deads h xs) h h' /\
    (forall p, p ∉ hd :: l ++ xs -> h' !! p = h !! p).
Proof.
  revert n h l. induction xs as [|y ys IH]; intros n h l Hc Hnd Hn; destruct n as [|n]; simpl in Hn; try lia; simpl.
  { destruct (chain_next_last _ _ _ _ _ Hc) as (t & Ht & Hnext). rewrite (load_Some _ _ _ Ht). simpl.
    rewrite Hnext, bool_decide_eq_true_2 by done. exists h. split_and!; try done. apply reclaims_refl. }
  destruct (chain_next_last _ _ _ _ _ Hc) as (t & Ht & Hnext). rewrite (load_Some _ _ _ Ht). simpl.
  assert (Hy : y <> hd) by (apply NoDup_cons in Hnd as [? ?]; set_solver).
  rewrite Hnext, bool_decide_eq_false_2 by congruence. simpl.
  destruct (chain_in_heap _ _ _ _ y Hc) as [ty Hty]; [set_solver|].
  rewrite (load_Some _ _ _ Hty). simpl. rewrite <- (dead_true _ _ _ Hty).
  unfold alive, deads. rewrite !filter_cons. destruct (dead h y) eqn:Ed; simpl.
  - rewrite (store_Some _ _ _ _ Ht). simpl. set (w := default hd (last l)) in *.
    set (h1 := <[w := set_schedNext (schedNext ty) t]> h).
    assert (Hnd' : NoDup (hd :: l ++ ys) /\ y ∉ hd :: l ++ ys).
    { rewrite <- Permutation_middle in Hnd. apply NoDup_cons in Hnd as [Hh Hnd].
      apply NoDup_cons in Hnd as [Hyl Hnd]. split; [constructor|]; set_solver. }
    destruct Hnd' as [Hnd' Hyn].
    assert (Hrec : reclaims [y] h (delete y h1)).
    { eapply (reclaims_trans [] [y]); [by apply (reclaims_store h w t (set_schedNext (schedNext ty) t))|apply reclaims_delete]. }
    destruct (IH n (delete y h1) l) as (h' & Hrun & Hch & Hrec' & Hfr).
    + eapply chain_frame; [|apply (chain_unlink h hd l w y ys (Some hd) (set_schedNext (schedNext ty) t))]; try done.
      * intros p Hp. apply next_of_delete_ne. by intros ->.
      * simpl. unfold next_of. by rewrite Hty.
    + done.
    + lia.
    + assert (Halive : forall p, p ∈ ys -> p ∉ [y]).
      { intros p Hp ->%list_elem_of_singleton. set_solver. }
      exists h'. split_and!; try done.
      * change (chain h' hd (l ++ alive h ys) (Some hd)). by rewrite <- (reclaims_alive [y] h (delete y h1)).
      * eapply (reclaims_trans [y]); [done|].
        change (reclaims (deads h ys) (delete y h1) h'). by rewrite <- (reclaims_deads [y] h (delete y h1)).
      * intros p Hp. rewrite Hfr by set_solver. rewrite lookup_delete_ne by set_solver.
        apply lookup_insert_ne. intros Hw. apply Hp. rewrite <- Hw. unfold w.
        destruct (last l) as [z|] eqn:Ez; simpl; [|set_solver]. apply last_Some_elem_of in Ez. set_solver.
  - destruct (IH n h (l ++ [y])) as (h' & Hrun & Hch & Hrec & Hfr).
    + by rewrite <- app_assoc.
    + by rewrite <- app_assoc.
    + lia.
    + rewrite last_snoc in Hrun. simpl in Hrun. exists h'. rewrite <- app_assoc in Hch, Hfr. done.
Qed.

(** One list: what [PKremoveDeadThreads] does for one priority. *)
Lemma remove_level_spec h i q xs :
  level h i q xs ->
  match q with
  | None => xs = []
  | Some hd => exists q' h1 h',
      remove_first (fuel h) hd None h = Done (q', h1) /\
      match q' with None => Done h1 | Some hd => remove_rest (fuel h1) hd hd h1 end = Done h' /\
      level h' i q' (alive h xs) /\ reclaims (deads h xs) h h' /\
      (forall p, p ∉ xs -> h' !! p = h !! p)
  end.
Proof.
  intros [Hring Hnd Hprio]. destruct xs as [|hd r]; simpl in Hring; [by rewrite Hring|].
  destruct Hring as [-> Hc].
  destruct (remove_first_spec (fuel h) hd None h r) as (D & rest & h1 & Heq & HD & Hrest & Hrun & Hrec & Hfr & Hring);
    [done..|by eapply chain_fuel|by left|].
  exists (list.head rest), h1.
  assert (Halive : alive h D = []).
  { by apply alive_none. }
  assert (Hdeads : deads h D = D).
  { by apply deads_all. }
  rewrite Heq, dead_alive_app, Halive. unfold deads at 1. rewrite filter_app.
  change (filter _ D) with (deads h D). change (filter _ rest) with (deads h rest). rewrite Hdeads.
  destruct rest as [|y rest]; simpl in *.
  - rewrite app_nil_r in *. exists h1. split_and!; try done; [|by rewrite app_nil_r, <- Heq].
    split; [done|constructor|]. intros p Hp. set_solver.
  - destruct Hring as [_ Hring].
    assert (Hnd' : NoDup (y :: rest)).
    { rewrite Heq in Hnd. by apply NoDup_app in Hnd as (_ & _ & ?). }
    assert (Hdisj : forall p, p ∈ y :: rest -> p ∉ D).
    { rewrite Heq in Hnd. apply NoDup_app in Hnd as (_ & Hd & _). intros p Hp HpD. by apply (Hd p). }
    assert (Hlive : dead h y = false) by by apply Hrest.
    destruct (remove_rest_spec (fuel h1) y h1 [] rest) as (h' & Hrun' & Hch & Hrec' & Hfr');
      [done..|by eapply chain_fuel|].
    exists h'. simpl in Hrun', Hch.
    rewrite (reclaims_alive D h h1) in Hch by (done || set_solver).
    rewrite (reclaims_deads D h h1) in Hrec' by (done || set_solver).
    assert (Hall : reclaims (D ++ deads h (y :: rest)) h h').
    { unfold deads. rewrite filter_cons_False by (by rewrite Hlive).
      by apply (reclaims_trans D _ h h1). }
    split_and!; try done.
    + split.
      * unfold alive. rewrite filter_cons_True by done. done.
      * by apply NoDup_filter.
      * intros p Hp. apply elem_of_alive in Hp as [Hp Hpd].
        rewrite (reclaims_priority _ _ _ _ Hall), Hprio; [done|rewrite Heq; set_solver|].
        intros [HD'|HD']%elem_of_app; [by apply (Hdisj p)|]. apply elem_of_deads in HD' as [_ ?]. congruence.
    + intros p Hp. rewrite <- Heq in Hp. rewrite Hfr' by (rewrite Heq in Hp; set_solver). by apply Hfr.
Qed.

Lemma remove_levels_spec ps s h qs :
  rep s h qs -> NoDup ps -> (forall i, i ∈ ps -> 0 <= i < PRIORITY_MAX) ->
  exists s' h' qs', remove_levels ps s h = Done (s', h') /\ rep s' h' qs' /\
    (forall i, 0 <= i < PRIORITY_MAX ->
       queue qs' i = if decide (i ∈ ps) then alive h (queue qs i) else queue qs i) /\
    reclaims (concat (map (fun i => deads h (queue qs i)) ps)) h h' /\ same_globals s s'.
Proof.
  revert s h qs. induction ps as [|i ps IH]; intros s h qs Hr Hnd Hps.
  { exists s, h, qs. split_and!; try done. apply reclaims_refl. }
  apply NoDup_cons in Hnd as [Hi Hnd].
  assert (Hr_i : 0 <= i < PRIORITY_MAX) by (apply Hps; set_solver).
  simpl. rewrite (get_slot_Done s h qs) by done. simpl.
  pose proof (remove_level_spec _ _ _ _ (rep_level _ _ _ Hr i Hr_i)) as Hlev.
  destruct (default None (thread_list s !! Z.to_nat i)) as [hd|] eqn:Eslot.
  - destruct Hlev as (q' & h1 & h2 & -> & Hrest & Hlevel & Hrec & Hfr). simpl.
    assert (Hr' : rep (set_slot s i q') h2 (<[Z.to_nat i := alive h (queue qs i)]> qs)).
    { eapply rep_update; [done..|]. intros j p Hj Hji Hp. apply same_sched_lookup, Hfr.
      intros Hpi. by apply Hji, (queue_disjoint s h qs _ _ p). }
    destruct (IH _ _ _ Hr' Hnd) as (s' & h' & qs' & Hrun & Hrep & Hq & Hrec' & Hg); [set_solver|].
    assert (Hother : forall j, j ∈ ps -> forall p, p ∈ queue qs j -> p ∉ deads h (queue qs i)).
    { intros j Hj p Hp Hpi. apply elem_of_deads in Hpi as [Hpi _].
      assert (i = j) as ->; [|done]. by eapply (queue_disjoint s h); [..|done|]; auto; set_solver. }
    assert (Hqs : forall j, j ∈ ps -> queue (<[Z.to_nat i := alive h (queue qs i)]> qs) j = queue qs j).
    { intros j Hj. rewrite queue_insert; [|apply Hr|done|by apply Hps; set_solver].
      rewrite decide_False; [done|]. by intros ->. }
    exists s', h', qs'. split_and!.
    + destruct q' as [hd'|]; simplify_eq/=; [rewrite Hrest; simpl|]; done.
    + done.
    + intros j Hj. rewrite Hq by done. destruct (decide (j ∈ ps)) as [Hjp|Hjp].
      * rewrite decide_True by set_solver. rewrite Hqs by done.
        apply (reclaims_alive _ _ _ _ Hrec). by apply Hother.
      * rewrite queue_insert; [|apply Hr|done|lia]. destruct (decide (i = j)) as [->|].
        { by rewrite decide_True by set_solver. }
        by rewrite decide_False by set_solver.
    + simpl. apply (reclaims_trans _ _ h h2); [done|].
      replace (map (fun i => deads h (queue qs i)) ps)
        with (map (fun j => deads h2 (queue (<[Z.to_nat i := alive h (queue qs i)]> qs) j)) ps); [done|].
      apply map_ext_in. intros j Hj%list_elem_of_In. rewrite Hqs by done.
      apply (reclaims_deads _ _ _ _ Hrec). by apply Hother.
    + done.
  - destruct (IH _ _ _ Hr Hnd) as (s' & h' & qs' & Hrun & Hrep & Hq & Hrec' & Hg); [set_solver|].
    exists s', h', qs'. simpl. rewrite Hlev. split_and!; try done.
    intros j Hj. rewrite Hq by done. destruct (decide (j = i)) as [->|].
    + rewrite Hlev. by repeat case_decide.
    + by repeat case_decide; set_solver.
Qed.

Lemma priorities_nodup : NoDup priorities.
Proof. unfold priorities, PRIORITY_MAX. vm_compute seqZ. simpl. repeat constructor; set_solver. Qed.

Lemma queue_ext qs qs' :
  length qs = Z.to_nat PRIORITY_MAX -> length qs' = Z.to_nat PRIORITY_MAX ->
  (forall i, 0 <= i < PRIORITY_MAX -> queue qs i = queue qs' i) -> qs = qs'.
Proof.
  intros Hl Hl' Hq. apply list_eq_same_length with (Z.to_nat PRIORITY_MAX); [done..|].
  intros i xs ys Hi Hx Hy. specialize (Hq (Z.of_nat i)). unfold queue in Hq.
  rewrite Nat2Z.id, Hx, Hy in Hq. apply Hq. lia.
Qed.

Lemma PKremoveDeadThreads_spec s h qs :
  rep s h qs ->
  exists s' h', PKremoveDeadThreads s h = Done (s', h') /\
    rep s' h' (map (alive h) qs) /\
    (exists D, (forall p, p ∈ D <-> scheduled qs p /\ dead h p = true) /\ reclaims D h h') /\
    same_globals s s'.
Proof.
  intros Hr.
  destruct (remove_levels_spec priorities s h qs Hr priorities_nodup) as (s' & h' & qs' & Hrun & Hrep & Hq & Hrec & Hg).
  { intros i. apply elem_of_priorities. }
  exists s', h'. split_and!; [done| | |done].
  - replace (map (alive h) qs) with qs'; [done|].
    apply queue_ext; [apply Hrep|rewrite length_map; apply Hr|].
    intros i Hi. rewrite Hq by done. rewrite decide_True by by apply elem_of_priorities.
    unfold queue. change (map (alive h) qs) with (alive h <$> qs). rewrite list_lookup_fmap.
    by destruct (qs !! Z.to_nat i).
  - eexists. split; [|exact Hrec]. intros p. rewrite list_elem_of_In, in_concat. split.
    + intros (l & Hl & Hp). apply in_map_iff in Hl as (i & <- & Hi).
      apply list_elem_of_In, elem_of_deads in Hp as [Hp Hd]. split; [|done].
      exists i. split; [|done]. by apply elem_of_priorities, list_elem_of_In.
    + intros [(i & Hi & Hp) Hd]. exists (deads h (queue qs i)). split.
      * apply in_map_iff. exists i. split; [done|]. by apply list_elem_of_In, elem_of_priorities.
      * apply list_elem_of_In, elem_of_deads. done.
Qed.

(** ** Changing a priority *)

Definition remove (t : positive) (xs : list positive) : list positive := filter (fun p => p <> t) xs.

Lemma remove_not_in t xs : t ∉ xs -> remove t xs = xs.
Proof.
  intros Ht. induction xs as [|x xs IH]; [done|]. unfold remove in *.
  rewrite filter_cons_True by set_solver. f_equal. apply IH. set_solver.
Qed.
Lemma remove_head t xs : t ∉ xs -> remove t (t :: xs) = xs.
Proof. intros Ht. unfold remove. rewrite filter_cons_False by naive_solver. by apply remove_not_in. Qed.
Lemma remove_cons_ne t x xs : x <> t -> remove t (x :: xs) = x :: remove t xs.
Proof. intros. unfold remove. by rewrite filter_cons_True. Qed.
Lemma elem_of_remove t xs p : p ∈ remove t xs <-> p <> t /\ p ∈ xs.
Proof. unfold remove. by rewrite list_elem_of_filter. Qed.

Lemma unlink_loop_spec n h t hd l xs :
  chain h hd (l ++ xs) (Some hd) -> NoDup (hd :: l ++ xs) -> t ∈ xs -> (length xs <= n)%nat ->
  exists h', unlink_loop n h t hd (default hd (last l)) = Done h' /\
    chain h' hd (l ++ remove t xs) (Some hd) /\ reclaims [] h h' /\
    (forall p, p ∉ hd :: l ++ xs -> h' !! p = h !! p).
Proof.
  revert n l. induction xs as [|y ys IH]; intros n l Hc Hnd Ht Hn; [set_solver|].
  destruct n as [|n]; simpl in Hn; [lia|]. simpl.
  destruct (chain_next_last _ _ _ _ _ Hc) as (tw & Htw & Hnext). rewrite (load_Some _ _ _ Htw). simpl.
  assert (Hy : y <> hd) by (apply NoDup_cons in Hnd as [? ?]; set_solver).
  assert (Hyn : y ∉ ys).
  { apply NoDup_cons in Hnd as [_ Hnd]. apply NoDup_app in Hnd as (_ & _ & Hnd). by apply NoDup_cons in Hnd as [? _]. }
  rewrite Hnext, bool_decide_eq_false_2 by congruence.
  destruct (decide (y = t)) as [->|Hyt].
  - rewrite bool_decide_eq_true_2 by done.
    destruct (chain_in_heap _ _ _ _ t Hc) as [tt Htt]; [set_solver|].
    rewrite (load_Some _ _ _ Htt). simpl. rewrite (store_Some _ _ _ _ Htw).
    eexists. split; [done|]. rewrite remove_head by done. split_and!.
    + eapply chain_unlink; [done..|]. simpl. unfold next_of. by rewrite Htt.
    + by eapply reclaims_store.
    + intros p Hp. apply lookup_insert_ne. intros Hw. apply Hp. rewrite <- Hw.
      destruct (last l) as [z|] eqn:Ez; simpl; [|set_solver]. apply last_Some_elem_of in Ez. set_solver.
  - rewrite bool_decide_eq_false_2 by congruence. simpl.
    destruct (IH n (l ++ [y])) as (h' & Hrun & Hch & Hrec & Hfr);
      [by rewrite <- app_assoc|by rewrite <- app_assoc|set_solver|lia|].
    rewrite last_snoc in Hrun. rewrite <- app_assoc in Hch, Hfr. rewrite remove_cons_ne by done. by exists h'.
Qed.

Lemma unlink_thread_spec s h t i xs :
  0 <= i < PRIORITY_MAX -> get_slot s i = Done (list.head xs) -> ring h (list.head xs) xs ->
  NoDup xs -> t ∈ xs ->
  exists h', unlink_thread t i s h =
      Done ((if bool_decide (list.head xs = Some t) then set_slot s i (list.head (remove t xs)) else s), h') /\
    ring h' (list.head (remove t xs)) (remove t xs) /\ reclaims [] h h' /\
    (forall p, p ∉ xs -> h' !! p = h !! p).
Proof.
  intros Hi Hslot Hring Hnd Ht. unfold unlink_thread. rewrite Hslot. simpl.
  destruct xs as [|hd r]; [set_solver|]. destruct Hring as [_ Hc]. simpl.
  assert (Hf : (length r < fuel h)%nat) by by eapply chain_fuel.
  apply NoDup_cons in Hnd as [Hhd Hnd]. case_bool_decide as Hb.
  - injection Hb as ->. rewrite remove_head by done.
    destruct (chain_first _ _ _ _ Hc) as (tt & Htt & Hnext). rewrite (load_Some _ _ _ Htt). simpl. rewrite Hnext.
    destruct r as [|y r].
    + rewrite bool_decide_eq_true_2 by done. exists h. split_and!; try done. apply reclaims_refl.
    + rewrite bool_decide_eq_false_2 by (intros [= ->]; set_solver).
      rewrite (find_tail_spec _ _ _ _ _ Hc) by done. simpl.
      assert (exists tl, last (y :: r) = Some tl) as [tl Htl].
      { destruct (last (y :: r)) eqn:E; [eauto|by apply last_None in E]. }
      rewrite Htl. simpl. destruct Hc as [_ Hc].
      assert (Hin : tl ∈ y :: r) by by apply last_Some_elem_of.
      destruct (chain_in_heap _ _ _ _ tl Hc Hin) as [ttl Httl].
      rewrite (store_Some _ _ _ _ Httl). simpl. eexists. split; [done|]. split_and!; [done| | |].
      * by apply (chain_set_last h y r tl (Some t) (set_schedNext (Some y) ttl)).
      * by eapply reclaims_store.
      * intros p Hp. apply lookup_insert_ne. set_solver.
  - simpl. destruct (unlink_loop_spec (fuel h) h t hd [] r) as (h' & Hrun & Hch & Hrec & Hfr).
    + done.
    + by constructor.
    + set_solver.
    + lia.
    + simpl in Hrun. rewrite Hrun. simpl. rewrite remove_cons_ne by congruence. by exists h'.
Qed.

Definition move (t : positive) (old new : Z) (qs : queues) : queues :=
  let qs := <[Z.to_nat old := remove t (queue qs old)]> qs in
  <[Z.to_nat new := add_after_head t (queue qs new)]> qs.

Lemma ring_slot s h qs i :
  rep s h qs -> 0 <= i < PRIORITY_MAX -> default None (thread_list s !! Z.to_nat i) = list.head (queue qs i).
Proof.
  intros Hr Hi. pose proof (level_ring _ _ _ _ (rep_level _ _ _ Hr i Hi)) as H.
  destruct (queue qs i); [done|apply H].
Qed.

Lemma PKsetPriority_spec s h qs t old new :
  rep s h qs -> 0 <= old < PRIORITY_MAX -> 0 <= new < PRIORITY_MAX -> t ∈ queue qs old ->
  exists s' h', PKsetPriority t new s h = Done (s', h') /\
    rep s' h' (move t old new qs) /\ same_but_sched h h' /\ same_globals s s'.
Proof.
  intros Hr Ho Hn Ht. pose proof (rep_level _ _ _ Hr old Ho) as Hl.
  destruct (level_in_heap _ _ _ _ _ Hl Ht) as [tt Htt].
  assert (Hold : priority tt = old).
  { pose proof (level_priority _ _ _ _ Hl t Ht) as Hp. rewrite Htt in Hp. by injection Hp. }
  unfold PKsetPriority, getPriority. rewrite (load_Some _ _ _ Htt). simpl.
  rewrite (store_Some _ _ _ _ Htt). simpl. rewrite Hold.
  set (h1 := <[t := set_priority new tt]> h).
  assert (Hnext1 : forall p, next_of h1 p = next_of h p).
  { intros p. unfold h1. destruct (decide (t = p)) as [->|].
    - rewrite next_of_insert. unfold next_of. by rewrite Htt.
    - by rewrite next_of_insert_ne. }
  destruct (unlink_thread_spec s h1 t old (queue qs old)) as (h2 & -> & Hring & Hrec & Hfr); [done| | |apply Hl|done|].
  { rewrite (get_slot_Done s h qs) by done. by rewrite (ring_slot s h qs). }
  { pose proof (level_ring _ _ _ _ Hl) as Hx. destruct (queue qs old) as [|hd0 r0]; [done|]. destruct Hx as [_ Hc].
    split; [done|]. revert Hc. apply chain_frame. intros p0 _. apply Hnext1. }
  simpl. set (s1 := if bool_decide _ then _ else _).
  assert (Hlevel : level h2 old (list.head (remove t (queue qs old))) (remove t (queue qs old))).
  { split; [done|apply NoDup_filter, Hl|]. intros p Hp. apply elem_of_remove in Hp as [Hpt Hp].
    rewrite (reclaims_priority _ _ _ _ Hrec) by set_solver. unfold h1. rewrite lookup_insert_ne by done.
    by apply (level_priority _ _ _ _ Hl). }
  assert (Hother : forall j p, 0 <= j < PRIORITY_MAX -> j <> old -> p ∈ queue qs j -> same_sched h h2 p).
  { intros j p Hj Hjo Hp. apply same_sched_lookup.
    assert (p ∉ queue qs old) by (intros Hpo; by apply Hjo, (queue_disjoint s h qs _ _ p)).
    rewrite Hfr by done. apply lookup_insert_ne. by intros ->. }
  assert (Hr1 : rep s1 h2 (<[Z.to_nat old := remove t (queue qs old)]> qs)).
  { unfold s1. case_bool_decide as Hb; [by apply (rep_update s h)|].
    apply (rep_update_same s h); try done. rewrite (ring_slot s h qs) by done.
    replace (list.head (queue qs old)) with (list.head (remove t (queue qs old))); [done|].
    destruct (queue qs old); [done|]. rewrite remove_cons_ne; [done|]. naive_solver. }
  assert (Hgone : forall j, 0 <= j < PRIORITY_MAX -> t ∉ queue (<[Z.to_nat old := remove t (queue qs old)]> qs) j).
  { intros j Hj. rewrite queue_insert; [|apply Hr|done|lia]. case_decide as Hoj.
    - rewrite elem_of_remove. naive_solver.
    - intros Hp. by apply Hoj, (queue_disjoint s h qs _ _ t). }
  assert (exists t2, h2 !! t = Some t2 /\ priority t2 = new) as (t2 & Ht2 & Hp2).
  { assert (Hp : priority <$> h2 !! t = Some new).
    { rewrite (reclaims_priority _ _ _ _ Hrec) by set_solver. unfold h1. by rewrite lookup_insert_eq. }
    destruct (h2 !! t) as [t2|]; [|done]. exists t2. by injection Hp. }
  destruct (link_thread_spec _ _ _ t new t2 Hr1 Hn Ht2 Hp2 Hgone) as (s' & h' & -> & Hrep & Hrec' & Hg).
  exists s', h'. split_and!; [done|done| |].
  - etrans; [by apply (strip_insert h t tt (set_priority new tt))|].
    etrans; apply reclaims_same; done.
  - unfold s1 in Hg. by case_bool_decide.
Qed.

(** ** Choosing the next thread *)

(** The order in which a list is searched: from the thread after its head. *)
Definition visit (xs : list positive) : list positive :=
  match xs with [] => [] | x :: r => r ++ [x] end.

Lemma elem_of_visit xs p : p ∈ visit xs <-> p ∈ xs.
Proof. destruct xs; simpl; set_solver. Qed.

Lemma visit_perm xs : visit xs ≡ₚ xs.
Proof. destruct xs; simpl; [done|]. by rewrite Permutation_app_comm. Qed.

Lemma find_ready_spec n h start temp r :
  chain h temp r (Some start) -> start ∉ r -> (length r < n)%nat ->
  find_ready n h start temp = Done (first_ready h (temp :: r)).
Proof.
  revert temp r. induction n as [|n IH]; intros temp r Hc Hs Hn; [lia|]. simpl.
  destruct (chain_first _ _ _ _ Hc) as (t & Ht & Hnext). rewrite (load_Some _ _ _ Ht). simpl.
  rewrite first_ready_cons, (ready_true _ _ _ Ht).
  destruct (ThreadFlags.isReady (flags t)); [done|]. rewrite Hnext.
  destruct r as [|y r]; [by rewrite bool_decide_eq_true_2|].
  rewrite bool_decide_eq_false_2 by (intros [= ->]; set_solver). simpl.
  destruct Hc as [_ Hc]. apply IH; [done|set_solver|simpl in Hn; lia].
Qed.

(** The search of one list, and the list it leaves. *)
Lemma search_level h i hd xs :
  level h i (Some hd) xs ->
  exists t start, load h hd = Done t /\ schedNext t = Some start /\
    find_ready (fuel h) h start start = Done (first_ready h (visit xs)) /\
    forall c, first_ready h (visit xs) = Some c -> level h i (Some c) (rotate_to c (visit xs)).
Proof.
  intros [Hring Hnd Hprio]. destruct xs as [|x r]; simpl in Hring; [done|].
  destruct Hring as [[= <-] Hc].
  assert (exists start r', visit (hd :: r) = start :: r' /\ chain h start r' (Some start) /\
    exists t, h !! hd = Some t /\ schedNext t = Some start) as (start & r' & Hv & Hc' & t & Ht & Hnext).
  { destruct (chain_first _ _ _ _ Hc) as (t & Ht & Hnext). destruct r as [|y b]; simpl.
    - exists hd, []. eauto.
    - exists y, (b ++ [hd]). split_and!; [done|by apply (ring_rotate h hd [] y b)|eauto]. }
  assert (Hndv : NoDup (start :: r')) by by rewrite <- Hv, visit_perm.
  exists t, start. rewrite (load_Some _ _ _ Ht), Hv. split_and!; try done.
  { apply find_ready_spec; [done| |by eapply chain_fuel]. by apply NoDup_cons in Hndv as [? _]. }
  intros c (a & b & Heq & Hc_ready & Ha)%first_ready_Some. rewrite Heq.
  assert (Hca : c ∉ a) by (intros Hin; apply Ha in Hin; congruence).
  rewrite rotate_to_spec by done.
  assert (Hperm : c :: b ++ a ≡ₚ hd :: r).
  { rewrite <- (visit_perm (hd :: r)), Hv, Heq. by rewrite app_comm_cons, Permutation_app_comm. }
  split.
  - split; [done|]. destruct a as [|z a]; simpl in Heq.
    + injection Heq as -> ->. by rewrite app_nil_r.
    + injection Heq as -> ->. by apply ring_rotate.
  - by rewrite Hperm.
  - intros p Hp. apply Hprio. by rewrite <- Hperm.
Qed.

(** Which thread runs next: the first ready one of the list of the highest
    priority that has one. *)
Fixpoint choose (h : threads) (qs : queues) (ps : list Z) : option (Z * positive) :=
  match ps with
  | [] => None
  | i :: ps =>
      match first_ready h (visit (queue qs i)) with
      | Some c => Some (i, c)
      | None => choose h qs ps
      end
  end.

Definition user_mode (h : threads) (p : positive) : bool :=
  match h !! p with Some t => ThreadFlags.isInUserspace (flags t) | None => false end.

Lemma find_levels_spec ps env s h qs :
  rep s h qs -> (forall i, i ∈ ps -> 0 <= i < PRIORITY_MAX) ->
  match choose h qs ps with
  | Some (i, c) =>
      exists s', find_levels ps env s h = Done (Running c (user_mode h c), IRQsetNextPreemption env false s') /\
        rep s' h (<[Z.to_nat i := rotate_to c (visit (queue qs i))]> qs) /\ idle s' = idle s /\
        i ∈ ps /\ c ∈ queue qs i /\ ready h c = true
  | None =>
      forall id, idle s = Some id -> is_Some (h !! id) ->
      find_levels ps env s h = Done (Running id false, IRQsetNextPreemption env true s)
  end.
Proof.
  intros Hr. induction ps as [|i ps IH]; intros Hps; simpl.
  { intros id Hid [t Ht]. rewrite Hid. simpl. by rewrite (load_Some _ _ _ Ht). }
  assert (Hi : 0 <= i < PRIORITY_MAX) by (apply Hps; set_solver).
  rewrite (get_slot_Done s h qs) by done. simpl.
  pose proof (rep_level _ _ _ Hr i Hi) as Hl.
  assert (Hskip : first_ready h (visit (queue qs i)) = None ->
    match choose h qs ps with
    | Some (j, c) => exists s', find_levels ps env s h = Done (Running c (user_mode h c), IRQsetNextPreemption env false s') /\
        rep s' h (<[Z.to_nat j := rotate_to c (visit (queue qs j))]> qs) /\ idle s' = idle s /\
        j ∈ i :: ps /\ c ∈ queue qs j /\ ready h c = true
    | None => forall id, idle s = Some id -> is_Some (h !! id) ->
        find_levels ps env s h = Done (Running id false, IRQsetNextPreemption env true s)
    end).
  { intros _. specialize (IH ltac:(set_solver)). destruct (choose h qs ps) as [[j c]|]; [|done].
    destruct IH as (s' & ? & ? & ? & ? & ? & ?). exists s'. split_and!; try done. set_solver. }
  destruct (default None (thread_list s !! Z.to_nat i)) as [hd|] eqn:Eslot.
  - destruct (search_level _ _ _ _ Hl) as (t & start & Hload & Hnext & Hfind & Hrot).
    rewrite Hload. simpl. rewrite Hnext. simpl. rewrite Hfind. simpl.
    destruct (first_ready h (visit (queue qs i))) as [c|] eqn:Ef; [|by apply Hskip].
    specialize (Hrot c eq_refl). pose proof Ef as (a & b & Heq & Hc & _)%first_ready_Some.
    assert (Hin : c ∈ queue qs i) by (rewrite <- elem_of_visit, Heq; set_solver).
    destruct (level_in_heap _ _ _ _ _ Hl Hin) as [tc Htc]. rewrite (load_Some _ _ _ Htc). simpl.
    exists (set_slot s i (Some c)). split_and!; try done.
    + unfold user_mode. by rewrite Htc.
    + by apply (rep_update s h).
    + set_solver.
  - rewrite (ring_slot s h qs) in Eslot by done. destruct (queue qs i) as [|? ?] eqn:Eq; [|done].
    rewrite <- Eq. simpl in Hskip. rewrite Eq. by apply Hskip.
Qed.

Lemma choose_max h qs ps i c :
  StronglySorted (fun a b => b <= a) ps -> choose h qs ps = Some (i, c) ->
  forall j p, j ∈ ps -> p ∈ queue qs j -> ready h p = true -> j <= i.
Proof.
  induction ps as [|k ps IH]; intros Hs Hch j p Hj Hp Hr; [done|].
  apply StronglySorted_inv in Hs as [Hs Hk]. rewrite Forall_forall in Hk. simpl in Hch.
  destruct (first_ready h (visit (queue qs k))) as [c'|] eqn:Ef.
  - injection Hch as -> ->. apply elem_of_cons in Hj as [->|Hj]; [lia|by apply Hk].
  - apply elem_of_cons in Hj as [->|Hj]; [|by eapply IH].
    rewrite first_ready_None in Ef. rewrite Ef in Hr; [done|by apply elem_of_visit].
Qed.

Lemma choose_None h qs ps :
  choose h qs ps = None <-> forall i p, i ∈ ps -> p ∈ queue qs i -> ready h p = false.
Proof.
  induction ps as [|k ps IH]; simpl; [split; [set_solver|done]|].
  destruct (first_ready h (visit (queue qs k))) as [c|] eqn:Ef.
  - split; [done|]. intros H. apply first_ready_Some in Ef as (a & b & Heq & Hc & _).
    rewrite (H k c) in Hc; [done|set_solver|]. rewrite <- elem_of_visit, Heq. set_solver.
  - rewrite IH. rewrite first_ready_None in Ef. setoid_rewrite elem_of_visit in Ef.
    split; [|set_solver]. intros H i p [->|Hi]%elem_of_cons; [apply Ef|by apply H].
Qed.

Lemma priorities_sorted : StronglySorted (fun a b => b <= a) priorities.
Proof. unfold priorities, PRIORITY_MAX. vm_compute seqZ. simpl. repeat first [lia | constructor]. Qed.

Lemma rep_setNextPreemption s h qs env b : rep s h qs -> rep (IRQsetNextPreemption env b s) h qs.
Proof. intros [? ? Hl]. by split. Qed.

(** The list that is left when the thread [c] of priority [i] is chosen. *)
Definition rotated (qs : queues) (i : Z) (c : positive) : queues :=
  <[Z.to_nat i := rotate_to c (visit (queue qs i))]> qs.

Lemma IRQfindNextThread_spec env r s h qs :
  rep s h qs -> kernel_running env = 0 ->
  match choose h qs priorities with
  | Some (i, c) => exists s', IRQfindNextThread env r s h = Done (MAX_TIME_SLICE, Running c (user_mode h c), s') /\
      rep s' h (rotated qs i c) /\ idle s' = idle s /\
      IRQgetNextPreemption s' =
        Z.min (default INT64_MAX (firstWakeup env)) (s64 (IRQgetTime env + MAX_TIME_SLICE)) /\
      0 <= i < PRIORITY_MAX /\ c ∈ queue qs i /\ ready h c = true
  | None => forall id, idle s = Some id -> is_Some (h !! id) ->
      exists s', IRQfindNextThread env r s h = Done (MAX_TIME_SLICE, Running id false, s') /\
      rep s' h qs /\ idle s' = Some id /\
      IRQgetNextPreemption s' = default INT64_MAX (firstWakeup env)
  end.
Proof.
  intros Hr Hk. unfold IRQfindNextThread. rewrite Hk. cbn [Z.eqb negb].
  assert (Hps : forall i, i ∈ priorities -> 0 <= i < PRIORITY_MAX) by (intros i; apply elem_of_priorities).
  pose proof (find_levels_spec priorities env s h qs Hr Hps) as H.
  destruct (choose h qs priorities) as [[i c]|].
  - destruct H as (s' & -> & Hrep & Hid & Hi & Hc & Hready). simpl.
    eexists. split; [done|]. split_and!; try done; [by apply rep_setNextPreemption|by apply Hps..].
  - intros id Hid Hin. rewrite (H id Hid Hin). simpl. eexists. split; [done|].
    split_and!; try done. by apply rep_setNextPreemption.
Qed.

(** ** The scheduler interface *)

Definition holds (qs : queues) (m : gmap positive Z) : Prop :=
  forall t i, m !! t = Some i <-> 0 <= i < PRIORITY_MAX /\ t ∈ queue qs i.

Lemma holds_scheduled qs m t : holds qs m -> is_Some (m !! t) <-> scheduled qs t.
Proof.
  intros Hm. unfold scheduled. split.
  - intros [i Hi]. exists i. by apply Hm.
  - intros (i & Hi). exists i. by apply Hm.
Qed.

Lemma not_scheduled qs (m : gmap positive Z) t :
  holds qs m -> m !! t = None -> forall j, 0 <= j < PRIORITY_MAX -> t ∉ queue qs j.
Proof. intros Hm Ht j Hj Hin. assert (m !! t = Some j) by (apply Hm; done). congruence. Qed.

Lemma validate_range p : validate p = true <-> 0 <= p < PRIORITY_MAX.
Proof. unfold validate. rewrite andb_true_iff, Z.leb_le, Z.ltb_lt. done. Qed.

Lemma holds_add qs m t i :
  length qs = Z.to_nat PRIORITY_MAX -> 0 <= i < PRIORITY_MAX ->
  holds qs m -> m !! t = None ->
  holds (<[Z.to_nat i := add_after_head t (queue qs i)]> qs) (<[t := i]> m).
Proof.
  intros Hl Hi Hm Ht u j. destruct (decide (0 <= j < PRIORITY_MAX)) as [Hj|Hj]; cycle 1.
  { split; [|tauto]. intros Hu. exfalso. apply Hj.
    destruct (decide (t = u)) as [->|]; [rewrite lookup_insert_eq in Hu; by simplify_eq|].
    rewrite lookup_insert_ne in Hu by done. by apply Hm in Hu as [? _]. }
  rewrite queue_insert by (done || lia). specialize (Hm u j) as Huj. case_decide as Hij.
  - subst j. rewrite elem_of_add_after_head. destruct (decide (t = u)) as [->|Hne].
    + rewrite lookup_insert_eq. tauto.
    + rewrite lookup_insert_ne by done. rewrite Huj. naive_solver.
  - destruct (decide (t = u)) as [->|Hne].
    + rewrite lookup_insert_eq. split; [naive_solver|]. intros H. apply Huj in H. congruence.
    + by rewrite lookup_insert_ne.
Qed.

Lemma holds_alive h qs m :
  holds qs m -> holds (map (alive h) qs) (filter (fun '(t, _) => dead h t = false) m).
Proof.
  intros Hm t i. rewrite map_lookup_filter_Some, (Hm t i).
  assert (queue (map (alive h) qs) i = alive h (queue qs i)) as ->.
  { unfold queue. change (map (alive h) qs) with (alive h <$> qs). rewrite list_lookup_fmap.
    by destruct (qs !! Z.to_nat i). }
  rewrite elem_of_alive. tauto.
Qed.

Lemma holds_remove s h qs m t old :
  rep s h qs -> holds qs m -> m !! t = Some old ->
  holds (<[Z.to_nat old := remove t (queue qs old)]> qs) (delete t m).
Proof.
  intros Hr Hm Ht u j. pose proof (proj1 (Hm t old) Ht) as [Ho Hin].
  destruct (decide (0 <= j < PRIORITY_MAX)) as [Hj|Hj]; cycle 1.
  { split; [|tauto]. intros Hu. apply lookup_delete_Some in Hu as [_ Hu]. by apply Hm in Hu as [? _]. }
  rewrite queue_insert; [|apply Hr|done|lia]. rewrite lookup_delete_Some, (Hm u j).
  case_decide as Hij; [subst j; rewrite elem_of_remove; naive_solver|].
  split; [tauto|]. intros [_ Hu]. split; [|done]. intros <-.
  by apply Hij, (queue_disjoint s h qs _ _ t).
Qed.

Lemma holds_move s h qs m t old new :
  rep s h qs -> 0 <= new < PRIORITY_MAX -> holds qs m -> m !! t = Some old ->
  holds (move t old new qs) (<[t := new]> m).
Proof.
  intros Hr Hn Hm Ht. rewrite <- insert_delete_eq. apply holds_add; [|done| |apply lookup_delete_eq].
  - rewrite length_insert. apply Hr.
  - by eapply holds_remove.
Qed.

Lemma holds_rotated qs m i c :
  length qs = Z.to_nat PRIORITY_MAX -> 0 <= i < PRIORITY_MAX -> holds qs m -> holds (rotated qs i c) m.
Proof.
  intros Hl Hi Hm t j. rewrite (Hm t j). destruct (decide (0 <= j < PRIORITY_MAX)) as [Hj|Hj]; [|tauto].
  unfold rotated. rewrite queue_insert by (done || lia). case_decide as Hij; [|done]. subst j.
  rewrite <- (elem_of_visit (queue qs i)). unfold rotate_to.
  destruct (list_find _ _) as [[k ?]|]; [|done].
  rewrite <- (take_drop k (visit (queue qs i))) at 1. rewrite !elem_of_app. tauto.
Qed.

Lemma rep_stable s h h' qs :
  (forall p, is_Some (h !! p) -> same_sched h h' p) -> rep s h qs -> rep s h' qs.
Proof.
  intros Hf [? ? Hl]. split; [done..|]. intros i Hi. eapply level_frame; [|by apply Hl].
  intros p Hp. apply Hf. by eapply level_in_heap; [apply Hl|].
Qed.

Definition sched_rep (s : sched) (h : threads) (m : gmap positive Z) : Prop :=
  exists qs, rep s h qs /\ holds qs m.

#[export] Instance scheduler : Scheduler sched.
Proof.
  refine {| Scheduler.sched_rep := sched_rep; urgency := fun p => p |}.
  - done.
  - done.
  - done.
  - intros s h m t (qs & Hr & Hm) [i Ht]. apply Hm in Ht as [Hi Hin].
    by eapply level_in_heap; [apply Hr|].
  - intros h t tt Ht. cbn. unfold getPriority. by rewrite (load_Some _ _ _ Ht).
  - intros s h m t p (qs & Hr & Hm) Ht. apply Hm in Ht as [Hi Hin].
    pose proof (level_priority _ _ _ _ (rep_level _ _ _ Hr p Hi) t Hin) as Hp.
    destruct (h !! t) as [tt|] eqn:E; [|done]. simpl. unfold getPriority.
    rewrite (load_Some _ _ _ E). simpl. by injection Hp as ->.
  - intros s h h' m Hf (qs & Hr & Hm). exists qs. split; [|done]. by eapply rep_stable.
  - intros s h m t p (qs & Hr & Hm) Hp%validate_range Hin Ht _.
    destruct (PKaddThread_spec s h qs t p) as (s' & h' & Hrun & Hr' & Hs & _); [done..| |].
    { by eapply not_scheduled. }
    exists s', h'. split_and!; [done| |done]. eexists. split; [done|].
    apply holds_add; [apply Hr|done..].
  - intros s h m t (qs & Hr & Hm). destruct (PKexists_spec s h qs t Hr) as (b & Hrun & Hb).
    cbn. rewrite Hrun. f_equal. f_equal. apply eq_true_iff_eq. by rewrite Hb, bool_decide_eq_true, (holds_scheduled qs).
  - intros s h m (qs & Hr & Hm) _.
    destruct (PKremoveDeadThreads_spec s h qs Hr) as (s' & h' & Hrun & Hr' & (D & HD & Hrec) & _).
    exists s', h'. split_and!; [done| |].
    + eexists. split; [done|]. by apply holds_alive.
    + apply (reclaims_filter D); [done|]. intros p. by rewrite HD, (holds_scheduled qs).
  - intros s h m t p (qs & Hr & Hm) Hp%validate_range [old Ht].
    pose proof (proj1 (Hm t old) Ht) as [Ho Hin].
    destruct (PKsetPriority_spec s h qs t old p) as (s' & h' & Hrun & Hr' & Hs & _); [done..|].
    exists s', h'. split_and!; [done| |done]. eexists. split; [done|]. by eapply holds_move.
  - intros s h m env r (qs & Hr & Hm) Hk (t & [q Ht] & Hready).
    apply Hm in Ht as [Hq Hin].
    pose proof (IRQfindNextThread_spec env r s h qs Hr Hk) as H.
    destruct (choose h qs priorities) as [[i c]|] eqn:Ech.
    + destruct H as (s' & Hrun & Hr' & _ & _ & Hi & Hc & Hcr). do 3 eexists. split; [done|].
      split_and!; [|done|].
      * eexists. split; [done|]. apply holds_rotated; [apply Hr|done..].
      * exists i. simpl. split; [by apply Hm|]. intros u k Hu Hur. apply Hm in Hu as [Hk' Hu].
        apply Z.ltb_ge. eapply (choose_max h qs priorities); try done; [apply priorities_sorted|].
        by apply elem_of_priorities.
    + rewrite choose_None in Ech. rewrite (Ech q t) in Hready; [done|by apply elem_of_priorities|done].
  - intros s h env r Hk. exists MAX_TIME_SLICE. simpl. unfold IRQfindNextThread.
    destruct (Z.eqb_spec (kernel_running env) 0); [done|]. done.
Defined.

(** ** Fairness *)

(** The ready threads of a priority, in the order they are visited. *)
Definition ready_list (h : threads) (qs : queues) (i : Z) : list positive :=
  filter (fun p => ready h p = true) (visit (queue qs i)).

Lemma choose_ready_list h qs ps i c :
  choose h qs ps = Some (i, c) -> list.head (ready_list h qs i) = Some c /\ i ∈ ps.
Proof.
  induction ps as [|k ps IH]; [done|]. simpl. destruct (first_ready _ _) eqn:Ef.
  - intros [= -> ->]. split; [exact Ef|set_solver].
  - intros [? ?]%IH. split; [done|set_solver].
Qed.

Lemma choose_ext h qs qs' ps i c c' :
  (forall j, j ∈ ps -> j <> i -> ready_list h qs' j = ready_list h qs j) ->
  choose h qs ps = Some (i, c) -> list.head (ready_list h qs' i) = Some c' ->
  choose h qs' ps = Some (i, c').
Proof.
  intros Hj Hch Hc'. induction ps as [|k ps IH]; [done|]. simpl in *.
  destruct (decide (k = i)) as [->|Hk].
  - change (first_ready h (visit (queue qs' i))) with (list.head (ready_list h qs' i)). by rewrite Hc'.
  - change (first_ready h (visit (queue qs' k))) with (list.head (ready_list h qs' k)).
    rewrite (Hj k) by (done || set_solver).
    change (list.head (ready_list h qs k)) with (first_ready h (visit (queue qs k))).
    destruct (first_ready _ _); [by injection Hch as -> ->|]. apply IH; [|done].
    intros j Hin. apply Hj. set_solver.
Qed.

(** A choice moves the chosen thread to the end of the ready threads. *)
Lemma ready_list_rotated h qs i c :
  length qs = Z.to_nat PRIORITY_MAX -> 0 <= i < PRIORITY_MAX -> choose h qs priorities = Some (i, c) ->
  exists t, ready_list h qs i = c :: t /\ ready_list h (rotated qs i c) i = t ++ [c].
Proof.
  intros Hl Hi [Hc _]%choose_ready_list.
  pose proof Hc as (a & b & Heq & Hready & Ha)%first_ready_Some.
  assert (filter (fun p => ready h p = true) a = []) as Hfa.
  { clear -Ha. induction a as [|x a IH]; [done|]. rewrite filter_cons_False by (rewrite Ha; [done|set_solver]).
    apply IH. set_solver. }
  exists (filter (fun p => ready h p = true) b). unfold ready_list, rotated.
  rewrite queue_insert by (done || lia). rewrite decide_True by done.
  rewrite Heq, rotate_to_spec by (intros Hin; apply Ha in Hin; congruence). simpl.
  rewrite !filter_app, Hfa, !filter_cons_True by done. by rewrite app_nil_r.
Qed.

Lemma lookup_rotate {A} (c : A) (t : list A) n :
  (t ++ [c]) !! (n mod S (length t))%nat = (c :: t) !! (S n mod S (length t))%nat.
Proof.
  assert (Hlt : (n mod S (length t) < S (length t))%nat) by (apply Nat.mod_upper_bound; lia).
  assert (Hs : (S n mod S (length t) = if decide (n mod S (length t) = length t) then 0 else S (n mod S (length t)))%nat).
  { rewrite <- (Nat.add_1_r n), Nat.Div0.add_mod.
    destruct (decide (length t = 0%nat)) as [H0|H0].
    { rewrite H0 in *. rewrite decide_True by lia. by rewrite Nat.mod_1_r. }
    rewrite (Nat.mod_small 1) by lia. case_decide as Hd.
    - rewrite Hd. rewrite Nat.add_1_r. apply Nat.Div0.mod_same.
    - rewrite Nat.mod_small by lia. lia. }
  rewrite Hs. case_decide as Hd.
  - rewrite Hd, lookup_app_r, Nat.sub_diag by lia. done.
  - etrans; [apply lookup_app_l; lia|done].
Qed.

(** A sequence of scheduling decisions, with the threads they choose. *)
Fixpoint run_find (envs : list sched_env) (r : running) (s : sched) (h : threads) : exec (list positive * sched) :=
  match envs with
  | [] => Done ([], s)
  | env :: envs =>
      '(_, r, s) ← IRQfindNextThread env r s h;
      '(trace, s) ← run_find envs r s h;
      Done (cur r :: trace, s)
  end.

Lemma run_find_spec envs r s h qs i c :
  rep s h qs -> Forall (fun env => kernel_running env = 0) envs -> choose h qs priorities = Some (i, c) ->
  exists trace s', run_find envs r s h = Done (trace, s') /\ length trace = length envs /\
    forall n, (n < length envs)%nat ->
      trace !! n = ready_list h qs i !! (n mod length (ready_list h qs i))%nat.
Proof.
  revert r s qs c. induction envs as [|env envs IH]; intros r s qs c Hr Henv Hch.
  { exists [], s. split_and!; [done..|]. simpl. lia. }
  apply Forall_cons in Henv as [Hk Henv]. simpl.
  pose proof (IRQfindNextThread_spec env r s h qs Hr Hk) as H. rewrite Hch in H.
  destruct H as (s1 & -> & Hr1 & _ & _ & Hi & Hin & Hcr). simpl.
  destruct (ready_list_rotated h qs i c (rep_queues _ _ _ Hr) Hi Hch) as (t & Hlist & Hlist').
  assert (exists c', list.head (t ++ [c]) = Some c') as [c' Hc'] by (destruct t; simpl; eauto).
  destruct (IH (Running c (user_mode h c)) s1 (rotated qs i c) c' Hr1 Henv) as (trace & s' & -> & Hlen & Htr).
  { eapply choose_ext; [|done|by rewrite Hlist'].
    intros j Hj Hji. unfold ready_list, rotated. rewrite queue_insert; [|apply Hr|done|].
    - by rewrite decide_False by congruence.
    - apply elem_of_priorities in Hj. lia. }
  simpl. exists (c :: trace), s'. split_and!; [done|simpl; lia|].
  intros [|n] Hn; rewrite Hlist; simpl length.
  - by rewrite Nat.Div0.mod_0_l.
  - change ((c :: trace) !! S n) with (trace !! n). simpl in Hn. rewrite Htr by lia. rewrite Hlist', length_app.
    simpl. rewrite Nat.add_1_r. apply lookup_rotate.
Qed.

(** ** Properties *)

Lemma rep_initial h : rep initial h (replicate (Z.to_nat PRIORITY_MAX) []).
Proof.
  split; [done..|]. intros i Hi.
  assert (queue (replicate (Z.to_nat PRIORITY_MAX) []) i = []) as ->.
  { unfold queue. rewrite lookup_replicate_2 by lia. done. }
  unfold thread_list, initial. rewrite lookup_replicate_2 by lia.
  split; [done|apply NoDup_nil_2|set_solver].
Qed.

Lemma sched_rep_initial id h next : sched_rep (Sched (thread_list initial) (Some id) next) h ∅.
Proof.
  exists (replicate (Z.to_nat PRIORITY_MAX) []). split.
  - destruct (rep_initial h) as [? ? Hl]. by split.
  - intros t i. rewrite lookup_empty. split; [done|]. intros [Hi Ht]. unfold queue in Ht.
    rewrite lookup_replicate_2 in Ht by lia. set_solver.
Qed.

(** The state in which the kernel is started: only the idle thread. *)
Definition boot (idleThread : positive) : exec (sched * threads) :=
  IRQsetIdleThread idleThread initial {[ idleThread := new_Thread 0 ]}.
Definition boot_abstract (idleThread : positive) : abstract :=
  Abstract ∅ {[ idleThread := new_Thread 0 ]}.

(** C30: the priority scheduler implements the scheduler interface.  Starting
    from the booted kernel, any sequence of thread creations, changes of
    status flags, priority changes, reclaiming of dead threads and scheduling
    decisions completes without an error or an invalid memory access, and
    leaves the scheduler holding exactly the threads and priorities the
    operations describe; the reclaimed threads are exactly the deleted and
    detached ones; and at each decision the thread chosen is ready and no
    ready thread has a higher priority. *)
Theorem priority_scheduler_refines (idleThread : positive) (ops : list sched_op) (r : running) :
  prog_ok (S := sched) ops (boot_abstract idleThread) ->
  exists s' h' r' trace,
    ('(s, h) ← boot idleThread; run_prog ops s h r) = Done (s', h', r', trace) /\
    stands_for s' h' (abs_prog ops (boot_abstract idleThread)) /\
    Forall2 (best (S := sched)) (decisions ops (boot_abstract idleThread)) trace.
Proof.
  intros Hok. unfold boot, IRQsetIdleThread.
  rewrite (store_Some _ _ (new_Thread 0)) by apply lookup_insert_eq. simpl.
  apply run_prog_refines; [|done]. split; [apply sched_rep_initial|].
  by apply (strip_insert _ _ (new_Thread 0)); [apply lookup_insert_eq|].
Qed.

Definition ex_prog : list sched_op :=
  let env := SchedEnv 0 None 0 in
  [CreateThread 2 1; CreateThread 3 1; CreateThread 4 2; FindNextThread env;
   SetFlags 4 (ThreadFlags.SetWait true); FindNextThread env; FindNextThread env; SetPriority 2 3;
   FindNextThread env; SetFlags 2 ThreadFlags.SetDeleted; SetFlags 2 ThreadFlags.SetDetached;
   RemoveDeadThreads; FindNextThread env].

Lemma priority_scheduler_refines_witness :
  prog_ok (S := sched) ex_prog (boot_abstract 1) /\
  exists s' h' r' trace,
    ('(s, h) ← boot 1; run_prog ex_prog s h (Running 1 false)) = Done (s', h', r', trace) /\
    stands_for s' h' (abs_prog ex_prog (boot_abstract 1)) /\
    Forall2 (best (S := sched)) (decisions ex_prog (boot_abstract 1)) trace.
Proof.
  assert (Hok : prog_ok (S := sched) ex_prog (boot_abstract 1)).
  { assert (Hex : forall (P : positive -> Prop) t, P t -> exists t, P t) by eauto.
    cbn [ex_prog prog_ok]. split_and!; try done; try (by eexists); try (by split; [|by vm_compute]; eexists);
      unfold op_ok, some_ready.
    all: try (split; [by vm_compute|]).
    - exists 4%positive. vm_compute. eauto.
    - exists 3%positive. vm_compute. eauto.
    - exists 3%positive. vm_compute. eauto.
    - exists 2%positive. vm_compute. eauto.
    - exists 3%positive. vm_compute. eauto.
    - exists 3%positive. vm_compute. eauto. }
  split; [done|]. by apply priority_scheduler_refines.
Defined.

Example ex_prog_trace :
  ('(s, h) ← boot 1; '(_, _, _, trace) ← run_prog ex_prog s h (Running 1 false); Done trace)
  = Done [4; 3; 2; 2; 3]%positive.
Proof. vm_compute. reflexivity. Qed.

(** What the operations of the priority scheduler do to its lists.  A
    new thread is inserted after the head of the list of its priority;
    [PKsetPriority] removes the thread from its list and inserts it after the
    head of the new one; [PKexists] finds exactly the threads of the lists that
    are not both deleted and detached; [PKremoveDeadThreads] keeps of every
    list the threads that are not, in their order, and frees the memory of the
    others and of no other thread. *)
Theorem list_operations s h qs :
  rep s h qs ->
  (forall t i, 0 <= i < PRIORITY_MAX -> is_Some (h !! t) -> ~ scheduled qs t ->
     exists s' h', PKaddThread t i s h = Done (true, s', h') /\ same_but_sched h h' /\
       rep s' h' (<[Z.to_nat i := add_after_head t (queue qs i)]> qs)) /\
  (forall t old new, 0 <= old < PRIORITY_MAX -> 0 <= new < PRIORITY_MAX -> t ∈ queue qs old ->
     exists s' h', PKsetPriority t new s h = Done (s', h') /\ same_but_sched h h' /\
       rep s' h' (move t old new qs)) /\
  (forall t, exists b, PKexists t s h = Done b /\ (b = true <-> scheduled qs t /\ dead h t = false)) /\
  (exists s' h' D, PKremoveDeadThreads s h = Done (s', h') /\ rep s' h' (map (alive h) qs) /\
     reclaims D h h' /\ forall p, p ∈ D <-> scheduled qs p /\ dead h p = true).
Proof.
  intros Hr. split_and!.
  - intros t i Hi Ht Hn. destruct (PKaddThread_spec s h qs t i) as (s' & h' & ? & ? & ? & _); [done..| |by eauto].
    intros j Hj Hin. apply Hn. by exists j.
  - intros t old new Ho Hn Ht.
    destruct (PKsetPriority_spec s h qs t old new) as (s' & h' & ? & ? & ? & _); [done..|by eauto].
  - intros t. destruct (PKexists_spec s h qs t Hr) as (b & Hb & Hiff). eexists. split; [done|].
    rewrite andb_true_iff, Hiff, negb_true_iff. done.
  - destruct (PKremoveDeadThreads_spec s h qs Hr) as (s' & h' & Hrun & Hr' & (D & HD & Hrec) & _).
    by exists s', h', D.
Qed.

(** Three threads: 2 (head) and 3 with priority 1, 4 with priority 0. *)
Definition ex_heap : threads :=
  <[2%positive := set_priority 1 (set_schedNext (Some 3%positive) (new_Thread 0))]>
  (<[3%positive := set_priority 1 (set_schedNext (Some 2%positive) (new_Thread 0))]>
  (<[4%positive := set_schedNext (Some 4%positive) (new_Thread 0)]>
  {[ 1%positive := set_priority (-1) (new_Thread 0) ]})).
Definition ex_sched : sched := Sched [Some 4%positive; Some 2%positive; None; None] (Some 1%positive) INT64_MAX.
Definition ex_queues : queues := [[4]; [2; 3]; []; []]%positive.

Lemma ex_rep : rep ex_sched ex_heap ex_queues.
Proof.
  split; [done..|]. intros i Hi. unfold PRIORITY_MAX in Hi.
  assert (i = 0 \/ i = 1 \/ i = 2 \/ i = 3) as [->|[->|[->| ->]]] by lia.
  - split; [by vm_compute|by apply NoDup_singleton|]. by intros p ->%list_elem_of_singleton.
  - split; [by vm_compute|repeat constructor; set_solver|].
    by intros p [->|[->|[]%elem_of_nil]%elem_of_cons]%elem_of_cons.
  - split; [done|apply NoDup_nil_2|]. by intros p []%elem_of_nil.
  - split; [done|apply NoDup_nil_2|]. by intros p []%elem_of_nil.
Qed.

Lemma list_operations_witness :
  rep ex_sched ex_heap ex_queues /\ 2%positive ∈ queue ex_queues 1 /\
  exists s' h', PKsetPriority 2 0 ex_sched ex_heap = Done (s', h') /\ same_but_sched ex_heap h' /\
    rep s' h' [[4; 2]; [3]; []; []]%positive.
Proof.
  split; [apply ex_rep|]. assert (2%positive ∈ queue ex_queues 1) as Hin by (vm_compute; set_solver).
  split; [done|].
  destruct (list_operations ex_sched ex_heap ex_queues ex_rep) as (_ & Hset & _).
  exact (Hset 2%positive 1 0 ltac:(by vm_compute) ltac:(by vm_compute) Hin).
Defined.

(** [IRQfindNextThread].  With the kernel running it runs the first ready
    thread, in the order of the list from the thread after its head, of the
    highest priority that has a ready thread; that thread becomes the head of
    its list, no other list changes, and the next preemption is the earlier of
    the first wakeup and the end of the time slice.  Without a ready thread it
    runs the idle thread, up to the first wakeup.  With the kernel paused it
    changes nothing. *)
Theorem IRQfindNextThread_chooses env r s h qs id :
  rep s h qs -> idle s = Some id -> is_Some (h !! id) ->
  (kernel_running env <> 0 /\ IRQfindNextThread env r s h = Done (MAX_TIME_SLICE, r, s)) \/
  (kernel_running env = 0 /\ exists s',
    (exists i a c b, 0 <= i < PRIORITY_MAX /\ visit (queue qs i) = a ++ c :: b /\ ready h c = true /\
       (forall p, p ∈ a -> ready h p = false) /\
       (forall j p, 0 <= j < PRIORITY_MAX -> p ∈ queue qs j -> ready h p = true -> j <= i) /\
       IRQfindNextThread env r s h = Done (MAX_TIME_SLICE, Running c (user_mode h c), s') /\
       rep s' h (<[Z.to_nat i := c :: b ++ a]> qs) /\
       IRQgetNextPreemption s' =
         Z.min (default INT64_MAX (firstWakeup env)) (s64 (IRQgetTime env + MAX_TIME_SLICE))) \/
    ((forall p, scheduled qs p -> ready h p = false) /\
       IRQfindNextThread env r s h = Done (MAX_TIME_SLICE, Running id false, s') /\ rep s' h qs /\
       IRQgetNextPreemption s' = default INT64_MAX (firstWakeup env))).
Proof.
  intros Hr Hid Hin. destruct (decide (kernel_running env = 0)) as [Hk|Hk]; [right|left]; split; try done; cycle 1.
  { unfold IRQfindNextThread. by destruct (Z.eqb_spec (kernel_running env) 0). }
  pose proof (IRQfindNextThread_spec env r s h qs Hr Hk) as H.
  destruct (choose h qs priorities) as [[i c]|] eqn:Ech.
  - destruct H as (s' & Hrun & Hr' & _ & Hnext & Hi & _ & _). exists s'. left.
    pose proof (choose_ready_list _ _ _ _ _ Ech) as [(a & b & Heq & Hc & Ha)%first_ready_Some _].
    exists i, a, c, b. split_and!; try done; try lia.
    + intros j p Hj Hp Hpr. eapply choose_max; try done; [apply priorities_sorted|by apply elem_of_priorities].
    + unfold rotated in Hr'. rewrite Heq, rotate_to_spec in Hr'; [done|]. intros Hca. apply Ha in Hca. congruence.
  - destruct (H id Hid Hin) as (s' & Hrun & Hr' & _ & Hnext). exists s'. right. split_and!; try done.
    intros p (j & Hj & Hp). rewrite choose_None in Ech. apply (Ech j); [by apply elem_of_priorities|done].
Qed.

Lemma IRQfindNextThread_chooses_witness :
  exists s', IRQfindNextThread (SchedEnv 0 (Some 500) 0) (Running 1 false) ex_sched ex_heap
    = Done (MAX_TIME_SLICE, Running 3 false, s') /\ IRQgetNextPreemption s' = 500.
Proof.
  destruct (IRQfindNextThread_chooses (SchedEnv 0 (Some 500) 0) (Running 1 false) ex_sched ex_heap ex_queues 1
    ex_rep eq_refl ltac:(by eexists)) as [[Hk _]|[_ (s' & [H|H])]].
  - by destruct Hk.
  - destruct H as (i & a & c & b & Hi & _ & _ & _ & _ & Hrun & _ & Hn).
    exists s'. split; [|rewrite Hn; by vm_compute]. vm_compute in Hrun. injection Hrun as Hc _ Hs.
    rewrite <- Hs. by vm_compute.
  - destruct H as [_ [Hrun _]]. vm_compute in Hrun. discriminate.
Defined.

(** C39: threads of the same priority share the processor in turn.  While no
    status flag changes, every scheduling decision picks the next of the
    ready threads of the highest priority that has any, cyclically: the n-th
    decision runs the thread n modulo their number, so each of them runs
    once in every round. *)
Theorem round_robin envs r s h qs i c :
  rep s h qs -> Forall (fun env => kernel_running env = 0) envs -> choose h qs priorities = Some (i, c) ->
  exists trace s', run_find envs r s h = Done (trace, s') /\ length trace = length envs /\
    forall n, (n < length envs)%nat ->
      trace !! n = ready_list h qs i !! (n mod length (ready_list h qs i))%nat.
Proof. apply run_find_spec. Qed.

Lemma round_robin_witness :
  choose ex_heap ex_queues priorities = Some (1, 3%positive) /\
  ready_list ex_heap ex_queues 1 = [3; 2]%positive /\
  exists trace s', run_find (replicate 5 (SchedEnv 0 None 0)) (Running 1 false) ex_sched ex_heap = Done (trace, s') /\
    trace !! 4%nat = Some 3%positive.
Proof.
  split; [by vm_compute|]. split; [by vm_compute|].
  destruct (round_robin (replicate 5 (SchedEnv 0 None 0)) (Running 1 false) ex_sched ex_heap ex_queues 1 3
    ex_rep ltac:(repeat constructor) ltac:(by vm_compute)) as (trace & s' & Hrun & _ & Htr).
  exists trace, s'. split; [done|]. rewrite (Htr 4%nat) by (simpl; lia). by vm_compute.
Defined.

End PriorityScheduler.
