(* ===== verification/EdfScheduler.v ===== *)
(** * The earliest deadline first scheduler

    [kernel/scheduler/edf/]: one list of threads sorted by deadline, from
    [head]; the first ready thread of the list runs. *)
From Stdlib Require Import Sorted.
From S2P Require Import Prelude Errors Threads ThreadLists Scheduler.

Local Open Scope Z_scope.

Module EDFScheduler.

Definition INT64_MAX : Z := 2 ^ 63 - 1.

(** ** EDFSchedulerPriority: the deadline, [priority] in the thread. *)
Definition validate (deadline : Z) : bool := (0 <=? deadline) && negb (deadline =? INT64_MAX - 1).
Definition mutexLessOp (a b : Z) : bool := a >? b.
Definition less (a b : Z) : bool := a >? b.

(** ** The static data *)
Record sched := Sched { head : option positive; nextPreemption : Z }.
Definition initial : sched := Sched None INT64_MAX.
Definition set_head (p : option positive) (s : sched) : sched := Sched p (nextPreemption s).

Definition fuel (h : threads) : nat := S (size h).

(** ** Operations *)

(** The [for(;;)] of [add]. *)
Fixpoint add_loop (n : nat) (h : threads) (thread walk : positive) (newDeadline : Z) : exec threads :=
  match n with
  | O => Fault OutOfFuel
  | S n =>
      t ← load h walk;
      match schedNext t with
      | None =>
          h ← store h thread (set_schedNext None);
          store h walk (set_schedNext (Some thread))
      | Some next =>
          tn ← load h next;
          if newDeadline <=? priority tn then
            h ← store h thread (set_schedNext (Some next));
            store h walk (set_schedNext (Some thread))
          else add_loop n h thread next newDeadline
      end
  end.

Definition add (thread : positive) (s : sched) (h : threads) : exec (sched * threads) :=
  t ← load h thread;
  let newDeadline := priority t in
  match head s with
  | None => Done (set_head (Some thread) s, h)
  | Some hd =>
      th ← load h hd;
      if newDeadline <=? priority th then
        h ← store h thread (set_schedNext (Some hd));
        Done (set_head (Some thread) s, h)
      else
        h ← add_loop (fuel h) h thread hd newDeadline;
        Done (s, h)
  end.

(** The [for(;;)] of [remove]. *)
Fixpoint remove_loop (n : nat) (h : threads) (thread walk : positive) : exec threads :=
  match n with
  | O => Fault OutOfFuel
  | S n =>
      t ← load h walk;
      match schedNext t with
      | None => errorHandler UNEXPECTED
      | Some next =>
          if bool_decide (next = thread) then
            tn ← load h next;
            store h walk (set_schedNext (schedNext tn))
          else remove_loop n h thread next
      end
  end.

Definition remove (thread : positive) (s : sched) (h : threads) : exec (sched * threads) :=
  match head s with
  | None => errorHandler UNEXPECTED
  | Some hd =>
      if bool_decide (hd = thread) then
        t ← load h hd; Done (set_head (schedNext t) s, h)
      else h ← remove_loop (fuel h) h thread hd; Done (s, h)
  end.

Definition PKaddThread (thread : positive) (prio : Z) (s : sched) (h : threads) : exec (bool * sched * threads) :=
  h ← store h thread (set_priority prio);
  '(s, h) ← add thread s h;
  Done (true, s, h).

Fixpoint exists_loop (n : nat) (h : threads) (thread : positive) (walk : option positive) : exec bool :=
  match n with
  | O => Fault OutOfFuel
  | S n =>
      match walk with
      | None => Done false
      | Some w =>
          t ← load h w;
          if bool_decide (w = thread) && negb (ThreadFlags.isDeleted (flags t)) then Done true
          else exists_loop n h thread (schedNext t)
      end
  end.

Definition PKexists (thread : positive) (s : sched) (h : threads) : exec bool :=
  exists_loop (S (fuel h)) h thread (head s).

(** [PKremoveDeadThreads]: the threads at the beginning of the list. *)
Fixpoint remove_first (n : nat) (head : option positive) (h : threads) : exec (positive * threads) :=
  match n with
  | O => Fault OutOfFuel
  | S n =>
      match head with
      | None => errorHandler UNEXPECTED
      | Some hd =>
          t ← load h hd;
          if ThreadFlags.isDeleted (flags t) then remove_first n (schedNext t) (delete hd h)
          else Done (hd, h)
      end
  end.

(** The other threads. *)
Fixpoint remove_rest (n : nat) (walk : positive) (h : threads) : exec threads :=
  match n with
  | O => Fault OutOfFuel
  | S n =>
      t ← load h walk;
      match schedNext t with
      | None => Done h
      | Some d =>
          td ← load h d;
          if ThreadFlags.isDeleted (flags td) then
            h ← store h walk (set_schedNext (schedNext td));
            remove_rest n walk (delete d h)
          else remove_rest n d h
      end
  end.

Definition PKremoveDeadThreads (s : sched) (h : threads) : exec (sched * threads) :=
  '(hd, h) ← remove_first (fuel h) (head s) h;
  h ← remove_rest (fuel h) hd h;
  Done (set_head (Some hd) s, h).

Definition getPriority (thread : positive) (h : threads) : exec Z :=
  t ← load h thread; Done (priority t).

Definition PKsetPriority (thread : positive) (newPriority : Z) (s : sched) (h : threads) : exec (sched * threads) :=
  '(s, h) ← remove thread s h;
  h ← store h thread (set_priority newPriority);
  add thread s h.

Definition IRQsetIdleThread (idleThread : positive) (s : sched) (h : threads) : exec (sched * threads) :=
  h ← store h idleThread (set_priority (INT64_MAX - 1));
  add idleThread s h.

Definition IRQgetNextPreemption (s : sched) : Z := nextPreemption s.

Definition IRQsetNextPreemption (env : sched_env) (s : sched) : sched :=
  Sched (head s) (default INT64_MAX (firstWakeup env)).

Fixpoint find_loop (n : nat) (h : threads) (walk : option positive) : exec running :=
  match n with
  | O => Fault OutOfFuel
  | S n =>
      match walk with
      | None => errorHandler UNEXPECTED
      | Some w =>
          t ← load h w;
          if ThreadFlags.isReady (flags t) then Done (Running w (ThreadFlags.isInUserspace (flags t)))
          else find_loop n h (schedNext t)
      end
  end.

Definition IRQfindNextThread (env : sched_env) (r : running) (s : sched) (h : threads) : exec (Z * running * sched) :=
  if negb (kernel_running env =? 0) then Done (0, r, s)
  else
    r ← find_loop (S (fuel h)) h (head s);
    Done (1, r, IRQsetNextPreemption env s).

#[export] Instance ops : SchedulerOps sched := {
  PKaddThread := PKaddThread;
  PKexists := PKexists;
  PKremoveDeadThreads := PKremoveDeadThreads;
  PKsetPriority := PKsetPriority;
  getPriority := getPriority;
  IRQsetIdleThread := IRQsetIdleThread;
  IRQfindNextThread := IRQfindNextThread;
  IRQgetNextPreemption := IRQgetNextPreemption;
  validate := validate;
  less := less;
  mutexLessOp := mutexLessOp;
}.

(** ** The list of threads *)

Definition deadline (h : threads) (p : positive) : Z := from_option priority 0 (h !! p).
Definition earlier (h : threads) (p q : positive) : Prop := deadline h p <= deadline h q.

Record rep (s : sched) (h : threads) (xs : list positive) : Prop := Rep {
  rep_path : path h (head s) xs;
  rep_nodup : NoDup xs;
  rep_sorted : StronglySorted (earlier h) xs;
}.

Lemma path_fuel h q xs : path h q xs -> NoDup xs -> (length xs < fuel h)%nat.
Proof. apply path_length. Qed.

#[local] Opaque fuel.

Lemma sorted_frame h h' xs :
  (forall p, p ∈ xs -> deadline h' p = deadline h p) ->
  StronglySorted (earlier h) xs -> StronglySorted (earlier h') xs.
Proof.
  intros Hf. induction 1 as [|x r Hs IH Hx]; constructor.
  - apply IH. set_solver.
  - rewrite Forall_forall in Hx |- *. intros y Hy. unfold earlier.
    rewrite !Hf by set_solver. by apply Hx.
Qed.

(** ** Insertion by deadline *)
Fixpoint edf_insert (h : threads) (t : positive) (d : Z) (xs : list positive) : list positive :=
  match xs with
  | [] => [t]
  | x :: r => if d <=? deadline h x then t :: x :: r else x :: edf_insert h t d r
  end.

Lemma edf_insert_perm h t d xs : edf_insert h t d xs ≡ₚ t :: xs.
Proof.
  induction xs as [|x r IH]; [done|]. simpl. case_match; [done|]. rewrite IH. by constructor.
Qed.
Lemma elem_of_edf_insert h t d xs p : p ∈ edf_insert h t d xs <-> p = t \/ p ∈ xs.
Proof. rewrite edf_insert_perm. set_solver. Qed.
Lemma edf_insert_nodup h t d xs : NoDup xs -> t ∉ xs -> NoDup (edf_insert h t d xs).
Proof. rewrite edf_insert_perm. by constructor. Qed.

Lemma edf_insert_sorted h t xs :
  StronglySorted (earlier h) xs -> StronglySorted (earlier h) (edf_insert h t (deadline h t) xs).
Proof.
  induction 1 as [|x r Hs IH Hx]; simpl; [repeat constructor|].
  destruct (Z.leb_spec (deadline h t) (deadline h x)) as [Hle|Hlt].
  - constructor; [by constructor|]. constructor; [done|].
    rewrite Forall_forall in Hx |- *. intros y Hy. specialize (Hx y Hy). unfold earlier in *. lia.
  - constructor; [done|]. rewrite Forall_forall in Hx |- *. intros y Hy.
    apply elem_of_edf_insert in Hy as [->|Hy]; [unfold earlier; lia|by apply Hx].
Qed.

Lemma deadline_Some h p t : h !! p = Some t -> deadline h p = priority t.
Proof. unfold deadline. by intros ->. Qed.

Lemma add_loop_spec n h t tt hd l w r :
  chain h hd (l ++ r) None -> NoDup (hd :: l ++ r) -> t ∉ hd :: l ++ r ->
  h !! t = Some tt -> w = default hd (last l) -> (length r < n)%nat ->
  exists h', add_loop n h t w (priority tt) = Done h' /\
    chain h' hd (l ++ edf_insert h t (priority tt) r) None /\ reclaims [] h h' /\
    (forall p, p ∉ t :: hd :: l ++ r -> h' !! p = h !! p).
Proof.
  intros Hc Hnd Ht Htt Hw. revert n l w Hc Hnd Ht Hw.
  induction r as [|y r IH]; intros n l w Hc Hnd Ht Hw Hn; (destruct n as [|n]; [simpl in Hn; lia|]); simpl.
  all: destruct (chain_next_last _ _ _ _ _ Hc) as (tw & Htw & Hnext); rewrite <- Hw in Htw;
    rewrite (load_Some _ _ _ Htw); simpl; rewrite Hnext.
  all: assert (Hwin : w ∈ hd :: l) by (rewrite Hw; apply last_default_in).
  all: assert (Hwt : t <> w) by set_solver.
  - rewrite (store_Some _ _ _ _ Htt). simpl.
    rewrite (store_Some _ w tw) by (by rewrite lookup_insert_ne). eexists. split; [done|]. split_and!.
    + apply (chain_insert_after h hd l w []); try done. unfold next_of. rewrite Htw. simpl. by rewrite Hnext.
    + eapply (reclaims_trans [] []);
        [apply (reclaims_store h t tt (set_schedNext None tt))|apply (reclaims_store _ w tw)]; by rewrite ?lookup_insert_ne.
    + intros p Hp. rewrite !lookup_insert_ne; set_solver.
  - destruct (chain_in_heap _ _ _ _ y Hc) as [ty Hty]; [set_solver|].
    rewrite (load_Some _ _ _ Hty). simpl. rewrite (deadline_Some _ _ _ Hty).
    destruct (priority tt <=? priority ty).
    + rewrite (store_Some _ _ _ _ Htt). simpl.
      rewrite (store_Some _ w tw) by (by rewrite lookup_insert_ne). eexists. split; [done|]. split_and!.
      * apply (chain_insert_after h hd l w (y :: r)); try done. unfold next_of. rewrite Htw. simpl. by rewrite Hnext.
      * eapply (reclaims_trans [] []);
          [apply (reclaims_store h t tt (set_schedNext (Some y) tt))|apply (reclaims_store _ w tw)]; by rewrite ?lookup_insert_ne.
      * intros p Hp. rewrite !lookup_insert_ne; set_solver.
    + destruct (IH n (l ++ [y]) y) as (h' & Hrun & Hch & Hrec & Hfr).
      * by rewrite <- app_assoc.
      * by rewrite <- app_assoc.
      * by rewrite <- app_assoc.
      * by rewrite last_snoc.
      * simpl in Hn. lia.
      * exists h'. rewrite <- app_assoc in Hch, Hfr. done.
Qed.

(** [add]: the deadline of [t] is set, [t] is in no list. *)
Lemma add_spec s h xs t tt :
  rep s h xs -> h !! t = Some tt -> t ∉ xs -> (xs = [] -> schedNext tt = None) ->
  exists s' h', add t s h = Done (s', h') /\ rep s' h' (edf_insert h t (priority tt) xs) /\
    reclaims [] h h' /\ nextPreemption s' = nextPreemption s.
Proof.
  intros [Hp Hnd Hs] Htt Ht Hnil. unfold add. rewrite (load_Some _ _ _ Htt). simpl.
  assert (Hsort : forall h', reclaims [] h h' -> StronglySorted (earlier h') (edf_insert h t (priority tt) xs)).
  { intros h' Hrec. apply (sorted_frame h).
    - intros p _. unfold deadline. pose proof (reclaims_priority _ _ _ p Hrec ltac:(set_solver)) as Hx.
      destruct (h' !! p), (h !! p); simpl in *; congruence.
    - rewrite <- (deadline_Some h t tt) by done. by apply edf_insert_sorted. }
  assert (Hnd' : NoDup (edf_insert h t (priority tt) xs)) by by apply edf_insert_nodup.
  destruct xs as [|hd r].
  - rewrite Hp. exists (set_head (Some t) s), h. split_and!; [done| |apply reclaims_refl|done].
    split; [|by apply NoDup_singleton|apply Hsort, reclaims_refl].
    split; [done|]. simpl. unfold next_of. rewrite Htt. simpl. by rewrite Hnil.
  - pose proof (path_fuel _ _ _ Hp Hnd) as Hf. destruct Hp as [Hhd Hc]. rewrite Hhd.
    destruct (chain_in_heap _ _ _ _ hd Hc) as [th Hth]; [set_solver|].
    rewrite (load_Some _ _ _ Hth). simpl. rewrite (deadline_Some _ _ _ Hth).
    destruct (priority tt <=? priority th) eqn:Ecmp.
    + rewrite (store_Some _ _ _ _ Htt). simpl. eexists _, _. split; [done|].
      assert (Hrec : reclaims [] h (<[t := set_schedNext (Some hd) tt]> h)) by by eapply reclaims_store.
      split_and!; [|done|done]. split.
      * split; [done|]. split; [apply next_of_insert|]. revert Hc. apply chain_frame.
        intros p Hpin. apply next_of_insert_ne. by intros ->.
      * simpl in Hnd'. by rewrite (deadline_Some _ _ _ Hth), Ecmp in Hnd'.
      * specialize (Hsort _ Hrec). simpl in Hsort. by rewrite (deadline_Some _ _ _ Hth), Ecmp in Hsort.
    + destruct (add_loop_spec (fuel h) h t tt hd [] hd r) as (h' & -> & Hch & Hrec & _); try done.
      { simpl in Hf. lia. }
      simpl. exists s, h'. split_and!; try done. split.
      * split; [done|exact Hch].
      * simpl in Hnd'. by rewrite (deadline_Some _ _ _ Hth), Ecmp in Hnd'.
      * specialize (Hsort _ Hrec). simpl in Hsort. by rewrite (deadline_Some _ _ _ Hth), Ecmp in Hsort.
Qed.

(** ** Removal *)
Definition without (t : positive) (xs : list positive) : list positive := filter (fun p => p <> t) xs.

Lemma without_not_in t xs : t ∉ xs -> without t xs = xs.
Proof.
  intros Ht. induction xs as [|x xs IH]; [done|]. unfold without in *.
  rewrite filter_cons_True by set_solver. f_equal. apply IH. set_solver.
Qed.
Lemma without_head t xs : t ∉ xs -> without t (t :: xs) = xs.
Proof. intros Ht. unfold without. rewrite filter_cons_False by naive_solver. by apply without_not_in. Qed.
Lemma without_cons_ne t x xs : x <> t -> without t (x :: xs) = x :: without t xs.
Proof. intros. unfold without. by rewrite filter_cons_True. Qed.
Lemma elem_of_without t xs p : p ∈ without t xs <-> p <> t /\ p ∈ xs.
Proof. unfold without. by rewrite list_elem_of_filter. Qed.

Lemma StronglySorted_filter {A} (R : A -> A -> Prop) (P : A -> Prop) `{!forall x, Decision (P x)} l :
  StronglySorted R l -> StronglySorted R (filter P l).
Proof.
  induction 1 as [|x l Hs IH Hx]; [constructor|]. rewrite filter_cons. case_decide; [|done].
  constructor; [done|]. rewrite Forall_forall in Hx |- *. intros y Hy.
  apply list_elem_of_filter in Hy as [_ Hy]. by apply Hx.
Qed.

Lemma remove_loop_spec n h t hd l xs :
  chain h hd (l ++ xs) None -> NoDup (hd :: l ++ xs) -> t ∈ xs -> (length xs <= n)%nat ->
  exists h', remove_loop n h t (default hd (last l)) = Done h' /\
    chain h' hd (l ++ without t xs) None /\ reclaims [] h h'.
Proof.
  revert n l. induction xs as [|y ys IH]; intros n l Hc Hnd Ht Hn; [set_solver|].
  destruct n as [|n]; simpl in Hn; [lia|]. simpl.
  destruct (chain_next_last _ _ _ _ _ Hc) as (tw & Htw & Hnext). rewrite (load_Some _ _ _ Htw). simpl.
  assert (Hyn : y ∉ ys).
  { apply NoDup_cons in Hnd as [_ Hnd]. apply NoDup_app in Hnd as (_ & _ & Hnd). by apply NoDup_cons in Hnd as [? _]. }
  rewrite Hnext. case_bool_decide as Hyt.
  - subst y. destruct (chain_in_heap _ _ _ _ t Hc) as [tt Htt]; [set_solver|].
    rewrite (load_Some _ _ _ Htt). simpl. rewrite (store_Some _ _ _ _ Htw).
    eexists. split; [done|]. rewrite without_head by done. split.
    + eapply chain_unlink; [done..|]. simpl. unfold next_of. by rewrite Htt.
    + by eapply reclaims_store.
  - destruct (IH n (l ++ [y])) as (h' & Hrun & Hch & Hrec);
      [by rewrite <- app_assoc|by rewrite <- app_assoc|set_solver|lia|].
    rewrite last_snoc in Hrun. rewrite <- app_assoc in Hch. rewrite without_cons_ne by done. by exists h'.
Qed.

Lemma reclaims_deadline h h' p : reclaims [] h h' -> deadline h' p = deadline h p.
Proof.
  intros Hrec. unfold deadline. pose proof (reclaims_priority _ _ _ p Hrec ltac:(set_solver)) as Hx.
  destruct (h' !! p), (h !! p); simpl in *; congruence.
Qed.

(** [remove]: when the list becomes empty, the [next] of the removed thread
    is null. *)
Lemma remove_spec s h xs t :
  rep s h xs -> t ∈ xs ->
  exists s' h', remove t s h = Done (s', h') /\ rep s' h' (without t xs) /\ reclaims [] h h' /\
    (without t xs = [] -> schedNext <$> h' !! t = Some None) /\ nextPreemption s' = nextPreemption s.
Proof.
  intros [Hp Hnd Hs] Ht. unfold remove. pose proof (path_fuel _ _ _ Hp Hnd) as Hf.
  assert (Hsort : forall h', reclaims [] h h' -> StronglySorted (earlier h') (without t xs)).
  { intros h' Hrec. apply (sorted_frame h); [|by apply StronglySorted_filter].
    intros p _. by apply reclaims_deadline. }
  assert (Hnd' : NoDup (without t xs)) by by apply NoDup_filter.
  destruct xs as [|hd r]; [set_solver|]. pose proof Hp as (Hhd & th & Hth & Hpr)%path_cons.
  rewrite Hhd. case_bool_decide as Hht.
  - subst hd. rewrite (load_Some _ _ _ Hth). simpl. eexists _, _. split; [done|].
    apply NoDup_cons in Hnd as [Htr Hnd]. rewrite without_head in * by done.
    split_and!; [|apply reclaims_refl| |done].
    + split; [exact Hpr|done|apply Hsort, reclaims_refl].
    + intros ->. rewrite Hth. simpl. by rewrite Hpr.
  - destruct Hp as [_ Hc]. destruct (remove_loop_spec (fuel h) h t hd [] r) as (h' & Hrun & Hch & Hrec); try done.
    { set_solver. }
    { simpl in Hf. lia. }
    simpl in Hrun. rewrite Hrun. simpl. exists s, h'. specialize (Hsort h' Hrec).
    rewrite without_cons_ne in * by done. split_and!; try done.
Qed.

Lemma rep_frame s h h' xs : (forall p, p ∈ xs -> same_sched h h' p) -> rep s h xs -> rep s h' xs.
Proof.
  intros Hf [Hp Hnd Hs]. split; [|done|].
  - eapply path_frame; [|done]. intros p Hin. by apply same_sched_next, Hf.
  - eapply sorted_frame; [|done]. intros p Hin. specialize (Hf p Hin). apply same_sched_priority in Hf.
    unfold deadline. destruct (h' !! p), (h !! p); simpl in *; congruence.
Qed.

(** ** PKaddThread, PKsetPriority, IRQsetIdleThread *)

Lemma set_deadline_add s h xs t tt d :
  rep s h xs -> h !! t = Some tt -> t ∉ xs -> (xs = [] -> schedNext tt = None) ->
  exists s' h', add t s (<[t := set_priority d tt]> h) = Done (s', h') /\
    rep s' h' (edf_insert h t d xs) /\ same_but_sched h h' /\
    (forall p, priority <$> h' !! p = if decide (p = t) then Some d else priority <$> h !! p) /\
    nextPreemption s' = nextPreemption s.
Proof.
  intros Hr Htt Ht Hnil.
  assert (Hr1 : rep s (<[t := set_priority d tt]> h) xs).
  { eapply rep_frame; [|done]. intros p Hp. apply same_sched_insert_ne. by intros ->. }
  destruct (add_spec s _ xs t (set_priority d tt) Hr1) as (s' & h' & Hrun & Hr' & Hrec & Hn);
    [by rewrite lookup_insert_eq|done|done|].
  exists s', h'. split_and!; [done| | | |done].
  - simpl in Hr'. replace (edf_insert h t d xs) with (edf_insert (<[t := set_priority d tt]> h) t d xs); [done|].
    clear -Ht. induction xs as [|x r IH]; simpl; [done|]. unfold deadline.
    rewrite lookup_insert_ne by set_solver. rewrite IH by set_solver. done.
  - etrans; [by apply (strip_insert h t tt (set_priority d tt))|]. by apply reclaims_same.
  - intros p. rewrite (reclaims_priority _ _ _ p Hrec) by set_solver. case_decide as Hpt.
    + subst p. by rewrite lookup_insert_eq.
    + by rewrite lookup_insert_ne.
Qed.

Lemma edf_PKaddThread_spec s h xs t tt d :
  rep s h xs -> h !! t = Some tt -> t ∉ xs -> schedNext tt = None ->
  exists s' h', PKaddThread t d s h = Done (true, s', h') /\
    rep s' h' (edf_insert h t d xs) /\ same_but_sched h h' /\
    (forall p, priority <$> h' !! p = if decide (p = t) then Some d else priority <$> h !! p).
Proof.
  intros Hr Htt Ht Hnil. unfold PKaddThread. rewrite (store_Some _ _ _ _ Htt). simpl.
  destruct (set_deadline_add s h xs t tt d Hr Htt Ht) as (s' & h' & -> & ? & ? & ? & _); [done|].
  by exists s', h'.
Qed.

Lemma edf_PKsetPriority_spec s h xs t d :
  rep s h xs -> t ∈ xs ->
  exists s' h', PKsetPriority t d s h = Done (s', h') /\
    rep s' h' (edf_insert h t d (without t xs)) /\ same_but_sched h h' /\
    (forall p, priority <$> h' !! p = if decide (p = t) then Some d else priority <$> h !! p).
Proof.
  intros Hr Ht. unfold PKsetPriority.
  destruct (remove_spec s h xs t Hr Ht) as (s1 & h1 & -> & Hr1 & Hrec & Hnil & _). simpl.
  assert (exists t1, h1 !! t = Some t1) as [t1 Ht1].
  { destruct (path_in_heap _ _ _ _ (rep_path _ _ _ Hr) Ht) as [t0 Ht0].
    assert (Hx : priority <$> h1 !! t = priority <$> h !! t) by (apply (reclaims_priority [] h h1 t Hrec); set_solver).
    rewrite Ht0 in Hx. destruct (h1 !! t); [eauto|done]. }
  rewrite (store_Some _ _ _ _ Ht1). simpl.
  destruct (set_deadline_add s1 h1 (without t xs) t t1 d Hr1 Ht1) as (s' & h' & -> & Hr' & Hs & Hp & _).
  { rewrite elem_of_without. naive_solver. }
  { intros Hn. specialize (Hnil Hn). rewrite Ht1 in Hnil. by injection Hnil. }
  exists s', h'. split_and!; [done| | |].
  - replace (edf_insert h t d (without t xs)) with (edf_insert h1 t d (without t xs)); [done|].
    clear -Hrec. induction (without t xs) as [|x r IH]; simpl; [done|].
    by rewrite (reclaims_deadline h h1), IH.
  - etrans; [by apply reclaims_same|done].
  - intros p. rewrite Hp. case_decide; [done|]. apply (reclaims_priority _ _ _ p Hrec). set_solver.
Qed.

(** ** PKexists *)
Lemma edf_exists_loop_spec n h t q xs :
  path h q xs -> (length xs < n)%nat ->
  exists_loop n h t q = Done (bool_decide (t ∈ xs) && negb (dead h t)).
Proof.
  revert q xs. induction n as [|n IH]; intros q xs Hp Hn; [lia|]. simpl. destruct xs as [|x r].
  - rewrite Hp. done.
  - apply path_cons in Hp as (-> & tx & Htx & Hp). rewrite (load_Some _ _ _ Htx). simpl.
    rewrite (IH _ r Hp) by (simpl in Hn; lia). case_bool_decide as Hxt; simpl.
    + subst x. rewrite (dead_true _ _ _ Htx). rewrite (bool_decide_eq_true_2 (t ∈ t :: r)) by set_solver.
      destruct (ThreadFlags.isDeleted (flags tx)); simpl; [by rewrite andb_false_r|done].
    + f_equal. f_equal. apply bool_decide_ext. set_solver.
Qed.

Lemma edf_PKexists_spec s h xs t :
  rep s h xs -> PKexists t s h = Done (bool_decide (t ∈ xs) && negb (dead h t)).
Proof.
  intros [Hp Hnd _]. apply edf_exists_loop_spec; [done|]. pose proof (path_fuel _ _ _ Hp Hnd). lia.
Qed.

(** ** PKremoveDeadThreads *)
Lemma edf_remove_first_spec n h q xs :
  path h q xs -> NoDup xs -> (length xs < n)%nat -> (exists p, p ∈ xs /\ dead h p = false) ->
  exists D hd r h', xs = D ++ hd :: r /\ (forall p, p ∈ D -> dead h p = true) /\ dead h hd = false /\
    remove_first n q h = Done (hd, h') /\ reclaims D h h' /\ chain h' hd r None.
Proof.
  revert q xs h. induction n as [|n IH]; intros q xs h Hp Hnd Hn Hlive; [lia|]. simpl.
  destruct xs as [|x r]; [set_solver|]. pose proof Hp as (-> & tx & Htx & Hpr)%path_cons.
  rewrite (load_Some _ _ _ Htx). simpl. rewrite <- (dead_true _ _ _ Htx).
  apply NoDup_cons in Hnd as [Hx Hnd]. destruct (dead h x) eqn:Ed.
  - assert (Hrec : reclaims [x] h (delete x h)) by apply reclaims_delete.
    assert (Hdead : forall p, p ∈ r -> dead (delete x h) p = dead h p).
    { intros p Hin. apply (reclaims_dead [x]); [done|]. intros ->%list_elem_of_singleton. done. }
    destruct (IH (schedNext tx) r (delete x h)) as (D & hd & r' & h' & Heq & HD & Hhd & Hrun & Hrec' & Hc).
    + eapply path_frame; [|done]. intros p Hin. apply next_of_delete_ne. by intros ->.
    + done.
    + simpl in Hn. lia.
    + destruct Hlive as (p & [->|Hin]%elem_of_cons & Hp'); [congruence|]. exists p. by rewrite Hdead.
    + exists (x :: D), hd, r', h'. split_and!; try done.
      * by rewrite Heq.
      * intros p [->|Hin]%elem_of_cons; [done|]. rewrite <- Hdead; [by apply HD|]. rewrite Heq. set_solver.
      * rewrite <- Hdead; [done|]. rewrite Heq. set_solver.
      * by apply (reclaims_trans [x] D h (delete x h)).
  - exists [], x, r, h. destruct Hp as [_ Hc]. split_and!; try done; [set_solver|apply reclaims_refl].
Qed.

Lemma edf_remove_rest_spec n hd h l xs :
  chain h hd (l ++ xs) None -> NoDup (hd :: l ++ xs) -> (length xs < n)%nat ->
  exists h', remove_rest n (default hd (last l)) h = Done h' /\
    chain h' hd (l ++ alive h xs) None /\ reclaims (deads h xs) h h'.
Proof.
  revert n h l. induction xs as [|y ys IH]; intros n h l Hc Hnd Hn; destruct n as [|n]; simpl in Hn; try lia; simpl.
  { destruct (chain_next_last _ _ _ _ _ Hc) as (t & Ht & Hnext). rewrite (load_Some _ _ _ Ht). simpl.
    rewrite Hnext. exists h. split_and!; try done. apply reclaims_refl. }
  destruct (chain_next_last _ _ _ _ _ Hc) as (t & Ht & Hnext). rewrite (load_Some _ _ _ Ht). simpl.
  rewrite Hnext.
  destruct (chain_in_heap _ _ _ _ y Hc) as [ty Hty]; [set_solver|].
  rewrite (load_Some _ _ _ Hty). simpl. rewrite <- (dead_true _ _ _ Hty).
  unfold alive, deads. rewrite !filter_cons. destruct (dead h y) eqn:Ed; simpl.
  - rewrite (store_Some _ _ _ _ Ht). simpl. set (w := default hd (last l)) in *.
    set (h1 := <[w := set_schedNext (schedNext ty) t]> h).
    assert (Hnd' : NoDup (hd :: l ++ ys) /\ y ∉ hd :: l ++ ys).
    { rewrite <- Permutation_middle in Hnd. apply NoDup_cons in Hnd as [Hh Hnd].
      apply NoDup_cons in Hnd as [Hyl Hnd]. split; [constructor|]; set_solver. }
    destruct Hnd' as [Hnd' Hyn].
    assert (Hrec : reclaims [y] h (delete y h1)).
    { eapply (reclaims_trans [] [y]); [by apply (reclaims_store h w t (set_schedNext (schedNext ty) t))|apply reclaims_delete]. }
    destruct (IH n (delete y h1) l) as (h' & Hrun & Hch & Hrec'); [|done|lia|].
    + eapply chain_frame; [|apply (chain_unlink h hd l w y ys None (set_schedNext (schedNext ty) t))]; try done.
      * intros p Hp. apply next_of_delete_ne. by intros ->.
      * simpl. unfold next_of. by rewrite Hty.
    + assert (Halive : forall p, p ∈ ys -> p ∉ [y]).
      { intros p Hp ->%list_elem_of_singleton. set_solver. }
      exists h'. split_and!; [done| |].
      * change (chain h' hd (l ++ alive h ys) None). by rewrite <- (reclaims_alive [y] h (delete y h1)).
      * eapply (reclaims_trans [y]); [done|].
        change (reclaims (deads h ys) (delete y h1) h'). by rewrite <- (reclaims_deads [y] h (delete y h1)).
  - destruct (IH n h (l ++ [y])) as (h' & Hrun & Hch & Hrec);
      [by rewrite <- app_assoc|by rewrite <- app_assoc|lia|].
    rewrite last_snoc in Hrun. simpl in Hrun. exists h'. rewrite <- app_assoc in Hch. done.
Qed.

Lemma edf_PKremoveDeadThreads_spec s h xs :
  rep s h xs -> (exists p, p ∈ xs /\ dead h p = false) ->
  exists s' h', PKremoveDeadThreads s h = Done (s', h') /\ rep s' h' (alive h xs) /\
    reclaims (deads h xs) h h'.
Proof.
  intros [Hp Hnd Hs] Hlive. unfold PKremoveDeadThreads.
  destruct (edf_remove_first_spec (fuel h) h (head s) xs) as (D & hd & r & h1 & Heq & HD & Hhd & -> & Hrec & Hc);
    [done|done|by eapply path_fuel|done|]. simpl.
  assert (Hnd1 : NoDup (hd :: r) /\ forall p, p ∈ hd :: r -> p ∉ D).
  { rewrite Heq in Hnd. apply NoDup_app in Hnd as (_ & Hd & ?). split; [done|].
    intros p Hp1 Hp2. by apply (Hd p). }
  destruct Hnd1 as [Hnd1 Hdisj].
  assert (Hf : (length r < fuel h1)%nat).
  { pose proof (path_fuel h1 (Some hd) (hd :: r) ltac:(by split) Hnd1) as H. simpl in H. lia. }
  destruct (edf_remove_rest_spec (fuel h1) hd h1 [] r) as (h' & Hrun & Hch & Hrec'); [done..|].
  simpl in Hrun, Hch. rewrite Hrun. simpl. eexists _, _. split; [done|].
  rewrite (reclaims_alive D h h1) in Hch by (done || set_solver).
  rewrite (reclaims_deads D h h1) in Hrec' by (done || set_solver).
  assert (Hal : alive h xs = hd :: alive h r).
  { rewrite Heq, dead_alive_app, alive_none by done. unfold alive. by rewrite filter_cons_True. }
  assert (Hdd : deads h xs = D ++ deads h r).
  { rewrite Heq. unfold deads. rewrite filter_app. f_equal; [by apply deads_all|].
    apply filter_cons_False. by rewrite Hhd. }
  rewrite Hdd. assert (Hall : reclaims (D ++ deads h r) h h') by by apply (reclaims_trans D _ h h1).
  split; [|done]. split.
  - rewrite Hal. by split.
  - by apply NoDup_filter.
  - apply (sorted_frame h); [|by apply StronglySorted_filter]. intros p (Hin & Hpd)%elem_of_alive.
    rewrite <- Hdd in Hall.
    assert (Hn : p ∉ deads h xs) by (rewrite elem_of_deads; naive_solver congruence).
    pose proof (reclaims_priority _ _ _ p Hall Hn) as Hx. unfold deadline.
    destruct (h' !! p), (h !! p); simpl in *; congruence.
Qed.

(** ** IRQfindNextThread *)
Definition user_mode (h : threads) (p : positive) : bool :=
  match h !! p with Some t => ThreadFlags.isInUserspace (flags t) | None => false end.

Lemma find_loop_spec n h q xs :
  path h q xs -> (length xs < n)%nat ->
  find_loop n h q = match first_ready h xs with
                    | Some c => Done (Running c (user_mode h c))
                    | None => Fault (Err UNEXPECTED)
                    end.
Proof.
  revert q xs. induction n as [|n IH]; intros q xs Hp Hn; [lia|]. simpl. destruct xs as [|x r].
  { by rewrite Hp. }
  apply path_cons in Hp as (-> & tx & Htx & Hp). rewrite (load_Some _ _ _ Htx). simpl.
  rewrite first_ready_cons, (ready_true _ _ _ Htx). destruct (ThreadFlags.isReady (flags tx)).
  - unfold user_mode. by rewrite Htx.
  - apply IH; [done|simpl in Hn; lia].
Qed.

Lemma edf_IRQfindNextThread_spec env r s h xs :
  rep s h xs -> kernel_running env = 0 ->
  IRQfindNextThread env r s h = match first_ready h xs with
    | Some c => Done (1, Running c (user_mode h c), IRQsetNextPreemption env s)
    | None => Fault (Err UNEXPECTED)
    end.
Proof.
  intros [Hp Hnd _] Hk. unfold IRQfindNextThread. rewrite Hk. cbn [Z.eqb negb].
  rewrite (find_loop_spec _ h (head s) xs) by (done || (pose proof (path_fuel _ _ _ Hp Hnd); lia)).
  by destruct (first_ready h xs).
Qed.

(** ** The scheduler interface *)
Definition holds (h : threads) (xs : list positive) (m : gmap positive Z) : Prop :=
  forall t, m !! t = if decide (t ∈ xs) then priority <$> h !! t else None.

Definition sched_rep (s : sched) (h : threads) (m : gmap positive Z) : Prop :=
  exists xs, rep s h xs /\ holds h xs m.

Lemma holds_in h s xs m t : rep s h xs -> holds h xs m -> is_Some (m !! t) <-> t ∈ xs.
Proof.
  intros Hr Hm. rewrite (Hm t). case_decide as Ht.
  - destruct (path_in_heap _ _ _ _ (rep_path _ _ _ Hr) Ht) as [tt ->]. simpl. naive_solver.
  - split; [by intros []|done].
Qed.

Lemma holds_insert h h' xs xs' m t d :
  holds h xs m -> (forall p, p ∈ xs' <-> p = t \/ p ∈ xs) ->
  (forall p, priority <$> h' !! p = if decide (p = t) then Some d else priority <$> h !! p) ->
  holds h' xs' (<[t := d]> m).
Proof.
  intros Hm Hx Hp u. rewrite Hp. destruct (decide (u = t)) as [->|Hut].
  - rewrite lookup_insert_eq, decide_True by (rewrite Hx; by left). done.
  - rewrite lookup_insert_ne, (Hm u) by done. destruct (decide (u ∈ xs)).
    + rewrite decide_True by (rewrite Hx; by right). done.
    + rewrite decide_False by (rewrite Hx; naive_solver). done.
Qed.

Lemma sorted_first_ready h xs c u :
  StronglySorted (earlier h) xs -> first_ready h xs = Some c -> u ∈ xs -> ready h u = true ->
  deadline h c <= deadline h u.
Proof.
  intros Hs (a & b & -> & Hc & Ha)%first_ready_Some Hu Hr.
  apply elem_of_app in Hu as [Hu|[->|Hu]%elem_of_cons]; [rewrite Ha in Hr; done|lia|].
  induction a as [|x a IH]; simpl in Hs.
  - apply StronglySorted_inv in Hs as [_ Hb]. rewrite Forall_forall in Hb. by apply Hb.
  - apply StronglySorted_inv in Hs as [Hs _]. apply IH; [done|]. intros p Hp. apply Ha. set_solver.
Qed.

#[export] Instance scheduler : Scheduler sched.
Proof.
  refine {| Scheduler.sched_rep := sched_rep; urgency := Z.opp |}.
  - lia.
  - intros a b. cbn. unfold less. rewrite Z.gtb_ltb. apply eq_true_iff_eq. rewrite !Z.ltb_lt. lia.
  - intros a b. cbn. unfold mutexLessOp. rewrite Z.gtb_ltb. apply eq_true_iff_eq. rewrite !Z.ltb_lt. lia.
  - intros s h m t (xs & Hr & Hm) Ht. apply (holds_in h s xs) in Ht; [|done..].
    by eapply path_in_heap; [apply Hr|].
  - intros h t tt Ht. cbn. unfold getPriority. by rewrite (load_Some _ _ _ Ht).
  - intros s h m t p (xs & Hr & Hm) Ht. rewrite (Hm t) in Ht. case_decide; [|done].
    apply fmap_Some in Ht as (tt & Htt & ->). cbn. unfold getPriority. by rewrite (load_Some _ _ _ Htt).
  - intros s h h' m Hf (xs & Hr & Hm). exists xs. split.
    + eapply rep_frame; [|done]. intros p Hp. apply Hf. by eapply path_in_heap; [apply Hr|].
    + intros t. rewrite (Hm t). case_decide as Ht; [|done]. symmetry. apply same_sched_priority, Hf.
      by eapply path_in_heap; [apply Hr|].
  - intros s h m t p (xs & Hr & Hm) _ [tt Htt] Ht Hnext.
    destruct (edf_PKaddThread_spec s h xs t tt p) as (s' & h' & Hrun & Hr' & Hs & Hp); [done|done| | |].
    + intros Hin. apply (holds_in h s xs m) in Hin as [? ?]; [congruence|done..].
    + rewrite Htt in Hnext. by injection Hnext.
    + exists s', h'. split_and!; [done| |done]. eexists. split; [done|].
      eapply holds_insert; [done| |done]. intros q. apply elem_of_edf_insert.
  - intros s h m t (xs & Hr & Hm). etrans; [exact (edf_PKexists_spec s h xs t Hr)|]. f_equal. f_equal.
    apply bool_decide_ext. by rewrite (holds_in h s xs).
  - intros s h m (xs & Hr & Hm) (t & Ht & Hd).
    destruct (edf_PKremoveDeadThreads_spec s h xs Hr) as (s' & h' & Hrun & Hr' & Hrec).
    { exists t. split; [|done]. by apply (holds_in h s xs m). }
    exists s', h'. split_and!; [done| |].
    + eexists. split; [done|]. intros u. destruct (dead h u) eqn:Eu.
      * rewrite decide_False by (rewrite elem_of_alive; naive_solver congruence).
        rewrite map_lookup_filter_None_2; [done|]. right. intros q _. simpl. congruence.
      * destruct (decide (u ∈ xs)) as [Hu|Hu].
        -- rewrite decide_True by by rewrite elem_of_alive.
           rewrite (reclaims_priority _ _ _ u Hrec) by (rewrite elem_of_deads; naive_solver congruence).
           specialize (Hm u). rewrite decide_True in Hm by done. rewrite <- Hm.
           rewrite map_lookup_filter. destruct (m !! u); simpl; [|done]. by case_guard.
        -- rewrite decide_False by (rewrite elem_of_alive; naive_solver).
           rewrite map_lookup_filter_None_2; [done|]. left. by rewrite (Hm u), decide_False.
    + apply (reclaims_filter (deads h xs)); [done|]. intros p. by rewrite elem_of_deads, (holds_in h s xs).
  - intros s h m t p (xs & Hr & Hm) _ Ht.
    assert (Hin : t ∈ xs) by by apply (holds_in h s xs m).
    destruct (edf_PKsetPriority_spec s h xs t p Hr Hin) as (s' & h' & Hrun & Hr' & Hs & Hp).
    exists s', h'. split_and!; [done| |done]. eexists. split; [done|].
    eapply holds_insert; [done| |done]. intros q. rewrite elem_of_edf_insert, elem_of_without.
    destruct (decide (q = t)) as [->|]; naive_solver.
  - intros s h m env r (xs & Hr & Hm) Hk (t & Ht & Hready).
    assert (Hin : t ∈ xs) by by apply (holds_in h s xs m).
    pose proof (edf_IRQfindNextThread_spec env r s h xs Hr Hk) as Hrun.
    destruct (first_ready h xs) as [c|] eqn:Ef; cycle 1.
    { rewrite first_ready_None in Ef. rewrite Ef in Hready; done. }
    pose proof Ef as (a & b & Heq & Hc & _)%first_ready_Some.
    do 3 eexists. split; [exact Hrun|]. split_and!; [|done|].
    + exists xs. split; [|done]. by destruct Hr.
    + assert (Hcin : c ∈ xs) by (rewrite Heq; set_solver).
      destruct (path_in_heap _ _ _ _ (rep_path _ _ _ Hr) Hcin) as [tc Htc].
      exists (priority tc). simpl. split; [by rewrite (Hm c), decide_True, Htc|].
      intros u q Hu Hur. pose proof (proj1 (holds_in h s xs m u Hr Hm) ltac:(by eexists)) as Huin.
      rewrite (Hm u), decide_True in Hu by done. apply fmap_Some in Hu as (tu & Htu & ->).
      pose proof (sorted_first_ready h xs c u (rep_sorted _ _ _ Hr) Ef Huin Hur) as Hle.
      rewrite (deadline_Some _ _ _ Htc), (deadline_Some _ _ _ Htu) in Hle.
      unfold less. rewrite Z.gtb_ltb. apply Z.ltb_ge. done.
  - intros s h env r Hk. exists 0. cbn. unfold IRQfindNextThread.
    by destruct (Z.eqb_spec (kernel_running env) 0).
Defined.

(** ** Properties *)

Lemma edf_rep_initial h : rep initial h [].
Proof. split; [done|apply NoDup_nil_2|constructor]. Qed.

(** The state in which the kernel is started: the idle thread, whose deadline
    comes after every valid deadline but for that of a thread with none. *)
Definition boot (idleThread : positive) : exec (sched * threads) :=
  IRQsetIdleThread idleThread initial {[ idleThread := new_Thread 0 ]}.
Definition boot_abstract (idleThread : positive) : abstract :=
  Abstract {[ idleThread := INT64_MAX - 1 ]} {[ idleThread := new_Thread 0 ]}.

Lemma boot_spec idleThread :
  exists s h, boot idleThread = Done (s, h) /\ stands_for s h (boot_abstract idleThread).
Proof.
  unfold boot, IRQsetIdleThread.
  assert (Hi : ({[ idleThread := new_Thread 0 ]} : threads) !! idleThread = Some (new_Thread 0))
    by apply lookup_singleton_eq.
  rewrite (store_Some _ _ _ _ Hi). simpl.
  destruct (set_deadline_add initial _ [] idleThread (new_Thread 0) (INT64_MAX - 1) (edf_rep_initial _) Hi)
    as (s & h & Hrun & Hr & Hs & Hp & _); [set_solver|done|].
  exists s, h. split; [exact Hrun|]. split; [|done]. eexists. split; [done|].
  rewrite <- insert_empty. eapply (holds_insert {[ idleThread := new_Thread 0 ]} h []).
  - intros t. rewrite lookup_empty. by rewrite decide_False by set_solver.
  - intros p. simpl. set_solver.
  - done.
Qed.

(** C36: the EDF scheduler implements the scheduler interface.  Starting
    from the booted kernel, any sequence of thread creations, changes of
    status flags, deadline changes, reclaiming of dead threads and scheduling
    decisions completes without an error or an invalid memory access, and
    leaves the scheduler holding exactly the threads and deadlines the
    operations describe; the reclaimed threads are exactly the deleted and
    detached ones; and at each decision the thread chosen is ready and no
    ready thread has an earlier deadline. *)
Theorem edf_scheduler_refines (idleThread : positive) (ops : list sched_op) (r : running) :
  prog_ok (S := sched) ops (boot_abstract idleThread) ->
  exists s' h' r' trace,
    ('(s, h) ← boot idleThread; run_prog ops s h r) = Done (s', h', r', trace) /\
    stands_for s' h' (abs_prog ops (boot_abstract idleThread)) /\
    Forall2 (best (S := sched)) (decisions ops (boot_abstract idleThread)) trace.
Proof.
  intros Hok. destruct (boot_spec idleThread) as (s & h & -> & Hs). simpl. by apply run_prog_refines.
Qed.

(** Deadlines 50 and 30, then 10; idle last. *)
Definition ex_prog : list sched_op :=
  let env := SchedEnv 0 None 0 in
  [FindNextThread env; CreateThread 2 50; CreateThread 3 30; FindNextThread env; SetPriority 2 10;
   FindNextThread env; SetFlags 2 ThreadFlags.SetDeleted; SetFlags 2 ThreadFlags.SetDetached;
   RemoveDeadThreads; FindNextThread env].

Lemma edf_scheduler_refines_witness :
  prog_ok (S := sched) ex_prog (boot_abstract 1) /\
  exists s' h' r' trace,
    ('(s, h) ← boot 1; run_prog ex_prog s h (Running 1 false)) = Done (s', h', r', trace) /\
    stands_for s' h' (abs_prog ex_prog (boot_abstract 1)) /\
    Forall2 (best (S := sched)) (decisions ex_prog (boot_abstract 1)) trace.
Proof.
  assert (Hok : prog_ok (S := sched) ex_prog (boot_abstract 1)).
  { cbn [ex_prog prog_ok]. split_and!; try done; try (by eexists); try (by split; [|by vm_compute]; eexists);
      unfold op_ok, some_ready; try (split; [by vm_compute|]);
      exists 1%positive; vm_compute; eauto. }
  split; [done|]. by apply edf_scheduler_refines.
Defined.

Example edf_ex_prog_trace :
  ('(s, h) ← boot 1; '(_, _, _, trace) ← run_prog ex_prog s h (Running 1 false); Done trace)
  = Done [1; 3; 2; 3]%positive.
Proof. vm_compute. reflexivity. Qed.

(** What the operations of the EDF scheduler do to its list, which is
    sorted by deadline and has no duplicates.  Adding a thread or changing its
    deadline puts it before the first thread whose deadline is not earlier,
    keeping the order of the others; [PKexists] finds exactly the threads of
    the list that are not both deleted and detached; [PKremoveDeadThreads]
    frees exactly those that are, as long as one thread remains; the next thread is the first ready
    one of the list, and UNEXPECTED is raised exactly when there is none. *)
Theorem edf_list_operations s h xs :
  rep s h xs ->
  (forall t tt d, h !! t = Some tt -> t ∉ xs -> schedNext tt = None ->
     exists s' h', PKaddThread t d s h = Done (true, s', h') /\ same_but_sched h h' /\
       rep s' h' (edf_insert h t d xs)) /\
  (forall t d, t ∈ xs ->
     exists s' h', PKsetPriority t d s h = Done (s', h') /\ same_but_sched h h' /\
       rep s' h' (edf_insert h t d (without t xs))) /\
  (forall t, PKexists t s h = Done (bool_decide (t ∈ xs) && negb (dead h t))) /\
  ((exists p, p ∈ xs /\ dead h p = false) ->
     exists s' h', PKremoveDeadThreads s h = Done (s', h') /\ rep s' h' (alive h xs) /\
       reclaims (deads h xs) h h') /\
  (forall env r, IRQfindNextThread env r s h =
     if decide (kernel_running env = 0) then
       match first_ready h xs with
       | Some c => Done (1, Running c (user_mode h c), Sched (head s) (default INT64_MAX (firstWakeup env)))
       | None => Fault (Err UNEXPECTED)
       end
     else Done (0, r, s)).
Proof.
  intros Hr. split_and!.
  - intros t tt d Htt Ht Hn.
    destruct (edf_PKaddThread_spec s h xs t tt d Hr Htt Ht Hn) as (s' & h' & ? & ? & ? & _); eauto.
  - intros t d Ht. destruct (edf_PKsetPriority_spec s h xs t d Hr Ht) as (s' & h' & ? & ? & ? & _); eauto.
  - intros t. by apply edf_PKexists_spec.
  - apply edf_PKremoveDeadThreads_spec. done.
  - intros env r. case_decide as Hk; [by apply edf_IRQfindNextThread_spec|].
    unfold IRQfindNextThread. by destruct (Z.eqb_spec (kernel_running env) 0).
Qed.

(** Threads 2 and 3 with deadlines 10 and 20. *)
Definition ex_heap : threads :=
  <[2%positive := set_priority 10 (set_schedNext (Some 3%positive) (new_Thread 0))]>
  (<[3%positive := set_priority 20 (new_Thread 0)]>
  {[ 4%positive := new_Thread 0 ]}).
Definition ex_sched : sched := Sched (Some 2%positive) INT64_MAX.

Lemma edf_ex_rep : rep ex_sched ex_heap [2; 3]%positive.
Proof.
  split.
  - by vm_compute.
  - repeat constructor; set_solver.
  - repeat constructor; by vm_compute.
Qed.

Lemma edf_list_operations_witness :
  rep ex_sched ex_heap [2; 3]%positive /\
  exists s' h', PKaddThread 4 20 ex_sched ex_heap = Done (true, s', h') /\ same_but_sched ex_heap h' /\
    rep s' h' [2; 4; 3]%positive.
Proof.
  split; [apply edf_ex_rep|].
  destruct (edf_list_operations ex_sched ex_heap _ edf_ex_rep) as (Hadd & _).
  exact (Hadd 4%positive (new_Thread 0) 20 eq_refl ltac:(set_solver) eq_refl).
Defined.

End EDFScheduler.
