(* ===== verification/ControlScheduler.v ===== *)
(** * The control-based scheduler

    [kernel/scheduler/control/]: [ControlScheduler], in the variant that
    [control_scheduler.h] selects ([SCHED_CONTROL_MULTIBURST]) with
    [ENABLE_FEEDFORWARD] and [ENABLE_REGULATOR_REINIT].  Threads run in rounds: the
    ready threads are in an intrusive list, in the order of the round, and at the end of
    a round a regulator computes from the time each thread took the length of
    its next burst.  The arithmetic of the regulator is a class with two instances,
    floating point and fixed point ([SCHED_CONTROL_FIXED_POINT]). *)
From Stdlib Require Import SpecFloat.
From S2P Require Import Prelude Errors IntrusiveList Threads ThreadLists Scheduler.

Local Open Scope Z_scope.

Module Control.

(** ** Priorities

    [ControlSchedulerPriority]; the default constructor does not initialise
    [realtime], which holds what was in memory. *)
Record Priority := mkPriority { get : Z; getRealtime : Z }.

Definition REALTIME_PRIORITY_IMMEDIATE : Z := 1.
Definition REALTIME_PRIORITY_NEXT_BURST : Z := 2.
Definition REALTIME_PRIORITY_END_OF_ROUND : Z := 3.
Definition PRIORITY_MAX : Z := 64.
Definition MAIN_PRIORITY : Z := 1.

Definition Priority_short (priority : Z) : Priority := mkPriority priority REALTIME_PRIORITY_END_OF_ROUND.
Definition Priority_default (garbage : Z) : Priority := mkPriority MAIN_PRIORITY garbage.
Definition validate (p : Priority) : bool :=
  (0 <=? get p) && (get p <? PRIORITY_MAX) && (1 <=? getRealtime p) && (getRealtime p <=? 3).
Definition mutexLessOp (a b : Priority) : bool := false.
Definition less (a b : Priority) : bool :=
  (get a =? -1) || (negb (getRealtime a =? 1) && (getRealtime b =? 1)).
Definition greater (a b : Priority) : bool :=
  (get b =? -1) || ((getRealtime a =? 1) && negb (getRealtime b =? 1)).
Definition equal (a b : Priority) : bool := (getRealtime a =? getRealtime b) && (get a =? get b).
Definition different (a b : Priority) : bool := negb (getRealtime a =? getRealtime b) || negb (get a =? get b).

(** ** Parameters ([parameters.h]), in nanoseconds *)
Definition multFactor : Z := 2.
Definition bNominal : Z := 4000000.
Definition bMin : Z := 200000.
Definition bMax : Z := 20000000.

Definition INT_MAX : Z := 2 ^ 31 - 1.
Definition INT64_MAX : Z := 2 ^ 63 - 1.
Definition UINT_MAX : Z := 2 ^ 32 - 1.

(** ** The arithmetic of the regulator

    What depends on [SCHED_CONTROL_FIXED_POINT]: the type of [alfa], the share of a
    thread ([base] and its product with the priority plus one), the limits on the number of
    threads and on [Tr], the new burst correction from the old one and the errors of
    this round and of the previous one, and the time of a thread from its
    share and the time of the round (in a round like the others, and when the
    regulator starts again). *)
Class Arithmetic := {
  alfa_t : Type;
  alfa_zero : alfa_t;
  base_t : Type;
  base_of : Z -> base_t;
  alfa_of : base_t -> Z -> alfa_t;
  max_threads : option Z;
  limit_Tr : Z -> Z;
  burst_correction : Z -> Z -> Z -> Z;
  set_point : alfa_t -> Z -> Z;
  start_point : alfa_t -> Z -> Z;
}.

(** *** Floating point: IEEE binary32, rounding to nearest.  Conversion of a float to
    [int] truncates; out of range, it gives what the processor's [vcvt] gives (the closest
    integer, 0 for not a number). *)
Definition float_of (z : Z) : spec_float := binary_normalize 24 128 z 0 false.
Definition fmul : spec_float -> spec_float -> spec_float := SFmul 24 128.
Definition fsub : spec_float -> spec_float -> spec_float := SFsub 24 128.
Definition fdiv : spec_float -> spec_float -> spec_float := SFdiv 24 128.

Definition int_of (f : spec_float) : Z :=
  match f with
  | S754_finite sign m e =>
      let v := Z.shiftl (Zpos m) e in
      Z.max (- 2 ^ 31) (Z.min INT_MAX (if sign then - v else v))
  | S754_infinity sign => if sign then - 2 ^ 31 else INT_MAX
  | _ => 0
  end.

(** [0.9f] and [0.88f]. *)
Definition krr : spec_float := S754_finite false 15099494 (-24).
Definition zrr : spec_float := S754_finite false 14763950 (-24).

#[export] Instance floating_point : Arithmetic := {|
  alfa_t := spec_float;
  alfa_zero := S754_zero false;
  base_t := spec_float;
  base_of sumPriority := fdiv (float_of 1) (float_of sumPriority);
  alfa_of base p := fmul base (float_of p);
  max_threads := None;
  limit_Tr Tr := Tr;
  burst_correction bco eTr eTro :=
    s32 (bco + int_of (fsub (fmul krr (float_of eTr)) (fmul (fmul krr zrr) (float_of eTro))));
  set_point alfa nextRoundTime := int_of (fmul alfa (float_of nextRoundTime));
  start_point alfa SP_Tr := int_of (fmul alfa (float_of SP_Tr));
|}.

(** *** Fixed point: [alfa] is an unsigned short, 4096 is one; [krr*2048] is 1843,
    [krr*zrr*1024] is 811. *)
Definition fixedKrr : Z := int_of (fmul krr (float_of 2048)).
Definition fixedKrrZrr : Z := int_of (fmul (fmul krr zrr) (float_of 1024)).

Definition fixed_point : Arithmetic := {|
  alfa_t := Z;
  alfa_zero := 0;
  base_t := Z;
  base_of sumPriority := 4096 / sumPriority;
  alfa_of base p := u16 (u32 (base * p));
  max_threads := Some 64;
  limit_Tr Tr := Z.min Tr 524287;
  burst_correction bco eTr eTro :=
    s32 (s32 (bco + Z.quot (s32 (fixedKrr * eTr)) 2048) - Z.quot (s32 (fixedKrrZrr * eTro)) 1024);
  set_point alfa nextRoundTime := s32 (u32 (alfa * u32 nextRoundTime) / 4096);
  start_point alfa SP_Tr := Z.quot (s32 (alfa * SP_Tr)) 4096;
|}.

Section control.
Context `{Arithmetic}.

(** ** The state *)

(** [ControlSchedulerData], but for [next], which is in the thread, and for [atlEntry], the item
    of the list of active threads, which has the address of its thread. *)
Record ControlSchedulerData := mkData {
  priority : Priority;
  bo : Z;
  alfa : alfa_t;
  SP_Tp : Z;
  Tp : Z;
  lastReadyStatus : bool;
}.
Definition set_priority (p : Priority) (d : ControlSchedulerData) := mkData p (bo d) (alfa d) (SP_Tp d) (Tp d) (lastReadyStatus d).
Definition set_alfa (a : alfa_t) (d : ControlSchedulerData) := mkData (priority d) (bo d) a (SP_Tp d) (Tp d) (lastReadyStatus d).
Definition set_Tp (v : Z) (d : ControlSchedulerData) := mkData (priority d) (bo d) (alfa d) (SP_Tp d) v (lastReadyStatus d).
Definition set_lastReady (b : bool) (d : ControlSchedulerData) := mkData (priority d) (bo d) (alfa d) (SP_Tp d) (Tp d) b.
Definition set_burst (sp b : Z) (d : ControlSchedulerData) := mkData (priority d) b (alfa d) sp (Tp d) (lastReadyStatus d).

(** The constructor, which does not initialise [lastReadyStatus]. *)
Definition new_data (garbage : bool) : ControlSchedulerData :=
  mkData (Priority_short 0) (bNominal * multFactor) alfa_zero 0 bNominal garbage.

Record regulator := mkRegulator { SP_Tr : Z; Tr : Z; bco : Z; eTro : Z; reinitRegulator : bool }.
Definition set_SP_Tr (v : Z) (g : regulator) := mkRegulator v (Tr g) (bco g) (eTro g) (reinitRegulator g).
Definition set_Tr (v : Z) (g : regulator) := mkRegulator (SP_Tr g) v (bco g) (eTro g) (reinitRegulator g).
Definition set_reinit (b : bool) (g : regulator) := mkRegulator (SP_Tr g) (Tr g) (bco g) (eTro g) b.

(** The static members and variables, and the data of every thread. *)
Record sched := Sched {
  threadList : option positive;
  threadListSize : Z;
  idle : option positive;
  reg : regulator;
  data : gmap positive ControlSchedulerData;
  activeThreads : IntrusiveList.state;
  curInRound : iterator;
  burstStart : Z;
  nextPreemption : Z;
}.
Definition set_threads (l : option positive) (n : Z) (s : sched) : sched :=
  Sched l n (idle s) (reg s) (data s) (activeThreads s) (curInRound s) (burstStart s) (nextPreemption s).
Definition set_idle (i : option positive) (s : sched) : sched :=
  Sched (threadList s) (threadListSize s) i (reg s) (data s) (activeThreads s) (curInRound s) (burstStart s) (nextPreemption s).
Definition set_reg (g : regulator) (s : sched) : sched :=
  Sched (threadList s) (threadListSize s) (idle s) g (data s) (activeThreads s) (curInRound s) (burstStart s) (nextPreemption s).
Definition set_data (d : gmap positive ControlSchedulerData) (s : sched) : sched :=
  Sched (threadList s) (threadListSize s) (idle s) (reg s) d (activeThreads s) (curInRound s) (burstStart s) (nextPreemption s).
Definition set_round (l : IntrusiveList.state) (c : iterator) (s : sched) : sched :=
  Sched (threadList s) (threadListSize s) (idle s) (reg s) (data s) l c (burstStart s) (nextPreemption s).
Definition set_preemption (b n : Z) (s : sched) : sched :=
  Sched (threadList s) (threadListSize s) (idle s) (reg s) (data s) (activeThreads s) (curInRound s) b n.

(** [empty] is the address of the item that closes the list of active threads. *)
Definition initial (empty : positive) : sched :=
  let l := IntrusiveList_new ∅ ∅ empty in
  Sched None 0 None (mkRegulator 0 bNominal 0 0 false) ∅ l (end_ l) 0 INT64_MAX.

(** [thread->schedData] *)
Definition load_data (s : sched) (thread : positive) : exec ControlSchedulerData := deref (data s !! thread).
Definition store_data (thread : positive) (f : ControlSchedulerData -> ControlSchedulerData) (s : sched) : exec sched :=
  d ← load_data s thread; Done (set_data (<[thread := f d]> (data s)) s).

(** Steps of a loop on threads. *)
Definition fuel (h : threads) : nat := S (size h).

(** [for(Thread *it=threadList;it!=0;it=it->schedData.next)] *)
Fixpoint for_threads (n : nat) (h : threads) (it : option positive) (f : positive -> sched -> exec sched) (s : sched) : exec sched :=
  match it with
  | None => Done s
  | Some p =>
      match n with
      | O => Fault OutOfFuel
      | S n => s ← f p s; t ← load h p; for_threads n h (schedNext t) f s
      end
  end.

(** ** The list of active threads *)

Definition addThreadToActiveList (atlEntry : positive) (s : sched) : exec sched :=
  d ← load_data s atlEntry;
  if getRealtime (priority d) =? REALTIME_PRIORITY_IMMEDIATE then
    l ← insert_ (curInRound s) atlEntry (activeThreads s);
    c ← it_decr l (curInRound s);
    c ← it_decr l c;
    Done (set_round l c s)
  else if getRealtime (priority d) =? REALTIME_PRIORITY_NEXT_BURST then
    temp ← it_incr (activeThreads s) (curInRound s);
    l ← insert_ temp atlEntry (activeThreads s);
    Done (set_round l (curInRound s) s)
  else
    l ← push_back atlEntry (activeThreads s);
    Done (set_round l (curInRound s) s).

Definition remThreadfromActiveList (atlEntry : positive) (s : sched) : exec sched :=
  c ← (if bool_decide (curInRound s = Some atlEntry) then it_incr (activeThreads s) (curInRound s)
       else Done (curInRound s));
  '(_, l) ← erase (Some atlEntry) (activeThreads s);
  Done (set_round l c s).

(** The sum of the priorities of the ready threads. *)
Fixpoint sum_loop (n : nat) (h : threads) (s : sched) (it : iterator) (sumPriority : Z) : exec Z :=
  match n with
  | O => Fault OutOfFuel
  | S n =>
      if bool_decide (it = end_ (activeThreads s)) then Done sumPriority
      else
        p ← deref it;
        t ← load h p;
        d ← load_data s p;
        let sumPriority :=
          if ThreadFlags.isReady (flags t) then u32 (sumPriority + (get (priority d) + 1)) else sumPriority in
        it ← it_incr (activeThreads s) it;
        sum_loop n h s it sumPriority
  end.

Definition recalculate_thread (base : base_t) (h : threads) (it : positive) (s : sched) : exec sched :=
  t ← load h it;
  store_data it (fun d => set_alfa (if ThreadFlags.isReady (flags t) then alfa_of base (get (priority d) + 1) else alfa_zero) d) s.

Definition IRQrecalculateAlfa (h : threads) (s : sched) : exec sched :=
  sumPriority ← sum_loop (S (fuel h)) h s (begin (activeThreads s)) 0;
  if sumPriority =? 0 then Done s
  else
    let base := base_of sumPriority in
    s ← for_threads (fuel h) h (threadList s) (recalculate_thread base h) s;
    Done (set_reg (set_reinit true (reg s)) s).

Definition IRQwaitStatusHook (t : positive) (h : threads) (s : sched) : exec sched :=
  tt ← load h t;
  d ← load_data s t;
  s ← (if ThreadFlags.isReady (flags tt) && negb (lastReadyStatus d) then
         s ← addThreadToActiveList t s; store_data t (set_lastReady true) s
       else if negb (ThreadFlags.isReady (flags tt)) && lastReadyStatus d then
         s ← remThreadfromActiveList t s; store_data t (set_lastReady false) s
       else Done s);
  IRQrecalculateAlfa h s.

(** ** The threads *)

(** With fixed point arithmetic, [threadListSize>=64]. *)
Definition at_limit (threadListSize : Z) : bool :=
  match max_threads with Some m => m <=? threadListSize | None => false end.

Definition PKaddThread (thread : positive) (prio : Priority) (s : sched) (h : threads) : exec (bool * sched * threads) :=
  if at_limit (threadListSize s) then Done (false, s, h)
  else
    s ← store_data thread (set_priority prio) s;
    h ← store h thread (set_schedNext (threadList s));
    let s := set_threads (Some thread) (u32 (threadListSize s + 1)) s in
    let s := set_reg (set_SP_Tr (s32 (SP_Tr (reg s) + bNominal)) (reg s)) s in
    t ← load h thread;
    s ← (if ThreadFlags.isReady (flags t) then
           s ← addThreadToActiveList thread s; store_data thread (set_lastReady true) s
         else store_data thread (set_lastReady false) s);
    s ← IRQrecalculateAlfa h s;
    Done (true, s, h).

Fixpoint exists_loop (n : nat) (h : threads) (thread : positive) (it : option positive) : exec bool :=
  match it with
  | None => Done false
  | Some p =>
      match n with
      | O => Fault OutOfFuel
      | S n =>
          t ← load h p;
          if bool_decide (p = thread) then Done (negb (ThreadFlags.isDeleted (flags t)))
          else exists_loop n h thread (schedNext t)
      end
  end.

Definition PKexists (thread : positive) (s : sched) (h : threads) : exec bool :=
  exists_loop (fuel h) h thread (threadList s).

(** One thread less in the list; the destructor and [free]. *)
Definition reclaim (toBeDeleted : positive) (l : option positive) (s : sched) : sched :=
  let s := set_threads l (u32 (threadListSize s - 1)) s in
  let s := set_reg (set_SP_Tr (s32 (SP_Tr (reg s) - bNominal)) (reg s)) s in
  set_data (delete toBeDeleted (data s)) s.

Fixpoint remove_first (n : nat) (s : sched) (h : threads) : exec (sched * threads) :=
  match threadList s with
  | None => Done (s, h)
  | Some p =>
      match n with
      | O => Fault OutOfFuel
      | S n =>
          t ← load h p;
          if ThreadFlags.isDeleted (flags t) then remove_first n (reclaim p (schedNext t) s) (delete p h)
          else Done (s, h)
      end
  end.

(** [for(Thread *it=threadList;it->schedData.next!=0;it=it->schedData.next)]: the step is made
    after a removal too. *)
Fixpoint remove_rest (n : nat) (it : option positive) (s : sched) (h : threads) : exec (sched * threads) :=
  p ← deref it;
  t ← load h p;
  match schedNext t with
  | None => Done (s, h)
  | Some q =>
      match n with
      | O => Fault OutOfFuel
      | S n =>
          tq ← load h q;
          if ThreadFlags.isDeleted (flags tq) then
            h ← store h p (set_schedNext (schedNext tq));
            remove_rest n (schedNext tq) (reclaim q (threadList s) s) (delete q h)
          else remove_rest n (Some q) s h
      end
  end.

Definition PKremoveDeadThreads (s : sched) (h : threads) : exec (sched * threads) :=
  '(s, h) ← remove_first (fuel h) s h;
  '(s, h) ← (match threadList s with Some p => remove_rest (fuel h) (Some p) s h | None => Done (s, h) end);
  s ← IRQrecalculateAlfa h s;
  Done (s, h).

Definition PKsetPriority (thread : positive) (newPriority : Priority) (s : sched) (h : threads) : exec sched :=
  s ← store_data thread (set_priority newPriority) s;
  IRQrecalculateAlfa h s.

Definition getPriority (thread : positive) (s : sched) : exec Priority :=
  d ← load_data s thread; Done (priority d).

Definition IRQsetIdleThread (idleThread : positive) (s : sched) : exec sched :=
  s ← store_data idleThread (set_priority (Priority_short (-1))) s;
  let s := set_idle (Some idleThread) s in
  if negb (threadListSize s =? 1) then errorHandler UNEXPECTED
  else Done (set_round (activeThreads s) (end_ (activeThreads s)) s).

(** ** The regulator *)

(** [min(max(b,bMin*multFactor),bMax*multFactor)] *)
Definition saturate (b : Z) : Z := Z.min (Z.max b (bMin * multFactor)) (bMax * multFactor).

(** A thread's burst from the time of the next round: the set point, and a step of the
    integral regulator. *)
Definition regulate_thread (nextRoundTime : Z) (it : positive) (s : sched) : exec sched :=
  store_data it (fun d =>
    let sp := set_point (alfa d) nextRoundTime in
    let eTp := s32 (sp - Tp d) in
    set_burst sp (saturate (s32 (bo d + eTp))) d) s.

Definition restart_thread (it : positive) (s : sched) : exec sched :=
  store_data it (fun d =>
    let sp := start_point (alfa d) (SP_Tr (reg s)) in
    set_burst sp (saturate (s32 (sp * multFactor))) d) s.

Definition IRQrunRegulator (allReadyThreadsSaturated : bool) (h : threads) (s : sched) : exec sched :=
  let g := set_Tr (limit_Tr (Tr (reg s))) (reg s) in
  if reinitRegulator g then
    let s := set_reg (mkRegulator (SP_Tr g) 0 0 0 false) s in
    for_threads (fuel h) h (threadList s) restart_thread s
  else
    let eTr := s32 (SP_Tr g - Tr g) in
    let bc := burst_correction (bco g) eTr (eTro g) in
    let b := if allReadyThreadsSaturated && negb (bc <? bco g) then bco g else bc in
    let b := Z.min (Z.max b (s32 (- Tr g))) (s32 (u32 (bMax * threadListSize s))) in
    let nextRoundTime := s32 (Tr g + b) in
    let s := set_reg (mkRegulator (SP_Tr g) 0 b eTr (reinitRegulator g)) s in
    for_threads (fuel h) h (threadList s) (regulate_thread nextRoundTime) s.

(** ** The choice of the next thread *)

Definition IRQgetNextPreemption (s : sched) : Z := nextPreemption s.

Definition IRQsetNextPreemptionForIdle (env : sched_env) (s : sched) : sched :=
  set_preemption (burstStart s) (default INT64_MAX (firstWakeup env)) s.

(** [time] is the time when it is called. *)
Definition IRQsetNextPreemption (env : sched_env) (time burst : Z) (s : sched) : sched :=
  set_preemption time (Z.min (default INT64_MAX (firstWakeup env)) (s64 (time + burst))) s.

(** [allReadyThreadsSaturated] *)
Fixpoint saturated_loop (n : nat) (s : sched) (it : iterator) : exec bool :=
  match n with
  | O => Fault OutOfFuel
  | S n =>
      if bool_decide (it = end_ (activeThreads s)) then Done true
      else
        p ← deref it;
        d ← load_data s p;
        if bo d <? bMax * multFactor then Done false
        else it ← it_incr (activeThreads s) it; saturated_loop n s it
  end.

(** The real burst of the thread that ran. *)
Definition account (time : Z) (cur : positive) (s : sched) : exec sched :=
  if bool_decide (Some cur = idle s) then Done s
  else
    let v := s32 (s64 (time - burstStart s)) in
    s ← store_data cur (set_Tp v) s;
    Done (set_reg (set_Tr (s32 (Tr (reg s) + v)) (reg s)) s).

(** The thread at [curInRound] runs. *)
Definition start_burst (env : sched_env) (laterTime : Z) (r : running) (h : threads) (s : sched) : exec (Z * running * sched) :=
  p ← deref (curInRound s);
  t ← load h p;
  if ThreadFlags.isReady (flags t) then
    d ← load_data s p;
    Done (0, Running p (ThreadFlags.isInUserspace (flags t)), IRQsetNextPreemption env laterTime (Z.quot (bo d) multFactor) s)
  else Done (UINT_MAX, r, s).

(** Every path of the body of [for(;;)] returns.  [laterTime] is the time
    when the burst starts. *)
Definition IRQfindNextThread (env : sched_env) (laterTime : Z) (r : running) (s : sched) (h : threads) : exec (Z * running * sched) :=
  if negb (kernel_running env =? 0) then Done (0, r, s)
  else
    s ← account (IRQgetTime env) (cur r) s;
    let l := activeThreads s in
    c ← (if bool_decide (curInRound s = end_ l) then Done (curInRound s) else it_incr l (curInRound s));
    let s := set_round l c s in
    if bool_decide (c = end_ l) && IntrusiveList.empty l then
      i ← deref (idle s);
      Done (0, Running i false, IRQsetNextPreemptionForIdle env s)
    else
      s ← (if bool_decide (c = end_ l) then
             saturated ← saturated_loop (S (fuel h)) s (begin l);
             IRQrunRegulator saturated h (set_round l (Some (front l)) s)
           else Done s);
      start_burst env laterTime r h s.

(** ** The round

    What the list of active threads and the position in it mean: the threads of this
    round that had their turn, the one that has it, and those still to come.
    Without a thread that has it the next turn starts a new round. *)
Record round := Round { past : list positive; now : option positive; todo : list positive }.

Definition ahead (r : round) : list positive := option_list (now r) ++ todo r.
Definition members (r : round) : list positive := past r ++ ahead r.

(** Where a thread that becomes ready is put: before the rest of the round and ahead of
    the thread that has its turn, which will have it again; after it; at the end. *)
Definition join (realtime : Z) (x : positive) (r : round) : round :=
  if realtime =? REALTIME_PRIORITY_IMMEDIATE then
    match reverse (past r) with
    | [] => Round (x :: ahead r) None []
    | y :: p => Round (reverse p) (Some y) (x :: ahead r)
    end
  else if realtime =? REALTIME_PRIORITY_NEXT_BURST then
    match now r with
    | Some _ => Round (past r) (now r) (x :: todo r)
    | None => Round (x :: past r) None []
    end
  else
    match now r with
    | Some _ => Round (past r) (now r) (todo r ++ [x])
    | None => Round (past r ++ [x]) None []
    end.

(** A thread that is no longer ready: when it has the turn, the turn goes to the next one. *)
Definition leave (x : positive) (r : round) : round :=
  if bool_decide (now r = Some x) then
    match todo r with [] => Round (past r) None [] | y :: t => Round (past r) (Some y) t end
  else Round (filter (fun y => y <> x) (past r)) (now r) (filter (fun y => y <> x) (todo r)).

(** The next turn. *)
Definition advance (r : round) : round :=
  match todo r with
  | y :: t => Round (past r ++ option_list (now r)) (Some y) t
  | [] => match past r ++ option_list (now r) with [] => Round [] None [] | x :: l => Round [] (Some x) l end
  end.

(** The list and the iterator are at a round. *)
Record at_round (l : IntrusiveList.state) (c : iterator) (r : round) : Prop := AtRound {
  ar_rep : IntrusiveList.rep l (members r);
  ar_cur : c = Some (default (emptyListItem l) (now r));
  ar_end : now r = None -> todo r = [];
}.

Lemma at_round_head l c r : at_round l c r -> c = Some (default (emptyListItem l) (list.head (ahead r))).
Proof. intros [_ -> He]. unfold ahead. destruct (now r); simpl; [done|]. by rewrite He. Qed.

Lemma rep_end l xs : IntrusiveList.rep l xs -> emptyListItem l ∉ xs.
Proof. intros Hr. by pose proof (IntrusiveList.rep_nodup _ _ Hr) as [? _]%NoDup_cons. Qed.

Lemma incr_at l a x b :
  IntrusiveList.rep l (a ++ x :: b) -> it_incr l (Some x) = Done (Some (default (emptyListItem l) (list.head b))).
Proof. intros [Hs _ _ _]. apply seg_link in Hs as [Hn _]. unfold it_incr. simpl. by rewrite Hn. Qed.

Lemma incr_end l xs :
  IntrusiveList.rep l xs -> it_incr l (Some (emptyListItem l)) = Done (Some (default (emptyListItem l) (list.head xs))).
Proof. intros [Hs _ _ _]. apply seg_next in Hs. unfold it_incr. simpl. by rewrite Hs. Qed.

Lemma decr_at l a b :
  IntrusiveList.rep l (a ++ b) ->
  it_decr l (Some (default (emptyListItem l) (list.head b))) = Done (Some (default (emptyListItem l) (last a))).
Proof.
  intros [Hs _ _ _]. unfold it_decr. simpl. destruct b as [|x b]; simpl.
  - rewrite app_nil_r in Hs. apply seg_prev in Hs. by rewrite Hs.
  - apply seg_link in Hs as [_ Hp]. by rewrite Hp.
Qed.

Lemma members_now r c : now r = Some c -> members r = past r ++ c :: todo r.
Proof. intros E. unfold members, ahead. by rewrite E. Qed.

Lemma members_end r : now r = None -> todo r = [] -> members r = past r.
Proof. intros E Ht. unfold members, ahead. by rewrite E, Ht, app_nil_r. Qed.

Lemma ar_now_ne l c r x : at_round l c r -> now r = Some x -> x <> emptyListItem l.
Proof.
  intros Ha Hx ->. apply (rep_end l (members r)); [by apply Ha|].
  rewrite (members_now _ _ Hx). set_solver.
Qed.

(** The position is the end exactly when no thread has the turn. *)
Lemma at_end l c r : at_round l c r -> bool_decide (c = end_ l) = bool_decide (now r = None).
Proof.
  intros Ha. pose proof Ha as [_ -> _]. apply bool_decide_ext. unfold end_.
  destruct (now r) as [x|] eqn:E; simpl; [|done]. split; [|done]. intros [= ->].
  by destruct (ar_now_ne _ _ _ _ Ha E).
Qed.

Lemma elem_of_join rt x r p : (now r = None -> todo r = []) -> p ∈ members (join rt x r) <-> p = x \/ p ∈ members r.
Proof.
  intros He. unfold join, members, ahead. repeat case_match; simpl.
  - assert (past r = []) as -> by (by apply (inj reverse)). rewrite ?app_nil_r. set_solver.
  - assert (past r = reverse (reverse (past r))) as Hp by by rewrite reverse_involutive.
    rewrite H1, reverse_cons in Hp. rewrite Hp. set_solver.
  - set_solver.
  - rewrite He by done. set_solver.
  - set_solver.
  - rewrite He by done. set_solver.
Qed.

Lemma elem_of_leave x r p :
  NoDup (members r) -> (now r = None -> todo r = []) -> p ∈ members (leave x r) <-> p <> x /\ p ∈ members r.
Proof.
  intros Hnd He. unfold leave. case_bool_decide as Hx.
  - rewrite (members_now _ _ Hx) in *. apply NoDup_app in Hnd as (_ & Hd & [Hx' _]%NoDup_cons).
    assert (x ∉ past r) by (intros Hin; apply (Hd x Hin); set_solver).
    destruct (todo r) as [|y t]; unfold members, ahead; simpl; set_solver.
  - unfold members, ahead. simpl. rewrite !elem_of_app, !list_elem_of_filter.
    destruct (now r) as [y|]; simpl; set_solver.
Qed.

Lemma elem_of_advance r p : (now r = None -> todo r = []) -> p ∈ members (advance r) <-> p ∈ members r.
Proof.
  intros He. unfold advance, members, ahead. destruct (todo r) as [|y t] eqn:Et; simpl.
  - destruct (past r ++ option_list (now r)) as [|x l] eqn:E; simpl; rewrite !app_nil_r, E; simpl; set_solver.
  - destruct (now r); simpl; rewrite <- ?app_assoc; set_solver.
Qed.

(** ** The operations on the list follow the round *)

Lemma control_add_spec s r x d :
  at_round (activeThreads s) (curInRound s) r -> data s !! x = Some d ->
  x ∉ emptyListItem (activeThreads s) :: members r ->
  exists l c, addThreadToActiveList x s = Done (set_round l c s) /\
    emptyListItem l = emptyListItem (activeThreads s) /\ at_round l c (join (getRealtime (priority d)) x r).
Proof.
  intros Ha Hd Hx. pose proof Ha as [Hr Hc He]. unfold addThreadToActiveList, load_data. rewrite Hd. simpl.
  unfold join. destruct (Z.eqb_spec (getRealtime (priority d)) REALTIME_PRIORITY_IMMEDIATE);
    [|destruct (Z.eqb_spec (getRealtime (priority d)) REALTIME_PRIORITY_NEXT_BURST)].
  - rewrite (at_round_head _ _ _ Ha).
    destruct (insert_spec (activeThreads s) (past r) (ahead r) x Hr Hx) as (l & -> & [Hl _ [Hel _]]).
    cbn [mbind outcome_bind]. rewrite <- Hel. rewrite (decr_at l (past r ++ [x]) (ahead r)) by by rewrite <- app_assoc.
    cbn [mbind outcome_bind]. rewrite last_snoc.
    change (Some (default (emptyListItem l) (Some x))) with (Some (default (emptyListItem l) (list.head (x :: ahead r)))).
    rewrite (decr_at l (past r)) by done. cbn [mbind outcome_bind].
    eexists l, _. split; [done|]. split; [done|].
    destruct (past r) as [|y p _] using rev_ind.
    { split; [|done..]. unfold members. simpl. by rewrite app_nil_r. }
    rewrite reverse_snoc, reverse_involutive, last_snoc. split; [|done..].
    unfold members. simpl. by rewrite <- app_assoc in Hl.
  - destruct (now r) as [c|] eqn:En; simpl in Hc; rewrite Hc.
    + rewrite (members_now _ _ En) in Hr, Hx. rewrite (incr_at _ _ _ _ Hr). simpl.
      rewrite cons_middle, app_assoc in Hr, Hx.
      destruct (insert_spec (activeThreads s) (past r ++ [c]) (todo r) x Hr Hx) as (l & -> & [Hl _ [Hel _]]).
      simpl. eexists l, _. split; [done|]. split; [done|]. split; [|done..]. by rewrite <- app_assoc in Hl.
    + rewrite (members_end _ En (He eq_refl)) in Hr, Hx. rewrite (incr_end _ _ Hr). simpl.
      destruct (insert_spec (activeThreads s) [] (past r) x Hr Hx) as (l & -> & [Hl _ [Hel _]]).
      simpl. eexists l, _. split; [done|]. split; [done|]. split; [|by rewrite Hel|done].
      unfold members. simpl. by rewrite app_nil_r.
  - destruct (push_back_spec (activeThreads s) (members r) x Hr Hx) as (l & -> & [Hl _ [Hel _]]). simpl.
    eexists l, _. split; [done|]. split; [done|]. rewrite Hc, <- Hel.
    destruct (now r) as [c|] eqn:En.
    + split; [|done..]. by rewrite (members_now _ _ En), <- app_assoc in Hl.
    + split; [|done..]. rewrite (members_end _ En (He eq_refl)) in Hl. unfold members. simpl. by rewrite app_nil_r.
Qed.

Lemma erase_keeps l xs x :
  IntrusiveList.rep l xs -> x ∈ xs ->
  exists i l', erase (Some x) l = Done (i, l') /\ emptyListItem l' = emptyListItem l /\
    IntrusiveList.rep l' (filter (fun y => y <> x) xs).
Proof.
  intros Hr (a & b & ->)%list_elem_of_split. pose proof (IntrusiveList.rep_nodup _ _ Hr) as Hnd.
  destruct (erase_spec l a x b Hr) as (l' & E & [Hl _ [Hel _]]). do 2 eexists. split; [exact E|]. split; [done|].
  apply NoDup_cons in Hnd as [_ Hnd]. apply NoDup_app in Hnd as (_ & Hd & [Hb _]%NoDup_cons).
  rewrite filter_app, filter_cons_False by tauto.
  rewrite !filter_ne_id by (done || (intros Hin; apply (Hd x Hin); set_solver)). done.
Qed.

Lemma rem_spec s r x :
  at_round (activeThreads s) (curInRound s) r -> x ∈ members r ->
  exists l c, remThreadfromActiveList x s = Done (set_round l c s) /\
    emptyListItem l = emptyListItem (activeThreads s) /\ at_round l c (leave x r).
Proof.
  intros Ha Hx. pose proof Ha as [Hr Hc He]. unfold remThreadfromActiveList, leave.
  destruct (erase_keeps _ _ _ Hr Hx) as (i & l & Hera & Hel & Hl).
  assert (Hb : bool_decide (curInRound s = Some x) = bool_decide (now r = Some x)).
  { apply bool_decide_ext. rewrite Hc. destruct (now r) as [c|]; simpl; [done|]. split; [|done].
    intros [= <-]. by destruct (rep_end _ _ Hr). }
  rewrite Hb. clear Hb. case_bool_decide as Hn.
  - rewrite (members_now _ _ Hn) in *. rewrite Hn in Hc. simpl in Hc. rewrite Hc, (incr_at _ _ _ _ Hr). simpl. rewrite Hera. simpl.
    eexists l, _. split; [done|]. split; [done|]. rewrite <- Hel.
    pose proof (IntrusiveList.rep_nodup _ _ Hr) as Hnd.
    apply NoDup_cons in Hnd as [_ Hnd]. apply NoDup_app in Hnd as (_ & Hd & [Hb' _]%NoDup_cons).
    rewrite filter_app, filter_cons_False, !filter_ne_id in Hl by (tauto || done || (intros Hin; apply (Hd x Hin); set_solver)).
    destruct (todo r) as [|y t]; split; try done; unfold members, ahead; simpl.
    all: by rewrite ?app_nil_r in *.
  - simpl. rewrite Hera. simpl. eexists l, _. split; [done|]. split; [done|]. split; simpl.
    + unfold members, ahead in *. rewrite !filter_app in Hl. destruct (now r) as [c|]; simpl in *; [|done].
      rewrite filter_cons_True in Hl by congruence. done.
    + by rewrite Hel.
    + intros Hnone. by rewrite He.
Qed.

Lemma advance_spec l c r :
  at_round l c r ->
  exists c', (if bool_decide (c = end_ l) then Done c else it_incr l c) = Done c' /\
    (if bool_decide (c' = end_ l)
     then todo r = [] /\ past r ++ option_list (now r) = members r
     else at_round l c' (advance r) /\ now (advance r) = list.head (todo r)).
Proof.
  intros Ha. rewrite (at_end _ _ _ Ha). pose proof Ha as [Hr Hc He]. destruct (now r) as [x|] eqn:En; simpl.
  - rewrite (members_now _ _ En) in Hr. simpl in Hc. rewrite Hc, (incr_at _ _ _ _ Hr). eexists. split; [done|].
    assert (Hne := rep_end _ _ Hr). unfold end_, advance. rewrite En.
    destruct (todo r) as [|y t] eqn:Et; simpl.
    + rewrite bool_decide_true by done. by rewrite (members_now _ _ En), Et.
    + rewrite bool_decide_false by set_solver. split; [|done]. split; [|done..].
      unfold members, ahead. simpl. by rewrite <- app_assoc.
  - eexists. split; [done|]. rewrite Hc. unfold end_. simpl.
    rewrite bool_decide_true by done. rewrite app_nil_r. split; [by apply He|]. by rewrite (members_end r En (He eq_refl)).
Qed.

(** ** Bursts and shares *)

Definition in_bounds (b : Z) : Prop := bMin * multFactor <= b <= bMax * multFactor.
Definition bursts (s : sched) : Prop := forall p d, data s !! p = Some d -> in_bounds (bo d).

Lemma saturate_bounds b : in_bounds (saturate b).
Proof. unfold in_bounds, saturate, bMin, bMax, multFactor. lia. Qed.

Lemma burst_bounds b : in_bounds b -> bMin <= Z.quot b multFactor <= bMax.
Proof.
  unfold in_bounds, multFactor, bMin, bMax. intros [? ?]. rewrite Z.quot_div_nonneg by lia.
  split; [apply Z.div_le_lower_bound|apply Z.div_le_upper_bound]; lia.
Qed.

(** *** What the computation of the bursts leaves alone *)

Definition view (d : ControlSchedulerData) : Priority * bool := (priority d, lastReadyStatus d).
Definition static (s : sched) :=
  (threadList s, threadListSize s, idle s, SP_Tr (reg s), activeThreads s, curInRound s).

Record keeps (s s' : sched) : Prop := Keeps {
  keeps_static : static s' = static s;
  keeps_data p : view <$> data s' !! p = view <$> data s !! p;
  keeps_bursts : bursts s -> bursts s';
}.

#[local] Instance keeps_preorder : PreOrder keeps.
Proof.
  split; [by split|]. intros s1 s2 s3 [E1 D1 B1] [E2 D2 B2]. split; [congruence|intros p; by rewrite D2, D1|auto].
Qed.

Lemma keeps_present s s' p : keeps s s' -> is_Some (data s !! p) -> is_Some (data s' !! p).
Proof. intros [_ D _] Hp. specialize (D p). destruct (data s' !! p); [done|]. destruct Hp as [d Hp]. by rewrite Hp in D. Qed.

Lemma keeps_set_reg s g : SP_Tr g = SP_Tr (reg s) -> keeps s (set_reg g s).
Proof. intros E. split; [|done..]. unfold static. simpl. by rewrite E. Qed.

Lemma store_spec s p f d : data s !! p = Some d -> store_data p f s = Done (set_data (<[p := f d]> (data s)) s).
Proof. intros Hp. unfold store_data, load_data. by rewrite Hp. Qed.

Lemma keeps_store s p f :
  (forall d, view (f d) = view d) -> (forall d, in_bounds (bo d) -> in_bounds (bo (f d))) -> is_Some (data s !! p) ->
  exists s', store_data p f s = Done s' /\ keeps s s'.
Proof.
  intros Hv Hb [d Hp]. rewrite (store_spec _ _ _ _ Hp). eexists. split; [done|]. split; [done| |].
  - intros q. simpl. rewrite lookup_insert. case_decide as E; [|done]. rewrite <- E, Hp. simpl. by rewrite Hv.
  - intros Hs q dq. simpl. rewrite lookup_insert. case_decide; [intros [= <-]; by apply Hb, (Hs p)|apply Hs].
Qed.

Lemma for_threads_keeps n h q xs f s :
  path h q xs -> (length xs <= n)%nat ->
  (forall p s', p ∈ xs -> keeps s s' -> exists s'', f p s' = Done s'' /\ keeps s' s'') ->
  exists s', for_threads n h q f s = Done s' /\ keeps s s'.
Proof.
  revert q n s. induction xs as [|x xs IH]; intros q n s Hp Hn Hf.
  { simpl in Hp. subst q. exists s. by destruct n. }
  apply path_cons in Hp as (-> & t & Ht & Hp). destruct n as [|n]; [simpl in Hn; lia|]. simpl.
  destruct (Hf x s) as (s1 & -> & Hk); [set_solver|done|]. simpl. rewrite (load_Some _ _ _ Ht). simpl.
  destruct (IH (schedNext t) n s1) as (s' & -> & Hk'); [done|simpl in Hn; lia| |].
  - intros p s' Hin Hs. apply Hf; [set_solver|by transitivity s1].
  - exists s'. split; [done|by transitivity s1].
Qed.

(** The walks of the list of active threads. *)
Section walks.
Context (h : threads) (s : sched).

Lemma sum_loop_done n b : forall a acc,
  IntrusiveList.rep (activeThreads s) (a ++ b) -> (forall p, p ∈ b -> is_Some (h !! p) /\ is_Some (data s !! p)) ->
  (length b < n)%nat ->
  exists v, sum_loop n h s (Some (default (emptyListItem (activeThreads s)) (list.head b))) acc = Done v.
Proof.
  revert b. induction n as [|n IH]; intros b a acc Hr Hb Hn; [lia|].
  destruct b as [|x b]; simpl; unfold end_.
  { rewrite bool_decide_true by done. by eexists. }
  rewrite bool_decide_false by (intros [= ->]; apply (rep_end _ _ Hr); set_solver). simpl.
  destruct (Hb x) as [[t Ht] [d Hd]]; [set_solver|]. rewrite (load_Some _ _ _ Ht). unfold load_data. rewrite Hd. simpl.
  pose proof (incr_at _ _ _ _ Hr) as Ei. unfold it_incr in Ei. simpl in Ei. injection Ei as ->.
  apply (IH b (a ++ [x])); [by rewrite <- app_assoc|set_solver|simpl in Hn; lia].
Qed.

Lemma saturated_loop_done n b : forall a,
  IntrusiveList.rep (activeThreads s) (a ++ b) -> (forall p, p ∈ b -> is_Some (data s !! p)) -> (length b < n)%nat ->
  exists v, saturated_loop n s (Some (default (emptyListItem (activeThreads s)) (list.head b))) = Done v.
Proof.
  revert b. induction n as [|n IH]; intros b a Hr Hb Hn; [lia|].
  destruct b as [|x b]; simpl; unfold end_.
  { rewrite bool_decide_true by done. by eexists. }
  rewrite bool_decide_false by (intros [= ->]; apply (rep_end _ _ Hr); set_solver). simpl.
  destruct (Hb x) as [d Hd]; [set_solver|]. unfold load_data. rewrite Hd. simpl. case_cmp; [by eexists|].
  pose proof (incr_at _ _ _ _ Hr) as Ei. unfold it_incr in Ei. simpl in Ei. injection Ei as ->.
  apply (IH b (a ++ [x])); [by rewrite <- app_assoc|set_solver|simpl in Hn; lia].
Qed.

End walks.

#[local] Opaque fuel.

(** *** The computations are done whatever the arithmetic gives

    The threads are [xs], and those of the round are among them. *)
Record linked (s : sched) (h : threads) (xs ms : list positive) : Prop := Linked {
  linked_path : path h (threadList s) xs;
  linked_nodup : NoDup xs;
  linked_present p : p ∈ xs -> is_Some (h !! p) /\ is_Some (data s !! p);
  linked_active : IntrusiveList.rep (activeThreads s) ms;
  linked_members p : p ∈ ms -> p ∈ xs;
}.

Lemma linked_fuel s h xs ms : linked s h xs ms -> (length xs <= fuel h)%nat /\ (length ms < S (fuel h))%nat.
Proof.
  intros [Hp Hn _ Ha Hm]. pose proof (path_length _ _ _ Hp Hn). change (fuel h) with (S (size h)). split; [lia|].
  pose proof (IntrusiveList.rep_nodup _ _ Ha) as [_ Hnd]%NoDup_cons.
  assert (length ms <= length xs)%nat; [|lia]. apply submseteq_length, NoDup_submseteq; done.
Qed.

Lemma linked_begin s h xs ms :
  linked s h xs ms -> begin (activeThreads s) = Some (default (emptyListItem (activeThreads s)) (list.head ms)).
Proof. intros [_ _ _ [_ _ Hh _] _]. unfold begin. by rewrite Hh. Qed.

Lemma recalculate_spec s h xs ms : linked s h xs ms -> exists s', IRQrecalculateAlfa h s = Done s' /\ keeps s s'.
Proof.
  intros Hl. pose proof (linked_fuel _ _ _ _ Hl) as [Hf Hf']. unfold IRQrecalculateAlfa. rewrite (linked_begin _ _ _ _ Hl).
  pose proof Hl as [Hp Hn Hpr Ha Hm].
  destruct (sum_loop_done h s (S (fuel h)) ms [] 0) as (v & ->); [done|auto|done|]. simpl.
  case_cmp; [by eexists|].
  destruct (for_threads_keeps (fuel h) h (threadList s) xs (recalculate_thread (base_of v) h) s) as (s' & -> & Hk); [done..| |].
  - intros p s' Hin Hk. destruct (Hpr p Hin) as [[t Ht] Hd]. unfold recalculate_thread. rewrite (load_Some _ _ _ Ht). simpl.
    apply keeps_store; [done..|]. by apply (keeps_present s).
  - simpl. eexists. split; [done|]. transitivity s'; [done|]. by apply keeps_set_reg.
Qed.

Lemma regulator_spec b s h xs ms : linked s h xs ms -> exists s', IRQrunRegulator b h s = Done s' /\ keeps s s'.
Proof.
  intros Hl. pose proof (linked_fuel _ _ _ _ Hl) as [Hf _]. pose proof Hl as [Hp Hn Hpr Ha Hm]. unfold IRQrunRegulator.
  assert (Hall : forall g f, SP_Tr g = SP_Tr (reg s) ->
    (forall p s', exists k, f p s' = store_data p k s' /\ (forall d, view (k d) = view d) /\ forall d, in_bounds (bo (k d))) ->
    exists s', for_threads (fuel h) h (threadList s) f (set_reg g s) = Done s' /\ keeps s s').
  { intros g f Hg Hs. destruct (for_threads_keeps (fuel h) h (threadList s) xs f (set_reg g s)) as (s' & -> & Hk); [done..| |].
    - intros p s' Hin Hk. destruct (Hs p s') as (k & -> & Hv & Hb). apply keeps_store; [done|by intros|].
      apply (keeps_present (set_reg g s)); [done|by apply Hpr].
    - exists s'. split; [done|]. transitivity (set_reg g s); [by apply keeps_set_reg|done]. }
  destruct (reinitRegulator _); apply Hall; try done; intros p s'; (eexists; split; [reflexivity|]); split; try done;
    intros d; apply saturate_bounds.
Qed.

(** ** Programs over the scheduler

    What the kernel does: create a thread (with the flags [f]; [garbage] is what memory
    held), change flags of a thread, change its priority, reclaim the dead threads
    (the idle thread does it), choose the next thread to run. *)
Inductive sched_op :=
| CreateThread (t : positive) (p : Priority) (f : Z) (garbage : bool)
| SetFlags (t : positive) (o : ThreadFlags.op)
| SetPriority (t : positive) (p : Priority)
| RemoveDeadThreads
| FindNextThread (env : sched_env) (laterTime : Z).

(** The setters that call [IRQwaitStatusHook] ([kernel.cpp]). *)
Definition calls_hook (o : ThreadFlags.op) : bool :=
  match o with
  | ThreadFlags.SetWait _ | ThreadFlags.SetJoinWait _ | ThreadFlags.SetCondWait _ | ThreadFlags.SetSleep _
  | ThreadFlags.SetDeleted => true
  | _ => false
  end.

Definition setFlags (t : positive) (o : ThreadFlags.op) (s : sched) (h : threads) : exec (sched * threads) :=
  h ← store h t (Threads.set_flags (ThreadFlags.run o));
  s ← (if calls_hook o then IRQwaitStatusHook t h s else Done s);
  Done (s, h).

(** [Thread::create], after the memory is allocated: when the thread is refused it is freed. *)
Definition create (t : positive) (p : Priority) (f : Z) (garbage : bool) (s : sched) (h : threads) : exec (sched * threads) :=
  let s := set_data (<[t := new_data garbage]> (data s)) s in
  let h := <[t := Threads.set_flags (fun _ => f) (new_Thread 0)]> h in
  '(added, s, h) ← PKaddThread t p s h;
  if added : bool then Done (s, h) else Done (set_data (delete t (data s)) s, delete t h).

Definition run_op (o : sched_op) (s : sched) (h : threads) (r : running) : exec (sched * threads * running) :=
  match o with
  | CreateThread t p f g => '(s, h) ← create t p f g s h; Done (s, h, r)
  | SetFlags t o => '(s, h) ← setFlags t o s h; Done (s, h, r)
  | SetPriority t p => s ← PKsetPriority t p s h; Done (s, h, r)
  | RemoveDeadThreads => '(s, h) ← PKremoveDeadThreads s h; Done (s, h, r)
  | FindNextThread env later => '(_, r, s) ← IRQfindNextThread env later r s h; Done (s, h, r)
  end.

(** The trace has the threads chosen, with the time of the next preemption. *)
Fixpoint run_prog (ops : list sched_op) (s : sched) (h : threads) (r : running)
    : exec (sched * threads * running * list (positive * Z)) :=
  match ops with
  | [] => Done (s, h, r, [])
  | o :: ops =>
      '(s, h, r) ← run_op o s h r;
      '(s', h', r', trace) ← run_prog ops s h r;
      Done (s', h', r', match o with FindNextThread _ _ => (cur r, IRQgetNextPreemption s) :: trace | _ => trace end)
  end.

(** *** What they mean

    The threads in the order of the list, the flags and the priority of each, the
    round, and whose turn it is. *)
Record abstract := Abstract {
  all : list positive;
  status : gmap positive (Z * Priority);
  rnd : round;
  turn : positive;
}.

Definition flags_of (a : abstract) (p : positive) : Z := from_option fst 0 (status a !! p).
Definition prio_of (a : abstract) (p : positive) : Priority := from_option snd (Priority_short 0) (status a !! p).
Definition is_ready (a : abstract) (p : positive) : bool := ThreadFlags.isReady (flags_of a p).
Definition is_dead (a : abstract) (p : positive) : bool := ThreadFlags.isDeleted (flags_of a p).

(** The dead threads at the head are removed, and, after a thread that stays, a dead thread and
    not the one that follows it. *)
Fixpoint drop_dead (dead : positive -> bool) (xs : list positive) : list positive :=
  match xs with [] => [] | x :: r => if dead x then drop_dead dead r else xs end.
Fixpoint skip_dead (dead : positive -> bool) (xs : list positive) : list positive :=
  match xs with
  | [] => []
  | y :: r =>
      if dead y then match r with [] => [] | z :: r' => z :: skip_dead dead r' end
      else y :: skip_dead dead r
  end.
Definition swept (dead : positive -> bool) (xs : list positive) : list positive :=
  match drop_dead dead xs with [] => [] | x :: r => x :: skip_dead dead r end.

Lemma drop_dead_ext d d' xs : (forall q, q ∈ xs -> d q = d' q) -> drop_dead d xs = drop_dead d' xs.
Proof.
  induction xs as [|x r IH]; intros Hd; simpl; [done|]. rewrite (Hd x) by set_solver.
  destruct (d' x); [|done]. apply IH. set_solver.
Qed.

Lemma skip_dead_ext d d' : forall xs, (forall q, q ∈ xs -> d q = d' q) -> skip_dead d xs = skip_dead d' xs.
Proof.
  fix IH 1. intros [|y r] Hd; simpl; [done|]. rewrite (Hd y) by set_solver. destruct (d' y).
  - destruct r as [|z r']; [done|]. f_equal. apply IH. intros q Hq. apply Hd. set_solver.
  - f_equal. apply IH. intros q Hq. apply Hd. set_solver.
Qed.

Lemma wrapU_step w x y : wrapU w (wrapU w x + y) = wrapU w (x + y).
Proof. unfold wrapU. by rewrite Zplus_mod_idemp_l. Qed.
Lemma wrapS_step w x y : 0 < w -> wrapS w (wrapS w x + y) = wrapS w (x + y).
Proof.
  intros Hw. assert (E : wrapS w x mod 2 ^ w = x mod 2 ^ w).
  { unfold wrapS. case_cmp; [apply Zmod_mod|]. rewrite <- (Z_mod_plus_full _ 1), Z.mul_1_l, Z.sub_add. apply Zmod_mod. }
  unfold wrapS at 1 3. by rewrite <- (Zplus_mod_idemp_l (wrapS w x)), E, Zplus_mod_idemp_l.
Qed.

(** *** Reclaiming

    What the removal of the threads [D] does to the scheduler, but for the list. *)
Record removed (D : list positive) (s s' : sched) : Prop := Removed {
  removed_size n : threadListSize s = u32 n -> threadListSize s' = u32 (n - Z.of_nat (length D));
  removed_SP_Tr n : SP_Tr (reg s) = s32 n -> SP_Tr (reg s') = s32 (n - bNominal * Z.of_nat (length D));
  removed_static : (idle s', activeThreads s', curInRound s') = (idle s, activeThreads s, curInRound s);
  removed_data p : data s' !! p = if decide (p ∈ D) then None else data s !! p;
}.

Lemma removed_nil s : removed [] s s.
Proof.
  split; [| |done|intros p; by rewrite decide_False by set_solver]; intros n ->; f_equal; simpl; lia.
Qed.

Lemma removed_trans D D' s1 s2 s3 : removed D s1 s2 -> removed D' s2 s3 -> removed (D ++ D') s1 s3.
Proof.
  intros [S1 R1 E1 D1] [S2 R2 E2 D2]. split.
  - intros n Hn. rewrite (S2 _ (S1 _ Hn)), length_app. f_equal. lia.
  - intros n Hn. rewrite (R2 _ (R1 _ Hn)), length_app. f_equal. lia.
  - congruence.
  - intros p. rewrite D2, D1. repeat case_decide; try done; set_solver.
Qed.

Lemma removed_reclaim q l s : removed [q] s (reclaim q l s).
Proof.
  split; simpl.
  - intros n ->. unfold wrapU. by rewrite Zminus_mod_idemp_l.
  - intros n ->. rewrite <- !Z.add_opp_r, (wrapS_step 32) by lia. f_equal; lia.
  - done.
  - intros p. rewrite lookup_delete. repeat case_decide; set_solver.
Qed.

Lemma control_remove_first_spec n s h xs :
  path h (threadList s) xs -> NoDup xs -> (length xs <= n)%nat ->
  exists D s' h', remove_first n s h = Done (s', h') /\ xs = D ++ drop_dead (dead h) xs /\
    (forall p, p ∈ D -> dead h p = true) /\ removed D s s' /\ reclaims D h h' /\
    path h' (threadList s') (drop_dead (dead h) xs).
Proof.
  revert s h xs. induction n as [|n IH]; intros s h xs Hp Hnd Hn; (destruct xs as [|x r]; simpl in Hn; [|try lia]).
  1, 2: simpl in Hp; exists [], s, h; simpl; rewrite Hp; split_and!; try done; [set_solver|apply removed_nil|apply reclaims_refl].
  pose proof Hp as (Hq & t & Ht & Hr)%path_cons. simpl. rewrite Hq, (load_Some _ _ _ Ht). cbn [mbind outcome_bind].
  rewrite <- (dead_true _ _ _ Ht). destruct (dead h x) eqn:Ed.
  - apply NoDup_cons in Hnd as [Hx Hnd].
    assert (Hrec : reclaims [x] h (delete x h)) by apply reclaims_delete.
    assert (Hdd : forall q, q ∈ r -> dead (delete x h) q = dead h q).
    { intros q Hq'. apply (reclaims_dead [x]); [done|]. intros ->%list_elem_of_singleton. done. }
    destruct (IH (reclaim x (schedNext t) s) (delete x h) r) as (D & s' & h' & E & Hxs & HD & Hre & Hrc & Hpa); [|done|lia|].
    { eapply path_frame; [|exact Hr]. intros q Hq'. apply next_of_delete_ne. by intros ->. }
    rewrite (drop_dead_ext _ (dead h)) in Hxs, Hpa by done.
    exists (x :: D), s', h'. split_and!; [done|by simpl; f_equal| | | |done].
    + intros p [->|Hin]%elem_of_cons; [done|]. rewrite <- Hdd; [by apply HD|]. rewrite Hxs. set_solver.
    + apply (removed_trans [x] D s (reclaim x (schedNext t) s)); [apply removed_reclaim|done].
    + by apply (reclaims_trans [x] D h (delete x h)).
  - exists [], s, h. split_and!; try done; [set_solver|apply removed_nil|apply reclaims_refl].
Qed.

Lemma control_remove_rest_spec n : forall p xs s h,
  chain h p xs None -> NoDup (p :: xs) -> (length xs <= n)%nat ->
  (exists z, last (p :: xs) = Some z /\ dead h z = false) ->
  exists D s' h', remove_rest n (Some p) s h = Done (s', h') /\ threadList s' = threadList s /\
    xs ≡ₚ skip_dead (dead h) xs ++ D /\ (forall q, q ∈ D -> dead h q = true) /\
    removed D s s' /\ reclaims D h h' /\ chain h' p (skip_dead (dead h) xs) None /\
    (forall q, q ∉ p :: xs -> next_of h' q = next_of h q).
Proof.
  induction n as [|n IH]; intros p xs s h Hc Hnd Hn Hlive;
    (destruct xs as [|y r]; simpl in Hn; [|try lia]); pose proof (chain_first _ _ _ _ Hc) as (t & Ht & Hnx).
  1, 2: exists [], s, h; simpl; rewrite (load_Some _ _ _ Ht); simpl; rewrite Hnx; split_and!; try done;
    [set_solver|apply removed_nil|apply reclaims_refl].
  simpl. rewrite (load_Some _ _ _ Ht). simpl. rewrite Hnx.
  destruct (chain_in_heap _ _ _ _ y Hc) as [ty Hty]; [set_solver|]. rewrite (load_Some _ _ _ Hty). cbn [mbind outcome_bind].
  rewrite <- (dead_true _ _ _ Hty). apply NoDup_cons in Hnd as [Hpn Hnd]. destruct Hc as [_ Hc].
  destruct (dead h y) eqn:Ed.
  - destruct r as [|z r]; [destruct Hlive as (? & [= <-] & ?); congruence|].
    rewrite (store_Some _ _ _ _ Ht). cbn [mbind outcome_bind]. pose proof Hc as [Hyz Hcz].
    assert (Hz : schedNext ty = Some z) by (apply next_of_Some in Hyz as (? & ? & ?); congruence).
    rewrite Hz. apply NoDup_cons in Hnd as [Hyn Hnd].
    set (h1 := <[p := set_schedNext (Some z) t]> h).
    assert (Hrec : reclaims [y] h (delete y h1)).
    { eapply (reclaims_trans [] [y]); [by apply (reclaims_store h p t (set_schedNext (Some z) t))|apply reclaims_delete]. }
    assert (Hdd : forall q, q ∈ z :: r -> dead (delete y h1) q = dead h q).
    { intros q Hq'. apply (reclaims_dead [y]); [done|]. intros ->%list_elem_of_singleton. done. }
    assert (Hnext : forall q, q <> p -> q <> y -> next_of (delete y h1) q = next_of h q).
    { intros q Hq1 Hq2. rewrite next_of_delete_ne by done. by apply next_of_insert_ne. }
    destruct (IH z r (reclaim y (threadList s) s) (delete y h1)) as (D & s' & h' & E & Hl & Hxs & HD & Hre & Hrc & Hch & Hfr).
    { eapply chain_frame; [|exact Hcz]. intros q Hq'. apply Hnext; intros ->; set_solver. }
    { done. }
    { simpl in Hn. lia. }
    { destruct Hlive as (w & Hw & Hwd). exists w. split; [done|]. rewrite Hdd; [done|].
      apply last_Some_elem_of. by rewrite <- Hw. }
    assert (Hsk : skip_dead (dead (delete y h1)) r = skip_dead (dead h) r).
    { apply skip_dead_ext. intros q Hq'. apply Hdd. set_solver. }
    rewrite Hsk in *. exists (y :: D), s', h'. split_and!; [done|done| | | | | |].
    + rewrite Hxs at 1. simpl. rewrite <- Permutation_middle. by rewrite (Permutation_swap y z).
    + intros q [->|Hq']%elem_of_cons; [done|]. rewrite <- Hdd; [by apply HD|].
      apply elem_of_cons. right. rewrite Hxs. set_solver.
    + apply (removed_trans [y] D s (reclaim y (threadList s) s)); [apply removed_reclaim|done].
    + by apply (reclaims_trans [y] D h (delete y h1)).
    + split; [|done]. rewrite Hfr by (intros Hin; apply Hpn; set_solver).
      rewrite next_of_delete_ne by (intros ->; apply Hpn; set_solver). unfold h1. by rewrite next_of_insert.
    + intros q Hq'. rewrite Hfr by set_solver. apply Hnext; set_solver.
  - destruct (IH y r s h Hc Hnd) as (D & s' & h' & E & Hl & Hxs & HD & Hre & Hrc & Hch & Hfr); [lia|exact Hlive|].
    exists D, s', h'. split_and!; try done.
    + simpl. by rewrite Hxs at 1.
    + split; [|done]. rewrite Hfr by done. unfold next_of. rewrite Ht. simpl. by rewrite Hnx.
    + intros q Hq'. apply Hfr. set_solver.
Qed.

Section programs.
(** The item that closes the list of active threads, the idle thread, and the pointer to
    it, which is null until it is set. *)
Context (empty idleThread : positive) (idlePtr : option positive).

Definition abs_op (o : sched_op) (a : abstract) : abstract :=
  match o with
  | CreateThread t p f _ =>
      if at_limit (u32 (Z.of_nat (length (all a)))) then a
      else Abstract (t :: all a) (<[t := (f, p)]> (status a))
             (if ThreadFlags.isReady f then join (getRealtime p) t (rnd a) else rnd a) (turn a)
  | SetFlags t o =>
      let f := ThreadFlags.run o (flags_of a t) in
      Abstract (all a) (<[t := (f, prio_of a t)]> (status a))
        (if ThreadFlags.isReady f && negb (is_ready a t) then join (getRealtime (prio_of a t)) t (rnd a)
         else if negb (ThreadFlags.isReady f) && is_ready a t then leave t (rnd a)
         else rnd a) (turn a)
  | SetPriority t p => Abstract (all a) (<[t := (flags_of a t, p)]> (status a)) (rnd a) (turn a)
  | RemoveDeadThreads => Abstract (swept (is_dead a) (all a)) (status a) (rnd a) (turn a)
  | FindNextThread env _ =>
      if negb (kernel_running env =? 0) then a
      else Abstract (all a) (status a) (advance (rnd a)) (default idleThread (now (advance (rnd a))))
  end.

(** What a program can do: a new thread is at a new address; the threads are reclaimed by the
    idle thread, and the first thread (at the end of the list) is alive. *)
Definition op_ok (o : sched_op) (a : abstract) : Prop :=
  match o with
  | CreateThread t _ _ _ => t ∉ empty :: idleThread :: all a
  | SetFlags t _ | SetPriority t _ => t ∈ all a
  | RemoveDeadThreads => turn a = idleThread /\ exists l x, all a = l ++ [x] /\ is_dead a x = false
  | FindNextThread _ _ => True
  end.

Fixpoint prog_ok (ops : list sched_op) (a : abstract) : Prop :=
  match ops with [] => True | o :: ops => op_ok o a /\ prog_ok ops (abs_op o a) end.

Definition abs_prog (ops : list sched_op) (a : abstract) : abstract := fold_left (fun a o => abs_op o a) ops a.

(** Whose turn it is after each decision. *)
Fixpoint turns (ops : list sched_op) (a : abstract) : list (sched_env * Z * positive) :=
  match ops with
  | [] => []
  | o :: ops =>
      match o with
      | FindNextThread env later => (env, later, turn (abs_op o a)) :: turns ops (abs_op o a)
      | _ => turns ops (abs_op o a)
      end
  end.

(** The thread chosen is the one whose turn it is, for a burst within the limits unless a
    thread wakes up before; the idle thread until a thread wakes up. *)
Definition decided (want : sched_env * Z * positive) (got : positive * Z) : Prop :=
  let '(env, later, t) := want in
  fst got = t /\
  (kernel_running env = 0 ->
   if bool_decide (t = idleThread) then snd got = default INT64_MAX (firstWakeup env)
   else exists burst, bMin <= burst <= bMax /\
     snd got = Z.min (default INT64_MAX (firstWakeup env)) (s64 (later + burst))).

(** *** The state stands for the abstract one *)
Record rep (s : sched) (h : threads) (a : abstract) : Prop := Rep {
  rep_linked : linked s h (all a) (members (rnd a));
  rep_size : threadListSize s = u32 (Z.of_nat (length (all a)));
  rep_SP_Tr : SP_Tr (reg s) = s32 (bNominal * Z.of_nat (length (all a)));
  rep_round : at_round (activeThreads s) (curInRound s) (rnd a);
  rep_empty : emptyListItem (activeThreads s) = empty /\ empty ∉ all a;
  rep_idle : idle s = idlePtr /\ idleThread ∉ all a;
  rep_idle_data : is_Some (data s !! idleThread);
  rep_status p : p ∈ all a -> status a !! p = Some (flags_of a p, prio_of a p) /\
    flags <$> h !! p = Some (flags_of a p) /\ view <$> data s !! p = Some (prio_of a p, is_ready a p);
  rep_ready p : p ∈ members (rnd a) <-> p ∈ all a /\ is_ready a p = true;
  rep_turn : turn a = idleThread \/ turn a ∈ all a;
  rep_bursts : bursts s;
}.

(** ** The operations implement their meaning *)

Lemma rep_keeps s s' h a : keeps s s' -> rep s h a -> rep s' h a.
Proof.
  intros Hk [[] ?????????]. pose proof Hk as [[= E1 E2 E3 E4 E5 E6] D B].
  split; rewrite ?E2, ?E3, ?E4, ?E5, ?E6; auto.
  - split; rewrite ?E1, ?E5; auto. intros p Hp. split; [by apply linked_present0|]. by apply (keeps_present s), linked_present0.
  - by apply (keeps_present s).
  - intros p Hp. rewrite D. auto.
Qed.

Lemma recalculate_rep s h a : rep s h a -> exists s', IRQrecalculateAlfa h s = Done s' /\ rep s' h a.
Proof.
  intros Hr. destruct (recalculate_spec s h _ _ (rep_linked _ _ _ Hr)) as (s' & E & Hk).
  exists s'. split; [done|]. by eapply rep_keeps.
Qed.

Lemma flags_of_insert xs st rd tu t f p a q :
  st = status a -> flags_of (Abstract xs (<[t := (f, p)]> st) rd tu) q = if decide (t = q) then f else flags_of a q.
Proof. intros ->. unfold flags_of. simpl. rewrite lookup_insert. by case_decide. Qed.
Lemma prio_of_insert xs st rd tu t f p a q :
  st = status a -> prio_of (Abstract xs (<[t := (f, p)]> st) rd tu) q = if decide (t = q) then p else prio_of a q.
Proof. intros ->. unfold prio_of. simpl. rewrite lookup_insert. by case_decide. Qed.

Lemma is_ready_insert xs st rd tu t f p a q :
  st = status a ->
  is_ready (Abstract xs (<[t := (f, p)]> st) rd tu) q = if decide (t = q) then ThreadFlags.isReady f else is_ready a q.
Proof. intros Ha. unfold is_ready. rewrite (flags_of_insert _ _ _ _ _ _ _ a) by done. by case_decide. Qed.

Lemma rep_thread s h a p :
  rep s h a -> p ∈ all a -> exists t d, h !! p = Some t /\ data s !! p = Some d /\
    flags t = flags_of a p /\ view d = (prio_of a p, is_ready a p) /\ in_bounds (bo d).
Proof.
  intros Hr Hp. destruct (rep_status _ _ _ Hr p Hp) as (_ & (t & Ht & Ef)%fmap_Some & (d & Hd & Ev)%fmap_Some).
  exists t, d. pose proof (rep_bursts _ _ _ Hr p d Hd). done.
Qed.

(** The flags and the priority of a thread change, and its place in the round. *)
Lemma rep_change s h a t tt d f p d' l c rd :
  rep s h a -> t ∈ all a -> h !! t = Some tt -> data s !! t = Some d ->
  view d' = (p, ThreadFlags.isReady f) -> bo d' = bo d ->
  emptyListItem l = empty -> at_round l c rd ->
  (forall q, q ∈ members rd <-> q ∈ all a /\ (if decide (t = q) then ThreadFlags.isReady f else is_ready a q) = true) ->
  rep (set_data (<[t := d']> (data s)) (set_round l c s)) (<[t := Threads.set_flags (fun _ => f) tt]> h)
    (Abstract (all a) (<[t := (f, p)]> (status a)) rd (turn a)).
Proof.
  intros Hr Hin Ht Hd Hv Hb Hel Ha Hm. pose proof Hr as [[Hp Hnd Hpr _ _] Hsz Hsp _ [_ He] Hi Hid Hst _ Htu Hbu].
  split; simpl; try done.
  - split; simpl; [|done| |by apply Ha|naive_solver].
    + eapply path_frame; [|exact Hp]. intros q _. unfold next_of. rewrite lookup_insert. case_decide as E; [|done].
      by rewrite <- E, Ht.
    + intros q Hq. rewrite !lookup_insert. case_decide; [done|]. by apply Hpr.
  - rewrite lookup_insert. by case_decide.
  - intros q Hq. rewrite (flags_of_insert _ _ _ _ _ _ _ a), (prio_of_insert _ _ _ _ _ _ _ a), (is_ready_insert _ _ _ _ _ _ _ a) by done.
    rewrite !lookup_insert. case_decide; [|by apply Hst]. simpl. by rewrite Hv.
  - intros q. rewrite (is_ready_insert _ _ _ _ _ _ _ a) by done. apply Hm.
  - intros q dq. simpl. rewrite lookup_insert. case_decide; [|apply Hbu]. intros [= <-]. rewrite Hb. by apply (Hbu t).
Qed.

(** A thread that changes its flags is put in the list, or taken from it, when it
    becomes ready or stops being ready. *)
Lemma switch_spec s h a t tt d f :
  rep s h a -> t ∈ all a -> h !! t = Some tt -> data s !! t = Some d ->
  exists s1,
    (if ThreadFlags.isReady f && negb (lastReadyStatus d) then
       s ← addThreadToActiveList t s; store_data t (set_lastReady true) s
     else if negb (ThreadFlags.isReady f) && lastReadyStatus d then
       s ← remThreadfromActiveList t s; store_data t (set_lastReady false) s
     else Done s) = Done s1 /\
    rep s1 (<[t := Threads.set_flags (fun _ => f) tt]> h)
      (Abstract (all a) (<[t := (f, prio_of a t)]> (status a))
        (if ThreadFlags.isReady f && negb (is_ready a t) then join (getRealtime (prio_of a t)) t (rnd a)
         else if negb (ThreadFlags.isReady f) && is_ready a t then leave t (rnd a)
         else rnd a) (turn a)).
Proof.
  intros Hr Hin Ht Hd. destruct (rep_thread _ _ _ _ Hr Hin) as (tt' & d' & Ht' & Hd' & _ & [= Ep El] & Hb). simplify_eq.
  pose proof (rep_round _ _ _ Hr) as Har. pose proof (ar_end _ _ _ Har) as Hend.
  destruct (rep_empty _ _ _ Hr) as [Ee He]. pose proof (rep_ready _ _ _ Hr) as Hrd.
  rewrite El. destruct (ThreadFlags.isReady f) eqn:Ef, (is_ready a t) eqn:Er; cbn [andb negb].
  1, 4: exists s; split; [done|];
    replace s with (set_data (<[t := d]> (data s)) (set_round (activeThreads s) (curInRound s) s)) at 1
      by (rewrite insert_id by done; by destruct s);
    eapply rep_change; try done; [by unfold view; rewrite Ep, El, Ef|];
    intros q; rewrite Hrd; case_decide as Eq; [by rewrite <- Eq, Er, Ef|done].
  - destruct (control_add_spec s (rnd a) t d Har Hd) as (l & c & -> & Hel & Ha).
    { rewrite Ee. apply not_elem_of_cons. split; [by intros ->|]. rewrite Hrd. naive_solver congruence. }
    simpl. rewrite (store_spec _ _ _ d) by done. eexists. split; [done|]. rewrite Ep in Ha.
    apply (rep_change s h a t tt d f (prio_of a t) _ l c); try done; [by unfold view; simpl; rewrite Ep, Ef|congruence|].
    intros q. rewrite elem_of_join by done. rewrite Hrd. case_decide as Eq; [rewrite <- Eq, Ef; tauto|].
    split; [by intros [->|?]|by right].
  - assert (Hin' : t ∈ members (rnd a)) by by apply Hrd.
    destruct (rem_spec s (rnd a) t Har Hin') as (l & c & -> & Hel & Ha).
    simpl. rewrite (store_spec _ _ _ d) by done. eexists. split; [done|].
    apply (rep_change s h a t tt d f (prio_of a t) _ l c); try done; [by unfold view; simpl; rewrite Ep, Ef|congruence|].
    intros q. rewrite elem_of_leave; [|by pose proof (IntrusiveList.rep_nodup _ _ (ar_rep _ _ _ Har)) as [_ ?]%NoDup_cons|done].
    rewrite Hrd. case_decide as Eq; [rewrite <- Eq, Ef; split; [by intros []|by intros [_ ?]]|].
    split; [by intros [_ ?]|by split].
Qed.

Lemma hook_spec s h a t tt f :
  rep s h a -> t ∈ all a -> h !! t = Some tt ->
  exists s1, IRQwaitStatusHook t (<[t := Threads.set_flags (fun _ => f) tt]> h) s = Done s1 /\
    rep s1 (<[t := Threads.set_flags (fun _ => f) tt]> h)
      (Abstract (all a) (<[t := (f, prio_of a t)]> (status a))
        (if ThreadFlags.isReady f && negb (is_ready a t) then join (getRealtime (prio_of a t)) t (rnd a)
         else if negb (ThreadFlags.isReady f) && is_ready a t then leave t (rnd a)
         else rnd a) (turn a)).
Proof.
  intros Hr Hin Ht. destruct (rep_thread _ _ _ _ Hr Hin) as (_ & d & _ & Hd & _).
  unfold IRQwaitStatusHook, load, load_data. rewrite lookup_insert_eq, Hd. simpl.
  destruct (switch_spec s h a t tt d f Hr Hin Ht Hd) as (s1 & -> & Hr1). simpl. by apply recalculate_rep.
Qed.

Lemma ready_bits x : Z.land (u16 x) 0x67 = Z.land x 0x67.
Proof. unfold wrapU. rewrite <- (Z.land_ones x 16) by lia. by rewrite <- Z.land_assoc. Qed.

(** The setters without the hook do not change whether the thread is ready. *)
Lemma ready_unhooked o f : calls_hook o = false -> ThreadFlags.isReady (ThreadFlags.run o f) = ThreadFlags.isReady f.
Proof.
  intros Ho. unfold ThreadFlags.isReady. f_equal. destruct o as [| | | | | | |u]; try done; [| |destruct u]; simpl;
    unfold ThreadFlags.IRQsetDeleting, ThreadFlags.IRQsetDetached, ThreadFlags.IRQsetUserspace, ThreadFlags.set_to,
      ThreadFlags.set_mask, ThreadFlags.clear_mask; rewrite ready_bits.
  1-3: rewrite Z.land_lor_distr_l; match goal with |- Z.lor _ ?m = _ => change m with 0 end; apply Z.lor_0_r.
  by rewrite <- Z.land_assoc.
Qed.

(** A deleted thread is not ready. *)
Lemma dead_not_ready f : ThreadFlags.isDeleted f = true -> ThreadFlags.isReady f = false.
Proof.
  unfold ThreadFlags.isDeleted, ThreadFlags.isReady. rewrite Z.eqb_eq, Z.eqb_neq. intros Hd Hr.
  assert (H2 : Z.testbit f 2 = true).
  { apply (f_equal (fun z => Z.testbit z 2)) in Hd. rewrite Z.land_spec in Hd. by rewrite andb_true_r in Hd. }
  apply (f_equal (fun z => Z.testbit z 2)) in Hr. by rewrite Z.land_spec, H2 in Hr.
Qed.

Lemma setFlags_spec s h a t o :
  rep s h a -> t ∈ all a ->
  exists s' h', setFlags t o s h = Done (s', h') /\ rep s' h' (abs_op (SetFlags t o) a).
Proof.
  intros Hr Hin. destruct (rep_thread _ _ _ _ Hr Hin) as (tt & d & Ht & Hd & Ef & Ev & _).
  unfold setFlags. rewrite (store_Some _ _ _ _ Ht). cbn [mbind outcome_bind abs_op].
  set (f := ThreadFlags.run o (flags_of a t)).
  assert (E : Threads.set_flags (ThreadFlags.run o) tt = Threads.set_flags (fun _ => f) tt) by (unfold Threads.set_flags; by rewrite Ef).
  rewrite E. destruct (calls_hook o) eqn:Ho.
  - destruct (hook_spec s h a t tt f Hr Hin Ht) as (s1 & -> & Hr1). by do 2 eexists.
  - destruct (switch_spec s h a t tt d f Hr Hin Ht Hd) as (s1 & Es & Hr1).
    assert (Ex : ThreadFlags.isReady f = lastReadyStatus d).
    { injection Ev as _ El. rewrite El. by apply ready_unhooked. }
    rewrite Ex in Es. rewrite andb_negb_r, andb_negb_l in Es. injection Es as <-. by do 2 eexists.
Qed.

Lemma control_setPriority_spec s h a t p :
  rep s h a -> t ∈ all a ->
  exists s', PKsetPriority t p s h = Done s' /\ rep s' h (abs_op (SetPriority t p) a).
Proof.
  intros Hr Hin. destruct (rep_thread _ _ _ _ Hr Hin) as (tt & d & Ht & Hd & Ef & [= Ep El] & _).
  unfold PKsetPriority. rewrite (store_spec _ _ _ _ Hd). cbn [mbind outcome_bind abs_op].
  apply recalculate_rep. pose proof (rep_round _ _ _ Hr) as Har.
  assert (E : h = <[t := Threads.set_flags (fun _ => flags_of a t) tt]> h).
  { rewrite insert_id; [done|]. rewrite Ht, <- Ef. by destruct tt. }
  rewrite E. change (set_data (<[t := set_priority p d]> (data s)) s)
    with (set_data (<[t := set_priority p d]> (data s)) (set_round (activeThreads s) (curInRound s) s)).
  apply (rep_change s h a t tt d); try done; [by unfold view; simpl; rewrite El|by apply (rep_empty _ _ _ Hr)|].
  intros q. rewrite (rep_ready _ _ _ Hr). case_decide as Eq; [by rewrite <- Eq|done].
Qed.

Lemma not_member s h a t : rep s h a -> t ∉ all a -> t ∉ members (rnd a).
Proof. intros Hr Hn Hm. by apply (rep_ready _ _ _ Hr) in Hm as []. Qed.

(** A thread enters the list of threads, with its place in the round [rd]. *)
Lemma rep_enter s h a t tt d f p l c rd :
  rep s h a -> t ∉ empty :: idleThread :: all a -> flags tt = f -> schedNext tt = threadList s ->
  view d = (p, ThreadFlags.isReady f) -> in_bounds (bo d) -> emptyListItem l = empty -> at_round l c rd ->
  (forall q, q ∈ members rd <-> q ∈ members (rnd a) \/ q = t /\ ThreadFlags.isReady f = true) ->
  rep (Sched (Some t) (u32 (threadListSize s + 1)) (idle s) (set_SP_Tr (s32 (SP_Tr (reg s) + bNominal)) (reg s))
        (<[t := d]> (data s)) l c (burstStart s) (nextPreemption s))
    (<[t := tt]> h) (Abstract (t :: all a) (<[t := (f, p)]> (status a)) rd (turn a)).
Proof.
  intros Hr Ht Hf Hn Hv Hb Hel Ha Hm. pose proof (not_member _ _ _ t Hr) as Hnm.
  pose proof Hr as [[Hp Hnd Hpr _ Hms] Hsz Hsp _ [_ He] [Hi Hi'] Hid Hst Hrd Htu Hbu].
  apply not_elem_of_cons in Ht as [Hte Ht]. apply not_elem_of_cons in Ht as [Hti Ht].
  split; simpl; try done.
  - split; simpl; [|by constructor| |by apply Ha|].
    + split; [done|]. destruct (all a) as [|x r]; simpl in *.
      * unfold next_of. rewrite lookup_insert_eq. simpl. by rewrite Hn, Hp.
      * destruct Hp as [Hx Hc]. split; [unfold next_of; rewrite lookup_insert_eq; simpl; by rewrite Hn, Hx|].
        eapply chain_frame; [|exact Hc]. intros q Hq. apply next_of_insert_ne. set_solver.
    + intros q Hq. rewrite !lookup_insert. case_decide; [done|]. apply Hpr. set_solver.
    + intros q. rewrite Hm. intros [?%Hms|[-> _]]; set_solver.
  - rewrite Hsz, wrapU_step. f_equal. lia.
  - rewrite Hsp, wrapS_step by lia. f_equal. lia.
  - split; [done|]. apply not_elem_of_cons. by split.
  - split; [done|]. apply not_elem_of_cons. by split.
  - rewrite lookup_insert. by case_decide.
  - intros q Hq. rewrite (flags_of_insert _ _ _ _ _ _ _ a), (prio_of_insert _ _ _ _ _ _ _ a), (is_ready_insert _ _ _ _ _ _ _ a) by done.
    rewrite !lookup_insert. case_decide; [simpl; by rewrite Hv, Hf|]. apply Hst. set_solver.
  - intros q. rewrite (is_ready_insert _ _ _ _ _ _ _ a) by done. rewrite Hm, Hrd, elem_of_cons.
    case_decide as Eq; [rewrite <- Eq; tauto|]. split; [intros [[??]|[-> _]]; [tauto|done]|]. intros [[->|?] ?]; [done|tauto].
  - destruct Htu; [by left|right; by apply elem_of_cons; right].
  - intros q dq. simpl. rewrite lookup_insert. case_decide; [by intros [= <-]|apply Hbu].
Qed.

(** Memory of a thread that is not in the list. *)
Lemma control_rep_forget s h a t : rep s h a -> t ∉ idleThread :: all a -> rep (set_data (delete t (data s)) s) (delete t h) a.
Proof.
  intros Hr [Hti Ht]%not_elem_of_cons. pose proof Hr as [[Hp Hnd Hpr Har Hms] Hsz Hsp Hro He Hi Hid Hst Hrd Htu Hbu].
  assert (Hne : forall q, q ∈ all a -> t <> q) by by intros q Hq ->.
  split; simpl; try done.
  - split; simpl; try done.
    + eapply path_frame; [|exact Hp]. intros q Hq. by apply next_of_delete_ne, Hne.
    + intros q Hq. rewrite !lookup_delete_ne by by apply Hne. by apply Hpr.
  - by rewrite lookup_delete_ne.
  - intros q Hq. rewrite !lookup_delete_ne by by apply Hne. by apply Hst.
  - intros q d. simpl. intros [_ Hq]%lookup_delete_Some. by apply (Hbu q).
Qed.

Lemma control_create_spec s h a t p f g :
  rep s h a -> t ∉ empty :: idleThread :: all a ->
  exists s' h', create t p f g s h = Done (s', h') /\ rep s' h' (abs_op (CreateThread t p f g) a).
Proof.
  intros Hr Ht. unfold create, PKaddThread. cbn [abs_op].
  change (threadListSize (set_data (<[t := new_data g]> (data s)) s)) with (threadListSize s).
  pose proof (rep_size _ _ _ Hr) as Hsz. rewrite Hsz. destruct (at_limit _).
  { cbn [mbind outcome_bind]. do 2 eexists. split; [done|]. simpl. rewrite !delete_insert_eq. refine (control_rep_forget s h a t Hr _). set_solver. }
  rewrite (store_spec _ _ _ (new_data g)) by apply lookup_insert_eq. cbn [mbind outcome_bind].
  rewrite (store_Some _ _ (Threads.set_flags (fun _ => f) (new_Thread 0))) by apply lookup_insert_eq. cbn [mbind outcome_bind].
  rewrite (load_Some _ _ _ (lookup_insert_eq _ _ _)). simpl. rewrite !insert_insert_eq.
  set (d := set_priority p (new_data g)). set (tt := set_schedNext (threadList s) (Threads.set_flags (fun _ => f) (new_Thread 0))).
  match goal with |- context [addThreadToActiveList t ?x] => set (s2 := x) end.
  assert (Hgo : forall b l c rd, b = ThreadFlags.isReady f -> emptyListItem l = empty -> at_round l c rd ->
    (forall q, q ∈ members rd <-> q ∈ members (rnd a) \/ q = t /\ ThreadFlags.isReady f = true) ->
    rep (set_data (<[t := set_lastReady b d]> (data s2)) (set_round l c s2)) (<[t := tt]> h)
      (Abstract (t :: all a) (<[t := (f, p)]> (status a)) rd (turn a))).
  { intros b l c rd -> Hel Ha Hm. unfold s2. simpl. rewrite insert_insert_eq.
    apply (rep_enter s h a t tt (set_lastReady (ThreadFlags.isReady f) d) f p l c rd Hr Ht); done. }
  pose proof (rep_round _ _ _ Hr) as Har. destruct (rep_empty _ _ _ Hr) as [Ee He].
  assert (Hd2 : data s2 !! t = Some d) by apply lookup_insert_eq.
  destruct (ThreadFlags.isReady f) eqn:Ef.
  - destruct (control_add_spec s2 (rnd a) t d Har Hd2) as (l & c & -> & Hel & Ha).
    { change (activeThreads s2) with (activeThreads s). rewrite Ee. apply not_elem_of_cons in Ht as [? Ht].
      apply not_elem_of_cons. split; [done|]. apply (not_member s h); [done|set_solver]. }
    cbn [mbind outcome_bind]. rewrite (store_spec (set_round l c s2) _ _ d) by done. cbn [mbind outcome_bind].
    destruct (recalculate_rep _ _ _ (Hgo true l c _ eq_refl (eq_trans Hel Ee) Ha ltac:(intros q; rewrite elem_of_join by apply (ar_end _ _ _ Har); tauto)))
      as (s' & E & Hr'). change (data (set_round l c s2)) with (data s2). rewrite E. by do 2 eexists.
  - rewrite (store_spec s2 _ _ d) by done. cbn [mbind outcome_bind].
    destruct (recalculate_rep _ _ _ (Hgo false (activeThreads s) (curInRound s) (rnd a) eq_refl Ee Har ltac:(intros q; naive_solver)))
      as (s' & E & Hr'). change (set_round (activeThreads s) (curInRound s) s2) with s2 in E. rewrite E. by do 2 eexists.
Qed.

Lemma dead_abs s h a p : rep s h a -> p ∈ all a -> dead h p = is_dead a p.
Proof.
  intros Hr Hp. destruct (rep_thread _ _ _ _ Hr Hp) as (t & d & Ht & _ & Ef & _). unfold is_dead.
  by rewrite (dead_true _ _ _ Ht), Ef.
Qed.

Lemma dead_not_member s h a p : rep s h a -> p ∈ members (rnd a) -> dead h p = false.
Proof.
  intros Hr [Hp Hrd]%(rep_ready _ _ _ Hr). rewrite (dead_abs s h a p Hr Hp). apply not_true_iff_false. intros Hd.
  unfold is_ready in Hrd. rewrite dead_not_ready in Hrd; done.
Qed.

(** The threads [D] are dead and were removed. *)
Lemma rep_removed s h a D s' h' xs :
  rep s h a -> removed D s s' -> reclaims D h h' -> all a ≡ₚ xs ++ D -> (forall p, p ∈ D -> dead h p = true) ->
  path h' (threadList s') xs -> turn a = idleThread -> rep s' h' (Abstract xs (status a) (rnd a) (turn a)).
Proof.
  intros Hr [Hsz' Hsp' [= E1 E2 E3] Hdt] Hrc Hxs HD Hpath Htu.
  pose proof Hr as [[Hp Hnd Hpr Har Hms] Hsz Hsp Hro [Hel He] [Hi Hi'] Hid Hst Hrd _ Hbu].
  rewrite Hxs in Hnd. pose proof Hnd as (Hndx & Hdis & _)%NoDup_app.
  assert (Hin : forall q, q ∈ xs -> q ∈ all a /\ q ∉ D).
  { intros q Hq. split; [rewrite Hxs; set_solver|by apply Hdis]. }
  assert (Hkeep : forall q, q ∈ xs -> data s' !! q = data s !! q /\ flags <$> h' !! q = flags <$> h !! q).
  { intros q [_ Hq]%Hin. rewrite Hdt, decide_False by done. split; [done|].
    apply (reclaims_field flags D h h' q); [by intros ?? [=]|done..]. }
  assert (Hmx : forall q, q ∈ members (rnd a) -> q ∈ xs).
  { intros q Hq. pose proof (Hms q Hq) as Hall. rewrite Hxs in Hall. apply elem_of_app in Hall as [?|HqD]; [done|].
    pose proof (dead_not_member _ _ _ _ Hr Hq). rewrite HD in *; done. }
  split; simpl; rewrite ?E1, ?E2, ?E3; try done.
  - split; rewrite ?E2; try done. intros q Hq. destruct (Hkeep q Hq) as [-> Hf]. pose proof (Hin q Hq) as [Hq' _].
    destruct (Hpr q Hq') as [[t Ht] ?]. split; [|done]. rewrite Ht in Hf. by destruct (h' !! q).
  - rewrite (Hsz' _ Hsz). f_equal. rewrite Hxs, length_app. lia.
  - rewrite (Hsp' _ Hsp). f_equal. rewrite Hxs, length_app. lia.
  - split; [done|]. by intros [? _]%Hin.
  - split; [done|]. by intros [? _]%Hin.
  - rewrite Hdt, decide_False; [done|]. intros Hd. apply Hi'. rewrite Hxs. set_solver.
  - intros q Hq. destruct (Hkeep q Hq) as [-> ->]. by apply Hst, Hin.
  - intros q. rewrite Hrd. split; intros [Hq Hrq]; (split; [|done]); [apply Hmx, Hrd; by split|by apply Hin].
  - by left.
  - intros q d. rewrite Hdt. case_decide; [done|]. apply Hbu.
Qed.

Lemma control_remove_spec s h a :
  rep s h a -> op_ok RemoveDeadThreads a ->
  exists s' h', PKremoveDeadThreads s h = Done (s', h') /\ rep s' h' (abs_op RemoveDeadThreads a).
Proof.
  intros Hr [Htu (l & x & Hall & Hx)]. pose proof (rep_linked _ _ _ Hr) as Hli. pose proof Hli as [Hp Hnd _ _ _].
  assert (Hdx : dead h x = false) by (rewrite (dead_abs s h a x Hr); [done|rewrite Hall; set_solver]).
  unfold PKremoveDeadThreads.
  destruct (control_remove_first_spec (fuel h) s h (all a)) as (D1 & s1 & h1 & -> & Hxs & HD1 & Hre1 & Hrc1 & Hpa1);
    [done|done|by apply (linked_fuel _ _ _ _ Hli)|]. cbn [mbind outcome_bind].
  assert (Hdd1 : forall q, q ∉ D1 -> dead h1 q = dead h q) by (intros q; by apply reclaims_dead).
  cbn [abs_op]. unfold swept. rewrite (drop_dead_ext (is_dead a) (dead h)) by (intros q Hq; symmetry; by apply (dead_abs s)).
  destruct (drop_dead (dead h) (all a)) as [|p r] eqn:Edr.
  { exfalso. rewrite app_nil_r in Hxs. rewrite HD1 in Hdx; [done|]. rewrite <- Hxs, Hall. set_solver. }
  assert (Hd1 : forall q, q ∈ p :: r -> q ∉ D1).
  { rewrite Hxs in Hnd. apply NoDup_app in Hnd as (_ & Hd & _). intros q Hq Hq'. by apply (Hd q Hq'). }
  assert (Hnd' : NoDup (p :: r)) by (rewrite Hxs in Hnd; by apply NoDup_app in Hnd as (_ & _ & ?)).
  pose proof Hpa1 as [-> Hc1]. pose proof (path_length h1 (Some p) (p :: r) (conj eq_refl Hc1) Hnd') as Hlen.
  destruct (control_remove_rest_spec (fuel h1) p r s1 h1 Hc1 Hnd') as (D2 & s2 & h2 & E2 & Hl2 & Hxs2 & HD2 & Hre2 & Hrc2 & Hch2 & _).
  { change (fuel h1) with (S (size h1)). simpl in Hlen. lia. }
  { exists x. assert (Hlast : last (p :: r) = Some x).
    { transitivity (last (all a)); [|rewrite Hall; apply last_snoc]. rewrite Hxs. by rewrite last_app_cons. }
    split; [done|]. rewrite Hdd1; [done|]. apply Hd1. by apply last_Some_elem_of. }
  assert (Hsk : skip_dead (dead h1) r = skip_dead (is_dead a) r).
  { apply skip_dead_ext. intros q Hq. rewrite Hdd1 by (apply Hd1; set_solver). apply (dead_abs s); [done|]. rewrite Hxs. set_solver. }
  rewrite Hsk in Hxs2, Hch2.
  assert (Hrep : rep s2 h2 (Abstract (p :: skip_dead (is_dead a) r) (status a) (rnd a) (turn a))).
  { apply (rep_removed s h a (D1 ++ D2)); try done.
    - by apply (removed_trans D1 D2 s s1).
    - by apply (reclaims_trans D1 D2 h h1).
    - rewrite Hxs, Hxs2 at 1. simpl. rewrite <- Permutation_middle. constructor. rewrite !(assoc_L (++)).
      by rewrite (Permutation_app_comm D1).
    - intros q [Hq|Hq]%elem_of_app; [by apply HD1|]. rewrite <- Hdd1; [by apply HD2|]. apply Hd1. rewrite Hxs2. set_solver.
    - rewrite Hl2. destruct Hpa1 as [-> _]. by split. }
  destruct (recalculate_rep _ _ _ Hrep) as (s3 & E3 & Hr3). exists s3, h2. split; [|done].
  rewrite E2. simpl. by rewrite E3.
Qed.

Lemma account_spec s h a time :
  idlePtr = Some idleThread -> rep s h a -> exists s', account time (turn a) s = Done s' /\ rep s' h a.
Proof.
  intros Hip Hr. unfold account. destruct (rep_idle _ _ _ Hr) as [-> Hi]. rewrite Hip. case_bool_decide as Ht; [by exists s|].
  assert (Hin : turn a ∈ all a) by (destruct (rep_turn _ _ _ Hr); [congruence|done]).
  destruct (rep_thread _ _ _ _ Hr Hin) as (t & d & _ & Hd & _).
  destruct (keeps_store s (turn a) (set_Tp (s32 (s64 (time - burstStart s))))) as (s1 & -> & Hk); [done..|]. simpl.
  eexists. split; [done|]. apply (rep_keeps s); [|done]. transitivity s1; [done|by apply keeps_set_reg].
Qed.

(** The turn moves to another thread of the same round, or of a new one. *)
Lemma rep_move s h a c rd :
  rep s h a -> at_round (activeThreads s) c rd -> (forall q, q ∈ members rd <-> q ∈ members (rnd a)) ->
  rep (set_round (activeThreads s) c s) h (Abstract (all a) (status a) rd (turn a)).
Proof.
  intros [[] ??????????] Ha Hm. split; try done.
  - split; try done; [by apply Ha|]. intros q Hq%Hm. auto.
  - intros q. by rewrite Hm.
Qed.

Lemma rep_choose s h a b n t :
  rep s h a -> t = idleThread \/ t ∈ all a -> rep (set_preemption b n s) h (Abstract (all a) (status a) (rnd a) t).
Proof. intros [[] ??????????] Ht. by split. Qed.

(** At the end of a round with threads to run, the regulator runs and the first thread
    has the turn. *)
Lemma new_round_spec s h a x xs :
  rep s h a -> members (rnd a) = x :: xs ->
  exists s', (saturated ← saturated_loop (S (fuel h)) s (begin (activeThreads s));
              IRQrunRegulator saturated h (set_round (activeThreads s) (Some (front (activeThreads s))) s)) = Done s' /\
    rep s' h (Abstract (all a) (status a) (Round [] (Some x) xs) (turn a)).
Proof.
  intros Hr Hx. pose proof (rep_linked _ _ _ Hr) as Hli. pose proof Hli as [_ _ Hpr Har Hms].
  rewrite (linked_begin _ _ _ _ Hli).
  destruct (saturated_loop_done s (S (fuel h)) (members (rnd a)) []) as (v & ->);
    [done|intros q Hq; by apply Hpr, Hms|by apply (linked_fuel _ _ _ _ Hli)|]. cbn [mbind outcome_bind].
  assert (Hf : front (activeThreads s) = x) by (destruct Har as [_ _ Hh _]; unfold front; by rewrite Hh, Hx).
  rewrite Hf. assert (Hr1 : rep (set_round (activeThreads s) (Some x) s) h (Abstract (all a) (status a) (Round [] (Some x) xs) (turn a))).
  { apply rep_move; [done| |].
    - split; [|done..]. by rewrite Hx in Har.
    - intros q. rewrite Hx. done. }
  destruct (regulator_spec v _ _ _ _ (rep_linked _ _ _ Hr1)) as (s' & E & Hk). exists s'. split; [exact E|].
  by apply (rep_keeps (set_round (activeThreads s) (Some x) s)).
Qed.

Lemma start_burst_spec env later r s h a p :
  rep s h a -> now (rnd a) = Some p ->
  exists b s' r', start_burst env later r h s = Done (b, r', s') /\
    rep s' h (Abstract (all a) (status a) (rnd a) p) /\ decided (env, later, p) (cur r', IRQgetNextPreemption s').
Proof.
  intros Hr Hn. unfold start_burst.
  assert (Hc : curInRound s = Some p) by (rewrite (ar_cur _ _ _ (rep_round _ _ _ Hr)); by rewrite Hn).
  rewrite Hc. cbn [deref mbind outcome_bind]. pose proof (rep_idle _ _ _ Hr) as [_ Hid].
  assert (Hp : p ∈ all a /\ is_ready a p = true) by (apply (rep_ready _ _ _ Hr p); rewrite (members_now _ _ Hn); set_solver).
  destruct (rep_thread _ _ _ p Hr (proj1 Hp)) as (t & d & Ht & Hd & Ef & _ & Hb).
  rewrite (load_Some _ _ _ Ht). unfold load_data. rewrite Hd. cbn [deref mbind outcome_bind]. rewrite Ef.
  change (ThreadFlags.isReady (flags_of a p)) with (is_ready a p). rewrite (proj2 Hp).
  do 3 eexists. split; [done|]. split; [apply (rep_choose _ _ _ _ _ p Hr); right; apply Hp|].
  split; [done|]. intros _. rewrite bool_decide_false by (intros E; apply Hid; rewrite <- E; apply Hp).
  exists (Z.quot (bo d) multFactor). split; [by apply burst_bounds|done].
Qed.

Lemma find_spec env later s h a r :
  idlePtr = Some idleThread -> rep s h a -> cur r = turn a ->
  exists b s' r', IRQfindNextThread env later r s h = Done (b, r', s') /\
    rep s' h (abs_op (FindNextThread env later) a) /\
    decided (env, later, turn (abs_op (FindNextThread env later) a)) (cur r', IRQgetNextPreemption s').
Proof.
  intros Hip Hr Hcur. unfold IRQfindNextThread. cbn [abs_op]. destruct (Z.eqb_spec (kernel_running env) 0) as [Hk|Hk]; cbn [negb].
  2: { exists 0, s, r. by split_and!. }
  rewrite Hcur. destruct (account_spec s h a (IRQgetTime env) Hip Hr) as (s1 & -> & Hr1). cbn [mbind outcome_bind]. clear Hr s.
  pose proof (rep_round _ _ _ Hr1) as Har. destruct (advance_spec _ _ _ Har) as (c & -> & Hc). cbn [mbind outcome_bind].
  destruct (rep_idle _ _ _ Hr1) as [Hid Hid'].
  case_bool_decide as Hce; cbn [andb].
  - destruct Hc as [Ht Hpn]. unfold advance. rewrite Ht, Hpn.
    assert (Hr2 : rep (set_round (activeThreads s1) c s1) h (Abstract (all a) (status a) (Round (members (rnd a)) None []) (turn a))).
    { apply rep_move; [done| |by intros q; unfold members at 1; simpl; rewrite app_nil_r].
      split; [|by rewrite Hce|done]. unfold members at 1. simpl. rewrite app_nil_r. apply Har. }
    change (activeThreads (set_round (activeThreads s1) c s1)) with (activeThreads s1).
    rewrite (IntrusiveList.rep_empty _ _ (ar_rep _ _ _ Har)).
    destruct (members (rnd a)) as [|x xs] eqn:Em; cbn [andb].
    + rewrite bool_decide_true by done. cbn [mbind outcome_bind]. change (idle (set_round _ _ s1)) with (idle s1). rewrite Hid, Hip.
      cbn [deref mbind outcome_bind]. do 3 eexists. split; [done|].
      split; [by apply (rep_choose _ _ _ _ _ idleThread Hr2); left|].
      split; [done|]. intros _. by rewrite bool_decide_true.
    + rewrite bool_decide_false by done.
      destruct (new_round_spec _ _ _ x xs Hr2) as (s2 & E & Hr3); [unfold members; simpl; by rewrite app_nil_r|].
      change (activeThreads (set_round _ c s1)) with (activeThreads s1) in E. rewrite E. cbn [mbind outcome_bind]. by apply (start_burst_spec env later r s2 h _ x Hr3).
  - destruct Hc as [Ha Hn]. cbn [mbind outcome_bind].
    assert (Hr2 : rep (set_round (activeThreads s1) c s1) h (Abstract (all a) (status a) (advance (rnd a)) (turn a))).
    { apply rep_move; [done..|]. intros q. apply elem_of_advance. apply Har. }
    destruct (now (advance (rnd a))) as [p|] eqn:En.
    + by apply (start_burst_spec env later r _ h _ p Hr2).
    + exfalso. apply Hce. rewrite (ar_cur _ _ _ Ha), En. done.
Qed.

(** *** Sequences of operations *)

Lemma control_run_op_spec o s h r a :
  idlePtr = Some idleThread -> rep s h a -> cur r = turn a -> op_ok o a ->
  exists s' h' r', run_op o s h r = Done (s', h', r') /\ rep s' h' (abs_op o a) /\ cur r' = turn (abs_op o a) /\
    match o with
    | FindNextThread env later => decided (env, later, turn (abs_op o a)) (cur r', IRQgetNextPreemption s')
    | _ => True
    end.
Proof.
  intros Hip Hr Hcur Hok. destruct o as [t p f g|t o|t p| |env later]; cbn [run_op].
  - destruct (control_create_spec s h a t p f g Hr Hok) as (s' & h' & -> & Hr'). do 3 eexists. split_and!; [done..| |done].
    rewrite Hcur. cbn [abs_op]. by destruct (at_limit _).
  - destruct (setFlags_spec s h a t o Hr Hok) as (s' & h' & -> & Hr'). do 3 eexists. by split_and!.
  - destruct (control_setPriority_spec s h a t p Hr Hok) as (s' & -> & Hr'). do 3 eexists. by split_and!.
  - destruct (control_remove_spec s h a Hr Hok) as (s' & h' & -> & Hr'). do 3 eexists. by split_and!.
  - destruct (find_spec env later s h a r Hip Hr Hcur) as (b & s' & r' & -> & Hr' & Hd).
    exists s', h, r'. split_and!; [done..|by destruct Hd|done].
Qed.

Lemma control_run_prog_refines ops : forall s h r a,
  idlePtr = Some idleThread -> rep s h a -> cur r = turn a -> prog_ok ops a ->
  exists s' h' r' trace, run_prog ops s h r = Done (s', h', r', trace) /\ rep s' h' (abs_prog ops a) /\
    cur r' = turn (abs_prog ops a) /\ Forall2 decided (turns ops a) trace.
Proof.
  induction ops as [|o ops IH]; intros s h r a Hip Hr Hcur Hok; simpl.
  { do 4 eexists. split_and!; [done..|constructor]. }
  destruct Hok as [Ho Hok]. destruct (control_run_op_spec o s h r a Hip Hr Hcur Ho) as (s1 & h1 & r1 & -> & Hr1 & Hc1 & Hd).
  cbn [mbind outcome_bind]. destruct (IH s1 h1 r1 (abs_op o a) Hip Hr1 Hc1 Hok) as (s' & h' & r' & trace & -> & Hr' & Hc' & Ht).
  cbn [mbind outcome_bind]. do 4 eexists. split; [done|]. split; [done|]. split; [done|]. destruct o; try done. by constructor.
Qed.

Lemma run_prog_app ops ops' : forall s h r,
  run_prog (ops ++ ops') s h r =
    ('(s1, h1, r1, t1) ← run_prog ops s h r; '(s2, h2, r2, t2) ← run_prog ops' s1 h1 r1; Done (s2, h2, r2, t1 ++ t2)).
Proof.
  induction ops as [|o ops IH]; intros s h r; simpl.
  { by destruct (run_prog ops' s h r) as [[[[??]?]?]|]. }
  destruct (run_op o s h r) as [[[s1 h1] r1]|e]; [|done]. cbn [mbind outcome_bind]. rewrite IH.
  destruct (run_prog ops s1 h1 r1) as [[[[s2 h2] r2] t1]|e]; [|done]. cbn [mbind outcome_bind].
  destruct (run_prog ops' s2 h2 r2) as [[[[s3 h3] r3] t2]|e]; [|done]. cbn [mbind outcome_bind]. by destruct o.
Qed.

(** *** Decisions without other operations between them *)

Definition finds (envs : list (sched_env * Z)) : list sched_op := map (fun '(env, later) => FindNextThread env later) envs.
Definition not_paused (envs : list (sched_env * Z)) : Prop := Forall (fun '(env, _) => kernel_running env = 0) envs.

Lemma finds_ok envs : forall a, prog_ok (finds envs) a.
Proof. induction envs as [|[env later] envs IH]; intros a; [done|]. split; [done|]. apply IH. Qed.

Lemma turns_app ops ops' : forall a, turns (ops ++ ops') a = turns ops a ++ turns ops' (abs_prog ops a).
Proof. induction ops as [|o ops IH]; intros a; [done|]. simpl. rewrite IH. by destruct o. Qed.

Lemma prog_ok_app ops ops' : forall a, prog_ok ops a -> prog_ok ops' (abs_prog ops a) -> prog_ok (ops ++ ops') a.
Proof. induction ops as [|o ops IH]; intros a; [done|]. intros [Ho Hops] H'. split; [done|by apply IH]. Qed.

Lemma abs_prog_app ops ops' a : abs_prog (ops ++ ops') a = abs_prog ops' (abs_prog ops a).
Proof. apply fold_left_app. Qed.

(** The threads of the round that are still to come have their turn. *)
Lemma turns_todo envs : forall a,
  not_paused envs -> length envs = length (todo (rnd a)) ->
  let a' := abs_prog (finds envs) a in
  snd <$> turns (finds envs) a = todo (rnd a) /\ todo (rnd a') = [] /\
  past (rnd a') ++ option_list (now (rnd a')) = past (rnd a) ++ option_list (now (rnd a)) ++ todo (rnd a).
Proof.
  induction envs as [|[env later] envs IH]; intros a Hp Hl; simpl.
  { symmetry in Hl. apply length_zero_iff_nil in Hl. rewrite Hl, app_nil_r. by split_and!. }
  destruct (todo (rnd a)) as [|y t] eqn:Et; [done|]. apply Forall_cons in Hp as [Hk Hp].
  assert (Ha : abs_op (FindNextThread env later) a = Abstract (all a) (status a) (Round (past (rnd a) ++ option_list (now (rnd a))) (Some y) t) y).
  { cbn [abs_op]. rewrite Hk. cbn [Z.eqb negb]. unfold advance. by rewrite Et. }
  cbn [abs_op] in Ha. rewrite Ha. injection Hl as Hl.
  destruct (IH (Abstract (all a) (status a) (Round (past (rnd a) ++ option_list (now (rnd a))) (Some y) t) y) Hp Hl) as (E1 & E2 & E3).
  simpl in *. split_and!; [by f_equal|done|]. rewrite E3. by rewrite <- app_assoc.
Qed.

(** A whole round. *)
Lemma turns_round envs a :
  not_paused envs -> todo (rnd a) = [] -> length envs = length (members (rnd a)) ->
  let a' := abs_prog (finds envs) a in
  snd <$> turns (finds envs) a = members (rnd a) /\ todo (rnd a') = [] /\ members (rnd a') = members (rnd a).
Proof.
  intros Hp Ht Hl. unfold members, ahead in *. rewrite Ht, app_nil_r in *.
  destruct envs as [|[env later] envs]; simpl.
  { symmetry in Hl. apply length_zero_iff_nil in Hl. rewrite Hl, Ht, app_nil_r. by split_and!. }
  destruct (past (rnd a) ++ option_list (now (rnd a))) as [|x l] eqn:El; [done|]. apply Forall_cons in Hp as [Hk Hp].
  assert (Ha : abs_op (FindNextThread env later) a = Abstract (all a) (status a) (Round [] (Some x) l) x).
  { cbn [abs_op]. rewrite Hk. cbn [Z.eqb negb]. unfold advance. by rewrite Ht, El. }
  cbn [abs_op] in Ha. rewrite Ha. injection Hl as Hl.
  destruct (turns_todo envs (Abstract (all a) (status a) (Round [] (Some x) l) x) Hp Hl) as (E1 & E2 & E3).
  simpl in *. rewrite E2, app_nil_r, E3. split_and!; [by f_equal|done..].
Qed.

Lemma turns_rounds k : forall envs a,
  not_paused envs -> todo (rnd a) = [] -> length envs = (k * length (members (rnd a)))%nat ->
  snd <$> turns (finds envs) a = concat (replicate k (members (rnd a))).
Proof.
  induction k as [|k IH]; intros envs a Hp Ht Hl; simpl in *.
  { apply length_zero_iff_nil in Hl. by subst envs. }
  assert (Hsplit : exists e1 e2, envs = e1 ++ e2 /\ length e1 = length (members (rnd a))).
  { exists (take (length (members (rnd a))) envs), (drop (length (members (rnd a))) envs).
    rewrite take_drop, length_take. split; [done|lia]. }
  destruct Hsplit as (e1 & e2 & -> & He1). apply Forall_app in Hp as [Hp1 Hp2]. rewrite length_app in Hl.
  unfold finds. rewrite map_app, turns_app, fmap_app. destruct (turns_round e1 a Hp1 Ht He1) as (E1 & E2 & E3).
  unfold finds in E1, E2, E3. rewrite E1, <- E3. f_equal. apply IH; [done..|]. rewrite E3. lia.
Qed.

Lemma turns_finds k envs a :
  not_paused envs -> length envs = (length (todo (rnd a)) + k * length (members (rnd a)))%nat ->
  (turns (finds envs) a).*2 = todo (rnd a) ++ concat (replicate k (members (rnd a))).
Proof.
  intros Hp Hl. assert (Hsplit : exists e1 e2, envs = e1 ++ e2 /\ length e1 = length (todo (rnd a))).
  { exists (take (length (todo (rnd a))) envs), (drop (length (todo (rnd a))) envs).
    rewrite take_drop, length_take. split; [done|lia]. }
  destruct Hsplit as (e1 & e2 & -> & He1). apply Forall_app in Hp as [Hp1 Hp2]. rewrite length_app in Hl.
  unfold finds. rewrite map_app, turns_app, fmap_app. destruct (turns_todo e1 a Hp1 He1) as (E1 & E2 & E3).
  unfold finds in E1, E2, E3. rewrite E1. f_equal.
  assert (Em : members (rnd (abs_prog (map (fun '(env, later) => FindNextThread env later) e1) a)) = members (rnd a)).
  { unfold members at 1, ahead. by rewrite E2, app_nil_r, E3. }
  rewrite <- Em. apply turns_rounds; [done..|]. rewrite Em. lia.
Qed.

Lemma finds_same envs : forall a, all (abs_prog (finds envs) a) = all a /\ status (abs_prog (finds envs) a) = status a.
Proof.
  induction envs as [|[env later] envs IH]; intros a; [done|]. destruct (IH (abs_op (FindNextThread env later) a)) as [E1 E2].
  change (abs_prog (finds ((env, later) :: envs)) a) with (abs_prog (finds envs) (abs_op (FindNextThread env later) a)).
  rewrite E1, E2. cbn [abs_op]. by destruct (negb _).
Qed.

Lemma ready_abs s h a p : rep s h a -> p ∈ all a -> ready h p = is_ready a p.
Proof. intros Hr Hp. destruct (rep_thread _ _ _ _ Hr Hp) as (t & d & Ht & _ & Ef & _). by rewrite (ready_true _ _ _ Ht), Ef. Qed.

End programs.

(** *** The start of the kernel *)

(** [startKernel]: the idle thread exists, the main thread is created and added, then the
    idle thread is set; it is the running thread. *)
Definition boot (empty idleThread main : positive) (garbage : bool) : exec (sched * threads) :=
  let s := set_data {[ idleThread := new_data garbage ]} (initial empty) in
  let h := {[ idleThread := new_Thread 0 ]} in
  '(s, h) ← create main (Priority_short MAIN_PRIORITY) 0 garbage s h;
  s ← IRQsetIdleThread idleThread s;
  Done (s, h).

Definition booted (idleThread main : positive) : abstract :=
  Abstract [main] {[ main := (0, Priority_short MAIN_PRIORITY) ]} (Round [main] None []) idleThread.

Lemma control_boot_spec empty idleThread main garbage :
  at_limit 0 = false -> NoDup [empty; idleThread; main] ->
  exists s h, boot empty idleThread main garbage = Done (s, h) /\
    rep empty idleThread (Some idleThread) s h (booted idleThread main).
Proof.
  intros Hlim Hnd. unfold boot.
  set (s0 := set_data {[ idleThread := new_data garbage ]} (initial empty)).
  set (h0 := {[ idleThread := new_Thread 0 ]} : threads).
  set (a0 := Abstract [] ∅ (Round [] None []) idleThread).
  assert (H0 : rep empty idleThread None s0 h0 a0).
  { split; simpl; try done.
    - split; simpl; try done; [by apply NoDup_nil_2|by intros ? ?%not_elem_of_nil|apply rep_new].
    - split; [apply rep_new|done..].
    - split; [done|apply not_elem_of_nil].
    - split; [done|apply not_elem_of_nil].
    - by rewrite lookup_singleton_eq.
    - by intros ? ?%not_elem_of_nil.
    - intros p. split; [by intros ?%not_elem_of_nil|by intros [?%not_elem_of_nil _]].
    - by left.
    - intros p d. simpl. intros [_ <-]%lookup_singleton_Some. unfold in_bounds. simpl. unfold bNominal, bMin, bMax, multFactor. lia. }
  destruct (control_create_spec empty idleThread None s0 h0 a0 main (Priority_short MAIN_PRIORITY) 0 garbage H0) as (s1 & h1 & -> & Hr1).
  { simpl. apply NoDup_cons in Hnd as [He Hnd]. apply NoDup_cons in Hnd as [Hi _]. set_solver. }
  cbn [mbind outcome_bind abs_op a0 all length] in Hr1 |- *. change (u32 (Z.of_nat 0)) with 0 in Hr1. rewrite Hlim in Hr1.
  unfold IRQsetIdleThread. destruct (rep_idle_data _ _ _ _ _ _ Hr1) as [d Hd]. rewrite (store_spec _ _ _ _ Hd). cbn [mbind outcome_bind].
  change (threadListSize (set_idle _ _)) with (threadListSize s1). rewrite (rep_size _ _ _ _ _ _ Hr1). simpl.
  do 2 eexists. split; [done|].
  pose proof Hr1 as [[Hp Hn Hpr Ha Hms] Hsz Hsp Hro He [_ Hi] Hid Hst Hrd _ Hbu].
  assert (Hne : forall p, p ∈ [main] -> idleThread <> p) by (intros p Hpm ->; by apply Hi).
  split; try done.
  - split; try done. intros p Hpm. simpl. rewrite lookup_insert_ne by by apply Hne. by apply Hpr.
  - simpl. by rewrite lookup_insert_eq.
  - intros p Hpm. simpl. rewrite lookup_insert_ne by by apply Hne. by apply Hst.
  - by left.
  - intros p dp. simpl. rewrite lookup_insert. case_decide; [intros [= <-]; exact (Hbu idleThread d Hd)|apply Hbu].
Qed.

Lemma control_exists_loop_spec n h t q xs :
  path h q xs -> (length xs <= n)%nat ->
  exists_loop n h t q = Done (bool_decide (t ∈ xs) && negb (dead h t)).
Proof.
  revert q n. induction xs as [|x xs IH]; intros q n Hp Hn.
  { simpl in Hp. subst q. by destruct n. }
  apply path_cons in Hp as (-> & tx & Htx & Hp). destruct n as [|n]; [simpl in Hn; lia|]. simpl.
  rewrite (load_Some _ _ _ Htx). cbn [mbind outcome_bind]. destruct (bool_decide_reflect (x = t)) as [Ex|Ex].
  - rewrite <- Ex, (dead_true _ _ _ Htx), bool_decide_true by set_solver. done.
  - rewrite (IH _ _ Hp) by (simpl in Hn; lia). f_equal. f_equal. apply bool_decide_ext. set_solver.
Qed.

(** [PKexists] tells the threads of the list that are not dead. *)
Lemma control_PKexists_spec empty idleThread i s h a t :
  rep empty idleThread i s h a -> PKexists t s h = Done (bool_decide (t ∈ all a) && negb (is_dead a t)).
Proof.
  intros Hr. pose proof (rep_linked _ _ _ _ _ _ Hr) as Hl. unfold PKexists.
  rewrite (control_exists_loop_spec _ _ _ _ (all a)); [|by apply Hl|by apply (linked_fuel _ _ _ _ Hl)].
  f_equal. case_bool_decide as Ht; [|done]. by rewrite (dead_abs _ _ _ _ _ _ _ Hr).
Qed.

(** Reclaiming keeps every live thread, in order; it takes all the dead ones when no
    two of them are next to each other after a live thread (and the last is alive). *)
Lemma skip_dead_alive d : forall xs p, p ∈ xs -> d p = false -> p ∈ skip_dead d xs.
Proof.
  fix IH 1. intros [|y r] p Hp Hd; [done|]. simpl. destruct (d y) eqn:Ey.
  - apply elem_of_cons in Hp as [->|Hp]; [congruence|]. destruct r as [|z r']; [done|].
    apply elem_of_cons in Hp as [->|Hp]; [set_solver|]. apply elem_of_cons. right. by apply IH.
  - apply elem_of_cons in Hp as [->|Hp]; [set_solver|]. apply elem_of_cons. right. by apply IH.
Qed.

Lemma swept_alive d xs p : p ∈ xs -> d p = false -> p ∈ swept d xs.
Proof.
  unfold swept. induction xs as [|x r IH]; [done|]. intros Hp Hd. simpl. destruct (d x) eqn:Ex.
  - apply elem_of_cons in Hp as [->|Hp]; [congruence|by apply IH].
  - apply elem_of_cons in Hp as [->|Hp]; [set_solver|]. apply elem_of_cons. right. by apply skip_dead_alive.
Qed.

Lemma decided_turns idleThread want got :
  Forall2 (decided idleThread) want got -> got.*1 = want.*2.
Proof. induction 1 as [|[[env later] t] [t' n] ? ? [Ht _] _ IH]; [done|]. rewrite !fmap_cons, IH. simpl in *. by rewrite Ht. Qed.

(** ** Properties *)


(** Every ready thread has a turn in every round.  From any state that the kernel reaches,
    while no thread changes its status, the decisions choose first the threads of the round that
    are still to come and then, in every round, each of the ready threads exactly once, in the same order. *)
Theorem a_turn_each_round (empty idleThread main : positive) (garbage : bool) (ops : list sched_op)
    (envs : list (sched_env * Z)) (k : nat) :
  at_limit 0 = false -> NoDup [empty; idleThread; main] -> prog_ok empty idleThread ops (booted idleThread main) ->
  let a := abs_prog idleThread ops (booted idleThread main) in
  not_paused envs -> length envs = (length (todo (rnd a)) + k * length (members (rnd a)))%nat ->
  exists s h r trace,
    ('(s, h) ← boot empty idleThread main garbage; run_prog (ops ++ finds envs) s h (Running idleThread false)) = Done (s, h, r, trace) /\
    trace.*1 = (turns idleThread ops (booted idleThread main)).*2 ++ todo (rnd a) ++ concat (replicate k (members (rnd a))) /\
    NoDup (members (rnd a)) /\ forall p, p ∈ members (rnd a) <-> p ∈ all a /\ ready h p = true.
Proof.
  intros Hlim Hnd Hok a Hp Hl. destruct (control_boot_spec empty idleThread main garbage Hlim Hnd) as (s & h & -> & Hr). cbn [mbind outcome_bind].
  destruct (control_run_prog_refines empty idleThread _ ops s h (Running idleThread false) _ eq_refl Hr eq_refl Hok)
    as (s1 & h1 & r1 & t1 & E1 & Hr1 & Hc1 & Ht1).
  destruct (control_run_prog_refines empty idleThread _ (finds envs) s1 h1 r1 _ eq_refl Hr1 Hc1 (finds_ok _ _ _ _))
    as (s2 & h2 & r2 & t2 & E2 & Hr2 & _ & Ht2).
  exists s2, h2, r2, (t1 ++ t2). rewrite run_prog_app, E1. cbn [mbind outcome_bind]. rewrite E2. split; [done|].
  rewrite fmap_app, (decided_turns _ _ _ Ht1), (decided_turns _ _ _ Ht2). 
  rewrite (turns_finds _ k) by done. split; [done|]. fold a in Hr1, Hr2. split.
  { pose proof (ar_rep _ _ _ (rep_round _ _ _ _ _ _ Hr1)) as Ha. by pose proof (IntrusiveList.rep_nodup _ _ Ha) as [_ ?]%NoDup_cons. }
  intros p. rewrite (rep_ready _ _ _ _ _ _ Hr1 p). destruct (finds_same idleThread envs a) as [Ea Es].
  assert (Hq : p ∈ all a -> ready h2 p = is_ready a p); [|split; intros [Hpa Hpr]; (split; [done|]); [by rewrite Hq|by rewrite <- Hq]].
  intros Hpa. rewrite (ready_abs _ _ _ _ _ _ p Hr2) by by rewrite Ea. unfold is_ready, flags_of. by rewrite Es.
Qed.

(** A test of [prog_ok]. *)
Definition op_okb (empty idleThread : positive) (o : sched_op) (a : abstract) : bool :=
  match o with
  | CreateThread t _ _ _ => bool_decide (t ∉ empty :: idleThread :: all a)
  | SetFlags t _ | SetPriority t _ => bool_decide (t ∈ all a)
  | RemoveDeadThreads =>
      bool_decide (turn a = idleThread) && match last (all a) with Some x => negb (is_dead a x) | None => false end
  | FindNextThread _ _ => true
  end.

Fixpoint prog_okb (empty idleThread : positive) (ops : list sched_op) (a : abstract) : bool :=
  match ops with [] => true | o :: ops => op_okb empty idleThread o a && prog_okb empty idleThread ops (abs_op idleThread o a) end.

Lemma prog_okb_sound empty idleThread ops : forall a, prog_okb empty idleThread ops a = true -> prog_ok empty idleThread ops a.
Proof.
  induction ops as [|o ops IH]; intros a; [done|]. intros [Ho Hops]%andb_true_iff. split; [|by apply IH].
  destruct o; simpl in *; try done; try by apply bool_decide_eq_true in Ho.
  apply andb_true_iff in Ho as [Ht Hl]. apply bool_decide_eq_true in Ht. split; [done|].
  destruct (last (all a)) as [x|] eqn:El; [|done]. apply last_Some in El as [l El]. exists l, x. by rewrite negb_true_iff in Hl.
Qed.

End control.

(** *** Examples *)

(** The item that closes the list is 1, the idle thread 2, the main thread 3.  Threads 4 and 5
    are created; 4 waits, 5 ends, main sleeps, the idle thread reclaims 5, and main wakes up. *)
Definition at_time (t : Z) : sched_env := SchedEnv 0 None t.
Definition ex_ops : list sched_op :=
  [CreateThread 4 (mkPriority 2 REALTIME_PRIORITY_NEXT_BURST) 0 false; CreateThread 5 (Priority_short 1) 0 true;
   FindNextThread (at_time 1000) 1000; FindNextThread (at_time 3000000) 3000000; FindNextThread (at_time 8000000) 8000000;
   FindNextThread (at_time 12000000) 12000000; FindNextThread (at_time 20000000) 20000000;
   SetFlags 4 (ThreadFlags.SetWait true); SetFlags 5 ThreadFlags.SetDeleted; SetFlags 5 ThreadFlags.SetDetached;
   FindNextThread (at_time 21000000) 21000000; SetPriority 3 (Priority_short 7); SetFlags 3 (ThreadFlags.SetSleep true);
   FindNextThread (SchedEnv 0 (Some 50000000) 25000000) 25000000; RemoveDeadThreads;
   SetFlags 3 (ThreadFlags.SetSleep false); FindNextThread (at_time 50000000) 50000000].


(** The threads chosen, with the times of the preemptions. *)
Example ex_trace :
  ('(s, h) ← boot 1 2 3 true; '(_, _, _, trace) ← run_prog ex_ops s h (Running 2 false); Done trace) =
  Done [(4%positive, 5143857); (3%positive, 6428571); (5%positive, 11428571); (4%positive, 18214764);
        (3%positive, 22642842); (3%positive, 33000000); (2%positive, 50000000); (3%positive, 58000000)].
Proof. vm_compute. reflexivity. Qed.

Lemma a_turn_each_round_witness :
  not_paused (replicate 7 (at_time 0, 0)) /\
  exists s h r trace,
    ('(s, h) ← boot 1 2 3 true; run_prog (take 4 ex_ops ++ finds (replicate 7 (at_time 0, 0))) s h (Running 2 false)) = Done (s, h, r, trace) /\
    trace.*1 = [4; 3]%positive ++ [5]%positive ++ concat (replicate 2 [4; 3; 5]%positive).
Proof.
  assert (Hp : not_paused (replicate 7 (at_time 0, 0))) by (repeat constructor). split; [exact Hp|].
  destruct (a_turn_each_round 1 2 3 true (take 4 ex_ops) (replicate 7 (at_time 0, 0)) 2) as (s & h & r & trace & E & Ht & _);
    [done|by apply (bool_decide_unpack _); vm_compute|by apply prog_okb_sound; vm_compute|exact Hp|by vm_compute|].
  exists s, h, r, trace. split; [exact E|exact Ht].
Defined.

(** A thread that blocks in its turn gives the turn to the next one, and then the decision
    moves on: the next thread loses its burst.  Thread 4 (of real-time priority
    [REALTIME_PRIORITY_NEXT_BURST]) is woken in the turn of 3, runs, and waits again: thread 5, which is
    ready, never runs. *)
Definition starve_setup : list sched_op :=
  [CreateThread 4 (mkPriority 1 REALTIME_PRIORITY_NEXT_BURST) 0 false; CreateThread 5 (Priority_short 1) 0 false;
   FindNextThread (at_time 0) 0; SetFlags 4 (ThreadFlags.SetWait true); FindNextThread (at_time 0) 0; FindNextThread (at_time 0) 0].
Definition starve_cycle : list sched_op :=
  [SetFlags 4 (ThreadFlags.SetWait false); FindNextThread (at_time 0) 0;
   SetFlags 4 (ThreadFlags.SetWait true); FindNextThread (at_time 0) 0].

Lemma starve_cycle_returns :
  let a := abs_prog 2 starve_setup (booted 2 3) in
  abs_prog 2 starve_cycle a = a /\ (turns 2 starve_cycle a).*2 = [4; 3]%positive /\ prog_okb 1 2 starve_cycle a = true.
Proof. vm_compute. split_and!; reflexivity. Qed.

Lemma next_thread_starves k :
  exists s h r trace,
    ('(s, h) ← boot 1 2 3 true; run_prog (starve_setup ++ concat (replicate k starve_cycle)) s h (Running 2 false)) = Done (s, h, r, trace) /\
    ready h 5 = true /\ trace.*1 = [4; 5; 3]%positive ++ concat (replicate k [4; 3]%positive).
Proof.
  set (a := abs_prog 2 starve_setup (booted 2 3)). destruct starve_cycle_returns as (Ea & Et & Eo). fold a in Ea, Et, Eo.
  assert (Hk : forall k, abs_prog 2 (concat (replicate k starve_cycle)) a = a /\
    (turns 2 (concat (replicate k starve_cycle)) a).*2 = concat (replicate k [4; 3]%positive) /\
    prog_ok 1 2 (concat (replicate k starve_cycle)) a).
  { intros n. induction n as [|n (E1 & E2 & E3)]; [done|]. simpl replicate. cbn [concat].
    rewrite turns_app, fmap_app, abs_prog_app, Et, Ea, E1, E2. split_and!; [done..|].
    apply prog_ok_app; [by apply prog_okb_sound|by rewrite Ea]. }
  destruct (Hk k) as (E1 & E2 & E3).
  destruct (control_boot_spec 1 2 3 true) as (s & h & -> & Hr); [done|by apply (bool_decide_unpack _); vm_compute|]. cbn [mbind outcome_bind].
  destruct (control_run_prog_refines 1 2 _ (starve_setup ++ concat (replicate k starve_cycle)) s h (Running 2 false) (booted 2 3) eq_refl Hr eq_refl)
    as (s' & h' & r' & trace & E & Hr' & _ & Ht).
  { apply prog_ok_app; [by apply prog_okb_sound; vm_compute|exact E3]. }
  exists s', h', r', trace. split; [exact E|]. rewrite abs_prog_app in Hr'. fold a in Hr'. rewrite E1 in Hr'. split.
  - rewrite (ready_abs _ _ _ _ _ _ 5 Hr'); [by vm_compute|]. apply (bool_decide_unpack _). by vm_compute.
  - rewrite (decided_turns _ _ _ Ht), turns_app, fmap_app. fold a. by rewrite E2.
Qed.

(** Of two dead threads next to each other the second is left for another time... *)
Example ex_swept : swept (fun p => bool_decide (p ∈ [5; 6]%positive)) [7; 6; 5; 3]%positive = [7; 5; 3]%positive.
Proof. reflexivity. Qed.

(** ...and when the last thread of the list is dead the loop follows a null pointer. *)
Example ex_last_dead :
  ('(s, h) ← boot 1 2 3 true;
   '(s, h, _, _) ← run_prog [CreateThread 4 (Priority_short 1) 0 false; SetFlags 3 ThreadFlags.SetDeleted; SetFlags 3 ThreadFlags.SetDetached]
      s h (Running 2 false);
   '(s, h) ← PKremoveDeadThreads s h; Done (threadListSize s)) = Fault Undefined.
Proof. vm_compute. reflexivity. Qed.

(** With fixed point arithmetic the products do not fit in 32 bits: with one thread that took no time
    the correction should be 90% of the error, and has the other sign. *)
Example ex_fixed_point :
  burst_correction (Arithmetic := floating_point) 0 bNominal 0 = 3600000 /\
  burst_correction (Arithmetic := fixed_point) 0 bNominal 0 = -594694 /\
  ~ (- 2 ^ 31 <= fixedKrr * bNominal < 2 ^ 31).
Proof. vm_compute. split_and!; [reflexivity|reflexivity|]. intros [_ H]. discriminate H. Qed.

(** From 108 threads on, the upper limit of the correction ([bMax*threadListSize] as an [int]) is negative. *)
Example ex_many_threads : s32 (u32 (bMax * 107)) = 2140000000 /\ s32 (u32 (bMax * 108)) = -2134967296.
Proof. split; reflexivity. Qed.

(** A thread created with the default priority may preempt the others or not, depending on what was in memory. *)
Example ex_default_priority :
  less (Priority_short 1) (Priority_default 1) = true /\ less (Priority_short 1) (Priority_default 0) = false /\
  validate (Priority_default 0) = false.
Proof. split_and!; reflexivity. Qed.

(** The order on priorities is not irreflexive on that of the idle thread. *)
Example ex_less_idle : less (Priority_short (-1)) (Priority_short (-1)) = true.
Proof. reflexivity. Qed.

End Control.
