(* ===== verification/Interrupts.v ===== *)
(** * Interrupt disabling and kernel pausing

    [kernel/kernel.cpp]: the two nesting counters that guard critical
    sections, the RAII locks of [kernel/kernel.h] built on them, and the
    missed preemption that [restartKernel] makes up for. *)
From S2P Require Import Prelude Errors.

Local Open Scope Z_scope.

(** [interruptDisableNesting] (unsigned char), [kernel_running] (int),
    [pendingWakeup], [kernel_started], [deepSleepCounter] (int); whether the
    processor has interrupts enabled; the number of calls to
    [Thread::yield()] so far. *)
Record state := State {
  interruptDisableNesting : Z;
  kernel_running : Z;
  pendingWakeup : bool;
  kernel_started : bool;
  deepSleepCounter : Z;
  irq_on : bool;
  yields : nat;
}.

Definition set_nesting (n : Z) (s : state) : state :=
  State n (kernel_running s) (pendingWakeup s) (kernel_started s) (deepSleepCounter s) (irq_on s) (yields s).
Definition set_running (k : Z) (s : state) : state :=
  State (interruptDisableNesting s) k (pendingWakeup s) (kernel_started s) (deepSleepCounter s) (irq_on s) (yields s).
Definition set_pending (b : bool) (s : state) : state :=
  State (interruptDisableNesting s) (kernel_running s) b (kernel_started s) (deepSleepCounter s) (irq_on s) (yields s).
Definition set_deep (d : Z) (s : state) : state :=
  State (interruptDisableNesting s) (kernel_running s) (pendingWakeup s) (kernel_started s) d (irq_on s) (yields s).
Definition set_irq (b : bool) (s : state) : state :=
  State (interruptDisableNesting s) (kernel_running s) (pendingWakeup s) (kernel_started s) (deepSleepCounter s) b (yields s).
Definition yield (s : state) : state :=
  State (interruptDisableNesting s) (kernel_running s) (pendingWakeup s) (kernel_started s) (deepSleepCounter s) (irq_on s) (S (yields s)).

(** ** The functions *)

Definition disableInterrupts (s : state) : exec state :=
  let s := set_irq false s in
  if interruptDisableNesting s =? 0xff then errorHandler NESTING_OVERFLOW
  else Done (set_nesting (u8 (interruptDisableNesting s + 1)) s).

Definition enableInterrupts (s : state) : exec state :=
  if interruptDisableNesting s =? 0 then errorHandler DISABLE_INTERRUPTS_NESTING
  else
    let s := set_nesting (u8 (interruptDisableNesting s - 1)) s in
    Done (if (interruptDisableNesting s =? 0) && kernel_started s then set_irq true s else s).

Definition fastDisableInterrupts (s : state) : state := set_irq false s.
Definition fastEnableInterrupts (s : state) : state := set_irq true s.

Definition pauseKernel (s : state) : exec state :=
  let old := kernel_running s in
  let s := set_running (s32 (old + 1)) s in
  if 0xff <=? old then errorHandler NESTING_OVERFLOW else Done s.

Definition restartKernel (s : state) : exec state :=
  let old := kernel_running s in
  let s := set_running (s32 (old - 1)) s in
  if old <=? 0 then errorHandler PAUSE_KERNEL_NESTING
  else if interruptDisableNesting s =? 0 then
    if (old =? 1) && pendingWakeup s then Done (yield (set_pending false s)) else Done s
  else Done s.

Definition areInterruptsEnabled (s : state) : bool := irq_on s.
Definition isKernelRunning (s : state) : bool := (kernel_running s =? 0) && kernel_started s.

(** With [WITH_DEEP_SLEEP]. *)
Definition deepSleepLock (s : state) : state := set_deep (s32 (deepSleepCounter s + 1)) s.
Definition deepSleepUnlock (s : state) : state := set_deep (s32 (deepSleepCounter s - 1)) s.

(** [IRQtimerInterrupt], once a preemption is due: what it does besides
    asking the scheduler, which does nothing while the kernel is paused. *)
Definition IRQpreempt (s : state) : state :=
  if negb (kernel_running s =? 0) then set_pending true s else s.

(** ** Critical sections

    A program of scoped locks: the constructor of a lock, the block it
    guards, its destructor.  [Probe] records whether interrupts are enabled
    and whether the kernel is running; [Wakeup] is a timer interrupt that
    wakes a thread, which can only occur with interrupts enabled. *)
Inductive stmt :=
| Skip
| Probe
| Wakeup
| Seq (a b : stmt)
| WithInterruptDisableLock (b : stmt)
| WithInterruptEnableLock (b : stmt)
| WithFastInterruptDisableLock (b : stmt)
| WithFastInterruptEnableLock (b : stmt)
| WithPauseKernelLock (b : stmt)
| WithRestartKernelLock (b : stmt)
| WithDeepSleepLock (b : stmt).

Abbreviation observations := (list (bool * bool)).

Definition scoped (enter leave : state -> exec state)
    (body : state -> exec (state * observations)) (s : state) : exec (state * observations) :=
  s ← enter s;
  '(s, o) ← body s;
  s ← leave s;
  Done (s, o).

Definition InterruptDisableLock := scoped disableInterrupts enableInterrupts.
Definition InterruptEnableLock := scoped enableInterrupts disableInterrupts.
Definition FastInterruptDisableLock :=
  scoped (fun s => Done (fastDisableInterrupts s)) (fun s => Done (fastEnableInterrupts s)).
Definition FastInterruptEnableLock :=
  scoped (fun s => Done (fastEnableInterrupts s)) (fun s => Done (fastDisableInterrupts s)).
Definition PauseKernelLock := scoped pauseKernel restartKernel.
Definition RestartKernelLock := scoped restartKernel pauseKernel.
Definition DeepSleepLock := scoped (fun s => Done (deepSleepLock s)) (fun s => Done (deepSleepUnlock s)).

Fixpoint exec_stmt (p : stmt) (s : state) : exec (state * observations) :=
  match p with
  | Skip => Done (s, [])
  | Probe => Done (s, [(areInterruptsEnabled s, isKernelRunning s)])
  | Wakeup => Done (if irq_on s then IRQpreempt s else s, [])
  | Seq a b =>
      '(s, o) ← exec_stmt a s;
      '(s, o') ← exec_stmt b s;
      Done (s, o ++ o')
  | WithInterruptDisableLock b => InterruptDisableLock (exec_stmt b) s
  | WithInterruptEnableLock b => InterruptEnableLock (exec_stmt b) s
  | WithFastInterruptDisableLock b => FastInterruptDisableLock (exec_stmt b) s
  | WithFastInterruptEnableLock b => FastInterruptEnableLock (exec_stmt b) s
  | WithPauseKernelLock b => PauseKernelLock (exec_stmt b) s
  | WithRestartKernelLock b => RestartKernelLock (exec_stmt b) s
  | WithDeepSleepLock b => DeepSleepLock (exec_stmt b) s
  end.

(** The documented use, at depth [n] of disabled interrupts, [k] of paused
    kernel, inside a fast lock or not, with deep sleep locked [d] times: the
    nesting limits are not exceeded, an enable or restart lock is inside the
    lock it undoes, and the fast locks are not mixed with the nesting ones
    nor with the kernel locks (interrupts are not enabled back inside). *)
Fixpoint usable (p : stmt) (n k : Z) (fast : bool) (d : Z) : Prop :=
  match p with
  | Skip | Probe | Wakeup => True
  | Seq a b => usable a n k fast d /\ usable b n k fast d
  | WithInterruptDisableLock b => fast = false /\ n < 255 /\ usable b (n + 1) k fast d
  | WithInterruptEnableLock b => fast = false /\ 0 < n /\ usable b (n - 1) k fast d
  | WithFastInterruptDisableLock b => fast = false /\ n = 0 /\ usable b n k true d
  | WithFastInterruptEnableLock b => fast = true /\ n = 0 /\ usable b n k false d
  | WithPauseKernelLock b => fast = false /\ k < 255 /\ usable b n (k + 1) fast d
  | WithRestartKernelLock b => fast = false /\ 0 < k /\ usable b n (k - 1) fast d
  | WithDeepSleepLock b => d < 2 ^ 31 - 1 /\ usable b n k fast (d + 1)
  end.

(** What the probes should see: the lexical structure. *)
Fixpoint observe (p : stmt) (n k : Z) (fast : bool) : observations :=
  match p with
  | Skip | Wakeup => []
  | Probe => [((n =? 0) && negb fast, k =? 0)]
  | Seq a b => observe a n k fast ++ observe b n k fast
  | WithInterruptDisableLock b => observe b (n + 1) k fast
  | WithInterruptEnableLock b => observe b (n - 1) k fast
  | WithFastInterruptDisableLock b => observe b n k true
  | WithFastInterruptEnableLock b => observe b n k false
  | WithPauseKernelLock b => observe b n (k + 1) fast
  | WithRestartKernelLock b => observe b n (k - 1) fast
  | WithDeepSleepLock b => observe b n k fast
  end.

(** The state at a given depth. *)
Record at_depth (n k : Z) (fast : bool) (d : Z) (s : state) : Prop := AtDepth {
  ad_n : interruptDisableNesting s = n;
  ad_k : kernel_running s = k;
  ad_irq : irq_on s = (n =? 0) && negb fast;
  ad_started : kernel_started s = true;
  ad_d : deepSleepCounter s = d;
  ad_bounds : 0 <= n <= 255 /\ 0 <= k <= 255 /\ 0 <= d < 2 ^ 31;
}.

Lemma u8_small z : 0 <= z <= 255 -> u8 z = z.
Proof. intros. apply wrapU_small. lia. Qed.
Lemma s32_small z : - 2 ^ 31 <= z < 2 ^ 31 -> s32 z = z.
Proof. intros. apply wrapS_small; lia. Qed.

Lemma disable_at n k d s :
  at_depth n k false d s -> n < 255 -> exists s', disableInterrupts s = Done s' /\ at_depth (n + 1) k false d s'.
Proof.
  intros [<- <- Hirq Hst <- Hb] Hn. unfold disableInterrupts. simpl.
  destruct (Z.eqb_spec (interruptDisableNesting s) 255); [lia|]. eexists. split; [done|].
  split; simpl; try done; [apply u8_small; lia| |lia].
  destruct (Z.eqb_spec (interruptDisableNesting s + 1) 0); [lia|done].
Qed.

Lemma enable_at n k d s :
  at_depth n k false d s -> 0 < n -> exists s', enableInterrupts s = Done s' /\ at_depth (n - 1) k false d s'.
Proof.
  intros [<- <- Hirq Hst <- Hb] Hn. unfold enableInterrupts.
  destruct (Z.eqb_spec (interruptDisableNesting s) 0) as [|Hn0]; [lia|].
  eexists. split; [done|]. simpl. rewrite Hst, andb_true_r, u8_small by lia. simpl in Hirq.
  destruct (Z.eqb_spec (interruptDisableNesting s - 1) 0) as [H1|H1]; split; simpl; rewrite ?u8_small; try done; try lia.
  rewrite Hirq. destruct (Z.eqb_spec (interruptDisableNesting s - 1) 0); [lia|done].
Qed.

Lemma pause_at n k d s :
  at_depth n k false d s -> k < 255 -> exists s', pauseKernel s = Done s' /\ at_depth n (k + 1) false d s'.
Proof.
  intros [<- <- Hirq Hst <- Hb] Hk. unfold pauseKernel. destruct (Z.leb_spec 0xff (kernel_running s)); [lia|].
  eexists. split; [done|]. split; simpl; rewrite ?s32_small by lia; try done. lia.
Qed.

(** The destructor of [PauseKernelLock]: with interrupts enabled and the
    kernel restarted, a missed wakeup makes the thread yield. *)
Lemma restart_at n k d s :
  at_depth n k false d s -> 0 < k ->
  exists s', restartKernel s = Done s' /\ at_depth n (k - 1) false d s' /\
    (n = 0 -> k = 1 -> pendingWakeup s' = false /\
       yields s' = (yields s + if pendingWakeup s then 1 else 0)%nat).
Proof.
  intros [<- <- Hirq Hst <- Hb] Hk. unfold restartKernel. destruct (Z.leb_spec (kernel_running s) 0); [lia|].
  assert (Hat : at_depth (interruptDisableNesting s) (kernel_running s - 1) false (deepSleepCounter s)
                  (set_running (s32 (kernel_running s - 1)) s)).
  { split; simpl; rewrite ?s32_small by lia; try done. lia. }
  simpl. destruct (Z.eqb_spec (interruptDisableNesting s) 0) as [H0|H0].
  - destruct (Z.eqb_spec (kernel_running s) 1) as [H1|H1]; simpl.
    + destruct (pendingWakeup s) eqn:Ep.
      * eexists. split; [done|]. split; [by destruct Hat|]. intros _ _. simpl. split; [done|lia].
      * eexists. split; [done|]. split; [done|]. intros _ _. simpl. rewrite Ep. split; [done|lia].
    + eexists. split; [done|]. split; [done|]. lia.
  - eexists. split; [done|]. split; [done|]. lia.
Qed.

Lemma exec_stmt_spec p n k fast d s :
  at_depth n k fast d s -> usable p n k fast d ->
  exists s', exec_stmt p s = Done (s', observe p n k fast) /\ at_depth n k fast d s'.
Proof.
  revert n k fast d s.
  induction p as [| | |a IHa b IHb|b IH|b IH|b IH|b IH|b IH|b IH|b IH]; intros n k fast d s Hat Hu; simpl in *.
  - eauto.
  - exists s. split; [|done]. destruct Hat as [<- <- Hirq Hst <- _].
    unfold areInterruptsEnabled, isKernelRunning. by rewrite Hirq, Hst, andb_true_r.
  - eexists. split; [done|]. unfold IRQpreempt. destruct (irq_on s); [|done].
    destruct Hat. by destruct (kernel_running s =? 0).
  - destruct Hu as [Ha Hb]. destruct (IHa _ _ _ _ _ Hat Ha) as (s1 & -> & Hat1). simpl.
    destruct (IHb _ _ _ _ _ Hat1 Hb) as (s2 & -> & Hat2). simpl. eauto.
  - destruct Hu as (-> & Hn & Hu). unfold InterruptDisableLock, scoped.
    destruct (disable_at _ _ _ _ Hat Hn) as (s1 & -> & Hat1). simpl.
    destruct (IH _ _ _ _ _ Hat1 Hu) as (s2 & -> & Hat2). simpl.
    destruct (enable_at _ _ _ _ Hat2) as (s3 & -> & Hat3); [destruct Hat; lia|]. simpl.
    rewrite Z.add_simpl_r in Hat3. eauto.
  - destruct Hu as (-> & Hn & Hu). unfold InterruptEnableLock, scoped.
    destruct (enable_at _ _ _ _ Hat Hn) as (s1 & -> & Hat1). simpl.
    destruct (IH _ _ _ _ _ Hat1 Hu) as (s2 & -> & Hat2). simpl.
    destruct (disable_at _ _ _ _ Hat2) as (s3 & -> & Hat3); [destruct Hat; lia|]. simpl.
    rewrite Z.sub_simpl_r in Hat3. eauto.
  - destruct Hu as (-> & -> & Hu). unfold FastInterruptDisableLock, scoped. simpl.
    destruct (IH 0 k true d (fastDisableInterrupts s)) as (s2 & -> & Hat2); [by destruct Hat|done|]. simpl.
    eexists. split; [done|]. by destruct Hat2.
  - destruct Hu as (-> & -> & Hu). unfold FastInterruptEnableLock, scoped. simpl.
    destruct (IH 0 k false d (fastEnableInterrupts s)) as (s2 & -> & Hat2); [by destruct Hat|done|]. simpl.
    eexists. split; [done|]. by destruct Hat2.
  - destruct Hu as (-> & Hk & Hu). unfold PauseKernelLock, scoped.
    destruct (pause_at _ _ _ _ Hat Hk) as (s1 & -> & Hat1). simpl.
    destruct (IH _ _ _ _ _ Hat1 Hu) as (s2 & -> & Hat2). simpl.
    destruct (restart_at _ _ _ _ Hat2) as (s3 & -> & Hat3 & _); [destruct Hat; lia|]. simpl.
    rewrite Z.add_simpl_r in Hat3. eauto.
  - destruct Hu as (-> & Hk & Hu). unfold RestartKernelLock, scoped.
    destruct (restart_at _ _ _ _ Hat Hk) as (s1 & -> & Hat1 & _). simpl.
    destruct (IH _ _ _ _ _ Hat1 Hu) as (s2 & -> & Hat2). simpl.
    destruct (pause_at _ _ _ _ Hat2) as (s3 & -> & Hat3); [destruct Hat; lia|]. simpl.
    rewrite Z.sub_simpl_r in Hat3. eauto.
  - destruct Hu as (Hd & Hu). unfold DeepSleepLock, scoped. simpl.
    destruct (IH n k fast (d + 1) (deepSleepLock s)) as (s2 & -> & Hat2); [|done|].
    + destruct Hat as [<- <- Hirq Hst <- Hb]. split; simpl; try done; [apply s32_small|]; lia.
    + simpl. eexists. split; [done|]. destruct Hat2 as [? ? ? ? Hd2 Hb2]. split; simpl; try done.
      * rewrite Hd2, s32_small; lia.
      * destruct Hat. lia.
Qed.

(** ** Properties *)

Definition running (s : state) : Prop :=
  at_depth 0 0 false (deepSleepCounter s) s.

(** The locks nest.  In a started kernel, any program of scoped locks
    used as documented (nested at most 255 deep) runs without an error,
    whatever interrupts occur in it; inside it interrupts are disabled exactly
    between the constructor and the destructor of an interrupt lock and not
    inside an enabling one, and the kernel is paused likewise; and at the end
    both counters, the deep sleep count and the processor's interrupt flag are
    what they were. *)
Theorem locks_nest (p : stmt) (s : state) :
  running s -> usable p 0 0 false (deepSleepCounter s) ->
  exists s', exec_stmt p s = Done (s', observe p 0 0 false) /\ running s' /\
    deepSleepCounter s' = deepSleepCounter s.
Proof.
  intros Hr Hu. destruct (exec_stmt_spec _ _ _ _ _ _ Hr Hu) as (s' & Hrun & Hat).
  exists s'. split; [done|]. pose proof (ad_d _ _ _ _ _ Hat) as Hd. unfold running. by rewrite Hd.
Qed.

Definition ex_state : state := State 0 0 false true 0 true 0.
Definition ex_stmt : stmt :=
  Seq Probe (WithInterruptDisableLock (Seq (WithInterruptDisableLock Probe)
    (WithInterruptEnableLock (Seq Probe (WithPauseKernelLock Probe))))).

Lemma locks_nest_witness :
  exists s', exec_stmt ex_stmt ex_state = Done (s', [(true, true); (false, true); (true, true); (true, false)]) /\
    running s' /\ deepSleepCounter s' = 0.
Proof.
  apply (locks_nest ex_stmt ex_state).
  - split; simpl; lia || done.
  - simpl. split_and!; done || lia.
Defined.

(** A preemption missed while the kernel was paused is made up for.  When
    the outermost [PauseKernelLock] taken with interrupts enabled is released,
    the thread yields once if a wakeup occurred in the block, and no wakeup is
    left pending. *)
Theorem missed_wakeup_yields (p : stmt) (s : state) :
  running s -> usable p 0 1 false (deepSleepCounter s) ->
  exists s1 o s', (s ← pauseKernel s; exec_stmt p s) = Done (s1, o) /\
    exec_stmt (WithPauseKernelLock p) s = Done (s', o) /\
    pendingWakeup s' = false /\
    yields s' = (yields s1 + if pendingWakeup s1 then 1 else 0)%nat.
Proof.
  intros Hr Hu. simpl. unfold PauseKernelLock, scoped.
  destruct (pause_at _ _ _ _ Hr) as (s0 & -> & Hat0); [lia|]. simpl.
  destruct (exec_stmt_spec p _ _ _ _ _ Hat0 Hu) as (s1 & -> & Hat1). simpl.
  destruct (restart_at _ _ _ _ Hat1) as (s' & -> & _ & Hy); [lia|].
  exists s1, (observe p 0 1 false), s'. split_and!; [done|done|by apply Hy..].
Qed.

Lemma missed_wakeup_yields_witness :
  exists s1 o s', (s ← pauseKernel ex_state; exec_stmt Wakeup s) = Done (s1, o) /\
    exec_stmt (WithPauseKernelLock Wakeup) ex_state = Done (s', o) /\
    pendingWakeup s' = false /\ yields s' = (yields s1 + if pendingWakeup s1 then 1 else 0)%nat.
Proof. apply (missed_wakeup_yields Wakeup ex_state); [split; simpl; lia || done|done]. Defined.

Example ex_missed_wakeup :
  ('(s, _) ← exec_stmt (WithPauseKernelLock Wakeup) ex_state; Done (yields s)) = Done 1%nat.
Proof. reflexivity. Qed.

(** The plain calls, as the locks make them. *)
Inductive call := DisableInterrupts | EnableInterrupts | PauseKernel | RestartKernel.

Definition exec_call (c : call) : state -> exec state :=
  match c with
  | DisableInterrupts => disableInterrupts
  | EnableInterrupts => enableInterrupts
  | PauseKernel => pauseKernel
  | RestartKernel => restartKernel
  end.

Fixpoint exec_calls (cs : list call) (s : state) : exec state :=
  match cs with [] => Done s | c :: cs => s ← exec_call c s; exec_calls cs s end.

(** The depths after a call, or the error it must stop with. *)
Definition depth_call (c : call) '(n, k) : exec (Z * Z) :=
  match c with
  | DisableInterrupts => if n <? 255 then Done (n + 1, k) else Fault (Err NESTING_OVERFLOW)
  | EnableInterrupts => if 0 <? n then Done (n - 1, k) else Fault (Err DISABLE_INTERRUPTS_NESTING)
  | PauseKernel => if k <? 255 then Done (n, k + 1) else Fault (Err NESTING_OVERFLOW)
  | RestartKernel => if 0 <? k then Done (n, k - 1) else Fault (Err PAUSE_KERNEL_NESTING)
  end.
Fixpoint depth_calls (cs : list call) (nk : Z * Z) : exec (Z * Z) :=
  match cs with [] => Done nk | c :: cs => nk ← depth_call c nk; depth_calls cs nk end.

Lemma exec_call_spec c n k d s :
  at_depth n k false d s ->
  match depth_call c (n, k) with
  | Done (n', k') => exists s', exec_call c s = Done s' /\ at_depth n' k' false d s'
  | Fault e => exec_call c s = Fault e
  end.
Proof.
  intros Hat. destruct c; simpl.
  - destruct (Z.ltb_spec n 255); [by apply disable_at|]. destruct Hat as [<- _ _ _ _ Hb].
    unfold disableInterrupts. simpl. destruct (Z.eqb_spec (interruptDisableNesting s) 255); [done|lia].
  - destruct (Z.ltb_spec 0 n); [by apply enable_at|]. destruct Hat as [<- _ _ _ _ Hb].
    unfold enableInterrupts. destruct (Z.eqb_spec (interruptDisableNesting s) 0); [done|lia].
  - destruct (Z.ltb_spec k 255); [by apply pause_at|]. destruct Hat as [_ <- _ _ _ Hb].
    unfold pauseKernel. destruct (Z.leb_spec 0xff (kernel_running s)); [done|lia].
  - destruct (Z.ltb_spec 0 k).
    + destruct (restart_at _ _ _ _ Hat) as (s' & ? & ? & _); eauto.
    + destruct Hat as [_ <- _ _ _ Hb]. unfold restartKernel.
      destruct (Z.leb_spec (kernel_running s) 0); [done|lia].
Qed.

Lemma exec_calls_spec cs n k d s :
  at_depth n k false d s ->
  match depth_calls cs (n, k) with
  | Done (n', k') => exists s', exec_calls cs s = Done s' /\
      interruptDisableNesting s' = n' /\ kernel_running s' = k' /\
      areInterruptsEnabled s' = (n' =? 0) /\ isKernelRunning s' = (k' =? 0)
  | Fault e => exec_calls cs s = Fault e
  end.
Proof.
  revert n k s. induction cs as [|c cs IH]; intros n k s Hat; cbn [depth_calls exec_calls].
  - exists s. destruct Hat as [<- <- Hirq Hst _ _]. split_and!; [done..| |].
    + unfold areInterruptsEnabled. by rewrite Hirq, andb_true_r.
    + unfold isKernelRunning. by rewrite Hst, andb_true_r.
  - pose proof (exec_call_spec c n k d s Hat) as Hc.
    destruct (depth_call c (n, k)) as [[n' k']|e]; cbn [mbind outcome_bind].
    + destruct Hc as (s' & -> & Hat'). by apply IH.
    + by rewrite Hc.
Qed.

(** Nesting errors are detected.  Any sequence of calls to
    [disableInterrupts], [enableInterrupts], [pauseKernel] and
    [restartKernel] in a started kernel stops with exactly the error of its
    first unmatched enable or restart, or of its first call past depth 255;
    a sequence without one leaves the counters at the number of calls not
    undone, the processor's interrupts enabled exactly when interrupts are
    not disabled. *)
Theorem nesting_errors (cs : list call) (s : state) :
  running s ->
  match depth_calls cs (0, 0) with
  | Done (n, k) => exists s', exec_calls cs s = Done s' /\
      interruptDisableNesting s' = n /\ kernel_running s' = k /\
      areInterruptsEnabled s' = (n =? 0) /\ isKernelRunning s' = (k =? 0)
  | Fault e => exec_calls cs s = Fault e
  end.
Proof.
  apply exec_calls_spec.
Qed.

Lemma nesting_errors_witness :
  running ex_state /\ exec_calls [DisableInterrupts; PauseKernel; EnableInterrupts; EnableInterrupts] ex_state
    = Fault (Err DISABLE_INTERRUPTS_NESTING).
Proof.
  assert (Hr : running ex_state) by (split; simpl; lia || done). split; [done|].
  exact (nesting_errors [DisableInterrupts; PauseKernel; EnableInterrupts; EnableInterrupts] ex_state Hr).
Defined.
