(* ===== verification/SleepList.v ===== *)
(** * Sleeping threads

    [kernel/kernel.cpp]: [sleepingList], an intrusive list of [SleepData]
    sorted by wakeup time; [IRQaddToSleepingList], [IRQwakeThreads] and the
    sleep functions of [Thread]. *)
From Stdlib Require Import Sorted.
From S2P Require Import Prelude Errors IntrusiveList Threads Scheduler PriorityScheduler.

Local Open Scope Z_scope.

Module Sleep.

(** [p] is null in the record of the control scheduler only. *)
Record SleepData := mkSleepData { p : option positive; wakeup_time : Z }.

(** [sleepingList], the [SleepData] objects that are its items, the threads. *)
Record state := State {
  sleepingList : IntrusiveList.state;
  data : gmap positive SleepData;
  heap : threads;
}.
Definition set_list (l : IntrusiveList.state) (s : state) : state := State l (data s) (heap s).
Definition set_heap (h : threads) (s : state) : state := State (sleepingList s) (data s) h.

Section sleep.
Context {S : Type} `{SchedulerOps S}.

(** [( *it)->...] *)
Definition load_data (s : state) (it : iterator) : exec SleepData :=
  x ← deref it; deref (data s !! x).

(** [while(it!=end && ( *it)->wakeup_time < w) ++it;] *)
Fixpoint find_position (n : nat) (s : state) (it : iterator) (w : Z) : exec iterator :=
  match n with
  | O => Fault OutOfFuel
  | Datatypes.S n =>
      if bool_decide (it = end_ (sleepingList s)) then Done it
      else
        d ← load_data s it;
        if wakeup_time d <? w then it ← it_incr (sleepingList s) it; find_position n s it w
        else Done it
  end.

(** Steps a walk of the list may take. *)
Definition fuel (s : state) : nat := Datatypes.S (size (data s)).

Definition IRQaddToSleepingList (x : positive) (s : state) : exec state :=
  dx ← deref (data s !! x);
  t ← deref (p dx);
  h ← store (heap s) t (set_flags (ThreadFlags.IRQsetSleep true));
  let s := set_heap h s in
  before ← (if IntrusiveList.empty (sleepingList s) then Done true
            else d ← load_data s (Some (front (sleepingList s))); Done (wakeup_time dx <=? wakeup_time d));
  if before : bool then
    l ← push_front x (sleepingList s); Done (set_list l s)
  else
    it ← find_position (fuel s) s (begin (sleepingList s)) (wakeup_time dx);
    l ← insert_ it x (sleepingList s); Done (set_list l s).

(** The [for] loop of [IRQwakeThreads]; [result] so far. *)
Fixpoint wake_loop (n : nat) (cur : positive) (currentTime : Z) (it : iterator) (result : bool) (s : state)
    : exec (bool * state) :=
  match n with
  | O => Fault OutOfFuel
  | Datatypes.S n =>
      if bool_decide (it = end_ (sleepingList s)) then Done (result, s)
      else
        d ← load_data s it;
        if currentTime <? wakeup_time d then Done (result, s)
        else
          match p d with
          | None => it ← it_incr (sleepingList s) it; wake_loop n cur currentTime it result s
          | Some t =>
              h ← store (heap s) t (set_flags (ThreadFlags.IRQsetSleep false));
              pc ← getPriority cur h;
              pt ← getPriority t h;
              let result := if less pc pt then true else result in
              '(it, l) ← erase it (sleepingList s);
              wake_loop n cur currentTime it result (set_list l (set_heap h s))
          end
  end.

Definition IRQwakeThreads (cur : positive) (currentTime : Z) (s : state) : exec (bool * state) :=
  if IntrusiveList.empty (sleepingList s) then Done (false, s)
  else wake_loop (fuel s) cur currentTime (begin (sleepingList s)) false s.

(** [Thread::nanoSleepUntil] up to the yield: the local [SleepData d], at
    address [d], is filled and queued. *)
Definition nanoSleepUntil (cur d : positive) (absoluteTimeNs : Z) (s : state) : exec state :=
  let absoluteTimeNs := Z.max absoluteTimeNs 100000 in
  let s := State (sleepingList s) (<[d := mkSleepData (Some cur) absoluteTimeNs]> (data s)) (heap s) in
  IRQaddToSleepingList d s.

(** [Thread::nanoSleep]; [None] when it returns without sleeping. *)
Definition nanoSleep (cur d : positive) (getTime ns : Z) (s : state) : exec (option state) :=
  if ns <=? 0 then Done None
  else s ← nanoSleepUntil cur d (s64 (getTime + ns)) s; Done (Some s).

(** [Thread::sleep]: [ms] is an unsigned int; the product is of unsigned long
    long type, converted to long long. *)
Definition sleep (cur d : positive) (getTime ms : Z) (s : state) : exec (option state) :=
  nanoSleep cur d getTime (s64 (u64 (ms * 1000000))) s.

(** ** The sorted list *)

(** The items, with the time and the thread of each. *)
Definition time (s : state) (x : positive) : Z := from_option wakeup_time 0 (data s !! x).
Definition thread (s : state) (x : positive) : option positive := data s !! x ≫= p.

Record wf (s : state) (xs : list positive) : Prop := Wf {
  wf_rep : rep (sleepingList s) xs;
  wf_data : forall x, x ∈ xs -> is_Some (data s !! x);
  wf_sorted : StronglySorted (fun x y => time s x <= time s y) xs;
  wf_thread : forall x t, x ∈ xs -> thread s x = Some t -> is_Some (heap s !! t);
}.

Lemma wf_fuel s xs : wf s xs -> (length xs < fuel s)%nat.
Proof.
  intros Hw. unfold fuel. assert (length xs <= size (data s))%nat; [|lia].
  pose proof (rep_nodup _ _ (wf_rep _ _ Hw)) as Hnd. apply NoDup_cons in Hnd as [_ Hnd].
  rewrite <- size_dom, <- (size_list_to_set (C := gset positive) xs) by done.
  apply subseteq_size. intros x Hx. apply elem_of_list_to_set in Hx. apply elem_of_dom. by apply (wf_data _ _ Hw).
Qed.

(** Insertion before the first item that does not wake up earlier. *)
Fixpoint insert_sorted (s : state) (x : positive) (w : Z) (xs : list positive) : list positive :=
  match xs with
  | [] => [x]
  | y :: ys => if time s y <? w then y :: insert_sorted s x w ys else x :: y :: ys
  end.

Lemma insert_sorted_split s x w xs :
  exists l r, xs = l ++ r /\ insert_sorted s x w xs = l ++ x :: r /\
    (forall y, y ∈ l -> time s y < w) /\ (forall y, list.head r = Some y -> w <= time s y).
Proof.
  induction xs as [|y ys (l & r & -> & Hi & Hl & Hr)]; simpl.
  - exists [], []. split_and!; [done|done|set_solver|done].
  - destruct (Z.ltb_spec (time s y) w) as [Hlt|Hge].
    + exists (y :: l), r. split_and!; [done|by rewrite Hi| |done].
      intros z [->|Hz]%elem_of_cons; auto.
    + exists [], (y :: l ++ r). split_and!; [done|done|set_solver|]. by intros z [= <-].
Qed.

Lemma load_data_Done s x : is_Some (data s !! x) ->
  exists d, load_data s (Some x) = Done d /\ data s !! x = Some d /\ wakeup_time d = time s x /\ p d = thread s x.
Proof. intros [d Hd]. exists d. unfold load_data, time, thread. simpl. by rewrite Hd. Qed.

Lemma find_position_spec n s l r w done_ :
  rep (sleepingList s) (done_ ++ l ++ r) ->
  (forall y, y ∈ l ++ r -> is_Some (data s !! y)) ->
  (forall y, y ∈ l -> time s y < w) -> (forall y, list.head r = Some y -> w <= time s y) ->
  (length l < n)%nat ->
  find_position n s (Some (default (emptyListItem (sleepingList s)) (list.head (l ++ r)))) w
  = Done (Some (default (emptyListItem (sleepingList s)) (list.head r))).
Proof.
  revert n done_. induction l as [|y l IH]; intros n dn Hr Hd Hl Hrr Hn; (destruct n as [|n]; [simpl in Hn; lia|]); simpl.
  - destruct r as [|y r]; simpl; [by rewrite bool_decide_eq_true_2|].
    pose proof (rep_nodup _ _ Hr) as Hnd. apply NoDup_cons in Hnd as [He _].
    rewrite bool_decide_eq_false_2 by (intros [= ->]; set_solver).
    destruct (load_data_Done s y) as (d & -> & _ & Hw & _); [apply Hd; set_solver|]. simpl.
    rewrite Hw. destruct (Z.ltb_spec (time s y) w) as [Hlt|]; [|done].
    specialize (Hrr y eq_refl). lia.
  - pose proof (rep_nodup _ _ Hr) as Hnd. apply NoDup_cons in Hnd as [He _].
    rewrite bool_decide_eq_false_2 by (intros [= ->]; set_solver).
    destruct (load_data_Done s y) as (d & Hload & _ & Hw & _); [apply Hd; set_solver|].
    simpl in Hload. rewrite Hload. simpl. rewrite Hw.
    destruct (Z.ltb_spec (time s y) w) as [|Hge]; [|specialize (Hl y ltac:(set_solver)); lia].
    pose proof (rep_seg _ _ Hr) as Hseg. simpl in Hseg. apply seg_link in Hseg as [Hnext _]. rewrite Hnext. simpl.
    apply (IH n (dn ++ [y])); try done.
    + by rewrite <- app_assoc.
    + intros z Hz. apply Hd. set_solver.
    + intros z Hz. apply Hl. set_solver.
    + simpl in Hn. lia.
Qed.

Lemma sorted_insert s x w xs :
  StronglySorted (fun x y => time s x <= time s y) xs -> time s x = w ->
  StronglySorted (fun x y => time s x <= time s y) (insert_sorted s x w xs).
Proof.
  intros Hs <-. induction Hs as [|y ys Hs IH Hy]; simpl; [repeat constructor|].
  rewrite Forall_forall in Hy. destruct (Z.ltb_spec (time s y) (time s x)) as [Hlt|Hge].
  - constructor; [done|]. apply Forall_forall. intros z Hz.
    destruct (insert_sorted_split s x (time s x) ys) as (l & r & Heq & Hi & _). rewrite Hi in Hz.
    assert (z = x \/ z ∈ ys) as [->|Hz'] by (rewrite Heq; set_solver); [lia|by apply Hy].
  - constructor; [by constructor; [|apply Forall_forall]|]. apply Forall_forall.
    intros z [->|Hz]%elem_of_cons; [done|]. specialize (Hy z Hz). lia.
Qed.

Lemma elem_of_insert_sorted s x w xs y : y ∈ insert_sorted s x w xs <-> y = x \/ y ∈ xs.
Proof. destruct (insert_sorted_split s x w xs) as (l & r & -> & -> & _). set_solver. Qed.

(** ** IRQaddToSleepingList *)

Lemma IRQaddToSleepingList_spec s xs x dx t tt :
  wf s xs -> data s !! x = Some dx -> p dx = Some t -> heap s !! t = Some tt ->
  x ∉ emptyListItem (sleepingList s) :: xs ->
  exists l, IRQaddToSleepingList x s =
      Done (State l (data s) (<[t := set_flags (ThreadFlags.IRQsetSleep true) tt]> (heap s))) /\
    wf (State l (data s) (<[t := set_flags (ThreadFlags.IRQsetSleep true) tt]> (heap s)))
       (insert_sorted s x (wakeup_time dx) xs) /\
    emptyListItem l = emptyListItem (sleepingList s).
Proof.
  intros Hw Hdx Hp Ht Hx. pose proof Hw as [Hrep Hdata Hsort Hthr].
  set (h' := <[t := _]> (heap s)). set (s1 := set_heap h' s).
  assert (Htime : time s x = wakeup_time dx) by (unfold time; by rewrite Hdx).
  assert (Hwf : forall l, rep l (insert_sorted s x (wakeup_time dx) xs) ->
                wf (State l (data s) h') (insert_sorted s x (wakeup_time dx) xs)).
  { intros l Hl. split; simpl; [done| | |].
    - intros y [->|Hy]%elem_of_insert_sorted; [by eexists|by apply Hdata].
    - change (StronglySorted (fun x y => time s x <= time s y) (insert_sorted s x (wakeup_time dx) xs)).
      by apply sorted_insert.
    - intros y u Hy Hu. unfold h'. destruct (decide (u = t)) as [->|]; [by rewrite lookup_insert_eq; eexists|].
      rewrite lookup_insert_ne by done. apply elem_of_insert_sorted in Hy as [->|Hy]; [|by eapply Hthr].
      unfold thread in Hu. simpl in Hu. rewrite Hdx in Hu. simpl in Hu. congruence. }
  unfold IRQaddToSleepingList. rewrite Hdx. simpl. rewrite Hp. simpl. rewrite (store_Some _ _ _ _ Ht).
  cbn [mbind outcome_bind]. fold h' s1. change (sleepingList s1) with (sleepingList s).
  rewrite (rep_empty _ _ Hrep).
  assert (Hfront : exists b, (if bool_decide (xs = []) then Done true
      else d ← load_data s1 (Some (front (sleepingList s))); Done (wakeup_time dx <=? wakeup_time d)) = Done b /\
      (b = true -> insert_sorted s x (wakeup_time dx) xs = x :: xs) /\ (b = false -> xs <> [])).
  { destruct xs as [|y ys]; [by exists true|]. rewrite bool_decide_eq_false_2 by done. unfold front.
    rewrite (rep_head _ _ Hrep). simpl list.head. simpl default.
    destruct (load_data_Done s1 y) as (d & -> & _ & Hd & _); [apply Hdata; set_solver|]. simpl.
    eexists. split; [done|]. split; [|done]. rewrite Hd. change (time s1 y) with (time s y).
    intros Hle%Z.leb_le. destruct (Z.ltb_spec (time s y) (wakeup_time dx)); [lia|done]. }
  destruct Hfront as (b & Hb & Hins & Hne). rewrite Hb. cbn [mbind outcome_bind]. destruct b.
  - destruct (push_front_spec (sleepingList s) xs x Hrep Hx) as (l & -> & [Hl _ [He _]]).
    simpl. exists l. split_and!; [done| |done]. apply Hwf. by rewrite Hins.
  - destruct (insert_sorted_split s x (wakeup_time dx) xs) as (l & r & -> & Hi & Hl & Hr).
    unfold begin. rewrite (rep_head _ _ Hrep).
    pose proof (find_position_spec (fuel s1) s1 l r (wakeup_time dx) [] Hrep) as Hpos.
    simpl in Hpos. change (emptyListItem (sleepingList s1)) with (emptyListItem (sleepingList s)) in Hpos.
    rewrite Hpos; [|done..|].
    2:{ pose proof (wf_fuel s (l ++ r) Hw) as Hf. rewrite length_app in Hf.
        change (fuel s1) with (fuel s). lia. }
    cbn [mbind outcome_bind].
    destruct (insert_spec (sleepingList s) l r x Hrep Hx) as (l' & -> & [Hl' _ [He _]]). simpl.
    exists l'. split_and!; [done| |done]. apply Hwf. by rewrite Hi.
Qed.

(** ** IRQwakeThreads *)

(** The items that stay, and the threads that are woken, at time [now]. *)
Fixpoint after_wake (s : state) (now : Z) (xs : list positive) : list positive :=
  match xs with
  | [] => []
  | x :: r =>
      if now <? time s x then x :: r
      else match thread s x with None => x :: after_wake s now r | Some _ => after_wake s now r end
  end.
Fixpoint woken (s : state) (now : Z) (xs : list positive) : list positive :=
  match xs with
  | [] => []
  | x :: r =>
      if now <? time s x then []
      else match thread s x with None => woken s now r | Some t => t :: woken s now r end
  end.

(** They depend on the [SleepData] objects only. *)
Lemma wake_data s s' now xs :
  data s' = data s -> after_wake s' now xs = after_wake s now xs /\ woken s' now xs = woken s now xs.
Proof.
  intros Hd. induction xs as [|x r [IH1 IH2]]; [done|]. simpl. unfold time, thread.
  by rewrite Hd, IH1, IH2.
Qed.

Definition wake (h : threads) (t : positive) : threads := alter (set_flags (ThreadFlags.IRQsetSleep false)) t h.
Definition prio (h : threads) (t : positive) : Z := from_option priority 0 (h !! t).

Lemma prio_wake h t u : prio (wake h t) u = prio h u.
Proof.
  unfold prio, wake. destruct (decide (u = t)) as [->|].
  - rewrite lookup_alter_eq. by destruct (h !! t).
  - by rewrite lookup_alter_ne.
Qed.
Lemma wake_in h t u : is_Some (wake h t !! u) <-> is_Some (h !! u).
Proof. unfold wake. destruct (decide (u = t)) as [->|]; [rewrite lookup_alter_eq|rewrite lookup_alter_ne by done]; by rewrite ?fmap_is_Some. Qed.
Lemma wake_all_in h ts u : is_Some (foldl wake h ts !! u) <-> is_Some (h !! u).
Proof. revert h. induction ts as [|t ts IH]; intros h; simpl; [done|]. by rewrite IH, wake_in. Qed.

Lemma after_wake_subset s now xs x : x ∈ after_wake s now xs -> x ∈ xs.
Proof.
  induction xs as [|y r IH]; simpl; [done|]. destruct (now <? time s y); [done|].
  destruct (thread s y); set_solver.
Qed.

Lemma existsb_ext {A} (f g : A -> bool) l : (forall x, f x = g x) -> existsb f l = existsb g l.
Proof. intros Hf. induction l as [|x l IH]; simpl; [done|]. by rewrite Hf, IH. Qed.

Context `{!Scheduler S}.

Lemma getPriority_prio h t : is_Some (h !! t) -> getPriority t h = Done (prio h t).
Proof. intros [tt Ht]. rewrite (getPriority_reads h t tt Ht). unfold prio. by rewrite Ht. Qed.

Lemma wake_loop_spec n cur now s dn r result :
  rep (sleepingList s) (dn ++ r) ->
  (forall x, x ∈ r -> is_Some (data s !! x)) ->
  (forall x t, x ∈ r -> thread s x = Some t -> is_Some (heap s !! t)) ->
  is_Some (heap s !! cur) -> (length r < n)%nat ->
  exists l, wake_loop n cur now (Some (default (emptyListItem (sleepingList s)) (list.head r))) result s =
      Done (result || existsb (fun t => less (prio (heap s) cur) (prio (heap s) t)) (woken s now r),
            State l (data s) (foldl wake (heap s) (woken s now r))) /\
    rep l (dn ++ after_wake s now r) /\ emptyListItem l = emptyListItem (sleepingList s).
Proof.
  revert n s dn result. induction r as [|x r IH]; intros n s dn result Hrep Hd Ht Hc Hn;
    (destruct n as [|n]; [simpl in Hn; lia|]); simpl.
  { rewrite bool_decide_eq_true_2 by done. exists (sleepingList s). rewrite orb_false_r. by destruct s. }
  pose proof (rep_nodup _ _ Hrep) as Hnd. apply NoDup_cons in Hnd as [He Hnd].
  rewrite bool_decide_eq_false_2 by (intros [= ->]; set_solver).
  destruct (load_data_Done s x) as (d & Hload & Hdx & Hw & Hp); [apply Hd; set_solver|].
  simpl in Hload. rewrite Hload. simpl. rewrite Hw. destruct (now <? time s x).
  { exists (sleepingList s). rewrite orb_false_r. by destruct s. }
  rewrite Hp. destruct (thread s x) as [t|] eqn:Eth.
  - destruct (Ht x t) as [tt Htt]; [set_solver|done|]. rewrite (store_Some _ _ _ _ Htt).
    assert (<[t := set_flags (ThreadFlags.IRQsetSleep false) tt]> (heap s) = wake (heap s) t) as ->.
    { unfold wake. apply map_eq. intros u. destruct (decide (u = t)) as [->|].
      - by rewrite lookup_insert_eq, lookup_alter_eq, Htt.
      - by rewrite lookup_insert_ne, lookup_alter_ne. }
    cbn [mbind outcome_bind]. rewrite !getPriority_prio by (rewrite wake_in; done || by eexists).
    cbn [mbind outcome_bind]. rewrite !prio_wake.
    destruct (erase_spec (sleepingList s) dn x r Hrep) as (l & -> & [Hl _ [Hel _]]). cbn [mbind outcome_bind].
    destruct (IH n (State l (data s) (wake (heap s) t)) dn (if less (prio (heap s) cur) (prio (heap s) t) then true else result))
      as (l' & Hrun & Hrep' & He').
    + done.
    + intros y Hy. apply Hd. set_solver.
    + intros y u Hy Hu. simpl. rewrite wake_in. apply (Ht y); [set_solver|done].
    + simpl. by rewrite wake_in.
    + simpl in Hn. lia.
    + exists l'. simpl in Hrun, He'. unfold set_list, set_heap. simpl. rewrite Hel in Hrun, He'.
      destruct (wake_data s (State l (data s) (wake (heap s) t)) now r eq_refl) as [Ha Hwk].
      rewrite Hwk in Hrun. rewrite Ha in Hrep'. rewrite Hrun.
      split_and!; [|done|done]. f_equal. f_equal.
      rewrite (existsb_ext _ (fun u => less (prio (heap s) cur) (prio (heap s) u))) by (intros u; by rewrite !prio_wake).
      destruct (less (prio (heap s) cur) (prio (heap s) t)), result; done.
  - pose proof (rep_seg _ _ Hrep) as Hseg. apply seg_link in Hseg as [Hnext _]. rewrite Hnext. simpl.
    destruct (IH n s (dn ++ [x]) result) as (l' & Hrun & Hrep' & He').
    + by rewrite <- app_assoc.
    + intros y Hy. apply Hd. set_solver.
    + intros y u Hy Hu. apply (Ht y); [set_solver|done].
    + done.
    + simpl in Hn. lia.
    + exists l'. rewrite <- app_assoc in Hrep'. done.
Qed.

Lemma IRQwakeThreads_spec cur now s xs :
  wf s xs -> is_Some (heap s !! cur) ->
  exists l, IRQwakeThreads cur now s =
      Done (existsb (fun t => less (prio (heap s) cur) (prio (heap s) t)) (woken s now xs),
            State l (data s) (foldl wake (heap s) (woken s now xs))) /\
    wf (State l (data s) (foldl wake (heap s) (woken s now xs))) (after_wake s now xs) /\
    emptyListItem l = emptyListItem (sleepingList s).
Proof.
  intros Hw Hc. pose proof Hw as [Hrep Hd Hs Ht]. unfold IRQwakeThreads. rewrite (rep_empty _ _ Hrep).
  assert (Hwf : forall l, rep l (after_wake s now xs) ->
    wf (State l (data s) (foldl wake (heap s) (woken s now xs))) (after_wake s now xs)).
  { intros l Hl. split; simpl; [done| | |].
    - intros x Hx. eapply Hd, after_wake_subset, Hx.
    - clear -Hs. induction Hs as [|x r Hs IH Hx]; simpl; [constructor|].
      destruct (now <? time s x); [by constructor|]. destruct (thread s x); [done|].
      constructor; [done|]. rewrite Forall_forall in Hx |- *. intros y Hy. eapply Hx, after_wake_subset, Hy.
    - intros x t Hx Hth. rewrite wake_all_in. apply (Ht x); [by eapply after_wake_subset|done]. }
  case_bool_decide as Hnil.
  - subst xs. simpl. exists (sleepingList s). split_and!; [by destruct s|by destruct s|done].
  - destruct (wake_loop_spec (fuel s) cur now s [] xs false Hrep Hd Ht Hc (wf_fuel _ _ Hw)) as (l & Hrun & Hl & He).
    unfold begin. rewrite (rep_head _ _ Hrep), Hrun. simpl. eauto.
Qed.

(** ** Programs of sleeps and timer interrupts

    Each thread [t] sleeps on its own [SleepData], the local variable
    [node t] of [nanoSleepUntil]. *)

Inductive event :=
| SleepUntil (t : positive) (absoluteTimeNs : Z)
| TimerInterrupt (cur : positive) (now : Z).

Section programs.
Context (node : positive -> positive) `{!Inj (=) (=) node} (e : positive) (node_e : forall t, node t <> e).

Definition exec_event (ev : event) (s : state) : exec (state * list bool) :=
  match ev with
  | SleepUntil t w => s ← nanoSleepUntil t (node t) w s; Done (s, [])
  | TimerInterrupt cur now => '(b, s) ← IRQwakeThreads cur now s; Done (s, [b])
  end.

Fixpoint exec_events (evs : list event) (s : state) : exec (state * list bool) :=
  match evs with
  | [] => Done (s, [])
  | ev :: evs => '(s, r) ← exec_event ev s; '(s, rs) ← exec_events evs s; Done (s, r ++ rs)
  end.

(** The sleeping threads and the times they sleep until. *)
Abbreviation asleep := (gmap positive Z).

Definition spec_event (ev : event) (A : asleep) : asleep :=
  match ev with
  | SleepUntil t w => <[t := Z.max w 100000]> A
  | TimerInterrupt cur now => filter (fun '(_, w) => now < w) A
  end.

(** A thread that goes to sleep is running: in memory, and not asleep. *)
Definition event_ok (h : threads) (ev : event) (A : asleep) : Prop :=
  match ev with
  | SleepUntil t w => is_Some (h !! t) /\ A !! t = None
  | TimerInterrupt cur now => is_Some (h !! cur)
  end.
Fixpoint events_ok (h : threads) (evs : list event) (A : asleep) : Prop :=
  match evs with
  | [] => True
  | ev :: evs => event_ok h ev A /\ events_ok h evs (spec_event ev A)
  end.
Definition spec_events (evs : list event) (A : asleep) : asleep := foldl (fun A ev => spec_event ev A) A evs.

(** What a timer interrupt must return: whether a thread due at [now] has a
    higher priority than the running one. *)
Definition higher_woken (h : threads) (A : asleep) (cur : positive) (now : Z) (b : bool) : Prop :=
  b = true <-> exists t w, A !! t = Some w /\ w <= now /\ less (prio h cur) (prio h t) = true.
Fixpoint results_ok (h : threads) (evs : list event) (A : asleep) (rs : list bool) : Prop :=
  match evs with
  | [] => rs = []
  | SleepUntil _ _ as ev :: evs => results_ok h evs (spec_event ev A) rs
  | TimerInterrupt cur now as ev :: evs =>
      match rs with
      | [] => False
      | b :: rs => higher_woken h A cur now b /\ results_ok h evs (spec_event ev A) rs
      end
  end.

(** The state stands for [A]: the list holds the nodes of the sleeping
    threads, sorted by wakeup time; exactly these have the SLEEP flag. *)
Record stands_for (h : threads) (s : state) (A : asleep) : Prop := StandsFor {
  sf_list : exists xs, wf s xs /\
    (forall x, x ∈ xs -> exists t, x = node t /\ thread s x = Some t) /\
    (forall t w, A !! t = Some w <-> node t ∈ xs /\ time s (node t) = w);
  sf_empty : emptyListItem (sleepingList s) = e;
  sf_flags : forall t tt, heap s !! t = Some tt -> ThreadFlags.valid (flags tt) /\
    ThreadFlags.isSleeping (flags tt) = bool_decide (is_Some (A !! t));
  sf_prio : forall t, prio (heap s) t = prio h t;
  sf_heap : forall t, is_Some (heap s !! t) <-> is_Some (h !! t);
}.

Lemma setSleep_valid b f :
  ThreadFlags.valid f ->
  ThreadFlags.valid (ThreadFlags.IRQsetSleep b f) /\ ThreadFlags.isSleeping (ThreadFlags.IRQsetSleep b f) = b.
Proof.
  intros Hf. destruct (ThreadFlags.run_valid (ThreadFlags.SetSleep b) f Hf) as [Hv Hd].
  split; [exact Hv|]. change (ThreadFlags.IRQsetSleep b f) with (ThreadFlags.run (ThreadFlags.SetSleep b) f). rewrite (proj1 (ThreadFlags.valid_encode _) Hv), Hd.
  destruct (ThreadFlags.queries_encode (ThreadFlags.run_status (ThreadFlags.SetSleep b) (ThreadFlags.decode f)))
    as (_ & Hs & _). cbv zeta in Hs. rewrite Hs. by destruct (ThreadFlags.decode f).
Qed.

Lemma sleep_event h s A t w :
  stands_for h s A -> is_Some (h !! t) -> A !! t = None ->
  exists s', nanoSleepUntil t (node t) w s = Done s' /\ stands_for h s' (<[t := Z.max w 100000]> A).
Proof.
  intros [(xs & Hw & Hx & HA) He Hf Hpr Hh] Ht HAt.
  apply Hh in Ht as [tt Htt]. unfold nanoSleepUntil. set (w' := Z.max w 100000).
  set (s1 := State (sleepingList s) (<[node t := mkSleepData (Some t) w']> (data s)) (heap s)).
  assert (Hnt : node t ∉ xs).
  { intros Hin. assert (A !! t = Some (time s (node t))) by (apply HA; done). congruence. }
  assert (Hsame : forall x, x ∈ xs -> data s1 !! x = data s !! x).
  { intros x Hin. simpl. rewrite lookup_insert_ne; [done|]. by intros <-. }
  assert (Htm : forall x, x ∈ xs -> time s1 x = time s x) by (intros x Hin; unfold time; by rewrite Hsame).
  assert (Hth : forall x, x ∈ xs -> thread s1 x = thread s x) by (intros x Hin; unfold thread; by rewrite Hsame).
  assert (Hn1 : data s1 !! node t = Some (mkSleepData (Some t) w')) by (simpl; apply lookup_insert_eq).
  assert (Hw1 : wf s1 xs).
  { destruct Hw as [Hr Hd Hs Htr]. split; [done| | |].
    - intros x Hin. rewrite Hsame by done. by apply Hd.
    - clear -Hs Htm. induction Hs as [|x r Hs IH Hx]; constructor.
      + apply IH. intros y Hy. apply Htm. set_solver.
      + rewrite Forall_forall in Hx |- *. intros y Hy. rewrite !Htm by set_solver. by apply Hx.
    - intros x u Hin. rewrite Hth by done. by apply Htr. }
  destruct (IRQaddToSleepingList_spec s1 xs (node t) _ t tt Hw1 Hn1 eq_refl Htt) as (l & -> & Hw2 & Hel).
  { simpl. rewrite He. apply not_elem_of_cons. split; [apply node_e|done]. }
  eexists. split; [done|]. split.
  - eexists. split; [exact Hw2|]. split.
    + intros x [->|Hin]%elem_of_insert_sorted.
      * exists t. split; [done|]. unfold thread. simpl. by rewrite lookup_insert_eq.
      * destruct (Hx x Hin) as (u & -> & Hu). exists u. split; [done|].
        change (thread s1 (node u) = Some u). by rewrite Hth.
    + intros u v. rewrite elem_of_insert_sorted. destruct (decide (u = t)) as [->|Hut].
      * rewrite lookup_insert_eq. unfold time. simpl. rewrite lookup_insert_eq. simpl.
        split; [intros [= <-]; auto|by intros [_ <-]].
      * rewrite lookup_insert_ne by done. rewrite HA. split.
        -- intros [Hin <-]. split; [by right|]. by apply (Htm (node u)).
        -- intros [[Hn|Hin] Htu]; [by apply (inj node) in Hn|]. split; [done|]. rewrite <- Htu. symmetry. by apply (Htm (node u)).
  - simpl. rewrite Hel. done.
  - simpl. intros u uu. destruct (decide (u = t)) as [->|Hut].
    + rewrite !lookup_insert_eq. intros [= <-]. cbn [flags set_flags]. destruct (Hf t tt Htt) as [Hv _].
      destruct (setSleep_valid true _ Hv) as [? ->]. split; [done|]. symmetry. by apply bool_decide_eq_true_2.
    + rewrite !lookup_insert_ne by done. apply Hf.
  - simpl. intros u. rewrite <- Hpr. unfold prio. destruct (decide (u = t)) as [->|Hut].
    + by rewrite lookup_insert_eq, Htt.
    + by rewrite lookup_insert_ne.
  - simpl. intros u. rewrite <- Hh. destruct (decide (u = t)) as [->|Hut].
    + rewrite lookup_insert_eq, Htt. done.
    + by rewrite lookup_insert_ne.
Qed.

Lemma elem_of_after_wake s now xs x :
  StronglySorted (fun x y => time s x <= time s y) xs -> (forall x, x ∈ xs -> is_Some (thread s x)) ->
  x ∈ after_wake s now xs <-> x ∈ xs /\ now < time s x.
Proof.
  intros Hs Hth. induction Hs as [|y r Hs IH Hy]; simpl; [set_solver|].
  rewrite Forall_forall in Hy. destruct (Z.ltb_spec now (time s y)) as [Hlt|Hge].
  - split; [|tauto]. intros Hin. split; [done|]. apply elem_of_cons in Hin as [->|Hin]; [done|].
    specialize (Hy x Hin). lia.
  - destruct (Hth y ltac:(set_solver)) as [t ->]. rewrite IH by (intros; apply Hth; set_solver).
    split; [set_solver|]. intros [[->|Hin]%elem_of_cons Hlt]; [lia|done].
Qed.

Lemma elem_of_woken s now xs t :
  StronglySorted (fun x y => time s x <= time s y) xs -> (forall x, x ∈ xs -> is_Some (thread s x)) ->
  t ∈ woken s now xs <-> exists x, x ∈ xs /\ thread s x = Some t /\ time s x <= now.
Proof.
  intros Hs Hth. induction Hs as [|y r Hs IH Hy]; simpl; [set_solver|].
  rewrite Forall_forall in Hy. destruct (Z.ltb_spec now (time s y)) as [Hlt|Hge].
  - split; [intros []%elem_of_nil|]. intros (x & [->|Hin]%elem_of_cons & _ & Hle); [lia|]. specialize (Hy x Hin). lia.
  - destruct (Hth y ltac:(set_solver)) as [u Hu]. rewrite Hu, elem_of_cons, IH by (intros; apply Hth; set_solver).
    split.
    + intros [->|(x & Hin & ? & ?)]; [exists y|exists x]; set_solver.
    + intros (x & [->|Hin]%elem_of_cons & Hxt & Hle); [left; congruence|right; eauto].
Qed.

Lemma wake_all_flags h ts t tt' :
  (forall u uu, h !! u = Some uu -> ThreadFlags.valid (flags uu)) ->
  foldl wake h ts !! t = Some tt' ->
  exists tt, h !! t = Some tt /\ ThreadFlags.valid (flags tt') /\ priority tt' = priority tt /\
    ThreadFlags.isSleeping (flags tt') = if decide (t ∈ ts) then false else ThreadFlags.isSleeping (flags tt).
Proof.
  revert h. induction ts as [|u ts IH]; intros h Hv Ht'; simpl in Ht'.
  - exists tt'. rewrite decide_False by set_solver. split_and!; try done. by eapply Hv.
  - destruct (IH (wake h u)) as (t1 & Ht1 & Hv1 & Hp1 & Hs1); [|done|].
    + intros v vv. unfold wake. destruct (decide (v = u)) as [->|].
      * rewrite lookup_alter_eq. intros (v0 & Hv0 & ->)%fmap_Some. simpl.
        by apply setSleep_valid, (Hv u).
      * rewrite lookup_alter_ne by done. apply Hv.
    + unfold wake in Ht1. destruct (decide (t = u)) as [->|Htu].
      * rewrite lookup_alter_eq in Ht1. apply fmap_Some in Ht1 as (t0 & Ht0 & ->). exists t0.
        rewrite (decide_True (P := u ∈ u :: ts)) by set_solver. split_and!; try done.
        rewrite Hs1. case_decide; [done|]. by apply setSleep_valid, (Hv u).
      * rewrite lookup_alter_ne in Ht1 by done. exists t1. split_and!; try done.
        rewrite Hs1. repeat case_decide; set_solver.
Qed.

Lemma timer_event h s A cur now :
  stands_for h s A -> is_Some (h !! cur) ->
  exists b s', IRQwakeThreads cur now s = Done (b, s') /\ higher_woken h A cur now b /\
    stands_for h s' (filter (fun '(_, w) => now < w) A).
Proof.
  intros [(xs & Hw & Hx & HA) He Hf Hpr Hh] Hc. apply Hh in Hc.
  destruct (IRQwakeThreads_spec cur now s xs Hw Hc) as (l & -> & Hw' & Hel).
  assert (Hth : forall x, x ∈ xs -> is_Some (thread s x)).
  { intros x Hin. destruct (Hx x Hin) as (t & _ & ->). done. }
  assert (Hwk : forall t, t ∈ woken s now xs <-> exists w, A !! t = Some w /\ w <= now).
  { intros t. rewrite elem_of_woken by (done || apply Hw). split.
    - intros (x & Hin & Hxt & Hle). destruct (Hx x Hin) as (u & -> & Hu).
      assert (u = t) as -> by congruence. exists (time s (node t)). by rewrite HA.
    - intros (w & Hw1 & Hle). apply HA in Hw1 as [Hin <-]. exists (node t). split_and!; try done.
      destruct (Hx _ Hin) as (u & Hu%(inj node) & ->). by subst. }
  do 2 eexists. split; [done|]. split.
  { unfold higher_woken. rewrite existsb_exists. setoid_rewrite <- list_elem_of_In. setoid_rewrite Hwk.
    setoid_rewrite Hpr. naive_solver. }
  assert (Hvalid : forall u uu, heap s !! u = Some uu -> ThreadFlags.valid (flags uu)) by (intros; by eapply Hf).
  assert (Hfilter : forall t w, filter (fun '(_, w) => now < w) A !! t = Some w <-> A !! t = Some w /\ now < w).
  { intros t w. by rewrite map_lookup_filter_Some. }
  split; simpl.
  - eexists. split; [exact Hw'|]. split.
    + intros x Hin. apply (Hx x). by eapply after_wake_subset.
    + intros t w. rewrite Hfilter, HA. rewrite elem_of_after_wake by (done || apply Hw).
      change (time {| sleepingList := l; data := data s; heap := _ |} (node t)) with (time s (node t)). naive_solver.
  - by rewrite Hel.
  - intros t tt' Ht'. destruct (wake_all_flags _ _ _ _ Hvalid Ht') as (tt & Htt & Hv & _ & Hs). split; [done|].
    rewrite Hs. destruct (Hf t tt Htt) as [_ Hsl]. case_decide as Hin.
    + apply Hwk in Hin as (w & HAw & Hle). symmetry. apply bool_decide_eq_false_2.
      intros [v Hv1]. apply Hfilter in Hv1 as [? ?]. simplify_eq. lia.
    + rewrite Hsl. apply bool_decide_ext. split.
      * intros [w HAw]. exists w. apply Hfilter. split; [done|].
        destruct (Z.lt_ge_cases now w); [done|]. exfalso. apply Hin, Hwk. eauto.
      * intros [w [? _]%Hfilter]. by exists w.
  - intros t. rewrite <- Hpr. unfold prio at 1.
    destruct (foldl wake (heap s) (woken s now xs) !! t) as [tt'|] eqn:Et.
    + destruct (wake_all_flags _ _ _ _ Hvalid Et) as (tt & Htt & _ & Hp & _). simpl. unfold prio. by rewrite Htt, Hp.
    + unfold prio. destruct (heap s !! t) eqn:E; [|done].
      assert (is_Some (foldl wake (heap s) (woken s now xs) !! t)) as [? ?] by (apply wake_all_in; by rewrite E). congruence.
  - intros t. by rewrite wake_all_in, Hh.
Qed.

Lemma exec_events_spec evs h s A :
  stands_for h s A -> events_ok h evs A ->
  exists s' rs, exec_events evs s = Done (s', rs) /\ stands_for h s' (spec_events evs A) /\
    results_ok h evs A rs.
Proof.
  revert s A. induction evs as [|ev evs IH]; intros s A Hs Hok; simpl.
  { by exists s, []. }
  destruct Hok as [Hev Hok]. destruct ev as [t w|cur now]; simpl in *.
  - destruct Hev as [Ht HA]. destruct (sleep_event h s A t w Hs Ht HA) as (s1 & -> & Hs1). simpl.
    destruct (IH s1 _ Hs1 Hok) as (s' & rs & -> & Hs' & Hrs). by exists s', rs.
  - destruct (timer_event h s A cur now Hs Hev) as (b & s1 & -> & Hb & Hs1). simpl.
    destruct (IH s1 _ Hs1 Hok) as (s' & rs & -> & Hs' & Hrs). by exists s', (b :: rs).
Qed.

(** The empty [sleepingList] of [startKernel]. *)
Definition started (h : threads) : state := State (IntrusiveList_new ∅ ∅ e) ∅ h.

Lemma started_spec h :
  (forall t tt, h !! t = Some tt -> ThreadFlags.valid (flags tt) /\ ThreadFlags.isSleeping (flags tt) = false) ->
  stands_for h (started h) ∅.
Proof.
  intros Hf. split; simpl; try done.
  - exists []. split; [|split].
    + split; simpl; [apply rep_new|set_solver|constructor|set_solver].
    + set_solver.
    + intros t w. rewrite lookup_empty. set_solver.
Qed.

(** C38: sleeping threads are woken at the first timer interrupt that is due.
    From the empty sleeping list, any interleaving of threads going to sleep
    and timer interrupts completes; a thread has the SLEEP flag, and its
    [SleepData] is in the list, exactly while no interrupt at or after its
    wakeup time (at least 100 us) has occurred since it went to sleep; the list
    is always sorted by wakeup time; and each interrupt reports exactly
    whether one of the threads it wakes has a higher priority than the
    running one. *)
Theorem sleepers_wake (evs : list event) (h : threads) :
  (forall t tt, h !! t = Some tt -> ThreadFlags.valid (flags tt) /\ ThreadFlags.isSleeping (flags tt) = false) ->
  events_ok h evs ∅ ->
  exists s' rs, exec_events evs (started h) = Done (s', rs) /\ results_ok h evs ∅ rs /\
    (forall t tt, heap s' !! t = Some tt ->
       ThreadFlags.isSleeping (flags tt) = bool_decide (is_Some (spec_events evs ∅ !! t))) /\
    exists xs, rep (sleepingList s') xs /\ StronglySorted (fun x y => time s' x <= time s' y) xs /\
      (forall x, x ∈ xs -> exists t, x = node t /\ thread s' x = Some t) /\
      (forall t w, spec_events evs ∅ !! t = Some w <-> node t ∈ xs /\ time s' (node t) = w).
Proof.
  intros Hf Hok. destruct (exec_events_spec evs h _ ∅ (started_spec h Hf) Hok) as (s' & rs & Hrun & Hs & Hrs).
  exists s', rs. destruct Hs as [(xs & Hw & Hx & HA) _ Hfl _ _]. split_and!; try done.
  - intros t tt Ht. by apply Hfl.
  - exists xs. by destruct Hw.
Qed.

End programs.
End sleep.

(** The sleep functions never sleep less than asked.  [nanoSleep] returns
    at once for a duration that is not positive; otherwise, the current thread
    is queued with a wakeup time that is at least the current time plus the
    duration, and exactly that from 100 us after boot on; [sleep] is [nanoSleep]
    of the same duration in nanoseconds, which never overflows. *)
Theorem sleep_at_least cur d getTime s :
  (forall ns, ns <= 0 -> nanoSleep cur d getTime ns s = Done None) /\
  (forall ns, 0 < ns -> 0 <= getTime -> getTime + ns < 2 ^ 63 ->
     exists w, getTime + ns <= w /\ (100000 <= getTime -> w = getTime + ns) /\
       nanoSleep cur d getTime ns s =
         (s ← IRQaddToSleepingList d
                (State (sleepingList s) (<[d := mkSleepData (Some cur) w]> (data s)) (heap s));
          Done (Some s))) /\
  (forall ms, 0 <= ms < 2 ^ 32 -> sleep cur d getTime ms s = nanoSleep cur d getTime (ms * 1000000) s).
Proof.
  split_and!.
  - intros ns Hns. unfold nanoSleep. by destruct (Z.leb_spec ns 0); [|lia].
  - intros ns Hns Hg Hb. exists (Z.max (getTime + ns) 100000). split; [lia|]. split; [lia|].
    unfold nanoSleep, nanoSleepUntil. destruct (Z.leb_spec ns 0); [lia|].
    rewrite (wrapS_small 64) by lia. done.
  - intros ms Hms. unfold sleep. rewrite (wrapU_small 64) by lia. by rewrite (wrapS_small 64) by lia.
Qed.

#[local] Existing Instance PriorityScheduler.PriorityScheduler.ops.
#[local] Existing Instance PriorityScheduler.PriorityScheduler.scheduler.

(** Threads 2 and 3 sleep until 200000 and 150000, on the items 12 and 13. *)
Definition ex_heap : threads :=
  <[1%positive := new_Thread 0]> (<[2%positive := new_Thread 1]> {[ 3%positive := new_Thread 0 ]}).
Definition ex_events : list event :=
  [SleepUntil 2 200000; SleepUntil 3 150000; TimerInterrupt 1 160000; TimerInterrupt 1 200000].
Definition ex_node (t : positive) : positive := (10 + t)%positive.

Lemma sleep_at_least_witness :
  nanoSleep 2 12 0 (-5) (started 1 ex_heap) = Done None /\
  sleep 2 12 500000 1 (started 1 ex_heap) = nanoSleep 2 12 500000 1000000 (started 1 ex_heap).
Proof.
  destruct (sleep_at_least 2 12 0 (started 1 ex_heap)) as (H & _).
  destruct (sleep_at_least 2 12 500000 (started 1 ex_heap)) as (_ & _ & H').
  split; [by apply H|by apply (H' 1)].
Defined.

Lemma sleepers_wake_witness :
  exists s', exec_events (S := PriorityScheduler.PriorityScheduler.sched) ex_node ex_events (started 1 ex_heap)
    = Done (s', [false; true]) /\ IntrusiveList.empty (sleepingList s') = true.
Proof.
  assert (Hinj : Inj (=) (=) ex_node) by (intros x y Hxy; unfold ex_node in Hxy; lia).
  destruct (sleepers_wake (S := PriorityScheduler.PriorityScheduler.sched) ex_node 1
    ltac:(intros t Ht; unfold ex_node in Ht; lia) ex_events ex_heap) as (s' & rs & Hrun & _).
  - intros t tt Ht. unfold ex_heap in Ht. rewrite !lookup_insert_Some, lookup_singleton_Some in Ht.
    destruct Ht as [[_ <-]|[_ [[_ <-]|[_ [_ <-]]]]]; (split; [split|]; vm_compute; congruence).
  - vm_compute. repeat split; eauto.
  - exists s'. vm_compute in Hrun. injection Hrun as Hs Hr. split; [|rewrite <- Hs; by vm_compute].
    rewrite <- Hs. by vm_compute.
Defined.

End Sleep.
