(* ===== verification/StdHeap.v ===== *)
(** * The heap algorithms of the C++ standard library

    [std::push_heap], [std::pop_heap] and [std::make_heap], as the mutexes
    use them.  The C++ standard fixes the order of a heap and what the
    algorithms guarantee, not the permutation they produce, so they are an
    interface with the guarantees as laws. *)
From S2P Require Import Prelude.
From Stdlib Require Import Sorted.

Abbreviation comparator := (positive -> positive -> bool).

(** Comparison of a key: the strict weak orders the kernel uses. *)
Definition weak_order (lt : comparator) : Prop := exists key : positive -> Z, forall a b, lt a b = (key a <? key b)%Z.

(** [std::is_heap]: no element is greater than its parent. *)
Definition is_heap (lt : comparator) (l : list positive) : Prop :=
  forall i a b, (0 < i)%nat -> l !! Nat.div (i - 1) 2 = Some a -> l !! i = Some b -> lt a b = false.

Class HeapOps := {
  push_heap : comparator -> list positive -> list positive;
  pop_heap : comparator -> list positive -> list positive;
  make_heap : comparator -> list positive -> list positive;
}.

Class StdHeap `{HeapOps} := {
  (** [alg.heap.operations]: push_heap places the last element in the heap of
      the ones before it; pop_heap moves the first element to the end and
      leaves a heap before it; make_heap makes a heap of any range. *)
  push_heap_law lt l x :
    weak_order lt -> is_heap lt l ->
    is_heap lt (push_heap lt (l ++ [x])) /\ push_heap lt (l ++ [x]) ≡ₚ x :: l;
  pop_heap_law lt x l :
    weak_order lt -> is_heap lt (x :: l) ->
    exists l', pop_heap lt (x :: l) = l' ++ [x] /\ is_heap lt l' /\ l' ≡ₚ l;
  make_heap_law lt l : weak_order lt -> is_heap lt (make_heap lt l) /\ make_heap lt l ≡ₚ l;
}.

Lemma is_heap_nil lt : is_heap lt [].
Proof. intros i a b _ Ha. by rewrite lookup_nil in Ha. Qed.

Lemma is_heap_ext lt lt' l :
  (forall a b, a ∈ l -> b ∈ l -> lt' a b = lt a b) -> is_heap lt l -> is_heap lt' l.
Proof.
  intros He Hh i a b Hi Ha Hb. rewrite He by (by eapply list_elem_of_lookup_2). by eapply Hh.
Qed.

(** The first element of a heap is a greatest one. *)
Lemma heap_front lt x l y : weak_order lt -> is_heap lt (x :: l) -> y ∈ x :: l -> lt x y = false.
Proof.
  intros [key Hk] Hh Hy. apply list_elem_of_lookup in Hy as [i Hi]. revert y Hi.
  induction i as [i IH] using lt_wf_ind. intros y Hi.
  destruct (decide (i = 0%nat)) as [->|Hi0].
  { injection Hi as ->. rewrite Hk. apply Z.ltb_irrefl. }
  assert (Hlt : (Nat.div (i - 1) 2 < i)%nat).
  { apply Nat.Div0.div_lt_upper_bound. lia. }
  assert (Hlen : (i < length (x :: l))%nat) by by eapply lookup_lt_Some.
  destruct (lookup_lt_is_Some_2 (x :: l) (Nat.div (i - 1) 2)) as [a Ha]; [lia|].
  specialize (IH _ Hlt a Ha). assert (Hab : lt a y = false) by (apply (Hh i a y); [lia|done|done]).
  rewrite Hk in *. apply Z.ltb_ge in IH, Hab. apply Z.ltb_ge. lia.
Qed.

(** ** An implementation

    Lists sorted from the greatest element are heaps. *)
Fixpoint insert_desc (lt : comparator) (x : positive) (l : list positive) : list positive :=
  match l with [] => [x] | y :: r => if lt x y then y :: insert_desc lt x r else x :: y :: r end.
Definition sort_desc (lt : comparator) (l : list positive) : list positive := foldr (insert_desc lt) [] l.

#[local] Instance sorted_heap_ops : HeapOps := {
  push_heap := sort_desc;
  pop_heap lt l := match l with [] => [] | x :: r => sort_desc lt r ++ [x] end;
  make_heap := sort_desc;
}.

Lemma insert_desc_perm lt x l : insert_desc lt x l ≡ₚ x :: l.
Proof. induction l as [|y r IH]; simpl; [done|]. destruct (lt x y); [|done]. rewrite IH. by constructor. Qed.
Lemma sort_desc_perm lt l : sort_desc lt l ≡ₚ l.
Proof. induction l as [|x l IH]; simpl; [done|]. by rewrite insert_desc_perm, IH. Qed.

Lemma insert_desc_sorted lt x l :
  weak_order lt -> StronglySorted (fun a b => lt a b = false) l -> StronglySorted (fun a b => lt a b = false) (insert_desc lt x l).
Proof.
  intros [key Hk] Hs. induction Hs as [|y r Hs IH Hy]; simpl; [repeat constructor|].
  rewrite Forall_forall in Hy. destruct (lt x y) eqn:Exy; rewrite Hk in Exy.
  - constructor; [done|]. apply Forall_forall. intros z Hz. rewrite insert_desc_perm in Hz.
    apply elem_of_cons in Hz as [->|Hz]; [|by apply Hy]. rewrite Hk. apply Z.ltb_lt in Exy. apply Z.ltb_ge. lia.
  - constructor; [constructor; [done|by apply Forall_forall]|]. apply Forall_forall. intros z Hz.
    apply Z.ltb_ge in Exy. rewrite Hk. apply Z.ltb_ge.
    apply elem_of_cons in Hz as [->|Hz]; [done|]. specialize (Hy z Hz). rewrite Hk in Hy. apply Z.ltb_ge in Hy. lia.
Qed.

Lemma sort_desc_sorted lt l : weak_order lt -> StronglySorted (fun a b => lt a b = false) (sort_desc lt l).
Proof. intros Hw. induction l as [|x l IH]; simpl; [constructor|]. by apply insert_desc_sorted. Qed.

Lemma sorted_lookup (R : positive -> positive -> Prop) l i j a b :
  StronglySorted R l -> (i < j)%nat -> l !! i = Some a -> l !! j = Some b -> R a b.
Proof.
  intros Hs. revert i j. induction Hs as [|x l Hs IH Hx]; intros i j Hij Ha Hb; [done|].
  destruct j as [|j]; [lia|]. destruct i as [|i]; simpl in Ha, Hb.
  - injection Ha as ->. rewrite Forall_forall in Hx. apply Hx. by eapply list_elem_of_lookup_2.
  - apply (IH i j); [lia|done|done].
Qed.

Lemma sort_desc_heap lt l : weak_order lt -> is_heap lt (sort_desc lt l).
Proof.
  intros Hw i a b Hi Ha Hb. apply (sorted_lookup (fun a b => lt a b = false) (sort_desc lt l) (Nat.div (i - 1) 2) i).
  - by apply sort_desc_sorted.
  - apply Nat.Div0.div_lt_upper_bound. lia.
  - done.
  - done.
Qed.

#[local] Instance sorted_heap : StdHeap.
Proof.
  split.
  - intros lt l x Hw _. split; [by apply sort_desc_heap|]. cbn. rewrite sort_desc_perm. apply Permutation_app_comm.
  - intros lt x l Hw _. exists (sort_desc lt l). split_and!; [done|by apply sort_desc_heap|apply sort_desc_perm].
  - intros lt l Hw. split; [by apply sort_desc_heap|apply sort_desc_perm].
Qed.
