(* ===== verification/Mutex.v ===== *)
(** * Mutexes with priority inheritance

    Class [Mutex] of [kernel/sync.h] and [kernel/sync.cpp], with the part of
    [Thread::setPriority] that deals with mutexes.  The kernel is paused while
    these functions run; a thread that has to wait leaves them at the point
    where it yields and comes back there when it runs again. *)
From stdpp Require Import functions.
From S2P Require Import Prelude Errors Threads Scheduler StdHeap PriorityScheduler.

Local Open Scope Z_scope.

Module Mutex.

Inductive Options := DEFAULT | RECURSIVE.

Record Mutex := mkMutex {
  owner : option positive;
  next : option positive;
  waiting : list positive;
  recursiveDepth : Z;
}.
Definition set_owner (o : option positive) (M : Mutex) : Mutex := mkMutex o (next M) (waiting M) (recursiveDepth M).
Definition set_next (n : option positive) (M : Mutex) : Mutex := mkMutex (owner M) n (waiting M) (recursiveDepth M).
Definition set_waiting (l : list positive) (M : Mutex) : Mutex := mkMutex (owner M) (next M) l (recursiveDepth M).
Definition set_depth (d : Z) (M : Mutex) : Mutex := mkMutex (owner M) (next M) (waiting M) d.

(** [Mutex::Mutex] *)
Definition new_Mutex (opt : Options) : Mutex :=
  mkMutex None None [] (match opt with RECURSIVE => 0 | DEFAULT => -1 end).

Section mutex.
Context {S : Type} `{SchedulerOps S} `{HeapOps}.

(** The scheduler, the threads and the mutexes. *)
Record world := World { sched : S; heap : threads; mutexes : gmap positive Mutex }.

Definition load_mutex (w : world) (x : positive) : exec Mutex := deref (mutexes w !! x).
Definition store_mutex (w : world) (x : positive) (f : Mutex -> Mutex) : exec world :=
  M ← load_mutex w x; Done (World (sched w) (heap w) (<[x := f M]> (mutexes w))).
Definition store_thread (w : world) (t : positive) (f : Thread -> Thread) : exec world :=
  h ← store (heap w) t f; Done (World (sched w) h (mutexes w)).
Definition setPrio (w : world) (t : positive) (p : Z) : exec world :=
  '(s, h) ← PKsetPriority t p (sched w) (heap w); Done (World s h (mutexes w)).
Definition getPrio (w : world) (t : positive) : exec Z := getPriority t (heap w).

(** Class [LowerPriority]: the comparison of two threads (which exist: 0 is
    the priority of no thread). *)
Definition prio_of (w : world) (t : positive) : Z := match getPrio w t with Done p => p | Fault _ => 0 end.
Definition LowerPriority (w : world) : comparator := fun a b => mutexLessOp (prio_of w a) (prio_of w b).

(** Adding mutex [x] to the list of those locked by its owner [p], after
    saving the priority of [p] if it is the first. *)
Definition link_owner (x p : positive) (w : world) : exec world :=
  t ← load (heap w) p;
  w ← (if bool_decide (mutexLocked t = None)
       then pr ← getPrio w p; store_thread w p (set_savedPriority pr)
       else Done w);
  w ← store_mutex w x (set_next (mutexLocked t));
  store_thread w p (set_mutexLocked (Some x)).

Definition acquire (x p : positive) (w : world) : exec world :=
  w ← store_mutex w x (set_owner (Some p));
  link_owner x p w.

(** Steps of the loops over threads and over mutexes. *)
Definition fuel (w : world) : nat := Datatypes.S (size (heap w) + size (mutexes w)).

(** The [for(;;)] that hands the priority of [p] to the owner it waits for,
    to the thread that one waits for, and so on. *)
Fixpoint inherit (n : nat) (walk p : positive) (w : world) : exec world :=
  match n with
  | O => Fault OutOfFuel
  | Datatypes.S n =>
      pr ← getPrio w p;
      w ← setPrio w walk pr;
      t ← load (heap w) walk;
      match mutexWaiting t with
      | None => Done w
      | Some y =>
          w ← store_mutex w y (fun M => set_waiting (make_heap (LowerPriority w) (waiting M)) M);
          M ← load_mutex w y;
          walk ← deref (owner M);
          inherit n walk p w
      end
  end.

(** [p] waits for mutex [x], owned by [o]. *)
Definition enqueue (x p o : positive) (w : world) : exec world :=
  w ← store_mutex w x (fun M => set_waiting (push_heap (LowerPriority w) (waiting M ++ [p])) M);
  t ← load (heap w) p;
  if bool_decide (mutexWaiting t <> None) then errorHandler UNEXPECTED
  else
    w ← store_thread w p (set_mutexWaiting (Some x));
    po ← getPrio w o;
    pp ← getPrio w p;
    if mutexLessOp po pp then inherit (fuel w) o p w else Done w.

(** One turn of [while(owner!=p) {IRQwait(); yield();}]: [true] when the loop
    ends; otherwise the thread waits, and runs this again when it is woken. *)
Definition wait_turn (x p : positive) (w : world) : exec (bool * world) :=
  M ← load_mutex w x;
  if bool_decide (owner M = Some p) then Done (true, w)
  else w ← store_thread w p (set_flags (ThreadFlags.IRQsetWait true)); Done (false, w).

(** [PKlock]: [true] when the mutex is acquired, [false] when the thread has
    to wait; it goes on with [wait_turn]. *)
Definition PKlock (x p : positive) (w : world) : exec (bool * world) :=
  M ← load_mutex w x;
  match owner M with
  | None => w ← acquire x p w; Done (true, w)
  | Some o =>
      if bool_decide (o = p) then
        if 0 <=? recursiveDepth M then
          w ← store_mutex w x (set_depth (s32 (recursiveDepth M + 1))); Done (true, w)
        else errorHandler MUTEX_DEADLOCK
      else
        w ← enqueue x p o w;
        wait_turn x p w
  end.

(** [if(recursiveDepth>=0) recursiveDepth=depth;] *)
Definition restore_depth (x : positive) (depth : Z) (w : world) : exec world :=
  store_mutex w x (fun M => if 0 <=? recursiveDepth M then set_depth (s32 depth) M else M).

(** The end of [PKlockToDepth], once the mutex is owned. *)
Definition wait_turn_depth (x p : positive) (depth : Z) (w : world) : exec (bool * world) :=
  '(b, w) ← wait_turn x p w;
  if b : bool then w ← restore_depth x depth w; Done (true, w) else Done (false, w).

Definition PKlockToDepth (x p : positive) (depth : Z) (w : world) : exec (bool * world) :=
  M ← load_mutex w x;
  match owner M with
  | None =>
      w ← store_mutex w x (set_owner (Some p));
      w ← restore_depth x depth w;
      w ← link_owner x p w;
      Done (true, w)
  | Some o =>
      if bool_decide (o = p) then
        if 0 <=? recursiveDepth M then
          w ← store_mutex w x (set_depth (s32 depth)); Done (true, w)
        else errorHandler MUTEX_DEADLOCK
      else
        w ← enqueue x p o w;
        wait_turn_depth x p depth w
  end.

Definition PKtryLock (x p : positive) (w : world) : exec (bool * world) :=
  M ← load_mutex w x;
  match owner M with
  | None => w ← acquire x p w; Done (true, w)
  | Some o =>
      if bool_decide (o = p) && (0 <=? recursiveDepth M) then
        w ← store_mutex w x (set_depth (s32 (recursiveDepth M + 1))); Done (true, w)
      else Done (false, w)
  end.

(** The [for(;;)] that removes [x] from the list of locked mutexes. *)
Fixpoint unlink_loop (n : nat) (x walk : positive) (w : world) : exec world :=
  match n with
  | O => Fault OutOfFuel
  | Datatypes.S n =>
      M ← load_mutex w walk;
      match next M with
      | None => errorHandler UNEXPECTED
      | Some y =>
          if bool_decide (y = x) then
            My ← load_mutex w y;
            store_mutex w walk (set_next (next My))
          else unlink_loop n x y w
      end
  end.

Definition unlink_locked (x o : positive) (w : world) : exec world :=
  t ← load (heap w) o;
  if bool_decide (mutexLocked t = Some x) then
    M ← load_mutex w x;
    store_thread w o (set_mutexLocked (next M))
  else
    walk ← deref (mutexLocked t);
    unlink_loop (fuel w) x walk w.

(** [while(walk!=0)]: the most urgent of [pr] and the first waiting threads of
    the mutexes from [walk]; [lt] is the comparison. *)
Fixpoint max_waiting (lt : Z -> Z -> bool) (n : nat) (walk : option positive) (pr : Z) (w : world) : exec Z :=
  match n with
  | O => Fault OutOfFuel
  | Datatypes.S n =>
      match walk with
      | None => Done pr
      | Some x =>
          M ← load_mutex w x;
          pr ← match waiting M with
               | [] => Done pr
               | t :: _ => pt ← getPrio w t; Done (if lt pr pt then pt else pr)
               end;
          max_waiting lt n (next M) pr w
      end
  end.

(** The new priority of [o], which has just released a mutex. *)
Definition restore_priority (o : positive) (w : world) : exec world :=
  t ← load (heap w) o;
  po ← getPrio w o;
  match mutexLocked t with
  | None => if negb (savedPriority t =? po) then setPrio w o (savedPriority t) else Done w
  | Some walk =>
      pr ← max_waiting mutexLessOp (fuel w) (Some walk) (savedPriority t) w;
      if negb (pr =? po) then setPrio w o pr else Done w
  end.

(** The choice of the next thread to lock the mutex; [None] when no one
    waits. *)
Definition hand_over (x : positive) (w : world) : exec (option positive * world) :=
  M ← load_mutex w x;
  match waiting M with
  | [] =>
      w ← store_mutex w x (fun M => set_waiting [] (set_owner None M));
      Done (None, w)
  | o :: _ =>
      w ← store_mutex w x (fun M => set_waiting (removelast (pop_heap (LowerPriority w) (waiting M))) (set_owner (Some o) M));
      t ← load (heap w) o;
      if bool_decide (mutexWaiting t <> Some x) then errorHandler UNEXPECTED
      else
        w ← store_thread w o (set_mutexWaiting None);
        w ← store_thread w o (set_flags (ThreadFlags.IRQsetWait false));
        w ← link_owner x o w;
        M ← load_mutex w x;
        w ← match waiting M with
            | [] => Done w
            | u :: _ =>
                po ← getPrio w o;
                pu ← getPrio w u;
                if mutexLessOp po pu then setPrio w o pu else Done w
            end;
        Done (Some o, w)
  end.

(** [PKunlock]: [true] when the thread that gets the mutex has a higher
    priority. *)
Definition PKunlock (x p : positive) (w : world) : exec (bool * world) :=
  M ← load_mutex w x;
  if negb (bool_decide (owner M = Some p)) then Done (false, w)
  else if 0 <? recursiveDepth M then
    w ← store_mutex w x (set_depth (s32 (recursiveDepth M - 1))); Done (false, w)
  else
    w ← unlink_locked x p w;
    w ← restore_priority p w;
    '(o, w) ← hand_over x w;
    match o with
    | None => Done (false, w)
    | Some o => pp ← getPrio w p; po ← getPrio w o; Done (mutexLessOp pp po, w)
    end.

(** [PKunlockAllDepthLevels]: the depth to lock it again to. *)
Definition PKunlockAllDepthLevels (x p : positive) (w : world) : exec (Z * world) :=
  M ← load_mutex w x;
  if negb (bool_decide (owner M = Some p)) then Done (0, w)
  else
    w ← unlink_locked x p w;
    w ← restore_priority p w;
    '(_, w) ← hand_over x w;
    M ← load_mutex w x;
    if recursiveDepth M <? 0 then Done (0, w)
    else
      w ← store_mutex w x (set_depth 0);
      Done (u32 (recursiveDepth M), w).

(** [Thread::setPriority], by the running thread [cur]. *)
Definition setPriority (cur : positive) (pr : Z) (w : world) : exec world :=
  if negb (validate pr) then Done w
  else
    t ← load (heap w) cur;
    let finish pr w := (po ← getPrio w cur; if pr =? po then Done w else setPrio w cur pr) in
    match mutexLocked t with
    | None => finish pr w
    | Some walk =>
        if savedPriority t =? pr then Done w
        else
          w ← store_thread w cur (set_savedPriority pr);
          pr ← max_waiting less (fuel w) (Some walk) pr w;
          finish pr w
    end.

(** ** Threads that lock and unlock

    An execution is a sequence of these, by any threads in any order: the
    kernel is paused during each.  [Resume] is one more turn of the loop of a
    thread that waits, after it has been woken for whatever reason. *)
Inductive op :=
| Lock (x p : positive) | LockToDepth (x p : positive) (d : Z)
| Resume (x p : positive) | ResumeToDepth (x p : positive) (d : Z)
| TryLock (x p : positive) | Unlock (x p : positive) | UnlockAll (x p : positive)
| SetPriority (p : positive) (pr : Z).

Definition run_op (o : op) (w : world) : exec world :=
  match o with
  | Lock x p => '(_, w) ← PKlock x p w; Done w
  | LockToDepth x p d => '(_, w) ← PKlockToDepth x p d w; Done w
  | Resume x p => '(_, w) ← wait_turn x p w; Done w
  | ResumeToDepth x p d => '(_, w) ← wait_turn_depth x p d w; Done w
  | TryLock x p => '(_, w) ← PKtryLock x p w; Done w
  | Unlock x p => '(_, w) ← PKunlock x p w; Done w
  | UnlockAll x p => '(_, w) ← PKunlockAllDepthLevels x p w; Done w
  | SetPriority p pr => setPriority p pr w
  end.

(** [p] is alive and waits for no mutex. *)
Definition can_run (p : positive) (w : world) : bool :=
  match PKexists p (sched w) (heap w), heap w !! p with
  | Done true, Some t => bool_decide (mutexWaiting t = None)
  | _, _ => false
  end.

(** From [o], following the owners, one gets to a thread that waits for no
    mutex and never to [p]. *)
Fixpoint reaches (n : nat) (o p : positive) (w : world) : bool :=
  match n with
  | O => false
  | Datatypes.S n =>
      bool_decide (o <> p) &&
      match heap w !! o with
      | None => false
      | Some t =>
          match mutexWaiting t with
          | None => true
          | Some y => match mutexes w !! y ≫= owner with None => false | Some u => reaches n u p w end
          end
      end
  end.

(** Locking [x] is no deadlock: not a mutex that [p] has already locked, but
    if it is recursive, and not one whose owner waits for [p]. *)
Definition lock_ok (x p : positive) (w : world) : bool :=
  match mutexes w !! x with
  | None => false
  | Some M =>
      match owner M with
      | None => true
      | Some o => if bool_decide (o = p) then 0 <=? recursiveDepth M else reaches (fuel w) o p w
      end
  end.

Definition op_ok (o : op) (w : world) : bool :=
  match o with
  | Lock x p | LockToDepth x p _ => can_run p w && lock_ok x p w
  | Resume x p | ResumeToDepth x p _ => bool_decide (is_Some (heap w !! p)) && bool_decide (is_Some (mutexes w !! x))
  | TryLock x p | Unlock x p | UnlockAll x p => can_run p w && bool_decide (is_Some (mutexes w !! x))
  | SetPriority p _ => can_run p w
  end.

Inductive steps (w : world) : world -> Prop :=
| steps_none : steps w w
| steps_one w1 o w2 : steps w w1 -> op_ok o w1 = true -> run_op o w1 = Done w2 -> steps w w2.

(** An execution, stopped before an operation that is a deadlock. *)
Fixpoint run_ops (os : list op) (w : world) : exec world :=
  match os with
  | [] => Done w
  | o :: os => if op_ok o w then w ← run_op o w; run_ops os w else errorHandler MUTEX_DEADLOCK
  end.

Lemma run_ops_steps os w0 w1 w : steps w0 w1 -> run_ops os w1 = Done w -> steps w0 w.
Proof.
  revert w1. induction os as [|o os IH]; intros w1 Hs; simpl; [by intros [= <-]|].
  destruct (op_ok o w1) eqn:Hok; [|done]. intros (w2 & Hrun & Hos)%outcome_bind_Done. apply (IH w2); [|done].
  by eapply steps_one.
Qed.

(** The list of locked mutexes that starts at [o]. *)
Fixpoint locked_list (n : nat) (o : option positive) (w : world) : exec (list positive) :=
  match n with
  | O => Fault OutOfFuel
  | Datatypes.S n =>
      match o with
      | None => Done []
      | Some x => M ← load_mutex w x; xs ← locked_list n (next M) w; Done (x :: xs)
      end
  end.

(** ** What the structure stands for

    The threads without the scheduler's fields, the mutexes, and the priority
    of every scheduled thread. *)
Context `{!Scheduler S} `{!StdHeap}.

Record abs := Abs { thr : threads; mux : gmap positive Mutex; prios : gmap positive Z }.

Record rep (w : world) (A : abs) : Prop := Rep {
  rep_sched : sched_rep (sched w) (heap w) (prios A);
  rep_thr : strip <$> heap w = thr A;
  rep_mux : mutexes w = mux A;
}.

Lemma rep_load w A t tt :
  rep w A -> thr A !! t = Some tt -> exists t', load (heap w) t = Done t' /\ heap w !! t = Some t' /\ strip t' = tt.
Proof.
  intros [_ <- _] Ht. rewrite lookup_fmap in Ht. apply fmap_Some in Ht as (t' & Ht & ->).
  exists t'. by rewrite (load_Some _ _ _ Ht).
Qed.

Lemma rep_thr_in w A t p : rep w A -> prios A !! t = Some p -> exists tt, thr A !! t = Some tt.
Proof.
  intros [Hs <- _] Hp. destruct (rep_in_heap _ _ _ t Hs ltac:(by eexists)) as [tt Htt].
  exists (strip tt). by rewrite lookup_fmap, Htt.
Qed.

Lemma rep_getPrio w A t p : rep w A -> prios A !! t = Some p -> getPrio w t = Done p.
Proof. intros [Hs _ _] Hp. exact (getPriority_law _ _ _ _ _ Hs Hp). Qed.

Lemma rep_prio_of w A t p : rep w A -> prios A !! t = Some p -> prio_of w t = p.
Proof. intros Hr Hp. unfold prio_of. by rewrite (rep_getPrio w A t p). Qed.

Lemma rep_setPrio w A t p :
  rep w A -> is_Some (prios A !! t) -> validate p = true ->
  exists w', setPrio w t p = Done w' /\ rep w' (Abs (thr A) (mux A) (<[t := p]> (prios A))).
Proof.
  intros [Hs Ht Hm] Hin Hv. destruct (PKsetPriority_law _ _ _ t p Hs Hv Hin) as (s' & h' & Hrun & Hs' & Hsame).
  unfold setPrio. rewrite Hrun. simpl. eexists. split; [done|]. split; simpl; [done| |done]. by rewrite <- Ht.
Qed.

Lemma rep_store_thread w A t tt f :
  rep w A -> thr A !! t = Some tt -> (forall u, strip (f u) = f (strip u)) ->
  (forall u, sched_fields (f u) = sched_fields u) ->
  exists w', store_thread w t f = Done w' /\ rep w' (Abs (<[t := f tt]> (thr A)) (mux A) (prios A)).
Proof.
  intros Hr Ht Hf Hsf. destruct (rep_load _ _ _ _ Hr Ht) as (t' & _ & Hh & Hst). destruct Hr as [Hs Hth Hm].
  unfold store_thread. rewrite (store_Some _ _ _ _ Hh). simpl. eexists. split; [done|]. split; simpl.
  - eapply rep_stable; [|done]. intros u _. unfold same_sched. destruct (decide (u = t)) as [->|].
    + rewrite lookup_insert_eq, Hh. simpl. by rewrite Hsf.
    + by rewrite lookup_insert_ne.
  - by rewrite fmap_insert, Hth, Hf, Hst.
  - done.
Qed.

Lemma rep_load_mutex w A x M : rep w A -> mux A !! x = Some M -> load_mutex w x = Done M.
Proof. intros [_ _ Hm] Hx. unfold load_mutex. by rewrite Hm, Hx. Qed.

Lemma rep_store_mutex w A x M f :
  rep w A -> mux A !! x = Some M ->
  exists w', store_mutex w x f = Done w' /\ rep w' (Abs (thr A) (<[x := f M]> (mux A)) (prios A)).
Proof.
  intros Hr Hx. unfold store_mutex. rewrite (rep_load_mutex _ _ _ _ Hr Hx). simpl.
  eexists. split; [done|]. destruct Hr as [? ? Hm]. split; simpl; [done|done|by rewrite Hm].
Qed.

(** ** The invariant *)

(** The mutexes [xs] are linked from [o] through [next]. *)
Fixpoint mchain (mx : gmap positive Mutex) (o : option positive) (xs : list positive) : Prop :=
  match xs with
  | [] => o = None
  | x :: r => o = Some x /\ exists M, mx !! x = Some M /\ mchain mx (next M) r
  end.

Definition prio (A : abs) (t : positive) : Z := default 0 (prios A !! t).
Definition lower (A : abs) : comparator := fun a b => mutexLessOp (prio A a) (prio A b).

(** [locks t]: the mutexes locked by [t], the last one first.  The mutex in
    [hole], if any, is between two owners. *)
Record inv (A : abs) (locks : positive -> list positive) (hole : option positive) : Prop := Inv {
  inv_chain : forall t tt, thr A !! t = Some tt -> mchain (mux A) (mutexLocked tt) (locks t);
  inv_nodup : forall t, NoDup (locks t);
  inv_owner : forall x M t, mux A !! x = Some M -> hole <> Some x -> owner M = Some t <-> x ∈ locks t;
  inv_hole : forall x t, hole = Some x -> x ∉ locks t;
  inv_locks : forall t x, x ∈ locks t -> is_Some (mux A !! x) /\ is_Some (prios A !! t);
  inv_wnodup : forall x M, mux A !! x = Some M -> NoDup (waiting M);
  inv_wait : forall x M t, mux A !! x = Some M ->
    t ∈ waiting M <-> exists tt, thr A !! t = Some tt /\ mutexWaiting tt = Some x;
  inv_wmutex : forall t tt x, thr A !! t = Some tt -> mutexWaiting tt = Some x -> is_Some (mux A !! x);
  inv_wsched : forall x M t, mux A !! x = Some M -> t ∈ waiting M -> is_Some (prios A !! t);
  inv_free : forall x M, mux A !! x = Some M -> owner M = None -> waiting M = [];
  inv_self : forall x M t, mux A !! x = Some M -> t ∈ waiting M -> owner M <> Some t;
  inv_valid : forall t p, prios A !! t = Some p -> validate p = true;
  inv_saved : forall t tt, thr A !! t = Some tt -> locks t <> [] -> validate (savedPriority tt) = true;
  inv_sched : forall t, is_Some (prios A !! t) -> is_Some (thr A !! t);
}.

(** The waiting threads of every mutex are a heap. *)
Definition heaps (A : abs) : Prop :=
  forall x M, mux A !! x = Some M -> is_heap (lower A) (waiting M).

Lemma lower_weak A : weak_order (lower A).
Proof. exists (fun t => urgency (prio A t)). intros a b. apply mutexLessOp_urgency. Qed.
Lemma LowerPriority_weak w : weak_order (LowerPriority w).
Proof. exists (fun t => urgency (prio_of w t)). intros a b. apply mutexLessOp_urgency. Qed.

Lemma rep_LowerPriority w A (l : list positive) :
  rep w A -> (forall t, t ∈ l -> is_Some (prios A !! t)) ->
  forall a b, a ∈ l -> b ∈ l -> LowerPriority w a b = lower A a b.
Proof.
  intros Hr Hl a b Ha Hb. unfold LowerPriority, lower, prio.
  destruct (Hl a Ha) as [pa Hpa], (Hl b Hb) as [pb Hpb].
  by rewrite (rep_prio_of _ _ _ _ Hr Hpa), (rep_prio_of _ _ _ _ Hr Hpb), Hpa, Hpb.
Qed.

Lemma mchain_frame mx mx' o xs :
  (forall x, x ∈ xs -> next <$> mx' !! x = next <$> mx !! x) -> mchain mx o xs -> mchain mx' o xs.
Proof.
  revert o. induction xs as [|x r IH]; intros o Hf; [done|]. intros [-> (M & HM & Hc)]. split; [done|].
  specialize (Hf x ltac:(set_solver)) as Hx. rewrite HM in Hx. apply fmap_Some in Hx as (M' & HM' & Hn).
  exists M'. split; [done|]. rewrite <- Hn. apply IH; [|done]. intros y Hy. apply Hf. set_solver.
Qed.

(** Mutexes that differ in the order of the waiting threads, and maybe in
    their depth; and those that have the same depth. *)
Definition mperm (mx mx' : gmap positive Mutex) : Prop :=
  forall x, match mx !! x, mx' !! x with
    | Some M, Some M' => owner M' = owner M /\ next M' = next M /\ waiting M' ≡ₚ waiting M
    | None, None => True
    | _, _ => False
    end.

Definition depths (mx mx' : gmap positive Mutex) : Prop :=
  forall x, recursiveDepth <$> mx' !! x = recursiveDepth <$> mx !! x.

Lemma depths_insert mx x M M' : mx !! x = Some M -> recursiveDepth M' = recursiveDepth M -> depths mx (<[x := M']> mx).
Proof.
  intros Hx Hd y. destruct (decide (y = x)) as [->|].
  - rewrite lookup_insert_eq, Hx. simpl. by rewrite Hd.
  - by rewrite lookup_insert_ne.
Qed.

Lemma mperm_refl mx : mperm mx mx.
Proof. intros x. by destruct (mx !! x). Qed.
Lemma mperm_trans mx1 mx2 mx3 : mperm mx1 mx2 -> mperm mx2 mx3 -> mperm mx1 mx3.
Proof.
  intros Ha Hb x. specialize (Ha x). specialize (Hb x).
  destruct (mx1 !! x), (mx2 !! x), (mx3 !! x); try done.
  destruct Ha as (? & ? & Hp1), Hb as (? & ? & Hp2). split_and!; try congruence. by rewrite Hp2.
Qed.
Lemma mperm_lookup mx mx' x M' :
  mperm mx mx' -> mx' !! x = Some M' ->
  exists M, mx !! x = Some M /\ owner M' = owner M /\ next M' = next M /\ waiting M' ≡ₚ waiting M.
Proof. intros Hp Hx. specialize (Hp x). rewrite Hx in Hp. destruct (mx !! x) as [M|]; [|done]. by exists M. Qed.
Lemma mperm_is_Some mx mx' x : mperm mx mx' -> is_Some (mx !! x) <-> is_Some (mx' !! x).
Proof.
  intros Hp. specialize (Hp x). destruct (mx !! x), (mx' !! x); try done; split; intros [? ?]; done.
Qed.
Lemma mperm_next mx mx' x : mperm mx mx' -> next <$> mx' !! x = next <$> mx !! x.
Proof. intros Hp. specialize (Hp x). destruct (mx !! x), (mx' !! x); try done. simpl. f_equal. apply Hp. Qed.
Lemma mperm_insert mx x M l :
  mx !! x = Some M -> l ≡ₚ waiting M -> mperm mx (<[x := set_waiting l M]> mx).
Proof.
  intros Hx Hl y. destruct (decide (y = x)) as [->|].
  - by rewrite Hx, lookup_insert_eq.
  - rewrite lookup_insert_ne by done. by destruct (mx !! y).
Qed.

(** The invariant does not depend on that order, nor on the priorities. *)
Lemma inv_perm A A' locks hole :
  inv A locks hole -> thr A' = thr A -> mperm (mux A) (mux A') ->
  (forall t, is_Some (prios A' !! t) <-> is_Some (prios A !! t)) ->
  (forall t p, prios A' !! t = Some p -> validate p = true) ->
  inv A' locks hole.
Proof.
  intros [] Ht Hm Hp Hv. split; rewrite ?Ht; try done.
  - intros t tt Htt. eapply mchain_frame; [|by eauto]. intros x _. by apply mperm_next.
  - intros x M' t HM' Hh. destruct (mperm_lookup _ _ _ _ Hm HM') as (M & HM & -> & _). eauto.
  - intros t x Hx. rewrite Hp. destruct (inv_locks0 t x Hx) as [Hx' ?]. split; [|done].
    by apply (mperm_is_Some _ _ x Hm).
  - intros x M' HM'. destruct (mperm_lookup _ _ _ _ Hm HM') as (M & HM & _ & _ & Hw). rewrite Hw. eauto.
  - intros x M' t HM'. destruct (mperm_lookup _ _ _ _ Hm HM') as (M & HM & _ & _ & Hw). rewrite Hw. eauto.
  - intros t tt x Htt Hw. apply (mperm_is_Some _ _ x Hm). eauto.
  - intros x M' t HM'. destruct (mperm_lookup _ _ _ _ Hm HM') as (M & HM & _ & _ & Hw). rewrite Hp, Hw. eauto.
  - intros x M' HM'. destruct (mperm_lookup _ _ _ _ Hm HM') as (M & HM & -> & _ & Hw). intros Ho.
    rewrite (inv_free0 x M HM Ho) in Hw. by apply Permutation_nil_r in Hw.
  - intros x M' t HM'. destruct (mperm_lookup _ _ _ _ Hm HM') as (M & HM & -> & _ & Hw). rewrite Hw. eauto.
  - intros t Hin. apply inv_sched0. by apply Hp.
Qed.

(** ** Priority inheritance *)

(** The thread [o], the owner of the mutex it waits for, and so on, up to a
    thread that waits for no mutex. *)
Fixpoint wpath (A : abs) (o : positive) (ts : list positive) : Prop :=
  match ts with
  | [] => False
  | t :: r => t = o /\ exists tt, thr A !! t = Some tt /\
      match r with
      | [] => mutexWaiting tt = None
      | _ :: _ => exists y M u, mutexWaiting tt = Some y /\ mux A !! y = Some M /\ owner M = Some u /\ wpath A u r
      end
  end.

Lemma wpath_det A o ts ts' : wpath A o ts -> wpath A o ts' -> ts = ts'.
Proof.
  revert o ts'. induction ts as [|t r IH]; intros o ts' Hp Hp'; [done|]. destruct ts' as [|t' r']; [done|].
  destruct Hp as (-> & tt & Ht & Hr), Hp' as (-> & tt' & Ht' & Hr'). simplify_eq. f_equal.
  destruct r as [|v r], r' as [|v' r']; try done.
  - destruct Hr' as (? & ? & ? & ? & _). congruence.
  - destruct Hr as (? & ? & ? & ? & _). congruence.
  - destruct Hr as (y & M & u & Hy & HM & Hu & Hp), Hr' as (y' & M' & u' & Hy' & HM' & Hu' & Hp').
    simplify_eq. by eapply IH.
Qed.

Lemma wpath_suffix A o a t b : wpath A o (a ++ t :: b) -> wpath A t (t :: b).
Proof.
  revert o. induction a as [|x a IH]; intros o Hp.
  - destruct Hp as [-> ?]. by split.
  - destruct Hp as (_ & tt & _ & Hr). simpl app in Hr.
    destruct (a ++ t :: b) as [|v r] eqn:E; [by destruct a|]. destruct Hr as (_ & _ & u & _ & _ & _ & Hp).
    by eapply IH.
Qed.

Lemma wpath_nodup A o ts : wpath A o ts -> NoDup ts.
Proof.
  intros Hp. apply NoDup_alt. intros i j x Hi Hj. 
  assert (Hsuf : forall k, ts !! k = Some x -> wpath A x (drop k ts)).
  { intros k Hk. rewrite <- (take_drop_middle ts k x Hk) in Hp. pose proof (wpath_suffix _ _ _ _ _ Hp) as Hs.
    by rewrite (drop_S ts x k Hk). }
  pose proof (wpath_det _ _ _ _ (Hsuf i Hi) (Hsuf j Hj)) as Heq.
  apply (f_equal length) in Heq. rewrite !length_drop in Heq.
  apply lookup_lt_Some in Hi, Hj. lia.
Qed.

Lemma wpath_in A o ts t : wpath A o ts -> t ∈ ts -> is_Some (thr A !! t).
Proof.
  intros Hp (l1 & l2 & ->)%list_elem_of_split. apply wpath_suffix in Hp.
  destruct Hp as (_ & tt & -> & _). done.
Qed.

Lemma wpath_length w A o ts : rep w A -> wpath A o ts -> (length ts < fuel w)%nat.
Proof.
  intros Hr Hp. unfold fuel. assert (length ts <= size (heap w))%nat; [|lia].
  rewrite <- size_dom, <- (size_list_to_set (C := gset positive) ts) by by eapply wpath_nodup.
  apply subseteq_size. intros t Ht. apply elem_of_list_to_set in Ht. apply elem_of_dom.
  destruct (wpath_in _ _ _ _ Hp Ht) as [tt Htt].
  rewrite <- (rep_thr _ _ Hr), lookup_fmap in Htt. by destruct (heap w !! t).
Qed.

Lemma wpath_frame A A' o ts :
  (forall t, t ∈ ts -> mutexWaiting <$> thr A' !! t = mutexWaiting <$> thr A !! t) ->
  (forall y, owner <$> mux A' !! y = owner <$> mux A !! y) ->
  wpath A o ts -> wpath A' o ts.
Proof.
  intros Ht Hm. revert o. induction ts as [|t r IH]; intros o; [done|]. intros (-> & tt & Htt & Hr).
  split; [done|]. specialize (Ht o ltac:(set_solver)) as Hto. rewrite Htt in Hto.
  apply fmap_Some in Hto as (tt' & Htt' & Heq). exists tt'. split; [done|].
  destruct r as [|v r]; [congruence|]. destruct Hr as (y & M & u & Hy & HM & Hu & Hp).
  specialize (Hm y) as Hmy. rewrite HM in Hmy. apply fmap_Some in Hmy as (M' & HM' & Ho).
  exists y, M', u. split_and!; [congruence|done|congruence|]. apply IH; [|done]. set_solver.
Qed.

Lemma mperm_owner mx mx' x : mperm mx mx' -> owner <$> mx' !! x = owner <$> mx !! x.
Proof. intros Hp. specialize (Hp x). destruct (mx !! x), (mx' !! x); try done. simpl. f_equal. apply Hp. Qed.

(** The priorities after [p] hands over its priority [pp] along [ts]. *)
Definition inherited (pp : Z) (ts : list positive) (m : gmap positive Z) : gmap positive Z :=
  foldl (fun m t => <[t := pp]> m) m ts.

Lemma inherited_lookup pp ts m t :
  inherited pp ts m !! t = if decide (t ∈ ts) then Some pp else m !! t.
Proof.
  revert m. induction ts as [|u ts IH]; intros m; [done|]. simpl. rewrite IH.
  destruct (decide (t ∈ ts)); [by rewrite decide_True by set_solver|].
  destruct (decide (t = u)) as [->|].
  - rewrite lookup_insert_eq, decide_True by set_solver. done.
  - rewrite lookup_insert_ne, decide_False by set_solver. done.
Qed.

(** Changing the priority of a thread that is in no heap but that of [y]. *)
Lemma heaps_prio A t pp :
  (forall x M, mux A !! x = Some M -> t ∉ waiting M) -> heaps A -> heaps (Abs (thr A) (mux A) (<[t := pp]> (prios A))).
Proof.
  intros Hn Hh x M HM. simpl in HM. eapply is_heap_ext; [|by apply (Hh x)].
  intros a b Ha Hb. unfold lower, prio. simpl.
  rewrite !lookup_insert_ne by (intros <-; by eapply Hn). done.
Qed.

Lemma heaps_make A t pp y My l :
  (forall x M, mux A !! x = Some M -> x <> y -> t ∉ waiting M) -> heaps A ->
  is_heap (lower (Abs (thr A) (mux A) (<[t := pp]> (prios A)))) l ->
  heaps (Abs (thr A) (<[y := set_waiting l My]> (mux A)) (<[t := pp]> (prios A))).
Proof.
  intros Hn Hh Hl x M HM. simpl in HM. destruct (decide (x = y)) as [->|Hxy].
  - rewrite lookup_insert_eq in HM. injection HM as <-. done.
  - rewrite lookup_insert_ne in HM by done. eapply is_heap_ext; [|by apply (Hh x)].
    intros a b Ha Hb. unfold lower, prio. simpl. specialize (Hn x M HM Hxy).
    rewrite !lookup_insert_ne by (by intros <-). done.
Qed.

Lemma inherit_spec n ts walk p pp w A locks hole :
  rep w A -> inv A locks hole -> (forall x M, mux A !! x = Some M -> hole = Some x -> waiting M = []) ->
  heaps A -> wpath A walk ts -> is_Some (prios A !! walk) ->
  prios A !! p = Some pp -> (length ts <= n)%nat ->
  exists w' mx', inherit n walk p w = Done w' /\
    rep w' (Abs (thr A) mx' (inherited pp ts (prios A))) /\ mperm (mux A) mx' /\ depths (mux A) mx' /\
    heaps (Abs (thr A) mx' (inherited pp ts (prios A))).
Proof.
  revert n walk w A. induction ts as [|t r IH]; intros n walk w A Hr Hi Hhole Hh Hp Hwalk Hpp Hn; [done|].
  destruct n as [|n]; simpl in Hn; [lia|]. destruct Hp as (-> & tt & Htt & Hrest). simpl.
  rewrite (rep_getPrio _ _ _ _ Hr Hpp). simpl.
  destruct (rep_setPrio w A walk pp Hr Hwalk (inv_valid _ _ _ Hi _ _ Hpp)) as (w1 & -> & Hr1). simpl.
  set (A1 := Abs (thr A) (mux A) (<[walk := pp]> (prios A))) in *.
  destruct (rep_load w1 A1 walk tt Hr1 Htt) as (t' & -> & _ & Hst). simpl.
  assert (mutexWaiting t' = mutexWaiting tt) as -> by by rewrite <- Hst.
  assert (Hdom : forall t, is_Some (<[walk := pp]> (prios A) !! t) <-> is_Some (prios A !! t)).
  { intros u. destruct (decide (u = walk)) as [->|]; [by rewrite lookup_insert_eq|by rewrite lookup_insert_ne]. }
  assert (Hval : forall t q, <[walk := pp]> (prios A) !! t = Some q -> validate q = true).
  { intros u q. destruct (decide (u = walk)) as [->|].
    - rewrite lookup_insert_eq. intros [= <-]. by eapply inv_valid.
    - rewrite lookup_insert_ne by done. by apply (inv_valid _ _ _ Hi). }
  destruct r as [|v r].
  - rewrite Hrest. exists w1, (mux A). split_and!; [done|done|apply mperm_refl|done|].
    apply heaps_prio; [|done]. intros x M HM Hin. apply (inv_wait _ _ _ Hi x M) in Hin as (tt' & Htt' & Hw); [|done].
    congruence.
  - destruct Hrest as (y & M & u & Hy & HM & Hu & Hp). rewrite Hy.
    assert (Hwl : forall t, t ∈ waiting M -> is_Some (prios A1 !! t)).
    { intros t Hin. apply Hdom. by eapply inv_wsched. }
    destruct (rep_store_mutex w1 A1 y M (fun M => set_waiting (make_heap (LowerPriority w1) (waiting M)) M) Hr1 HM)
      as (w2 & -> & Hr2). simpl.
    destruct (make_heap_law (LowerPriority w1) (waiting M) (LowerPriority_weak w1)) as [Hheap Hperm].
    set (A2 := Abs (thr A1) _ (prios A1)) in Hr2.
    assert (Hmp : mperm (mux A) (mux A2)) by (by apply mperm_insert).
    assert (Hi2 : inv A2 locks hole) by (by apply (inv_perm A)).
    rewrite (rep_load_mutex w2 A2 y (set_waiting (make_heap (LowerPriority w1) (waiting M)) M) Hr2)
      by (simpl; apply lookup_insert_eq).
    simpl. rewrite Hu. simpl.
    assert (Hh2 : heaps A2).
    { apply (heaps_make A walk pp y M); [|done|].
      - intros x Mx HMx Hxy Hin. apply (inv_wait _ _ _ Hi x Mx) in Hin as (tt' & Htt' & Hw); [|done]. congruence.
      - eapply is_heap_ext; [|exact Hheap]. intros a b Ha Hb. symmetry.
        apply (rep_LowerPriority w1 A1 (waiting M)); [done|done| |]; by rewrite <- Hperm. }
    assert (Hhy : hole <> Some y).
    { intros Hhy. pose proof (Hhole y M HM Hhy) as Hnil.
      assert (walk ∈ waiting M) as Hin by (apply (inv_wait _ _ _ Hi y M); eauto). rewrite Hnil in Hin. set_solver. }
    destruct (IH n u w2 A2) as (w' & mx' & Hrun & Hrep' & Hmp' & Hdep & Hh'); try done.
    + intros x Mx HMx Hhx. destruct (mperm_lookup _ _ _ _ Hmp HMx) as (M0 & HM0 & _ & _ & Hw).
      rewrite (Hhole x M0 HM0 Hhx) in Hw. by apply Permutation_nil_r in Hw.
    + eapply wpath_frame; [| |exact Hp]; [done|]. intros z. by apply mperm_owner.
    + apply Hdom. apply (inv_owner _ _ _ Hi y M) in Hu; [|done|done]. by apply (inv_locks _ _ _ Hi) in Hu as [_ ?].
    + simpl. destruct (decide (p = walk)) as [->|]; [by rewrite lookup_insert_eq|by rewrite lookup_insert_ne].
    + simpl in *. lia.
    + exists w', mx'. split_and!; [done|done|by eapply mperm_trans| |done].
      intros z. rewrite Hdep. by apply (depths_insert (mux A) y M).
Qed.

(** ** Waiting for a mutex *)

Lemma mchain_insert mx x M M' o xs :
  mx !! x = Some M -> next M' = next M -> mchain mx o xs -> mchain (<[x := M']> mx) o xs.
Proof.
  intros Hx Hn. apply mchain_frame. intros y _. destruct (decide (y = x)) as [->|].
  - by rewrite lookup_insert_eq, Hx; simpl; rewrite Hn.
  - by rewrite lookup_insert_ne.
Qed.

Lemma inv_enqueue A locks x M l p tp :
  inv A locks None -> mux A !! x = Some M -> l ≡ₚ p :: waiting M ->
  thr A !! p = Some tp -> mutexWaiting tp = None -> is_Some (prios A !! p) ->
  owner M <> None -> owner M <> Some p ->
  inv (Abs (<[p := set_mutexWaiting (Some x) tp]> (thr A)) (<[x := set_waiting l M]> (mux A)) (prios A)) locks None.
Proof.
  intros Hi HM Hl Htp Hw Hp Ho Hop. pose proof Hi as [].
  assert (Hpw : forall y My, mux A !! y = Some My -> p ∉ waiting My).
  { intros y My HMy Hin. apply (inv_wait0 y My p HMy) in Hin as (tt & Htt & Hmw). congruence. }
  split; simpl; try done.
  - intros t tt Ht. apply (mchain_insert _ x M); [done|done|].
    apply lookup_insert_Some in Ht as [[<- <-]|[_ Ht]]; [by apply (inv_chain0 p tp)|by apply inv_chain0].
  - intros y My t HMy Hh. apply lookup_insert_Some in HMy as [[<- <-]|[_ HMy]]; [by apply (inv_owner0 x M)|by apply inv_owner0].
  - intros t y Hy. destruct (inv_locks0 t y Hy) as [? ?]. split; [|done]. apply lookup_insert_is_Some'. by right.
  - intros y My HMy. apply lookup_insert_Some in HMy as [[<- <-]|[_ HMy]]; [simpl|by eapply inv_wnodup0].
    rewrite Hl. constructor; [by apply (Hpw x)|by eapply inv_wnodup0].
  - intros y My t HMy. destruct (decide (t = p)) as [->|Htp'].
    + rewrite lookup_insert_eq. apply lookup_insert_Some in HMy as [[<- <-]|[Hne HMy]]; simpl.
      * rewrite Hl. split; [intros _; by eexists|set_solver].
      * split; [intros Hin; exfalso; exact (Hpw _ _ HMy Hin)|]. intros (tt & [= <-] & Hmw). simpl in Hmw. congruence.
    + rewrite lookup_insert_ne by done. apply lookup_insert_Some in HMy as [[<- <-]|[Hne HMy]]; simpl; [|by apply inv_wait0].
      rewrite Hl, elem_of_cons, (inv_wait0 x M t HM). naive_solver.
  - intros t tt y Ht Hmw. apply lookup_insert_is_Some'. apply lookup_insert_Some in Ht as [[<- <-]|[_ Ht]]; simpl in Hmw.
    + injection Hmw as ->. by left.
    + right. by eapply inv_wmutex0.
  - intros y My t HMy Hin. apply lookup_insert_Some in HMy as [[<- <-]|[_ HMy]]; [simpl in Hin|by eapply inv_wsched0].
    rewrite Hl in Hin. apply elem_of_cons in Hin as [->|Hin]; [done|by eapply inv_wsched0].
  - intros y My HMy Hn. apply lookup_insert_Some in HMy as [[<- <-]|[_ HMy]]; [done|by apply (inv_free0 y)].
  - intros y My t HMy Hin. apply lookup_insert_Some in HMy as [[<- <-]|[_ HMy]]; [simpl in *|by apply (inv_self0 y)].
    rewrite Hl in Hin. apply elem_of_cons in Hin as [->|Hin]; [done|by apply (inv_self0 x)].
  - intros t tt Ht Hlk. apply lookup_insert_Some in Ht as [[<- <-]|[_ Ht]]; [by apply (inv_saved0 p tp)|by apply (inv_saved0 t)].
  - intros t Ht. apply lookup_insert_is_Some'. right. by apply inv_sched0.
Qed.

Lemma wpath_sched A locks o ts t :
  inv A locks None -> wpath A o ts -> is_Some (prios A !! o) -> t ∈ ts -> is_Some (prios A !! t).
Proof.
  intros Hi. revert o. induction ts as [|u r IH]; intros o Hp Ho Ht; [done|]. destruct Hp as (-> & tt & Htt & Hr).
  apply elem_of_cons in Ht as [->|Ht]; [done|]. destruct r as [|v r]; [set_solver|].
  destruct Hr as (y & M & u & _ & HM & Hu & Hp). apply (IH u); [done| |done].
  apply (inv_owner _ _ _ Hi y M) in Hu; [|done|done]. by apply (inv_locks _ _ _ Hi) in Hu as [_ ?].
Qed.

Lemma strip_set_mutexWaiting m u : strip (set_mutexWaiting m u) = set_mutexWaiting m (strip u).
Proof. done. Qed.

Lemma wait_enqueue_spec x p o ts M tp pp po w A locks :
  rep w A -> inv A locks None -> heaps A -> mux A !! x = Some M -> owner M = Some o -> o <> p ->
  thr A !! p = Some tp -> mutexWaiting tp = None -> prios A !! p = Some pp -> prios A !! o = Some po ->
  wpath A o ts -> p ∉ ts ->
  exists w' A', enqueue x p o w = Done w' /\ rep w' A' /\ inv A' locks None /\ heaps A' /\
    thr A' = <[p := set_mutexWaiting (Some x) tp]> (thr A) /\
    mperm (<[x := set_waiting (p :: waiting M) M]> (mux A)) (mux A') /\ depths (mux A) (mux A') /\
    prios A' = if mutexLessOp po pp then inherited pp ts (prios A) else prios A.
Proof.
  intros Hr Hi Hh HM Ho Hop Htp Hw Hpp Hpo Hpath Hpts. unfold enqueue.
  destruct (rep_store_mutex w A x M (fun M => set_waiting (push_heap (LowerPriority w) (waiting M ++ [p])) M) Hr HM)
    as (w1 & -> & Hr1). cbn [mbind outcome_bind].
  assert (Hsched : forall t, t ∈ p :: waiting M -> is_Some (prios A !! t)).
  { intros t [->|Ht]%elem_of_cons; [by eexists|by eapply inv_wsched]. }
  destruct (push_heap_law (LowerPriority w) (waiting M) p (LowerPriority_weak w)) as [Hheap Hperm].
  { eapply is_heap_ext; [|by apply (Hh x)]. apply (rep_LowerPriority w A); [done|].
    intros t Ht. apply Hsched. set_solver. }
  set (l := push_heap (LowerPriority w) (waiting M ++ [p])) in *.
  destruct (rep_load w1 _ p tp Hr1 Htp) as (t' & -> & _ & Hst). cbn [mbind outcome_bind].
  assert (mutexWaiting t' = mutexWaiting tp) as -> by by rewrite <- Hst. rewrite Hw.
  rewrite bool_decide_eq_false_2 by naive_solver.
  destruct (rep_store_thread w1 _ p tp (set_mutexWaiting (Some x)) Hr1 Htp) as (w2 & -> & Hr2); [done..|].
  cbn [mbind outcome_bind]. simpl in Hr2.
  set (A2 := Abs (<[p := set_mutexWaiting (Some x) tp]> (thr A)) (<[x := set_waiting l M]> (mux A)) (prios A)) in *.
  rewrite (rep_getPrio w2 A2 o po Hr2 Hpo), (rep_getPrio w2 A2 p pp Hr2 Hpp). cbn [mbind outcome_bind].
  assert (Hi2 : inv A2 locks None).
  { apply inv_enqueue; try done; try (by eexists); congruence. }
  assert (Hh2 : heaps A2).
  { intros y My HMy. simpl in HMy. apply lookup_insert_Some in HMy as [[<- <-]|[_ HMy]]; [|by apply (Hh y)].
    eapply is_heap_ext; [|exact Hheap]. intros a b Ha Hb. symmetry.
    apply (rep_LowerPriority w A (p :: waiting M)); [done|done|by rewrite <- Hperm..]. }
  assert (Hmp : mperm (<[x := set_waiting (p :: waiting M) M]> (mux A)) (mux A2)).
  { pose proof (mperm_insert (<[x := set_waiting (p :: waiting M) M]> (mux A)) x (set_waiting (p :: waiting M) M) l) as Hm.
    rewrite lookup_insert_eq, insert_insert_eq in Hm. by apply Hm. }
  destruct (mutexLessOp po pp).
  - assert (Hpath2 : wpath A2 o ts).
    { eapply wpath_frame; [| |exact Hpath].
      - intros t Ht. simpl. rewrite lookup_insert_ne by (by intros <-). done.
      - intros y. simpl. destruct (decide (y = x)) as [->|]; [by rewrite lookup_insert_eq, HM|by rewrite lookup_insert_ne]. }
    destruct (inherit_spec (fuel w2) ts o p pp w2 A2 locks None) as (w' & mx' & -> & Hr' & Hmp' & Hdep & Hh'); try done; try (by eexists).
    { pose proof (wpath_length w2 A2 o ts Hr2 Hpath2). lia. }
    exists w', (Abs (thr A2) mx' (inherited pp ts (prios A))). split_and!; try done.
    + apply (inv_perm A2); [done|done|done| |].
      * intros t. simpl. rewrite inherited_lookup. case_decide as Ht; [|done].
        split; intros _; [eapply (wpath_sched A); [done|done|by eexists|done]|by eexists].
      * intros t q. simpl. rewrite inherited_lookup. case_decide as Ht; [|by apply (inv_valid _ _ _ Hi)].
        intros [= <-]. by eapply inv_valid.
    + by eapply mperm_trans.
    + intros z. rewrite Hdep. by apply (depths_insert (mux A) x M).
  - exists w2, A2. split_and!; try done. by apply (depths_insert (mux A) x M).
Qed.

(** ** Becoming the owner *)

(** What [link_owner] makes of the thread. *)
Definition linked (x : positive) (pp : Z) (tp : Thread) : Thread :=
  set_mutexLocked (Some x) (if decide (mutexLocked tp = None) then set_savedPriority pp tp else tp).

Lemma link_owner_spec x p w A tp pp M :
  rep w A -> thr A !! p = Some tp -> prios A !! p = Some pp -> mux A !! x = Some M ->
  exists w', link_owner x p w = Done w' /\
    rep w' (Abs (<[p := linked x pp tp]> (thr A)) (<[x := set_next (mutexLocked tp) M]> (mux A)) (prios A)).
Proof.
  intros Hr Htp Hpp HM. unfold link_owner, linked.
  destruct (rep_load w A p tp Hr Htp) as (t' & -> & _ & Hst). cbn [mbind outcome_bind].
  assert (mutexLocked t' = mutexLocked tp) as -> by by rewrite <- Hst.
  assert (exists w1, (if bool_decide (mutexLocked tp = None)
       then pr ← getPrio w p; store_thread w p (set_savedPriority pr) else Done w) = Done w1 /\
     rep w1 (Abs (<[p := if decide (mutexLocked tp = None) then set_savedPriority pp tp else tp]> (thr A)) (mux A) (prios A)))
    as (w1 & -> & Hr1).
  { case_bool_decide as Hn.
    - rewrite (rep_getPrio _ _ _ _ Hr Hpp). cbn [mbind outcome_bind]. rewrite decide_True by done.
      by apply (rep_store_thread w A p tp).
    - rewrite decide_False by done. exists w. split; [done|]. rewrite insert_id by done. by destruct A. }
  cbn [mbind outcome_bind].
  destruct (rep_store_mutex w1 _ x M (set_next (mutexLocked tp)) Hr1 HM) as (w2 & -> & Hr2). cbn [mbind outcome_bind].
  destruct (rep_store_thread w2 _ p (if decide (mutexLocked tp = None) then set_savedPriority pp tp else tp)
    (set_mutexLocked (Some x)) Hr2) as (w3 & -> & Hr3); [simpl; apply lookup_insert_eq|done|done|].
  exists w3. split; [done|]. simpl in Hr3. by rewrite insert_insert_eq in Hr3.
Qed.

Lemma linked_saved x pp tp : savedPriority (linked x pp tp) = if decide (mutexLocked tp = None) then pp else savedPriority tp.
Proof. unfold linked. by case_decide. Qed.
Lemma linked_waiting x pp tp : mutexWaiting (linked x pp tp) = mutexWaiting tp.
Proof. unfold linked. by case_decide. Qed.

Lemma inv_link A locks x M p tp pp :
  inv A locks (Some x) -> mux A !! x = Some M -> owner M = Some p -> thr A !! p = Some tp -> prios A !! p = Some pp ->
  inv (Abs (<[p := linked x pp tp]> (thr A)) (<[x := set_next (mutexLocked tp) M]> (mux A)) (prios A))
      (<[p := x :: locks p]> locks) None.
Proof.
  intros Hi HM Ho Htp Hpp. pose proof Hi as [].
  assert (Hx : forall t, x ∉ locks t) by (intros t; by apply inv_hole0).
  assert (Hchain : forall o t, mchain (mux A) o (locks t) -> mchain (<[x := set_next (mutexLocked tp) M]> (mux A)) o (locks t)).
  { intros o t. apply mchain_frame. intros y Hy. rewrite lookup_insert_ne; [done|]. intros <-. by apply (Hx t). }
  split; simpl.
  - intros t tt Ht. apply lookup_insert_Some in Ht as [[<- <-]|[Hne Ht]].
    + rewrite fn_lookup_insert. split; [done|]. exists (set_next (mutexLocked tp) M).
      rewrite lookup_insert_eq. split; [done|]. apply Hchain. by apply inv_chain0.
    + rewrite fn_lookup_insert_ne by done. apply Hchain. by apply inv_chain0.
  - intros t. destruct (decide (t = p)) as [->|].
    + rewrite fn_lookup_insert. constructor; [apply Hx|done].
    + by rewrite fn_lookup_insert_ne by done.
  - intros y My t HMy _. destruct (decide (y = x)) as [->|Hyx].
    + rewrite lookup_insert_eq in HMy. injection HMy as <-. simpl. rewrite Ho.
      destruct (decide (t = p)) as [->|].
      * rewrite fn_lookup_insert. set_solver.
      * rewrite fn_lookup_insert_ne by done. split; [congruence|]. intros Hin. by apply Hx in Hin.
    + rewrite lookup_insert_ne in HMy by done. rewrite (inv_owner0 y My t HMy) by congruence.
      destruct (decide (t = p)) as [->|].
      * rewrite fn_lookup_insert. set_solver.
      * by rewrite fn_lookup_insert_ne by done.
  - done.
  - intros t y Hy. destruct (decide (t = p)) as [->|Htp'].
    + rewrite fn_lookup_insert in Hy. split; [|by eexists]. apply lookup_insert_is_Some'.
      apply elem_of_cons in Hy as [->|Hy]; [by left|right]. by apply (inv_locks0 p).
    + rewrite fn_lookup_insert_ne in Hy by done. destruct (inv_locks0 t y Hy). split; [|done].
      apply lookup_insert_is_Some'. by right.
  - intros y My HMy. apply lookup_insert_Some in HMy as [[<- <-]|[_ HMy]]; [by apply (inv_wnodup0 x M)|by apply (inv_wnodup0 y)].
  - intros y My t HMy. assert (Hwait : exists My', mux A !! y = Some My' /\ waiting My = waiting My').
    { apply lookup_insert_Some in HMy as [[<- <-]|[_ HMy]]; eauto. }
    destruct Hwait as (My' & HMy' & ->). rewrite (inv_wait0 y My' t HMy').
    destruct (decide (t = p)) as [->|].
    + rewrite lookup_insert_eq. split.
      * intros (tt & Htt & Hw). simplify_eq. exists (linked x pp tp). by rewrite linked_waiting.
      * intros (tt & [= <-] & Hw). rewrite linked_waiting in Hw. eauto.
    + by rewrite lookup_insert_ne by done.
  - intros t tt y Ht Hw. apply lookup_insert_is_Some'. right.
    apply lookup_insert_Some in Ht as [[<- <-]|[_ Ht]]; [rewrite linked_waiting in Hw; by apply (inv_wmutex0 p tp)|by apply (inv_wmutex0 t tt)].
  - intros y My t HMy. apply lookup_insert_Some in HMy as [[<- <-]|[_ HMy]]; [by apply (inv_wsched0 x M)|by apply (inv_wsched0 y My)].
  - intros y My HMy. apply lookup_insert_Some in HMy as [[<- <-]|[_ HMy]]; [by apply (inv_free0 x M)|by apply (inv_free0 y)].
  - intros y My t HMy. apply lookup_insert_Some in HMy as [[<- <-]|[_ HMy]]; [by apply (inv_self0 x M)|by apply (inv_self0 y)].
  - done.
  - intros t tt Ht Hl. apply lookup_insert_Some in Ht as [[<- <-]|[Hne Ht]].
    + rewrite linked_saved. case_decide as Hn; [by eapply inv_valid0|]. apply (inv_saved0 p tp Htp).
      intros Hnil. pose proof (inv_chain0 p tp Htp) as Hc. by rewrite Hnil in Hc.
    + rewrite fn_lookup_insert_ne in Hl by done. by apply (inv_saved0 t).
  - intros t Ht. apply lookup_insert_is_Some'. right. by apply inv_sched0.
Qed.

Lemma heaps_same A A' :
  (forall x M', mux A' !! x = Some M' -> exists M, mux A !! x = Some M /\ waiting M' = waiting M) ->
  prios A' = prios A -> heaps A -> heaps A'.
Proof.
  intros Hm Hp Hh x M' HM'. destruct (Hm x M' HM') as (M & HM & ->). eapply is_heap_ext; [|by apply (Hh x)].
  intros a b _ _. unfold lower, prio. by rewrite Hp.
Qed.

(** [M1] is the free mutex [M], now owned by [p]. *)
Lemma own_spec x p w A locks M M1 pp :
  rep w (Abs (thr A) (<[x := M1]> (mux A)) (prios A)) -> inv A locks None -> heaps A ->
  mux A !! x = Some M -> owner M = None -> prios A !! p = Some pp ->
  owner M1 = Some p -> next M1 = next M -> waiting M1 = waiting M ->
  exists w' tp, link_owner x p w = Done w' /\ thr A !! p = Some tp /\
    let A' := Abs (<[p := linked x pp tp]> (thr A)) (<[x := set_next (mutexLocked tp) M1]> (mux A)) (prios A) in
    rep w' A' /\ inv A' (<[p := x :: locks p]> locks) None /\ heaps A'.
Proof.
  intros Hr Hi Hh HM Ho Hpp Ho1 Hn1 Hw1.
  destruct (rep_thr_in w _ p pp Hr Hpp) as [tp Htp]. simpl in Htp.
  set (A1 := Abs (thr A) (<[x := M1]> (mux A)) (prios A)) in *.
  destruct (link_owner_spec x p w A1 tp pp M1 Hr Htp Hpp) as (w' & -> & Hr'); [simpl; apply lookup_insert_eq|].
  pose proof (inv_free _ _ _ Hi x M HM Ho) as Hw.
  assert (Hi1 : inv A1 locks (Some x)).
  { destruct Hi. split; simpl; try done.
    - intros t tt Ht. apply (mchain_insert _ x M); [done|done|]. by apply inv_chain0.
    - intros y My t HMy Hy. rewrite lookup_insert_ne in HMy by congruence. by apply inv_owner0.
    - intros y t [= <-] Hin. apply (inv_owner0 x M) in Hin; [congruence|done|done].
    - intros t y Hy. destruct (inv_locks0 t y Hy). split; [|done]. apply lookup_insert_is_Some'. by right.
    - intros y My HMy. apply lookup_insert_Some in HMy as [[<- <-]|[_ HMy]]; [rewrite Hw1; by apply (inv_wnodup0 x M)|by apply (inv_wnodup0 y)].
    - intros y My t HMy. apply lookup_insert_Some in HMy as [[<- <-]|[_ HMy]]; [rewrite Hw1; by apply (inv_wait0 x M)|by apply (inv_wait0 y My)].
    - intros t tt y Ht Hmw. apply lookup_insert_is_Some'. right. by eapply inv_wmutex0.
    - intros y My t HMy. apply lookup_insert_Some in HMy as [[<- <-]|[_ HMy]]; [rewrite Hw1; by apply (inv_wsched0 x M)|by apply (inv_wsched0 y My)].
    - intros y My HMy. apply lookup_insert_Some in HMy as [[<- <-]|[_ HMy]]; [congruence|by apply (inv_free0 y)].
    - intros y My t HMy. apply lookup_insert_Some in HMy as [[<- <-]|[_ HMy]]; [rewrite Hw1, Hw; set_solver|by apply (inv_self0 y)]. }
  exists w', tp. split; [done|]. split; [done|]. simpl in Hr'. rewrite insert_insert_eq in Hr'. split; [exact Hr'|]. split.
  - pose proof (inv_link A1 locks x M1 p tp pp Hi1 (lookup_insert_eq _ _ _) Ho1 Htp Hpp) as Hl. simpl in Hl.
    by rewrite insert_insert_eq in Hl.
  - eapply heaps_same; [| |exact Hh]; [|done]. intros y My HMy. simpl in HMy.
    apply lookup_insert_Some in HMy as [[<- <-]|[_ HMy]]; eauto.
Qed.

(** ** Giving the mutex up *)

(** The same threads and mutexes but for the lists of locked mutexes. *)
Definition relinked (A A' : abs) : Prop :=
  prios A' = prios A /\
  (forall t, set_mutexLocked None <$> thr A' !! t = set_mutexLocked None <$> thr A !! t) /\
  (forall x, set_next None <$> mux A' !! x = set_next None <$> mux A !! x).

Lemma relinked_thr A A' t tt' :
  relinked A A' -> thr A' !! t = Some tt' ->
  exists tt, thr A !! t = Some tt /\ set_mutexLocked None tt' = set_mutexLocked None tt.
Proof.
  intros (_ & Ht & _) Htt. specialize (Ht t). rewrite Htt in Ht. symmetry in Ht.
  apply fmap_Some in Ht as (tt & ? & ?). eauto.
Qed.

Lemma relinked_mux A A' x M' :
  relinked A A' -> mux A' !! x = Some M' ->
  exists M, mux A !! x = Some M /\ owner M' = owner M /\ waiting M' = waiting M /\ recursiveDepth M' = recursiveDepth M.
Proof.
  intros (_ & _ & Hx) HM. specialize (Hx x). rewrite HM in Hx. symmetry in Hx.
  apply fmap_Some in Hx as (M & ? & Heq). exists M. unfold set_next in Heq. split_and!; congruence.
Qed.

Lemma relinked_sym A A' : relinked A A' -> relinked A' A.
Proof. intros (? & ? & ?). by split_and!. Qed.

Lemma heaps_relinked A A' : relinked A A' -> heaps A -> heaps A'.
Proof.
  intros Hre. apply heaps_same; [|by apply Hre]. intros x M' HM'.
  destruct (relinked_mux _ _ _ _ Hre HM') as (M & HM & _ & Hw & _). eauto.
Qed.

Lemma inv_relinked A A' locks locks' hole hole' :
  inv A locks hole -> relinked A A' ->
  (forall t tt, thr A' !! t = Some tt -> mchain (mux A') (mutexLocked tt) (locks' t)) ->
  (forall t, NoDup (locks' t)) ->
  (forall x M t, mux A !! x = Some M -> hole' <> Some x -> owner M = Some t <-> x ∈ locks' t) ->
  (forall x t, hole' = Some x -> x ∉ locks' t) ->
  (forall t x, x ∈ locks' t -> x ∈ locks t) ->
  inv A' locks' hole'.
Proof.
  intros [] Hre Hc Hnd Ho Hhole Hsub. pose proof Hre as (Hp & _ & _).
  assert (Hmx : forall x M', mux A' !! x = Some M' ->
    exists M, mux A !! x = Some M /\ owner M' = owner M /\ waiting M' = waiting M).
  { intros x M' HM'. destruct (relinked_mux _ _ _ _ Hre HM') as (M & ? & ? & ? & _). eauto. }
  assert (Hmx' : forall x, is_Some (mux A !! x) -> is_Some (mux A' !! x)).
  { intros x [M HM]. destruct (relinked_mux _ _ _ _ (relinked_sym _ _ Hre) HM) as (M' & ? & _). eauto. }
  split; rewrite ?Hp; try done.
  - intros x M' t HM' Hh. destruct (Hmx x M' HM') as (M & HM & -> & _). by apply Ho.
  - intros t x Hx%Hsub. destruct (inv_locks0 t x Hx). auto.
  - intros x M' HM'. destruct (Hmx x M' HM') as (M & HM & _ & ->). eauto.
  - intros x M' t HM'. destruct (Hmx x M' HM') as (M & HM & _ & ->). rewrite (inv_wait0 x M t HM). split.
    + intros (tt & Htt & Hw). destruct (relinked_thr _ _ _ _ (relinked_sym _ _ Hre) Htt) as (tt' & Htt' & Heq).
      exists tt'. split; [done|]. apply (f_equal mutexWaiting) in Heq. simpl in Heq. congruence.
    + intros (tt' & Htt' & Hw). destruct (relinked_thr _ _ _ _ Hre Htt') as (tt & Htt & Heq).
      exists tt. split; [done|]. apply (f_equal mutexWaiting) in Heq. simpl in Heq. congruence.
  - intros t tt' x Htt' Hw. destruct (relinked_thr _ _ _ _ Hre Htt') as (tt & Htt & Heq).
    apply (f_equal mutexWaiting) in Heq. simpl in Heq. apply Hmx'. apply (inv_wmutex0 t tt); congruence.
  - intros x M' t HM'. destruct (Hmx x M' HM') as (M & HM & _ & ->). eauto.
  - intros x M' HM'. destruct (Hmx x M' HM') as (M & HM & -> & ->). eauto.
  - intros x M' t HM'. destruct (Hmx x M' HM') as (M & HM & -> & ->). eauto.
  - intros t tt' Htt' Hl. destruct (relinked_thr _ _ _ _ Hre Htt') as (tt & Htt & Heq).
    apply (f_equal savedPriority) in Heq. simpl in Heq. rewrite Heq. apply (inv_saved0 t tt Htt).
    intros Hnil. destruct (locks' t) as [|y r] eqn:E; [done|]. specialize (Hsub t y). rewrite E, Hnil in Hsub. set_solver.
  - intros t [tt Htt]%inv_sched0. destruct (relinked_thr _ _ _ _ (relinked_sym _ _ Hre) Htt) as (tt' & Htt' & _). eauto.
Qed.

Lemma mchain_app_next mx o a x b :
  mchain mx o (a ++ x :: b) -> exists M, mx !! x = Some M /\ mchain mx (next M) b.
Proof.
  revert o. induction a as [|y a IH]; intros o.
  - intros (_ & M & HM & Hc). eauto.
  - intros (_ & M & _ & Hc). by eapply IH.
Qed.

(** Linking past [x] after [z]. *)
Lemma mchain_unlink mx o a z x b Mz Mx :
  NoDup (a ++ z :: x :: b) -> mx !! z = Some Mz -> mx !! x = Some Mx -> mchain mx o (a ++ z :: x :: b) ->
  mchain (<[z := set_next (next Mx) Mz]> mx) o (a ++ z :: b).
Proof.
  revert o. induction a as [|y a IH]; intros o Hnd Hz Hx; simpl.
  - intros (-> & M & HM & Hc). split; [done|]. exists (set_next (next Mx) Mz). rewrite lookup_insert_eq. split; [done|].
    destruct Hc as (_ & M' & HM' & Hc). simplify_eq. simpl.
    eapply mchain_frame; [|exact Hc]. intros y Hy. rewrite lookup_insert_ne; [done|].
    intros <-. simpl in Hnd. apply NoDup_cons in Hnd as [Hn _]. apply Hn. by right.
  - intros (-> & M & HM & Hc). simpl in Hnd. apply NoDup_cons in Hnd as [Hy Hnd]. split; [done|]. exists M. split.
    + rewrite lookup_insert_ne; [done|]. intros <-. apply Hy. apply elem_of_app. right. by left.
    + by apply IH.
Qed.

Lemma unlink_walk_spec n a z x b walk w A Mz Mx :
  rep w A -> mchain (mux A) (Some walk) (a ++ z :: x :: b) -> NoDup (a ++ z :: x :: b) -> (length a < n)%nat ->
  mux A !! z = Some Mz -> mux A !! x = Some Mx ->
  exists w', unlink_loop n x walk w = Done w' /\
    rep w' (Abs (thr A) (<[z := set_next (next Mx) Mz]> (mux A)) (prios A)).
Proof.
  revert n walk. induction a as [|y a IH]; intros n walk Hr Hc Hnd Hn Hz Hx; (destruct n as [|n]; [simpl in Hn; lia|]).
  - destruct Hc as ([= ->] & M & HM & Hnext & M' & HM' & Hc).
    assert (M = Mz) as -> by congruence. assert (M' = Mx) as -> by congruence. simpl.
    rewrite (rep_load_mutex _ _ _ _ Hr Hz). cbn [mbind outcome_bind]. rewrite Hnext. rewrite bool_decide_eq_true_2 by done.
    rewrite (rep_load_mutex _ _ _ _ Hr Hx). cbn [mbind outcome_bind].
    by apply (rep_store_mutex w A z Mz).
  - destruct Hc as ([= ->] & M & HM & Hc). fold (app a (z :: x :: b)) in Hc. simpl in Hnd, Hn.
    apply NoDup_cons in Hnd as [Hy Hnd]. simpl. rewrite (rep_load_mutex _ _ _ _ Hr HM). cbn [mbind outcome_bind].
    assert (exists v, next M = Some v /\ v <> x) as (v & Hv & Hvx).
    { destruct a as [|v a]; simpl in *.
      - destruct Hc as [-> _]. exists z. split; [done|]. intros ->. by apply NoDup_cons in Hnd as [[]%not_elem_of_cons _].
      - destruct Hc as [-> _]. exists v. split; [done|]. intros ->. apply NoDup_cons in Hnd as [Hn' _]. apply Hn'. set_solver. }
    rewrite Hv. rewrite bool_decide_eq_false_2 by done. rewrite Hv in Hc. apply IH; try done. lia.
Qed.

Lemma filter_ne_app (x : positive) (a b : list positive) : NoDup (a ++ x :: b) -> filter (.≠ x) (a ++ x :: b) = a ++ b.
Proof.
  intros Hnd. apply NoDup_app in Hnd as (_ & Ha & Hb). apply NoDup_cons in Hb as [Hb _].
  rewrite filter_app, filter_cons_False by auto.
  f_equal; apply filter_ne_id; [intros Hin; apply (Ha x Hin); by left|done].
Qed.

Lemma elem_of_filter_ne (x y : positive) (l : list positive) : y ∈ filter (.≠ x) l <-> y <> x /\ y ∈ l.
Proof. by rewrite list_elem_of_filter. Qed.

Lemma locks_length w A locks hole t : rep w A -> inv A locks hole -> (length (locks t) < fuel w)%nat.
Proof.
  intros Hr Hi. unfold fuel. assert (length (locks t) <= size (mutexes w))%nat; [|lia].
  rewrite <- size_dom, <- (size_list_to_set (C := gset positive) (locks t)) by by eapply inv_nodup.
  apply subseteq_size. intros x Hx. apply elem_of_list_to_set in Hx. apply elem_of_dom.
  rewrite (rep_mux _ _ Hr). by apply (inv_locks _ _ _ Hi) in Hx as [? _].
Qed.

Lemma inv_unlinked A A' locks p a x b M :
  inv A locks None -> relinked A A' -> mux A !! x = Some M -> owner M = Some p -> locks p = a ++ x :: b ->
  (forall tt, thr A' !! p = Some tt -> mchain (mux A') (mutexLocked tt) (a ++ b)) ->
  (forall t tt, t <> p -> thr A' !! t = Some tt -> mchain (mux A') (mutexLocked tt) (locks t)) ->
  inv A' (<[p := a ++ b]> locks) (Some x).
Proof.
  intros Hi Hre HM Ho Heq Hcp Hct. pose proof Hi as []. pose proof (inv_nodup0 p) as Hnd. rewrite Heq in Hnd.
  assert (Hx : forall y, y ∈ a ++ b <-> y <> x /\ y ∈ locks p).
  { intros y. rewrite Heq, <- (filter_ne_app x a b Hnd). apply elem_of_filter_ne. }
  apply (inv_relinked A A' locks _ None); [done|done|..].
  - intros t tt Htt. destruct (decide (t = p)) as [->|].
    + rewrite fn_lookup_insert. by apply Hcp.
    + rewrite fn_lookup_insert_ne by done. by apply Hct.
  - intros t. destruct (decide (t = p)) as [->|].
    + rewrite fn_lookup_insert, <- (filter_ne_app x) by done. by apply NoDup_filter.
    + by rewrite fn_lookup_insert_ne by done.
  - intros y My t HMy Hy. rewrite (inv_owner0 y My t HMy) by done. destruct (decide (t = p)) as [->|].
    + rewrite fn_lookup_insert, Hx. naive_solver.
    + by rewrite fn_lookup_insert_ne by done.
  - intros y t [= <-]. destruct (decide (t = p)) as [->|].
    + rewrite fn_lookup_insert, Hx. naive_solver.
    + rewrite fn_lookup_insert_ne by done. intros Hxt. apply (inv_owner0 x M) in Hxt; congruence.
  - intros t y Hy. destruct (decide (t = p)) as [->|].
    + rewrite fn_lookup_insert, Hx in Hy. by apply Hy.
    + by rewrite fn_lookup_insert_ne in Hy by done.
Qed.

Lemma unlink_locked_spec x p w A locks M tp :
  rep w A -> inv A locks None -> mux A !! x = Some M -> owner M = Some p -> thr A !! p = Some tp ->
  exists w' A', unlink_locked x p w = Done w' /\ rep w' A' /\ relinked A A' /\
    inv A' (<[p := filter (.≠ x) (locks p)]> locks) (Some x).
Proof.
  intros Hr Hi HM Ho Htp. pose proof Hi as [].
  assert (Hin : x ∈ locks p) by by apply (inv_owner0 x M).
  pose proof (inv_chain0 p tp Htp) as Hc. pose proof (inv_nodup0 p) as Hnd.
  pose proof (locks_length w A locks None p Hr Hi) as Hlen.
  apply list_elem_of_split in Hin as (a & b & Heq). rewrite Heq in Hc, Hnd, Hlen.
  assert (Hdone : forall A', relinked A A' ->
    (forall tt, thr A' !! p = Some tt -> mchain (mux A') (mutexLocked tt) (a ++ b)) ->
    (forall t tt, t <> p -> thr A' !! t = Some tt -> mchain (mux A') (mutexLocked tt) (locks t)) ->
    inv A' (<[p := filter (.≠ x) (locks p)]> locks) (Some x)).
  { intros A' Hre Hcp Hct. rewrite Heq, filter_ne_app by done. by apply (inv_unlinked A A' locks p a x b M). }
  unfold unlink_locked. destruct (rep_load w A p tp Hr Htp) as (t' & -> & _ & Hst). cbn [mbind outcome_bind].
  assert (mutexLocked t' = mutexLocked tp) as -> by by rewrite <- Hst.
  destruct (mchain_app_next _ _ _ _ _ Hc) as (M' & HM' & Hb). assert (M' = M) as -> by congruence.
  destruct a as [|z0 a0] using rev_ind; [|clear IHa0].
  - destruct Hc as [Hl _]. rewrite Hl, bool_decide_eq_true_2 by done.
    rewrite (rep_load_mutex _ _ _ _ Hr HM). cbn [mbind outcome_bind].
    destruct (rep_store_thread w A p tp (set_mutexLocked (next M)) Hr Htp) as (w' & -> & Hr'); [done..|].
    eexists w', _. split; [done|]. split; [exact Hr'|].
    assert (Hre : relinked A (Abs (<[p := set_mutexLocked (next M) tp]> (thr A)) (mux A) (prios A))).
    { split_and!; [done| |done]. intros t. simpl. destruct (decide (t = p)) as [->|].
      - by rewrite lookup_insert_eq, Htp.
      - by rewrite lookup_insert_ne. }
    split; [done|]. apply Hdone; [done|..]; simpl.
    + intros tt. rewrite lookup_insert_eq. by intros [= <-].
    + intros t tt Ht. rewrite lookup_insert_ne by done. apply inv_chain0.
  - assert (exists v, mutexLocked tp = Some v /\ v <> x) as (v & Hv & Hvx).
    { destruct a0 as [|v a0]; simpl in *; destruct Hc as [-> _]; eexists; (split; [done|]); intros ->;
        apply NoDup_cons in Hnd as [Hn _]; apply Hn; set_solver. }
    rewrite Hv, bool_decide_eq_false_2 by congruence. cbn [mbind outcome_bind deref]. rewrite Hv in Hc.
    rewrite <- app_assoc in Hc, Hnd, Hlen. simpl in Hc, Hnd, Hlen.
    destruct (mchain_app_next _ _ _ _ _ Hc) as (Mz & HMz & _).
    destruct (unlink_walk_spec (fuel w) a0 z0 x b v w A Mz M) as (w' & -> & Hr'); try done.
    { rewrite length_app in Hlen. simpl in Hlen. lia. }
    eexists w', _. split; [done|]. split; [exact Hr'|].
    assert (Hre : relinked A (Abs (thr A) (<[z0 := set_next (next M) Mz]> (mux A)) (prios A))).
    { split_and!; [done|done|]. intros y. simpl. destruct (decide (y = z0)) as [->|].
      - by rewrite lookup_insert_eq, HMz.
      - by rewrite lookup_insert_ne. }
    split; [done|]. apply Hdone; [done|..].
    + intros tt Htt. simpl in Htt |- *. assert (tt = tp) as -> by congruence. rewrite Hv, <- app_assoc. by apply (mchain_unlink _ _ _ _ x).
    + intros t tt Ht Htt. simpl in Htt |- *. eapply mchain_frame; [|by apply inv_chain0].
      intros y Hy. destruct (decide (y = z0)) as [->|]; [|by rewrite lookup_insert_ne].
      exfalso. apply Ht. apply (inv_owner0 z0 Mz) in Hy; [|done|done].
      assert (z0 ∈ locks p) as Hz by (rewrite Heq; set_solver). apply (inv_owner0 z0 Mz) in Hz; [congruence|done|done].
Qed.

(** [pr] is the most urgent of [base] and the priorities of the threads that
    wait for the mutexes [xs]. *)
Definition most_urgent (A : abs) (base : Z) (xs : list positive) (pr : Z) : Prop :=
  (pr = base \/ exists x M t, x ∈ xs /\ mux A !! x = Some M /\ t ∈ waiting M /\ prios A !! t = Some pr) /\
  urgency base <= urgency pr /\
  forall x M t pt, x ∈ xs -> mux A !! x = Some M -> t ∈ waiting M -> prios A !! t = Some pt -> urgency pt <= urgency pr.

Lemma most_urgent_unique A base xs p q : most_urgent A base xs p -> most_urgent A base xs q -> p = q.
Proof.
  intros ([->|(x & M & t & Hx & HM & Ht & Hp)] & Hbp & Hp') ([->|(y & M' & u & Hy & HM' & Hu & Hq)] & Hbq & Hq').
  - done.
  - apply urgency_inj. specialize (Hp' _ _ _ _ Hy HM' Hu Hq). lia.
  - apply urgency_inj. specialize (Hq' _ _ _ _ Hx HM Ht Hp). lia.
  - apply urgency_inj. specialize (Hp' _ _ _ _ Hy HM' Hu Hq). specialize (Hq' _ _ _ _ Hx HM Ht Hp). lia.
Qed.

(** The first waiting thread is a most urgent one. *)
Lemma front_most_urgent A M t l u pt pu :
  is_heap (lower A) (waiting M) -> waiting M = t :: l -> u ∈ waiting M ->
  prios A !! t = Some pt -> prios A !! u = Some pu -> urgency pu <= urgency pt.
Proof.
  intros Hh Hw Hu Hpt Hpu. rewrite Hw in Hh, Hu. pose proof (heap_front _ _ _ _ (lower_weak A) Hh Hu) as Hf.
  unfold lower, prio in Hf. rewrite Hpt, Hpu, mutexLessOp_urgency in Hf. simpl in Hf. apply Z.ltb_ge in Hf. done.
Qed.

Lemma max_waiting_spec lt n o xs base w A locks hole :
  (forall a b, lt a b = (urgency a <? urgency b)) ->
  rep w A -> inv A locks hole -> heaps A -> mchain (mux A) o xs -> (length xs < n)%nat ->
  exists pr, max_waiting lt n o base w = Done pr /\ most_urgent A base xs pr.
Proof.
  intros Hlt Hr Hi Hh. revert n o base. induction xs as [|x xs IH]; intros n o base Hc Hn; (destruct n as [|n]; [simpl in Hn; lia|]).
  - simpl in Hc. subst o. exists base. split; [done|]. split_and!; [by left|lia|set_solver].
  - destruct Hc as (-> & M & HM & Hc). simpl in Hn. cbn [max_waiting].
    rewrite (rep_load_mutex _ _ _ _ Hr HM). cbn [mbind outcome_bind].
    destruct (waiting M) as [|t l] eqn:Ew.
    + cbn [mbind outcome_bind]. destruct (IH n (next M) base Hc ltac:(lia)) as (pr & -> & Hfrom & Hb & Hall).
      exists pr. split; [done|]. split_and!; [|done|].
      * destruct Hfrom as [?|(y & My & u & ? & ? & ? & ?)]; [by left|right]. exists y, My, u. set_solver.
      * intros y My u pu Hy HMy Hu Hpu. apply elem_of_cons in Hy as [->|Hy]; [|by eapply Hall].
        assert (My = M) as -> by congruence. rewrite Ew in Hu. set_solver.
    + assert (Ht : t ∈ waiting M) by (rewrite Ew; by left).
      destruct (inv_wsched _ _ _ Hi x M t HM Ht) as [pt Hpt].
      rewrite (rep_getPrio _ _ _ _ Hr Hpt). cbn [mbind outcome_bind]. rewrite Hlt.
      set (base' := if urgency base <? urgency pt then pt else base).
      assert (Hb' : urgency base <= urgency base' /\ urgency pt <= urgency base' /\ (base' = base \/ base' = pt)).
      { unfold base'. destruct (Z.ltb_spec (urgency base) (urgency pt)); split_and!; auto; lia. }
      destruct Hb' as (Hb1 & Hb2 & Hb3).
      destruct (IH n (next M) base' Hc ltac:(lia)) as (pr & -> & Hfrom & Hb & Hall).
      exists pr. split; [done|]. split_and!.
      * destruct Hfrom as [->|(y & My & u & ? & ? & ? & ?)].
        -- destruct Hb3 as [->| ->]; [by left|right]. exists x, M, t. set_solver.
        -- right. exists y, My, u. set_solver.
      * lia.
      * intros y My u pu Hy HMy Hu Hpu. apply elem_of_cons in Hy as [->|Hy]; [|by eapply Hall].
        assert (My = M) as -> by congruence.
        pose proof (front_most_urgent A M t l u pt pu (Hh x M HM) Ew Hu Hpt Hpu). lia.
Qed.

Lemma most_urgent_valid A locks hole base xs pr :
  inv A locks hole -> validate base = true -> most_urgent A base xs pr -> validate pr = true.
Proof. intros Hi Hb ([->|(x & M & t & _ & _ & _ & Hp)] & _); [done|]. by eapply inv_valid. Qed.

(** Changing the priority of a thread that waits for no mutex. *)
Lemma setPrio_spec w A locks hole p tp pr :
  rep w A -> inv A locks hole -> heaps A -> thr A !! p = Some tp -> mutexWaiting tp = None ->
  is_Some (prios A !! p) -> validate pr = true ->
  exists w', setPrio w p pr = Done w' /\
    let A' := Abs (thr A) (mux A) (<[p := pr]> (prios A)) in rep w' A' /\ inv A' locks hole /\ heaps A'.
Proof.
  intros Hr Hi Hh Htp Hw Hp Hv. destruct (rep_setPrio w A p pr Hr Hp Hv) as (w' & Hrun & Hr').
  exists w'. split; [done|]. split_and!; [done| |].
  - apply (inv_perm A); [done|done|apply mperm_refl|..]; simpl.
    + intros t. rewrite lookup_insert_is_Some'. naive_solver.
    + intros t q. intros [[<- <-]|[_ Hq]]%lookup_insert_Some; [done|by eapply inv_valid].
  - apply heaps_prio; [|done]. intros x M HM Hin. apply (inv_wait _ _ _ Hi x M) in Hin as (tt & Htt & Hmw); [|done]. congruence.
Qed.

Lemma restore_priority_spec p w A locks hole tp :
  rep w A -> inv A locks hole -> heaps A -> thr A !! p = Some tp -> mutexWaiting tp = None ->
  is_Some (prios A !! p) -> validate (savedPriority tp) = true ->
  exists w' pr, restore_priority p w = Done w' /\ most_urgent A (savedPriority tp) (locks p) pr /\
    let A' := Abs (thr A) (mux A) (<[p := pr]> (prios A)) in rep w' A' /\ inv A' locks hole /\ heaps A'.
Proof.
  intros Hr Hi Hh Htp Hw Hp Hv. unfold restore_priority.
  destruct (rep_load w A p tp Hr Htp) as (t' & -> & _ & Hst). cbn [mbind outcome_bind].
  assert (mutexLocked t' = mutexLocked tp) as -> by by rewrite <- Hst.
  assert (savedPriority t' = savedPriority tp) as -> by by rewrite <- Hst.
  destruct Hp as [po Hpo]. rewrite (rep_getPrio _ _ _ _ Hr Hpo). cbn [mbind outcome_bind].
  pose proof (inv_chain _ _ _ Hi p tp Htp) as Hc.
  assert (Hset : forall pr, validate pr = true -> exists w', (if negb (pr =? po) then setPrio w p pr else Done w) = Done w' /\
    let A' := Abs (thr A) (mux A) (<[p := pr]> (prios A)) in rep w' A' /\ inv A' locks hole /\ heaps A').
  { intros pr Hvpr. destruct (Z.eqb_spec pr po) as [->|Hne]; simpl.
    - exists w. split; [done|]. rewrite insert_id by done. by destruct A.
    - eapply setPrio_spec; [done|done|done|exact Htp|done|by eexists|done]. }
  destruct (mutexLocked tp) as [walk|] eqn:El.
  - destruct (max_waiting_spec mutexLessOp (fuel w) (Some walk) (locks p) (savedPriority tp) w A locks hole) as (pr & -> & Hmost);
      [apply mutexLessOp_urgency|done|done|done|done|by eapply locks_length|]. cbn [mbind outcome_bind].
    destruct (Hset pr) as (w' & -> & ?); [by eapply most_urgent_valid|]. eauto.
  - destruct (locks p) as [|y r] eqn:Elk; [|by destruct Hc].
    destruct (Hset (savedPriority tp) Hv) as (w' & -> & ?). exists w', (savedPriority tp). split; [done|]. split; [|done].
    split_and!; [by left|lia|set_solver].
Qed.

(** *** The next owner *)

(** The thread that gets the mutex, out of its queue. *)
Definition woken (to : Thread) : Thread :=
  set_flags (ThreadFlags.IRQsetWait false) (set_mutexWaiting None to).

Lemma inv_free_mutex A locks x M :
  inv A locks (Some x) -> mux A !! x = Some M -> waiting M = [] ->
  inv (Abs (thr A) (<[x := set_waiting [] (set_owner None M)]> (mux A)) (prios A)) locks None.
Proof.
  intros [] HM Hw. split; simpl; try done.
  - intros t tt Ht. apply (mchain_insert _ x M); [done|done|]. by apply inv_chain0.
  - intros y My t HMy _. destruct (decide (y = x)) as [->|Hyx].
    + rewrite lookup_insert_eq in HMy. injection HMy as <-. simpl. split; [done|]. intros Hin. by apply (inv_hole0 x t) in Hin.
    + rewrite lookup_insert_ne in HMy by done. apply inv_owner0; [done|congruence].
  - intros t y Hy. destruct (inv_locks0 t y Hy). split; [|done]. apply lookup_insert_is_Some'. by right.
  - intros y My HMy. apply lookup_insert_Some in HMy as [[<- <-]|[_ HMy]]; [constructor|by apply (inv_wnodup0 y)].
  - intros y My t HMy. apply lookup_insert_Some in HMy as [[<- <-]|[_ HMy]]; [|by apply (inv_wait0 y My)].
    simpl. rewrite <- Hw. by apply inv_wait0.
  - intros t tt y Ht Hmw. apply lookup_insert_is_Some'. right. by eapply inv_wmutex0.
  - intros y My t HMy Hin. apply lookup_insert_Some in HMy as [[<- <-]|[_ HMy]]; [simpl in Hin; set_solver|by apply (inv_wsched0 y My)].
  - intros y My HMy. apply lookup_insert_Some in HMy as [[<- <-]|[_ HMy]]; [done|by apply (inv_free0 y)].
  - intros y My t HMy. apply lookup_insert_Some in HMy as [[<- <-]|[_ HMy]]; [done|by apply (inv_self0 y)].
Qed.

Lemma inv_wake A locks x M o l to :
  inv A locks (Some x) -> mux A !! x = Some M -> waiting M ≡ₚ o :: l -> thr A !! o = Some to ->
  inv (Abs (<[o := woken to]> (thr A)) (<[x := set_waiting l (set_owner (Some o) M)]> (mux A)) (prios A)) locks (Some x).
Proof.
  intros [] HM Hw Hto.
  pose proof (inv_wnodup0 x M HM) as Hnd. rewrite Hw in Hnd. apply NoDup_cons in Hnd as [Hol Hnd].
  assert (Hmw : mutexWaiting to = Some x).
  { assert (o ∈ waiting M) as Hin by (rewrite Hw; by left).
    apply (inv_wait0 x M o HM) in Hin as (tt & Htt & Hmw). congruence. }
  split; simpl; try done.
  - intros t tt Ht. apply (mchain_insert _ x M); [done|done|].
    apply lookup_insert_Some in Ht as [[<- <-]|[_ Ht]]; [by apply (inv_chain0 o to)|by apply inv_chain0].
  - intros y My t HMy Hy. rewrite lookup_insert_ne in HMy by congruence. by apply inv_owner0.
  - intros t y Hy. destruct (inv_locks0 t y Hy). split; [|done]. apply lookup_insert_is_Some'. by right.
  - intros y My HMy. apply lookup_insert_Some in HMy as [[<- <-]|[_ HMy]]; [done|by apply (inv_wnodup0 y)].
  - intros y My t HMy. destruct (decide (t = o)) as [->|Hto'].
    + rewrite lookup_insert_eq. apply lookup_insert_Some in HMy as [[<- <-]|[Hne HMy]]; simpl.
      * split; [done|]. intros (tt & [= <-] & Hn). done.
      * rewrite (inv_wait0 y My o HMy). split; [intros (tt & Htt & Hn); congruence|intros (tt & [= <-] & Hn); done].
    + rewrite lookup_insert_ne by done. apply lookup_insert_Some in HMy as [[<- <-]|[Hne HMy]]; simpl; [|by apply inv_wait0].
      rewrite <- (inv_wait0 x M t HM), Hw. set_solver.
  - intros t tt y Ht Hmw'. apply lookup_insert_is_Some'. right.
    apply lookup_insert_Some in Ht as [[<- <-]|[_ Ht]]; [done|by apply (inv_wmutex0 t tt)].
  - intros y My t HMy Hin. apply lookup_insert_Some in HMy as [[<- <-]|[_ HMy]]; [simpl in Hin|by apply (inv_wsched0 y My)].
    apply (inv_wsched0 x M t HM). rewrite Hw. by right.
  - intros y My HMy. apply lookup_insert_Some in HMy as [[<- <-]|[_ HMy]]; [done|by apply (inv_free0 y)].
  - intros y My t HMy Hin. apply lookup_insert_Some in HMy as [[<- <-]|[_ HMy]]; [simpl in *; congruence|by apply (inv_self0 y My)].
  - intros t tt Ht Hl. apply lookup_insert_Some in Ht as [[<- <-]|[_ Ht]]; [by apply (inv_saved0 o to)|by apply (inv_saved0 t tt)].
  - intros t Ht. apply lookup_insert_is_Some'. right. by apply inv_sched0.
Qed.

(** What [hand_over] does: no one waits and the mutex becomes free, or a most
    urgent waiting thread becomes its owner. *)
Definition handed_over (x : positive) (A : abs) (M : Mutex) (r : option positive) (A' : abs) : Prop :=
  prios A' = prios A /\
  match r with
  | None => waiting M = [] /\ thr A' = thr A /\ mux A' = <[x := set_waiting [] (set_owner None M)]> (mux A)
  | Some o => exists to po l, waiting M ≡ₚ o :: l /\ thr A !! o = Some to /\ prios A !! o = Some po /\
      (forall u pu, u ∈ waiting M -> prios A !! u = Some pu -> urgency pu <= urgency po) /\
      thr A' = <[o := linked x po (woken to)]> (thr A) /\
      mux A' = <[x := mkMutex (Some o) (mutexLocked to) l (recursiveDepth M)]> (mux A)
  end.

Definition new_locks (x : positive) (r : option positive) (locks : positive -> list positive) : positive -> list positive :=
  match r with None => locks | Some o => <[o := x :: locks o]> locks end.

Lemma hand_over_spec x w A locks M :
  rep w A -> inv A locks (Some x) -> heaps A -> mux A !! x = Some M ->
  exists r w' A', hand_over x w = Done (r, w') /\ rep w' A' /\ inv A' (new_locks x r locks) None /\ heaps A' /\
    handed_over x A M r A'.
Proof.
  intros Hr Hi Hh HM. unfold hand_over. rewrite (rep_load_mutex _ _ _ _ Hr HM). cbn [mbind outcome_bind].
  destruct (waiting M) as [|o r] eqn:Ew.
  - destruct (rep_store_mutex w A x M (fun M => set_waiting [] (set_owner None M)) Hr HM) as (w' & -> & Hr').
    cbn [mbind outcome_bind]. eexists None, w', _. split; [done|]. split; [exact Hr'|]. split_and!; [|..|done].
    + by apply inv_free_mutex.
    + eapply heaps_same; [| |exact Hh]; [|done]. intros y My HMy. simpl in HMy.
      apply lookup_insert_Some in HMy as [[<- <-]|[_ HMy]]; eauto.
  - assert (Ho : o ∈ waiting M) by (rewrite Ew; by left).
    assert (Hwp : forall t, t ∈ waiting M -> is_Some (prios A !! t)) by (intros t Ht; by eapply inv_wsched).
    destruct (Hwp o Ho) as [po Hpo].
    assert (Hmax : forall u pu, u ∈ waiting M -> prios A !! u = Some pu -> urgency pu <= urgency po).
    { intros u pu Hu Hpu. by eapply (front_most_urgent A M o r u); [apply (Hh x)|..]. }
    destruct (pop_heap_law (LowerPriority w) o r (LowerPriority_weak w)) as (l & Hpop & Hheap & Hperm).
    { eapply is_heap_ext; [|rewrite <- Ew; by apply (Hh x)]. rewrite <- Ew. by apply rep_LowerPriority. }
    destruct (rep_store_mutex w A x M (fun M => set_waiting (removelast (pop_heap (LowerPriority w) (waiting M))) (set_owner (Some o) M)) Hr HM)
      as (w1 & -> & Hr1). cbn [mbind outcome_bind].
    rewrite Ew, Hpop, removelast_last in Hr1.
    pose proof Ho as Ho'. apply (inv_wait _ _ _ Hi x M o HM) in Ho' as (to & Hto & Hmw).
    destruct (rep_load w1 _ o to Hr1 Hto) as (t' & -> & _ & Hst). cbn [mbind outcome_bind].
    assert (mutexWaiting t' = Some x) as -> by by rewrite <- Hmw, <- Hst.
    rewrite bool_decide_eq_false_2 by naive_solver.
    destruct (rep_store_thread w1 _ o to (set_mutexWaiting None) Hr1 Hto) as (w2 & -> & Hr2); [done..|].
    cbn [mbind outcome_bind]. simpl in Hr2.
    destruct (rep_store_thread w2 _ o (set_mutexWaiting None to) (set_flags (ThreadFlags.IRQsetWait false)) Hr2)
      as (w3 & -> & Hr3); [simpl; apply lookup_insert_eq|done|done|].
    cbn [mbind outcome_bind]. simpl in Hr3. rewrite insert_insert_eq in Hr3. fold (woken to) in Hr3.
    assert (Hwl : waiting M ≡ₚ o :: l) by by rewrite Ew, Hperm.
    pose proof (inv_wake A locks x M o l to Hi HM Hwl Hto) as Hi3.
    set (A3 := Abs (<[o := woken to]> (thr A)) (<[x := set_waiting l (set_owner (Some o) M)]> (mux A)) (prios A)) in *.
    destruct (link_owner_spec x o w3 A3 (woken to) po (set_waiting l (set_owner (Some o) M)) Hr3) as (w4 & -> & Hr4);
      [apply lookup_insert_eq|done|apply lookup_insert_eq|].
    cbn [mbind outcome_bind].
    pose proof (inv_link A3 locks x (set_waiting l (set_owner (Some o) M)) o (woken to) po Hi3) as Hi4.
    specialize (Hi4 (lookup_insert_eq _ _ _) eq_refl (lookup_insert_eq _ _ _) Hpo).
    simpl in Hr4, Hi4. rewrite !insert_insert_eq in Hr4, Hi4.
    set (A4 := Abs _ _ _) in Hr4, Hi4.
    rewrite (rep_load_mutex w4 A4 x (set_next (mutexLocked to) (set_waiting l (set_owner (Some o) M))) Hr4 (lookup_insert_eq _ _ _)).
    cbn [mbind outcome_bind waiting set_next set_waiting set_owner].
    assert (Hnoraise : match l with [] => Done w4 | u :: _ =>
       po ← getPrio w4 o; pu ← getPrio w4 u; if mutexLessOp po pu then setPrio w4 o pu else Done w4 end = Done w4).
    { destruct l as [|u l]; [done|]. assert (Hu : u ∈ waiting M) by (rewrite Hwl; set_solver).
      destruct (Hwp u Hu) as [pu Hpu].
      rewrite (rep_getPrio w4 A4 o po Hr4 Hpo), (rep_getPrio w4 A4 u pu Hr4 Hpu). cbn [mbind outcome_bind].
      rewrite mutexLessOp_urgency. specialize (Hmax u pu Hu Hpu). by rewrite (proj2 (Z.ltb_ge _ _)). }
    rewrite Hnoraise. cbn [mbind outcome_bind].
    exists (Some o), w4, A4. split; [done|]. split; [done|]. split; [exact Hi4|]. split; [|split; [done|]].
    + intros y My HMy. simpl in HMy. apply lookup_insert_Some in HMy as [[<- <-]|[_ HMy]]; [|by apply (Hh y)].
      eapply is_heap_ext; [|exact Hheap]. intros a b Ha Hb. symmetry.
      apply (rep_LowerPriority w A (waiting M)); [done|done|rewrite Hwl; by right..].
    + exists to, po, l. split_and!; done.
Qed.

(** *** The whole of unlocking *)

(** [p] gives [x] up and thread [r], if any, gets it. *)
Record released (x p : positive) (A : abs) (locks : positive -> list positive) (r : option positive) (A' : abs) (M M' : Mutex) : Prop := Released {
  rel_before : mux A !! x = Some M;
  rel_after : mux A' !! x = Some M' /\ owner M' = r /\ recursiveDepth M' = recursiveDepth M;
  (** [p] gets its own priority back, or that of a thread that still waits for it. *)
  rel_prio : exists tp pr, thr A !! p = Some tp /\ prios A' = <[p := pr]> (prios A) /\
    most_urgent A (savedPriority tp) (filter (.≠ x) (locks p)) pr;
  (** The new owner is a most urgent waiting thread, and runs. *)
  rel_owner : match r with
    | None => waiting M = [] /\ waiting M' = []
    | Some o => waiting M ≡ₚ o :: waiting M' /\
        (exists po, prios A !! o = Some po /\ forall u pu, u ∈ waiting M -> prios A !! u = Some pu -> urgency pu <= urgency po) /\
        (exists to to', thr A !! o = Some to /\ thr A' !! o = Some to' /\ mutexWaiting to' = None /\
           flags to' = ThreadFlags.IRQsetWait false (flags to))
    end;
  rel_frame : forall y, y <> x -> set_next None <$> mux A' !! y = set_next None <$> mux A !! y;
}.

Lemma handed_over_released x p A A1 locks M tp pr r A' :
  relinked A A1 -> mux A !! x = Some M -> thr A !! p = Some tp -> p ∉ waiting M ->
  most_urgent A (savedPriority tp) (filter (.≠ x) (locks p)) pr ->
  (forall M1, mux A1 !! x = Some M1 -> handed_over x (Abs (thr A1) (mux A1) (<[p := pr]> (prios A1))) M1 r A') ->
  exists M', released x p A locks r A' M M'.
Proof.
  intros Hre HM Htp Hpw Hpr Hho. pose proof Hre as (Hp & Ht & Hm).
  destruct (relinked_mux _ _ _ _ (relinked_sym _ _ Hre) HM) as (M1 & HM1 & Ho & Hw & Hd).
  specialize (Hho M1 HM1) as [Hpr' Hr]. simpl in Hpr', Hr.
  assert (Hframe : forall My y, y <> x -> set_next None <$> <[x := My]> (mux A1) !! y = set_next None <$> mux A !! y).
  { intros My y Hy. rewrite lookup_insert_ne by done. apply Hm. }
  assert (Hprio : exists tp pr, thr A !! p = Some tp /\ prios A' = <[p := pr]> (prios A) /\
    most_urgent A (savedPriority tp) (filter (.≠ x) (locks p)) pr).
  { exists tp, pr. split_and!; [done|by rewrite Hpr', Hp|done]. }
  destruct r as [o|].
  - destruct Hr as (to1 & po & l & Hwl & Hto1 & Hpo & Hmax & Hthr & Hmux).
    rewrite <- Hw in Hwl, Hmax. assert (Hop : o <> p) by (intros ->; apply Hpw; rewrite Hwl; by left).
    exists (mkMutex (Some o) (mutexLocked to1) l (recursiveDepth M1)). split; [done| |done| |]; simpl.
    + by rewrite Hmux, lookup_insert_eq.
    + destruct (relinked_thr _ _ _ _ Hre Hto1) as (to & Hto & Heq). split; [done|]. split.
      * rewrite lookup_insert_ne, Hp in Hpo by done. exists po. split; [done|]. intros u pu Hu Hpu.
        apply (Hmax u pu Hu). rewrite lookup_insert_ne, Hp; [done|]. by intros <-.
      * exists to, (linked x po (woken to1)). rewrite Hthr, lookup_insert_eq. split_and!; [done|done|..].
        -- by rewrite linked_waiting.
        -- apply (f_equal flags) in Heq. simpl in Heq. unfold linked. case_decide; simpl; by rewrite Heq.
    + intros y Hy. rewrite Hmux. by apply Hframe.
  - destruct Hr as (Hwl & Hthr & Hmux). exists (set_waiting [] (set_owner None M1)). split; [done| |done| |]; simpl.
    + by rewrite Hmux, lookup_insert_eq.
    + by rewrite Hw.
    + intros y Hy. rewrite Hmux. by apply Hframe.
Qed.

Lemma relinked_most_urgent A A1 base xs pr : relinked A A1 -> most_urgent A1 base xs pr -> most_urgent A base xs pr.
Proof.
  intros Hre (Hfrom & Hb & Hall). pose proof Hre as (Hp & _). split_and!; [|done|].
  - destruct Hfrom as [->|(y & M1 & u & Hy & HM1 & Hu & Hpu)]; [by left|right].
    destruct (relinked_mux _ _ _ _ Hre HM1) as (M & HM & _ & Hw & _). exists y, M, u. by rewrite <- Hw, <- Hp.
  - intros y M u pu Hy HM Hu Hpu. destruct (relinked_mux _ _ _ _ (relinked_sym _ _ Hre) HM) as (M1 & HM1 & _ & Hw & _).
    apply (Hall y M1 u pu); [done|done|by rewrite <- Hw|by rewrite Hp].
Qed.

(** The three steps of [PKunlock] and [PKunlockAllDepthLevels]. *)
Lemma release_spec x p w A locks M tp :
  rep w A -> inv A locks None -> heaps A -> mux A !! x = Some M -> owner M = Some p ->
  thr A !! p = Some tp -> mutexWaiting tp = None ->
  exists w1 w2 w3 r A' M', unlink_locked x p w = Done w1 /\ restore_priority p w1 = Done w2 /\
    hand_over x w2 = Done (r, w3) /\ rep w3 A' /\
    inv A' (new_locks x r (<[p := filter (.≠ x) (locks p)]> locks)) None /\ heaps A' /\
    released x p A locks r A' M M'.
Proof.
  intros Hr Hi Hh HM Ho Htp Hmw.
  assert (Hin : x ∈ locks p) by (by apply (inv_owner _ _ _ Hi x M)).
  destruct (unlink_locked_spec x p w A locks M tp Hr Hi HM Ho Htp) as (w1 & A1 & Hrun1 & Hr1 & Hre & Hi1).
  pose proof (heaps_relinked _ _ Hre Hh) as Hh1. pose proof Hre as (Hp & _).
  destruct (relinked_thr _ _ _ _ (relinked_sym _ _ Hre) Htp) as (tp1 & Htp1 & Heq).
  assert (Hmw1 : mutexWaiting tp1 = None) by (apply (f_equal mutexWaiting) in Heq; simpl in Heq; congruence).
  assert (Hsv : savedPriority tp1 = savedPriority tp) by (apply (f_equal savedPriority) in Heq; simpl in Heq; congruence).
  assert (Hvalid : validate (savedPriority tp) = true) by (apply (inv_saved _ _ _ Hi p tp Htp); intros Hnil; rewrite Hnil in Hin; by apply elem_of_nil in Hin).
  destruct (restore_priority_spec p w1 A1 _ _ tp1 Hr1 Hi1 Hh1 Htp1 Hmw1) as (w2 & pr & Hrun2 & Hmost & Hr2 & Hi2 & Hh2).
  { rewrite Hp. by apply (inv_locks _ _ _ Hi p x). }
  { by rewrite Hsv. }
  rewrite fn_lookup_insert, Hsv in Hmost. apply (relinked_most_urgent _ _ _ _ _ Hre) in Hmost.
  destruct (relinked_mux _ _ _ _ (relinked_sym _ _ Hre) HM) as (M1 & HM1 & _).
  destruct (hand_over_spec x w2 _ _ M1 Hr2 Hi2 Hh2 HM1) as (r & w3 & A' & Hrun3 & Hr3 & Hi3 & Hh3 & Hho).
  assert (Hpw : p ∉ waiting M).
  { intros Hpw. apply (inv_wait _ _ _ Hi x M p HM) in Hpw as (tt & Htt & ?). congruence. }
  destruct (handed_over_released x p A A1 locks M tp pr r A' Hre HM Htp Hpw Hmost) as (M' & Hrel).
  { intros M1' HM1'. by assert (M1' = M1) as -> by congruence. }
  exists w1, w2, w3, r, A', M'. by split_and!.
Qed.

(** ** The operations *)

Definition good (w : world) (A : abs) (locks : positive -> list positive) : Prop :=
  rep w A /\ inv A locks None /\ heaps A.

Lemma can_run_spec p w A locks :
  good w A locks -> can_run p w = true ->
  exists tp pp, thr A !! p = Some tp /\ mutexWaiting tp = None /\ prios A !! p = Some pp.
Proof.
  intros (Hr & Hi & Hh) Hc. unfold can_run in Hc. rewrite (PKexists_law _ _ _ p (rep_sched _ _ Hr)) in Hc.
  destruct (bool_decide_reflect (is_Some (prios A !! p))) as [[pp Hpp]|]; [|done].
  destruct (dead (heap w) p); [done|]. simpl in Hc. destruct (rep_thr_in w A p pp Hr Hpp) as [tp Htp].
  destruct (rep_load w A p tp Hr Htp) as (t' & _ & Hp & Hst). rewrite Hp in Hc.
  apply bool_decide_eq_true in Hc. exists tp, pp. split_and!; [done|by rewrite <- Hst|done].
Qed.

Lemma reaches_wpath n o p w A :
  rep w A -> reaches n o p w = true -> exists ts, wpath A o ts /\ p ∉ ts.
Proof.
  intros Hr. revert o. induction n as [|n IH]; intros o; [done|]. simpl. intros [Hop Hc]%andb_prop.
  apply bool_decide_eq_true in Hop. destruct (heap w !! o) as [t|] eqn:Ht; [|done].
  assert (Hto : thr A !! o = Some (strip t)) by (by rewrite <- (rep_thr _ _ Hr), lookup_fmap, Ht).
  destruct (mutexWaiting t) as [y|] eqn:Hy.
  - destruct (mutexes w !! y) as [M|] eqn:HM; [|done]. simpl in Hc. destruct (owner M) as [u|] eqn:Hu; [|done].
    destruct (IH u Hc) as (ts & Hts & Hp). exists (o :: ts). split; [|set_solver].
    destruct ts as [|v r]; [done|]. split; [done|]. exists (strip t). split; [done|].
    exists y, M, u. rewrite <- (rep_mux _ _ Hr). by split_and!.
  - exists [o]. split; [|set_solver]. split; [done|]. exists (strip t). done.
Qed.

Lemma good_depth w A locks x M f :
  good w A locks -> mux A !! x = Some M -> (forall M, owner (f M) = owner M /\ next (f M) = next M /\ waiting (f M) = waiting M) ->
  exists w', store_mutex w x f = Done w' /\ good w' (Abs (thr A) (<[x := f M]> (mux A)) (prios A)) locks.
Proof.
  intros (Hr & Hi & Hh) HM Hf. destruct (rep_store_mutex w A x M f Hr HM) as (w' & Hrun & Hr').
  exists w'. split; [done|]. destruct (Hf M) as (Ho & Hn & Hw). split_and!; [done| |].
  - apply (inv_perm A); [done|done| |done|apply (inv_valid _ _ _ Hi)]. intros y. simpl.
    destruct (decide (y = x)) as [->|]; [rewrite lookup_insert_eq, HM; by rewrite Hw|].
    rewrite lookup_insert_ne by done. by destruct (mux A !! y).
  - eapply heaps_same; [| |exact Hh]; [|done]. intros y My HMy. simpl in HMy.
    apply lookup_insert_Some in HMy as [[<- <-]|[_ HMy]]; eauto.
Qed.

Lemma good_flags w A locks p tp f :
  good w A locks -> thr A !! p = Some tp ->
  exists w', store_thread w p (set_flags f) = Done w' /\ good w' (Abs (<[p := set_flags f tp]> (thr A)) (mux A) (prios A)) locks.
Proof.
  intros (Hr & Hi & Hh) Htp. destruct (rep_store_thread w A p tp (set_flags f) Hr Htp) as (w' & Hrun & Hr'); [done..|].
  exists w'. split; [done|]. split_and!; [done| |done]. destruct Hi. split; simpl; try done.
  - intros t tt Ht. apply lookup_insert_Some in Ht as [[<- <-]|[_ Ht]]; [by apply (inv_chain0 p tp)|by apply inv_chain0].
  - intros x M t HM. rewrite (inv_wait0 x M t HM). destruct (decide (t = p)) as [->|].
    + rewrite lookup_insert_eq. split; [intros (tt & ? & ?); eexists; split; [done|]; simpl; congruence|].
      intros (tt & [= <-] & ?). eauto.
    + by rewrite lookup_insert_ne by done.
  - intros t tt x Ht. apply lookup_insert_Some in Ht as [[<- <-]|[_ Ht]]; [by apply (inv_wmutex0 p tp)|by apply (inv_wmutex0 t tt)].
  - intros t tt Ht. apply lookup_insert_Some in Ht as [[<- <-]|[_ Ht]]; [by apply (inv_saved0 p tp)|by apply (inv_saved0 t)].
  - intros t Ht. apply lookup_insert_is_Some'. right. by apply inv_sched0.
Qed.

Lemma wait_turn_spec x p w A locks M tp :
  good w A locks -> mux A !! x = Some M -> thr A !! p = Some tp ->
  exists w' A', wait_turn x p w = Done (bool_decide (owner M = Some p), w') /\ good w' A' locks /\
    A' = if decide (owner M = Some p) then A
         else Abs (<[p := set_flags (ThreadFlags.IRQsetWait true) tp]> (thr A)) (mux A) (prios A).
Proof.
  intros Hg HM Htp. pose proof Hg as (Hr & _). unfold wait_turn. rewrite (rep_load_mutex _ _ _ _ Hr HM). cbn [mbind outcome_bind].
  case_bool_decide as Ho.
  - rewrite decide_True by done. eauto.
  - rewrite decide_False by done. destruct (good_flags w A locks p tp (ThreadFlags.IRQsetWait true) Hg Htp) as (w' & -> & Hg').
    eauto.
Qed.

Lemma restore_depth_spec x d w A locks M :
  good w A locks -> mux A !! x = Some M -> exists w' A', restore_depth x d w = Done w' /\ good w' A' locks /\
    A' = Abs (thr A) (<[x := if 0 <=? recursiveDepth M then set_depth (s32 d) M else M]> (mux A)) (prios A).
Proof.
  intros Hg HM. unfold restore_depth.
  destruct (good_depth w A locks x M (fun M => if 0 <=? recursiveDepth M then set_depth (s32 d) M else M) Hg HM) as (w' & -> & Hg').
  { intros M'. by destruct (0 <=? recursiveDepth M'). }
  eauto.
Qed.

(** What locking [x] does to the state, [d] being the change of the depth of a
    recursive mutex: [b] tells whether [p] owns it at the end. *)
Record lock_result (x p : positive) (depth0 depth1 : Z -> Z) (A : abs) (b : bool) (A' : abs) : Prop := LockResult {
  lock_case : exists M M', mux A !! x = Some M /\ mux A' !! x = Some M' /\
    match owner M with
    | None => b = true /\ owner M' = Some p /\ waiting M' = [] /\ prios A' = prios A /\
        recursiveDepth M' = depth0 (recursiveDepth M) /\
        (exists tp', thr A' !! p = Some tp' /\ mutexLocked tp' = Some x)
    | Some o =>
        if decide (o = p) then b = true /\ A' = Abs (thr A) (<[x := set_depth (depth1 (recursiveDepth M)) M]> (mux A)) (prios A)
        else b = false /\ owner M' = Some o /\ waiting M' ≡ₚ p :: waiting M /\ recursiveDepth M' = recursiveDepth M /\
          (exists tp tp', thr A !! p = Some tp /\ thr A' !! p = Some tp' /\ mutexWaiting tp' = Some x /\
             flags tp' = ThreadFlags.IRQsetWait true (flags tp)) /\
          (exists ts pp po, wpath A o ts /\ prios A !! p = Some pp /\ prios A !! o = Some po /\
             prios A' = if urgency po <? urgency pp then inherited pp ts (prios A) else prios A)
    end;
  lock_frame : forall y, y <> x -> owner <$> mux A' !! y = owner <$> mux A !! y /\
    recursiveDepth <$> mux A' !! y = recursiveDepth <$> mux A !! y;
}.

Lemma enqueue_result x p o M w A locks tp pp d0 d1 :
  good w A locks -> mux A !! x = Some M -> owner M = Some o -> o <> p -> thr A !! p = Some tp -> mutexWaiting tp = None ->
  prios A !! p = Some pp -> reaches (fuel w) o p w = true ->
  exists w1 w2 A', enqueue x p o w = Done w1 /\ wait_turn x p w1 = Done (false, w2) /\ good w2 A' locks /\
    lock_result x p d0 d1 A false A'.
Proof.
  intros Hg HM Ho Hop Htp Hmw Hpp Hreach. pose proof Hg as (Hr & Hi & Hh).
  destruct (reaches_wpath _ _ _ _ _ Hr Hreach) as (ts & Hts & Hpts).
  assert (Hin : x ∈ locks o) by (by apply (inv_owner _ _ _ Hi x M)).
  destruct (inv_locks _ _ _ Hi o x Hin) as [_ [po Hpo]].
  destruct (wait_enqueue_spec x p o ts M tp pp po w A locks) as (w1 & A1 & Hrun1 & Hr1 & Hi1 & Hh1 & Hthr & Hperm & Hdep & Hprios); try done.
  specialize (Hperm x) as Hpx. rewrite lookup_insert_eq in Hpx. destruct (mux A1 !! x) as [M1|] eqn:HM1; [|done].
  simpl in Hpx. destruct Hpx as (Ho1 & Hn1 & Hw1).
  destruct (wait_turn_spec x p w1 A1 locks M1 (set_mutexWaiting (Some x) tp)) as (w2 & A2 & Hrun2 & Hg2 & HA2).
  { by split_and!. }
  { done. }
  { by rewrite Hthr, lookup_insert_eq. }
  rewrite bool_decide_eq_false_2 in Hrun2 by congruence. rewrite decide_False in HA2 by congruence.
  exists w1, w2, A2. split; [done|]. split; [done|]. split; [done|]. rewrite HA2. split; simpl.
  - exists M, M1. split; [done|]. split; [done|]. rewrite Ho, decide_False by done.
    split; [done|]. split; [congruence|]. split; [done|]. split; [|split].
    + specialize (Hdep x). rewrite HM, HM1 in Hdep. by injection Hdep.
    + exists tp, (set_flags (ThreadFlags.IRQsetWait true) (set_mutexWaiting (Some x) tp)). rewrite lookup_insert_eq. by split_and!.
    + exists ts, pp, po. rewrite <- mutexLessOp_urgency. by split_and!.
  - intros y Hy. specialize (Hperm y) as Hpy. rewrite lookup_insert_ne in Hpy by done. split; [|apply Hdep].
    destruct (mux A !! y), (mux A1 !! y); try done. simpl. f_equal. by destruct Hpy.
Qed.

Lemma lock_ok_owner w A locks x p M :
  good w A locks -> mux A !! x = Some M -> lock_ok x p w = true ->
  match owner M with
  | None => True
  | Some o => if decide (o = p) then (0 <=? recursiveDepth M) = true else reaches (fuel w) o p w = true
  end.
Proof.
  intros ([_ _ Hm] & _) HM. unfold lock_ok. rewrite Hm, HM. destruct (owner M) as [o|]; [|done].
  case_bool_decide; [by rewrite decide_True|by rewrite decide_False].
Qed.

Lemma owned_result x p M tp pp M1 A d0 d1 :
  mux A !! x = Some M -> owner M = None -> thr A !! p = Some tp -> waiting M = [] ->
  owner M1 = Some p -> waiting M1 = waiting M -> recursiveDepth M1 = d0 (recursiveDepth M) ->
  lock_result x p d0 d1 A true (Abs (<[p := linked x pp tp]> (thr A)) (<[x := set_next (mutexLocked tp) M1]> (mux A)) (prios A)).
Proof.
  intros HM Ho Htp Hw Ho1 Hw1 Hd1. split; simpl.
  - exists M, (set_next (mutexLocked tp) M1). rewrite lookup_insert_eq, Ho. simpl. split_and!; try done; [congruence|].
    exists (linked x pp tp). by rewrite lookup_insert_eq.
  - intros y Hy. by rewrite lookup_insert_ne by done.
Qed.

Lemma PKlock_spec x p w A locks :
  good w A locks -> can_run p w = true -> lock_ok x p w = true ->
  exists b w' A' locks', PKlock x p w = Done (b, w') /\ good w' A' locks' /\
    lock_result x p (fun d => d) (fun d => s32 (d + 1)) A b A'.
Proof.
  intros Hg Hrun Hok. destruct (can_run_spec _ _ _ _ Hg Hrun) as (tp & pp & Htp & Hmw & Hpp). pose proof Hg as (Hr & Hi & Hh).
  assert (exists M, mux A !! x = Some M) as [M HM].
  { unfold lock_ok in Hok. rewrite (rep_mux _ _ Hr) in Hok. destruct (mux A !! x); [eauto|done]. }
  pose proof (lock_ok_owner _ _ _ _ _ _ Hg HM Hok) as Hown.
  unfold PKlock. rewrite (rep_load_mutex _ _ _ _ Hr HM). cbn [mbind outcome_bind]. destruct (owner M) as [o|] eqn:Ho.
  - destruct (decide (o = p)) as [->|Hop].
    + rewrite bool_decide_eq_true_2, Hown by done.
      destruct (good_depth w A locks x M (set_depth (s32 (recursiveDepth M + 1))) Hg HM) as (w' & -> & Hg'); [done|].
      eexists true, w', _, locks. split; [done|]. split; [exact Hg'|]. split; simpl.
      * eexists M, _. rewrite lookup_insert_eq, Ho, decide_True by done. by split_and!.
      * intros y Hy. by rewrite lookup_insert_ne by done.
    + rewrite bool_decide_eq_false_2 by done.
      destruct (enqueue_result x p o M w A locks tp pp (fun d => d) (fun d => s32 (d + 1))) as (w1 & w2 & A' & -> & Hw2 & Hg' & Hres); try done.
      cbn [mbind outcome_bind]. rewrite Hw2. by exists false, w2, A', locks.
  - unfold acquire. destruct (rep_store_mutex w A x M (set_owner (Some p)) Hr HM) as (w1 & -> & Hr1). cbn [mbind outcome_bind].
    destruct (own_spec x p w1 A locks M (set_owner (Some p) M) pp) as (w' & tp' & -> & Htp' & Hg'); try done.
    assert (tp' = tp) as -> by congruence.
    eexists true, w', _, _. split; [done|]. split; [exact Hg'|]. apply (owned_result x p M); try done. by apply (inv_free _ _ _ Hi x M).
Qed.

Definition to_depth (d depth : Z) : Z := if 0 <=? depth then s32 d else depth.

Lemma PKlockToDepth_spec x p d w A locks :
  good w A locks -> can_run p w = true -> lock_ok x p w = true ->
  exists b w' A' locks', PKlockToDepth x p d w = Done (b, w') /\ good w' A' locks' /\
    lock_result x p (to_depth d) (to_depth d) A b A'.
Proof.
  intros Hg Hrun Hok. destruct (can_run_spec _ _ _ _ Hg Hrun) as (tp & pp & Htp & Hmw & Hpp). pose proof Hg as (Hr & Hi & Hh).
  assert (exists M, mux A !! x = Some M) as [M HM].
  { unfold lock_ok in Hok. rewrite (rep_mux _ _ Hr) in Hok. destruct (mux A !! x); [eauto|done]. }
  pose proof (lock_ok_owner _ _ _ _ _ _ Hg HM Hok) as Hown.
  unfold PKlockToDepth. rewrite (rep_load_mutex _ _ _ _ Hr HM). cbn [mbind outcome_bind]. destruct (owner M) as [o|] eqn:Ho.
  - destruct (decide (o = p)) as [->|Hop].
    + rewrite bool_decide_eq_true_2, Hown by done.
      destruct (good_depth w A locks x M (set_depth (s32 d)) Hg HM) as (w' & -> & Hg'); [done|].
      eexists true, w', _, locks. split; [done|]. split; [exact Hg'|]. split; simpl.
      * eexists M, _. rewrite lookup_insert_eq, Ho, decide_True by done. unfold to_depth. rewrite Hown. by split_and!.
      * intros y Hy. by rewrite lookup_insert_ne by done.
    + rewrite bool_decide_eq_false_2 by done.
      destruct (enqueue_result x p o M w A locks tp pp (to_depth d) (to_depth d)) as (w1 & w2 & A' & -> & Hw2 & Hg' & Hres); try done.
      unfold wait_turn_depth. cbn [mbind outcome_bind]. rewrite Hw2. cbn [mbind outcome_bind]. by exists false, w2, A', locks.
  - destruct (rep_store_mutex w A x M (set_owner (Some p)) Hr HM) as (w1 & -> & Hr1). cbn [mbind outcome_bind].
    unfold restore_depth.
    destruct (rep_store_mutex w1 _ x (set_owner (Some p) M) (fun M => if 0 <=? recursiveDepth M then set_depth (s32 d) M else M) Hr1)
      as (w2 & -> & Hr2); [simpl; apply lookup_insert_eq|]. cbn [mbind outcome_bind]. simpl in Hr2. rewrite insert_insert_eq in Hr2.
    set (M1 := if 0 <=? recursiveDepth M then _ else _) in Hr2.
    assert (HM1 : owner M1 = Some p /\ next M1 = next M /\ waiting M1 = waiting M /\ recursiveDepth M1 = to_depth d (recursiveDepth M)).
    { unfold M1, to_depth. by destruct (0 <=? recursiveDepth M). }
    destruct HM1 as (Ho1 & Hn1 & Hw1 & Hd1).
    destruct (own_spec x p w2 A locks M M1 pp) as (w' & tp' & -> & Htp' & Hg'); try done.
    assert (tp' = tp) as -> by congruence.
    eexists true, w', _, _. split; [done|]. split; [exact Hg'|]. apply (owned_result x p M); try done. by apply (inv_free _ _ _ Hi x M).
Qed.

(** [tryLock]: acquired, as [lock], or nothing happens. *)
Lemma PKtryLock_spec x p w A locks :
  good w A locks -> can_run p w = true -> is_Some (mutexes w !! x) ->
  exists b w' A' locks', PKtryLock x p w = Done (b, w') /\ good w' A' locks' /\
    if b then lock_result x p (fun d => d) (fun d => s32 (d + 1)) A true A'
    else w' = w /\ exists M o, mux A !! x = Some M /\ owner M = Some o /\ (o <> p \/ recursiveDepth M < 0).
Proof.
  intros Hg Hrun [M HM]. destruct (can_run_spec _ _ _ _ Hg Hrun) as (tp & pp & Htp & Hmw & Hpp). pose proof Hg as (Hr & Hi & Hh).
  rewrite (rep_mux _ _ Hr) in HM.
  unfold PKtryLock. rewrite (rep_load_mutex _ _ _ _ Hr HM). cbn [mbind outcome_bind]. destruct (owner M) as [o|] eqn:Ho.
  - destruct (bool_decide_reflect (o = p)) as [->|Hop]; simpl; [destruct (Z.leb_spec 0 (recursiveDepth M)) as [Hd|Hd]|].
    + destruct (good_depth w A locks x M (set_depth (s32 (recursiveDepth M + 1))) Hg HM) as (w' & -> & Hg'); [done|].
      eexists true, w', _, locks. split; [done|]. split; [exact Hg'|]. split; simpl.
      * eexists M, _. rewrite lookup_insert_eq, Ho, decide_True by done. by split_and!.
      * intros y Hy. by rewrite lookup_insert_ne by done.
    + exists false, w, A, locks. split; [done|]. split; [done|]. split; [done|]. exists M, p. auto.
    + exists false, w, A, locks. split; [done|]. split; [done|]. split; [done|]. exists M, o. auto.
  - unfold acquire. destruct (rep_store_mutex w A x M (set_owner (Some p)) Hr HM) as (w1 & -> & Hr1). cbn [mbind outcome_bind].
    destruct (own_spec x p w1 A locks M (set_owner (Some p) M) pp) as (w' & tp' & -> & Htp' & Hg'); try done.
    assert (tp' = tp) as -> by congruence.
    eexists true, w', _, _. split; [done|]. split; [exact Hg'|]. apply (owned_result x p M); try done. by apply (inv_free _ _ _ Hi x M).
Qed.

(** The mutex [x] of [p] released, and whether the caller should yield. *)
Lemma PKunlock_release x p w A locks M tp :
  good w A locks -> mux A !! x = Some M -> owner M = Some p -> recursiveDepth M <= 0 ->
  thr A !! p = Some tp -> mutexWaiting tp = None ->
  exists b r w' A' locks' M', PKunlock x p w = Done (b, w') /\ good w' A' locks' /\ released x p A locks r A' M M' /\
    b = match r with None => false | Some o => urgency (prio A' p) <? urgency (prio A' o) end.
Proof.
  intros (Hr & Hi & Hh) HM Ho Hd Htp Hmw.
  destruct (release_spec x p w A locks M tp Hr Hi Hh HM Ho Htp Hmw) as (w1 & w2 & w3 & r & A' & M' & Hw1 & Hw2 & Hw3 & Hr3 & Hi3 & Hh3 & Hrel).
  unfold PKunlock. rewrite (rep_load_mutex _ _ _ _ Hr HM). cbn [mbind outcome_bind].
  rewrite Ho, bool_decide_eq_true_2 by done. rewrite (proj2 (Z.ltb_ge _ _)) by done. cbn [negb].
  rewrite Hw1. cbn [mbind outcome_bind]. rewrite Hw2. cbn [mbind outcome_bind]. rewrite Hw3. cbn [mbind outcome_bind].
  destruct r as [o|].
  - destruct (rel_prio _ _ _ _ _ _ _ _ Hrel) as (_ & pr & _ & Hp' & _).
    destruct (rel_owner _ _ _ _ _ _ _ _ Hrel) as (_ & (po & Hpo & _) & _).
    assert (is_Some (prios A' !! p)) as [pp Hpp] by (rewrite Hp', lookup_insert_eq; eauto).
    assert (is_Some (prios A' !! o)) as [po' Hpo'] by (rewrite Hp'; apply lookup_insert_is_Some'; right; eauto).
    rewrite (rep_getPrio _ _ _ _ Hr3 Hpp), (rep_getPrio _ _ _ _ Hr3 Hpo'). cbn [mbind outcome_bind].
    eexists _, (Some o), w3, A', _, M'. split; [done|]. split; [by split_and!|]. split; [done|].
    unfold prio. by rewrite Hpp, Hpo', mutexLessOp_urgency.
  - eexists false, None, w3, A', _, M'. split; [done|]. split; [by split_and!|]. by split.
Qed.

Lemma PKunlockAll_release x p w A locks M tp :
  good w A locks -> mux A !! x = Some M -> owner M = Some p -> thr A !! p = Some tp -> mutexWaiting tp = None ->
  exists r w' A1 A' locks' M', PKunlockAllDepthLevels x p w = Done (if recursiveDepth M <? 0 then 0 else u32 (recursiveDepth M), w') /\
    good w' A' locks' /\ released x p A locks r A1 M M' /\
    A' = Abs (thr A1) (<[x := if recursiveDepth M <? 0 then M' else set_depth 0 M']> (mux A1)) (prios A1).
Proof.
  intros (Hr & Hi & Hh) HM Ho Htp Hmw.
  destruct (release_spec x p w A locks M tp Hr Hi Hh HM Ho Htp Hmw) as (w1 & w2 & w3 & r & A' & M' & Hw1 & Hw2 & Hw3 & Hr3 & Hi3 & Hh3 & Hrel).
  unfold PKunlockAllDepthLevels. rewrite (rep_load_mutex _ _ _ _ Hr HM). cbn [mbind outcome_bind].
  rewrite Ho, bool_decide_eq_true_2 by done. cbn [negb].
  rewrite Hw1. cbn [mbind outcome_bind]. rewrite Hw2. cbn [mbind outcome_bind]. rewrite Hw3. cbn [mbind outcome_bind].
  destruct (rel_after _ _ _ _ _ _ _ _ Hrel) as (HM' & _ & Hdep).
  rewrite (rep_load_mutex _ _ _ _ Hr3 HM'). cbn [mbind outcome_bind]. rewrite Hdep. destruct (recursiveDepth M <? 0).
  - eexists r, w3, A', A', _, M'. split; [done|]. split; [by split_and!|]. split; [done|]. rewrite insert_id by done. by destruct A'.
  - destruct (good_depth w3 A' _ x M' (set_depth 0) (conj Hr3 (conj Hi3 Hh3)) HM') as (w4 & -> & Hg4); [done|].
    cbn [mbind outcome_bind]. eexists r, w4, A', _, _, M'. split; [done|]. split; [exact Hg4|]. by split.
Qed.

Lemma PKunlock_good x p w A locks :
  good w A locks -> can_run p w = true -> is_Some (mutexes w !! x) ->
  exists b w' A' locks', PKunlock x p w = Done (b, w') /\ good w' A' locks'.
Proof.
  intros Hg Hrun [M HM]. destruct (can_run_spec _ _ _ _ Hg Hrun) as (tp & pp & Htp & Hmw & Hpp). pose proof Hg as (Hr & Hi & Hh).
  rewrite (rep_mux _ _ Hr) in HM. destruct (decide (owner M = Some p)) as [Ho|Ho].
  - destruct (decide (recursiveDepth M <= 0)) as [Hd|Hd].
    + destruct (PKunlock_release x p w A locks M tp) as (b & r & w' & A' & locks' & M' & ? & ? & _); try done. eauto 6.
    + unfold PKunlock. rewrite (rep_load_mutex _ _ _ _ Hr HM). cbn [mbind outcome_bind].
      rewrite bool_decide_eq_true_2 by done. rewrite (proj2 (Z.ltb_lt _ _)) by lia. cbn [negb].
      destruct (good_depth w A locks x M (set_depth (s32 (recursiveDepth M - 1))) Hg HM) as (w' & -> & Hg'); [done|]. eauto 6.
  - unfold PKunlock. rewrite (rep_load_mutex _ _ _ _ Hr HM). cbn [mbind outcome_bind].
    rewrite bool_decide_eq_false_2 by done. cbn [negb]. eauto 6.
Qed.

Lemma PKunlockAll_good x p w A locks :
  good w A locks -> can_run p w = true -> is_Some (mutexes w !! x) ->
  exists d w' A' locks', PKunlockAllDepthLevels x p w = Done (d, w') /\ good w' A' locks'.
Proof.
  intros Hg Hrun [M HM]. destruct (can_run_spec _ _ _ _ Hg Hrun) as (tp & pp & Htp & Hmw & Hpp). pose proof Hg as (Hr & Hi & Hh).
  rewrite (rep_mux _ _ Hr) in HM. destruct (decide (owner M = Some p)) as [Ho|Ho].
  - destruct (PKunlockAll_release x p w A locks M tp) as (r & w' & A1 & A' & locks' & M' & ? & ? & _); try done. eauto 6.
  - unfold PKunlockAllDepthLevels. rewrite (rep_load_mutex _ _ _ _ Hr HM). cbn [mbind outcome_bind].
    rewrite bool_decide_eq_false_2 by done. cbn [negb]. eauto 6.
Qed.

Lemma good_saved w A locks p tp pr :
  good w A locks -> thr A !! p = Some tp -> validate pr = true ->
  exists w', store_thread w p (set_savedPriority pr) = Done w' /\
    good w' (Abs (<[p := set_savedPriority pr tp]> (thr A)) (mux A) (prios A)) locks.
Proof.
  intros (Hr & Hi & Hh) Htp Hv. destruct (rep_store_thread w A p tp (set_savedPriority pr) Hr Htp) as (w' & Hrun & Hr'); [done..|].
  exists w'. split; [done|]. split_and!; [done| |done]. destruct Hi. split; simpl; try done.
  - intros t tt Ht. apply lookup_insert_Some in Ht as [[<- <-]|[_ Ht]]; [by apply (inv_chain0 p tp)|by apply inv_chain0].
  - intros x M t HM. rewrite (inv_wait0 x M t HM). destruct (decide (t = p)) as [->|].
    + rewrite lookup_insert_eq. split; [intros (tt & ? & ?); eexists; split; [done|]; simpl; congruence|].
      intros (tt & [= <-] & ?). eauto.
    + by rewrite lookup_insert_ne by done.
  - intros t tt x Ht. apply lookup_insert_Some in Ht as [[<- <-]|[_ Ht]]; [by apply (inv_wmutex0 p tp)|by apply (inv_wmutex0 t tt)].
  - intros t tt Ht. apply lookup_insert_Some in Ht as [[<- <-]|[_ Ht]]; [done|by apply (inv_saved0 t)].
  - intros t Ht. apply lookup_insert_is_Some'. right. by apply inv_sched0.
Qed.

Lemma setPriority_finish w A locks p tp pr po :
  good w A locks -> thr A !! p = Some tp -> mutexWaiting tp = None -> prios A !! p = Some po -> validate pr = true ->
  exists w' A', (po ← getPrio w p; if pr =? po then Done w else setPrio w p pr) = Done w' /\ good w' A' locks /\
    A' = Abs (thr A) (mux A) (<[p := pr]> (prios A)).
Proof.
  intros (Hr & Hi & Hh) Htp Hmw Hpo Hv. rewrite (rep_getPrio _ _ _ _ Hr Hpo). cbn [mbind outcome_bind].
  destruct (Z.eqb_spec pr po) as [->|Hne].
  - exists w, A. split_and!; [done..|]. rewrite insert_id by done. by destruct A.
  - destruct (setPrio_spec w A locks None p tp pr Hr Hi Hh Htp Hmw ltac:(by eexists) Hv) as (w' & -> & Hg'). eauto.
Qed.

(** [setPriority]: the priority asked for, but not below that of the threads
    waiting for a mutex of the caller. *)
Lemma setPriority_spec p pr w A locks tp :
  good w A locks -> can_run p w = true -> validate pr = true -> thr A !! p = Some tp ->
  exists w' A', setPriority p pr w = Done w' /\ good w' A' locks /\ mux A' = mux A /\
    if decide (locks p <> [] /\ savedPriority tp = pr) then A' = A
    else exists pr', most_urgent A pr (locks p) pr' /\ prios A' = <[p := pr']> (prios A) /\
      thr A' = if decide (locks p = []) then thr A else <[p := set_savedPriority pr tp]> (thr A).
Proof.
  intros Hg Hrun Hv Htp. destruct (can_run_spec _ _ _ _ Hg Hrun) as (tp' & po & Htp' & Hmw & Hpo).
  assert (tp' = tp) as -> by congruence. pose proof Hg as (Hr & Hi & Hh).
  unfold setPriority. rewrite Hv. cbn [negb].
  destruct (rep_load w A p tp Hr Htp) as (t' & -> & _ & Hst). cbn [mbind outcome_bind].
  assert (mutexLocked t' = mutexLocked tp) as -> by by rewrite <- Hst.
  assert (savedPriority t' = savedPriority tp) as -> by by rewrite <- Hst.
  pose proof (inv_chain _ _ _ Hi p tp Htp) as Hc. destruct (mutexLocked tp) as [walk|] eqn:El.
  - destruct (locks p) as [|y r] eqn:Elk; [done|]. rewrite <- Elk in *.
    assert (Hne : locks p <> []) by congruence.
    destruct (Z.eqb_spec (savedPriority tp) pr) as [Heq|Hneq].
    + exists w, A. rewrite decide_True by done. by split_and!.
    + destruct (decide (locks p <> [] /\ savedPriority tp = pr)) as [[_ ?]|_]; [done|].
      destruct (good_saved w A locks p tp pr Hg Htp Hv) as (w1 & -> & Hg1). cbn [mbind outcome_bind].
      pose proof Hg1 as (Hr1 & Hi1 & Hh1).
      destruct (max_waiting_spec less (fuel w1) (Some walk) (locks p) pr w1 _ locks None less_urgency Hr1 Hi1 Hh1 Hc)
        as (pr' & -> & Hmost); [by eapply locks_length|]. cbn [mbind outcome_bind].
      destruct (setPriority_finish w1 _ locks p (set_savedPriority pr tp) pr' po Hg1) as (w' & A' & -> & Hg' & ->).
      { apply lookup_insert_eq. }
      { done. }
      { done. }
      { by eapply (most_urgent_valid _ _ _ _ _ _ Hi1). }
      eexists w', _. split; [done|]. split; [exact Hg'|]. split; [done|]. exists pr'. rewrite decide_False by done. by split.
  - destruct (locks p) as [|y r] eqn:Elk; [|by destruct Hc]. destruct (decide ([] <> [] /\ savedPriority tp = pr)) as [[Hne _]|_]; [by destruct Hne|].
    destruct (setPriority_finish w A locks p tp pr po Hg Htp Hmw Hpo Hv) as (w' & A' & -> & Hg' & ->).
    eexists w', _. split; [done|]. split; [exact Hg'|]. split; [done|]. exists pr. split; [|done].
    split_and!; [by left|lia|set_solver].
Qed.

Lemma run_op_good o w A locks :
  good w A locks -> op_ok o w = true -> exists w' A' locks', run_op o w = Done w' /\ good w' A' locks'.
Proof.
  intros Hg Hok. pose proof Hg as (Hr & Hi & _).
  assert (Hresume : forall x p, bool_decide (is_Some (heap w !! p)) && bool_decide (is_Some (mutexes w !! x)) = true ->
    exists b w' A', wait_turn x p w = Done (b, w') /\ good w' A' locks /\ is_Some (mux A' !! x)).
  { intros x p [Hp Hx]%andb_prop. apply bool_decide_eq_true in Hp as [t' Hp], Hx as [M HM].
    rewrite (rep_mux _ _ Hr) in HM.
    destruct (wait_turn_spec x p w A locks M (strip t') Hg HM) as (w' & A' & -> & Hg' & ->).
    { by rewrite <- (rep_thr _ _ Hr), lookup_fmap, Hp. }
    eexists _, w', _. split; [done|]. split; [done|]. case_decide; simpl; eauto. }
  destruct o as [x p|x p d|x p|x p d|x p|x p|x p|p pr]; simpl in Hok |- *.
  - apply andb_prop in Hok as [Hrun Hlk]. destruct (PKlock_spec x p w A locks Hg Hrun Hlk) as (b & w' & A' & locks' & -> & Hg' & _).
    simpl. eauto.
  - apply andb_prop in Hok as [Hrun Hlk]. destruct (PKlockToDepth_spec x p d w A locks Hg Hrun Hlk) as (b & w' & A' & locks' & -> & Hg' & _).
    simpl. eauto.
  - destruct (Hresume x p Hok) as (b & w' & A' & -> & Hg' & _). simpl. eauto.
  - destruct (Hresume x p Hok) as (b & w' & A' & Hrun & Hg' & [M HM]). unfold wait_turn_depth. rewrite Hrun. cbn [mbind outcome_bind].
    destruct b; simpl; [|eauto]. destruct (restore_depth_spec x d w' A' locks M Hg' HM) as (w2 & A2 & -> & Hg2 & _). simpl. eauto.
  - apply andb_prop in Hok as [Hrun Hx]. apply bool_decide_eq_true in Hx.
    destruct (PKtryLock_spec x p w A locks Hg Hrun Hx) as (b & w' & A' & locks' & -> & Hg' & _). simpl. eauto.
  - apply andb_prop in Hok as [Hrun Hx]. apply bool_decide_eq_true in Hx.
    destruct (PKunlock_good x p w A locks Hg Hrun Hx) as (b & w' & A' & locks' & -> & Hg'). simpl. eauto.
  - apply andb_prop in Hok as [Hrun Hx]. apply bool_decide_eq_true in Hx.
    destruct (PKunlockAll_good x p w A locks Hg Hrun Hx) as (b & w' & A' & locks' & -> & Hg'). simpl. eauto.
  - destruct (validate pr) eqn:Hv.
    + destruct (can_run_spec _ _ _ _ Hg Hok) as (tp & _ & Htp & _).
      destruct (setPriority_spec p pr w A locks tp Hg Hok Hv Htp) as (w' & A' & -> & Hg' & _). eauto.
    + unfold setPriority. rewrite Hv. simpl. eauto.
Qed.

(** New mutexes, and threads that have never used one. *)
Record fresh (w : world) : Prop := Fresh {
  fresh_sched : exists m, sched_rep (sched w) (heap w) m /\ forall t p, m !! t = Some p -> validate p = true;
  fresh_thr : forall t tt, heap w !! t = Some tt -> mutexLocked tt = None /\ mutexWaiting tt = None;
  fresh_mux : forall x M, mutexes w !! x = Some M -> exists o, M = new_Mutex o;
}.

Lemma fresh_good w : fresh w -> exists A, good w A (fun _ => []).
Proof.
  intros [(m & Hm & Hv) Ht Hx]. exists (Abs (strip <$> heap w) (mutexes w) m). split_and!; [done| |].
  - assert (Hth : forall t tt, strip <$> heap w !! t = Some tt -> mutexLocked tt = None /\ mutexWaiting tt = None).
    { intros t tt (t' & Ht' & ->)%fmap_Some. by destruct (Ht t t' Ht'). }
    assert (Hw : forall x M, mutexes w !! x = Some M -> owner M = None /\ waiting M = []).
    { intros x M HM. by destruct (Hx x M HM) as [o ->]. }
    split; simpl; try done.
    + intros t tt. rewrite lookup_fmap. intros Htt. by destruct (Hth t tt Htt).
    + intros t. constructor.
    + intros x M t HM _. destruct (Hw x M HM) as [-> _]. set_solver.
    + intros t x Hin. set_solver.
    + intros x M HM. destruct (Hw x M HM) as [_ ->]. constructor.
    + intros x M t HM. destruct (Hw x M HM) as [_ ->]. split; [set_solver|]. intros (tt & Htt & Hmw).
      rewrite lookup_fmap in Htt. destruct (Hth t tt Htt). congruence.
    + intros t tt x. rewrite lookup_fmap. intros Htt Hmw. destruct (Hth t tt Htt). congruence.
    + intros x M t HM. destruct (Hw x M HM) as [_ ->]. set_solver.
    + intros x M HM. by destruct (Hw x M HM).
    + intros x M t HM. destruct (Hw x M HM) as [_ ->]. set_solver.
    + intros t Ht'. rewrite lookup_fmap, fmap_is_Some. by eapply rep_in_heap.
  - intros x M HM. simpl in HM. destruct (Hx x M HM) as [o ->]. apply is_heap_nil.
Qed.

Lemma steps_good w0 w : fresh w0 -> steps w0 w -> exists A locks, good w A locks.
Proof.
  intros Hf. induction 1 as [|w1 o w2 _ (A & locks & Hg) Hok Hrun].
  - destruct (fresh_good w0 Hf) as [A HA]. eauto.
  - destruct (run_op_good o w1 A locks Hg Hok) as (w' & A' & locks' & Hrun' & Hg').
    exists A', locks'. by assert (w2 = w') as -> by congruence.
Qed.

Lemma locked_list_spec n o xs w A :
  rep w A -> mchain (mux A) o xs -> (length xs < n)%nat -> locked_list n o w = Done xs.
Proof.
  intros Hr. revert n o. induction xs as [|x xs IH]; intros n o Hc Hn; (destruct n as [|n]; [simpl in Hn; lia|]); simpl.
  - simpl in Hc. by subst.
  - destruct Hc as (-> & M & HM & Hc). rewrite (rep_load_mutex _ _ _ _ Hr HM). cbn [mbind outcome_bind].
    simpl in Hn. by rewrite (IH n (next M)) by (done || lia).
Qed.

(** ** The properties *)

(** What the mutexes promise, read off the memory. *)
Record consistent (w : world) : Prop := Consistent {
  (** The mutexes linked from a thread are those it owns, once each: no two
      threads hold the same mutex. *)
  con_locked : forall t tt, heap w !! t = Some tt -> exists xs, locked_list (fuel w) (mutexLocked tt) w = Done xs /\
    NoDup xs /\ forall x, x ∈ xs <-> exists M, mutexes w !! x = Some M /\ owner M = Some t;
  (** A thread is queued once, on the mutex it waits for, which another owns. *)
  con_waiting : forall x M, mutexes w !! x = Some M -> NoDup (waiting M) /\ (waiting M <> [] -> owner M <> None) /\
    forall t, t ∈ waiting M <-> exists tt, heap w !! t = Some tt /\ mutexWaiting tt = Some x;
  con_self : forall x M t, mutexes w !! x = Some M -> t ∈ waiting M -> owner M <> Some t;
  con_heap : forall x M, mutexes w !! x = Some M -> is_heap (LowerPriority w) (waiting M);
}.

Lemma good_consistent w A locks : good w A locks -> consistent w.
Proof.
  intros (Hr & Hi & Hh). pose proof Hi as []. pose proof Hr as [_ Hthr Hmux].
  assert (Hth : forall t tt, heap w !! t = Some tt -> thr A !! t = Some (strip tt)).
  { intros t tt Ht. by rewrite <- Hthr, lookup_fmap, Ht. }
  split; rewrite Hmux.
  - intros t tt Ht. exists (locks t). split; [|split; [done|]].
    + apply (locked_list_spec _ _ _ w A Hr); [|by eapply locks_length]. by apply (inv_chain0 t (strip tt)), Hth.
    + intros x. split.
      * intros Hx. destruct (inv_locks0 t x Hx) as [[M HM] _]. exists M. split; [done|]. by apply (inv_owner0 x M t).
      * intros (M & HM & Ho). by apply (inv_owner0 x M t).
  - intros x M HM. split; [by eapply inv_wnodup0|]. split; [intros Hne Ho; by apply Hne, (inv_free0 x)|].
    intros t. rewrite (inv_wait0 x M t HM). split.
    + intros (tt & Htt & Hmw). rewrite <- Hthr, lookup_fmap in Htt. apply fmap_Some in Htt as (t' & Ht' & ->). by exists t'.
    + intros (t' & Ht' & Hmw). exists (strip t'). by split; [apply Hth|].
  - intros x M t HM. by apply (inv_self0 x M).
  - intros x M HM. eapply is_heap_ext; [|by apply (Hh x)]. apply rep_LowerPriority; [done|]. intros t Ht. by eapply inv_wsched0.
Qed.

(** C32: mutual exclusion and progress.  Threads lock, unlock and try
    mutexes, recursive or not, wait and are woken, and change their
    priorities, in any order.  At every moment the mutexes linked from a thread
    are exactly the ones it owns, every waiting thread is queued once, on a
    mutex owned by another thread, and the queues are heaps by priority; and
    the next operation completes, without error, unless it is a deadlock. *)
Theorem mutual_exclusion w0 w :
  fresh w0 -> steps w0 w ->
  consistent w /\ forall o, op_ok o w = true -> exists w', run_op o w = Done w'.
Proof.
  intros Hf Hs. destruct (steps_good w0 w Hf Hs) as (A & locks & Hg). split; [by eapply good_consistent|].
  intros o Hok. destruct (run_op_good o w A locks Hg Hok) as (w' & _ & _ & Hrun & _). eauto.
Qed.

(** What [lock] does.  A free mutex gets the thread as its owner; a
    recursive mutex of the caller gets one level deeper; otherwise the thread
    is queued and waits, and if it is more urgent than the owner, its priority
    is given to the owner and to all the threads in the chain of owners behind
    it.  No other mutex changes owner or depth. *)
Theorem lock_branches w0 w x p :
  fresh w0 -> steps w0 w -> can_run p w = true -> lock_ok x p w = true ->
  exists b w' A A', PKlock x p w = Done (b, w') /\ rep w A /\ rep w' A' /\
    lock_result x p (fun d => d) (fun d => s32 (d + 1)) A b A'.
Proof.
  intros Hf Hs Hrun Hok. destruct (steps_good w0 w Hf Hs) as (A & locks & Hg).
  destruct (PKlock_spec x p w A locks Hg Hrun Hok) as (b & w' & A' & locks' & HPK & Hg' & Hres).
  exists b, w', A, A'. split; [done|]. split; [apply Hg|]. split; [apply Hg'|done].
Qed.

(** What the last [unlock] does.  The mutex goes to one of the most urgent
    waiting threads, which stops waiting, or becomes free; the caller gets its
    own priority back, or that of the most urgent thread still waiting for one
    of its mutexes; it is told to yield exactly when the new owner is more
    urgent. *)
Theorem unlock_hands_over w0 w x p M :
  fresh w0 -> steps w0 w -> can_run p w = true -> mutexes w !! x = Some M -> owner M = Some p -> recursiveDepth M <= 0 ->
  exists b r w' A A' locks M', PKunlock x p w = Done (b, w') /\ good w A locks /\ rep w' A' /\
    released x p A locks r A' M M' /\
    b = match r with None => false | Some o => urgency (prio A' p) <? urgency (prio A' o) end.
Proof.
  intros Hf Hs Hrun HM Ho Hd. destruct (steps_good w0 w Hf Hs) as (A & locks & Hg).
  destruct (can_run_spec _ _ _ _ Hg Hrun) as (tp & pp & Htp & Hmw & Hpp).
  rewrite (rep_mux _ _ (proj1 Hg)) in HM.
  destruct (PKunlock_release x p w A locks M tp Hg HM Ho Hd Htp Hmw) as (b & r & w' & A' & locks' & M' & HPK & Hg' & Hrel & Hb).
  exists b, r, w', A, A', locks, M'. split; [done|]. split; [exact Hg|]. split; [apply Hg'|]. by split.
Qed.

(** [setPriority] under priority inheritance.  A thread that holds no
    mutex gets the priority it asks for; one that holds some gets the most
    urgent of that and the priorities of the threads waiting for it, and the
    one asked for is what it falls back to. *)
Theorem setPriority_inherits w0 w p pr tp :
  fresh w0 -> steps w0 w -> can_run p w = true -> validate pr = true -> heap w !! p = Some tp ->
  exists w' A A' locks, setPriority p pr w = Done w' /\ good w A locks /\ rep w' A' /\ mux A' = mux A /\
    if decide (locks p <> [] /\ savedPriority tp = pr) then A' = A
    else exists pr', most_urgent A pr (locks p) pr' /\ prios A' = <[p := pr']> (prios A) /\
      thr A' = if decide (locks p = []) then thr A else <[p := set_savedPriority pr (strip tp)]> (thr A).
Proof.
  intros Hf Hs Hrun Hv Hp. destruct (steps_good w0 w Hf Hs) as (A & locks & Hg).
  assert (Htp : thr A !! p = Some (strip tp)) by (by rewrite <- (rep_thr _ _ (proj1 Hg)), lookup_fmap, Hp).
  destruct (setPriority_spec p pr w A locks (strip tp) Hg Hrun Hv Htp) as (w' & A' & HPK & Hg' & Hm & Hres).
  exists w', A, A', locks. split; [done|]. split; [exact Hg|]. split; [apply Hg'|]. by split.
Qed.

End mutex.
Arguments world S : clear implicits.

(** *** A run on the priority scheduler *)
#[local] Existing Instance PriorityScheduler.PriorityScheduler.ops.
#[local] Existing Instance PriorityScheduler.PriorityScheduler.scheduler.
#[local] Existing Instance sorted_heap_ops.
#[local] Existing Instance sorted_heap.
Abbreviation pworld := (world PriorityScheduler.PriorityScheduler.sched).

(** Threads 2, 3, 4 with priorities 0, 1, 3, created in this order, and two
    mutexes. *)
Definition ex_threads : list sched_op := [CreateThread 2 0; CreateThread 3 1; CreateThread 4 3].
Definition ex_mutexes : gmap positive Mutex := <[21%positive := new_Mutex DEFAULT]> {[ 22%positive := new_Mutex RECURSIVE ]}.
Definition ex_boot : PriorityScheduler.PriorityScheduler.sched :=
  PriorityScheduler.PriorityScheduler.Sched (PriorityScheduler.PriorityScheduler.thread_list PriorityScheduler.PriorityScheduler.initial)
    (Some 1%positive) (2 ^ 63 - 1).
Definition ex_world : exec pworld :=
  '(s, h, _, _) ← run_prog ex_threads ex_boot {[ 1%positive := new_Thread 0 ]} (Running 1 false);
  Done (World s h ex_mutexes).
Definition ex_w0 : pworld := Eval vm_compute in
  match ex_world with Done w => w | Fault _ => World ex_boot ∅ ∅ end.

Lemma ex_fresh : fresh ex_w0.
Proof.
  destruct (run_prog_refines ex_threads ex_boot {[ 1%positive := new_Thread 0 ]} (Running 1 false)
    (Abstract ∅ {[ 1%positive := new_Thread 0 ]})) as (s' & h' & r' & trace & Hrun & [Hrep _] & _).
  { split; [|done]. apply PriorityScheduler.PriorityScheduler.sched_rep_initial. }
  { cbn [ex_threads prog_ok]. split_and!; done. }
  vm_compute in Hrun. injection Hrun as Hs Hh _ _.
  split.
  - exists (Scheduler.prios (abs_prog ex_threads (Abstract ∅ {[ 1%positive := new_Thread 0 ]}))). split.
    + rewrite <- Hs, <- Hh in Hrep. exact Hrep.
    + intros t p Hp. revert t p Hp. by apply (bool_decide_eq_true (map_Forall (fun _ p => validate p = true) _)).
  - intros t tt Ht. revert t tt Ht.
    by apply (bool_decide_eq_true (map_Forall (fun _ tt => mutexLocked tt = None /\ mutexWaiting tt = None) (heap ex_w0))).
  - intros x M HM. change (mutexes ex_w0) with ex_mutexes in HM. unfold ex_mutexes in HM.
    apply lookup_insert_Some in HM as [[<- <-]|[_ HM]]; [by exists DEFAULT|].
    apply lookup_singleton_Some in HM as [_ <-]. by exists RECURSIVE.
Qed.

Definition prios_of (w : pworld) : list (exec Z) := map (getPrio w) [2; 3; 4]%positive.
Definition owners (w : pworld) : list (option positive) := map (fun x => mutexes w !! x ≫= owner) [21; 22]%positive.

(** 2 locks 21; 4 locks 22; 2 waits for 22; then 3 waits for 21. *)
Definition ex_chain : list op := [Lock 21 2; Lock 22 4; Lock 22 2].

(** The chain of owners behind 21 is 2, 4: both get the priority of 3, though
    that of 4 was higher. *)
Example inherit_lowers :
  (w ← run_ops ex_chain ex_w0; w' ← run_op (Lock 21 3) w; Done (prios_of w, prios_of w'))
  = Done ([Done 0; Done 1; Done 3], [Done 1; Done 1; Done 1]).
Proof. vm_compute. reflexivity. Qed.

(** ... then 4 unlocks 22, which 2 gets, and so on to the last unlock. *)
Definition ex_all : list op :=
  ex_chain ++ [Lock 21 3; Unlock 22 4; Resume 22 2; Lock 22 2; Unlock 22 2; Unlock 22 2; SetPriority 2 2;
               Unlock 21 2; TryLock 22 4; Resume 21 3; UnlockAll 21 3; Unlock 22 4].

Example ex_all_ends :
  (w ← run_ops ex_all ex_w0; Done (prios_of w, owners w)) = Done ([Done 2; Done 1; Done 3], [None; None]).
Proof. vm_compute. reflexivity. Qed.

Definition ex_w (os : list op) : pworld := match run_ops os ex_w0 with Done w => w | Fault _ => ex_w0 end.

Lemma mutual_exclusion_witness :
  consistent (ex_w ex_chain) /\ exists w', run_op (Lock 21 3) (ex_w ex_chain) = Done w'.
Proof.
  assert (Hs : steps ex_w0 (ex_w ex_chain)) by (by apply (run_ops_steps ex_chain ex_w0 ex_w0); [constructor|vm_compute]).
  destruct (mutual_exclusion ex_w0 (ex_w ex_chain) ex_fresh Hs) as [Hc Hop]. split; [done|].
  apply Hop. by vm_compute.
Defined.

Lemma lock_branches_witness :
  exists w' A A', PKlock 21 3 (ex_w ex_chain) = Done (false, w') /\ rep (ex_w ex_chain) A /\ rep w' A' /\
    lock_result 21 3 (fun d => d) (fun d => s32 (d + 1)) A false A'.
Proof.
  assert (Hs : steps ex_w0 (ex_w ex_chain)) by (by apply (run_ops_steps ex_chain ex_w0 ex_w0); [constructor|vm_compute]).
  destruct (lock_branches ex_w0 (ex_w ex_chain) 21 3 ex_fresh Hs) as (b & w' & A & A' & Hrun & HA & HA' & Hres);
    [by vm_compute..|].
  exists w', A, A'. destruct b; [vm_compute in Hrun; discriminate|].
  exact (conj Hrun (conj HA (conj HA' Hres))).
Defined.

(** 22, owned by 4, goes to 2. *)
Lemma unlock_hands_over_witness :
  let w := ex_w (ex_chain ++ [Lock 21 3]) in
  exists w' A A' locks M M', PKunlock 22 4 w = Done (false, w') /\ good w A locks /\ rep w' A' /\
    released 22 4 A locks (Some 2%positive) A' M M'.
Proof.
  assert (Hs : steps ex_w0 (ex_w (ex_chain ++ [Lock 21 3])))
    by (by apply (run_ops_steps (ex_chain ++ [Lock 21 3]) ex_w0 ex_w0); [constructor|vm_compute]).
  destruct (unlock_hands_over ex_w0 (ex_w (ex_chain ++ [Lock 21 3])) 22 4 (mkMutex (Some 4%positive) None [2%positive] 0) ex_fresh Hs)
    as (b & r & w' & A & A' & locks & M' & Hrun & HA & HA' & Hrel & Hb); [by vm_compute..|].
  assert (r = Some 2%positive) as ->.
  { pose proof (rel_owner _ _ _ _ _ _ _ _ Hrel) as Ho. destruct r as [o|]; [|by destruct Ho]. destruct Ho as [Ho _].
    cbn [waiting] in Ho. apply Permutation_singleton_l in Ho. congruence. }
  exists w', A, A', locks, (mkMutex (Some 4%positive) None [2%positive] 0), M'.
  destruct b; [vm_compute in Hrun; discriminate|]. exact (conj Hrun (conj HA (conj HA' Hrel))).
Defined.

Lemma setPriority_inherits_witness :
  exists w' A A' locks, setPriority 4 2 (ex_w ex_chain) = Done w' /\ good (ex_w ex_chain) A locks /\ rep w' A' /\ mux A' = mux A.
Proof.
  assert (Hs : steps ex_w0 (ex_w ex_chain)) by (by apply (run_ops_steps ex_chain ex_w0 ex_w0); [constructor|vm_compute]).
  assert (Ht : exists tp, heap (ex_w ex_chain) !! 4%positive = Some tp) by (vm_compute; eauto). destruct Ht as [tp Ht].
  destruct (setPriority_inherits ex_w0 (ex_w ex_chain) 4 2 tp ex_fresh Hs) as (w' & A & A' & locks & Hrun & HA & HA' & Hm & _);
    [by vm_compute|by vm_compute|exact Ht|].
  exists w', A, A', locks. exact (conj Hrun (conj HA (conj HA' Hm))).
Defined.

End Mutex.
