(* ===== verification/Queues.v ===== *)
(** * Queues

    [kernel/queue.h]: [Queue], between two threads or a thread and an
    interrupt routine, [DynUnsyncQueue] and [BufferQueue].  All three keep
    their data in an array used as a ring; an element of the array that was
    never written is [None]. *)
From S2P Require Import Prelude Errors Threads Scheduler PriorityScheduler.

Local Open Scope Z_scope.

(** ** Arrays used as a ring *)

Section ring.
Context {A : Type}.

(** [buf[p]] and [buf[p]=x]. *)
Definition buf_get (buf : list (option A)) (p : Z) : exec A :=
  if 0 <=? p then match buf !! Z.to_nat p with Some (Some x) => Done x | _ => Fault Undefined end
  else Fault Undefined.
Definition buf_set (buf : list (option A)) (p : Z) (x : A) : exec (list (option A)) :=
  if (0 <=? p) && (p <? Z.of_nat (length buf)) then Done (<[Z.to_nat p := Some x]> buf) else Fault Undefined.

(** [buf] holds [xs], from position [g] on. *)
Definition ring (buf : list (option A)) (g : Z) (xs : list A) : Prop :=
  (length xs <= length buf)%nat /\
  forall i x, xs !! i = Some x -> buf !! Z.to_nat ((g + Z.of_nat i) mod Z.of_nat (length buf)) = Some (Some x).

Lemma ring_nil buf g : ring buf g [].
Proof. split; [simpl; lia|]. intros i x Hx. by rewrite lookup_nil in Hx. Qed.

Lemma mod_neq n g i j : 0 < n -> 0 <= i < n -> 0 <= j < n -> i <> j -> (g + i) mod n <> (g + j) mod n.
Proof.
  intros Hn Hi Hj Hij Heq. pose proof (Z.div_mod (g + i) n ltac:(lia)). pose proof (Z.div_mod (g + j) n ltac:(lia)).
  assert (i - j = n * ((g + i) / n - (g + j) / n)) by lia.
  destruct (Z.lt_trichotomy ((g + i) / n) ((g + j) / n)) as [?|[?|?]]; nia.
Qed.

Lemma ring_put buf g xs x :
  ring buf g xs -> (length xs < length buf)%nat ->
  let p := (g + Z.of_nat (length xs)) mod Z.of_nat (length buf) in
  buf_set buf p x = Done (<[Z.to_nat p := Some x]> buf) /\ ring (<[Z.to_nat p := Some x]> buf) g (xs ++ [x]).
Proof.
  intros [Hlen Hr] Hlt p. pose proof (Z.mod_pos_bound (g + Z.of_nat (length xs)) (Z.of_nat (length buf)) ltac:(lia)) as Hp.
  fold p in Hp. unfold buf_set. rewrite (proj2 (Z.leb_le _ _)), (proj2 (Z.ltb_lt _ _)) by lia. split; [done|].
  split; rewrite length_insert; [rewrite length_app; simpl; lia|]. intros i y Hy.
  apply lookup_app_Some in Hy as [Hy|[Hi Hy]].
  - rewrite list_lookup_insert_ne; [by apply Hr|]. apply lookup_lt_Some in Hy.
    intros Heq. apply (mod_neq (Z.of_nat (length buf)) g (Z.of_nat i) (Z.of_nat (length xs))); try lia.
    apply (f_equal Z.of_nat) in Heq. pose proof (Z.mod_pos_bound (g + Z.of_nat i) (Z.of_nat (length buf)) ltac:(lia)).
    unfold p in *. lia.
  - apply list_lookup_singleton_Some in Hy as [Hi0 <-]. assert (i = length xs) as -> by lia.
    fold p. apply list_lookup_insert_eq. lia.
Qed.

Lemma ring_get buf g x xs :
  ring buf g (x :: xs) -> 0 <= g < Z.of_nat (length buf) ->
  buf_get buf g = Done x /\ ring buf ((g + 1) mod Z.of_nat (length buf)) xs.
Proof.
  intros [Hlen Hr] Hg. simpl in Hlen. split.
  - unfold buf_get. rewrite (proj2 (Z.leb_le _ _)) by lia. pose proof (Hr 0%nat x eq_refl) as H0.
    rewrite Z.add_0_r, Z.mod_small in H0 by lia. by rewrite H0.
  - split; [lia|]. intros i y Hy. rewrite Zplus_mod_idemp_l.
    replace (g + 1 + Z.of_nat i) with (g + Z.of_nat (Datatypes.S i)) by lia. by apply (Hr (Datatypes.S i)).
Qed.

(** The next position, whichever way the code wraps it around. *)
Lemma next_eqb n p : 0 <= p < n -> (if p + 1 =? n then 0 else p + 1) = (p + 1) mod n.
Proof.
  intros Hp. destruct (Z.eqb_spec (p + 1) n) as [->|]; [by rewrite Z.mod_same by lia|by rewrite Z.mod_small by lia].
Qed.
Lemma next_leb n p : 0 <= p < n -> (if n <=? p + 1 then 0 else p + 1) = (p + 1) mod n.
Proof.
  intros Hp. destruct (Z.leb_spec n (p + 1)).
  - assert (p + 1 = n) as -> by lia. by rewrite Z.mod_same by lia.
  - by rewrite Z.mod_small by lia.
Qed.
End ring.

(** ** Queue<T,len> *)
Module Queue.
Section queue.
Context {T : Type} {S : Type} `{Scheduler S}.
(** The template parameter. *)
Context (len : Z).

(** [waiting] is the thread that waits, if any. *)
Record Queue := mkQueue {
  buffer : list (option T);
  waiting : option positive;
  numElem : Z;
  putPos : Z;
  getPos : Z;
}.

Definition new_Queue : Queue := mkQueue (replicate (Z.to_nat len) None) None 0 0 0.

Definition isEmpty (q : Queue) : bool := numElem q =? 0.
Definition isFull (q : Queue) : bool := numElem q =? len.
Definition size (q : Queue) : Z := numElem q.
Definition capacity (q : Queue) : Z := len.

Definition set_waiting (w : option positive) (q : Queue) : Queue :=
  mkQueue (buffer q) w (numElem q) (putPos q) (getPos q).

Definition IRQwakeWaitingThread (q : Queue) (h : threads) : exec (Queue * threads) :=
  match waiting q with
  | None => Done (q, h)
  | Some t => h ← store h t (set_flags (ThreadFlags.IRQsetWait false)); Done (set_waiting None q, h)
  end.

(** [numElem--; elem=buffer[getPos]; if(++getPos==len) getPos=0;] *)
Definition take (q : Queue) : exec (T * Queue) :=
  x ← buf_get (buffer q) (getPos q);
  let g := u32 (getPos q + 1) in
  Done (x, mkQueue (buffer q) (waiting q) (u32 (numElem q - 1)) (putPos q) (if g =? len then 0 else g)).

(** [numElem++; buffer[putPos]=elem; if(++putPos==len) putPos=0;] *)
Definition add (x : T) (q : Queue) : exec Queue :=
  b ← buf_set (buffer q) (putPos q) x;
  let p := u32 (putPos q + 1) in
  Done (mkQueue b (waiting q) (u32 (numElem q + 1)) (if p =? len then 0 else p) (getPos q)).

(** [None] is the result [false]. *)
Definition IRQget (q : Queue) (h : threads) : exec (option T * Queue * threads) :=
  '(q, h) ← IRQwakeWaitingThread q h;
  if isEmpty q then Done (None, q, h)
  else '(x, q) ← take q; Done (Some x, q, h).

Definition IRQput (x : T) (q : Queue) (h : threads) : exec (bool * Queue * threads) :=
  '(q, h) ← IRQwakeWaitingThread q h;
  if isFull q then Done (false, q, h)
  else q ← add x q; Done (true, q, h).

(** [if(waiting && cur->IRQgetPriority() < waiting->IRQgetPriority()) hppw=true;] *)
Definition preempts (cur : positive) (hppw : bool) (q : Queue) (h : threads) : exec bool :=
  match waiting q with
  | None => Done hppw
  | Some t => pc ← getPriority cur h; pt ← getPriority t h; Done (if less pc pt then true else hppw)
  end.

Definition IRQget_hppw (cur : positive) (hppw : bool) (q : Queue) (h : threads) : exec (option T * bool * Queue * threads) :=
  hppw ← preempts cur hppw q h;
  '(q, h) ← IRQwakeWaitingThread q h;
  if isEmpty q then Done (None, hppw, q, h)
  else '(x, q) ← take q; Done (Some x, hppw, q, h).

Definition IRQput_hppw (cur : positive) (x : T) (hppw : bool) (q : Queue) (h : threads) : exec (bool * bool * Queue * threads) :=
  hppw ← preempts cur hppw q h;
  '(q, h) ← IRQwakeWaitingThread q h;
  if isFull q then Done (false, hppw, q, h)
  else q ← add x q; Done (true, hppw, q, h).

(** [waiting=IRQgetCurrentThread(); IRQwait();]: the thread then yields. *)
Definition park (cur : positive) (q : Queue) (h : threads) : exec (Queue * threads) :=
  h ← store h cur (set_flags (ThreadFlags.IRQsetWait true)); Done (set_waiting (Some cur) q, h).

(** The functions that wait, by thread [cur], up to their end or to the next
    yield ([None], [false]); the thread does the same again when it runs. *)
Definition get (cur : positive) (q : Queue) (h : threads) : exec (option T * Queue * threads) :=
  '(q, h) ← IRQwakeWaitingThread q h;
  if isEmpty q then '(q, h) ← park cur q h; Done (None, q, h)
  else '(x, q) ← take q; Done (Some x, q, h).

Definition put (cur : positive) (x : T) (q : Queue) (h : threads) : exec (bool * Queue * threads) :=
  '(q, h) ← IRQwakeWaitingThread q h;
  if isFull q then '(q, h) ← park cur q h; Done (false, q, h)
  else q ← add x q; Done (true, q, h).

Definition waitUntilNotEmpty (cur : positive) (q : Queue) (h : threads) : exec (bool * Queue * threads) :=
  '(q, h) ← IRQwakeWaitingThread q h;
  if isEmpty q then '(q, h) ← park cur q h; Done (false, q, h) else Done (true, q, h).

Definition waitUntilNotFull (cur : positive) (q : Queue) (h : threads) : exec (bool * Queue * threads) :=
  '(q, h) ← IRQwakeWaitingThread q h;
  if isFull q then '(q, h) ← park cur q h; Done (false, q, h) else Done (true, q, h).

Definition IRQreset (q : Queue) (h : threads) : exec (Queue * threads) :=
  '(q, h) ← IRQwakeWaitingThread q h;
  Done (mkQueue (buffer q) (waiting q) 0 0 0, h).

(** *** Programs over a queue *)

Inductive op :=
| IRQGet | IRQPut (x : T) | IRQGetHppw (cur : positive) (hppw : bool) | IRQPutHppw (cur : positive) (x : T) (hppw : bool)
| Get (cur : positive) | Put (cur : positive) (x : T)
| WaitUntilNotEmpty (cur : positive) | WaitUntilNotFull (cur : positive) | Reset.

(** The element obtained, whether the operation is complete, and [hppw]. *)
Record result := Result { element : option T; complete : bool; woken : bool }.

Definition run_op (o : op) (q : Queue) (h : threads) : exec (result * Queue * threads) :=
  match o with
  | IRQGet => '(x, q, h) ← IRQget q h; Done (Result x (bool_decide (is_Some x)) false, q, h)
  | IRQPut x => '(b, q, h) ← IRQput x q h; Done (Result None b false, q, h)
  | IRQGetHppw cur w => '(x, w, q, h) ← IRQget_hppw cur w q h; Done (Result x (bool_decide (is_Some x)) w, q, h)
  | IRQPutHppw cur x w => '(b, w, q, h) ← IRQput_hppw cur x w q h; Done (Result None b w, q, h)
  | Get cur => '(x, q, h) ← get cur q h; Done (Result x (bool_decide (is_Some x)) false, q, h)
  | Put cur x => '(b, q, h) ← put cur x q h; Done (Result None b false, q, h)
  | WaitUntilNotEmpty cur => '(b, q, h) ← waitUntilNotEmpty cur q h; Done (Result None b false, q, h)
  | WaitUntilNotFull cur => '(b, q, h) ← waitUntilNotFull cur q h; Done (Result None b false, q, h)
  | Reset => '(q, h) ← IRQreset q h; Done (Result None true false, q, h)
  end.

Fixpoint run_ops (os : list op) (q : Queue) (h : threads) : exec (list result * Queue * threads) :=
  match os with
  | [] => Done ([], q, h)
  | o :: os => '(r, q, h) ← run_op o q h; '(rs, q, h) ← run_ops os q h; Done (r :: rs, q, h)
  end.

(** *** The specification: a bounded list and the thread that waits *)

Record spec := Spec { content : list T; parked : option positive }.

Definition full (s : spec) : bool := bool_decide (Z.of_nat (length (content s)) = len).

Definition spec_get (park : option positive) (w : bool) (s : spec) : result * spec :=
  match content s with
  | [] => (Result None false w, Spec [] park)
  | x :: xs => (Result (Some x) true w, Spec xs None)
  end.
Definition spec_put (park : option positive) (x : T) (w : bool) (s : spec) : result * spec :=
  if full s then (Result None false w, Spec (content s) park)
  else (Result None true w, Spec (content s ++ [x]) None).

(** [hppw]: set when the thread to wake is more urgent than [cur]. *)
Definition spec_hppw (prio : positive -> Z) (cur : positive) (w : bool) (s : spec) : bool :=
  match parked s with None => w | Some t => (urgency (prio cur) <? urgency (prio t)) || w end.

Definition spec_op (prio : positive -> Z) (o : op) (s : spec) : result * spec :=
  match o with
  | IRQGet => spec_get None false s
  | IRQPut x => spec_put None x false s
  | IRQGetHppw cur w => spec_get None (spec_hppw prio cur w s) s
  | IRQPutHppw cur x w => spec_put None x (spec_hppw prio cur w s) s
  | Get cur => spec_get (Some cur) false s
  | Put cur x => spec_put (Some cur) x false s
  | WaitUntilNotEmpty cur =>
      match content s with [] => (Result None false false, Spec [] (Some cur)) | xs => (Result None true false, Spec xs None) end
  | WaitUntilNotFull cur =>
      if full s then (Result None false false, Spec (content s) (Some cur)) else (Result None true false, Spec (content s) None)
  | Reset => (Result None true false, Spec [] None)
  end.

Fixpoint spec_ops (prio : positive -> Z) (os : list op) (s : spec) : list result * spec :=
  match os with
  | [] => ([], s)
  | o :: os => let '(r, s) := spec_op prio o s in let '(rs, s) := spec_ops prio os s in (r :: rs, s)
  end.

Definition op_threads (o : op) : list positive :=
  match o with
  | IRQGetHppw cur _ | IRQPutHppw cur _ _ | Get cur | Put cur _ | WaitUntilNotEmpty cur | WaitUntilNotFull cur => [cur]
  | _ => []
  end.

(** *** Refinement *)

(** [users]: the threads that use the queue. *)
Record rep (users : gset positive) (prio : positive -> Z) (q : Queue) (h : threads) (s : spec) : Prop := Rep {
  rep_len : Z.of_nat (length (buffer q)) = len;
  rep_ring : ring (buffer q) (getPos q) (content s);
  rep_get : 0 <= getPos q < len;
  rep_put : putPos q = (getPos q + Z.of_nat (length (content s))) mod len;
  rep_num : numElem q = Z.of_nat (length (content s));
  rep_waiting : waiting q = parked s;
  rep_parked : forall t, parked s = Some t -> t ∈ users;
  rep_users : forall t, t ∈ users -> exists tt, h !! t = Some tt /\ ThreadFlags.valid (flags tt) /\
    ThreadFlags.isWaiting (flags tt) = bool_decide (parked s = Some t) /\ priority tt = prio t;
}.

Hypothesis len_bounds : 0 < len < 2 ^ 32.

Lemma rep_IRQwake users prio q h s :
  rep users prio q h s ->
  exists h', IRQwakeWaitingThread q h = Done (set_waiting None q, h') /\
    rep users prio (set_waiting None q) h' (Spec (content s) None).
Proof.
  intros []. unfold IRQwakeWaitingThread. rewrite rep_waiting0. destruct (parked s) as [t|] eqn:Hp.
  - destruct (rep_users0 t (rep_parked0 t eq_refl)) as (tt & Htt & Hv & _ & Hpr). rewrite (store_Some _ _ _ _ Htt).
    eexists. split; [done|]. split; try done. simpl. intros u Hu.
    destruct (ThreadFlags.IRQsetWait_valid false (flags tt) Hv) as [Hv' Hw']. destruct (decide (u = t)) as [->|Hne].
    + rewrite lookup_insert_eq. eexists. split; [done|]. simpl. by rewrite Hw'.
    + rewrite lookup_insert_ne by done. destruct (rep_users0 u Hu) as (tu & ? & ? & Hwu & ?). exists tu. split_and!; [done|done| |done].
      by rewrite Hwu, bool_decide_eq_false_2 by congruence.
  - exists h. replace (set_waiting None q) with q by (destruct q; simpl in *; by subst). split; [done|].
    split; try done.
Qed.

Lemma rep_park users prio q h s cur :
  rep users prio q h s -> parked s = None -> cur ∈ users ->
  exists h', park cur q h = Done (set_waiting (Some cur) q, h') /\
    rep users prio (set_waiting (Some cur) q) h' (Spec (content s) (Some cur)).
Proof.
  intros [] Hp Hc. unfold park. rewrite Hp in *. destruct (rep_users0 cur Hc) as (tt & Htt & Hv & _ & Hpr).
  rewrite (store_Some _ _ _ _ Htt). eexists. split; [done|]. split; try done; simpl.
  - by intros t [= <-].
  - intros u Hu. destruct (ThreadFlags.IRQsetWait_valid true (flags tt) Hv) as [Hv' Hw']. destruct (decide (u = cur)) as [->|Hne].
    + rewrite lookup_insert_eq. eexists. split; [done|]. simpl. by rewrite Hw', bool_decide_eq_true_2.
    + rewrite lookup_insert_ne by done. destruct (rep_users0 u Hu) as (tu & ? & ? & Hwu & ?). exists tu. split_and!; [done|done| |done].
      by rewrite Hwu, !bool_decide_eq_false_2 by congruence.
Qed.

Lemma rep_size users prio q h s : rep users prio q h s -> Z.of_nat (length (content s)) <= len.
Proof. intros [Hl [Hr _] _ _ _ _ _ _]. lia. Qed.

Lemma rep_isFull users prio q h s : rep users prio q h s -> isFull q = full s.
Proof. intros []. unfold isFull, full. rewrite rep_num0. by destruct (Z.eqb_spec (Z.of_nat (length (content s))) len), (bool_decide_reflect (Z.of_nat (length (content s)) = len)). Qed.

Lemma rep_take users prio q h x xs :
  rep users prio q h (Spec (x :: xs) None) ->
  isEmpty q = false /\ exists q', take q = Done (x, q') /\ rep users prio q' h (Spec xs None).
Proof.
  intros Hr. pose proof (rep_size _ _ _ _ _ Hr) as Hs. destruct Hr. simpl in *. split.
  { unfold isEmpty. rewrite rep_num0. by apply Z.eqb_neq. }
  rewrite <- rep_len0 in rep_get0. destruct (ring_get _ _ _ _ rep_ring0 rep_get0) as [Hx Hring].
  unfold take. rewrite Hx. cbn [mbind outcome_bind]. eexists. split; [done|].
  rewrite (wrapU_small 32 (getPos q + 1)) by lia. rewrite next_eqb by lia. rewrite (wrapU_small 32 (numElem q - 1)) by lia.
  rewrite rep_len0 in Hring. split; simpl; try done; [apply Z.mod_pos_bound; lia| |lia].
  rewrite rep_put0, Zplus_mod_idemp_l. f_equal. lia.
Qed.

Lemma rep_add users prio q h s x :
  rep users prio q h s -> parked s = None -> full s = false ->
  exists q', add x q = Done q' /\ rep users prio q' h (Spec (content s ++ [x]) None).
Proof.
  intros Hr Hp Hf. pose proof (rep_size _ _ _ _ _ Hr) as Hs. destruct Hr. unfold full in Hf. apply bool_decide_eq_false in Hf.
  destruct (ring_put _ _ _ x rep_ring0 ltac:(lia)) as [Hset Hring]. rewrite rep_len0, <- rep_put0 in Hset, Hring.
  unfold add. rewrite Hset. cbn [mbind outcome_bind]. eexists. split; [done|].
  assert (Hpos : 0 <= putPos q < len) by (rewrite rep_put0; apply Z.mod_pos_bound; lia).
  rewrite (wrapU_small 32 (putPos q + 1)) by lia. rewrite next_eqb by lia. rewrite (wrapU_small 32 (numElem q + 1)) by lia.
  rewrite Hp in *. split; simpl; try done.
  - by rewrite length_insert.
  - rewrite rep_put0, Zplus_mod_idemp_l, length_app. simpl. f_equal. lia.
  - rewrite length_app. simpl. lia.
Qed.

Lemma rep_nonempty users prio q h s : rep users prio q h s -> isEmpty q = bool_decide (content s = []).
Proof. intros []. unfold isEmpty. rewrite rep_num0. by destruct (content s). Qed.

Lemma rep_preempts users prio q h s cur w :
  rep users prio q h s -> cur ∈ users -> preempts cur w q h = Done (spec_hppw prio cur w s).
Proof.
  intros [] Hc. unfold preempts, spec_hppw. rewrite rep_waiting0. destruct (parked s) as [t|] eqn:Hp; [|done].
  destruct (rep_users0 cur Hc) as (tc & Hcur & _ & _ & <-).
  destruct (rep_users0 t (rep_parked0 t eq_refl)) as (tt & Ht & _ & _ & <-).
  rewrite (getPriority_reads _ _ _ Hcur), (getPriority_reads _ _ _ Ht). cbn [mbind outcome_bind].
  rewrite less_urgency. by destruct (_ <? _).
Qed.

Lemma queue_op_refines users prio o q h s :
  rep users prio q h s -> (forall t, t ∈ op_threads o -> t ∈ users) ->
  exists q' h', run_op o q h = Done ((spec_op prio o s).1, q', h') /\ rep users prio q' h' (spec_op prio o s).2.
Proof.
  intros Hr Ho. destruct (rep_IRQwake _ _ _ _ _ Hr) as (h1 & Hwake & Hr1).
  pose proof (rep_nonempty _ _ _ _ _ Hr1) as He. pose proof (rep_isFull _ _ _ _ _ Hr1) as Hf. simpl in He.
  change (full (Spec (content s) None)) with (full s) in Hf.
  destruct s as [xs p]. simpl in He.
  destruct o as [|x|cur w|cur x w|cur|cur x|cur|cur|]; simpl in Ho |- *.
  - unfold IRQget. rewrite Hwake. cbn [mbind outcome_bind]. destruct xs as [|x xs].
    + rewrite He. simpl. eauto.
    + destruct (rep_take _ _ _ _ _ _ Hr1) as (-> & q' & -> & Hr'). simpl. eauto.
  - unfold IRQput, spec_put. rewrite Hwake. cbn [mbind outcome_bind]. rewrite Hf. destruct (full _) eqn:Hfull; simpl; [eauto|].
    destruct (rep_add _ _ _ _ _ x Hr1 eq_refl Hfull) as (q' & -> & Hr'). simpl. eauto.
  - unfold IRQget_hppw. rewrite (rep_preempts _ _ _ _ _ cur w Hr) by (apply Ho; by left). cbn [mbind outcome_bind].
    rewrite Hwake. cbn [mbind outcome_bind]. destruct xs as [|x xs].
    + rewrite He. simpl. eauto.
    + destruct (rep_take _ _ _ _ _ _ Hr1) as (-> & q' & -> & Hr'). simpl. eauto.
  - unfold IRQput_hppw, spec_put. rewrite (rep_preempts _ _ _ _ _ cur w Hr) by (apply Ho; by left). cbn [mbind outcome_bind].
    rewrite Hwake. cbn [mbind outcome_bind]. rewrite Hf. destruct (full _) eqn:Hfull; simpl; [eauto|].
    destruct (rep_add _ _ _ _ _ x Hr1 eq_refl Hfull) as (q' & -> & Hr'). simpl. eauto.
  - unfold get. rewrite Hwake. cbn [mbind outcome_bind]. destruct xs as [|x xs].
    + rewrite He. simpl. destruct (rep_park _ _ _ _ _ cur Hr1 eq_refl) as (h' & -> & Hr'); [apply Ho; by left|]. simpl. eauto.
    + destruct (rep_take _ _ _ _ _ _ Hr1) as (-> & q' & -> & Hr'). simpl. eauto.
  - unfold put, spec_put. rewrite Hwake. cbn [mbind outcome_bind]. rewrite Hf. destruct (full _) eqn:Hfull; simpl.
    + destruct (rep_park _ _ _ _ _ cur Hr1 eq_refl) as (h' & -> & Hr'); [apply Ho; by left|]. simpl. eauto.
    + destruct (rep_add _ _ _ _ _ x Hr1 eq_refl Hfull) as (q' & -> & Hr'). simpl. eauto.
  - unfold waitUntilNotEmpty. rewrite Hwake. cbn [mbind outcome_bind]. rewrite He. destruct xs as [|x xs]; simpl.
    + destruct (rep_park _ _ _ _ _ cur Hr1 eq_refl) as (h' & -> & Hr'); [apply Ho; by left|]. simpl. eauto.
    + eauto.
  - unfold waitUntilNotFull. rewrite Hwake. cbn [mbind outcome_bind]. rewrite Hf. destruct (full _) eqn:Hfull; simpl.
    + destruct (rep_park _ _ _ _ _ cur Hr1 eq_refl) as (h' & -> & Hr'); [apply Ho; by left|]. simpl. eauto.
    + eauto.
  - unfold IRQreset. rewrite Hwake. simpl. do 2 eexists. split; [done|]. destruct Hr1. simpl in *.
    split; simpl; try done; [apply ring_nil|lia].
Qed.

Lemma queue_ops_refine users prio os q h s :
  rep users prio q h s -> (forall o t, o ∈ os -> t ∈ op_threads o -> t ∈ users) ->
  exists q' h', run_ops os q h = Done ((spec_ops prio os s).1, q', h') /\ rep users prio q' h' (spec_ops prio os s).2.
Proof.
  revert q h s. induction os as [|o os IH]; intros q h s Hr Ho; simpl; [eauto|].
  destruct (queue_op_refines users prio o q h s Hr) as (q1 & h1 & -> & Hr1); [intros t; apply Ho; by left|]. cbn [mbind outcome_bind].
  destruct (spec_op prio o s) as [r s1]. simpl in Hr1 |- *.
  destruct (IH q1 h1 s1 Hr1) as (q' & h' & -> & Hr'); [intros o' t Ho' Ht; apply (Ho o'); [by right|done]|]. cbn [mbind outcome_bind].
  destruct (spec_ops prio os s1) as [rs s2]. eauto.
Qed.

Definition prio_in (h : threads) (t : positive) : Z := match h !! t with Some th => priority th | None => 0 end.

(** C37: [Queue] is a bounded first-in first-out queue without lost wakeups.
    Any sequence of its operations, by interrupt routines or by the threads
    [users], completes and returns what the same operations on a list bounded
    by the length of the queue return, [hppw] included; and a thread waits
    exactly while it is the last to have found the queue empty (or full) and no
    operation has been done on the queue since. *)
Theorem queue_refines (users : gset positive) (os : list op) (h : threads) :
  (forall t, t ∈ users -> exists tt, h !! t = Some tt /\ ThreadFlags.valid (flags tt) /\ ThreadFlags.isWaiting (flags tt) = false) ->
  (forall o t, o ∈ os -> t ∈ op_threads o -> t ∈ users) ->
  exists q' h', let '(rs, s') := spec_ops (prio_in h) os (Spec [] None) in
    run_ops os new_Queue h = Done (rs, q', h') /\
    numElem q' = Z.of_nat (length (content s')) /\ numElem q' <= len /\
    forall t, t ∈ users -> exists tt, h' !! t = Some tt /\ ThreadFlags.isWaiting (flags tt) = bool_decide (parked s' = Some t).
Proof.
  intros Hu Ho.
  destruct (queue_ops_refine users (prio_in h) os new_Queue h (Spec [] None)) as (q' & h' & Hrun & Hr'); [|done|].
  - split; simpl; try done.
    + rewrite length_replicate. lia.
    + apply ring_nil.
    + lia.
    + intros t Ht. destruct (Hu t Ht) as (tt & Htt & Hv & Hw). exists tt. unfold prio_in. by rewrite Htt.
  - exists q', h'. destruct (spec_ops _ _ _) as [rs s']. simpl in *. split; [done|].
    pose proof (rep_size _ _ _ _ _ Hr'). destruct Hr'. split; [done|]. split; [lia|].
    intros t Ht. destruct (rep_users0 t Ht) as (tt & ? & _ & ? & _). eauto.
Qed.

End queue.

(** *** A producer, a consumer and an interrupt routine *)
#[local] Existing Instance PriorityScheduler.PriorityScheduler.ops.
#[local] Existing Instance PriorityScheduler.PriorityScheduler.scheduler.

(** The consumer 3 waits; an interrupt wakes it; the producer 2 fills the
    queue of length 2, waits, and is woken by the consumer. *)
Definition ex_ops : list (op (T := Z)) :=
  [Get 3; IRQPutHppw 2 10 false; Get 3; Put 2 11; Put 2 12; Put 2 13; IRQGetHppw 2 false; Put 2 13; Get 3; Get 3; Get 3; Reset].
Definition ex_heap : threads := <[2%positive := new_Thread 1]> {[ 3%positive := new_Thread 2 ]}.

Lemma queue_refines_witness :
  exists q' h', run_ops 2 ex_ops (new_Queue 2) ex_heap =
    Done ([Result None false false; Result None true true; Result (Some 10) true false; Result None true false;
           Result None true false; Result None false false; Result (Some 11) true false; Result None true false;
           Result (Some 12) true false; Result (Some 13) true false; Result None false false; Result None true false], q', h').
Proof.
  destruct (queue_refines (T := Z) 2 ltac:(lia) {[2; 3]}%positive ex_ops ex_heap) as (q' & h' & Hq).
  - intros t [->%elem_of_singleton| ->%elem_of_singleton]%elem_of_union; eexists; (split; [done|]); (split; [by split|by vm_compute]).
  - intros o t Ho Ht. assert (Hall : Forall (fun o => Forall (fun t => t ∈ ({[2; 3]}%positive : gset positive)) (op_threads o)) ex_ops).
    { repeat constructor. }
    rewrite Forall_forall in Hall. specialize (Hall o Ho). rewrite Forall_forall in Hall. by apply Hall.
  - exists q', h'. destruct (spec_ops _ _ _) as [rs s'] eqn:E. vm_compute in E. injection E as <- _. apply Hq.
Defined.

End Queue.

(** ** DynUnsyncQueue<T> *)
Module DynUnsyncQueue.
Section queue.
Context {T : Type}.

Record DynUnsyncQueue := mkQueue {
  data : list (option T);
  putPos : Z;
  getPos : Z;
  queueSize : Z;
  queueCapacity : Z;
}.

Definition new_DynUnsyncQueue (elem : Z) : DynUnsyncQueue := mkQueue (replicate (Z.to_nat elem) None) 0 0 0 elem.

Definition isEmpty (q : DynUnsyncQueue) : bool := queueSize q =? 0.
Definition isFull (q : DynUnsyncQueue) : bool := queueSize q =? queueCapacity q.
Definition size (q : DynUnsyncQueue) : Z := queueSize q.
Definition capacity (q : DynUnsyncQueue) : Z := queueCapacity q.

Definition tryPut (x : T) (q : DynUnsyncQueue) : exec (bool * DynUnsyncQueue) :=
  if isFull q then Done (false, q)
  else
    d ← buf_set (data q) (putPos q) x;
    let p := u32 (putPos q + 1) in
    Done (true, mkQueue d (if queueCapacity q <=? p then 0 else p) (getPos q) (u32 (queueSize q + 1)) (queueCapacity q)).

Definition tryGet (q : DynUnsyncQueue) : exec (option T * DynUnsyncQueue) :=
  if isEmpty q then Done (None, q)
  else
    x ← buf_get (data q) (getPos q);
    let g := u32 (getPos q + 1) in
    Done (Some x, mkQueue (data q) (putPos q) (if queueCapacity q <=? g then 0 else g) (u32 (queueSize q - 1)) (queueCapacity q)).

Definition reset (q : DynUnsyncQueue) : DynUnsyncQueue := mkQueue (data q) 0 0 0 (queueCapacity q).

Inductive op := TryPut (x : T) | TryGet | Reset | Size.

(** Results: an element, a number. *)
Definition run_op (o : op) (q : DynUnsyncQueue) : exec (option T * Z * DynUnsyncQueue) :=
  match o with
  | TryPut x => '(b, q) ← tryPut x q; Done (None, Z.b2z b, q)
  | TryGet => '(x, q) ← tryGet q; Done (x, Z.b2z (bool_decide (is_Some x)), q)
  | Reset => Done (None, 0, reset q)
  | Size => Done (None, size q, q)
  end.

Fixpoint run_ops (os : list op) (q : DynUnsyncQueue) : exec (list (option T * Z) * DynUnsyncQueue) :=
  match os with
  | [] => Done ([], q)
  | o :: os => '(x, b, q) ← run_op o q; '(rs, q) ← run_ops os q; Done ((x, b) :: rs, q)
  end.

(** A list of at most [n] elements. *)
Definition spec_op (n : Z) (o : op) (xs : list T) : option T * Z * list T :=
  match o with
  | TryPut x => if bool_decide (Z.of_nat (length xs) = n) then (None, 0, xs) else (None, 1, xs ++ [x])
  | TryGet => match xs with [] => (None, 0, []) | x :: xs => (Some x, 1, xs) end
  | Reset => (None, 0, [])
  | Size => (None, Z.of_nat (length xs), xs)
  end.

Fixpoint spec_ops (n : Z) (os : list op) (xs : list T) : list (option T * Z) * list T :=
  match os with
  | [] => ([], xs)
  | o :: os => let '(x, b, xs) := spec_op n o xs in let '(rs, xs) := spec_ops n os xs in ((x, b) :: rs, xs)
  end.

Record rep (n : Z) (q : DynUnsyncQueue) (xs : list T) : Prop := Rep {
  rep_len : Z.of_nat (length (data q)) = n;
  rep_cap : queueCapacity q = n;
  rep_ring : ring (data q) (getPos q) xs;
  rep_get : 0 <= getPos q /\ (0 < n -> getPos q < n);
  rep_put : putPos q = if decide (0 < n) then (getPos q + Z.of_nat (length xs)) mod n else 0;
  rep_num : queueSize q = Z.of_nat (length xs);
}.

Lemma dyn_op_refines n o q xs :
  0 <= n < 2 ^ 32 -> rep n q xs ->
  exists q', run_op o q = Done ((spec_op n o xs).1, q') /\ rep n q' (spec_op n o xs).2.
Proof.
  intros Hn []. pose proof (proj1 rep_ring0) as Hle. destruct o as [x| | |]; simpl.
  - unfold tryPut, isFull. rewrite rep_num0, rep_cap0. destruct (Z.eqb_spec (Z.of_nat (length xs)) n) as [Hf|Hf].
    + rewrite bool_decide_eq_true_2 by done. simpl. exists q. split; [done|]. by split.
    + rewrite bool_decide_eq_false_2 by done. assert (Hpos : 0 < n) by lia. rewrite decide_True in rep_put0 by done.
      destruct (ring_put _ _ _ x rep_ring0 ltac:(lia)) as [Hset Hring]. rewrite rep_len0, <- rep_put0 in Hset, Hring.
      rewrite Hset. cbn [mbind outcome_bind]. eexists. split; [done|].
      assert (Hp : 0 <= putPos q < n) by (rewrite rep_put0; apply Z.mod_pos_bound; lia).
      rewrite (wrapU_small 32 (putPos q + 1)), next_leb, (wrapU_small 32 (_ + 1)) by lia.
      split; simpl; try done.
      * by rewrite length_insert.
      * rewrite decide_True by done. rewrite rep_put0, Zplus_mod_idemp_l, length_app. simpl. f_equal. lia.
      * rewrite length_app. simpl. lia.
  - unfold tryGet, isEmpty. rewrite rep_num0. destruct xs as [|x xs]; simpl.
    + exists q. split; [done|]. by split.
    + simpl in Hle. assert (Hpos : 0 < n) by lia. rewrite decide_True in rep_put0 by done. destruct rep_get0 as [Hg0 Hg1].
      specialize (Hg1 Hpos).
      destruct (ring_get _ _ _ _ rep_ring0 ltac:(lia)) as [Hx Hring]. rewrite Hx. cbn [mbind outcome_bind].
      eexists. split; [done|]. rewrite rep_len0 in Hring. rewrite rep_cap0.
      rewrite (wrapU_small 32 (getPos q + 1)), next_leb, (wrapU_small 32 (_ - 1)) by lia.
      pose proof (Z.mod_pos_bound (getPos q + 1) n Hpos). split; simpl; try done; [lia| |lia].
      rewrite decide_True by done. rewrite rep_put0, Zplus_mod_idemp_l. f_equal. simpl. lia.
  - eexists. split; [done|]. split; simpl; try done; [apply ring_nil|]. case_decide; [by rewrite Z.mod_small by lia|done].
  - unfold size. rewrite rep_num0. exists q. split; [done|]. by split.
Qed.

(** [DynUnsyncQueue] is a bounded first-in first-out queue: any sequence
    of its operations, for any capacity, zero included, completes within the
    bounds of the array and returns what the same operations on a list
    bounded by the capacity return. *)
Theorem dyn_queue_refines n os :
  0 <= n < 2 ^ 32 ->
  exists q', run_ops os (new_DynUnsyncQueue n) = Done ((spec_ops n os []).1, q') /\ rep n q' (spec_ops n os []).2.
Proof.
  intros Hn. assert (Hr : rep n (new_DynUnsyncQueue n) []).
  { split; simpl; try done; [rewrite length_replicate; lia|apply ring_nil|]. case_decide; [by rewrite Z.mod_small by lia|done]. }
  revert Hr. generalize (new_DynUnsyncQueue n), (@nil T). induction os as [|o os IH]; intros q xs Hr; simpl; [eauto|].
  destruct (dyn_op_refines n o q xs Hn Hr) as (q1 & -> & Hr1). destruct (spec_op n o xs) as [[x b] xs1]. cbn [mbind outcome_bind fst snd] in *.
  destruct (IH q1 xs1 Hr1) as (q' & -> & Hr'). destruct (spec_ops n os xs1) as [rs xs2]. simpl. eauto.
Qed.
End queue.

Lemma dyn_queue_refines_witness :
  exists q', run_ops [TryPut 1; TryPut 2; TryPut 3; TryGet; TryPut 4; Size; TryGet; TryGet; TryGet] (new_DynUnsyncQueue 2)
    = Done ([(None, 1); (None, 1); (None, 0); (Some 1, 1); (None, 1); (None, 2); (Some 2, 1); (Some 4, 1); (None, 0)], q').
Proof.
  destruct (dyn_queue_refines 2 [TryPut 1; TryPut 2; TryPut 3; TryGet; TryPut 4; Size; TryGet; TryGet; TryGet] ltac:(lia))
    as (q' & Hrun & _). exists q'. exact Hrun.
Defined.

End DynUnsyncQueue.

(** ** BufferQueue<T,size,numbuf> *)
Module BufferQueue.
Section queue.
Context {T : Type}.
(** The template parameters. *)
Context (size numbuf : Z).

Record BufferQueue := mkQueue {
  buf : list (list (option T));
  bufSize : list (option Z);
  put : Z;
  get : Z;
  cnt : Z;
}.

Definition new_BufferQueue : BufferQueue :=
  mkQueue (replicate (Z.to_nat numbuf) (replicate (Z.to_nat size) None)) (replicate (Z.to_nat numbuf) None) 0 0 0.

Definition isEmpty (q : BufferQueue) : bool := cnt q =? 0.
Definition isFull (q : BufferQueue) : bool := cnt q =? numbuf.
Definition bufferMaxSize (q : BufferQueue) : Z := size.
Definition numberOfBuffers (q : BufferQueue) : Z := numbuf.

(** The pointers [buf[put]] and [buf[get]] are represented by the index. *)
Definition tryGetWritableBuffer (q : BufferQueue) : option Z := if isFull q then None else Some (put q).

Definition bufferFilled (actualSize : Z) (q : BufferQueue) : exec BufferQueue :=
  if isFull q then errorHandler UNEXPECTED
  else
    b ← buf_set (bufSize q) (put q) actualSize;
    let p := u8 (put q + 1) in
    Done (mkQueue (buf q) b (if numbuf <=? p then 0 else p) (get q) (u8 (cnt q + 1))).

Definition availableForWriting (q : BufferQueue) : Z := u8 (numbuf - cnt q).

Definition tryGetReadableBuffer (q : BufferQueue) : exec (option (Z * Z)) :=
  if isEmpty q then Done None
  else n ← buf_get (bufSize q) (get q); Done (Some (get q, n)).

Definition bufferEmptied (q : BufferQueue) : exec BufferQueue :=
  if isEmpty q then errorHandler UNEXPECTED
  else
    let g := u8 (get q + 1) in
    Done (mkQueue (buf q) (bufSize q) (put q) (if numbuf <=? g then 0 else g) (u8 (cnt q - 1))).

Definition availableForReading (q : BufferQueue) : Z := cnt q.

Definition reset (q : BufferQueue) : BufferQueue := mkQueue (buf q) (bufSize q) 0 0 0.

(** *** A writer and a reader

    The writer asks for a buffer, writes its elements in order ([buf[i][k]=x])
    and marks it as filled; the reader asks for a buffer, reads the number of
    elements it is told and marks it as emptied.  Their steps interleave. *)
Definition write (i k : Z) (x : T) (q : BufferQueue) : exec BufferQueue :=
  if 0 <=? i then
    row ← deref (buf q !! Z.to_nat i);
    row ← buf_set row k x;
    Done (mkQueue (<[Z.to_nat i := row]> (buf q)) (bufSize q) (put q) (get q) (cnt q))
  else Fault Undefined.

Definition read (i n : Z) (q : BufferQueue) : exec (list T) :=
  if 0 <=? i then
    row ← deref (buf q !! Z.to_nat i);
    if n <=? Z.of_nat (length row) then mapM deref (firstn (Z.to_nat n) row) else Fault Undefined
  else Fault Undefined.

Inductive op := Append (x : T) | Filled | Read | Emptied | ForWriting | ForReading | Reset.

(** [w]: the elements written so far. *)
Definition run_op (o : op) (w : Z) (q : BufferQueue) : exec (option (list T) * Z * Z * BufferQueue) :=
  match o with
  | Append x =>
      match tryGetWritableBuffer q with
      | None => Done (None, 0, w, q)
      | Some i => if w <? bufferMaxSize q then q ← write i w x q; Done (None, 1, w + 1, q) else Done (None, 0, w, q)
      end
  | Filled => q ← bufferFilled w q; Done (None, 0, 0, q)
  | Read =>
      r ← tryGetReadableBuffer q;
      match r with None => Done (None, 0, w, q) | Some (i, n) => xs ← read i n q; Done (Some xs, n, w, q) end
  | Emptied => q ← bufferEmptied q; Done (None, 0, w, q)
  | ForWriting => Done (None, availableForWriting q, w, q)
  | ForReading => Done (None, availableForReading q, w, q)
  | Reset => Done (None, 0, 0, reset q)
  end.

Fixpoint run_ops (os : list op) (w : Z) (q : BufferQueue) : exec (list (option (list T) * Z)) :=
  match os with
  | [] => Done []
  | o :: os => '(x, n, w, q) ← run_op o w q; rs ← run_ops os w q; Done ((x, n) :: rs)
  end.

(** The filled buffers, first in first out, and the one being written. *)
Record spec := Spec { filled : list (list T); writing : list T }.

Definition spec_op (o : op) (s : spec) : exec (option (list T) * Z * spec) :=
  let full := bool_decide (Z.of_nat (length (filled s)) = numbuf) in
  match o with
  | Append x =>
      if full || negb (bool_decide (Z.of_nat (length (writing s)) < size)) then Done (None, 0, s)
      else Done (None, 1, Spec (filled s) (writing s ++ [x]))
  | Filled => if full then errorHandler UNEXPECTED else Done (None, 0, Spec (filled s ++ [writing s]) [])
  | Read => match filled s with [] => Done (None, 0, s) | xs :: _ => Done (Some xs, Z.of_nat (length xs), s) end
  | Emptied => match filled s with [] => errorHandler UNEXPECTED | _ :: r => Done (None, 0, Spec r (writing s)) end
  | ForWriting => Done (None, numbuf - Z.of_nat (length (filled s)), s)
  | ForReading => Done (None, Z.of_nat (length (filled s)), s)
  | Reset => Done (None, 0, Spec [] [])
  end.

Fixpoint spec_ops (os : list op) (s : spec) : exec (list (option (list T) * Z)) :=
  match os with
  | [] => Done []
  | o :: os => '(x, n, s) ← spec_op o s; rs ← spec_ops os s; Done ((x, n) :: rs)
  end.

(** Row [i] of the buffers begins with [xs]. *)
Definition row_holds (q : BufferQueue) (i : Z) (xs : list T) : Prop :=
  exists row, buf q !! Z.to_nat i = Some row /\ Z.of_nat (length row) = size /\
    firstn (length xs) row = Some <$> xs.

Record rep (w : Z) (q : BufferQueue) (s : spec) : Prop := Rep {
  rep_rows : Z.of_nat (length (buf q)) = numbuf;
  rep_row : forall row, row ∈ buf q -> Z.of_nat (length row) = size;
  rep_sizes : Z.of_nat (length (bufSize q)) = numbuf;
  rep_ring : ring (bufSize q) (get q) (map (fun xs => Z.of_nat (length xs)) (filled s));
  rep_data : forall i xs, filled s !! i = Some xs -> row_holds q ((get q + Z.of_nat i) mod numbuf) xs;
  rep_get : 0 <= get q < numbuf;
  rep_put : put q = (get q + Z.of_nat (length (filled s))) mod numbuf;
  rep_cnt : cnt q = Z.of_nat (length (filled s));
  rep_w : w = Z.of_nat (length (writing s));
  rep_writing : row_holds q (put q) (writing s);
  rep_full : Z.of_nat (length (filled s)) = numbuf -> writing s = [];
}.

Hypothesis bounds : 0 <= size < 2 ^ 32 /\ 2 <= numbuf < 2 ^ 8.

Lemma mapM_deref (xs : list T) : mapM deref (Some <$> xs) = (Done xs : exec (list T)).
Proof. induction xs as [|x xs IH]; [done|]. cbn. rewrite IH. done. Qed.

Lemma row_holds_nil q i : 0 <= i < numbuf -> Z.of_nat (length (buf q)) = numbuf -> (forall row, row ∈ buf q -> Z.of_nat (length row) = size) -> row_holds q i [].
Proof.
  intros Hi Hl Hr. destruct (lookup_lt_is_Some_2 (buf q) (Z.to_nat i)) as [row Hrow]; [lia|].
  exists row. split; [done|]. split; [|done]. apply Hr. by eapply list_elem_of_lookup_2.
Qed.

Lemma row_length q i xs : row_holds q i xs -> Z.of_nat (length xs) <= size.
Proof.
  intros (row & _ & <- & Hf). apply (f_equal length) in Hf. rewrite length_fmap, length_take in Hf. lia.
Qed.

Lemma read_row q i xs : 0 <= i -> row_holds q i xs -> read i (Z.of_nat (length xs)) q = Done xs.
Proof.
  intros Hi Hrow. pose proof (row_length _ _ _ Hrow) as Hle. destruct Hrow as (row & Hrow & Hl & Hf). unfold read.
  rewrite (proj2 (Z.leb_le _ _)) by done. rewrite Hrow. cbn [deref mbind outcome_bind].
  rewrite (proj2 (Z.leb_le _ _)) by lia. rewrite Nat2Z.id, Hf. apply mapM_deref.
Qed.

(** Writing one more element in row [i]; no other row changes. *)
Lemma write_row q i xs x :
  0 <= i -> row_holds q i xs -> Z.of_nat (length xs) < size ->
  exists q', write i (Z.of_nat (length xs)) x q = Done q' /\ row_holds q' i (xs ++ [x]) /\
    length (buf q') = length (buf q) /\ (forall row, row ∈ buf q' -> row ∈ buf q \/ Z.of_nat (length row) = size) /\
    bufSize q' = bufSize q /\ put q' = put q /\ get q' = get q /\ cnt q' = cnt q /\
    (forall j ys, 0 <= j -> j <> i -> row_holds q j ys -> row_holds q' j ys).
Proof.
  intros Hi (row & Hrow & Hl & Hf) Hlt. unfold write. rewrite (proj2 (Z.leb_le _ _)) by done.
  rewrite Hrow. cbn [deref mbind outcome_bind]. unfold buf_set.
  rewrite (proj2 (Z.leb_le _ _)), (proj2 (Z.ltb_lt _ _)) by lia. cbn [andb mbind outcome_bind].
  rewrite Nat2Z.id. eexists. split; [done|]. pose proof (lookup_lt_Some _ _ _ Hrow) as Hlen. split; [|split; [|split]].
  - exists (<[length xs := Some x]> row). simpl. rewrite list_lookup_insert_eq by done. split; [done|].
    rewrite length_insert. split; [done|]. rewrite length_app. simpl. rewrite Nat.add_1_r.
    rewrite (take_S_r _ _ (Some x)) by (apply list_lookup_insert_eq; lia).
    rewrite take_insert_ge by lia. by rewrite Hf, fmap_app.
  - simpl. by rewrite length_insert.
  - simpl. intros r [j Hj]%list_elem_of_lookup. apply list_lookup_insert_Some in Hj as [(_ & <- & _)|[_ Hj]].
    + right. by rewrite length_insert.
    + left. by eapply list_elem_of_lookup_2.
  - simpl. split_and!; try done. intros j ys Hj Hne (r & Hr & ? & ?). exists r. split; [|done]. simpl.
    rewrite list_lookup_insert_ne; [done|lia].
Qed.

Lemma rep_count w q s : rep w q s -> Z.of_nat (length (filled s)) <= numbuf.
Proof. intros []. destruct rep_ring0 as [Hle _]. rewrite length_map in Hle. lia. Qed.

Lemma append_refines w q s x :
  rep w q s -> Z.of_nat (length (filled s)) <> numbuf -> Z.of_nat (length (writing s)) < size ->
  exists q', write (put q) w x q = Done q' /\ rep (w + 1) q' (Spec (filled s) (writing s ++ [x])).
Proof.
  intros Hr Hf Hlt. pose proof (rep_count _ _ _ Hr) as Hc. destruct Hr.
  assert (Hp : 0 <= put q < numbuf) by (rewrite rep_put0; apply Z.mod_pos_bound; lia).
  destruct (write_row q (put q) (writing s) x ltac:(lia) rep_writing0 Hlt)
    as (q' & Hrun & Hrow & Hlen & Hrows & Hbs & Hput & Hget & Hcnt & Hframe).
  rewrite rep_w0. exists q'. split; [done|]. split; rewrite ?Hbs, ?Hput, ?Hget, ?Hcnt; simpl; try done.
  - by rewrite Hlen.
  - intros row [Hin|]%Hrows; [by apply rep_row0|done].
  - intros i xs Hi. apply Hframe; [apply Z.mod_pos_bound; lia| |by apply rep_data0].
    apply lookup_lt_Some in Hi. rewrite rep_put0. apply mod_neq; lia.
  - rewrite length_app. simpl. lia.
Qed.

Lemma bufferFilled_refines w q s :
  rep w q s -> Z.of_nat (length (filled s)) <> numbuf ->
  exists q', bufferFilled w q = Done q' /\ rep 0 q' (Spec (filled s ++ [writing s]) []).
Proof.
  intros Hr Hf. pose proof (rep_count _ _ _ Hr) as Hc. destruct Hr. destruct bounds as [Hsize Hnum].
  assert (Hp : 0 <= put q < numbuf) by (rewrite rep_put0; apply Z.mod_pos_bound; lia).
  unfold bufferFilled, isFull. rewrite rep_cnt0. rewrite (proj2 (Z.eqb_neq _ _)) by done.
  destruct (ring_put _ _ _ w rep_ring0) as [Hset Hring]; [rewrite length_map; lia|].
  rewrite length_map, rep_sizes0, <- rep_put0 in Hset, Hring. rewrite Hset. cbn [mbind outcome_bind].
  eexists. split; [done|]. rewrite (wrapU_small 8 (put q + 1)), next_leb, (wrapU_small 8 (_ + 1)) by lia.
  split; simpl; try done.
  - by rewrite length_insert.
  - rewrite map_app. simpl. by rewrite <- rep_w0.
  - intros i xs [Hi|[Hi Hxs]]%lookup_app_Some; [by apply rep_data0|].
    apply list_lookup_singleton_Some in Hxs as [Hi0 <-]. replace i with (length (filled s)) by lia. by rewrite <- rep_put0.
  - rewrite rep_put0, Zplus_mod_idemp_l, length_app. simpl. f_equal. lia.
  - rewrite length_app. simpl. lia.
  - apply row_holds_nil; [apply Z.mod_pos_bound; lia|done|done].
Qed.

Lemma readable_refines w q s xs r :
  rep w q s -> filled s = xs :: r ->
  tryGetReadableBuffer q = Done (Some (get q, Z.of_nat (length xs))) /\ read (get q) (Z.of_nat (length xs)) q = Done xs.
Proof.
  intros [] Hxs. unfold tryGetReadableBuffer, isEmpty. rewrite rep_cnt0, Hxs. simpl. rewrite Hxs in rep_ring0. simpl in rep_ring0.
  rewrite <- rep_sizes0 in rep_get0. destruct (ring_get _ _ _ _ rep_ring0 rep_get0) as [Hx _]. rewrite rep_sizes0 in rep_get0.
  rewrite Hx. split; [done|]. apply read_row; [lia|]. specialize (rep_data0 0%nat xs). rewrite Hxs in rep_data0.
  specialize (rep_data0 eq_refl). rewrite Z.add_0_r, Z.mod_small in rep_data0 by lia. done.
Qed.

Lemma bufferEmptied_refines w q s xs r :
  rep w q s -> filled s = xs :: r -> exists q', bufferEmptied q = Done q' /\ rep w q' (Spec r (writing s)).
Proof.
  intros Hr Hxs. pose proof (rep_count _ _ _ Hr) as Hc. destruct Hr. destruct bounds as [Hsize Hnum].
  unfold bufferEmptied, isEmpty. rewrite rep_cnt0, Hxs in *. simpl in Hc |- *.
  eexists. split; [done|]. rewrite (wrapU_small 8 (get q + 1)), next_leb, (wrapU_small 8 (_ - 1)) by lia.
  simpl in rep_ring0. rewrite <- rep_sizes0 in rep_get0. destruct (ring_get _ _ _ _ rep_ring0 rep_get0) as [_ Hring].
  rewrite rep_sizes0 in Hring, rep_get0. split; simpl; try done.
  - intros i ys Hi. rewrite Zplus_mod_idemp_l. replace (get q + 1 + Z.of_nat i) with (get q + Z.of_nat (S i)) by lia.
    by apply rep_data0.
  - apply Z.mod_pos_bound. lia.
  - rewrite rep_put0, Zplus_mod_idemp_l. simpl. f_equal. lia.
  - lia.
  - lia.
Qed.

Lemma rep_reset w q s : rep w q s -> rep 0 (reset q) (Spec [] []).
Proof.
  intros []. destruct bounds as [Hsize Hnum]. split; simpl; try done; [apply ring_nil|lia|].
  apply row_holds_nil; [lia|done|done].
Qed.

(** A step agrees with the specification, the misuses included. *)
Lemma buffer_op_refines o w q s :
  rep w q s ->
  match spec_op o s with
  | Done (x, n, s') => exists w' q', run_op o w q = Done (x, n, w', q') /\ rep w' q' s'
  | Fault e => run_op o w q = Fault e
  end.
Proof.
  intros Hr. pose proof (rep_count _ _ _ Hr) as Hc. destruct bounds as [Hsize Hnum].
  assert (Hfull : isFull q = bool_decide (Z.of_nat (length (filled s)) = numbuf)).
  { unfold isFull. rewrite (rep_cnt _ _ _ Hr). by destruct (Z.eqb_spec (Z.of_nat (length (filled s))) numbuf), (bool_decide_reflect (Z.of_nat (length (filled s)) = numbuf)). }
  destruct o as [x| | | | | |]; simpl.
  - unfold tryGetWritableBuffer. rewrite Hfull. destruct (bool_decide_reflect (Z.of_nat (length (filled s)) = numbuf)) as [Hf|Hf]; simpl.
    { eauto. }
    unfold bufferMaxSize. rewrite (rep_w _ _ _ Hr). destruct (bool_decide_reflect (Z.of_nat (length (writing s)) < size)) as [Hlt|Hlt]; simpl.
    + rewrite (proj2 (Z.ltb_lt _ _)) by done. destruct (append_refines w q s x Hr Hf Hlt) as (q' & Hrun & Hr').
      rewrite <- (rep_w _ _ _ Hr), Hrun. simpl. eauto.
    + rewrite (proj2 (Z.ltb_ge _ _)) by lia. rewrite <- (rep_w _ _ _ Hr). eauto.
  - destruct (bool_decide_reflect (Z.of_nat (length (filled s)) = numbuf)) as [Hf|Hf]; simpl.
    + unfold bufferFilled. by rewrite Hfull.
    + destruct (bufferFilled_refines w q s Hr Hf) as (q' & -> & Hr'). simpl. eauto.
  - destruct (filled s) as [|xs r] eqn:Hxs.
    + unfold tryGetReadableBuffer, isEmpty. rewrite (rep_cnt _ _ _ Hr), Hxs. simpl. eauto.
    + destruct (readable_refines w q s xs r Hr Hxs) as [-> Hread]. cbn [mbind outcome_bind]. rewrite Hread. simpl. eauto.
  - destruct (filled s) as [|xs r] eqn:Hxs.
    + unfold bufferEmptied, isEmpty. by rewrite (rep_cnt _ _ _ Hr), Hxs.
    + destruct (bufferEmptied_refines w q s xs r Hr Hxs) as (q' & -> & Hr'). simpl. eauto.
  - unfold availableForWriting. rewrite (rep_cnt _ _ _ Hr), wrapU_small by lia. eauto.
  - unfold availableForReading. rewrite (rep_cnt _ _ _ Hr). eauto.
  - do 2 eexists. split; [done|]. by eapply rep_reset.
Qed.

(** [BufferQueue] hands filled buffers from a writer to a reader in order.
    For every interleaving of a writer that fills buffers element by element
    and a reader, each read returns the elements written to the oldest buffer
    that was filled and not yet emptied, whatever the writer has written
    since; the numbers of free and filled buffers are exact; and the program
    stops with [UNEXPECTED] exactly when a buffer is marked filled while all
    are, or emptied while none is filled. *)
Theorem buffer_queue_refines os : run_ops os 0 new_BufferQueue = spec_ops os (Spec [] []).
Proof.
  destruct bounds as [Hsize Hnum].
  assert (Hr : rep 0 new_BufferQueue (Spec [] [])).
  { assert (Hrows : forall row, row ∈ replicate (Z.to_nat numbuf) (replicate (Z.to_nat size) (@None T)) -> Z.of_nat (length row) = size).
    { intros row [-> _]%elem_of_replicate. rewrite length_replicate. lia. }
    split; simpl; try done; rewrite ?length_replicate; try lia; [apply ring_nil|].
    apply row_holds_nil; simpl; rewrite ?length_replicate; [lia|lia|done]. }
  revert Hr. generalize 0, new_BufferQueue, (Spec [] []). induction os as [|o os IH]; intros w q s Hr; simpl; [done|].
  pose proof (buffer_op_refines o w q s Hr) as Hop. destruct (spec_op o s) as [[[x n] s']|e].
  - destruct Hop as (w' & q' & -> & Hr'). cbn [mbind outcome_bind]. by rewrite (IH w' q' s' Hr').
  - by rewrite Hop.
Qed.
End queue.

Lemma buffer_queue_refines_witness :
  run_ops (T := Z) 2 3 [Append 1; Append 2; Append 3; Filled; Append 4; Read; Filled; Emptied; Read; ForReading; ForWriting; Emptied; Emptied] 0 (new_BufferQueue 2 3)
  = errorHandler UNEXPECTED /\
  run_ops (T := Z) 2 3 [Append 1; Append 2; Append 3; Filled; Append 4; Read; Filled; Emptied; Read; ForReading; ForWriting] 0 (new_BufferQueue 2 3)
  = Done [(None, 1); (None, 1); (None, 0); (None, 0); (None, 1); (Some [1; 2], 2); (None, 0); (None, 0); (Some [4], 1); (None, 1); (None, 2)].
Proof. split; exact (buffer_queue_refines 2 3 ltac:(lia) _). Defined.

End BufferQueue.
