(* ===== verification/Pthread.v ===== *)
(** * Fast mutexes and condition variables

    [kernel/pthread_private.h], the mutexes and condition variables of
    [kernel/pthread.cpp], which are also [FastMutex] and [ConditionVariable]
    of [kernel/sync.h].  All of it runs with interrupts disabled; a thread that
    has to wait leaves the function at the yield and comes back there.  The
    queues are linked lists of objects on the stacks of the waiting threads:
    [waitlists] is the memory that holds them. *)
From S2P Require Import Prelude Errors Threads Scheduler PriorityScheduler.

Local Open Scope Z_scope.

(** ** The queues of waiting threads *)

(** [struct WaitingList]; its address is a [positive]. *)
Record WaitingList := mkWaiting { thread : positive; next : option positive }.
Abbreviation waitlists := (gmap positive WaitingList).

(** The [first] and [last] of a mutex or condition variable. *)
Record queue := mkQueue { first : option positive; last : option positive }.

Definition set_next (n : option positive) (w : WaitingList) : WaitingList := mkWaiting (thread w) n.

(** [waiting.thread=p; waiting.next=0;] and the insertion of [&waiting], at
    address [n], at the end. *)
Definition enqueue (n p : positive) (q : queue) (ns : waitlists) : exec (queue * waitlists) :=
  let ns := <[n := mkWaiting p None]> ns in
  match first q with
  | None => Done (mkQueue (Some n) (Some n), ns)
  | Some _ =>
      l ← deref (last q);
      w ← deref (ns !! l);
      Done (mkQueue (first q) (Some n), <[l := set_next (Some n) w]> ns)
  end.

(** [first->thread] and [first=first->next]. *)
Definition dequeue (f : positive) (q : queue) (ns : waitlists) : exec (positive * queue) :=
  w ← deref (ns !! f);
  Done (thread w, mkQueue (next w) (last q)).

(** [xs]: the addresses and threads linked from [o]. *)
Fixpoint linked (ns : waitlists) (o : option positive) (xs : list (positive * positive)) : Prop :=
  match xs with
  | [] => o = None
  | (n, t) :: r => o = Some n /\ exists w, ns !! n = Some w /\ thread w = t /\ linked ns (next w) r
  end.

Record holds (ns : waitlists) (q : queue) (xs : list (positive * positive)) : Prop := Holds {
  holds_linked : linked ns (first q) xs;
  holds_nodup : NoDup xs.*1;
  holds_last : forall x r, xs = r ++ [x] -> last q = Some x.1;
}.

Lemma linked_frame ns ns' o xs :
  (forall n, n ∈ xs.*1 -> ns' !! n = ns !! n) -> linked ns o xs -> linked ns' o xs.
Proof.
  revert o. induction xs as [|[n t] r IH]; intros o Hf; [done|]. intros (-> & w & Hw & Ht & Hr). split; [done|].
  exists w. rewrite Hf by set_solver. split; [done|]. split; [done|]. apply IH; [|done]. intros m Hm. apply Hf. set_solver.
Qed.

Lemma linked_in ns o xs n t : linked ns o xs -> (n, t) ∈ xs -> exists w, ns !! n = Some w /\ thread w = t.
Proof.
  revert o. induction xs as [|[m u] r IH]; intros o Hl Hin; [by apply elem_of_nil in Hin|].
  destruct Hl as (_ & w & Hw & Ht & Hl). apply elem_of_cons in Hin as [[= -> ->]|Hin]; [eauto|by eapply IH].
Qed.

Lemma linked_app ns o xs l tl n p wl :
  linked ns o (xs ++ [(l, tl)]) -> NoDup ((xs ++ [(l, tl)]).*1) -> ns !! l = Some wl -> n ∉ (xs ++ [(l, tl)]).*1 ->
  ns !! n = Some (mkWaiting p None) -> linked (<[l := set_next (Some n) wl]> ns) o ((xs ++ [(l, tl)]) ++ [(n, p)]).
Proof.
  revert o. induction xs as [|[m u] r IH]; intros o Hl Hnd Hwl Hn Hns; simpl in *.
  - destruct Hl as (-> & w & Hw & Ht & _). assert (w = wl) as -> by congruence. split; [done|].
    exists (set_next (Some n) wl). rewrite lookup_insert_eq. split; [done|]. split; [done|]. simpl. split; [done|].
    exists (mkWaiting p None). rewrite lookup_insert_ne by set_solver. by split.
  - destruct Hl as (-> & w & Hw & Ht & Hl). apply NoDup_cons in Hnd as [Hm Hnd]. split; [done|].
    exists w. rewrite lookup_insert_ne; [|intros <-; apply Hm; rewrite fmap_app, elem_of_app; right; by left].
    split; [done|]. split; [done|]. apply IH; try done. intros Hin. apply Hn. by right.
Qed.

Lemma enqueue_spec n p q ns xs :
  holds ns q xs -> n ∉ xs.*1 ->
  exists q' ns', enqueue n p q ns = Done (q', ns') /\ holds ns' q' (xs ++ [(n, p)]) /\
    (forall m, m ∉ xs.*1 -> m <> n -> ns' !! m = ns !! m) /\ (forall m, is_Some (ns' !! m) <-> m = n \/ is_Some (ns !! m)).
Proof.
  intros [Hl Hnd Hlast] Hn. unfold enqueue.
  assert (Hnd' : NoDup (xs ++ [(n, p)]).*1).
  { rewrite fmap_app. apply NoDup_app. split; [done|]. split; [set_solver|apply NoDup_singleton]. }
  destruct xs as [|[l tl] xs _] using rev_ind.
  - simpl in Hl. rewrite Hl. do 2 eexists. split; [done|]. split; [|split].
    + split; simpl; [|done|].
      * split; [done|]. exists (mkWaiting p None). by rewrite lookup_insert_eq.
      * intros x r Hx. by apply (app_inj_2 [] r [(n, p)] [x]) in Hx as [_ [= <-]].
    + intros m _ Hm. by rewrite lookup_insert_ne.
    + intros m. rewrite lookup_insert_is_Some'. naive_solver.
  - specialize (Hlast (l, tl) xs eq_refl). simpl in Hlast.
    assert (exists f, first q = Some f) as [f Hf] by (destruct xs as [|[f ?] ?]; simpl in Hl; destruct Hl as [-> _]; eauto).
    rewrite Hf, Hlast. cbn [deref mbind outcome_bind].
    assert (Hln : l <> n) by (intros ->; apply Hn; rewrite fmap_app, elem_of_app; right; by left).
    destruct (linked_in _ _ _ l tl Hl) as (wl & Hwl & _); [set_solver|].
    rewrite lookup_insert_ne, Hwl by done. cbn [deref mbind outcome_bind]. do 2 eexists. split; [done|]. split; [|split].
    + split; simpl; [|done|].
      * rewrite <- Hf. apply linked_app; try done; [|by rewrite lookup_insert_ne|apply lookup_insert_eq].
        eapply linked_frame; [|exact Hl]. intros m Hm. rewrite lookup_insert_ne; [done|]. by intros <-.
      * intros x r Hx. apply app_inj_2 in Hx as [_ [= <-]]; [done|done].
    + intros m Hm Hmn. rewrite !lookup_insert_ne; [done|done|]. intros <-. apply Hm. rewrite fmap_app, elem_of_app. right. by left.
    + intros m. rewrite !lookup_insert_is_Some'. split; [|naive_solver]. intros [<-|[<-|?]]; eauto.
Qed.

Lemma dequeue_spec n t xs q ns :
  holds ns q ((n, t) :: xs) ->
  exists q', first q = Some n /\ dequeue n q ns = Done (t, q') /\ holds ns q' xs.
Proof.
  intros [(Hf & w & Hw & Ht & Hl) Hnd Hlast]. exists (mkQueue (next w) (last q)). split; [done|].
  unfold dequeue. rewrite Hw. cbn [deref mbind outcome_bind]. rewrite Ht. split; [done|].
  apply NoDup_cons in Hnd as [_ Hnd]. split; [done|done|]. intros x r ->. by apply (Hlast x ((n, t) :: r)).
Qed.

Lemma holds_frame ns ns' q xs : (forall n, n ∈ xs.*1 -> ns' !! n = ns !! n) -> holds ns q xs -> holds ns' q xs.
Proof. intros Hf []. split; [|done|done]. by eapply linked_frame. Qed.

Lemma holds_nil ns q : first q = None -> holds ns q [].
Proof. intros Hf. split; [done|constructor|]. intros x r Hx. by destruct r. Qed.

(** ** The operations *)
Module Monitor.
Section monitor.
Context {S : Type} `{Scheduler S}.
(** [SCHED_TYPE_EDF]. *)
Context (edf : bool).

(** [pthread_mutex_t]. *)
Record pthread_mutex := mkMutex { owner : option positive; waiters : queue; recursive : Z }.

(** One mutex, one condition variable ([pthread_cond_t]), the stacks and the
    threads. *)
Record world := World { mutex : pthread_mutex; cond : queue; stacks : waitlists; heap : threads }.

Definition set_mutex (m : pthread_mutex) (w : world) : world := World m (cond w) (stacks w) (heap w).
Definition set_owner (o : option positive) (w : world) : world :=
  set_mutex (mkMutex o (waiters (mutex w)) (recursive (mutex w))) w.
Definition set_recursive (r : Z) (w : world) : world :=
  set_mutex (mkMutex (owner (mutex w)) (waiters (mutex w)) r) w.
Definition flag (t : positive) (f : Z -> Z) (w : world) : exec world :=
  h ← store (heap w) t (set_flags f); Done (World (mutex w) (cond w) (stacks w) h).

(** [attr]: recursive or not; without attributes, not. *)
Definition pthread_mutex_init (recursive : bool) : pthread_mutex :=
  mkMutex None (mkQueue None None) (if recursive then 0 else -1).
Definition pthread_mutex_destroy (w : world) : bool := bool_decide (owner (mutex w) = None).
Definition pthread_cond_init : queue := mkQueue None None.
Definition pthread_cond_destroy (w : world) : bool := bool_decide (first (cond w) = None).

(** One turn of [while(mutex->owner!=p) {IRQwait(); yield();}]. *)
Definition wait_turn (p : positive) (w : world) : exec (bool * world) :=
  if bool_decide (owner (mutex w) = Some p) then Done (true, w)
  else w ← flag p (ThreadFlags.IRQsetWait true) w; Done (false, w).

Definition wait_turn_depth (p : positive) (depth : Z) (w : world) : exec (bool * world) :=
  '(b, w) ← wait_turn p w;
  Done (b, if b && (0 <=? recursive (mutex w)) then set_recursive (s32 depth) w else w).

Definition push_waiter (n p : positive) (w : world) : exec world :=
  '(q, ns) ← enqueue n p (waiters (mutex w)) (stacks w);
  Done (World (mkMutex (owner (mutex w)) q (recursive (mutex w))) (cond w) ns (heap w)).

(** [n]: the address of the local variable [waiting]. *)
Definition IRQdoMutexLock (n p : positive) (w : world) : exec (bool * world) :=
  match owner (mutex w) with
  | None => Done (true, set_owner (Some p) w)
  | Some o =>
      if bool_decide (o = p) then
        if 0 <=? recursive (mutex w) then Done (true, set_recursive (s32 (recursive (mutex w) + 1)) w)
        else errorHandler MUTEX_DEADLOCK
      else w ← push_waiter n p w; wait_turn p w
  end.

Definition IRQdoMutexLockToDepth (n p : positive) (depth : Z) (w : world) : exec (bool * world) :=
  match owner (mutex w) with
  | None =>
      let w := set_owner (Some p) w in
      Done (true, if 0 <=? recursive (mutex w) then set_recursive (s32 depth) w else w)
  | Some o =>
      if bool_decide (o = p) then
        if 0 <=? recursive (mutex w) then Done (true, set_recursive (s32 depth) w)
        else errorHandler MUTEX_DEADLOCK
      else w ← push_waiter n p w; wait_turn_depth p depth w
  end.

Definition pthread_mutex_trylock (p : positive) (w : world) : bool * world :=
  match owner (mutex w) with
  | None => (true, set_owner (Some p) w)
  | Some o =>
      if bool_decide (o = p) && (0 <=? recursive (mutex w)) then (true, set_recursive (s32 (recursive (mutex w) + 1)) w)
      else (false, w)
  end.

(** The first waiting thread, woken, becomes the owner. *)
Definition pass_on (f : positive) (w : world) : exec (positive * world) :=
  '(t, q) ← dequeue f (waiters (mutex w)) (stacks w);
  w ← flag t (ThreadFlags.IRQsetWait false) w;
  Done (t, set_mutex (mkMutex (Some t) q (recursive (mutex w))) w).

Definition higher (cur t : positive) (h : threads) : exec bool :=
  pc ← getPriority cur h; pt ← getPriority t h; Done (less pc pt).

Definition IRQdoMutexUnlock (cur : positive) (w : world) : exec (bool * world) :=
  if 0 <? recursive (mutex w) then Done (false, set_recursive (s32 (recursive (mutex w) - 1)) w)
  else
    match first (waiters (mutex w)) with
    | Some f =>
        '(t, w) ← pass_on f w;
        if edf then Done (false, w) else b ← higher cur t (heap w); Done (b, w)
    | None => Done (false, set_owner None w)
    end.

Definition IRQdoMutexUnlockAllDepthLevels (w : world) : exec (Z * world) :=
  w ← match first (waiters (mutex w)) with
      | Some f => '(_, w) ← pass_on f w; Done w
      | None => Done (set_owner None w)
      end;
  if recursive (mutex w) <? 0 then Done (0, w)
  else Done (u32 (recursive (mutex w)), set_recursive 0 w).

(** [pthread_cond_wait] up to the yield: the
    depth for [IRQdoMutexLockToDepth], which the thread does when it runs. *)
Definition pthread_cond_wait (n p : positive) (w : world) : exec (Z * world) :=
  '(q, ns) ← enqueue n p (cond w) (stacks w);
  w ← flag p (ThreadFlags.IRQsetCondWait true) (World (mutex w) q ns (heap w));
  IRQdoMutexUnlockAllDepthLevels w.

(** The first waiting thread can run; [check]: the priorities are compared. *)
Definition wake_first (check : bool) (cur f : positive) (w : world) : exec (bool * world) :=
  '(t, q) ← dequeue f (cond w) (stacks w);
  w ← flag t (ThreadFlags.IRQsetCondWait false) w;
  b ← (if check then higher cur t (heap w) else Done false);
  Done (b, World (mutex w) q (stacks w) (heap w)).

Definition signal (check : bool) (cur : positive) (w : world) : exec (bool * world) :=
  match first (cond w) with
  | None => Done (false, w)
  | Some f => wake_first check cur f w
  end.

Fixpoint wake_all (fuel : nat) (check : bool) (cur : positive) (hppw : bool) (w : world) : exec (bool * world) :=
  match fuel with
  | O => Fault OutOfFuel
  | Datatypes.S fuel =>
      match first (cond w) with
      | None => Done (hppw, w)
      | Some f => '(b, w) ← wake_first check cur f w; wake_all fuel check cur (if b : bool then true else hppw) w
      end
  end.
(** The list has no more elements than there are in memory. *)
Definition broadcast (check : bool) (cur : positive) (w : world) : exec (bool * world) :=
  wake_all (Datatypes.S (size (stacks w))) check cur false w.

Definition pthread_cond_signal := signal edf.
Definition pthread_cond_broadcast := broadcast edf.
(** [ConditionVariable::wait(FastMutex&)], [signal] and [broadcast]. *)
Definition cv_wait := pthread_cond_wait.
Definition cv_signal := signal true.
Definition cv_broadcast := broadcast true.

(** *** Executions *)

(** [Wakeup]: another thread wakes [t] for a reason of its own.  [Return]: the
    function whose variable is at [n] returns. *)
Inductive op :=
| Lock (n p : positive) | LockToDepth (n p : positive) (d : Z) | Resume (p : positive) | ResumeToDepth (p : positive) (d : Z)
| TryLock (p : positive) | Unlock (p : positive) | CondWait (n p : positive)
| Signal (cv : bool) (cur : positive) | Broadcast (cv : bool) (cur : positive) | Wakeup (t : positive) | Return (n : positive).

Definition of_bool (r : exec (bool * world)) : exec (Z * world) := '(b, w) ← r; Done (Z.b2z b, w).

Definition run_op (o : op) (w : world) : exec (Z * world) :=
  match o with
  | Lock n p => of_bool (IRQdoMutexLock n p w)
  | LockToDepth n p d => of_bool (IRQdoMutexLockToDepth n p d w)
  | Resume p => of_bool (wait_turn p w)
  | ResumeToDepth p d => of_bool (wait_turn_depth p d w)
  | TryLock p => of_bool (Done (pthread_mutex_trylock p w))
  | Unlock p => of_bool (IRQdoMutexUnlock p w)
  | CondWait n p => pthread_cond_wait n p w
  | Signal cv cur => of_bool (if cv then cv_signal cur w else pthread_cond_signal cur w)
  | Broadcast cv cur => of_bool (if cv then cv_broadcast cur w else pthread_cond_broadcast cur w)
  | Wakeup t => w ← flag t (ThreadFlags.IRQsetWait false) w; Done (0, w)
  | Return n => Done (0, World (mutex w) (cond w) (delete n (stacks w)) (heap w))
  end.

Fixpoint run_ops (os : list op) (w : world) : exec (list Z * world) :=
  match os with
  | [] => Done ([], w)
  | o :: os => '(r, w) ← run_op o w; '(rs, w) ← run_ops os w; Done (r :: rs, w)
  end.

(** *** The specification: an owner, a depth and two queues *)

Record spec := Spec {
  own : option positive;
  depth : Z;
  mwait : list (positive * positive);
  cwait : list (positive * positive);
  live : gset positive;
}.

Definition to_depth (d depth : Z) : Z := if 0 <=? depth then s32 d else depth.
Definition outranked (prio : positive -> Z) (cur t : positive) : bool := urgency (prio cur) <? urgency (prio t).

Definition spec_wait (n p : positive) (s : spec) : spec :=
  Spec (own s) (depth s) (mwait s ++ [(n, p)]) (cwait s) ({[n]} ∪ live s).
Definition spec_pass (s : spec) : spec :=
  match mwait s with
  | [] => Spec None (depth s) [] (cwait s) (live s)
  | (_, t) :: r => Spec (Some t) (depth s) r (cwait s) (live s)
  end.
Definition with_depth (d : Z) (s : spec) : spec := Spec (own s) d (mwait s) (cwait s) (live s).
Definition with_own (o : option positive) (s : spec) : spec := Spec o (depth s) (mwait s) (cwait s) (live s).

Definition spec_op (prio : positive -> Z) (o : op) (s : spec) : Z * spec :=
  match o with
  | Lock n p =>
      match own s with
      | None => (1, with_own (Some p) s)
      | Some o => if bool_decide (o = p) then (1, with_depth (s32 (depth s + 1)) s) else (0, spec_wait n p s)
      end
  | LockToDepth n p d =>
      match own s with
      | None => (1, with_depth (to_depth d (depth s)) (with_own (Some p) s))
      | Some o => if bool_decide (o = p) then (1, with_depth (s32 d) s) else (0, spec_wait n p s)
      end
  | Resume p => (Z.b2z (bool_decide (own s = Some p)), s)
  | ResumeToDepth p d =>
      if bool_decide (own s = Some p) then (1, with_depth (to_depth d (depth s)) s) else (0, s)
  | TryLock p =>
      match own s with
      | None => (1, with_own (Some p) s)
      | Some o => if bool_decide (o = p) && (0 <=? depth s) then (1, with_depth (s32 (depth s + 1)) s) else (0, s)
      end
  | Unlock p =>
      if 0 <? depth s then (0, with_depth (s32 (depth s - 1)) s)
      else (match mwait s with [] => 0 | (_, t) :: _ => Z.b2z (negb edf && outranked prio p t) end, spec_pass s)
  | CondWait n p =>
      let s' := spec_pass (Spec (own s) (depth s) (mwait s) (cwait s ++ [(n, p)]) ({[n]} ∪ live s)) in
      if depth s <? 0 then (0, s') else (u32 (depth s), with_depth 0 s')
  | Signal cv cur =>
      match cwait s with
      | [] => (0, s)
      | (_, t) :: r => (Z.b2z ((cv || edf) && outranked prio cur t), Spec (own s) (depth s) (mwait s) r (live s))
      end
  | Broadcast cv cur =>
      (Z.b2z ((cv || edf) && existsb (outranked prio cur) (cwait s).*2), Spec (own s) (depth s) (mwait s) [] (live s))
  | Wakeup t => (0, s)
  | Return n => (0, Spec (own s) (depth s) (mwait s) (cwait s) (live s ∖ {[n]}))
  end.

Fixpoint spec_ops (prio : positive -> Z) (os : list op) (s : spec) : list Z * spec :=
  match os with
  | [] => ([], s)
  | o :: os => let '(r, s) := spec_op prio o s in let '(rs, s) := spec_ops prio os s in (r :: rs, s)
  end.

(** [p] runs: it is in neither queue. *)
Definition runs (p : positive) (s : spec) : bool :=
  bool_decide (p ∉ (mwait s).*2) && bool_decide (p ∉ (cwait s).*2).

(** How the functions may be called: by threads that run, not to lock again a
    mutex that is not recursive, only the owner unlocks or waits, and no
    function returns while its variable is queued. *)
Definition op_ok (users : gset positive) (o : op) (s : spec) : bool :=
  match o with
  | Lock n p | LockToDepth n p _ =>
      bool_decide (p ∈ users) && bool_decide (n ∉ live s) && runs p s && (negb (bool_decide (own s = Some p)) || (0 <=? depth s))
  | Resume p | ResumeToDepth p _ => bool_decide (p ∈ users) && (bool_decide (p ∈ (mwait s).*2) || bool_decide (own s = Some p))
  | TryLock p => bool_decide (p ∈ users) && runs p s
  | Unlock p => bool_decide (p ∈ users) && bool_decide (own s = Some p)
  | CondWait n p => bool_decide (p ∈ users) && bool_decide (n ∉ live s) && bool_decide (own s = Some p) && runs p s
  | Signal _ cur | Broadcast _ cur | Wakeup cur => bool_decide (cur ∈ users)
  | Return n => bool_decide (n ∉ (mwait s).*1) && bool_decide (n ∉ (cwait s).*1)
  end.

Fixpoint ops_ok (prio : positive -> Z) (users : gset positive) (os : list op) (s : spec) : bool :=
  match os with
  | [] => true
  | o :: os => op_ok users o s && ops_ok prio users os (spec_op prio o s).2
  end.

(** *** Refinement *)

(** What the queues say of the threads, spurious wakeups apart. *)
Definition thread_ok (prio : positive -> Z) (h : threads) (mw cw : list (positive * positive)) (t : positive) : Prop :=
  exists th, h !! t = Some th /\ ThreadFlags.valid (flags th) /\ priority th = prio t /\
    ThreadFlags.isWaitingCond (flags th) = bool_decide (t ∈ cw.*2) /\
    (ThreadFlags.isWaiting (flags th) = true -> t ∈ mw.*2).

Record rep (prio : positive -> Z) (users : gset positive) (w : world) (s : spec) : Prop := Rep {
  rep_owner : owner (mutex w) = own s;
  rep_depth : recursive (mutex w) = depth s;
  rep_mwait : holds (stacks w) (waiters (mutex w)) (mwait s);
  rep_cwait : holds (stacks w) (cond w) (cwait s);
  rep_live : dom (stacks w) = live s;
  rep_nodes : (mwait s).*1 ## (cwait s).*1;
  rep_mlive : forall n, n ∈ (mwait s).*1 -> n ∈ live s;
  rep_clive : forall n, n ∈ (cwait s).*1 -> n ∈ live s;
  rep_mthreads : NoDup (mwait s).*2;
  rep_cthreads : NoDup (cwait s).*2;
  rep_musers : forall t, t ∈ (mwait s).*2 -> t ∈ users;
  rep_cusers : forall t, t ∈ (cwait s).*2 -> t ∈ users;
  rep_own : forall p, own s = Some p -> p ∉ (mwait s).*2;
  rep_free : own s = None -> mwait s = [];
  rep_users : forall t, t ∈ users -> thread_ok prio (heap w) (mwait s) (cwait s) t;
}.

Lemma flag_spec t f w th : heap w !! t = Some th ->
  flag t f w = Done (World (mutex w) (cond w) (stacks w) (<[t := set_flags f th]> (heap w))).
Proof. intros Ht. unfold flag. by rewrite (store_Some _ _ _ _ Ht). Qed.

Lemma higher_spec prio h mw cw (users : gset positive) cur t :
  (forall t, t ∈ users -> thread_ok prio h mw cw t) -> cur ∈ users -> t ∈ users ->
  higher cur t h = Done (outranked prio cur t).
Proof.
  intros Hu Hc Ht. destruct (Hu cur Hc) as (tc & Hcur & _ & Hpc & _), (Hu t Ht) as (tt & Htt & _ & Hpt & _).
  unfold higher, outranked. rewrite (getPriority_reads _ _ _ Hcur), (getPriority_reads _ _ _ Htt).
  cbn [mbind outcome_bind]. by rewrite less_urgency, Hpc, Hpt.
Qed.

(** The thread marked as waiting, or not, for the mutex. *)
Lemma thread_ok_wait prio h mw mw' cw t u th b :
  h !! t = Some th -> thread_ok prio h mw cw u -> (b = true -> t ∈ mw'.*2) -> (u <> t -> u ∈ mw.*2 -> u ∈ mw'.*2) ->
  thread_ok prio (<[t := set_flags (ThreadFlags.IRQsetWait b) th]> h) mw' cw u.
Proof.
  intros Ht (tu & Hu & Hv & Hp & Hcw & Hw) Hb Hsub. destruct (decide (u = t)) as [->|Hne].
  - assert (tu = th) as -> by congruence. eexists. rewrite lookup_insert_eq. split; [done|]. simpl.
    destruct (ThreadFlags.IRQsetWait_valid b (flags th) Hv) as [Hv' Hw']. split; [done|]. split; [done|].
    rewrite ThreadFlags.IRQsetWait_cond by done. split; [done|]. by rewrite Hw'.
  - exists tu. rewrite lookup_insert_ne by done. split_and!; [done|done|done|done|]. auto.
Qed.

(** ... for the condition variable. *)
Lemma thread_ok_cond prio h mw cw cw' t u th b :
  h !! t = Some th -> thread_ok prio h mw cw u -> b = bool_decide (t ∈ cw'.*2) -> (u <> t -> u ∈ cw.*2 <-> u ∈ cw'.*2) ->
  thread_ok prio (<[t := set_flags (ThreadFlags.IRQsetCondWait b) th]> h) mw cw' u.
Proof.
  intros Ht (tu & Hu & Hv & Hp & Hcw & Hw) Hb Hsub. destruct (decide (u = t)) as [->|Hne].
  - assert (tu = th) as -> by congruence. eexists. rewrite lookup_insert_eq. split; [done|]. simpl.
    destruct (ThreadFlags.IRQsetCondWait_valid b (flags th) Hv) as (Hv' & Hc' & Hw').
    split; [done|]. split; [done|]. by rewrite Hc', Hw', Hb.
  - exists tu. rewrite lookup_insert_ne by done. split_and!; [done|done|done| |done].
    rewrite Hcw. apply bool_decide_ext. by apply Hsub.
Qed.

Lemma rep_wait_turn prio users w s p :
  rep prio users w s -> p ∈ users -> (own s <> Some p -> p ∈ (mwait s).*2) ->
  exists w', wait_turn p w = Done (bool_decide (own s = Some p), w') /\ rep prio users w' s /\
    recursive (mutex w') = recursive (mutex w).
Proof.
  intros Hr Hp Hin. unfold wait_turn. rewrite (rep_owner _ _ _ _ Hr). case_bool_decide as Ho.
  - exists w. by split_and!.
  - destruct (rep_users _ _ _ _ Hr p Hp) as (th & Hth & _). rewrite (flag_spec _ _ _ _ Hth). cbn [mbind outcome_bind].
    eexists. split; [done|]. split; [|done]. destruct Hr. split; try done. simpl. intros u Hu.
    apply (thread_ok_wait prio (heap w) (mwait s)); auto.
Qed.

(** Joining the queue of the mutex. *)
Lemma rep_push_waiter prio users w s n p :
  rep prio users w s -> p ∈ users -> n ∉ live s -> p ∉ (mwait s).*2 -> own s <> None -> own s <> Some p ->
  exists w', push_waiter n p w = Done w' /\ rep prio users w' (spec_wait n p s).
Proof.
  intros Hr Hp Hn Hpm Ho Hop. destruct Hr. unfold push_waiter.
  assert (Hnm : n ∉ (mwait s).*1) by eauto. assert (Hnc : n ∉ (cwait s).*1) by eauto.
  destruct (enqueue_spec n p _ _ _ rep_mwait0 Hnm) as (q' & ns' & -> & Hq' & Hframe & Hdom).
  cbn [mbind outcome_bind]. eexists. split; [done|]. split; simpl; try done.
  - eapply holds_frame; [|exact rep_cwait0]. intros m Hm. apply Hframe; [set_solver|]. by intros ->.
  - apply set_eq. intros m. rewrite elem_of_dom, Hdom, elem_of_union, elem_of_singleton, <- rep_live0, elem_of_dom. done.
  - rewrite fmap_app. simpl. set_solver.
  - intros m. rewrite fmap_app. simpl. set_solver.
  - set_solver.
  - rewrite fmap_app. apply NoDup_app. split; [done|]. split; [|apply NoDup_singleton]. simpl. set_solver.
  - intros t. rewrite fmap_app. simpl. set_solver.
  - intros q Hq. rewrite fmap_app. simpl. rewrite not_elem_of_app. split; [by apply rep_own0|]. set_solver.
  - intros t Ht. destruct (rep_users0 t Ht) as (th & ? & ? & ? & ? & Hw). exists th. split_and!; try done.
    intros Hx%Hw. rewrite fmap_app. set_solver.
Qed.

(** The mutex is handed on, or free. *)
Lemma rep_pass prio users w s :
  rep prio users w s ->
  match first (waiters (mutex w)) with
  | Some f => exists n t r w', mwait s = (n, t) :: r /\ t ∈ users /\ pass_on f w = Done (t, w') /\ rep prio users w' (spec_pass s)
  | None => mwait s = [] /\ rep prio users (set_owner None w) (spec_pass s)
  end.
Proof.
  intros Hr. pose proof Hr as []. unfold spec_pass. destruct (mwait s) as [|[n t] r] eqn:Em.
  - pose proof (holds_linked _ _ _ rep_mwait0) as Hl. simpl in Hl. rewrite Hl. split; [done|].
    split; simpl; done.
  - destruct (dequeue_spec n t r _ _ rep_mwait0) as (q' & -> & Hdq & Hq').
    assert (Ht : t ∈ users) by (apply rep_musers0; by left).
    destruct (rep_users0 t Ht) as (th & Hth & _).
    unfold pass_on. rewrite Hdq. cbn [mbind outcome_bind]. rewrite (flag_spec _ _ _ _ Hth). cbn [mbind outcome_bind].
    simpl in rep_mthreads0. apply NoDup_cons in rep_mthreads0 as [Htr Hnd].
    eexists n, t, r, _. split; [done|]. split; [done|]. split; [done|]. split; simpl; try done.
    + set_solver.
    + intros m Hm. apply rep_mlive0. by right.
    + intros u Hu. apply rep_musers0. by right.
    + by intros p [= <-].
    + intros u Hu. apply (thread_ok_wait prio (heap w) ((n, t) :: r)); auto; [done|]. simpl. intros Hne Hin. set_solver.
Qed.

Lemma rep_with_depth prio users w s d :
  rep prio users w s -> rep prio users (set_recursive d w) (with_depth d s).
Proof. intros []. by split. Qed.

Lemma rep_with_own prio users w s p :
  rep prio users w s -> own s = None -> rep prio users (set_owner (Some p) w) (with_own (Some p) s).
Proof.
  intros [] Ho. specialize (rep_free0 Ho). split; try done. simpl. intros q _. rewrite rep_free0. apply not_elem_of_nil.
Qed.

Lemma rep_to_depth prio users w s d :
  rep prio users w s ->
  rep prio users (if 0 <=? recursive (mutex w) then set_recursive (s32 d) w else w) (with_depth (to_depth d (depth s)) s).
Proof.
  intros Hr. rewrite (rep_depth _ _ _ _ Hr). unfold to_depth. destruct (0 <=? depth s); [by apply rep_with_depth|].
  destruct Hr. by split.
Qed.

Lemma rep_unlock prio users w s p :
  rep prio users w s -> p ∈ users ->
  exists b w', IRQdoMutexUnlock p w = Done (b, w') /\ rep prio users w' (spec_op prio (Unlock p) s).2 /\
    Z.b2z b = (spec_op prio (Unlock p) s).1.
Proof.
  intros Hr Hp. unfold IRQdoMutexUnlock. rewrite (rep_depth _ _ _ _ Hr). simpl. destruct (0 <? depth s).
  - eexists _, _. split; [done|]. split; [by apply rep_with_depth|done].
  - pose proof (rep_pass _ _ _ _ Hr) as Hpass. destruct (first (waiters (mutex w))) as [f|].
    + destruct Hpass as (n & t & r & w' & Em & Ht & -> & Hr'). cbn [mbind outcome_bind]. rewrite Em. destruct edf; simpl.
      * eauto 6.
      * rewrite (higher_spec _ _ _ _ _ p t (rep_users _ _ _ _ Hr') Hp Ht). simpl. eauto 6.
    + destruct Hpass as [Em Hr']. rewrite Em. simpl. eauto 6.
Qed.

Lemma rep_unlock_all prio users w s :
  rep prio users w s ->
  exists w', IRQdoMutexUnlockAllDepthLevels w = Done (if depth s <? 0 then 0 else u32 (depth s), w') /\
    rep prio users w' (if depth s <? 0 then spec_pass s else with_depth 0 (spec_pass s)).
Proof.
  intros Hr. unfold IRQdoMutexUnlockAllDepthLevels. pose proof (rep_pass _ _ _ _ Hr) as Hpass.
  assert (Hd : forall w', rep prio users w' (spec_pass s) -> recursive (mutex w') = depth s).
  { intros w' Hr'. rewrite (rep_depth _ _ _ _ Hr'). unfold spec_pass. by destruct (mwait s) as [|[? ?] ?]. }
  assert (exists w1, match first (waiters (mutex w)) with
      | Some f => '(_, w) ← pass_on f w; Done w | None => Done (set_owner None w) end = Done w1 /\ rep prio users w1 (spec_pass s))
    as (w1 & -> & Hr1).
  { destruct (first (waiters (mutex w))) as [f|].
    - destruct Hpass as (n & t & r & w' & _ & _ & -> & Hr'). simpl. eauto.
    - destruct Hpass as [_ Hr']. eauto. }
  cbn [mbind outcome_bind]. rewrite (Hd _ Hr1). destruct (depth s <? 0); [eauto|]. eexists. split; [done|].
  by apply rep_with_depth.
Qed.

(** Joining the queue of the condition variable. *)
Lemma rep_cond_wait prio users w s n p :
  rep prio users w s -> p ∈ users -> n ∉ live s -> p ∉ (cwait s).*2 ->
  exists w', pthread_cond_wait n p w = Done ((spec_op prio (CondWait n p) s).1, w') /\
    rep prio users w' (spec_op prio (CondWait n p) s).2.
Proof.
  intros Hr Hp Hn Hpc. pose proof Hr as []. unfold pthread_cond_wait.
  assert (Hnm : n ∉ (mwait s).*1) by eauto. assert (Hnc : n ∉ (cwait s).*1) by eauto.
  destruct (enqueue_spec n p _ _ _ rep_cwait0 Hnc) as (q' & ns' & -> & Hq' & Hframe & Hdom). cbn [mbind outcome_bind].
  destruct (rep_users0 p Hp) as (th & Hth & _). rewrite (flag_spec p _ (World (mutex w) q' ns' (heap w)) th Hth). cbn [mbind outcome_bind].
  set (s1 := Spec (own s) (depth s) (mwait s) (cwait s ++ [(n, p)]) ({[n]} ∪ live s)).
  assert (Hr1 : rep prio users (World (mutex w) q' ns' (<[p := set_flags (ThreadFlags.IRQsetCondWait true) th]> (heap w))) s1).
  { split; simpl; try done.
    - eapply holds_frame; [|exact rep_mwait0]. intros m Hm. apply Hframe; [set_solver|]. by intros ->.
    - apply set_eq. intros m. rewrite elem_of_dom, Hdom, elem_of_union, elem_of_singleton, <- rep_live0, elem_of_dom. done.
    - rewrite fmap_app. simpl. set_solver.
    - set_solver.
    - intros m. rewrite fmap_app. simpl. set_solver.
    - rewrite fmap_app. apply NoDup_app. split; [done|]. split; [|apply NoDup_singleton]. simpl. set_solver.
    - intros t. rewrite fmap_app. simpl. set_solver.
    - intros t Ht. apply (thread_ok_cond prio (heap w) _ (cwait s)); auto; rewrite fmap_app; simpl.
      + symmetry. apply bool_decide_eq_true_2. set_solver.
      + intros Hne. set_solver. }
  destruct (rep_unlock_all _ _ _ _ Hr1) as (w' & Hrun & Hr'). exists w'. cbn [spec_op]. fold s1.
  change (depth s1) with (depth s) in *. destruct (depth s <? 0); by split.
Qed.

(** The first thread of the condition variable woken. *)
Lemma rep_wake_first prio users w s check cur n t r :
  rep prio users w s -> cur ∈ users -> cwait s = (n, t) :: r ->
  exists w', first (cond w) = Some n /\ wake_first check cur n w = Done (check && outranked prio cur t, w') /\
    rep prio users w' (Spec (own s) (depth s) (mwait s) r (live s)) /\ dom (stacks w') = dom (stacks w).
Proof.
  intros Hr Hc Ec. pose proof Hr as []. rewrite Ec in *.
  destruct (dequeue_spec n t r _ _ rep_cwait0) as (q' & -> & Hdq & Hq').
  assert (Ht : t ∈ users) by (apply rep_cusers0; by left). destruct (rep_users0 t Ht) as (th & Hth & _).
  unfold wake_first. rewrite Hdq. cbn [mbind outcome_bind]. rewrite (flag_spec _ _ _ _ Hth). cbn [mbind outcome_bind heap].
  simpl in rep_cthreads0. apply NoDup_cons in rep_cthreads0 as [Htr Hnd].
  assert (Husers : forall u, u ∈ users -> thread_ok prio (<[t := set_flags (ThreadFlags.IRQsetCondWait false) th]> (heap w)) (mwait s) r u).
  { intros u Hu. apply (thread_ok_cond prio (heap w) _ ((n, t) :: r)); auto; [by rewrite bool_decide_eq_false_2|].
    simpl. intros Hne. set_solver. }
  assert (Hcheck : (if check then higher cur t (<[t := set_flags (ThreadFlags.IRQsetCondWait false) th]> (heap w)) else Done false)
    = Done (check && outranked prio cur t)).
  { destruct check; [|done]. by apply (higher_spec _ _ _ _ _ cur t Husers). }
  rewrite Hcheck. cbn [mbind outcome_bind]. eexists. split; [done|]. split; [done|]. split; [|done]. split; simpl; try done.
  - set_solver.
  - intros m Hm. apply rep_clive0. by right.
  - intros u Hu. apply rep_cusers0. by right.
Qed.

Lemma rep_first_cond prio users w s : rep prio users w s -> cwait s = [] -> first (cond w) = None.
Proof. intros Hr Ec. pose proof (holds_linked _ _ _ (rep_cwait _ _ _ _ Hr)) as Hl. by rewrite Ec in Hl. Qed.

Lemma rep_wake_all prio users check cur fuel hppw w s :
  rep prio users w s -> cur ∈ users -> (length (cwait s) < fuel)%nat ->
  exists w', wake_all fuel check cur hppw w = Done (hppw || check && existsb (outranked prio cur) (cwait s).*2, w') /\
    rep prio users w' (Spec (own s) (depth s) (mwait s) [] (live s)).
Proof.
  intros Hr Hc. remember (cwait s) as xs eqn:Ec. symmetry in Ec. revert fuel hppw w s Hr Ec.
  induction xs as [|[n t] r IH]; intros fuel hppw w s Hr Ec Hf; (destruct fuel as [|fuel]; [simpl in Hf; lia|]); simpl.
  - rewrite (rep_first_cond _ _ _ _ Hr Ec), andb_false_r, orb_false_r. exists w. split; [done|]. rewrite <- Ec. by destruct s.
  - destruct (rep_wake_first prio users w s check cur n t r Hr Hc Ec) as (w1 & -> & -> & Hr1 & _). cbn [mbind outcome_bind].
    destruct (IH fuel (if check && outranked prio cur t then true else hppw) w1 _ Hr1 eq_refl) as (w' & -> & Hr'); [simpl in Hf; lia|].
    exists w'. split; [|done]. do 2 f_equal. by destruct check, hppw, (outranked prio cur t).
Qed.

Lemma rep_broadcast prio users check cur w s :
  rep prio users w s -> cur ∈ users ->
  exists w', broadcast check cur w = Done (check && existsb (outranked prio cur) (cwait s).*2, w') /\
    rep prio users w' (Spec (own s) (depth s) (mwait s) [] (live s)).
Proof.
  intros Hr Hc. apply (rep_wake_all prio users check cur _ false w s Hr Hc).
  assert (length (cwait s) <= size (stacks w))%nat; [|lia].
  rewrite <- size_dom, <- (length_fmap fst), <- (size_list_to_set (C := gset positive)) by apply (rep_cwait _ _ _ _ Hr).
  apply subseteq_size. intros n Hn. apply elem_of_list_to_set in Hn. rewrite (rep_live _ _ _ _ Hr). by eapply rep_clive.
Qed.

Lemma rep_signal prio users check cur w s :
  rep prio users w s -> cur ∈ users ->
  exists b w', signal check cur w = Done (b, w') /\
    Z.b2z b = match cwait s with [] => 0 | (_, t) :: _ => Z.b2z (check && outranked prio cur t) end /\
    rep prio users w' (match cwait s with [] => s | _ :: r => Spec (own s) (depth s) (mwait s) r (live s) end).
Proof.
  intros Hr Hc. unfold signal. destruct (cwait s) as [|[n t] r] eqn:Ec.
  - rewrite (rep_first_cond _ _ _ _ Hr Ec). eauto 6.
  - destruct (rep_wake_first prio users w s check cur n t r Hr Hc Ec) as (w1 & -> & -> & Hr1 & _). eauto 6.
Qed.

Lemma rep_return prio users w s n :
  rep prio users w s -> n ∉ (mwait s).*1 -> n ∉ (cwait s).*1 ->
  rep prio users (World (mutex w) (cond w) (delete n (stacks w)) (heap w))
    (Spec (own s) (depth s) (mwait s) (cwait s) (live s ∖ {[n]})).
Proof.
  intros [] Hm Hc. split; simpl; try done.
  - eapply holds_frame; [|exact rep_mwait0]. intros m Hm'. rewrite lookup_delete_ne; [done|]. by intros ->.
  - eapply holds_frame; [|exact rep_cwait0]. intros m Hm'. rewrite lookup_delete_ne; [done|]. by intros ->.
  - rewrite dom_delete_L. by rewrite rep_live0.
  - set_solver.
  - set_solver.
Qed.

Lemma of_bool_Done b w : of_bool (Done (b, w)) = Done (Z.b2z b, w).
Proof. done. Qed.

Lemma rep_lock prio users w s n p :
  rep prio users w s -> op_ok users (Lock n p) s = true ->
  exists w', of_bool (IRQdoMutexLock n p w) = Done ((spec_op prio (Lock n p) s).1, w') /\ rep prio users w' (spec_op prio (Lock n p) s).2.
Proof.
  intros Hr. simpl. rewrite !andb_true_iff, !bool_decide_eq_true, orb_true_iff, negb_true_iff, bool_decide_eq_false.
  unfold runs. rewrite andb_true_iff, !bool_decide_eq_true. intros (((Hp & Hn) & Hpm & Hpc) & Hd).
  unfold IRQdoMutexLock. rewrite (rep_owner _ _ _ _ Hr), (rep_depth _ _ _ _ Hr). destruct (own s) as [o|] eqn:Ho.
  - destruct (bool_decide_reflect (o = p)) as [->|Hop].
    + destruct Hd as [Hd| ->]; [done|]. eexists. split; [done|]. by apply rep_with_depth.
    + destruct (rep_push_waiter _ _ _ _ n p Hr Hp Hn Hpm) as (w1 & -> & Hr1); [congruence..|]. cbn [mbind outcome_bind].
      destruct (rep_wait_turn _ _ _ _ p Hr1 Hp) as (w2 & -> & Hr2 & _).
      { intros _. simpl. rewrite fmap_app. set_solver. }
      exists w2. split; [|done]. simpl. by rewrite Ho, bool_decide_eq_false_2 by congruence.
  - eexists. split; [done|]. by apply rep_with_own.
Qed.

Lemma rep_wait_turn_depth prio users w s p d :
  rep prio users w s -> p ∈ users -> (own s <> Some p -> p ∈ (mwait s).*2) ->
  exists w', wait_turn_depth p d w = Done (bool_decide (own s = Some p), w') /\
    rep prio users w' (if bool_decide (own s = Some p) then with_depth (to_depth d (depth s)) s else s).
Proof.
  intros Hr Hp Hin. unfold wait_turn_depth. destruct (rep_wait_turn _ _ _ _ p Hr Hp Hin) as (w1 & -> & Hr1 & _).
  cbn [mbind outcome_bind]. eexists. split; [done|]. case_bool_decide; [by apply rep_to_depth|done].
Qed.

Lemma rep_lock_depth prio users w s n p d :
  rep prio users w s -> op_ok users (LockToDepth n p d) s = true ->
  exists w', of_bool (IRQdoMutexLockToDepth n p d w) = Done ((spec_op prio (LockToDepth n p d) s).1, w') /\
    rep prio users w' (spec_op prio (LockToDepth n p d) s).2.
Proof.
  intros Hr. simpl. rewrite !andb_true_iff, !bool_decide_eq_true, orb_true_iff, negb_true_iff, bool_decide_eq_false.
  unfold runs. rewrite andb_true_iff, !bool_decide_eq_true. intros (((Hp & Hn) & Hpm & Hpc) & Hd).
  unfold IRQdoMutexLockToDepth. rewrite (rep_owner _ _ _ _ Hr). destruct (own s) as [o|] eqn:Ho.
  - destruct (bool_decide_reflect (o = p)) as [->|Hop].
    + rewrite (rep_depth _ _ _ _ Hr). destruct Hd as [Hd| ->]; [done|]. eexists. split; [done|]. by apply rep_with_depth.
    + destruct (rep_push_waiter _ _ _ _ n p Hr Hp Hn Hpm) as (w1 & -> & Hr1); [congruence..|]. cbn [mbind outcome_bind].
      destruct (rep_wait_turn_depth _ _ _ _ p d Hr1 Hp) as (w2 & -> & Hr2).
      { intros _. simpl. rewrite fmap_app. set_solver. }
      simpl in Hr2 |- *. rewrite Ho, bool_decide_eq_false_2 in Hr2 |- * by congruence. eauto.
  - eexists. split; [done|]. apply (rep_to_depth prio users (set_owner (Some p) w) (with_own (Some p) s)). by apply rep_with_own.
Qed.

Lemma monitor_op_refines prio users o w s :
  rep prio users w s -> op_ok users o s = true ->
  exists w', run_op o w = Done ((spec_op prio o s).1, w') /\ rep prio users w' (spec_op prio o s).2.
Proof.
  intros Hr Hok. destruct o as [n p|n p d|p|p d|p|p|n p|cv cur|cv cur|t|n]; cbn [run_op].
  - by apply rep_lock.
  - by apply rep_lock_depth.
  - simpl in Hok |- *. rewrite andb_true_iff, orb_true_iff, !bool_decide_eq_true in Hok. destruct Hok as [Hp Hin].
    destruct (rep_wait_turn _ _ _ _ p Hr Hp) as (w' & -> & Hr' & _); [tauto|]. eauto.
  - simpl in Hok |- *. rewrite andb_true_iff, orb_true_iff, !bool_decide_eq_true in Hok. destruct Hok as [Hp Hin].
    destruct (rep_wait_turn_depth _ _ _ _ p d Hr Hp) as (w' & -> & Hr'); [tauto|]. simpl. case_bool_decide; eauto.
  - simpl. unfold pthread_mutex_trylock. rewrite (rep_owner _ _ _ _ Hr), (rep_depth _ _ _ _ Hr). destruct (own s) as [o|] eqn:Ho.
    + destruct (bool_decide (o = p) && (0 <=? depth s)); eexists; (split; [done|]); [by apply rep_with_depth|done].
    + eexists. split; [done|]. by apply rep_with_own.
  - simpl in Hok. rewrite andb_true_iff, !bool_decide_eq_true in Hok. destruct Hok as [Hp _].
    destruct (rep_unlock prio users w s p Hr Hp) as (b & w' & -> & Hr' & Hb). exists w'. by rewrite of_bool_Done, Hb.
  - simpl in Hok. unfold runs in Hok. rewrite !andb_true_iff, !bool_decide_eq_true in Hok. destruct Hok as (((Hp & Hn) & _) & _ & Hpc).
    by apply rep_cond_wait.
  - simpl in Hok. apply bool_decide_eq_true in Hok.
    assert (Hcv : (if cv then cv_signal cur w else pthread_cond_signal cur w) = signal (cv || edf) cur w) by (by destruct cv).
    rewrite Hcv. destruct (rep_signal prio users (cv || edf) cur w s Hr Hok) as (b & w' & -> & Hb & Hr').
    exists w'. rewrite of_bool_Done, Hb. simpl. by destruct (cwait s) as [|[? ?] ?].
  - simpl in Hok. apply bool_decide_eq_true in Hok.
    assert (Hcv : (if cv then cv_broadcast cur w else pthread_cond_broadcast cur w) = broadcast (cv || edf) cur w) by (by destruct cv).
    rewrite Hcv. destruct (rep_broadcast prio users (cv || edf) cur w s Hr Hok) as (w' & -> & Hr'). by exists w'.
  - simpl in Hok |- *. apply bool_decide_eq_true in Hok. destruct (rep_users _ _ _ _ Hr t Hok) as (th & Hth & _).
    rewrite (flag_spec _ _ _ _ Hth). cbn [mbind outcome_bind]. eexists. split; [done|]. destruct Hr. split; try done. simpl.
    intros u Hu. apply (thread_ok_wait prio (heap w) (mwait s)); auto. done.
  - simpl in Hok |- *. rewrite andb_true_iff, !bool_decide_eq_true in Hok. destruct Hok as [Hm Hc].
    eexists. split; [done|]. by apply rep_return.
Qed.

Lemma monitor_ops_refine prio users os w s :
  rep prio users w s -> ops_ok prio users os s = true ->
  exists w', run_ops os w = Done ((spec_ops prio os s).1, w') /\ rep prio users w' (spec_ops prio os s).2.
Proof.
  revert w s. induction os as [|o os IH]; intros w s Hr; simpl; [eauto|]. intros [Hok Hoks]%andb_prop.
  destruct (monitor_op_refines prio users o w s Hr Hok) as (w1 & -> & Hr1). cbn [mbind outcome_bind].
  destruct (spec_op prio o s) as [r s1]. cbn [fst snd] in *. destruct (IH w1 s1 Hr1 Hoks) as (w' & -> & Hr').
  destruct (spec_ops prio os s1) as [rs s2]. simpl. eauto.
Qed.

End monitor.

#[local] Existing Instance PriorityScheduler.PriorityScheduler.ops.
#[local] Existing Instance PriorityScheduler.PriorityScheduler.scheduler.

(** 2 locks, 3 waits; 2 waits for the condition, so 3 gets the mutex, signals
    and unlocks; 2, woken, locks again. *)
Definition ex_ops : list op :=
  [Lock 100 2; Lock 101 3; Wakeup 3; Resume 3; CondWait 102 2; Resume 3; Return 101; Signal true 3; Unlock 3;
   LockToDepth 103 2 0; Return 102; Return 103; Broadcast false 2; Unlock 2].
Definition ex_heap : threads := <[2%positive := new_Thread 1]> {[ 3%positive := new_Thread 0 ]}.
Definition ex_prio (t : positive) : Z := if bool_decide (t = 2%positive) then 1 else 0.


End Monitor.
