(* ===== verification/TimeConv.v ===== *)
(** * Conversion between timer ticks and nanoseconds

    [kernel/timeconversion.h] and [.cpp]: a conversion factor is a 32.32
    fixed point number, and the factor back is adjusted so that a round trip
    gives the initial number.  The single precision floats of the constructor
    are those of the standard library's [SpecFloat] (IEEE 754 binary32). *)
From Stdlib Require Import Floats.SpecFloat.
From S2P Require Import Prelude Errors.

Local Open Scope Z_scope.

Module TimeConv.

Definition mul32x32to64 (a b : Z) : Z := u64 (a * b).
Definition lo (x : Z) : Z := Z.land x 0xffffffff.
Definition hi (x : Z) : Z := Z.shiftr x 32.

Definition mul64x32d32 (a bi bf : Z) : Z :=
  let aLo := lo a in
  let aHi := hi a in
  let result := mul32x32to64 bi aLo in
  let result := u64 (result + mul32x32to64 bf aHi) in
  let bfaLo := mul32x32to64 bf aLo in
  let result := u64 (result + hi bfaLo) in
  u64 (result + u64 (Z.shiftl (u32 (bi * aHi)) 32)).

Definition sign (x : Z) : bool := 0 <=? x.
Definition uabs (x : Z) : Z := u64 (if sign x then x else - x).

(** [class TimeConversionFactor] and its [operator+]. *)
Record TimeConversionFactor := Factor { integerPart : Z; fractionalPart : Z }.
Definition plus (t : TimeConversionFactor) (delta : Z) : TimeConversionFactor :=
  Factor (integerPart t) (u32 (fractionalPart t + delta)).

Definition convert (x : Z) (t : TimeConversionFactor) : Z := mul64x32d32 x (integerPart t) (fractionalPart t).

Record TimeConversion := mkTimeConversion {
  toNs : TimeConversionFactor;
  toTick : TimeConversionFactor;
  adjustIntervalNs : Z;
  lastAdjustTimeNs : Z;
  adjustOffsetNs : Z;
}.

(** The default constructor. *)
Definition new_TimeConversion : TimeConversion :=
  mkTimeConversion (Factor 1 0) (Factor 1 0) (2 ^ 64 - 1) 0 0.

Definition tick2ns (tc : TimeConversion) (tick : Z) : Z := s64 (convert (u64 tick) (toNs tc)).

(** The [for] loop of [ns2tick]: the new time and offset. *)
Fixpoint readjust (n : nat) (tc : TimeConversion) (uns off last : Z) : Z * Z :=
  match n with
  | O => (last, off)
  | S n =>
      let last := convert (convert (u64 (uns + off)) (toTick tc)) (toNs tc) in
      let off := s64 (u64 (uns + off) - last) in
      if uabs (s64 (uns - last)) <? Z.shiftr (adjustIntervalNs tc) 1 then (last, off)
      else readjust n tc uns off last
  end.

Definition ns2tick (tc : TimeConversion) (ns : Z) : Z * TimeConversion :=
  let uns := u64 ns in
  let tc :=
    if adjustIntervalNs tc <? uabs (s64 (uns - lastAdjustTimeNs tc)) then
      let '(last, off) := readjust 5 tc uns 0 (lastAdjustTimeNs tc) in
      mkTimeConversion (toNs tc) (toTick tc) (adjustIntervalNs tc) last off
    else tc in
  (s64 (convert (u64 (uns + adjustOffsetNs tc)) (toTick tc)), tc).

Definition computeRoundTripError (toNs toTick : TimeConversionFactor) (tick delta : Z) : Z :=
  let adjustedToTick := plus toTick delta in
  let ns := convert tick toNs in
  let roundTrip := convert ns adjustedToTick in
  s64 (tick - roundTrip).

(** The binary search: the two deltas and their errors at the end. *)
Fixpoint bisect (n : nat) (err : Z -> Z) (a b ea eb : Z) : exec (Z * Z * Z * Z) :=
  match n with
  | O => Fault OutOfFuel
  | S n =>
      let c := Z.quot (s32 (a + b)) 2 in
      if (c =? a) || (c =? b) then Done (a, b, ea, eb)
      else
        let ec := err c in
        if eqb (sign ea) (sign ec) then bisect n err c b ec eb
        else bisect n err a c ea ec
  end.

(** The loop that halves the interval: at most [n] times. *)
Fixpoint find_interval (n : nat) (err : Z -> Z) (tick interval : Z) : Z :=
  match n with
  | O => interval
  | S n =>
      if uabs (err tick) <? 2 then interval
      else find_interval n err (Z.shiftr tick 1) (Z.shiftr interval 1)
  end.

(** The constructor after the first two factors: the search takes at most
    [search_fuel] turns. *)
Definition search_fuel : nat := 32.

Definition best_delta (toNs toTick : TimeConversionFactor) : exec Z :=
  let longUptimeTick := convert (Z.shiftl 1 62) toTick in
  let err := computeRoundTripError toNs toTick longUptimeTick in
  let aDelta := fractionalPart toTick / 40000 in
  let bDelta := - aDelta in
  let aError := err aDelta in
  let bError := err bDelta in
  '(aDelta, bDelta, aError, bError) ←
    (if negb (eqb (sign aError) (sign bError)) then bisect search_fuel err aDelta bDelta aError bError
     else Done (aDelta, bDelta, aError, bError));
  Done (if uabs aError <? uabs bError then aDelta else bDelta).

Definition tune (toNs toTick : TimeConversionFactor) : exec TimeConversion :=
  delta ← best_delta toNs toTick;
  let toTick := plus toTick delta in
  let interval := find_interval 9 (fun tick => computeRoundTripError toNs toTick tick 0)
    (convert 128000000000 toTick) 128000000000 in
  Done (mkTimeConversion toNs toTick (Z.shiftr interval 1) 0 0).

(** *** The constructor, with the floats *)
Definition float (z : Z) : spec_float := binary_normalize 24 128 z 0 false.
Definition fdiv (x y : spec_float) : spec_float := SFdiv 24 128 x y.

(** Conversion to [unsigned int], undefined out of its range. *)
Definition to_unsigned (x : spec_float) : exec Z :=
  match x with
  | S754_zero _ => Done 0
  | S754_finite false m e =>
      let z := if 0 <=? e then Z.shiftl (Zpos m) e else Z.shiftr (Zpos m) (- e) in
      if z <? 2 ^ 32 then Done z else Fault Undefined
  | _ => Fault Undefined
  end.

Definition floatToFactor (x : spec_float) : exec TimeConversionFactor :=
  i ← to_unsigned x;
  f ← to_unsigned (SFmul 24 128 (SFsub 24 128 x (float i)) (float (2 ^ 32)));
  Done (Factor i f).

Definition TimeConversion_hz (hz : Z) : exec TimeConversion :=
  let hzf := float hz in
  toNs ← floatToFactor (fdiv (float 1000000000) hzf);
  toTick ← floatToFactor (fdiv hzf (float 1000000000));
  tune toNs toTick.

(** ** The multiplication *)

(** The fixed point number times 2^32. *)
Definition scaled (t : TimeConversionFactor) : Z := integerPart t * 2 ^ 32 + fractionalPart t.
Definition factor_ok (t : TimeConversionFactor) : Prop := 0 <= integerPart t < 2 ^ 32 /\ 0 <= fractionalPart t < 2 ^ 32.

Lemma lo_mod x : lo x = x mod 2 ^ 32.
Proof. by apply land_ones_mod. Qed.
Lemma hi_div x : hi x = x / 2 ^ 32.
Proof. unfold hi. by rewrite Z.shiftr_div_pow2. Qed.

Lemma u64_add_l a b : u64 (u64 a + b) = u64 (a + b).
Proof. unfold wrapU. by rewrite Zplus_mod_idemp_l. Qed.
Lemma u64_add_r a b : u64 (a + u64 b) = u64 (a + b).
Proof. unfold wrapU. by rewrite Zplus_mod_idemp_r. Qed.

Lemma shift_u32 x : u64 (Z.shiftl (u32 x) 32) = u64 (x * 2 ^ 32).
Proof.
  unfold wrapU. rewrite Z.shiftl_mul_pow2 by lia. change (2 ^ 64) with (2 ^ 32 * 2 ^ 32).
  rewrite !Zmult_mod_distr_r. by rewrite Z.mod_mod by lia.
Qed.

Lemma mul64x32d32_spec a bi bf :
  0 <= a < 2 ^ 64 -> 0 <= bi < 2 ^ 32 -> 0 <= bf < 2 ^ 32 ->
  mul64x32d32 a bi bf = u64 (a * (bi * 2 ^ 32 + bf) / 2 ^ 32).
Proof.
  intros Ha Hbi Hbf. unfold mul64x32d32, mul32x32to64. rewrite lo_mod, !hi_div.
  set (l := a mod 2 ^ 32). set (h := a / 2 ^ 32).
  assert (Hl : 0 <= l < 2 ^ 32) by (apply Z.mod_pos_bound; lia).
  assert (Hah : a = h * 2 ^ 32 + l) by (unfold h, l; pose proof (Z.div_mod a (2 ^ 32)); lia).
  rewrite (wrapU_small 64 (bf * l)) by nia.
  rewrite shift_u32, !u64_add_l, !u64_add_r, <- Z.add_assoc, u64_add_l.
  f_equal.
  replace (a * (bi * 2 ^ 32 + bf)) with ((bi * l + bf * h + bi * h * 2 ^ 32) * 2 ^ 32 + bf * l) by (rewrite Hah; ring).
  rewrite Z.div_add_l by lia. ring.
Qed.

(** C34: the 64 by 32.32 bit multiplication is exact.  For all operands its
    result is the product rounded down to an integer, modulo 2^64; no carry
    between the partial products is lost. *)
Theorem mul64x32d32_exact a bi bf :
  0 <= a < 2 ^ 64 -> 0 <= bi < 2 ^ 32 -> 0 <= bf < 2 ^ 32 ->
  mul64x32d32 a bi bf = (a * (bi * 2 ^ 32 + bf) / 2 ^ 32) mod 2 ^ 64.
Proof. apply mul64x32d32_spec. Qed.

Lemma mul64x32d32_exact_witness : mul64x32d32 (2 ^ 40 + 3) 20 3579139413 = ((2 ^ 40 + 3) * (20 * 2 ^ 32 + 3579139413) / 2 ^ 32) mod 2 ^ 64.
Proof. apply mul64x32d32_exact; lia. Defined.

Lemma convert_spec x t :
  factor_ok t -> 0 <= x < 2 ^ 64 -> x * scaled t < 2 ^ 96 -> convert x t = x * scaled t / 2 ^ 32.
Proof.
  intros [Hi Hf] Hx Hp. unfold convert. rewrite mul64x32d32_spec by done. apply wrapU_small. unfold scaled in *. split.
  - apply Z.div_pos; nia.
  - apply Z.div_lt_upper_bound; lia.
Qed.

Lemma plus_ok t d : factor_ok t -> factor_ok (plus t d).
Proof. intros [Hi Hf]. split; [done|]. apply wrapU_bound. lia. Qed.

(** ** The constructor *)

Lemma quot_mid a b : let c := Z.quot (a + b) 2 in Z.min a b <= c <= Z.max a b /\ 2 * Z.abs (c - a) <= Z.abs (b - a) + 1 /\ 2 * Z.abs (c - b) <= Z.abs (b - a) + 1.
Proof. intros c. unfold c. pose proof (Z.quot_rem (a + b) 2 ltac:(lia)). pose proof (Z.rem_bound_abs (a + b) 2 ltac:(lia)). lia. Qed.

Lemma bisect_S n err a b ea eb :
  bisect (S n) err a b ea eb =
    let c := Z.quot (s32 (a + b)) 2 in
    if (c =? a) || (c =? b) then Done (a, b, ea, eb)
    else if eqb (sign ea) (sign (err c)) then bisect n err c b (err c) eb else bisect n err a c ea (err c).
Proof. done. Qed.

(** The search ends with two deltas whose errors are of opposite signs, with
    nothing between them that the search could try. *)
Lemma bisect_spec n err a b :
  Z.abs (b - a) <= 2 ^ Z.of_nat n -> - 2 ^ 30 <= a < 2 ^ 30 -> - 2 ^ 30 <= b < 2 ^ 30 -> sign (err a) <> sign (err b) ->
  exists a' b', bisect (S n) err a b (err a) (err b) = Done (a', b', err a', err b') /\
    Z.min a b <= a' <= Z.max a b /\ Z.min a b <= b' <= Z.max a b /\
    sign (err a') <> sign (err b') /\ Z.abs (b' - a') <= 1.
Proof.
  revert a b. induction n as [|n IH]; intros a b Hd Ha Hb Hs; rewrite bisect_S; cbv zeta;
    pose proof (quot_mid a b) as (Hc & Hca & Hcb); rewrite (wrapS_small 32 (a + b)) by lia; set (c := Z.quot (a + b) 2) in *.
  - change (2 ^ Z.of_nat 0) with 1 in Hd. assert ((c =? a) || (c =? b) = true) as ->.
    { apply orb_true_iff. rewrite !Z.eqb_eq. lia. }
    exists a, b. split; [done|]. split; [lia|]. split; [lia|]. split; [done|lia].
  - rewrite Nat2Z.inj_succ, Z.pow_succ_r in Hd by lia. assert (0 < 2 ^ Z.of_nat n) by (apply Z.pow_pos_nonneg; lia).
    destruct ((c =? a) || (c =? b)) eqn:Ec.
    + exists a, b. split; [done|]. apply orb_true_iff in Ec. rewrite !Z.eqb_eq in Ec. split; [lia|]. split; [lia|]. split; [done|]. lia.
    + destruct (eqb (sign (err a)) (sign (err c))) eqn:Es.
      * apply eqb_prop in Es. destruct (IH c b) as (a' & b' & Hrun & Hra & Hrb & Hs' & Hd'); [lia|lia|lia|congruence|].
        exists a', b'. split; [exact Hrun|]. split; [lia|]. split; [lia|]. by split.
      * apply eqb_false_iff in Es. destruct (IH a c) as (a' & b' & Hrun & Hra & Hrb & Hs' & Hd'); [lia|lia|lia|done|].
        exists a', b'. split; [exact Hrun|]. split; [lia|]. split; [lia|]. by split.
Qed.

Lemma find_interval_spec n err tick interval :
  exists k, 0 <= k <= Z.of_nat n /\ find_interval n err tick interval = Z.shiftr interval k.
Proof.
  revert tick interval. induction n as [|n IH]; intros tick interval; cbn [find_interval].
  - exists 0. split; [lia|]. by rewrite Z.shiftr_0_r.
  - destruct (uabs (err tick) <? 2).
    + exists 0. split; [lia|]. by rewrite Z.shiftr_0_r.
    + destruct (IH (Z.shiftr tick 1) (Z.shiftr interval 1)) as (k & Hk & ->). exists (1 + k). split; [lia|].
      rewrite Z.shiftr_shiftr by lia. done.
Qed.

Definition longUptimeTick (toTick : TimeConversionFactor) : Z := convert (Z.shiftl 1 62) toTick.

Lemma best_delta_spec toNs toTick :
  factor_ok toTick ->
  let err := computeRoundTripError toNs toTick (longUptimeTick toTick) in
  let max := fractionalPart toTick / 40000 in
  exists delta, best_delta toNs toTick = Done delta /\ - max <= delta <= max /\
    (sign (err max) <> sign (err (- max)) ->
       exists other, Z.abs (other - delta) <= 1 /\ sign (err other) <> sign (err delta) /\ uabs (err delta) <= uabs (err other)).
Proof.
  intros [_ Hf] err max. assert (Hmax : 0 <= max < 2 ^ 29).
  { unfold max. split; [apply Z.div_pos; lia|]. apply Z.div_lt_upper_bound; lia. }
  unfold best_delta. cbv zeta. fold (longUptimeTick toTick). fold err max.
  destruct (eqb (sign (err max)) (sign (err (- max)))) eqn:Es; cbn [negb mbind outcome_bind].
  - apply eqb_prop in Es. eexists. split; [done|]. split; [destruct (_ <? _); lia|]. by rewrite Es.
  - apply eqb_false_iff in Es. change search_fuel with (S 31).
    destruct (bisect_spec 31 err max (- max)) as (a' & b' & -> & Ha & Hb & Hs & Hd); [|lia|lia|done|].
    { change (2 ^ Z.of_nat 31) with 2147483648. lia. }
    cbn [mbind outcome_bind]. eexists. split; [done|]. destruct (Z.ltb_spec (uabs (err a')) (uabs (err b'))).
    + split; [lia|]. intros _. exists b'. split; [lia|]. split; [done|lia].
    + split; [lia|]. intros _. exists a'. split; [lia|]. split; [congruence|lia].
Qed.

(** C35: the constructor terminates, whatever the initial factors.  The binary
    search for the correction of the factor back ends within its 32 turns,
    with a correction of at most 1/40000 of the fractional part; if the error of
    a round trip after 146 years changes sign within that range, it changes
    sign next to the correction chosen, which has the smaller error of the two.
    The interval between online adjustments is 64 s divided by a power of two,
    between 0.125 s and 64 s. *)
Theorem constructor_terminates toNs toTick' :
  factor_ok toTick' ->
  let err := computeRoundTripError toNs toTick' (longUptimeTick toTick') in
  let max := fractionalPart toTick' / 40000 in
  exists delta tc, tune toNs toTick' = Done tc /\ toTick tc = plus toTick' delta /\ - max <= delta <= max /\
    (sign (err max) <> sign (err (- max)) ->
       exists other, Z.abs (other - delta) <= 1 /\ sign (err other) <> sign (err delta) /\ uabs (err delta) <= uabs (err other)) /\
    (exists k, 0 <= k <= 9 /\ adjustIntervalNs tc = 64000000000 / 2 ^ k) /\
    125000000 <= adjustIntervalNs tc <= 64000000000.
Proof.
  intros Hok err max. destruct (best_delta_spec toNs toTick' Hok) as (delta & Hbest & Hd & Hsign).
  unfold tune. rewrite Hbest. cbn [mbind outcome_bind].
  destruct (find_interval_spec 9 (fun tick => computeRoundTripError toNs (plus toTick' delta) tick 0)
    (convert 128000000000 (plus toTick' delta)) 128000000000) as (k & Hk & ->).
  eexists delta, _. split; [done|]. split; [done|]. split; [done|]. split; [done|]. simpl.
  rewrite Z.shiftr_shiftr, Z.add_comm, <- Z.shiftr_shiftr by lia.
  change (Z.shiftr 128000000000 1) with 64000000000. rewrite Z.shiftr_div_pow2 by lia. split; [eauto|].
  split.
  - apply Z.div_le_lower_bound; [apply Z.pow_pos_nonneg; lia|]. pose proof (Z.pow_le_mono_r 2 k 9 ltac:(lia) ltac:(lia)). lia.
  - apply Z.div_le_upper_bound; [apply Z.pow_pos_nonneg; lia|]. pose proof (Z.pow_le_mono_r 2 0 k ltac:(lia) ltac:(lia)). lia.
Qed.

(** A timer at 32768 Hz. *)
Lemma constructor_terminates_witness :
  (toNs ← floatToFactor (fdiv (float 1000000000) (float 32768)); toTick ← floatToFactor (fdiv (float 32768) (float 1000000000)); Done (toNs, toTick))
    = Done (Factor 30517 2483027968, Factor 0 140737) /\
  exists tc, tune (Factor 30517 2483027968) (Factor 0 140737) = Done tc /\ 125000000 <= adjustIntervalNs tc <= 64000000000.
Proof.
  split; [by vm_compute|].
  destruct (constructor_terminates (Factor 30517 2483027968) (Factor 0 140737)) as (delta & tc & Hrun & _ & _ & _ & _ & Hi).
  - split; simpl; lia.
  - eauto.
Defined.

(** ** Round trips *)

(** The offset is the one that takes the last adjustment time back to the tick
    it was converted from, [c]. *)
Definition centred (tc : TimeConversion) (c : Z) : Prop :=
  c = convert (u64 (lastAdjustTimeNs tc + adjustOffsetNs tc)) (toTick tc) /\ lastAdjustTimeNs tc = convert c (toNs tc).

Lemma u64_s64 x : u64 (s64 x) = u64 x.
Proof.
  unfold wrapS, wrapU. destruct (x mod 2 ^ 64 <? 2 ^ (64 - 1)); [by rewrite Z.mod_mod by lia|].
  rewrite <- (Z_mod_plus_full (x mod 2 ^ 64 - 2 ^ 64) 1 (2 ^ 64)), Z.mul_1_l, Z.sub_add. by rewrite Z.mod_mod by lia.
Qed.

Lemma readjust_centred n tc uns off last :
  let '(last', off') := readjust n tc uns off last in
  (n = O /\ last' = last /\ off' = off) \/
  exists c, c = convert (u64 (last' + off')) (toTick tc) /\ last' = convert c (toNs tc).
Proof.
  revert off last. induction n as [|n IH]; intros off last; cbn [readjust]; [by left|].
  set (u := u64 (uns + off)). set (c := convert u (toTick tc)). set (l := convert c (toNs tc)).
  assert (Hu : u64 (l + s64 (u - l)) = u).
  { rewrite <- u64_add_r, u64_s64, u64_add_r. replace (l + (u - l)) with u by lia. unfold u, wrapU. by rewrite Z.mod_mod by lia. }
  destruct (_ <? _).
  - right. exists c. by rewrite Hu.
  - specialize (IH (s64 (u - l)) l). destruct (readjust n tc uns (s64 (u - l)) l) as [l' o'].
    destruct IH as [(-> & -> & ->)|?]; [|by right]. right. exists c. by rewrite Hu.
Qed.

Lemma ns2tick_centred tc ns c : centred tc c -> exists c', centred (ns2tick tc ns).2 c'.
Proof.
  intros Hc. unfold ns2tick. cbv zeta. destruct (adjustIntervalNs tc <? _); [|by exists c].
  pose proof (readjust_centred 5 tc (u64 ns) 0 (lastAdjustTimeNs tc)) as H.
  destruct (readjust 5 tc (u64 ns) 0 (lastAdjustTimeNs tc)) as [l o]. destruct H as [(? & _)|(c' & ? & ?)]; [done|].
  by exists c'.
Qed.

(** A clock: converted to and from, in any order. *)
Fixpoint run_ns2tick (nss : list Z) (tc : TimeConversion) : TimeConversion :=
  match nss with [] => tc | ns :: nss => run_ns2tick nss (ns2tick tc ns).2 end.

Lemma run_centred nss tc c : centred tc c -> exists c', centred (run_ns2tick nss tc) c'.
Proof.
  revert tc c. induction nss as [|ns nss IH]; intros tc c Hc; simpl; [eauto|].
  destruct (ns2tick_centred tc ns c Hc) as [c' Hc']. eauto.
Qed.

Lemma ns2tick_factors tc ns : toNs (ns2tick tc ns).2 = toNs tc /\ toTick (ns2tick tc ns).2 = toTick tc.
Proof. unfold ns2tick. cbv zeta. destruct (_ <? _); [|done]. by destruct (readjust _ _ _ _ _). Qed.

Lemma run_factors nss tc : toNs (run_ns2tick nss tc) = toNs tc /\ toTick (run_ns2tick nss tc) = toTick tc.
Proof.
  revert tc. induction nss as [|ns nss IH]; intros tc; cbn [run_ns2tick]; [done|].
  destruct (IH (ns2tick tc ns).2) as [-> ->]. apply ns2tick_factors.
Qed.

Lemma round_trip_bound A B t c u :
  let F := 2 ^ 32 in 0 <= B <= F -> u * B / F = c ->
  let r := (u + (t * A / F - c * A / F)) * B / F in
  Z.abs (r - t) * F ^ 2 < Z.abs (t - c) * Z.abs (A * B - F ^ 2) + 2 * F ^ 2.
Proof.
  intros F HB Hc r. assert (HF : F = 2 ^ 32) by done. assert (0 < F) by lia. clearbody F.
  pose proof (Z.div_mod (t * A) F ltac:(lia)) as H1. pose proof (Z.div_mod (c * A) F ltac:(lia)) as H2.
  pose proof (Z.div_mod (u * B) F ltac:(lia)) as H3. rewrite Hc in H3.
  pose proof (Z.div_mod ((u + (t * A / F - c * A / F)) * B) F ltac:(lia)) as H4. fold r in H4.
  pose proof (Z.mod_pos_bound (t * A) F ltac:(lia)) as B1. pose proof (Z.mod_pos_bound (c * A) F ltac:(lia)) as B2.
  pose proof (Z.mod_pos_bound (u * B) F ltac:(lia)) as B3.
  pose proof (Z.mod_pos_bound ((u + (t * A / F - c * A / F)) * B) F ltac:(lia)) as B4.
  generalize dependent ((t * A) mod F). generalize dependent ((c * A) mod F). generalize dependent ((u * B) mod F).
  generalize dependent (((u + (t * A / F - c * A / F)) * B) mod F). clearbody r.
  generalize dependent (t * A / F). generalize dependent (c * A / F). intros l n e4 H4 B4 e3 H3 B3 e2 H2 B2 e1 H1 B1.
  assert (Heq : F ^ 2 * (r - t) = (t - c) * (A * B - F ^ 2) + F * (e3 - e4) + B * (e2 - e1)).
  { assert (HFr : F * r = (u + (n - l)) * B - e4) by lia. assert (HFn : F * n = t * A - e1) by lia.
    assert (HFl : F * l = c * A - e2) by lia. assert (HFc : F * c = u * B - e3) by lia.
    replace (F ^ 2 * (r - t)) with (F * (F * r) - F ^ 2 * t) by ring. rewrite HFr.
    replace (F * ((u + (n - l)) * B - e4) - F ^ 2 * t) with (F * (u * B) + (F * n - F * l) * B - F * e4 - F ^ 2 * t) by ring.
    rewrite HFn, HFl. replace (u * B) with (F * c + e3) by lia. ring. }
  rewrite <- (Z.abs_eq (F ^ 2)) at 1 by nia. rewrite <- Z.abs_mul, Z.mul_comm, Heq, <- Z.abs_mul.
  assert (Z.abs (F * (e3 - e4) + B * (e2 - e1)) < 2 * F ^ 2) by nia. lia.
Qed.

(** The round trip.  Take a conversion made by the constructor and used for
    any sequence of [ns2tick]; its offset was computed at some tick [c].  For
    a tick [t] whose time is within the interval in which the offset is kept,
    converting it to nanoseconds and back gives [t] with an error of less than
    two ticks plus [|t-c|] times the relative error of the product of the two
    factors, and the conversion is not changed.  (The last hypotheses say that
    the times involved do not overflow 63 bits.) *)
Theorem round_trip nss tc0 t :
  let tc := run_ns2tick nss tc0 in
  let A := scaled (toNs tc0) in
  let B := scaled (toTick tc0) in
  factor_ok (toNs tc0) -> factor_ok (toTick tc0) -> B <= 2 ^ 32 -> lastAdjustTimeNs tc0 = 0 -> adjustOffsetNs tc0 = 0 ->
  0 <= t < 2 ^ 63 -> t * A < 2 ^ 95 ->
  let ns := tick2ns tc t in
  uabs (s64 (ns - lastAdjustTimeNs tc)) <= adjustIntervalNs tc ->
  0 <= lastAdjustTimeNs tc + adjustOffsetNs tc < 2 ^ 63 -> 0 <= ns + adjustOffsetNs tc < 2 ^ 63 ->
  convert (u64 (lastAdjustTimeNs tc + adjustOffsetNs tc)) (toTick tc) * A < 2 ^ 95 ->
  exists c tick, ns2tick tc ns = (tick, tc) /\ lastAdjustTimeNs tc = tick2ns tc c /\
    Z.abs (tick - t) * 2 ^ 64 < Z.abs (t - c) * Z.abs (A * B - 2 ^ 64) + 2 * 2 ^ 64.
Proof.
  intros tc A B HA HB HB1 Hl0 Ho0 Ht HtA ns Hint Hsum Hns HcA.
  assert (Hfac : toNs tc = toNs tc0 /\ toTick tc = toTick tc0).
  { apply run_factors. }
  destruct Hfac as [HfN HfT].
  assert (Hc0 : centred tc0 0).
  { split; rewrite ?Hl0, ?Ho0; [change (u64 (0 + 0)) with 0|]; by rewrite convert_spec by (done || lia). }
  destruct (run_centred nss tc0 0 Hc0) as (c & Hc & Hlc). fold tc in Hc, Hlc. rewrite HfN, HfT in *.
  assert (Hsc : forall f, factor_ok f -> 0 <= scaled f) by (intros f [? ?]; unfold scaled; lia).
  pose proof (Hsc _ HA) as HA0. pose proof (Hsc _ HB) as HB0. fold A in HA0. fold B in HB0.
  rewrite wrapU_small in Hc, HcA by lia. set (u := lastAdjustTimeNs tc + adjustOffsetNs tc) in *.
  rewrite convert_spec in Hc, HcA by (done || lia || (fold B; nia)). fold B in Hc, HcA. rewrite <- Hc in HcA.
  assert (Hc1 : 0 <= c) by (rewrite Hc; apply Z.div_pos; nia).
  assert (Hsmall : forall x, 0 <= x -> x * A < 2 ^ 95 -> 0 <= x < 2 ^ 64 -> s64 (convert (u64 x) (toNs tc0)) = x * A / 2 ^ 32).
  { intros x Hx HxA Hx64. rewrite wrapU_small, convert_spec by (done || lia). apply wrapS_small; [lia|]. fold A.
    pose proof (Z.div_lt_upper_bound (x * A) (2 ^ 32) (2 ^ 63) ltac:(lia) ltac:(lia)). pose proof (Z.div_pos (x * A) (2 ^ 32) ltac:(nia) ltac:(lia)). lia. }
  assert (Hcu : c < 2 ^ 64) by (rewrite Hc; apply Z.div_lt_upper_bound; nia).
  assert (Hnst : ns = t * A / 2 ^ 32) by (unfold ns, tick2ns; rewrite HfN; apply Hsmall; lia).
  assert (Hlast : lastAdjustTimeNs tc = c * A / 2 ^ 32) by (rewrite Hlc; apply convert_spec; [done|lia|fold A; lia]).
  assert (Hns0 : 0 <= ns < 2 ^ 63).
  { rewrite Hnst. split; [apply Z.div_pos; nia|]. apply Z.div_lt_upper_bound; lia. }
  exists c, ((u + (t * A / 2 ^ 32 - c * A / 2 ^ 32)) * B / 2 ^ 32). split; [|split].
  - unfold ns2tick. rewrite (wrapU_small 64 ns) by lia. rewrite (proj2 (Z.ltb_ge _ _)) by done. cbv zeta. f_equal.
    replace (u + (t * A / 2 ^ 32 - c * A / 2 ^ 32)) with (ns + adjustOffsetNs tc) by (unfold u; lia).
    rewrite wrapU_small, HfT, convert_spec by (done || lia || (fold B; nia)). fold B. apply wrapS_small; [lia|].
    assert (0 <= (ns + adjustOffsetNs tc) * B / 2 ^ 32) by (apply Z.div_pos; nia).
    assert ((ns + adjustOffsetNs tc) * B / 2 ^ 32 < 2 ^ 63) by (apply Z.div_lt_upper_bound; nia). lia.
  - rewrite Hlast. unfold tick2ns. rewrite HfN. symmetry. apply Hsmall; lia.
  - change (2 ^ 64) with ((2 ^ 32) ^ 2). apply round_trip_bound; [lia|by symmetry].
Qed.

(** The 32768 Hz timer, a month after boot, with the offset of a conversion
    one second earlier. *)
Definition ex_tc : TimeConversion := Eval vm_compute in
  match tune (Factor 30517 2483027968) (Factor 0 140737) with Done tc => tc | Fault _ => new_TimeConversion end.

Lemma round_trip_witness :
  let t := 32768 * 86400 * 30 in
  let tc := run_ns2tick [(86400 * 30 - 1) * 10 ^ 9] ex_tc in
  exists c tick, ns2tick tc (tick2ns tc t) = (tick, tc) /\ lastAdjustTimeNs tc = tick2ns tc c /\
    Z.abs (tick - t) * 2 ^ 64 < Z.abs (t - c) * Z.abs (scaled (toNs ex_tc) * scaled (toTick ex_tc) - 2 ^ 64) + 2 * 2 ^ 64.
Proof.
  apply (round_trip [(86400 * 30 - 1) * 10 ^ 9] ex_tc (32768 * 86400 * 30)); vm_compute; repeat split; discriminate || done.
Defined.

End TimeConv.
