(* ===== verification/OsTimer.v ===== *)
(** * The OS timer

    [TimerAdapter] of [interfaces/os_timer.h]: the counter of a hardware timer
    is extended to 64 bits, and its match register gives interrupts at any 64
    bit time.  The hardware is an interface; time passes between the accesses
    to it, so the functions take the ticks that elapse there. *)
From S2P Require Import Prelude Errors TimeConv.

Local Open Scope Z_scope.

Module OsTimer.

(** The functions a derived class provides; [elapse n]: [n] ticks pass. *)
Class TimerOps (D : Type) := {
  IRQgetTimerCounter : D -> Z;
  IRQsetTimerCounter : Z -> D -> D;
  IRQgetTimerMatchReg : D -> Z;
  IRQsetTimerMatchReg : Z -> D -> D;
  IRQgetOverflowFlag : D -> bool;
  IRQclearOverflowFlag : D -> D;
  IRQgetMatchFlag : D -> bool;
  IRQclearMatchFlag : D -> D;
  IRQforcePendingIrq : D -> D;
  IRQstopTimer : D -> D;
  IRQstartTimer : D -> D;
  elapse : Z -> D -> D;
}.

(** What the class documents: a timer of [bits] bits counting up, a match
    register and an overflow interrupt. *)
Class Timer (bits : Z) (D : Type) `{TimerOps D} := {
  counter_bounds d : 0 <= IRQgetTimerCounter d < 2 ^ bits;
  elapse_counter n d : 0 <= n -> IRQgetTimerCounter (elapse n d) = (IRQgetTimerCounter d + n) mod 2 ^ bits;
  elapse_overflow n d : 0 <= n ->
    IRQgetOverflowFlag (elapse n d) = IRQgetOverflowFlag d || (2 ^ bits <=? IRQgetTimerCounter d + n);
  elapse_matchReg n d : IRQgetTimerMatchReg (elapse n d) = IRQgetTimerMatchReg d;
  elapse_match n k d : 0 < k <= n -> (IRQgetTimerCounter d + k) mod 2 ^ bits = IRQgetTimerMatchReg d ->
    IRQgetMatchFlag (elapse n d) = true;
  elapse_match_kept n d : IRQgetMatchFlag d = true -> IRQgetMatchFlag (elapse n d) = true;
  setMatch_reg v d : 0 <= v < 2 ^ bits -> IRQgetTimerMatchReg (IRQsetTimerMatchReg v d) = v;
  setMatch_counter v d : IRQgetTimerCounter (IRQsetTimerMatchReg v d) = IRQgetTimerCounter d;
  setMatch_overflow v d : IRQgetOverflowFlag (IRQsetTimerMatchReg v d) = IRQgetOverflowFlag d;
  clearMatch_counter d : IRQgetTimerCounter (IRQclearMatchFlag d) = IRQgetTimerCounter d;
  clearMatch_overflow d : IRQgetOverflowFlag (IRQclearMatchFlag d) = IRQgetOverflowFlag d;
  clearMatch_reg d : IRQgetTimerMatchReg (IRQclearMatchFlag d) = IRQgetTimerMatchReg d;
  clearOverflow_counter d : IRQgetTimerCounter (IRQclearOverflowFlag d) = IRQgetTimerCounter d;
  clearOverflow_overflow d : IRQgetOverflowFlag (IRQclearOverflowFlag d) = false;
  clearOverflow_match d : IRQgetMatchFlag (IRQclearOverflowFlag d) = IRQgetMatchFlag d;
  clearOverflow_reg d : IRQgetTimerMatchReg (IRQclearOverflowFlag d) = IRQgetTimerMatchReg d;
  force_counter d : IRQgetTimerCounter (IRQforcePendingIrq d) = IRQgetTimerCounter d;
  force_overflow d : IRQgetOverflowFlag (IRQforcePendingIrq d) = IRQgetOverflowFlag d;
  force_reg d : IRQgetTimerMatchReg (IRQforcePendingIrq d) = IRQgetTimerMatchReg d;
}.

Section adapter.
Context {D : Type} `{TimerOps D}.
(** The template parameters. *)
Context (bits quirkAdvance : Z).

Definition upperIncr : Z := Z.shiftl 1 bits.
Definition lowerMask : Z := upperIncr - 1.
Definition upperMask : Z := 0xFFFFFFFFFFFFFFFF - lowerMask.

Record TimerAdapter := mkTimer {
  upperTimeTick : Z;
  upperIrqTick : Z;
  tc : TimeConv.TimeConversion;
  lateIrq : bool;
  hw : D;
}.

Definition set_hw (f : D -> D) (a : TimerAdapter) : TimerAdapter :=
  mkTimer (upperTimeTick a) (upperIrqTick a) (tc a) (lateIrq a) (f (hw a)).
Definition set_late (b : bool) (a : TimerAdapter) : TimerAdapter :=
  mkTimer (upperTimeTick a) (upperIrqTick a) (tc a) b (hw a).
Definition set_tc (t : TimeConv.TimeConversion) (a : TimerAdapter) : TimerAdapter :=
  mkTimer (upperTimeTick a) (upperIrqTick a) t (lateIrq a) (hw a).

(** The two intervals between the three reads of the hardware. *)
Record delays := Delays { before_flag : Z; before_counter : Z }.

Definition IRQgetTimeTick (e : delays) (a : TimerAdapter) : Z * TimerAdapter :=
  let counter := IRQgetTimerCounter (hw a) in
  let a1 := set_hw (elapse (before_flag e)) a in
  if IRQgetOverflowFlag (hw a1) then
    let a2 := set_hw (elapse (before_counter e)) a1 in
    if counter <=? IRQgetTimerCounter (hw a2) then (s64 (Z.lor (upperTimeTick a) counter + upperIncr), a2)
    else (Z.lor (upperTimeTick a) counter, a2)
  else (Z.lor (upperTimeTick a) counter, a1).

Definition IRQgetIrqTick (a : TimerAdapter) : Z := Z.lor (upperIrqTick a) (IRQgetTimerMatchReg (hw a)).

Definition IRQgetTimeNs (e : delays) (a : TimerAdapter) : Z * TimerAdapter :=
  let '(t, a) := IRQgetTimeTick e a in (TimeConv.tick2ns (tc a) t, a).

Definition IRQgetIrqNs (a : TimerAdapter) : Z := TimeConv.tick2ns (tc a) (IRQgetIrqTick a).

(** [upperIrqTick=tick2 & upperMask; IRQsetTimerMatchReg(tick2 & lowerMask);] *)
Definition set_match (tick : Z) (a : TimerAdapter) : TimerAdapter :=
  let tick2 := s64 (tick + quirkAdvance) in
  mkTimer (upperTimeTick a) (s64 (Z.land (u64 tick2) upperMask)) (tc a) (lateIrq a)
    (IRQsetTimerMatchReg (u32 (Z.land (u64 tick2) lowerMask)) (hw a)).

(** [IRQforcePendingIrq(); lateIrq=true;] *)
Definition force (a : TimerAdapter) : TimerAdapter := set_late true (set_hw IRQforcePendingIrq a).

Definition IRQsetIrqTick (d : Z) (e : delays) (tick : Z) (a : TimerAdapter) : TimerAdapter :=
  let a := set_hw (elapse d) (set_match tick a) in
  let '(t, a) := IRQgetTimeTick e a in
  if tick <=? t then force a else a.

Definition IRQsetIrqNs (d : Z) (e : delays) (ns : Z) (a : TimerAdapter) : TimerAdapter :=
  let '(tick, t) := TimeConv.ns2tick (tc a) ns in IRQsetIrqTick d e tick (set_tc t a).

(** The timer is stopped: no time passes. *)
Definition IRQsetTimeNs (ns : Z) (a : TimerAdapter) : TimerAdapter :=
  let a := set_hw IRQstopTimer a in
  let '(oldTick, a) := IRQgetTimeTick (Delays 0 0) a in
  let '(tick, t) := TimeConv.ns2tick (tc a) ns in
  let a := set_tc t a in
  let a :=
    if oldTick <? tick then
      let a := mkTimer (s64 (Z.land (u64 tick) upperMask)) (upperIrqTick a) (tc a) (lateIrq a)
                 (IRQclearOverflowFlag (IRQsetTimerCounter (u32 (Z.land (u64 tick) lowerMask)) (hw a))) in
      let nextIrqTick := IRQgetIrqTick a in
      if oldTick <? nextIrqTick then
        let a := set_match nextIrqTick a in
        if nextIrqTick <=? tick then force a else a
      else a
    else a in
  set_hw IRQstartTimer a.

(** [IRQtimerInterrupt] is the kernel, which may set the next interrupt;
    the result tells the time it was called with, if it was. *)
Definition IRQhandler (kernel : Z -> TimerAdapter -> TimerAdapter) (e : delays) (a : TimerAdapter) : option Z * TimerAdapter :=
  let '(called, a) :=
    if IRQgetMatchFlag (hw a) || lateIrq a then
      let a := set_hw IRQclearMatchFlag a in
      let '(tick, a) := IRQgetTimeTick e a in
      if (IRQgetIrqTick a <=? tick) || lateIrq a then
        let a := set_late false a in
        (Some (TimeConv.tick2ns (tc a) tick), kernel (TimeConv.tick2ns (tc a) tick) a)
      else (None, a)
    else (None, a) in
  if IRQgetOverflowFlag (hw a) then
    (called, mkTimer (s64 (upperTimeTick a + upperIncr)) (upperIrqTick a) (tc a) (lateIrq a) (IRQclearOverflowFlag (hw a)))
  else (called, a).

(** ** Time *)
Context `{!Timer bits D}.
Hypothesis bits_bounds : 0 < bits <= 32.

(** The time that the software and hardware counters stand for. *)
Definition time (a : TimerAdapter) : Z :=
  upperTimeTick a + (if IRQgetOverflowFlag (hw a) then 2 ^ bits else 0) + IRQgetTimerCounter (hw a).

(** The software part is a multiple of the period, and the time fits. *)
Definition aligned (u : Z) : Prop := exists k, u = k * 2 ^ bits.
Record wf (a : TimerAdapter) : Prop := Wf {
  wf_upper : aligned (upperTimeTick a);
  wf_nonneg : 0 <= upperTimeTick a;
}.

(** The overflow interrupt is served before the next overflow: [n] ticks may
    pass. *)
Definition in_time (n : Z) (a : TimerAdapter) : Prop :=
  0 <= n /\ time a + n < upperTimeTick a + 2 * 2 ^ bits /\ time a + n < 2 ^ 62.

Lemma period_pos : 0 < 2 ^ bits.
Proof. apply Z.pow_pos_nonneg; lia. Qed.

Lemma lor_aligned u c : aligned u -> 0 <= c < 2 ^ bits -> Z.lor u c = u + c.
Proof.
  intros [k ->] Hc. rewrite Z.lor_comm, <- Z.shiftl_mul_pow2, lor_shiftl_add by lia. rewrite Z.shiftl_mul_pow2 by lia. lia.
Qed.

Lemma time_elapse n a :
  in_time n a -> time (set_hw (elapse n) a) = time a + n.
Proof.
  intros (Hn & Hlt & _). unfold time in *. simpl. rewrite elapse_counter, elapse_overflow by done.
  pose proof (counter_bounds (hw a)) as Hc. pose proof period_pos.
  destruct (Z.leb_spec (2 ^ bits) (IRQgetTimerCounter (hw a) + n)) as [Hw|Hw]; destruct (IRQgetOverflowFlag (hw a)); simpl in *.
  - lia.
  - rewrite <- (Z_mod_plus_full _ (-1)), Z.mod_small by lia. lia.
  - rewrite Z.mod_small by lia. lia.
  - rewrite Z.mod_small by lia. lia.
Qed.

Lemma in_time_elapse n m a : in_time (n + m) a -> 0 <= n -> 0 <= m -> in_time n a /\ in_time m (set_hw (elapse n) a).
Proof.
  intros (H1 & H2 & H3) Hn Hm. assert (Hin : in_time n a) by (split; lia). split; [done|]. unfold in_time.
  rewrite time_elapse by done. simpl. lia.
Qed.

(** [n] ticks have passed, in one or more intervals. *)
Inductive elapsed : Z -> TimerAdapter -> TimerAdapter -> Prop :=
| elapsed_one n a : in_time n a -> elapsed n a (set_hw (elapse n) a)
| elapsed_more n m a a1 : elapsed n a a1 -> in_time m a1 -> elapsed (n + m) a (set_hw (elapse m) a1).

Lemma elapsed_fields n a a' :
  elapsed n a a' ->
  upperTimeTick a' = upperTimeTick a /\ upperIrqTick a' = upperIrqTick a /\ tc a' = tc a /\ lateIrq a' = lateIrq a /\
  IRQgetTimerMatchReg (hw a') = IRQgetTimerMatchReg (hw a) /\ time a' = time a + n /\ 0 <= n.
Proof.
  induction 1 as [n a Hin|n m a a1 _ IH Hin].
  - rewrite time_elapse by done. simpl. rewrite elapse_matchReg. destruct Hin. done.
  - destruct IH as (? & ? & ? & ? & ? & ? & ?). rewrite time_elapse by done. simpl. rewrite elapse_matchReg. destruct Hin. split_and!; (done || lia).
Qed.

Lemma elapsed_wf n a a' : elapsed n a a' -> wf a -> wf a'.
Proof. intros He [? ?]. destruct (elapsed_fields _ _ _ He) as (Hu & _). split; by rewrite Hu. Qed.

Lemma elapsed_in_time n m a a' : elapsed n a a' -> in_time (n + m) a -> 0 <= m -> in_time m a'.
Proof.
  intros He (H1 & H2 & H3) Hm. destruct (elapsed_fields _ _ _ He) as (Hu & _ & _ & _ & _ & Ht & _).
  unfold in_time. rewrite Hu, Ht. lia.
Qed.

Definition total (e : delays) : Z := before_flag e + before_counter e.
Definition short (e : delays) : Prop := 0 <= before_flag e /\ 0 <= before_counter e /\ total e < 2 ^ bits.

Lemma read_time e a :
  wf a -> short e -> in_time (total e) a ->
  exists n a', IRQgetTimeTick e a = (time a, a') /\ n <= total e /\ elapsed n a a'.
Proof.
  intros [Hu Hu0] (H1 & H2 & Hshort) Hin. unfold IRQgetTimeTick. pose proof (counter_bounds (hw a)) as Hc. pose proof period_pos as Hp.
  unfold total in *. rewrite lor_aligned by done. unfold upperIncr. rewrite Z.shiftl_1_l.
  destruct (in_time_elapse _ _ _ Hin H1 H2) as [Hin1 Hin2].
  pose proof (time_elapse _ _ Hin1) as Ht1. unfold time in Ht1 at 1. simpl in Ht1.
  cbn [set_hw hw upperTimeTick]. set (d1 := elapse (before_flag e) (hw a)) in *.
  destruct (IRQgetOverflowFlag d1) eqn:Ef.
  - pose proof (time_elapse _ _ Hin2) as Ht2. unfold time in Ht2 at 1. simpl in Ht2. fold d1 in Ht2. unfold time in Ht2. simpl in Ht2.
    fold d1 in Ht2. rewrite Ef in Ht2.
    assert (Ef2 : IRQgetOverflowFlag (elapse (before_counter e) d1) = true) by (by rewrite elapse_overflow, Ef by done).
    rewrite Ef2 in Ht2. pose proof (counter_bounds (elapse (before_counter e) d1)) as Hc2.
    pose proof (elapsed_more _ _ _ _ (elapsed_one _ _ Hin1) Hin2) as Hel.
    destruct Hin as (_ & Hin & Hin'). unfold time in *.
    destruct (Z.leb_spec (IRQgetTimerCounter (hw a)) (IRQgetTimerCounter (elapse (before_counter e) d1))) as [Hle|Hgt];
      (eexists _, _; split; [|split; [|exact Hel]]; [|lia]); f_equal; rewrite ?wrapS_small by lia; destruct (IRQgetOverflowFlag (hw a)); lia.
  - eexists _, _. split; [|split; [|exact (elapsed_one _ _ Hin1)]]; [|lia].
    f_equal. unfold time. unfold d1 in Ef. rewrite elapse_overflow in Ef by done. apply orb_false_iff in Ef as [-> _]. lia.
Qed.

(** ** The next interrupt *)

Lemma land_lower x : Z.land x lowerMask = x mod 2 ^ bits.
Proof. unfold lowerMask, upperIncr. apply land_ones_mod; [lia|]. rewrite Z.shiftl_1_l, Z.ones_equiv. lia. Qed.

Lemma land_upper x : 0 <= x < 2 ^ 64 -> Z.land x upperMask = x / 2 ^ bits * 2 ^ bits.
Proof.
  intros Hx. rewrite <- Z.shiftl_mul_pow2, <- Z.shiftr_div_pow2 by lia.
  assert (Hm : upperMask = Z.shiftl (Z.ones (64 - bits)) bits).
  { unfold upperMask, lowerMask, upperIncr. rewrite Z.shiftl_1_l, Z.shiftl_mul_pow2, Z.ones_equiv by lia.
    rewrite <- Z.sub_1_r, Z.mul_sub_distr_r, <- Z.pow_add_r by lia. replace (64 - bits + bits) with 64 by lia. lia. }
  rewrite Hm. apply Z.bits_inj'. intros n Hn. rewrite Z.land_spec, !Z.shiftl_spec by lia.
  destruct (Z.lt_ge_cases n bits) as [Hlt|Hge].
  - rewrite !(Z.testbit_neg_r _ (n - bits)) by lia. apply andb_false_r.
  - rewrite Z.shiftr_spec by lia. replace (n - bits + bits) with n by lia.
    destruct (Z.lt_ge_cases n 64).
    + rewrite Z.ones_spec_low by lia. apply andb_true_r.
    + rewrite Z.ones_spec_high by lia. rewrite <- (Z.mod_small x (2 ^ 64)), Z.mod_pow2_bits_high by lia. done.
Qed.

Hypothesis quirk_bounds : 0 <= quirkAdvance < 2 ^ 32.

Lemma set_match_spec tick a :
  0 <= tick < 2 ^ 62 ->
  IRQgetIrqTick (set_match tick a) = tick + quirkAdvance /\
  IRQgetTimerMatchReg (hw (set_match tick a)) = (tick + quirkAdvance) mod 2 ^ bits /\
  aligned (upperIrqTick (set_match tick a)) /\ time (set_match tick a) = time a /\ upperTimeTick (set_match tick a) = upperTimeTick a.
Proof.
  intros Ht. pose proof period_pos as Hp. set (x := tick + quirkAdvance). assert (Hx : 0 <= x < 2 ^ 63) by (unfold x; lia).
  pose proof (Z.mod_pos_bound x (2 ^ bits) Hp) as Hm. pose proof (Z.div_mod x (2 ^ bits) ltac:(lia)) as Hdm.
  assert (Hle : 2 ^ bits <= 2 ^ 32) by (apply Z.pow_le_mono_r; lia).
  assert (Hdiv : 0 <= x / 2 ^ bits) by (apply Z.div_pos; lia).
  assert (Hup : s64 (Z.land (u64 (s64 x)) upperMask) = x / 2 ^ bits * 2 ^ bits).
  { rewrite (wrapS_small 64 x), (wrapU_small 64 x), land_upper, wrapS_small by lia. done. }
  assert (Hlow : u32 (Z.land (u64 (s64 x)) lowerMask) = x mod 2 ^ bits).
  { rewrite (wrapS_small 64 x), (wrapU_small 64 x), land_lower, wrapU_small by lia. done. }
  unfold IRQgetIrqTick, set_match. fold x. cbn [upperIrqTick hw upperTimeTick]. rewrite Hup, Hlow, setMatch_reg by done.
  assert (Hal : aligned (x / 2 ^ bits * 2 ^ bits)) by by eexists.
  split; [rewrite lor_aligned by done; lia|]. split; [done|]. split; [done|]. split; [|done].
  unfold time. simpl. by rewrite setMatch_counter, setMatch_overflow.
Qed.

(** The interrupt for time [x], when due, is pending. *)
Definition pending (x : Z) (a : TimerAdapter) : Prop :=
  x <= time a -> IRQgetMatchFlag (hw a) = true \/ lateIrq a = true.

Lemma time_counter a : wf a -> IRQgetTimerCounter (hw a) = time a mod 2 ^ bits.
Proof.
  intros [[k Hk] _]. unfold time. rewrite Hk. pose proof (counter_bounds (hw a)). symmetry.
  destruct (IRQgetOverflowFlag (hw a)).
  - replace (k * 2 ^ bits + 2 ^ bits + IRQgetTimerCounter (hw a)) with (IRQgetTimerCounter (hw a) + (k + 1) * 2 ^ bits) by lia.
    rewrite Z_mod_plus_full. by apply Z.mod_small.
  - rewrite Z.add_0_r, Z.add_comm, Z_mod_plus_full. by apply Z.mod_small.
Qed.

(** Time passes the match: the flag is set. *)
Lemma pending_elapsed x n a a' :
  elapsed n a a' -> wf a -> IRQgetTimerMatchReg (hw a) = x mod 2 ^ bits -> pending x a -> pending x a'.
Proof.
  assert (Hstep : forall m b, in_time m b -> wf b -> IRQgetTimerMatchReg (hw b) = x mod 2 ^ bits -> pending x b -> pending x (set_hw (elapse m) b)).
  { intros m b Hin Hwf Hreg Hp Hx. rewrite time_elapse in Hx by done. simpl.
    destruct (Z.le_gt_cases x (time b)) as [Hle|Hgt].
    - destruct (Hp Hle) as [Hf|Hl]; [left|by right]. by apply elapse_match_kept.
    - left. apply (elapse_match m (x - time b)); [lia|]. rewrite Hreg, time_counter by done.
      rewrite Zplus_mod_idemp_l. f_equal. lia. }
  induction 1 as [m b Hin|m k b b1 He IH Hin]; intros Hwf Hreg Hp; [by apply Hstep|].
  apply Hstep; [done|by eapply elapsed_wf| |by apply IH].
  destruct (elapsed_fields _ _ _ He) as (_ & _ & _ & _ & -> & _). done.
Qed.

(** What was asked of the timer: the earliest request since the last call of
    [IRQtimerInterrupt], and the last request. *)
Record asked := Asked { earliest : option Z; current : Z }.

Definition ask (tick : Z) (g : asked) : asked :=
  Asked (Some (match earliest g with Some m => Z.min m tick | None => tick end)) tick.

Record inv (g : asked) (a : TimerAdapter) : Prop := Inv {
  inv_wf : wf a;
  inv_irq : IRQgetIrqTick a = current g + quirkAdvance;
  inv_reg : IRQgetTimerMatchReg (hw a) = (current g + quirkAdvance) mod 2 ^ bits;
  inv_late : lateIrq a = true -> exists m, earliest g = Some m /\ m <= time a;
  inv_earliest m : earliest g = Some m -> m <= current g;
  inv_pending : earliest g <> None -> pending (current g + quirkAdvance) a;
}.

Lemma inv_elapsed g n a a' : elapsed n a a' -> inv g a -> inv g a'.
Proof.
  intros He [Hwf Hi Hr Hl Hm Hp]. destruct (elapsed_fields _ _ _ He) as (Hu & Hui & _ & Hla & Hre & Ht & Hn).
  split.
  - by eapply elapsed_wf.
  - unfold IRQgetIrqTick in *. by rewrite Hui, Hre.
  - by rewrite Hre.
  - rewrite Hla, Ht. intros H1. destruct (Hl H1) as (m & ? & ?). exists m. split; [done|lia].
  - done.
  - intros H1. eapply pending_elapsed; eauto.
Qed.

(** A request of the kernel: what passes before and during the reads. *)
Record request := Request { after : Z; reads : delays; tick : Z }.
Definition lasts (r : request) : Z := after r + total (reads r).
Definition allowed (r : request) : Prop := 0 <= after r /\ short (reads r) /\ 0 < tick r < 2 ^ 62.
Definition issue (r : request) : TimerAdapter -> TimerAdapter := IRQsetIrqTick (after r) (reads r) (tick r).

Lemma set_match_wf t a : wf a -> wf (set_match t a).
Proof. by intros [? ?]. Qed.

Lemma set_match_in_time n t a : 0 <= t < 2 ^ 62 -> in_time n a -> in_time n (set_match t a).
Proof. intros Ht. destruct (set_match_spec t a Ht) as (_ & _ & _ & Hti & Hu). unfold in_time. by rewrite Hti, Hu. Qed.

Lemma issue_inv r g a :
  allowed r -> in_time (lasts r) a -> inv g a ->
  inv (ask (tick r) g) (issue r a) /\ time (issue r a) <= time a + lasts r /\ upperTimeTick (issue r a) = upperTimeTick a /\
  tc (issue r a) = tc a.
Proof.
  intros (Ha & Hsh & Htk) Hin Hinv. destruct r as [d e t]; unfold lasts, issue in *; simpl in *.
  destruct (set_match_spec t a ltac:(lia)) as (Hirq & Hreg & _ & Hti & Hup).
  apply (set_match_in_time _ t) in Hin; [|lia]. set (b := set_match t a) in *.
  destruct Hsh as (Hb1 & Hb2 & Hb3). assert (Htot : 0 <= total e) by (unfold total; lia).
  destruct (in_time_elapse _ _ _ Hin Ha Htot) as [Hin1 Hin2].
  destruct (read_time e (set_hw (elapse d) b)) as (n & c & Hread & Hn & Hel); [|done|done|].
  { apply (elapsed_wf d b); [by constructor|]. apply set_match_wf, Hinv. }
  assert (Hwfb : wf b) by apply set_match_wf, Hinv.
  pose proof (elapsed_one _ _ Hin1) as He1.
  destruct (elapsed_fields _ _ _ He1) as (Hu1 & Hi1 & Hc1 & Hl1 & Hr1 & Ht1 & _).
  destruct (elapsed_fields _ _ _ Hel) as (Hu2 & Hi2 & Hc2 & Hl2 & Hr2 & Ht2 & Hn2).
  assert (Hlb : lateIrq b = lateIrq a) by done.
  unfold IRQsetIrqTick. fold b. rewrite Hread.
  assert (Hwfc : wf c) by (eapply elapsed_wf; [done|]; by eapply elapsed_wf).
  assert (Hirqc : IRQgetIrqTick c = t + quirkAdvance) by (unfold IRQgetIrqTick in *; by rewrite Hi2, Hr2, Hi1, Hr1).
  assert (Hregc : IRQgetTimerMatchReg (hw c) = (t + quirkAdvance) mod 2 ^ bits) by (by rewrite Hr2, Hr1).
  assert (Hearly : forall m, earliest (ask t g) = Some m -> m <= t) by (unfold ask; destruct (earliest g); simpl; intros; simplify_eq; lia).
  assert (Htc : tc c = tc a) by (rewrite Hc2, Hc1; done).
  destruct (Z.leb_spec t (time (set_hw (elapse d) b))) as [Hle|Hgt].
  - assert (Htf : time (force c) = time c) by (unfold time, force; simpl; by rewrite force_counter, force_overflow).
    split; [split|rewrite Htf; simpl; rewrite Hu2, Hu1; split_and!; (done || lia)].
    + destruct Hwfc; by split.
    + unfold IRQgetIrqTick, force; simpl. rewrite force_reg. exact Hirqc.
    + simpl. rewrite force_reg. exact Hregc.
    + intros _. eexists. split; [done|]. rewrite Htf. destruct (earliest g); lia.
    + exact Hearly.
    + intros _ _. by right.
  - split; [split|rewrite Hu2, Hu1; split_and!; (done || lia)]; [done..| |exact Hearly|].
    + rewrite Hl2, Hl1, Hlb. intros Hlate. destruct (inv_late _ _ Hinv Hlate) as (m & Hm & Hle). unfold ask. rewrite Hm. simpl.
      eexists. split; [done|]. lia.
    + intros _. eapply (pending_elapsed _ _ _ _ Hel); [by eapply elapsed_wf|by rewrite Hr1|]. intros Hx. simpl in *. lia.
Qed.

(** ** The kernel and the timer *)

Definition react (next : option request) (_ : Z) (a : TimerAdapter) : TimerAdapter :=
  match next with Some r => issue r a | None => a end.
Definition next_allowed (next : option request) : Prop := match next with Some r => allowed r | None => True end.
Definition next_lasts (next : option request) : Z := match next with Some r => lasts r | None => 0 end.

Definition served (next : option request) (g : asked) : asked :=
  match next with Some r => Asked (Some (tick r)) (tick r) | None => Asked None (current g) end.

Inductive step : asked * TimerAdapter -> asked * TimerAdapter -> Prop :=
| step_elapse n g a : in_time n a -> step (g, a) (g, set_hw (elapse n) a)
| step_issue r g a : allowed r -> in_time (lasts r) a -> step (g, a) (ask (tick r) g, issue r a)
| step_handler next e g a called a' :
    next_allowed next -> short e -> in_time (total e + next_lasts next) a ->
    IRQhandler (react next) e a = (called, a') ->
    step (g, a) (match called with Some _ => served next g | None => g end, a').

(** The second half of [IRQhandler]. *)
Lemma overflow_inv g a :
  inv g a -> time a < 2 ^ 62 ->
  inv g (if IRQgetOverflowFlag (hw a)
         then mkTimer (s64 (upperTimeTick a + upperIncr)) (upperIrqTick a) (tc a) (lateIrq a) (IRQclearOverflowFlag (hw a))
         else a).
Proof.
  intros Hinv Ht. destruct (IRQgetOverflowFlag (hw a)) eqn:Ho; [|done]. destruct Hinv as [[[k Hk] Hnn] Hi Hr Hl He Hp].
  pose proof (counter_bounds (hw a)). pose proof period_pos. set (a' := mkTimer _ _ _ _ _).
  assert (Hup : s64 (upperTimeTick a + upperIncr) = upperTimeTick a + 2 ^ bits).
  { unfold upperIncr. rewrite Z.shiftl_1_l. unfold time in Ht. rewrite Ho in Ht. apply wrapS_small; lia. }
  assert (Hta : time a' = time a).
  { unfold time, a'. simpl. rewrite Hup, Ho, clearOverflow_overflow, clearOverflow_counter. lia. }
  split.
  - split; simpl; rewrite Hup; [|lia]. exists (k + 1). lia.
  - unfold IRQgetIrqTick, a' in *. simpl. by rewrite clearOverflow_reg.
  - simpl. by rewrite clearOverflow_reg.
  - intros Hla. rewrite Hta. by apply Hl.
  - done.
  - intros Hne Hx. rewrite Hta in Hx. simpl. rewrite clearOverflow_match. by apply Hp.
Qed.

Lemma clear_match_inv g a :
  inv g a -> (current g + quirkAdvance <= time a -> lateIrq a = true) -> inv g (set_hw IRQclearMatchFlag a).
Proof.
  intros [[? ?] Hi Hr Hl He Hp] Hdue. set (b := set_hw _ a).
  assert (Htb : time b = time a) by (unfold time, b; simpl; by rewrite clearMatch_counter, clearMatch_overflow).
  split.
  - by split.
  - unfold IRQgetIrqTick, b in *. simpl. by rewrite clearMatch_reg.
  - simpl. by rewrite clearMatch_reg.
  - rewrite Htb. done.
  - done.
  - intros Hne Hx. rewrite Htb in Hx. right. by apply Hdue.
Qed.

Lemma called_inv g a n c :
  inv g a -> elapsed n (set_hw IRQclearMatchFlag a) c -> inv (Asked None (current g)) (set_late false c).
Proof.
  intros [Hwf Hi Hr _ _ _] Hel. destruct (elapsed_fields _ _ _ Hel) as (Hu & Hui & _ & _ & Hre & _ & _).
  simpl in Hu, Hui, Hre. rewrite clearMatch_reg in Hre. split; [|unfold IRQgetIrqTick in *; simpl; by rewrite Hui, Hre|by simpl; rewrite Hre, Hr|done..].
  destruct Hwf. split; simpl; by rewrite Hu.
Qed.

Lemma react_inv next g a t :
  next_allowed next -> in_time (next_lasts next) a -> inv (Asked None (current g)) a ->
  inv (served next g) (react next t a) /\ time (react next t a) < 2 ^ 62.
Proof.
  destruct next as [r|]; simpl; intros Hal Hin Hinv.
  - destruct (issue_inv r _ _ Hal Hin Hinv) as (? & ? & _). split; [done|]. destruct Hin. lia.
  - split; [done|]. destruct Hin. lia.
Qed.

(** The test of the handler only passes when a request is due. *)
Lemma due_earliest g a m :
  inv g a -> (current g + quirkAdvance <=? time a) || lateIrq a = true -> earliest g = Some m -> m <= time a.
Proof.
  intros Hinv Hcall Hm. apply orb_true_iff in Hcall as [Hle|Hlate].
  - apply Z.leb_le in Hle. pose proof (inv_earliest _ _ Hinv m Hm). lia.
  - destruct (inv_late _ _ Hinv Hlate) as (m' & ? & ?). simplify_eq. congruence.
Qed.

Lemma handler_spec next e g a :
  inv g a -> next_allowed next -> short e -> in_time (total e + next_lasts next) a ->
  exists called a',
    IRQhandler (react next) e a = (called, a') /\
    inv (match called with Some _ => served next g | None => g end) a' /\
    (called = None \/ called = Some (TimeConv.tick2ns (tc a) (time a))) /\
    (called <> None -> forall m, earliest g = Some m -> m <= time a) /\
    (earliest g <> None -> current g + quirkAdvance <= time a -> called <> None).
Proof.
  intros Hinv Hal Hsh Hin. unfold IRQhandler.
  assert (Htot : 0 <= total e) by (destruct Hsh as (? & ? & ?); unfold total; lia).
  assert (Hnl : 0 <= next_lasts next) by (destruct next as [r|]; simpl in *; [|lia]; destruct Hal as (? & (? & ? & ?) & ?); unfold lasts, total; lia).
  assert (Hta : time a < 2 ^ 62) by (destruct Hin; lia).
  destruct (IRQgetMatchFlag (hw a) || lateIrq a) eqn:Hflag.
  - set (b := set_hw IRQclearMatchFlag a).
    assert (Htb : time b = time a) by (unfold time, b; simpl; by rewrite clearMatch_counter, clearMatch_overflow).
    assert (Hinb : in_time (total e + next_lasts next) b) by (unfold in_time in *; by rewrite Htb).
    destruct (read_time e b) as (n & c & Hread & Hn & Hel); [by destruct Hinv as [[? ?]]|done|by eapply in_time_elapse|].
    rewrite Hread, Htb. destruct (elapsed_fields _ _ _ Hel) as (Hu & Hui & Htc & Hla & Hre & Htn & Hn0).
    assert (Hinc : in_time (next_lasts next) c).
    { eapply (elapsed_in_time n); [done| |done]. unfold in_time in *. lia. }
    assert (Hirq : IRQgetIrqTick c = current g + quirkAdvance).
    { unfold IRQgetIrqTick. rewrite Hui, Hre. simpl. rewrite clearMatch_reg. apply Hinv. }
    change (tc (set_late false c)) with (tc c). rewrite Hirq, Hla, Htc.
    change (lateIrq b) with (lateIrq a). change (tc b) with (tc a).
    destruct ((current g + quirkAdvance <=? time a) || lateIrq a) eqn:Hcall.
    + destruct (react_inv next g (set_late false c) (TimeConv.tick2ns (tc a) (time a)) Hal) as [Hinv' Ht'].
      { unfold in_time in *. exact Hinc. }
      { by eapply called_inv. }
      pose proof (overflow_inv _ _ Hinv' Ht') as Hov. simpl.
      destruct (IRQgetOverflowFlag _); eexists _, _; (split; [done|]); (split; [exact Hov|]);
        (split; [by right|]); (split; [|done]); intros _ m Hm; by apply (due_earliest g).
    + apply orb_false_iff in Hcall as [Hlt Hlate]. apply Z.leb_gt in Hlt.
      assert (Hinv' : inv g c) by (eapply inv_elapsed; [done|]; apply clear_match_inv; [done|lia]).
      pose proof (overflow_inv _ _ Hinv' ltac:(destruct Hinc; lia)) as Hov.
      destruct (IRQgetOverflowFlag _); eexists _, _; (split; [done|]); (split; [exact Hov|]);
        (split; [by left|]); (split; [done|]); lia.
  - apply orb_false_iff in Hflag as [Hmatch Hlate]. pose proof (overflow_inv _ _ Hinv Hta) as Hov.
    destruct (IRQgetOverflowFlag _); eexists _, _; (split; [done|]); (split; [exact Hov|]);
        (split; [by left|]); (split; [done|]); intros Hne Hdue; destruct (inv_pending _ _ Hinv Hne Hdue); congruence.
Qed.

Record initial (a : TimerAdapter) : Prop := Initial {
  initial_wf : wf a;
  initial_irq : upperIrqTick a = 0;
  initial_reg : IRQgetTimerMatchReg (hw a) = 0;
  initial_late : lateIrq a = false;
}.

Definition reachable (s : asked * TimerAdapter) : Prop :=
  exists a, initial a /\ rtc step (Asked None (- quirkAdvance), a) s.

Lemma initial_inv a : initial a -> inv (Asked None (- quirkAdvance)) a.
Proof.
  intros [Hwf Hi Hr Hl]. split; simpl; [done| | |congruence|done|done].
  - unfold IRQgetIrqTick. rewrite Hi, Hr. change (Z.lor 0 0) with 0. simpl. lia.
  - rewrite Hr. replace (- quirkAdvance + quirkAdvance) with 0 by lia. pose proof period_pos. by rewrite Z.mod_0_l by lia.
Qed.

Lemma step_inv s s' : step s s' -> inv s.1 s.2 -> inv s'.1 s'.2.
Proof.
  destruct 1 as [n g a Hin|r g a Hal Hin|next e g a called a' Hal Hsh Hin Hh]; simpl; intros Hinv.
  - eapply inv_elapsed; [by constructor|done].
  - by apply issue_inv.
  - destruct (handler_spec next e g a Hinv Hal Hsh Hin) as (c & a1 & Heq & Hinv' & _). rewrite Hh in Heq. by injection Heq as -> ->.
Qed.

Lemma reachable_inv g a : reachable (g, a) -> inv g a.
Proof.
  intros (a0 & Hi & Hr). change (inv (g, a).1 (g, a).2). apply initial_inv in Hi.
  change (inv (Asked None (- quirkAdvance), a0).1 (Asked None (- quirkAdvance), a0).2) in Hi.
  induction Hr as [|x y z Hs _ IH]; [done|]. apply IH. by eapply step_inv.
Qed.

(** C3: the pending bit trick: with interrupts disabled for less than one
    overflow of the hardware timer, [IRQgetTimeTick] is the time at which the
    counter was first read, wherever the counter overflows: before the call,
    between the two reads of the counter or not at all. *)
Theorem pending_bit_trick e a :
  wf a -> short e -> in_time (total e) a ->
  exists n, (IRQgetTimeTick e a).1 = time a /\ 0 <= n <= total e /\ time (IRQgetTimeTick e a).2 = time a + n.
Proof.
  intros Hwf Hsh Hin. destruct (read_time e a Hwf Hsh Hin) as (n & a' & Heq & Hn & Hel).
  exists n. rewrite Heq. simpl. destruct (elapsed_fields _ _ _ Hel) as (_ & _ & _ & _ & _ & ? & ?). done.
Qed.

(** C4: in any interleaving of the passing of time, requests of the kernel
    and interrupts, where the overflow is served in time: the interrupt is
    pending as soon as the last request is due (with the [quirkAdvance]); a
    handler that runs then calls [IRQtimerInterrupt] with the current time; and
    no handler calls it before the earliest request since the last call. *)
Theorem interrupt_when_due g a next e :
  reachable (g, a) -> next_allowed next -> short e -> in_time (total e + next_lasts next) a ->
  (earliest g <> None -> current g + quirkAdvance <= time a ->
     (IRQgetMatchFlag (hw a) = true \/ lateIrq a = true) /\
     (IRQhandler (react next) e a).1 = Some (TimeConv.tick2ns (tc a) (time a))) /\
  ((IRQhandler (react next) e a).1 <> None -> forall m, earliest g = Some m -> m <= time a).
Proof.
  intros Hr Hal Hsh Hin. apply reachable_inv in Hr.
  destruct (handler_spec next e g a Hr Hal Hsh Hin) as (c & a1 & Heq & _ & Hval & Hearly & Hdue). rewrite Heq. simpl.
  split; [|exact Hearly]. intros Hne Hle. split; [by apply Hr|]. destruct Hval as [Hv|Hv]; [by destruct (Hdue Hne Hle)|done].
Qed.
End adapter.

(** ** A timer *)

Record Sim := mkSim { counter : Z; matchReg : Z; overflowFlag : bool; matchFlag : bool; irq : bool; running : bool }.

(** A simulated 16 bit timer. *)
#[local] Instance sim_ops : TimerOps Sim := {
  IRQgetTimerCounter d := counter d mod 2 ^ 16;
  IRQsetTimerCounter v d := mkSim v (matchReg d) (overflowFlag d) (matchFlag d) (irq d) (running d);
  IRQgetTimerMatchReg := matchReg;
  IRQsetTimerMatchReg v d := mkSim (counter d) v (overflowFlag d) (matchFlag d) (irq d) (running d);
  IRQgetOverflowFlag := overflowFlag;
  IRQclearOverflowFlag d := mkSim (counter d) (matchReg d) false (matchFlag d) (irq d) (running d);
  IRQgetMatchFlag := matchFlag;
  IRQclearMatchFlag d := mkSim (counter d) (matchReg d) (overflowFlag d) false (irq d) (running d);
  IRQforcePendingIrq d := mkSim (counter d) (matchReg d) (overflowFlag d) (matchFlag d) true (running d);
  IRQstopTimer d := mkSim (counter d) (matchReg d) (overflowFlag d) (matchFlag d) (irq d) false;
  IRQstartTimer d := mkSim (counter d) (matchReg d) (overflowFlag d) (matchFlag d) (irq d) true;
  elapse n d := mkSim (counter d + n) (matchReg d) (overflowFlag d || (2 ^ 16 <=? counter d mod 2 ^ 16 + n))
    (matchFlag d || ((matchReg d - counter d - 1) mod 2 ^ 16 <? n)) (irq d) (running d);
}.

#[local] Instance sim_timer : Timer 16 Sim.
Proof.
  split; simpl; try done.
  - intros d. apply Z.mod_pos_bound. lia.
  - intros n d Hn. by rewrite Zplus_mod_idemp_l.
  - intros n k d Hk Hm. apply orb_true_intro. right. apply Z.ltb_lt.
    rewrite Zplus_mod_idemp_l in Hm. rewrite <- Hm.
    assert (Heq : ((counter d + k) mod 2 ^ 16 - counter d - 1) mod 2 ^ 16 = (k - 1) mod 2 ^ 16).
    { rewrite <- Z.sub_add_distr, Zminus_mod_idemp_l. f_equal. lia. }
    rewrite Heq. pose proof (Z.mod_le (k - 1) (2 ^ 16)). lia.
  - intros n d ->. done.
Qed.

(** The software counter is at 3 periods; the counter overflows between its
    two reads, and after the first but before the flag. *)
Lemma pending_bit_trick_witness :
  let a := mkTimer (3 * 2 ^ 16) 0 TimeConv.new_TimeConversion false (mkSim 65534 0 false false false true) in
  exists n, (IRQgetTimeTick 16 (Delays 4 2) a).1 = time 16 a /\ 0 <= n <= total (Delays 4 2) /\
    time 16 (IRQgetTimeTick 16 (Delays 4 2) a).2 = time 16 a + n.
Proof.
  apply (pending_bit_trick 16); [lia| | |].
  - split; [by exists 3|simpl; lia].
  - unfold short, total. simpl. lia.
  - unfold in_time, time, total. vm_compute. split_and!; done.
Defined.

(** The timer just started, asked for tick 70000, past its first overflow. *)
Definition ex_start : TimerAdapter := mkTimer 0 0 TimeConv.new_TimeConversion false (mkSim 0 0 false false false true).
Definition ex_request : request := Request 1 (Delays 1 1) 70000.
Definition ex_asked : TimerAdapter := issue 16 5 ex_request ex_start.
Definition ex_due : TimerAdapter := set_hw (elapse 70010) ex_asked.
Definition ex_ghost : asked := ask 70000 (Asked None (- 5)).

Example ex_due_time : time 16 ex_due = 70012 /\ IRQgetIrqTick ex_due = 70005.
Proof. done. Qed.

Lemma interrupt_when_due_witness :
  (earliest ex_ghost <> None -> current ex_ghost + 5 <= time 16 ex_due ->
     (IRQgetMatchFlag (hw ex_due) = true \/ lateIrq ex_due = true) /\
     (IRQhandler 16 (react 16 5 None) (Delays 1 1) ex_due).1 = Some (TimeConv.tick2ns (tc ex_due) (time 16 ex_due))) /\
  ((IRQhandler 16 (react 16 5 None) (Delays 1 1) ex_due).1 <> None -> forall m, earliest ex_ghost = Some m -> m <= time 16 ex_due).
Proof.
  apply (interrupt_when_due 16 5); [lia|lia| |done| |].
  - exists ex_start. split.
    + split; [|done..]. split; [by exists 0|simpl; lia].
    + eapply rtc_l; [apply (step_issue 16 5 ex_request)|eapply rtc_l; [apply (step_elapse 16 5 70010)|apply rtc_refl]].
      * unfold allowed, short, total. simpl. lia.
      * unfold in_time, time, lasts, total. vm_compute. split_and!; done.
      * unfold in_time, time. vm_compute. split_and!; done.
  - unfold short, total. simpl. lia.
  - unfold in_time, time, total. vm_compute. split_and!; done.
Defined.

End OsTimer.
