(* ===== verification/ProcessPool.v ===== *)
(** * The process pool

    [kernel/process_pool.h] and [.cpp]: the allocator of the memory images of
    the processes.  A bitmap tells which kilobytes of the pool are used, a map
    the size of every allocated block.  Addresses are numbers of 32 bits. *)
From S2P Require Import Prelude Errors.

Local Open Scope Z_scope.

Module ProcessPool.

Definition blockBits : Z := 10.
Definition blockSize : Z := Z.shiftl 1 blockBits.

Record ProcessPool := mkPool {
  bitmap : list Z;
  poolBase : Z;
  poolSize : Z;
  allocatedBlocks : gmap Z Z;
}.

Definition set_bitmap (l : list Z) (p : ProcessPool) : ProcessPool :=
  mkPool l (poolBase p) (poolSize p) (allocatedBlocks p).
Definition set_blocks (m : gmap Z Z) (p : ProcessPool) : ProcessPool :=
  mkPool (bitmap p) (poolBase p) (poolSize p) m.

(** The exceptions of the allocator. *)
Inductive exn := runtime_error | bad_alloc.

(** The word of a bit; outside the array it is undefined behaviour. *)
Definition word_of (bit : Z) : nat := Z.to_nat (bit / 32).
Definition mask_of (bit : Z) : Z := u32 (Z.shiftl 1 (bit mod 32)).

Definition testBit (bit : Z) (p : ProcessPool) : exec bool :=
  w ← deref (bitmap p !! word_of bit);
  Done (negb (Z.land w (mask_of bit) =? 0)).

Definition setBit (bit : Z) (p : ProcessPool) : exec ProcessPool :=
  w ← deref (bitmap p !! word_of bit);
  Done (set_bitmap (<[word_of bit := Z.lor w (mask_of bit)]> (bitmap p)) p).

Definition clearBit (bit : Z) (p : ProcessPool) : exec ProcessPool :=
  w ← deref (bitmap p !! word_of bit);
  Done (set_bitmap (<[word_of bit := Z.land w (u32 (Z.lnot (mask_of bit)))]> (bitmap p)) p).

(** The constructor; the [memset] of [numBytes] bytes clears the array when
    these are whole words, and is past its end otherwise. *)
Definition new_ProcessPool (base size : Z) : ProcessPool :=
  let numBytes := size / blockSize / 8 in
  mkPool (replicate (Z.to_nat (numBytes / 4)) 0%Z) base size (∅ : gmap Z Z).

(** The loop that tests [n] bits: [notEmpty]. *)
Fixpoint test_range (n : nat) (i : Z) (p : ProcessPool) : exec bool :=
  match n with
  | O => Done false
  | S n => b ← testBit i p; if (b : bool) then Done true else test_range n (i + 1) p
  end.

Fixpoint set_range (n : nat) (i : Z) (p : ProcessPool) : exec ProcessPool :=
  match n with
  | O => Done p
  | S n => p ← setBit i p; set_range n (i + 1) p
  end.

Fixpoint clear_range (n : nat) (i : Z) (p : ProcessPool) : exec ProcessPool :=
  match n with
  | O => Done p
  | S n => p ← clearBit i p; clear_range n (i + 1) p
  end.

(** The search of [allocate], from bit [i]. *)
Fixpoint search (n : nat) (i size : Z) (p : ProcessPool) : exec ((Z + exn) * ProcessPool) :=
  match n with
  | O => Fault OutOfFuel
  | S n =>
      let sizeBit := size / blockSize in
      if i <=? poolSize p / blockSize then
        notEmpty ← test_range (Z.to_nat sizeBit) i p;
        if (notEmpty : bool) then search n (u32 (i + sizeBit)) size p
        else
          p ← set_range (Z.to_nat sizeBit) i p;
          let result := u32 (poolBase p + i * blockSize) in
          Done (inl result, set_blocks (<[result := size]> (allocatedBlocks p)) p)
      else Done (inr bad_alloc, p)
  end.

Definition bad_size (size : Z) (p : ProcessPool) : bool :=
  negb (Z.land size (u32 (size - 1)) =? 0) || (poolSize p <? size) || (size <? blockSize).

(** The first bit whose address is a multiple of [size]. *)
Definition first_bit (size : Z) (p : ProcessPool) : Z :=
  let offset := if poolBase p mod size =? 0 then 0 else size - poolBase p mod size in
  offset / blockSize.

Definition fuel (p : ProcessPool) : nat := Z.to_nat (poolSize p / blockSize + 2).

Definition allocate (size : Z) (p : ProcessPool) : exec ((Z + exn) * ProcessPool) :=
  if bad_size size p then Done (inr runtime_error, p)
  else search (fuel p) (first_bit size p) size p.

Definition deallocate (ptr : Z) (p : ProcessPool) : exec ((unit + exn) * ProcessPool) :=
  match allocatedBlocks p !! ptr with
  | None => Done (inr runtime_error, p)
  | Some sz =>
      let size := sz / blockSize in
      let firstBit := u32 (ptr - poolBase p) / blockSize in
      p ← clear_range (Z.to_nat size) firstBit p;
      Done (inl (), set_blocks (delete ptr (allocatedBlocks p)) p)
  end.

(** ** The bitmap *)

Definition bits (p : ProcessPool) : Z := 32 * Z.of_nat (length (bitmap p)).
Definition bit (p : ProcessPool) (i : Z) : bool :=
  match bitmap p !! word_of i with Some w => Z.testbit w (i mod 32) | None => false end.

Lemma mask_eq i : mask_of i = 2 ^ (i mod 32).
Proof.
  unfold mask_of. rewrite Z.shiftl_1_l. pose proof (Z.mod_pos_bound i 32 ltac:(lia)).
  apply wrapU_small. split; [apply Z.pow_nonneg; lia|apply Z.pow_lt_mono_r; lia].
Qed.

Lemma mask_bit i n : 0 <= n -> Z.testbit (mask_of i) n = (i mod 32 =? n).
Proof. intros. rewrite mask_eq. apply Z.pow2_bits_eqb. pose proof (Z.mod_pos_bound i 32 ltac:(lia)). lia. Qed.

Lemma land_pow2 w k : 0 <= k -> negb (Z.land w (2 ^ k) =? 0) = Z.testbit w k.
Proof.
  intros Hk. destruct (Z.testbit w k) eqn:E.
  - apply negb_true_iff, Z.eqb_neq. intros H0. apply (f_equal (fun z => Z.testbit z k)) in H0.
    rewrite Z.land_spec, E, Z.pow2_bits_true, Z.bits_0 in H0 by done. done.
  - apply negb_false_iff, Z.eqb_eq. apply Z.bits_inj'. intros n Hn.
    rewrite Z.land_spec, Z.bits_0, Z.pow2_bits_eqb by done. destruct (Z.eqb_spec k n) as [<-|]; [by rewrite E|apply andb_false_r].
Qed.

Lemma word_in p i : 0 <= i < bits p -> exists w, bitmap p !! word_of i = Some w.
Proof.
  unfold bits, word_of. intros Hi. apply lookup_lt_is_Some. apply Nat2Z.inj_lt. rewrite Z2Nat.id by (apply Z.div_pos; lia).
  apply Z.div_lt_upper_bound; lia.
Qed.

Lemma word_out p i : bits p <= i -> bitmap p !! word_of i = None.
Proof.
  unfold bits, word_of. intros Hi. apply lookup_ge_None. apply Nat2Z.inj_le. rewrite Z2Nat.id by (apply Z.div_pos; lia).
  apply Z.div_le_lower_bound; lia.
Qed.

Lemma same_word i j : 0 <= i -> 0 <= j -> word_of i = word_of j -> i mod 32 = j mod 32 -> i = j.
Proof.
  unfold word_of. intros Hi Hj Hw Hm. apply Z2Nat.inj in Hw; [|apply Z.div_pos; lia..].
  rewrite (Z.div_mod i 32), (Z.div_mod j 32) by lia. congruence.
Qed.

Lemma testBit_in p i : 0 <= i < bits p -> testBit i p = Done (bit p i).
Proof.
  intros Hi. unfold testBit, bit. destruct (word_in p i Hi) as [w Hw]. rewrite Hw. simpl. rewrite mask_eq, land_pow2; [done|].
  apply Z.mod_pos_bound. lia.
Qed.

Lemma testBit_out p i : bits p <= i -> testBit i p = Fault Undefined.
Proof. intros Hi. unfold testBit. by rewrite word_out. Qed.

(** What setting or clearing bits does: [f] on the bits of [P]. *)
Definition updates (P : Z -> bool) (f : bool -> bool) (p p' : ProcessPool) : Prop :=
  poolBase p' = poolBase p /\ poolSize p' = poolSize p /\ allocatedBlocks p' = allocatedBlocks p /\
  bits p' = bits p /\ forall j, 0 <= j < bits p -> bit p' j = if P j then f (bit p j) else bit p j.

Lemma update_word p i w w' f :
  0 <= i < bits p -> bitmap p !! word_of i = Some w ->
  (forall n, 0 <= n < 32 -> Z.testbit w' n = if i mod 32 =? n then f (Z.testbit w n) else Z.testbit w n) ->
  updates (Z.eqb i) f p (set_bitmap (<[word_of i := w']> (bitmap p)) p).
Proof.
  intros Hi Hw Hb. split_and!; [done..|unfold bits; simpl; by rewrite length_insert|]. intros j Hj. unfold bit. simpl.
  destruct (decide (word_of i = word_of j)) as [He|He].
  - rewrite <- He, Hw, list_lookup_insert_eq by by eapply lookup_lt_Some. rewrite Hb by (apply Z.mod_pos_bound; lia).
    destruct (Z.eqb_spec (i mod 32) (j mod 32)) as [Hm|Hm]; destruct (Z.eqb_spec i j) as [Hij|Hij]; try done.
    + destruct Hij. apply same_word; (done || lia).
    + by destruct Hm; subst.
  - rewrite list_lookup_insert_ne by done. destruct (Z.eqb_spec i j); [by subst|done].
Qed.

Lemma setBit_in p i : 0 <= i < bits p -> exists p', setBit i p = Done p' /\ updates (Z.eqb i) (fun _ => true) p p'.
Proof.
  intros Hi. unfold setBit. destruct (word_in p i Hi) as [w Hw]. rewrite Hw. eexists. split; [done|].
  eapply update_word; [done..|]. intros n Hn. rewrite Z.lor_spec, mask_bit by lia. destruct (i mod 32 =? n); [apply orb_true_r|apply orb_false_r].
Qed.

Lemma clearBit_in p i : 0 <= i < bits p -> exists p', clearBit i p = Done p' /\ updates (Z.eqb i) (fun _ => false) p p'.
Proof.
  intros Hi. unfold clearBit. destruct (word_in p i Hi) as [w Hw]. rewrite Hw. eexists. split; [done|].
  eapply update_word; [done..|]. intros n Hn. unfold wrapU.
  rewrite Z.land_spec, Z.mod_pow2_bits_low, Z.lnot_spec, mask_bit by lia.
  destruct (i mod 32 =? n); [apply andb_false_r|apply andb_true_r].
Qed.

Definition between (i n j : Z) : bool := (i <=? j) && (j <? i + n).

Lemma updates_more c i n p p1 p2 :
  0 <= i -> 0 <= n -> updates (Z.eqb i) (fun _ => c) p p1 -> updates (between (i + 1) n) (fun _ => c) p1 p2 ->
  updates (between i (n + 1)) (fun _ => c) p p2.
Proof.
  intros Hi Hn (H1 & H2 & H3 & H4 & H5) (H1' & H2' & H3' & H4' & H5'). split_and!; try congruence.
  intros j Hj. rewrite H5' by congruence. rewrite H5 by done. unfold between.
  destruct (Z.leb_spec (i + 1) j), (Z.leb_spec i j), (Z.ltb_spec j (i + 1 + n)), (Z.ltb_spec j (i + (n + 1))), (Z.eqb_spec i j); simpl; (done || lia).
Qed.

Lemma updates_none P c p : (forall j, 0 <= j -> P j = false) -> updates P (fun _ => c) p p.
Proof. intros HP. split_and!; try done. intros j [? _]. by rewrite HP. Qed.

Lemma between_nil i j : between i 0 j = false.
Proof. unfold between. destruct (Z.leb_spec i j), (Z.ltb_spec j (i + 0)); simpl; (done || lia). Qed.

Lemma set_range_in n i p :
  0 <= i -> i + Z.of_nat n <= bits p ->
  exists p', set_range n i p = Done p' /\ updates (between i (Z.of_nat n)) (fun _ => true) p p'.
Proof.
  revert i p. induction n as [|n IH]; intros i p Hi Hn.
  - eexists. split; [done|]. apply updates_none. intros. apply between_nil.
  - simpl. destruct (setBit_in p i) as (p1 & -> & Hu); [lia|]. simpl. destruct (IH (i + 1) p1) as (p2 & -> & Hu2); [lia| |].
    + destruct Hu as (_ & _ & _ & -> & _). lia.
    + eexists. split; [done|]. rewrite Nat2Z.inj_succ, <- Z.add_1_r. eapply updates_more; (done || lia).
Qed.

Lemma clear_range_in n i p :
  0 <= i -> i + Z.of_nat n <= bits p ->
  exists p', clear_range n i p = Done p' /\ updates (between i (Z.of_nat n)) (fun _ => false) p p'.
Proof.
  revert i p. induction n as [|n IH]; intros i p Hi Hn.
  - eexists. split; [done|]. apply updates_none. intros. apply between_nil.
  - simpl. destruct (clearBit_in p i) as (p1 & -> & Hu); [lia|]. simpl. destruct (IH (i + 1) p1) as (p2 & -> & Hu2); [lia| |].
    + destruct Hu as (_ & _ & _ & -> & _). lia.
    + eexists. split; [done|]. rewrite Nat2Z.inj_succ, <- Z.add_1_r. eapply updates_more; (done || lia).
Qed.

(** A bit of the range is set. *)
Definition occupied (p : ProcessPool) (c n : Z) : Prop := exists j, c <= j < c + n /\ j < bits p /\ bit p j = true.

Lemma test_range_spec n i p :
  0 <= i ->
  match test_range n i p with
  | Done true => occupied p i (Z.of_nat n)
  | Done false => (n <> O -> i + Z.of_nat n <= bits p) /\ forall j, i <= j < i + Z.of_nat n -> bit p j = false
  | Fault Undefined => bits p < i + Z.of_nat n /\ forall j, i <= j < bits p -> bit p j = false
  | Fault _ => False
  end.
Proof.
  revert i. induction n as [|n IH]; intros i Hi; [split; [done|intros; lia]|]. cbn [test_range].
  destruct (Z.lt_ge_cases i (bits p)) as [Hlt|Hge].
  - rewrite testBit_in by lia. cbn [mbind outcome_bind]. destruct (bit p i) eqn:Eb.
    + exists i. split_and!; (done || lia).
    + specialize (IH (i + 1) ltac:(lia)). destruct (test_range n (i + 1) p) as [[]|[]]; try done.
      * destruct IH as (j & Hj & ? & ?). exists j. split_and!; (done || lia).
      * destruct IH as [Hle Hfree]. split; [destruct n; lia|]. intros j Hj. destruct (decide (j = i)) as [->|]; [done|]. apply Hfree. lia.
      * destruct IH as [Hle Hfree]. split; [lia|]. intros j Hj. destruct (decide (j = i)) as [->|]; [done|]. apply Hfree. lia.
  - rewrite testBit_out by done. cbn [mbind outcome_bind]. split; [lia|intros; lia].
Qed.

(** ** The search *)

(** The constructor's pool, of 32 words or a multiple. *)
Record sized (p : ProcessPool) : Prop := Sized {
  sized_pool : poolSize p = bits p * blockSize;
  sized_base : 0 <= poolBase p;
  sized_aligned : poolBase p mod blockSize = 0;
  sized_end : poolBase p + poolSize p <= 2 ^ 32;
}.

(** No aligned run of [n] bits from [i] on is free. *)
Definition none_free (i n : Z) (p : ProcessPool) : Prop :=
  forall m, 0 <= m -> i + m * n + n <= bits p -> occupied p (i + m * n) n.

Lemma bits_limit p : sized p -> 0 <= bits p <= 2 ^ 22.
Proof. intros [? ? ? ?]. unfold blockSize, blockBits in *. rewrite Z.shiftl_1_l in *. unfold bits in *. lia. Qed.

Lemma none_free_next i n p : 0 <= n -> occupied p i n \/ bits p < i + n -> none_free (i + n) n p -> none_free i n p.
Proof.
  intros Hn0 Hocc Hn m Hm Hle. destruct (decide (m = 0)) as [->|].
  - rewrite Z.mul_0_l, Z.add_0_r in *. destruct Hocc; [done|lia].
  - replace (i + m * n) with (i + n + (m - 1) * n) in * by lia. apply Hn; lia.
Qed.

Lemma none_free_end i n p : 0 < n -> bits p < i + n -> none_free i n p.
Proof. intros Hn Hi m Hm Hle. nia. Qed.

(** What [search] gives from bit [i]: the first free run, or nothing. *)
Definition found (i size ptr : Z) (p p' : ProcessPool) : Prop :=
  let n := size / blockSize in
  exists c m, c = i + m * n /\ 0 <= m /\ ptr = poolBase p + c * blockSize /\ c + n <= bits p /\
    (forall j, c <= j < c + n -> bit p j = false) /\
    (forall k, 0 <= k < m -> occupied p (i + k * n) n) /\
    exists p1, updates (between c n) (fun _ => true) p p1 /\ p' = set_blocks (<[ptr := size]> (allocatedBlocks p)) p1.

Lemma found_next i size ptr p p' :
  let n := size / blockSize in occupied p i n -> found (i + n) size ptr p p' -> found i size ptr p p'.
Proof.
  intros n Hocc (c & m & Hc & Hm & Hp & Hle & Hfree & Hbefore & Hrest). exists c, (m + 1). fold n in Hc, Hbefore |- *.
  split_and!; try (done || lia). intros k Hk. destruct (decide (k = 0)) as [->|].
  - by rewrite Z.mul_0_l, Z.add_0_r.
  - replace (i + k * n) with (i + n + (k - 1) * n) by lia. apply Hbefore. lia.
Qed.

(** The last candidate of the search sticks out of the bitmap; its bits in the bitmap are clear. *)
Definition last_free (i n : Z) (p : ProcessPool) : Prop :=
  exists m, 0 <= m /\ i + m * n <= bits p < i + m * n + n /\ forall j, i + m * n <= j < bits p -> bit p j = false.

Lemma last_free_here i n p : i <= bits p < i + n -> (forall j, i <= j < bits p -> bit p j = false) -> last_free i n p.
Proof. intros Hi Hf. exists 0. rewrite Z.mul_0_l, Z.add_0_r. split; [lia|]. by split; [lia|]. Qed.

Lemma last_free_next i n p : 0 < n -> i <= bits p -> occupied p i n -> last_free i n p <-> last_free (i + n) n p.
Proof.
  intros Hn Hi (j & Hj & Hjb & Hb). split; intros (m & Hm & Hin & Hf).
  - destruct (decide (m = 0)) as [->|].
    + rewrite Z.mul_0_l, Z.add_0_r in *. rewrite Hf in Hb; [done|lia].
    + exists (m - 1). replace (i + n + (m - 1) * n) with (i + m * n) by lia. split; [lia|done].
  - exists (m + 1). replace (i + (m + 1) * n) with (i + n + m * n) by lia. split; [lia|done].
Qed.

Lemma last_free_past i n p : 0 < n -> bits p < i -> ~ last_free i n p.
Proof. intros Hn Hi (m & Hm & [Hin _] & _). nia. Qed.

Lemma search_spec n i size p :
  sized p -> 0 <= i -> 0 < size / blockSize <= bits p -> (0 < n)%nat -> bits p + 2 - i <= Z.of_nat n ->
  match search n i size p with
  | Done (inl ptr, p') => found i size ptr p p'
  | Done (inr e, p') => e = bad_alloc /\ p' = p /\ none_free i (size / blockSize) p /\ ~ last_free i (size / blockSize) p
  | Fault Undefined => none_free i (size / blockSize) p /\ last_free i (size / blockSize) p
  | Fault _ => False
  end.
Proof.
  intros Hs. pose proof (bits_limit p Hs) as Hb. revert i. induction n as [|n IH]; intros i Hi Hsz Hn0 Hn; [lia|].
  cbn [search]. assert (Hbs : poolSize p / blockSize = bits p) by (rewrite (sized_pool p Hs); by apply Z.div_mul).
  rewrite Hbs. set (k := size / blockSize) in *. destruct (Z.leb_spec i (bits p)) as [Hle|Hgt];
    [|split_and!; [done..|apply none_free_end; lia|apply last_free_past; lia]].
  pose proof (test_range_spec (Z.to_nat k) i p Hi) as Ht. rewrite Z2Nat.id in Ht by lia.
  destruct (test_range (Z.to_nat k) i p) as [[]|[]]; cbn [mbind outcome_bind]; try done.
  - rewrite wrapU_small by lia. specialize (IH (i + k) ltac:(lia) Hsz ltac:(lia) ltac:(lia)).
    destruct (search n (i + k) size p) as [[[ptr|e] p']|[]]; try done.
    + by apply found_next.
    + destruct IH as (? & ? & ? & Hl). split_and!; [done..| |by rewrite last_free_next by (done || lia)].
      apply none_free_next; (lia || auto).
    + destruct IH as (? & Hl). split; [|by rewrite last_free_next by (done || lia)]. apply none_free_next; (lia || auto).
  - destruct Ht as [Hin Hfree]. specialize (Hin ltac:(lia)).
    destruct (set_range_in (Z.to_nat k) i p Hi) as (p1 & -> & Hu); [lia|]. rewrite Z2Nat.id in Hu by lia. simpl.
    destruct Hu as (Hu1 & Hu2 & Hu3 & Hu4 & Hu5). rewrite Hu1, Hu3. rewrite wrapU_small.
    + exists i, 0. fold k. split_and!; try (done || lia). exists p1. done.
    + destruct Hs as [Hs1 Hs2 Hs3 Hs4]. revert Hs1 Hs4. unfold blockSize, blockBits. rewrite Z.shiftl_1_l. lia.
  - destruct Ht as [Ht Hf]. split; [apply none_free_end; lia|]. apply last_free_here; [lia|done].
Qed.

(** ** The blocks *)

(** The block of [s] bytes at [a] shares a byte with the one of [t] at [b]. *)
Definition overlap (a s b t : Z) : Prop := a < b + t /\ b < a + s.

Record inv (p : ProcessPool) : Prop := Inv {
  inv_sized : sized p;
  inv_size a s : allocatedBlocks p !! a = Some s -> 0 <= s < 2 ^ 32 /\ bad_size s p = false;
  inv_aligned a s : allocatedBlocks p !! a = Some s -> a mod s = 0;
  inv_inside a s : allocatedBlocks p !! a = Some s -> poolBase p <= a /\ a + s <= poolBase p + poolSize p;
  inv_disjoint a s b t : allocatedBlocks p !! a = Some s -> allocatedBlocks p !! b = Some t -> a <> b -> ~ overlap a s b t;
  inv_bits j : 0 <= j < bits p ->
    bit p j = true <-> exists a s, allocatedBlocks p !! a = Some s /\ a <= poolBase p + j * blockSize < a + s;
}.

(** A good size is a power of two of blocks. *)
Lemma good_size size p :
  0 <= size < 2 ^ 32 -> bad_size size p = false ->
  size = size / blockSize * blockSize /\ 0 < size / blockSize /\ size <= poolSize p.
Proof.
  unfold bad_size. intros Hs Hb. rewrite !orb_false_iff, negb_false_iff, Z.eqb_eq, !Z.ltb_ge in Hb. destruct Hb as [[Hl Hp] Hm].
  unfold blockSize, blockBits in *. rewrite Z.shiftl_1_l in *. rewrite wrapU_small in Hl by lia.
  pose proof (Z.log2_spec size ltac:(lia)) as Hlog. set (k := Z.log2 size) in *.
  assert (Hk : 10 <= k) by (apply Z.log2_le_pow2; lia).
  assert (Heq : size = 2 ^ k).
  { destruct (decide (size = 2 ^ k)) as [|Hne]; [done|]. exfalso.
    assert (Hk1 : Z.log2 (size - 1) = k) by (apply Z.log2_unique; lia).
    apply (f_equal (fun z => Z.testbit z k)) in Hl. rewrite Z.land_spec, Z.bits_0 in Hl.
    unfold k in Hl at 1. rewrite Z.bit_log2, <- Hk1, Z.bit_log2 in Hl by lia. done. }
  assert (Hd : size = 2 ^ (k - 10) * 2 ^ 10) by (rewrite <- Z.pow_add_r by lia; rewrite Heq; f_equal; lia).
  assert (Hq : size / 2 ^ 10 = 2 ^ (k - 10)) by (rewrite Hd; apply Z.div_mul; lia).
  rewrite Hq. split; [done|]. split; [apply Z.pow_pos_nonneg; lia|done].
Qed.

(** The candidates of the search are the aligned addresses. *)
Lemma first_bit_spec size p :
  sized p -> 0 <= size < 2 ^ 32 -> bad_size size p = false ->
  0 <= first_bit size p /\ first_bit size p * blockSize < size /\ (poolBase p + first_bit size p * blockSize) mod size = 0.
Proof.
  intros Hs Hsz Hb. destruct (good_size _ _ Hsz Hb) as (Heq & Hn & _). unfold first_bit.
  assert (Hbs : 0 < blockSize) by (unfold blockSize, blockBits; rewrite Z.shiftl_1_l; lia).
  assert (Hs0 : 0 < size) by (rewrite Heq; nia).
  pose proof (Z.mod_pos_bound (poolBase p) size Hs0) as Hmod. pose proof (Z.div_mod (poolBase p) size ltac:(lia)) as Hdm.
  destruct (Z.eqb_spec (poolBase p mod size) 0) as [H0|H0].
  - rewrite Z.div_0_l, Z.mul_0_l, Z.add_0_r by lia. lia.
  - set (r := poolBase p mod size) in *.
    assert (Hr : (size - r) mod blockSize = 0).
    { replace (size - r) with (size / blockSize * blockSize * (1 + poolBase p / size) - poolBase p) by (rewrite <- Heq; lia).
      rewrite Zminus_mod, (sized_aligned p Hs), Z.sub_0_r, Zmod_mod.
      replace (_ * _ * _) with (size / blockSize * (1 + poolBase p / size) * blockSize) by lia. by apply Z_mod_mult. }
    assert (Hx : (size - r) / blockSize * blockSize = size - r) by (pose proof (Z.div_mod (size - r) blockSize ltac:(lia)); lia).
    rewrite Hx. split_and!; [apply Z.div_pos; lia|lia|].
    replace (poolBase p + (size - r)) with ((1 + poolBase p / size) * size) by lia. by apply Z_mod_mult.
Qed.

Lemma candidate size p q :
  sized p -> 0 <= size < 2 ^ 32 -> bad_size size p = false -> q mod size = 0 -> poolBase p <= q ->
  exists m, 0 <= m /\ q = poolBase p + (first_bit size p + m * (size / blockSize)) * blockSize.
Proof.
  intros Hs Hsz Hb Hq Hle. destruct (first_bit_spec size p Hs Hsz Hb) as (Hf1 & Hf2 & Hf3).
  destruct (good_size _ _ Hsz Hb) as (Heq & Hn & _). set (o := poolBase p + first_bit size p * blockSize) in *.
  assert (Hs0 : 0 < size) by (unfold bad_size in Hb; destruct (Z.eq_dec size 0) as [->|]; [|lia]; rewrite Zdiv_0_l in Hn; lia).
  exists (q / size - o / size). pose proof (Z.div_mod q size ltac:(lia)) as Hdq. pose proof (Z.div_mod o size ltac:(lia)) as Hdo.
  rewrite Hq in Hdq. rewrite Hf3 in Hdo. split.
  - assert (o / size < q / size + 1) by (apply (Z.mul_lt_mono_pos_l size); unfold o in *; lia). lia.
  - unfold o in Hdo. replace ((first_bit size p + (q / size - o / size) * (size / blockSize)) * blockSize)
      with (first_bit size p * blockSize + (q / size - o / size) * (size / blockSize * blockSize)) by lia.
    rewrite <- Heq. unfold o in *. lia.
Qed.

Lemma blockSize_eq : blockSize = 1024.
Proof. done. Qed.

(** The blocks start at bits. *)
Lemma block_bits p a s :
  inv p -> allocatedBlocks p !! a = Some s ->
  exists c n, 0 <= c /\ 0 < n /\ c + n <= bits p /\ a = poolBase p + c * blockSize /\ s = n * blockSize.
Proof.
  intros Hi Ha. destruct (inv_size p Hi a s Ha) as [Hs Hb]. destruct (good_size _ _ Hs Hb) as (Heq & Hn & _).
  pose proof (inv_aligned p Hi a s Ha) as Hal. destruct (inv_inside p Hi a s Ha) as [Hlo Hhi].
  pose proof (inv_sized p Hi) as [Hp1 Hp2 Hp3 Hp4]. pose proof blockSize_eq as Hbs.
  set (n := s / blockSize) in *. pose proof (Z.div_mod a s ltac:(lia)) as Hda. pose proof (Z.div_mod (poolBase p) blockSize ltac:(lia)) as Hdb.
  rewrite Hal in Hda. rewrite Hp3 in Hdb.
  exists (a / s * n - poolBase p / blockSize), n.
  assert (Ha' : a = poolBase p + (a / s * n - poolBase p / blockSize) * blockSize).
  { rewrite Z.mul_sub_distr_r. rewrite Hdb at 1. rewrite Hda at 1. rewrite Heq at 1. lia. }
  set (c := a / s * n - poolBase p / blockSize) in *. clearbody c n. rewrite Hbs in *. split_and!; lia.
Qed.

Lemma occupied_overlap p c n :
  inv p -> 0 <= c -> c + n <= bits p -> 0 < n ->
  occupied p c n <-> exists a s, allocatedBlocks p !! a = Some s /\ overlap a s (poolBase p + c * blockSize) (n * blockSize).
Proof.
  intros Hi Hc Hle Hn. pose proof blockSize_eq as Hbs. unfold overlap. split.
  - intros (j & Hj & Hjb & Hb). apply (inv_bits p Hi) in Hb as (a & s & Ha & Hin); [|lia]. exists a, s. split; [done|]. rewrite Hbs in *. lia.
  - intros (a & s & Ha & Hov). destruct (block_bits p a s Hi Ha) as (c' & n' & Hc' & Hn' & Hle' & Ha' & Hs').
    rewrite Hbs in *. exists (Z.max c c'). split; [lia|]. split; [lia|]. apply (inv_bits p Hi); [lia|]. exists a, s. rewrite Hbs. split; [done|lia].
Qed.

(** [new] is allocated at [ptr]; [none] of the aligned places for [size]
    bytes is free. *)
Definition no_room (size : Z) (p : ProcessPool) : Prop :=
  forall q, q mod size = 0 -> poolBase p <= q -> q + size <= poolBase p + poolSize p ->
  exists a s, allocatedBlocks p !! a = Some s /\ overlap a s q size.

Lemma none_free_no_room size p :
  inv p -> 0 <= size < 2 ^ 32 -> bad_size size p = false ->
  none_free (first_bit size p) (size / blockSize) p -> no_room size p.
Proof.
  intros Hi Hs Hb Hnf q Hq Hlo Hhi. pose proof (inv_sized p Hi) as Hsz. destruct (good_size _ _ Hs Hb) as (Heq & Hn & _).
  destruct (candidate size p q Hsz Hs Hb Hq Hlo) as (m & Hm & Hqm). destruct (first_bit_spec size p Hsz Hs Hb) as (Hf & _).
  pose proof (sized_pool p Hsz) as Hps. pose proof blockSize_eq as Hbs. set (n := size / blockSize) in *.
  assert (Hc : first_bit size p + m * n + n <= bits p) by (rewrite Hbs in *; lia).
  specialize (Hnf m Hm Hc). apply occupied_overlap in Hnf; [|done|nia|done|done]. by rewrite <- Hqm, <- Heq in Hnf.
Qed.

Definition allocates (size ptr : Z) (p p' : ProcessPool) : Prop :=
  ptr mod size = 0 /\ poolBase p <= ptr /\ ptr + size <= poolBase p + poolSize p /\
  (forall a s, allocatedBlocks p !! a = Some s -> ~ overlap a s ptr size) /\
  (forall q, q mod size = 0 -> poolBase p <= q < ptr -> exists a s, allocatedBlocks p !! a = Some s /\ overlap a s q size) /\
  poolBase p' = poolBase p /\ poolSize p' = poolSize p /\ allocatedBlocks p' = <[ptr := size]> (allocatedBlocks p).

Lemma found_allocates size ptr p p' :
  inv p -> 0 <= size < 2 ^ 32 -> bad_size size p = false -> found (first_bit size p) size ptr p p' ->
  allocates size ptr p p'.
Proof.
  intros Hi Hs Hb (c & m & Hc & Hm & Hptr & Hle & Hfree & Hbefore & p1 & (Hu1 & Hu2 & Hu3 & Hu4 & Hu5) & ->).
  pose proof (inv_sized p Hi) as Hsz. destruct (good_size _ _ Hs Hb) as (Heq & Hn & _).
  destruct (first_bit_spec size p Hsz Hs Hb) as (Hf & _ & Hfa). pose proof (sized_pool p Hsz) as Hps. pose proof blockSize_eq as Hbs.
  set (n := size / blockSize) in *. assert (Hc0 : 0 <= c) by nia. split_and!.
  - rewrite Hptr, Hc. replace (poolBase p + (first_bit size p + m * n) * blockSize)
      with (poolBase p + first_bit size p * blockSize + m * (n * blockSize)) by lia.
    rewrite <- Heq, Z_mod_plus_full. done.
  - rewrite Hbs in *. lia.
  - rewrite Hbs in *. lia.
  - intros a s Ha Hov. assert (Hocc : occupied p c n) by (apply occupied_overlap; [done..|]; exists a, s; rewrite <- Hptr, <- Heq; done).
    destruct Hocc as (j & Hj & _ & Hbj). rewrite Hfree in Hbj by done. done.
  - intros q Hq Hlt. destruct (candidate size p q Hsz Hs Hb Hq ltac:(lia)) as (k & Hk & Hqk). fold n in Hqk.
    assert (Hkm : k < m) by (rewrite Hbs in *; nia).
    assert (Hkn : first_bit size p + k * n + n <= bits p) by nia.
    specialize (Hbefore k ltac:(lia)). apply occupied_overlap in Hbefore; [|done|nia|done|done]. by rewrite <- Hqk, <- Heq in Hbefore.
  - done.
  - done.
  - done.
Qed.

Lemma sized_same p p' : poolBase p' = poolBase p -> poolSize p' = poolSize p -> bits p' = bits p -> sized p -> sized p'.
Proof. intros H1 H2 H3 [? ? ? ?]. split; congruence. Qed.

Lemma overlap_sym a s b t : overlap a s b t -> overlap b t a s.
Proof. unfold overlap. lia. Qed.

Lemma found_inv size ptr p p' :
  inv p -> 0 <= size < 2 ^ 32 -> bad_size size p = false -> found (first_bit size p) size ptr p p' -> inv p'.
Proof.
  intros Hi Hs Hb Hf. destruct (found_allocates _ _ _ _ Hi Hs Hb Hf) as (Hal & Hlo & Hhi & Hdis & _ & Hpb & Hps & Hbl).
  destruct Hf as (c & m & _ & _ & Hptr & Hle & _ & _ & p1 & (Hu1 & Hu2 & _ & Hu4 & Hu5) & Hp').
  destruct (good_size _ _ Hs Hb) as (Heq & Hn & _). pose proof blockSize_eq as Hbs. set (n := size / blockSize) in *.
  assert (Hbits : bits p' = bits p) by (rewrite Hp'; exact Hu4).
  assert (Hbit : forall j, 0 <= j < bits p -> bit p' j = if between c n j then true else bit p j) by (intros j Hj; rewrite Hp'; by apply Hu5).
  clear Hp'. split.
  - eapply sized_same; [..|apply Hi]; done.
  - intros a s Ha. rewrite Hbl in Ha. unfold bad_size. rewrite Hps. fold (bad_size s p).
    apply lookup_insert_Some in Ha as [[<- <-]|[_ Ha]]; [done|by eapply inv_size].
  - intros a s Ha. rewrite Hbl in Ha. apply lookup_insert_Some in Ha as [[<- <-]|[_ Ha]]; [done|by eapply inv_aligned].
  - intros a s Ha. rewrite Hbl in Ha. rewrite Hpb, Hps. apply lookup_insert_Some in Ha as [[<- <-]|[_ Ha]]; [done|by eapply inv_inside].
  - intros a s b t Ha Hb' Hab. rewrite Hbl in Ha, Hb'.
    apply lookup_insert_Some in Ha as [[<- <-]|[_ Ha]]; apply lookup_insert_Some in Hb' as [[<- <-]|[_ Hb']]; [done| | |].
    + intros Ho. apply overlap_sym in Ho. by apply (Hdis b t).
    + by apply Hdis.
    + by apply (inv_disjoint p Hi).
  - intros j Hj. rewrite Hbits in Hj. rewrite Hbit, Hbl, Hpb by done. unfold between.
    assert (Hcov : ptr <= poolBase p + j * blockSize < ptr + size <-> c <= j < c + n) by (rewrite Hbs in *; lia).
    destruct (Z.leb_spec c j), (Z.ltb_spec j (c + n)); simpl.
    1: split; [intros _; exists ptr, size; rewrite lookup_insert_eq; split; [done|apply Hcov; lia]|done].
    all: rewrite (inv_bits p Hi) by done; split; intros (a & s & Ha & Hin); exists a, s; (split; [|done]).
    all: try (rewrite lookup_insert_ne; [done|]; intros <-; apply (Hdis ptr s Ha); unfold overlap; lia).
    all: apply lookup_insert_Some in Ha as [[<- <-]|[_ Ha]]; [|done]; apply Hcov in Hin; lia.
Qed.

Lemma deallocate_inv ptr size p :
  inv p -> allocatedBlocks p !! ptr = Some size ->
  exists p', deallocate ptr p = Done (inl (), p') /\ inv p' /\
    poolBase p' = poolBase p /\ poolSize p' = poolSize p /\ allocatedBlocks p' = delete ptr (allocatedBlocks p).
Proof.
  intros Hi Hptr. unfold deallocate. rewrite Hptr. destruct (block_bits p ptr size Hi Hptr) as (c & n & Hc & Hn & Hle & Ha & Hs).
  pose proof blockSize_eq as Hbs. pose proof (inv_sized p Hi) as Hsz. pose proof (bits_limit p Hsz) as Hlim.
  rewrite Hs, Z.div_mul, wrapU_small by lia.
  replace (ptr - poolBase p) with (c * blockSize) by lia. rewrite Z.div_mul by lia.
  destruct (clear_range_in (Z.to_nat n) c p Hc) as (p1 & -> & (Hu1 & Hu2 & Hu3 & Hu4 & Hu5)); [lia|]. rewrite Z2Nat.id in Hu5 by lia.
  cbn [mbind outcome_bind]. eexists. split; [done|]. split; [|by rewrite <- Hu3]. rewrite Hu3. split; simpl.
  - by eapply (sized_same p).
  - intros a s [_ Has]%lookup_delete_Some. unfold bad_size. simpl. rewrite Hu2. by eapply (inv_size p).
  - intros a s [_ Has]%lookup_delete_Some. by eapply (inv_aligned p).
  - intros a s [_ Has]%lookup_delete_Some. rewrite Hu1, Hu2. by eapply (inv_inside p).
  - intros a s b t [_ Has]%lookup_delete_Some [_ Hbt]%lookup_delete_Some. by eapply (inv_disjoint p).
  - intros j Hj. change (bits (set_blocks _ p1)) with (bits p1) in Hj. rewrite Hu4 in Hj.
    change (bit (set_blocks _ p1) j) with (bit p1 j). rewrite Hu1, Hu5 by done. unfold between.
    assert (Hcov : ptr <= poolBase p + j * blockSize < ptr + size <-> c <= j < c + n) by (rewrite Hbs in *; lia).
    destruct (Z.leb_spec c j), (Z.ltb_spec j (c + n)); simpl.
    1: { split; [done|]. intros (a & s & [Hne Has]%lookup_delete_Some & Hin). exfalso.
      apply (inv_disjoint p Hi ptr size a s Hptr Has Hne). unfold overlap. lia. }
    all: rewrite (inv_bits p Hi) by done; split; intros (a & s & Has & Hin); exists a, s; (split; [|done]).
    all: try (rewrite lookup_delete_ne; [done|]; intros <-; rewrite Hptr in Has; simplify_eq; apply Hcov in Hin; lia).
    all: by apply lookup_delete_Some in Has as [_ Has].
Qed.

Lemma new_inv base size :
  0 <= base -> 0 <= size -> base mod blockSize = 0 -> size mod (32 * blockSize) = 0 -> base + size <= 2 ^ 32 -> inv (new_ProcessPool base size).
Proof.
  intros Hb Hs Hbm Hsm He. pose proof blockSize_eq as Hbs. set (p := new_ProcessPool base size).
  assert (Hbits : bits p = size / blockSize).
  { unfold bits. simpl. rewrite length_replicate, Z2Nat.id by (repeat apply Z.div_pos; lia). rewrite !Z.div_div by lia.
    rewrite Hbs in *. change (1024 * (8 * 4)) with 32768. change (32 * 1024) with 32768 in Hsm.
    pose proof (Z.div_mod size 32768 ltac:(lia)) as Hdm. rewrite Hsm in Hdm. set (k := size / 32768) in *.
    apply Z.div_unique_exact; lia. }
  assert (Hbit : forall j, bit p j = false).
  { intros j. unfold bit. simpl. destruct (replicate _ _ !! _) as [w|] eqn:Hw; [|done].
    apply lookup_replicate in Hw as [-> _]. apply Z.bits_0. }
  assert (Hno : forall a s, allocatedBlocks p !! a = Some s -> False) by (intros a s; simpl; by rewrite lookup_empty).
  split; [|by intros a s Ha%Hno..|by intros a s b t Ha%Hno|].
  - split; try done. rewrite Hbits. simpl. rewrite Hbs in *.
    pose proof (Z.div_mod size 32768 ltac:(lia)) as Hdm. change (32 * 1024) with 32768 in Hsm. rewrite Hsm in Hdm.
    set (k := size / 32768) in *. assert (Hq : 32 * k = size / 1024) by (apply Z.div_unique_exact; lia). lia.
  - intros j Hj. rewrite Hbit. clear Hj. split; [done|]. by intros (a & s & Ha%Hno & _).
Qed.

Lemma fuel_enough p i : sized p -> 0 <= i -> (0 < fuel p)%nat /\ bits p + 2 - i <= Z.of_nat (fuel p).
Proof.
  intros Hs Hi. unfold fuel. rewrite (sized_pool p Hs), Z.div_mul by done. pose proof (bits_limit p Hs). lia.
Qed.

Lemma allocate_cases size p :
  inv p -> 0 <= size < 2 ^ 32 ->
  match allocate size p with
  | Done (inl ptr, p') => bad_size size p = false /\ allocates size ptr p p' /\ inv p'
  | Done (inr runtime_error, p') => bad_size size p = true /\ p' = p
  | Done (inr bad_alloc, p') => bad_size size p = false /\ no_room size p /\ p' = p
  | Fault Undefined => bad_size size p = false /\ no_room size p
  | Fault _ => False
  end.
Proof.
  intros Hi Hs. unfold allocate. destruct (bad_size size p) eqn:Hb; [done|]. pose proof (inv_sized p Hi) as Hsz.
  destruct (first_bit_spec size p Hsz Hs Hb) as (Hf & _). destruct (good_size _ _ Hs Hb) as (Heq & Hn & Hle).
  destruct (fuel_enough p _ Hsz Hf) as [Hf0 Hf1].
  assert (Hk : 0 < size / blockSize <= bits p) by (rewrite (sized_pool p Hsz) in Hle; pose proof blockSize_eq; nia).
  pose proof (search_spec (fuel p) _ size p Hsz Hf Hk Hf0 Hf1) as Hspec.
  destruct (search _ _ _ _) as [[[ptr|e] p']|[]]; try done.
  - split; [done|]. split; [by apply found_allocates|by eapply found_inv].
  - destruct Hspec as (-> & -> & ? & _). split; [done|]. split; [|done]. by apply none_free_no_room.
  - destruct Hspec as [? _]. split; [done|]. by apply none_free_no_room.
Qed.

(** *** Programs *)

Inductive op := Allocate (size : Z) | Deallocate (ptr : Z).

(** *** A reference allocator

    The blocks of a pool, and first fit among the places for [size] bytes: the multiples of [size] in the pool. *)
Section reference.
Context (base total : Z).

Definition first_place (size : Z) : Z := (base + size - 1) / size * size.
Definition place_count (size : Z) : Z := (base + total - first_place size) / size.
Definition places (size : Z) : list Z := (fun k => first_place size + k * size) <$> seqZ 0 (place_count size).

(** No block has a byte from [lo] up to [hi]. *)
Definition clear (m : gmap Z Z) (lo hi : Z) : bool :=
  forallb (fun '(a, s) => negb ((a <? hi) && (lo <? a + s))) (map_to_list m).

Definition first_fit (size : Z) (m : gmap Z Z) : option Z := List.find (fun q => clear m q (q + size)) (places size).

(** The rest of the pool after the last place. *)
Definition rest_clear (size : Z) (m : gmap Z Z) : bool :=
  clear m (first_place size + place_count size * size) (base + total).

(** The documented sizes. *)
Definition valid_size (size : Z) : bool := (2 ^ Z.log2 size =? size) && (blockSize <=? size) && (size <=? total).

(** What a request gives, as [process_pool.h] has it. *)
Inductive answer := Invalid | Given (ptr : Z) | OutOfMemory.

#[export] Instance answer_eq_dec : EqDecision answer.
Proof. solve_decision. Defined.

Definition reference (size : Z) (m : gmap Z Z) : answer :=
  if valid_size size then match first_fit size m with Some ptr => Given ptr | None => OutOfMemory end else Invalid.

(** The requests for which the search does not end in the bitmap: none of the
    places is free, and what is left after them is not used. *)
Definition reads_past (size : Z) (m : gmap Z Z) : bool := bool_decide (reference size m = OutOfMemory) && rest_clear size m.

Definition spec_op (o : op) (m : gmap Z Z) : exec (gmap Z Z) :=
  match o with
  | Allocate size =>
      if reads_past (u32 size) m then Fault Undefined
      else Done (match reference (u32 size) m with Given ptr => <[ptr := u32 size]> m | _ => m end)
  | Deallocate ptr => Done (delete ptr m)
  end.

Fixpoint spec_run (os : list op) (m : gmap Z Z) : exec (gmap Z Z) :=
  match os with [] => Done m | o :: os => m ← spec_op o m; spec_run os m end.

(** The pool [p] has the blocks [m]. *)
Definition pool_of (m : gmap Z Z) (p : ProcessPool) : Prop :=
  inv p /\ poolBase p = base /\ poolSize p = total /\ allocatedBlocks p = m.

Lemma clear_true m lo hi : clear m lo hi = true <-> forall a s, m !! a = Some s -> ~ (a < hi /\ lo < a + s).
Proof.
  unfold clear. rewrite forallb_forall. split.
  - intros H a s Ha Hov. specialize (H (a, s)). rewrite <- list_elem_of_In, elem_of_map_to_list in H. specialize (H Ha). simpl in H.
    destruct (Z.ltb_spec a hi), (Z.ltb_spec lo (a + s)); simpl in H; (done || lia).
  - intros H [a s] Ha. apply list_elem_of_In, elem_of_map_to_list in Ha. specialize (H a s Ha).
    destruct (Z.ltb_spec a hi), (Z.ltb_spec lo (a + s)); simpl; (done || lia).
Qed.

Lemma clear_false m lo hi : clear m lo hi = false -> exists a s, m !! a = Some s /\ a < hi /\ lo < a + s.
Proof.
  intros H. destruct (decide (map_Exists (fun a s => a < hi /\ lo < a + s) m)) as [(a & s & Ha & Hov)|Hn]; [by exists a, s|].
  rewrite (proj2 (clear_true m lo hi)) in H; [done|]. intros a s Ha Hov. apply Hn. by exists a, s.
Qed.

Lemma valid_size_spec size p : poolSize p = total -> 0 <= size < 2 ^ 32 -> valid_size size = negb (bad_size size p).
Proof.
  intros Hps Hs. unfold valid_size, bad_size. rewrite Hps. rewrite !negb_orb, negb_involutive. pose proof blockSize_eq as Hbs.
  rewrite <- !andb_assoc, (andb_comm (blockSize <=? size)), Z.ltb_antisym, negb_involutive, (Z.ltb_antisym blockSize), negb_involutive.
  destruct (Z.leb_spec blockSize size); [|by rewrite !andb_false_r]. rewrite !andb_true_r.
  f_equal. rewrite wrapU_small by lia. pose proof (Z.log2_spec size ltac:(lia)) as Hlog. pose proof (Z.log2_nonneg size).
  destruct (Z.eqb_spec (2 ^ Z.log2 size) size) as [He|Hne], (Z.eqb_spec (Z.land size (size - 1)) 0) as [Hl|Hl]; try done; exfalso.
  - apply Hl. rewrite <- He at 1 2. rewrite Z.sub_1_r, <- Z.ones_equiv, Z.land_ones by done. rewrite Z.mod_same; lia.
  - assert (Hk1 : Z.log2 (size - 1) = Z.log2 size) by (apply Z.log2_unique; lia).
    apply (f_equal (fun z => Z.testbit z (Z.log2 size))) in Hl. rewrite Z.land_spec, Z.bits_0, Z.bit_log2 in Hl by lia.
    rewrite <- Hk1, Z.bit_log2 in Hl by lia. done.
Qed.

(** The places in terms of the bits of the search. *)
Lemma place_bits size p :
  sized p -> poolBase p = base -> poolSize p = total -> 0 <= size < 2 ^ 32 -> bad_size size p = false ->
  let n := size / blockSize in let f := first_bit size p in
  first_place size = base + f * blockSize /\ 0 <= place_count size /\
  f + place_count size * n <= bits p < f + place_count size * n + n /\ base + total = base + bits p * blockSize.
Proof.
  intros Hsz Hb Ht Hs Hbad n f. destruct (good_size _ _ Hs Hbad) as (Heq & Hn & Hle). fold n in Heq, Hn.
  destruct (first_bit_spec size p Hsz Hs Hbad) as (Hf & Hf1 & Hf2). fold f in Hf, Hf1, Hf2. pose proof blockSize_eq as Hbs.
  pose proof (sized_pool p Hsz) as Hps. rewrite Ht in Hps, Hle. rewrite Hb in Hf2.
  assert (Hfp : first_place size = base + f * blockSize).
  { unfold first_place. pose proof (Z.div_mod (base + f * blockSize) size ltac:(lia)) as Hd. rewrite Hf2, Z.add_0_r in Hd.
    assert ((base + size - 1) / size = (base + f * blockSize) / size) as ->; [|lia].
    symmetry. apply Z.div_unique with (r := base + size - 1 - size * ((base + f * blockSize) / size)); lia. }
  split; [done|]. unfold place_count. rewrite Hfp.
  pose proof (Z.div_mod (base + total - (base + f * blockSize)) size ltac:(lia)) as Hd.
  pose proof (Z.mod_pos_bound (base + total - (base + f * blockSize)) size ltac:(lia)) as Hm.
  assert (0 <= (base + total - (base + f * blockSize)) / size) by (apply Z.div_pos; lia).
  set (c := (base + total - (base + f * blockSize)) / size) in *. set (r := (base + total - (base + f * blockSize)) mod size) in *. clearbody c r f n.
  split; [done|]. rewrite Hbs in *. split; [|lia]. nia.
Qed.

Lemma elem_of_places size p q :
  sized p -> poolBase p = base -> poolSize p = total -> 0 <= size < 2 ^ 32 -> bad_size size p = false ->
  q ∈ places size <-> q mod size = 0 /\ base <= q /\ q + size <= base + total.
Proof.
  intros Hsz Hb Ht Hs Hbad. destruct (place_bits size p Hsz Hb Ht Hs Hbad) as (Hfp & Hc0 & Hc & He).
  destruct (good_size _ _ Hs Hbad) as (Heq & Hn & Hle). destruct (first_bit_spec size p Hsz Hs Hbad) as (Hf & Hf1 & Hf2).
  pose proof blockSize_eq as Hbs. set (n := size / blockSize) in *. set (f := first_bit size p) in *.
  unfold places. rewrite list_elem_of_fmap. setoid_rewrite elem_of_seqZ. rewrite Hfp. split.
  - intros (k & -> & Hk). split_and!; [|rewrite Hbs in *; nia|rewrite Hbs in *; nia].
    rewrite <- Hb, Z_mod_plus_full. done.
  - intros (Hq & Hlo & Hhi). rewrite <- Hb in Hlo. destruct (candidate size p q Hsz Hs Hbad Hq Hlo) as (m & Hm & Hqm). fold n f in Hqm.
    exists m. rewrite Hb in Hqm. clearbody n f. assert (m * size = m * n * blockSize) by (rewrite Heq; lia).
    split; [lia|]. rewrite Hbs in *. nia.
Qed.

Lemma places_sorted size i j qi qj : 0 < size -> places size !! i = Some qi -> places size !! j = Some qj -> (i < j)%nat -> qi < qj.
Proof.
  unfold places. rewrite !list_lookup_fmap. intros Hs Hi Hj Hij.
  apply fmap_Some in Hi as (a & Ha & ->). apply fmap_Some in Hj as (b & Hb & ->).
  apply lookup_seqZ in Ha as [-> _]. apply lookup_seqZ in Hb as [-> _]. nia.
Qed.
Lemma find_first {A} (f : A -> bool) (l : list A) x :
  List.find f l = Some x -> exists i, l !! i = Some x /\ f x = true /\ forall j y, (j < i)%nat -> l !! j = Some y -> f y = false.
Proof.
  induction l as [|a l IH]; intros Hf; [done|]. cbn [List.find] in Hf. destruct (f a) eqn:Ha.
  - injection Hf as <-. exists 0%nat. split_and!; [done..|]. intros; lia.
  - destruct (IH Hf) as (i & Hi & Hx & Hb). exists (S i). split_and!; [done..|].
    intros [|j] y Hj Hy; [by injection Hy as <-|]. apply (Hb j); [lia|done].
Qed.

Lemma clear_overlap m q size : clear m q (q + size) = true <-> forall a s, m !! a = Some s -> ~ overlap a s q size.
Proof. apply clear_true. Qed.

Lemma allocates_first_fit size p p' ptr m :
  pool_of m p -> 0 <= size < 2 ^ 32 -> bad_size size p = false -> allocates size ptr p p' -> first_fit size m = Some ptr.
Proof.
  intros (Hi & Hb & Ht & Hm) Hs Hbad (Hal & Hlo & Hhi & Hdis & Hbefore & _). pose proof (inv_sized p Hi) as Hsz.
  destruct (good_size _ _ Hs Hbad) as (Heq & Hn & _).
  assert (Hpos : 0 < size) by (rewrite blockSize_eq in *; lia).
  pose proof (fun q => elem_of_places size p q Hsz Hb Ht Hs Hbad) as Hpl. rewrite Hb, Ht in *.
  assert (Hptr : ptr ∈ places size) by (by apply Hpl).
  assert (Hclr : clear m ptr (ptr + size) = true) by (apply clear_overlap; by rewrite <- Hm).
  unfold first_fit. destruct (List.find _ _) as [q|] eqn:Hf.
  - destruct (find_first _ _ _ Hf) as (i & Hq & Hcq & Hfst). f_equal.
    destruct (Z.lt_trichotomy q ptr) as [Hlt|[->|Hlt]]; [|done|].
    + assert (q ∈ places size) as (Hqm & Hqlo & _)%Hpl by (by eapply list_elem_of_lookup_2).
      destruct (Hbefore q Hqm ltac:(lia)) as (a & s & Ha & Hov). rewrite Hm in Ha.
      by apply (proj1 (clear_overlap m q size) Hcq) in Hov.
    + apply list_elem_of_lookup in Hptr as (j & Hj). assert (j < i)%nat as Hji.
      { destruct (Nat.lt_trichotomy j i) as [|[->|Hij]]; [done|rewrite Hq in Hj; simplify_eq; lia|].
        pose proof (places_sorted size i j q ptr Hpos Hq Hj Hij). lia. }
      specialize (Hfst j ptr Hji Hj). simpl in Hfst. congruence.
  - assert (clear m ptr (ptr + size) = false) by (apply (List.find_none _ _ Hf ptr); by apply list_elem_of_In). congruence.
Qed.

Lemma no_room_first_fit size p m :
  pool_of m p -> 0 <= size < 2 ^ 32 -> bad_size size p = false -> no_room size p -> first_fit size m = None.
Proof.
  intros (Hi & Hb & Ht & Hm) Hs Hbad Hno. unfold first_fit. destruct (List.find _ _) as [q|] eqn:Hf; [|done].
  apply List.find_some in Hf as [Hq Hc]. apply list_elem_of_In in Hq.
  apply (elem_of_places size p q (inv_sized p Hi) Hb Ht Hs Hbad) in Hq as (Hqm & Hlo & Hhi).
  destruct (Hno q Hqm ltac:(lia) ltac:(lia)) as (a & s & Ha & Hov). rewrite Hm in Ha. by apply (proj1 (clear_overlap m q size) Hc) in Hov.
Qed.

Lemma last_free_rest size p m :
  pool_of m p -> 0 <= size < 2 ^ 32 -> bad_size size p = false ->
  last_free (first_bit size p) (size / blockSize) p <-> rest_clear size m = true.
Proof.
  intros (Hi & Hb & Ht & Hm) Hs Hbad. pose proof (inv_sized p Hi) as Hsz.
  destruct (place_bits size p Hsz Hb Ht Hs Hbad) as (Hfp & Hc0 & Hc & He).
  destruct (good_size _ _ Hs Hbad) as (Heq & Hn & _). destruct (first_bit_spec size p Hsz Hs Hbad) as (Hf & _).
  unfold rest_clear. rewrite Hfp, He. set (n := size / blockSize) in *. set (f := first_bit size p) in *.
  set (k := place_count size) in *. clearbody k.
  replace (base + f * blockSize + k * size) with (poolBase p + (f + k * n) * blockSize) by (rewrite Hb, Heq; lia).
  assert (Hlast : last_free f n p <-> forall j, f + k * n <= j < bits p -> bit p j = false).
  { split.
    - intros (k' & Hk' & Hin & Hfree). assert (k' = k) as -> by nia. done.
    - intros Hfree. exists k. split_and!; [lia..|done]. }
  rewrite Hlast, clear_true, <- Hb. pose proof blockSize_eq as Hbs. split.
  - intros Hfree a s Ha Hov. rewrite <- Hm in Ha.
    assert (f + k * n < bits p) as Hlt.
    { destruct (inv_inside p Hi a s Ha) as [_ Hin]. rewrite (sized_pool p Hsz) in Hin. rewrite Hbs in *. lia. }
    assert (occupied p (f + k * n) (bits p - (f + k * n))) as (j & Hj & _ & Hbj).
    { apply occupied_overlap; [done|nia|lia|lia|]. exists a, s. split; [done|]. unfold overlap. rewrite Hbs in *. lia. }
    rewrite Hfree in Hbj; [done|lia].
  - intros Hclr j Hj. destruct (bit p j) eqn:Hbj; [|done]. apply (inv_bits p Hi) in Hbj as (a & s & Ha & Hin); [|nia].
    rewrite Hm in Ha. destruct (Hclr a s Ha). rewrite Hbs in *. nia.
Qed.

(** [allocate] gives the answer of the reference. *)
Lemma allocate_reference size p m :
  pool_of m p -> 0 <= size < 2 ^ 32 ->
  match reference size m with
  | Invalid => allocate size p = Done (inr runtime_error, p)
  | Given ptr => exists p', allocate size p = Done (inl ptr, p') /\ pool_of (<[ptr := size]> m) p'
  | OutOfMemory => allocate size p = if reads_past size m then Fault Undefined else Done (inr bad_alloc, p)
  end.
Proof.
  intros Hp Hs. pose proof Hp as (Hi & Hb & Ht & Hm). unfold reads_past, reference. rewrite (valid_size_spec size p Ht Hs).
  unfold allocate. destruct (bad_size size p) eqn:Hbad; [done|]. simpl negb. cbv iota. pose proof (inv_sized p Hi) as Hsz.
  destruct (first_bit_spec size p Hsz Hs Hbad) as (Hf & _). destruct (good_size _ _ Hs Hbad) as (Heq & Hn & Hle).
  destruct (fuel_enough p _ Hsz Hf) as [Hf0 Hf1].
  assert (Hk : 0 < size / blockSize <= bits p) by (rewrite (sized_pool p Hsz) in Hle; pose proof blockSize_eq; nia).
  pose proof (search_spec (fuel p) _ size p Hsz Hf Hk Hf0 Hf1) as Hspec.
  pose proof (last_free_rest size p m Hp Hs Hbad) as Hrest.
  destruct (search _ _ _ _) as [[[ptr|e] p']|[]]; try done.
  - pose proof (found_allocates _ _ _ _ Hi Hs Hbad Hspec) as Hal. rewrite (allocates_first_fit size p p' ptr m) by done.
    exists p'. split; [done|]. destruct Hal as (_ & _ & _ & _ & _ & ? & ? & ?).
    split_and!; [by eapply found_inv|congruence..].
  - destruct Hspec as (-> & -> & Hnf & Hl). rewrite (no_room_first_fit size p m) by (done || by apply none_free_no_room).
    rewrite bool_decide_true by done. destruct (rest_clear size m); [|done]. by destruct Hl, Hrest; auto.
  - destruct Hspec as [Hnf Hl]. rewrite (no_room_first_fit size p m) by (done || by apply none_free_no_room).
    by rewrite bool_decide_true, (proj1 Hrest Hl).
Qed.
End reference.

Definition run_op (o : op) (p : ProcessPool) : exec ProcessPool :=
  match o with
  | Allocate size => '(_, p) ← allocate (u32 size) p; Done p
  | Deallocate ptr => '(_, p) ← deallocate ptr p; Done p
  end.

Fixpoint run (os : list op) (p : ProcessPool) : exec ProcessPool :=
  match os with [] => Done p | o :: os => p ← run_op o p; run os p end.

Lemma run_op_reference base total o m p :
  pool_of base total m p ->
  match spec_op base total o m with
  | Done m' => exists p', run_op o p = Done p' /\ pool_of base total m' p'
  | Fault f => run_op o p = Fault f /\ f = Undefined
  end.
Proof.
  intros Hp. destruct o as [size|ptr]; simpl.
  - pose proof (allocate_reference base total (u32 size) p m Hp (wrapU_bound 32 size ltac:(lia))) as Ha.
    assert (Hno : reference base total (u32 size) m <> OutOfMemory -> reads_past base total (u32 size) m = false).
    { intros Hne. unfold reads_past. by rewrite bool_decide_false. }
    destruct (reference base total (u32 size) m) as [|ptr|].
    + rewrite Hno, Ha by done. cbn [mbind outcome_bind]. by exists p.
    + rewrite Hno by done. destruct Ha as (p' & Ha & Hp'). rewrite Ha. cbn [mbind outcome_bind]. by exists p'.
    + rewrite Ha. destruct (reads_past base total (u32 size) m); [done|]. cbn [mbind outcome_bind]. by exists p.
  - destruct Hp as (Hi & Hb & Ht & Hm). destruct (allocatedBlocks p !! ptr) as [s|] eqn:Hptr.
    + destruct (deallocate_inv ptr s p Hi Hptr) as (p' & Hd & Hi' & Hb' & Ht' & Hm'). rewrite Hd. cbn [mbind outcome_bind].
      exists p'. split; [done|]. split_and!; [done|congruence..].
    + unfold deallocate. rewrite Hptr. cbn [mbind outcome_bind]. exists p. split; [done|]. split_and!; [done..|].
      rewrite <- Hm. by rewrite delete_id.
Qed.

Lemma run_reference base total os m p :
  pool_of base total m p ->
  match spec_run base total os m with
  | Done m' => exists p', run os p = Done p' /\ pool_of base total m' p'
  | Fault f => run os p = Fault f /\ f = Undefined
  end.
Proof.
  revert m p. induction os as [|o os IH]; intros m p Hp; [by exists p|]. cbn [spec_run run].
  pose proof (run_op_reference base total o m p Hp) as Ho. destruct (spec_op base total o m) as [m1|f]; cbn [mbind outcome_bind].
  - destruct Ho as (p1 & -> & Hp1). cbn [mbind outcome_bind]. by apply IH.
  - destruct Ho as [-> ->]. done.
Qed.

(** C6: the allocator is the reference allocator, in any program of allocations
    and deallocations on a new pool of whole bitmap words (a multiple of 32 KB).  The
    reference has a map of blocks and the documented answers: a size that is not a power
    of two, too big or too small is rejected; otherwise the first multiple of the
    size where a block fits in the pool beside the others is given; when there
    is none, [bad_alloc] is thrown.  A block that is given back is free again, and any other pointer
    is rejected; the blocks are aligned, inside the pool and disjoint.  The code differs for exactly
    the requests of [reads_past]: no place is free, and no block uses the rest of the
    pool after the last place.  There it reads past the bitmap instead of throwing. *)
Theorem process_pool_correct base total os :
  0 <= base -> 0 <= total -> base mod blockSize = 0 -> total mod (32 * blockSize) = 0 -> base + total <= 2 ^ 32 ->
  match spec_run base total os ∅ with
  | Done m =>
      exists p, run os (new_ProcessPool base total) = Done p /\ allocatedBlocks p = m /\
        (forall a s, m !! a = Some s -> a mod s = 0 /\ base <= a /\ a + s <= base + total) /\
        (forall a s b t, m !! a = Some s -> m !! b = Some t -> a <> b -> ~ overlap a s b t) /\
        (forall size, 0 <= size < 2 ^ 32 ->
           match reference base total size m with
           | Invalid => allocate size p = Done (inr runtime_error, p)
           | Given ptr => exists p', allocate size p = Done (inl ptr, p') /\ allocatedBlocks p' = <[ptr := size]> m
           | OutOfMemory => allocate size p = if reads_past base total size m then Fault Undefined else Done (inr bad_alloc, p)
           end) /\
        (forall ptr, match m !! ptr with
           | Some _ => exists p', deallocate ptr p = Done (inl (), p') /\ allocatedBlocks p' = delete ptr m
           | None => deallocate ptr p = Done (inr runtime_error, p)
           end)
  | Fault f => run os (new_ProcessPool base total) = Fault f /\ f = Undefined
  end.
Proof.
  intros Hb Ht Hbm Htm He.
  pose proof (run_reference base total os ∅ (new_ProcessPool base total)
    ltac:(split; [by apply new_inv|done])) as Hr.
  destruct (spec_run base total os ∅) as [m|f]; [|done]. destruct Hr as (p & Hr & Hp). exists p. split; [done|].
  pose proof Hp as (Hi & Hpb & Hpt & Hm). split; [done|]. rewrite <- Hm, <- Hpb, <- Hpt. split_and!.
  - intros a s Ha. split; [by eapply inv_aligned|by apply inv_inside].
  - apply (inv_disjoint p Hi).
  - intros size Hs. rewrite Hpb, Hpt, Hm. pose proof (allocate_reference base total size p m Hp Hs) as Hall.
    destruct (reference base total size m); try done. destruct Hall as (p' & Hrun & _ & _ & _ & Hm'). by exists p'.
  - intros ptr. destruct (allocatedBlocks p !! ptr) as [s|] eqn:Hptr.
    + destruct (deallocate_inv ptr s p Hi Hptr) as (p' & ? & _ & _ & _ & ?). by exists p'.
    + unfold deallocate. by rewrite Hptr.
Qed.

(** A 96 KB pool, as in the program's own test. *)
Definition ex_new : ProcessPool := new_ProcessPool 0x20008000 98304.
Definition ex_ops : list op := [Allocate 16384; Allocate 32768; Deallocate 0x20008000; Allocate 1000].
Definition ex_pool : ProcessPool := match run ex_ops ex_new with Done p => p | Fault _ => ex_new end.

(** With 32 KB used in the middle there is no room for 64 KB, and the search
    reads past the bitmap. *)
Example ex_past_bitmap : map_to_list (allocatedBlocks ex_pool) = [(0x20010000, 32768)] /\ allocate 65536 ex_pool = Fault Undefined.
Proof. split; vm_compute; reflexivity. Qed.

(** A pool of 96 KB that starts at a multiple of 64 KB, with its first 16 KB used: a block after the
    first 64 KB makes the difference. *)
Example ex_out_of_memory :
  reads_past 0x20000000 98304 65536 {[ 0x20000000 := 16384; 0x20010000 := 16384 ]} = false /\
  reads_past 0x20000000 98304 65536 {[ 0x20000000 := 16384 ]} = true.
Proof. split; vm_compute; reflexivity. Qed.

Lemma process_pool_correct_witness :
  exists p, run ex_ops ex_new = Done p /\ allocatedBlocks p = {[ 0x20010000 := 32768 ]} /\
    (exists p', allocate 16384 p = Done (inl 0x20008000, p') /\ allocatedBlocks p' = {[ 0x20008000 := 16384; 0x20010000 := 32768 ]}) /\
    allocate 3000 p = Done (inr runtime_error, p) /\ allocate 65536 p = Fault Undefined /\
    exists p', deallocate 0x20010000 p = Done (inl (), p') /\ allocatedBlocks p' = ∅.
Proof.
  pose proof (process_pool_correct 0x20008000 98304 ex_ops ltac:(lia) ltac:(lia) ltac:(done) ltac:(done) ltac:(lia)) as H.
  destruct (spec_run 0x20008000 98304 ex_ops ∅) as [m|f] eqn:Hm; [|by vm_compute in Hm].
  assert (m = {[ 0x20010000 := 32768 ]}) as -> by (vm_compute in Hm; injection Hm as <-; by vm_compute).
  destruct H as (p & Hr & Hb & _ & _ & Ha & Hd). exists p. split; [done|]. split; [done|].
  split_and!; [apply (Ha 16384); lia|apply (Ha 3000); lia|apply (Ha 65536); lia|exact (Hd 0x20010000)].
Defined.
End ProcessPool.
