(* ===== verification/Bytes.v ===== *)
(** * Bytes

    Memory as a list of bytes, and little endian words in it: reading and
    writing within its bounds. *)
From S2P Require Import Prelude Errors.

Local Open Scope Z_scope.

Abbreviation bytes := (list Z).

(** ** Little endian words *)
Fixpoint word (l : bytes) : Z := match l with [] => 0 | b :: l => b + 256 * word l end.
Fixpoint unword (n : nat) (v : Z) : bytes := match n with O => [] | S n => v mod 256 :: unword n (v / 256) end.

(** Reading [n] bytes at an offset, and writing a word there. *)
Definition get (n : nat) (c : bytes) (off : Z) : exec Z :=
  if (0 <=? off) && (off + Z.of_nat n <=? Z.of_nat (length c)) then Done (word (take n (drop (Z.to_nat off) c))) else Fault Undefined.
Definition set_bytes (c : bytes) (off : Z) (l : bytes) : exec bytes :=
  if (0 <=? off) && (off + Z.of_nat (length l) <=? Z.of_nat (length c)) then
    Done (take (Z.to_nat off) c ++ l ++ drop (Z.to_nat off + length l) c)
  else Fault Undefined.
Abbreviation get16 := (get 2).
Abbreviation get32 := (get 4).

(** ** Reading what was written *)
Definition byte_list (c : bytes) : Prop := Forall (fun b => 0 <= b < 256) c.
Definition rd (n : nat) (c : bytes) (off : Z) : Z := word (take n (drop (Z.to_nat off) c)).

Lemma word_bound c : byte_list c -> 0 <= word c < 256 ^ Z.of_nat (length c).
Proof.
  induction 1 as [|b c Hb _ IH]; [simpl; lia|]. simpl length. rewrite Nat2Z.inj_succ, Z.pow_succ_r by lia. simpl. lia.
Qed.

Lemma get_in n c off : 0 <= off -> off + Z.of_nat n <= Z.of_nat (length c) -> get n c off = Done (rd n c off).
Proof. intros H0 Hl. unfold get. by rewrite (proj2 (Z.leb_le _ _)), (proj2 (Z.leb_le _ _)) by done. Qed.

Lemma get_Done n c off v : get n c off = Done v -> 0 <= off /\ off + Z.of_nat n <= Z.of_nat (length c) /\ v = rd n c off.
Proof. unfold get. destruct (Z.leb_spec 0 off), (Z.leb_spec (off + Z.of_nat n) (Z.of_nat (length c))); simpl; [|done..]. by intros [= <-]. Qed.

Lemma rd_bound n c off : byte_list c -> 0 <= rd n c off < 256 ^ Z.of_nat n.
Proof.
  intros Hc. unfold rd. pose proof (word_bound (take n (drop (Z.to_nat off) c)) ltac:(by apply Forall_take, Forall_drop)) as Hw.
  split; [lia|]. eapply Z.lt_le_trans; [apply Hw|]. apply Z.pow_le_mono_r; [lia|]. rewrite length_take. lia.
Qed.

Lemma rd32_bound c off : byte_list c -> 0 <= rd 4 c off < 2 ^ 32.
Proof. intros Hc. by pose proof (rd_bound 4 c off Hc). Qed.

Lemma length_unword n v : length (unword n v) = n.
Proof. revert v. induction n; intros v; simpl; auto. Qed.

Lemma unword_bytes n v : byte_list (unword n v).
Proof. revert v. induction n as [|n IH]; intros v; simpl; constructor; [|apply IH]. apply Z.mod_pos_bound. lia. Qed.

Lemma word_unword n v : 0 <= v < 256 ^ Z.of_nat n -> word (unword n v) = v.
Proof.
  revert v. induction n as [|n IH]; intros v Hv; simpl; [simpl in Hv; lia|].
  rewrite Nat2Z.inj_succ, Z.pow_succ_r in Hv by lia. rewrite IH.
  - pose proof (Z.div_mod v 256). lia.
  - split; [apply Z.div_pos; lia|]. apply Z.div_lt_upper_bound; lia.
Qed.

Lemma set_bytes_in c off l :
  0 <= off -> off + Z.of_nat (length l) <= Z.of_nat (length c) ->
  set_bytes c off l = Done (take (Z.to_nat off) c ++ l ++ drop (Z.to_nat off + length l) c).
Proof. intros H0 Hl. unfold set_bytes. by rewrite (proj2 (Z.leb_le _ _)), (proj2 (Z.leb_le _ _)) by done. Qed.

Lemma set_bytes_length c off l c' : set_bytes c off l = Done c' -> length c' = length c.
Proof.
  unfold set_bytes. destruct (Z.leb_spec 0 off), (Z.leb_spec (off + Z.of_nat (length l)) (Z.of_nat (length c))); simpl; [|done..].
  intros [= <-]. rewrite !length_app, length_take, length_drop. lia.
Qed.

(** Words at multiples of four. *)
Lemma rd_set_word c k j v :
  0 <= k -> 4 * k + 4 <= Z.of_nat (length c) -> 0 <= j -> 4 * j + 4 <= Z.of_nat (length c) -> 0 <= v < 2 ^ 32 ->
  rd 4 (take (Z.to_nat (4 * k)) c ++ unword 4 v ++ drop (Z.to_nat (4 * k) + 4) c) (4 * j) = if decide (j = k) then v else rd 4 c (4 * j).
Proof.
  intros Hk Hkl Hj Hjl Hv. unfold rd. set (K := Z.to_nat (4 * k)). set (J := Z.to_nat (4 * j)).
  assert (HK : length (take K c) = K) by (rewrite length_take; lia). case_decide as Hjk.
  - subst j. rewrite drop_app_ge by lia. rewrite HK. replace (J - K)%nat with O by lia. rewrite drop_0.
    rewrite take_app_le by (by rewrite length_unword). rewrite firstn_all2 by (by rewrite length_unword). by apply word_unword.
  - destruct (decide (j < k)).
    + rewrite drop_app_le by lia. rewrite take_app_le by (rewrite length_drop; lia). f_equal.
      rewrite skipn_firstn_comm, take_take. f_equal. lia.
    + rewrite drop_app_ge by lia. rewrite HK, drop_app_ge by (rewrite length_unword; lia).
      rewrite length_unword, drop_drop. do 3 f_equal. lia.
Qed.

(** *** A field between others *)
Lemma set_bytes_mid a x l b off :
  off = Z.of_nat (length a) -> length x = length l -> set_bytes (a ++ x ++ b) off l = Done (a ++ l ++ b).
Proof.
  intros -> Hx. rewrite set_bytes_in by (rewrite ?length_app; lia). rewrite Nat2Z.id, take_app_length. do 3 f_equal.
  rewrite drop_app_ge by lia. rewrite drop_app_ge by lia. rewrite <- (drop_0 b) at 2. f_equal. lia.
Qed.

Lemma rd_mid n a x b off : off = Z.of_nat (length a) -> length x = n -> rd n (a ++ x ++ b) off = word x.
Proof. intros -> <-. unfold rd. by rewrite Nat2Z.id, drop_app_length, take_app_length. Qed.

Lemma split_length {A} (l : list A) k : (k <= length l)%nat -> exists a b, l = a ++ b /\ length a = k.
Proof. intros Hk. exists (take k l), (drop k l). split; [by rewrite take_drop|]. rewrite length_take. lia. Qed.
