(* ===== verification/ElfLoader.v ===== *)
(** * The program loader

    [kernel/elf_program.h] and [.cpp]: [ElfProgram] checks an executable file in memory,
    all of it before any use, and [ProcessImage::load] makes the memory image
    of a process from it, in a block of the [ProcessPool].  A file is its
    bytes; addresses in it are offsets, the file being where no offset within
    it wraps. *)
From stdpp Require Import strings.
From S2P Require Import Prelude Errors Bytes ProcessPool.

Local Open Scope Z_scope.

Module ElfLoader.

(** ** [elf_types.h] *)
Record Elf32_Ehdr := mkEhdr {
  e_ident : bytes; e_type : Z; e_machine : Z; e_version : Z; e_entry : Z; e_phoff : Z; e_flags : Z;
  e_ehsize : Z; e_phentsize : Z; e_phnum : Z }.
Record Elf32_Phdr := mkPhdr {
  p_type : Z; p_offset : Z; p_filesz : Z; p_memsz : Z; p_flags : Z; p_align : Z }.

Definition sizeof_Ehdr : Z := 52.
Definition sizeof_Phdr : Z := 32.
Definition sizeof_Dyn : Z := 8.
Definition sizeof_Rel : Z := 8.
Definition EI_NIDENT : nat := 16.

Definition ET_EXEC : Z := 2.
Definition EM_ARM : Z := 0x28.
Definition EV_CURRENT : Z := 1.
Definition EF_ARM_EABIMASK : Z := 0xff000000.
Definition EF_ARM_EABI_VER5 : Z := 0x05000000.
Definition EF_ARM_VFP_FLOAT : Z := 0x400.
Definition PT_LOAD : Z := 1.
Definition PT_DYNAMIC : Z := 2.
Definition PF_X : Z := 1.
Definition PF_W : Z := 2.
Definition PF_R : Z := 4.
Definition DT_RELA : Z := 7.
Definition DT_RELASZ : Z := 8.
Definition DT_RELAENT : Z := 9.
Definition DT_REL : Z := 17.
Definition DT_RELSZ : Z := 18.
Definition DT_RELENT : Z := 19.
Definition DT_MX_RAMSIZE : Z := 0x10000000.
Definition DT_MX_STACKSIZE : Z := 0x10000001.
Definition DT_MX_ABI : Z := 0x736f694d.
Definition DV_MX_ABI_V1 : Z := 0x01007869.
Definition R_ARM_NONE : Z := 0.
Definition R_ARM_RELATIVE : Z := 23.
Definition ELF32_R_TYPE (i : Z) : Z := i mod 256.

Definition DATA_BASE : Z := 0x40000000.
Definition MAX_PROCESS_IMAGE_SIZE : Z := 64 * 1024.
Definition MIN_PROCESS_STACK_SIZE : Z := 256.

(** ** [ElfProgram]

    The address of the file, its size and its bytes; whether the processor
    has a floating point unit ([__FPU_USED]). *)
Record ElfProgram := mkElf { elf : Z; size : Z; content : bytes; fpu : bool }.

Definition read_ehdr (c : bytes) : exec Elf32_Ehdr :=
  e_type ← get16 c 16; e_machine ← get16 c 18; e_version ← get32 c 20; e_entry ← get32 c 24; e_phoff ← get32 c 28;
  e_flags ← get32 c 36; e_ehsize ← get16 c 40; e_phentsize ← get16 c 42; e_phnum ← get16 c 44;
  Done (mkEhdr (take EI_NIDENT c) e_type e_machine e_version e_entry e_phoff e_flags e_ehsize e_phentsize e_phnum).

Definition read_phdr (c : bytes) (off : Z) : exec Elf32_Phdr :=
  p_type ← get32 c off; p_offset ← get32 c (off + 4); p_filesz ← get32 c (off + 16); p_memsz ← get32 c (off + 20);
  p_flags ← get32 c (off + 24); p_align ← get32 c (off + 28);
  Done (mkPhdr p_type p_offset p_filesz p_memsz p_flags p_align).

(** A check returns, or throws a [runtime_error]. *)
Inductive verdict := returns (valid : bool) | throws (what : string).

Definition isUnaligned4 (x : Z) : bool := negb (Z.land x 3 =? 0).
Definition isUnaligned8 (x : Z) : bool := negb (Z.land x 7 =? 0).
Definition has (flags flag : Z) : bool := negb (Z.land flags flag =? 0).

Definition magic : bytes := [0x7f; 69; 76; 70; 1; 1; 1; 0; 0; 0; 0; 0; 0; 0; 0; 0].

(** *** The dynamic segment *)
Record dyn_state := mkDyn {
  dtRel : Z; dtRelsz : Z; hasRelocs : Z; miosixTagFound : bool; ramSize : Z; stackSize : Z }.
Definition dyn_init : dyn_state := mkDyn 0 0 0 false 0 0.

Definition dyn_entry (tag val : Z) (s : dyn_state) : dyn_state + verdict :=
  let '(mkDyn rel relsz has mx ram stack) := s in
  if tag =? DT_REL then inl (mkDyn val relsz (Z.lor has 1) mx ram stack)
  else if tag =? DT_RELSZ then inl (mkDyn rel val (Z.lor has 2) mx ram stack)
  else if tag =? DT_RELENT then
    if negb (val =? sizeof_Rel) then inr (returns false) else inl (mkDyn rel relsz (Z.lor has 4) mx ram stack)
  else if tag =? DT_MX_ABI then
    if val =? DV_MX_ABI_V1 then inl (mkDyn rel relsz has true ram stack) else inr (throws "Unknown/unsupported DT_MX_ABI")
  else if tag =? DT_MX_RAMSIZE then inl (mkDyn rel relsz has mx val stack)
  else if tag =? DT_MX_STACKSIZE then inl (mkDyn rel relsz has mx ram val)
  else if (tag =? DT_RELA) || (tag =? DT_RELASZ) || (tag =? DT_RELAENT) then inr (throws "RELA relocations unsupported")
  else inl s.

(** [n] entries from an offset. *)
Fixpoint scan_dynamic (n : nat) (c : bytes) (off : Z) (s : dyn_state) : exec (dyn_state + verdict) :=
  match n with
  | O => Done (inl s)
  | S n =>
      tag ← get32 c off; val ← get32 c (off + 4);
      match dyn_entry tag val s with inl s => scan_dynamic n c (off + sizeof_Dyn) s | inr v => Done (inr v) end
  end.

Definition check_relocation (offset info dataSegmentSize : Z) : option verdict :=
  let type := ELF32_R_TYPE info in
  if type =? R_ARM_NONE then None
  else if type =? R_ARM_RELATIVE then
    if offset <? DATA_BASE then Some (returns false)
    else if u32 (DATA_BASE + dataSegmentSize - 4) <? offset then Some (returns false)
    else if negb (Z.land offset 3 =? 0) then Some (returns false)
    else None
  else Some (throws "Unexpected relocation type").

Fixpoint check_relocations (n : nat) (c : bytes) (off dataSegmentSize : Z) : exec verdict :=
  match n with
  | O => Done (returns true)
  | S n =>
      offset ← get32 c off; info ← get32 c (off + 4);
      match check_relocation offset info dataSegmentSize with
      | Some v => Done v
      | None => check_relocations n c (off + sizeof_Rel) dataSegmentSize
      end
  end.

Definition validateDynamicSegment (p : ElfProgram) (dynamic : Elf32_Phdr) (dataSegmentSize : Z) : exec verdict :=
  let dynSize := p_memsz dynamic / sizeof_Dyn in
  r ← scan_dynamic (Z.to_nat dynSize) (content p) (p_offset dynamic) dyn_init;
  match r with
  | inr v => Done v
  | inl s =>
      if negb (miosixTagFound s) then Done (throws "Not a Miosix executable")
      else if stackSize s <? MIN_PROCESS_STACK_SIZE then Done (throws "Requested stack is too small")
      else if MAX_PROCESS_IMAGE_SIZE <? ramSize s then Done (throws "Requested image size is too large")
      else if negb (Z.land (stackSize s) 3 =? 0) || negb (Z.land (ramSize s) 3 =? 0) || (ramSize s <? ProcessPool.blockSize) ||
              (MAX_PROCESS_IMAGE_SIZE <? stackSize s) || (MAX_PROCESS_IMAGE_SIZE <? dataSegmentSize) ||
              (ramSize s <? u32 (dataSegmentSize + stackSize s)) then Done (throws "Invalid stack or RAM size")
      else if negb (hasRelocs s =? 0) && negb (hasRelocs s =? 7) then Done (returns false)
      else if hasRelocs s =? 0 then Done (returns true)
      else if size p <=? dtRel s then Done (returns false)
      else if size p <=? dtRelsz s then Done (returns false)
      else if size p <? u32 (dtRel s + dtRelsz s) then Done (returns false)
      else if isUnaligned4 (dtRel s) then Done (returns false)
      else check_relocations (Z.to_nat (dtRelsz s / sizeof_Rel)) (content p) (dtRel s) dataSegmentSize
  end.

(** *** The segments *)
Record seg_state := mkSeg { codePresent : bool; dataPresent : bool; dynamicPresent : bool; dataSegmentSize : Z }.
Definition seg_init : seg_state := mkSeg false false false 0.

Definition writable (ph : Elf32_Phdr) : bool := has (p_flags ph) PF_W && negb (has (p_flags ph) PF_X).

Definition check_alignment (ph : Elf32_Phdr) : option verdict :=
  if p_align ph =? 1 then None
  else if p_align ph =? 4 then if isUnaligned4 (p_offset ph) then Some (returns false) else None
  else if p_align ph =? 8 then if isUnaligned8 (p_offset ph) then Some (returns false) else None
  else Some (throws "Unsupported segment alignment").

Definition check_code (e : Elf32_Ehdr) (ph : Elf32_Phdr) (s : seg_state) : seg_state + verdict :=
  if negb (has (p_flags ph) PF_X) then inl s
  else if codePresent s then inr (returns false)
  else if (e_entry e <? p_offset ph) || (u32 (p_offset ph + p_filesz ph) <? e_entry e) || negb (p_filesz ph =? p_memsz ph) then inr (returns false)
  else inl (mkSeg true (dataPresent s) (dynamicPresent s) (dataSegmentSize s)).

Definition check_data (ph : Elf32_Phdr) (s : seg_state) : seg_state + verdict :=
  if negb (writable ph) then inl s
  else if dataPresent s then inr (returns false)
  else if p_memsz ph <? p_filesz ph then inr (returns false)
  else if MAX_PROCESS_IMAGE_SIZE - MIN_PROCESS_STACK_SIZE <=? p_memsz ph then inr (throws "Data segment too big")
  else inl (mkSeg (codePresent s) true (dynamicPresent s) (p_memsz ph)).

Definition check_load (e : Elf32_Ehdr) (ph : Elf32_Phdr) (s : seg_state) : seg_state + verdict :=
  if negb (Z.land (p_flags ph) (u32 (Z.lnot (Z.lor PF_R (Z.lor PF_W PF_X)))) =? 0) then inr (returns false)
  else if negb (has (p_flags ph) PF_R) then inr (returns false)
  else if has (p_flags ph) PF_W && has (p_flags ph) PF_X then inr (throws "File violates W^X")
  else match check_code e ph s with inl s => check_data ph s | inr v => inr v end.

Definition check_segment (p : ElfProgram) (e : Elf32_Ehdr) (ph : Elf32_Phdr) (s : seg_state) : exec (seg_state + verdict) :=
  if size p <=? p_offset ph then Done (inr (returns false))
  else if size p <=? p_filesz ph then Done (inr (returns false))
  else if size p <? u32 (p_offset ph + p_filesz ph) then Done (inr (returns false))
  else
    match check_alignment ph with
    | Some v => Done (inr v)
    | None =>
        if p_type ph =? PT_LOAD then Done (check_load e ph s)
        else if p_type ph =? PT_DYNAMIC then
          if dynamicPresent s then Done (inr (returns false))
          else if negb (dataPresent s) then Done (inr (returns false))
          else if p_align ph <? 4 then Done (inr (returns false))
          else
            v ← validateDynamicSegment p ph (dataSegmentSize s);
            Done (match v with
                  | returns true => inl (mkSeg (codePresent s) (dataPresent s) true (dataSegmentSize s))
                  | v => inr v
                  end)
        else Done (inl s)
    end.

Fixpoint check_segments (n : nat) (p : ElfProgram) (e : Elf32_Ehdr) (off : Z) (s : seg_state) : exec (seg_state + verdict) :=
  match n with
  | O => Done (inl s)
  | S n =>
      ph ← read_phdr (content p) off;
      r ← check_segment p e ph s;
      match r with inl s => check_segments n p e (off + sizeof_Phdr) s | inr v => Done (inr v) end
  end.

(** *** The file header *)
Definition check_header (p : ElfProgram) (e : Elf32_Ehdr) : option verdict :=
  if negb (bool_decide (e_ident e = magic)) then Some (throws "Unrecognized format")
  else if negb (e_type e =? ET_EXEC) then Some (throws "Not an executable")
  else if negb (e_machine e =? EM_ARM) then Some (throws "Wrong CPU arch")
  else if negb (e_version e =? EV_CURRENT) then Some (returns false)
  else if size p <=? e_entry e then Some (returns false)
  else if u32 (size p - sizeof_Phdr) <=? e_phoff e then Some (returns false)
  else if isUnaligned4 (e_phoff e) then Some (returns false)
  else if negb (Z.land (e_flags e) EF_ARM_EABIMASK =? EF_ARM_EABI_VER5) then Some (returns false)
  else if negb (fpu p) && has (e_flags e) EF_ARM_VFP_FLOAT then Some (throws "FPU required")
  else if negb (e_ehsize e =? sizeof_Ehdr) then Some (returns false)
  else if negb (e_phentsize e =? sizeof_Phdr) then Some (returns false)
  else if 20 <? e_phnum e then Some (throws "Too many segments")
  else if size p <? u32 (e_phoff e + e_phnum e * sizeof_Phdr) then Some (returns false)
  else None.

Definition validateHeader (p : ElfProgram) : exec verdict :=
  if isUnaligned8 (elf p) then Done (throws "Elf file load address alignment error")
  else if size p <? sizeof_Ehdr then Done (returns false)
  else
    e ← read_ehdr (content p);
    match check_header p e with
    | Some v => Done v
    | None =>
        r ← check_segments (Z.to_nat (e_phnum e)) p e (e_phoff e) seg_init;
        Done (match r with inr v => v | inl s => returns (codePresent s) end)
    end.

(** The constructor: the error it throws, if any. *)
Definition ElfProgram_new (p : ElfProgram) : exec (option string) :=
  v ← validateHeader p;
  Done (match v with returns true => None | returns false => Some "Bad file" | throws what => Some what end).

(** ** Tables

    The entries of the tables of the file, and the loops over them. *)
Fixpoint pairs (n : nat) (c : bytes) (off : Z) : list (Z * Z) :=
  match n with O => [] | S n => (rd 4 c off, rd 4 c (off + 4)) :: pairs n c (off + 8) end.

Fixpoint fold_dyn (l : list (Z * Z)) (s : dyn_state) : dyn_state + verdict :=
  match l with
  | [] => inl s
  | (tag, val) :: l => match dyn_entry tag val s with inl s => fold_dyn l s | inr v => inr v end
  end.

Lemma scan_dynamic_in n c off s :
  0 <= off -> off + 8 * Z.of_nat n <= Z.of_nat (length c) -> scan_dynamic n c off s = Done (fold_dyn (pairs n c off) s).
Proof.
  revert off s. induction n as [|n IH]; intros off s H0 Hl; simpl; [done|]. rewrite !get_in by lia. cbn [mbind outcome_bind].
  destruct (dyn_entry _ _ s); [|done]. unfold sizeof_Dyn. apply IH; lia.
Qed.

Definition fold_rel (D : Z) (l : list (Z * Z)) : verdict :=
  match omap (fun r => check_relocation r.1 r.2 D) l with [] => returns true | v :: _ => v end.

Lemma check_relocations_in n c off D :
  0 <= off -> off + 8 * Z.of_nat n <= Z.of_nat (length c) -> check_relocations n c off D = Done (fold_rel D (pairs n c off)).
Proof.
  revert off. induction n as [|n IH]; intros off H0 Hl; simpl; [done|]. rewrite !get_in by lia. cbn [mbind outcome_bind].
  unfold fold_rel. simpl. destruct (check_relocation _ _ D); [done|]. unfold sizeof_Rel. apply IH; lia.
Qed.

Lemma fold_rel_ok D l : fold_rel D l = returns true -> Forall (fun r => check_relocation r.1 r.2 D = None) l.
Proof.
  unfold fold_rel. induction l as [|r l IH]; simpl; [constructor|]. destruct (check_relocation r.1 r.2 D) as [v|] eqn:E; simpl.
  - intros ->. unfold check_relocation in E. repeat case_match; simplify_eq.
  - intros Hl. constructor; [done|by apply IH].
Qed.

(** The last value with a tag. *)
Definition final (tag : Z) (l : list (Z * Z)) (init : Z) : Z := foldl (fun a r => if r.1 =? tag then r.2 else a) init l.

Lemma final_cons tag r l init : final tag (r :: l) init = final tag l (if r.1 =? tag then r.2 else init).
Proof. done. Qed.

Lemma final_bound tag l init : Forall (fun r => 0 <= r.2 < 2 ^ 32) l -> 0 <= init < 2 ^ 32 -> 0 <= final tag l init < 2 ^ 32.
Proof. intros Hl. revert init. induction Hl as [|r l Hr _ IH]; intros init Hi; [done|]. rewrite final_cons. apply IH. by destruct (r.1 =? tag). Qed.

Lemma pairs_bound n c off : byte_list c -> Forall (fun r => 0 <= r.1 < 2 ^ 32 /\ 0 <= r.2 < 2 ^ 32) (pairs n c off).
Proof. intros Hc. revert off. induction n as [|n IH]; intros off; simpl; constructor; [|apply IH]. split; by apply rd32_bound. Qed.

(** *** What an accepted dynamic segment says *)
Definition tagged (tag : Z) (l : list (Z * Z)) : bool := existsb (fun r => r.1 =? tag) l.

Lemma lor_bits_pos a b : 0 <= a -> 0 < b -> Z.lor a b <> 0.
Proof. intros Ha Hb E. apply Z.lor_eq_0_iff in E. lia. Qed.

Lemma dyn_entry_has tag val s s' :
  dyn_entry tag val s = inl s' -> 0 <= hasRelocs s ->
  dtRel s' = (if tag =? DT_REL then val else dtRel s) /\ dtRelsz s' = (if tag =? DT_RELSZ then val else dtRelsz s) /\
  ramSize s' = (if tag =? DT_MX_RAMSIZE then val else ramSize s) /\
  0 <= hasRelocs s' /\ (hasRelocs s' = 0 -> hasRelocs s = 0 /\ tag <> DT_REL /\ tag <> DT_RELSZ).
Proof.
  unfold dyn_entry. destruct s as [rel relsz has mx ram stack]. simpl. intros He Hh.
  assert (Hor : forall b, 0 <= b -> 0 <= Z.lor has b) by (intros b Hb; by apply Z.lor_nonneg).
  destruct (Z.eqb_spec tag DT_REL) as [->|H1].
  { injection He as <-. simpl. split_and!; try done; [by apply Hor|]. by intros ?%lor_bits_pos. }
  destruct (Z.eqb_spec tag DT_RELSZ) as [->|H2].
  { injection He as <-. simpl. split_and!; try done; [by apply Hor|]. by intros ?%lor_bits_pos. }
  destruct (Z.eqb_spec tag DT_RELENT) as [->|H3].
  { destruct (negb _); [done|]. injection He as <-. simpl. split_and!; try done; [by apply Hor|]. by intros ?%lor_bits_pos. }
  destruct (Z.eqb_spec tag DT_MX_ABI) as [->|H4]; [destruct (val =? DV_MX_ABI_V1); [|done]; by injection He as <-|].
  destruct (Z.eqb_spec tag DT_MX_RAMSIZE) as [->|H5]; [by injection He as <-|].
  destruct (Z.eqb_spec tag DT_MX_STACKSIZE) as [->|H6]; [by injection He as <-|].
  destruct (_ || _); [done|]. by injection He as <-.
Qed.

Lemma fold_dyn_final l s s' :
  fold_dyn l s = inl s' -> 0 <= hasRelocs s ->
  dtRel s' = final DT_REL l (dtRel s) /\ dtRelsz s' = final DT_RELSZ l (dtRelsz s) /\ ramSize s' = final DT_MX_RAMSIZE l (ramSize s) /\
  (hasRelocs s' = 0 -> hasRelocs s = 0 /\ tagged DT_REL l = false /\ tagged DT_RELSZ l = false).
Proof.
  revert s. induction l as [|[tag val] l IH]; intros s Hf Hh; simpl in Hf; [by injection Hf as <-|].
  destruct (dyn_entry tag val s) as [s1|] eqn:E; [|done]. destruct (dyn_entry_has _ _ _ _ E Hh) as (H1 & H2 & H3 & Hh1 & H4).
  destruct (IH s1 Hf Hh1) as (I1 & I2 & I3 & I4). rewrite !final_cons. simpl. rewrite <- H1, <- H2, <- H3.
  split_and!; [done..|]. intros H0. destruct (I4 H0) as (J1 & J2 & J3). destruct (H4 J1) as (? & Ht1 & Ht2).
  rewrite J2, J3, !orb_false_r. split_and!; [done|by apply Z.eqb_neq|by apply Z.eqb_neq].
Qed.

(** The bounds an accepted dynamic segment guarantees, for data of size [D]. *)
Record dyn_ok (p : ElfProgram) (D : Z) (l : list (Z * Z)) : Prop := {
  dyn_ram : ProcessPool.blockSize <= final DT_MX_RAMSIZE l 0 <= MAX_PROCESS_IMAGE_SIZE;
  dyn_ram_words : final DT_MX_RAMSIZE l 0 mod 4 = 0;
  dyn_room : D + MIN_PROCESS_STACK_SIZE <= final DT_MX_RAMSIZE l 0;
  dyn_rels : tagged DT_REL l || tagged DT_RELSZ l = true ->
    final DT_REL l 0 + final DT_RELSZ l 0 <= size p /\
    Forall (fun r => check_relocation r.1 r.2 D = None)
      (pairs (Z.to_nat (final DT_RELSZ l 0 / 8)) (content p) (final DT_REL l 0));
}.

Record well_formed (p : ElfProgram) : Prop := {
  wf_length : Z.of_nat (length (content p)) = size p;
  wf_bytes : byte_list (content p);
  wf_size : size p < 2 ^ 31;
}.

Definition dyn_entries (p : ElfProgram) (ph : Elf32_Phdr) : list (Z * Z) :=
  pairs (Z.to_nat (p_memsz ph / 8)) (content p) (p_offset ph).

Lemma u32_sum a b n : 0 <= a < 2 ^ 31 -> 0 <= b < 2 ^ 31 -> u32 (a + b) <= n -> a + b <= n.
Proof. intros Ha Hb. by rewrite wrapU_small by lia. Qed.

Lemma pairs_fit off sz n : 0 <= sz -> off + 8 * (sz / 8) <= n -> off + 8 * Z.of_nat (Z.to_nat (sz / 8)) <= n.
Proof. intros Hs Hn. pose proof (Z.div_pos sz 8). lia. Qed.

Lemma pairs_room off sz n : off + sz <= n -> off + 8 * (sz / 8) <= n.
Proof. intros Hn. pose proof (Z.div_mod sz 8). pose proof (Z.mod_pos_bound sz 8). lia. Qed.

Lemma dyn_entry_error tag val s v : dyn_entry tag val s = inr v -> v <> returns true.
Proof. unfold dyn_entry. destruct s. intros H ->. repeat case_match; simplify_eq. Qed.

Lemma fold_dyn_error l s v : fold_dyn l s = inr v -> v <> returns true.
Proof.
  revert s. induction l as [|[tag val] l IH]; intros s; simpl; [done|]. destruct (dyn_entry tag val s) eqn:E; [apply IH|].
  intros [= <-]. by eapply dyn_entry_error.
Qed.

Lemma land3 x : Z.land x 3 = 0 -> x mod 4 = 0.
Proof. change 3 with (Z.ones 2). by rewrite Z.land_ones. Qed.

Lemma check_sizes D s :
  0 <= D <= MAX_PROCESS_IMAGE_SIZE -> 0 <= ramSize s ->
  negb (Z.land (stackSize s) 3 =? 0) || negb (Z.land (ramSize s) 3 =? 0) || (ramSize s <? ProcessPool.blockSize) ||
    (MAX_PROCESS_IMAGE_SIZE <? stackSize s) || (MAX_PROCESS_IMAGE_SIZE <? D) || (ramSize s <? u32 (D + stackSize s)) = false ->
  MIN_PROCESS_STACK_SIZE <= stackSize s ->
  ramSize s mod 4 = 0 /\ ProcessPool.blockSize <= ramSize s /\ D + MIN_PROCESS_STACK_SIZE <= ramSize s.
Proof.
  intros HD Hr Hc Hs. rewrite !orb_false_iff, !negb_false_iff, !Z.eqb_eq, !Z.ltb_ge in Hc. destruct Hc as [[[[[Ha Hb] Hc] Hd] He] Hf].
  split; [by apply land3|]. split; [done|]. unfold MAX_PROCESS_IMAGE_SIZE, MIN_PROCESS_STACK_SIZE in *.
  apply u32_sum in Hf; lia.
Qed.

Ltac rejected := eexists; split; [reflexivity|discriminate].

Lemma validateDynamicSegment_spec p ph D :
  well_formed p -> 0 <= p_offset ph -> 0 <= p_memsz ph -> p_offset ph + 8 * (p_memsz ph / 8) <= size p -> 0 <= D <= MAX_PROCESS_IMAGE_SIZE ->
  exists v, validateDynamicSegment p ph D = Done v /\ (v = returns true -> dyn_ok p D (dyn_entries p ph)).
Proof.
  intros [Hlen Hb Hsz] Ho Hm Hfit HD. unfold validateDynamicSegment.
  change (p_memsz ph / sizeof_Dyn) with (p_memsz ph / 8).
  rewrite scan_dynamic_in; [|done|rewrite Hlen; by apply pairs_fit]. cbn [mbind outcome_bind]. fold (dyn_entries p ph).
  set (l := dyn_entries p ph). assert (Hl : Forall (fun r => 0 <= r.2 < 2 ^ 32) l).
  { eapply Forall_impl; [by apply pairs_bound|]. by intros r [_ ?]. }
  destruct (fold_dyn l dyn_init) as [s|v] eqn:E; [|exists v; split; [done|]; intros ->; by destruct (fold_dyn_error _ _ _ E)].
  destruct (fold_dyn_final l dyn_init s E ltac:(done)) as (H1 & H2 & H3 & H4). simpl in H1, H2, H3.
  pose proof (final_bound DT_REL l 0 Hl ltac:(lia)) as B1. pose proof (final_bound DT_RELSZ l 0 Hl ltac:(lia)) as B2.
  pose proof (final_bound DT_MX_RAMSIZE l 0 Hl ltac:(lia)) as B3. rewrite <- H1 in B1. rewrite <- H2 in B2. rewrite <- H3 in B3.
  destruct (negb (miosixTagFound s)); [rejected|].
  destruct (Z.ltb_spec (stackSize s) MIN_PROCESS_STACK_SIZE) as [|Hstack]; [rejected|].
  destruct (Z.ltb_spec MAX_PROCESS_IMAGE_SIZE (ramSize s)) as [|Hmax]; [rejected|].
  match goal with |- context [if ?b then Done (throws "Invalid stack or RAM size") else _] => destruct b eqn:Hsizes; [rejected|] end.
  destruct (check_sizes D s HD ltac:(lia) Hsizes Hstack) as (Hw & Hmin & Hroom).
  destruct (negb (hasRelocs s =? 0) && negb (hasRelocs s =? 7)); [rejected|].
  destruct (Z.eqb_spec (hasRelocs s) 0) as [Hno|Hrel].
  { eexists. split; [reflexivity|]. intros _. destruct (H4 Hno) as (_ & T1 & T2). split; rewrite <- ?H3; [done..|by rewrite T1, T2]. }
  destruct (Z.leb_spec (size p) (dtRel s)); [rejected|]. destruct (Z.leb_spec (size p) (dtRelsz s)); [rejected|].
  destruct (Z.ltb_spec (size p) (u32 (dtRel s + dtRelsz s))) as [|Hsum]; [rejected|]. apply u32_sum in Hsum; [|lia..].
  destruct (isUnaligned4 (dtRel s)); [rejected|]. change (dtRelsz s / sizeof_Rel) with (dtRelsz s / 8).
  rewrite check_relocations_in; [|lia|rewrite Hlen; apply pairs_fit; [lia|apply pairs_room; lia]].
  eexists. split; [reflexivity|]. intros Hok%fold_rel_ok. split; rewrite <- ?H3, <- ?H1, <- ?H2; done.
Qed.

(** *** The segments of a file *)
Definition phdr_of (c : bytes) (off : Z) : Elf32_Phdr :=
  mkPhdr (rd 4 c off) (rd 4 c (off + 4)) (rd 4 c (off + 16)) (rd 4 c (off + 20)) (rd 4 c (off + 24)) (rd 4 c (off + 28)).

Lemma read_phdr_in c off : 0 <= off -> off + 32 <= Z.of_nat (length c) -> read_phdr c off = Done (phdr_of c off).
Proof. intros H0 Hl. unfold read_phdr. rewrite !get_in by lia. done. Qed.

Fixpoint phdrs (n : nat) (c : bytes) (off : Z) : list Elf32_Phdr :=
  match n with O => [] | S n => phdr_of c off :: phdrs n c (off + 32) end.

Definition unsigned_phdr (ph : Elf32_Phdr) : Prop := 0 <= p_offset ph < 2 ^ 32 /\ 0 <= p_filesz ph < 2 ^ 32 /\ 0 <= p_memsz ph < 2 ^ 32.

Lemma phdrs_unsigned n c off : byte_list c -> Forall unsigned_phdr (phdrs n c off).
Proof. intros Hc. revert off. induction n as [|n IH]; intros off; simpl; constructor; [|apply IH]. split_and!; by apply rd32_bound. Qed.

Fixpoint fold_segments (p : ElfProgram) (e : Elf32_Ehdr) (l : list Elf32_Phdr) (s : seg_state) : exec (seg_state + verdict) :=
  match l with
  | [] => Done (inl s)
  | ph :: l => r ← check_segment p e ph s; match r with inl s => fold_segments p e l s | inr v => Done (inr v) end
  end.

Lemma check_segments_in n p e off s :
  0 <= off -> off + 32 * Z.of_nat n <= Z.of_nat (length (content p)) ->
  check_segments n p e off s = fold_segments p e (phdrs n (content p) off) s.
Proof.
  revert off s. induction n as [|n IH]; intros off s H0 Hl; cbn [check_segments phdrs fold_segments]; [done|].
  rewrite read_phdr_in by lia. cbn [mbind outcome_bind]. destruct (check_segment _ _ _ s) as [[s1|v]|x]; [|done|done].
  cbn [mbind outcome_bind]. unfold sizeof_Phdr. apply IH; lia.
Qed.

Definition is_data (ph : Elf32_Phdr) : bool := (p_type ph =? PT_LOAD) && writable ph.
Definition is_dynamic (ph : Elf32_Phdr) : bool := p_type ph =? PT_DYNAMIC.
Definition plain (ph : Elf32_Phdr) : Prop := is_data ph = false /\ is_dynamic ph = false.

(** The part of the file that the loader copies, and its size in memory. *)
Definition data_ok (p : ElfProgram) (d : Elf32_Phdr) : Prop :=
  p_offset d + p_filesz d <= size p /\ p_filesz d <= p_memsz d < MAX_PROCESS_IMAGE_SIZE - MIN_PROCESS_STACK_SIZE.

(** The entries of a dynamic segment are in the file: its [p_memsz] is not
    checked. *)
Definition dynamic_fits (p : ElfProgram) (ph : Elf32_Phdr) : Prop := is_dynamic ph = true -> p_offset ph + 8 * (p_memsz ph / 8) <= size p.
Instance dynamic_fits_dec p ph : Decision (dynamic_fits p ph) := _.

Definition seg_ok (s : seg_state) : Prop := 0 <= dataSegmentSize s <= MAX_PROCESS_IMAGE_SIZE.

(** What a check of one segment leaves. *)
Definition seg_step (p : ElfProgram) (ph : Elf32_Phdr) (s s' : seg_state) : Prop :=
  seg_ok s' /\ p_offset ph + p_filesz ph <= size p /\
  ((plain ph /\ dataPresent s' = dataPresent s /\ dynamicPresent s' = dynamicPresent s /\ dataSegmentSize s' = dataSegmentSize s) \/
   (is_data ph = true /\ is_dynamic ph = false /\ data_ok p ph /\ dataPresent s = false /\
    dataPresent s' = true /\ dynamicPresent s' = dynamicPresent s /\ dataSegmentSize s' = p_memsz ph) \/
   (is_dynamic ph = true /\ is_data ph = false /\ dynamicPresent s = false /\ dataPresent s = true /\
    dataPresent s' = true /\ dynamicPresent s' = true /\ dataSegmentSize s' = dataSegmentSize s /\ dyn_ok p (dataSegmentSize s) (dyn_entries p ph))).

Lemma check_load_spec p e ph s s' :
  p_type ph = PT_LOAD -> seg_ok s -> p_offset ph + p_filesz ph <= size p -> unsigned_phdr ph -> check_load e ph s = inl s' -> seg_step p ph s s'.
Proof.
  intros Ht Hs Hfit (Uo & Uf & Um) Hc. unfold check_load in Hc.
  destruct (negb _) in Hc; [done|]. destruct (negb _) in Hc; [done|]. destruct (_ && _) in Hc; [done|].
  assert (Hcode : exists s1, check_code e ph s = inl s1 /\ check_data ph s1 = inl s' /\
    dataPresent s1 = dataPresent s /\ dynamicPresent s1 = dynamicPresent s /\ dataSegmentSize s1 = dataSegmentSize s).
  { destruct (check_code e ph s) as [s1|] eqn:E; [|done]. exists s1. split; [done|]. split; [done|].
    unfold check_code in E. repeat case_match; simplify_eq; done. }
  destruct Hcode as (s1 & _ & Hd & E1 & E2 & E3). unfold seg_step, plain, is_data, is_dynamic. rewrite Ht.
  change (PT_LOAD =? PT_LOAD) with true. change (PT_LOAD =? PT_DYNAMIC) with false. simpl. unfold check_data in Hd.
  destruct (writable ph) eqn:Hw; simpl in Hd.
  - destruct (dataPresent s1) eqn:Hdp; [done|]. destruct (Z.ltb_spec (p_memsz ph) (p_filesz ph)); [done|].
    destruct (Z.leb_spec (MAX_PROCESS_IMAGE_SIZE - MIN_PROCESS_STACK_SIZE) (p_memsz ph)); [done|]. injection Hd as <-.
    split; [split; simpl; unfold MIN_PROCESS_STACK_SIZE in *; lia|]. split; [done|]. right. left. simpl. rewrite <- E1, E2. split_and!; try done; lia.
  - injection Hd as <-. split; [unfold seg_ok; by rewrite E3|]. split; [done|]. left. by rewrite E1, E2, E3.
Qed.

Lemma check_segment_spec p e ph s :
  well_formed p -> unsigned_phdr ph -> dynamic_fits p ph -> seg_ok s ->
  exists r, check_segment p e ph s = Done r /\ match r with inl s' => seg_step p ph s s' | inr v => v <> returns true end.
Proof.
  intros Hwf Hu Hfits Hs. pose proof Hu as (Uo & Uf & Um). pose proof (wf_size _ Hwf) as Hsz. unfold check_segment.
  destruct (Z.leb_spec (size p) (p_offset ph)); [rejected|]. destruct (Z.leb_spec (size p) (p_filesz ph)); [rejected|].
  destruct (Z.ltb_spec (size p) (u32 (p_offset ph + p_filesz ph))) as [|Hsum]; [rejected|]. apply u32_sum in Hsum; [|lia..].
  destruct (check_alignment ph) as [v|] eqn:Ha.
  { eexists. split; [reflexivity|]. intros ->. unfold check_alignment in Ha. repeat case_match; simplify_eq. }
  destruct (Z.eqb_spec (p_type ph) PT_LOAD) as [Ht|Ht].
  { destruct (check_load e ph s) as [s'|v] eqn:E; (eexists; split; [reflexivity|]); [by eapply check_load_spec|].
    intros ->. unfold check_load, check_code, check_data in E. repeat case_match; simplify_eq. }
  destruct (Z.eqb_spec (p_type ph) PT_DYNAMIC) as [Hd|Hd].
  - destruct (dynamicPresent s) eqn:Hdyn; [rejected|]. destruct (dataPresent s) eqn:Hdata; [|rejected]. simpl.
    destruct (p_align ph <? 4); [rejected|].
    assert (Hdy : is_dynamic ph = true) by (by apply Z.eqb_eq). specialize (Hfits Hdy).
    destruct (validateDynamicSegment_spec p ph (dataSegmentSize s) Hwf) as (v & -> & Hv); [lia..|done|]. cbn [mbind outcome_bind].
    destruct v as [[]|]; [|rejected|rejected]. eexists. split; [reflexivity|]. split; [done|]. split; [done|]. right. right.
    split_and!; try done; [unfold is_data; by rewrite (proj2 (Z.eqb_neq _ _) Ht)|by apply Hv].
  - eexists. split; [reflexivity|]. split; [done|]. split; [done|]. left. split; [|done]. split; [unfold is_data|unfold is_dynamic].
    + by rewrite (proj2 (Z.eqb_neq _ _) Ht).
    + by apply Z.eqb_neq.
Qed.

(** The data segment and the dynamic segment after it, with nothing else of
    interest. *)
Definition has_dynamic (l : list Elf32_Phdr) : Prop := exists ph, ph ∈ l /\ is_dynamic ph = true.

Inductive layout (p : ElfProgram) : list Elf32_Phdr -> Elf32_Phdr -> Elf32_Phdr -> Prop :=
| Layout pre d mid y post :
    Forall plain pre -> Forall plain mid -> Forall plain post -> is_data d = true -> is_dynamic d = false -> is_dynamic y = true -> is_data y = false ->
    data_ok p d -> dyn_ok p (p_memsz d) (dyn_entries p y) -> layout p (pre ++ d :: mid ++ y :: post) d y.

Lemma fold_segments_spec p e l s :
  well_formed p -> Forall unsigned_phdr l -> Forall (dynamic_fits p) l -> seg_ok s ->
  exists r, fold_segments p e l s = Done r /\
    match r with
    | inr v => v <> returns true
    | inl s' =>
        (dynamicPresent s = true -> dataPresent s = true -> Forall plain l) /\
        (dynamicPresent s = false -> dataPresent s = true -> has_dynamic l ->
           exists mid y post, l = mid ++ y :: post /\ Forall plain mid /\ Forall plain post /\ is_dynamic y = true /\ is_data y = false /\
             dyn_ok p (dataSegmentSize s) (dyn_entries p y)) /\
        (dynamicPresent s = false -> dataPresent s = false -> has_dynamic l -> exists d y, layout p l d y)
    end.
Proof.
  intros Hwf. revert s. induction l as [|ph l IH]; intros s Hu Hf Hs; cbn [fold_segments].
  { eexists. split; [done|]. split_and!; [by constructor|..]; intros _ _ (ph & Hin & _); by apply elem_of_nil in Hin. }
  apply Forall_cons in Hu as [Hu Hul]. apply Forall_cons in Hf as [Hf Hfl].
  destruct (check_segment_spec p e ph s Hwf Hu Hf Hs) as ([s1|v] & -> & Hstep); cbn [mbind outcome_bind]; [|by eexists].
  destruct Hstep as (Hs1 & Hfit & Hcases). destruct (IH s1 Hul Hfl Hs1) as ([s'|v] & -> & Hr); (eexists; split; [reflexivity|]); [|done].
  destruct Hr as (Hr1 & Hr2 & Hr3). destruct Hcases as [(Hp & E1 & E2 & E3)|[(Hd & Hnd & Hok & E0 & E1 & E2 & E3)|(Hy & Hnd & E0 & E0' & E1 & E2 & E3 & Hok)]].
  - rewrite E1, E2, E3 in *. assert (Hdyn : has_dynamic (ph :: l) -> has_dynamic l).
    { intros (y & [->|Hin]%elem_of_cons & Hy); [destruct Hp as [_ Hp]; congruence|by exists y]. }
    split_and!.
    + intros H1 H2. constructor; auto.
    + intros H1 H2 Hh. destruct (Hr2 H1 H2 (Hdyn Hh)) as (mid & y & post & -> & Hm & Hrest). exists (ph :: mid), y, post. split; [done|]. split; [by constructor|done].
    + intros H1 H2 Hh. destruct (Hr3 H1 H2 (Hdyn Hh)) as (d & y & [pre d' mid y' post Hpre]). exists d', y'.
      apply (Layout p (ph :: pre)); try done. by constructor.
  - rewrite E0, E1, E2, E3 in *. split_and!; [done|done|]. intros H1 _ Hh. destruct (Hr2 H1 eq_refl) as (mid & y & post & -> & Hm & Hpo & Hy & Hny & Hdok).
    + destruct Hh as (y & [->|Hin]%elem_of_cons & Hy); [congruence|by exists y].
    + exists ph, y. apply (Layout p []); try done.
  - rewrite E0, E0', E1, E2, E3 in *. split_and!; [done| |done]. intros _ _ _. exists [], ph, l. split_and!; try done. by apply Hr1.
Qed.

(** *** The whole file *)
Definition ehdr_of (c : bytes) : Elf32_Ehdr :=
  mkEhdr (take EI_NIDENT c) (rd 2 c 16) (rd 2 c 18) (rd 4 c 20) (rd 4 c 24) (rd 4 c 28) (rd 4 c 36) (rd 2 c 40) (rd 2 c 42) (rd 2 c 44).

Lemma read_ehdr_in c : 52 <= Z.of_nat (length c) -> read_ehdr c = Done (ehdr_of c).
Proof. intros Hl. unfold read_ehdr. rewrite !get_in by lia. done. Qed.

Definition segments (p : ElfProgram) : list Elf32_Phdr :=
  let e := ehdr_of (content p) in phdrs (Z.to_nat (e_phnum e)) (content p) (e_phoff e).

Lemma check_header_spec p :
  well_formed p -> 52 <= size p ->
  match check_header p (ehdr_of (content p)) with
  | None => let e := ehdr_of (content p) in 0 <= e_phoff e /\ e_phoff e + 32 * Z.of_nat (Z.to_nat (e_phnum e)) <= size p
  | Some v => v <> returns true
  end.
Proof.
  intros [Hlen Hb Hsz] H52. set (e := ehdr_of (content p)).
  assert (Ho : 0 <= e_phoff e < 2 ^ 32) by (by apply rd32_bound). assert (Hn : 0 <= e_phnum e) by (by apply (rd_bound 2 _ _ Hb)).
  clearbody e. unfold check_header. rewrite (wrapU_small 32 (size p - sizeof_Phdr)) by (unfold sizeof_Phdr; lia).
  do 5 (destruct (_ : bool); [done|]).
  destruct (Z.leb_spec (size p - sizeof_Phdr) (e_phoff e)) as [|Hoff]; [done|]. unfold sizeof_Phdr in *.
  do 5 (destruct (_ : bool); [done|]). destruct (Z.ltb_spec 20 (e_phnum e)); [done|].
  rewrite wrapU_small by lia. destruct (Z.ltb_spec (size p) (e_phoff e + e_phnum e * 32)); [done|]. lia.
Qed.

Lemma validateHeader_spec p :
  well_formed p -> (check_header p (ehdr_of (content p)) = None -> Forall (dynamic_fits p) (segments p)) ->
  exists v, validateHeader p = Done v /\
    (v = returns true ->
       52 <= size p /\ (let e := ehdr_of (content p) in 0 <= e_phoff e /\ e_phoff e + 32 * Z.of_nat (Z.to_nat (e_phnum e)) <= size p) /\
       (has_dynamic (segments p) -> exists d y, layout p (segments p) d y)).
Proof.
  intros Hwf Hfit. pose proof Hwf as [Hlen Hb Hsz]. unfold validateHeader. destruct (isUnaligned8 (elf p)); [rejected|].
  destruct (Z.ltb_spec (size p) sizeof_Ehdr) as [|H52]; [rejected|]. unfold sizeof_Ehdr in H52.
  rewrite read_ehdr_in by lia. cbn [mbind outcome_bind]. pose proof (check_header_spec p Hwf H52) as Hh.
  destruct (check_header p (ehdr_of (content p))) as [v|] eqn:E; [by exists v|]. destruct Hh as [H0 Hl].
  rewrite check_segments_in by (rewrite ?Hlen; done). fold (segments p).
  destruct (fold_segments_spec p (ehdr_of (content p)) (segments p) seg_init) as (r & -> & Hr); [done|by apply phdrs_unsigned|by apply Hfit|done|].
  cbn [mbind outcome_bind]. destruct r as [s|v]; [|by exists v]. eexists. split; [reflexivity|]. intros _. split; [done|]. split; [done|].
  destruct Hr as (_ & _ & Hr). by apply Hr.
Qed.

(** A check that ends has read only the file. *)
Lemma scan_dynamic_fits n c off s r : (0 < n)%nat -> scan_dynamic n c off s = Done (inl r) -> off + 8 * Z.of_nat n <= Z.of_nat (length c).
Proof.
  intros Hn. revert off s Hn. induction n as [|n IH]; intros off s Hn Hr; [lia|]. cbn [scan_dynamic] in Hr.
  destruct (get32 c off) as [tag|]; [|done]. destruct (get32 c (off + 4)) as [val|] eqn:Ev; [|done]. cbn [mbind outcome_bind] in Hr.
  destruct (get_Done _ _ _ _ Ev) as (_ & Hl & _). destruct (dyn_entry tag val s) as [s1|v]; [|done].
  destruct n as [|n]; [lia|]. specialize (IH _ s1 ltac:(lia) Hr). unfold sizeof_Dyn in IH. lia.
Qed.

Lemma check_segment_fits p e ph s s' : well_formed p -> unsigned_phdr ph -> check_segment p e ph s = Done (inl s') -> dynamic_fits p ph.
Proof.
  intros [Hlen _ _] (Uo & _ & Um) Hc Hd%Z.eqb_eq. unfold check_segment in Hc. destruct (Z.leb_spec (size p) (p_offset ph)) as [|Ho]; [done|].
  destruct (size p <=? p_filesz ph); [done|]. destruct (size p <? _); [done|]. destruct (check_alignment ph); [done|].
  rewrite Hd in Hc. change (PT_DYNAMIC =? PT_LOAD) with false in Hc. change (PT_DYNAMIC =? PT_DYNAMIC) with true in Hc. cbn iota in Hc.
  destruct (dynamicPresent s); [done|]. destruct (negb _); [done|]. destruct (p_align ph <? 4); [done|].
  unfold validateDynamicSegment in Hc. change (p_memsz ph / sizeof_Dyn) with (p_memsz ph / 8) in Hc.
  destruct (scan_dynamic _ _ _ _) as [[r|v]|] eqn:E; cbn [mbind outcome_bind] in Hc; [|exfalso|done].
  - pose proof (Z.div_pos (p_memsz ph) 8). destruct (decide (p_memsz ph / 8 = 0)) as [->|]; [lia|]. apply scan_dynamic_fits in E; lia.
  - assert (Hv : v <> returns true); [|by destruct v as [[]|]].
    clear -E. revert E. generalize (p_offset ph) dyn_init (Z.to_nat (p_memsz ph / 8)). intros off s0 n. revert off s0.
    induction n as [|n IH]; intros off s0 E; cbn [scan_dynamic] in E; [done|].
    destruct (get32 (content p) off) as [tag|]; [|done]. destruct (get32 (content p) (off + 4)) as [val|]; [|done]. cbn [mbind outcome_bind] in E.
    destruct (dyn_entry tag val s0) as [s1|v1] eqn:E1; [by eapply IH|]. injection E as <-. by eapply dyn_entry_error.
Qed.

Lemma fold_segments_fits p e l s s' : well_formed p -> Forall unsigned_phdr l -> fold_segments p e l s = Done (inl s') -> Forall (dynamic_fits p) l.
Proof.
  intros Hwf Hu. revert s. induction Hu as [|ph l Hph _ IH]; intros s Hf; [constructor|]. cbn [fold_segments] in Hf.
  destruct (check_segment p e ph s) as [[s1|v]|] eqn:E; cbn [mbind outcome_bind] in Hf; [|done|done].
  constructor; [by eapply check_segment_fits|by eapply IH].
Qed.

Lemma accepted_header p :
  well_formed p -> validateHeader p = Done (returns true) ->
  52 <= size p /\ check_header p (ehdr_of (content p)) = None /\ Forall (dynamic_fits p) (segments p).
Proof.
  intros Hwf Hv. pose proof Hwf as [Hlen Hb Hsz]. unfold validateHeader in Hv. destruct (isUnaligned8 _); [done|].
  destruct (Z.ltb_spec (size p) sizeof_Ehdr) as [|H52]; [done|]. unfold sizeof_Ehdr in H52. split; [done|].
  rewrite read_ehdr_in in Hv by lia. cbn [mbind outcome_bind] in Hv. pose proof (check_header_spec p Hwf H52) as Hh.
  destruct (check_header p _) as [v|]; [by injection Hv as ->|]. destruct Hh as [H0 Hl]. split; [done|].
  rewrite check_segments_in in Hv by (rewrite ?Hlen; done). fold (segments p) in Hv.
  destruct (fold_segments p _ _ _) as [[s|v]|] eqn:E; cbn [mbind outcome_bind] in Hv; [|exfalso|done].
  - eapply fold_segments_fits; [done|by apply phdrs_unsigned|exact E].
  - injection Hv as ->. revert E. generalize seg_init, (segments p). intros s l. revert s.
    induction l as [|ph l IH]; intros s E; cbn [fold_segments] in E; [done|].
    destruct (check_segment p _ ph s) as [[s1|v]|] eqn:E1; cbn [mbind outcome_bind] in E; [by eapply IH| |done].
    injection E as ->. revert E1. unfold check_segment, check_alignment, check_load, check_code, check_data. clear.
    destruct (validateDynamicSegment _ _ _) as [[[]|]|]; cbn [mbind outcome_bind]; intros E1; repeat case_match; simplify_eq.
Qed.

(** ** [ProcessImage]

    The block of the image, if any, and the bytes in it; [ram] is what memory
    holds before. *)
Record ProcessImage := mkImage { image : option Z; image_size : Z; image_bytes : bytes }.

Section load.
Context (ram : Z -> Z).

Record load_state := mkLoad {
  dataSegment : option Elf32_Phdr; l_dtRel : Z; l_dtRelsz : Z; l_hasRelocs : bool; l_image : ProcessImage; pool : ProcessPool.ProcessPool }.

(** An exception leaves the state reached. *)
Abbreviation may_throw := (exec (load_state + ProcessPool.exn * load_state)).

Definition load_entry (tag val : Z) (s : load_state) : may_throw :=
  let '(mkLoad d rel relsz has im p) := s in
  if tag =? DT_REL then Done (inl (mkLoad d val relsz true im p))
  else if tag =? DT_RELSZ then Done (inl (mkLoad d rel val true im p))
  else if tag =? DT_MX_RAMSIZE then
    '(r, p) ← ProcessPool.allocate val p;
    Done (match r with
          | inl ptr => inl (mkLoad d rel relsz has (mkImage (Some ptr) val (map ram (seqZ ptr val))) p)
          | inr x => inr (x, mkLoad d rel relsz has (mkImage (image im) val (image_bytes im)) p)
          end)
  else Done (inl s).

Fixpoint load_dynamic (n : nat) (c : bytes) (off : Z) (s : load_state) : may_throw :=
  match n with
  | O => Done (inl s)
  | S n =>
      tag ← get32 c off; val ← get32 c (off + 4);
      r ← load_entry tag val s;
      match r with inl s => load_dynamic n c (off + sizeof_Dyn) s | inr x => Done (inr x) end
  end.

Definition load_segment (c : bytes) (ph : Elf32_Phdr) (s : load_state) : may_throw :=
  if p_type ph =? PT_LOAD then
    Done (inl (if writable ph then mkLoad (Some ph) (l_dtRel s) (l_dtRelsz s) (l_hasRelocs s) (l_image s) (pool s) else s))
  else if p_type ph =? PT_DYNAMIC then load_dynamic (Z.to_nat (p_memsz ph / sizeof_Dyn)) c (p_offset ph) s
  else Done (inl s).

Fixpoint load_segments (n : nat) (c : bytes) (off : Z) (s : load_state) : may_throw :=
  match n with
  | O => Done (inl s)
  | S n =>
      ph ← read_phdr c off;
      r ← load_segment c ph s;
      match r with inl s => load_segments n c (off + sizeof_Phdr) s | inr x => Done (inr x) end
  end.

(** [memcpy] from the file and [memset], into the image. *)
Definition memcpy (im : bytes) (off : Z) (c : bytes) (src n : Z) : exec bytes :=
  if (0 <=? src) && (src + n <=? Z.of_nat (length c)) then set_bytes im off (take (Z.to_nat n) (drop (Z.to_nat src) c)) else Fault Undefined.
Definition memset (im : bytes) (off v n : Z) : exec bytes := set_bytes im off (replicate (Z.to_nat n) v).

(** [image[offset]], an array of words. *)
Definition relocate (base ramBase r_offset r_info : Z) (im : bytes) : exec bytes :=
  let offset := u32 (r_offset - DATA_BASE) / 4 in
  if ELF32_R_TYPE r_info =? R_ARM_RELATIVE then
    w ← get32 im (4 * offset);
    set_bytes im (4 * offset) (unword 4 (u32 (if DATA_BASE <=? w then w + ramBase - DATA_BASE else w + base)))
  else Done im.

Fixpoint relocations (n : nat) (c : bytes) (off base ramBase : Z) (im : bytes) : exec bytes :=
  match n with
  | O => Done im
  | S n =>
      r_offset ← get32 c off; r_info ← get32 c (off + 4);
      im ← relocate base ramBase r_offset r_info im;
      relocations n c (off + sizeof_Rel) base ramBase im
  end.

(** After the segments: the data of the program. *)
Definition load_data (p : ElfProgram) (s : load_state) : exec ProcessImage :=
  data ← deref (dataSegment s);
  ptr ← deref (image (l_image s));
  _ ← deref (ProcessPool.allocatedBlocks (pool s) !! ptr);
  im ← memcpy (image_bytes (l_image s)) 0 (content p) (p_offset data) (p_filesz data);
  im ← memset im (p_filesz data) 0 (u32 (p_memsz data - p_filesz data));
  im ← (if l_hasRelocs s then relocations (Z.to_nat (l_dtRelsz s / sizeof_Rel)) (content p) (l_dtRel s) (elf p) ptr im else Done im);
  Done (mkImage (Some ptr) (image_size (l_image s)) im).

Definition load (p : ElfProgram) (im : ProcessImage) (pl : ProcessPool.ProcessPool) : exec (option ProcessPool.exn * ProcessImage * ProcessPool.ProcessPool) :=
  '(r, pl) ← (match image im with Some ptr => ProcessPool.deallocate ptr pl | None => Done (inl (), pl) end);
  match r with
  | inr x => Done (Some x, im, pl)
  | inl _ =>
      e ← read_ehdr (content p);
      r ← load_segments (Z.to_nat (e_phnum e)) (content p) (e_phoff e) (mkLoad None 0 0 false im pl);
      match r with
      | inr (x, s) => Done (Some x, l_image s, pool s)
      | inl s => im ← load_data p s; Done (None, im, pool s)
      end
  end.

(** The destructor; [image] and [size] of a new object are zero. *)
Definition ProcessImage_new : ProcessImage := mkImage None 0 [].
Definition ProcessImage_drop (im : ProcessImage) (pl : ProcessPool.ProcessPool) : exec ((unit + ProcessPool.exn) * ProcessPool.ProcessPool) :=
  match image im with Some ptr => ProcessPool.deallocate ptr pl | None => Done (inl (), pl) end.

(** ** What is loaded *)
Definition image_ok (s : load_state) (sz : Z) : Prop :=
  exists ptr, l_image s = mkImage (Some ptr) sz (map ram (seqZ ptr sz)) /\ ProcessPool.allocatedBlocks (pool s) !! ptr = Some sz.

Fixpoint fold_load (l : list (Z * Z)) (s : load_state) : may_throw :=
  match l with
  | [] => Done (inl s)
  | (tag, val) :: l => r ← load_entry tag val s; match r with inl s => fold_load l s | inr x => Done (inr x) end
  end.

Lemma load_dynamic_in n c off s :
  0 <= off -> off + 8 * Z.of_nat n <= Z.of_nat (length c) -> load_dynamic n c off s = fold_load (pairs n c off) s.
Proof.
  revert off s. induction n as [|n IH]; intros off s H0 Hl; cbn [load_dynamic pairs fold_load]; [done|]. rewrite !get_in by lia. cbn [mbind outcome_bind].
  destruct (load_entry _ _ s) as [[s1|x]|]; [|done|done]. cbn [mbind outcome_bind]. unfold sizeof_Dyn. apply IH; lia.
Qed.

(** What loading asks of the pool: the sizes named by the dynamic segment, in
    order, after the old block is given back; the last block is the image. *)
Definition ram_requests (l : list (Z * Z)) : list Z := omap (fun r => if r.1 =? DT_MX_RAMSIZE then Some r.2 else None) l.

Fixpoint reserve (sizes : list Z) (last : option Z) (pl : ProcessPool.ProcessPool) : exec ((option Z + ProcessPool.exn) * ProcessPool.ProcessPool) :=
  match sizes with
  | [] => Done (inl last, pl)
  | sz :: sizes => '(r, pl) ← ProcessPool.allocate sz pl; match r with inl ptr => reserve sizes (Some ptr) pl | inr x => Done (inr x, pl) end
  end.

Definition reserved (sizes : list Z) (im : ProcessImage) (pl : ProcessPool.ProcessPool) : exec ((option Z + ProcessPool.exn) * ProcessPool.ProcessPool) :=
  '(r, pl) ← ProcessImage_drop im pl; match r with inl _ => reserve sizes (image im) pl | inr x => Done (inr x, pl) end.

Lemma load_entry_spec tag val s :
  ProcessPool.inv (pool s) -> 0 <= val < 2 ^ 32 ->
  match load_entry tag val s with
  | Done (inl s') =>
      ProcessPool.inv (pool s') /\ dataSegment s' = dataSegment s /\
      l_dtRel s' = (if tag =? DT_REL then val else l_dtRel s) /\ l_dtRelsz s' = (if tag =? DT_RELSZ then val else l_dtRelsz s) /\
      l_hasRelocs s' = l_hasRelocs s || ((tag =? DT_REL) || (tag =? DT_RELSZ)) /\
      (if tag =? DT_MX_RAMSIZE then image_ok s' val /\ exists ptr, ProcessPool.allocate val (pool s) = Done (inl ptr, pool s') /\ image (l_image s') = Some ptr
       else l_image s' = l_image s /\ pool s' = pool s)
  | Done (inr (x, s')) => ProcessPool.inv (pool s') /\ tag = DT_MX_RAMSIZE /\ ProcessPool.allocate val (pool s) = Done (inr x, pool s')
  | Fault f => tag = DT_MX_RAMSIZE /\ ProcessPool.allocate val (pool s) = Fault f
  end.
Proof.
  intros Hi Hv. destruct s as [d rel relsz has im p]. simpl in Hi. unfold load_entry.
  destruct (Z.eqb_spec tag DT_REL) as [->|H1]; [simpl; by rewrite orb_true_r|].
  destruct (Z.eqb_spec tag DT_RELSZ) as [->|H2]; [simpl; by rewrite orb_true_r|].
  destruct (Z.eqb_spec tag DT_MX_RAMSIZE) as [->|H3]; [|simpl; by rewrite orb_false_r].
  pose proof (ProcessPool.allocate_cases val p Hi Hv) as Hc. destruct (ProcessPool.allocate val p) as [[[ptr|x] p']|f] eqn:E; cbn [mbind outcome_bind]; [|split; [destruct x; naive_solver|done]|done].
  destruct Hc as (_ & (_ & _ & _ & _ & _ & _ & _ & Hbl) & Hi'). simpl. rewrite orb_false_r. split_and!; try done; [|by exists ptr].
  exists ptr. split; [done|]. simpl. rewrite Hbl. apply lookup_insert_eq.
Qed.

Lemma fold_load_spec l s init :
  ProcessPool.inv (pool s) -> Forall (fun r => 0 <= r.2 < 2 ^ 32) l -> (image_ok s init \/ tagged DT_MX_RAMSIZE l = true) ->
  match fold_load l s with
  | Done (inl s') =>
      ProcessPool.inv (pool s') /\ dataSegment s' = dataSegment s /\
      l_dtRel s' = final DT_REL l (l_dtRel s) /\ l_dtRelsz s' = final DT_RELSZ l (l_dtRelsz s) /\
      l_hasRelocs s' = l_hasRelocs s || (tagged DT_REL l || tagged DT_RELSZ l) /\ image_ok s' (final DT_MX_RAMSIZE l init) /\
      reserve (ram_requests l) (image (l_image s)) (pool s) = Done (inl (image (l_image s')), pool s')
  | Done (inr (x, s')) => ProcessPool.inv (pool s') /\ reserve (ram_requests l) (image (l_image s)) (pool s) = Done (inr x, pool s')
  | Fault f => reserve (ram_requests l) (image (l_image s)) (pool s) = Fault f
  end.
Proof.
  revert s init. induction l as [|[tag val] l IH]; intros s init Hi Hl Him; cbn [fold_load].
  { destruct Him as [Him|]; [|done]. simpl. by rewrite orb_false_r. }
  apply Forall_cons in Hl as [Hv Hl]. pose proof (load_entry_spec tag val s Hi Hv) as Hs.
  assert (Hreq : forall last, reserve (ram_requests ((tag, val) :: l)) last (pool s) =
    if tag =? DT_MX_RAMSIZE then '(r, pl) ← ProcessPool.allocate val (pool s); match r with inl ptr => reserve (ram_requests l) (Some ptr) pl | inr x => Done (inr x, pl) end
    else reserve (ram_requests l) last (pool s)).
  { intros last. unfold ram_requests. simpl. by destruct (tag =? DT_MX_RAMSIZE). }
  rewrite Hreq. clear Hreq.
  destruct (load_entry tag val s) as [[s1|[x s1]]|f]; cbn [mbind outcome_bind]; [|by destruct Hs as (? & -> & ->)|by destruct Hs as [-> ->]].
  destruct Hs as (Hi1 & Hd & Hrel & Hrelsz & Hhas & Hsz). rewrite !final_cons. cbn [fst snd].
  assert (Him1 : image_ok s1 (if tag =? DT_MX_RAMSIZE then val else init) \/ tagged DT_MX_RAMSIZE l = true).
  { simpl in Him. destruct (tag =? DT_MX_RAMSIZE); [by left; destruct Hsz|]. destruct Hsz as [E1 E2]. destruct Him as [(ptr & E3 & E4)|Him]; [left|by right].
    exists ptr. by rewrite E1, E2. }
  assert (Hnext : (if tag =? DT_MX_RAMSIZE then '(r, pl) ← ProcessPool.allocate val (pool s); match r with inl ptr => reserve (ram_requests l) (Some ptr) pl | inr x => Done (inr x, pl) end
    else reserve (ram_requests l) (image (l_image s)) (pool s)) = reserve (ram_requests l) (image (l_image s1)) (pool s1)).
  { destruct (tag =? DT_MX_RAMSIZE); [by destruct Hsz as (_ & ptr & -> & ->)|by destruct Hsz as [-> ->]]. }
  rewrite Hnext. pose proof (IH s1 _ Hi1 Hl Him1) as Hf. destruct (fold_load l s1) as [[s'|[x s']]|f]; [|done|done].
  destruct Hf as (? & Hd' & Hrel' & Hrelsz' & Hhas' & ? & ?). rewrite Hd', Hrel', Hrelsz', Hhas', Hd, Hrel, Hrelsz, Hhas. split_and!; try done. simpl.
  destruct (l_hasRelocs s), (tag =? DT_REL), (tag =? DT_RELSZ), (tagged DT_REL l); done.
Qed.

Fixpoint fold_load_segments (c : bytes) (l : list Elf32_Phdr) (s : load_state) : may_throw :=
  match l with
  | [] => Done (inl s)
  | ph :: l => r ← load_segment c ph s; match r with inl s => fold_load_segments c l s | inr x => Done (inr x) end
  end.

Lemma load_segments_in n c off s :
  0 <= off -> off + 32 * Z.of_nat n <= Z.of_nat (length c) -> load_segments n c off s = fold_load_segments c (phdrs n c off) s.
Proof.
  revert off s. induction n as [|n IH]; intros off s H0 Hl; cbn [load_segments phdrs fold_load_segments]; [done|].
  rewrite read_phdr_in by lia. cbn [mbind outcome_bind]. destruct (load_segment _ _ s) as [[s1|v]|x]; [|done|done].
  cbn [mbind outcome_bind]. unfold sizeof_Phdr. apply IH; lia.
Qed.

Lemma load_plain c l s l' : Forall plain l -> fold_load_segments c (l ++ l') s = fold_load_segments c l' s.
Proof.
  induction 1 as [|ph l [Hd Hy] _ IH]; [done|]. simpl. unfold load_segment. unfold is_data in Hd. unfold is_dynamic in Hy.
  destruct (p_type ph =? PT_LOAD); [simpl in Hd; by rewrite Hd|by rewrite Hy].
Qed.

Lemma load_layout p l d y s :
  well_formed p -> layout p l d y -> p_offset y + 8 * (p_memsz y / 8) <= size p -> 0 <= p_offset y -> 0 <= p_memsz y -> ProcessPool.inv (pool s) ->
  l_hasRelocs s = false -> l_dtRel s = 0 -> l_dtRelsz s = 0 ->
  let dyn := dyn_entries p y in
  match fold_load_segments (content p) l s with
  | Done (inl s') =>
      dataSegment s' = Some d /\ l_dtRel s' = final DT_REL dyn 0 /\ l_dtRelsz s' = final DT_RELSZ dyn 0 /\
      l_hasRelocs s' = tagged DT_REL dyn || tagged DT_RELSZ dyn /\ image_ok s' (final DT_MX_RAMSIZE dyn 0) /\ ProcessPool.inv (pool s') /\
      reserve (ram_requests dyn) (image (l_image s)) (pool s) = Done (inl (image (l_image s')), pool s')
  | Done (inr (x, s')) => ProcessPool.inv (pool s') /\ reserve (ram_requests dyn) (image (l_image s)) (pool s) = Done (inr x, pool s')
  | Fault f => reserve (ram_requests dyn) (image (l_image s)) (pool s) = Fault f
  end.
Proof.
  intros Hwf [pre d' mid y' post Hpre Hmid Hpost Hd Hnd Hy Hny Hdok Hyok] Hfit Ho Hm Hi Hh Hr Hz dyn.
  rewrite load_plain by done. cbn [fold_load_segments]. unfold load_segment at 1.
  unfold is_data in Hd. apply andb_prop in Hd as [-> ->]. cbn [mbind outcome_bind]. rewrite load_plain by done.
  cbn [fold_load_segments]. unfold load_segment at 1. unfold is_dynamic in Hy. rewrite Hy. apply Z.eqb_eq in Hy. rewrite Hy.
  change (PT_DYNAMIC =? PT_LOAD) with false. cbn iota. change (p_memsz y' / sizeof_Dyn) with (p_memsz y' / 8).
  pose proof Hwf as [Hlen Hb Hsz]. rewrite load_dynamic_in; [|done|rewrite Hlen; by apply pairs_fit]. fold (dyn_entries p y'). fold dyn.
  match goal with |- context [fold_load dyn ?s0] => pose proof (fold_load_spec dyn s0 0) as Hf end. simpl in Hf.
  assert (Htag : tagged DT_MX_RAMSIZE dyn = true).
  { pose proof (dyn_ram _ _ _ Hyok) as Hram. fold dyn in Hram. apply not_false_iff_true. intros Hno.
    assert (Hz0 : forall l init, tagged DT_MX_RAMSIZE l = false -> final DT_MX_RAMSIZE l init = init).
    { clear. intros l. induction l as [|[t v] l IH]; intros init Ht; [done|]. simpl in Ht. apply orb_false_iff in Ht as [Ht1 Ht2].
      rewrite final_cons. simpl. rewrite Ht1. by apply IH. }
    rewrite Hz0 in Hram by done. pose proof ProcessPool.blockSize_eq. lia. }
  assert (Hbd : Forall (fun r => 0 <= r.2 < 2 ^ 32) dyn) by (eapply Forall_impl; [by apply pairs_bound|by intros r [_ ?]]).
  specialize (Hf Hi Hbd (or_intror Htag)). destruct (fold_load dyn _) as [[s'|[x s']]|f]; cbn [mbind outcome_bind]; [|done|done].
  rewrite <- (app_nil_r post), load_plain by done. simpl. destruct Hf as (? & ? & E1 & E2 & E3 & ? & ?). rewrite E1, E2, E3, Hh, Hr, Hz. done.
Qed.

(** *** The data, then zeros, then what memory held *)
Definition slice (c : bytes) (off n : Z) : bytes := take (Z.to_nat n) (drop (Z.to_nat off) c).
Definition start (p : ElfProgram) (d : Elf32_Phdr) (raw : bytes) : bytes :=
  slice (content p) (p_offset d) (p_filesz d) ++ replicate (Z.to_nat (p_memsz d - p_filesz d)) 0 ++ drop (Z.to_nat (p_memsz d)) raw.

Lemma copied p d raw :
  well_formed p -> unsigned_phdr d -> data_ok p d -> p_memsz d <= Z.of_nat (length raw) ->
  exists im, memcpy raw 0 (content p) (p_offset d) (p_filesz d) = Done im /\
    memset im (p_filesz d) 0 (u32 (p_memsz d - p_filesz d)) = Done (start p d raw) /\ length (start p d raw) = length raw.
Proof.
  intros [Hlen Hb Hsz] (Uo & Uf & Um) [Hfit Hmem] Hraw. unfold memcpy.
  rewrite (proj2 (Z.leb_le _ _)), (proj2 (Z.leb_le _ _)) by lia. cbn [andb].
  fold (slice (content p) (p_offset d) (p_filesz d)). set (data := slice (content p) (p_offset d) (p_filesz d)).
  assert (Hdata : Z.of_nat (length data) = p_filesz d) by (unfold data, slice; rewrite length_take, length_drop; lia).
  rewrite set_bytes_in by lia. cbn [take app]. eexists. split; [reflexivity|]. unfold memset. rewrite wrapU_small by lia.
  rewrite set_bytes_in; [|lia|rewrite length_replicate, !length_app, length_take, length_drop; lia].
  rewrite length_replicate. change (take (Z.to_nat 0) raw) with (@nil Z). cbn [app]. unfold start. fold data. split.
  - do 2 f_equal; [rewrite take_app_le by lia; apply firstn_all2; lia|]. f_equal.
    rewrite drop_app_ge by lia. rewrite drop_drop. f_equal. lia.
  - rewrite !length_app, length_replicate, length_drop. lia.
Qed.

(** *** Relocations *)
Definition fix_word (base ptr w : Z) : Z := u32 (if DATA_BASE <=? w then w + ptr - DATA_BASE else w + base).
Definition times (offset : Z) (rels : list (Z * Z)) : nat :=
  length (filter (fun r => r.1 = offset /\ ELF32_R_TYPE r.2 = R_ARM_RELATIVE) rels).

Lemma check_relocation_bounds o i D :
  0 <= D <= MAX_PROCESS_IMAGE_SIZE -> 0 <= o < 2 ^ 32 -> check_relocation o i D = None -> ELF32_R_TYPE i = R_ARM_RELATIVE ->
  exists k, o = DATA_BASE + 4 * k /\ 0 <= k /\ 4 * k + 4 <= D.
Proof.
  intros HD Ho Hc Ht. unfold check_relocation in Hc. rewrite Ht in Hc. change (R_ARM_RELATIVE =? R_ARM_NONE) with false in Hc.
  rewrite Z.eqb_refl in Hc. cbn iota in Hc. unfold MAX_PROCESS_IMAGE_SIZE in HD.
  rewrite wrapU_small in Hc by (unfold DATA_BASE; lia).
  destruct (Z.ltb_spec o DATA_BASE); [done|]. destruct (Z.ltb_spec (DATA_BASE + D - 4) o); [done|].
  destruct (Z.eqb_spec (Z.land o 3) 0) as [E|]; [|done]. apply land3 in E.
  exists ((o - DATA_BASE) / 4). pose proof (Z.div_mod (o - DATA_BASE) 4). assert ((o - DATA_BASE) mod 4 = 0) as Hm.
  { rewrite Zminus_mod, E. reflexivity. }
  lia.
Qed.

Lemma relocate_spec base ptr o i D im :
  0 <= D <= MAX_PROCESS_IMAGE_SIZE -> D <= Z.of_nat (length im) -> 0 <= o < 2 ^ 32 -> check_relocation o i D = None ->
  exists im', relocate base ptr o i im = Done im' /\ length im' = length im /\
    forall j, 0 <= j -> 4 * j + 4 <= Z.of_nat (length im) ->
      rd 4 im' (4 * j) = if decide (o = DATA_BASE + 4 * j /\ ELF32_R_TYPE i = R_ARM_RELATIVE) then fix_word base ptr (rd 4 im (4 * j)) else rd 4 im (4 * j).
Proof.
  intros HD Hlen Ho Hc. unfold relocate. destruct (Z.eqb_spec (ELF32_R_TYPE i) R_ARM_RELATIVE) as [Ht|Ht].
  - destruct (check_relocation_bounds o i D HD Ho Hc Ht) as (k & -> & Hk & Hkl).
    assert (u32 (DATA_BASE + 4 * k - DATA_BASE) / 4 = k) as ->.
    { unfold MAX_PROCESS_IMAGE_SIZE in HD. rewrite wrapU_small by lia. replace (DATA_BASE + 4 * k - DATA_BASE) with (k * 4) by lia. by apply Z.div_mul. }
    rewrite get_in by lia. cbn [mbind outcome_bind]. fold (fix_word base ptr (rd 4 im (4 * k))).
    rewrite set_bytes_in by (rewrite ?length_unword; lia). rewrite length_unword. eexists. split; [reflexivity|]. split.
    + rewrite !length_app, length_unword, length_take, length_drop. lia.
    + intros j Hj Hjl. rewrite rd_set_word by (try lia; by apply (wrapU_bound 32)). destruct (decide (j = k)) as [->|Hne].
      * by rewrite decide_True.
      * rewrite decide_False; [done|]. intros [? _]. lia.
  - exists im. split; [done|]. split; [done|]. intros j _ _. rewrite decide_False; [done|]. by intros [_ ?].
Qed.

Lemma relocations_spec n c off base ptr D im :
  byte_list c -> 0 <= off -> off + 8 * Z.of_nat n <= Z.of_nat (length c) -> 0 <= D <= MAX_PROCESS_IMAGE_SIZE -> D <= Z.of_nat (length im) ->
  Forall (fun r => check_relocation r.1 r.2 D = None) (pairs n c off) ->
  exists im', relocations n c off base ptr im = Done im' /\ length im' = length im /\
    forall j, 0 <= j -> 4 * j + 4 <= Z.of_nat (length im) ->
      rd 4 im' (4 * j) = Nat.iter (times (DATA_BASE + 4 * j) (pairs n c off)) (fix_word base ptr) (rd 4 im (4 * j)).
Proof.
  intros Hb. revert off im. induction n as [|n IH]; intros off im H0 Hl HD Hlen Hc; cbn [relocations pairs]; [by exists im|].
  cbn [pairs] in Hc. apply Forall_cons in Hc as [Hc Hcs]. simpl in Hc. rewrite !get_in by lia. cbn [mbind outcome_bind].
  destruct (relocate_spec base ptr _ _ D im HD Hlen (rd32_bound _ _ Hb) Hc) as (im1 & -> & Hl1 & Hw1). cbn [mbind outcome_bind].
  unfold sizeof_Rel. destruct (IH (off + 8) im1) as (im2 & Hr & Hl2 & Hw2); [lia|lia|done|by rewrite Hl1|done|].
  exists im2. split; [done|]. split; [congruence|]. intros j Hj Hjl. rewrite Hw2 by (rewrite ?Hl1; done). rewrite Hw1 by done.
  unfold times. rewrite filter_cons. simpl. destruct (decide _); [|done]. simpl length. by rewrite Nat.iter_succ_r.
Qed.

(** The relocations of a program. *)
Definition program_relocations (p : ElfProgram) (dyn : list (Z * Z)) : list (Z * Z) :=
  if tagged DT_REL dyn || tagged DT_RELSZ dyn then pairs (Z.to_nat (final DT_RELSZ dyn 0 / 8)) (content p) (final DT_REL dyn 0) else [].

(** A process image made from data segment [d] and dynamic segment [y]. *)
Definition loaded (p : ElfProgram) (d y : Elf32_Phdr) (im : ProcessImage) (pl : ProcessPool.ProcessPool) : Prop :=
  let dyn := dyn_entries p y in
  let sz := final DT_MX_RAMSIZE dyn 0 in
  exists ptr,
    image im = Some ptr /\ image_size im = sz /\ ProcessPool.allocatedBlocks pl !! ptr = Some sz /\
    Z.of_nat (length (image_bytes im)) = sz /\ p_memsz d + MIN_PROCESS_STACK_SIZE <= sz <= MAX_PROCESS_IMAGE_SIZE /\
    forall j, 0 <= j -> 4 * j + 4 <= sz ->
      rd 4 (image_bytes im) (4 * j) =
      Nat.iter (times (DATA_BASE + 4 * j) (program_relocations p dyn)) (fix_word (elf p) ptr) (rd 4 (start p d (map ram (seqZ ptr sz))) (4 * j)).

Lemma load_data_spec p d y s :
  well_formed p -> unsigned_phdr d -> data_ok p d -> dyn_ok p (p_memsz d) (dyn_entries p y) ->
  dataSegment s = Some d -> l_dtRel s = final DT_REL (dyn_entries p y) 0 -> l_dtRelsz s = final DT_RELSZ (dyn_entries p y) 0 ->
  l_hasRelocs s = tagged DT_REL (dyn_entries p y) || tagged DT_RELSZ (dyn_entries p y) -> image_ok s (final DT_MX_RAMSIZE (dyn_entries p y) 0) ->
  exists im, load_data p s = Done im /\ loaded p d y im (pool s) /\ image im = image (l_image s).
Proof.
  intros Hwf Hu Hd Hdyn Hds Hrel Hrelsz Hhas (ptr & Him & Hbl). pose proof Hwf as [Hlen Hb Hsz]. unfold load_data, loaded.
  rewrite Hds, Him, Hhas, Hrel, Hrelsz. cbn [mbind outcome_bind deref image image_bytes image_size]. rewrite Hbl. cbn [mbind outcome_bind deref]. set (dyn := dyn_entries p y) in *.
  set (sz := final DT_MX_RAMSIZE dyn 0) in *. destruct Hdyn as [Hram Hwords Hroom Hrels]. fold dyn sz in Hram, Hroom, Hrels.
  pose proof ProcessPool.blockSize_eq. pose proof Hu as (_ & _ & ?). unfold MIN_PROCESS_STACK_SIZE in *.
  assert (Hraw : Z.of_nat (length (map ram (seqZ ptr sz))) = sz) by (rewrite length_map, length_seqZ; lia).
  destruct (copied p d (map ram (seqZ ptr sz)) Hwf Hu Hd ltac:(lia)) as (im0 & -> & Hset & Hlst). cbn [mbind outcome_bind].
  rewrite Hset. cbn [mbind outcome_bind]. unfold program_relocations.
  destruct (tagged DT_REL dyn || tagged DT_RELSZ dyn).
  - destruct (Hrels eq_refl) as [Hfit Hchk]. change (final DT_RELSZ dyn 0 / sizeof_Rel) with (final DT_RELSZ dyn 0 / 8).
    assert (Hbd : Forall (fun r => 0 <= r.2 < 2 ^ 32) dyn) by (eapply Forall_impl; [by apply pairs_bound|by intros r [_ ?]]).
    pose proof (final_bound DT_REL dyn 0 Hbd ltac:(lia)). pose proof (final_bound DT_RELSZ dyn 0 Hbd ltac:(lia)).
    destruct (relocations_spec (Z.to_nat (final DT_RELSZ dyn 0 / 8)) (content p) (final DT_REL dyn 0) (elf p) ptr (p_memsz d) (start p d (map ram (seqZ ptr sz))))
      as (im & Hr & Hl & Hw); [done|lia|rewrite Hlen; apply pairs_fit; [lia|apply pairs_room; lia]|lia|rewrite Hlst; lia|done|].
    rewrite Hr. cbn [mbind outcome_bind]. eexists. split; [reflexivity|]. split; [|done]. exists ptr. simpl. rewrite Hl, Hlst, Hraw. split_and!; try done; try lia.
    intros j Hj Hjl. apply Hw; [done|]. by rewrite Hlst, Hraw.
  - cbn [mbind outcome_bind]. eexists. split; [reflexivity|]. split; [|done]. exists ptr. simpl. rewrite Hlst, Hraw. split_and!; try done; lia.
Qed.

(** The work after the old image is gone. *)
Definition load_fresh (p : ElfProgram) (im : ProcessImage) (pl : ProcessPool.ProcessPool) : exec (option ProcessPool.exn * ProcessImage * ProcessPool.ProcessPool) :=
  e ← read_ehdr (content p);
  r ← load_segments (Z.to_nat (e_phnum e)) (content p) (e_phoff e) (mkLoad None 0 0 false im pl);
  match r with
  | inr (x, s) => Done (Some x, l_image s, pool s)
  | inl s => im ← load_data p s; Done (None, im, pool s)
  end.

(** What loading an accepted program does, when [res] is the work of the
    pool. *)
Definition load_post (p : ElfProgram) (d y : Elf32_Phdr) (res : exec ((option Z + ProcessPool.exn) * ProcessPool.ProcessPool))
    (r : exec (option ProcessPool.exn * ProcessImage * ProcessPool.ProcessPool)) : Prop :=
  match r with
  | Done (None, im', pl') => res = Done (inl (image im'), pl') /\ loaded p d y im' pl' /\ ProcessPool.inv pl'
  | Done (Some x, _, pl') => res = Done (inr x, pl') /\ ProcessPool.inv pl'
  | Fault f => res = Fault f
  end.

Lemma load_from_layout p im pl d y :
  well_formed p -> 52 <= size p -> (let e := ehdr_of (content p) in 0 <= e_phoff e /\ e_phoff e + 32 * Z.of_nat (Z.to_nat (e_phnum e)) <= size p) ->
  layout p (segments p) d y -> unsigned_phdr d -> unsigned_phdr y -> p_offset y + 8 * (p_memsz y / 8) <= size p -> ProcessPool.inv pl ->
  load_post p d y (reserve (ram_requests (dyn_entries p y)) (image im) pl) (load_fresh p im pl).
Proof.
  intros Hwf H52 [H0 Hl] Hlay Hd (Uo & _ & Um) Hy Hi. pose proof Hwf as [Hlen Hb Hsz]. unfold load_fresh.
  rewrite read_ehdr_in by lia. cbn [mbind outcome_bind]. rewrite load_segments_in by lia. fold (segments p).
  pose proof (load_layout p _ d y (mkLoad None 0 0 false im pl) Hwf Hlay Hy ltac:(lia) ltac:(lia) Hi eq_refl eq_refl eq_refl) as Hs. cbn [pool l_image] in Hs.
  assert (Hok : data_ok p d /\ dyn_ok p (p_memsz d) (dyn_entries p y)) by (by destruct Hlay).
  destruct (fold_load_segments _ _ _) as [[s|[x s]]|f]; cbn [mbind outcome_bind]; [|by destruct Hs|done].
  destruct Hs as (E1 & E2 & E3 & E4 & E5 & Hi' & Hres).
  destruct (load_data_spec p d y s Hwf Hd (proj1 Hok) (proj2 Hok) E1 E2 E3 E4 E5) as (im' & -> & Him & E). cbn [mbind outcome_bind].
  unfold load_post. by rewrite E.
Qed.

(** Without a dynamic segment nothing gives the image a block. *)
Lemma load_no_dynamic c l s : ~ has_dynamic l -> exists d, fold_load_segments c l s = Done (inl (mkLoad d (l_dtRel s) (l_dtRelsz s) (l_hasRelocs s) (l_image s) (pool s))).
Proof.
  revert s. induction l as [|ph l IH]; intros s Hn; cbn [fold_load_segments].
  { exists (dataSegment s). by destruct s. }
  assert (Hl : ~ has_dynamic l) by (intros (y & Hin & Hy); apply Hn; exists y; split; [by apply elem_of_cons; right|done]).
  assert (Hph : (p_type ph =? PT_DYNAMIC) = false) by (apply not_true_is_false; intros Hy; apply Hn; exists ph; split; [by apply elem_of_cons; left|done]).
  unfold load_segment. rewrite Hph. destruct (p_type ph =? PT_LOAD); cbn [mbind outcome_bind]; [|by apply IH].
  destruct (writable ph); [|by apply IH]. destruct (IH (mkLoad (Some ph) (l_dtRel s) (l_dtRelsz s) (l_hasRelocs s) (l_image s) (pool s)) Hl) as [d ->].
  by exists d.
Qed.

Lemma load_fresh_null p im pl :
  well_formed p -> validateHeader p = Done (returns true) -> ~ has_dynamic (segments p) ->
  (forall ptr, image im = Some ptr -> ProcessPool.allocatedBlocks pl !! ptr = None) -> load_fresh p im pl = Fault Undefined.
Proof.
  intros Hwf Hv Hn Him. destruct (accepted_header p Hwf Hv) as (H52 & Hh & _). pose proof (check_header_spec p Hwf H52) as Hs. rewrite Hh in Hs. cbv zeta in Hs.
  destruct Hs as [H0 Hl]. pose proof Hwf as [Hlen _ _]. unfold load_fresh. rewrite read_ehdr_in by lia. cbn [mbind outcome_bind]. rewrite load_segments_in by lia. fold (segments p).
  destruct (load_no_dynamic (content p) (segments p) (mkLoad None 0 0 false im pl) Hn) as [d ->]. cbn [mbind outcome_bind]. unfold load_data. simpl.
  destruct d; [|done]. simpl. destruct (image im) as [ptr|]; [|done]. simpl. by rewrite Him.
Qed.

(** What the checks of the constructor give the loader. *)
Lemma accepted_loads_fresh p :
  well_formed p -> validateHeader p = Done (returns true) -> has_dynamic (segments p) ->
  exists d y, layout p (segments p) d y /\ forall im pl, ProcessPool.inv pl ->
    load_post p d y (reserve (ram_requests (dyn_entries p y)) (image im) pl) (load_fresh p im pl).
Proof.
  intros Hwf Hv Hhas. destruct (accepted_header p Hwf Hv) as (_ & _ & Hfits).
  destruct (validateHeader_spec p Hwf (fun _ => Hfits)) as (v & Hv' & Hacc). rewrite Hv in Hv'. injection Hv' as <-.
  destruct (Hacc eq_refl) as (H52 & [H0 Hl] & Hlay). destruct (Hlay Hhas) as (d & y & Hlayout). exists d, y. split; [done|]. intros im pl Hi.
  pose proof Hwf as [Hlen Hb Hsz]. pose proof (phdrs_unsigned (Z.to_nat (e_phnum (ehdr_of (content p)))) _ (e_phoff (ehdr_of (content p))) Hb) as Hu.
  fold (segments p) in Hu. rewrite Forall_forall in Hu. rewrite Forall_forall in Hfits.
  assert (Hin : d ∈ segments p /\ y ∈ segments p /\ is_dynamic y = true) by (destruct Hlayout; split_and!; try done; set_solver).
  destruct Hin as (Hd & Hy & Hyy). apply (load_from_layout p im pl d y); auto. by apply Hfits.
Qed.

(** When the checks of the constructor do not end, it is for a dynamic
    segment that is not in the file. *)
Lemma validateHeader_fault p f :
  well_formed p -> validateHeader p = Fault f -> check_header p (ehdr_of (content p)) = None /\ ~ Forall (dynamic_fits p) (segments p).
Proof.
  intros Hwf Hv. destruct (check_header p (ehdr_of (content p))) as [v0|] eqn:E.
  - destruct (validateHeader_spec p Hwf) as (v & Hv' & _); [by rewrite E|congruence].
  - split; [done|]. intros Hfit. destruct (validateHeader_spec p Hwf (fun _ => Hfit)) as (v & Hv' & _). congruence.
Qed.

(** C9: the checks of the constructor are enough to load the program.  Let the
    file be any bytes.  The checks read nothing outside it, unless its header
    is accepted and the entries of a dynamic segment are not in the file.
    If they accept the file, and it has a dynamic segment, [load] reads only
    the file and writes only the block it allocates: it does exactly what the
    pool does when the old block is given back and the sizes named by the
    dynamic segment are allocated in order, exceptions and faults included, and when the pool
    succeeds the last block has the size the program asks for, with room for data and stack, and holds the data
    of the file, zeros after it, and every relocated word moved by the
    address of the code or of the data it points to.  If the file has no dynamic segment,
    [load] writes through a pointer to no block, after the old one is given back. *)
Theorem accepted_program_loads p im pl :
  well_formed p -> ProcessPool.inv pl ->
  match validateHeader p with
  | Fault _ => check_header p (ehdr_of (content p)) = None /\ ~ Forall (dynamic_fits p) (segments p)
  | Done (returns true) =>
      (has_dynamic (segments p) ->
       exists d y, layout p (segments p) d y /\ load_post p d y (reserved (ram_requests (dyn_entries p y)) im pl) (load p im pl)) /\
      (~ has_dynamic (segments p) ->
       load p im pl = match ProcessImage_drop im pl with Done (inr x, pl') => Done (Some x, im, pl') | _ => Fault Undefined end)
  | Done _ => True
  end.
Proof.
  intros Hwf Hi. destruct (validateHeader p) as [[[]|]|f] eqn:Hv; [|done|done|by apply (validateHeader_fault p f)].
  unfold reserved, load, ProcessImage_drop. split.
  - intros Hhas. destruct (accepted_loads_fresh p Hwf Hv Hhas) as (d & y & Hlayout & Hload). exists d, y. split; [done|].
    destruct (image im) as [old|] eqn:Him; [|specialize (Hload im pl Hi); by rewrite Him in Hload].
    destruct (ProcessPool.allocatedBlocks pl !! old) as [osz|] eqn:Eo; [|unfold ProcessPool.deallocate; by rewrite Eo].
    destruct (ProcessPool.deallocate_inv old osz pl Hi Eo) as (pl1 & -> & Hi1 & _). specialize (Hload im pl1 Hi1). by rewrite Him in Hload.
  - intros Hn. destruct (image im) as [old|] eqn:Him; [|apply (load_fresh_null p im pl Hwf Hv Hn); by rewrite Him].
    destruct (ProcessPool.allocatedBlocks pl !! old) as [osz|] eqn:Eo; [|unfold ProcessPool.deallocate; by rewrite Eo].
    destruct (ProcessPool.deallocate_inv old osz pl Hi Eo) as (pl1 & -> & _ & _ & _ & Hbl). apply (load_fresh_null p im pl1 Hwf Hv Hn).
    intros ptr. rewrite Him. intros [= <-]. rewrite Hbl. apply lookup_delete_eq.
Qed.

(** *** The image of an object is a block, also after an exception *)
Definition image_block (im : ProcessImage) (pl : ProcessPool.ProcessPool) : Prop :=
  ProcessPool.inv pl /\ forall ptr, image im = Some ptr -> exists sz, ProcessPool.allocatedBlocks pl !! ptr = Some sz.
Definition state_block (s : load_state) : Prop := image_block (l_image s) (pool s).
Definition throws_block (r : may_throw) : Prop := forall r', r = Done r' -> match r' with inl s | inr (_, s) => state_block s end.

Lemma load_entry_block tag val s : 0 <= val < 2 ^ 32 -> state_block s -> throws_block (load_entry tag val s).
Proof.
  intros Hv [Hi Hs] r' Hr. destruct s as [d rel relsz has im p]. simpl in *. unfold load_entry in Hr.
  destruct (tag =? DT_REL); [by injection Hr as <-|]. destruct (tag =? DT_RELSZ); [by injection Hr as <-|].
  destruct (tag =? DT_MX_RAMSIZE); [|by injection Hr as <-].
  pose proof (ProcessPool.allocate_cases val p Hi Hv) as Hc. destruct (ProcessPool.allocate val p) as [[[ptr|x] p']|f]; cbn [mbind outcome_bind] in Hr; [..|done].
  - destruct Hc as (_ & (_ & _ & _ & _ & _ & _ & _ & Hbl) & Hi'). injection Hr as <-. split; [done|]. intros q [= <-]. simpl. rewrite Hbl. exists val. apply lookup_insert_eq.
  - injection Hr as <-. assert (p' = p) as -> by (destruct x; tauto). by split.
Qed.

Lemma load_dynamic_block n c off s : byte_list c -> state_block s -> throws_block (load_dynamic n c off s).
Proof.
  intros Hb. revert off s. induction n as [|n IH]; intros off s Hs r' Hr; cbn [load_dynamic] in Hr; [by injection Hr as <-|].
  destruct (get32 c off) as [tag|] eqn:Et; [|done]. destruct (get32 c (off + 4)) as [val|] eqn:Ev; [|done]. cbn [mbind outcome_bind] in Hr.
  destruct (get_Done _ _ _ _ Ev) as (_ & _ & E). assert (Hval : 0 <= val < 2 ^ 32) by (subst val; by apply rd32_bound).
  pose proof (load_entry_block tag val s Hval Hs) as He. destruct (load_entry tag val s) as [[s1|[x s1]]|]; cbn [mbind outcome_bind] in Hr; [..|done].
  - eapply IH; [|exact Hr]. by apply (He _ eq_refl).
  - injection Hr as <-. by apply (He _ eq_refl).
Qed.

Lemma load_segments_block n c off s : byte_list c -> state_block s -> throws_block (load_segments n c off s).
Proof.
  intros Hb. revert off s. induction n as [|n IH]; intros off s Hs r' Hr; cbn [load_segments] in Hr; [by injection Hr as <-|].
  destruct (read_phdr c off) as [ph|]; [|done]. cbn [mbind outcome_bind] in Hr.
  assert (Hseg : throws_block (load_segment c ph s)).
  { unfold load_segment. destruct (p_type ph =? PT_LOAD); [by intros r1 [= <-]; destruct (writable ph)|].
    destruct (p_type ph =? PT_DYNAMIC); [by apply load_dynamic_block|by intros r1 [= <-]]. }
  destruct (load_segment c ph s) as [[s1|[x s1]]|]; cbn [mbind outcome_bind] in Hr; [..|done].
  - eapply IH; [|exact Hr]. by apply (Hseg _ eq_refl).
  - injection Hr as <-. by apply (Hseg _ eq_refl).
Qed.

Lemma load_fresh_block p im pl x im' pl' : byte_list (content p) -> image_block im pl -> load_fresh p im pl = Done (Some x, im', pl') -> image_block im' pl'.
Proof.
  intros Hb Him Hl. unfold load_fresh in Hl. destruct (read_ehdr _) as [e|]; [|done]. cbn [mbind outcome_bind] in Hl.
  pose proof (load_segments_block (Z.to_nat (e_phnum e)) (content p) (e_phoff e) (mkLoad None 0 0 false im pl) Hb Him) as Hs.
  destruct (load_segments _ _ _ _) as [[s|[y s]]|]; cbn [mbind outcome_bind] in Hl; [by destruct (load_data p s)| |done].
  injection Hl as <- <- <-. by apply (Hs _ eq_refl).
Qed.

(** The destructor gives the block back. *)
Lemma drop_block im pl : image_block im pl -> exists pl', ProcessImage_drop im pl = Done (inl (), pl') /\ ProcessPool.inv pl'.
Proof.
  intros [Hi Him]. unfold ProcessImage_drop. destruct (image im) as [ptr|]; [|by exists pl].
  destruct (Him ptr eq_refl) as [sz Hsz]. destruct (ProcessPool.deallocate_inv ptr sz pl Hi Hsz) as (pl' & -> & Hi' & _). by exists pl'.
Qed.

End load.
(** ** Examples

    A program of 4 bytes of code and 8 of data, the last word of the data
    being the address of the first. *)
Definition ex_words (l : list Z) : bytes := mjoin (unword 4 <$> l).
Definition ex_header (phnum : Z) : bytes :=
  magic ++ unword 2 ET_EXEC ++ unword 2 EM_ARM ++ ex_words [EV_CURRENT; 148; 52; 0; EF_ARM_EABI_VER5] ++
  mjoin (unword 2 <$> [52; 32; phnum; 0; 0; 0]).
Definition ex_phdr (type off filesz memsz flags : Z) : bytes := ex_words [type; off; 0; 0; filesz; memsz; flags; 4].
Definition ex_code : bytes := ex_phdr PT_LOAD 148 4 4 (PF_R + PF_X).
Definition ex_data (memsz : Z) : bytes := ex_phdr PT_LOAD 152 (Z.min memsz 8) memsz (PF_R + PF_W).
Definition ex_dynamic (memsz : Z) : bytes := ex_phdr PT_DYNAMIC 160 48 memsz PF_R.
Definition ex_tables (ramsize r_offset : Z) : bytes :=
  ex_words [0xe320f000; 7; DATA_BASE; DT_REL; 208; DT_RELSZ; 8; DT_RELENT; 8; DT_MX_ABI; DV_MX_ABI_V1; DT_MX_RAMSIZE; ramsize; DT_MX_STACKSIZE; 512; r_offset; R_ARM_RELATIVE].
Definition ex_file (phdrs tables : bytes) : ElfProgram :=
  let c := ex_header 3 ++ phdrs ++ tables in mkElf 0x08000000 (Z.of_nat (length c)) c false.
Definition ex_elf : ElfProgram := ex_file (ex_code ++ ex_data 12 ++ ex_dynamic 48) (ex_tables 2048 (DATA_BASE + 4)).

Definition ex_load (p : ElfProgram) : exec (option ProcessPool.exn * ProcessImage * ProcessPool.ProcessPool) :=
  load (fun _ => 0x55) p ProcessImage_new (ProcessPool.new_ProcessPool 0x20008000 98304).

Example ex_accepted : ElfProgram_new ex_elf = Done None.
Proof. vm_compute. reflexivity. Qed.
(** The word moved points to the first one of the block. *)
Example ex_loaded :
  match ex_load ex_elf with
  | Done (x, im, _) => x = None /\ image im = Some 0x20008000 /\ image_size im = 2048 /\ take 5 (image_bytes im) = [7; 0; 0; 0; 0] /\
      rd 4 (image_bytes im) 4 = 0x20008000 /\ rd 4 (image_bytes im) 8 = 0 /\ rd 4 (image_bytes im) 12 = 0x55555555
  | Fault _ => False
  end.
Proof. vm_compute. split_and!; reflexivity. Qed.

(** A size which is no power of two is accepted, and loading throws. *)
Definition ex_odd : ElfProgram := ex_file (ex_code ++ ex_data 12 ++ ex_dynamic 48) (ex_tables 3072 (DATA_BASE + 4)).
Example ex_ram_size :
  ElfProgram_new ex_odd = Done None /\ match ex_load ex_odd with Done (x, _, _) => x = Some ProcessPool.runtime_error | Fault _ => False end.
Proof. vm_compute. split; reflexivity. Qed.

(** After that exception an object which had an image still points to it,
    though it was freed: its destructor throws. *)
Example ex_dangling :
  match ex_load ex_elf with
  | Done (_, im, pl) =>
      match load (fun _ => 0) ex_odd im pl with
      | Done (x, im, pl) => x = Some ProcessPool.runtime_error /\ image im = Some 0x20008000 /\ ProcessPool.allocatedBlocks pl = ∅ /\
          ProcessImage_drop im pl = Done (inr ProcessPool.runtime_error, pl)
      | Fault _ => False
      end
  | Fault _ => False
  end.
Proof. vm_compute. split_and!; reflexivity. Qed.

(** The size in memory of the dynamic segment is not checked: the check of
    its entries leaves the file. *)
Example ex_dynamic_past_end : ElfProgram_new (ex_file (ex_code ++ ex_data 12 ++ ex_dynamic 480) (ex_tables 2048 DATA_BASE)) = Fault Undefined.
Proof. vm_compute. reflexivity. Qed.

(** Without a dynamic segment a file is accepted, and loading it writes
    through a null pointer; so does one without data. *)
Definition ex_no_dynamic : ElfProgram := ex_file (ex_code ++ ex_data 12 ++ ex_phdr 0 0 0 0 0) (ex_tables 2048 DATA_BASE).
Definition ex_no_data : ElfProgram := ex_file (ex_code ++ ex_phdr 0 0 0 0 0 ++ ex_phdr 0 0 0 0 0) (ex_tables 2048 DATA_BASE).
Example ex_null :
  ElfProgram_new ex_no_dynamic = Done None /\ ex_load ex_no_dynamic = Fault Undefined /\
  ElfProgram_new ex_no_data = Done None /\ ex_load ex_no_data = Fault Undefined.
Proof. vm_compute. split_and!; reflexivity. Qed.

(** The entry point may be just after the code. *)
Definition ex_entry (e_entry : Z) : ElfProgram :=
  let c := ex_header 3 ++ ex_code ++ ex_data 12 ++ ex_dynamic 48 ++ ex_tables 2048 DATA_BASE in
  mkElf 0x08000000 216 (take 24 c ++ unword 4 e_entry ++ drop 28 c) false.
Example ex_entry_past_code : ElfProgram_new (ex_entry 152) = Done None /\ ElfProgram_new (ex_entry 153) = Done (Some "Bad file").
Proof. vm_compute. split; reflexivity. Qed.

Instance well_formed_dec (p : ElfProgram) : Decision (well_formed p).
Proof.
  refine (cast_if (decide (Z.of_nat (length (content p)) = size p /\ byte_list (content p) /\ size p < 2 ^ 31))).
  - destruct a as (? & ? & ?). by constructor.
  - intros [? ? ?]. by apply n.
Defined.

(** The example, which is accepted. *)
Lemma accepted_program_loads_witness :
  well_formed ex_elf /\ validateHeader ex_elf = Done (returns true) /\
  exists d y, layout ex_elf (segments ex_elf) d y /\
    match ex_load ex_elf with Done (None, im, pl) => loaded (fun _ => 0x55) ex_elf d y im pl | _ => False end.
Proof.
  assert (Hwf : well_formed ex_elf) by (apply (bool_decide_unpack _); vm_compute; exact I).
  assert (Hv : validateHeader ex_elf = Done (returns true)) by (vm_compute; reflexivity).
  split; [exact Hwf|]. split; [exact Hv|].
  assert (Hpool : ProcessPool.inv (ProcessPool.new_ProcessPool 0x20008000 98304)) by (apply ProcessPool.new_inv; vm_compute; congruence).
  pose proof (accepted_program_loads (fun _ => 0x55) ex_elf ProcessImage_new (ProcessPool.new_ProcessPool 0x20008000 98304) Hwf Hpool) as H.
  rewrite Hv in H. destruct (proj1 H) as (d & y & Hlay & Hload).
  - exists (nth 2 (segments ex_elf) (mkPhdr 0 0 0 0 0 0)). split; [|vm_compute; reflexivity]. apply list_elem_of_In. vm_compute. auto.
  - exists d, y. split; [exact Hlay|]. fold (ex_load ex_elf) in Hload.
    pose proof ex_loaded as Hex. destruct (ex_load ex_elf) as [[[[x|] im] pl]|f]; [by destruct Hex|exact (proj1 (proj2 Hload))|destruct Hex].
Defined.

End ElfLoader.
