(* ===== verification/Processes.v ===== *)
(** * Processes

    [kernel/process.h] and [.cpp]: the tree of processes, [create],
    [getppid], [waitpid] and the end of [start].  [Process] objects are in a
    store by address, since lists and the map of pids point to them.  What a thread
    does under [procMutex] is one operation; a thread that waits on a
    condition variable keeps its place, and goes on by an operation of its own
    once the variable has let it go.  A condition variable is the list of the
    threads that it holds. *)
From stdpp Require Import gmap sets.
From S2P Require Import Prelude Errors.

Local Open Scope Z_scope.

Module Processes.

(** [ProcessBase] and [Process]; the kernel is a [ProcessBase], its
    [Process] fields are not used. *)
Record Process := mkProcess {
  pid : Z; ppid : Z; childs : list positive; zombies : list positive;
  waitCount : Z; waiting : list positive; zombie : bool; exitCode : Z }.

(** Between two operations a thread runs, or is between the registration of
    a process and the creation of its thread, or is in [waitpid]. *)
Inductive place := Running | Creating (process : positive) | WaitAny | WaitFor (joined : positive).
Record thread := mkThread { proc : positive; at_ : place }.

#[export] Instance place_eq_dec : EqDecision place.
Proof. solve_decision. Defined.

(** [Processes], the objects, and the threads. *)
Record system := mkSystem {
  pidCounter : Z; processes : gmap Z positive; genericWaiting : list positive;
  objects : gmap positive Process; threads : gmap positive thread }.

Definition set_pidCounter (c : Z) (s : system) : system := mkSystem c (processes s) (genericWaiting s) (objects s) (threads s).
Definition set_processes (m : gmap Z positive) (s : system) : system := mkSystem (pidCounter s) m (genericWaiting s) (objects s) (threads s).
Definition set_generic (l : list positive) (s : system) : system := mkSystem (pidCounter s) (processes s) l (objects s) (threads s).
Definition set_objects (m : gmap positive Process) (s : system) : system := mkSystem (pidCounter s) (processes s) (genericWaiting s) m (threads s).
Definition set_threads (m : gmap positive thread) (s : system) : system := mkSystem (pidCounter s) (processes s) (genericWaiting s) (objects s) m.

Definition set_pids (p pp : Z) (o : Process) : Process := mkProcess p pp (childs o) (zombies o) (waitCount o) (waiting o) (zombie o) (exitCode o).
Definition set_childs (l : list positive) (o : Process) : Process := mkProcess (pid o) (ppid o) l (zombies o) (waitCount o) (waiting o) (zombie o) (exitCode o).
Definition set_zombies (l : list positive) (o : Process) : Process := mkProcess (pid o) (ppid o) (childs o) l (waitCount o) (waiting o) (zombie o) (exitCode o).
Definition set_wait (n : Z) (l : list positive) (o : Process) : Process := mkProcess (pid o) (ppid o) (childs o) (zombies o) n l (zombie o) (exitCode o).
Definition set_zombie (code : Z) (o : Process) : Process := mkProcess (pid o) (ppid o) (childs o) (zombies o) (waitCount o) (waiting o) true code.

(** Access through a pointer. *)
Definition object (a : positive) (s : system) : exec Process := deref (objects s !! a).
Definition update (a : positive) (f : Process -> Process) (s : system) : exec system :=
  o ← object a s; Done (set_objects (<[a := f o]> (objects s)) s).
Definition getCurrent (t : positive) (s : system) : exec positive := th ← deref (threads s !! t); Done (proc th).
Definition go (t : positive) (p : place) (s : system) : exec system :=
  th ← deref (threads s !! t); Done (set_threads (<[t := mkThread (proc th) p]> (threads s)) s).

(** [std::list::remove]. *)
Definition remove (a : positive) (l : list positive) : list positive := filter (fun x => x <> a) l.

(** [delete]. *)
Definition delete_object (a : positive) (s : system) : system := set_objects (delete a (objects s)) s.

(** ** Creation *)
Definition increment (c : Z) : Z := s32 (c + 1).

Fixpoint getNewPid_loop (n : nat) (s : system) : exec (Z * system) :=
  match n with
  | O => Fault OutOfFuel
  | S n =>
      let c := if pidCounter s <? 0 then 1 else pidCounter s in
      if c =? 0 then getNewPid_loop n (set_pidCounter (increment c) s)
      else match processes s !! c with
           | Some _ => getNewPid_loop n (set_pidCounter (increment c) s)
           | None => Done (c, set_pidCounter (increment c) s)
           end
  end.
Definition getNewPid (s : system) : exec (Z * system) := getNewPid_loop (size (processes s) + 3) s.

(** [Process::Process]. *)
Definition new_Process : Process := mkProcess 0 0 [] [] 0 [] false 0.

(** [create] up to the end of its first critical section; [a] is where the
    constructor puts the object. *)
Definition create_begin (t a : positive) (s : system) : exec system :=
  parent ← getCurrent t s;
  let s := set_objects (<[a := new_Process]> (objects s)) s in
  '(p, s) ← getNewPid s;
  po ← object parent s;
  s ← update a (set_pids p (pid po)) s;
  s ← update parent (fun o => set_childs (childs o ++ [a]) o) s;
  let s := set_processes (<[p := a]> (processes s)) s in
  go t (Creating a) s.

(** The rest, with the thread that [createUserspace] returns.  It gives the
    pid, or throws. *)
Definition create_end (t : positive) (thr : option positive) (s : system) : exec (option Z * system) :=
  th ← deref (threads s !! t);
  match at_ th with
  | Creating a =>
      o ← object a s;
      match thr with
      | None =>
          let s := set_processes (delete (pid o) (processes s)) s in
          s ← update (proc th) (fun o => set_childs (remove a (childs o)) o) s;
          s ← go t Running (delete_object a s);
          Done (None, s)
      | Some thr =>
          let s := set_threads (<[thr := mkThread a Running]> (threads s)) s in
          s ← go t Running s;
          Done (Some (pid o), s)
      end
  | _ => Fault Undefined
  end.

Definition getppid (p : Z) (s : system) : exec Z :=
  match processes s !! p with
  | None => Done (-1)
  | Some a => o ← object a s; Done (ppid o)
  end.

(** ** [waitpid]

    It returns a pid, and the exit code if it writes one, or the thread is on a
    condition variable. *)
Inductive wait_result := Returned (p : Z) (exit : option Z) | Blocked.

#[export] Instance wait_result_eq_dec : EqDecision wait_result.
Proof. solve_decision. Defined.

Definition WNOHANG : Z := 1.
Definition nohang (options : Z) : bool := negb (Z.land options WNOHANG =? 0).

(** The loop for any child, and what comes after. *)
Definition wait_any (t self : positive) (s : system) : exec (wait_result * system) :=
  o ← object self s;
  match zombies o with
  | [] =>
      match childs o with
      | [] => s ← go t Running s; Done (Returned (-1) None, s)
      | _ => s ← go t WaitAny (set_generic (genericWaiting s ++ [t]) s); Done (Blocked, s)
      end
  | joined :: rest =>
      s ← update self (set_zombies rest) s;
      j ← object joined s;
      let s := set_processes (delete (pid j) (processes s)) s in
      if negb (waitCount j =? 0) then errorHandler UNEXPECTED
      else
        s ← go t Running (delete_object joined s);
        Done (Returned (pid j) (Some (exitCode j)), s)
  end.

(** The end of the wait for a child that has terminated. *)
Definition wait_reap (t self joined : positive) (s : system) : exec (wait_result * system) :=
  j ← object joined s;
  if waitCount j =? 0 then
    s ← update self (fun o => set_zombies (remove joined (zombies o)) o) s;
    let s := set_processes (delete (pid j) (processes s)) s in
    s ← go t Running (delete_object joined s);
    Done (Returned (pid j) (Some (exitCode j)), s)
  else s ← go t Running s; Done (Returned (-1) None, s).

Definition waitpid (t : positive) (p options : Z) (s : system) : exec (wait_result * system) :=
  self ← getCurrent t s;
  o ← object self s;
  if p <=? 0 then
    if bool_decide (zombies o = []) && nohang options then Done (Returned 0 None, s) else wait_any t self s
  else
    match processes s !! p with
    | None => Done (Returned (-1) None, s)
    | Some joined =>
        j ← object joined s;
        if negb (ppid j =? pid o) || (p =? pid o) then Done (Returned (-1) None, s)
        else if negb (zombie j) then
          if nohang options then Done (Returned 0 None, s)
          else
            s ← update joined (fun j => set_wait (waitCount j + 1) (waiting j ++ [t]) j) s;
            s ← go t (WaitFor joined) s;
            Done (Blocked, s)
        else wait_reap t self joined s
    end.

(** After a wait on a condition variable. *)
Definition waitpid_resume (t : positive) (s : system) : exec (wait_result * system) :=
  th ← deref (threads s !! t);
  match at_ th with
  | WaitAny => wait_any t (proc th) s
  | WaitFor joined =>
      s ← update joined (fun j => set_wait (waitCount j - 1) (waiting j) j) s;
      j ← object joined s;
      if (waitCount j <? 0) || negb (zombie j) then errorHandler UNEXPECTED else wait_reap t (proc th) joined s
  | _ => Fault Undefined
  end.

(** ** The end of [start] *)
Fixpoint orphan (l : list positive) (s : system) : exec system :=
  match l with
  | [] => Done s
  | a :: l => s ← update a (fun o => set_pids (pid o) 0 o) s; orphan l s
  end.

Definition finish (t : positive) (code : Z) (s : system) : exec system :=
  proc ← getCurrent t s;
  s ← update proc (set_zombie code) s;
  o ← object proc s;
  s ← orphan (childs o) s;
  s ← orphan (zombies o) s;
  kernel ← deref (processes s !! 0);
  s ← update kernel (fun k => set_childs (childs o ++ childs k) k) s;
  s ← update proc (set_childs []) s;
  s ← update kernel (fun k => set_zombies (zombies o ++ zombies k) k) s;
  s ← update proc (set_zombies []) s;
  o ← object proc s;
  match processes s !! ppid o with
  | None => errorHandler UNEXPECTED
  | Some it2 =>
      s ← update it2 (fun q => set_childs (remove proc (childs q)) q) s;
      s ← (if 0 <? waitCount o then update proc (fun o => set_wait (waitCount o) [] o) s
           else s ← update it2 (fun q => set_zombies (zombies q ++ [proc]) q) s; Done (set_generic [] s));
      Done (set_threads (delete t (threads s)) s)
  end.

(** ** Runs

    [Spawn] and [Leave] are kernel threads that start and end. *)
Inductive op :=
| Create (a : positive) | Created (thr : option positive) | Getppid (p : Z) | Waitpid (p options : Z) | Resume
| Exit (code : Z) | Spawn (thr : positive) | Leave.

Inductive result := Unit | Pid (p : option Z) | Wait (r : wait_result).

Definition step (t : positive) (o : op) (s : system) : exec (result * system) :=
  match o with
  | Create a => s ← create_begin t a s; Done (Unit, s)
  | Created thr => '(p, s) ← create_end t thr s; Done (Pid p, s)
  | Getppid p => r ← getppid p s; Done (Pid (Some r), s)
  | Waitpid p options => '(r, s) ← waitpid t p options s; Done (Wait r, s)
  | Resume => '(r, s) ← waitpid_resume t s; Done (Wait r, s)
  | Exit code => s ← finish t code s; Done (Unit, s)
  | Spawn thr => p ← getCurrent t s; Done (Unit, set_threads (<[thr := mkThread p Running]> (threads s)) s)
  | Leave => Done (Unit, set_threads (delete t (threads s)) s)
  end.

(** The kernel process, with a first thread. *)
Definition kernel : positive := 1.
Definition initial : system :=
  mkSystem 0 {[0 := kernel]} [] {[kernel := new_Process]} {[1%positive := mkThread kernel Running]}.

(** What the rest of the system allows.  Memory gives fresh addresses (of
    objects larger than four bytes) and thread identifiers; a process has one thread, and the
    kernel does not exit.  A thread goes on after a wait when the condition
    variable does not hold it.  The creation of a thread does not fail while another one waits for
    the process (see [ex_create_fails]). *)
Definition enabled (t : positive) (o : op) (s : system) : Prop :=
  exists th, threads s !! t = Some th /\
    match o with
    | Create a => at_ th = Running /\ objects s !! a = None /\ Z.pos a < 2 ^ 30
    | Created (Some thr) => (exists a, at_ th = Creating a) /\ threads s !! thr = None
    | Created None => exists a, at_ th = Creating a /\ forall o, objects s !! a = Some o -> waitCount o = 0
    | Getppid _ | Waitpid _ _ => at_ th = Running
    | Resume =>
        (at_ th = WaitAny /\ t ∉ genericWaiting s) \/
        (exists j, at_ th = WaitFor j /\ forall o, objects s !! j = Some o -> t ∉ waiting o)
    | Exit _ => at_ th = Running /\ proc th <> kernel
    | Spawn thr => at_ th = Running /\ proc th = kernel /\ threads s !! thr = None
    | Leave => at_ th = Running /\ proc th = kernel
    end.

Inductive reachable : system -> Prop :=
| reach_initial : reachable initial
| reach_step t o s r s' : reachable s -> enabled t o s -> step t o s = Done (r, s') -> reachable s'.

(** ** The process table

    What the interface promises: each process has a parent, may have ended
    with a code, and may have threads that wait for it in particular. *)
Record entry := mkEntry { parent : Z; status : option Z; reserved : Z }.
Abbreviation table := (gmap Z entry).

Definition entry_of (o : Process) : entry := mkEntry (ppid o) (if zombie o then Some (exitCode o) else None) (waitCount o).
Definition abs (s : system) : table := omap (fun a => entry_of <$> objects s !! a) (processes s).

Definition child (T : table) (me p : Z) (e : entry) : Prop := T !! p = Some e /\ p <> 0 /\ parent e = me.
(** Children that a wait for any child can give, and children still running. *)
Definition ended (T : table) (me p c : Z) : Prop := child T me p (mkEntry me (Some c) 0).
Definition alive (T : table) (me : Z) : Prop := exists p n, child T me p (mkEntry me None n).

Definition orphaned (me : Z) (T : table) : table :=
  (fun e => if parent e =? me then mkEntry 0 (status e) (reserved e) else e) <$> T.

(** Waiting for any child. *)
Definition spec_any (T : table) (me : Z) (r : wait_result) (T' : table) : Prop :=
  match r with
  | Returned p (Some c) => ended T me p c /\ T' = delete p T
  | Returned p None => p = -1 /\ T' = T /\ ~ alive T me /\ forall p c, ~ ended T me p c
  | Blocked => T' = T /\ alive T me /\ forall p c, ~ ended T me p c
  end.

(** The end of a wait for [p], which has ended with [c], while [n] other
    threads wait for it. *)
Definition spec_reap (T : table) (me p c n : Z) (r : wait_result) (T' : table) : Prop :=
  if n =? 0 then r = Returned p (Some c) /\ T' = delete p T
  else r = Returned (-1) None /\ T' = <[p := mkEntry me (Some c) n]> T.

Definition spec (T : table) (me : Z) (pl : option Z) (o : op) (r : result) (T' : table) : Prop :=
  match o, r with
  | Create _, Unit => exists p, 0 < p /\ T !! p = None /\ T' = <[p := mkEntry me None 0]> T
  | Created thr, Pid r =>
      exists p n, pl = Some p /\ child T me p (mkEntry me None n) /\
        match thr with Some _ => r = Some p /\ T' = T | None => r = None /\ T' = delete p T end
  | Getppid p, Pid r => r = Some (match T !! p with Some e => parent e | None => -1 end) /\ T' = T
  | Waitpid p options, Wait r =>
      if p <=? 0 then
        if decide (r = Returned 0 None) then nohang options = true /\ T' = T /\ forall p c, ~ ended T me p c
        else spec_any T me r T'
      else
        match T !! p with
        | Some (mkEntry q st n) =>
            if negb (q =? me) then r = Returned (-1) None /\ T' = T
            else match st with
                 | None => if nohang options then r = Returned 0 None /\ T' = T else r = Blocked /\ T' = <[p := mkEntry me None (n + 1)]> T
                 | Some c => spec_reap T me p c n r T'
                 end
        | None => r = Returned (-1) None /\ T' = T
        end
  | Resume, Wait r =>
      match pl with
      | None => spec_any T me r T'
      | Some p => exists c n, child T me p (mkEntry me (Some c) (n + 1)) /\ 0 <= n /\ spec_reap T me p c n r T'
      end
  | Exit c, Unit => exists e, T !! me = Some e /\ status e = None /\ T' = <[me := mkEntry (parent e) (Some c) (reserved e)]> (orphaned me T)
  | Spawn _, Unit | Leave, Unit => T' = T
  | _, _ => False
  end.

(** ** The invariant

    First the tree of objects, then the threads. *)
Record tree (s : system) : Prop := {
  i_counter : - 2 ^ 31 <= pidCounter s < 2 ^ 31;
  i_kernel : processes s !! 0 = Some kernel;
  i_kobj : exists k, objects s !! kernel = Some k /\ pid k = 0 /\ ppid k = 0 /\ zombie k = false;
  i_reg p a : processes s !! p = Some a <-> exists o, objects s !! a = Some o /\ pid o = p;
  i_obj a o : objects s !! a = Some o -> a <> kernel -> 0 < pid o /\ ppid o <> pid o;
  i_parent a o : objects s !! a = Some o -> exists q oq, processes s !! ppid o = Some q /\ objects s !! q = Some oq /\ zombie oq = false;
  i_mem a o : objects s !! a = Some o -> Z.pos a < 2 ^ 30;
  i_childs q oq a : objects s !! q = Some oq ->
    (a ∈ childs oq <-> exists o, objects s !! a = Some o /\ a <> kernel /\ ppid o = pid oq /\ zombie o = false);
  i_zombies q oq a : objects s !! q = Some oq ->
    (a ∈ zombies oq <-> exists o, objects s !! a = Some o /\ ppid o = pid oq /\ zombie o = true /\ waitCount o = 0);
  i_nodup q oq : objects s !! q = Some oq -> NoDup (zombies oq);
}.

Definition waiters (s : system) (a : positive) : gset positive :=
  dom (filter (fun x => at_ x.2 = WaitFor a) (threads s)).

Record crew (s : system) : Prop := {
  i_thread t th : threads s !! t = Some th -> exists o, objects s !! proc th = Some o /\ zombie o = false;
  i_single t t' th th' : threads s !! t = Some th -> threads s !! t' = Some th' -> proc th = proc th' -> proc th <> kernel -> t = t';
  i_count a o : objects s !! a = Some o -> waitCount o = Z.of_nat (size (waiters s a));
  i_waiting a o t : objects s !! a = Some o -> (t ∈ waiting o <-> zombie o = false /\ t ∈ waiters s a);
  i_for t th a : threads s !! t = Some th -> at_ th = WaitFor a ->
    exists o oq, objects s !! a = Some o /\ objects s !! proc th = Some oq /\ a <> kernel /\ ppid o = pid oq;
  i_any t : t ∈ genericWaiting s -> exists th, threads s !! t = Some th /\ at_ th = WaitAny /\
    (proc th <> kernel -> forall o, objects s !! proc th = Some o -> zombies o = [] /\ childs o <> []);
  i_creating t th a : threads s !! t = Some th -> at_ th = Creating a ->
    exists o oq, objects s !! a = Some o /\ objects s !! proc th = Some oq /\ a <> kernel /\ ppid o = pid oq /\ zombie o = false /\
      (forall t' th', threads s !! t' = Some th' -> proc th' <> a) /\ (forall t' th', threads s !! t' = Some th' -> at_ th' = Creating a -> t' = t) /\
      (forall x ox, objects s !! x = Some ox -> ppid ox <> pid o);
}.

(** *** Updates that succeed *)
Definition upd (a : positive) (f : Process -> Process) (s : system) : system := set_objects (alter f a (objects s)) s.
Definition set_at (t : positive) (p : place) (s : system) : system := set_threads (alter (fun th => mkThread (proc th) p) t (threads s)) s.

Lemma alter_insert {K A} `{Countable K} (f : A -> A) (m : gmap K A) i x : m !! i = Some x -> <[i := f x]> m = alter f i m.
Proof.
  intros Hi. apply map_eq. intros j. destruct (decide (j = i)) as [->|Hj].
  - by rewrite lookup_insert_eq, lookup_alter_eq, Hi.
  - by rewrite lookup_insert_ne, lookup_alter_ne.
Qed.

Lemma update_in a f s : is_Some (objects s !! a) -> update a f s = Done (upd a f s).
Proof. intros [o Ho]. unfold update, object, upd. rewrite Ho. simpl. by rewrite (alter_insert f _ _ _ Ho). Qed.

Lemma go_in t p s : is_Some (threads s !! t) -> go t p s = Done (set_at t p s).
Proof.
  intros [th Ht]. unfold go, set_at. rewrite Ht. simpl. do 2 f_equal. exact (alter_insert (fun th => mkThread (proc th) p) _ _ _ Ht).
Qed.

Lemma objects_upd a f s x : objects (upd a f s) !! x = if decide (x = a) then f <$> objects s !! x else objects s !! x.
Proof. unfold upd. simpl. destruct (decide (x = a)) as [->|]; [by rewrite lookup_alter_eq|by rewrite lookup_alter_ne]. Qed.

Definition orphans (l : list positive) (s : system) : system :=
  set_objects (map_imap (fun x o => Some (if decide (x ∈ l) then set_pids (pid o) 0 o else o)) (objects s)) s.

Lemma orphans_cons a l s : orphans l (upd a (fun o => set_pids (pid o) 0 o) s) = orphans (a :: l) s.
Proof.
  unfold orphans. simpl. unfold set_objects. simpl. f_equal. apply map_eq. intros x. rewrite !map_lookup_imap.
  destruct (decide (x = a)) as [->|Hx].
  - rewrite lookup_alter_eq. destruct (objects s !! a); simpl; [|done]. rewrite (decide_True (P := a ∈ a :: l)) by set_solver. by destruct (decide (a ∈ l)).
  - rewrite lookup_alter_ne by done. destruct (objects s !! x); simpl; [|done]. f_equal. apply decide_ext. set_solver.
Qed.

Lemma orphan_in l s : (forall a, a ∈ l -> is_Some (objects s !! a)) -> orphan l s = Done (orphans l s).
Proof.
  revert s. induction l as [|a l IH]; intros s Hl; cbn [orphan].
  - unfold orphans. destruct s as [c ps g os ts]. unfold set_objects. simpl. do 2 f_equal. apply map_eq. intros x. rewrite map_lookup_imap. by destruct (os !! x).
  - rewrite update_in by (apply Hl; set_solver). cbn [mbind outcome_bind]. rewrite IH; [by rewrite orphans_cons|].
    intros x Hx. rewrite objects_upd. specialize (Hl x ltac:(set_solver)). destruct (decide (x = a)); [|done]. destruct Hl as [o ->]. by eexists.
Qed.

Lemma elem_of_list_remove a x l : x ∈ remove a l <-> x ∈ l /\ x <> a.
Proof. unfold remove. rewrite list_elem_of_filter. tauto. Qed.

Lemma pid_inj s a b oa ob : tree s -> objects s !! a = Some oa -> objects s !! b = Some ob -> pid oa = pid ob -> a = b.
Proof.
  intros Hs Ha Hb E. assert (H1 : processes s !! pid oa = Some a) by (apply (i_reg s Hs); by exists oa).
  assert (H2 : processes s !! pid oa = Some b) by (apply (i_reg s Hs); by exists ob). congruence.
Qed.

(** *** New pids *)
Definition candidate (c : Z) (k : nat) : Z := (c - 1 + Z.of_nat k) mod (2 ^ 31 - 1) + 1.
Definition normal (c : Z) : Z := if c <? 0 then 1 else c.

Lemma candidate_bound c k : 0 < candidate c k < 2 ^ 31.
Proof. unfold candidate. pose proof (Z.mod_pos_bound (c - 1 + Z.of_nat k) (2 ^ 31 - 1) ltac:(lia)). lia. Qed.

Lemma candidate_next c k : normal (increment (candidate c k)) = candidate c (S k).
Proof.
  pose proof (candidate_bound c k) as Hb. unfold candidate in *. set (x := c - 1 + Z.of_nat k) in *.
  replace (c - 1 + Z.of_nat (S k)) with (x + 1) by (subst x; lia). set (M := 2 ^ 31 - 1) in *.
  rewrite <- (Zplus_mod_idemp_l x 1). pose proof (Z.mod_pos_bound x M ltac:(lia)). unfold increment, normal.
  destruct (Z.eq_dec (x mod M) (M - 1)) as [->|Hx].
  - replace (M - 1 + 1) with M by lia. rewrite Z.mod_same by lia. reflexivity.
  - rewrite wrapS_small by lia. rewrite (Z.mod_small (x mod M + 1) M) by lia. by destruct (Z.ltb_spec (x mod M + 1 + 1) 0); [lia|].
Qed.

Lemma candidate_inj c k1 k2 : Z.of_nat k1 < 2 ^ 31 - 1 -> Z.of_nat k2 < 2 ^ 31 - 1 -> candidate c k1 = candidate c k2 -> k1 = k2.
Proof.
  unfold candidate. intros H1 H2 He. set (M := 2 ^ 31 - 1) in *.
  assert (E : (Z.of_nat k1 - Z.of_nat k2) mod M = 0).
  { replace (Z.of_nat k1 - Z.of_nat k2) with ((c - 1 + Z.of_nat k1) - (c - 1 + Z.of_nat k2)) by lia.
    rewrite Zminus_mod. replace ((c - 1 + Z.of_nat k1) mod M) with ((c - 1 + Z.of_nat k2) mod M) by lia. by rewrite Z.sub_diag. }
  apply Z.mod_divide in E; [|lia]. destruct E as [q E]. assert (q = 0) by nia. subst q. lia.
Qed.

Lemma free_candidate (ps : gmap Z positive) c :
  Z.of_nat (size ps) < 2 ^ 31 - 3 -> exists j, (j < size ps + 1)%nat /\ ps !! candidate c j = None.
Proof.
  intros Hs. destruct (decide (Exists (fun j => ps !! candidate c j = None) (seq 0 (size ps + 1)))) as [He|Hn].
  { apply Exists_exists in He as (j & Hj & E). apply elem_of_seq in Hj. exists j. split; [lia|done]. }
  exfalso. assert (Hsub : list_to_set (candidate c <$> seq 0 (size ps + 1)) ⊆@{gset Z} dom ps).
  { intros p Hp. apply elem_of_list_to_set, list_elem_of_fmap in Hp as (j & -> & Hj). apply elem_of_dom.
    destruct (ps !! candidate c j) eqn:E; [by eexists|]. destruct Hn. apply Exists_exists. by exists j. }
  apply subseteq_size in Hsub. rewrite size_dom, size_list_to_set in Hsub.
  - rewrite length_fmap, length_seq in Hsub. lia.
  - apply NoDup_fmap_2_strong; [|apply NoDup_seq]. intros k1 k2 H1 H2. apply elem_of_seq in H1, H2. apply candidate_inj; lia.
Qed.

Lemma loop_finds n k c s :
  normal (pidCounter s) = candidate c k -> (exists j, (j < n)%nat /\ processes s !! candidate c (k + j) = None) ->
  exists p c', getNewPid_loop n s = Done (p, set_pidCounter c' s) /\ 0 < p /\ processes s !! p = None /\ - 2 ^ 31 <= c' < 2 ^ 31.
Proof.
  revert k s. induction n as [|n IH]; intros k s Hk (j & Hj & Hfree); [lia|]. cbn [getNewPid_loop]. fold (normal (pidCounter s)). rewrite Hk.
  pose proof (candidate_bound c k) as Hb. rewrite (proj2 (Z.eqb_neq (candidate c k) 0)) by lia.
  destruct (processes s !! candidate c k) as [a|] eqn:E.
  - destruct j as [|j]; [rewrite Nat.add_0_r in Hfree; congruence|].
    destruct (IH (S k) (set_pidCounter (increment (candidate c k)) s)) as (p & c' & Hl & Hp); [apply candidate_next| |].
    + exists j. split; [lia|]. by rewrite <- Nat.add_succ_comm in Hfree.
    + by exists p, c'.
  - exists (candidate c k), (increment (candidate c k)). split; [done|]. split; [lia|]. split; [done|]. by apply (wrapS_bound 32).
Qed.

Lemma small_set (l : list positive) N : NoDup l -> (forall a, a ∈ l -> Z.pos a < N) -> Z.of_nat (length l) <= Z.max 0 N.
Proof.
  intros Hnd Hl. assert (Hle : (length (Z.pos <$> l) <= length (seqZ 0 N))%nat).
  { apply NoDup_incl_length; [apply NoDup_ListNoDup, NoDup_fmap_2; [intros ??; congruence|done]|].
    intros x Hx%list_elem_of_In. apply list_elem_of_fmap in Hx as (a & -> & Ha). apply list_elem_of_In, elem_of_seqZ. specialize (Hl a Ha). lia. }
  rewrite length_fmap, length_seqZ in Hle. lia.
Qed.

Lemma processes_size s : tree s -> Z.of_nat (size (processes s)) <= 2 ^ 30.
Proof.
  intros Hs. assert (Hnd : NoDup (map_to_list (processes s)).*2).
  { apply NoDup_fmap_2_strong; [|apply NoDup_map_to_list]. intros [p a] [p' a'] H1%elem_of_map_to_list H2%elem_of_map_to_list E. simpl in E. subst a'.
    apply (i_reg s Hs) in H1 as (o & Ho & <-), H2 as (o' & Ho' & <-). congruence. }
  pose proof (small_set _ (2 ^ 30) Hnd) as Hl. rewrite length_fmap, length_map_to_list in Hl.
  apply Hl. intros a Ha. apply list_elem_of_fmap in Ha as ([p a'] & -> & Ha%elem_of_map_to_list). apply (i_reg s Hs) in Ha as (o & Ho & _). by apply (i_mem s Hs a' o).
Qed.

Lemma getNewPid_spec s :
  Z.of_nat (size (processes s)) <= 2 ^ 30 -> - 2 ^ 31 <= pidCounter s < 2 ^ 31 ->
  exists p c', getNewPid s = Done (p, set_pidCounter c' s) /\ 0 < p /\ processes s !! p = None /\ - 2 ^ 31 <= c' < 2 ^ 31.
Proof.
  intros Hs Hc. unfold getNewPid. rewrite Nat.add_comm. change (3 + size (processes s))%nat with (S (2 + size (processes s))).
  destruct (Z.eq_dec (pidCounter s) 0) as [E|Hne].
  - cbn [getNewPid_loop]. rewrite E. simpl. destruct (free_candidate (processes s) 1) as (j & Hj & Hfree); [lia|].
    destruct (loop_finds (2 + size (processes s)) 0 1 (set_pidCounter (increment 0) s)) as (p & c' & Hl & Hp); [done|exists j; split; [lia|done]|].
    by exists p, c'.
  - destruct (free_candidate (processes s) (normal (pidCounter s))) as (j & Hj & Hfree); [lia|].
    apply (loop_finds _ 0 (normal (pidCounter s))); [|exists j; split; [lia|done]].
    unfold candidate. simpl. rewrite Z.add_0_r. unfold normal. destruct (Z.ltb_spec (pidCounter s) 0); [done|].
    rewrite Z.mod_small by lia. lia.
Qed.

(** *** Places *)
Lemma elem_of_waiters s a t : t ∈ waiters s a <-> exists th, threads s !! t = Some th /\ at_ th = WaitFor a.
Proof.
  unfold waiters. rewrite elem_of_dom. split.
  - intros [th Ht]. apply map_lookup_filter_Some in Ht as [Ht Ha]. by exists th.
  - intros (th & Ht & Ha). exists th. by apply map_lookup_filter_Some.
Qed.

Lemma threads_set_at s t p t' :
  threads (set_at t p s) !! t' = if decide (t' = t) then (fun th => mkThread (proc th) p) <$> threads s !! t' else threads s !! t'.
Proof. unfold set_at. simpl. destruct (decide (t' = t)) as [->|]; [by rewrite lookup_alter_eq|by rewrite lookup_alter_ne]. Qed.

(** The threads of [s'] are those of [s], with [t] at [p]. *)
Definition moved (t : positive) (p : place) (s s' : system) : Prop :=
  forall t', threads s' !! t' = if decide (t' = t) then (fun th => mkThread (proc th) p) <$> threads s !! t' else threads s !! t'.

Lemma moved_inv t p s s' t' th' :
  moved t p s s' -> threads s' !! t' = Some th' ->
  exists th, threads s !! t' = Some th /\ proc th' = proc th /\ at_ th' = if decide (t' = t) then p else at_ th.
Proof.
  intros Hm Ht. rewrite Hm in Ht. destruct (decide (t' = t)).
  - destruct (threads s !! t') as [th|]; [|done]. injection Ht as <-. by exists th.
  - by exists th'.
Qed.

Lemma moved_waiters t p s s' a :
  moved t p s s' -> is_Some (threads s !! t) ->
  waiters s' a = if decide (p = WaitFor a) then {[t]} ∪ waiters s a else waiters s a ∖ {[t]}.
Proof.
  intros Hm [th0 Ht0]. apply leibniz_equiv. intros t'. rewrite elem_of_waiters. split.
  - intros (th' & Ht' & Ha). destruct (moved_inv _ _ _ _ _ _ Hm Ht') as (th & Ht & _ & E). rewrite Ha in E.
    destruct (decide (t' = t)) as [->|Hne].
    + rewrite decide_True by done. set_solver.
    + assert (t' ∈ waiters s a) by (apply elem_of_waiters; by exists th). destruct (decide (p = _)); set_solver.
  - intros Hin. rewrite Hm. destruct (decide (t' = t)) as [->|Hne].
    + rewrite Ht0. destruct (decide (p = WaitFor a)) as [->|]; [|set_solver]. by eexists.
    + assert (Hw : t' ∈ waiters s a) by (destruct (decide (p = _)); set_solver). by apply elem_of_waiters.
Qed.

(** A thread that is not in [waitpid] for a child. *)
Lemma not_waiter s t th a : threads s !! t = Some th -> at_ th <> WaitFor a -> t ∉ waiters s a.
Proof. intros Ht Ha (th' & Ht' & ?)%elem_of_waiters. congruence. Qed.

(** *** Creation *)
Definition newborn (p pp : Z) : Process := mkProcess p pp [] [] 0 [] false 0.

Definition created (a parent : positive) (p pp : Z) (s s' : system) : Prop :=
  processes s' = <[p := a]> (processes s) /\
  forall x, objects s' !! x =
    if decide (x = a) then Some (newborn p pp)
    else if decide (x = parent) then (fun o => set_childs (childs o ++ [a]) o) <$> objects s !! x else objects s !! x.

Lemma create_begin_spec s t th a :
  tree s -> crew s -> threads s !! t = Some th -> objects s !! a = None ->
  exists p po s', create_begin t a s = Done s' /\ 0 < p /\ processes s !! p = None /\ objects s !! proc th = Some po /\
    created a (proc th) p (pid po) s s' /\ moved t (Creating a) s s' /\ genericWaiting s' = genericWaiting s /\ - 2 ^ 31 <= pidCounter s' < 2 ^ 31.
Proof.
  intros Hs Hc Ht Ha. destruct (i_thread s Hc t th Ht) as (po & Hpo & _). assert (Hne : proc th <> a) by congruence.
  unfold create_begin, getCurrent. rewrite Ht. cbn [mbind outcome_bind deref].
  set (s1 := set_objects (<[a := new_Process]> (objects s)) s).
  destruct (getNewPid_spec s1 (processes_size s Hs) (i_counter s Hs)) as (p & c' & Hp & Hpos & Hfree & Hc'). rewrite Hp. cbn [mbind outcome_bind].
  unfold object. simpl objects. rewrite lookup_insert_ne, Hpo by done. cbn [mbind outcome_bind deref].
  rewrite update_in by (simpl; rewrite lookup_insert_eq; by eexists). cbn [mbind outcome_bind].
  rewrite update_in; [|rewrite objects_upd, decide_False by done; simpl; rewrite lookup_insert_ne, Hpo by done; by eexists]. cbn [mbind outcome_bind].
  rewrite go_in by (simpl; by eexists). eexists p, po, _. split; [reflexivity|]. split; [done|]. split; [done|]. split; [done|]. split_and!.
  - split; [done|]. intros x. simpl. destruct (decide (x = a)) as [->|Hx].
    + rewrite lookup_alter_ne, lookup_alter_eq by done. simpl. by rewrite lookup_insert_eq.
    + destruct (decide (x = proc th)) as [->|Hx'].
      * rewrite lookup_alter_eq, lookup_alter_ne by done. simpl. by rewrite lookup_insert_ne.
      * rewrite !lookup_alter_ne by done. simpl. by rewrite lookup_insert_ne.
  - intros t'. by rewrite threads_set_at.
  - done.
  - exact (proj1 Hc').
  - exact (proj2 Hc').
Qed.

(** The objects of [s] in [s']. *)
Lemma created_old a q p pp s s' x o :
  created a q p pp s s' -> objects s !! a = None -> objects s !! x = Some o ->
  exists o', objects s' !! x = Some o' /\ pid o' = pid o /\ ppid o' = ppid o /\ zombie o' = zombie o /\ waitCount o' = waitCount o /\ waiting o' = waiting o /\
    zombies o' = zombies o /\ childs o' = if decide (x = q) then childs o ++ [a] else childs o.
Proof.
  intros [_ Ho] Ha Hx. rewrite Ho. rewrite (decide_False (P := x = a)) by congruence. rewrite Hx. destruct (decide (x = q)); by eexists.
Qed.

Lemma created_new a q p pp s s' x o' :
  created a q p pp s s' -> objects s' !! x = Some o' ->
  (x = a /\ o' = newborn p pp) \/
  (x <> a /\ exists o, objects s !! x = Some o /\ pid o' = pid o /\ ppid o' = ppid o /\ zombie o' = zombie o /\ waitCount o' = waitCount o /\
    waiting o' = waiting o /\ zombies o' = zombies o /\ childs o' = if decide (x = q) then childs o ++ [a] else childs o).
Proof.
  intros [_ Ho] Hx. rewrite Ho in Hx. destruct (decide (x = a)); [left; by simplify_eq|]. right. split; [done|]. destruct (decide (x = q)).
  - destruct (objects s !! x) as [o|]; [|done]. injection Hx as <-. by exists o.
  - by exists o'.
Qed.

Lemma created_tree a q oq p s s' :
  tree s -> created a q p (pid oq) s s' -> objects s !! a = None -> objects s !! q = Some oq -> zombie oq = false -> 0 < p ->
  processes s !! p = None -> Z.pos a < 2 ^ 30 -> - 2 ^ 31 <= pidCounter s' < 2 ^ 31 -> tree s'.
Proof.
  intros Hs Hcr Ha Hq Hz Hp Hfree Hmem Hcnt. pose proof Hcr as [Hps Hob].
  destruct (i_kobj s Hs) as (k & Hk & Hk0 & Hk1 & Hk2). assert (Hak : a <> kernel) by congruence.
  assert (Hpid : forall x o, objects s !! x = Some o -> pid o <> p).
  { intros x o Hx E. assert (processes s !! p = Some x) by (apply (i_reg s Hs); by exists o). congruence. }
  assert (Hreg : forall p' x, processes s' !! p' = Some x <-> exists o, objects s' !! x = Some o /\ pid o = p').
  { intros p' x. rewrite Hps. split.
    - intros [[<- <-]|[Hne Hin]]%lookup_insert_Some; [exists (newborn p (pid oq)); rewrite Hob, decide_True by done; done|].
      apply (i_reg s Hs) in Hin as (o & Hx & <-). destruct (created_old _ _ _ _ _ _ _ _ Hcr Ha Hx) as (o' & ? & ? & _). by exists o'.
    - intros (o' & Hx & <-). destruct (created_new _ _ _ _ _ _ _ _ Hcr Hx) as [[-> ->]|(Hne & o & Hx0 & E & _)]; [by rewrite lookup_insert_eq|].
      rewrite E, lookup_insert_ne by (intros E0; by apply (Hpid x o)). apply (i_reg s Hs). by exists o. }
  split; [done| | |done| | | | | |].
  - rewrite Hps, lookup_insert_ne by lia. apply i_kernel, Hs.
  - destruct (created_old _ _ _ _ _ _ _ _ Hcr Ha Hk) as (o' & ? & E1 & E2 & E3 & _). exists o'. by rewrite E1, E2, E3.
  - intros x o' Hx Hxk. destruct (created_new _ _ _ _ _ _ _ _ Hcr Hx) as [[-> ->]|(Hne & o & Hx0 & -> & -> & _)]; [|by apply (i_obj s Hs x)].
    simpl. split; [done|]. by apply (Hpid q).
  - intros x o' Hx. assert (Hpar : exists y oy, objects s !! y = Some oy /\ ppid o' = pid oy /\ zombie oy = false).
    { destruct (created_new _ _ _ _ _ _ _ _ Hcr Hx) as [[-> ->]|(Hne & o & Hx0 & _ & -> & _)]; [by exists q, oq|].
      destruct (i_parent s Hs x o Hx0) as (y & oy & Hy & Hoy & Hzy). apply (i_reg s Hs) in Hy as (oy' & Hoy' & <-). exists y, oy'. split; [done|]. split; [done|]. congruence. }
    destruct Hpar as (y & oy & Hy & E & Hzy). destruct (created_old _ _ _ _ _ _ _ _ Hcr Ha Hy) as (oy' & Hy' & E1 & _ & E3 & _).
    exists y, oy'. split; [apply Hreg; exists oy'; by rewrite E|]. by rewrite E3.
  - intros x o' Hx. destruct (created_new _ _ _ _ _ _ _ _ Hcr Hx) as [[-> _]|(_ & o & Hx0 & _)]; [done|]. by apply (i_mem s Hs x o).
  - intros x o' c Hx. destruct (created_new _ _ _ _ _ _ _ _ Hcr Hx) as [[-> ->]|(Hne & o & Hx0 & E1 & _ & _ & _ & _ & _ & E6)].
    + simpl. split; [set_solver|]. intros (oc & Hoc & _ & E & _). exfalso. destruct (created_new _ _ _ _ _ _ _ _ Hcr Hoc) as [[-> ->]|(_ & oc0 & Hc0 & _ & E2 & _)].
      * simpl in E. by apply (Hpid q oq).
      * destruct (i_parent s Hs _ _ Hc0) as (y & oy & Hy & _). rewrite <- E2, E in Hy. congruence.
    + rewrite E6. rewrite E1. assert (Hc : c ∈ (if decide (x = q) then childs o ++ [a] else childs o) <-> c ∈ childs o \/ (x = q /\ c = a)).
      { destruct (decide (x = q)); rewrite ?elem_of_app, ?list_elem_of_singleton; naive_solver. }
      rewrite Hc, (i_childs s Hs x o c Hx0). split.
      * intros [(oc & Hoc & Hck & Ep & Ez)|[-> ->]].
        -- destruct (created_old _ _ _ _ _ _ _ _ Hcr Ha Hoc) as (oc' & ? & _ & E2 & E3 & _). exists oc'. by rewrite E2, E3.
        -- exists (newborn p (pid oq)). rewrite Hob, decide_True by done. simplify_eq. done.
      * intros (oc & Hoc & Hck & Ep & Ez). destruct (created_new _ _ _ _ _ _ _ _ Hcr Hoc) as [[-> ->]|(_ & oc0 & Hc0 & _ & E2 & E3 & _)].
        -- right. split; [|done]. simpl in Ep. assert (processes s !! pid oq = Some x) by (apply (i_reg s Hs); by exists o).
           assert (processes s !! pid oq = Some q) by (apply (i_reg s Hs); by exists oq). congruence.
        -- left. exists oc0. by rewrite <- E2, <- E3.
  - intros x o' c Hx. destruct (created_new _ _ _ _ _ _ _ _ Hcr Hx) as [[-> ->]|(Hne & o & Hx0 & E1 & _ & _ & _ & _ & E5 & _)].
    + simpl. split; [set_solver|]. intros (oc & Hoc & E & _). exfalso. destruct (created_new _ _ _ _ _ _ _ _ Hcr Hoc) as [[-> ->]|(_ & oc0 & Hc0 & _ & E2 & _)].
      * simpl in E. by apply (Hpid q oq).
      * destruct (i_parent s Hs _ _ Hc0) as (y & oy & Hy & _). rewrite <- E2, E in Hy. congruence.
    + rewrite E5, E1, (i_zombies s Hs x o c Hx0). split.
      * intros (oc & Hoc & Ep & Ez & Ew). destruct (created_old _ _ _ _ _ _ _ _ Hcr Ha Hoc) as (oc' & ? & _ & E2 & E3 & E4 & _). exists oc'. by rewrite E2, E3, E4.
      * intros (oc & Hoc & Ep & Ez & Ew). destruct (created_new _ _ _ _ _ _ _ _ Hcr Hoc) as [[-> ->]|(_ & oc0 & Hc0 & _ & E2 & E3 & E4 & _)]; [done|].
        exists oc0. by rewrite <- E2, <- E3, <- E4.
  - intros x o' Hx. destruct (created_new _ _ _ _ _ _ _ _ Hcr Hx) as [[-> ->]|(Hne & o & Hx0 & _ & _ & _ & _ & _ & -> & _)]; [constructor|by apply (i_nodup s Hs x)].
Qed.

(** A move that starts and ends outside of the wait for a child. *)
Lemma moved_same_waiters t p s s' th a :
  moved t p s s' -> threads s !! t = Some th -> at_ th <> WaitFor a -> p <> WaitFor a -> waiters s' a = waiters s a.
Proof.
  intros Hm Ht Ha Hp. rewrite (moved_waiters t p s s' a Hm ltac:(by eexists)), decide_False by done.
  pose proof (not_waiter s t th a Ht Ha). set_solver.
Qed.

Lemma created_crew t th a oq p s s' :
  tree s -> crew s -> created a (proc th) p (pid oq) s s' -> moved t (Creating a) s s' -> genericWaiting s' = genericWaiting s -> processes s !! p = None ->
  objects s !! a = None -> objects s !! proc th = Some oq -> threads s !! t = Some th -> at_ th = Running -> crew s'.
Proof.
  intros Hs Hc Hcr Hm Hg Hfree Ha Hq Ht Hrun. destruct (i_kobj s Hs) as (k & Hk & _). assert (Hak : a <> kernel) by congruence.
  assert (Hpid : forall x o, objects s !! x = Some o -> pid o <> p).
  { intros x o Hx E. assert (processes s !! p = Some x) by (apply (i_reg s Hs); by exists o). congruence. }
  assert (Hw : forall x, waiters s' x = waiters s x) by (intros x; apply (moved_same_waiters t (Creating a) s s' th); by rewrite ?Hrun).
  assert (Hnone : forall t' th', threads s !! t' = Some th' -> proc th' <> a).
  { intros t' th' Ht' E. destruct (i_thread s Hc t' th' Ht') as (o & Ho & _). congruence. }
  assert (Hwa : forall x t', t' ∈ waiters s x -> is_Some (objects s !! x)).
  { intros x t' (th' & Ht' & Hat)%elem_of_waiters. destruct (i_for s Hc t' th' x Ht' Hat) as (o & _ & Ho & _). by eexists. }
  split.
  - intros t' th' Ht'. destruct (moved_inv _ _ _ _ _ _ Hm Ht') as (th0 & Ht0 & -> & _). destruct (i_thread s Hc t' th0 Ht0) as (o & Ho & Hz).
    destruct (created_old _ _ _ _ _ _ _ _ Hcr Ha Ho) as (o' & ? & _ & _ & E & _). exists o'. by rewrite E.
  - intros t1 t2 th1 th2 H1 H2. destruct (moved_inv _ _ _ _ _ _ Hm H1) as (th1' & ? & -> & _), (moved_inv _ _ _ _ _ _ Hm H2) as (th2' & ? & -> & _). by apply (i_single s Hc).
  - intros x o' Hx. rewrite Hw. destruct (created_new _ _ _ _ _ _ _ _ Hcr Hx) as [[-> ->]|(Hne & o & Hx0 & _ & _ & _ & -> & _)]; [|by apply (i_count s Hc)].
    assert (waiters s a = ∅) as ->; [|done]. apply leibniz_equiv. intros t'. split; [|set_solver]. intros [? Hin]%Hwa. congruence.
  - intros x o' t' Hx. rewrite Hw. destruct (created_new _ _ _ _ _ _ _ _ Hcr Hx) as [[-> ->]|(Hne & o & Hx0 & _ & _ & -> & _ & -> & _)]; [|by apply (i_waiting s Hc)].
    simpl. split; [set_solver|]. intros [_ [? Hin]%Hwa]. congruence.
  - intros t' th' x Ht' Hat. destruct (moved_inv _ _ _ _ _ _ Hm Ht') as (th0 & Ht0 & -> & E). rewrite Hat in E. destruct (decide (t' = t)); [done|].
    destruct (i_for s Hc t' th0 x Ht0 (eq_sym E)) as (o & oq' & Ho & Hoq' & Hxk & Ep).
    destruct (created_old _ _ _ _ _ _ _ _ Hcr Ha Ho) as (o' & ? & _ & E2 & _), (created_old _ _ _ _ _ _ _ _ Hcr Ha Hoq') as (oq'' & ? & E1 & _).
    exists o', oq''. by rewrite E2, E1.
  - intros t' Hin. rewrite Hg in Hin. destruct (i_any s Hc t' Hin) as (th' & Ht' & Hat & Hno). exists th'. rewrite Hm.
    rewrite decide_False by congruence. split; [done|]. split; [done|]. intros Hnk o' Ho'.
    destruct (created_new _ _ _ _ _ _ _ _ Hcr Ho') as [[E _]|(_ & o & Ho & _ & _ & _ & _ & _ & -> & ->)]; [by destruct (Hnone t' th' Ht')|].
    destruct (Hno Hnk o Ho) as [? Hch]. split; [done|]. destruct (decide _); [|done]. by intros [? _]%app_nil.
  - intros t' th' x Ht' Hat. destruct (moved_inv _ _ _ _ _ _ Hm Ht') as (th0 & Ht0 & -> & E). rewrite Hat in E. destruct (decide (t' = t)) as [->|Hne].
    + injection E as ->. rewrite Ht in Ht0. injection Ht0 as <-. destruct (created_old _ _ _ _ _ _ _ _ Hcr Ha Hq) as (oq' & ? & E1 & _).
      exists (newborn p (pid oq)), oq'. rewrite E1. pose proof Hcr as [_ Hob]. rewrite Hob, decide_True by done. split_and!; try done.
      * intros t2 th2 Ht2. destruct (moved_inv _ _ _ _ _ _ Hm Ht2) as (th3 & ? & -> & _). by apply (Hnone t2).
      * intros t2 th2 Ht2 Hat2. destruct (moved_inv _ _ _ _ _ _ Hm Ht2) as (th3 & Ht3 & _ & E'). destruct (decide (t2 = t)); [done|]. rewrite Hat2 in E'.
        destruct (i_creating s Hc t2 th3 a Ht3 (eq_sym E')) as (o & _ & Ho & _). congruence.
      * intros x ox Hx. destruct (created_new _ _ _ _ _ _ _ _ Hcr Hx) as [[-> ->]|(_ & ox0 & Hx0 & _ & -> & _)]; simpl; [by apply (Hpid _ _ Hq)|].
        destruct (i_parent s Hs x ox0 Hx0) as (y & oy & Hy & _). congruence.
    + destruct (i_creating s Hc t' th0 x Ht0 (eq_sym E)) as (o & oq' & Ho & Hoq' & Hxk & Ep & Hz & Hnt & Hnc & Hnk).
      destruct (created_old _ _ _ _ _ _ _ _ Hcr Ha Ho) as (o' & ? & _ & E2 & E3 & _), (created_old _ _ _ _ _ _ _ _ Hcr Ha Hoq') as (oq'' & ? & E1 & _).
      exists o', oq''. rewrite E2, E1, E3. split_and!; try done.
      * intros t2 th2 Ht2. destruct (moved_inv _ _ _ _ _ _ Hm Ht2) as (th3 & ? & -> & _). by apply (Hnt t2).
      * intros t2 th2 Ht2 Hat2. destruct (moved_inv _ _ _ _ _ _ Hm Ht2) as (th3 & Ht3 & _ & E4). rewrite Hat2 in E4. destruct (decide (t2 = t)) as [->|]; [|by apply (Hnc t2 th3)].
        injection E4 as ->. congruence.
      * intros y oy Hy. assert (E4 : pid o' = pid o) by (destruct (created_old _ _ _ _ _ _ _ _ Hcr Ha Ho) as (o2 & ? & ? & _); congruence). rewrite E4.
        destruct (created_new _ _ _ _ _ _ _ _ Hcr Hy) as [[-> ->]|(_ & oy0 & Hy0 & _ & -> & _)]; [|by apply (Hnk y)]. simpl. intros E5.
        apply (Hnt t th Ht). by apply (pid_inj s (proc th) x oq o).
Qed.

(** *** Threads only *)
Lemma tree_same s s' : tree s -> processes s' = processes s -> objects s' = objects s -> pidCounter s' = pidCounter s -> tree s'.
Proof. intros [] Hp Ho Hc. split; rewrite ?Hp, ?Ho, ?Hc; done. Qed.

Lemma waiters_exist s a t : crew s -> t ∈ waiters s a -> is_Some (objects s !! a).
Proof. intros Hc (th' & Ht' & Hat)%elem_of_waiters. destruct (i_for s Hc t th' a Ht' Hat) as (o & _ & Ho & _). by eexists. Qed.

Lemma crew_moved t p th s s' :
  crew s -> objects s' = objects s -> moved t p s s' -> threads s !! t = Some th -> (forall a, at_ th <> WaitFor a) -> p = Running \/ p = WaitAny ->
  (forall t', t' ∈ genericWaiting s' -> (t' ∈ genericWaiting s /\ t' <> t) \/
     (t' = t /\ p = WaitAny /\ (proc th <> kernel -> forall o, objects s !! proc th = Some o -> zombies o = [] /\ childs o <> []))) -> crew s'.
Proof.
  intros Hc Ho Hm Ht Hat Hp Hg.
  assert (Hw : forall x, waiters s' x = waiters s x) by (intros x; apply (moved_same_waiters t p s s' th); naive_solver).
  split; rewrite ?Ho.
  - intros t' th' Ht'. destruct (moved_inv _ _ _ _ _ _ Hm Ht') as (th0 & Ht0 & -> & _). by apply (i_thread s Hc t').
  - intros t1 t2 th1 th2 H1 H2. destruct (moved_inv _ _ _ _ _ _ Hm H1) as (th1' & ? & -> & _), (moved_inv _ _ _ _ _ _ Hm H2) as (th2' & ? & -> & _). by apply (i_single s Hc).
  - intros x o Hx. rewrite Hw. by apply (i_count s Hc).
  - intros x o t' Hx. rewrite Hw. by apply (i_waiting s Hc).
  - intros t' th' x Ht' E. destruct (moved_inv _ _ _ _ _ _ Hm Ht') as (th0 & Ht0 & -> & E'). rewrite E in E'.
    destruct (decide (t' = t)); [by destruct Hp; simplify_eq|]. by apply (i_for s Hc t' th0).
  - intros t' Hin. destruct (Hg t' Hin) as [[Hin' Hne]|(-> & -> & Hcond)].
    + destruct (i_any s Hc t' Hin') as (th' & Ht' & Hrest). exists th'. by rewrite Hm, decide_False.
    + exists (mkThread (proc th) WaitAny). rewrite Hm, decide_True, Ht by done. done.
  - intros t' th' x Ht' E. destruct (moved_inv _ _ _ _ _ _ Hm Ht') as (th0 & Ht0 & -> & E'). rewrite E in E'.
    destruct (decide (t' = t)); [by destruct Hp; simplify_eq|].
    destruct (i_creating s Hc t' th0 x Ht0 (eq_sym E')) as (o & oq & H1 & H2 & H3 & H4 & H5 & H6 & H7 & H8). exists o, oq. split_and!; try done.
    + intros t2 th2 Ht2. destruct (moved_inv _ _ _ _ _ _ Hm Ht2) as (th3 & ? & -> & _). by apply (H6 t2).
    + intros t2 th2 Ht2 E2. destruct (moved_inv _ _ _ _ _ _ Hm Ht2) as (th3 & Ht3 & _ & E4). rewrite E2 in E4.
      destruct (decide (t2 = t)) as [->|]; [by destruct Hp; simplify_eq|by apply (H7 t2 th3)].
Qed.

(** A new thread of the kernel, or the thread of a new process. *)
Lemma crew_spawn s s' thr q oq :
  crew s -> objects s' = objects s -> genericWaiting s' = genericWaiting s -> threads s' = <[thr := mkThread q Running]> (threads s) -> threads s !! thr = None ->
  objects s !! q = Some oq -> zombie oq = false ->
  q = kernel \/ (forall t th, threads s !! t = Some th -> proc th <> q) ->
  (forall t th, threads s !! t = Some th -> at_ th <> Creating q) -> crew s'.
Proof.
  intros Hc Ho Hg Hth Hn Hq Hz Hone Hcr.
  assert (Hold : forall t th, threads s' !! t = Some th -> (t = thr /\ th = mkThread q Running) \/ threads s !! t = Some th).
  { intros t th. rewrite Hth. intros [[<- <-]|[_ Ht]]%lookup_insert_Some; auto. }
  assert (Hnew : forall t th, threads s !! t = Some th -> threads s' !! t = Some th) by (intros t th Ht; rewrite Hth, lookup_insert_ne by congruence; done).
  assert (Hw : forall x, waiters s' x = waiters s x).
  { intros x. apply leibniz_equiv. intros t. rewrite !elem_of_waiters. split; intros (th & Ht & E); exists th; [|auto].
    destruct (Hold t th Ht) as [[-> ->]|?]; [done|auto]. }
  split; rewrite ?Ho, ?Hg.
  - intros t th Ht. destruct (Hold t th Ht) as [[-> ->]|?]; [by exists oq|by apply (i_thread s Hc t)].
  - intros t1 t2 th1 th2 H1 H2 E Hk. destruct (Hold _ _ H1) as [[-> ->]|H1'], (Hold _ _ H2) as [[-> ->]|H2']; simpl in E, Hk.
    + done.
    + destruct Hone as [?|Hone]; [done|]. by destruct (Hone t2 th2).
    + destruct Hone as [?|Hone]; [congruence|]. by destruct (Hone t1 th1).
    + by apply (i_single s Hc t1 t2 th1 th2).
  - intros x o Hx. rewrite Hw. by apply (i_count s Hc).
  - intros x o t' Hx. rewrite Hw. by apply (i_waiting s Hc).
  - intros t th x Ht E. destruct (Hold t th Ht) as [[-> ->]|?]; [done|by apply (i_for s Hc t)].
  - intros t Hin. destruct (i_any s Hc t Hin) as (th & Ht & Hrest). exists th. auto.
  - intros t th x Ht E. destruct (Hold t th Ht) as [[-> ->]|Ht0]; [done|].
    destruct (i_creating s Hc t th x Ht0 E) as (o & oq' & H1 & H2 & H3 & H4 & H5 & H6 & H7 & H8). exists o, oq'. split_and!; try done.
    + intros t2 th2 Ht2. destruct (Hold _ _ Ht2) as [[-> ->]|?]; [|by apply (H6 t2)]. simpl. intros ->. by apply (Hcr t th).
    + intros t2 th2 Ht2 E2. destruct (Hold _ _ Ht2) as [[-> ->]|?]; [done|by apply (H7 t2 th2)].
Qed.

Lemma crew_leave s t th :
  crew s -> threads s !! t = Some th -> at_ th = Running -> crew (set_threads (delete t (threads s)) s).
Proof.
  intros Hc Ht Hrun. set (s' := set_threads (delete t (threads s)) s).
  assert (Hold : forall t' th', threads s' !! t' = Some th' -> threads s !! t' = Some th') by (intros t' th'; simpl; by intros [_ ?]%lookup_delete_Some).
  assert (Hnew : forall t' th', threads s !! t' = Some th' -> at_ th' <> Running -> threads s' !! t' = Some th').
  { intros t' th' Ht' E. simpl. apply lookup_delete_Some. split; [|done]. intros ->. congruence. }
  assert (Hw : forall x, waiters s' x = waiters s x).
  { intros x. apply leibniz_equiv. intros t'. rewrite !elem_of_waiters. split; intros (th' & Ht' & E); exists th'; [auto|]. split; [|done]. apply Hnew; [done|]. by rewrite E. }
  split; simpl objects; simpl genericWaiting.
  - intros t' th' Ht'. apply (i_thread s Hc t'). auto.
  - intros t1 t2 th1 th2 H1 H2. apply (i_single s Hc); auto.
  - intros x o Hx. rewrite Hw. by apply (i_count s Hc).
  - intros x o t' Hx. rewrite Hw. by apply (i_waiting s Hc).
  - intros t' th' x Ht' E. apply (i_for s Hc t'); auto.
  - intros t' Hin. destruct (i_any s Hc t' Hin) as (th' & Ht' & E & Hrest). exists th'. split; [|done]. apply Hnew; [done|]. by rewrite E.
  - intros t' th' x Ht' E. destruct (i_creating s Hc t' th' x ltac:(auto) E) as (o & oq & H1 & H2 & H3 & H4 & H5 & H6 & H7 & H8). exists o, oq. split_and!; eauto.
Qed.

(** *** Waiting for a child *)
Definition rewaited (a : positive) (n : Z) (l : list positive) (s s' : system) : Prop :=
  processes s' = processes s /\ pidCounter s' = pidCounter s /\ genericWaiting s' = genericWaiting s /\
  forall x, objects s' !! x = if decide (x = a) then set_wait n l <$> objects s !! x else objects s !! x.

Lemma rewaited_old a n l s s' x o :
  rewaited a n l s s' -> objects s !! x = Some o ->
  exists o', objects s' !! x = Some o' /\ pid o' = pid o /\ ppid o' = ppid o /\ zombie o' = zombie o /\ zombies o' = zombies o /\ childs o' = childs o /\
    waitCount o' = (if decide (x = a) then n else waitCount o) /\ waiting o' = if decide (x = a) then l else waiting o.
Proof. intros (_ & _ & _ & Ho) Hx. rewrite Ho, Hx. destruct (decide (x = a)); by eexists. Qed.

Lemma rewaited_new a n l s s' x o' :
  rewaited a n l s s' -> objects s' !! x = Some o' ->
  exists o, objects s !! x = Some o /\ pid o' = pid o /\ ppid o' = ppid o /\ zombie o' = zombie o /\ zombies o' = zombies o /\ childs o' = childs o /\
    waitCount o' = (if decide (x = a) then n else waitCount o) /\ waiting o' = if decide (x = a) then l else waiting o.
Proof.
  intros (_ & _ & _ & Ho) Hx. rewrite Ho in Hx. destruct (decide (x = a)); [|by exists o'].
  destruct (objects s !! x) as [o|]; [|done]. injection Hx as <-. by exists o.
Qed.

Lemma rewaited_tree a n l s s' o :
  tree s -> rewaited a n l s s' -> objects s !! a = Some o -> (zombie o = true -> waitCount o <> 0 /\ n <> 0) -> tree s'.
Proof.
  intros Hs Hr Ha Hz. pose proof Hr as (Hp & Hc & _ & _). split; rewrite ?Hp, ?Hc; [by apply Hs|by apply Hs| | | | | | | |].
  - destruct (i_kobj s Hs) as (k & Hk & Hrest). destruct (rewaited_old _ _ _ _ _ _ _ Hr Hk) as (k' & ? & E1 & E2 & E3 & _). exists k'. by rewrite E1, E2, E3.
  - intros p x. rewrite (i_reg s Hs). split; intros (o1 & Hx & <-).
    + destruct (rewaited_old _ _ _ _ _ _ _ Hr Hx) as (o' & ? & ? & _). by exists o'.
    + destruct (rewaited_new _ _ _ _ _ _ _ Hr Hx) as (o' & ? & ? & _). by exists o'.
  - intros x o1 Hx. destruct (rewaited_new _ _ _ _ _ _ _ Hr Hx) as (o2 & ? & -> & -> & _). by apply (i_obj s Hs x).
  - intros x o1 Hx. destruct (rewaited_new _ _ _ _ _ _ _ Hr Hx) as (o2 & Hx2 & _ & -> & _). destruct (i_parent s Hs x o2 Hx2) as (q & oq & Hq & Hoq & Hzq).
    destruct (rewaited_old _ _ _ _ _ _ _ Hr Hoq) as (oq' & ? & _ & _ & E & _). exists q, oq'. by rewrite E.
  - intros x o1 Hx. destruct (rewaited_new _ _ _ _ _ _ _ Hr Hx) as (o2 & ? & _). by apply (i_mem s Hs x o2).
  - intros q oq x Hq. destruct (rewaited_new _ _ _ _ _ _ _ Hr Hq) as (oq0 & Hq0 & -> & _ & _ & _ & -> & _). rewrite (i_childs s Hs q oq0 x Hq0). split.
    + intros (o1 & Hx & Hk & E & Ez). destruct (rewaited_old _ _ _ _ _ _ _ Hr Hx) as (o2 & ? & _ & E2 & E3 & _). exists o2. by rewrite E2, E3.
    + intros (o1 & Hx & Hk & E & Ez). destruct (rewaited_new _ _ _ _ _ _ _ Hr Hx) as (o2 & ? & _ & E2 & E3 & _). exists o2. by rewrite <- E2, <- E3.
  - intros q oq x Hq. destruct (rewaited_new _ _ _ _ _ _ _ Hr Hq) as (oq0 & Hq0 & -> & _ & _ & -> & _). rewrite (i_zombies s Hs q oq0 x Hq0). split.
    + intros (o1 & Hx & E & Ez & Ew). destruct (rewaited_old _ _ _ _ _ _ _ Hr Hx) as (o2 & ? & _ & E2 & E3 & _ & _ & E4 & _). exists o2. rewrite E2, E3, E4.
      destruct (decide (x = a)) as [->|]; [|done]. rewrite Ha in Hx. simplify_eq. by destruct (Hz Ez).
    + intros (o1 & Hx & E & Ez & Ew). destruct (rewaited_new _ _ _ _ _ _ _ Hr Hx) as (o2 & Hx2 & _ & E2 & E3 & _ & _ & E4 & _). exists o2. rewrite <- E2, <- E3.
      rewrite E4 in Ew. destruct (decide (x = a)) as [->|]; [|done]. rewrite Ha in Hx2. simplify_eq. rewrite Ez in E3. by destruct (Hz (eq_sym E3)).
  - intros q oq Hq. destruct (rewaited_new _ _ _ _ _ _ _ Hr Hq) as (oq0 & Hq0 & _ & _ & _ & -> & _). by apply (i_nodup s Hs q).
Qed.

Lemma crew_rewaited t th a n l p o oq s s' :
  crew s -> rewaited a n l s s' -> moved t p s s' -> threads s !! t = Some th -> objects s !! a = Some o -> objects s !! proc th = Some oq ->
  at_ th = Running \/ at_ th = WaitFor a -> p = Running \/ p = WaitFor a -> a <> kernel -> ppid o = pid oq ->
  n = Z.of_nat (size (waiters s' a)) -> (forall t', t' ∈ l <-> zombie o = false /\ t' ∈ waiters s' a) -> crew s'.
Proof.
  intros Hc Hr Hm Ht Ha Hq Hat Hp Hak Epp Hn Hl. pose proof Hr as (_ & _ & Hg & _).
  assert (Hw : forall x, x <> a -> waiters s' x = waiters s x).
  { intros x Hx. apply (moved_same_waiters t p s s' th); [done|done|destruct Hat as [-> | ->]; congruence|destruct Hp as [-> | ->]; congruence]. }
  split.
  - intros t' th' Ht'. destruct (moved_inv _ _ _ _ _ _ Hm Ht') as (th0 & Ht0 & -> & _). destruct (i_thread s Hc t' th0 Ht0) as (o1 & Ho1 & Hz).
    destruct (rewaited_old _ _ _ _ _ _ _ Hr Ho1) as (o2 & ? & _ & _ & E & _). exists o2. by rewrite E.
  - intros t1 t2 th1 th2 H1 H2. destruct (moved_inv _ _ _ _ _ _ Hm H1) as (th1' & ? & -> & _), (moved_inv _ _ _ _ _ _ Hm H2) as (th2' & ? & -> & _). by apply (i_single s Hc).
  - intros x o1 Hx. destruct (rewaited_new _ _ _ _ _ _ _ Hr Hx) as (o2 & Hx2 & _ & _ & _ & _ & _ & -> & _). destruct (decide (x = a)) as [->|]; [done|]. rewrite Hw by done. by apply (i_count s Hc).
  - intros x o1 t' Hx. destruct (rewaited_new _ _ _ _ _ _ _ Hr Hx) as (o2 & Hx2 & _ & _ & -> & _ & _ & _ & ->). destruct (decide (x = a)) as [->|].
    + rewrite Ha in Hx2. simplify_eq. apply Hl.
    + rewrite Hw by done. by apply (i_waiting s Hc).
  - intros t' th' x Ht' E. destruct (moved_inv _ _ _ _ _ _ Hm Ht') as (th0 & Ht0 & -> & E'). rewrite E in E'.
    assert (Hfor : exists o1 oq1, objects s !! x = Some o1 /\ objects s !! proc th0 = Some oq1 /\ x <> kernel /\ ppid o1 = pid oq1).
    { destruct (decide (t' = t)) as [->|]; [|by apply (i_for s Hc t' th0)]. rewrite Ht in Ht0. simplify_eq. destruct Hp; simplify_eq. by exists o, oq. }
    destruct Hfor as (o1 & oq1 & H1 & H2 & H3 & H4).
    destruct (rewaited_old _ _ _ _ _ _ _ Hr H1) as (o2 & ? & _ & E2 & _), (rewaited_old _ _ _ _ _ _ _ Hr H2) as (oq2 & ? & E3 & _). exists o2, oq2. by rewrite E2, E3.
  - intros t' Hin. rewrite Hg in Hin. destruct (i_any s Hc t' Hin) as (th' & Ht' & E & Hno). exists th'. rewrite Hm.
    rewrite decide_False; [|intros ->; destruct Hat; congruence]. split; [done|]. split; [done|]. intros Hk o1 Ho1.
    destruct (rewaited_new _ _ _ _ _ _ _ Hr Ho1) as (o2 & Ho2 & _ & _ & _ & -> & -> & _). by apply Hno.
  - intros t' th' x Ht' E. destruct (moved_inv _ _ _ _ _ _ Hm Ht') as (th0 & Ht0 & -> & E'). rewrite E in E'.
    destruct (decide (t' = t)); [destruct Hp; congruence|].
    destruct (i_creating s Hc t' th0 x Ht0 (eq_sym E')) as (o1 & oq1 & H1 & H2 & H3 & H4 & H5 & H6 & H7 & H8).
    destruct (rewaited_old _ _ _ _ _ _ _ Hr H1) as (o2 & ? & E1 & E2 & Ez & _), (rewaited_old _ _ _ _ _ _ _ Hr H2) as (oq2 & ? & E3 & _). exists o2, oq2.
    rewrite E1, E2, E3, Ez. split_and!; try done.
    + intros t2 th2 Ht2. destruct (moved_inv _ _ _ _ _ _ Hm Ht2) as (th3 & ? & -> & _). by apply (H6 t2).
    + intros t2 th2 Ht2 E4. destruct (moved_inv _ _ _ _ _ _ Hm Ht2) as (th3 & Ht3 & _ & E5). rewrite E4 in E5.
      destruct (decide (t2 = t)) as [->|]; [destruct Hp; congruence|by apply (H7 t2 th3)].
    + intros y oy Hy. destruct (rewaited_new _ _ _ _ _ _ _ Hr Hy) as (oy0 & Hy0 & _ & -> & _). by apply (H8 y).
Qed.

(** *** The removal of a process *)
Definition detach (a : positive) (o : Process) : Process := set_childs (remove a (childs o)) (set_zombies (remove a (zombies o)) o).

Definition removed (a q : positive) (p : Z) (s s' : system) : Prop :=
  processes s' = delete p (processes s) /\ pidCounter s' = pidCounter s /\ genericWaiting s' = genericWaiting s /\
  forall x, objects s' !! x = if decide (x = a) then None else if decide (x = q) then detach a <$> objects s !! x else objects s !! x.

Lemma removed_old a q p s s' x o :
  removed a q p s s' -> objects s !! x = Some o -> x <> a ->
  exists o', objects s' !! x = Some o' /\ pid o' = pid o /\ ppid o' = ppid o /\ zombie o' = zombie o /\ waitCount o' = waitCount o /\ waiting o' = waiting o /\
    zombies o' = (if decide (x = q) then remove a (zombies o) else zombies o) /\ childs o' = if decide (x = q) then remove a (childs o) else childs o.
Proof. intros (_ & _ & _ & Ho) Hx Hne. rewrite Ho, Hx, decide_False by done. destruct (decide (x = q)); by eexists. Qed.

Lemma removed_new a q p s s' x o' :
  removed a q p s s' -> objects s' !! x = Some o' ->
  x <> a /\ exists o, objects s !! x = Some o /\ pid o' = pid o /\ ppid o' = ppid o /\ zombie o' = zombie o /\ waitCount o' = waitCount o /\ waiting o' = waiting o /\
    zombies o' = (if decide (x = q) then remove a (zombies o) else zombies o) /\ childs o' = if decide (x = q) then remove a (childs o) else childs o.
Proof.
  intros (_ & _ & _ & Ho) Hx. rewrite Ho in Hx. destruct (decide (x = a)); [done|]. split; [done|]. destruct (decide (x = q)); [|by exists o'].
  destruct (objects s !! x) as [o|]; [|done]. injection Hx as <-. by exists o.
Qed.

(** [a] is the leaf that is removed, under [q]. *)
Definition leaf (a q : positive) (s : system) : Prop :=
  exists o oq, objects s !! a = Some o /\ objects s !! q = Some oq /\ a <> kernel /\ q <> a /\ ppid o = pid oq /\
    forall x ox, objects s !! x = Some ox -> ppid ox <> pid o.

Lemma removed_tree a q o s s' : tree s -> leaf a q s -> objects s !! a = Some o -> removed a q (pid o) s s' -> tree s'.
Proof.
  intros Hs (o0 & oq & Ha & Hq & Hak & Hqa & Epp & Hleaf) Ha' Hr. rewrite Ha in Ha'. injection Ha' as ->. pose proof Hr as (Hp & Hc & _ & Hob).
  destruct (i_kobj s Hs) as (k & Hk & Hk0 & Hk1 & Hk2).
  assert (Hpne : forall x ox, objects s !! x = Some ox -> x <> a -> pid o <> pid ox) by (intros x ox Hx Hne E; by apply Hne, (pid_inj s x a ox o)).
  assert (Hreg : forall p' x, processes s' !! p' = Some x <-> exists ox, objects s' !! x = Some ox /\ pid ox = p').
  { intros p' x. rewrite Hp, lookup_delete_Some, (i_reg s Hs). split.
    - intros [Hne (ox & Hx & <-)]. assert (x <> a) by congruence. destruct (removed_old _ _ _ _ _ _ _ Hr Hx) as (ox' & ? & ? & _); [done|]. by exists ox'.
    - intros (ox & Hx & <-). destruct (removed_new _ _ _ _ _ _ _ Hr Hx) as (Hne & ox' & Hx' & E & _). rewrite E. split; [by apply (Hpne x)|by exists ox']. }
  split; [by rewrite Hc; apply Hs| | |done| | | | | |].
  - rewrite Hp, lookup_delete_ne; [by apply Hs|]. rewrite <- Hk0. by apply (Hpne kernel).
  - destruct (removed_old _ _ _ _ _ _ _ Hr Hk) as (k' & ? & E1 & E2 & E3 & _); [done|]. exists k'. by rewrite E1, E2, E3.
  - intros x ox Hx. destruct (removed_new _ _ _ _ _ _ _ Hr Hx) as (Hne & ox' & ? & -> & -> & _). by apply (i_obj s Hs x).
  - intros x ox Hx. destruct (removed_new _ _ _ _ _ _ _ Hr Hx) as (Hne & ox' & Hx' & _ & E & _). rewrite E.
    destruct (i_parent s Hs x ox' Hx') as (y & oy & Hy & Hoy & Hz). assert (Hya : y <> a).
    { intros ->. apply (i_reg s Hs) in Hy as (oy' & Hoy' & Ey). rewrite Ha in Hoy'. injection Hoy' as <-. by apply (Hleaf x ox'). }
    destruct (removed_old _ _ _ _ _ _ _ Hr Hoy Hya) as (oy' & ? & _ & _ & Ez & _). exists y, oy'. rewrite Ez. split_and!; try done.
    rewrite Hp. apply lookup_delete_Some. split; [|done]. intros E'. by apply (Hleaf x ox').
  - intros x ox Hx. destruct (removed_new _ _ _ _ _ _ _ Hr Hx) as (Hne & ox' & ? & _). by apply (i_mem s Hs x ox').
  - intros y oy x Hy. destruct (removed_new _ _ _ _ _ _ _ Hr Hy) as (Hya & oy0 & Hy0 & E1 & _ & _ & _ & _ & _ & ->). rewrite E1.
    assert (Hx0 : x ∈ (if decide (y = q) then remove a (childs oy0) else childs oy0) <-> x ∈ childs oy0 /\ x <> a).
    { destruct (decide (y = q)); [by rewrite elem_of_list_remove|]. split; [|by intros []]. intros Hx. split; [done|]. intros ->.
      apply (i_childs s Hs y oy0 a Hy0) in Hx as (o1 & Ho1 & _ & E & _). rewrite Ha in Ho1. injection Ho1 as <-. rewrite Epp in E. by apply (pid_inj s q y oq oy0) in E. }
    rewrite Hx0, (i_childs s Hs y oy0 x Hy0). split.
    + intros [(ox & Hx & Hxk & E & Ez) Hne]. destruct (removed_old _ _ _ _ _ _ _ Hr Hx Hne) as (ox' & ? & _ & E2 & E3 & _). exists ox'. by rewrite E2, E3.
    + intros (ox & Hx & Hxk & E & Ez). destruct (removed_new _ _ _ _ _ _ _ Hr Hx) as (Hne & ox' & ? & _ & E2 & E3 & _). split; [|done]. exists ox'. by rewrite <- E2, <- E3.
  - intros y oy x Hy. destruct (removed_new _ _ _ _ _ _ _ Hr Hy) as (Hya & oy0 & Hy0 & E1 & _ & _ & _ & _ & -> & _). rewrite E1.
    assert (Hx0 : x ∈ (if decide (y = q) then remove a (zombies oy0) else zombies oy0) <-> x ∈ zombies oy0 /\ x <> a).
    { destruct (decide (y = q)); [by rewrite elem_of_list_remove|]. split; [|by intros []]. intros Hx. split; [done|]. intros ->.
      apply (i_zombies s Hs y oy0 a Hy0) in Hx as (o1 & Ho1 & E & _). rewrite Ha in Ho1. injection Ho1 as <-. rewrite Epp in E. by apply (pid_inj s q y oq oy0) in E. }
    rewrite Hx0, (i_zombies s Hs y oy0 x Hy0). split.
    + intros [(ox & Hx & E & Ez & Ew) Hne]. destruct (removed_old _ _ _ _ _ _ _ Hr Hx Hne) as (ox' & ? & _ & E2 & E3 & E4 & _). exists ox'. by rewrite E2, E3, E4.
    + intros (ox & Hx & E & Ez & Ew). destruct (removed_new _ _ _ _ _ _ _ Hr Hx) as (Hne & ox' & ? & _ & E2 & E3 & E4 & _). split; [|done]. exists ox'. by rewrite <- E2, <- E3, <- E4.
  - intros y oy Hy. destruct (removed_new _ _ _ _ _ _ _ Hr Hy) as (Hya & oy0 & Hy0 & _ & _ & _ & _ & _ & -> & _). pose proof (i_nodup s Hs y oy0 Hy0) as Hnd.
    destruct (decide (y = q)); [|done]. by apply NoDup_filter.
Qed.

Lemma removed_crew t th a q o s s' :
  crew s -> leaf a q s -> objects s !! a = Some o -> removed a q (pid o) s s' -> moved t Running s s' -> threads s !! t = Some th -> q = proc th ->
  (forall t' th', threads s !! t' = Some th' -> proc th' <> a) -> (forall t' th', threads s !! t' = Some th' -> at_ th' = WaitFor a \/ at_ th' = Creating a -> t' = t) ->
  at_ th = WaitFor a \/ (forall x, at_ th <> WaitFor x) -> t ∉ genericWaiting s -> crew s'.
Proof.
  intros Hc (o0 & oq & Ha & Hq & Hak & Hqa & Epp & Hleaf) Ha' Hr Hm Ht -> Hnone Honly Hat Hng. rewrite Ha in Ha'. injection Ha' as ->. pose proof Hr as (_ & _ & Hg & _).
  assert (Hw : forall x, x <> a -> waiters s' x = waiters s x).
  { intros x Hx. apply (moved_same_waiters t Running s s' th); [done|done|destruct Hat as [->|]; [congruence|done]|done]. }
  split.
  - intros t' th' Ht'. destruct (moved_inv _ _ _ _ _ _ Hm Ht') as (th0 & Ht0 & -> & _). destruct (i_thread s Hc t' th0 Ht0) as (o1 & Ho1 & Hz).
    destruct (removed_old _ _ _ _ _ _ _ Hr Ho1) as (o2 & ? & _ & _ & E & _); [by apply (Hnone t')|]. exists o2. by rewrite E.
  - intros t1 t2 th1 th2 H1 H2. destruct (moved_inv _ _ _ _ _ _ Hm H1) as (th1' & ? & -> & _), (moved_inv _ _ _ _ _ _ Hm H2) as (th2' & ? & -> & _). by apply (i_single s Hc).
  - intros x o1 Hx. destruct (removed_new _ _ _ _ _ _ _ Hr Hx) as (Hne & o2 & Hx2 & _ & _ & _ & -> & _). rewrite Hw by done. by apply (i_count s Hc).
  - intros x o1 t' Hx. destruct (removed_new _ _ _ _ _ _ _ Hr Hx) as (Hne & o2 & Hx2 & _ & _ & -> & _ & -> & _). rewrite Hw by done. by apply (i_waiting s Hc).
  - intros t' th' x Ht' E. destruct (moved_inv _ _ _ _ _ _ Hm Ht') as (th0 & Ht0 & -> & E'). rewrite E in E'. destruct (decide (t' = t)) as [|Hne]; [done|].
    destruct (i_for s Hc t' th0 x Ht0 (eq_sym E')) as (o1 & oq1 & H1 & H2 & H3 & H4).
    destruct (removed_old _ _ _ _ _ _ _ Hr H1) as (o2 & ? & _ & E2 & _); [intros ->; by apply Hne, (Honly t' th0); auto|].
    destruct (removed_old _ _ _ _ _ _ _ Hr H2) as (oq2 & ? & E3 & _); [by apply (Hnone t')|]. exists o2, oq2. by rewrite E2, E3.
  - intros t' Hin. rewrite Hg in Hin. destruct (i_any s Hc t' Hin) as (th' & Ht' & E & Hno). exists th'. rewrite Hm.
    assert (Hne : t' <> t) by (intros ->; done). rewrite decide_False by done. split; [done|]. split; [done|]. intros Hk o1 Ho1.
    destruct (removed_new _ _ _ _ _ _ _ Hr Ho1) as (_ & o2 & Ho2 & _ & _ & _ & _ & _ & -> & ->).
    rewrite !decide_False by (intros E'; by apply Hne, (i_single s Hc t' t th' th)). by apply Hno.
  - intros t' th' x Ht' E. destruct (moved_inv _ _ _ _ _ _ Hm Ht') as (th0 & Ht0 & -> & E'). rewrite E in E'. destruct (decide (t' = t)) as [|Hne]; [done|].
    destruct (i_creating s Hc t' th0 x Ht0 (eq_sym E')) as (o1 & oq1 & H1 & H2 & H3 & H4 & H5 & H6 & H7 & H8).
    destruct (removed_old _ _ _ _ _ _ _ Hr H1) as (o2 & ? & E1 & E2 & Ez & _); [intros ->; by apply Hne, (Honly t' th0); auto|].
    destruct (removed_old _ _ _ _ _ _ _ Hr H2) as (oq2 & ? & E3 & _); [by apply (Hnone t')|]. exists o2, oq2. rewrite E1, E2, E3, Ez. split_and!; try done.
    + intros t2 th2 Ht2. destruct (moved_inv _ _ _ _ _ _ Hm Ht2) as (th3 & ? & -> & _). by apply (H6 t2).
    + intros t2 th2 Ht2 E4. destruct (moved_inv _ _ _ _ _ _ Hm Ht2) as (th3 & Ht3 & _ & E5). rewrite E4 in E5. destruct (decide (t2 = t)); [done|by apply (H7 t2 th3)].
    + intros y oy Hy. destruct (removed_new _ _ _ _ _ _ _ Hr Hy) as (_ & oy0 & Hy0 & _ & -> & _). by apply (H8 y).
Qed.

(** *** The end of a process *)
Definition adopt (cs zs : list positive) (k : Process) : Process := set_zombies (zs ++ zombies k) (set_childs (cs ++ childs k) k).
Definition bury (a : positive) (w : bool) (q : Process) : Process :=
  set_zombies (if w then zombies q else zombies q ++ [a]) (set_childs (remove a (childs q)) q).

(** What becomes of the object at [x]; [o] is the one at [a], which ends. *)
Definition final (a q : positive) (o : Process) (w : bool) (code : Z) (x : positive) (ox : Process) : Process :=
  if decide (x = a) then mkProcess (pid o) (ppid o) [] [] (waitCount o) (if w then [] else waiting o) true code
  else
    let ox := if decide (x ∈ childs o ++ zombies o) then set_pids (pid ox) 0 ox else ox in
    let ox := if decide (x = kernel) then adopt (childs o) (zombies o) ox else ox in
    if decide (x = q) then bury a w ox else ox.

Definition finished (a q : positive) (o : Process) (w : bool) (code : Z) (s s' : system) : Prop :=
  processes s' = processes s /\ pidCounter s' = pidCounter s /\ genericWaiting s' = (if w then genericWaiting s else []) /\
  forall x, objects s' !! x = final a q o w code x <$> objects s !! x.

Lemma objects_orphans l s x : objects (orphans l s) !! x = (fun o => if decide (x ∈ l) then set_pids (pid o) 0 o else o) <$> objects s !! x.
Proof. unfold orphans. simpl. rewrite map_lookup_imap. by destruct (objects s !! x). Qed.

Lemma is_Some_upd a f s x : is_Some (objects s !! x) -> is_Some (objects (upd a f s) !! x).
Proof. rewrite objects_upd. destruct (decide (x = a)); [|done]. intros [o ->]. by eexists. Qed.
Lemma is_Some_orphans l s x : is_Some (objects s !! x) -> is_Some (objects (orphans l s) !! x).
Proof. rewrite objects_orphans. intros [o ->]. by eexists. Qed.

Lemma finish_spec s t th code :
  tree s -> crew s -> threads s !! t = Some th -> proc th <> kernel ->
  exists o q s', finish t code s = Done s' /\ objects s !! proc th = Some o /\ processes s !! ppid o = Some q /\ q <> proc th /\
    finished (proc th) q o (0 <? waitCount o) code s s' /\ threads s' = delete t (threads s).
Proof.
  intros Hs Hc Ht Hk. set (a := proc th) in *. destruct (i_thread s Hc t th Ht) as (o & Ho & Hz). fold a in Ho. destruct (i_parent s Hs a o Ho) as (q & oq & Hq & Hoq & _).
  destruct (i_kobj s Hs) as (k & Hkk & _). destruct (i_obj s Hs a o Ho Hk) as [_ Hpp].
  assert (Hqa : q <> a). { intros E. rewrite E in Hq. apply (i_reg s Hs) in Hq as (o' & Ho' & E'). congruence. }
  assert (Hch : forall x, x ∈ childs o -> is_Some (objects s !! x) /\ x <> a /\ x <> kernel).
  { intros x (ox & Hx & Hxk & E & _)%(i_childs s Hs a o x Ho). split; [by eexists|]. split; [|done]. intros ->. congruence. }
  assert (Hzm : forall x, x ∈ zombies o -> is_Some (objects s !! x) /\ x <> a).
  { intros x (ox & Hx & E & Ezx & _)%(i_zombies s Hs a o x Ho). split; [by eexists|]. intros ->. congruence. }
  exists o, q. unfold finish, getCurrent. rewrite Ht. cbn [mbind outcome_bind deref]. fold a.
  rewrite update_in by (by eexists). cbn [mbind outcome_bind]. unfold object. rewrite objects_upd, decide_True, Ho by done. cbn [mbind outcome_bind deref fmap option_fmap option_map].
  simpl childs. simpl zombies.
  rewrite orphan_in by (intros x Hx; apply is_Some_upd, Hch, Hx). cbn [mbind outcome_bind].
  rewrite orphan_in by (intros x Hx; apply is_Some_orphans, is_Some_upd, Hzm, Hx). cbn [mbind outcome_bind].
  simpl processes. rewrite (i_kernel s Hs). cbn [mbind outcome_bind deref].
  rewrite update_in by (apply is_Some_orphans, is_Some_orphans, is_Some_upd; by eexists). cbn [mbind outcome_bind].
  rewrite update_in by (apply is_Some_upd, is_Some_orphans, is_Some_orphans, is_Some_upd; by eexists). cbn [mbind outcome_bind].
  rewrite update_in by (do 2 apply is_Some_upd; do 2 apply is_Some_orphans; apply is_Some_upd; by eexists). cbn [mbind outcome_bind].
  rewrite update_in by (do 3 apply is_Some_upd; do 2 apply is_Some_orphans; apply is_Some_upd; by eexists). cbn [mbind outcome_bind].
  match goal with |- context [objects ?st !! a] => set (s1 := st) end.
  assert (Hs1 : forall x, objects s1 !! x = (fun ox =>
     if decide (x = a) then mkProcess (pid o) (ppid o) [] [] (waitCount o) (waiting o) true code
     else let ox := if decide (x ∈ childs o ++ zombies o) then set_pids (pid ox) 0 ox else ox in
          if decide (x = kernel) then adopt (childs o) (zombies o) ox else ox) <$> objects s !! x).
  { intros x. subst s1. rewrite !objects_upd, !objects_orphans, objects_upd. destruct (decide (x = a)) as [->|Hx].
    - rewrite Ho, !(decide_False (P := a = kernel)) by done. simpl.
      rewrite (decide_False (P := a ∈ zombies o)) by (by intros [_ ?]%Hzm). rewrite (decide_False (P := a ∈ childs o)) by (by intros [_ [? _]]%Hch). done.
    - destruct (objects s !! x) as [ox|]; [|by destruct (decide (x = kernel))]. simpl.
      assert (Hd : (if decide (x ∈ childs o ++ zombies o) then set_pids (pid ox) 0 ox else ox) =
        (let o1 := if decide (x ∈ childs o) then set_pids (pid ox) 0 ox else ox in if decide (x ∈ zombies o) then set_pids (pid o1) 0 o1 else o1)).
      { destruct (decide (x ∈ childs o)), (decide (x ∈ zombies o)), (decide (x ∈ childs o ++ zombies o)) as [H|H]; rewrite ?elem_of_app in H; try done; naive_solver. }
      rewrite Hd. by destruct (decide (x = kernel)). }
  rewrite Hs1, Ho. simpl fmap. rewrite decide_True by done. cbn [mbind outcome_bind deref]. simpl ppid. simpl waitCount.
  change (processes s1) with (processes s). rewrite Hq.
  assert (Hq1 : is_Some (objects s1 !! q)) by (rewrite Hs1, Hoq; by eexists). assert (Ha1 : is_Some (objects s1 !! a)) by (rewrite Hs1, Ho; by eexists).
  rewrite update_in by done. cbn [mbind outcome_bind]. destruct (0 <? waitCount o) eqn:Ew.
  - rewrite update_in by (by apply is_Some_upd). cbn [mbind outcome_bind]. eexists. split; [reflexivity|]. split_and!; try done.
    split_and!; try done. intros x. cbn [objects set_threads set_generic]. rewrite objects_upd, objects_upd, Hs1. unfold final. destruct (decide (x = a)) as [->|].
    + by rewrite (decide_False (P := a = q)), Ho by done.
    + destruct (objects s !! x); simpl; by destruct (decide (x = q)).
  - rewrite update_in by (by apply is_Some_upd). cbn [mbind outcome_bind]. eexists. split; [reflexivity|]. split_and!; try done.
    split_and!; try done. intros x. cbn [objects set_threads set_generic]. rewrite objects_upd, objects_upd, Hs1. unfold final. destruct (decide (x = a)) as [->|].
    + by rewrite !(decide_False (P := a = q)), Ho by done.
    + destruct (objects s !! x); simpl; by destruct (decide (x = q)).
Qed.

(** The fields of the object at [x] afterwards. *)
Record changed (a q : positive) (o : Process) (w : bool) (code : Z) (x : positive) (ox ox' : Process) : Prop := {
  ch_pid : pid ox' = pid ox;
  ch_ppid : ppid ox' = if decide (ppid ox = pid o) then 0 else ppid ox;
  ch_zombie : zombie ox' = if decide (x = a) then true else zombie ox;
  ch_count : waitCount ox' = waitCount ox;
  ch_waiting : waiting ox' = if decide (x = a) then if w then [] else waiting o else waiting ox;
  ch_code : exitCode ox' = if decide (x = a) then code else exitCode ox;
  ch_childs y : y ∈ childs ox' <-> x <> a /\ (y ∈ childs ox \/ (x = kernel /\ y ∈ childs o)) /\ ~ (x = q /\ y = a);
  ch_zombies : zombies ox' =
    if decide (x = a) then []
    else (if decide (x = kernel) then zombies o else []) ++ zombies ox ++ (if decide (x = q) then if w then [] else [a] else []);
}.

(** The thread that ends is the only one of its process. *)
Definition ending (t a : positive) (th : thread) (o : Process) (s : system) : Prop :=
  threads s !! t = Some th /\ proc th = a /\ at_ th = Running /\ a <> kernel /\ objects s !! a = Some o.

Lemma only_thread s t a th o t' th' : crew s -> ending t a th o s -> threads s !! t' = Some th' -> proc th' = a -> t' = t.
Proof. intros Hc (Ht & <- & _ & Hk & _) Ht' E. apply (i_single s Hc t' t th' th); congruence. Qed.

Lemma kids_unwatched s t a th o x t' : tree s -> crew s -> ending t a th o s -> (exists ox, objects s !! x = Some ox /\ ppid ox = pid o) -> t' ∉ waiters s x.
Proof.
  intros Hs Hc He (ox & Hx & E) (th' & Ht' & Hat)%elem_of_waiters. destruct (i_for s Hc t' th' x Ht' Hat) as (ox' & oq & Hx' & Hoq & _ & E').
  assert (t' = t) as ->; [|destruct He as (Ht & _ & Hrun & _); congruence].
  apply (only_thread s t a th o t' th' Hc He Ht'). apply (pid_inj s _ _ oq o Hs Hoq); [apply He|congruence].
Qed.

Lemma elem_of_kids s t a th o x : tree s -> crew s -> ending t a th o s -> x ∈ childs o ++ zombies o <-> exists ox, objects s !! x = Some ox /\ ppid ox = pid o.
Proof.
  intros Hs Hc He. pose proof He as (_ & _ & _ & Hk & Ho). rewrite elem_of_app, (i_childs s Hs a o x Ho), (i_zombies s Hs a o x Ho). split; [naive_solver|].
  intros (ox & Hx & E). destruct (zombie ox) eqn:Ez.
  - right. exists ox. split_and!; try done. rewrite (i_count s Hc x ox Hx). assert (waiters s x = ∅) as ->; [|done].
    apply leibniz_equiv. intros t'. split; [|set_solver]. intros Hw. exfalso. apply (kids_unwatched s t a th o x t' Hs Hc He); [by exists ox|done].
  - left. exists ox. split_and!; try done. intros ->. destruct (i_kobj s Hs) as (k & Hkk & _ & E0 & _). destruct (i_obj s Hs a o Ho Hk). simplify_eq. lia.
Qed.

Lemma final_changed s t a th o q w code x ox :
  tree s -> crew s -> ending t a th o s -> q <> a -> objects s !! x = Some ox -> changed a q o w code x ox (final a q o w code x ox).
Proof.
  intros Hs Hc He Hqa Hx. pose proof (elem_of_kids s t a th o x Hs Hc He) as Hkids. pose proof He as (_ & _ & _ & Hk & Ho).
  assert (Hpp : x ∈ childs o ++ zombies o <-> ppid ox = pid o) by (rewrite Hkids; naive_solver).
  unfold final. destruct (decide (x = a)) as [->|Hxa].
  - assert (ox = o) as -> by congruence. destruct (i_obj s Hs a o Ho Hk) as [_ Hne].
    split; simpl; rewrite ?(decide_True (P := a = a)) by done; try done; [by rewrite decide_False|]. set_solver.
  - set (o1 := if decide (x ∈ childs o ++ zombies o) then _ else ox).
    assert (H1 : pid o1 = pid ox /\ ppid o1 = (if decide (ppid ox = pid o) then 0 else ppid ox) /\ zombie o1 = zombie ox /\ waitCount o1 = waitCount ox /\
      waiting o1 = waiting ox /\ exitCode o1 = exitCode ox /\ childs o1 = childs ox /\ zombies o1 = zombies ox).
    { subst o1. destruct (decide (x ∈ _)) as [H|H]; rewrite Hpp in H; destruct (decide (ppid ox = pid o)); done. }
    clearbody o1. destruct H1 as (E1 & E2 & E3 & E4 & E5 & E6 & E7 & E8).
    split; destruct (decide (x = kernel)), (decide (x = q)); simpl;
      rewrite ?E1, ?E2, ?E3, ?E4, ?E5, ?E6, ?E7, ?E8, ?(decide_False (P := x = a)), ?app_nil_r by done; try done;
      try (intros y; rewrite ?elem_of_list_remove, ?elem_of_app; naive_solver).
    + destruct w; [by rewrite app_nil_r|]. by rewrite <- !app_assoc.
    + by destruct w; rewrite ?app_nil_r.
Qed.

Section finished.
Context (s s' : system) (t a q : positive) (th : thread) (o oq : Process) (code : Z).
Context (Hs : tree s) (Hc : crew s) (He : ending t a th o s) (Hoq : objects s !! q = Some oq) (Hq : pid oq = ppid o) (Hqa : q <> a).
Let w := 0 <? waitCount o.
Context (Hf : finished a q o w code s s') (Hth : threads s' = delete t (threads s)).

Lemma finished_old x ox : objects s !! x = Some ox -> exists ox', objects s' !! x = Some ox' /\ changed a q o w code x ox ox'.
Proof. intros Hx. destruct Hf as (_ & _ & _ & Hob). rewrite Hob, Hx. eexists. split; [reflexivity|]. by apply (final_changed s t a th). Qed.

Lemma finished_new x ox' : objects s' !! x = Some ox' -> exists ox, objects s !! x = Some ox /\ changed a q o w code x ox ox'.
Proof.
  intros Hx. pose proof Hf as (_ & _ & _ & Hob). rewrite Hob in Hx. destruct (objects s !! x) as [ox|] eqn:E; [|done]. injection Hx as <-.
  exists ox. split; [done|]. by apply (final_changed s t a th).
Qed.

Lemma ending_object : a <> kernel /\ objects s !! a = Some o /\ zombie o = false /\ 0 < pid o /\ ppid o <> pid o.
Proof.
  pose proof He as (Ht & Ha & _ & Hk & Ho). split; [done|]. split; [done|]. split; [|by apply (i_obj s Hs a)].
  destruct (i_thread s Hc t th Ht) as (o' & Ho' & Hz). congruence.
Qed.

Lemma same_pid x ox : objects s !! x = Some ox -> pid ox = pid o -> x = a.
Proof. intros Hx E. apply (pid_inj s x a ox o); try done. apply ending_object. Qed.

Lemma same_ppid x ox : objects s !! x = Some ox -> pid ox = ppid o -> x = q.
Proof. intros Hx E. apply (pid_inj s x q ox oq); try done. congruence. Qed.

Lemma finished_childs x ox' y : objects s' !! x = Some ox' ->
  (y ∈ childs ox' <-> exists oy, objects s' !! y = Some oy /\ y <> kernel /\ ppid oy = pid ox' /\ zombie oy = false).
Proof.
  intros Hx. destruct (finished_new x ox' Hx) as (ox & Hx0 & Hch). rewrite (ch_childs _ _ _ _ _ _ _ _ Hch), (ch_pid _ _ _ _ _ _ _ _ Hch).
  destruct ending_object as (Hak & Ho & Hz & Hpos & Hself). destruct (i_kobj s Hs) as (k & Hk & Hk0 & _). rewrite (i_childs s Hs x ox y Hx0). split.
  - intros (Hxa & Hin & Hnot). assert (Hy : exists oy, objects s !! y = Some oy /\ y <> kernel /\ zombie oy = false /\ (if decide (ppid oy = pid o) then 0 else ppid oy) = pid ox).
    { destruct Hin as [(oy & Hy & Hyk & E & Ez)|[-> Hy]].
      - exists oy. split_and!; try done. rewrite decide_False; [done|]. intros E'. apply Hxa, (same_pid x ox); congruence.
      - apply (i_childs s Hs a o y Ho) in Hy as (oy & Hy & Hyk & E & Ez). exists oy. rewrite decide_True by done. split_and!; congruence. }
    destruct Hy as (oy & Hy & Hyk & Ez & E). destruct (finished_old y oy Hy) as (oy' & Hy' & Hchy). exists oy'. rewrite (ch_ppid _ _ _ _ _ _ _ _ Hchy), (ch_zombie _ _ _ _ _ _ _ _ Hchy).
    split_and!; try done. rewrite decide_False; [done|]. intros ->. apply Hnot. split; [|done]. apply (same_ppid x ox Hx0). rewrite Ho in Hy. injection Hy as <-.
    rewrite decide_False in E; done.
  - intros (oy' & Hy' & Hyk & E & Ez). destruct (finished_new y oy' Hy') as (oy & Hy & Hchy). rewrite (ch_ppid _ _ _ _ _ _ _ _ Hchy) in E. rewrite (ch_zombie _ _ _ _ _ _ _ _ Hchy) in Ez.
    destruct (decide (y = a)) as [|Hya]; [done|]. destruct (decide (ppid oy = pid o)) as [Ep|Ep].
    + assert (x = kernel) as -> by (apply (pid_inj s x kernel ox k); congruence). split; [done|]. split; [|naive_solver]. right. split; [done|].
      apply (i_childs s Hs a o y Ho). by exists oy.
    + split; [intros ->; congruence|]. split; [|naive_solver]. left. by exists oy.
Qed.

Lemma elem_of_final_zombies x ox ox' y : changed a q o w code x ox ox' ->
  y ∈ zombies ox' <-> x <> a /\ ((x = kernel /\ y ∈ zombies o) \/ y ∈ zombies ox \/ (x = q /\ w = false /\ y = a)).
Proof.
  intros Hch. rewrite (ch_zombies _ _ _ _ _ _ _ _ Hch). destruct (decide (x = a)); [set_solver|]. rewrite !elem_of_app.
  destruct (decide (x = kernel)), (decide (x = q)), w; set_solver.
Qed.

Lemma finished_zombies x ox' y : objects s' !! x = Some ox' ->
  (y ∈ zombies ox' <-> exists oy, objects s' !! y = Some oy /\ ppid oy = pid ox' /\ zombie oy = true /\ waitCount oy = 0).
Proof.
  intros Hx. destruct (finished_new x ox' Hx) as (ox & Hx0 & Hch). rewrite (elem_of_final_zombies x ox ox' y Hch), (ch_pid _ _ _ _ _ _ _ _ Hch).
  destruct ending_object as (Hak & Ho & Hz & Hpos & Hself). destruct (i_kobj s Hs) as (k & Hk & Hk0 & _). rewrite (i_zombies s Hs x ox y Hx0). split.
  - intros (Hxa & Hin). assert (Hy : exists oy, objects s !! y = Some oy /\ (if decide (y = a) then true else zombie oy) = true /\ waitCount oy = 0 /\
      (if decide (ppid oy = pid o) then 0 else ppid oy) = pid ox).
    { destruct Hin as [[-> Hy]|[(oy & Hy & E & Ez & Ew)|(-> & Ew & ->)]].
      - apply (i_zombies s Hs a o y Ho) in Hy as (oy & Hy & E & Ez & Ew). exists oy. rewrite (decide_True (P := ppid oy = pid o)) by done. split_and!; try congruence. by destruct (decide (y = a)).
      - exists oy. split_and!; try done; [by destruct (decide (y = a))|]. rewrite decide_False; [done|]. intros E'. apply Hxa, (same_pid x ox); congruence.
      - exists o. rewrite decide_True, decide_False by done. split_and!; try done; try congruence.
        subst w. pose proof (i_count s Hc a o Ho). apply Z.ltb_ge in Ew. lia. }
    destruct Hy as (oy & Hy & Ez & Ew & E). destruct (finished_old y oy Hy) as (oy' & Hy' & Hchy). exists oy'.
    rewrite (ch_ppid _ _ _ _ _ _ _ _ Hchy), (ch_zombie _ _ _ _ _ _ _ _ Hchy), (ch_count _ _ _ _ _ _ _ _ Hchy). done.
  - intros (oy' & Hy' & E & Ez & Ew). destruct (finished_new y oy' Hy') as (oy & Hy & Hchy).
    rewrite (ch_ppid _ _ _ _ _ _ _ _ Hchy) in E. rewrite (ch_zombie _ _ _ _ _ _ _ _ Hchy) in Ez. rewrite (ch_count _ _ _ _ _ _ _ _ Hchy) in Ew.
    destruct (decide (y = a)) as [->|Hya].
    + rewrite Ho in Hy. injection Hy as <-. rewrite decide_False in E by done. assert (x = q) as -> by (by apply (same_ppid x ox)).
      split; [done|]. right. right. split_and!; try done. subst w. by rewrite Ew.
    + destruct (decide (ppid oy = pid o)) as [Ep|Ep].
      * assert (x = kernel) as -> by (apply (pid_inj s x kernel ox k); congruence). split; [done|]. left. split; [done|]. apply (i_zombies s Hs a o y Ho). by exists oy.
      * split; [intros ->; congruence|]. right. left. by exists oy.
Qed.

Lemma finished_nodup x ox' : objects s' !! x = Some ox' -> NoDup (zombies ox').
Proof.
  intros Hx. destruct (finished_new x ox' Hx) as (ox & Hx0 & Hch). destruct ending_object as (Hak & Ho & Hz & Hpos & Hself). destruct (i_kobj s Hs) as (k & Hk & Hk0 & _).
  rewrite (ch_zombies _ _ _ _ _ _ _ _ Hch). destruct (decide (x = a)) as [|Hxa]; [constructor|].
  assert (Hna : forall z oz, objects s !! z = Some oz -> a ∉ zombies oz) by (intros z oz Hoz (o1 & ? & _ & ? & _)%(i_zombies s Hs z oz a Hoz); congruence).
  assert (Hdis : forall y, x = kernel -> y ∈ zombies o -> y ∉ zombies ox).
  { intros y -> (oy & Hy & E & _)%(i_zombies s Hs a o y Ho) (oy' & Hy' & E' & _)%(i_zombies s Hs kernel ox y Hx0). rewrite Hk in Hx0. simplify_eq. lia. }
  set (l3 := if decide (x = q) then if w then [] else [a] else []).
  assert (H3 : forall y, y ∈ l3 -> y = a) by (intros y; subst l3; destruct (decide (x = q)), w; rewrite ?list_elem_of_singleton; try done; by intros ?%elem_of_nil).
  assert (Hnd3 : NoDup l3) by (subst l3; destruct (decide (x = q)), w; try apply NoDup_singleton; constructor). clearbody l3.
  apply NoDup_app. split; [destruct (decide (x = kernel)); [by apply (i_nodup s Hs a)|constructor]|]. split.
  - intros y Hy. destruct (decide (x = kernel)) as [E|]; [|by apply elem_of_nil in Hy]. rewrite elem_of_app. intros [?|Hya%H3]; [by apply (Hdis y)|].
    subst y. by apply (Hna a o).
  - apply NoDup_app. split; [by apply (i_nodup s Hs x)|]. split; [|done]. intros y Hy Hya%H3. subst y. by apply (Hna x ox).
Qed.

Lemma finished_tree : tree s'.
Proof.
  destruct ending_object as (Hak & Ho & Hz & Hpos & Hself). destruct (i_kobj s Hs) as (k & Hk & Hk0 & Hk1 & Hk2). pose proof Hf as (Hp & Hcnt & _ & _).
  destruct (finished_old kernel k Hk) as (k' & Hk' & Hchk).
  assert (Hkz : zombie k' = false) by (by rewrite (ch_zombie _ _ _ _ _ _ _ _ Hchk), decide_False).
  split; rewrite ?Hp, ?Hcnt; try (by apply Hs); try (intros ???; by apply finished_childs || by apply finished_zombies).
  - exists k'. split; [done|]. rewrite (ch_pid _ _ _ _ _ _ _ _ Hchk), (ch_ppid _ _ _ _ _ _ _ _ Hchk), Hk1, decide_False by lia. done.
  - intros p x. rewrite (i_reg s Hs). split; intros (ox & Hx & <-).
    + destruct (finished_old x ox Hx) as (ox' & Hx' & Hch). exists ox'. by rewrite (ch_pid _ _ _ _ _ _ _ _ Hch).
    + destruct (finished_new x ox Hx) as (ox' & Hx' & Hch). exists ox'. by rewrite (ch_pid _ _ _ _ _ _ _ _ Hch).
  - intros x ox' Hx Hxk. destruct (finished_new x ox' Hx) as (ox & Hx0 & Hch). destruct (i_obj s Hs x ox Hx0 Hxk).
    rewrite (ch_pid _ _ _ _ _ _ _ _ Hch), (ch_ppid _ _ _ _ _ _ _ _ Hch). split; [done|]. destruct (decide _); [lia|done].
  - intros x ox' Hx. destruct (finished_new x ox' Hx) as (ox & Hx0 & Hch). rewrite (ch_ppid _ _ _ _ _ _ _ _ Hch). destruct (decide (ppid ox = pid o)) as [E|E].
    + exists kernel, k'. split; [by apply i_kernel|done].
    + destruct (i_parent s Hs x ox Hx0) as (y & oy & Hy & Hoy & Hzy). destruct (finished_old y oy Hoy) as (oy' & Hy' & Hchy). exists y, oy'.
      split; [done|]. split; [done|]. rewrite (ch_zombie _ _ _ _ _ _ _ _ Hchy), decide_False; [done|]. intros ->.
      apply (i_reg s Hs) in Hy as (oy2 & Hoy2 & Ey). congruence.
  - intros x ox' Hx. destruct (finished_new x ox' Hx) as (ox & Hx0 & Hch). by apply (i_mem s Hs x ox).
  - apply finished_nodup.
Qed.

Lemma finished_threads t' th' : threads s' !! t' = Some th' -> t' <> t /\ threads s !! t' = Some th' /\ proc th' <> a.
Proof.
  rewrite Hth. intros [Hne Ht']%lookup_delete_Some. split; [congruence|]. split; [done|]. intros E. apply Hne. symmetry. by apply (only_thread s t a th o t' th').
Qed.

Lemma finished_waiters x : waiters s' x = waiters s x.
Proof.
  apply leibniz_equiv. intros t'. rewrite !elem_of_waiters. split; intros (th' & Ht' & E).
  - apply finished_threads in Ht' as (_ & ? & _). by exists th'.
  - exists th'. split; [|done]. rewrite Hth. apply lookup_delete_Some. split; [|done]. intros ->. destruct He as (Ht & _ & Hrun & _). congruence.
Qed.

(** A thread that waits for any child sees no change, if its process has a
    thread that waits for the one that ends. *)
Lemma finished_any t' th' : w = true -> threads s !! t' = Some th' -> at_ th' = WaitAny -> proc th' <> kernel -> proc th' <> a /\ proc th' <> q.
Proof.
  intros Hw Ht' Hat Hk. destruct ending_object as (Hak & Ho & _). split.
  - intros E. assert (t' = t) as -> by (by apply (only_thread s t a th o t' th')). destruct He as (Ht & _ & Hrun & _). congruence.
  - intros E. subst w. apply Z.ltb_lt in Hw. rewrite (i_count s Hc a o Ho) in Hw.
    destruct (set_choose_L (waiters s a)) as (t2 & Hin); [intros E'; rewrite E', size_empty in Hw; lia|].
    apply elem_of_waiters in Hin as (th2 & Ht2 & Hat2). destruct (i_for s Hc t2 th2 a Ht2 Hat2) as (o1 & oq1 & Ho1 & Hoq1 & _ & Ep).
    assert (Eq : proc th2 = q) by (apply (same_ppid (proc th2) oq1 Hoq1); congruence).
    assert (t' = t2) as -> by (apply (i_single s Hc t' t2 th' th2); congruence). congruence.
Qed.

Lemma finished_crew : crew s'.
Proof.
  destruct ending_object as (Hak & Ho & Hz & Hpos & Hself). pose proof Hf as (_ & _ & Hg & _). split.
  - intros t' th' (Hne & Ht' & Hna)%finished_threads. destruct (i_thread s Hc t' th' Ht') as (o1 & Ho1 & Hz1).
    destruct (finished_old _ o1 Ho1) as (o2 & Ho2 & Hch). exists o2. by rewrite (ch_zombie _ _ _ _ _ _ _ _ Hch), decide_False.
  - intros t1 t2 th1 th2 (_ & H1 & _)%finished_threads (_ & H2 & _)%finished_threads. by apply (i_single s Hc).
  - intros x ox' Hx. destruct (finished_new x ox' Hx) as (ox & Hx0 & Hch). rewrite (ch_count _ _ _ _ _ _ _ _ Hch), finished_waiters. by apply (i_count s Hc).
  - intros x ox' t' Hx. destruct (finished_new x ox' Hx) as (ox & Hx0 & Hch). rewrite (ch_waiting _ _ _ _ _ _ _ _ Hch), (ch_zombie _ _ _ _ _ _ _ _ Hch), finished_waiters.
    destruct (decide (x = a)) as [->|]; [|by apply (i_waiting s Hc)]. split; [|by intros []]. intros Hin. exfalso.
    destruct w eqn:Ew; [by apply elem_of_nil in Hin|]. apply (i_waiting s Hc a o t' Ho) in Hin as [_ Hin].
    subst w. apply Z.ltb_ge in Ew. rewrite (i_count s Hc a o Ho) in Ew. assert (size (waiters s a) = 0%nat) as E by lia. apply size_empty_inv in E. set_solver.
  - intros t' th' x (Hne & Ht' & Hna)%finished_threads E. destruct (i_for s Hc t' th' x Ht' E) as (o1 & oq1 & H1 & H2 & H3 & H4).
    destruct (finished_old _ o1 H1) as (o2 & Ho2 & Hch), (finished_old _ oq1 H2) as (oq2 & Hoq2 & Hchq). exists o2, oq2.
    rewrite (ch_ppid _ _ _ _ _ _ _ _ Hch), (ch_pid _ _ _ _ _ _ _ _ Hchq). split_and!; try done. rewrite decide_False; [done|]. intros Ep.
    apply Hna, (same_pid _ oq1 H2). congruence.
  - intros t' Hin. rewrite Hg in Hin. assert (Ew : w = true) by (clear -Hin; destruct w; [done|by apply elem_of_nil in Hin]).
    rewrite Ew in Hin. destruct (i_any s Hc t' Hin) as (th' & Ht' & E & Hno). exists th'.
    split. { rewrite Hth. apply lookup_delete_Some. split; [|done]. intros ->. destruct He as (Ht & _ & Hrun & _). congruence. }
    split; [done|]. intros Hk ox' Hx. destruct (finished_new _ ox' Hx) as (ox & Hx0 & Hch). destruct (Hno Hk ox Hx0) as [Hzo Hcho].
    destruct (finished_any t' th' Ew Ht' E Hk) as [Hna Hnq]. rewrite (ch_zombies _ _ _ _ _ _ _ _ Hch), !decide_False, Hzo by done. split; [done|].
    destruct (childs ox) as [|y l] eqn:El; [done|]. intros E'. apply (not_elem_of_nil y). rewrite <- E'. apply (ch_childs _ _ _ _ _ _ _ _ Hch). rewrite El. set_solver.
  - intros t' th' x (Hne & Ht' & Hna)%finished_threads E. destruct (i_creating s Hc t' th' x Ht' E) as (o1 & oq1 & H1 & H2 & H3 & H4 & H5 & H6 & H7 & H8).
    destruct (finished_old _ o1 H1) as (o2 & Ho2 & Hch), (finished_old _ oq1 H2) as (oq2 & Hoq2 & Hchq). exists o2, oq2.
    rewrite (ch_ppid _ _ _ _ _ _ _ _ Hch), (ch_pid _ _ _ _ _ _ _ _ Hchq), (ch_zombie _ _ _ _ _ _ _ _ Hch). split_and!; try done.
    + rewrite decide_False; [done|]. intros Ep. apply Hna, (same_pid _ oq1 H2). congruence.
    + rewrite decide_False; [done|]. intros ->. destruct He as (Ht & Ea & _). by apply (H6 t th).
    + intros t2 th2 (_ & Ht2 & _)%finished_threads. by apply (H6 t2).
    + intros t2 th2 (_ & Ht2 & _)%finished_threads. by apply (H7 t2).
    + intros y oy Hy. destruct (finished_new y oy Hy) as (oy0 & Hy0 & Hchy). rewrite (ch_ppid _ _ _ _ _ _ _ _ Hchy), (ch_pid _ _ _ _ _ _ _ _ Hch).
      destruct (i_obj s Hs x o1 H1 H3). destruct (decide _); [lia|by apply (H8 y)].
Qed.

End finished.

(** ** The table *)
Lemma abs_lookup s p : abs s !! p = processes s !! p ≫= fun a => entry_of <$> objects s !! a.
Proof. unfold abs. by rewrite lookup_omap. Qed.

Lemma abs_object s a o : tree s -> objects s !! a = Some o -> abs s !! pid o = Some (entry_of o).
Proof. intros Hs Ha. rewrite abs_lookup. assert (processes s !! pid o = Some a) as -> by (apply (i_reg s Hs); by exists o). simpl. by rewrite Ha. Qed.

Lemma abs_Some s p e : tree s -> abs s !! p = Some e <-> exists a o, objects s !! a = Some o /\ pid o = p /\ e = entry_of o.
Proof.
  intros Hs. rewrite abs_lookup. split.
  - intros (a & Ha & He)%bind_Some. apply fmap_Some in He as (o & Ho & ->). apply (i_reg s Hs) in Ha as (o' & Ho' & <-). simplify_eq. by eexists a, _.
  - intros (a & o & Ho & <- & ->). rewrite <- abs_lookup. by apply (abs_object s a).
Qed.

(** The tables of two states, compared by their objects. *)
Lemma abs_ext s' T : tree s' ->
  (forall a o, objects s' !! a = Some o -> T !! pid o = Some (entry_of o)) ->
  (forall p e, T !! p = Some e -> exists a o, objects s' !! a = Some o /\ pid o = p) -> abs s' = T.
Proof.
  intros Hs H1 H2. apply map_eq. intros p. destruct (abs s' !! p) as [e|] eqn:E.
  - apply (abs_Some s' p e Hs) in E as (a & o & Ho & <- & ->). symmetry. by apply (H1 a).
  - destruct (T !! p) as [e|] eqn:E'; [|done]. destruct (H2 p e E') as (a & o & Ho & <-). by rewrite (abs_object s' a o Hs Ho) in E.
Qed.

Lemma child_object s me p e : tree s -> child (abs s) me p e <-> exists a o, objects s !! a = Some o /\ a <> kernel /\ pid o = p /\ ppid o = me /\ e = entry_of o.
Proof.
  intros Hs. destruct (i_kobj s Hs) as (k & Hk & Hk0 & _). unfold child. rewrite (abs_Some s p e Hs). split.
  - intros ((a & o & Ho & <- & ->) & Hne & Hp). exists a, o. split_and!; try done. intros ->. rewrite Hk in Ho. by simplify_eq.
  - intros (a & o & Ho & Hak & <- & <- & ->). split; [by exists a, o|]. split; [|done]. destruct (i_obj s Hs a o Ho Hak). lia.
Qed.

(** The lists of an object are its children. *)
Lemma zombies_ended s q oq p c : tree s -> objects s !! q = Some oq ->
  ended (abs s) (pid oq) p c <-> exists a o, a ∈ zombies oq /\ objects s !! a = Some o /\ pid o = p /\ exitCode o = c.
Proof.
  intros Hs Hq. destruct (i_kobj s Hs) as (k & Hk & _ & _ & Hkz). unfold ended. rewrite child_object by done. split.
  - intros (a & o & Ho & Hak & <- & Hpp & E). unfold entry_of in E. destruct (zombie o) eqn:Ez; [|done]. injection E as _ Ex Ew.
    exists a, o. split; [|done]. apply (i_zombies s Hs q oq a Hq). exists o. split_and!; congruence.
  - intros (a & o & Hin & Ho & <- & <-). apply (i_zombies s Hs q oq a Hq) in Hin as (o' & Ho' & Hpp & Ez & Ew). rewrite Ho in Ho'. injection Ho' as <-.
    exists a, o. unfold entry_of. rewrite Ez, Ew, Hpp. split_and!; try done. intros ->. congruence.
Qed.

Lemma childs_alive s q oq : tree s -> objects s !! q = Some oq -> alive (abs s) (pid oq) <-> childs oq <> [].
Proof.
  intros Hs Hq. unfold alive. split.
  - intros (p & n & (a & o & Ho & Hak & _ & Hpp & E)%child_object); [|done]. unfold entry_of in E. destruct (zombie o) eqn:Ez; [done|].
    intros Hnil. apply (not_elem_of_nil a). rewrite <- Hnil. apply (i_childs s Hs q oq a Hq). by exists o.
  - destruct (childs oq) as [|a l] eqn:El; [done|]. intros _. destruct (proj1 (i_childs s Hs q oq a Hq)) as (o & Ho & Hak & Hpp & Ez); [rewrite El; set_solver|].
    exists (pid o), (waitCount o). apply child_object; [done|]. exists a, o. unfold entry_of. by rewrite Ez, Hpp.
Qed.

(** ** Every operation

    It completes, keeps the invariant, and does to the table what it should. *)
Definition self_pid (s : system) (t : positive) : Z :=
  match threads s !! t with Some th => match objects s !! proc th with Some o => pid o | None => 0 end | None => 0 end.
Definition target (s : system) (t : positive) : option Z :=
  th ← threads s !! t; match at_ th with Creating a | WaitFor a => pid <$> objects s !! a | _ => None end.

Definition refines (t : positive) (o : op) (s : system) : Prop :=
  exists r s', step t o s = Done (r, s') /\ tree s' /\ crew s' /\ spec (abs s) (self_pid s t) (target s t) o r (abs s').

Lemma removed_abs a q o s s' : tree s -> tree s' -> objects s !! a = Some o -> removed a q (pid o) s s' -> abs s' = delete (pid o) (abs s).
Proof.
  intros Hs Hs' Ha (_ & _ & _ & Hob). apply abs_ext; [done| |].
  - intros x ox Hx. rewrite Hob in Hx. destruct (decide (x = a)) as [|Hxa]; [done|].
    assert (Hox : exists ox0, objects s !! x = Some ox0 /\ pid ox = pid ox0 /\ entry_of ox = entry_of ox0).
    { destruct (decide (x = q)); [|by exists ox]. destruct (objects s !! x) as [ox0|]; [|done]. injection Hx as <-. by exists ox0. }
    destruct Hox as (ox0 & Hx0 & -> & ->). rewrite lookup_delete_ne; [by apply (abs_object s x)|]. intros E. by apply Hxa, (pid_inj s x a ox0 o).
  - intros p e [Hne He]%lookup_delete_Some. apply (abs_Some s p e Hs) in He as (x & ox & Hx & <- & _).
    exists x. rewrite Hob, decide_False, Hx by congruence. destruct (decide (x = q)); by eexists.
Qed.

Lemma zombie_leaf s a q o oq :
  tree s -> objects s !! a = Some o -> zombie o = true -> objects s !! q = Some oq -> zombie oq = false -> ppid o = pid oq -> leaf a q s.
Proof.
  intros Hs Ha Hz Hq Hzq Epp. destruct (i_kobj s Hs) as (k & Hk & _ & _ & Hkz). exists o, oq. split_and!; try done; [congruence..|].
  intros x ox Hx E. destruct (i_parent s Hs x ox Hx) as (y & oy & Hy & Hoy & Hzy). rewrite E in Hy. apply (i_reg s Hs) in Hy as (oy' & Hoy' & Ey).
  assert (y = a) as -> by (by apply (pid_inj s y a oy' o)). congruence.
Qed.

(** A child that has ended and that no other thread waits for is removed. *)
Lemma reap_refines s s' t th a o oq :
  tree s -> crew s -> threads s !! t = Some th -> objects s !! a = Some o -> zombie o = true -> objects s !! proc th = Some oq -> ppid o = pid oq ->
  (forall t', t' ∈ waiters s a -> t' = t) -> at_ th = WaitFor a \/ (forall x, at_ th <> WaitFor x) -> t ∉ genericWaiting s ->
  removed a (proc th) (pid o) s s' -> moved t Running s s' -> tree s' /\ crew s' /\ abs s' = delete (pid o) (abs s).
Proof.
  intros Hs Hc Ht Ha Hz Hq Epp Hw Hat Hng Hr Hm. destruct (i_thread s Hc t th Ht) as (oq' & Hq' & Hzq). rewrite Hq in Hq'. injection Hq' as <-.
  pose proof (zombie_leaf s a (proc th) o oq Hs Ha Hz Hq Hzq Epp) as Hl. pose proof (removed_tree a (proc th) o s s' Hs Hl Ha Hr) as Hs'.
  split; [done|]. split; [|by apply (removed_abs a (proc th))]. apply (removed_crew t th a (proc th) o s s'); try done.
  - intros t' th' Ht' E. destruct (i_thread s Hc t' th' Ht') as (o' & Ho' & Hz'). congruence.
  - intros t' th' Ht' [E|E]; [apply Hw, elem_of_waiters; by exists th'|].
    destruct (i_creating s Hc t' th' a Ht' E) as (o' & _ & Ho' & _ & _ & _ & Hz' & _). congruence.
Qed.

(** The states in which a parent removes a child. *)
Lemma removed_detach a q p s s1 s' oq :
  objects s !! q = Some oq -> q <> a -> a ∉ childs oq -> (forall x, x <> a -> objects s1 !! x = objects s !! x) ->
  processes s1 = processes s -> pidCounter s1 = pidCounter s -> genericWaiting s1 = genericWaiting s ->
  processes s' = delete p (processes s1) -> pidCounter s' = pidCounter s1 -> genericWaiting s' = genericWaiting s1 ->
  objects s' = delete a (alter (set_zombies (remove a (zombies oq))) q (objects s1)) -> removed a q p s s'.
Proof.
  intros Hq Hqa Hin Ho1 Hp1 Hc1 Hg1 Hp Hc Hg Ho. split; [congruence|]. split; [congruence|]. split; [congruence|]. intros x. rewrite Ho.
  destruct (decide (x = a)) as [->|Hxa]; [by rewrite lookup_delete_eq|]. rewrite lookup_delete_ne by done. destruct (decide (x = q)) as [->|Hxq].
  - rewrite lookup_alter_eq, Ho1, Hq by done. simpl. unfold detach. unfold remove at 2. by rewrite filter_ne_id.
  - by rewrite lookup_alter_ne, Ho1.
Qed.

Lemma not_a_child s a o q oq : tree s -> objects s !! a = Some o -> zombie o = true -> objects s !! q = Some oq -> a ∉ childs oq.
Proof. intros Hs Ha Hz Hq (o' & Ho' & _ & _ & ?)%(i_childs s Hs q oq a Hq). congruence. Qed.

Lemma remove_first_item a l : NoDup (a :: l) -> remove a (a :: l) = l.
Proof. intros [Ha _]%NoDup_cons. unfold remove. rewrite filter_cons_False by naive_solver. by apply filter_ne_id. Qed.

Lemma wait_any_refines s t th oq :
  tree s -> crew s -> threads s !! t = Some th -> at_ th = Running \/ at_ th = WaitAny -> t ∉ genericWaiting s -> objects s !! proc th = Some oq ->
  exists r s', wait_any t (proc th) s = Done (r, s') /\ tree s' /\ crew s' /\ spec_any (abs s) (pid oq) r (abs s') /\ r <> Returned 0 None.
Proof.
  intros Hs Hc Ht Hat Hng Hq. assert (Hnw : forall x, at_ th <> WaitFor x) by (by destruct Hat as [-> | ->]).
  unfold wait_any, object. rewrite Hq. cbn [mbind outcome_bind deref]. destruct (zombies oq) as [|a rest] eqn:Ez.
  - assert (Hne : forall p c, ~ ended (abs s) (pid oq) p c).
    { intros p c (a & o & Hin & _)%(zombies_ended s _ oq p c Hs Hq). rewrite Ez in Hin. by apply elem_of_nil in Hin. }
    destruct (childs oq) as [|b l] eqn:Ec.
    + rewrite go_in by (by eexists). cbn [mbind outcome_bind]. eexists _, _. split; [reflexivity|]. split; [by apply (tree_same s)|]. split.
      * apply (crew_moved t Running th s); try done; [exact (fun t' => threads_set_at s t _ t')|by left|]. intros t' Hin. left. split; [done|]. by intros ->.
      * split; [|done]. split; [done|]. split; [done|]. split; [|done]. rewrite (childs_alive s _ oq Hs Hq), Ec. by intros ?.
    + rewrite go_in by (by eexists). cbn [mbind outcome_bind]. eexists _, _. split; [reflexivity|]. split; [by apply (tree_same s)|]. split.
      * apply (crew_moved t WaitAny th s); try done; [exact (fun t' => threads_set_at s t _ t')|by right|]. intros t'. simpl. rewrite elem_of_app, list_elem_of_singleton.
        intros [Hin| ->]; [left; split; [done|by intros ->]|right]. split; [done|]. split; [done|]. intros _ o Ho. rewrite Hq in Ho. injection Ho as <-. by rewrite Ez, Ec.
      * split; [|done]. split; [done|]. split; [|done]. apply (childs_alive s _ oq Hs Hq). by rewrite Ec.
  - destruct (proj1 (i_zombies s Hs _ oq a Hq)) as (o & Ha & Epp & Hz & Hw0); [rewrite Ez; set_solver|].
    pose proof (not_a_child s a o (proc th) oq Hs Ha Hz Hq) as Hnc. destruct (i_thread s Hc t th Ht) as (oq' & Hq' & Hzq). rewrite Hq in Hq'. injection Hq' as <-.
    assert (Hqa : proc th <> a) by congruence.
    rewrite update_in by (by eexists). cbn [mbind outcome_bind]. rewrite objects_upd, decide_False, Ha by done. cbn [mbind outcome_bind deref].
    rewrite Hw0. cbn [negb Z.eqb]. rewrite go_in by (by eexists). cbn [mbind outcome_bind]. eexists _, _. split; [reflexivity|].
    match goal with |- tree ?st /\ _ => set (s' := st) end.
    assert (Hr : removed a (proc th) (pid o) s s').
    { apply (removed_detach a (proc th) (pid o) s s s' oq); try done. simpl. rewrite Ez, remove_first_item; [done|]. rewrite <- Ez. by apply (i_nodup s Hs (proc th)). }
    destruct (reap_refines s s' t th a o oq) as (Hs' & Hc' & Habs); try done; [|by right|exact (fun t' => threads_set_at s t _ t')|].
    + intros t' Hin. pose proof (i_count s Hc a o Ha) as Hn. rewrite Hw0 in Hn. assert (size (waiters s a) = 0%nat) as E%size_empty_inv by lia. set_solver.
    + split; [done|]. split; [done|]. split; [|done]. split; [|done]. apply (zombies_ended s (proc th) oq (pid o) (exitCode o) Hs Hq). exists a, o. split; [|done]. rewrite Ez. apply list_elem_of_here.
Qed.

(** The end of a wait for [a], from a state [s1] in which only the count of
    waiting threads differs. *)
Lemma wait_reap_spec s s1 t th a n l o oq :
  tree s -> crew s -> threads s !! t = Some th -> objects s !! a = Some o -> zombie o = true -> objects s !! proc th = Some oq -> ppid o = pid oq ->
  rewaited a n l s s1 -> threads s1 = threads s ->
  exists s', wait_reap t (proc th) a s1 = Done (if n =? 0 then Returned (pid o) (Some (exitCode o)) else Returned (-1) None, s') /\ moved t Running s s' /\
    if n =? 0 then removed a (proc th) (pid o) s s' else rewaited a n l s s'.
Proof.
  intros Hs Hc Ht Ha Hz Hq Epp Hr Hth. pose proof Hr as (Hp & Hcnt & Hg & Hob). destruct (i_thread s Hc t th Ht) as (oq' & Hq' & Hzq). rewrite Hq in Hq'. injection Hq' as <-.
  assert (Hqa : proc th <> a) by congruence. assert (Ha1 : objects s1 !! a = Some (set_wait n l o)) by (by rewrite Hob, decide_True, Ha).
  assert (Hq1 : objects s1 !! proc th = Some oq) by (by rewrite Hob, decide_False).
  unfold wait_reap, object. rewrite Ha1. cbn [mbind outcome_bind deref]. simpl waitCount. destruct (n =? 0).
  - rewrite update_in by (by eexists). cbn [mbind outcome_bind]. rewrite go_in by (simpl; rewrite Hth; by eexists). cbn [mbind outcome_bind].
    eexists. split; [reflexivity|]. split; [intros t'; by rewrite threads_set_at; simpl; rewrite Hth|].
    apply (removed_detach a (proc th) (pid o) s s1 _ oq); try done; [by apply (not_a_child s a o (proc th))|intros x Hx; by rewrite Hob, decide_False|].
    simpl. f_equal. rewrite <- !(alter_insert _ _ _ _ Hq1). done.
  - rewrite go_in by (rewrite Hth; by eexists). cbn [mbind outcome_bind]. eexists. split; [reflexivity|]. split; [intros t'; by rewrite threads_set_at, Hth|done].
Qed.

(** A change of the count of waiting threads. *)
Lemma rewaited_abs a n l o s s' : tree s -> tree s' -> objects s !! a = Some o -> rewaited a n l s s' ->
  abs s' = <[pid o := mkEntry (ppid o) (if zombie o then Some (exitCode o) else None) n]> (abs s).
Proof.
  intros Hs Hs' Ha (Hp & _ & _ & Hob). apply map_eq. intros p. rewrite abs_lookup, Hp. destruct (decide (p = pid o)) as [->|Hne].
  - rewrite lookup_insert_eq. assert (processes s !! pid o = Some a) as -> by (apply (i_reg s Hs); by exists o). simpl. by rewrite Hob, decide_True, Ha.
  - rewrite lookup_insert_ne, abs_lookup by done. destruct (processes s !! p) as [x|] eqn:E; [|done]. simpl. rewrite Hob, decide_False; [done|].
    intros ->. apply (i_reg s Hs) in E as (o' & Ho' & <-). congruence.
Qed.

Lemma rewaited_self a o s : objects s !! a = Some o -> rewaited a (waitCount o) (waiting o) s s.
Proof. intros Ha. split_and!; try done. intros x. destruct (decide (x = a)) as [->|]; [|done]. rewrite Ha. by destruct o. Qed.

Lemma resume_refines s t : tree s -> crew s -> enabled t Resume s -> refines t Resume s.
Proof.
  intros Hs Hc (th & Ht & Hen). destruct (i_thread s Hc t th Ht) as (oq & Hq & Hzq). unfold refines, step, waitpid_resume, self_pid, target. rewrite Ht, Hq. cbn [mbind outcome_bind deref option_bind].
  destruct Hen as [[Hat Hng]|(a & Hat & Hwok)]; rewrite Hat.
  { destruct (wait_any_refines s t th oq Hs Hc Ht (or_intror Hat) Hng Hq) as (r & s' & -> & Hs' & Hc' & Hsp & _). by exists (Wait r), s'. }
  destruct (i_for s Hc t th a Ht Hat) as (o & oq' & Ha & Hq' & Hak & Epp). rewrite Hq in Hq'. injection Hq' as <-.
  assert (Hwt : t ∈ waiters s a) by (apply elem_of_waiters; by exists th).
  assert (Hz : zombie o = true).
  { destruct (zombie o) eqn:Ez; [done|]. destruct (Hwok o Ha). by apply (i_waiting s Hc a o t Ha). }
  assert (Hng : t ∉ genericWaiting s) by (intros (th' & Ht' & E & _)%(i_any s Hc); congruence).
  assert (Hwl : waiting o = []).
  { destruct (waiting o) as [|x l] eqn:E; [done|]. destruct (proj1 (i_waiting s Hc a o x Ha)) as [? _]; [rewrite E; apply list_elem_of_here|congruence]. }
  pose proof (i_count s Hc a o Ha) as Hn. rewrite update_in by (by eexists). cbn [mbind outcome_bind].
  set (f := fun j => set_wait (waitCount j - 1) (waiting j) j). set (n := waitCount o - 1).
  assert (Hpos : 0 < waitCount o).
  { rewrite Hn. assert (0 < size (waiters s a))%nat by (apply Nat.neq_0_lt_0, size_non_empty_iff; set_solver). lia. }
  assert (Hsz : n = Z.of_nat (size (waiters s a ∖ {[t]}))) by (subst n; rewrite size_difference, size_singleton by set_solver; lia).
  assert (Hr1 : rewaited a n [] s (upd a f s)).
  { split_and!; try done. intros x. rewrite objects_upd. destruct (decide (x = a)) as [->|]; [|done]. rewrite Ha. simpl. unfold f. by rewrite Hwl. }
  unfold object. rewrite objects_upd, decide_True, Ha by done. cbn [mbind outcome_bind deref fmap option_fmap option_map]. simpl waitCount. simpl zombie. fold n. rewrite Hz.
  rewrite (proj2 (Z.ltb_ge n 0)) by lia. cbn [orb negb].
  destruct (wait_reap_spec s (upd a f s) t th a n [] o oq Hs Hc Ht Ha Hz Hq Epp Hr1 eq_refl) as (s' & -> & Hm & Hcase). cbn [mbind outcome_bind].
  eexists _, s'. split; [reflexivity|]. simpl.
  assert (Hw' : waiters s' a = waiters s a ∖ {[t]}) by (rewrite (moved_waiters t Running s s' a Hm) by (by eexists); by rewrite decide_False).
  assert (Hchild : child (abs s) (pid oq) (pid o) (mkEntry (pid oq) (Some (exitCode o)) (n + 1))).
  { apply child_object; [done|]. exists a, o. unfold entry_of. rewrite Hz, Epp. split_and!; try done. f_equal. subst n. lia. }
  destruct (Z.eqb_spec n 0) as [E|E].
  - destruct (reap_refines s s' t th a o oq) as (Hs' & Hc' & Habs); try done; [|by left|].
    + intros t' Hin. rewrite E in Hsz. assert (E' : size (waiters s a ∖ {[t]}) = 0%nat) by (clear -Hsz; lia). apply size_empty_inv in E'.
      destruct (decide (t' = t)) as [|Hne]; [done|]. assert (Hin' : t' ∈ waiters s a ∖ {[t]}) by (apply elem_of_difference; by rewrite elem_of_singleton).
      rewrite E' in Hin'. by apply not_elem_of_empty in Hin'.
    + split; [done|]. split; [done|]. exists (exitCode o), n. split; [done|]. split; [lia|]. unfold spec_reap. by rewrite E.
  - assert (Hs' : tree s') by (apply (rewaited_tree a n [] s s' o Hs Hcase Ha); intros _; split; [clear -Hpos; lia|exact E]).
    split; [done|]. split; [apply (crew_rewaited t th a n [] Running o oq s s'); auto|].
    + by rewrite Hw'.
    + intros t'. rewrite Hz. split; [by intros ?%elem_of_nil|by intros [? _]].
    + exists (exitCode o), n. split; [done|]. split; [lia|]. unfold spec_reap. rewrite (proj2 (Z.eqb_neq n 0)) by done. split; [done|].
      rewrite (rewaited_abs a n [] o s s'), Hz, Epp by done. done.
Qed.

Lemma waitpid_refines s t p options : tree s -> crew s -> enabled t (Waitpid p options) s -> refines t (Waitpid p options) s.
Proof.
  intros Hs Hc (th & Ht & Hat). destruct (i_thread s Hc t th Ht) as (oq & Hq & Hzq). destruct (i_kobj s Hs) as (k & Hk & Hk0 & _).
  assert (Hng : t ∉ genericWaiting s) by (intros (th' & Ht' & E & _)%(i_any s Hc); congruence).
  unfold refines, step, waitpid, getCurrent, self_pid, object. rewrite Ht. cbn [mbind outcome_bind deref]. rewrite Hq. cbn [mbind outcome_bind deref].
  unfold spec. destruct (Z.leb_spec p 0) as [Hp|Hp].
  { destruct (bool_decide (zombies oq = []) && nohang options) eqn:E; cbn [mbind outcome_bind].
    - eexists _, s. split; [reflexivity|]. split; [done|]. split; [done|]. rewrite decide_True by done. apply andb_prop in E as [Ez%bool_decide_eq_true ->].
      split; [done|]. split; [done|]. intros p' c (a & o & Hin & _)%(zombies_ended s _ oq p' c Hs Hq). rewrite Ez in Hin. by apply elem_of_nil in Hin.
    - destruct (wait_any_refines s t th oq Hs Hc Ht (or_introl Hat) Hng Hq) as (r & s' & -> & Hs' & Hc' & Hsp & Hr). exists (Wait r), s'.
      split; [reflexivity|]. split; [done|]. split; [done|]. by rewrite decide_False. }
  rewrite abs_lookup. destruct (processes s !! p) as [a|] eqn:Ep; cbn [mbind option_bind outcome_bind]; [|eexists _, s; split; [reflexivity|done]].
  apply (i_reg s Hs) in Ep as (o & Ha & <-). rewrite Ha. cbn [mbind outcome_bind deref fmap option_fmap option_map]. unfold entry_of.
  destruct (Z.eqb_spec (ppid o) (pid oq)) as [Epp|Epp]; cbn [negb orb]; [|eexists _, s; split; [reflexivity|done]].
  assert (Hak : a <> kernel) by (intros ->; simplify_eq; lia). destruct (i_obj s Hs a o Ha Hak) as [_ Hself].
  rewrite (proj2 (Z.eqb_neq (pid o) (pid oq))) by congruence. destruct (zombie o) eqn:Hz; cbn [negb].
  - destruct (wait_reap_spec s s t th a (waitCount o) (waiting o) o oq Hs Hc Ht Ha Hz Hq Epp (rewaited_self a o s Ha) eq_refl) as (s' & -> & Hm & Hcase).
    cbn [mbind outcome_bind]. eexists _, s'. split; [reflexivity|]. unfold spec_reap. destruct (Z.eqb_spec (waitCount o) 0) as [E|E].
    + destruct (reap_refines s s' t th a o oq) as (Hs' & Hc' & Habs); try done; [|right; by rewrite Hat].
      intros t' Hin. pose proof (i_count s Hc a o Ha) as Hn. rewrite E in Hn. assert (size (waiters s a) = 0%nat) as E'%size_empty_inv by lia.
      rewrite E' in Hin. by apply not_elem_of_empty in Hin.
    + assert (Hs' : tree s') by (by apply (rewaited_tree a (waitCount o) (waiting o) s s' o)). split; [done|]. split.
      * apply (crew_rewaited t th a (waitCount o) (waiting o) Running o oq s s'); auto; rewrite (moved_same_waiters t Running s s' th a) by (rewrite ?Hat; done).
        -- by apply (i_count s Hc).
        -- intros t'. by apply (i_waiting s Hc).
      * split; [done|]. rewrite (rewaited_abs a _ _ o s s' Hs Hs' Ha Hcase), Hz, Epp. done.
  - destruct (nohang options); [eexists _, s; split; [reflexivity|done]|]. rewrite update_in by (by eexists). cbn [mbind outcome_bind].
    rewrite go_in by (by eexists). cbn [mbind outcome_bind]. eexists _, _. split; [reflexivity|].
    match goal with |- tree ?st /\ _ => set (s' := st) end.
    assert (Hr : rewaited a (waitCount o + 1) (waiting o ++ [t]) s s').
    { split_and!; try done. intros x. change (objects s' !! x) with (objects (upd a (fun j => set_wait (waitCount j + 1) (waiting j ++ [t]) j) s) !! x).
      rewrite objects_upd. destruct (decide (x = a)) as [->|]; [|done]. by rewrite Ha. }
    assert (Hm : moved t (WaitFor a) s s') by exact (fun t' => threads_set_at s t _ t').
    assert (Hs' : tree s') by (apply (rewaited_tree a _ _ s s' o Hs Hr Ha); congruence).
    assert (Hnt : t ∉ waiters s a) by (apply (not_waiter s t th a Ht); by rewrite Hat).
    assert (Hw' : waiters s' a = {[t]} ∪ waiters s a) by (rewrite (moved_waiters t (WaitFor a) s s' a Hm) by (by eexists); by rewrite decide_True).
    split; [done|]. split.
    + apply (crew_rewaited t th a (waitCount o + 1) (waiting o ++ [t]) (WaitFor a) o oq s s'); auto.
      * rewrite Hw', size_union, size_singleton, (i_count s Hc a o Ha) by (by apply disjoint_singleton_l). lia.
      * intros t'. rewrite Hw', elem_of_app, list_elem_of_singleton, elem_of_union, elem_of_singleton, (i_waiting s Hc a o t' Ha). naive_solver.
    + split; [done|]. by rewrite (rewaited_abs a _ _ o s s' Hs Hs' Ha Hr), Hz, Epp.
Qed.

Lemma create_refines s t a : tree s -> crew s -> enabled t (Create a) s -> refines t (Create a) s.
Proof.
  intros Hs Hc (th & Ht & Hat & Ha & Hmem). destruct (create_begin_spec s t th a Hs Hc Ht Ha) as (p & po & s' & Hcb & Hp & Hfree & Hq & Hcr & Hm & Hg & Hcnt).
  destruct (i_thread s Hc t th Ht) as (po' & Hq' & Hz). rewrite Hq in Hq'. injection Hq' as <-.
  assert (Hs' : tree s') by (by apply (created_tree a (proc th) po p s s')).
  exists Unit, s'. unfold step. rewrite Hcb. cbn [mbind outcome_bind]. split; [done|]. split; [done|]. split; [by apply (created_crew t th a po p s s')|].
  exists p. split; [done|]. split; [by rewrite abs_lookup, Hfree|]. unfold self_pid. rewrite Ht, Hq. apply abs_ext; [done| |].
  - intros x ox Hx. destruct Hcr as [Hps Hob]. rewrite Hob in Hx. destruct (decide (x = a)) as [->|Hxa]; [injection Hx as <-; by rewrite lookup_insert_eq|].
    assert (Hox : exists ox0, objects s !! x = Some ox0 /\ pid ox = pid ox0 /\ entry_of ox = entry_of ox0).
    { destruct (decide (x = proc th)); [|by exists ox]. destruct (objects s !! x) as [ox0|]; [|done]. injection Hx as <-. by exists ox0. }
    destruct Hox as (ox0 & Hx0 & -> & ->). rewrite lookup_insert_ne; [by apply (abs_object s x)|]. intros ->.
    assert (processes s !! pid ox0 = Some x) by (apply (i_reg s Hs); by exists ox0). congruence.
  - intros p' e [[<- _]|[_ He]]%lookup_insert_Some.
    + exists a, (newborn p (pid po)). destruct Hcr as [_ Hob]. by rewrite Hob, decide_True.
    + apply (abs_Some s p' e Hs) in He as (x & ox & Hx & <- & _). destruct (created_old _ _ _ _ _ _ _ _ Hcr Ha Hx) as (ox' & Hx' & E & _). by exists x, ox'.
Qed.

Lemma created_refines s t thr : tree s -> crew s -> enabled t (Created thr) s -> refines t (Created thr) s.
Proof.
  intros Hs Hc (th & Ht & Hen). assert (Hat : exists a, at_ th = Creating a) by (destruct thr; [by destruct Hen|by destruct Hen as (a & ? & _); exists a]).
  destruct Hat as (a & Hat). destruct (i_creating s Hc t th a Ht Hat) as (o & oq & Ha & Hq & Hak & Epp & Hz & Hnt & Hnc & Hleaf).
  destruct (i_thread s Hc t th Ht) as (oq' & Hq' & Hzq). rewrite Hq in Hq'. injection Hq' as <-.
  assert (Hng : t ∉ genericWaiting s) by (intros (th' & Ht' & E & _)%(i_any s Hc); congruence). assert (Hqa : proc th <> a) by (by apply (Hnt t)).
  assert (Hchild : child (abs s) (pid oq) (pid o) (mkEntry (pid oq) None (waitCount o))).
  { apply child_object; [done|]. exists a, o. unfold entry_of. by rewrite Hz, Epp. }
  unfold refines, step, create_end, self_pid, target, object. rewrite Ht. cbn [mbind outcome_bind deref option_bind]. rewrite Hat, Ha, Hq. cbn [mbind outcome_bind deref fmap option_fmap option_map].
  destruct thr as [thr|].
  - destruct Hen as [_ Hn]. assert (Htt : t <> thr) by congruence. rewrite go_in by (simpl; rewrite lookup_insert_ne by done; by eexists). cbn [mbind outcome_bind].
    eexists _, _. split; [reflexivity|]. split; [by apply (tree_same s)|]. split.
    + assert (Hc1 : crew (set_at t Running s)).
      { apply (crew_moved t Running th s); try done; [exact (fun t' => threads_set_at s t _ t')|by intros x; rewrite Hat|by left|]. intros t' Hin. left. split; [done|by intros ->]. }
      apply (crew_spawn (set_at t Running s) _ thr a o Hc1); try done.
      * simpl. apply map_eq. intros x. destruct (decide (x = thr)) as [->|Hx]; [by rewrite lookup_alter_ne, !lookup_insert_eq|].
        rewrite (lookup_insert_ne _ thr x) by done. destruct (decide (x = t)) as [->|]; [by rewrite !lookup_alter_eq, lookup_insert_ne|by rewrite !lookup_alter_ne, lookup_insert_ne].
      * by rewrite threads_set_at, decide_False.
      * right. intros t' th' Ht'. destruct (moved_inv t Running s _ t' th' (fun t' => threads_set_at s t _ t') Ht') as (th0 & Ht0 & -> & _). by apply (Hnt t').
      * intros t' th' Ht' E. destruct (moved_inv t Running s _ t' th' (fun t' => threads_set_at s t _ t') Ht') as (th0 & Ht0 & _ & E').
        destruct (decide (t' = t)) as [|Hne]; [congruence|]. apply Hne, (Hnc t' th0); congruence.
    + exists (pid o), (waitCount o). done.
  - destruct Hen as (a' & Hat' & Hw0). assert (a' = a) as -> by congruence. specialize (Hw0 o Ha). cbn [processes set_processes].
    rewrite update_in by (by eexists). cbn [mbind outcome_bind]. rewrite go_in by (by eexists). cbn [mbind outcome_bind]. eexists _, _. split; [reflexivity|].
    match goal with |- tree ?st /\ _ => set (s' := st) end.
    assert (Hlf : leaf a (proc th) s) by (by exists o, oq).
    assert (Hnz : a ∉ zombies oq) by (intros (o' & Ho' & _ & Hz' & _)%(i_zombies s Hs _ oq a Hq); congruence).
    assert (Hr : removed a (proc th) (pid o) s s').
    { split_and!; try done. intros x. simpl. destruct (decide (x = a)) as [->|Hxa]; [by rewrite lookup_delete_eq|]. rewrite lookup_delete_ne by done.
      destruct (decide (x = proc th)) as [->|]; [|by rewrite lookup_alter_ne]. rewrite lookup_alter_eq, Hq. simpl. unfold detach. unfold remove at 3. rewrite filter_ne_id by done. by destruct oq. }
    pose proof (removed_tree a (proc th) o s s' Hs Hlf Ha Hr) as Hs'. split; [done|]. split.
    + apply (removed_crew t th a (proc th) o s s'); try done; [exact (fun t' => threads_set_at s t _ t')| |right; by rewrite Hat].
      intros t' th' Ht' [E|E]; [|by apply (Hnc t' th')]. exfalso. pose proof (i_count s Hc a o Ha) as Hn. rewrite Hw0 in Hn.
      assert (size (waiters s a) = 0%nat) as E'%size_empty_inv by lia. apply (not_elem_of_empty (C := gset positive) t'). rewrite <- E'. apply elem_of_waiters. by exists th'.
    + exists (pid o), (waitCount o). split; [done|]. split; [done|]. split; [done|]. by apply (removed_abs a (proc th)).
Qed.

Lemma exit_refines s t code : tree s -> crew s -> enabled t (Exit code) s -> refines t (Exit code) s.
Proof.
  intros Hs Hc (th & Ht & Hat & Hk). destruct (finish_spec s t th code Hs Hc Ht Hk) as (o & q & s' & Hf & Ho & Hq & Hqa & Hfin & Hth).
  pose proof Hq as Hq0. apply (i_reg s Hs) in Hq0 as (oq & Hoq & Hpq). assert (He : ending t (proc th) th o s) by done.
  destruct (i_thread s Hc t th Ht) as (o' & Ho' & Hz). rewrite Ho in Ho'. injection Ho' as <-. destruct (i_obj s Hs _ o Ho Hk) as [Hpos Hself].
  assert (Hs' : tree s') by (by apply (finished_tree s s' t (proc th) q th o oq code)).
  exists Unit, s'. unfold step. rewrite Hf. cbn [mbind outcome_bind]. split; [done|]. split; [done|]. split; [by apply (finished_crew s s' t (proc th) q th o oq code)|].
  unfold self_pid. rewrite Ht, Ho. exists (entry_of o). split; [by apply (abs_object s (proc th))|]. split; [by unfold entry_of; rewrite Hz|].
  apply abs_ext; [done| |].
  - intros x ox' Hx. destruct (finished_new s s' t (proc th) q th o code Hs Hc He Hqa Hfin x ox' Hx) as (ox & Hx0 & Hch).
    rewrite (ch_pid _ _ _ _ _ _ _ _ Hch). unfold entry_of. rewrite (ch_ppid _ _ _ _ _ _ _ _ Hch), (ch_zombie _ _ _ _ _ _ _ _ Hch), (ch_count _ _ _ _ _ _ _ _ Hch), (ch_code _ _ _ _ _ _ _ _ Hch).
    destruct (decide (x = proc th)) as [->|Hxa].
    + assert (ox = o) as -> by congruence. by rewrite lookup_insert_eq, decide_False.
    + rewrite lookup_insert_ne by (intros E; by apply Hxa, (pid_inj s x (proc th) ox o)). unfold orphaned. rewrite lookup_fmap, (abs_object s x ox Hs Hx0). simpl.
      destruct (Z.eqb_spec (ppid ox) (pid o)); [by rewrite decide_True|by rewrite decide_False].
  - intros p e [[<- _]|[_ He']]%lookup_insert_Some.
    + destruct (finished_old s s' t (proc th) q th o code Hs Hc He Hqa Hfin (proc th) o Ho) as (ox' & Hx' & Hch). exists (proc th), ox'. by rewrite (ch_pid _ _ _ _ _ _ _ _ Hch).
    + unfold orphaned in He'. rewrite lookup_fmap in He'. apply fmap_Some in He' as (e' & He' & _). apply (abs_Some s p e' Hs) in He' as (x & ox & Hx & <- & _).
      destruct (finished_old s s' t (proc th) q th o code Hs Hc He Hqa Hfin x ox Hx) as (ox' & Hx' & Hch). exists x, ox'. by rewrite (ch_pid _ _ _ _ _ _ _ _ Hch).
Qed.

Lemma step_refines s t o : tree s -> crew s -> enabled t o s -> refines t o s.
Proof.
  intros Hs Hc Hen. destruct o as [a|thr|p|p options| |code|thr|].
  - by apply create_refines.
  - by apply created_refines.
  - unfold refines, step, getppid. destruct (processes s !! p) as [a|] eqn:E; cbn [mbind outcome_bind].
    + pose proof E as E'. apply (i_reg s Hs) in E' as (o & Ho & _). unfold object. rewrite Ho. cbn [mbind outcome_bind deref]. eexists _, s. split; [reflexivity|].
      split; [done|]. split; [done|]. split; [|done]. rewrite abs_lookup, E. cbn [mbind option_bind]. by rewrite Ho.
    + eexists _, s. split; [reflexivity|]. split; [done|]. split; [done|]. split; [|done]. by rewrite abs_lookup, E.
  - by apply waitpid_refines.
  - by apply resume_refines.
  - by apply exit_refines.
  - destruct Hen as (th & Ht & Hat & Hk & Hn). unfold refines, step, getCurrent. rewrite Ht. cbn [mbind outcome_bind deref]. eexists _, _. split; [reflexivity|].
    split; [by apply (tree_same s)|]. split; [|done]. destruct (i_kobj s Hs) as (k & Hko & _ & _ & Hz).
    apply (crew_spawn s _ thr (proc th) k Hc); try done; [by rewrite Hk|by left|].
    intros t' th' Ht' E. destruct (i_creating s Hc t' th' _ Ht' E) as (_ & _ & _ & _ & Hne & _). congruence.
  - destruct Hen as (th & Ht & Hat & Hk). eexists _, _. split; [reflexivity|]. split; [by apply (tree_same s)|]. split; [by apply (crew_leave s t th)|done].
Qed.

Lemma initial_system_inv : tree initial /\ crew initial.
Proof.
  assert (Hob : forall a o, objects initial !! a = Some o -> a = kernel /\ o = new_Process) by (intros a o; simpl; intros [? ?]%lookup_singleton_Some; done).
  assert (Hth : forall t th, threads initial !! t = Some th -> t = 1%positive /\ th = mkThread kernel Running) by (intros t th; simpl; intros [? ?]%lookup_singleton_Some; done).
  assert (Hw : forall a, waiters initial a = ∅).
  { intros a. apply leibniz_equiv. intros t. rewrite elem_of_waiters. split; [|set_solver]. intros (th & [_ ->]%Hth & E). done. }
  split.
  - split; try done; try (intros a o [-> ->]%Hob; simpl; done).
    + by exists new_Process.
    + intros p a. simpl. rewrite lookup_singleton_Some. split; [intros [<- <-]; by exists new_Process|]. intros (o & [-> ->]%Hob & <-). done.
    + intros a o [-> ->]%Hob. exists kernel, new_Process. done.
    + intros q oq a [-> ->]%Hob. simpl. split; [by intros ?%elem_of_nil|]. intros (o & [-> _]%Hob & ? & _). done.
    + intros q oq a [-> ->]%Hob. simpl. split; [by intros ?%elem_of_nil|]. by intros (o & [-> ->]%Hob & _ & ? & _).
    + intros q oq [-> ->]%Hob. constructor.
  - split.
    + intros t th [-> ->]%Hth. by exists new_Process.
    + by intros t t' th th' [-> ->]%Hth [-> ->]%Hth.
    + intros a o [-> ->]%Hob. by rewrite Hw.
    + intros a o t [-> ->]%Hob. rewrite Hw. simpl. split; [by intros ?%elem_of_nil|set_solver].
    + by intros t th a [-> ->]%Hth.
    + simpl. by intros t ?%elem_of_nil.
    + by intros t th a [-> ->]%Hth.
Qed.

Lemma reachable_system_inv s : reachable s -> tree s /\ crew s.
Proof.
  induction 1 as [|t o s r s' _ [Hs Hc] Hen Hst]; [apply initial_system_inv|]. destruct (step_refines s t o Hs Hc Hen) as (r' & s2 & Hst' & Hs' & Hc' & _).
  rewrite Hst in Hst'. by injection Hst' as _ <-.
Qed.

(** C8: the tree of process objects implements a table of processes.  In
    every reachable state each operation completes, with no error and no
    access to an object that was deleted, and has its effect on the table:
    [create] takes a pid not in use; a process that ends keeps its exit code
    and leaves its children to the kernel; [waitpid] returns each ended child once, with its code,
    and fails or blocks exactly as specified. *)
Theorem processes_refine s t o :
  reachable s -> enabled t o s ->
  exists r s', step t o s = Done (r, s') /\ spec (abs s) (self_pid s t) (target s t) o r (abs s').
Proof.
  intros [Hs Hc]%reachable_system_inv Hen. destruct (step_refines s t o Hs Hc Hen) as (r & s' & Hst & _ & _ & Hsp). by exists r, s'.
Qed.

(** C11: a wait ends when it should.  A thread that waits for a child is let go
    when the child ends.  A thread of a process that waits for any child, and
    is not let go, has a running child and none that has ended.  (Of the kernel this does not
    hold: see [ex_kernel_waits].) *)
Theorem no_lost_wait s t th :
  reachable s -> threads s !! t = Some th ->
  match at_ th with
  | WaitFor a => exists o, objects s !! a = Some o /\ (t ∈ waiting o <-> zombie o = false)
  | WaitAny => t ∈ genericWaiting s -> proc th <> kernel -> alive (abs s) (self_pid s t) /\ forall p c, ~ ended (abs s) (self_pid s t) p c
  | _ => True
  end.
Proof.
  intros [Hs Hc]%reachable_system_inv Ht. destruct (at_ th) as [|a| |a] eqn:Hat; try done.
  - intros Hin Hk. destruct (i_any s Hc t Hin) as (th' & Ht' & _ & Hno). rewrite Ht in Ht'. injection Ht' as <-.
    destruct (i_thread s Hc t th Ht) as (oq & Hq & _). destruct (Hno Hk oq Hq) as [Hz Hch]. unfold self_pid. rewrite Ht, Hq.
    split; [by apply (childs_alive s (proc th))|]. intros p c (a & o & Hina & _)%(zombies_ended s (proc th) oq p c Hs Hq). rewrite Hz in Hina. by apply elem_of_nil in Hina.
  - destruct (i_for s Hc t th a Ht Hat) as (o & _ & Ho & _). exists o. split; [done|]. rewrite (i_waiting s Hc a o t Ho).
    assert (t ∈ waiters s a) by (apply elem_of_waiters; by exists th). tauto.
Qed.

(** ** Examples *)
Fixpoint run (l : list (positive * op)) (s : system) : exec (list result * system) :=
  match l with
  | [] => Done ([], s)
  | (t, o) :: l => '(r, s) ← step t o s; '(rs, s) ← run l s; Done (r :: rs, s)
  end.

#[export] Instance enabled_dec t o s : Decision (enabled t o s).
Proof.
  assert (Hex : forall P : thread -> Prop, (forall th, Decision (P th)) -> Decision (exists th, threads s !! t = Some th /\ P th)).
  { intros P HP. destruct (threads s !! t) as [th|]; [|right; naive_solver]. destruct (decide (P th)); [left; by exists th|right; naive_solver]. }
  assert (Hob : forall a (P : Process -> Prop), (forall o, Decision (P o)) -> Decision (forall o, objects s !! a = Some o -> P o)).
  { intros a P HP. destruct (objects s !! a) as [ob|]; [|left; naive_solver]. destruct (decide (P ob)); [left; naive_solver|right; naive_solver]. }
  assert (Hcr : forall th (P : positive -> Prop), (forall a, Decision (P a)) -> Decision (exists a, at_ th = Creating a /\ P a)).
  { intros th P HP. destruct (at_ th) as [|a| |]; [right; naive_solver| |right; naive_solver..]. destruct (decide (P a)); [left; by exists a|right; naive_solver]. }
  assert (Hwf : forall th (P : positive -> Prop), (forall a, Decision (P a)) -> Decision (exists a, at_ th = WaitFor a /\ P a)).
  { intros th P HP. destruct (at_ th) as [| | |a]; [right; naive_solver..|]. destruct (decide (P a)); [left; by exists a|right; naive_solver]. }
  assert (Hc : forall th, Decision (exists a, at_ th = Creating a)).
  { intros th. destruct (at_ th); [right; naive_solver|left; by eexists|right; naive_solver..]. }
  apply Hex. intros th. destruct o as [a|[thr|]| | | | | |]; apply _.
Defined.

Fixpoint enabled_run (l : list (positive * op)) (s : system) : bool :=
  match l with
  | [] => true
  | (t, o) :: l => bool_decide (enabled t o s) && match step t o s with Done (_, s') => enabled_run l s' | Fault _ => false end
  end.

Lemma reachable_run l s rs s' : reachable s -> enabled_run l s = true -> run l s = Done (rs, s') -> reachable s'.
Proof.
  revert s rs. induction l as [|[t o] l IH]; intros s rs Hr He Hrun; simpl in *; [by injection Hrun as _ <-|].
  apply andb_prop in He as [Hen%bool_decide_eq_true He]. destruct (step t o s) as [[r s1]|] eqn:E; [|done]. cbn [mbind outcome_bind] in Hrun.
  destruct (run l s1) as [[rs' s2]|] eqn:E'; [|done]. cbn [mbind outcome_bind] in Hrun. injection Hrun as _ <-. apply (IH s1 rs'); [by apply (reach_step t o s r)|done|done].
Qed.

(** The kernel's first thread creates a process, which exits while it is
    waited for. *)
Definition ex_ops : list (positive * op) :=
  [(1, Create 2); (1, Created (Some 2)); (1, Waitpid 1 0); (2, Exit 0x500)]%positive.
Definition ex_state : system := match run ex_ops initial with Done (_, s) => s | Fault _ => initial end.

Example ex_wait :
  match run (ex_ops ++ [(1%positive, Resume)]) initial with
  | Done (rs, s) => rs = [Unit; Pid (Some 1); Wait Blocked; Unit; Wait (Returned 1 (Some 0x500))] /\ processes s = {[0 := kernel]}
  | Fault _ => False
  end.
Proof. vm_compute. split; reflexivity. Qed.

Lemma ex_reachable : reachable ex_state.
Proof. apply (reachable_run ex_ops initial [Unit; Pid (Some 1); Wait Blocked; Unit]); [constructor|vm_compute; reflexivity|vm_compute; reflexivity]. Qed.

(** The hypotheses hold after these operations. *)
Lemma processes_refine_witness :
  reachable ex_state /\ enabled 1 Resume ex_state /\
  exists r s', step 1 Resume ex_state = Done (r, s') /\ spec (abs ex_state) (self_pid ex_state 1) (target ex_state 1) Resume r (abs s').
Proof.
  assert (He : enabled 1 Resume ex_state) by (apply (bool_decide_unpack _); vm_compute; exact I).
  split; [exact ex_reachable|]. split; [exact He|]. exact (processes_refine ex_state 1 Resume ex_reachable He).
Defined.

Lemma no_lost_wait_witness :
  reachable ex_state /\ threads ex_state !! 1%positive = Some (mkThread 1 (WaitFor 2)) /\
  exists o, objects ex_state !! 2%positive = Some o /\ (1%positive ∈ waiting o <-> zombie o = false).
Proof. split; [exact ex_reachable|]. split; [vm_compute; reflexivity|]. exact (no_lost_wait ex_state 1 (mkThread 1 (WaitFor 2)) ex_reachable eq_refl). Defined.

(** A kernel thread that waits for any child, while another waits for the
    only one, is never let go: the first returns, the kernel has no children
    left, and nothing will wake the second. *)
Example ex_kernel_waits :
  match run [(1, Spawn 3); (1, Create 2); (1, Created (Some 2)); (1, Waitpid 1 0); (3, Waitpid (-1) 0); (2, Exit 0); (1, Resume)]%positive initial with
  | Done (rs, s) => rs = [Unit; Unit; Pid (Some 1); Wait Blocked; Wait Blocked; Unit; Wait (Returned 1 (Some 0))] /\
      genericWaiting s = [3%positive] /\ match objects s !! kernel with Some k => childs k = [] /\ zombies k = [] | None => False end
  | Fault _ => False
  end.
Proof. vm_compute. repeat split. Qed.

(** Nor when the kernel is given a child that has ended already. *)
Example ex_kernel_adopts :
  match run [(1, Spawn 3); (1, Create 2); (1, Created (Some 2)); (2, Create 4); (2, Created (Some 4)); (4, Exit 0);
             (1, Waitpid 1 0); (3, Waitpid (-1) 0); (2, Exit 0)]%positive initial with
  | Done (_, s) => genericWaiting s = [3%positive] /\ match objects s !! kernel with Some k => zombies k = [4%positive] | None => False end
  | Fault _ => False
  end.
Proof. vm_compute. split; reflexivity. Qed.

(** A thread can wait for a process whose thread is then not created: the
    object it waits on is deleted. *)
Example ex_create_fails :
  run [(1, Spawn 3); (1, Create 2); (3, Waitpid 1 0); (1, Created None); (3, Resume)]%positive initial = Fault Undefined.
Proof. vm_compute. reflexivity. Qed.

(** The counter of pids starts again from one. *)
Example ex_pid_wraps :
  match getNewPid (set_pidCounter (2 ^ 31 - 1) (set_processes {[0 := kernel; 1 := 2%positive]} initial)) with
  | Done (p, s) => p = 2 ^ 31 - 1 /\ match getNewPid s with Done (p', _) => p' = 2 | Fault _ => False end
  | Fault _ => False
  end.
Proof. vm_compute. split; reflexivity. Qed.

End Processes.
