(* ===== verification/Mpu.v ===== *)
(** * Memory protection

    [arch/common/core/mpu_cortexMx.h] and [.cpp]: the two regions of a
    process, as values of the registers of the memory protection unit, and
    the checks of the pointers that a process passes to the kernel.  Memory is
    a function from addresses to bytes. *)
From S2P Require Import Prelude Errors ProcessPool.

Local Open Scope Z_scope.

Module Mpu.

(** [CMSIS], [core_cm3.h]. *)
Definition MPU_RBAR_VALID_Msk : Z := Z.shiftl 1 4.
Definition MPU_RASR_AP_Pos : Z := 24.
Definition MPU_RASR_C_Msk : Z := Z.shiftl 1 17.
Definition MPU_RASR_XN_Msk : Z := Z.shiftl 1 28.

(** [assert] stops the system. *)
Definition assert (b : bool) : exec () := if b then Done () else errorHandler UNEXPECTED.

(** [__builtin_clz], of a number that is not zero. *)
Definition clz (x : Z) : Z := 31 - Z.log2 x.

Definition sizeToMpu (size : Z) : exec Z :=
  _ ← assert (32 <=? size);
  let result := u32 (30 - clz size) in
  Done (if negb (Z.land size (size - 1) =? 0) then u32 (result + 1) else result).

(** [1<<n]. *)
Definition shift1 (n : Z) : exec Z := if n <? 32 then Done (u32 (Z.shiftl 1 n)) else Fault Undefined.

Definition roundSizeForMPU (size : Z) : exec Z := n ← sizeToMpu size; shift1 (n + 1).

(** [regValues]. *)
Record MPUConfiguration := mkMpu { reg0 : Z; reg1 : Z; reg2 : Z; reg3 : Z }.

Definition low5 : Z := 0x1f.
Definition base_of (x : Z) : Z := Z.land x (u32 (Z.lnot low5)).

Definition new_MPUConfiguration (elfBase elfSize imageBase imageSize : Z) : exec MPUConfiguration :=
  let r0 := Z.lor (Z.lor (base_of elfBase) MPU_RBAR_VALID_Msk) 6 in
  let r2 := Z.lor (Z.lor (base_of imageBase) MPU_RBAR_VALID_Msk) 7 in
  es ← sizeToMpu elfSize;
  let r1 := Z.lor (Z.lor (Z.lor (Z.shiftl 2 MPU_RASR_AP_Pos) MPU_RASR_C_Msk) 1) (u32 (Z.shiftl es 1)) in
  ims ← sizeToMpu imageSize;
  let r3 := Z.lor (Z.lor (Z.lor (Z.lor (Z.shiftl 3 MPU_RASR_AP_Pos) MPU_RASR_XN_Msk) MPU_RASR_C_Msk) 1) (u32 (Z.shiftl ims 1)) in
  Done (mkMpu r0 r1 r2 r3).

(** The first address of a region, and the one after its last. *)
Definition region_end (rbar rasr : Z) : exec Z :=
  n ← shift1 (Z.land (Z.shiftr rasr 1) 31 + 1); Done (u32 (base_of rbar + n)).
Definition codeStart (m : MPUConfiguration) : Z := base_of (reg0 m).
Definition codeEnd (m : MPUConfiguration) : exec Z := region_end (reg0 m) (reg1 m).
Definition dataStart (m : MPUConfiguration) : Z := base_of (reg2 m).
Definition dataEnd (m : MPUConfiguration) : exec Z := region_end (reg2 m) (reg3 m).

Definition withinForReading (m : MPUConfiguration) (base size : Z) : exec bool :=
  ce ← codeEnd m; de ← dataEnd m;
  Done ((((codeStart m <=? base) && (u32 (base + size) <? ce)) || ((dataStart m <=? base) && (u32 (base + size) <? de))) && (base <=? u32 (base + size))).

Definition withinForWriting (m : MPUConfiguration) (base size : Z) : exec bool :=
  de ← dataEnd m;
  Done ((dataStart m <=? base) && (u32 (base + size) <? de) && (base <=? u32 (base + size))).

Fixpoint strnlen (mem : Z -> Z) (str : Z) (n : nat) : Z :=
  match n with O => 0 | S n => if mem str =? 0 then 0 else 1 + strnlen mem (str + 1) n end.

Definition withinForReading_str (m : MPUConfiguration) (mem : Z -> Z) (base : Z) : exec bool :=
  ce ← codeEnd m; de ← dataEnd m;
  Done (if (codeStart m <=? base) && (base <? ce) then strnlen mem base (Z.to_nat (ce - base)) <? ce - base
        else if (dataStart m <=? base) && (base <? de) then strnlen mem base (Z.to_nat (de - base)) <? de - base
        else false).

(** ** The regions *)

(** The least power of two not below a size. *)
Definition rounded (size : Z) : Z := 2 ^ Z.log2_up size.

Lemma power_of_two size : 0 < size -> (Z.land size (size - 1) = 0 <-> size = 2 ^ Z.log2 size).
Proof.
  intros Hs. destruct (Z.log2_spec size Hs) as [Hl Hu]. pose proof (Z.log2_nonneg size) as Hk. set (k := Z.log2 size) in *. split.
  - intros Hz. destruct (Z.eq_dec size (2 ^ k)) as [|Hne]; [done|exfalso].
    assert (Hb : Z.testbit (Z.land size (size - 1)) k = true); [|by rewrite Hz, Z.bits_0 in Hb].
    rewrite Z.land_spec. apply andb_true_intro. split; [by apply Z.bit_log2|].
    assert (Z.log2 (size - 1) = k) as <- by (apply Z.log2_unique; lia). apply Z.bit_log2. lia.
  - intros E. rewrite E, Z.sub_1_r, <- Z.ones_equiv, Z.land_ones by done. apply Z.mod_same. pose proof (Z.pow_pos_nonneg 2 k). lia.
Qed.

Lemma sizeToMpu_spec size : 32 <= size < 2 ^ 32 -> sizeToMpu size = Done (Z.log2_up size - 1).
Proof.
  intros Hs. unfold sizeToMpu. rewrite (proj2 (Z.leb_le 32 size)) by lia. cbn [assert mbind outcome_bind]. unfold clz.
  destruct (Z.log2_spec size ltac:(lia)) as [Hl Hu]. assert (Hk : 5 <= Z.log2 size < 32).
  { split; [apply (Z.log2_le_mono 32); lia|]. apply Z.log2_lt_pow2; lia. }
  pose proof (power_of_two size ltac:(lia)) as Hp. rewrite !wrapU_small by (try rewrite wrapU_small; lia). f_equal.
  destruct (Z.eqb_spec (Z.land size (size - 1)) 0) as [E|E]; cbn [negb].
  - apply Hp in E. rewrite E at 2. rewrite Z.log2_up_pow2 by lia. lia.
  - assert (Z.log2_up size = Z.log2 size + 1) as ->; [|lia]. apply Z.log2_up_unique; [lia|]. replace (Z.pred (Z.log2 size + 1)) with (Z.log2 size) by lia. rewrite Z.add_1_r. split; [|lia].
    assert (size <> 2 ^ Z.log2 size) by (intros E'; by apply E, Hp). lia.
Qed.

Lemma rounded_bound size : 32 <= size <= 2 ^ 31 -> 5 <= Z.log2_up size <= 31 /\ size <= rounded size <= 2 ^ 31.
Proof.
  intros Hs. pose proof (Z.log2_up_spec size ltac:(lia)) as [_ Hu]. assert (5 <= Z.log2_up size) by (apply (Z.log2_up_le_mono 32); lia).
  assert (Z.log2_up size <= 31) by (apply (Z.log2_up_le_mono size (2 ^ 31)); lia). split; [done|]. split; [done|].
  apply Z.pow_le_mono_r; lia.
Qed.

(** [roundSizeForMPU] gives the least region that holds a size. *)
Lemma roundSizeForMPU_spec size : 32 <= size <= 2 ^ 31 -> roundSizeForMPU size = Done (rounded size).
Proof.
  intros Hs. destruct (rounded_bound size Hs) as [Hk Hr]. unfold roundSizeForMPU. rewrite sizeToMpu_spec by lia. cbn [mbind outcome_bind]. unfold shift1.
  rewrite Z.sub_add, (proj2 (Z.ltb_lt _ 32)), Z.shiftl_1_l by lia. fold (rounded size). f_equal. apply wrapU_small. lia.
Qed.

Lemma rounded_power n : 0 <= n -> rounded (2 ^ n) = 2 ^ n.
Proof. intros Hn. unfold rounded. by rewrite Z.log2_up_pow2. Qed.

Lemma rounded_idem size : rounded (rounded size) = rounded size.
Proof. unfold rounded at 2 3. apply rounded_power, Z.log2_up_nonneg. Qed.

(** *** The registers *)
Lemma base_of_eq x : 0 <= x < 2 ^ 32 -> base_of x = Z.shiftl (Z.shiftr x 5) 5.
Proof.
  intros Hx. unfold base_of. change (u32 (Z.lnot low5)) with (Z.shiftl (Z.ones 27) 5). apply Z.bits_inj'. intros n Hn. rewrite Z.land_spec.
  destruct (Z.lt_ge_cases n 5); [by rewrite !Z.shiftl_spec_low, andb_false_r|]. rewrite !Z.shiftl_spec, Z.shiftr_spec, Z.sub_add by lia.
  destruct (Z.lt_ge_cases (n - 5) 27).
  - rewrite Z.ones_spec_low by lia. by rewrite andb_true_r.
  - rewrite Z.ones_spec_high, andb_false_r by lia. symmetry. rewrite <- (Z.mod_small x (2 ^ 32)) by done. apply Z.mod_pow2_bits_high. lia.
Qed.

Lemma base_of_lor b c d : 0 <= b < 2 ^ 32 -> 0 <= c < 32 -> 0 <= d < 32 -> base_of (Z.lor (Z.lor (base_of b) c) d) = base_of b.
Proof.
  intros Hb Hc Hd. unfold base_of. rewrite !Z.land_lor_distr_l, <- Z.land_assoc. change (Z.land (u32 (Z.lnot low5)) (u32 (Z.lnot low5))) with (u32 (Z.lnot low5)).
  assert (Hz : forall e, 0 <= e < 32 -> Z.land e (u32 (Z.lnot low5)) = 0).
  { intros e He. fold (base_of e). rewrite base_of_eq by lia. rewrite Z.shiftr_div_pow2 by lia. change (2 ^ 5) with 32. by rewrite Z.div_small. }
  by rewrite (Hz c Hc), (Hz d Hd), !Z.lor_0_r.
Qed.

Lemma base_of_aligned b : 0 <= b < 2 ^ 32 -> b mod 32 = 0 -> base_of b = b.
Proof.
  intros Hb Ha. rewrite base_of_eq, Z.shiftl_mul_pow2, Z.shiftr_div_pow2 by lia. change (2 ^ 5) with 32. pose proof (Z.div_mod b 32). lia.
Qed.

Lemma size_field k n : Z.land (Z.shiftr k 1) 31 = 0 -> 0 <= n < 32 -> Z.land (Z.shiftr (Z.lor k (u32 (Z.shiftl n 1))) 1) 31 = n.
Proof.
  intros Hk Hn. rewrite wrapU_small by (rewrite Z.shiftl_mul_pow2 by lia; lia).
  rewrite Z.shiftr_lor, Z.shiftr_shiftl_l by lia. rewrite Z.land_lor_distr_l, Hk, Z.lor_0_l. change (1 - 1) with 0. rewrite Z.shiftl_0_r.
  change 31 with (Z.ones 5). rewrite Z.land_ones by lia. by apply Z.mod_small.
Qed.

Lemma region_end_spec rbar k n : Z.land (Z.shiftr k 1) 31 = 0 -> 4 <= n < 31 -> region_end rbar (Z.lor k (u32 (Z.shiftl n 1))) = Done (u32 (base_of rbar + 2 ^ (n + 1))).
Proof.
  intros Hk Hn. unfold region_end. rewrite size_field by (done || lia). unfold shift1. rewrite (proj2 (Z.ltb_lt _ 32)), Z.shiftl_1_l by lia. cbn [mbind outcome_bind].
  do 2 f_equal. f_equal. apply wrapU_small. split; [apply Z.pow_nonneg; lia|]. apply Z.pow_lt_mono_r; lia.
Qed.

Record regions (m : MPUConfiguration) (cb cs db ds : Z) : Prop := {
  r_code : codeStart m = cb;
  r_code_end : codeEnd m = Done (u32 (cb + cs));
  r_data : dataStart m = db;
  r_data_end : dataEnd m = Done (u32 (db + ds));
}.

Lemma new_MPUConfiguration_spec cb cs db ds :
  0 <= cb < 2 ^ 32 -> cb mod 32 = 0 -> 0 <= db < 2 ^ 32 -> db mod 32 = 0 -> 32 <= cs <= 2 ^ 31 -> 32 <= ds <= 2 ^ 31 ->
  exists m, new_MPUConfiguration cb cs db ds = Done m /\ regions m cb (rounded cs) db (rounded ds).
Proof.
  intros Hcb Hca Hdb Hda Hcs Hds. destruct (rounded_bound cs Hcs) as [Hkc _], (rounded_bound ds Hds) as [Hkd _]. unfold new_MPUConfiguration.
  rewrite !sizeToMpu_spec by lia. cbn [mbind outcome_bind]. eexists. split; [reflexivity|].
  assert (Hb : forall b d, 0 <= b < 2 ^ 32 -> b mod 32 = 0 -> 0 <= d < 32 -> base_of (Z.lor (Z.lor (base_of b) MPU_RBAR_VALID_Msk) d) = b).
  { intros b d Hb1 Hb2 Hd. rewrite base_of_lor by (done || (unfold MPU_RBAR_VALID_Msk; simpl; lia)). by apply base_of_aligned. }
  split; unfold codeStart, codeEnd, dataStart, dataEnd; cbn [reg0 reg1 reg2 reg3].
  - by apply Hb.
  - rewrite region_end_spec by (done || lia). rewrite Hb by (done || lia). by rewrite Z.sub_add.
  - by apply Hb.
  - rewrite region_end_spec by (done || lia). rewrite Hb by (done || lia). by rewrite Z.sub_add.
Qed.

(** *** The checks

    A buffer is within a region, as [mpu_cortexMx.h] has it, when all its bytes
    are.  The checks accept less: they refuse a buffer that ends where the
    region does, and everything in a region that ends at the end of memory. *)
Definition within (b s p n : Z) : Prop := b <= p /\ p + n <= b + s.
Definition accepted (b s p n : Z) : Prop := within b s p n /\ p + n <> b + s /\ b + s < 2 ^ 32.

#[export] Instance within_dec b s p n : Decision (within b s p n) := _.
#[export] Instance accepted_dec b s p n : Decision (accepted b s p n) := _.

Lemma within_region b s p n :
  0 <= b -> 0 <= s -> b + s <= 2 ^ 32 -> 0 <= p < 2 ^ 32 -> 0 <= n < 2 ^ 32 ->
  (b <=? p) && (u32 (p + n) <? u32 (b + s)) && (p <=? u32 (p + n)) = bool_decide (accepted b s p n).
Proof.
  intros Hb Hs He Hp Hn. unfold accepted, within. apply eq_true_iff_eq. rewrite !andb_true_iff, !Z.leb_le, Z.ltb_lt, bool_decide_eq_true.
  assert (Hwrap : u32 (p + n) = if decide (p + n < 2 ^ 32) then p + n else p + n - 2 ^ 32).
  { case_decide; [apply wrapU_small; lia|]. unfold wrapU. replace (p + n) with (p + n - 2 ^ 32 + 1 * 2 ^ 32) at 1 by lia.
    rewrite Z_mod_plus_full. apply Z.mod_small. lia. }
  rewrite Hwrap. destruct (Z.eq_dec (b + s) (2 ^ 32)) as [E|E].
  - rewrite E. change (u32 (2 ^ 32)) with 0. case_decide; lia.
  - rewrite (wrapU_small 32 (b + s)) by lia. case_decide; lia.
Qed.

Section checks.
Context (m : MPUConfiguration) (cb cs db ds : Z).
Context (Hm : regions m cb cs db ds) (Hc : 0 <= cb /\ 0 <= cs /\ cb + cs <= 2 ^ 32) (Hd : 0 <= db /\ 0 <= ds /\ db + ds <= 2 ^ 32).

Lemma withinForWriting_spec p n : 0 <= p < 2 ^ 32 -> 0 <= n < 2 ^ 32 -> withinForWriting m p n = Done (bool_decide (accepted db ds p n)).
Proof.
  intros Hp Hn. unfold withinForWriting. rewrite (r_data_end _ _ _ _ _ Hm), (r_data _ _ _ _ _ Hm). cbn [mbind outcome_bind]. f_equal. apply within_region; tauto.
Qed.

Lemma withinForReading_spec p n :
  0 <= p < 2 ^ 32 -> 0 <= n < 2 ^ 32 -> withinForReading m p n = Done (bool_decide (accepted cb cs p n \/ accepted db ds p n)).
Proof.
  intros Hp Hn. unfold withinForReading.
  rewrite (r_code_end _ _ _ _ _ Hm), (r_code _ _ _ _ _ Hm), (r_data_end _ _ _ _ _ Hm), (r_data _ _ _ _ _ Hm). cbn [mbind outcome_bind].
  f_equal. rewrite andb_orb_distrib_l, !within_region by tauto.
  apply eq_true_iff_eq. by rewrite orb_true_iff, !bool_decide_eq_true.
Qed.

(** A string is accepted when its terminator is in the region where it
    starts. *)
Definition string_at (mem : Z -> Z) (p l : Z) : Prop := 0 <= l /\ mem (p + l) = 0 /\ forall i, 0 <= i < l -> mem (p + i) <> 0.
Definition string_inside (mem : Z -> Z) (b s p : Z) : Prop := exists l, string_at mem p l /\ accepted b s p l.
Definition string_within (mem : Z -> Z) (b s p : Z) : Prop := exists l, string_at mem p l /\ within b s p (l + 1).

Lemma strnlen_spec mem p n : let l := strnlen mem p n in 0 <= l <= Z.of_nat n /\ (forall i, 0 <= i < l -> mem (p + i) <> 0) /\ (l < Z.of_nat n -> mem (p + l) = 0).
Proof.
  revert p. induction n as [|n IH]; intros p; cbn [strnlen]; [split; [lia|]; split; [|lia]; intros i Hi; lia|].
  destruct (Z.eqb_spec (mem p) 0) as [E|E].
  - cbn zeta. split; [lia|]. split; [lia|]. intros _. by rewrite Z.add_0_r.
  - destruct (IH (p + 1)) as (Hl & Hno & Hend). cbn zeta in *. set (l := strnlen mem (p + 1) n) in *. split; [lia|]. split.
    + intros i Hi. destruct (Z.eq_dec i 0) as [->|]; [by rewrite Z.add_0_r|]. replace (p + i) with (p + 1 + (i - 1)) by lia. apply Hno. lia.
    + intros Hlt. replace (p + (1 + l)) with (p + 1 + l) by lia. apply Hend. lia.
Qed.

Lemma strnlen_region mem b s p :
  0 <= b -> 0 <= s -> b + s <= 2 ^ 32 -> b <= p -> p < u32 (b + s) -> strnlen mem p (Z.to_nat (u32 (b + s) - p)) < u32 (b + s) - p -> string_inside mem b s p.
Proof.
  intros Hb Hs He Hp Hlt Hl. assert (Hw : u32 (b + s) = b + s /\ b + s < 2 ^ 32).
  { destruct (Z.eq_dec (b + s) (2 ^ 32)) as [E|E]; [rewrite E in Hlt; change (u32 (2 ^ 32)) with 0 in Hlt; lia|]. split; [apply wrapU_small|]; lia. }
  destruct Hw as [Ew He']. rewrite Ew in *. destruct (strnlen_spec mem p (Z.to_nat (b + s - p))) as (Hb' & Hno & Hend). cbn zeta in *.
  exists (strnlen mem p (Z.to_nat (b + s - p))). split; [|unfold accepted, within; lia]. split; [lia|]. split; [apply Hend; lia|done].
Qed.

Lemma strnlen_string mem b s p : 0 <= b -> b + s < 2 ^ 32 -> string_within mem b s p -> strnlen mem p (Z.to_nat (u32 (b + s) - p)) < u32 (b + s) - p.
Proof.
  intros Hb He (l & (Hl & Hz & Hno) & Hlo & Hhi). rewrite wrapU_small by lia.
  destruct (strnlen_spec mem p (Z.to_nat (b + s - p))) as (Hb' & Hno' & _). cbn zeta in *. set (k := strnlen mem p _) in *.
  destruct (Z.le_gt_cases k l); [lia|]. destruct (Hno' l); [lia|done].
Qed.

Lemma string_inside_within mem b s p : string_inside mem b s p -> string_within mem b s p.
Proof. intros (l & Hl & [Hlo Hhi] & Hne & _). exists l. split; [done|]. unfold within. lia. Qed.

(** Every string of a region is accepted, of regions apart that end before the
    end of memory. *)
Lemma withinForReading_str_spec mem p :
  0 <= p < 2 ^ 32 -> exists b, withinForReading_str m mem p = Done b /\
    (b = true -> string_inside mem cb cs p \/ string_inside mem db ds p) /\
    (cb + cs < 2 ^ 32 -> db + ds < 2 ^ 32 -> cb + cs <= db \/ db + ds <= cb ->
     string_within mem cb cs p \/ string_within mem db ds p -> b = true).
Proof.
  intros Hp. unfold withinForReading_str.
  rewrite (r_code_end _ _ _ _ _ Hm), (r_code _ _ _ _ _ Hm), (r_data_end _ _ _ _ _ Hm), (r_data _ _ _ _ _ Hm). cbn [mbind outcome_bind].
  eexists. split; [reflexivity|]. split.
  - destruct (Z.leb_spec cb p), (Z.ltb_spec p (u32 (cb + cs))); cbn [andb].
    1: { intros Hl%Z.ltb_lt. left. apply strnlen_region; tauto. }
    all: destruct (Z.leb_spec db p), (Z.ltb_spec p (u32 (db + ds))); cbn [andb]; try done; intros Hl%Z.ltb_lt; right; apply strnlen_region; tauto.
  - intros Hce Hde Hsep Hs. assert (Hw : u32 (cb + cs) = cb + cs /\ u32 (db + ds) = db + ds) by (rewrite !wrapU_small by lia; done).
    assert (Hin : forall b s, string_within mem b s p -> b <= p < b + s) by (intros b s (l & (? & _) & [? ?]); lia).
    destruct Hs as [Hs|Hs]; pose proof (Hin _ _ Hs).
    + pose proof (strnlen_string mem cb cs p ltac:(lia) ltac:(lia) Hs) as Hl. destruct Hw as [-> _]. rewrite wrapU_small in Hl by lia. rewrite (proj2 (Z.leb_le cb p)), (proj2 (Z.ltb_lt p (cb + cs))) by lia. by apply Z.ltb_lt.
    + pose proof (strnlen_string mem db ds p ltac:(lia) ltac:(lia) Hs) as Hl. destruct Hw as [-> ->]. rewrite wrapU_small in Hl by lia. replace ((cb <=? p) && (p <? cb + cs)) with false by (symmetry; apply andb_false_iff; rewrite Z.leb_gt, Z.ltb_ge; lia).
      rewrite (proj2 (Z.leb_le db p)), (proj2 (Z.ltb_lt p (db + ds))) by lia. by apply Z.ltb_lt.
Qed.

End checks.

(** *** Blocks of the pool

    The region of a block is the block, so what is inside it is in no other. *)
Lemma block_power p a sz : ProcessPool.inv p -> ProcessPool.allocatedBlocks p !! a = Some sz -> sz <= 2 ^ 31 ->
  32 <= sz <= 2 ^ 31 /\ rounded sz = sz /\ 0 <= a /\ a mod 32 = 0 /\ a + sz <= 2 ^ 32.
Proof.
  intros Hi Ha Hmax. destruct (ProcessPool.inv_size p Hi a sz Ha) as [Hsz Hbad]. pose proof (ProcessPool.inv_aligned p Hi a sz Ha) as Hal.
  destruct (ProcessPool.inv_inside p Hi a sz Ha) as [Hb He]. pose proof (ProcessPool.inv_sized p Hi) as Hp.
  destruct (ProcessPool.good_size sz p Hsz Hbad) as (Hq & Hpos & _). pose proof ProcessPool.blockSize_eq as Hbs.
  assert (H32 : 32 <= sz) by nia. split; [lia|].
  assert (E : sz = 2 ^ Z.log2 sz).
  { apply power_of_two; [lia|]. unfold ProcessPool.bad_size in Hbad. apply orb_false_iff in Hbad as [[Hl _]%orb_false_iff _].
    apply negb_false_iff, Z.eqb_eq in Hl. by rewrite wrapU_small in Hl by lia. }
  split; [rewrite E at 1; rewrite rounded_power by apply Z.log2_nonneg; done|].
  destruct Hp. split; [lia|]. split; [|lia].
  assert (Hdiv : (32 | sz)).
  { rewrite E. exists (2 ^ (Z.log2 sz - 5)). change 32 with (2 ^ 5). rewrite <- Z.pow_add_r; [f_equal; lia| |lia].
    assert (5 <= Z.log2 sz) by (apply (Z.log2_le_mono 32); lia). lia. }
  apply Z.mod_divide in Hal; [|lia]. apply Z.mod_divide; [lia|]. etrans; eauto.
Qed.

End Mpu.
