(* ===== verification/Syscalls.v ===== *)
(** * System calls

    [Process::handleSvc], the main loop of [Process::start] and the
    construction of a process, in [kernel/process.cpp]; the table of the
    programs that can be started, [kernel/SystemMap.cpp].  A system call is a
    tree: what it asks of the rest of the kernel, and how it goes on for each answer.
    The parameters are registers in the frame of the thread, and the first is also
    the return value.  The functions of the descriptor table are in [FileAccess],
    those on processes in [Processes]. *)
From S2P Require Import Prelude Errors ProcessPool ElfLoader Processes Mpu.

Local Open Scope Z_scope.

Module Syscalls.

(** ** [SystemMap]

    Names are their bytes. *)
Definition ProgramsMap : Type := gmap (list Z) (Z * Z).
Definition addElfProgram (name : list Z) (elf size : Z) (m : ProgramsMap) : ProgramsMap :=
  match m !! name with None => <[name := (elf, size)]> m | Some _ => m end.
Definition removeElfProgram (name : list Z) (m : ProgramsMap) : ProgramsMap :=
  match m !! name with Some _ => delete name m | None => m end.
Definition getElfProgram (name : list Z) (m : ProgramsMap) : Z * Z :=
  match m !! name with None => (0, 0) | Some p => p end.
Definition getElfCount (m : ProgramsMap) : Z := Z.of_nat (size m).

(** ** [SyscallParameters] *)
Record SyscallParameters := mkParams { reg0 : Z; reg1 : Z; reg2 : Z; reg3 : Z }.
Definition getSyscallId (sp : SyscallParameters) : Z := s32 (reg3 sp).
Definition getFirstParameter (sp : SyscallParameters) : Z := reg0 sp.
Definition getSecondParameter (sp : SyscallParameters) : Z := reg1 sp.
Definition getThirdParameter (sp : SyscallParameters) : Z := reg2 sp.
Definition setReturnValue (ret : Z) (sp : SyscallParameters) : SyscallParameters := mkParams (u32 ret) (reg1 sp) (reg2 sp) (reg3 sp).

(** [enum Syscalls]. *)
Definition SYS_YIELD : Z := 0.
Definition SYS_USERSPACE : Z := 1.
Definition SYS_EXIT : Z := 2.
Definition SYS_WRITE : Z := 3.
Definition SYS_READ : Z := 4.
Definition SYS_USLEEP : Z := 5.
Definition SYS_OPEN : Z := 6.
Definition SYS_CLOSE : Z := 7.
Definition SYS_LSEEK : Z := 8.
Definition SYS_SYSTEM : Z := 9.
Definition SYS_FSTAT : Z := 10.
Definition SYS_ISATTY : Z := 11.
Definition SYS_STAT : Z := 12.
Definition SYS_LSTAT : Z := 13.
Definition SYS_FCNTL : Z := 14.
Definition SYS_IOCTL : Z := 15.
Definition SYS_GETDENTS : Z := 16.
Definition SYS_GETCWD : Z := 17.
Definition SYS_CHDIR : Z := 18.
Definition SYS_MKDIR : Z := 19.
Definition SYS_RMDIR : Z := 20.
Definition SYS_UNLINK : Z := 21.
Definition SYS_RENAME : Z := 22.

(** [errno.h], [fcntl.h] and [signal.h] of newlib. *)
Definition ENOMEM : Z := 12.
Definition EFAULT : Z := 14.
Definition O_CREAT : Z := 0x200.
Definition SIGSEGV : Z := 11.
Definition SIGSYS : Z := 12.
Definition WEXITSTATUS (status : Z) : Z := Z.land (Z.shiftr status 8) 0xff.

Definition aligned (x : Z) : bool := Z.land x 3 =? 0.

(** ** What a system call asks for *)
Inductive file_call :=
| Write (fd ptr size : Z) | Read (fd ptr size : Z) | Open (str flags mode : Z) | Close (fd : Z) | Lseek (fd pos whence : Z)
| Fstat (fd pstat : Z) | Isatty (fd : Z) | Stat (str pstat : Z) | Lstat (str pstat : Z) | Fcntl (fd cmd opt : Z)
| Getdents (fd ptr size : Z) | Getcwd (buf size : Z) | Chdir (str : Z) | Mkdir (str mode : Z) | Rmdir (str : Z) | Unlink (str : Z) | Rename (oldName newName : Z).

Abbreviation memory := (Z -> Z).

(** An answer is a value, or no value for an exception; files can change
    memory.  [Result] has whether the process goes on, the registers, and the exit
    code if it is set.  [Waitpid] answers with the exit code it writes, if it does. *)
Inductive svc :=
| Result (running : bool) (sp : SyscallParameters) (exitCode : option Z)
| File (c : file_call) (k : option Z -> memory -> svc)
| Sleep (us : Z) (k : Z -> svc)
| GetElfProgram (str : Z) (k : Z * Z -> svc)
| Create (elf size : Z) (k : option Z -> svc)
| Waitpid (pid : Z) (k : option Z -> svc)
| Fail (f : fault).

Definition check (e : exec bool) (k : bool -> svc) : svc := match e with Done b => k b | Fault f => Fail f end.

(** The exception handler around all calls. *)
Definition caught (sp : SyscallParameters) : svc := Result true (setReturnValue (- ENOMEM) sp) None.
Definition reply (ret : Z) (sp : SyscallParameters) : svc := Result true (setReturnValue ret sp) None.
Definition finish (sp : SyscallParameters) (r : option Z) (_ : memory) : svc :=
  match r with Some ret => reply ret sp | None => caught sp end.

Definition both (a b : exec bool) : exec bool := mbind (fun x : bool => if x then b else Done false) a.

Section syscalls.
Context (sizeof_stat : Z) (m : Mpu.MPUConfiguration).

Definition svc_fcntl (sp : SyscallParameters) : svc :=
  File (Fcntl (s32 (getFirstParameter sp)) (s32 (getSecondParameter sp)) (s32 (getThirdParameter sp))) (finish sp).

(** [SYS_STAT] and [SYS_LSTAT] have no [break]. *)
Definition stat_arguments (mem : memory) (sp : SyscallParameters) : exec bool :=
  let str := getFirstParameter sp in
  let pstat := getSecondParameter sp in
  both (Mpu.withinForReading_str m mem str) (both (Mpu.withinForWriting m pstat sizeof_stat) (Done (aligned pstat))).

Definition svc_lstat (mem : memory) (sp : SyscallParameters) : svc :=
  check (stat_arguments mem sp) (fun ok =>
    if ok then
      File (Lstat (getFirstParameter sp) (getSecondParameter sp)) (fun r _ =>
        match r with Some result => svc_fcntl (setReturnValue result sp) | None => caught sp end)
    else svc_fcntl (setReturnValue (- EFAULT) sp)).

Definition svc_stat (mem : memory) (sp : SyscallParameters) : svc :=
  check (stat_arguments mem sp) (fun ok =>
    if ok then
      File (Stat (getFirstParameter sp) (getSecondParameter sp)) (fun r mem =>
        match r with Some result => svc_lstat mem (setReturnValue result sp) | None => caught sp end)
    else svc_lstat mem (setReturnValue (- EFAULT) sp)).

Definition svc_system (mem : memory) (sp : SyscallParameters) : svc :=
  let str := getFirstParameter sp in
  check (Mpu.withinForReading_str m mem str) (fun ok =>
    if ok then
      GetElfProgram str (fun '(elf, size) =>
        if (elf =? 0) || (size =? 0) then reply (-1) sp
        else
          Create elf size (fun child =>
            match child with
            | None => caught sp
            | Some child => Waitpid child (fun exit => reply (WEXITSTATUS (default 0 exit)) sp)
            end))
    else reply (- EFAULT) sp).

(** A call with the pointers checked. *)
Definition checked (ok : exec bool) (c : file_call) (sp : SyscallParameters) : svc :=
  check ok (fun ok => if ok then File c (finish sp) else reply (- EFAULT) sp).

Definition handleSvc (mem : memory) (sp : SyscallParameters) : svc :=
  let id := getSyscallId sp in
  let p1 := getFirstParameter sp in
  let p2 := getSecondParameter sp in
  let p3 := getThirdParameter sp in
  if id =? SYS_EXIT then Result false sp (Some (s16 (Z.shiftl (Z.land p1 0xff) 8)))
  else if id =? SYS_WRITE then checked (Mpu.withinForReading m p2 p3) (Write (s32 p1) p2 p3) sp
  else if id =? SYS_READ then checked (Mpu.withinForWriting m p2 p3) (Read (s32 p1) p2 p3) sp
  else if id =? SYS_USLEEP then Sleep p1 (fun r => reply r sp)
  else if id =? SYS_OPEN then
    let flags := s32 p2 in
    checked (Mpu.withinForReading_str m mem p1) (Open p1 flags (if negb (Z.land flags O_CREAT =? 0) then s32 p3 else 0)) sp
  else if id =? SYS_CLOSE then File (Close (s32 p1)) (finish sp)
  else if id =? SYS_LSEEK then File (Lseek (s32 p1) p2 (s32 p3)) (finish sp)
  else if id =? SYS_SYSTEM then svc_system mem sp
  else if id =? SYS_FSTAT then
    checked (both (Mpu.withinForWriting m p2 sizeof_stat) (Done (aligned p2))) (Fstat (s32 p1) p2) sp
  else if id =? SYS_ISATTY then File (Isatty (s32 p1)) (finish sp)
  else if id =? SYS_STAT then svc_stat mem sp
  else if id =? SYS_LSTAT then svc_lstat mem sp
  else if id =? SYS_FCNTL then svc_fcntl sp
  else if id =? SYS_IOCTL then Result true sp None
  else if id =? SYS_GETDENTS then checked (Mpu.withinForWriting m p2 p3) (Getdents (s32 p1) p2 p3) sp
  else if id =? SYS_GETCWD then checked (Mpu.withinForWriting m p1 p2) (Getcwd p1 p2) sp
  else if id =? SYS_CHDIR then checked (Mpu.withinForReading_str m mem p1) (Chdir p1) sp
  else if id =? SYS_MKDIR then checked (Mpu.withinForReading_str m mem p1) (Mkdir p1 (s32 p2)) sp
  else if id =? SYS_RMDIR then checked (Mpu.withinForReading_str m mem p1) (Rmdir p1) sp
  else if id =? SYS_UNLINK then checked (Mpu.withinForReading_str m mem p1) (Unlink p1) sp
  else if id =? SYS_RENAME then
    checked (both (Mpu.withinForReading_str m mem p1) (Mpu.withinForReading_str m mem p2)) (Rename p1 p2) sp
  else Result false sp (Some SIGSYS).

(** One turn of the loop of [start]: whether there was a fault, what
    [handleSvc] gave otherwise, whether the thread is asked to terminate, the exit
    code so far. *)
Definition start_turn (faultHappened : bool) (svc_result : bool * option Z) (testTerminate : bool) (exitCode : Z) : bool * Z :=
  let '(running, exitCode) :=
    if faultHappened then (false, SIGSEGV) else (svc_result.1, default exitCode svc_result.2) in
  (running && negb testTerminate, exitCode).

End syscalls.

(** ** The construction of a process *)
Record Process := mkProcess { program : ElfLoader.ElfProgram; image : ElfLoader.ProcessImage; mpu : Mpu.MPUConfiguration }.

(** [_elf_pool_start] and [_elf_pool_end] are those of the linker, words. *)
Definition construct (ram : Z -> Z) (pool_start pool_end : Z) (p : ElfLoader.ElfProgram) (pl : ProcessPool.ProcessPool) :
    exec ((Process + ProcessPool.exn) * ProcessPool.ProcessPool) :=
  '(x, im, pl) ← ElfLoader.load ram p ElfLoader.ProcessImage_new pl;
  match x with
  | Some x => '(_, pl) ← ElfLoader.ProcessImage_drop im pl; Done (inr x, pl)
  | None =>
      _ ← Mpu.roundSizeForMPU (if ElfLoader.size p <? ProcessPool.blockSize then ProcessPool.blockSize else ElfLoader.size p);
      elfPoolSize ← Mpu.roundSizeForMPU ((pool_end - pool_start) / 4 * 4);
      base ← deref (ElfLoader.image im);
      mp ← Mpu.new_MPUConfiguration pool_start elfPoolSize base (ElfLoader.image_size im);
      Done (inl (mkProcess p im mp), pl)
  end.

(** ** Running a call

    The rest of the kernel, and what a call makes of it: the calls on files,
    memory afterwards, and the result. *)
Record environment := mkEnv {
  on_file : file_call -> memory -> option Z * memory; on_sleep : Z -> Z; on_get : memory -> Z -> Z * Z; on_create : Z -> Z -> option Z; on_wait : Z -> option Z }.
Definition outcome_of_call : Type := list file_call * memory * (bool * SyscallParameters * option Z).

Fixpoint run (w : environment) (mem : memory) (s : svc) : exec outcome_of_call :=
  match s with
  | Result r sp e => Done ([], mem, (r, sp, e))
  | File c k =>
      let '(a, mem') := on_file w c mem in
      '(l, mem'', r) ← run w mem' (k a mem'); Done (c :: l, mem'', r)
  | Sleep us k => run w mem (k (on_sleep w us))
  | GetElfProgram str k => run w mem (k (on_get w mem str))
  | Create elf size k => run w mem (k (on_create w elf size))
  | Waitpid pid k => run w mem (k (on_wait w pid))
  | Fail f => Fault f
  end.

(** ** What a call may touch

    [safe mem s]: every pointer given to the rest of the kernel is to memory
    of the regions, for the whole size, and a string is to one that ends in
    its region; no check fails. *)
Section safe.
Context (sizeof_stat cb cs db ds : Z).

Definition writes (p n : Z) : Prop := Mpu.accepted db ds p n.
Definition reads (p n : Z) : Prop := Mpu.accepted cb cs p n \/ Mpu.accepted db ds p n.
Definition reads_string (mem : memory) (p : Z) : Prop := Mpu.string_inside mem cb cs p \/ Mpu.string_inside mem db ds p.
Definition writes_stat (p : Z) : Prop := writes p sizeof_stat /\ p mod 4 = 0.

Definition call_safe (mem : memory) (c : file_call) : Prop :=
  match c with
  | Write _ p n => reads p n
  | Read _ p n | Getdents _ p n | Getcwd p n => writes p n
  | Fstat _ p => writes_stat p
  | Stat s p | Lstat s p => reads_string mem s /\ writes_stat p
  | Open s _ _ | Chdir s | Mkdir s _ | Rmdir s | Unlink s => reads_string mem s
  | Rename a b => reads_string mem a /\ reads_string mem b
  | Close _ | Lseek _ _ _ | Isatty _ | Fcntl _ _ _ => True
  end.

Fixpoint safe (mem : memory) (s : svc) : Prop :=
  match s with
  | Result _ _ _ => True
  | File c k => call_safe mem c /\ forall r mem', safe mem' (k r mem')
  | GetElfProgram str k => reads_string mem str /\ forall r, safe mem (k r)
  | Sleep _ k => forall r, safe mem (k r)
  | Create _ _ k => forall r, safe mem (k r)
  | Waitpid _ k => forall r, safe mem (k r)
  | Fail _ => False
  end.

(** The registers are words. *)
Definition words (sp : SyscallParameters) : Prop :=
  0 <= reg0 sp < 2 ^ 32 /\ 0 <= reg1 sp < 2 ^ 32 /\ 0 <= reg2 sp < 2 ^ 32 /\ 0 <= reg3 sp < 2 ^ 32.

Lemma setReturnValue_words ret sp : words sp -> words (setReturnValue ret sp).
Proof. intros (_ & H1 & H2 & H3). split; [by apply (wrapU_bound 32)|done]. Qed.

(** *** The checks *)
Context (m : Mpu.MPUConfiguration).
Context (Hm : Mpu.regions m cb cs db ds) (Hc : 0 <= cb /\ 0 <= cs /\ cb + cs <= 2 ^ 32) (Hd : 0 <= db /\ 0 <= ds /\ db + ds <= 2 ^ 32).
Context (Hstat : 0 <= sizeof_stat < 2 ^ 32).

(** A check decides, and when it accepts, [P] holds. *)
Definition ensures (e : exec bool) (P : Prop) : Prop := exists b, e = Done b /\ (b = true -> P).

Lemma ensures_both a b P Q : ensures a P -> ensures b Q -> ensures (both a b) (P /\ Q).
Proof.
  intros (x & -> & Hx) (y & -> & Hy). unfold both. cbn [mbind outcome_bind].
  destruct x; eexists; (split; [reflexivity|]); [intros ->; split; auto|done].
Qed.

Lemma ensures_writes p n : 0 <= p < 2 ^ 32 -> 0 <= n < 2 ^ 32 -> ensures (Mpu.withinForWriting m p n) (writes p n).
Proof. intros Hp Hn. eexists. split; [by eapply Mpu.withinForWriting_spec|]. apply bool_decide_eq_true. Qed.

Lemma ensures_reads p n : 0 <= p < 2 ^ 32 -> 0 <= n < 2 ^ 32 -> ensures (Mpu.withinForReading m p n) (reads p n).
Proof. intros Hp Hn. eexists. split; [by eapply Mpu.withinForReading_spec|]. apply bool_decide_eq_true. Qed.

Lemma ensures_string mem p : 0 <= p < 2 ^ 32 -> ensures (Mpu.withinForReading_str m mem p) (reads_string mem p).
Proof. intros Hp. destruct (Mpu.withinForReading_str_spec m cb cs db ds Hm Hc Hd mem p Hp) as (b & Hb & Hs & _). by exists b. Qed.

Lemma ensures_stat p : 0 <= p < 2 ^ 32 -> ensures (both (Mpu.withinForWriting m p sizeof_stat) (Done (aligned p))) (writes_stat p).
Proof.
  intros Hp. apply ensures_both; [by apply ensures_writes|]. eexists. split; [reflexivity|]. intros Ha%Z.eqb_eq. by apply ElfLoader.land3.
Qed.

Lemma ensures_stat_arguments mem sp : words sp -> ensures (stat_arguments sizeof_stat m mem sp) (reads_string mem (reg0 sp) /\ writes_stat (reg1 sp)).
Proof. intros (H0 & H1 & _). apply ensures_both; [by apply ensures_string|by apply ensures_stat]. Qed.

Lemma safe_check mem e k P : ensures e P -> (P -> safe mem (k true)) -> safe mem (k false) -> safe mem (check e k).
Proof. intros (b & -> & Hb) Ht Hf. simpl. destruct b; auto. Qed.

Lemma safe_finish sp r mem mem' : safe mem (finish sp r mem').
Proof. by destruct r. Qed.

Lemma safe_checked mem e c sp : ensures e (call_safe mem c) -> safe mem (checked e c sp).
Proof. intros He. eapply safe_check; [exact He| |done]. intros Hs. split; [done|]. intros r mem'. apply safe_finish. Qed.

Lemma safe_fcntl mem sp : safe mem (svc_fcntl sp).
Proof. split; [done|]. intros r mem'. apply safe_finish. Qed.

Lemma safe_lstat mem sp : words sp -> safe mem (svc_lstat sizeof_stat m mem sp).
Proof.
  intros Hw. eapply safe_check; [by apply ensures_stat_arguments| |apply safe_fcntl]. intros Hs. split; [done|].
  intros [r|] mem'; [apply safe_fcntl|done].
Qed.

Lemma safe_stat mem sp : words sp -> safe mem (svc_stat sizeof_stat m mem sp).
Proof.
  intros Hw. eapply safe_check; [by apply ensures_stat_arguments| |by apply safe_lstat, setReturnValue_words]. intros Hs. split; [done|].
  intros [r|] mem'; [by apply safe_lstat, setReturnValue_words|done].
Qed.

Lemma safe_system mem sp : words sp -> safe mem (svc_system m mem sp).
Proof.
  intros (H0 & _). eapply safe_check; [by apply ensures_string| |done]. intros Hs. split; [done|]. intros [elf size].
  destruct (_ || _); [done|]. by intros [child|].
Qed.

Lemma safe_handleSvc mem sp : words sp -> safe mem (handleSvc sizeof_stat m mem sp).
Proof.
  intros Hw. pose proof Hw as (H0 & H1 & H2 & _). unfold handleSvc, getFirstParameter, getSecondParameter, getThirdParameter.
  repeat (match goal with |- safe _ (if ?b then _ else _) => destruct b end); try done;
    try (apply safe_checked; first [by apply ensures_reads|by apply ensures_writes|by apply ensures_string|by apply ensures_stat|by apply ensures_both; apply ensures_string]);
    try (split; [done|]; intros r mem'; apply safe_finish); [by apply safe_system|by apply safe_stat|by apply safe_lstat].
Qed.

(** *** The answers

    A call for the descriptor table that gives its answer: what the registers
    ask for.  An offset of [SYS_LSEEK] is one of 32 bits that is not negative. *)
Definition direct (sp : SyscallParameters) : option file_call :=
  let id := getSyscallId sp in
  let '(mkParams p1 p2 p3 _) := sp in
  if id =? SYS_WRITE then Some (Write (s32 p1) p2 p3)
  else if id =? SYS_READ then Some (Read (s32 p1) p2 p3)
  else if id =? SYS_OPEN then Some (Open p1 (s32 p2) (if negb (Z.land (s32 p2) O_CREAT =? 0) then s32 p3 else 0))
  else if id =? SYS_CLOSE then Some (Close (s32 p1))
  else if id =? SYS_LSEEK then if p2 <? 2 ^ 31 then Some (Lseek (s32 p1) p2 (s32 p3)) else None
  else if id =? SYS_FSTAT then Some (Fstat (s32 p1) p2)
  else if id =? SYS_ISATTY then Some (Isatty (s32 p1))
  else if id =? SYS_FCNTL then Some (Fcntl (s32 p1) (s32 p2) (s32 p3))
  else if id =? SYS_GETDENTS then Some (Getdents (s32 p1) p2 p3)
  else if id =? SYS_GETCWD then Some (Getcwd p1 p2)
  else if id =? SYS_CHDIR then Some (Chdir p1)
  else if id =? SYS_MKDIR then Some (Mkdir p1 (s32 p2))
  else if id =? SYS_RMDIR then Some (Rmdir p1)
  else if id =? SYS_UNLINK then Some (Unlink p1)
  else if id =? SYS_RENAME then Some (Rename p1 p2)
  else None.

(** The calls whose answer is lost. *)
Definition stats (sp : SyscallParameters) : option file_call :=
  if getSyscallId sp =? SYS_STAT then Some (Stat (reg0 sp) (reg1 sp))
  else if getSyscallId sp =? SYS_LSTAT then Some (Lstat (reg0 sp) (reg1 sp))
  else None.

(** A process may give what is within its regions. *)
Definition may_read (p n : Z) : Prop := Mpu.within cb cs p n \/ Mpu.within db ds p n.
Definition may_write (p n : Z) : Prop := Mpu.within db ds p n.
Definition may_read_string (mem : memory) (p : Z) : Prop := Mpu.string_within mem cb cs p \/ Mpu.string_within mem db ds p.
Definition may_write_stat (p : Z) : Prop := may_write p sizeof_stat /\ p mod 4 = 0.

Definition permitted (mem : memory) (c : file_call) : Prop :=
  match c with
  | Write _ p n => may_read p n
  | Read _ p n | Getdents _ p n | Getcwd p n => may_write p n
  | Fstat _ p => may_write_stat p
  | Stat s p | Lstat s p => may_read_string mem s /\ may_write_stat p
  | Open s _ _ | Chdir s | Mkdir s _ | Rmdir s | Unlink s => may_read_string mem s
  | Rename a b => may_read_string mem a /\ may_read_string mem b
  | Close _ | Lseek _ _ _ | Isatty _ | Fcntl _ _ _ => True
  end.

(** A buffer whose last byte is the last of a region. *)
Definition at_end (c : file_call) : Prop :=
  match c with
  | Write _ p n => p + n = cb + cs \/ p + n = db + ds
  | Read _ p n | Getdents _ p n | Getcwd p n => p + n = db + ds
  | Fstat _ p | Stat _ p | Lstat _ p => p + sizeof_stat = db + ds
  | _ => False
  end.

(** The regions are apart and end before the end of memory. *)
Definition separate : Prop := cb + cs < 2 ^ 32 /\ db + ds < 2 ^ 32 /\ (cb + cs <= db \/ db + ds <= cb).

(** Whether a call is let through: only if it is permitted, and if it is,
    unless a buffer ends at the end of a region. *)
Definition decided (mem : memory) (c : file_call) (ok : bool) : Prop :=
  (ok = true -> permitted mem c) /\ (separate -> permitted mem c -> ~ at_end c -> ok = true).

Definition answer (w : environment) (mem : memory) (sp : SyscallParameters) (c : file_call) (ok : bool) : outcome_of_call :=
  if ok then ([c], (on_file w c mem).2, (true, setReturnValue (default (- ENOMEM) (on_file w c mem).1) sp, None))
  else ([], mem, (true, setReturnValue (- EFAULT) sp, None)).

Lemma run_file w mem c sp : run w mem (File c (finish sp)) = Done (answer w mem sp c true).
Proof. simpl. by destruct (on_file w c mem) as [[r|] mem']. Qed.

Lemma run_checked w mem b c sp : run w mem (checked (Done b) c sp) = Done (answer w mem sp c b).
Proof. destruct b; [apply run_file|done]. Qed.

(** Each check decides. *)
Definition decides (e : exec bool) (P Q : Prop) : Prop := exists b, e = Done b /\ (b = true -> P) /\ (separate -> P -> ~ Q -> b = true).

Lemma decides_both a b P Q R T : decides a P R -> decides b Q T -> decides (both a b) (P /\ Q) (R \/ T).
Proof.
  intros (x & -> & Hx & Hx') (y & -> & Hy & Hy'). unfold both. cbn [mbind outcome_bind]. destruct x.
  - exists y. split; [done|]. split; [intros E; split; auto|]. intros Hs [? ?] ?. apply Hy'; auto.
  - exists false. split; [done|]. split; [done|]. intros Hs [? ?] ?. apply Hx'; auto.
Qed.

Lemma decides_writes p n : 0 <= p < 2 ^ 32 -> 0 <= n < 2 ^ 32 -> decides (Mpu.withinForWriting m p n) (may_write p n) (p + n = db + ds).
Proof.
  intros Hp Hn. eexists. split; [by eapply Mpu.withinForWriting_spec|]. rewrite bool_decide_eq_true. split; [by intros []|].
  intros (_ & ? & _) ? ?. by split.
Qed.

Lemma decides_reads p n : 0 <= p < 2 ^ 32 -> 0 <= n < 2 ^ 32 -> decides (Mpu.withinForReading m p n) (may_read p n) (p + n = cb + cs \/ p + n = db + ds).
Proof.
  intros Hp Hn. eexists. split; [by eapply Mpu.withinForReading_spec|]. rewrite bool_decide_eq_true. unfold may_read, Mpu.accepted.
  split; [tauto|]. intros (? & ? & _). tauto.
Qed.

Lemma decides_string mem p : 0 <= p < 2 ^ 32 -> decides (Mpu.withinForReading_str m mem p) (may_read_string mem p) False.
Proof.
  intros Hp. destruct (Mpu.withinForReading_str_spec m cb cs db ds Hm Hc Hd mem p Hp) as (b & Hb & Hs & Ha). exists b. split; [done|]. split.
  - intros E. destruct (Hs E); [left|right]; by apply Mpu.string_inside_within.
  - intros (? & ? & ?) ? _. by apply Ha.
Qed.

Lemma decides_stat p : 0 <= p < 2 ^ 32 -> decides (both (Mpu.withinForWriting m p sizeof_stat) (Done (aligned p))) (may_write_stat p) (p + sizeof_stat = db + ds \/ False).
Proof.
  intros Hp. apply decides_both; [by apply decides_writes|]. eexists. split; [reflexivity|]. unfold aligned. change 3 with (Z.ones 2). rewrite Z.land_ones by done.
  split; [apply Z.eqb_eq|]. intros _ E _. by apply Z.eqb_eq.
Qed.

Lemma decides_strings mem p q : 0 <= p < 2 ^ 32 -> 0 <= q < 2 ^ 32 ->
  decides (both (Mpu.withinForReading_str m mem p) (Mpu.withinForReading_str m mem q)) (may_read_string mem p /\ may_read_string mem q) (False \/ False).
Proof. intros. by apply decides_both; apply decides_string. Qed.

Lemma decides_stat_arguments mem sp : words sp ->
  decides (stat_arguments sizeof_stat m mem sp) (may_read_string mem (reg0 sp) /\ may_write_stat (reg1 sp)) (False \/ (reg1 sp + sizeof_stat = db + ds \/ False)).
Proof. intros (H0 & H1 & _). apply decides_both; [by apply decides_string|by apply decides_stat]. Qed.

Lemma run_decided w mem e c sp P Q :
  decides e P Q -> (permitted mem c <-> P) -> (Q -> at_end c) -> exists ok, run w mem (checked e c sp) = Done (answer w mem sp c ok) /\ decided mem c ok.
Proof.
  intros (b & -> & H1 & H2) HP HQ. exists b. split; [apply run_checked|]. split; [intros E; by apply HP, H1|]. intros Hs Hc' Hn. apply H2; [done|by apply HP|auto].
Qed.

Lemma run_free w mem c sp : (permitted mem c <-> True) -> exists ok, run w mem (File c (finish sp)) = Done (answer w mem sp c ok) /\ decided mem c ok.
Proof. intros HP. exists true. split; [apply run_file|]. split; [intros _; by apply HP|done]. Qed.

(** The process goes on, and its registers are those of the call but for the
    value returned. *)
Definition goes_on (w : environment) (mem : memory) (sp : SyscallParameters) (s : svc) : Prop :=
  exists l mem' ret, run w mem s = Done (l, mem', (true, setReturnValue ret sp, None)).

Lemma answer_goes_on w mem sp s c ok : run w mem s = Done (answer w mem sp c ok) -> goes_on w mem sp s.
Proof. intros E. unfold goes_on. rewrite E. destruct ok; by repeat eexists. Qed.

Lemma goes_on_ret w mem ret sp s : goes_on w mem (setReturnValue ret sp) s -> goes_on w mem sp s.
Proof. by intros (l & mem' & r & E); exists l, mem', r. Qed.

Lemma goes_on_file w mem sp c k : (forall r mem', goes_on w mem' sp (k r mem')) -> goes_on w mem sp (File c k).
Proof.
  intros Hk. unfold goes_on. simpl. destruct (on_file w c mem) as [r mem']. destruct (Hk r mem') as (l & mem'' & ret & E). rewrite E. by repeat eexists.
Qed.

Lemma goes_on_reply w mem ret sp : goes_on w mem sp (reply ret sp).
Proof. by repeat eexists. Qed.

Lemma goes_on_finish w mem mem' sp r : goes_on w mem sp (finish sp r mem').
Proof. destruct r; apply goes_on_reply. Qed.

Lemma goes_on_check w mem sp e k P : ensures e P -> goes_on w mem sp (k true) -> goes_on w mem sp (k false) -> goes_on w mem sp (check e k).
Proof. intros ([] & -> & _) Ht Hf; done. Qed.

Lemma goes_on_checked w mem sp e c P : ensures e P -> goes_on w mem sp (checked e c sp).
Proof. intros He. eapply goes_on_check; [exact He|apply goes_on_file; intros; apply goes_on_finish|apply goes_on_reply]. Qed.

Lemma goes_on_fcntl w mem sp : goes_on w mem sp (svc_fcntl sp).
Proof. apply goes_on_file. intros. apply goes_on_finish. Qed.

Lemma goes_on_lstat w mem mem0 sp : words sp -> goes_on w mem sp (svc_lstat sizeof_stat m mem0 sp).
Proof.
  intros Hw. eapply goes_on_check; [by apply ensures_stat_arguments| |eapply goes_on_ret, goes_on_fcntl].
  apply goes_on_file. intros [r|] mem'; [eapply goes_on_ret, goes_on_fcntl|apply goes_on_reply].
Qed.

Lemma goes_on_stat w mem mem0 sp : words sp -> goes_on w mem sp (svc_stat sizeof_stat m mem0 sp).
Proof.
  intros Hw. eapply goes_on_check; [by apply ensures_stat_arguments| |by eapply goes_on_ret, goes_on_lstat, setReturnValue_words].
  apply goes_on_file. intros [r|] mem'; [by eapply goes_on_ret, goes_on_lstat, setReturnValue_words|apply goes_on_reply].
Qed.

Lemma goes_on_system w mem mem0 sp : words sp -> goes_on w mem sp (svc_system m mem0 sp).
Proof.
  intros (H0 & _). eapply goes_on_check; [by apply ensures_string| |apply goes_on_reply]. unfold goes_on. simpl.
  destruct (on_get w mem (getFirstParameter sp)) as [elf size]. destruct (_ || _); [by repeat eexists|]. simpl.
  destruct (on_create w elf size); by repeat eexists.
Qed.

(** A known call that is not the end of the process. *)
Definition known (id : Z) : bool := (SYS_EXIT <? id) && (id <=? SYS_RENAME).

Lemma handleSvc_goes_on w mem sp : words sp -> known (getSyscallId sp) = true -> goes_on w mem sp (handleSvc sizeof_stat m mem sp).
Proof.
  intros Hw Hk. pose proof Hw as (H0 & H1 & H2 & _). unfold known in Hk. apply andb_true_iff in Hk as [Hlo%Z.ltb_lt Hhi%Z.leb_le].
  unfold handleSvc, getFirstParameter, getSecondParameter, getThirdParameter.
  repeat (match goal with |- goes_on _ _ _ (if ?a =? ?b then _ else _) => destruct (Z.eqb_spec a b) end);
    try (eapply goes_on_checked; first [by apply ensures_reads|by apply ensures_writes|by apply ensures_string|by apply ensures_stat|by apply ensures_both; apply ensures_string]);
    try (apply goes_on_file; intros; apply goes_on_finish).
  - exfalso. lia.
  - by repeat eexists.
  - by apply goes_on_system.
  - by apply goes_on_stat.
  - by apply goes_on_lstat.
  - exists [], mem, (reg0 sp). simpl. destruct sp as [p1 p2 p3 p4]. unfold setReturnValue. simpl in *. by rewrite wrapU_small by lia.
  - unfold SYS_EXIT, SYS_WRITE, SYS_READ, SYS_USLEEP, SYS_OPEN, SYS_CLOSE, SYS_LSEEK, SYS_SYSTEM, SYS_FSTAT, SYS_ISATTY, SYS_STAT, SYS_LSTAT, SYS_FCNTL, SYS_IOCTL,
      SYS_GETDENTS, SYS_GETCWD, SYS_CHDIR, SYS_MKDIR, SYS_RMDIR, SYS_UNLINK, SYS_RENAME in *. lia.
Qed.

Lemma run_direct w mem sp c :
  words sp -> direct sp = Some c -> exists ok, run w mem (handleSvc sizeof_stat m mem sp) = Done (answer w mem sp c ok) /\ decided mem c ok.
Proof.
  intros (H0 & H1 & H2 & _) Hd0. unfold handleSvc, getFirstParameter, getSecondParameter, getThirdParameter. unfold direct in Hd0.
  destruct sp as [p1 p2 p3 p4]. set (sp := mkParams p1 p2 p3 p4) in *. set (id := getSyscallId sp) in *. cbn iota in Hd0. cbn [reg0 reg1 reg2 sp] in H0, H1, H2 |- *.
  clearbody id. repeat (match type of Hd0 with (if ?a =? ?b then _ else _) = _ => destruct (Z.eqb_spec a b) as [E|] end; [try (destruct (p2 <? 2 ^ 31); [|done]); injection Hd0 as <-; rewrite E|]); [..|done].
  all: match goal with |- exists ok, run _ _ ?s = _ /\ _ => let t := eval lazy delta [SYS_EXIT SYS_WRITE SYS_READ SYS_USLEEP SYS_OPEN SYS_CLOSE SYS_LSEEK SYS_SYSTEM SYS_FSTAT SYS_ISATTY SYS_STAT SYS_LSTAT SYS_FCNTL SYS_IOCTL SYS_GETDENTS SYS_GETCWD SYS_CHDIR SYS_MKDIR SYS_RMDIR SYS_UNLINK SYS_RENAME Z.eqb Pos.eqb] beta iota in s in change s with t end.
  all: first [by apply run_free
    |eapply run_decided; [first [by apply decides_reads|by apply decides_writes|by apply decides_stat|by apply decides_string|by apply decides_strings]|done|simpl; tauto]].
Qed.

(** [stat] and [lstat] are called when they are let through, whatever is
    called after them. *)
Definition asked (w : environment) (mem : memory) (s : svc) (c : file_call) (ok : bool) : Prop :=
  exists l mem' r, run w mem s = Done (l, mem', r) /\ (c ∈ l <-> ok = true).

Lemma run_fcntl w mem sp : exists x mem' r, run w mem (svc_fcntl sp) = Done ([Fcntl x (s32 (reg1 sp)) (s32 (reg2 sp))], mem', r).
Proof. unfold svc_fcntl. rewrite run_file. by repeat eexists. Qed.

Lemma run_File w mem c k r mem' : on_file w c mem = (r, mem') -> run w mem (File c k) = ('(l, mem'', x) ← run w mem' (k r mem'); Done (c :: l, mem'', x)).
Proof. intros E. simpl. by rewrite E. Qed.

Lemma asked_first w mem c k : (forall r mem', exists l mem'' x, run w mem' (k r mem') = Done (l, mem'', x)) -> asked w mem (File c k) c true.
Proof.
  intros Hk. unfold asked. simpl. destruct (on_file w c mem) as [r mem']. destruct (Hk r mem') as (l & mem'' & x & ->). cbn [mbind outcome_bind].
  eexists _, _, _. split; [reflexivity|]. split; [done|]. intros _. by apply elem_of_cons; left.
Qed.

Lemma goes_on_runs w mem sp s : goes_on w mem sp s -> exists l mem' x, run w mem s = Done (l, mem', x).
Proof. intros (l & mem' & ret & ->). by repeat eexists. Qed.

Lemma lstat_trace w mem mem0 sp : words sp -> exists l mem' r, run w mem (svc_lstat sizeof_stat m mem0 sp) = Done (l, mem', r) /\ forall s p, Stat s p ∉ l.
Proof.
  intros Hw. unfold svc_lstat. destruct (ensures_stat_arguments mem0 sp Hw) as (b & -> & _). cbn [check]. destruct b.
  - destruct (on_file w (Lstat (getFirstParameter sp) (getSecondParameter sp)) mem) as [[r|] mem'] eqn:Ef; rewrite (run_File _ _ _ _ _ _ Ef).
    + destruct (run_fcntl w mem' (setReturnValue r sp)) as (x & mem'' & y & ->). cbn [mbind outcome_bind].
      eexists _, _, _. split; [reflexivity|]. intros s p [?|[?|[]%elem_of_nil]%elem_of_cons]%elem_of_cons; done.
    + simpl. eexists _, _, _. split; [reflexivity|]. by intros s p [?|[]%elem_of_nil]%elem_of_cons.
  - destruct (run_fcntl w mem (setReturnValue (- EFAULT) sp)) as (x & mem'' & y & E). eexists _, _, _. split; [exact E|].
    by intros s p [?|[]%elem_of_nil]%elem_of_cons.
Qed.

Lemma run_stats w mem sp c :
  words sp -> stats sp = Some c -> exists ok, asked w mem (handleSvc sizeof_stat m mem sp) c ok /\ decided mem c ok.
Proof.
  intros Hw Hs. destruct (decides_stat_arguments mem sp Hw) as (b & Hb & H1 & H2). unfold stats in Hs. exists b.
  destruct (Z.eqb_spec (getSyscallId sp) SYS_STAT) as [E|_]; [|destruct (Z.eqb_spec (getSyscallId sp) SYS_LSTAT) as [E|_]; [|done]];
    injection Hs as <-; (split; [|split; [done|intros ? ? ?; apply H2; simpl in *; tauto]]); unfold handleSvc; rewrite E.
  - change (asked w mem (svc_stat sizeof_stat m mem sp) (Stat (reg0 sp) (reg1 sp)) b). unfold svc_stat. rewrite Hb. cbn [check]. destruct b.
    + apply asked_first. intros [r|] mem'; [|by repeat eexists].
      eapply goes_on_runs, goes_on_lstat. by apply setReturnValue_words.
    + destruct (lstat_trace w mem mem (setReturnValue (- EFAULT) sp)) as (l & mem' & r & Hr & Hl); [by apply setReturnValue_words|].
      exists l, mem', r. split; [done|]. split; [|done]. intros Hin. by destruct (Hl _ _ Hin).
  - change (asked w mem (svc_lstat sizeof_stat m mem sp) (Lstat (reg0 sp) (reg1 sp)) b). unfold svc_lstat. rewrite Hb. cbn [check]. destruct b.
    + apply asked_first. intros [r|] mem'; [|by repeat eexists]. eapply goes_on_runs, goes_on_fcntl.
    + destruct (run_fcntl w mem (setReturnValue (- EFAULT) sp)) as (x & mem' & r & Hr). eexists _, _, _. split; [exact Hr|]. split; [|done].
      by intros [?|[]%elem_of_nil]%elem_of_cons.
Qed.

(** The code that [waitpid] gives, and what the parent's [SYS_SYSTEM] makes of it. *)
Lemma exit_status p : 0 <= p -> WEXITSTATUS (s16 (Z.shiftl (Z.land p 0xff) 8)) = p mod 256.
Proof.
  intros Hp. unfold WEXITSTATUS. change 0xff with (Z.ones 8). rewrite !Z.land_ones, Z.shiftl_mul_pow2, Z.shiftr_div_pow2 by lia. change (2 ^ 8) with 256.
  pose proof (Z.mod_pos_bound p 256 eq_refl) as Hb. set (x := p mod 256) in *. clearbody x. clear -Hb.
  unfold wrapS. change (2 ^ 16) with 65536. change (2 ^ (16 - 1)) with 32768. rewrite (Z.mod_small (x * 256)) by lia. destruct (Z.ltb_spec (x * 256) 32768).
  - rewrite Z.div_mul by lia. apply Z.mod_small. lia.
  - replace (x * 256 - 65536) with ((x - 256) * 256) by lia. rewrite Z.div_mul by lia. rewrite <- (Z_mod_plus_full _ 1). rewrite Z.mod_small; lia.
Qed.

(** C18: every system call is answered.  Whatever the registers, memory and
    the answers of the rest of the kernel, no check stops the system.  [SYS_EXIT]
    ends the process, and its exit code gives the parent the low byte of the
    parameter; a call that does not exist ends it with [SIGSYS]; after any
    other the process goes on with its other registers unchanged.  A call for
    the descriptor table asks for what the registers say, and reaches the
    table only when its buffers and strings are within the regions of the
    process; it does reach it when they are, the regions being apart and
    before the end of memory, unless a buffer ends where a region does.  Then the value
    returned is the table's, [-ENOMEM] for an exception, [-EFAULT] when
    the call is refused, and then memory is untouched; but after [SYS_STAT] and
    [SYS_LSTAT] the value is that of another call.  Of [SYS_USLEEP], [SYS_SYSTEM], [SYS_IOCTL] and
    seeks by a negative offset only that the process goes on is stated. *)
Theorem calls_answered w mem sp :
  words sp ->
  let id := getSyscallId sp in
  let s := handleSvc sizeof_stat m mem sp in
  if id =? SYS_EXIT then exists code, run w mem s = Done ([], mem, (false, sp, Some code)) /\ WEXITSTATUS code = reg0 sp mod 256
  else if known id then
    goes_on w mem sp s /\
    (forall c, direct sp = Some c -> exists ok, run w mem s = Done (answer w mem sp c ok) /\ decided mem c ok) /\
    (forall c, stats sp = Some c -> exists ok, asked w mem s c ok /\ decided mem c ok)
  else run w mem s = Done ([], mem, (false, sp, Some SIGSYS)).
Proof.
  intros Hw. cbn zeta. destruct (Z.eqb_spec (getSyscallId sp) SYS_EXIT) as [E|Hne].
  - unfold handleSvc. rewrite E. cbn. eexists. split; [reflexivity|]. apply exit_status. unfold getFirstParameter. destruct Hw. lia.
  - destruct (known (getSyscallId sp)) eqn:Hk.
    { split; [by apply handleSvc_goes_on|]. split; intros c; [by apply run_direct|by apply run_stats]. }
    unfold known in Hk. apply andb_false_iff in Hk. rewrite Z.ltb_ge, Z.leb_gt in Hk. unfold handleSvc.
    repeat (match goal with |- context [getSyscallId sp =? ?b] => destruct (Z.eqb_spec (getSyscallId sp) b) as [E|]; [exfalso; rewrite E in Hk; revert Hk; clear; vm_compute; intros []; congruence|] end).
    by rewrite (proj2 (Z.eqb_neq _ _) Hne).
Qed.

End safe.

(** ** Isolation *)

(** A process that was constructed: its regions are its block and the flash. *)
Record isolated (ps size : Z) (q : Process) (pl : ProcessPool.ProcessPool) : Prop := {
  iso_inv : ProcessPool.inv pl;
  iso_block : exists a sz, ElfLoader.image (image q) = Some a /\ ProcessPool.allocatedBlocks pl !! a = Some sz /\
    Mpu.regions (mpu q) ps (Mpu.rounded size) a sz /\ 0 <= a /\ a + sz <= 2 ^ 32 /\ 0 <= sz;
}.

Lemma construct_isolated ram ps pe p pl :
  ElfLoader.well_formed p ->
  ElfLoader.validateHeader p = Done (ElfLoader.returns true) -> ElfLoader.has_dynamic (ElfLoader.segments p) -> ProcessPool.inv pl ->
  let size := (pe - ps) / 4 * 4 in
  0 <= ps -> ps mod 32 = 0 -> 32 <= size <= 2 ^ 31 -> ps + Mpu.rounded size <= 2 ^ 32 ->
  match construct ram ps pe p pl with
  | Done (inl q, pl') => program q = p /\ isolated ps size q pl'
  | Done (inr _, pl') => ProcessPool.inv pl'
  | Fault f => exists d y, ElfLoader.layout p (ElfLoader.segments p) d y /\ ElfLoader.reserve (ElfLoader.ram_requests (ElfLoader.dyn_entries p y)) None pl = Fault f
  end.
Proof.
  intros Hwf Hv Hdyn Hi size Hps Hal Hsz Hend. destruct (ElfLoader.accepted_loads_fresh ram p Hwf Hv Hdyn) as (d & y & Hlay & Hload).
  specialize (Hload ElfLoader.ProcessImage_new pl Hi). pose proof (ElfLoader.load_fresh_block ram p ElfLoader.ProcessImage_new pl) as Hblock. unfold ElfLoader.load_post in Hload.
  unfold construct. change (ElfLoader.load ram p ElfLoader.ProcessImage_new pl) with (ElfLoader.load_fresh ram p ElfLoader.ProcessImage_new pl).
  destruct (ElfLoader.load_fresh ram p ElfLoader.ProcessImage_new pl) as [[[[x|] im] pl1]|f]; cbn [mbind outcome_bind]; [..|by exists d, y].
  - destruct (ElfLoader.drop_block im pl1) as (pl2 & -> & Hi2); [|by cbn [mbind outcome_bind]].
    eapply Hblock; [apply (ElfLoader.wf_bytes _ Hwf)| |reflexivity]. split; [done|]. intros ptr Hptr. discriminate Hptr.
  - destruct Hload as (_ & (a & Him & Hisz & Ha & _ & [Hroom Hmax] & _) & Hi1). set (sz := ElfLoader.final _ _ _) in *. clearbody sz.
    unfold ElfLoader.MAX_PROCESS_IMAGE_SIZE in Hmax. destruct (Mpu.block_power pl1 a sz Hi1 Ha ltac:(lia)) as (Hsz1 & Hr & Ha0 & Haal & Haend).
    pose proof (ElfLoader.wf_size _ Hwf) as Hsize. pose proof ProcessPool.blockSize_eq as Hbs.
    rewrite (Mpu.roundSizeForMPU_spec (if ElfLoader.size p <? _ then _ else _)) by (destruct (Z.ltb_spec (ElfLoader.size p) ProcessPool.blockSize); lia).
    cbn [mbind outcome_bind]. fold size. rewrite (Mpu.roundSizeForMPU_spec size Hsz). cbn [mbind outcome_bind]. rewrite Him, Hisz. cbn [deref mbind outcome_bind].
    destruct (Mpu.rounded_bound size Hsz) as [_ Hrs].
    destruct (Mpu.new_MPUConfiguration_spec ps (Mpu.rounded size) a sz) as (mp & -> & Hm); [lia|done|lia|done|lia|lia|]. cbn [mbind outcome_bind].
    rewrite Hr in Hm. rewrite Mpu.rounded_idem in Hm.
    split; [done|]. split; [done|]. exists a, sz. split_and!; try done. lia.
Qed.

(** C7: processes are isolated.  A program that the checks of its file accept,
    with a dynamic segment, and that is loaded, has a block of memory of its
    own; whatever its registers and its memory, each system call gives the rest
    of the kernel, to write through, only pointers to that block, and to read
    through, only pointers to the block or to the flash of the programs, for
    the whole size; strings end there too.  When the process is not constructed the pool is in
    order, or it reads past its own bitmap for the sizes the program asks for. *)
Theorem syscalls_confined ram sizeof_stat ps pe p pl :
  ElfLoader.well_formed p ->
  ElfLoader.validateHeader p = Done (ElfLoader.returns true) -> ElfLoader.has_dynamic (ElfLoader.segments p) -> ProcessPool.inv pl ->
  let size := (pe - ps) / 4 * 4 in
  0 <= ps -> ps mod 32 = 0 -> 32 <= size <= 2 ^ 31 -> ps + Mpu.rounded size <= 2 ^ 32 -> 0 <= sizeof_stat < 2 ^ 32 ->
  match construct ram ps pe p pl with
  | Done (inl q, pl') =>
      ProcessPool.inv pl' /\
      exists a sz, ElfLoader.image (image q) = Some a /\ ProcessPool.allocatedBlocks pl' !! a = Some sz /\
        (forall b t, ProcessPool.allocatedBlocks pl' !! b = Some t -> b <> a -> ~ ProcessPool.overlap a sz b t) /\
        (forall mem sp, words sp -> safe sizeof_stat ps (Mpu.rounded size) a sz mem (handleSvc sizeof_stat (mpu q) mem sp))
  | Done (inr _, pl') => ProcessPool.inv pl'
  | Fault f => exists d y, ElfLoader.layout p (ElfLoader.segments p) d y /\ ElfLoader.reserve (ElfLoader.ram_requests (ElfLoader.dyn_entries p y)) None pl = Fault f
  end.
Proof.
  intros Hwf Hv Hdyn Hi size Hps Hal Hsz Hend Hstat.
  pose proof (construct_isolated ram ps pe p pl Hwf Hv Hdyn Hi Hps Hal Hsz Hend) as Hc. fold size in Hc.
  destruct (construct ram ps pe p pl) as [[[q|x] pl']|f]; [|done|done]. destruct Hc as (_ & Hi' & a & sz & Him & Ha & Hm & Ha0 & Hend' & Hsz0).
  split; [done|]. exists a, sz. split; [done|]. split; [done|]. split.
  - intros b t Hb Hne. by apply (ProcessPool.inv_disjoint pl' Hi' a sz b t).
  - intros mem sp Hw. destruct (Mpu.rounded_bound size Hsz). apply safe_handleSvc; try done; lia.
Qed.

(** ** Examples

    The program of [ElfLoader]'s examples, with a pool of 96 KB and programs in 128 KB of
    flash. *)
Definition ex_pool : ProcessPool.ProcessPool := ProcessPool.new_ProcessPool 0x20008000 98304.
Definition ex_construct : exec ((Process + ProcessPool.exn) * ProcessPool.ProcessPool) := construct (fun _ => 0) 0x08000000 0x08020000 ElfLoader.ex_elf ex_pool.
Definition ex_mpu : Mpu.MPUConfiguration := match ex_construct with Done (inl q, _) => mpu q | _ => Mpu.mkMpu 0 0 0 0 end.
Definition ex_env : environment := mkEnv (fun c mem => (match c with Stat _ _ => Some 0 | Fcntl _ _ _ => Some 7 | _ => Some 3 end, mem)) (fun _ => 0) (fun _ _ => (0, 0)) (fun _ _ => None) (fun _ => None).
Definition ex_call (id p1 p2 p3 : Z) : exec (list file_call * (bool * SyscallParameters * option Z)) :=
  '(l, _, r) ← run ex_env (fun _ => 0) (handleSvc 60 ex_mpu (fun _ => 0) (mkParams p1 p2 p3 id)); Done (l, r).

Example ex_read : ex_call SYS_READ 5 0x20008100 16 = Done ([Read 5 0x20008100 16], (true, mkParams 3 0x20008100 16 SYS_READ, None)).
Proof. vm_compute. reflexivity. Qed.
(** Its program is in flash, and cannot be written; nor can what is past its
    block. *)
Example ex_write_flash : ex_call SYS_READ 5 0x08000100 16 = Done ([], (true, mkParams (2 ^ 32 - EFAULT) 0x08000100 16 SYS_READ, None)).
Proof. vm_compute. reflexivity. Qed.
Example ex_past_block : ex_call SYS_READ 5 0x200087f8 16 = Done ([], (true, mkParams (2 ^ 32 - EFAULT) 0x200087f8 16 SYS_READ, None)).
Proof. vm_compute. reflexivity. Qed.
(** The last bytes of the block are refused as well. *)
Example ex_block_end : ex_call SYS_READ 5 0x200087f0 16 = Done ([], (true, mkParams (2 ^ 32 - EFAULT) 0x200087f0 16 SYS_READ, None)).
Proof. vm_compute. reflexivity. Qed.
(** [stat] succeeds, and then the process gets the result of an [fcntl] on the
    descriptor [-EFAULT]. *)
Example ex_stat : ex_call SYS_STAT 0x20008100 0x20008200 9 =
  Done ([Stat 0x20008100 0x20008200; Fcntl (- EFAULT) 0x20008200 9], (true, mkParams 7 0x20008200 9 SYS_STAT, None)).
Proof. vm_compute. reflexivity. Qed.
(** A seek backwards goes forward by four gigabytes. *)
Example ex_lseek : ex_call SYS_LSEEK 5 (2 ^ 32 - 1) 1 = Done ([Lseek 5 (2 ^ 32 - 1) 1], (true, mkParams 3 (2 ^ 32 - 1) 1 SYS_LSEEK, None)).
Proof. vm_compute. reflexivity. Qed.
(** A child that ends with a fault has been successful for [SYS_SYSTEM]. *)
Example ex_crash : start_turn true (true, None) false 0 = (false, SIGSEGV) /\ WEXITSTATUS SIGSEGV = 0.
Proof. split; reflexivity. Qed.

Lemma syscalls_confined_witness :
  match ex_construct with
  | Done (inl q, pl') =>
      ProcessPool.inv pl' /\
      exists a sz, ElfLoader.image (image q) = Some a /\ ProcessPool.allocatedBlocks pl' !! a = Some sz /\
        (forall b t, ProcessPool.allocatedBlocks pl' !! b = Some t -> b <> a -> ~ ProcessPool.overlap a sz b t) /\
        (forall mem sp, words sp -> safe 60 0x08000000 (2 ^ 17) a sz mem (handleSvc 60 (mpu q) mem sp))
  | _ => False
  end.
Proof.
  assert (Hwf : ElfLoader.well_formed ElfLoader.ex_elf) by (apply (@bool_decide_unpack _ (ElfLoader.well_formed_dec _)); vm_compute; exact I).
  pose proof (syscalls_confined (fun _ => 0) 60 0x08000000 0x08020000 ElfLoader.ex_elf ex_pool Hwf) as H. fold ex_construct in H.
  assert (Hex : match ex_construct with Done (inl _, _) => True | _ => False end) by (vm_compute; exact I).
  destruct ex_construct as [[[q|x] pl']|f]; [|destruct Hex|destruct Hex]. apply H; try (vm_compute; congruence).
  - exists (nth 2 (ElfLoader.segments ElfLoader.ex_elf) (ElfLoader.mkPhdr 0 0 0 0 0 0)). split; [|vm_compute; reflexivity]. apply list_elem_of_In. vm_compute. auto.
  - apply ProcessPool.new_inv; vm_compute; congruence.
  - vm_compute. split; congruence.
  - lia.
Defined.

Lemma calls_answered_witness :
  let sp := mkParams 5 0x20008100 16 SYS_READ in
  permitted 60 0x08000000 (2 ^ 17) 0x20008000 2048 (fun _ => 0) (Read 5 0x20008100 16) /\
  run ex_env (fun _ => 0) (handleSvc 60 ex_mpu (fun _ => 0) sp) = Done (answer ex_env (fun _ => 0) sp (Read 5 0x20008100 16) true).
Proof.
  intros sp. assert (Hp : permitted 60 0x08000000 (2 ^ 17) 0x20008000 2048 (fun _ => 0) (Read 5 0x20008100 16)) by (vm_compute; split; congruence).
  split; [exact Hp|].
  assert (Hr : Mpu.regions ex_mpu 0x08000000 (2 ^ 17) 0x20008000 2048) by (split; vm_compute; reflexivity).
  assert (Hw : words sp) by (vm_compute; intuition congruence).
  pose proof (calls_answered 60 0x08000000 (2 ^ 17) 0x20008000 2048 ex_mpu Hr ltac:(vm_compute; intuition congruence) ltac:(vm_compute; intuition congruence) ltac:(vm_compute; intuition congruence) ex_env (fun _ => 0) sp Hw) as H.
  destruct (proj1 (proj2 H) (Read 5 0x20008100 16) eq_refl) as (ok & Hrun & _ & Hok).
  rewrite (Hok ltac:(vm_compute; intuition congruence) Hp ltac:(vm_compute; congruence)) in Hrun. exact Hrun.
Defined.

End Syscalls.
