(* ===== verification/Events.v ===== *)
(** * Callbacks and event queues

    [e20/callback.h]: [Callback], a function object of any type kept in a
    buffer of its own.  [e20/e20.h] and [.cpp]: [FixedEventQueue], which
    interrupt routines can post to, and [EventQueue]. *)
From stdpp Require Import gmap.
From S2P Require Import Prelude Errors Threads Scheduler PriorityScheduler Queues.

Local Open Scope Z_scope.

(** ** [Callback]

    The C++ types of the function objects are [T], the states of an object
    [V]; a call changes the state of an object as [invoke] says.  The buffer holds an
    object, or nothing that is one.  The copy of an object can throw. *)
Module Callback.
Section callback.
Context {T V : Type} `{EqDecision T} (invoke : T -> V -> V) (sizeof alignof : T -> Z).
(** The template parameter. *)
Context (N : Z).

Abbreviation functor := (T * V)%type.

(** The function that [operation] points to is known by its type argument. *)
Record Callback := mkCallback { any : option functor; operation : option T }.

Inductive Op := CALL | ASSIGN | DESTROY.

(** What an operation leaves in the buffer, the objects it constructs less
    those it destroys, the calls, and whether it throws. *)
Record effect := mkEffect { buffer : option functor; objects : Z; calls : list functor; threw : bool }.

(** The object of type [t] in a buffer. *)
Definition object (t : T) (a : option functor) : exec V :=
  match a with Some (u, v) => if decide (u = t) then Done v else Fault Undefined | None => Fault Undefined end.

Definition TypeDependentOperation (t : T) (a b : option functor) (op : Op) (copies : bool) : exec effect :=
  match op with
  | CALL => v ← object t a; Done (mkEffect (Some (t, invoke t v)) 0 [(t, v)] false)
  | ASSIGN => v ← object t b; Done (if copies then mkEffect (Some (t, v)) 1 [] false else mkEffect a 0 [] true)
  | DESTROY => v ← object t a; Done (mkEffect None (-1) [] false)
  end.

(** The callbacks of a program by address, the number of objects in
    existence, and the calls made. *)
Record world := mkWorld { callbacks : gmap positive Callback; live : Z; log : list functor }.

Definition set_callback (x : positive) (c : Callback) (w : world) : world := mkWorld (<[x := c]> (callbacks w)) (live w) (log w).
Definition get_callback (x : positive) (w : world) : exec Callback := deref (callbacks w !! x).

(** [if(operation) operation(any,b,op)] of a callback [c], not yet in the
    store; [operate] of the one at [x]. *)
Definition operate_on (c : Callback) (b : option functor) (op : Op) (copies : bool) (w : world) : exec (bool * Callback * world) :=
  match operation c with
  | None => Done (false, c, w)
  | Some t =>
      e ← TypeDependentOperation t (any c) b op copies;
      Done (threw e, mkCallback (buffer e) (operation c), mkWorld (callbacks w) (live w + objects e) (log w ++ calls e))
  end.
Definition operate (x : positive) (b : option functor) (op : Op) (copies : bool) (w : world) : exec (bool * world) :=
  c ← get_callback x w; '(threw, c, w) ← operate_on c b op copies w; Done (threw, set_callback x c w).
Definition set_operation (x : positive) (f : option T) (w : world) : exec world :=
  c ← get_callback x w; Done (set_callback x (mkCallback (any c) f) w).

(** The static assertions. *)
Definition static_assert (t : T) : bool := (sizeof t <=? (N + 3) / 4 * 4) && (alignof t <=? 8).

(** [new (any) T(functor)]. *)
Definition emplace (x : positive) (f : functor) (copies : bool) (w : world) : exec (bool * world) :=
  c ← get_callback x w;
  if copies then Done (false, mkWorld (<[x := mkCallback (Some f) (operation c)]> (callbacks w)) (live w + 1) (log w)) else Done (true, w).

(** The functions say whether an exception goes out of them. *)
Definition new_empty (x : positive) (w : world) : world := set_callback x (mkCallback None None) w.

Definition assign_functor (x : positive) (f : functor) (copies : bool) (w : world) : exec (bool * world) :=
  '(_, w) ← operate x None DESTROY true w;
  '(threw, w) ← emplace x f copies w;
  if threw : bool then Done (true, w) else w ← set_operation x (Some f.1) w; Done (false, w).

(** When a constructor throws there is no object. *)
Definition uninit (x : positive) (w : world) : world := mkWorld (delete x (callbacks w)) (live w) (log w).
Definition new_functor (x : positive) (f : functor) (copies : bool) (w : world) : exec (bool * world) :=
  '(threw, w) ← assign_functor x f copies (new_empty x w); Done (threw, if threw : bool then uninit x w else w).
Definition new_copy (x rhs : positive) (copies : bool) (w : world) : exec (bool * world) :=
  r ← get_callback rhs w;
  '(threw, c, w) ← operate_on (mkCallback None (operation r)) (any r) ASSIGN copies w;
  Done (threw, if threw : bool then w else set_callback x c w).

Definition assign (x rhs : positive) (copies : bool) (w : world) : exec (bool * world) :=
  if bool_decide (x = rhs) then Done (false, w)
  else
    '(_, w) ← operate x None DESTROY true w;
    r ← get_callback rhs w;
    w ← set_operation x (operation r) w;
    operate x (any r) ASSIGN copies w.

Definition clear (x : positive) (w : world) : exec world :=
  '(_, w) ← operate x None DESTROY true w; set_operation x None w.
Definition operator_call (x : positive) (w : world) : exec world := '(_, w) ← operate x None CALL true w; Done w.
Definition call (x : positive) (w : world) : exec world :=
  c ← get_callback x w; _ ← deref (operation c); operator_call x w.
Definition operator_bool (x : positive) (w : world) : exec bool := c ← get_callback x w; Done (bool_decide (is_Some (operation c))).
Definition drop (x : positive) (w : world) : exec world := '(_, w) ← operate x None DESTROY true w; Done (uninit x w).

(** *** Programs *)
Inductive stmt :=
| New (x : positive) | NewFunctor (x : positive) (f : functor) | NewCopy (x rhs : positive) | Assign (x rhs : positive) | AssignFunctor (x : positive) (f : functor)
| Clear (x : positive) | Invoke (x : positive) | Call (x : positive) | Test (x : positive) | Drop (x : positive).

(** [copies]: no copy throws. *)
Definition step (copies : bool) (s : stmt) (w : world) : exec (bool * world) :=
  match s with
  | New x => Done (false, new_empty x w)
  | NewFunctor x f => new_functor x f copies w
  | NewCopy x y => new_copy x y copies w
  | Assign x y => assign x y copies w
  | AssignFunctor x f => assign_functor x f copies w
  | Clear x => w ← clear x w; Done (false, w)
  | Invoke x => w ← operator_call x w; Done (false, w)
  | Call x => w ← call x w; Done (false, w)
  | Test x => b ← operator_bool x w; Done (b, w)
  | Drop x => w ← drop x w; Done (false, w)
  end.

Fixpoint run (p : list stmt) (w : world) : exec (list bool * world) :=
  match p with [] => Done ([], w) | s :: p => '(b, w) ← step true s w; '(bs, w) ← run p w; Done (b :: bs, w) end.

(** *** Variables that hold an optional function *)
Record state := mkState { vars : gmap positive (option functor); called : list functor }.
Definition put (x : positive) (f : option functor) (s : state) : state := mkState (<[x := f]> (vars s)) (called s).
Definition value (x : positive) (s : state) : option functor := mjoin (vars s !! x).

Definition spec_step (p : stmt) (s : state) : bool * state :=
  match p with
  | New x | Clear x => (false, put x None s)
  | NewFunctor x f | AssignFunctor x f => (false, put x (Some f) s)
  | NewCopy x y | Assign x y => (false, put x (value y s) s)
  | Invoke x | Call x =>
      (false, match value x s with Some (t, v) => mkState (<[x := Some (t, invoke t v)]> (vars s)) (called s ++ [(t, v)]) | None => s end)
  | Test x => (bool_decide (is_Some (value x s)), s)
  | Drop x => (false, mkState (delete x (vars s)) (called s))
  end.
Fixpoint spec_run (p : list stmt) (s : state) : list bool * state :=
  match p with [] => ([], s) | i :: p => let '(b, s) := spec_step i s in let '(bs, s) := spec_run p s in (b :: bs, s) end.

(** What the compiler checks, scopes and types, and that [call] is used on a
    callback that is not empty. *)
Definition defined (x : positive) (s : state) : bool := bool_decide (is_Some (vars s !! x)).
Definition well_typed (p : stmt) (s : state) : bool :=
  match p with
  | New x => negb (defined x s)
  | NewFunctor x f => negb (defined x s) && static_assert f.1
  | NewCopy x y => negb (defined x s) && defined y s
  | Assign x y => defined x s && defined y s
  | AssignFunctor x f => defined x s && static_assert f.1
  | Call x => defined x s && bool_decide (is_Some (value x s))
  | Clear x | Invoke x | Test x | Drop x => defined x s
  end.
Fixpoint program_typed (p : list stmt) (s : state) : bool :=
  match p with [] => true | i :: p => well_typed i s && program_typed p (spec_step i s).2 end.

(** *** Each callback is its value *)
Definition holding (f : option functor) : Callback := mkCallback f (fst <$> f).
Definition full (f : option functor) : Z := match f with Some _ => 1 | None => 0 end.
Definition count (m : gmap positive (option functor)) : Z := Z.of_nat (size (omap id m)).
Definition concrete (s : state) : world := mkWorld (holding <$> vars s) (count (vars s)) (called s).

Lemma count_insert m x f : count (<[x := f]> m) = count m - full (mjoin (m !! x)) + full f.
Proof.
  unfold count. assert (Hx : omap id m !! x = mjoin (m !! x)) by (rewrite lookup_omap; by destruct (m !! x)).
  set (g := mjoin (m !! x)) in *. clearbody g. destruct f as [f|]; simpl.
  - rewrite omap_insert_Some with (y := f) by done. destruct g as [g|]; simpl.
    + rewrite map_size_insert_Some by (rewrite Hx; eauto). lia.
    + rewrite map_size_insert_None by (by rewrite Hx). lia.
  - rewrite omap_insert_None by done. rewrite map_size_delete, Hx. destruct g as [g|]; simpl; [|lia].
    assert (size (omap id m) <> 0%nat) by (intros Hz; apply map_size_empty_iff in Hz; rewrite Hz, lookup_empty in Hx; done). lia.
Qed.

Lemma count_delete m x : count (delete x m) = count m - full (mjoin (m !! x)).
Proof.
  destruct (m !! x) as [f|] eqn:E; simpl.
  - pose proof (count_insert m x None) as Hc. unfold count in *. rewrite E in Hc. simpl in Hc. rewrite omap_insert_None in Hc by done. rewrite omap_delete. lia.
  - rewrite delete_id by done. lia.
Qed.

Lemma concrete_put s x g d l :
  d = full g - full (value x s) -> mkWorld (<[x := holding g]> (holding <$> vars s)) (count (vars s) + d) l = concrete (mkState (<[x := g]> (vars s)) l).
Proof. intros ->. unfold concrete, put. simpl. rewrite fmap_insert, count_insert. f_equal. unfold value. lia. Qed.

Lemma concrete_lookup s x f : vars s !! x = Some f -> get_callback x (concrete s) = Done (holding f).
Proof. intros Hx. unfold get_callback, concrete. simpl. by rewrite lookup_fmap, Hx. Qed.

(** A run with the functions of [World] spelled out. *)
Lemma get_set_callback x c w : get_callback x (set_callback x c w) = Done c.
Proof. unfold get_callback, set_callback. simpl. by rewrite lookup_insert_eq. Qed.

Lemma get_set_callback_ne x y c w : x <> y -> get_callback y (set_callback x c w) = get_callback y w.
Proof. intros Hne. unfold get_callback, set_callback. simpl. by rewrite lookup_insert_ne. Qed.

Lemma get_callback_insert x c m n l : get_callback x (mkWorld (<[x := c]> m) n l) = Done c.
Proof. unfold get_callback. simpl. by rewrite lookup_insert_eq. Qed.

Lemma operate_destroy x f w :
  get_callback x w = Done (holding f) ->
  operate x None DESTROY true w = Done (false, set_callback x (mkCallback None (fst <$> f)) (mkWorld (callbacks w) (live w - full f) (log w))).
Proof.
  intros Hx. unfold operate. rewrite Hx. cbn [mbind outcome_bind]. unfold operate_on. destruct f as [[t v]|]; simpl.
  - rewrite decide_True by done. cbn [mbind outcome_bind]. simpl. rewrite app_nil_r. do 3 f_equal.
  - destruct w. simpl. by rewrite Z.sub_0_r.
Qed.

(** The state after a change of one callback. *)
Lemma change_one s x g w :
  callbacks w = <[x := holding g]> (holding <$> vars s) -> live w = count (vars s) + (full g - full (value x s)) -> log w = called s ->
  w = concrete (put x g s).
Proof. destruct w as [cs n l]. simpl. intros -> -> ->. by apply concrete_put. Qed.

Lemma assign_functor_spec s x f t v :
  vars s !! x = Some f -> assign_functor x (t, v) true (concrete s) = Done (false, concrete (put x (Some (t, v)) s)).
Proof.
  intros Hx. unfold assign_functor. rewrite (operate_destroy x f) by (by apply concrete_lookup). cbn [mbind outcome_bind].
  unfold emplace. rewrite get_set_callback. cbn [mbind outcome_bind]. unfold set_operation. rewrite get_callback_insert. cbn [mbind outcome_bind].
  do 2 f_equal. apply change_one; simpl; [|unfold value; rewrite Hx; simpl; lia|done]. by rewrite !insert_insert_eq.
Qed.

Lemma new_empty_spec s x : vars s !! x = None -> new_empty x (concrete s) = concrete (put x None s).
Proof. intros Hx. apply change_one; simpl; [done|unfold value; rewrite Hx; simpl; lia|done]. Qed.

Lemma put_put x f g s : put x g (put x f s) = put x g s.
Proof. unfold put. simpl. by rewrite insert_insert_eq. Qed.

Lemma new_functor_spec s x t v : vars s !! x = None -> new_functor x (t, v) true (concrete s) = Done (false, concrete (put x (Some (t, v)) s)).
Proof.
  intros Hx. unfold new_functor. rewrite new_empty_spec by done.
  rewrite (assign_functor_spec _ x None) by (simpl; by rewrite lookup_insert_eq). cbn [mbind outcome_bind]. by rewrite put_put.
Qed.

(** The copy of [f] into a buffer without an object. *)
Lemma operate_assign x f w :
  get_callback x w = Done (mkCallback None (fst <$> f)) ->
  operate x f ASSIGN true w = Done (false, set_callback x (holding f) (mkWorld (callbacks w) (live w + full f) (log w))).
Proof.
  intros Hx. unfold operate. rewrite Hx. cbn [mbind outcome_bind]. unfold operate_on. destruct f as [[t v]|]; simpl.
  - rewrite decide_True by done. cbn [mbind outcome_bind]. simpl. by rewrite app_nil_r.
  - destruct w. simpl. by rewrite Z.add_0_r.
Qed.

Lemma new_copy_spec s x y g : vars s !! x = None -> vars s !! y = Some g -> new_copy x y true (concrete s) = Done (false, concrete (put x g s)).
Proof.
  intros Hx Hy. unfold new_copy. rewrite (concrete_lookup _ _ _ Hy). cbn [mbind outcome_bind].
  change (any (holding g)) with g. change (operation (holding g)) with (fst <$> g).
  pose proof (operate_assign x g (set_callback x (mkCallback None (fst <$> g)) (concrete s)) ltac:(by rewrite get_set_callback)) as Ho.
  unfold operate in Ho. rewrite get_set_callback in Ho. cbn [mbind outcome_bind] in Ho. unfold operate_on in *. cbn [operation] in *.
  destruct g as [[t v]|]; simpl in *.
  - rewrite decide_True by done. cbn [mbind outcome_bind]. simpl. do 2 f_equal. apply change_one; simpl; [done| |apply app_nil_r]. unfold value. rewrite Hx. simpl. lia.
  - do 2 f_equal. by apply new_empty_spec.
Qed.

Lemma assign_spec s x y f g : vars s !! x = Some f -> vars s !! y = Some g -> assign x y true (concrete s) = Done (false, concrete (put x g s)).
Proof.
  intros Hx Hy. unfold assign. case_bool_decide as Hxy.
  - subst y. assert (g = f) as -> by congruence. do 2 f_equal. symmetry. unfold put. rewrite insert_id by done. by destruct s.
  - rewrite (operate_destroy x f) by (by apply concrete_lookup). cbn [mbind outcome_bind].
    rewrite get_set_callback_ne by done. change (get_callback y _) with (get_callback y (concrete s)). rewrite (concrete_lookup _ _ _ Hy). cbn [mbind outcome_bind].
    unfold set_operation. rewrite get_set_callback. cbn [mbind outcome_bind].
    rewrite operate_assign by (by rewrite get_set_callback). do 2 f_equal. apply change_one; simpl; [by rewrite !insert_insert_eq| |done].
    unfold value. rewrite Hx. simpl. lia.
Qed.

Lemma clear_spec s x f : vars s !! x = Some f -> clear x (concrete s) = Done (concrete (put x None s)).
Proof.
  intros Hx. unfold clear. rewrite (operate_destroy x f) by (by apply concrete_lookup). cbn [mbind outcome_bind]. unfold set_operation.
  rewrite get_set_callback. cbn [mbind outcome_bind]. f_equal. apply change_one; simpl; [by rewrite insert_insert_eq| |done]. unfold value. rewrite Hx. simpl. lia.
Qed.

Lemma drop_spec s x f : vars s !! x = Some f -> drop x (concrete s) = Done (concrete (mkState (delete x (vars s)) (called s))).
Proof.
  intros Hx. unfold drop. rewrite (operate_destroy x f) by (by apply concrete_lookup). cbn [mbind outcome_bind]. unfold uninit, concrete, set_callback. simpl.
  rewrite fmap_delete, delete_insert_eq, count_delete, Hx. done.
Qed.

Lemma operator_call_spec s x f : vars s !! x = Some f -> operator_call x (concrete s) = Done (concrete (spec_step (Invoke x) s).2).
Proof.
  intros Hx. assert (Hv : value x s = f) by (unfold value; by rewrite Hx). unfold operator_call, operate, spec_step. rewrite Hv, (concrete_lookup _ _ _ Hx).
  cbn [mbind outcome_bind]. unfold operate_on. destruct f as [[t v]|]; simpl.
  - rewrite decide_True by done. cbn [mbind outcome_bind]. simpl. f_equal. apply concrete_put. by rewrite Hv.
  - f_equal. unfold set_callback, concrete. simpl. f_equal. apply insert_id. by rewrite lookup_fmap, Hx.
Qed.

Lemma defined_Some x s : defined x s = true -> exists f, vars s !! x = Some f.
Proof. unfold defined. by intros [f Hf]%bool_decide_eq_true; exists f. Qed.
Lemma defined_None x s : negb (defined x s) = true -> vars s !! x = None.
Proof. unfold defined. intros Hd. apply negb_true_iff, bool_decide_eq_false in Hd. by apply eq_None_not_Some. Qed.

Lemma step_spec p s : well_typed p s = true -> step true p (concrete s) = Done ((spec_step p s).1, concrete (spec_step p s).2).
Proof.
  destruct p as [x|x [t v]|x y|x y|x [t v]|x|x|x|x|x]; simpl; rewrite ?andb_true_iff; intros Hw.
  - do 2 f_equal. by apply new_empty_spec, defined_None.
  - destruct Hw as [Hx%defined_None _]. by apply new_functor_spec.
  - destruct Hw as [Hx%defined_None (g & Hy)%defined_Some]. unfold value. rewrite Hy. by apply new_copy_spec.
  - destruct Hw as [(f & Hx)%defined_Some (g & Hy)%defined_Some]. unfold value. rewrite Hy. by apply (assign_spec s x y f).
  - destruct Hw as [(f & Hx)%defined_Some _]. by apply (assign_functor_spec s x f).
  - apply defined_Some in Hw as (f & Hx). by rewrite (clear_spec s x f).
  - apply defined_Some in Hw as (f & Hx). by rewrite (operator_call_spec s x f).
  - destruct Hw as [(f & Hx)%defined_Some Hv]. unfold call. rewrite (concrete_lookup _ _ _ Hx). cbn [mbind outcome_bind].
    apply bool_decide_eq_true in Hv as [g Hg]. assert (f = Some g) as -> by (unfold value in Hg; by rewrite Hx in Hg).
    change (operation (holding (Some g))) with (Some g.1). cbn [deref mbind outcome_bind]. by rewrite (operator_call_spec s x (Some g)).
  - apply defined_Some in Hw as (f & Hx). unfold operator_bool. rewrite (concrete_lookup _ _ _ Hx). cbn [mbind outcome_bind]. unfold value. rewrite Hx. by destruct f.
  - apply defined_Some in Hw as (f & Hx). by rewrite (drop_spec s x f).
Qed.

(** The types in the variables have passed the static assertions. *)
Definition fits (s : state) : Prop := forall x t v, value x s = Some (t, v) -> static_assert t = true.

Lemma value_put x f s y : value y (put x f s) = if decide (y = x) then f else value y s.
Proof. unfold value, put. simpl. case_decide as Hy; [subst; by rewrite lookup_insert_eq|by rewrite lookup_insert_ne]. Qed.

Lemma fits_step p s : fits s -> well_typed p s = true -> fits (spec_step p s).2.
Proof.
  intros Hf Hw.
  assert (Hput : forall x g, (forall t v, g = Some (t, v) -> static_assert t = true) -> fits (put x g s)).
  { intros x g Hg y t v. rewrite value_put. case_decide; [apply Hg|apply Hf]. }
  assert (Hcall : forall x, fits (spec_step (Invoke x) s).2).
  { intros x. simpl. destruct (value x s) as [[t v]|] eqn:Hv; [|done]. intros y t' v' Hy.
    change (value y (put x (Some (t, invoke t v)) s) = Some (t', v')) in Hy. rewrite value_put in Hy. case_decide; [injection Hy as <- _; by apply (Hf x t v)|by apply (Hf y t' v')]. }
  destruct p as [x|x [t v]|x y|x y|x [t v]|x|x|x|x|x]; simpl in *; try (by apply Hput); try (by apply Hcall); rewrite ?andb_true_iff in Hw.
  - apply Hput. intros ?? [= <- <-]. tauto.
  - apply Hput. intros t v. apply Hf.
  - apply Hput. intros t v. apply Hf.
  - apply Hput. intros ?? [= <- <-]. tauto.
  - done.
  - intros y t v Hy. unfold value in Hy. simpl in Hy. destruct (decide (x = y)) as [->|]; [by rewrite lookup_delete_eq in Hy|]. rewrite lookup_delete_ne in Hy by done. by apply (Hf y t v).
Qed.

Lemma run_spec p s : fits s -> program_typed p s = true -> run p (concrete s) = Done ((spec_run p s).1, concrete (spec_run p s).2) /\ fits (spec_run p s).2.
Proof.
  revert s. induction p as [|i p IH]; intros s Hf Ht; simpl in Ht |- *; [done|]. apply andb_true_iff in Ht as [Hi Ht].
  rewrite step_spec by done. cbn [mbind outcome_bind]. pose proof (fits_step i s Hf Hi) as Hf'. destruct (spec_step i s) as [b s1]. simpl in *.
  destruct (IH s1 Hf' Ht) as [-> Hf1]. cbn [mbind outcome_bind]. by destruct (spec_run p s1).
Qed.


End callback.

(** *** Examples

    Two types of function objects, a counter of calls and one without state,
    of 4 and 20 bytes. *)
Definition ex_invoke (t : bool) (v : Z) : Z := if t then v + 1 else v.
Definition ex_sizeof (t : bool) : Z := if t then 4 else 20.
Definition ex_program : list (stmt (T := bool) (V := Z)) :=
  [New 1%positive; Invoke 1%positive; NewFunctor 2%positive (true, 0); NewCopy 3%positive 2%positive; Call 2%positive; Assign 1%positive 2%positive;
   AssignFunctor 2%positive (false, 7); Invoke 1%positive; Invoke 2%positive; Invoke 3%positive; Clear 1%positive; Test 1%positive; Test 3%positive; Drop 1%positive; Drop 3%positive].


(** When a copy throws, the callback assigned to is left with a pointer to the
    operations and no object: its destructor destroys what is not there. *)
Example ex_copy_throws :
  (w ← run ex_invoke [NewFunctor 1%positive (true, 0); NewFunctor 2%positive (false, 7)] (mkWorld ∅ 0 []);
   '(threw, w) ← assign ex_invoke 1%positive 2%positive false w.2;
   if threw : bool then drop ex_invoke 1%positive w else Done w) = Fault Undefined.
Proof. vm_compute. reflexivity. Qed.
Example ex_functor_throws :
  (w ← run ex_invoke [NewFunctor 1%positive (true, 0)] (mkWorld ∅ 0 []);
   '(threw, w) ← assign_functor ex_invoke 1%positive (false, 7) false w.2;
   if threw : bool then drop ex_invoke 1%positive w else Done w) = Fault Undefined.
Proof. vm_compute. reflexivity. Qed.

End Callback.

(** ** What an event queue promises

    A list of events, the threads that wait to take one or to add one, and
    those that have been let go but have not run yet.  [W] is a waiting
    thread; [cap] the length of the queue, if it has one; [add] inserts a thread in its
    list, and the first of a list is let go first. *)
Module EventSpec.
Section spec.
Context {E W : Type} `{EqDecision W} (cap : option Z) (add : W -> list W -> list W).

Record spec := Spec { content : list E; gets : list W; gwoken : list W; puts : list W; pwoken : list W }.

Definition full (s : spec) : bool := match cap with Some c => c <=? Z.of_nat (length (content s)) | None => false end.

Definition post (e : E) (s : spec) : spec := Spec (content s ++ [e]) (tail (gets s)) (take 1 (gets s) ++ gwoken s) (puts s) (pwoken s).
Definition take_first (s : spec) : option E * spec :=
  match content s with
  | [] => (None, s)
  | e :: es => (Some e, Spec es (gets s) (gwoken s) (tail (puts s)) (take 1 (puts s) ++ pwoken s))
  end.

(** The functions that wait, up to the wait or their end. *)
Definition try_get (w : W) (s : spec) : option E * spec :=
  match content s with [] => (None, Spec [] (add w (gets s)) (gwoken s) (puts s) (pwoken s)) | _ => take_first s end.
Definition try_post (w : W) (e : E) (s : spec) : bool * spec :=
  if full s then (false, Spec (content s) (gets s) (gwoken s) (add w (puts s)) (pwoken s)) else (true, post e s).

(** A thread runs again: if it has not been let go it waits again. *)
Fixpoint remove (w : W) (l : list W) : list W := match l with [] => [] | x :: l => if decide (x = w) then l else x :: remove w l end.
Definition resume_get (w : W) (s : spec) : option E * spec :=
  if decide (w ∈ gwoken s) then try_get w (Spec (content s) (gets s) (remove w (gwoken s)) (puts s) (pwoken s)) else (None, s).
Definition resume_post (w : W) (e : E) (s : spec) : bool * spec :=
  if decide (w ∈ pwoken s) then try_post w e (Spec (content s) (gets s) (gwoken s) (puts s) (remove w (pwoken s))) else (false, s).

(** No event, and no free place, is left for threads that all wait. *)
Definition attended (s : spec) : Prop :=
  (gets s = [] \/ (length (content s) <= length (gwoken s))%nat) /\
  forall c, cap = Some c -> puts s = [] \/ c - Z.of_nat (length (content s)) <= Z.of_nat (length (pwoken s)).
Definition bounded (s : spec) : Prop := forall c, cap = Some c -> Z.of_nat (length (content s)) <= c.

Lemma remove_length w l : w ∈ l -> length l = S (length (remove w l)).
Proof.
  induction l as [|x l IH]; [by intros ?%elem_of_nil|]. simpl. intros [->|Hin]%elem_of_cons; [by rewrite decide_True|].
  case_decide; [done|]. simpl. by rewrite <- IH.
Qed.
Lemma remove_sub w l x : x ∈ remove w l -> x ∈ l.
Proof.
  induction l as [|y l IH]; [done|]. simpl. case_decide; [by right|]. intros [->|Hin]%elem_of_cons; [by left|right; auto].
Qed.

Lemma remove_perm w l : w ∈ l -> l ≡ₚ w :: remove w l.
Proof.
  induction l as [|x l IH]; [by intros ?%elem_of_nil|]. simpl. intros [->|Hin]%elem_of_cons; [by rewrite decide_True|].
  case_decide as Hx; [by subst|]. rewrite (IH Hin) at 1. apply Permutation_swap.
Qed.

Lemma attended_post e s : attended s -> attended (post e s).
Proof.
  intros [Hg Hp]. split; simpl.
  - rewrite !length_app. destruct (gets s) as [|x l]; simpl; [by left|]. destruct Hg as [|Hg]; [done|]. right. simpl. lia.
  - intros c Hc. destruct (Hp c Hc) as [|Hl]; [by left|right]. rewrite length_app. simpl. lia.
Qed.

Lemma attended_take_first s : attended s -> attended (take_first s).2.
Proof.
  intros [Hg Hp]. unfold take_first. destruct (content s) as [|e es] eqn:Hc; simpl; [by split; rewrite ?Hc|]. simpl in Hg. split; simpl.
  - destruct Hg as [|Hg]; [by left|right; lia].
  - intros c Hcap. destruct (Hp c Hcap) as [->|Hl]; [by left|]. destruct (puts s) as [|x l]; [by left|]. right. simpl in *. lia.
Qed.

(** One woken thread less, before it tries again. *)
Lemma attended_resume_get w s : attended s -> attended (resume_get w s).2.
Proof.
  intros [Hg Hp]. unfold resume_get. case_decide as Hw; [|done]. apply remove_length in Hw. unfold try_get, take_first. simpl.
  destruct (content s) as [|e es]; simpl in *; (split; simpl; [|]).
  - right. lia.
  - done.
  - destruct Hg as [|Hg]; [by left|right; lia].
  - intros c Hc. destruct (Hp c Hc) as [->|Hl]; [by left|]. destruct (puts s) as [|x l]; [by left|]. right. simpl in *. lia.
Qed.

Lemma attended_try_get w s : attended s -> attended (try_get w s).2.
Proof.
  intros Ha. pose proof (attended_take_first s Ha) as Hget. unfold try_get. destruct (content s) eqn:Hc; [|done]. destruct Ha as [_ Hp]. rewrite Hc in Hp.
  split; simpl; [right; lia|done].
Qed.

Lemma attended_wait_put w s : full s = true -> attended s -> attended (Spec (content s) (gets s) (gwoken s) (add w (puts s)) (pwoken s)).
Proof.
  intros Hf [Hg _]. split; [done|]. simpl. intros c Hc. unfold full in Hf. rewrite Hc in Hf. apply Z.leb_le in Hf. right. lia.
Qed.

Lemma attended_try_post w e s : attended s -> attended (try_post w e s).2.
Proof. intros Ha. unfold try_post. destruct (full s) eqn:Hf; [by apply attended_wait_put|by apply attended_post]. Qed.

Lemma attended_resume_post w e s : attended s -> attended (resume_post w e s).2.
Proof.
  intros [Hg Hp]. unfold resume_post. case_decide as Hw; [|done]. apply remove_length in Hw. unfold try_post, full. simpl.
  destruct cap as [c|] eqn:Hcap; [destruct (Z.leb_spec c (Z.of_nat (length (content s)))) as [Hle|Hlt]|].
  - split; [done|]. simpl. intros c' Hc. right. assert (c' = c) as -> by congruence. lia.
  - split; simpl; rewrite ?length_app; [|intros c' Hc; assert (c' = c) as -> by congruence].
    + destruct (gets s) as [|x l]; simpl; [by left|]. destruct Hg as [|Hg]; [done|]. right. simpl. lia.
    + destruct (Hp c eq_refl) as [|Hl]; [by left|right]. simpl. lia.
  - split; simpl; rewrite ?length_app; [|congruence].
    destruct (gets s) as [|x l]; simpl; [by left|]. destruct Hg as [|Hg]; [done|]. right. simpl. lia.
Qed.

Lemma bounded_post e s : bounded s -> full s = false -> bounded (post e s).
Proof. intros Hb Hf c Hc. unfold full in Hf. rewrite Hc in Hf. apply Z.leb_gt in Hf. simpl. rewrite length_app. simpl. lia. Qed.

End spec.
End EventSpec.

(** ** [FixedEventQueue]

    All of it runs with interrupts disabled but for the events and the waits.
    An event is a value, as a [Callback] is one; the array is a [ring] of
    [Queues]. *)
Module FixedEventQueue.
Section queue.
Context {E S : Type} `{Scheduler S} (NumSlots : Z).

(** [FixedEventQueueBase::WaitingList], a local variable of the function that
    waits. *)
Record WaitingList := mkWaiting { next : option positive; t : positive; token : bool }.

(** The fields, the stacks and the threads. *)
Record world := World {
  put : Z; get : Z; n : Z; waitingGet : option positive; waitingPut : option positive; events : list (option E);
  nodes : gmap positive WaitingList; heap : threads }.

Definition new_FixedEventQueue (h : threads) : world := World 0 0 0 None None (replicate (Z.to_nat NumSlots) None) ∅ h.

Definition set_waitingGet (o : option positive) (w : world) : world := World (put w) (get w) (n w) o (waitingPut w) (events w) (nodes w) (heap w).
Definition set_waitingPut (o : option positive) (w : world) : world := World (put w) (get w) (n w) (waitingGet w) o (events w) (nodes w) (heap w).
Definition set_nodes (ns : gmap positive WaitingList) (w : world) : world := World (put w) (get w) (n w) (waitingGet w) (waitingPut w) (events w) ns (heap w).
Definition set_heap (h : threads) (w : world) : world := World (put w) (get w) (n w) (waitingGet w) (waitingPut w) (events w) (nodes w) h.

(** [Thread::IRQwait] and [IRQwakeup]. *)
Definition IRQwait (p : positive) (w : world) : exec world := h ← store (heap w) p (set_flags (ThreadFlags.IRQsetWait true)); Done (set_heap h w).
Definition IRQwakeup (p : positive) (w : world) : exec world := h ← store (heap w) p (set_flags (ThreadFlags.IRQsetWait false)); Done (set_heap h w).

(** [a->token=true; a->t->IRQwakeup();], and the next. *)
Definition let_go (a : positive) (w : world) : exec (option positive * world) :=
  wl ← deref (nodes w !! a);
  w ← IRQwakeup (t wl) (set_nodes (<[a := mkWaiting (next wl) (t wl) true]> (nodes w)) w);
  Done (next wl, w).

Definition higher (a cur : positive) (w : world) : exec bool :=
  wl ← deref (nodes w !! a); pt ← getPriority (t wl) (heap w); pc ← getPriority cur (heap w); Done (less pc pt).

(** [hppw] is a pointer, that can be null. *)
Definition IRQpostImpl (cur : positive) (event : E) (hppw : option bool) (w : world) : exec (bool * option bool * world) :=
  if NumSlots <=? n w then Done (false, hppw, w)
  else
    es ← buf_set (events w) (put w) event;
    let p := u32 (put w + 1) in
    let w := World (if NumSlots <=? p then 0 else p) (get w) (u32 (n w + 1)) (waitingGet w) (waitingPut w) es (nodes w) (heap w) in
    match waitingGet w with
    | None => Done (true, hppw, w)
    | Some a =>
        hppw ← match hppw with Some b => h ← higher a cur w; Done (Some (if h : bool then true else b)) | None => Done None end;
        '(nx, w) ← let_go a w;
        Done (true, hppw, set_waitingGet nx w)
    end.

(** [n<=0] is [n==0], of an unsigned integer. *)
Definition take_event (w : world) : exec (E * world) :=
  f ← buf_get (events w) (get w);
  let g := u32 (get w + 1) in
  let w := World (put w) (if NumSlots <=? g then 0 else g) (u32 (n w - 1)) (waitingGet w) (waitingPut w) (events w) (nodes w) (heap w) in
  match waitingPut w with
  | None => Done (f, w)
  | Some a => '(nx, w) ← let_go a w; Done (f, set_waitingPut nx w)
  end.

(** The functions that wait, by thread [p] whose [WaitingList] is at [a], up to
    the yield or the end; what the thread does when it runs again. *)
Definition postImpl (a p : positive) (event : E) (w : world) : exec (bool * world) :=
  if NumSlots <=? n w then
    w ← IRQwait p (set_waitingPut (Some a) (set_nodes (<[a := mkWaiting (waitingPut w) p false]> (nodes w)) w)); Done (false, w)
  else '(_, _, w) ← IRQpostImpl p event None w; Done (true, w).

Definition postImpl_resume (a p : positive) (event : E) (w : world) : exec (bool * world) :=
  wl ← deref (nodes w !! a);
  if token wl then postImpl a p event (set_nodes (delete a (nodes w)) w) else w ← IRQwait p w; Done (false, w).

(** One turn of the loop, up to the call of the event, which it gives. *)
Definition runImpl (a p : positive) (w : world) : exec (option E * world) :=
  if n w <=? 0 then
    w ← IRQwait p (set_waitingGet (Some a) (set_nodes (<[a := mkWaiting (waitingGet w) p false]> (nodes w)) w)); Done (None, w)
  else '(f, w) ← take_event w; Done (Some f, w).

Definition runImpl_resume (a p : positive) (w : world) : exec (option E * world) :=
  wl ← deref (nodes w !! a);
  if token wl then runImpl a p (set_nodes (delete a (nodes w)) w) else w ← IRQwait p w; Done (None, w).

Definition runOneImpl (w : world) : exec (option E * world) :=
  if n w <=? 0 then Done (None, w) else '(f, w) ← take_event w; Done (Some f, w).

Definition sizeImpl (w : world) : Z := n w.
Definition empty (w : world) : bool := sizeImpl w =? 0.

(** [postNonBlocking], and the two [IRQpost]. *)
Definition postNonBlocking (cur : positive) (event : E) (w : world) : exec (bool * world) := '(b, _, w) ← IRQpostImpl cur event None w; Done (b, w).
Definition IRQpost (cur : positive) (event : E) (w : world) : exec (bool * world) := '(b, _, w) ← IRQpostImpl cur event None w; Done (b, w).
Definition IRQpost_hppw (cur : positive) (event : E) (w : world) : exec (bool * bool * world) :=
  '(b, h, w) ← IRQpostImpl cur event (Some false) w; Done (b, default false h, w).

(** *** Executions

    [Wakeup]: another thread wakes [p] for a reason of its own. *)
Inductive op :=
| Post (a p : positive) (e : E) | ResumePost (a p : positive) (e : E) | PostNonBlocking (cur : positive) (e : E) | IRQPost (cur : positive) (e : E) | IRQPostHppw (cur : positive) (e : E)
| Run (a p : positive) | ResumeRun (a p : positive) | RunOne | Size | Empty | Wakeup (p : positive).

Inductive result := Posted (b : bool) | PostedHppw (b hppw : bool) | Event (e : option E) | Number (k : Z) | Unit.

Definition run_op (o : op) (w : world) : exec (result * world) :=
  match o with
  | Post a p e => '(b, w) ← postImpl a p e w; Done (Posted b, w)
  | ResumePost a p e => '(b, w) ← postImpl_resume a p e w; Done (Posted b, w)
  | PostNonBlocking cur e => '(b, w) ← postNonBlocking cur e w; Done (Posted b, w)
  | IRQPost cur e => '(b, w) ← IRQpost cur e w; Done (Posted b, w)
  | IRQPostHppw cur e => '(b, h, w) ← IRQpost_hppw cur e w; Done (PostedHppw b h, w)
  | Run a p => '(f, w) ← runImpl a p w; Done (Event f, w)
  | ResumeRun a p => '(f, w) ← runImpl_resume a p w; Done (Event f, w)
  | RunOne => '(f, w) ← runOneImpl w; Done (Event f, w)
  | Size => Done (Number (sizeImpl w), w)
  | Empty => Done (Posted (empty w), w)
  | Wakeup p => w ← IRQwakeup p w; Done (Unit, w)
  end.

Fixpoint run_ops (os : list op) (w : world) : exec (list result * world) :=
  match os with [] => Done ([], w) | o :: os => '(r, w) ← run_op o w; '(rs, w) ← run_ops os w; Done (r :: rs, w) end.

(** *** The specification

    A waiting thread is known with the address of its [WaitingList]; the last
    to come is the first to be let go. *)
Import EventSpec.
Abbreviation waiter := (positive * positive)%type.
Abbreviation spec := (EventSpec.spec (E := E) (W := waiter)).
Abbreviation cap := (Some NumSlots).

Definition try_put (cur : positive) (e : E) (s : spec) : bool * spec := if full cap s then (false, s) else (true, post e s).
Definition outranked (prio : positive -> Z) (cur : positive) (s : spec) : bool :=
  match gets s with (_, t) :: _ => negb (full cap s) && (urgency (prio cur) <? urgency (prio t)) | [] => false end.

Definition spec_op (prio : positive -> Z) (o : op) (s : spec) : result * spec :=
  match o with
  | Post a p e => let '(b, s) := try_post cap cons (a, p) e s in (Posted b, s)
  | ResumePost a p e => let '(b, s) := resume_post cap cons (a, p) e s in (Posted b, s)
  | PostNonBlocking cur e | IRQPost cur e => let '(b, s) := try_put cur e s in (Posted b, s)
  | IRQPostHppw cur e => let '(b, s') := try_put cur e s in (PostedHppw b (outranked prio cur s), s')
  | Run a p => let '(f, s) := try_get cons (a, p) s in (Event f, s)
  | ResumeRun a p => let '(f, s) := resume_get cons (a, p) s in (Event f, s)
  | RunOne => let '(f, s) := take_first s in (Event f, s)
  | Size => (Number (Z.of_nat (length (content s))), s)
  | Empty => (Posted (bool_decide (content s = [])), s)
  | Wakeup _ => (Unit, s)
  end.

Fixpoint spec_ops (prio : positive -> Z) (os : list op) (s : spec) : list result * spec :=
  match os with [] => ([], s) | o :: os => let '(r, s) := spec_op prio o s in let '(rs, s) := spec_ops prio os s in (r :: rs, s) end.

(** A thread that waits, or has been let go, does nothing but run again; its
    variable is not that of another. *)
Definition all (s : spec) : list waiter := gets s ++ gwoken s ++ puts s ++ pwoken s.
Definition op_ok (users : gset positive) (o : op) (s : spec) : bool :=
  match o with
  | Post a p _ | Run a p => bool_decide (p ∈ users) && bool_decide (a ∉ (all s).*1) && bool_decide (p ∉ (all s).*2)
  | ResumePost a p _ => bool_decide ((a, p) ∈ puts s ++ pwoken s)
  | ResumeRun a p => bool_decide ((a, p) ∈ gets s ++ gwoken s)
  | PostNonBlocking cur _ | IRQPost cur _ | IRQPostHppw cur _ | Wakeup cur => bool_decide (cur ∈ users)
  | RunOne | Size | Empty => true
  end.
Fixpoint ops_ok (users : gset positive) (prio : positive -> Z) (os : list op) (s : spec) : bool :=
  match os with [] => true | o :: os => op_ok users o s && ops_ok users prio os (spec_op prio o s).2 end.

(** *** Refinement *)
Fixpoint stack (ns : gmap positive WaitingList) (o : option positive) (l : list waiter) : Prop :=
  match l with
  | [] => o = None
  | (a, p) :: l => o = Some a /\ exists nx, ns !! a = Some (mkWaiting nx p false) /\ stack ns nx l
  end.

Record shape (users : gset positive) (s : spec) : Prop := {
  sh_nodes : NoDup (all s).*1;
  sh_threads : NoDup (all s).*2;
  sh_users : forall p, p ∈ (all s).*2 -> p ∈ users;
}.

Definition thread_ok (prio : positive -> Z) (s : spec) (h : threads) (p : positive) : Prop :=
  exists th, h !! p = Some th /\ ThreadFlags.valid (flags th) /\ priority th = prio p /\ (ThreadFlags.isWaiting (flags th) = true -> p ∈ (gets s ++ puts s).*2).

Record rep (users : gset positive) (prio : positive -> Z) (w : world) (s : spec) : Prop := Rep {
  rep_len : Z.of_nat (length (events w)) = NumSlots;
  rep_ring : ring (events w) (get w) (content s);
  rep_get : 0 <= get w < NumSlots;
  rep_put : put w = (get w + Z.of_nat (length (content s))) mod NumSlots;
  rep_n : n w = Z.of_nat (length (content s));
  rep_gets : stack (nodes w) (waitingGet w) (gets s);
  rep_puts : stack (nodes w) (waitingPut w) (puts s);
  rep_woken : forall a p, (a, p) ∈ gwoken s ++ pwoken s -> exists nx, nodes w !! a = Some (mkWaiting nx p true);
  rep_shape : shape users s;
  rep_users : forall p, p ∈ users -> thread_ok prio s (heap w) p;
}.

Hypothesis NumSlots_bounds : 0 < NumSlots < 2 ^ 32.

Lemma stack_frame ns ns' o l : (forall a, a ∈ l.*1 -> ns' !! a = ns !! a) -> stack ns o l -> stack ns' o l.
Proof.
  revert o. induction l as [|[a p] l IH]; intros o Hf; [done|]. intros (-> & nx & Ha & Hl). split; [done|]. exists nx.
  rewrite Hf by (simpl; by left). split; [done|]. apply IH; [|done]. intros b Hb. apply Hf. simpl. by right.
Qed.

Lemma shape_perm users s s' : all s ≡ₚ all s' -> shape users s -> shape users s'.
Proof. intros Hp []. split; [by rewrite <- Hp|by rewrite <- Hp|]. intros p. rewrite <- Hp. auto. Qed.

Lemma shape_cons users s s' a p :
  all s' ≡ₚ (a, p) :: all s -> (shape users s' <-> shape users s /\ (a ∉ (all s).*1) /\ (p ∉ (all s).*2) /\ p ∈ users).
Proof.
  intros Hp. split.
  - intros [H1 H2 H3]. rewrite Hp in H1, H2. simpl in H1, H2. apply NoDup_cons in H1 as [Ha H1]. apply NoDup_cons in H2 as [Hq H2].
    split_and!; [split; [done|done|]|done|done|]; [intros q Hin|]; apply H3; rewrite Hp; simpl; [by right|by left].
  - intros ([H1 H2 H3] & Ha & Hq & Hu). split; [rewrite Hp; simpl; by constructor|rewrite Hp; simpl; by constructor|].
    intros q. rewrite Hp. simpl. intros [->|Hin]%elem_of_cons; auto.
Qed.

(** Thread and variable of a waiting thread. *)
Lemma all_fst a p s : (a, p) ∈ all s -> a ∈ (all s).*1.
Proof. intros Hin. apply list_elem_of_fmap. by exists (a, p). Qed.

Lemma rep_set_flag users prio w s p b :
  rep users prio w s -> p ∈ users -> (b = true -> p ∈ (gets s ++ puts s).*2) ->
  exists h, store (heap w) p (set_flags (ThreadFlags.IRQsetWait b)) = Done h /\ rep users prio (set_heap h w) s.
Proof.
  intros Hr Hp Hb. destruct (rep_users _ _ _ _ Hr p Hp) as (th & Hth & Hv & Hpr & _). rewrite (store_Some _ _ _ _ Hth).
  eexists. split; [done|]. destruct Hr. split; try done. simpl. intros q Hq. destruct (decide (q = p)) as [->|Hne].
  - destruct (ThreadFlags.IRQsetWait_valid b (flags th) Hv) as [Hv' Hw']. eexists. rewrite lookup_insert_eq. split; [done|]. simpl. by rewrite Hw'.
  - destruct (rep_users0 q Hq) as (tq & ? & ? & ? & ?). exists tq. by rewrite lookup_insert_ne.
Qed.

Lemma rep_IRQwait users prio w s p :
  rep users prio w s -> p ∈ users -> p ∈ (gets s ++ puts s).*2 -> exists w', IRQwait p w = Done w' /\ rep users prio w' s.
Proof.
  intros Hr Hp Hin. destruct (rep_set_flag users prio w s p true Hr Hp (fun _ => Hin)) as (h & Hs & Hr'). unfold IRQwait. rewrite Hs. by eexists.
Qed.

Lemma rep_IRQwakeup users prio w s p :
  rep users prio w s -> p ∈ users -> exists w', IRQwakeup p w = Done w' /\ rep users prio w' s.
Proof.
  intros Hr Hp. destruct (rep_set_flag users prio w s p false Hr Hp ltac:(done)) as (h & Hs & Hr'). unfold IRQwakeup. rewrite Hs. by eexists.
Qed.

(** *** Waiting threads are let go *)
Definition move_get (s : spec) : spec := Spec (content s) (tail (gets s)) (take 1 (gets s) ++ gwoken s) (puts s) (pwoken s).
Definition move_put (s : spec) : spec := Spec (content s) (gets s) (gwoken s) (tail (puts s)) (take 1 (puts s) ++ pwoken s).

Lemma move_get_nil s : gets s = [] -> move_get s = s.
Proof. intros Hg. unfold move_get. rewrite Hg. simpl. rewrite <- Hg. by destruct s. Qed.
Lemma move_put_nil s : puts s = [] -> move_put s = s.
Proof. intros Hg. unfold move_put. rewrite Hg. simpl. rewrite <- Hg. by destruct s. Qed.

(** The thread [p] with the variable at [a] is let go; the other threads are
    those of [rest]. *)
Lemma let_go_spec users prio w s rest a p nx :
  rep users prio w s -> all s ≡ₚ (a, p) :: all rest -> nodes w !! a = Some (mkWaiting nx p false) ->
  exists h, let_go a w = Done (nx, set_heap h (set_nodes (<[a := mkWaiting nx p true]> (nodes w)) w)) /\
    (a ∉ (all rest).*1) /\ (forall b, b ∈ (all rest).*1 -> <[a := mkWaiting nx p true]> (nodes w) !! b = nodes w !! b) /\
    forall s', (forall q, q <> p -> q ∈ (gets s ++ puts s).*2 -> q ∈ (gets s' ++ puts s').*2) -> forall q, q ∈ users -> thread_ok prio s' h q.
Proof.
  intros Hr Hp Ha. pose proof (rep_shape _ _ _ _ Hr) as Hsh. apply (shape_cons _ _ _ _ _ Hp) in Hsh as (_ & Hna & _ & Hpu).
  destruct (rep_users _ _ _ _ Hr p Hpu) as (th & Hth & Hv & Hpr & _). eexists. split; [|split; [exact Hna|split]].
  - unfold let_go. rewrite Ha. cbn [deref mbind outcome_bind]. unfold IRQwakeup. simpl. rewrite (store_Some _ _ _ _ Hth). done.
  - intros b Hb. rewrite lookup_insert_ne; [done|]. by intros <-.
  - intros s' Hs' q Hq. destruct (decide (q = p)) as [->|Hne].
    + destruct (ThreadFlags.IRQsetWait_valid false (flags th) Hv) as [Hv' Hw']. eexists. rewrite lookup_insert_eq. split; [done|]. simpl. by rewrite Hw'.
    + destruct (rep_users _ _ _ _ Hr q Hq) as (tq & Htq & Hvq & Hprq & Hwq). exists tq. rewrite lookup_insert_ne by done. split_and!; auto.
Qed.

Lemma rep_move_get users prio w s :
  rep users prio w s ->
  match waitingGet w with
  | None => gets s = []
  | Some a => exists nx w', let_go a w = Done (nx, w') /\ rep users prio (set_waitingGet nx w') (move_get s)
  end.
Proof.
  intros Hr. pose proof (rep_gets _ _ _ _ Hr) as Hg. destruct (gets s) as [|[a p] l] eqn:Eg; simpl in Hg; [by rewrite Hg|].
  destruct Hg as (-> & nx & Ha & Hl). set (rest := Spec (content s) l (gwoken s) (puts s) (pwoken s)).
  assert (Hp : all s ≡ₚ (a, p) :: all rest) by (unfold all; rewrite Eg; done).
  destruct (let_go_spec users prio w s rest a p nx Hr Hp Ha) as (h & -> & Hna & Hframe & Hthreads). do 2 eexists. split; [done|].
  assert (Hmove : all (move_get s) ≡ₚ (a, p) :: all rest) by (unfold all, move_get, rest; rewrite Eg; simpl; solve_Permutation).
  destruct Hr. split; simpl; try done; rewrite ?Eg; simpl.
  - eapply stack_frame; [|exact Hl]. intros b Hb. apply Hframe. unfold all, rest. simpl. rewrite fmap_app, elem_of_app. by left.
  - eapply stack_frame; [|exact rep_puts0]. intros b Hb. apply Hframe. unfold all, rest. simpl. rewrite !fmap_app, !elem_of_app. auto.
  - intros b q [[= -> ->]|Hin]%elem_of_cons; [exists nx; apply lookup_insert_eq|]. rewrite Hframe; [by apply rep_woken0|].
    apply (all_fst _ q rest). unfold all, rest. simpl. rewrite !elem_of_app in *. tauto.
  - eapply shape_perm; [|exact rep_shape0]. by rewrite Hp, Hmove.
  - apply Hthreads. intros q Hne. simpl. rewrite Eg. simpl. intros [->|]%elem_of_cons; done.
Qed.

Lemma rep_move_put users prio w s :
  rep users prio w s ->
  match waitingPut w with
  | None => puts s = []
  | Some a => exists nx w', let_go a w = Done (nx, w') /\ rep users prio (set_waitingPut nx w') (move_put s)
  end.
Proof.
  intros Hr. pose proof (rep_puts _ _ _ _ Hr) as Hg. destruct (puts s) as [|[a p] l] eqn:Eg; simpl in Hg; [by rewrite Hg|].
  destruct Hg as (-> & nx & Ha & Hl). set (rest := Spec (content s) (gets s) (gwoken s) l (pwoken s)).
  assert (Hp : all s ≡ₚ (a, p) :: all rest) by (unfold all, rest; rewrite Eg; simpl; solve_Permutation).
  destruct (let_go_spec users prio w s rest a p nx Hr Hp Ha) as (h & -> & Hna & Hframe & Hthreads). do 2 eexists. split; [done|].
  assert (Hmove : all (move_put s) ≡ₚ (a, p) :: all rest) by (unfold all, move_put, rest; rewrite Eg; simpl; solve_Permutation).
  destruct Hr. split; simpl; try done; rewrite ?Eg; simpl.
  - eapply stack_frame; [|exact rep_gets0]. intros b Hb. apply Hframe. unfold all, rest. simpl. rewrite fmap_app, elem_of_app. by left.
  - eapply stack_frame; [|exact Hl]. intros b Hb. apply Hframe. unfold all, rest. simpl. rewrite !fmap_app, !elem_of_app. auto.
  - intros b q Hin. rewrite elem_of_app, elem_of_cons in Hin. destruct (decide ((b, q) = (a, p))) as [[= -> ->]|Hne]; [exists nx; apply lookup_insert_eq|].
    assert (Hin' : (b, q) ∈ gwoken s ++ pwoken s) by (rewrite elem_of_app; tauto). rewrite Hframe; [by apply rep_woken0|].
    apply (all_fst _ q rest). unfold all, rest. simpl. rewrite !elem_of_app in *. tauto.
  - eapply shape_perm; [|exact rep_shape0]. by rewrite Hp, Hmove.
  - apply Hthreads. intros q Hne. simpl. rewrite Eg, !fmap_app, !elem_of_app. simpl. rewrite elem_of_cons. tauto.
Qed.

(** *** Events *)
Lemma rep_full users prio w s : rep users prio w s -> (NumSlots <=? n w) = full cap s.
Proof. intros Hr. unfold full. by rewrite (rep_n _ _ _ _ Hr). Qed.

Lemma rep_no_event users prio w s : rep users prio w s -> (n w <=? 0) = bool_decide (content s = []).
Proof. intros Hr. rewrite (rep_n _ _ _ _ Hr). by destruct (content s). Qed.

Lemma rep_add_event users prio w s e :
  rep users prio w s -> full cap s = false ->
  let p := u32 (put w + 1) in
  exists es, buf_set (events w) (put w) e = Done es /\
    rep users prio (World (if NumSlots <=? p then 0 else p) (get w) (u32 (n w + 1)) (waitingGet w) (waitingPut w) es (nodes w) (heap w))
      (Spec (content s ++ [e]) (gets s) (gwoken s) (puts s) (pwoken s)).
Proof.
  intros Hr Hf. unfold full in Hf. apply Z.leb_gt in Hf. cbn zeta. destruct Hr.
  destruct (ring_put _ _ _ e rep_ring0 ltac:(lia)) as [Hset Hring]. rewrite rep_len0, <- rep_put0 in Hset, Hring.
  eexists. split; [exact Hset|]. assert (Hpos : 0 <= put w < NumSlots) by (rewrite rep_put0; apply Z.mod_pos_bound; lia).
  rewrite (wrapU_small 32 (put w + 1)) by lia. rewrite next_leb by lia. rewrite (wrapU_small 32 (n w + 1)) by lia.
  split; simpl; try done; rewrite ?length_insert, ?length_app; simpl; [done| |lia|].
  - rewrite rep_put0, Zplus_mod_idemp_l. f_equal. lia.
  - destruct rep_shape0. by split.
Qed.

Lemma rep_higher users prio w s a l cur :
  rep users prio w s -> waitingGet w = Some a -> cur ∈ users -> gets s = (a, l) :: tail (gets s) ->
  higher a cur w = Done (urgency (prio cur) <? urgency (prio l)).
Proof.
  intros Hr Hw Hc Hg. pose proof (rep_gets _ _ _ _ Hr) as Hst. rewrite Hg in Hst. simpl in Hst. destruct Hst as (_ & nx & Ha & _).
  assert (Hl : l ∈ users). { apply (sh_users _ _ (rep_shape _ _ _ _ Hr)). unfold all. rewrite Hg. simpl. by left. }
  destruct (rep_users _ _ _ _ Hr cur Hc) as (tc & Htc & _ & Hpc & _), (rep_users _ _ _ _ Hr l Hl) as (tl & Htl & _ & Hpl & _).
  unfold higher. rewrite Ha. cbn [deref mbind outcome_bind]. simpl. rewrite (getPriority_reads _ _ _ Htl), (getPriority_reads _ _ _ Htc).
  cbn [mbind outcome_bind]. by rewrite less_urgency, Hpc, Hpl.
Qed.

Definition spec_hppw (prio : positive -> Z) (cur : positive) (hppw : option bool) (s : spec) : option bool :=
  (fun b => if outranked prio cur s then true else b) <$> hppw.

Lemma rep_post users prio w s cur e hppw :
  rep users prio w s -> cur ∈ users ->
  exists w', IRQpostImpl cur e hppw w = Done ((try_put cur e s).1, spec_hppw prio cur hppw s, w') /\ rep users prio w' (try_put cur e s).2.
Proof.
  intros Hr Hc. unfold IRQpostImpl, try_put, spec_hppw, outranked. rewrite (rep_full _ _ _ _ Hr). destruct (full cap s) eqn:Hf; simpl.
  - exists w. split; [|done]. do 3 f_equal. destruct hppw as [b|]; [|done]. simpl. by destruct (gets s) as [|[a q] l].
  - destruct (rep_add_event users prio w s e Hr Hf) as (es & Hset & Hr1). cbn zeta in Hr1. rewrite Hset. cbn [mbind outcome_bind].
    match type of Hr1 with rep _ _ ?w1 ?s1 => set (w1' := w1) in *; set (s1' := s1) in * end.
    pose proof (rep_move_get _ _ _ _ Hr1) as Hmove. change (post e s) with (move_get s1'). change (gets s) with (gets s1').
    change (waitingGet w) with (waitingGet w1'). destruct (waitingGet w1') as [a|] eqn:Ew.
    + pose proof (rep_gets _ _ _ _ Hr1) as Hst. rewrite Ew in Hst. destruct (gets s1') as [|[b q] l] eqn:Eg; [done|]. destruct Hst as [[= <-] _]. destruct Hmove as (nx & w' & Hlet & Hr').
      assert (Hhi : higher a cur w1' = Done (urgency (prio cur) <? urgency (prio q))) by (eapply rep_higher; try done; by rewrite Eg).
      exists (set_waitingGet nx w'). split; [|done].
      destruct hppw as [b|]; simpl; rewrite ?Hhi; cbn [mbind outcome_bind]; rewrite Hlet; done.
    + exists w1'. rewrite move_get_nil by done. rewrite Hmove. split; [|done]. by destruct hppw.
Qed.

Lemma rep_take_event users prio w s x xs :
  rep users prio w s -> content s = x :: xs ->
  exists w', take_event w = Done (x, w') /\ rep users prio w' (take_first s).2.
Proof.
  intros Hr Hx. assert (Hlen : Z.of_nat (length (content s)) <= NumSlots).
  { destruct Hr. destruct rep_ring0. lia. }
  unfold take_event, take_first. pose proof Hr as []. rewrite Hx in *. simpl in Hlen.
  rewrite <- rep_len0 in rep_get0. destruct (ring_get _ _ _ _ rep_ring0 rep_get0) as [Hget Hring]. rewrite rep_len0 in *.
  rewrite Hget. cbn [mbind outcome_bind]. simpl in rep_n0. rewrite rep_n0, (wrapU_small 32 (get w + 1)) by lia. rewrite next_leb by lia. rewrite wrapU_small by lia.
  set (s1 := Spec xs (gets s) (gwoken s) (puts s) (pwoken s)).
  match goal with |- context [Done (x, ?w)] => set (w1 := w) end.
  assert (Hr1 : rep users prio w1 s1).
  { split; simpl; try done; [apply Z.mod_pos_bound; lia| |lia|by destruct rep_shape0].
    rewrite rep_put0, Zplus_mod_idemp_l. simpl. f_equal. lia. }
  pose proof (rep_move_put _ _ _ _ Hr1) as Hmove. change (waitingPut w1) with (waitingPut w) in Hmove. simpl. fold (move_put s1).
  destruct (waitingPut w) as [a|].
  - destruct Hmove as (nx & w' & -> & Hr'). eexists. split; [done|]. exact Hr'.
  - exists w1. split; [done|]. change (rep users prio w1 (move_put s1)). by rewrite move_put_nil.
Qed.

(** *** Waits *)
Lemma rep_set_nodes users prio w s ns :
  rep users prio w s -> (forall b, b ∈ (all s).*1 -> ns !! b = nodes w !! b) -> rep users prio (set_nodes ns w) s.
Proof.
  intros [] Hf. assert (Hsub : forall l, (forall x, x ∈ l -> x ∈ all s) -> forall b, b ∈ l.*1 -> ns !! b = nodes w !! b).
  { intros l Hl b (x & -> & Hx)%list_elem_of_fmap. apply Hf, list_elem_of_fmap. eauto. }
  split; simpl; try done.
  - eapply stack_frame; [|exact rep_gets0]. apply Hsub. intros x. unfold all. rewrite elem_of_app. tauto.
  - eapply stack_frame; [|exact rep_puts0]. apply Hsub. intros x. unfold all. rewrite !elem_of_app. tauto.
  - intros a p Hin. rewrite Hf; [by apply rep_woken0|]. apply (all_fst _ p). unfold all. rewrite !elem_of_app in *. tauto.
Qed.

Definition with_gets (l gw : list waiter) (s : spec) : spec := Spec (content s) l gw (puts s) (pwoken s).
Definition with_puts (l pw : list waiter) (s : spec) : spec := Spec (content s) (gets s) (gwoken s) l pw.

Lemma rep_wait_get users prio w s a p :
  rep users prio w s -> p ∈ users -> a ∉ (all s).*1 -> p ∉ (all s).*2 ->
  exists w', IRQwait p (set_waitingGet (Some a) (set_nodes (<[a := mkWaiting (waitingGet w) p false]> (nodes w)) w)) = Done w' /\
    rep users prio w' (with_gets ((a, p) :: gets s) (gwoken s) s).
Proof.
  intros Hr Hp Ha Hq. apply rep_IRQwait; [|done|simpl; by left].
  assert (Hs : all (with_gets ((a, p) :: gets s) (gwoken s) s) ≡ₚ (a, p) :: all s) by done.
  destruct (rep_set_nodes users prio w s (<[a := mkWaiting (waitingGet w) p false]> (nodes w)) Hr) as [].
  { intros b Hb. rewrite lookup_insert_ne; [done|]. by intros <-. }
  split; simpl in *; try done.
  - split; [done|]. exists (waitingGet w). by rewrite lookup_insert_eq.
  - by apply (shape_cons users s _ a p Hs).
  - intros q Hqu. destruct (rep_users0 q Hqu) as (th & ? & ? & ? & Hwt). exists th. split_and!; try done. simpl. rewrite elem_of_cons. auto.
Qed.

Lemma rep_wait_put users prio w s a p :
  rep users prio w s -> p ∈ users -> a ∉ (all s).*1 -> p ∉ (all s).*2 ->
  exists w', IRQwait p (set_waitingPut (Some a) (set_nodes (<[a := mkWaiting (waitingPut w) p false]> (nodes w)) w)) = Done w' /\
    rep users prio w' (with_puts ((a, p) :: puts s) (pwoken s) s).
Proof.
  intros Hr Hp Ha Hq. apply rep_IRQwait; [|done|simpl; rewrite fmap_app, elem_of_app; right; by left].
  assert (Hs : all (with_puts ((a, p) :: puts s) (pwoken s) s) ≡ₚ (a, p) :: all s) by (unfold all; simpl; solve_Permutation).
  destruct (rep_set_nodes users prio w s (<[a := mkWaiting (waitingPut w) p false]> (nodes w)) Hr) as [].
  { intros b Hb. rewrite lookup_insert_ne; [done|]. by intros <-. }
  split; simpl in *; try done.
  - split; [done|]. exists (waitingPut w). by rewrite lookup_insert_eq.
  - by apply (shape_cons users s _ a p Hs).
  - intros q Hqu. destruct (rep_users0 q Hqu) as (th & ? & ? & ? & Hwt). exists th. split_and!; try done. simpl. rewrite fmap_app, !elem_of_app in *. simpl. rewrite elem_of_cons. tauto.
Qed.

(** A thread that was let go runs: its variable is gone. *)
Lemma rep_forget users prio w s s' a p :
  rep users prio w s -> all s ≡ₚ (a, p) :: all s' -> (content s' = content s /\ gets s' = gets s /\ puts s' = puts s) ->
  (forall x, x ∈ gwoken s' ++ pwoken s' -> x ∈ gwoken s ++ pwoken s) -> (a, p) ∈ gwoken s ++ pwoken s ->
  (exists nx, nodes w !! a = Some (mkWaiting nx p true)) /\ rep users prio (set_nodes (delete a (nodes w)) w) s' /\
    p ∈ users /\ (a ∉ (all s').*1) /\ (p ∉ (all s').*2).
Proof.
  intros Hr Hp (Hc & Hg & Hpu) Hwk Hin. pose proof Hr as []. apply (shape_cons _ _ _ _ _ Hp) in rep_shape0 as (Hsh & Ha & Hq & Hu).
  split; [by apply rep_woken0|]. split; [|by split_and!].
  assert (Hr' : rep users prio w s').
  { split; try done; rewrite ?Hc, ?Hg, ?Hpu; try done; [intros b q Hb; by apply rep_woken0, Hwk|].
    intros q Hqu. unfold thread_ok. rewrite Hg, Hpu. by apply rep_users0. }
  apply rep_set_nodes; [done|]. intros b Hb. rewrite lookup_delete_ne; [done|]. by intros <-.
Qed.

Lemma rep_forget_get users prio w s a p :
  rep users prio w s -> (a, p) ∈ gwoken s -> let s' := with_gets (gets s) (remove (a, p) (gwoken s)) s in
  (exists nx, nodes w !! a = Some (mkWaiting nx p true)) /\ rep users prio (set_nodes (delete a (nodes w)) w) s' /\
    p ∈ users /\ (a ∉ (all s').*1) /\ (p ∉ (all s').*2).
Proof.
  intros Hr Hin s'. apply (rep_forget users prio w s s' a p Hr); [| |intros x|]; unfold s'; simpl; try done.
  - unfold all. simpl. rewrite (remove_perm _ _ Hin) at 1. solve_Permutation.
  - rewrite !elem_of_app. intros [Hx%remove_sub|]; auto.
  - rewrite elem_of_app. by left.
Qed.

Lemma rep_forget_put users prio w s a p :
  rep users prio w s -> (a, p) ∈ pwoken s -> let s' := with_puts (puts s) (remove (a, p) (pwoken s)) s in
  (exists nx, nodes w !! a = Some (mkWaiting nx p true)) /\ rep users prio (set_nodes (delete a (nodes w)) w) s' /\
    p ∈ users /\ (a ∉ (all s').*1) /\ (p ∉ (all s').*2).
Proof.
  intros Hr Hin s'. apply (rep_forget users prio w s s' a p Hr); [| |intros x|]; unfold s'; simpl; try done.
  - unfold all. simpl. rewrite (remove_perm _ _ Hin) at 1. solve_Permutation.
  - rewrite !elem_of_app. intros [|Hx%remove_sub]; auto.
  - rewrite elem_of_app. by right.
Qed.

(** A thread in a stack has not got its token. *)
Lemma stack_node ns o l a p : stack ns o l -> (a, p) ∈ l -> exists nx, ns !! a = Some (mkWaiting nx p false).
Proof.
  revert o. induction l as [|[b q] l IH]; intros o Hl; [by intros ?%elem_of_nil|]. destruct Hl as (_ & nx & Hb & Hl).
  intros [[= -> ->]|Hin]%elem_of_cons; eauto.
Qed.

Lemma woken_not_waiting users prio w s a p nx :
  rep users prio w s -> nodes w !! a = Some (mkWaiting nx p false) -> ((a, p) ∉ gwoken s) /\ ((a, p) ∉ pwoken s).
Proof.
  intros Hr Ha. split; intros Hin; destruct (rep_woken _ _ _ _ Hr a p) as (nx' & Hnx); rewrite ?elem_of_app; auto; congruence.
Qed.

(** *** The operations *)
Lemma rep_postImpl users prio w s a p e :
  rep users prio w s -> p ∈ users -> a ∉ (all s).*1 -> p ∉ (all s).*2 ->
  exists w', postImpl a p e w = Done ((try_post cap cons (a, p) e s).1, w') /\ rep users prio w' (try_post cap cons (a, p) e s).2.
Proof.
  intros Hr Hp Ha Hq. unfold postImpl, try_post. rewrite (rep_full _ _ _ _ Hr). destruct (full cap s) eqn:Hf; simpl.
  - destruct (rep_wait_put users prio w s a p Hr Hp Ha Hq) as (w' & -> & Hr'). cbn [mbind outcome_bind]. by exists w'.
  - destruct (rep_post users prio w s p e None Hr Hp) as (w' & -> & Hr'). cbn [mbind outcome_bind]. exists w'. unfold try_put in Hr'. by rewrite Hf in Hr'.
Qed.

Lemma rep_take_op users prio w s :
  rep users prio w s ->
  exists w', runOneImpl w = Done ((take_first s).1, w') /\ rep users prio w' (take_first s).2.
Proof.
  intros Hr. unfold runOneImpl. rewrite (rep_no_event _ _ _ _ Hr). destruct (content s) as [|x xs] eqn:Hx; simpl.
  - exists w. unfold take_first. by rewrite Hx.
  - destruct (rep_take_event users prio w s x xs Hr Hx) as (w' & -> & Hr'). cbn [mbind outcome_bind]. exists w'. split; [|done]. unfold take_first. by rewrite Hx.
Qed.

Lemma rep_runImpl users prio w s a p :
  rep users prio w s -> p ∈ users -> a ∉ (all s).*1 -> p ∉ (all s).*2 ->
  exists w', runImpl a p w = Done ((try_get cons (a, p) s).1, w') /\ rep users prio w' (try_get cons (a, p) s).2.
Proof.
  intros Hr Hp Ha Hq. pose proof (rep_take_op users prio w s Hr) as Htake. unfold runOneImpl in Htake. unfold runImpl, try_get. rewrite (rep_no_event _ _ _ _ Hr) in *.
  destruct (content s) as [|x xs] eqn:Hx; simpl in *; [|done].
  destruct (rep_wait_get users prio w s a p Hr Hp Ha Hq) as (w' & -> & Hr'). cbn [mbind outcome_bind]. exists w'. unfold with_gets in Hr'. by rewrite Hx in Hr'.
Qed.

(** A thread that has been let go is in neither stack. *)
Lemma woken_apart users s a p : shape users s -> (a, p) ∈ gwoken s ++ pwoken s -> p ∉ (gets s ++ puts s).*2.
Proof.
  intros [_ Hnd _] Hw. assert (Hin : p ∈ (gwoken s ++ pwoken s).*2) by (apply list_elem_of_fmap; by exists (a, p)).
  assert (Hp : all s ≡ₚ (gets s ++ puts s) ++ (gwoken s ++ pwoken s)) by (unfold all; solve_Permutation).
  rewrite Hp, fmap_app in Hnd. apply NoDup_app in Hnd as (_ & Hnd & _). intros Hx. by apply (Hnd p Hx).
Qed.

Lemma waiter_user users prio w s a p : rep users prio w s -> (a, p) ∈ all s -> p ∈ users.
Proof. intros Hr Hin. apply (sh_users _ _ (rep_shape _ _ _ _ Hr)), list_elem_of_fmap. by exists (a, p). Qed.

Lemma rep_postImpl_resume users prio w s a p e :
  rep users prio w s -> (a, p) ∈ puts s ++ pwoken s ->
  exists w', postImpl_resume a p e w = Done ((resume_post cap cons (a, p) e s).1, w') /\ rep users prio w' (resume_post cap cons (a, p) e s).2.
Proof.
  intros Hr Hin. unfold postImpl_resume, resume_post. case_decide as Hw.
  - destruct (rep_forget_put users prio w s a p Hr Hw) as ((nx & ->) & Hr' & Hp & Ha & Hq). cbn [deref mbind outcome_bind token]. by apply rep_postImpl.
  - apply elem_of_app in Hin as [Hin|]; [|done]. destruct (stack_node _ _ _ _ _ (rep_puts _ _ _ _ Hr) Hin) as (nx & ->). cbn [deref mbind outcome_bind token].
    destruct (rep_IRQwait users prio w s p Hr) as (w' & -> & Hr'); [|apply list_elem_of_fmap; exists (a, p); split; [done|]; rewrite elem_of_app; by right|cbn [mbind outcome_bind]; by exists w'].
    apply (waiter_user users prio w s a p Hr). unfold all. rewrite !elem_of_app. tauto.
Qed.

Lemma rep_runImpl_resume users prio w s a p :
  rep users prio w s -> (a, p) ∈ gets s ++ gwoken s ->
  exists w', runImpl_resume a p w = Done ((resume_get cons (a, p) s).1, w') /\ rep users prio w' (resume_get cons (a, p) s).2.
Proof.
  intros Hr Hin. unfold runImpl_resume, resume_get. case_decide as Hw.
  - destruct (rep_forget_get users prio w s a p Hr Hw) as ((nx & ->) & Hr' & Hp & Ha & Hq). cbn [deref mbind outcome_bind token]. by apply rep_runImpl.
  - apply elem_of_app in Hin as [Hin|]; [|done]. destruct (stack_node _ _ _ _ _ (rep_gets _ _ _ _ Hr) Hin) as (nx & ->). cbn [deref mbind outcome_bind token].
    destruct (rep_IRQwait users prio w s p Hr) as (w' & -> & Hr'); [|apply list_elem_of_fmap; exists (a, p); split; [done|]; rewrite elem_of_app; by left|cbn [mbind outcome_bind]; by exists w'].
    apply (waiter_user users prio w s a p Hr). unfold all. rewrite !elem_of_app. tauto.
Qed.

Lemma fixed_op_refines users prio o w s :
  rep users prio w s -> op_ok users o s = true ->
  exists w', run_op o w = Done ((spec_op prio o s).1, w') /\ rep users prio w' (spec_op prio o s).2.
Proof.
  intros Hr Ho.
  assert (Hpost : forall cur e, cur ∈ users -> exists w' h, IRQpostImpl cur e None w = Done ((try_put cur e s).1, h, w') /\ rep users prio w' (try_put cur e s).2).
  { intros cur e Hc. destruct (rep_post users prio w s cur e None Hr Hc) as (w' & -> & Hr'). eauto. }
  destruct o as [a p e|a p e|cur e|cur e|cur e|a p|a p| | | |p]; cbn [run_op spec_op op_ok] in *; unfold postNonBlocking, IRQpost, IRQpost_hppw;
    rewrite ?andb_true_iff, ?bool_decide_eq_true in Ho.
  - destruct Ho as [[Hp Ha] Hq]. destruct (rep_postImpl users prio w s a p e Hr Hp Ha Hq) as (w' & -> & Hr'). cbn [mbind outcome_bind]. exists w'. by destruct (try_post _ _ _ _ _).
  - destruct (rep_postImpl_resume users prio w s a p e Hr Ho) as (w' & -> & Hr'). cbn [mbind outcome_bind]. exists w'. by destruct (resume_post _ _ _ _ _).
  - destruct (Hpost cur e Ho) as (w' & h & -> & Hr'). cbn [mbind outcome_bind]. exists w'. by destruct (try_put _ _ _).
  - destruct (Hpost cur e Ho) as (w' & h & -> & Hr'). cbn [mbind outcome_bind]. exists w'. by destruct (try_put _ _ _).
  - destruct (rep_post users prio w s cur e (Some false) Hr Ho) as (w' & -> & Hr'). cbn [mbind outcome_bind]. exists w'.
    destruct (try_put _ _ _). split; [|done]. simpl. by destruct (outranked prio cur s).
  - destruct Ho as [[Hp Ha] Hq]. destruct (rep_runImpl users prio w s a p Hr Hp Ha Hq) as (w' & -> & Hr'). cbn [mbind outcome_bind]. exists w'. by destruct (try_get _ _ _).
  - destruct (rep_runImpl_resume users prio w s a p Hr Ho) as (w' & -> & Hr'). cbn [mbind outcome_bind]. exists w'. by destruct (resume_get _ _ _).
  - destruct (rep_take_op users prio w s Hr) as (w' & -> & Hr'). cbn [mbind outcome_bind]. exists w'. by destruct (take_first s).
  - exists w. unfold sizeImpl. by rewrite (rep_n _ _ _ _ Hr).
  - exists w. unfold empty, sizeImpl. rewrite (rep_n _ _ _ _ Hr). split; [|done]. simpl. do 3 f_equal. by destruct (content s).
  - destruct (rep_IRQwakeup users prio w s p Hr Ho) as (w' & -> & Hr'). cbn [mbind outcome_bind]. by exists w'.
Qed.

Lemma spec_op_attended prio o s : attended cap s -> attended cap (spec_op prio o s).2.
Proof.
  intros Ha.
  assert (Hput : forall cur e, attended cap (try_put cur e s).2) by (intros cur e; unfold try_put; destruct (full cap s); [done|by apply attended_post]).
  destruct o as [a p e|a p e|cur e|cur e|cur e|a p|a p| | | |p]; cbn [spec_op]; try done.
  - pose proof (attended_try_post cap cons (a, p) e s Ha). by destruct (try_post _ _ _ _ _).
  - pose proof (attended_resume_post cap cons (a, p) e s Ha). by destruct (resume_post _ _ _ _ _).
  - specialize (Hput cur e). by destruct (try_put _ _ _).
  - specialize (Hput cur e). by destruct (try_put _ _ _).
  - specialize (Hput cur e). by destruct (try_put _ _ _).
  - pose proof (attended_try_get cap cons (a, p) s Ha). by destruct (try_get _ _ _).
  - pose proof (attended_resume_get cap cons (a, p) s Ha). by destruct (resume_get _ _ _).
  - pose proof (attended_take_first cap s Ha). by destruct (take_first s).
Qed.

Lemma run_ops_refine users prio os w s :
  rep users prio w s -> attended cap s -> ops_ok users prio os s = true ->
  exists w', run_ops os w = Done ((spec_ops prio os s).1, w') /\ rep users prio w' (spec_ops prio os s).2 /\ attended cap (spec_ops prio os s).2.
Proof.
  revert w s. induction os as [|o os IH]; intros w s Hr Ha Ho; simpl in Ho |- *; [by exists w|]. apply andb_true_iff in Ho as [Ho Hos].
  destruct (fixed_op_refines users prio o w s Hr Ho) as (w1 & -> & Hr1). cbn [mbind outcome_bind].
  pose proof (spec_op_attended prio o s Ha) as Ha1. destruct (spec_op prio o s) as [r s1]. simpl in *.
  destruct (IH w1 s1 Hr1 Ha1 Hos) as (w' & -> & Hr' & Ha'). cbn [mbind outcome_bind]. exists w'. by destruct (spec_ops prio os s1).
Qed.

Definition initial : spec := Spec [] [] [] [] [].
Definition prio_in (h : threads) (p : positive) : Z := match h !! p with Some th => priority th | None => 0 end.
(** Threads that do not wait. *)
Definition ready (users : gset positive) (h : threads) : Prop :=
  forall p, p ∈ users -> exists th, h !! p = Some th /\ ThreadFlags.valid (flags th) /\ ThreadFlags.isWaiting (flags th) = false.

Lemma run_initial users h os :
  ready users h -> ops_ok users (prio_in h) os initial = true ->
  exists w', run_ops os (new_FixedEventQueue h) = Done ((spec_ops (prio_in h) os initial).1, w') /\
    rep users (prio_in h) w' (spec_ops (prio_in h) os initial).2 /\ attended cap (spec_ops (prio_in h) os initial).2.
Proof.
  intros Hu Ho. apply run_ops_refine; [|split; [by left|intros c Hc; by left]|done].
  split; simpl; try done; [rewrite length_replicate; lia|apply ring_nil|lia|intros a p Hin; by apply elem_of_nil in Hin|split; [constructor|constructor|intros p Hp; by apply elem_of_nil in Hp]|].
  intros p Hp. destruct (Hu p Hp) as (th & Hth & Hv & Hw). exists th. unfold prio_in. rewrite Hth. split_and!; try done. by rewrite Hw.
Qed.

(** C27: [FixedEventQueue] is a bounded first-in first-out queue.  Any sequence
    of its operations, by threads that wait when it is full or empty and by
    interrupt routines, with threads woken for other reasons at any time,
    completes and gives the results, [hppw] included, of the
    same operations on a list with at most [NumSlots] events; only threads that wait for the queue are marked so. *)
Theorem fixed_queue_refines users h os :
  ready users h -> ops_ok users (prio_in h) os initial = true ->
  exists w', let '(rs, s') := spec_ops (prio_in h) os initial in
    run_ops os (new_FixedEventQueue h) = Done (rs, w') /\ n w' = Z.of_nat (length (content s')) /\ n w' <= NumSlots /\
    forall p, p ∈ users -> exists th, heap w' !! p = Some th /\ (ThreadFlags.isWaiting (flags th) = true -> p ∈ (gets s' ++ puts s').*2).
Proof.
  intros Hu Ho. destruct (run_initial users h os Hu Ho) as (w' & Hrun & Hr & _). exists w'. destruct (spec_ops _ _ _) as [rs s']. simpl in *.
  split; [done|]. split; [apply (rep_n _ _ _ _ Hr)|]. split.
  - pose proof (rep_n _ _ _ _ Hr). pose proof (rep_len _ _ _ _ Hr). destruct (rep_ring _ _ _ _ Hr). lia.
  - intros p Hp. destruct (rep_users _ _ _ _ Hr p Hp) as (th & ? & _ & _ & ?). eauto.
Qed.

(** C28: no wakeup is lost.  After any sequence of operations, when a thread sleeps
    until there is an event, at least as many threads as there are events have been
    let go; when one sleeps until there is a place, as many as there are
    places.  A thread that has been let go can run, and then takes the first event, or
    posts its own, if there is still one, or a place. *)
Theorem no_event_forgotten users h os :
  ready users h -> ops_ok users (prio_in h) os initial = true ->
  exists w', let '(rs, s') := spec_ops (prio_in h) os initial in
    run_ops os (new_FixedEventQueue h) = Done (rs, w') /\
    (gets s' <> [] -> n w' <= Z.of_nat (length (gwoken s'))) /\ (puts s' <> [] -> NumSlots - n w' <= Z.of_nat (length (pwoken s'))) /\
    forall a p, (a, p) ∈ gwoken s' ++ pwoken s' ->
      (exists th, heap w' !! p = Some th /\ ThreadFlags.isWaiting (flags th) = false) /\
      ((a, p) ∈ gwoken s' -> exists w'', runImpl_resume a p w' = Done (head (content s'), w'')) /\
      forall e, (a, p) ∈ pwoken s' -> exists w'', postImpl_resume a p e w' = Done (n w' <? NumSlots, w'').
Proof.
  intros Hu Ho. destruct (run_initial users h os Hu Ho) as (w' & Hrun & Hr & Hg & Hp). exists w'. destruct (spec_ops _ _ _) as [rs s']. simpl in *.
  rewrite (rep_n _ _ _ _ Hr). split; [done|]. split; [intros Hne; destruct Hg as [|]; [done|lia]|]. split; [intros Hne; by destruct (Hp NumSlots eq_refl)|].
  intros a p Hin. assert (Hall : (a, p) ∈ all s') by (unfold all; rewrite !elem_of_app in *; tauto). split_and!.
  - destruct (rep_users _ _ _ _ Hr p (waiter_user _ _ _ _ _ _ Hr Hall)) as (th & Hth & _ & _ & Hwt). exists th. split; [done|].
    apply not_true_iff_false. intros Hx%Hwt. by apply (woken_apart users s' a p (rep_shape _ _ _ _ Hr)).
  - intros Hw. destruct (rep_runImpl_resume users _ w' s' a p Hr) as (w'' & -> & _); [rewrite elem_of_app; by right|]. exists w''. unfold resume_get, try_get, take_first. rewrite decide_True by done. simpl. by destruct (content s').
  - intros e Hw. destruct (rep_postImpl_resume users _ w' s' a p e Hr) as (w'' & -> & _); [rewrite elem_of_app; by right|]. exists w''. unfold resume_post, try_post. rewrite decide_True by done.
    do 2 f_equal. unfold full. simpl. rewrite Z.leb_antisym. by destruct (_ <? _).
Qed.

End queue.

(** *** Examples

    A queue of two events and two threads that run them, the second more
    urgent. *)
#[local] Existing Instance PriorityScheduler.PriorityScheduler.ops.
#[local] Existing Instance PriorityScheduler.PriorityScheduler.scheduler.

Definition ex_heap : threads := <[4%positive := new_Thread 1]> (<[2%positive := new_Thread 1]> {[ 3%positive := new_Thread 2 ]}).
Definition ex_users : gset positive := {[2; 3; 4]}%positive.
(** The event that wakes 3 is taken by another before it runs; 2 is woken for
    another reason; 4 finds the queue full. *)
Definition ex_ops : list (op (E := positive)) :=
  [Run 10 2; Run 11 3; IRQPostHppw 2 100; RunOne; Wakeup 2; ResumeRun 10 2; ResumeRun 11 3; Size; PostNonBlocking 4 101; IRQPost 4 102; IRQPostHppw 4 103;
   Post 12 4 104; Empty; ResumePost 12 4 104; ResumeRun 11 3; ResumePost 12 4 104; ResumeRun 10 2; RunOne; RunOne]%positive.
Definition ex_results : list result :=
  [Event None; Event None; PostedHppw true true; Event (Some 100%positive); Unit; Event None; Event None; Number 0; Posted true; Posted true; PostedHppw false false;
   Posted false; Posted false; Posted false; Event (Some 101%positive); Posted true; Event (Some 102%positive); Event (Some 104%positive); Event None].

Lemma ex_ready : ready ex_users ex_heap.
Proof.
  intros p Hp. assert (Hall : set_Forall (fun p => match ex_heap !! p with Some th => bool_decide (flags th = 0) | None => false end = true) ex_users).
  { apply (bool_decide_unpack _). vm_compute. exact I. }
  specialize (Hall p Hp). cbn beta in Hall. destruct (ex_heap !! p) as [th|] eqn:E; [|done]. apply bool_decide_eq_true in Hall. exists th. rewrite Hall. split; [done|]. split; [by split|by vm_compute].
Qed.

Lemma fixed_queue_refines_witness : exists w', run_ops 2 ex_ops (new_FixedEventQueue 2 ex_heap) = Done (ex_results, w') /\ n w' = 0.
Proof.
  destruct (fixed_queue_refines (E := positive) 2 ltac:(lia) ex_users ex_heap ex_ops ex_ready ltac:(vm_compute; reflexivity)) as (w' & Hw).
  destruct (spec_ops _ _ _ _) as [rs s'] eqn:E. vm_compute in E. injection E as <- <-. exists w'. split; apply Hw.
Defined.

(** After the first events: two threads sleep, and the one let go waits again
    as its event is gone; then one is let go for the next event. *)
Lemma no_event_forgotten_witness :
  exists w', run_ops 2 (take 9 ex_ops) (new_FixedEventQueue 2 ex_heap) = Done (take 9 ex_results, w') /\
    n w' <= 1 /\ exists w'', runImpl_resume 2 11 3 w' = Done (Some 101%positive, w'').
Proof.
  destruct (no_event_forgotten (E := positive) 2 ltac:(lia) ex_users ex_heap (take 9 ex_ops) ex_ready ltac:(vm_compute; reflexivity)) as (w' & Hw).
  destruct (spec_ops _ _ _ _) as [rs s'] eqn:E. vm_compute in E. injection E as <- <-. exists w'. destruct Hw as (Hrun & Hn & _ & Hwoken).
  split; [exact Hrun|]. split; [apply Hn; done|]. destruct (Hwoken 11%positive 3%positive) as (_ & Hg & _); [by left|]. apply Hg. by left.
Defined.

End FixedEventQueue.

(** ** [EventQueue]

    What a thread does with the mutex locked is one operation; [cv] is the
    list of the threads that the condition variable holds, in order. *)
Module EventQueue.
Section queue.
Context {E : Type}.

Record world := World { events : list E; cv : list positive }.

Definition new_EventQueue : world := World [] [].

Definition post (event : E) (w : world) : world := World (events w ++ [event]) (tail (cv w)).

(** The loop of [run] up to the call of an event, which it gives, or to the
    wait of thread [p]; it does the same after the wait. *)
Definition run (p : positive) (w : world) : option E * world :=
  match events w with
  | [] => (None, World [] (cv w ++ [p]))
  | f :: fs => (Some f, World fs (cv w))
  end.
Definition runOne (w : world) : option E * world :=
  match events w with [] => (None, w) | f :: fs => (Some f, World fs (cv w)) end.

Definition size (w : world) : Z := Z.of_nat (length (events w)).
Definition empty (w : world) : bool := bool_decide (events w = []).

(** *** Executions: [Resume], of a thread that the condition variable has let go *)
Inductive op := Post (e : E) | Run (p : positive) | Resume (p : positive) | RunOne.

Definition run_op (o : op) (w : world) : option E * world :=
  match o with Post e => (None, post e w) | Run p | Resume p => run p w | RunOne => runOne w end.

Import EventSpec.
Abbreviation spec := (EventSpec.spec (E := E) (W := positive)).
Abbreviation snoc := (fun (p : positive) (l : list positive) => l ++ [p]).

Definition spec_op (o : op) (s : spec) : option E * spec :=
  match o with Post e => (None, EventSpec.post e s) | Run p => try_get snoc p s | Resume p => resume_get snoc p s | RunOne => take_first s end.
(** The threads that the condition variable has let go are those of the
    specification. *)
Definition op_ok (o : op) (s : spec) : Prop := match o with Resume p => p ∈ gwoken s | _ => True end.

Inductive reachable : world -> spec -> Prop :=
| reach_new : reachable new_EventQueue (Spec [] [] [] [] [])
| reach_op w s o : reachable w s -> op_ok o s -> reachable (run_op o w).2 (spec_op o s).2.

Lemma event_queue_spec w s :
  reachable w s -> events w = content s /\ cv w = gets s /\ puts s = [] /\ attended None s /\ forall o, op_ok o s -> (run_op o w).1 = (spec_op o s).1.
Proof.
  assert (Hop : forall o w s, events w = content s -> cv w = gets s -> puts s = [] -> op_ok o s ->
    (run_op o w).1 = (spec_op o s).1 /\ events (run_op o w).2 = content (spec_op o s).2 /\ cv (run_op o w).2 = gets (spec_op o s).2 /\ puts (spec_op o s).2 = []).
  { intros o [es c] [xs g gw pu pw]. simpl. intros -> -> -> Ho. destruct o as [e|p|p|]; simpl in *.
    - done.
    - unfold run, try_get, take_first. simpl. by destruct xs.
    - unfold resume_get, run, try_get, take_first. rewrite decide_True by done. simpl. by destruct xs.
    - unfold runOne, take_first. simpl. by destruct xs. }
  induction 1 as [|w s o Hr (He & Hc & Hp & Ha & _) Ho].
  - split_and!; try done; [split; [by left|done]|]. intros o Ho. by apply Hop.
  - destruct (Hop o w s He Hc Hp Ho) as (_ & He' & Hc' & Hp'). split_and!; try done.
    + destruct o as [e|p|p|]; simpl; [by apply attended_post|by apply attended_try_get|by apply attended_resume_get|by apply attended_take_first].
    + intros o' Ho'. by apply Hop.
Qed.

(** A thread sleeps in [run] only while every event has a thread that has
    been let go for it. *)
Corollary event_queue_attended w s : reachable w s -> cv w <> [] -> size w <= Z.of_nat (length (gwoken s)).
Proof. intros (He & Hc & _ & [[Hg|Hg] _] & _)%event_queue_spec Hne; unfold size; rewrite ?He; [congruence|lia]. Qed.

End queue.
End EventQueue.
