(* ===== verification/Lifecycle.v ===== *)
(** * The life of threads

    [Thread::create], [terminate], [wait], [wakeup], [detach], [join], the end
    of [threadLauncher] and the idle thread, in [kernel/kernel.cpp], over any
    scheduler.  An operation ends where the code calls [yield], which only lets
    the scheduler choose; a thread that blocks inside [join] keeps the place it
    has reached, and what it does next is an operation of its own.  Of the
    memory of a new thread only the object is modelled, not the stack. *)
From S2P Require Import Prelude Errors Threads Scheduler PriorityScheduler.

Local Open Scope Z_scope.

Module Lifecycle.

(** [config/miosix_settings.h]; [Thread::Options]. *)
Definition STACK_MIN : Z := 256.
Definition DEFAULT : Z := 0.
Definition JOINABLE : Z := Z.shiftl 1 0.

(** Where a thread is in [join]: after the [yield] of the loop, or between
    the two critical sections. *)
Inductive place := InLoop (t : positive) | BeforeReclaim.

(** What a call of [join] does up to its next [yield] or critical section. *)
Inductive join_result := Returned (b : bool) | Joined (result : option positive) | Blocked.

(** What threads, interrupts and the idle thread do. *)
Inductive op :=
| Create (mem : option positive) (reent : bool) (stacksize prio options : Z)
| Terminate (t : positive) | Wait | Wakeup (t : positive)
| Detach (t : positive)
| Join (t : positive) | Resume | Reclaim
| Exit (result : option positive)
| Idle
| Flag (t : positive) (o : ThreadFlags.op).

Section lifecycle.
Context {S : Type} `{Scheduler S}.

Record kernel := Kernel { sched : S; heap : threads; exist_deleted : bool; joining : gmap positive place }.

Definition set_heap (h : threads) (k : kernel) : kernel := Kernel (sched k) h (exist_deleted k) (joining k).
Definition set_place (p : positive) (pl : option place) (k : kernel) : kernel :=
  Kernel (sched k) (heap k) (exist_deleted k) (partial_alter (fun _ => pl) p (joining k)).

(** [mem]: what [malloc] returns; [reent]: whether the constructor finds
    memory for the C library's data. *)
Definition doCreate (mem : option positive) (reent : bool) (options : Z) (h : threads) : option positive * threads :=
  match mem with
  | None => (None, h)
  | Some t =>
      if negb reent then (None, h)
      else
        let thread := new_Thread 0 in
        let thread := if Z.land options JOINABLE =? 0 then set_flags ThreadFlags.IRQsetDetached thread else thread in
        (Some t, <[t := thread]> h)
  end.

Definition create (mem : option positive) (reent : bool) (stacksize prio options : Z) (k : kernel) : exec (option positive * kernel) :=
  if negb (validate prio) || (stacksize <? STACK_MIN) then Done (None, k)
  else
    match doCreate mem reent options (heap k) with
    | (None, h) => Done (None, set_heap h k)
    | (Some t, h) =>
        '(b, s, h) ← PKaddThread t prio (sched k) h;
        if negb b then Done (None, Kernel s (delete t h) (exist_deleted k) (joining k))
        else Done (Some t, Kernel s h (exist_deleted k) (joining k))
    end.

Definition change_flags (t : positive) (f : Z -> Z) (k : kernel) : exec kernel :=
  h ← store (heap k) t (set_flags f); Done (set_heap h k).

Definition testTerminate (cur : positive) (k : kernel) : exec bool :=
  t ← load (heap k) cur; Done (ThreadFlags.isDeleting (flags t)).
Definition terminate (t : positive) (k : kernel) : exec kernel := change_flags t ThreadFlags.IRQsetDeleting k.
Definition wait (cur : positive) (k : kernel) : exec kernel := change_flags cur (ThreadFlags.IRQsetWait true) k.
Definition wakeup (t : positive) (k : kernel) : exec kernel := change_flags t (ThreadFlags.IRQsetWait false) k.

Definition exists_ (t : option positive) (k : kernel) : exec bool :=
  match t with None => Done false | Some t => PKexists t (sched k) (heap k) end.

Definition isDetached (t : positive) (k : kernel) : exec bool :=
  t ← load (heap k) t; Done (ThreadFlags.isDetached (flags t)).

Definition detach (t : positive) (k : kernel) : exec kernel :=
  k ← change_flags t ThreadFlags.IRQsetDetached k;
  th ← load (heap k) t;
  let k := if ThreadFlags.isDeletedJoin (flags th) then Kernel (sched k) (heap k) true (joining k) else k in
  match joinData th with
  | Some waitingForJoin =>
      if negb (ThreadFlags.isDeletedJoin (flags th)) then change_flags waitingForJoin (ThreadFlags.IRQsetJoinWait false) k
      else Done k
  | None => Done k
  end.

(** Set the flag and yield. *)
Definition join_wait (cur t : positive) (k : kernel) : exec (join_result * kernel) :=
  k ← change_flags cur (ThreadFlags.IRQsetJoinWait true) k;
  Done (Blocked, set_place cur (Some (InLoop t)) k).

(** The thread is deleted: complete the join procedure. *)
Definition join_complete (cur t : positive) (k : kernel) : exec (join_result * kernel) :=
  k ← change_flags t ThreadFlags.IRQsetDetached k;
  th ← load (heap k) t;
  Done (Joined (joinData th), set_place cur (Some BeforeReclaim) k).

Definition join (cur t : positive) (k : kernel) : exec (join_result * kernel) :=
  if bool_decide (t = cur) then Done (Returned false, k)
  else
    e ← exists_ (Some t) k;
    if negb e then Done (Returned false, k)
    else
      th ← load (heap k) t;
      if ThreadFlags.isDetached (flags th) then Done (Returned false, k)
      else if negb (ThreadFlags.isDeletedJoin (flags th)) then
        match joinData th with
        | Some _ => Done (Returned false, k)
        | None =>
            h ← store (heap k) t (set_joinData (Some cur));
            join_wait cur t (set_heap h k)
        end
      else join_complete cur t k.

(** The loop of [join] after its [yield]. *)
Definition join_resume (cur t : positive) (k : kernel) : exec (join_result * kernel) :=
  e ← exists_ (Some t) k;
  if negb e then Done (Returned false, set_place cur None k)
  else
    th ← load (heap k) t;
    if ThreadFlags.isDetached (flags th) then Done (Returned false, set_place cur None k)
    else if ThreadFlags.isDeletedJoin (flags th) then join_complete cur t k
    else join_wait cur t k.

Definition removeDeadThreads (k : kernel) : exec kernel :=
  '(s, h) ← PKremoveDeadThreads (sched k) (heap k);
  Done (Kernel s h (exist_deleted k) (joining k)).

(** The second critical section of [join]. *)
Definition join_reclaim (cur : positive) (k : kernel) : exec (join_result * kernel) :=
  k ← removeDeadThreads k; Done (Returned true, set_place cur None k).

(** The end of [threadLauncher]. *)
Definition exit (cur : positive) (result : option positive) (k : kernel) : exec kernel :=
  k ← change_flags cur ThreadFlags.IRQsetDeleted k;
  th ← load (heap k) cur;
  if negb (ThreadFlags.isDetached (flags th)) then
    k ← match joinData th with
        | Some waitingForJoin => change_flags waitingForJoin (ThreadFlags.IRQsetJoinWait false) k
        | None => Done k
        end;
    h ← store (heap k) cur (set_joinData result);
    Done (set_heap h k)
  else Done (Kernel (sched k) (heap k) true (joining k)).

(** A turn of the idle thread. *)
Definition idleThread (k : kernel) : exec kernel :=
  if exist_deleted k then removeDeadThreads (Kernel (sched k) (heap k) false (joining k)) else Done k.

(** ** Invariant *)

Definition is_deleted (th : Thread) : bool := ThreadFlags.deleted (ThreadFlags.decode (flags th)).
Definition is_detached (th : Thread) : bool := ThreadFlags.detached (ThreadFlags.decode (flags th)).
Definition is_joining (th : Thread) : bool := ThreadFlags.waitingJoin (ThreadFlags.decode (flags th)).

(** A thread that can still be waited for. *)
Definition joinable (m : gmap positive Z) (h : threads) (t : positive) (th : Thread) : Prop :=
  is_Some (m !! t) /\ h !! t = Some th /\ is_deleted th = false /\ is_detached th = false.

(** [m]: the scheduled threads; [g]: what every ended thread returned. *)
Record inv (main : positive) (g : gmap positive (option positive)) (m : gmap positive Z) (k : kernel) : Prop := Inv {
  inv_rep : sched_rep (sched k) (heap k) m;
  inv_valid t th : heap k !! t = Some th -> ThreadFlags.valid (flags th);
  inv_main : is_Some (m !! main) /\ exists th, heap k !! main = Some th /\ is_deleted th = false;
  (** A thread inside [join] is alive. *)
  inv_place p pl : joining k !! p = Some pl -> is_Some (m !! p) /\ exists th, heap k !! p = Some th /\ is_deleted th = false;
  (** [waitingForJoin] is the thread in the loop of [join], while it counts. *)
  inv_loop p t th : joining k !! p = Some (InLoop t) -> joinable m (heap k) t th -> joinData th = Some p;
  inv_joined p t th : joinable m (heap k) t th -> joinData th = Some p -> joining k !! p = Some (InLoop t);
  (** A thread blocked in [join] waits for a thread that will wake it. *)
  inv_waits p t thp :
    joining k !! p = Some (InLoop t) -> heap k !! p = Some thp -> is_joining thp = true -> exists th, joinable m (heap k) t th;
  (** Every dead thread is going to be removed. *)
  inv_dead t th :
    is_Some (m !! t) -> heap k !! t = Some th -> is_deleted th = true -> is_detached th = true ->
    exist_deleted k = true \/ exists p, joining k !! p = Some BeforeReclaim;
  inv_result t th :
    is_Some (m !! t) -> heap k !! t = Some th -> is_deleted th = true -> is_detached th = false -> g !! t = Some (joinData th);
}.

(** Operations that change fields of threads, [f] on every thread of the heap. *)
Definition update (f : positive -> Thread -> Thread) (h h' : threads) : Prop := forall t, h' !! t = f t <$> h !! t.

Record harmless (f : positive -> Thread -> Thread) : Prop := Harmless {
  keeps_sched t th : sched_fields (f t th) = sched_fields th;
  keeps_valid t th : ThreadFlags.valid (flags th) -> ThreadFlags.valid (flags (f t th));
}.

Lemma update_lookup f h h' t th' : update f h h' -> h' !! t = Some th' -> exists th, h !! t = Some th /\ th' = f t th.
Proof. intros Hu Ht. rewrite Hu in Ht. by apply fmap_Some in Ht. Qed.

Lemma update_rep f s h h' m : harmless f -> update f h h' -> sched_rep s h m -> sched_rep s h' m.
Proof.
  intros Hf Hu. apply rep_stable. intros p _. unfold same_sched. rewrite Hu. destruct (h !! p); [simpl; by rewrite keeps_sched|done].
Qed.

Definition on (t : positive) (f : Thread -> Thread) (u : positive) (th : Thread) : Thread := if decide (u = t) then f th else th.
Definition flag_on (t : positive) (o : ThreadFlags.op) : positive -> Thread -> Thread := on t (set_flags (ThreadFlags.run o)).

Lemma on_eq t f th : on t f t th = f th.
Proof. unfold on. by rewrite decide_True. Qed.
Lemma on_ne t f u th : u <> t -> on t f u th = th.
Proof. intros. unfold on. by rewrite decide_False. Qed.

Lemma update_store h t th f : h !! t = Some th -> update (on t f) h (<[t := f th]> h).
Proof.
  intros Ht u. destruct (decide (u = t)) as [->|Hne].
  - rewrite lookup_insert_eq, Ht. simpl. by rewrite on_eq.
  - rewrite lookup_insert_ne by done. destruct (h !! u); [|done]. simpl. by rewrite on_ne.
Qed.

Lemma harmless_flag t o : harmless (flag_on t o).
Proof.
  split; intros u th; unfold flag_on, on; destruct (decide (u = t)); try done. intros Hv. by apply ThreadFlags.run_valid.
Qed.

Lemma harmless_data t d : harmless (on t (set_joinData d)).
Proof. split; intros u th; unfold on; by destruct (decide (u = t)). Qed.

Lemma harmless_compose f g : harmless f -> harmless g -> harmless (fun t th => g t (f t th)).
Proof. intros [? Hf] [? Hg]. split; [congruence|eauto]. Qed.

Lemma update_compose f g h h1 h2 : update f h h1 -> update g h1 h2 -> update (fun t th => g t (f t th)) h h2.
Proof. intros Hf Hg t. rewrite Hg, Hf. by destruct (h !! t). Qed.

Lemma change_flags_update t th o k :
  heap k !! t = Some th ->
  exists h', change_flags t (ThreadFlags.run o) k = Done (set_heap h' k) /\ update (flag_on t o) (heap k) h'.
Proof.
  intros Ht. unfold change_flags. rewrite (store_Some _ _ _ _ Ht). eexists. split; [done|]. by apply update_store.
Qed.

(** The status after a flag is set. *)
Lemma status_flag o th :
  ThreadFlags.valid (flags th) ->
  ThreadFlags.decode (flags (set_flags (ThreadFlags.run o) th)) = ThreadFlags.run_status o (ThreadFlags.decode (flags th)).
Proof. intros Hv. by apply ThreadFlags.run_valid. Qed.

(** An update keeps the invariant when what it does to every thread does. *)
Lemma inv_update main g g' m k f h' ed jo :
  inv main g m k -> harmless f -> update f (heap k) h' ->
  (forall th, heap k !! main = Some th -> is_deleted th = false -> is_deleted (f main th) = false) ->
  (forall p pl, jo !! p = Some pl -> is_Some (m !! p) /\ exists th, heap k !! p = Some th /\ is_deleted (f p th) = false) ->
  (forall p t th, jo !! p = Some (InLoop t) -> is_Some (m !! t) -> heap k !! t = Some th ->
     is_deleted (f t th) = false -> is_detached (f t th) = false -> joinData (f t th) = Some p) ->
  (forall p t th, is_Some (m !! t) -> heap k !! t = Some th ->
     is_deleted (f t th) = false -> is_detached (f t th) = false -> joinData (f t th) = Some p -> jo !! p = Some (InLoop t)) ->
  (forall p t thp, jo !! p = Some (InLoop t) -> heap k !! p = Some thp -> is_joining (f p thp) = true ->
     exists th, is_Some (m !! t) /\ heap k !! t = Some th /\ is_deleted (f t th) = false /\ is_detached (f t th) = false) ->
  (forall t th, is_Some (m !! t) -> heap k !! t = Some th -> is_deleted (f t th) = true -> is_detached (f t th) = true ->
     ed = true \/ exists p, jo !! p = Some BeforeReclaim) ->
  (forall t th, is_Some (m !! t) -> heap k !! t = Some th -> is_deleted (f t th) = true -> is_detached (f t th) = false ->
     g' !! t = Some (joinData (f t th))) ->
  inv main g' m (Kernel (sched k) h' ed jo).
Proof.
  intros Hi Hf Hu Hmain Hplace Hloop Hjoined Hwaits Hdead Hres.
  assert (Hfor : forall t th, heap k !! t = Some th -> h' !! t = Some (f t th)) by (intros t th Ht; by rewrite Hu, Ht).
  assert (Hback : forall t th', h' !! t = Some th' -> exists th, heap k !! t = Some th /\ th' = f t th) by (intros; by eapply update_lookup).
  split; simpl.
  - eapply update_rep; [done..|apply Hi].
  - intros t th' (th & Ht & ->)%Hback. apply keeps_valid; [done|]. by eapply inv_valid.
  - destruct (inv_main _ _ _ _ Hi) as (? & th & Ht & Hd). split; [done|]. exists (f main th). split; [by apply Hfor|by apply Hmain].
  - intros p pl Hp. destruct (Hplace p pl Hp) as (? & th & ? & ?). split; [done|]. exists (f p th). split; [by apply Hfor|done].
  - intros p t th' Hp (Hm & (th & Ht & ->)%Hback & Hd & Hdt). by eapply Hloop.
  - intros p t th' (Hm & (th & Ht & ->)%Hback & Hd & Hdt) Hj. by eapply Hjoined.
  - intros p t thp' Hp (thp & Htp & ->)%Hback Hj. destruct (Hwaits p t thp Hp Htp Hj) as (th & ? & ? & ? & ?).
    exists (f t th). split_and!; [done|by apply Hfor|done|done].
  - intros t th' Hm (th & Ht & ->)%Hback Hd Hdt. by eapply Hdead.
  - intros t th' Hm (th & Ht & ->)%Hback Hd Hdt. by eapply Hres.
Qed.

(** *** What the flags of the operations do *)

Definition neutral (o : ThreadFlags.op) : Prop :=
  match o with
  | ThreadFlags.SetWait _ | ThreadFlags.SetCondWait _ | ThreadFlags.SetSleep _ | ThreadFlags.SetUserspace _
  | ThreadFlags.SetDeleting => True
  | _ => False
  end.

(** The part of a thread the invariant is about. *)
Definition life (th : Thread) : bool * bool * bool * option positive :=
  (is_deleted th, is_detached th, is_joining th, joinData th).

Lemma life_flag o th :
  ThreadFlags.valid (flags th) ->
  life (set_flags (ThreadFlags.run o) th) =
  match o with
  | ThreadFlags.SetJoinWait b => (is_deleted th, is_detached th, b, joinData th)
  | ThreadFlags.SetDeleted => (true, is_detached th, is_joining th, joinData th)
  | ThreadFlags.SetDetached => (is_deleted th, true, is_joining th, joinData th)
  | _ => life th
  end.
Proof.
  intros Hv. unfold life, is_deleted, is_detached, is_joining. rewrite !status_flag by done.
  destruct (ThreadFlags.decode (flags th)). by destruct o.
Qed.

Lemma life_eq th th' : life th' = life th -> is_deleted th' = is_deleted th /\ is_detached th' = is_detached th /\ is_joining th' = is_joining th /\ joinData th' = joinData th.
Proof. by intros [= -> -> -> ->]. Qed.

(** The fields of a thread after flags are set: rewrite them away. *)
Lemma flag_fields t o u th :
  ThreadFlags.valid (flags th) ->
  life (flag_on t o u th) =
  if decide (u = t) then
    match o with
    | ThreadFlags.SetJoinWait b => (is_deleted th, is_detached th, b, joinData th)
    | ThreadFlags.SetDeleted => (true, is_detached th, is_joining th, joinData th)
    | ThreadFlags.SetDetached => (is_deleted th, true, is_joining th, joinData th)
    | _ => life th
    end
  else life th.
Proof. intros Hv. unfold flag_on, on. destruct (decide (u = t)); [by apply life_flag|done]. Qed.

Lemma change_flags_neutral main g m k t o :
  inv main g m k -> is_Some (heap k !! t) -> neutral o ->
  exists k', change_flags t (ThreadFlags.run o) k = Done k' /\ inv main g m k'.
Proof.
  intros Hi [th Ht] Ho. destruct (change_flags_update t th o k Ht) as (h' & -> & Hu). eexists. split; [done|].
  assert (Hf : forall u thu, heap k !! u = Some thu -> life (flag_on t o u thu) = life thu).
  { intros u thu Hu'. rewrite flag_fields by exact (inv_valid _ _ _ _ Hi _ _ Hu'). destruct (decide (u = t)); [|done]. by destruct o. }
  eapply inv_update; [done|apply harmless_flag|done|..].
  - intros thm Hm. destruct (life_eq _ _ (Hf _ _ Hm)) as (-> & _). done.
  - intros p pl Hp. destruct (inv_place _ _ _ _ Hi p pl Hp) as (? & thp & Hthp & ?). split; [done|]. exists thp.
    by destruct (life_eq _ _ (Hf _ _ Hthp)) as (-> & _).
  - intros p u thu Hp Hm Hthu. destruct (life_eq _ _ (Hf _ _ Hthu)) as (-> & -> & _ & ->). intros. by eapply (inv_loop _ _ _ _ Hi).
  - intros p u thu Hm Hthu. destruct (life_eq _ _ (Hf _ _ Hthu)) as (-> & -> & _ & ->). intros. by eapply (inv_joined _ _ _ _ Hi).
  - intros p u thp Hp Hthp. destruct (life_eq _ _ (Hf _ _ Hthp)) as (_ & _ & -> & _). intros Hj.
    destruct (inv_waits _ _ _ _ Hi p u thp Hp Hthp Hj) as (thu & ? & Hthu & ? & ?). exists thu.
    destruct (life_eq _ _ (Hf _ _ Hthu)) as (-> & -> & _). done.
  - intros u thu Hm Hthu. destruct (life_eq _ _ (Hf _ _ Hthu)) as (-> & -> & _). by eapply (inv_dead _ _ _ _ Hi).
  - intros u thu Hm Hthu. destruct (life_eq _ _ (Hf _ _ Hthu)) as (-> & -> & _ & ->). by eapply (inv_result _ _ _ _ Hi).
Qed.

(** *** Detaching *)

Lemma alive_waiter main g m k p t th :
  inv main g m k -> joinable m (heap k) t th -> joinData th = Some p -> is_Some (heap k !! p).
Proof.
  intros Hi Hj Hd. pose proof (inv_joined _ _ _ _ Hi p t th Hj Hd) as Hp.
  destruct (inv_place _ _ _ _ Hi p _ Hp) as (_ & thp & -> & _). done.
Qed.

(** Thread [t] is detached and [w], if any, is woken. *)
Definition detach_fields (t : positive) (w : option positive) (u : positive) (th : Thread) : Thread :=
  match w with
  | Some w => flag_on w (ThreadFlags.SetJoinWait false) u (flag_on t ThreadFlags.SetDetached u th)
  | None => flag_on t ThreadFlags.SetDetached u th
  end.

Lemma flag_cases t o u th :
  ThreadFlags.valid (flags th) ->
  let th' := flag_on t o u th in
  is_deleted th' = (match o with ThreadFlags.SetDeleted => if decide (u = t) then true else is_deleted th | _ => is_deleted th end) /\
  is_detached th' = (match o with ThreadFlags.SetDetached => if decide (u = t) then true else is_detached th | _ => is_detached th end) /\
  is_joining th' = (match o with ThreadFlags.SetJoinWait b => if decide (u = t) then b else is_joining th | _ => is_joining th end) /\
  joinData th' = joinData th /\ ThreadFlags.valid (flags th').
Proof.
  intros Hv th'. assert (Hv' : ThreadFlags.valid (flags th')) by by apply (keeps_valid _ (harmless_flag t o)).
  pose proof (flag_fields t o u th Hv) as Hl. fold th' in Hl. unfold life in Hl.
  destruct (decide (u = t)); destruct o; by injection Hl as -> -> -> ->.
Qed.

Lemma detach_inv main g m k t th ed h' w :
  inv main g m k -> is_Some (m !! t) -> heap k !! t = Some th -> is_detached th = false ->
  (is_deleted th = false -> joinData th = w) -> (is_deleted th = true -> ed = true) -> (exist_deleted k = true -> ed = true) ->
  update (detach_fields t w) (heap k) h' ->
  inv main g m (Kernel (sched k) h' ed (joining k)).
Proof.
  intros Hi Hm Ht Hdt Hw Hed Hed' Hu.
  assert (Hf : forall u thu, heap k !! u = Some thu ->
    is_deleted (detach_fields t w u thu) = is_deleted thu /\
    is_detached (detach_fields t w u thu) = (if decide (u = t) then true else is_detached thu) /\
    is_joining (detach_fields t w u thu) = (if decide (Some u = w) then false else is_joining thu) /\
    joinData (detach_fields t w u thu) = joinData thu).
  { intros u thu Hthu. unfold detach_fields.
    destruct (flag_cases t ThreadFlags.SetDetached u thu (inv_valid _ _ _ _ Hi _ _ Hthu)) as (H1 & H2 & H3 & H4 & Hv).
    destruct w as [w|]; [|done]. destruct (flag_cases w (ThreadFlags.SetJoinWait false) u _ Hv) as (-> & -> & -> & -> & _).
    rewrite H1, H2, H3, H4. split_and!; [done..| |done]. repeat case_decide; congruence. }
  assert (Hharm : harmless (detach_fields t w)).
  { destruct w as [w|]; [|apply harmless_flag]. apply (harmless_compose _ _ (harmless_flag t _) (harmless_flag w _)). }
  eapply inv_update; [done|done|done|..].
  - intros thm Hthm. by destruct (Hf _ _ Hthm) as (-> & _).
  - intros p pl Hp. destruct (inv_place _ _ _ _ Hi p pl Hp) as (? & thp & Hthp & ?). split; [done|]. exists thp.
    by destruct (Hf _ _ Hthp) as (-> & _).
  - intros p u thu Hp Hmu Hthu. destruct (Hf _ _ Hthu) as (-> & -> & _ & ->). case_decide; [done|]. intros. by eapply (inv_loop _ _ _ _ Hi).
  - intros p u thu Hmu Hthu. destruct (Hf _ _ Hthu) as (-> & -> & _ & ->). case_decide; [done|]. intros. by eapply (inv_joined _ _ _ _ Hi).
  - intros p u thp Hp Hthp. destruct (Hf _ _ Hthp) as (_ & _ & -> & _). case_decide as Hpw; [done|]. intros Hj.
    destruct (inv_waits _ _ _ _ Hi p u thp Hp Hthp Hj) as (thu & Hju). pose proof Hju as (? & Hthu & ? & ?). exists thu.
    destruct (Hf _ _ Hthu) as (-> & -> & _). case_decide; [|done]. subst u. rewrite Ht in Hthu. simplify_eq.
    pose proof (inv_loop _ _ _ _ Hi p t thu Hp Hju). destruct Hpw. symmetry. rewrite <- Hw; done.
  - intros u thu Hmu Hthu. destruct (Hf _ _ Hthu) as (-> & -> & _). case_decide.
    + intros. left. subst u. apply Hed. congruence.
    + intros. destruct (inv_dead _ _ _ _ Hi u thu) as [He|He]; [done..|left; auto|by right].
  - intros u thu Hmu Hthu. destruct (Hf _ _ Hthu) as (-> & -> & _ & ->). case_decide; [done|]. by eapply (inv_result _ _ _ _ Hi).
Qed.

Lemma flags_deleted th : ThreadFlags.valid (flags th) -> ThreadFlags.isDeletedJoin (flags th) = is_deleted th.
Proof. apply ThreadFlags.isDeletedJoin_valid. Qed.
Lemma flags_detached th : ThreadFlags.valid (flags th) -> ThreadFlags.isDetached (flags th) = is_detached th.
Proof. apply ThreadFlags.isDetached_valid. Qed.

Lemma detach_spec main g m k t th :
  inv main g m k -> is_Some (m !! t) -> heap k !! t = Some th -> is_detached th = false ->
  exists k', detach t k = Done k' /\ inv main g m k'.
Proof.
  intros Hi Hm Ht Hdt. unfold detach. change ThreadFlags.IRQsetDetached with (ThreadFlags.run ThreadFlags.SetDetached).
  destruct (change_flags_update t th ThreadFlags.SetDetached k Ht) as (h1 & -> & Hu). cbn [mbind outcome_bind heap set_heap].
  assert (Ht1 : h1 !! t = Some (flag_on t ThreadFlags.SetDetached t th)) by (by rewrite Hu, Ht).
  rewrite (load_Some _ _ _ Ht1). cbn [mbind outcome_bind].
  destruct (flag_cases t ThreadFlags.SetDetached t th (inv_valid _ _ _ _ Hi _ _ Ht)) as (Hdel & _ & _ & Hjd & Hv).
  rewrite flags_deleted, Hdel, Hjd by done.
  assert (Hdone : forall ed, (is_deleted th = true -> ed = true) -> (exist_deleted k = true -> ed = true) ->
    (is_deleted th = false -> joinData th = None) -> inv main g m (Kernel (sched k) h1 ed (joining k))).
  { intros ed He He' Hn. eapply (detach_inv _ _ _ _ t th ed h1 None); done. }
  destruct (is_deleted th) eqn:Ed; cbn [negb].
  - destruct (joinData th); (eexists; split; [done|]); apply Hdone; done.
  - destruct (joinData th) as [w|] eqn:Ew; [|by eexists; split; [done|]; apply Hdone].
    destruct (alive_waiter _ _ _ _ w t th Hi) as [thw Hw]; [by split_and!|done|].
    assert (Hw1 : is_Some (h1 !! w)) by (rewrite Hu, Hw; by eexists). destruct Hw1 as [thw1 Hw1].
    change (ThreadFlags.IRQsetJoinWait false) with (ThreadFlags.run (ThreadFlags.SetJoinWait false)).
    destruct (change_flags_update w thw1 (ThreadFlags.SetJoinWait false) (set_heap h1 k) Hw1) as (h2 & -> & Hu2).
    eexists. split; [done|]. apply (detach_inv main g m k t th (exist_deleted k) h2 (Some w)); try done; [congruence|].
    exact (update_compose _ _ _ h1 _ Hu Hu2).
Qed.

(** *** Joining *)

Lemma exists_spec main g m k t :
  inv main g m k -> exists_ (Some t) k = Done (bool_decide (is_Some (m !! t)) && negb (dead (heap k) t)).
Proof. intros Hi. apply (PKexists_law _ _ m), Hi. Qed.

Lemma dead_fields main g m k t th :
  inv main g m k -> heap k !! t = Some th -> dead (heap k) t = is_deleted th && is_detached th.
Proof. intros Hi Ht. unfold dead. rewrite Ht. apply ThreadFlags.isDeleted_valid, (inv_valid _ _ _ _ Hi _ _ Ht). Qed.

(** What [exists] tells about [t]. *)
Lemma exists_cases main g m k t :
  inv main g m k ->
  (exists_ (Some t) k = Done false /\ forall th, ~ joinable m (heap k) t th) \/
  (exists_ (Some t) k = Done true /\ is_Some (m !! t) /\ exists th, heap k !! t = Some th /\ load (heap k) t = Done th /\
     ThreadFlags.isDetached (flags th) = is_detached th /\ ThreadFlags.isDeletedJoin (flags th) = is_deleted th).
Proof.
  intros Hi. rewrite (exists_spec _ _ _ _ t Hi). destruct (decide (is_Some (m !! t))) as [Hm|Hm].
  - rewrite bool_decide_true by done. destruct (rep_in_heap _ _ _ t (inv_rep _ _ _ _ Hi) Hm) as [th Ht].
    rewrite (dead_fields _ _ _ _ _ _ Hi Ht). pose proof (inv_valid _ _ _ _ Hi _ _ Ht) as Hv.
    destruct (is_deleted th && is_detached th) eqn:E; simpl; [left|right].
    + split; [done|]. intros th' (_ & Ht' & Hd & Hdt). rewrite Ht in Ht'. simplify_eq. by rewrite Hd in E.
    + split_and!; [done..|]. exists th. split_and!; [done|by apply load_Some|by apply flags_detached|by apply flags_deleted].
  - rewrite bool_decide_false by done. left. split; [done|]. by intros th (? & _).
Qed.

(** The current thread may call [join]: it is not inside [join] already. *)
Definition not_joining (cur : positive) (t : positive) (k : kernel) : Prop :=
  joining k !! cur = None \/ joining k !! cur = Some (InLoop t).

Lemma other_loop main g m k cur t p u th :
  inv main g m k -> not_joining cur t k -> joinable m (heap k) u th -> joinData th = Some p -> p = cur ->
  u = t /\ joining k !! cur = Some (InLoop t).
Proof.
  intros Hi Hn Hj Hd ->. pose proof (inv_joined _ _ _ _ Hi cur u th Hj Hd) as Hp. destruct Hn as [Hn|Hn]; rewrite Hp in Hn; [done|].
  by injection Hn as ->.
Qed.

(** The result of [join] that was called for [t]. *)
Definition join_post (main : positive) (g : gmap positive (option positive)) (m : gmap positive Z) (cur t : positive)
    (k : kernel) (r : join_result) (k' : kernel) : Prop :=
  inv main g m k' /\
  match r with
  | Returned b => b = false /\ joining k' !! cur = None
  | Joined v => joining k' !! cur = Some BeforeReclaim /\ g !! t = Some v /\
      exists th, heap k !! t = Some th /\ is_deleted th = true /\ is_detached th = false /\ dead (heap k') t = true
  | Blocked => joining k' !! cur = Some (InLoop t) /\ exists th, joinable m (heap k) t th
  end.

Lemma join_complete_spec main g m k cur t th :
  inv main g m k -> is_Some (m !! t) -> heap k !! t = Some th -> is_deleted th = true -> is_detached th = false ->
  not_joining cur t k -> is_Some (m !! cur) -> (exists thc, heap k !! cur = Some thc /\ is_deleted thc = false) ->
  exists r k', join_complete cur t k = Done (r, k') /\ join_post main g m cur t k r k'.
Proof.
  intros Hi Hm Ht Hd Hdt Hn Hmc (thc & Hc & Hcd). unfold join_complete.
  change ThreadFlags.IRQsetDetached with (ThreadFlags.run ThreadFlags.SetDetached).
  destruct (change_flags_update t th ThreadFlags.SetDetached k Ht) as (h1 & -> & Hu). cbn [mbind outcome_bind heap set_heap].
  assert (Ht1 : h1 !! t = Some (flag_on t ThreadFlags.SetDetached t th)) by (by rewrite Hu, Ht).
  rewrite (load_Some _ _ _ Ht1). cbn [mbind outcome_bind].
  assert (Hf : forall u thu, heap k !! u = Some thu -> let thu' := flag_on t ThreadFlags.SetDetached u thu in
    is_deleted thu' = is_deleted thu /\ is_detached thu' = (if decide (u = t) then true else is_detached thu) /\
    is_joining thu' = is_joining thu /\ joinData thu' = joinData thu /\ ThreadFlags.valid (flags thu')).
  { intros u thu Hthu. apply (flag_cases t ThreadFlags.SetDetached), (inv_valid _ _ _ _ Hi _ _ Hthu). }
  destruct (Hf t th Ht) as (Hd1 & Hdt1 & _ & -> & Hv).
  rewrite decide_True in Hdt1 by done. eexists _, _. split; [done|]. split.
  2: { split; [apply lookup_insert_eq|]. split; [by eapply (inv_result _ _ _ _ Hi)|]. exists th. split_and!; [done..|].
       simpl. unfold dead. rewrite Ht1, ThreadFlags.isDeleted_valid by done.
       change (is_deleted (flag_on t ThreadFlags.SetDetached t th) && is_detached (flag_on t ThreadFlags.SetDetached t th) = true).
       by rewrite Hd1, Hdt1, Hd. }
  assert (Hjo : forall p pl, partial_alter (fun _ => Some BeforeReclaim) cur (joining k) !! p = Some pl ->
    (p = cur /\ pl = BeforeReclaim) \/ (p <> cur /\ joining k !! p = Some pl)).
  { intros p pl. destruct (decide (p = cur)) as [->|]; [rewrite lookup_partial_alter_eq|rewrite lookup_partial_alter_ne by done]; naive_solver. }
  unfold set_place, set_heap; simpl. eapply inv_update; [done|apply harmless_flag|done|..].
  - intros thm Hthm. by destruct (Hf _ _ Hthm) as (-> & _).
  - intros p pl [[-> ->]|[Hpc Hp]]%Hjo.
    + split; [done|]. exists thc. split; [done|]. by destruct (Hf _ _ Hc) as (-> & _).
    + destruct (inv_place _ _ _ _ Hi p pl Hp) as (? & thp & Hthp & ?). split; [done|]. exists thp. by destruct (Hf _ _ Hthp) as (-> & _).
  - intros p u thu [[-> ?]|[Hpc Hp]]%Hjo Hmu Hthu; [done|]. destruct (Hf _ _ Hthu) as (-> & -> & _ & -> & _). case_decide; [done|].
    intros. by eapply (inv_loop _ _ _ _ Hi).
  - intros p u thu Hmu Hthu. destruct (Hf _ _ Hthu) as (-> & -> & _ & -> & _). case_decide as Hut; [done|]. intros Hdu Hdtu Hju.
    assert (Hjj : joinable m (heap k) u thu) by by split_and!.
    destruct (decide (p = cur)) as [->|Hpc]; [by destruct (other_loop _ _ _ _ cur t cur u thu Hi Hn Hjj Hju eq_refl)|].
    rewrite lookup_partial_alter_ne by done. by eapply (inv_joined _ _ _ _ Hi).
  - intros p u thp [[-> ?]|[Hpc Hp]]%Hjo Hthp; [done|]. destruct (Hf _ _ Hthp) as (_ & _ & -> & _). intros Hj.
    destruct (inv_waits _ _ _ _ Hi p u thp Hp Hthp Hj) as (thu & ? & Hthu & ? & ?). exists thu.
    destruct (Hf _ _ Hthu) as (-> & -> & _). case_decide; [|done]. subst u. congruence.
  - intros. right. exists cur. apply lookup_partial_alter_eq.
  - intros u thu Hmu Hthu. destruct (Hf _ _ Hthu) as (-> & -> & _ & -> & _). case_decide; [done|]. by eapply (inv_result _ _ _ _ Hi).
Qed.

Definition wait_fields (cur t : positive) (u : positive) (th : Thread) : Thread :=
  flag_on cur (ThreadFlags.SetJoinWait true) u (on t (set_joinData (Some cur)) u th).

Lemma set_place_cases p pl (jo : gmap positive place) q ql :
  partial_alter (fun _ => pl) p jo !! q = Some ql -> (q = p /\ pl = Some ql) \/ (q <> p /\ jo !! q = Some ql).
Proof. destruct (decide (q = p)) as [->|]; [rewrite lookup_partial_alter_eq|rewrite lookup_partial_alter_ne by done]; naive_solver. Qed.

Lemma join_wait_spec main g m k h0 cur t th :
  inv main g m k -> joinable m (heap k) t th -> is_Some (m !! cur) ->
  (exists thc, heap k !! cur = Some thc /\ is_deleted thc = false) ->
  joinData th = None /\ joining k !! cur = None \/ joinData th = Some cur /\ joining k !! cur = Some (InLoop t) ->
  update (on t (set_joinData (Some cur))) (heap k) h0 ->
  exists r k', join_wait cur t (set_heap h0 k) = Done (r, k') /\ join_post main g m cur t k r k'.
Proof.
  intros Hi Hj Hmc (thc & Hc & Hcd) Hold Hu0. pose proof Hj as (Hm & Ht & Hd & Hdt). unfold join_wait.
  change (ThreadFlags.IRQsetJoinWait true) with (ThreadFlags.run (ThreadFlags.SetJoinWait true)).
  assert (Hc0 : h0 !! cur = Some (on t (set_joinData (Some cur)) cur thc)) by (by rewrite Hu0, Hc).
  destruct (change_flags_update cur _ (ThreadFlags.SetJoinWait true) (set_heap h0 k) Hc0) as (h1 & -> & Hu1). cbn [mbind outcome_bind].
  pose proof (update_compose _ _ _ _ _ Hu0 Hu1) as Hu. change (update (wait_fields cur t) (heap k) h1) in Hu. clear Hu0 Hu1 Hc0.
  assert (Hf : forall u thu, heap k !! u = Some thu ->
    is_deleted (wait_fields cur t u thu) = is_deleted thu /\ is_detached (wait_fields cur t u thu) = is_detached thu /\
    is_joining (wait_fields cur t u thu) = (if decide (u = cur) then true else is_joining thu) /\
    joinData (wait_fields cur t u thu) = (if decide (u = t) then Some cur else joinData thu)).
  { intros u thu Hthu. unfold wait_fields. pose proof (inv_valid _ _ _ _ Hi _ _ Hthu) as Hv.
    destruct (flag_cases cur (ThreadFlags.SetJoinWait true) u (on t (set_joinData (Some cur)) u thu)) as (-> & -> & -> & -> & _).
    - unfold on. by case_decide.
    - unfold on. by destruct (decide (u = t)). }
  assert (Hharm : harmless (wait_fields cur t)) by apply (harmless_compose _ _ (harmless_data t (Some cur)) (harmless_flag cur _)).
  eexists _, _. split; [done|]. split.
  2: { split; [apply lookup_partial_alter_eq|by exists th]. }
  unfold set_place, set_heap; simpl. eapply inv_update; [done|done|done|..].
  - intros thm Hthm. by destruct (Hf _ _ Hthm) as (-> & _).
  - intros p pl [[-> _]|[_ Hp]]%set_place_cases.
    + split; [done|]. exists thc. split; [done|]. by destruct (Hf _ _ Hc) as (-> & _).
    + destruct (inv_place _ _ _ _ Hi p pl Hp) as (? & thp & Hthp & ?). split; [done|]. exists thp. by destruct (Hf _ _ Hthp) as (-> & _).
  - intros p u thu [[-> [= <-]]|[Hpc Hp]]%set_place_cases Hmu Hthu; destruct (Hf _ _ Hthu) as (-> & -> & _ & ->); [by rewrite decide_True|].
    intros Hdu Hdtu. pose proof (inv_loop _ _ _ _ Hi p u thu Hp ltac:(by split_and!)) as Hju. case_decide; [|done]. subst u. naive_solver.
  - intros p u thu Hmu Hthu. destruct (Hf _ _ Hthu) as (-> & -> & _ & ->). intros Hdu Hdtu Hju.
    destruct (decide (u = t)) as [->|Hut]; [simplify_eq; apply lookup_partial_alter_eq|].
    pose proof (inv_joined _ _ _ _ Hi p u thu ltac:(by split_and!) Hju) as Hp.
    rewrite lookup_partial_alter_ne; [done|]. intros <-. naive_solver.
  - intros p u thp [[-> [= <-]]|[Hpc Hp]]%set_place_cases Hthp; destruct (Hf _ _ Hthp) as (_ & _ & -> & _).
    + intros _. exists th. destruct (Hf _ _ Ht) as (-> & -> & _). done.
    + rewrite decide_False by done. intros Hjp.
      destruct (inv_waits _ _ _ _ Hi p u thp Hp Hthp Hjp) as (thu & ? & Hthu & ? & ?). exists thu. by destruct (Hf _ _ Hthu) as (-> & -> & _).
  - intros u thu Hmu Hthu. destruct (Hf _ _ Hthu) as (-> & -> & _). intros Hdu Hdtu.
    destruct (inv_dead _ _ _ _ Hi u thu Hmu Hthu Hdu Hdtu) as [|[p Hp]]; [by left|right]. exists p.
    rewrite lookup_partial_alter_ne; [done|]. intros <-. naive_solver.
  - intros u thu Hmu Hthu. destruct (Hf _ _ Hthu) as (-> & -> & _ & ->). intros Hdu Hdtu. case_decide; [|by eapply (inv_result _ _ _ _ Hi)].
    subst u. congruence.
Qed.

Lemma join_spec main g m k cur t :
  inv main g m k -> is_Some (m !! cur) -> (exists thc, heap k !! cur = Some thc /\ is_deleted thc = false) -> joining k !! cur = None ->
  exists r k', join cur t k = Done (r, k') /\ join_post main g m cur t k r k'.
Proof.
  intros Hi Hmc Hc Hj. unfold join. case_bool_decide as Htc; [by eexists _, _|].
  destruct (exists_cases _ _ _ _ t Hi) as [[-> _]|(-> & Hm & th & Ht & -> & Hdt & Hd)]; [by eexists _, _|].
  cbn [mbind outcome_bind negb]. rewrite Hdt, Hd. destruct (is_detached th) eqn:Edt; [by eexists _, _|].
  destruct (is_deleted th) eqn:Ed; cbn [negb].
  - eapply join_complete_spec; try done. by left.
  - destruct (joinData th) as [w|] eqn:Ew; [by eexists _, _|]. rewrite (store_Some _ _ _ _ Ht). cbn [mbind outcome_bind].
    eapply join_wait_spec; [done|by split_and!|done..|by left|]. by apply update_store.
Qed.

Lemma leave_inv main g m k cur t :
  inv main g m k -> joining k !! cur = Some (InLoop t) -> (forall th, ~ joinable m (heap k) t th) ->
  join_post main g m cur t k (Returned false) (set_place cur None k).
Proof.
  intros Hi Hcur Hno. split; [|split; [done|apply lookup_partial_alter_eq]]. destruct Hi as [H1 H2 H3 H4 H5 H6 H7 H8 H9].
  split; simpl; try done.
  - intros p pl [[_ ?]|[_ Hp]]%set_place_cases; [done|by apply (H4 p pl)].
  - intros p u th [[_ ?]|[_ Hp]]%set_place_cases; [done|by apply H5].
  - intros p u th Hj Hd. pose proof (H6 p u th Hj Hd) as Hp. rewrite lookup_partial_alter_ne; [done|]. intros <-.
    rewrite Hcur in Hp. simplify_eq. by destruct (Hno th).
  - intros p u thp [[_ ?]|[_ Hp]]%set_place_cases; [done|by apply H7].
  - intros u th Hm Ht Hd Hdt. destruct (H8 u th Hm Ht Hd Hdt) as [?|[p Hp]]; [by left|right]. exists p.
    rewrite lookup_partial_alter_ne; [done|]. intros <-. congruence.
Qed.

Lemma join_resume_spec main g m k cur t :
  inv main g m k -> joining k !! cur = Some (InLoop t) ->
  exists r k', join_resume cur t k = Done (r, k') /\ join_post main g m cur t k r k'.
Proof.
  intros Hi Hj. destruct (inv_place _ _ _ _ Hi cur _ Hj) as [Hmc Hc]. unfold join_resume.
  destruct (exists_cases _ _ _ _ t Hi) as [[-> Hno]|(-> & Hm & th & Ht & -> & Hdt & Hd)]; cbn [mbind outcome_bind negb].
  { eexists _, _. split; [done|]. by apply leave_inv. }
  rewrite Hdt, Hd. destruct (is_detached th) eqn:Edt.
  - eexists _, _. split; [done|]. apply leave_inv; [done..|]. intros th' (_ & Ht' & _ & ?). congruence.
  - destruct (is_deleted th) eqn:Ed; [eapply join_complete_spec; try done; by right|].
    assert (Hjt : joinable m (heap k) t th) by by split_and!. pose proof (inv_loop _ _ _ _ Hi cur t th Hj Hjt) as Hd'.
    replace (join_wait cur t k) with (join_wait cur t (set_heap (heap k) k)) by (by destruct k).
    eapply join_wait_spec; [done..|by right|]. intros u. destruct (heap k !! u) as [thu|] eqn:Hu; [|done]. simpl. unfold on.
    case_decide; [|done]. subst u. rewrite Ht in Hu. simplify_eq. f_equal. destruct thu. simpl in *. by subst.
Qed.

(** *** The end of a thread *)

Lemma exit_inv main g m k cur thc r w f h' ed :
  inv main g m k -> heap k !! cur = Some thc -> is_deleted thc = false -> cur <> main -> joining k !! cur = None ->
  harmless f -> update f (heap k) h' ->
  (forall u thu, heap k !! u = Some thu ->
    is_deleted (f u thu) = (if decide (u = cur) then true else is_deleted thu) /\ is_detached (f u thu) = is_detached thu /\
    is_joining (f u thu) = (if decide (Some u = w) then false else is_joining thu) /\
    (u <> cur -> joinData (f u thu) = joinData thu) /\ (u = cur -> is_detached thu = false -> joinData (f u thu) = r)) ->
  (is_detached thc = false -> w = joinData thc) -> (is_detached thc = true -> ed = true) -> (exist_deleted k = true -> ed = true) ->
  inv main (<[cur := r]> g) m (Kernel (sched k) h' ed (joining k)).
Proof.
  intros Hi Hc Hd Hmain Hj Hharm Hu Hf Hw Hed Hed'. eapply inv_update; [done|done|done|..].
  - intros thm Hthm. destruct (Hf _ _ Hthm) as (-> & _). by rewrite decide_False.
  - intros p pl Hp. destruct (inv_place _ _ _ _ Hi p pl Hp) as (? & thp & Hthp & ?). split; [done|]. exists thp.
    destruct (Hf _ _ Hthp) as (-> & _). rewrite decide_False; [done|]. intros ->. congruence.
  - intros p u thu Hp Hmu Hthu. destruct (Hf _ _ Hthu) as (-> & -> & _ & Hjd & _). case_decide; [done|]. rewrite Hjd by done.
    intros. by eapply (inv_loop _ _ _ _ Hi).
  - intros p u thu Hmu Hthu. destruct (Hf _ _ Hthu) as (-> & -> & _ & Hjd & _). case_decide; [done|]. rewrite Hjd by done.
    intros. by eapply (inv_joined _ _ _ _ Hi).
  - intros p u thp Hp Hthp. destruct (Hf _ _ Hthp) as (_ & _ & -> & _). case_decide as Hpw; [done|]. intros Hjp.
    destruct (inv_waits _ _ _ _ Hi p u thp Hp Hthp Hjp) as (thu & Hju). pose proof Hju as (? & Hthu & ? & ?). exists thu.
    destruct (Hf _ _ Hthu) as (-> & -> & _). case_decide; [|done]. subst u. rewrite Hc in Hthu. simplify_eq.
    pose proof (inv_loop _ _ _ _ Hi p cur thu Hp Hju). destruct Hpw. by rewrite Hw.
  - intros u thu Hmu Hthu. destruct (Hf _ _ Hthu) as (-> & -> & _). case_decide.
    + subst u. rewrite Hc in Hthu. simplify_eq. intros. left. auto.
    + intros. destruct (inv_dead _ _ _ _ Hi u thu) as [He|He]; [done..|left; auto|by right].
  - intros u thu Hmu Hthu. destruct (Hf _ _ Hthu) as (-> & -> & _ & Hjd & Hjr). case_decide.
    + subst u. intros _ Hdt. rewrite lookup_insert_eq, Hjr; done.
    + rewrite lookup_insert_ne, Hjd by done. by eapply (inv_result _ _ _ _ Hi).
Qed.

Lemma exit_spec main g m k cur thc r :
  inv main g m k -> heap k !! cur = Some thc -> is_Some (m !! cur) -> is_deleted thc = false -> cur <> main -> joining k !! cur = None ->
  exists k', exit cur r k = Done k' /\ inv main (<[cur := r]> g) m k'.
Proof.
  intros Hi Hc Hm Hd Hmain Hj. unfold exit. change ThreadFlags.IRQsetDeleted with (ThreadFlags.run ThreadFlags.SetDeleted).
  change (ThreadFlags.IRQsetJoinWait false) with (ThreadFlags.run (ThreadFlags.SetJoinWait false)).
  destruct (change_flags_update cur thc ThreadFlags.SetDeleted k Hc) as (h1 & -> & Hu1). cbn [mbind outcome_bind heap set_heap].
  set (thc1 := flag_on cur ThreadFlags.SetDeleted cur thc).
  assert (Hc1 : h1 !! cur = Some thc1) by (by rewrite Hu1, Hc). rewrite (load_Some _ _ _ Hc1). cbn [mbind outcome_bind].
  assert (Hf : forall u thu, heap k !! u = Some thu -> let thu' := flag_on cur ThreadFlags.SetDeleted u thu in
    is_deleted thu' = (if decide (u = cur) then true else is_deleted thu) /\ is_detached thu' = is_detached thu /\
    is_joining thu' = is_joining thu /\ joinData thu' = joinData thu /\ ThreadFlags.valid (flags thu')).
  { intros u thu Hthu. apply (flag_cases cur ThreadFlags.SetDeleted), (inv_valid _ _ _ _ Hi _ _ Hthu). }
  destruct (Hf cur thc Hc) as (_ & Hdt1 & _ & Hjd1 & Hv1). fold thc1 in Hdt1, Hjd1, Hv1. rewrite flags_detached, Hdt1, Hjd1 by done.
  destruct (is_detached thc) eqn:Edt; cbn [negb].
  { eexists. split; [done|]. apply (exit_inv main g m k cur thc r None (flag_on cur ThreadFlags.SetDeleted) h1 true); try done; [apply harmless_flag| |congruence]. intros u thu Hthu.
    destruct (Hf u thu Hthu) as (-> & -> & -> & -> & _). rewrite (decide_False (P := Some u = None)) by done. split_and!; try done. intros ->. congruence. }
  assert (Hend : forall h2 w (f2 : positive -> Thread -> Thread), update f2 h1 h2 -> harmless f2 -> w = joinData thc ->
    (forall u thu, ThreadFlags.valid (flags thu) -> is_deleted (f2 u thu) = is_deleted thu /\ is_detached (f2 u thu) = is_detached thu /\
       is_joining (f2 u thu) = (if decide (Some u = w) then false else is_joining thu) /\ joinData (f2 u thu) = joinData thu) ->
    exists k', (h ← store h2 cur (set_joinData r); Done (set_heap h (set_heap h2 (set_heap h1 k)))) = Done k' /\ inv main (<[cur := r]> g) m k').
  { intros h2 w f2 Hu2 Hh2 Hw Hf2. assert (Hc2 : is_Some (h2 !! cur)) by (rewrite Hu2, Hc1; by eexists). destruct Hc2 as [thc2 Hc2].
    rewrite (store_Some _ _ _ _ Hc2). eexists. split; [done|].
    pose proof (update_compose _ _ _ _ _ (update_compose _ _ _ _ _ Hu1 Hu2) (update_store _ _ _ (set_joinData r) Hc2)) as Hu.
    apply (exit_inv main g m k cur thc r w _ _ (exist_deleted k) Hi Hc Hd Hmain Hj) with (2 := Hu); try done; try congruence.
    { apply (harmless_compose _ _ (harmless_compose _ _ (harmless_flag _ _) Hh2) (harmless_data _ _)). }
    intros u thu Hthu. destruct (Hf u thu Hthu) as (H1 & H2 & H3 & H4 & Hv). destruct (Hf2 u _ Hv) as (G1 & G2 & G3 & G4).
    rewrite <- H1, <- H2, <- H3, <- H4, <- G1, <- G2, <- G3, <- G4. unfold on. destruct (decide (u = cur)); split_and!; done. }
  destruct (joinData thc) as [w|] eqn:Ew.
  - destruct (alive_waiter _ _ _ _ w cur thc Hi) as [thw Hw]; [by split_and!|done|].
    assert (Hw1 : is_Some (h1 !! w)) by (rewrite Hu1, Hw; by eexists). destruct Hw1 as [thw1 Hw1].
    destruct (change_flags_update w thw1 (ThreadFlags.SetJoinWait false) (set_heap h1 k) Hw1) as (h2 & -> & Hu2). cbn [mbind outcome_bind heap set_heap].
    apply (Hend h2 (Some w) _ Hu2 (harmless_flag _ _) eq_refl). intros u thu Hv.
    destruct (flag_cases w (ThreadFlags.SetJoinWait false) u thu Hv) as (-> & -> & -> & -> & _). split_and!; [done..| |done].
    repeat case_decide; congruence.
  - cbn [mbind outcome_bind heap set_heap]. apply (Hend h1 None (fun _ th => th)); try done; try (by intros u; destruct (h1 !! u)).
Qed.

(** *** Memory *)

Lemma strip_life th th' : strip th' = strip th -> life th' = life th /\ flags th' = flags th.
Proof. unfold strip, life, is_deleted, is_detached, is_joining, set_priority, set_schedNext. intros [= -> _ _ _ ->]. done. Qed.

Definition alive_prios (h : threads) (m : gmap positive Z) : gmap positive Z := filter (fun '(t, _) => dead h t = false) m.

Lemma removeDeadThreads_spec main g m k :
  inv main g m k ->
  exists s h', removeDeadThreads k = Done (Kernel s h' (exist_deleted k) (joining k)) /\
    (forall t, is_Some (m !! t) -> dead (heap k) t = true -> h' !! t = None) /\
    forall ed jo, (forall p pl, jo !! p = Some pl -> joining k !! p = Some pl) ->
      (forall p t, joining k !! p = Some (InLoop t) -> jo !! p = Some (InLoop t)) ->
      inv main g (alive_prios (heap k) m) (Kernel s h' ed jo).
Proof.
  intros Hi. unfold removeDeadThreads.
  assert (Hlive : forall t th, heap k !! t = Some th -> is_deleted th = false -> dead (heap k) t = false).
  { intros t th Ht Hd. by rewrite (dead_fields _ _ _ _ _ _ Hi Ht), Hd. }
  destruct (inv_main _ _ _ _ Hi) as (Hmm & thm & Hthm & Hdm).
  destruct (PKremoveDeadThreads_law _ _ _ (inv_rep _ _ _ _ Hi)) as (s & h' & -> & Hrep & Hsame); [by exists main; eauto|].
  cbn [mbind outcome_bind]. eexists _, _. split; [done|].
  assert (Hback : forall t th', h' !! t = Some th' -> exists th, heap k !! t = Some th /\ life th' = life th /\ flags th' = flags th /\
    (is_Some (m !! t) -> dead (heap k) t = false)).
  { intros t th' Ht'. symmetry in Hsame. destruct (same_lookup _ _ _ _ Hsame Ht') as (th & Hth & Hs). symmetry in Hs.
    apply map_lookup_filter_Some in Hth as [Hth Hn]. exists th. destruct (strip_life _ _ Hs). split_and!; [done..|].
    intros Hm. destruct (dead (heap k) t); [|done]. by destruct Hn. }
  assert (Hfor : forall t th, heap k !! t = Some th -> is_deleted th = false -> exists th', h' !! t = Some th' /\ life th' = life th).
  { intros t th Ht Hd. destruct (same_lookup _ _ t th Hsame) as (th' & Hth' & Hs).
    - apply map_lookup_filter_Some. split; [done|]. intros [_ Hdead]. by rewrite (Hlive t th) in Hdead.
    - exists th'. by destruct (strip_life _ _ Hs). }
  assert (Hin : forall t, is_Some (alive_prios (heap k) m !! t) -> is_Some (m !! t)).
  { intros t [x Hx]. apply map_lookup_filter_Some in Hx as [Hx _]. by eexists. }
  assert (Hkeep : forall t th, is_Some (m !! t) -> heap k !! t = Some th -> is_deleted th = false -> is_Some (alive_prios (heap k) m !! t)).
  { intros t th [x Hx] Ht Hd. exists x. apply map_lookup_filter_Some. split; [done|]. by eapply Hlive. }
  assert (Hjb : forall t th', joinable (alive_prios (heap k) m) h' t th' -> exists th, joinable m (heap k) t th /\ joinData th' = joinData th).
  { intros t th' (Hm & (th & Hth & Hl & _)%Hback & Hd & Hdt). destruct (life_eq _ _ Hl) as (E1 & E2 & _ & E4). exists th.
    split; [|done]. split; [by apply Hin|]. split_and!; [done|congruence..]. }
  split.
  { intros t Hm Hd. apply (same_lookup_None _ _ _ Hsame). apply map_lookup_filter_None. right. intros th _ Hn. by apply Hn. }
  intros ed jo Hjo1 Hjo2. split; simpl.
  - exact Hrep.
  - intros t th' (th & Hth & _ & -> & _)%Hback. by apply (inv_valid _ _ _ _ Hi t).
  - split; [by eapply Hkeep|]. destruct (Hfor main thm) as (th' & ? & Hl); [done..|]. exists th'. split; [done|].
    by destruct (life_eq _ _ Hl) as (-> & _).
  - intros p pl Hp%Hjo1. destruct (inv_place _ _ _ _ Hi p pl Hp) as (? & thp & Hthp & ?). split; [by eapply Hkeep|].
    destruct (Hfor p thp) as (th' & ? & Hl); [done..|]. exists th'. split; [done|]. by destruct (life_eq _ _ Hl) as (-> & _).
  - intros p t th' Hp%Hjo1 (th & Hj & ->)%Hjb. by eapply (inv_loop _ _ _ _ Hi).
  - intros p t th' (th & Hj & ->)%Hjb Hd. apply Hjo2. by eapply (inv_joined _ _ _ _ Hi).
  - intros p t thp' Hp%Hjo1 (thp & Hthp & Hl & _)%Hback. destruct (life_eq _ _ Hl) as (_ & _ & -> & _). intros Hjp.
    destruct (inv_waits _ _ _ _ Hi p t thp Hp Hthp Hjp) as (th & Hm & Hth & Hd & Hdt).
    destruct (Hfor t th) as (th' & ? & Hl'); [done..|]. destruct (life_eq _ _ Hl') as (E1 & E2 & _). exists th'.
    split_and!; [by eapply Hkeep|done|congruence..].
  - intros t th' [x Hx] (th & Hth & Hl & _ & Hnd)%Hback. destruct (life_eq _ _ Hl) as (-> & -> & _). intros Hd Hdt.
    apply map_lookup_filter_Some in Hx as [_ Hx]. by rewrite (dead_fields _ _ _ _ _ _ Hi Hth), Hd, Hdt in Hx.
  - intros t th' Hm%Hin (th & Hth & Hl & _)%Hback. destruct (life_eq _ _ Hl) as (-> & -> & _ & ->). by eapply (inv_result _ _ _ _ Hi).
Qed.

Lemma doCreate_thread options :
  let th := if Z.land options JOINABLE =? 0 then set_flags ThreadFlags.IRQsetDetached (new_Thread 0) else new_Thread 0 in
  is_deleted th = false /\ is_joining th = false /\ joinData th = None /\ ThreadFlags.valid (flags th) /\ schedNext th = None.
Proof. destruct (Z.land options JOINABLE =? 0); (split; [reflexivity|]); (split; [reflexivity|]); (split; [reflexivity|]); (split; [|reflexivity]); unfold ThreadFlags.valid; vm_compute; split; congruence. Qed.

Lemma create_spec main g m k mem reent stacksize prio options :
  inv main g m k ->
  (forall t, mem = Some t -> heap k !! t = None /\ forall p, joining k !! p <> Some (InLoop t)) ->
  exists r k' m', create mem reent stacksize prio options k = Done (r, k') /\ inv main g m' k' /\
    match r with
    | Some t => mem = Some t /\ m' = <[t := prio]> m
    | None => m' = m /\ (validate prio = false \/ stacksize < STACK_MIN \/ mem = None \/ reent = false)
    end.
Proof.
  intros Hi Hmem. unfold create. destruct (validate prio) eqn:Ev; cbn [negb orb].
  2: { exists None, k, m. naive_solver. }
  destruct (Z.ltb_spec stacksize STACK_MIN); [exists None, k, m; naive_solver|]. unfold doCreate.
  assert (Hk : set_heap (heap k) k = k) by by destruct k.
  destruct mem as [t|]; [|exists None, k, m; rewrite Hk; naive_solver].
  destruct reent; cbn [negb]; [|exists None, k, m; rewrite Hk; naive_solver].
  destruct (Hmem t eq_refl) as [Ht Hnj]. destruct (doCreate_thread options) as (Hd & Hj & Hjd & Hv & Hn).
  set (th := if Z.land options JOINABLE =? 0 then _ else _) in *. clearbody th.
  assert (Hmt : m !! t = None).
  { destruct (m !! t) eqn:E; [|done]. destruct (rep_in_heap _ _ _ t (inv_rep _ _ _ _ Hi)) as [? ?]; [by rewrite E|congruence]. }
  destruct (PKaddThread_law (sched k) (<[t := th]> (heap k)) m t prio) as (s' & h' & -> & Hrep & Hsame).
  - apply (rep_stable _ (heap k)); [|apply Hi]. intros q [tq Hq]. apply same_sched_insert_ne. congruence.
  - done.
  - by rewrite lookup_insert_eq.
  - done.
  - rewrite lookup_insert_eq. simpl. by rewrite Hn.
  - cbn [mbind outcome_bind negb]. eexists (Some t), _, _. split; [done|]. split; [|done].
    assert (Hback : forall u thu', h' !! u = Some thu' -> exists thu, life thu' = life thu /\ flags thu' = flags thu /\
      ((u = t /\ thu = th) \/ (u <> t /\ heap k !! u = Some thu))).
    { intros u thu' Hu'. symmetry in Hsame. destruct (same_lookup _ _ _ _ Hsame Hu') as (thu & Hthu & Hs). symmetry in Hs.
      exists thu. destruct (strip_life _ _ Hs). split_and!; [done..|]. apply lookup_insert_Some in Hthu. naive_solver. }
    assert (Hfor : forall u thu, heap k !! u = Some thu -> exists thu', h' !! u = Some thu' /\ life thu' = life thu).
    { intros u thu Hu. destruct (same_lookup _ _ u thu Hsame) as (thu' & Hthu' & Hs); [rewrite lookup_insert_ne by congruence; done|].
      exists thu'. by destruct (strip_life _ _ Hs). }
    assert (Hin : forall u, is_Some (m !! u) -> is_Some (<[t := prio]> m !! u)) by (intros; apply lookup_insert_is_Some'; by right).
    assert (Hold : forall u, u <> t -> is_Some (<[t := prio]> m !! u) -> is_Some (m !! u)) by (intros u Hu; by rewrite lookup_insert_ne).
    split; simpl.
    + exact Hrep.
    + intros u thu' (thu & _ & -> & [[-> ->]|[_ Hu]])%Hback; [done|]. by apply (inv_valid _ _ _ _ Hi u).
    + destruct (inv_main _ _ _ _ Hi) as (? & thm & Hthm & ?). split; [by apply Hin|]. destruct (Hfor main thm Hthm) as (th' & ? & Hl).
      exists th'. split; [done|]. by destruct (life_eq _ _ Hl) as (-> & _).
    + intros p pl Hp. destruct (inv_place _ _ _ _ Hi p pl Hp) as (? & thp & Hthp & ?). split; [by apply Hin|].
      destruct (Hfor p thp Hthp) as (th' & ? & Hl). exists th'. split; [done|]. by destruct (life_eq _ _ Hl) as (-> & _).
    + intros p u thu' Hp (Hm & (thu & Hl & _ & [[-> ->]|[Hne Hu]])%Hback & Hdu & Hdtu); [by destruct (Hnj p)|].
      destruct (life_eq _ _ Hl) as (E1 & E2 & _ & ->). eapply (inv_loop _ _ _ _ Hi); [done|]. split_and!; [by apply Hold|done|congruence..].
    + intros p u thu' (Hm & (thu & Hl & _ & [[-> ->]|[Hne Hu]])%Hback & Hdu & Hdtu); destruct (life_eq _ _ Hl) as (E1 & E2 & _ & ->); [congruence|].
      eapply (inv_joined _ _ _ _ Hi). split_and!; [by apply Hold|done|congruence..].
    + intros p u thp' Hp (thp & Hl & _ & [[-> ->]|[Hne Hu]])%Hback; destruct (life_eq _ _ Hl) as (_ & _ & -> & _); [congruence|]. intros Hjp.
      destruct (inv_waits _ _ _ _ Hi p u thp Hp Hu Hjp) as (thu & ? & Hthu & ? & ?). destruct (Hfor u thu Hthu) as (thu' & ? & Hl').
      destruct (life_eq _ _ Hl') as (E1 & E2 & _). exists thu'. split_and!; [by apply Hin|done|congruence..].
    + intros u thu' Hm (thu & Hl & _ & [[-> ->]|[Hne Hu]])%Hback; destruct (life_eq _ _ Hl) as (-> & -> & _); [congruence|].
      apply (inv_dead _ _ _ _ Hi u); [by apply Hold|done].
    + intros u thu' Hm (thu & Hl & _ & [[-> ->]|[Hne Hu]])%Hback; destruct (life_eq _ _ Hl) as (-> & -> & _ & ->); [congruence|].
      apply (inv_result _ _ _ _ Hi u); [by apply Hold|done].
Qed.

(** ** Programs *)

Abbreviation results := (gmap positive (option positive)).

(** Thread [cur] does [o]; [g] records what the ended threads returned. *)
Definition run_op (cur : positive) (o : op) (g : results) (k : kernel) : exec (results * kernel) :=
  match o with
  | Create mem reent stacksize prio options => '(_, k) ← create mem reent stacksize prio options k; Done (g, k)
  | Terminate t => k ← terminate t k; Done (g, k)
  | Wait => k ← wait cur k; Done (g, k)
  | Wakeup t => k ← wakeup t k; Done (g, k)
  | Detach t => k ← detach t k; Done (g, k)
  | Join t => '(_, k) ← join cur t k; Done (g, k)
  | Resume =>
      match joining k !! cur with
      | Some (InLoop t) => '(_, k) ← join_resume cur t k; Done (g, k)
      | _ => Done (g, k)
      end
  | Reclaim => '(_, k) ← join_reclaim cur k; Done (g, k)
  | Exit r => k ← exit cur r k; Done (<[cur := r]> g, k)
  | Idle => k ← idleThread k; Done (g, k)
  | Flag t o => k ← change_flags t (ThreadFlags.run o) k; Done (g, k)
  end.

(** The current thread is one that the scheduler may run. *)
Definition runs (cur : positive) (k : kernel) : Prop :=
  exists_ (Some cur) k = Done true /\ ready (heap k) cur = true.

Definition op_ok (main cur : positive) (o : op) (k : kernel) : Prop :=
  match o with
  | Flag t o => neutral o /\ is_Some (heap k !! t)
  | Idle => True
  | Resume => runs cur k
  | Reclaim => runs cur k /\ joining k !! cur = Some BeforeReclaim
  | _ =>
      runs cur k /\ joining k !! cur = None /\
      match o with
      | Create mem _ _ _ _ => forall t, mem = Some t -> heap k !! t = None /\ forall p, joining k !! p <> Some (InLoop t)
      | Terminate t | Wakeup t => is_Some (heap k !! t)
      | Detach t => exists_ (Some t) k = Done true /\ isDetached t k = Done false
      | Exit _ => cur <> main
      | _ => True
      end
  end.

Fixpoint run_prog (os : list (positive * op)) (g : results) (k : kernel) : exec (results * kernel) :=
  match os with
  | [] => Done (g, k)
  | (cur, o) :: os => '(g, k) ← run_op cur o g k; run_prog os g k
  end.

Fixpoint prog_ok (main : positive) (os : list (positive * op)) (g : results) (k : kernel) : Prop :=
  match os with
  | [] => True
  | (cur, o) :: os =>
      op_ok main cur o k /\ forall g' k', run_op cur o g k = Done (g', k') -> prog_ok main os g' k'
  end.

Lemma runs_alive main g m k cur :
  inv main g m k -> runs cur k -> is_Some (m !! cur) /\ exists th, heap k !! cur = Some th /\ is_deleted th = false.
Proof.
  intros Hi [He Hr]. destruct (exists_cases _ _ _ _ cur Hi) as [[E _]|(_ & Hm & th & Ht & _)]; [congruence|].
  split; [done|]. exists th. split; [done|]. unfold ready in Hr. rewrite Ht in Hr.
  rewrite ThreadFlags.isReady_valid in Hr by by apply (inv_valid _ _ _ _ Hi cur).
  apply negb_true_iff, orb_false_iff in Hr as [Hr _]. apply orb_false_iff in Hr as [Hr _]. by apply orb_false_iff in Hr as [_ Hr].
Qed.

Lemma set_reclaimed main g m k cur :
  inv main g m k -> exists k' m', join_reclaim cur k = Done (Returned true, k') /\ (joining k !! cur = Some BeforeReclaim -> inv main g m' k').
Proof.
  intros Hi. unfold join_reclaim. destruct (removeDeadThreads_spec _ _ _ _ Hi) as (s & h' & -> & _ & Hinv). cbn [mbind outcome_bind].
  eexists _, _. split; [done|]. intros Hp. apply Hinv.
  - by intros p pl [[_ ?]|[_ ?]]%set_place_cases.
  - intros p t Hpt. simpl. rewrite lookup_partial_alter_ne; [done|]. intros <-. congruence.
Qed.

Lemma run_op_spec main g m k cur o :
  inv main g m k -> op_ok main cur o k -> exists g' k' m', run_op cur o g k = Done (g', k') /\ inv main g' m' k'.
Proof.
  intros Hi Hok. destruct o as [mem reent st prio opts|t| |t|t|t| | |r| |t o]; cbn [op_ok] in Hok; cbn [run_op].
  - destruct Hok as (_ & _ & Hmem). destruct (create_spec _ _ _ _ mem reent st prio opts Hi Hmem) as (r & k' & m' & -> & Hi' & _). by eexists _, _, _.
  - destruct Hok as (_ & _ & Ht). destruct (change_flags_neutral _ _ _ _ t ThreadFlags.SetDeleting Hi Ht I) as (k' & Hr & ?).
    change (terminate t k) with (change_flags t (ThreadFlags.run ThreadFlags.SetDeleting) k). rewrite Hr. by eexists _, _, _.
  - destruct Hok as (Hr & _). destruct (runs_alive _ _ _ _ _ Hi Hr) as (_ & th & Ht & _).
    destruct (change_flags_neutral _ _ _ _ cur (ThreadFlags.SetWait true) Hi (mk_is_Some _ _ Ht) I) as (k' & Hr' & ?).
    change (wait cur k) with (change_flags cur (ThreadFlags.run (ThreadFlags.SetWait true)) k). rewrite Hr'. by eexists _, _, _.
  - destruct Hok as (_ & _ & Ht). destruct (change_flags_neutral _ _ _ _ t (ThreadFlags.SetWait false) Hi Ht I) as (k' & Hr & ?).
    change (wakeup t k) with (change_flags t (ThreadFlags.run (ThreadFlags.SetWait false)) k). rewrite Hr. by eexists _, _, _.
  - destruct Hok as (_ & _ & He & Hd). destruct (exists_cases _ _ _ _ t Hi) as [[E _]|(_ & Hm & th & Ht & Hl & Hdt & _)]; [congruence|].
    unfold isDetached in Hd. rewrite Hl in Hd. simpl in Hd. injection Hd as Hd. rewrite Hdt in Hd.
    destruct (detach_spec _ _ _ _ t th Hi Hm Ht Hd) as (k' & -> & ?). by eexists _, _, _.
  - destruct Hok as (Hr & Hj & _). destruct (runs_alive _ _ _ _ _ Hi Hr) as [Hm Hc].
    destruct (join_spec _ _ _ _ cur t Hi Hm Hc Hj) as (r & k' & -> & ? & _). by eexists _, _, _.
  - destruct (joining k !! cur) as [[t|]|] eqn:E; [|by eexists _, _, _..].
    destruct (join_resume_spec _ _ _ _ cur t Hi E) as (r & k' & -> & ? & _). by eexists _, _, _.
  - destruct Hok as [_ Hp]. destruct (set_reclaimed _ _ _ _ cur Hi) as (k' & m' & -> & Hi'). eexists _, _, _. split; [done|]. by apply Hi'.
  - destruct Hok as (Hr & Hj & Hne). destruct (runs_alive _ _ _ _ _ Hi Hr) as (Hm & th & Ht & Hd).
    destruct (exit_spec _ _ _ _ cur th r Hi Ht Hm Hd Hne Hj) as (k' & -> & ?). by eexists _, _, _.
  - unfold idleThread. destruct (exist_deleted k); [|by eexists _, _, _].
    destruct (removeDeadThreads_spec _ _ _ _ Hi) as (s & h' & Hr & _ & Hinv). unfold removeDeadThreads in *. simpl.
    destruct (PKremoveDeadThreads (sched k) (heap k)) as [[s1 h1]|] eqn:E; simpl in *; [|done]. injection Hr as -> ->.
    eexists _, _, _. split; [done|]. by apply Hinv.
  - destruct Hok as [Hn Ht]. destruct (change_flags_neutral _ _ _ _ t o Hi Ht Hn) as (k' & -> & ?). by eexists _, _, _.
Qed.

Lemma run_prog_spec main os g m k :
  inv main g m k -> prog_ok main os g k -> exists g' k' m', run_prog os g k = Done (g', k') /\ inv main g' m' k'.
Proof.
  revert g m k. induction os as [|[cur o] os IH]; intros g m k Hi Hok; [by eexists _, _, _|]. destruct Hok as [Ho Hok].
  destruct (run_op_spec _ _ _ _ cur o Hi Ho) as (g1 & k1 & m1 & Hr & Hi1). simpl. rewrite Hr. simpl. eapply IH; [done|]. by apply Hok.
Qed.

(** The kernel has started: the main thread is scheduled. *)
Record started (main : positive) (prio : Z) (k : kernel) : Prop := Started {
  started_rep : sched_rep (sched k) (heap k) {[main := prio]};
  started_valid t th : heap k !! t = Some th -> ThreadFlags.valid (flags th);
  started_main : exists th, heap k !! main = Some th /\ ThreadFlags.isDeletedJoin (flags th) = false /\ joinData th = None;
  started_joining : joining k = ∅;
}.

Lemma started_inv main prio k : started main prio k -> inv main ∅ {[main := prio]} k.
Proof.
  intros [Hr Hv (th & Ht & Hd & Hjd) Hj]. rewrite flags_deleted in Hd by by apply (Hv main).
  assert (Honly : forall t th', is_Some (({[main := prio]} : gmap positive Z) !! t) -> heap k !! t = Some th' -> t = main /\ th' = th).
  { intros t th' [x Hx] Ht'. apply lookup_singleton_Some in Hx as [<- _]. split; congruence. }
  split; try done.
  - rewrite lookup_singleton_eq. split; [by eexists|]. by exists th.
  - intros p pl. by rewrite Hj, lookup_empty.
  - intros p t th'. by rewrite Hj, lookup_empty.
  - intros p t th' (Hm & Ht' & _) ?. destruct (Honly t th' Hm Ht') as [-> ->]. congruence.
  - intros p t thp. by rewrite Hj, lookup_empty.
  - intros t th' Hm Ht'. destruct (Honly t th' Hm Ht') as [-> ->]. congruence.
  - intros t th' Hm Ht'. destruct (Honly t th' Hm Ht') as [-> ->]. congruence.
Qed.

(** What [join] may do, given what the ended threads returned. *)
Definition join_correct (g : results) (t : positive) (k : kernel) (r : join_result) (k' : kernel) : Prop :=
  match r with
  | Joined v =>
      g !! t = Some v /\ isDetached t k = Done false /\ dead (heap k') t = true
  | Blocked => isDetached t k = Done false /\ exists_ (Some t) k = Done true
  | Returned b => b = false
  end.

Lemma join_post_correct main g m k cur t r k' : inv main g m k -> join_post main g m cur t k r k' -> join_correct g t k r k'.
Proof.
  intros Hi [Hi' Hr]. destruct r as [b|v|]; simpl.
  - apply Hr.
  - destruct Hr as (_ & Hg & th & Ht & _ & Hd & Hdead). split; [done|]. split; [|done]. unfold isDetached. rewrite (load_Some _ _ _ Ht). simpl.
    rewrite flags_detached by exact (inv_valid _ _ _ _ Hi _ _ Ht). congruence.
  - destruct Hr as (Hj & th & Hjt). pose proof Hjt as (Hm & Ht & Hd & Hdt).
    destruct (exists_cases _ _ _ _ t Hi) as [[E Hno]|(E & _ & th0 & Ht0 & Hl & Hdt0 & Hd0)]; [by destruct (Hno th)|].
    split; [|done]. unfold isDetached. rewrite Hl. simpl. rewrite Hdt0. congruence.
Qed.

Lemma waits_spec main g m k p t thp :
  inv main g m k -> joining k !! p = Some (InLoop t) -> heap k !! p = Some thp -> ThreadFlags.isWaitingJoin (flags thp) = true ->
  exists th, heap k !! t = Some th /\ joinData th = Some p /\
    ThreadFlags.isDeletedJoin (flags th) = false /\ ThreadFlags.isDetached (flags th) = false.
Proof.
  intros Hi Hp Hthp Hw. pose proof (inv_valid _ _ _ _ Hi _ _ Hthp) as Hv.
  assert (Hj : is_joining thp = true).
  { unfold is_joining. rewrite <- Hw. symmetry. rewrite (proj1 (ThreadFlags.valid_encode _) Hv).
    rewrite ThreadFlags.decode_encode. apply ThreadFlags.queries_encode. }
  destruct (inv_waits _ _ _ _ Hi p t thp Hp Hthp Hj) as (th & Hjt). pose proof Hjt as (Hm & Ht & Hd & Hdt).
  pose proof (inv_valid _ _ _ _ Hi _ _ Ht) as Hvt. exists th. rewrite flags_deleted, flags_detached by done.
  split_and!; [done|by apply (inv_loop _ _ _ _ Hi p t)|done..].
Qed.

(** The operations that free the memory of the dead threads. *)
Definition freed (t : positive) (k : kernel) : Prop :=
  (exist_deleted k = true /\ exists k', idleThread k = Done k' /\ heap k' !! t = None) \/
  (exists p k', joining k !! p = Some BeforeReclaim /\ join_reclaim p k = Done (Returned true, k') /\ heap k' !! t = None).

Lemma freed_spec main g m k t : inv main g m k -> is_Some (m !! t) -> dead (heap k) t = true -> freed t k.
Proof.
  intros Hi Hm Hdead. destruct (removeDeadThreads_spec _ _ _ _ Hi) as (s & h' & Hr & Hgone & _). specialize (Hgone t Hm Hdead).
  destruct (rep_in_heap _ _ _ t (inv_rep _ _ _ _ Hi) Hm) as [th Ht].
  rewrite (dead_fields _ _ _ _ _ _ Hi Ht) in Hdead. apply andb_true_iff in Hdead as [Hd Hdt].
  destruct (inv_dead _ _ _ _ Hi t th Hm Ht Hd Hdt) as [He|[p Hp]]; [left|right].
  - split; [done|]. unfold idleThread. rewrite He. unfold removeDeadThreads in *. simpl.
    destruct (PKremoveDeadThreads (sched k) (heap k)) as [[s1 h1]|]; simpl in *; [|done]. injection Hr as -> ->. by eexists.
  - exists p. unfold join_reclaim. rewrite Hr. cbn [mbind outcome_bind]. by eexists.
Qed.

End lifecycle.

(** ** An example *)

#[local] Existing Instances PriorityScheduler.ops PriorityScheduler.scheduler.

(** Thread 1 creates thread 2, joins it and gets its result. *)
Definition ex_kernel : kernel (S := PriorityScheduler.sched) :=
  match PriorityScheduler.boot 9 with
  | Done (s, h) =>
      match create (Some 1%positive) true 256 1 DEFAULT (Kernel s h false ∅) with
      | Done (_, k) => k
      | Fault _ => Kernel s h false ∅
      end
  | Fault _ => Kernel PriorityScheduler.initial ∅ false ∅
  end.

Definition ex_prog : list (positive * op) :=
  [(1, Create (Some 2) true 256 1 JOINABLE); (1, Join 2); (2, Exit (Some 7)); (1, Resume)]%positive.

Example ex_join :
  ('(_, k) ← run_prog [(1, Create (Some 2) true 256 1 JOINABLE); (1, Join 2); (2, Exit (Some 7))]%positive ∅ ex_kernel; '(r, _) ← join_resume 1 2 k; Done r)
  = Done (Joined (Some 7%positive)).
Proof. vm_compute. reflexivity. Qed.

Lemma ex_started : started 1 1 ex_kernel.
Proof.
  split.
  - set (th := set_flags ThreadFlags.IRQsetDetached (new_Thread 0)).
    destruct (PKaddThread_law (PriorityScheduler.Sched (PriorityScheduler.thread_list PriorityScheduler.initial) (Some 9%positive) 0x7fffffffffffffff)
      (<[1%positive := th]> {[9%positive := new_Thread (-1)]}) ∅ 1 1) as (s' & h' & Hrun & Hrep & _); try done.
    + apply PriorityScheduler.sched_rep_initial.
    + vm_compute in Hrun. injection Hrun as Hs Hh.
      assert (Es : s' = sched ex_kernel) by (rewrite <- Hs; vm_compute; reflexivity).
      assert (Eh : h' = heap ex_kernel) by (rewrite <- Hh; vm_compute; reflexivity). by rewrite <- Es, <- Eh.
  - intros t th Ht. assert (Hall : map_Forall (fun _ th => ThreadFlags.valid (flags th)) (heap ex_kernel)).
    { apply map_Forall_to_list. unfold ThreadFlags.valid. vm_compute. repeat constructor; congruence. }
    by apply (Hall t).
  - eexists. split; [vm_compute; reflexivity|done].
  - done.
Qed.

Lemma ex_prog_ok : prog_ok 1 ex_prog ∅ ex_kernel.
Proof.
  assert (Hrun : forall cur (k : kernel (S := PriorityScheduler.sched)), exists_ (Some cur) k = Done true -> ready (heap k) cur = true -> runs cur k) by done.
  cbn [prog_ok ex_prog]. split; [|intros g1 k1 E; vm_compute in E; injection E as <- <-; split; [|intros g2 k2 E; vm_compute in E; injection E as <- <-; split;
    [|intros g3 k3 E; vm_compute in E; injection E as <- <-; split; [|done]]]]; cbn [op_ok].
  - split; [by apply Hrun; vm_compute|]. split; [done|]. intros t [= <-]. done.
  - split; [by apply Hrun; vm_compute|]. done.
  - split; [by apply Hrun; vm_compute|]. done.
  - by apply Hrun; vm_compute.
Qed.

End Lifecycle.
