(* ===== verification/Directories.v ===== *)
(** * Directories

    [DirectoryBase] of [filesystem/file.h] and [file.cpp]: the entries of a
    directory as [struct dirent]s in the buffer of a program; and the
    [getdents] of [MountpointFsDirectory] and [DevFsDirectory], which differ in what
    an entry of the map is.  Names are their characters; a buffer is its bytes. *)
From stdpp Require Import sorting.
From S2P Require Import Prelude Errors Bytes.

Local Open Scope Z_scope.

Module Directories.

Abbreviation str := (list Z).

(** The layout of [struct dirent], of the C library: [d_ino] (4 bytes), [d_off]
    (8, at 8), [d_reclen] (2), [d_type] (1), [d_name]. *)
Definition d_off : Z := 8.
Definition d_reclen : Z := 16.
Definition d_type : Z := 18.
Definition direntHeaderSizeNoPadding : Z := 19.
Definition direntHeaderSize : Z := (direntHeaderSizeNoPadding + 3 + 3) / 4 * 4.
Definition minimumBufferSize : Z := 3 * direntHeaderSize.

Definition EBADF : Z := 9.
Definition EINVAL : Z := 22.
Definition DT_DIR : Z := 4.

(** The characters up to the terminator. *)
Fixpoint c_str (s : bytes) : str := match s with [] => [] | c :: s => if c =? 0 then [] else c :: c_str s end.

Definition strcpy (b : bytes) (pos : Z) (s : str) : exec bytes := set_bytes b pos (c_str s ++ [0]).

(** The fields at [pos]. *)
Definition set_dirent (pos ino reclen type : Z) (name : str) (b : bytes) : exec bytes :=
  b ← set_bytes b pos (unword 4 ino);
  b ← set_bytes b (pos + d_off) (unword 8 0);
  b ← set_bytes b (pos + d_reclen) (unword 2 reclen);
  b ← set_bytes b (pos + d_type) (unword 1 type);
  strcpy b (pos + direntHeaderSizeNoPadding) name.

(** The functions return their result, the position and the buffer; [len] is
    [end], from the start of the buffer. *)
Definition addEntry (pos len ino type : Z) (n : str) (b : bytes) : exec (Z * Z * bytes) :=
  let reclen := direntHeaderSizeNoPadding + Z.of_nat (length n) + 1 in
  let reclen := Z.land (reclen + 3) (Z.lnot 3) in
  if len - pos <? reclen then Done (-1, pos, b)
  else b ← set_dirent pos ino reclen type n b; Done (reclen, pos + reclen, b).

Definition dot : str := [46].
Definition dotdot : str := [46; 46].

Definition addDefaultEntries (pos thisIno upIno : Z) (b : bytes) : exec (Z * Z * bytes) :=
  b ← set_dirent pos thisIno direntHeaderSize DT_DIR dot b;
  let pos := pos + direntHeaderSize in
  b ← set_dirent pos upIno direntHeaderSize DT_DIR dotdot b;
  Done (2 * direntHeaderSize, pos + direntHeaderSize, b).

Definition addTerminatingEntry (pos len : Z) (b : bytes) : exec (Z * Z * bytes) :=
  if len - pos <? direntHeaderSize then Done (-1, pos, b)
  else b ← set_bytes b pos (replicate (Z.to_nat direntHeaderSize) 0); Done (direntHeaderSize, pos + direntHeaderSize, b).

(** ** The functions of [FileBase] and [DirectoryBase] that a file may not override *)
Definition ENOTTY : Z := 25.
Definition F_SETFD : Z := 2.
Definition FD_CLOEXEC : Z := 1.
Definition base_isatty : Z := 0.
Definition base_fcntl (cmd opt : Z) : Z := if (cmd =? F_SETFD) && ((opt =? FD_CLOEXEC) || (opt =? 0)) then 0 else - EBADF.
Definition base_ioctl (cmd : Z) : Z := - ENOTTY.
Definition base_getdents (len : Z) : Z := - EBADF.
Definition directory_write (len : Z) : Z := - EBADF.
Definition directory_read (len : Z) : Z := - EBADF.
Definition directory_lseek (pos whence : Z) : Z := - EBADF.
Definition directory_fstat : Z := - EBADF.

(** ** [getdents]

    A directory has a list of entries: names, with inode and type. *)
Abbreviation entry := (str * (Z * Z))%type.

Record directory := mkDirectory { currentItem : str; currentInode : Z; parentInode : Z; first : bool; last : bool }.

(** The constructors; [listed] is whether the entries are listed at all. *)
Definition new_directory (entries : list entry) (listed : bool) (currentInode parentInode : Z) : directory :=
  mkDirectory (match entries with e :: _ => if listed then c_str e.1 else [] | [] => [] end) currentInode parentInode true false.

Definition set_currentItem (n : str) (d : directory) : directory := mkDirectory n (currentInode d) (parentInode d) (first d) (last d).
Definition set_first (b : bool) (d : directory) : directory := mkDirectory (currentItem d) (currentInode d) (parentInode d) b (last d).
Definition set_last (b : bool) (d : directory) : directory := mkDirectory (currentItem d) (currentInode d) (parentInode d) (first d) b.

(** [find], as the entries from there on. *)
Fixpoint find_entry (n : str) (l : list entry) : list entry :=
  match l with [] => [] | e :: l' => if decide (e.1 = n) then l else find_entry n l' end.

(** The entry that did not fit, if any. *)
Fixpoint add_entries (l : list entry) (pos len : Z) (b : bytes) : exec (option entry * Z * bytes) :=
  match l with
  | [] => Done (None, pos, b)
  | e :: l =>
      '(r, pos, b) ← addEntry pos len e.2.1 e.2.2 e.1 b;
      if 0 <? r then add_entries l pos len b else Done (Some e, pos, b)
  end.

Definition finish (pos len : Z) (b : bytes) (d : directory) : exec (Z * bytes * directory) :=
  '(_, pos, b) ← addTerminatingEntry pos len b; Done (pos, b, set_last true d).

(** From the current item on, in a buffer that is filled up to [pos]. *)
Definition list_items (entries : list entry) (pos len : Z) (b : bytes) (d : directory) : exec (Z * bytes * directory) :=
  match currentItem d with
  | [] => finish pos len b d
  | name =>
      match find_entry name entries with
      | [] => Done (- EBADF, b, d)
      | l =>
          '(r, pos, b) ← add_entries l pos len b;
          match r with Some e => Done (pos, b, set_currentItem (c_str e.1) d) | None => finish pos len b d end
      end
  end.

Definition getdents (entries : list entry) (len : Z) (b : bytes) (d : directory) : exec (Z * bytes * directory) :=
  if len <? minimumBufferSize then Done (- EINVAL, b, d)
  else if last d then Done (0, b, d)
  else if first d then
    '(_, pos, b) ← addDefaultEntries 0 (currentInode d) (parentInode d) b;
    list_items entries pos len b (set_first false d)
  else list_items entries 0 len b d.

(** A program that reads a directory: it calls [getdents] until there is no
    more, each time with a buffer of [len] bytes, that hold anything. *)
Fixpoint read_all (n : nat) (entries : list entry) (len : Z) (bufs : nat -> bytes) (d : directory) : exec (list bytes) :=
  match n with
  | O => Fault OutOfFuel
  | S n =>
      '(r, b, d) ← getdents entries len (bufs n) d;
      if r <=? 0 then Done [] else l ← read_all n entries len bufs d; Done (take (Z.to_nat r) b :: l)
  end.

(** It takes a buffer apart by the lengths of the records, up to one without. *)
Fixpoint parse (n : nat) (b : bytes) : list entry :=
  match n, b with
  | O, _ | _, [] => []
  | S n, _ =>
      let reclen := rd 2 b d_reclen in
      if reclen =? 0 then [] else (c_str (drop (Z.to_nat direntHeaderSizeNoPadding) b), (rd 4 b 0, rd 1 b d_type)) :: parse n (drop (Z.to_nat reclen) b)
  end.
Definition parse_buffer (b : bytes) : list entry := parse (length b) b.

(** ** The order of the entries

    A [std::map] of [StringPart]s lists them by [operator<], of [strcmp]. *)
Fixpoint strcmp_le (a b : str) : bool :=
  match a, b with
  | [], _ => true
  | _ :: _, [] => false
  | x :: a, y :: b => (x <? y) || (x =? y) && strcmp_le a b
  end.

Definition key_le {A} (a b : str * A) : Prop := strcmp_le a.1 b.1 = true.
#[export] Instance key_le_dec {A} : RelDecision (key_le (A := A)) := fun a b => decide (strcmp_le a.1 b.1 = true).

Definition in_order {A} (m : gmap str A) : list (str * A) := merge_sort key_le (map_to_list m).

(** ** Records *)

(** What an entry takes in the buffer. *)
Definition record_size (n : str) : Z := Z.land (direntHeaderSizeNoPadding + Z.of_nat (length n) + 1 + 3) (Z.lnot 3).

(** The bytes of an entry, whatever the padding. *)
Definition is_record (r : bytes) (e : entry) : Prop :=
  exists p4 p, length p4 = 4%nat /\ Z.of_nat (length r) = record_size e.1 /\
    r = unword 4 e.2.1 ++ p4 ++ unword 8 0 ++ unword 2 (record_size e.1) ++ unword 1 e.2.2 ++ (e.1 ++ [0]) ++ p.

Definition name_ok (n : str) : Prop := n <> [] /\ Forall (fun c => 0 < c < 256) n /\ record_size n < 2 ^ 16.
Definition entry_ok (e : entry) : Prop := name_ok e.1 /\ 0 <= e.2.1 < 2 ^ 32 /\ 0 <= e.2.2 < 2 ^ 8.

Lemma round_up_4 x : Z.land (x + 3) (Z.lnot 3) = 4 * ((x + 3) / 4).
Proof. rewrite <- Z.ldiff_land. change 3 with (Z.ones 2) at 2. rewrite Z.ldiff_ones_r by lia. rewrite Z.shiftr_div_pow2, Z.shiftl_mul_pow2 by lia. change (2 ^ 2) with 4. lia. Qed.

Lemma record_size_bounds n : direntHeaderSizeNoPadding + Z.of_nat (length n) + 1 <= record_size n.
Proof. unfold record_size. rewrite round_up_4. set (x := direntHeaderSizeNoPadding + _ + 1). pose proof (Z.div_mod (x + 3) 4). pose proof (Z.mod_pos_bound (x + 3) 4). lia. Qed.

Lemma record_size_pos n : 0 < record_size n.
Proof. pose proof (record_size_bounds n). unfold direntHeaderSizeNoPadding in *. lia. Qed.

Lemma c_str_app n l : Forall (fun c => 0 < c < 256) n -> c_str (n ++ 0 :: l) = n.
Proof. induction 1 as [|c n Hc _ IH]; [done|]. simpl. destruct (Z.eqb_spec c 0); [lia|]. by rewrite IH. Qed.

Lemma c_str_name n : Forall (fun c => 0 < c < 256) n -> c_str n = n.
Proof. induction 1 as [|c n Hc _ IH]; [done|]. simpl. destruct (Z.eqb_spec c 0); [lia|]. by rewrite IH. Qed.

Lemma set_bytes_at c a x b l off :
  c = a ++ x ++ b -> off = Z.of_nat (length a) -> length x = length l -> set_bytes c off l = Done (a ++ l ++ b).
Proof. intros ->. apply set_bytes_mid. Qed.

Lemma rd_at n c a x b off : c = a ++ x ++ b -> off = Z.of_nat (length a) -> length x = n -> rd n c off = word x.
Proof. intros ->. apply rd_mid. Qed.

(** Writing the fields of an entry over some bytes makes its record. *)
Lemma set_dirent_record pre x post n ino type :
  Forall (fun c => 0 < c < 256) n -> Z.of_nat (length x) = record_size n ->
  exists r, set_dirent (Z.of_nat (length pre)) ino (record_size n) type n (pre ++ x ++ post) = Done (pre ++ r ++ post) /\ is_record r (n, (ino, type)).
Proof.
  intros Hn Hx. pose proof (record_size_bounds n) as Hs. unfold direntHeaderSizeNoPadding in Hs.
  destruct (split_length x 4 ltac:(lia)) as (x4 & y & -> & H4). rewrite length_app in Hx.
  destruct (split_length y 4 ltac:(lia)) as (p4 & y1 & -> & Hp4). rewrite length_app in Hx.
  destruct (split_length y1 8 ltac:(lia)) as (x8 & y2 & -> & H8). rewrite length_app in Hx.
  destruct (split_length y2 2 ltac:(lia)) as (x2 & y3 & -> & H2). rewrite length_app in Hx.
  destruct (split_length y3 1 ltac:(lia)) as (x1 & y4 & -> & H1). rewrite length_app in Hx.
  destruct (split_length y4 (length n + 1) ltac:(lia)) as (xn & p & -> & Hn'). rewrite length_app in Hx.
  exists (unword 4 ino ++ p4 ++ unword 8 0 ++ unword 2 (record_size n) ++ unword 1 type ++ (n ++ [0]) ++ p). split.
  2:{ exists p4, p. split; [done|]. split; [|done]. cbn [fst snd]. rewrite !length_app, !length_unword. simpl length. lia. }
  unfold set_dirent, strcpy, d_off, d_reclen, d_type, direntHeaderSizeNoPadding. rewrite (c_str_name n) by done.
  erewrite (set_bytes_at _ pre x4) by (rewrite ?length_unword; try done; by rewrite <- !app_assoc). cbn [mbind outcome_bind].
  erewrite (set_bytes_at _ (pre ++ unword 4 ino ++ p4) x8) by (rewrite ?length_app, ?length_unword; try lia; by rewrite <- !app_assoc). cbn [mbind outcome_bind].
  erewrite (set_bytes_at _ (pre ++ unword 4 ino ++ p4 ++ unword 8 0) x2) by (rewrite ?length_app, ?length_unword; try lia; by rewrite <- !app_assoc). cbn [mbind outcome_bind].
  erewrite (set_bytes_at _ (pre ++ unword 4 ino ++ p4 ++ unword 8 0 ++ unword 2 (record_size n)) x1) by (rewrite ?length_app, ?length_unword; try lia; by rewrite <- !app_assoc). cbn [mbind outcome_bind].
  erewrite (set_bytes_at _ (pre ++ unword 4 ino ++ p4 ++ unword 8 0 ++ unword 2 (record_size n) ++ unword 1 type) xn) by (rewrite ?length_app, ?length_unword; try (simpl; lia); by rewrite <- !app_assoc).
  by rewrite <- !app_assoc.
Qed.

(** Which the program reads back. *)
Lemma parse_record k r e rest : entry_ok e -> is_record r e -> parse (S k) (r ++ rest) = e :: parse k rest.
Proof.
  intros [(Hne & Hn & Hsz) [Hi Ht]] (p4 & p & Hp4 & Hr & Heq). destruct e as [n [ino type]]. cbn [fst snd] in *.
  pose proof (record_size_bounds n) as Hs. unfold direntHeaderSizeNoPadding in Hs.
  assert (Hlen : length r = Z.to_nat (record_size n)) by lia.
  assert (Hino : rd 4 (r ++ rest) 0 = ino).
  { erewrite (rd_at 4 _ [] (unword 4 ino)); [apply word_unword; simpl; lia|by rewrite Heq, <- !app_assoc|done|by rewrite length_unword]. }
  assert (Hrl : rd 2 (r ++ rest) d_reclen = record_size n).
  { erewrite (rd_at 2 _ (unword 4 ino ++ p4 ++ unword 8 0) (unword 2 (record_size n)));
      [apply word_unword; simpl; lia|by rewrite Heq, <- !app_assoc|rewrite !length_app, !length_unword; unfold d_reclen; lia|by rewrite length_unword]. }
  assert (Hty : rd 1 (r ++ rest) d_type = type).
  { erewrite (rd_at 1 _ (unword 4 ino ++ p4 ++ unword 8 0 ++ unword 2 (record_size n)) (unword 1 type));
      [apply word_unword; simpl; lia|by rewrite Heq, <- !app_assoc|rewrite !length_app, !length_unword; unfold d_type; lia|by rewrite length_unword]. }
  assert (Hnm : c_str (drop (Z.to_nat direntHeaderSizeNoPadding) (r ++ rest)) = n).
  { replace (r ++ rest) with ((unword 4 ino ++ p4 ++ unword 8 0 ++ unword 2 (record_size n) ++ unword 1 type) ++ n ++ 0 :: p ++ rest)
      by (rewrite Heq, <- !app_assoc; done).
    rewrite drop_app_length' by (rewrite !length_app, !length_unword, Hp4; done). by apply c_str_app. }
  assert (Hd : drop (Z.to_nat (record_size n)) (r ++ rest) = rest) by (rewrite <- Hlen; apply drop_app_length).
  destruct (r ++ rest) as [|b l] eqn:E; [destruct r; simpl in *; [lia|done]|]. cbn [parse]. rewrite Hrl, Hino, Hty, Hnm, Hd.
  destruct (Z.eqb_spec (record_size n) 0); [lia|done].
Qed.

Lemma parse_zeros k : parse k (replicate (Z.to_nat direntHeaderSize) 0) = [].
Proof. by destruct k. Qed.

Lemma parse_records recs l : forall k z,
  Forall2 is_record recs l -> Forall entry_ok l -> (length recs <= k)%nat -> z = [] \/ z = replicate (Z.to_nat direntHeaderSize) 0 ->
  parse k (concat recs ++ z) = l.
Proof.
  intros k z Hr. revert k. induction Hr as [|r e recs l Hre _ IH]; intros k Hok Hk Hz; simpl in *.
  - destruct Hz as [->| ->]; [by destruct k|apply parse_zeros].
  - inversion Hok as [|?? He Hl]; subst. destruct k as [|k]; [lia|]. rewrite <- app_assoc, (parse_record _ _ e) by done. f_equal. apply IH; [done|lia|done].
Qed.

Lemma concat_records_length recs l : Forall2 is_record recs l -> (length recs <= length (concat recs))%nat.
Proof.
  induction 1 as [|r e recs l (p4 & p & _ & Hl & _) _ IH]; [done|]. simpl. rewrite length_app. pose proof (record_size_pos e.1). lia.
Qed.

Lemma parse_buffer_records recs l z :
  Forall2 is_record recs l -> Forall entry_ok l -> z = [] \/ z = replicate (Z.to_nat direntHeaderSize) 0 -> parse_buffer (concat recs ++ z) = l.
Proof. intros Hr Hok Hz. apply parse_records; [done..| |done]. rewrite length_app. pose proof (concat_records_length recs l Hr). lia. Qed.

(** ** Filling a buffer

    [at_pos pre tail] is a buffer filled up to [pre]. *)
Lemma addEntry_fits pre tail e :
  name_ok e.1 -> record_size e.1 <= Z.of_nat (length tail) ->
  exists r tail', addEntry (Z.of_nat (length pre)) (Z.of_nat (length (pre ++ tail))) e.2.1 e.2.2 e.1 (pre ++ tail)
                  = Done (record_size e.1, Z.of_nat (length (pre ++ r)), (pre ++ r) ++ tail')
    /\ is_record r e /\ length (pre ++ tail) = length ((pre ++ r) ++ tail').
Proof.
  intros (_ & Hn & _) Hfit. destruct e as [n [ino type]]. cbn [fst snd] in *. pose proof (record_size_pos n).
  destruct (split_length tail (Z.to_nat (record_size n)) ltac:(lia)) as (x & tail' & -> & Hx).
  destruct (set_dirent_record pre x tail' n ino type Hn ltac:(lia)) as (r & Hset & Hr). exists r, tail'.
  assert (Hlr : length r = length x) by (destruct Hr as (? & ? & _ & Hl & _); cbn [fst] in Hl; lia).
  unfold addEntry. fold (record_size n). destruct (Z.ltb_spec (Z.of_nat (length (pre ++ x ++ tail')) - Z.of_nat (length pre)) (record_size n)) as [Hlt|_];
    [rewrite !length_app in Hlt; lia|].
  rewrite Hset. cbn [mbind outcome_bind]. split; [|split; [done|rewrite !length_app; lia]].
  rewrite <- app_assoc. do 3 f_equal. rewrite length_app. lia.
Qed.

Lemma addEntry_full pre tail e :
  Z.of_nat (length tail) < record_size e.1 ->
  addEntry (Z.of_nat (length pre)) (Z.of_nat (length (pre ++ tail))) e.2.1 e.2.2 e.1 (pre ++ tail) = Done (-1, Z.of_nat (length pre), pre ++ tail).
Proof. intros Hfit. unfold addEntry. fold (record_size e.1). rewrite (proj2 (Z.ltb_lt _ _)); [done|]. rewrite length_app. lia. Qed.

Lemma addDefaultEntries_records pre x ino up :
  length x = Z.to_nat (2 * direntHeaderSize) -> forall tail,
  exists r1 r2, addDefaultEntries (Z.of_nat (length pre)) ino up (pre ++ x ++ tail)
                = Done (2 * direntHeaderSize, Z.of_nat (length (pre ++ r1 ++ r2)), (pre ++ r1 ++ r2) ++ tail)
    /\ is_record r1 (dot, (ino, DT_DIR)) /\ is_record r2 (dotdot, (up, DT_DIR)) /\ length (r1 ++ r2) = length x.
Proof.
  intros Hx tail. destruct (split_length x (Z.to_nat direntHeaderSize) ltac:(rewrite Hx; apply Z2Nat.inj_le; done)) as (x1 & x2 & -> & H1).
  rewrite length_app, H1 in Hx. change (Z.to_nat (2 * direntHeaderSize)) with 48%nat in Hx. change (Z.to_nat direntHeaderSize) with 24%nat in *.
  destruct (set_dirent_record pre x1 (x2 ++ tail) dot ino DT_DIR ltac:(repeat constructor; done) ltac:(by rewrite H1)) as (r1 & Hs1 & Hr1).
  assert (Hl1 : length r1 = 24%nat) by (destruct Hr1 as (? & ? & _ & Hl & _); change (record_size _) with 24 in Hl; lia).
  destruct (set_dirent_record (pre ++ r1) x2 tail dotdot up DT_DIR ltac:(repeat constructor; done) ltac:(replace (length x2) with 24%nat by lia; done)) as (r2 & Hs2 & Hr2).
  assert (Hl2 : length r2 = 24%nat) by (destruct Hr2 as (? & ? & _ & Hl & _); change (record_size _) with 24 in Hl; lia).
  exists r1, r2. split; [|split_and!; [done..|rewrite !length_app; lia]].
  unfold addDefaultEntries. change (record_size dot) with direntHeaderSize in Hs1. rewrite <- (app_assoc x1), Hs1. cbn [mbind outcome_bind].
  replace (Z.of_nat (length pre) + direntHeaderSize) with (Z.of_nat (length (pre ++ r1))) by (rewrite length_app, Hl1; change direntHeaderSize with 24; lia).
  change (record_size dotdot) with direntHeaderSize in Hs2. rewrite (app_assoc pre r1), Hs2. cbn [mbind outcome_bind].
  rewrite <- !app_assoc. do 3 f_equal. rewrite !length_app, Hl2. change direntHeaderSize with 24. lia.
Qed.

(** As many entries as fit. *)
Lemma add_entries_fill l : forall pre tail,
  Forall entry_ok l ->
  exists recs added left tail',
    add_entries l (Z.of_nat (length pre)) (Z.of_nat (length (pre ++ tail))) (pre ++ tail)
      = Done (head left, Z.of_nat (length (pre ++ concat recs)), (pre ++ concat recs) ++ tail')
    /\ l = added ++ left /\ Forall2 is_record recs added /\ length (pre ++ tail) = length ((pre ++ concat recs) ++ tail')
    /\ (added = [] -> match l with e :: _ => Z.of_nat (length tail) < record_size e.1 | [] => True end).
Proof.
  induction l as [|e l IH]; intros pre tail Hok.
  - exists [], [], [], tail. cbn. rewrite app_nil_r. by split_and!.
  - inversion Hok as [|?? He Hl]; subst. cbn [add_entries]. destruct (Z.le_gt_cases (record_size e.1) (Z.of_nat (length tail))) as [Hfit|Hfull].
    + destruct (addEntry_fits pre tail e (proj1 He) Hfit) as (r & tail1 & Hadd & Hr & Hlen). rewrite Hadd. cbn [mbind outcome_bind].
      rewrite (proj2 (Z.ltb_lt _ _) (record_size_pos e.1)), Hlen.
      destruct (IH (pre ++ r) tail1 Hl) as (recs & added & left & tail' & Heq & -> & Hrecs & Hlen' & _). rewrite Heq.
      exists (r :: recs), (e :: added), left, tail'. cbn [concat]. rewrite (app_assoc pre). split_and!; [done|done|by constructor|done|done].
    + rewrite addEntry_full by lia. cbn [mbind outcome_bind]. exists [], [], (e :: l), tail. cbn. rewrite app_nil_r. split_and!; [done..|lia].
Qed.

Lemma addTerminatingEntry_spec pre tail :
  exists z tail' r, addTerminatingEntry (Z.of_nat (length pre)) (Z.of_nat (length (pre ++ tail))) (pre ++ tail)
                    = Done (r, Z.of_nat (length (pre ++ z)), (pre ++ z) ++ tail')
    /\ (z = [] /\ Z.of_nat (length tail) < direntHeaderSize \/ z = replicate (Z.to_nat direntHeaderSize) 0)
    /\ length (pre ++ tail) = length ((pre ++ z) ++ tail').
Proof.
  unfold addTerminatingEntry. destruct (Z.ltb_spec (Z.of_nat (length (pre ++ tail)) - Z.of_nat (length pre)) direntHeaderSize) as [Hf|Hf];
    rewrite length_app in Hf.
  - exists [], tail, (-1). rewrite !app_nil_r. split_and!; [done|left; split; [done|lia]|done].
  - destruct (split_length tail (Z.to_nat direntHeaderSize) ltac:(lia)) as (x & tail' & -> & Hx).
    set (z := replicate (Z.to_nat direntHeaderSize) 0). assert (Hz : length z = length x) by (unfold z; by rewrite length_replicate).
    exists z, tail', direntHeaderSize. rewrite (set_bytes_mid pre x z) by done. cbn [mbind outcome_bind]. rewrite <- app_assoc.
    split_and!; [|by right|rewrite !length_app; lia]. do 3 f_equal. rewrite length_app, Hz, Hx. change direntHeaderSize with 24. lia.
Qed.

(** ** The calls of a reader *)

Definition default_entries (d : directory) : list entry := [(dot, (currentInode d, DT_DIR)); (dotdot, (parentInode d, DT_DIR))].

(** What a directory that is being read has left. *)
Definition reading (entries : list entry) (rem : list entry) (d : directory) : Prop :=
  last d = false /\ currentItem d = match rem with e :: _ => e.1 | [] => [] end /\ exists prev, entries = prev ++ rem.

Lemma find_entry_here prev e l : NoDup (prev ++ e :: l).*1 -> find_entry e.1 (prev ++ e :: l) = e :: l.
Proof.
  induction prev as [|x prev IH]; intros Hnd; cbn [app find_entry] in *; [by rewrite decide_True|].
  rewrite fmap_cons in Hnd. apply NoDup_cons in Hnd as [Hx Hnd]. rewrite decide_False; [by apply IH|].
  intros E. apply Hx. rewrite E. apply list_elem_of_fmap. exists e. split; [done|]. apply elem_of_app. right. by left.
Qed.

Section reading.
Context (entries : list entry) (len : Z).
Context (Hok : Forall entry_ok entries) (Hnd : NoDup entries.*1).

Lemma finish_gives pre tail d :
  exists b z, finish (Z.of_nat (length pre)) (Z.of_nat (length (pre ++ tail))) (pre ++ tail) d = Done (Z.of_nat (length (pre ++ z)), b, set_last true d)
    /\ take (length (pre ++ z)) b = pre ++ z /\ (z = [] /\ Z.of_nat (length tail) < direntHeaderSize \/ z = replicate (Z.to_nat direntHeaderSize) 0).
Proof.
  destruct (addTerminatingEntry_spec pre tail) as (z & tail' & r & Heq & Hz & _). unfold finish. rewrite Heq. cbn [mbind outcome_bind].
  exists ((pre ++ z) ++ tail'), z. split_and!; [done|by rewrite take_app_length|done].
Qed.

(** [list_items] adds a part of what is left; and if nothing was in the
    buffer, which has room for one, not an empty part. *)
Lemma list_items_gives recs0 l0 tail rem d :
  len = Z.of_nat (length (concat recs0 ++ tail)) -> Forall2 is_record recs0 l0 -> Forall entry_ok l0 ->
  reading entries rem d -> first d = false ->
  exists r b d' added left, list_items entries (Z.of_nat (length (concat recs0))) len (concat recs0 ++ tail) d = Done (r, b, d')
    /\ parse_buffer (take (Z.to_nat r) b) = l0 ++ added /\ rem = added ++ left
    /\ (l0 = [] -> match rem with [] => direntHeaderSize <= Z.of_nat (length tail) | e :: _ => record_size e.1 <= Z.of_nat (length tail) end -> 0 < r)
    /\ Z.of_nat (length (concat recs0)) <= r
    /\ (left <> [] -> match rem with [] => True | e :: _ => record_size e.1 <= Z.of_nat (length tail) end -> added <> [])
    /\ first d' = false /\ (match left with [] => last d' = true | _ => reading entries left d' end).
Proof.
  intros -> Hr0 Hl0 (Hlast & Hcur & prev & Hent) Hfirst. unfold list_items. rewrite Hcur. destruct rem as [|e rem].
  - destruct (finish_gives (concat recs0) tail d) as (b & z & Heq & Htake & Hz). rewrite Heq.
    eexists _, b, _, [], []. split; [done|]. rewrite Nat2Z.id, Htake, app_nil_r. rewrite !length_app. split_and!; [|done| |lia|done|done|done].
    + apply parse_buffer_records; [done..|]. destruct Hz as [[-> _]| ->]; auto.
    + intros _ Ht. destruct Hz as [[-> Hz]| ->]; [lia|]. rewrite length_replicate. change (Z.to_nat direntHeaderSize) with 24%nat. lia.
  - assert (Heok : Forall entry_ok (e :: rem)) by (rewrite Hent in Hok; by apply Forall_app in Hok as [_ ?]).
    assert (Hne : e.1 <> []) by (inversion Heok as [|?? [[? _] _]]; subst; done). destruct e.1 as [|c n] eqn:En; [done|]. rewrite <- En in *. clear Hne.
    rewrite Hent in Hnd. rewrite Hent, find_entry_here by done.
    destruct (add_entries_fill (e :: rem) (concat recs0) tail Heok) as (recs & added & left & tail' & Heq & Hsplit & Hrecs & Hlen & Hnone).
    rewrite Heq. cbn [mbind outcome_bind]. assert (Hall : Forall2 is_record (recs0 ++ recs) (l0 ++ added)) by by apply Forall2_app.
    assert (Hadd : Forall entry_ok (added ++ left)) by by rewrite <- Hsplit. pose proof (proj1 (Forall_app _ _ _) Hadd) as [Haok Hlok].
    assert (Hall' : Forall entry_ok (l0 ++ added)) by by apply Forall_app.
    assert (Hsome : record_size e.1 <= Z.of_nat (length tail) -> added <> []) by (intros Hs ->; specialize (Hnone eq_refl); lia).
    assert (Hpos : record_size e.1 <= Z.of_nat (length tail) -> (0 < length (concat recs))%nat).
    { intros Hs. specialize (Hsome Hs). pose proof (concat_records_length recs added Hrecs). destruct Hrecs; [done|]. simpl in *. lia. }
    rewrite Hlen. rewrite <- concat_app in *. destruct left as [|e' left]; cbn [head].
    + destruct (finish_gives (concat (recs0 ++ recs)) tail' d) as (b & z & Heq' & Htake & Hz). rewrite Heq'.
      eexists _, b, _, added, []. split; [done|]. rewrite Nat2Z.id, Htake. rewrite concat_app, !length_app. split_and!; [|done| |lia|done|done|done].
      * rewrite <- concat_app. apply parse_buffer_records; [done..|]. destruct Hz as [[-> _]| ->]; auto.
      * intros _ Hs. specialize (Hpos Hs). lia.
    + eexists _, _, _, added, (e' :: left). split; [done|]. rewrite Nat2Z.id, take_app_length. rewrite concat_app, !length_app. split_and!; [|done| |lia| |done|].
      * rewrite <- concat_app, <- (app_nil_r (concat _)). apply parse_buffer_records; auto.
      * intros _ Hs. specialize (Hpos Hs). lia.
      * intros _ Hs. by apply Hsome.
      * split; [done|]. split; [|exists (prev ++ added); by rewrite <- app_assoc, <- Hsplit].
        cbn. inversion Hlok as [|?? [(_ & Hc & _) _] _]; subst. by apply c_str_name.
Qed.

Context (Hmin : minimumBufferSize <= len) (Hfits : Forall (fun e => record_size e.1 <= len) entries).

Definition inodes_ok (d : directory) : Prop := 0 <= currentInode d < 2 ^ 32 /\ 0 <= parentInode d < 2 ^ 32.
Definition defaults (d : directory) : list entry := if first d then default_entries d else [].

Lemma getdents_gives b rem d :
  Z.of_nat (length b) = len -> reading entries rem d -> (first d = true \/ rem <> []) -> (first d = true -> inodes_ok d) ->
  exists r b' d' added left, getdents entries len b d = Done (r, b', d') /\ 0 < r
    /\ parse_buffer (take (Z.to_nat r) b') = defaults d ++ added /\ rem = added ++ left
    /\ (length left + (if first d' then 1 else 0) < length rem + (if first d then 1 else 0) \/ left = [])%nat
    /\ first d' = false /\ (match left with [] => last d' = true | _ => reading entries left d' end).
Proof.
  intros Hb Hread Hmore Hino. pose proof Hread as (Hlast & Hcur & prev & Hent).
  assert (Hhead : match rem with [] => True | e :: _ => record_size e.1 <= len end).
  { destruct rem as [|e rem]; [done|]. rewrite Hent in Hfits. apply Forall_app in Hfits as [_ Hf]. by inversion Hf; subst. }
  unfold getdents, defaults. rewrite (proj2 (Z.ltb_ge _ _)), Hlast by done. destruct (first d) eqn:Hfirst.
  - destruct (split_length b (Z.to_nat (2 * direntHeaderSize))) as (x & tail & -> & Hx).
    { change (Z.to_nat (2 * direntHeaderSize)) with 48%nat. change minimumBufferSize with 72 in Hmin. lia. }
    destruct (addDefaultEntries_records [] x (currentInode d) (parentInode d) Hx tail) as (r1 & r2 & Hadd & Hr1 & Hr2 & Hlen).
    cbn [app length] in Hadd. change (Z.of_nat 0) with 0 in Hadd. rewrite Hadd. cbn [mbind outcome_bind].
    assert (Hlen' : len = Z.of_nat (length (concat [r1; r2] ++ tail))) by (cbn [concat]; rewrite app_nil_r; rewrite !length_app in *; lia).
    assert (Hok0 : Forall entry_ok (default_entries d)).
    { destruct (Hino eq_refl). repeat constructor; cbn [fst snd]; try done; lia. }
    replace (r1 ++ r2) with (concat [r1; r2]) by (cbn [concat]; by rewrite app_nil_r).
    destruct (list_items_gives [r1; r2] (default_entries d) tail rem (set_first false d) Hlen' ltac:(repeat constructor; done) Hok0
      ltac:(split_and!; [done|done|by exists prev]) eq_refl) as (r & b' & d' & added & left & Heq & Hp & Hs & _ & Hge & _ & Hf & Hl).
    exists r, b', d', added, left. split; [done|]. rewrite Hf. split_and!; [|done|done| |done|done].
    + revert Hge. cbn [concat]. rewrite app_nil_r, Hlen, Hx. change (Z.to_nat (2 * direntHeaderSize)) with 48%nat. lia.
    + left. rewrite Hs, length_app. lia.
  - destruct Hmore as [?|Hne]; [done|].
    destruct (list_items_gives [] [] b rem d ltac:(done) ltac:(constructor) ltac:(constructor) Hread Hfirst)
      as (r & b' & d' & added & left & Heq & Hp & Hs & Hpos & _ & Hadd & Hf & Hl).
    exists r, b', d', added, left. split; [done|]. rewrite Hf. rewrite Hb in Hpos, Hadd. split_and!; [| done|done| |done|done].
    + apply Hpos; [done|]. by destruct rem.
    + destruct left as [|e' left]; [by right|]. left. specialize (Hadd ltac:(done) Hhead). rewrite Hs, length_app.
      destruct added; [done|]. simpl. lia.
Qed.

Lemma read_all_ended n bufs d : last d = true -> read_all (S n) entries len bufs d = Done [].
Proof. intros Hl. cbn [read_all]. unfold getdents. by rewrite (proj2 (Z.ltb_ge _ _)), Hl by done. Qed.

Lemma read_all_gives n : forall bufs d rem,
  (forall k, Z.of_nat (length (bufs k)) = len) -> reading entries rem d -> (first d = true \/ rem <> []) -> (first d = true -> inodes_ok d) ->
  (length rem + (if first d then 1 else 0) < n)%nat ->
  exists chunks, read_all n entries len bufs d = Done chunks /\ concat (map parse_buffer chunks) = defaults d ++ rem.
Proof.
  induction n as [|n IH]; intros bufs d rem Hb Hread Hmore Hino Hn; [lia|].
  destruct (getdents_gives (bufs n) rem d (Hb n) Hread Hmore Hino) as (r & b' & d' & added & left & Heq & Hr & Hp & Hs & Hprog & Hf & Hl).
  cbn [read_all]. rewrite Heq. cbn [mbind outcome_bind]. rewrite (proj2 (Z.leb_gt _ _)) by done.
  destruct left as [|e left].
  - destruct n as [|n]; [|rewrite read_all_ended by done; eexists; split; [done|]; cbn; by rewrite Hs, Hp, !app_nil_r].
    destruct Hmore as [Hm|Hm]; [rewrite Hm in Hn; lia|]. destruct rem; [done|simpl in Hn; lia].
  - destruct Hprog as [Hprog|]; [|done].
    rewrite Hf in Hprog. destruct (IH bufs d' (e :: left) Hb Hl ltac:(by right) ltac:(by rewrite Hf) ltac:(rewrite Hf; lia)) as (chunks & Hrun & Hc).
    rewrite Hrun. eexists. split; [done|]. cbn [map concat]. rewrite Hc, Hp, Hs. unfold defaults at 2. by rewrite Hf, <- app_assoc.
Qed.

End reading.

Lemma strcmp_le_total a b : strcmp_le a b = true \/ strcmp_le b a = true.
Proof.
  revert b. induction a as [|x a IH]; intros [|y b]; simpl; auto.
  destruct (Z.ltb_spec x y), (Z.ltb_spec y x); simpl; auto. rewrite (Z.eqb_sym y x). destruct (Z.eqb_spec x y); [|lia]. apply IH.
Qed.

Lemma strcmp_le_trans a b c : strcmp_le a b = true -> strcmp_le b c = true -> strcmp_le a c = true.
Proof.
  revert b c. induction a as [|x a IH]; intros [|y b] [|z c]; simpl; auto; [done..|]. intros Hab Hbc.
  destruct (Z.ltb_spec x y), (Z.ltb_spec y z), (Z.ltb_spec x z), (Z.eqb_spec x y), (Z.eqb_spec y z), (Z.eqb_spec x z);
    simpl in *; try done; try lia. by apply (IH b).
Qed.

#[export] Instance key_le_total {A} : Total (key_le (A := A)).
Proof. intros a b. apply strcmp_le_total. Qed.
#[export] Instance key_le_trans {A} : Transitive (key_le (A := A)).
Proof. intros a b c. apply strcmp_le_trans. Qed.

Lemma in_order_sorted {A} (m : gmap str A) : StronglySorted key_le (in_order m).
Proof. apply StronglySorted_merge_sort; apply _. Qed.

(** It is about the names alone. *)
Lemma sorted_names {A B} (l : list (str * A)) (r : list (str * B)) : r.*1 = l.*1 -> StronglySorted key_le l -> StronglySorted key_le r.
Proof.
  intros E Hs. revert r E. induction Hs as [|e l _ IH Hle]; intros [|x r] E; try done; [constructor|].
  rewrite !fmap_cons in E. injection E as Hx Hr. constructor; [by apply IH|]. clear IH. revert r Hr.
  induction Hle as [|y l Hy _ IH]; intros [|z r] Hr; try done. rewrite !fmap_cons in Hr. injection Hr as Hz Hr.
  constructor; [|by apply IH]. unfold key_le in *. by rewrite Hx, Hz.
Qed.

Lemma in_order_permutation {A} (m : gmap str A) : in_order m ≡ₚ map_to_list m.
Proof. apply merge_sort_Permutation. Qed.

Lemma in_order_elem {A} (m : gmap str A) n a : (n, a) ∈ in_order m <-> m !! n = Some a.
Proof. rewrite in_order_permutation. apply elem_of_map_to_list. Qed.

Lemma in_order_NoDup {A} (m : gmap str A) : NoDup (in_order m).*1.
Proof. rewrite in_order_permutation. apply NoDup_fst_map_to_list. Qed.

Lemma listing_gives entries len bufs currentInode parentInode :
  Forall entry_ok entries -> NoDup entries.*1 -> 0 <= currentInode < 2 ^ 32 -> 0 <= parentInode < 2 ^ 32 ->
  minimumBufferSize <= len -> Forall (fun e => record_size e.1 <= len) entries -> (forall k, Z.of_nat (length (bufs k)) = len) ->
  exists chunks, read_all (length entries + 2) entries len bufs (new_directory entries true currentInode parentInode) = Done chunks
    /\ concat (map parse_buffer chunks) = (dot, (currentInode, DT_DIR)) :: (dotdot, (parentInode, DT_DIR)) :: entries.
Proof.
  intros Hok Hnd Hc Hp Hmin Hfits Hb.
  apply (read_all_gives entries len Hok Hnd Hmin Hfits _ bufs (new_directory entries true currentInode parentInode) entries Hb); [|by left|done|cbn; lia].
  split_and!; [done| |by exists []]. destruct entries as [|e entries]; [done|]. cbn. inversion Hok as [|?? [(_ & Hn & _) _] _]; subst. by apply c_str_name.
Qed.

(** A directory is listed completely: a program that calls [getdents]
    until there is no more, with buffers that hold three entries without a name and
    each entry of the directory, gets [.], [..] and every entry once, in order, with
    its inode and type, however they are distributed on the buffers. *)
Theorem listing_complete entries len bufs currentInode parentInode :
  Forall entry_ok entries -> NoDup entries.*1 -> 0 <= currentInode < 2 ^ 32 -> 0 <= parentInode < 2 ^ 32 ->
  minimumBufferSize <= len -> Forall (fun e => record_size e.1 <= len) entries -> (forall k, Z.of_nat (length (bufs k)) = len) ->
  exists chunks, read_all (length entries + 2) entries len bufs (new_directory entries true currentInode parentInode) = Done chunks
    /\ concat (map parse_buffer chunks) = (dot, (currentInode, DT_DIR)) :: (dotdot, (parentInode, DT_DIR)) :: entries.
Proof. apply listing_gives. Qed.

(** Three files in buffers of 72 bytes, that hold anything. *)
Definition ex_entries : list entry := [([97], (7, 2)); ([98; 99], (8, 6)); (replicate 40 100, (300000, 4))].

Example ex_listing :
  (match read_all 5 ex_entries 72 (fun k => replicate 72 (Z.of_nat k)) (new_directory ex_entries true 1 1) with
   | Done chunks => (map length chunks, concat (map parse_buffer chunks)) | Fault _ => ([], []) end)
  = ([72; 24; 60]%nat, (dot, (1, 4)) :: (dotdot, (1, 4)) :: ex_entries).
Proof. vm_compute. reflexivity. Qed.

(** An entry that does not fit in a buffer ends the listing: the program sees
    [.] and [..], then no error and no more entries. *)
Example ex_long_name :
  (match read_all 5 [(replicate 60 100, (7, 2)); ([101], (8, 2))] 72 (fun k => replicate 72 1) (new_directory [(replicate 60 100, (7, 2)); ([101], (8, 2))] true 1 1) with
   | Done chunks => concat (map parse_buffer chunks) | Fault _ => [] end) = [(dot, (1, 4)); (dotdot, (1, 4))].
Proof. vm_compute. reflexivity. Qed.

Lemma listing_complete_witness :
  exists chunks, read_all 5 ex_entries 72 (fun k => replicate 72 (Z.of_nat k)) (new_directory ex_entries true 1 1) = Done chunks
    /\ concat (map parse_buffer chunks) = (dot, (1, 4)) :: (dotdot, (1, 4)) :: ex_entries.
Proof.
  apply (listing_complete ex_entries 72 (fun k => replicate 72 (Z.of_nat k)) 1 1); [|by apply (bool_decide_unpack _); vm_compute|done..| |done].
  - assert (Hn : forall c, (0 < c < 256) -> Forall (fun c => 0 < c < 256) (replicate 40 c)) by (intros c Hc; by apply Forall_replicate).
    unfold ex_entries. repeat constructor; cbn [fst snd]; try done; try lia.
  - unfold ex_entries. repeat constructor; done.
Defined.

End Directories.
