(* ===== verification/MountpointFs.v ===== *)
(** * The filesystem of mount points

    Class [MountpointFs] of [filesystem/mountpointfs/mountpointfs.cpp]: one level
    of empty directories, to mount other filesystems on.  The mutex is held in each
    function.  A name is the path in the filesystem; the root's is empty. *)
From stdpp Require Import sorting.
From S2P Require Import Prelude Errors Bytes Directories.
Import Directories.

Local Open Scope Z_scope.

Module MountpointFs.

Definition ENOENT : Z := 2.
Definition EACCES : Z := 13.
Definition EEXIST : Z := 17.

(** The flags of [open] of the C library. *)
Definition O_WRONLY : Z := 1.
Definition O_RDWR : Z := 2.
Definition O_APPEND : Z := 0x8.
Definition O_CREAT : Z := 0x200.
Definition O_TRUNC : Z := 0x400.

Definition slash : Z := 47.

(** [struct stat]. *)
Record stat := mkStat { st_dev : Z; st_ino : Z; st_mode : Z; st_nlink : Z; st_blksize : Z }.
Definition S_IFDIR : Z := 0x4000.

Definition rootDirInode : Z := 1.

(** [filesystemId] and [parentFsMountpointInode] are of [FilesystemBase]. *)
Record mountpointfs := mkMountpointFs { dirs : gmap str Z; inodeCount : Z; filesystemId : Z }.

Definition construct (filesystemId : Z) : mountpointfs := mkMountpointFs ∅ (rootDirInode + 1) filesystemId.
Definition set_dirs (m : gmap str Z) (f : mountpointfs) : mountpointfs := mkMountpointFs m (inodeCount f) (filesystemId f).

(** [MountpointFsDirectory]: the entries it lists, and its constructor. *)
Definition dir_entries (m : gmap str Z) : list entry := map (fun e => (e.1, (e.2, DT_DIR))) (in_order m).
Definition MountpointFsDirectory (m : gmap str Z) (root : bool) (currentInode parentInode : Z) : directory :=
  new_directory (dir_entries m) root currentInode parentInode.
Definition getdents (f : mountpointfs) : Z -> bytes -> directory -> exec (Z * bytes * directory) := Directories.getdents (dir_entries (dirs f)).

(** [open], given [parentFsMountpointInode]: the result, and the directory that is stored. *)
Definition open (up : Z) (name : str) (flags : Z) (f : mountpointfs) : Z * option directory :=
  if negb (Z.land flags (Z.lor O_WRONLY (Z.lor O_RDWR (Z.lor O_APPEND (Z.lor O_CREAT O_TRUNC)))) =? 0) then (- EACCES, None)
  else
    match name with
    | [] => (0, Some (MountpointFsDirectory (dirs f) true rootDirInode up))
    | _ =>
        match dirs f !! name with
        | None => (- EACCES, None)
        | Some i => (0, Some (MountpointFsDirectory (dirs f) false i rootDirInode))
        end
    end.

Definition dir_stat (f : mountpointfs) (ino : Z) : stat := mkStat (filesystemId f) ino (Z.lor S_IFDIR 0x1ed) 1 512.

Definition lstat (name : str) (f : mountpointfs) : Z * option stat :=
  match name with
  | [] => (0, Some (dir_stat f rootDirInode))
  | _ => match dirs f !! name with None => (- ENOENT, None) | Some i => (0, Some (dir_stat f i)) end
  end.

Definition unlink (name : str) (f : mountpointfs) : Z * mountpointfs := (- ENOENT, f).

Definition has_slash (name : str) : bool := bool_decide (slash ∈ name).

Definition rename (oldName newName : str) (f : mountpointfs) : Z * mountpointfs :=
  match dirs f !! oldName with
  | None => (- ENOENT, f)
  | Some i =>
      if has_slash newName then (- EACCES, f)
      else (0, set_dirs (delete oldName (<[newName:=i]> (dirs f))) f)
  end.

(** The counter is an [int]. *)
Definition INT_MAX : Z := 2 ^ 31 - 1.

Definition mkdir (name : str) (f : mountpointfs) : exec (Z * mountpointfs) :=
  if has_slash name then Done (- EACCES, f)
  else
    match dirs f !! name with
    | Some _ => Done (- EEXIST, f)
    | None =>
        if inodeCount f <? INT_MAX then
          Done (0, mkMountpointFs (<[name:=inodeCount f]> (dirs f)) (inodeCount f + 1) (filesystemId f))
        else Fault Undefined
    end.

Definition rmdir (name : str) (f : mountpointfs) : Z * mountpointfs :=
  match dirs f !! name with Some _ => (0, set_dirs (delete name (dirs f)) f) | None => (- ENOENT, f) end.

(** ** Runs *)
Inductive op := Mkdir (name : str) | Rmdir (name : str) | Rename (oldName newName : str) | Unlink (name : str).

Definition step (x : op) (f : mountpointfs) : exec (Z * mountpointfs) :=
  match x with
  | Mkdir n => mkdir n f
  | Rmdir n => Done (rmdir n f)
  | Rename a b => Done (rename a b f)
  | Unlink n => Done (unlink n f)
  end.

Fixpoint run (xs : list op) (f : mountpointfs) : exec mountpointfs :=
  match xs with [] => Done f | x :: xs => '(_, f) ← step x f; run xs f end.

(** ** Invariant

    A directory keeps its inode, which no other has, nor the root; its name has
    no slash. *)
Record ok (f : mountpointfs) : Prop := Ok {
  inodes_distinct : forall a b i, dirs f !! a = Some i -> dirs f !! b = Some i -> a = b;
  inodes_bound : forall a i, dirs f !! a = Some i -> rootDirInode < i < inodeCount f;
  count_bound : rootDirInode < inodeCount f <= INT_MAX;
  names_ok : forall a, is_Some (dirs f !! a) -> (slash ∉ a) /\ name_ok a;
}.

(** The names the manager passes: characters of a path. *)
Definition op_ok (x : op) : Prop :=
  match x with Mkdir n => name_ok n | Rename a b => name_ok b | Rmdir _ | Unlink _ => True end.

Lemma ok_construct id : ok (construct id).
Proof. split; simpl; [intros a b i; by rewrite lookup_empty|intros a i; by rewrite lookup_empty|done|intros a [i Hi]; by rewrite lookup_empty in Hi]. Qed.

Lemma has_slash_false n : has_slash n = false -> slash ∉ n.
Proof. unfold has_slash. by rewrite bool_decide_eq_false. Qed.

Lemma ok_mkdir n f : ok f -> name_ok n -> inodeCount f < INT_MAX ->
  exists r f', mkdir n f = Done (r, f') /\ ok f' /\ inodeCount f' <= inodeCount f + 1.
Proof.
  intros Hf Hn Hc. unfold mkdir. destruct (has_slash n) eqn:Hs; [eexists _, _; split; [done|split; [done|lia]]|].
  destruct (dirs f !! n) eqn:Hd; [eexists _, _; split; [done|split; [done|lia]]|].
  rewrite (proj2 (Z.ltb_lt _ _)) by done. eexists _, _. split; [done|]. split; [|simpl; lia]. destruct Hf as [Hdist Hb Hcb Hns].
  split; cbn [dirs inodeCount filesystemId].
  - intros a b i. rewrite !lookup_insert. repeat case_decide; intros Ha Hb'; simplify_eq; try done; try (by eapply Hdist).
    all: match goal with H : _ !! _ = Some _ |- _ => apply Hb in H; lia end.
  - intros a i. rewrite lookup_insert. case_decide; intros Ha; simplify_eq; [lia|]. apply Hb in Ha. lia.
  - lia.
  - intros a. rewrite lookup_insert. case_decide; [|apply Hns]. subst. intros _. split; [by apply has_slash_false|done].
Qed.

Lemma ok_rmdir n f : ok f -> ok (rmdir n f).2.
Proof.
  intros Hf. unfold rmdir. destruct (dirs f !! n); [|done]. destruct Hf as [Hd Hb Hc Hns]. split; simpl.
  - intros a b i [_ Ha]%lookup_delete_Some [_ Hb']%lookup_delete_Some. by eapply Hd.
  - intros a i [_ Ha]%lookup_delete_Some. by eapply Hb.
  - done.
  - intros a [i [_ Ha]%lookup_delete_Some]. apply Hns. by exists i.
Qed.

Lemma dirs_rename_ok a b f : ok f -> name_ok b -> ok (rename a b f).2.
Proof.
  intros Hf Hname. unfold rename. destruct (dirs f !! a) as [i|] eqn:Hi; [|done]. destruct (has_slash b) eqn:Hs; [done|].
  destruct Hf as [Hd Hb Hc Hns]. split; cbn [snd set_dirs dirs inodeCount].
  - intros x y j Hx%lookup_delete_Some Hy%lookup_delete_Some. revert Hx Hy. rewrite !lookup_insert.
    repeat case_decide; intros [Hax Hx] [Hay Hy]; simplify_eq; try done; [| |by eapply Hd].
    all: match goal with H : _ !! _ = Some _ |- _ => by destruct (Hd _ _ _ Hi H) end.
  - intros x j [_ Hx]%lookup_delete_Some. revert Hx. rewrite lookup_insert. case_decide; intros Hx; simplify_eq; by eapply Hb.
  - done.
  - intros x [j [_ Hx]%lookup_delete_Some]. revert Hx. rewrite lookup_insert. case_decide; [|intros Hx; apply Hns; by exists j].
    subst. intros _. split; [by apply has_slash_false|done].
Qed.

Lemma dirs_step_ok x f : ok f -> op_ok x -> inodeCount f < INT_MAX ->
  exists r f', step x f = Done (r, f') /\ ok f' /\ inodeCount f' <= inodeCount f + 1.
Proof.
  intros Hf Hx Hc. destruct x as [n|n|a b|n]; simpl in *; [by apply ok_mkdir|..].
  - eexists _, _. rewrite (surjective_pairing (rmdir n f)). split; [done|]. split; [by apply ok_rmdir|]. unfold rmdir. case_match; simpl; lia.
  - eexists _, _. rewrite (surjective_pairing (rename a b f)). split; [done|]. split; [by apply dirs_rename_ok|].
    unfold rename. repeat case_match; simpl; lia.
  - eexists _, _. split; [done|]. split; [done|lia].
Qed.

Lemma dirs_run_ok xs : forall f, ok f -> Forall op_ok xs -> inodeCount f + Z.of_nat (length xs) <= INT_MAX -> exists f', run xs f = Done f' /\ ok f'.
Proof.
  induction xs as [|x xs IH]; intros f Hf Hxs Hc; [by exists f|]. cbn [length] in Hc. inversion Hxs as [|?? Hx Hxs']; subst.
  destruct (dirs_step_ok x f Hf Hx ltac:(lia)) as (r & f' & Hs & Hf' & Hi). cbn [run]. rewrite Hs. cbn [mbind outcome_bind]. apply IH; [done|done|lia].
Qed.

(** ** Listing *)
Lemma dir_entries_names m : (dir_entries m).*1 = (in_order m).*1.
Proof. unfold dir_entries. rewrite <- list_fmap_compose. by apply list_fmap_ext. Qed.

Lemma dir_entries_ok f : ok f -> Forall entry_ok (dir_entries (dirs f)).
Proof.
  intros [Hd Hb Hc Hn]. apply Forall_map, Forall_forall. intros [n i] Hni. apply in_order_elem in Hni. unfold entry_ok. cbn [fst snd].
  destruct (Hn n ltac:(by exists i)) as [_ Hname]. apply Hb in Hni. unfold rootDirInode, INT_MAX in *. split; [done|]. unfold DT_DIR. lia.
Qed.

Lemma dir_entries_length m : length (dir_entries m) = size m.
Proof. unfold dir_entries. rewrite length_map, in_order_permutation. apply length_map_to_list. Qed.

Lemma dir_entries_sorted m : StronglySorted key_le (dir_entries m).
Proof. apply (sorted_names (in_order m)); [apply dir_entries_names|apply in_order_sorted]. Qed.

(** What [lstat] says of the names in a listing, and the other way round. *)
Definition agree (f : mountpointfs) (l : list entry) : Prop :=
  forall n i t, (n, (i, t)) ∈ l <-> n <> [] /\ lstat n f = (0, Some (dir_stat f i)) /\ t = DT_DIR.

Lemma dir_entries_agree f : ok f -> agree f (dir_entries (dirs f)).
Proof.
  intros Hf n i t. unfold dir_entries. split.
  - intros ([n' i'] & [= -> -> ->] & Hin)%list_elem_of_fmap. apply in_order_elem in Hin.
    destruct (names_ok f Hf n' ltac:(by exists i')) as [_ [Hne _]]. split; [done|]. unfold lstat. destruct n'; [done|]. by rewrite Hin.
  - intros (Hne & Hst & ->). apply list_elem_of_fmap. exists (n, i). split; [done|]. apply in_order_elem. unfold lstat in Hst.
    destruct n; [done|]. destruct (dirs f !! _) as [j|]; [|done]. by injection Hst as ->.
Qed.

(** After any operations (fewer than an [int] can count) every directory
    has an inode of its own, not the root's, and no slash in its name; and listing the
    root, with buffers that hold its names, gives [.], [..] and exactly the names [lstat] finds,
    in order, with their inodes; a directory in it is empty. *)
Theorem mountpoints_listed id xs :
  Forall op_ok xs -> Z.of_nat (length xs) < INT_MAX - 2 ->
  exists f, run xs (construct id) = Done f /\ ok f /\
    forall up len bufs,
      0 <= up < 2 ^ 32 -> minimumBufferSize <= len -> (forall k, Z.of_nat (length (bufs k)) = len) ->
      map_Forall (fun n _ => record_size n <= len) (dirs f) ->
      (exists d l chunks, open up [] 0 f = (0, Some d) /\ read_all (size (dirs f) + 2) (dir_entries (dirs f)) len bufs d = Done chunks /\
         concat (map parse_buffer chunks) = (dot, (rootDirInode, DT_DIR)) :: (dotdot, (up, DT_DIR)) :: l /\
         agree f l /\ NoDup l.*1 /\ StronglySorted key_le l) /\
      (forall n i, n <> [] -> dirs f !! n = Some i ->
         exists d chunks, open up n 0 f = (0, Some d) /\ read_all 2 (dir_entries (dirs f)) len bufs d = Done chunks /\
           concat (map parse_buffer chunks) = [(dot, (i, DT_DIR)); (dotdot, (rootDirInode, DT_DIR))]).
Proof.
  intros Hxs Hlen. destruct (dirs_run_ok xs (construct id) (ok_construct id) Hxs) as (f & Hrun & Hf).
  { cbn. unfold INT_MAX, rootDirInode in *. lia. }
  exists f. split; [done|]. split; [done|]. intros up len bufs Hup Hmin Hb Hfit.
  pose proof (dir_entries_ok f Hf) as Hok. pose proof (in_order_NoDup (dirs f)) as Hnd. rewrite <- dir_entries_names in Hnd.
  assert (Hfits : Forall (fun e => record_size e.1 <= len) (dir_entries (dirs f))).
  { apply Forall_map, Forall_forall. intros [n i] Hni. apply in_order_elem in Hni. by apply (Hfit n i). }
  split.
  - set (l := dir_entries (dirs f)) in *. set (d := MountpointFsDirectory (dirs f) true rootDirInode up).
    destruct (listing_gives l len bufs rootDirInode up) as (chunks & Hr & Hc); [done..|]. unfold l in Hr at 1. rewrite dir_entries_length in Hr.
    exists d, l, chunks. split_and!; [done|done|done|by apply dir_entries_agree|done|apply dir_entries_sorted].
  - intros n i Hn Hi. set (d := MountpointFsDirectory (dirs f) false i rootDirInode).
    pose proof (inodes_bound f Hf n i Hi) as Hi'. pose proof (count_bound f Hf) as Hcb. unfold rootDirInode, INT_MAX in Hi', Hcb.
    destruct (read_all_gives (dir_entries (dirs f)) len Hok Hnd Hmin Hfits 2 bufs d []) as (chunks & Hr & Hc).
    + done.
    + split_and!; [done|by cbn; destruct (dir_entries (dirs f))|exists (dir_entries (dirs f)); by rewrite app_nil_r].
    + by left.
    + intros _. unfold inodes_ok, d, MountpointFsDirectory, new_directory, rootDirInode. cbn [currentInode parentInode]. lia.
    + cbn. lia.
    + exists d, chunks. split_and!; [|done|by rewrite Hc]. unfold open. simpl negb. destruct n; [done|]. by rewrite Hi.
Qed.

(** Two directories, of which one is renamed, and a third. *)
Definition ex_ops : list op := [Mkdir [115; 100]; Mkdir [100; 101; 118]; Mkdir [97; 47; 98]; Rename [115; 100] [98]; Rmdir [120]; Mkdir [98]; Mkdir [97]].

Definition ex_fs : option mountpointfs := match run ex_ops (construct 3) with Done f => Some f | Fault _ => None end.

Example ex_dirs_listing :
  (f ← ex_fs; match read_all 5 (dir_entries (dirs f)) 100 (fun _ => replicate 100 7) (MountpointFsDirectory (dirs f) true 1 9) with
   | Done chunks => Some (inodeCount f, concat (map parse_buffer chunks)) | Fault _ => None end)
  = Some (5, [(dot, (1, 4)); (dotdot, (9, 4)); ([97], (4, 4)); ([98], (2, 4)); ([100; 101; 118], (3, 4))]).
Proof. vm_compute. reflexivity. Qed.

(** A directory can be renamed to itself only if the manager allows it, which
    it does not: the filesystem would delete it. *)
Example ex_rename_same : (f ← ex_fs; Some (map_to_list (dirs (rename [97] [97] f).2))) = Some [([100; 101; 118], 3); ([98], 2)].
Proof. vm_compute. reflexivity. Qed.

Lemma ex_ops_ok : Forall op_ok ex_ops.
Proof. unfold ex_ops. repeat constructor; done. Qed.

Lemma mountpoints_listed_witness :
  exists f, run ex_ops (construct 3) = Done f /\
    exists chunks, read_all 5 (dir_entries (dirs f)) 100 (fun _ => replicate 100 7) (MountpointFsDirectory (dirs f) true 1 9) = Done chunks /\
      (exists l, concat (map parse_buffer chunks) = (dot, (1, DT_DIR)) :: (dotdot, (9, DT_DIR)) :: l /\ agree f l).
Proof.
  destruct (mountpoints_listed 3 ex_ops ex_ops_ok ltac:(done)) as (f & Hr & _ & Hl). exists f. split; [exact Hr|].
  destruct (Hl 9 100 (fun _ => replicate 100 7) ltac:(done) ltac:(done) ltac:(done)) as [(d & l & chunks & Ho & Hread & Hc & Ha & _) _].
  - vm_compute in Hr. injection Hr as <-. apply (bool_decide_unpack _). vm_compute. exact I.
  - injection Ho as <-. exists chunks. split; [|exists l; exact (conj Hc Ha)].
    vm_compute in Hr. injection Hr as <-. exact Hread.
Defined.

End MountpointFs.
