(* ===== verification/DevFs.v ===== *)
(** * The filesystem of devices

    Classes [DevFs], [Device], [DevFsFile] and [DevFsDirectory] of
    [filesystem/devfs/devfs.cpp] and [devfs.h]: devices with names, and files
    that keep a position in a device.  What a device does is a parameter, with the
    functions of class [Device] itself.  The mutex is held in each function; the
    reference counts are those of RefPtr, so a device stays as long as it is used. *)
From stdpp Require Import sorting.
From S2P Require Import Prelude Errors Bytes Directories MountpointFs.
Import Directories.

Local Open Scope Z_scope.

Module DevFs.

Import MountpointFs (stat, mkStat, st_dev, st_ino, st_mode, st_nlink, st_blksize, S_IFDIR, has_slash,
  ENOENT, EACCES, O_WRONLY, O_RDWR, O_APPEND, rootDirInode).

Definition EBADF : Z := 9.
Definition EINVAL : Z := 22.
Definition ENOTTY : Z := 25.
Definition EOVERFLOW : Z := 139.
Definition O_EXCL : Z := 0x800.
Definition S_IFCHR : Z := 0x2000.
Definition S_IFBLK : Z := 0x6000.

(** ** Devices *)
Inductive DeviceType := STREAM | BLOCK | TTY.
#[export] Instance DeviceType_dec : EqDecision DeviceType.
Proof. solve_decision. Defined.

Record device := mkDevice { d_st_ino : Z; d_st_dev : Z; seekable : bool; block : bool; tty : bool }.

(** The constructor leaves the inode and the filesystem as they are in memory. *)
Definition construct_device (memory : Z * Z) (d : DeviceType) : device :=
  mkDevice memory.1 memory.2 (bool_decide (d = BLOCK)) (bool_decide (d = BLOCK)) (bool_decide (d = TTY)).
Definition setFileInfo (ino dev : Z) (d : device) : device := mkDevice ino dev (seekable d) (block d) (tty d).

Definition fillStatHelper (st_ino st_dev mode : Z) : stat := mkStat st_dev st_ino mode 1 0.

Definition device_fstat (d : device) : stat :=
  fillStatHelper (d_st_ino d) (d_st_dev d) (Z.lor (if block d then S_IFBLK else S_IFCHR) 0x1e8).
Definition device_isatty (d : device) : Z := if tty d then 1 else 0.

(** ** The filesystem *)
Record devfs := mkDevFs {
  files : gmap str positive;
  devices : gmap positive device;  (**r the objects *)
  inodeCount : Z;
  filesystemId : Z;
}.

Definition set_files (m : gmap str positive) (f : devfs) : devfs := mkDevFs m (devices f) (inodeCount f) (filesystemId f).

(** [atomicAddExchange] on an [int]. *)
Definition next_inode (i : Z) : Z := s32 (i + 1).

Definition name_refused (name : option str) : bool := match name with None | Some [] => true | Some n => has_slash n end.

Definition addDevice (name : option str) (dev : option positive) (f : devfs) : exec (bool * devfs) :=
  if name_refused name then Done (false, f)
  else
    n ← deref name;
    match files f !! n with
    | Some _ => Done (false, f)
    | None =>
        p ← deref dev; d ← deref (devices f !! p);
        Done (true, mkDevFs (<[n:=p]> (files f)) (<[p:=setFileInfo (u32 (inodeCount f)) (filesystemId f) d]> (devices f))
                      (next_inode (inodeCount f)) (filesystemId f))
    end.

(** [new Device(...)]. *)
Definition new_device (p : positive) (memory : Z * Z) (d : DeviceType) (f : devfs) : devfs :=
  mkDevFs (files f) (<[p:=construct_device memory d]> (devices f)) (inodeCount f) (filesystemId f).

Definition null_name : str := [110; 117; 108; 108].
Definition zero_name : str := [122; 101; 114; 111].

(** The constructor, where [objects] are the devices there are. *)
Definition construct (id : Z) (memory : Z * Z) (objects : gmap positive device) : exec devfs :=
  let f := mkDevFs ∅ objects (rootDirInode + 1) id in
  let null := fresh (dom (devices f)) in
  '(_, f) ← addDevice (Some null_name) (Some null) (new_device null memory STREAM f);
  let zero := fresh (dom (devices f)) in
  '(_, f) ← addDevice (Some zero_name) (Some zero) (new_device zero memory STREAM f);
  Done f.

Definition remove (name : option str) (f : devfs) : bool * devfs :=
  match name with
  | None | Some [] => (false, f)
  | Some n => match files f !! n with None => (false, f) | Some _ => (true, set_files (delete n (files f)) f) end
  end.

(** ** Files

    [_FREAD] and [_FWRITE] are the access mode plus one. *)
Definition FREAD : Z := 1.
Definition FWRITE : Z := 2.
Definition NOSEEK : Z := 0x20000.

Record devfile := mkDevFile { dev : positive; seekPoint : Z; flags : Z }.
Inductive file := Device (f : devfile) | Directory (d : directory).

Definition device_open (p : positive) (d : device) (flags : Z) : devfile :=
  mkDevFile p 0 (Z.lor (flags + 1) (if seekable d then 0 else NOSEEK)).

(** [DevFsDirectory]: the entries, and the constructor. *)
Definition dir_entry (f : devfs) (e : str * positive) : exec entry :=
  d ← deref (devices f !! e.2);
  let st := device_fstat d in
  Done (e.1, (st_ino st, Z.shiftr (st_mode st) 12)).

Fixpoint map_exec {A B} (g : A -> exec B) (l : list A) : exec (list B) :=
  match l with [] => Done [] | x :: l => y ← g x; r ← map_exec g l; Done (y :: r) end.

Definition dir_entries (f : devfs) : exec (list entry) := map_exec (dir_entry f) (in_order (files f)).

Definition DevFsDirectory (f : devfs) (currentInode parentInode : Z) : exec directory :=
  l ← dir_entries f; Done (new_directory l true currentInode parentInode).
Definition getdents (f : devfs) (len : Z) (b : bytes) (d : directory) : exec (Z * bytes * directory) :=
  l ← dir_entries f; Directories.getdents l len b d.

Definition open (up : Z) (name : str) (flags : Z) (f : devfs) : exec (Z * option file) :=
  if negb (Z.land flags (Z.lor O_APPEND O_EXCL) =? 0) then Done (- EACCES, None)
  else
    match name with
    | [] =>
        if negb (Z.land flags (Z.lor O_WRONLY O_RDWR) =? 0) then Done (- EACCES, None)
        else d ← DevFsDirectory f rootDirInode up; Done (0, Some (Directory d))
    | _ =>
        match files f !! name with
        | None => Done (- ENOENT, None)
        | Some p => d ← deref (devices f !! p); Done (0, Some (Device (device_open p d flags)))
        end
    end.

Definition lstat (name : str) (f : devfs) : exec (Z * option stat) :=
  match name with
  | [] => Done (0, Some (fillStatHelper rootDirInode (filesystemId f) (Z.lor S_IFDIR 0x1ed)))
  | _ =>
      match files f !! name with
      | None => Done (- ENOENT, None)
      | Some p => d ← deref (devices f !! p); Done (0, Some (device_fstat d))
      end
  end.

Definition unlink (name : str) (f : devfs) : Z * devfs :=
  match files f !! name with Some _ => (0, set_files (delete name (files f)) f) | None => (- ENOENT, f) end.

(** The iterator of the old name is not valid any more when the names are the same. *)
Definition rename (oldName newName : str) (f : devfs) : exec (Z * devfs) :=
  match files f !! oldName with
  | None => Done (- ENOENT, f)
  | Some _ =>
      if has_slash newName then Done (- EACCES, f)
      else
        let m := delete newName (files f) in
        p ← deref (m !! oldName);
        Done (0, set_files (delete oldName (<[newName:=p]> m)) f)
  end.

Definition mkdir (name : str) (mode : Z) (f : devfs) : Z * devfs := (- EACCES, f).
Definition rmdir (name : str) (f : devfs) : Z * devfs := (- EACCES, f).

(** ** [DevFsFile] *)
Definition OFF_MAX : Z := 2 ^ 63 - 1.

(** What the size becomes when the end would be after the last position; a [size_t] has 32 bits. *)
Definition transfer_size (len seekPoint : Z) : Z :=
  if s64 (seekPoint + len) <? 0 then u32 (OFF_MAX - seekPoint - len) else len.

(** The result, [ssize_t], and the file. *)
Definition advance (result : Z) (f : devfile) : devfile :=
  if (0 <? result) && (Z.land (flags f) NOSEEK =? 0) then mkDevFile (dev f) (s64 (seekPoint f + result)) (flags f) else f.

Definition lseek (pos whence : Z) (f : devfile) : Z * devfile :=
  if negb (Z.land (flags f) NOSEEK =? 0) then (- EBADF, f)
  else
    match (if whence =? 1 then Some (s64 (seekPoint f + pos)) else if whence =? 0 then Some pos else None) with
    | None => (- EINVAL, f)
    | Some newSeekPoint =>
        if newSeekPoint <? 0 then (- EOVERFLOW, f) else (newSeekPoint, mkDevFile (dev f) newSeekPoint (flags f))
    end.

(** The virtual functions of a device, on a state of them all: a buffer, the
    size to transfer, the position. *)
Class Blocks (W : Type) := {
  readBlock : positive -> bytes -> Z -> Z -> W -> exec (Z * bytes * W);
  writeBlock : positive -> bytes -> Z -> Z -> W -> exec (Z * W);
}.

Section device_files.
Context {W : Type} `{Blocks W}.

Definition write (data : bytes) (len : Z) (f : devfile) (w : W) : exec (Z * devfile * W) :=
  if Z.land (flags f) FWRITE =? 0 then Done (- EINVAL, f, w)
  else
    '(result, w) ← writeBlock (dev f) data (transfer_size len (seekPoint f)) (seekPoint f) w;
    Done (result, advance result f, w).

Definition read (data : bytes) (len : Z) (f : devfile) (w : W) : exec (Z * bytes * devfile * W) :=
  if Z.land (flags f) FREAD =? 0 then Done (- EINVAL, data, f, w)
  else
    '(result, data, w) ← readBlock (dev f) data (transfer_size len (seekPoint f)) (seekPoint f) w;
    Done (result, data, advance result f, w).

End device_files.

(** The functions of class [Device]: [/dev/zero] and [/dev/null]. *)
Definition default_readBlock (buffer : bytes) (size where_ : Z) : exec (Z * bytes) :=
  b ← set_bytes buffer 0 (replicate (Z.to_nat size) 0); Done (s32 size, b).
Definition default_writeBlock (buffer : bytes) (size where_ : Z) : Z := s32 size.
Definition default_ioctl (cmd : Z) : Z := - ENOTTY.

#[export] Instance plain_devices : Blocks () := {
  readBlock p b size where_ w := '(r, b) ← default_readBlock b size where_; Done (r, b, w);
  writeBlock p b size where_ w := Done (default_writeBlock b size where_, w);
}.

(** ** Runs of the filesystem *)
Inductive op :=
| NewDevice (p : positive) (memory : Z * Z) (d : DeviceType)
| AddDevice (name : str) (p : positive)
| Remove (name : str)
| Unlink (name : str)
| Rename (oldName newName : str).

Definition step (x : op) (f : devfs) : exec devfs :=
  match x with
  | NewDevice p m d => Done (new_device p m d f)
  | AddDevice n p => '(_, f) ← addDevice (Some n) (Some p) f; Done f
  | Remove n => Done (remove (Some n) f).2
  | Unlink n => Done (unlink n f).2
  | Rename a b => '(_, f) ← rename a b f; Done f
  end.

Fixpoint run (xs : list op) (f : devfs) : exec devfs := match xs with [] => Done f | x :: xs => f ← step x f; run xs f end.

(** What the callers do: an object is allocated once, and added after that;
    the manager does not rename a file to itself. *)
Definition op_ok (x : op) (f : devfs) : Prop :=
  match x with
  | NewDevice p _ _ => devices f !! p = None
  | AddDevice n p => is_Some (devices f !! p) /\ name_ok n
  | Rename a b => a <> b /\ name_ok b
  | Remove _ | Unlink _ => True
  end.
Fixpoint run_ok (xs : list op) (f : devfs) : Prop :=
  match xs with [] => True | x :: xs => op_ok x f /\ forall f', step x f = Done f' -> run_ok xs f' end.

(** ** Invariant *)
Definition INT_MAX : Z := 2 ^ 31 - 1.

Definition registered (f : devfs) (d : device) : Prop := d_st_dev d = filesystemId f /\ rootDirInode < d_st_ino d < inodeCount f.

Record ok (f : devfs) : Prop := Ok {
  known : forall n p, files f !! n = Some p -> exists d, devices f !! p = Some d /\ registered f d;
  distinct : forall a b p q d e, files f !! a = Some p -> files f !! b = Some q -> devices f !! p = Some d -> devices f !! q = Some e ->
    d_st_ino d = d_st_ino e -> p = q;
  count_bound : rootDirInode < inodeCount f <= INT_MAX;
  names_ok : forall n, is_Some (files f !! n) -> (MountpointFs.slash ∉ n) /\ name_ok n;
}.

Lemma ok_subset m f : ok f -> (forall n p, m !! n = Some p -> exists n', files f !! n' = Some p) ->
  (forall n, is_Some (m !! n) -> (MountpointFs.slash ∉ n) /\ name_ok n) -> ok (set_files m f).
Proof.
  intros Hf Hm Hn. split; cbn [files devices inodeCount filesystemId set_files].
  - intros n p Hp. destruct (Hm n p Hp) as [n' Hp']. exact (known f Hf n' p Hp').
  - intros a b p q d e Ha Hb. destruct (Hm a p Ha) as [a' Ha'], (Hm b q Hb) as [b' Hb']. by apply (distinct f Hf a' b').
  - apply (count_bound f Hf).
  - done.
Qed.

Lemma ok_delete n f : ok f -> ok (set_files (delete n (files f)) f).
Proof.
  intros Hf. apply ok_subset; [done|..].
  - intros a p [_ Ha]%lookup_delete_Some. by exists a.
  - intros a [p [_ Ha]%lookup_delete_Some]. apply (names_ok f Hf). by exists p.
Qed.

Lemma ok_new p m d f : ok f -> devices f !! p = None -> ok (new_device p m d f).
Proof.
  intros Hf Hp. assert (Hne : forall n q, files f !! n = Some q -> q <> p) by (intros n q Hq ->; destruct (known f Hf n p Hq) as (? & ? & _); congruence).
  split; cbn [files devices inodeCount filesystemId new_device].
  - intros n q Hq. destruct (known f Hf n q Hq) as (e & He & Hr). exists e. rewrite lookup_insert_ne by (symmetry; by eapply Hne). done.
  - intros a b q r e g Ha Hb. rewrite !lookup_insert_ne by (symmetry; by eapply Hne). by apply (distinct f Hf a b).
  - apply (count_bound f Hf).
  - apply (names_ok f Hf).
Qed.

Lemma ok_add n p f :
  ok f -> is_Some (devices f !! p) -> name_ok n -> inodeCount f < INT_MAX ->
  exists r f', addDevice (Some n) (Some p) f = Done (r, f') /\ ok f' /\ inodeCount f' <= inodeCount f + 1.
Proof.
  intros Hf [d Hd] Hn Hc. unfold addDevice.   replace (name_refused (Some n)) with (has_slash n) by (by destruct n; [destruct Hn|]).
  destruct (has_slash n) eqn:Hs; [eexists _, _; split; [done|split; [done|lia]]|]. cbn [deref mbind outcome_bind].
  destruct (files f !! n) eqn:Hfn; [eexists _, _; split; [done|split; [done|lia]]|]. rewrite Hd. cbn [deref mbind outcome_bind].
  pose proof (count_bound f Hf) as Hcb. unfold rootDirInode, INT_MAX in *.
  assert (Hi : next_inode (inodeCount f) = inodeCount f + 1) by (apply wrapS_small; lia).
  assert (Hu : u32 (inodeCount f) = inodeCount f) by (apply wrapU_small; lia).
  eexists _, _. split; [done|]. split; [|cbn [inodeCount]; lia]. split; cbn [files devices inodeCount filesystemId].
  all: rewrite ?Hi, ?Hu.
  - intros a q. rewrite lookup_insert. case_decide as Ha; intros Hq.
    + injection Hq as <-. eexists. rewrite lookup_insert_eq. split; [done|]. split; cbn; [done|]. unfold rootDirInode. lia.
    + destruct (known f Hf a q Hq) as (e & He & Hdev & Hino). rewrite lookup_insert. case_decide; subst.
      * eexists. split; [done|]. split; cbn; [done|]. unfold rootDirInode. lia.
      * exists e. split; [done|]. split; cbn; [done|]. lia.
  - assert (Hkey : forall a q e, <[n:=p]> (files f) !! a = Some q -> <[p:=setFileInfo (inodeCount f) (filesystemId f) d]> (devices f) !! q = Some e ->
      q = p /\ d_st_ino e = inodeCount f \/ q <> p /\ d_st_ino e < inodeCount f /\ (exists a, files f !! a = Some q) /\ devices f !! q = Some e).
    { intros a q e. rewrite !lookup_insert. repeat case_decide; intros Ha He; simplify_eq; auto.
      right. destruct (known f Hf a q Ha) as (e' & He' & _ & Hino). rewrite He in He'. injection He' as <-. split_and!; [done|lia|by exists a|done]. }
    intros a b q r e g Ha Hb He Hg Heq. destruct (Hkey a q e Ha He) as [[-> Hqe]|(Hq & Hqe & [a' Ha'] & He')], (Hkey b r g Hb Hg) as [[-> Hrg]|(Hr & Hrg & [b' Hb'] & Hg')];
      try done; try lia. by apply (distinct f Hf a' b' q r e g).
  - unfold rootDirInode, INT_MAX. lia.
  - intros a. rewrite lookup_insert. case_decide; [|apply (names_ok f Hf)]. subst. intros _. split; [by apply MountpointFs.has_slash_false|done].
Qed.

Lemma ok_rename a b f : ok f -> a <> b -> name_ok b -> exists r f', rename a b f = Done (r, f') /\ ok f' /\ inodeCount f' = inodeCount f.
Proof.
  intros Hf Hab Hb. unfold rename. destruct (files f !! a) as [p|] eqn:Ha; [|by eexists _, _]. destruct (has_slash b) eqn:Hs; [by eexists _, _|].
  rewrite lookup_delete_ne by done. rewrite Ha. cbn [deref mbind outcome_bind]. eexists _, _. split; [done|]. split; [|done].
  apply ok_subset; [done|..].
  - intros n q [_ Hq]%lookup_delete_Some. revert Hq. rewrite lookup_insert. case_decide; [intros [= <-]; by exists a|].
    intros [_ Hq]%lookup_delete_Some. by exists n.
  - intros n [q [_ Hq]%lookup_delete_Some]. revert Hq. rewrite lookup_insert. case_decide; [|intros [_ Hq]%lookup_delete_Some; apply (names_ok f Hf); by exists q].
    subst. intros _. split; [by apply MountpointFs.has_slash_false|done].
Qed.

Lemma ok_step x f : ok f -> op_ok x f -> inodeCount f < INT_MAX -> exists f', step x f = Done f' /\ ok f' /\ inodeCount f' <= inodeCount f + 1.
Proof.
  intros Hf Hx Hc. assert (Hle : inodeCount f <= inodeCount f + 1) by lia. destruct x as [p m d|n p|n|n|a b]; cbn [step op_ok] in *.
  - eexists. split; [done|]. split; [by apply ok_new|done].
  - destruct Hx as [Hp Hn]. destruct (ok_add n p f Hf Hp Hn Hc) as (r & f' & Heq & Hf' & Hi). rewrite Heq. by exists f'.
  - eexists. split; [done|]. unfold remove. destruct n as [|c n]; [by split|]. case_match; [split; [by apply ok_delete|done]|split; [done|done]].
  - eexists. split; [done|]. unfold unlink. case_match; [split; [by apply ok_delete|done]|split; [done|done]].
  - destruct Hx as [Hab Hb]. destruct (ok_rename a b f Hf Hab Hb) as (r & f' & Heq & Hf' & Hi). rewrite Heq. exists f'. split; [done|]. split; [done|lia].
Qed.

Lemma ok_run xs : forall f, ok f -> run_ok xs f -> inodeCount f + Z.of_nat (length xs) <= INT_MAX -> exists f', run xs f = Done f' /\ ok f'.
Proof.
  induction xs as [|x xs IH]; intros f Hf Hxs Hc; [by exists f|]. cbn [length] in Hc. destruct Hxs as [Hx Hxs].
  destruct (ok_step x f Hf Hx ltac:(lia)) as (f' & Hs & Hf' & Hi). cbn [run]. rewrite Hs. cbn [mbind outcome_bind]. apply IH; [done|by apply Hxs|lia].
Qed.

Lemma construct_ok id memory objects : exists f, construct id memory objects = Done f /\ ok f /\ inodeCount f <= 4.
Proof.
  unfold construct. set (f0 := mkDevFs ∅ objects (rootDirInode + 1) id).
  assert (Hadd : forall n f, ok f -> name_ok n -> inodeCount f < INT_MAX -> exists r f',
    addDevice (Some n) (Some (fresh (dom (devices f)))) (new_device (fresh (dom (devices f))) memory STREAM f) = Done (r, f') /\ ok f' /\ inodeCount f' <= inodeCount f + 1).
  { intros n f Hf Hn Hc. apply (ok_add n _ (new_device (fresh (dom (devices f))) memory STREAM f)); [|eexists; apply lookup_insert_eq|done|done]. apply ok_new; [done|]. apply not_elem_of_dom, is_fresh. }
  assert (Hf0 : ok f0).
  { split; cbn [f0 files devices inodeCount]; [intros n p|intros a b p q d e|done|intros n [p Hp]; revert Hp]; by rewrite lookup_empty. }
  assert (Hname : forall n, Forall (fun c => 0 < c < 256) n -> (length n = 4)%nat -> name_ok n).
  { intros n Hn Hl. destruct n as [|c n]; [done|]. split; [done|]. split; [done|]. unfold record_size. by rewrite Hl. }
  destruct (Hadd null_name f0 Hf0) as (r & f1 & E1 & H1 & I1); [apply Hname; [repeat constructor|]; done|done|]. rewrite E1. cbn [mbind outcome_bind].
  cbn [f0 inodeCount] in I1. unfold rootDirInode in I1.
  destruct (Hadd zero_name f1 H1) as (r' & f2 & E2 & H2 & I2); [apply Hname; [repeat constructor|]; done|unfold INT_MAX; lia|]. rewrite E2. cbn [mbind outcome_bind].
  exists f2. split; [done|]. split; [done|lia].
Qed.

(** Adding a device under a new name. *)
Lemma addDevice_new n p d f :
  n <> [] -> has_slash n = false -> files f !! n = None -> devices f !! p = Some d ->
  addDevice (Some n) (Some p) f = Done (true, mkDevFs (<[n:=p]> (files f)) (<[p:=setFileInfo (u32 (inodeCount f)) (filesystemId f) d]> (devices f))
                                                (next_inode (inodeCount f)) (filesystemId f)).
Proof. intros Hn Hs Hf Hd. unfold addDevice. destruct n; [done|]. cbn [name_refused deref mbind outcome_bind]. by rewrite Hs, Hf, Hd. Qed.

Lemma construct_names id memory objects :
  exists f x y, construct id memory objects = Done f /\ files f = <[zero_name:=y]> {[null_name:=x]} /\ (forall p, is_Some (objects !! p) -> is_Some (devices f !! p)).
Proof.
  unfold construct. cbn [devices]. set (x := fresh (dom objects)).
  erewrite (addDevice_new null_name x) by (first [done|apply lookup_insert_eq]). cbn [mbind outcome_bind new_device files devices inodeCount filesystemId].
  set (objs := <[x:=_]> (<[x:=_]> objects)). set (y := fresh (dom objs)).
  erewrite (addDevice_new zero_name y) by (first [done|apply lookup_insert_eq]). cbn [mbind outcome_bind new_device files devices inodeCount filesystemId].
  eexists _, x, y. split; [done|]. split; [done|]. intros p Hp. cbn [devices]. unfold objs. rewrite !lookup_insert_is_Some'. auto.
Qed.

(** ** Names, devices and listings *)
Lemma map_exec_gives {A B} (g : A -> exec B) l : (forall x, x ∈ l -> exists y, g x = Done y) -> exists r, map_exec g l = Done r /\ Forall2 (fun x y => g x = Done y) l r.
Proof.
  induction l as [|x l IH]; intros Hg; [by exists []|]. destruct (Hg x ltac:(by left)) as [y Hy]. destruct IH as (r & Hr & Hall); [intros z Hz; apply Hg; by right|].
  exists (y :: r). cbn [map_exec]. rewrite Hy. cbn [mbind outcome_bind]. rewrite Hr. split; [done|by constructor].
Qed.

Lemma lstat_known f n p : ok f -> files f !! n = Some p -> exists d, devices f !! p = Some d /\ registered f d /\ lstat n f = Done (0, Some (device_fstat d)).
Proof.
  intros Hf Hp. destruct (known f Hf n p Hp) as (d & Hd & Hr). exists d. split; [done|]. split; [done|].
  destruct (names_ok f Hf n ltac:(by exists p)) as [_ [Hne _]]. unfold lstat. destruct n; [done|]. by rewrite Hp, Hd.
Qed.

Lemma type_of d : Z.shiftr (st_mode (device_fstat d)) 12 = if block d then 6 else 2.
Proof. unfold device_fstat. by destruct (block d). Qed.

(** A listing and [lstat] agree. *)
Definition agree (f : devfs) (l : list entry) : Prop :=
  forall n i t, (n, (i, t)) ∈ l <-> n <> [] /\ exists st, lstat n f = Done (0, Some st) /\ st_ino st = i /\ Z.shiftr (st_mode st) 12 = t.

Lemma dir_entries_give f : ok f ->
  exists l, dir_entries f = Done l /\ Forall entry_ok l /\ NoDup l.*1 /\ agree f l /\ StronglySorted key_le l /\ l.*1 = (in_order (files f)).*1.
Proof.
  intros Hf. destruct (map_exec_gives (dir_entry f) (in_order (files f))) as (l & Hl & Hall).
  { intros [n p] Hp%in_order_elem. destruct (known f Hf n p Hp) as (d & Hd & _). unfold dir_entry. cbn [snd]. rewrite Hd. by eexists. }
  assert (Hentry : forall e x, dir_entry f e = Done x -> exists d, devices f !! e.2 = Some d /\ x = (e.1, (d_st_ino d, if block d then 6 else 2))).
  { intros e x. unfold dir_entry. destruct (devices f !! e.2) as [d|]; [|done]. cbn [deref mbind outcome_bind]. rewrite type_of. intros [= <-]. by exists d. }
  assert (Hin : forall e x, dir_entry f e = Done x -> x.1 = e.1) by (intros e x (d & _ & ->)%Hentry; done).
  assert (Hn : l.*1 = (in_order (files f)).*1).
  { clear Hl. induction Hall as [|e x l0 l Hex _ IH]; [done|]. rewrite !fmap_cons. f_equal; [by apply Hin|done]. }
  exists l. split; [done|]. split_and!; [|by rewrite Hn; apply in_order_NoDup| | |done].
  - apply Forall_forall. intros x Hx. apply list_elem_of_lookup in Hx as [k Hk]. destruct (Forall2_lookup_r _ _ _ _ _ Hall Hk) as ([n p] & Hk' & Hx).
    apply Hentry in Hx as (d & Hd & ->). assert (Hp : files f !! n = Some p) by (apply in_order_elem; by eapply list_elem_of_lookup_2).
    destruct (known f Hf n p Hp) as (d' & Hd' & _ & Hino). cbn [snd] in Hd. rewrite Hd in Hd'. injection Hd' as <-.
    destruct (names_ok f Hf n ltac:(by exists p)) as [_ Hname]. pose proof (count_bound f Hf) as Hcb. unfold rootDirInode, INT_MAX in *.
    unfold entry_ok. cbn [fst snd]. split; [done|]. split; [lia|]. by destruct (block d).
  - intros n i t. split.
    + intros [k Hk]%list_elem_of_lookup. destruct (Forall2_lookup_r _ _ _ _ _ Hall Hk) as ([n' p] & Hk' & Hx).
      apply Hentry in Hx as (d & Hd & [= -> -> ->]). assert (Hp : files f !! n' = Some p) by (apply in_order_elem; by eapply list_elem_of_lookup_2).
      destruct (names_ok f Hf n' ltac:(by exists p)) as [_ [Hne _]]. split; [done|].
      destruct (lstat_known f n' p Hf Hp) as (d' & Hd' & _ & Hst). cbn [snd] in Hd. rewrite Hd in Hd'. injection Hd' as <-.
      eexists. split; [done|]. split; [done|apply type_of].
    + intros (Hne & st & Hst & <- & <-). unfold lstat in Hst. destruct n as [|c n]; [done|]. set (m := c :: n) in *.
      destruct (files f !! m) as [p|] eqn:Hp; [|done]. destruct (devices f !! p) as [d|] eqn:Hd; [|done]. injection Hst as <-.
      assert (Hmp : (m, p) ∈ in_order (files f)) by by apply in_order_elem. apply list_elem_of_lookup in Hmp as [k Hk].
      destruct (Forall2_lookup_l _ _ _ _ _ Hall Hk) as (x & Hk' & Hx). apply Hentry in Hx as (d' & Hd' & ->). cbn [snd fst] in *.
      rewrite Hd in Hd'. injection Hd' as <-. rewrite type_of. by eapply list_elem_of_lookup_2.
  - apply (sorted_names (in_order (files f))); [done|apply in_order_sorted].
Qed.


(** ** Files on devices

    What a device does, by its documentation: given a buffer and its size, it returns the number of
    bytes transferred or a negative number. *)
Class DeviceContract (W : Type) `{Blocks W} := {
  read_contract : forall p b size where_ w, 0 <= size <= Z.of_nat (length b) -> 0 <= where_ <= OFF_MAX ->
    exists r b' w', readBlock p b size where_ w = Done (r, b', w') /\ r <= size /\ length b' = length b;
  write_contract : forall p b size where_ w, 0 <= size <= Z.of_nat (length b) -> 0 <= where_ <= OFF_MAX ->
    exists r w', writeBlock p b size where_ w = Done (r, w') /\ r <= size;
}.

(** [Device] itself. *)
#[export] Instance plain_contract : DeviceContract ().
Proof.
  assert (Hs : forall size, 0 <= size -> s32 size <= size).
  { intros size Hsize. unfold wrapS. pose proof (Z.mod_le size (2 ^ 32) Hsize eq_refl). destruct (Z.ltb_spec (size mod 2 ^ 32) (2 ^ (32 - 1))); lia. }
  split; intros p b size where_ w Hsize _.
  - cbn. unfold default_readBlock. rewrite set_bytes_in by (rewrite ?length_replicate; lia). cbn [mbind outcome_bind].
    eexists _, _, _. split; [done|]. split; [apply Hs; lia|]. rewrite !length_app, length_take, length_drop, length_replicate. lia.
  - eexists _, _. split; [done|]. apply Hs; lia.
Qed.

Inductive file_call := Read (b : bytes) | Write (b : bytes) | Seek (pos whence : Z).
Inductive answer := Got (b : bytes) | Wrote (n : Z) | At (pos : Z) | Failed (e : Z).

Section device_calls.
Context {W : Type} `{DeviceContract W}.

Definition call (x : file_call) (f : devfile) (w : W) : exec (answer * devfile * W) :=
  match x with
  | Read b => '(r, b, f, w) ← read b (Z.of_nat (length b)) f w; Done (if r <? 0 then Failed (- r) else Got (take (Z.to_nat r) b), f, w)
  | Write b => '(r, f, w) ← write b (Z.of_nat (length b)) f w; Done (if r <? 0 then Failed (- r) else Wrote r, f, w)
  | Seek pos whence => let '(r, f) := lseek pos whence f in Done (if r <? 0 then Failed (- r) else At r, f, w)
  end.
Fixpoint call_run (xs : list file_call) (f : devfile) (w : W) : exec (list answer * devfile * W) :=
  match xs with
  | [] => Done ([], f, w)
  | x :: xs => '(a, f, w) ← call x f w; '(l, f, w) ← call_run xs f w; Done (a :: l, f, w)
  end.

(** A call that does not go beyond the last position. *)
Definition call_ok (x : file_call) (f : devfile) : Prop :=
  match x with
  | Read b | Write b => seekPoint f + Z.of_nat (length b) <= OFF_MAX
  | Seek pos whence => - 2 ^ 63 <= pos <= OFF_MAX /\ (whence = 1 -> seekPoint f + pos <= OFF_MAX)
  end.
Fixpoint calls_ok (xs : list file_call) (f : devfile) (w : W) : Prop :=
  match xs with [] => True | x :: xs => call_ok x f /\ forall a f' w', call x f w = Done (a, f', w') -> calls_ok xs f' w' end.

(** The position that follows an answer. *)
Definition moved (a : answer) (f : devfile) : Z :=
  match a with
  | Got b => if Z.land (flags f) NOSEEK =? 0 then seekPoint f + Z.of_nat (length b) else seekPoint f
  | Wrote n => if Z.land (flags f) NOSEEK =? 0 then seekPoint f + n else seekPoint f
  | At p => p
  | Failed _ => seekPoint f
  end.
Definition fits (a : answer) (x : file_call) : Prop :=
  match a, x with
  | Got b, Read b' => (length b <= length b')%nat
  | Wrote n, Write b => 0 <= n <= Z.of_nat (length b)
  | At p, Seek _ _ => 0 <= p
  | Failed _, _ => True
  | _, _ => False
  end.

Lemma transfer_size_ok len pos : 0 <= pos -> 0 <= len -> pos + len <= OFF_MAX -> transfer_size len pos = len.
Proof.
  intros Hp Hl Hm. unfold OFF_MAX in Hm. unfold transfer_size. rewrite wrapS_small by (try change (2 ^ (64 - 1)) with (2 ^ 63); lia).
  destruct (Z.ltb_spec (pos + len) 0); [lia|done].
Qed.

(** Beyond the last position the size is not shortened: it becomes almost 4 GB. *)
Lemma transfer_size_exact len pos : 0 <= pos <= OFF_MAX -> 0 <= len < 2 ^ 32 ->
  transfer_size len pos = if pos + len <=? OFF_MAX then len else 2 ^ 32 - (pos + len - OFF_MAX).
Proof.
  intros Hp Hl. unfold transfer_size, OFF_MAX in *. destruct (Z.leb_spec (pos + len) (2 ^ 63 - 1)).
  - by apply transfer_size_ok; unfold OFF_MAX; lia.
  - assert (Hneg : s64 (pos + len) = pos + len - 2 ^ 64).
    { unfold wrapS. rewrite Z.mod_small by lia. change (64 - 1) with 63. by rewrite (proj2 (Z.ltb_ge _ _)) by lia. }
    rewrite Hneg, (proj2 (Z.ltb_lt _ _)) by lia. unfold wrapU. rewrite <- (Z_mod_plus_full (2 ^ 63 - 1 - pos - len) 1). rewrite Z.mod_small by lia. lia.
Qed.

Lemma advance_moves r f : 0 <= seekPoint f -> seekPoint f + r <= OFF_MAX ->
  dev (advance r f) = dev f /\ flags (advance r f) = flags f /\
  seekPoint (advance r f) = if (0 <? r) && (Z.land (flags f) NOSEEK =? 0) then seekPoint f + r else seekPoint f.
Proof.
  intros Hf Hr. unfold advance, OFF_MAX in *. case_match; [|done]. cbn [dev flags seekPoint]. split_and!; [done|done|]. apply wrapS_small; [done|].
  change (2 ^ (64 - 1)) with (2 ^ 63). apply andb_true_iff in H1 as [?%Z.ltb_lt _]. lia.
Qed.

Definition positioned (f : devfile) : Prop := 0 <= seekPoint f <= OFF_MAX.
Definition goes_on (x : file_call) (f : devfile) (w : W) : Prop :=
  exists a f' w', call x f w = Done (a, f', w') /\ fits a x /\ positioned f' /\ dev f' = dev f /\ flags f' = flags f /\ seekPoint f' = moved a f.

Lemma goes_on_failed x f w e : positioned f -> call x f w = Done (Failed e, f, w) -> goes_on x f w.
Proof. intros Hf Hc. eexists _, _, _. split; [exact Hc|]. by destruct x. Qed.

Lemma read_goes_on b f w : positioned f -> call_ok (Read b) f -> goes_on (Read b) f w.
Proof.
  intros Hf Hok. pose proof Hf as Hp. unfold positioned, call_ok in Hp, Hok. unfold OFF_MAX in *.
  destruct (Z.land (flags f) FREAD =? 0) eqn:Er; [apply (goes_on_failed _ _ _ EINVAL); [done|]; unfold call, read; by rewrite Er|].
  destruct (read_contract (dev f) b (Z.of_nat (length b)) (seekPoint f) w) as (r & b' & w' & Hr & Hle & Hl); [lia|unfold OFF_MAX; lia|].
  destruct (advance_moves r f) as (Hd & Hfl & Hs); [lia|unfold OFF_MAX; lia|].
  assert (Ht : transfer_size (Z.of_nat (length b)) (seekPoint f) = Z.of_nat (length b)) by (apply transfer_size_ok; unfold OFF_MAX; lia).
  unfold goes_on, call, read. rewrite Er, Ht, Hr. cbn [mbind outcome_bind]. eexists _, _, _. split; [done|]. rewrite Hd, Hfl. unfold positioned. rewrite Hs.
  destruct (Z.ltb_spec r 0); cbn [fits moved].
  - rewrite (proj2 (Z.ltb_ge 0 r)) by lia. cbn [andb]. unfold OFF_MAX; split_and!; try done; lia.
  - rewrite length_take. replace (Z.of_nat (Nat.min (Z.to_nat r) (length b'))) with r by lia.
    destruct (Z.ltb_spec 0 r), (Z.land (flags f) NOSEEK =? 0); cbn [andb]; unfold OFF_MAX; split_and!; try done; lia.
Qed.

Lemma write_goes_on b f w : positioned f -> call_ok (Write b) f -> goes_on (Write b) f w.
Proof.
  intros Hf Hok. pose proof Hf as Hp. unfold positioned, call_ok in Hp, Hok. unfold OFF_MAX in *.
  destruct (Z.land (flags f) FWRITE =? 0) eqn:Er; [apply (goes_on_failed _ _ _ EINVAL); [done|]; unfold call, write; by rewrite Er|].
  destruct (write_contract (dev f) b (Z.of_nat (length b)) (seekPoint f) w) as (r & w' & Hr & Hle); [lia|unfold OFF_MAX; lia|].
  destruct (advance_moves r f) as (Hd & Hfl & Hs); [lia|unfold OFF_MAX; lia|].
  assert (Ht : transfer_size (Z.of_nat (length b)) (seekPoint f) = Z.of_nat (length b)) by (apply transfer_size_ok; unfold OFF_MAX; lia).
  unfold goes_on, call, write. rewrite Er, Ht, Hr. cbn [mbind outcome_bind]. eexists _, _, _. split; [done|]. rewrite Hd, Hfl. unfold positioned. rewrite Hs.
  destruct (Z.ltb_spec r 0); cbn [fits moved]; destruct (Z.ltb_spec 0 r), (Z.land (flags f) NOSEEK =? 0); cbn [andb]; unfold OFF_MAX; split_and!; try done; lia.
Qed.

Lemma seek_goes_on pos whence f w : positioned f -> call_ok (Seek pos whence) f -> goes_on (Seek pos whence) f w.
Proof.
  intros Hf [Hpos Hcur]. pose proof Hf as Hp. unfold positioned, OFF_MAX in *.
  assert (Hbound : match (if whence =? 1 then Some (s64 (seekPoint f + pos)) else if whence =? 0 then Some pos else None) with Some p => p <= 2 ^ 63 - 1 | None => True end).
  { destruct (Z.eqb_spec whence 1); [|by destruct (Z.eqb_spec whence 0); [apply Hpos|]]. pose proof (wrapS_bound 64 (seekPoint f + pos) ltac:(done)). change (2 ^ (64 - 1)) with (2 ^ 63) in *. lia. }
  unfold goes_on, call, lseek. destruct (negb (Z.land (flags f) NOSEEK =? 0)); [eexists _, _, _; split; [done|]; by split_and!|].
  destruct (if whence =? 1 then _ else _) as [p|]; [|eexists _, _, _; split; [done|]; by split_and!].
  destruct (Z.ltb_spec p 0); [eexists _, _, _; split; [done|]; by split_and!|].
  rewrite (proj2 (Z.ltb_ge p 0)) by lia. eexists _, _, _. split; [done|]. unfold positioned, OFF_MAX. cbn. split_and!; try done.
Qed.

(** Reads, writes and seeks that do not go beyond the last position complete, on any device that keeps its contract: the position stays
    one of an [off_t], and is where the last answer puts it. *)
Theorem device_calls_complete xs : forall f w, positioned f -> calls_ok xs f w ->
  exists l f' w', call_run xs f w = Done (l, f', w') /\ Forall2 fits l xs /\ positioned f' /\ dev f' = dev f /\ flags f' = flags f.
Proof.
  induction xs as [|x xs IH]; intros f w Hf Hok; [by eexists _, _, _|]. destruct Hok as [Hx Hxs].
  assert (Hg : goes_on x f w) by (destruct x; [by apply read_goes_on|by apply write_goes_on|by apply seek_goes_on]).
  destruct Hg as (a & f1 & w1 & Hc & Ha & Hf1 & Hd & Hfl & _). destruct (IH f1 w1 Hf1 (Hxs _ _ _ Hc)) as (l & f2 & w2 & Hr & Hl & Hf2 & Hd2 & Hfl2).
  cbn [call_run]. rewrite Hc. cbn [mbind outcome_bind]. rewrite Hr. cbn [mbind outcome_bind]. eexists _, _, _. split; [done|]. split_and!; [by constructor|done|congruence|congruence].
Qed.

End device_calls.

(** At the last positions the size of a transfer becomes almost 4 GB. *)
Example ex_transfer_size : transfer_size 16 (OFF_MAX - 10) = 2 ^ 32 - 6.
Proof. reflexivity. Qed.

(** There a read of 16 bytes of a device with the functions of [Device] writes after the buffer. *)
Lemma default_read_overflow b size where_ : Z.of_nat (length b) < size -> default_readBlock b size where_ = Fault Undefined.
Proof.
  intros Hs. unfold default_readBlock, set_bytes. rewrite length_replicate, Z2Nat.id by lia.
  destruct (Z.leb_spec (0 + size) (Z.of_nat (length b))); [lia|done].
Qed.

Lemma ex_read_overflow : read (W := ()) (replicate 16 0) 16 (mkDevFile 5 (OFF_MAX - 10) FREAD) () = Fault Undefined.
Proof.
  unfold read. cbn [flags dev seekPoint]. change (Z.land FREAD FREAD =? 0) with false. cbv iota. rewrite ex_transfer_size.
  unfold readBlock, plain_devices. rewrite default_read_overflow; [reflexivity|]. apply Z.ltb_lt. reflexivity.
Qed.

(** Below the end, [/dev/zero] fills the buffer. *)
Example ex_zero_calls :
  call_run (W := ()) [Read [1; 2]; Write [1; 2; 3]; Seek 7 0; Read [9]; Seek (-9) 1; Seek 0 2] (device_open 5 (construct_device (0, 0) BLOCK) O_RDWR) ()
  = Done ([Got [0; 0]; Wrote 3; At 7; Got [0]; Failed EOVERFLOW; Failed EINVAL], mkDevFile 5 8 (O_RDWR + 1), ()).
Proof. vm_compute. reflexivity. Qed.

(** A disk, a terminal, and names for them. *)
Definition ex_ops : list op :=
  [NewDevice 5 (0, 0) BLOCK; AddDevice [115; 100; 97] 5; NewDevice 6 (0, 0) TTY; AddDevice [116; 116; 121] 6; AddDevice [97; 47] 6; Unlink null_name;
   Rename zero_name [122]; AddDevice [98] 5; Remove [120]].

Definition ex_fs : option devfs :=
  match construct 3 (0, 0) ∅ with Done f => match run ex_ops f with Done f => Some f | Fault _ => None end | Fault _ => None end.

(** The disk has two names, and the inode of the last. *)
Example ex_devices_listing :
  (f ← ex_fs; match dir_entries f with Done l => Some (inodeCount f, l) | Fault _ => None end)
  = Some (7, [([98], (6, 6)); ([115; 100; 97], (6, 6)); ([116; 116; 121], (5, 2)); ([122], (3, 2))]).
Proof. vm_compute. reflexivity. Qed.

Lemma ex_name_ok n : forallb (fun c => (0 <? c) && (c <? 256)) n && negb (bool_decide (n = [])) && (record_size n <? 2 ^ 16) = true -> name_ok n.
Proof.
  rewrite !andb_true_iff, negb_true_iff, bool_decide_eq_false, forallb_forall, Z.ltb_lt. intros [[Hc Hn] Hs]. split; [done|]. split; [|done].
  apply Forall_forall. intros c Hin. apply list_elem_of_In, Hc, andb_true_iff in Hin as [? ?]. lia.
Qed.

Lemma ex_run_ok f0 : construct 3 (0, 0) ∅ = Done f0 -> run_ok ex_ops f0.
Proof.
  intros Hc. vm_compute in Hc. injection Hc as <-. unfold ex_ops.
  repeat (split; [cbn [op_ok]; first [exact I|vm_compute; reflexivity|split; [first [discriminate|vm_compute; by eexists]|apply ex_name_ok; vm_compute; reflexivity]]
                 |let H := fresh in intros ? H; vm_compute in H; injection H as <-]).
  exact I.
Qed.


End DevFs.
