(* ===== verification/FatLocks.v ===== *)
(** * Open files of a FAT volume

    The table of open objects of [filesystem/fat32/ff.cpp] ([FATFS::Files]):
    [chk_lock], [enq_lock], [inc_lock], [dec_lock], [clear_lock], and what
    [f_open], [f_close], [f_opendir], [f_closedir], [f_unlink] and [f_rename] do with
    it.  What they find on the disk is given with each call.  The table refines a
    map from the open file objects to what they have open and whether to write it. *)
From S2P Require Import Prelude Errors.

Local Open Scope Z_scope.

Module FatLocks.

(** [FRESULT], the codes that are used. *)
Definition FR_OK : Z := 0.
Definition FR_INT_ERR : Z := 2.
Definition FR_NO_FILE : Z := 4.
Definition FR_NO_PATH : Z := 5.
Definition FR_INVALID_NAME : Z := 6.
Definition FR_DENIED : Z := 7.
Definition FR_EXIST : Z := 8.
Definition FR_INVALID_OBJECT : Z := 9.
Definition FR_WRITE_PROTECTED : Z := 10.
Definition FR_LOCKED : Z := 16.
Definition FR_NOT_ENOUGH_CORE : Z := 17.
Definition FR_TOO_MANY_OPEN_FILES : Z := 18.

(** Access modes of [f_open]. *)
Definition FA_READ : Z := 0x01.
Definition FA_OPEN_EXISTING : Z := 0x00.
Definition FA_WRITE : Z := 0x02.
Definition FA_CREATE_NEW : Z := 0x04.
Definition FA_CREATE_ALWAYS : Z := 0x08.
Definition FA_OPEN_ALWAYS : Z := 0x10.

Definition FS_LOCK : nat := 8.

(** An object is known by the first cluster of a directory and an index in it. *)
Definition object : Type := Z * Z.
#[export] Instance object_eq_dec : EqDecision object.
Proof. unfold object. solve_decision. Defined.

(** The table is in the volume, so that [fs] is the volume or null. *)
Record FILESEM := mkSem { fs : bool; clu : Z; idx : Z; ctr : Z }.
Abbreviation table := (list FILESEM).

(** The open counter of an object that is open to be written. *)
Definition write_mode : Z := 0x100.

(** The table after [f_mount]. *)
Definition no_files : table := replicate FS_LOCK (mkSem false 0 0 0).

(** ** The functions on the table *)
Definition obj (e : FILESEM) : object := (clu e, idx e).
Definition same (o : object) (e : FILESEM) : bool := fs e && bool_decide (obj e = o).

(** The loop of [chk_lock]: the entry of the object, and [be]. *)
Fixpoint chk_scan (o : object) (t : table) (be : bool) : option FILESEM * bool :=
  match t with
  | [] => (None, be)
  | e :: t => if fs e then if same o e then (Some e, be) else chk_scan o t be else chk_scan o t true
  end.

(** [acc] is 0 to read, 1 to write, 2 to delete or rename. *)
Definition chk_lock (o : object) (acc : Z) (t : table) : Z :=
  match chk_scan o t false with
  | (None, be) => if be || (acc =? 2) then FR_OK else FR_TOO_MANY_OPEN_FILES
  | (Some e, _) => if negb (acc =? 0) || (ctr e =? write_mode) then FR_LOCKED else FR_OK
  end.

Definition free (e : FILESEM) : bool := negb (fs e).

Definition enq_lock (t : table) : bool := match list_find free t with Some _ => true | None => false end.

(** The entry that is found or registered. *)
Definition register (o : object) (t : table) : option (nat * FILESEM) :=
  match list_find (same o) t with
  | Some r => Some r
  | None => match list_find free t with Some (i, _) => Some (i, mkSem true o.1 o.2 0) | None => None end
  end.

(** The index, from 1, and the table; a registered entry stays if the access is refused. *)
Definition inc_lock (o : object) (acc : Z) (t : table) : Z * table :=
  match register o t with
  | None => (0, t)
  | Some (i, e) =>
      if negb (acc =? 0) && negb (ctr e =? 0) then (0, <[i:=e]> t)
      else (Z.of_nat i + 1, <[i:=mkSem true (clu e) (idx e) (if acc =? 0 then u16 (ctr e + 1) else write_mode)]> t)
  end.

Definition dec_ctr (e : FILESEM) : Z :=
  let n := if ctr e =? write_mode then 0 else ctr e in if n =? 0 then n else n - 1.

Definition dec_lock (i : Z) (t : table) : Z * table :=
  let i := u32 (i - 1) in
  if i <? Z.of_nat FS_LOCK then (FR_OK, alter (fun e => mkSem (fs e && negb (dec_ctr e =? 0)) (clu e) (idx e) (dec_ctr e)) (Z.to_nat i) t)
  else (FR_INT_ERR, t).

Definition clear_lock (t : table) : table := map (fun e => mkSem false (clu e) (idx e) (ctr e)) t.

(** ** The functions of the library *)

(** What [f_open] finds: the result of [follow_path] and the object (a
    path to the root gives [FR_INVALID_NAME]); the result of [dir_register] and of
    the writing of the new entry, and this; the checks and the truncation of an existing file. *)
Record found := mkFound { follow : Z; found_obj : object; registered : Z; new_obj : object; checks : Z }.

Definition open_flags : Z := Z.lor FA_READ (Z.lor FA_WRITE (Z.lor FA_CREATE_ALWAYS (Z.lor FA_OPEN_ALWAYS FA_CREATE_NEW))).
Definition creating (mode : Z) : bool := negb (Z.land mode (Z.lor FA_CREATE_ALWAYS (Z.lor FA_OPEN_ALWAYS FA_CREATE_NEW)) =? 0).
Definition acc_of (mode : Z) : Z := if Z.land mode (Z.lnot FA_READ) =? 0 then 0 else 1.

(** The result, [lockid] and the table. *)
Definition f_open (x : found) (mode : Z) (t : table) : Z * Z * table :=
  let mode := Z.land mode open_flags in
  let res := if follow x =? FR_OK then chk_lock (found_obj x) (acc_of mode) t else follow x in
  let '(res, o, mode) :=
    if creating mode && negb (res =? FR_OK) then
      ((if res =? FR_NO_FILE then if enq_lock t then registered x else FR_TOO_MANY_OPEN_FILES else res), new_obj x, Z.lor mode FA_CREATE_ALWAYS)
    else ((if res =? FR_OK then checks x else res), found_obj x, mode) in
  if res =? FR_OK then
    let '(id, t) := inc_lock o (acc_of mode) t in ((if id =? 0 then FR_INT_ERR else FR_OK), id, t)
  else (res, 0, t).

(** [sync] is the result of [f_sync], which checks the file object. *)
Definition f_close (sync lockid : Z) (t : table) : Z * table := if sync =? FR_OK then dec_lock lockid t else (sync, t).

(** [res] is what comes before, [sclust] the cluster of the directory; the root is not locked. *)
Definition f_opendir (res sclust : Z) (t : table) : Z * Z * table :=
  if res =? FR_OK then
    if sclust =? 0 then (FR_OK, 0, t)
    else let '(id, t) := inc_lock (sclust, 0) 0 t in ((if id =? 0 then FR_TOO_MANY_OPEN_FILES else FR_OK), id, t)
  else ((if res =? FR_NO_FILE then FR_NO_PATH else res), 0, t).

Definition f_closedir (lockid : Z) (t : table) : Z * table := if lockid =? 0 then (FR_OK, t) else dec_lock lockid t.

(** [f_unlink] and [f_rename]: the result of [follow_path], and of the rest. *)
Definition f_remove (follow : Z) (o : object) (rest : Z) (t : table) : Z :=
  let res := if follow =? FR_OK then chk_lock o 2 t else follow in if res =? FR_OK then rest else res.

(** ** Runs

    File and directory objects by address, with their [lockid]; closing one makes it invalid. *)
Record volume := mkVolume { Files : table; lockids : gmap positive Z }.
Definition mounted : volume := mkVolume no_files ∅.

Inductive op :=
| Open (p : positive) (x : found) (mode : Z)
| Close (p : positive) (sync : Z)
| Opendir (p : positive) (res sclust : Z)
| Closedir (p : positive)
| Remove (follow : Z) (o : object) (rest : Z).

Definition opened (p : positive) (r : Z * Z * table) (v : volume) : Z * volume :=
  let '(res, id, t) := r in (res, mkVolume t (if res =? FR_OK then <[p:=id]> (lockids v) else lockids v)).
Definition closed (p : positive) (r : Z * table) (v : volume) : Z * volume :=
  let '(res, t) := r in (res, mkVolume t (if res =? FR_OK then delete p (lockids v) else lockids v)).

Definition step (x : op) (v : volume) : Z * volume :=
  match x with
  | Open p x mode => opened p (f_open x mode (Files v)) v
  | Close p sync => match lockids v !! p with Some id => closed p (f_close sync id (Files v)) v | None => (FR_INVALID_OBJECT, v) end
  | Opendir p res sclust => opened p (f_opendir res sclust (Files v)) v
  | Closedir p => match lockids v !! p with Some id => closed p (f_closedir id (Files v)) v | None => (FR_INVALID_OBJECT, v) end
  | Remove follow o rest => (f_remove follow o rest (Files v), v)
  end.

Fixpoint run (xs : list op) (v : volume) : list Z * volume :=
  match xs with [] => ([], v) | x :: xs => let '(r, v) := step x v in let '(rs, v) := run xs v in (r :: rs, v) end.

(** ** What is open

    For each open object what it has open, if it is not the root directory, and whether to write. *)
Abbreviation opens := (gmap positive (option object * bool)).

Definition on (o : object) (g : opens) : opens := filter (fun x => x.2.1 = Some o) g.
Definition objects (g : opens) : gset object := list_to_set (omap fst (map_to_list g).*2).

(** Readers share, a writer does not; [FS_LOCK] different objects can be open. *)
Definition may_open (o : object) (w : bool) (g : opens) : Z :=
  if decide (on o g = ∅) then if decide (size (objects g) < FS_LOCK)%nat then FR_OK else FR_TOO_MANY_OPEN_FILES
  else if w || existsb snd (map_to_list (on o g)).*2 then FR_LOCKED else FR_OK.

Definition grant (p : positive) (o : option object) (w : bool) (res : Z) (g : opens) : Z * opens :=
  (res, if res =? FR_OK then <[p:=(o, w)]> g else g).

(** Any mode but plain reading; opening to create a missing file is writing, even if it exists. *)
Definition writes (mode : Z) : bool := negb (Z.land mode (Z.land open_flags (Z.lnot FA_READ)) =? 0).

Definition spec_open (p : positive) (x : found) (mode : Z) (g : opens) : Z * opens :=
  if follow x =? FR_OK then
    let may := may_open (found_obj x) (writes mode) g in
    grant p (Some (found_obj x)) (writes mode) (if may =? FR_OK then checks x else may) g
  else if (follow x =? FR_NO_FILE) && creating mode then
    grant p (Some (new_obj x)) true (if decide (size (objects g) < FS_LOCK)%nat then registered x else FR_TOO_MANY_OPEN_FILES) g
  else (follow x, g).

Definition spec_step (x : op) (g : opens) : Z * opens :=
  match x with
  | Open p x mode => spec_open p x mode g
  | Close p sync => match g !! p with Some _ => (sync, if sync =? FR_OK then delete p g else g) | None => (FR_INVALID_OBJECT, g) end
  | Opendir p res sclust =>
      if res =? FR_OK then
        if sclust =? 0 then grant p None false FR_OK g else grant p (Some (sclust, 0)) false (may_open (sclust, 0) false g) g
      else ((if res =? FR_NO_FILE then FR_NO_PATH else res), g)
  | Closedir p => match g !! p with Some _ => (FR_OK, delete p g) | None => (FR_INVALID_OBJECT, g) end
  | Remove follow o rest => ((if follow =? FR_OK then if decide (on o g = ∅) then rest else FR_LOCKED else follow), g)
  end.

Fixpoint spec_run (xs : list op) (g : opens) : list Z * opens :=
  match xs with [] => ([], g) | x :: xs => let '(r, g) := spec_step x g in let '(rs, g) := spec_run xs g in (r :: rs, g) end.

(** Files are not at index 0 of a subdirectory, where its own entry is; a new
    entry is not the one of an open file, since [f_unlink] does not free these;
    255 objects are open at most. *)
Definition is_file (o : object) : Prop := o.2 <> 0 \/ o.1 = 0.

Definition op_ok (x : op) (g : opens) : Prop :=
  match x with
  | Open p x mode => g !! p = None /\ (size g < 255)%nat /\ is_file (found_obj x) /\ is_file (new_obj x) /\ (follow x = FR_NO_FILE -> on (new_obj x) g = ∅)
  | Opendir p _ _ => g !! p = None /\ (size g < 255)%nat
  | Close p _ => forall o w, g !! p = Some (o, w) -> o <> None
  | Closedir _ | Remove _ _ _ => True
  end.

Fixpoint ops_ok (xs : list op) (g : opens) : Prop :=
  match xs with [] => True | x :: xs => op_ok x g /\ ops_ok xs (spec_step x g).2 end.

(** ** The table and what is open *)

(** The counter of an object, by those that have it open. *)
Definition counts (c : Z) (m : opens) : Prop :=
  (c = write_mode /\ exists p o, m = {[p := (o, true)]}) \/ (c = Z.of_nat (size m) /\ map_Forall (fun _ x => x.2 = false) m).

Record inv (t : table) (l : gmap positive Z) (g : opens) : Prop := Inv {
  inv_length : length t = FS_LOCK;
  inv_root : forall p w, g !! p = Some (None, w) -> l !! p = Some 0 /\ w = false;
  inv_entry : forall p o w, g !! p = Some (Some o, w) -> exists i e, l !! p = Some (Z.of_nat i + 1) /\ t !! i = Some e /\ fs e = true /\ obj e = o;
  inv_none : forall p, g !! p = None -> l !! p = None;
  inv_one : forall i j e e', t !! i = Some e -> t !! j = Some e' -> fs e = true -> fs e' = true -> obj e = obj e' -> i = j;
  inv_count : forall i e, t !! i = Some e -> fs e = true -> on (obj e) g <> ∅ /\ counts (ctr e) (on (obj e) g);
  inv_file : forall p o, g !! p = Some (Some o, true) -> is_file o;
  inv_size : (size g <= 255)%nat;
}.

Lemma on_lookup o g p x : on o g !! p = Some x <-> g !! p = Some x /\ x.1 = Some o.
Proof. unfold on. rewrite map_lookup_filter_Some. done. Qed.

Lemma on_insert_same o w p g : g !! p = None -> on o (<[p:=(Some o, w)]> g) = <[p:=(Some o, w)]> (on o g).
Proof. intros _. by apply map_filter_insert_True. Qed.

Lemma on_insert_other o x w p g : x <> Some o -> g !! p = None -> on o (<[p:=(x, w)]> g) = on o g.
Proof. intros Hx Hp. apply map_filter_insert_not'; [done|]. intros y Hy. by rewrite Hp in Hy. Qed.

Lemma on_delete_other o x w p g : x <> Some o -> g !! p = Some (x, w) -> on o (delete p g) = on o g.
Proof.
  intros Hx Hp. unfold on. rewrite map_filter_delete. apply delete_id. apply map_lookup_filter_None. right. intros y Hy. rewrite Hp in Hy. by injection Hy as <-.
Qed.

Lemma on_delete o p g : on o (delete p g) = delete p (on o g).
Proof. apply map_filter_delete. Qed.

Lemma on_size o g : (size (on o g) <= size g)%nat.
Proof. apply map_subseteq_size, map_filter_subseteq. Qed.

Lemma elem_objects o g : o ∈ objects g <-> on o g <> ∅.
Proof.
  unfold objects. rewrite elem_of_list_to_set, list_elem_of_omap. split.
  - intros ([x w] & Hin & [= ->]). apply list_elem_of_fmap in Hin as ([p y] & E & Hin). cbn in E. subst y. apply elem_of_map_to_list in Hin.
    intros E. assert (H : on o g !! p = Some (Some o, w)) by (by apply on_lookup). by rewrite E, lookup_empty in H.
  - intros Hne. apply map_choose in Hne as (p & x & Hx). apply on_lookup in Hx as [Hx Ho]. exists x. split; [|done].
    apply list_elem_of_fmap. exists (p, x). split; [done|]. by apply elem_of_map_to_list.
Qed.

(** *** Searching *)
Lemma same_spec o e : Is_true (same o e) <-> fs e = true /\ obj e = o.
Proof. unfold same. rewrite andb_True, bool_decide_spec, Is_true_true. done. Qed.

Definition objs (t : table) : list object := omap (fun e => if fs e then Some (obj e) else None) t.

Lemma elem_objs o t : o ∈ objs t <-> exists i e, t !! i = Some e /\ fs e = true /\ obj e = o.
Proof.
  unfold objs. rewrite list_elem_of_omap. split.
  - intros (e & He & Ho). apply list_elem_of_lookup in He as [i Hi]. exists i, e. destruct (fs e); [by injection Ho as <-|done].
  - intros (i & e & Hi & Hf & <-). exists e. rewrite Hf. split; [by eapply list_elem_of_lookup_2|done].
Qed.

Lemma free_spec e : Is_true (free e) <-> fs e = false.
Proof. unfold free. by destruct (fs e). Qed.

Lemma objs_length t : (length (objs t) <= length t)%nat /\ ((length (objs t) < length t)%nat <-> list_find free t <> None).
Proof.
  induction t as [|e t [IH1 IH2]]; [split; [done|split; [simpl; lia|done]]|]. cbn [list_find]. unfold objs in *. cbn [omap list_omap].
  destruct (fs e) eqn:Hf; cbn [length].
  - rewrite decide_False by (rewrite free_spec; congruence). split; [simpl; lia|]. rewrite <- Nat.succ_lt_mono, IH2. by destruct (list_find free t) as [[]|].
  - rewrite decide_True by (by rewrite free_spec). split; [simpl; lia|]. split; [done|simpl; lia].
Qed.

Lemma objs_NoDup t : (forall i j e e', t !! i = Some e -> t !! j = Some e' -> fs e = true -> fs e' = true -> obj e = obj e' -> i = j) -> NoDup (objs t).
Proof.
  induction t as [|e t IH]; intros Hone; [constructor|]. unfold objs. simpl.
  assert (IH' : NoDup (objs t)) by (apply IH; intros i j x y Hi Hj Hx Hy E; by injection (Hone (S i) (S j) x y Hi Hj Hx Hy E)).
  destruct (fs e) eqn:Hf; [|done]. constructor; [|done]. intros Hin. apply elem_objs in Hin as (j & y & Hj & Hy & E).
  by specialize (Hone O (S j) e y eq_refl Hj Hf Hy (eq_sym E)).
Qed.

Lemma chk_scan_find o t be :
  chk_scan o t be = match list_find (same o) t with
                    | Some (i, e) => (Some e, (chk_scan o t be).2)
                    | None => (None, be || match list_find free t with Some _ => true | None => false end)
                    end.
Proof.
  revert be. induction t as [|e t IH]; intros be; [by destruct be|]. cbn [chk_scan list_find]. destruct (fs e) eqn:Hf.
  - rewrite (decide_False (P := free e)) by (rewrite free_spec; congruence). destruct (same o e) eqn:Hs.
    + by rewrite decide_True.
    + rewrite decide_False by exact (fun H => H). rewrite IH. destruct (list_find (same o) t) as [[i x]|]; [done|]. cbn. by destruct (list_find free t) as [[]|].
  - rewrite (decide_True (P := free e)) by (by rewrite free_spec). rewrite decide_False by (rewrite same_spec; by intros [? _]; congruence).
    rewrite IH. destruct (list_find (same o) t) as [[i x]|]; [done|]. cbn. by rewrite orb_true_r.
Qed.

(** What is found in the table. *)
Section found.
Context (t : table) (l : gmap positive Z) (g : opens) (Hinv : inv t l g).

Lemma find_same o :
  match list_find (same o) t with
  | Some (i, e) => t !! i = Some e /\ fs e = true /\ obj e = o /\ on o g <> ∅ /\ counts (ctr e) (on o g)
  | None => on o g = ∅
  end.
Proof.
  destruct (list_find (same o) t) as [[i e]|] eqn:E.
  - apply list_find_Some in E as (Hi & [Hf <-]%same_spec & _). split_and!; [done..| |]; by apply (inv_count _ _ _ Hinv i).
  - apply map_eq. intros p. rewrite lookup_empty. apply eq_None_not_Some. intros [[x w] [Hx Ho]%on_lookup]. cbn in Ho. subst x.
    destruct (inv_entry _ _ _ Hinv p o w Hx) as (i & e & _ & Hi & Hf & He). apply list_find_None in E.
    rewrite Forall_lookup in E. apply (E i e Hi). by apply same_spec.
Qed.

Lemma objects_objs : size (objects g) = length (objs t).
Proof.
  rewrite <- (size_list_to_set (C := gset object) (objs t)) by apply objs_NoDup, Hinv. f_equal. apply set_eq. intros o.
  rewrite elem_objects, elem_of_list_to_set, elem_objs. pose proof (find_same o) as Hf. split.
  - intros Hne. destruct (list_find (same o) t) as [[i e]|]; [|done]. destruct Hf as (? & ? & ? & _). by exists i, e.
  - intros (i & e & Hi & Hf' & <-). by apply (inv_count _ _ _ Hinv i e).
Qed.

Lemma find_free : match list_find free t with Some _ => (size (objects g) < FS_LOCK)%nat | None => ~ (size (objects g) < FS_LOCK)%nat end.
Proof.
  rewrite objects_objs, <- (inv_length _ _ _ Hinv). destruct (objs_length t) as [_ H]. destruct (list_find free t) as [r|]; [by apply H|].
  intros Hl. by apply H in Hl.
Qed.

Lemma enq_lock_room : enq_lock t = bool_decide (size (objects g) < FS_LOCK)%nat.
Proof. unfold enq_lock. pose proof find_free as H. case_bool_decide; by destruct (list_find free t). Qed.

Lemma chk_lock_may o (w : bool) : chk_lock o (if w then 1 else 0) t = may_open o w g.
Proof.
  unfold chk_lock, may_open. rewrite chk_scan_find. pose proof (find_same o) as Hs. destruct (list_find (same o) t) as [[i e]|].
  - destruct Hs as (_ & _ & _ & Hne & Hc). rewrite decide_False by done. destruct w; [done|]. cbn [negb orb Z.eqb].
    destruct Hc as [[-> (p & o' & ->)]|[-> Hr]].
    + rewrite map_to_list_singleton. done.
    + assert (Hex : existsb snd (map_to_list (on o g)).*2 = false).
      { apply not_true_is_false. intros ([x b] & Hin & Hb)%existsb_exists. apply list_elem_of_In, list_elem_of_fmap in Hin as ([p y] & Ey & Hin).
        cbn in Ey, Hb. subst. apply elem_of_map_to_list in Hin. by specialize (Hr p _ Hin). }
      rewrite Hex. destruct (Z.eqb_spec (Z.of_nat (size (on o g))) write_mode) as [E|]; [|done].
      pose proof (on_size o g). pose proof (inv_size _ _ _ Hinv). unfold write_mode in E. lia.
  - rewrite decide_True by done. pose proof find_free as H. cbn [orb].
    replace ((if w then 1 else 0) =? 2) with false by (by destruct w). rewrite orb_false_r. case_decide; by destruct (list_find free t).
Qed.

Lemma chk_lock_remove o : chk_lock o 2 t = if decide (on o g = ∅) then FR_OK else FR_LOCKED.
Proof.
  unfold chk_lock. rewrite chk_scan_find. pose proof (find_same o) as Hs. destruct (list_find (same o) t) as [[i e]|].
  - destruct Hs as (_ & _ & _ & Hne & _). by rewrite decide_False.
  - rewrite decide_True by done. by rewrite orb_true_r.
Qed.

(** Registering an object that may be opened. *)
Lemma register_may o w :
  may_open o w g = FR_OK ->
  exists i e, register o t = Some (i, e) /\ (i < FS_LOCK)%nat /\ fs e = true /\ obj e = o /\ ctr e = Z.of_nat (size (on o g)) /\
    map_Forall (fun _ x => x.2 = false) (on o g) /\ (w = true -> on o g = ∅) /\
    (forall j e', t !! j = Some e' -> fs e' = true -> (obj e' = o <-> j = i)).
Proof.
  intros Hmay. unfold register, may_open in *. pose proof (find_same o) as Hs. destruct (list_find (same o) t) as [[i e]|] eqn:E.
  - destruct Hs as (Hi & Hf & Ho & Hne & Hc). rewrite decide_False in Hmay by done. exists i, e.
    assert (Hw : w || existsb snd (map_to_list (on o g)).*2 = false) by (destruct (w || _); [done|done]).
    apply orb_false_iff in Hw as [-> Hex]. destruct Hc as [[_ (p & o' & Hon)]|[Hc Hr]]; [by rewrite Hon, map_to_list_singleton in Hex|].
    split_and!; try done.
    + rewrite <- (inv_length _ _ _ Hinv). by eapply lookup_lt_Some.
    + intros j e' Hj Hf'. split; [|intros ->; congruence]. intros <-. by eapply (inv_one _ _ _ Hinv).
  - rewrite Hs in *. rewrite decide_True in Hmay by done. pose proof find_free as Hfree. destruct (list_find free t) as [[i e]|] eqn:Ef.
    2:{ by rewrite decide_False in Hmay. }
    apply list_find_Some in Ef as (Hi & Hf%free_spec & _). exists i, (mkSem true o.1 o.2 0). split_and!; try done.
    + rewrite <- (inv_length _ _ _ Hinv). by eapply lookup_lt_Some.
    + by destruct o.
    + intros j e' Hj Hf'. split; [|intros ->; congruence]. intros <-. apply list_find_None in E. rewrite Forall_lookup in E.
      exfalso. apply (E j e' Hj). by apply same_spec.
Qed.

Lemma inc_lock_inv p o (w : bool) :
  g !! p = None -> (size g < 255)%nat -> (w = true -> is_file o) -> may_open o w g = FR_OK ->
  exists id t', inc_lock o (if w then 1 else 0) t = (id, t') /\ id <> 0 /\ inv t' (<[p:=id]> l) (<[p:=(Some o, w)]> g).
Proof.
  intros Hp Hsz Hfile Hmay. destruct (register_may o w Hmay) as (i & e & Hreg & Hi & Hf & Ho & Hc & Hr & Hw & Huniq).
  unfold inc_lock. rewrite Hreg. set (c := if (if w then 1 else 0) =? 0 then u16 (ctr e + 1) else write_mode).
  assert (Hno : negb ((if w then 1 else 0) =? 0) && negb (ctr e =? 0) = false).
  { destruct w; [|done]. rewrite Hc, (Hw eq_refl). done. }
  rewrite Hno. exists (Z.of_nat i + 1), (<[i:=mkSem true (clu e) (idx e) c]> t). split; [done|]. split; [lia|].
  assert (Hit : (i < length t)%nat) by (by rewrite (inv_length _ _ _ Hinv)).
  assert (Hnew : obj (mkSem true (clu e) (idx e) c) = o) by (by rewrite <- Ho).
  assert (Hcnt : counts c (<[p:=(Some o, w)]> (on o g))).
  { unfold c. destruct w; cbn [Z.eqb].
    - left. split; [done|]. exists p, (Some o). by rewrite (Hw eq_refl), insert_empty.
    - right. rewrite map_size_insert_None by (apply map_lookup_filter_None; by left). pose proof (on_size o g). rewrite Hc, wrapU_small by lia. split; [lia|].
      by apply map_Forall_insert_2. }
  split.
  - by rewrite length_insert, (inv_length _ _ _ Hinv).
  - intros q v. rewrite !lookup_insert. case_decide; [done|]. apply Hinv.
  - intros q o' v. rewrite !lookup_insert. case_decide as Hq.
    + intros [= <- <-]. exists i, (mkSem true (clu e) (idx e) c). by rewrite list_lookup_insert_eq.
    + intros Hq'. destruct (inv_entry _ _ _ Hinv q o' v Hq') as (j & e' & Hl & Hj & Hfj & Hoj). destruct (decide (j = i)) as [->|Hji].
      * exists i, (mkSem true (clu e) (idx e) c). rewrite list_lookup_insert_eq by done. split_and!; [done..|]. rewrite Hnew, <- Hoj. symmetry. by apply (Huniq i e').
      * exists j, e'. by rewrite list_lookup_insert_ne.
  - intros q. rewrite !lookup_insert. case_decide; [done|]. apply Hinv.
  - assert (Hat : forall j ej, <[i:=mkSem true (clu e) (idx e) c]> t !! j = Some ej -> fs ej = true -> obj ej = o <-> j = i).
    { intros j ej Hj Hfj. destruct (decide (j = i)) as [->|Hne].
      - rewrite list_lookup_insert_eq in Hj by done. injection Hj as <-. by rewrite Hnew.
      - rewrite list_lookup_insert_ne in Hj by done. by apply Huniq. }
    intros j k ej ek Hj Hk Hfj Hfk Eo. destruct (decide (j = i)) as [->|Hji].
    + symmetry. apply (Hat k ek Hk Hfk). rewrite <- Eo. by apply (Hat i ej).
    + rewrite list_lookup_insert_ne in Hj by done. destruct (decide (k = i)) as [->|Hki].
      * apply (Huniq j ej Hj Hfj). rewrite Eo. by apply (Hat i ek).
      * rewrite list_lookup_insert_ne in Hk by done. by apply (inv_one _ _ _ Hinv j k ej ek).
  - intros j ej Hj Hfj. destruct (decide (j = i)) as [->|Hji].
    + rewrite list_lookup_insert_eq in Hj by done. injection Hj as <-. rewrite Hnew, on_insert_same by done. split; [|done]. apply insert_non_empty.
    + rewrite list_lookup_insert_ne in Hj by done. rewrite on_insert_other; [by apply (inv_count _ _ _ Hinv j)| |done].
      intros [= E]. apply Hji. by apply (Huniq j ej).
  - intros q o'. rewrite lookup_insert. case_decide; [intros [= <- ->]; by apply Hfile|]. apply Hinv.
  - rewrite map_size_insert_None by done. lia.
Qed.

(** Closing one of the objects that have [o] open. *)
Lemma dec_lock_inv p o w :
  g !! p = Some (Some o, w) ->
  exists id t', l !! p = Some id /\ dec_lock id t = (FR_OK, t') /\ id <> 0 /\ inv t' (delete p l) (delete p g).
Proof.
  intros Hp. destruct (inv_entry _ _ _ Hinv p o w Hp) as (i & e & Hl & Hi & Hf & Ho).
  assert (Hi8 : (i < FS_LOCK)%nat) by (rewrite <- (inv_length _ _ _ Hinv); by eapply lookup_lt_Some). unfold FS_LOCK in Hi8.
  set (e' := mkSem (fs e && negb (dec_ctr e =? 0)) (clu e) (idx e) (dec_ctr e)).
  exists (Z.of_nat i + 1), (<[i:=e']> t). split; [done|].
  assert (Hpo : on o g !! p = Some (Some o, w)) by by apply on_lookup.
  assert (Hcnt : counts (dec_ctr e) (on o (delete p g)) /\ dec_ctr e = Z.of_nat (size (on o (delete p g)))).
  { rewrite on_delete. destruct (inv_count _ _ _ Hinv i e Hi Hf) as [Hne Hc]. rewrite Ho in Hc. unfold dec_ctr. destruct Hc as [[Hc (q & x & Hon)]|[Hc Hr]].
    - rewrite Hc. rewrite Hon in Hpo |- *. apply lookup_singleton_Some in Hpo as [-> _]. rewrite delete_singleton_eq. split; [|done]. right. split; [done|apply map_Forall_empty].
    - assert (Hs : size (on o g) = S (size (delete p (on o g)))) by (rewrite <- (insert_delete_id _ _ _ Hpo) at 1; by rewrite map_size_insert_None by apply lookup_delete_eq).
      pose proof (on_size o g). pose proof (inv_size _ _ _ Hinv). rewrite Hc. unfold write_mode.
      destruct (Z.eqb_spec (Z.of_nat (size (on o g))) 0x100); [lia|]. destruct (Z.eqb_spec (Z.of_nat (size (on o g))) 0); [lia|].
      split; [|lia]. right. split; [lia|]. by apply map_Forall_delete. }
  destruct Hcnt as [Hcnt Hdec]. split; [|split; [lia|]].
  { unfold dec_lock. replace (Z.of_nat i + 1 - 1) with (Z.of_nat i) by lia. rewrite wrapU_small by lia. unfold FS_LOCK. rewrite (proj2 (Z.ltb_lt _ _)) by lia.
    rewrite Nat2Z.id. f_equal. apply list_eq. intros j. destruct (decide (j = i)) as [->|Hne].
    - rewrite list_lookup_alter_eq, Hi, list_lookup_insert_eq by (by eapply lookup_lt_Some). done.
    - by rewrite list_lookup_alter_ne, list_lookup_insert_ne by done. }
  assert (Hit : (i < length t)%nat) by (by eapply lookup_lt_Some).
  assert (Hat : forall j ej, <[i:=e']> t !! j = Some ej -> fs ej = true -> exists e0, t !! j = Some e0 /\ fs e0 = true /\ obj e0 = obj ej /\ (j <> i -> e0 = ej)).
  { intros j ej Hj Hfj. destruct (decide (j = i)) as [->|Hne].
    - rewrite list_lookup_insert_eq in Hj by done. injection Hj as <-. by exists e.
    - rewrite list_lookup_insert_ne in Hj by done. by exists ej. }
  split.
  - by rewrite length_insert, (inv_length _ _ _ Hinv).
  - intros q v. rewrite !lookup_delete. case_decide; [done|]. apply Hinv.
  - intros q o' v. rewrite !lookup_delete. case_decide as Hq; [done|]. intros Hq'.
    destruct (inv_entry _ _ _ Hinv q o' v Hq') as (j & ej & Hlj & Hj & Hfj & Hoj). destruct (decide (j = i)) as [->|Hji].
    + assert (ej = e) as -> by congruence. exists i, e'. rewrite list_lookup_insert_eq by done. split_and!; [done..| |by rewrite <- Hoj].
      unfold e'. cbn [fs]. rewrite Hf. rewrite Hdec. assert (Hin : on o (delete p g) !! q = Some (Some o', v)).
      { apply on_lookup. rewrite lookup_delete_ne by done. split; [done|]. by rewrite <- Hoj, Ho. }
      destruct (decide (on o (delete p g) = ∅)) as [E|E]; [by rewrite E, lookup_empty in Hin|]. apply map_size_non_empty_iff in E.
      destruct (Z.eqb_spec (Z.of_nat (size (on o (delete p g)))) 0); [lia|done].
    + exists j, ej. by rewrite list_lookup_insert_ne.
  - intros q. rewrite !lookup_delete. case_decide; [done|]. apply Hinv.
  - intros j k ej ek Hj Hk Hfj Hfk Eo. destruct (Hat j ej Hj Hfj) as (j0 & Hj0 & Hfj0 & Eoj & _). destruct (Hat k ek Hk Hfk) as (k0 & Hk0 & Hfk0 & Eok & _).
    apply (inv_one _ _ _ Hinv j k j0 k0); try done. congruence.
  - intros j ej Hj Hfj. destruct (decide (j = i)) as [->|Hji].
    + rewrite list_lookup_insert_eq in Hj by done. injection Hj as <-. change (obj e') with (obj e). rewrite Ho. split; [|done]. cbn [fs e'] in Hfj.
      intros E. rewrite E in Hdec. rewrite Hdec in Hfj. by rewrite andb_false_r in Hfj.
    + rewrite list_lookup_insert_ne in Hj by done. rewrite (on_delete_other _ (Some o) w); [by apply (inv_count _ _ _ Hinv j)| |done].
      intros [= E]. apply Hji. apply (inv_one _ _ _ Hinv j i ej e); congruence.
  - intros q o'. rewrite lookup_delete. case_decide; [done|]. apply Hinv.
  - etrans; [apply map_subseteq_size, delete_subseteq|apply Hinv].
Qed.

(** The root directory is in no entry. *)
Lemma insert_root_inv p : g !! p = None -> (size g < 255)%nat -> inv t (<[p:=0]> l) (<[p:=(None, false)]> g).
Proof.
  intros Hp Hsz. destruct Hinv as [Hlen Hroot Hentry Hnone Hone Hcount Hfile Hs]. split; [done|..].
  - intros q w. rewrite !lookup_insert. case_decide; [by intros [= <-]|apply Hroot].
  - intros q o w. rewrite !lookup_insert. case_decide; [done|apply Hentry].
  - intros q. rewrite !lookup_insert. case_decide; [done|apply Hnone].
  - done.
  - intros i e Hi Hf. rewrite on_insert_other by done. by apply (Hcount i).
  - intros q o. rewrite lookup_insert. case_decide; [done|apply Hfile].
  - rewrite map_size_insert_None by done. lia.
Qed.

Lemma delete_root_inv p w : g !! p = Some (None, w) -> inv t (delete p l) (delete p g).
Proof.
  intros Hp. destruct Hinv as [Hlen Hroot Hentry Hnone Hone Hcount Hfile Hs]. split; [done|..].
  - intros q v. rewrite !lookup_delete. case_decide; [done|apply Hroot].
  - intros q o v. rewrite !lookup_delete. case_decide; [done|apply Hentry].
  - intros q. rewrite !lookup_delete. case_decide; [done|apply Hnone].
  - done.
  - intros i e Hi Hf. rewrite (on_delete_other _ None w) by done. by apply (Hcount i).
  - intros q o. rewrite lookup_delete. case_decide; [done|apply Hfile].
  - etrans; [apply map_subseteq_size, delete_subseteq|done].
Qed.

(** A directory is open to be read only. *)
Lemma may_open_dir o : ~ is_file o -> may_open o false g = if decide (on o g = ∅) then may_open o false g else FR_OK.
Proof.
  intros Ho. case_decide as Hon; [done|]. unfold may_open. rewrite decide_False by done. cbn [orb].
  replace (existsb snd (map_to_list (on o g)).*2) with false; [done|]. symmetry. apply not_true_is_false.
  intros ([x b] & Hin & Hb)%existsb_exists. apply list_elem_of_In, list_elem_of_fmap in Hin as ([p y] & Ey & Hin). cbn in Ey, Hb. subst.
  apply elem_of_map_to_list, on_lookup in Hin as [Hin Hx]. cbn in Hx. subst x. apply Ho. by apply (inv_file _ _ _ Hinv p).
Qed.

Lemma may_open_results o w : may_open o w g = FR_OK \/ may_open o w g = FR_LOCKED \/ may_open o w g = FR_TOO_MANY_OPEN_FILES.
Proof. unfold may_open. repeat case_match; auto. Qed.

Lemma inc_lock_full o acc : on o g = ∅ -> ~ (size (objects g) < FS_LOCK)%nat -> inc_lock o acc t = (0, t).
Proof.
  intros Hon Hfull. unfold inc_lock, register. pose proof (find_same o) as Hs. destruct (list_find (same o) t) as [[i e]|].
  - by destruct Hs as (_ & _ & _ & Hne & _).
  - pose proof find_free. by destruct (list_find free t) as [[]|].
Qed.

End found.

(** ** Each call does what it should *)
Lemma creating_masked mode : creating (Z.land mode open_flags) = creating mode.
Proof. unfold creating. by rewrite <- Z.land_assoc. Qed.

Lemma acc_of_masked mode : acc_of (Z.land mode open_flags) = if writes mode then 1 else 0.
Proof. unfold acc_of, writes. rewrite <- Z.land_assoc. by case_match. Qed.

(** A mode in which a file is created. *)
Lemma acc_of_create mode : acc_of (Z.lor mode FA_CREATE_ALWAYS) = 1.
Proof.
  unfold acc_of. destruct (Z.eqb_spec (Z.land (Z.lor mode FA_CREATE_ALWAYS) (Z.lnot FA_READ)) 0) as [E|]; [|done].
  apply (f_equal (fun z => Z.testbit z 3)) in E. by rewrite Z.land_spec, Z.lor_spec, orb_true_r in E.
Qed.

(** The state [v] is one in which [g] is open. *)
Definition holds (v : volume) (g : opens) : Prop := inv (Files v) (lockids v) g.
Definition agrees (c : Z * volume) (a : Z * opens) : Prop := c.1 = a.1 /\ holds c.2 a.2.

Lemma opened_grant p o w res v g :
  holds v g -> g !! p = None -> (size g < 255)%nat -> (w = true -> is_file o) -> may_open o w g = FR_OK ->
  agrees (opened p (if res =? FR_OK then let '(id, t) := inc_lock o (if w then 1 else 0) (Files v) in ((if id =? 0 then FR_INT_ERR else FR_OK), id, t) else (res, 0, Files v)) v)
         (grant p (Some o) w res g).
Proof.
  intros Hv Hp Hs Hf Hmay. unfold grant. destruct (Z.eqb_spec res FR_OK) as [->|Hres].
  - destruct (inc_lock_inv _ _ _ Hv p o w Hp Hs Hf Hmay) as (id & t & -> & Hid & Hinv). rewrite (proj2 (Z.eqb_neq _ _)) by done. done.
  - unfold opened. by rewrite (proj2 (Z.eqb_neq _ _)) by done.
Qed.

Lemma opened_refused p res v g : holds v g -> res <> FR_OK -> agrees (opened p (res, 0, Files v) v) (res, g).
Proof. intros Hv Hres. unfold opened. by rewrite (proj2 (Z.eqb_neq _ _)) by done. Qed.

Lemma open_refines p x mode v g : holds v g -> op_ok (Open p x mode) g -> agrees (step (Open p x mode) v) (spec_open p x mode g).
Proof.
  intros Hv (Hp & Hs & Hfo & Hfn & Hnew). unfold step, f_open, spec_open. rewrite creating_masked, acc_of_masked.
  destruct (Z.eqb_spec (follow x) FR_OK) as [_|Hfollow].
  - rewrite (chk_lock_may _ _ _ Hv). destruct (Z.eqb_spec (may_open (found_obj x) (writes mode) g) FR_OK) as [Hmay|Hmay].
    + rewrite andb_false_r, acc_of_masked. by apply opened_grant.
    + assert (Hno : (may_open (found_obj x) (writes mode) g =? FR_NO_FILE) = false) by (destruct (may_open_results g (found_obj x) (writes mode)) as [E|[E|E]]; by rewrite E).
      unfold grant. rewrite Hno, (proj2 (Z.eqb_neq (may_open _ _ _) _)) by done.
      destruct (creating mode); cbn [negb andb]; rewrite (proj2 (Z.eqb_neq _ _)) by done; by apply opened_refused.
  - rewrite (proj2 (Z.eqb_neq _ _)) by done. cbn [negb]. rewrite andb_true_r. destruct (creating mode) eqn:Hc.
    2:{ rewrite andb_false_r. rewrite (proj2 (Z.eqb_neq _ _)) by done. by apply opened_refused. }
    rewrite andb_true_r. destruct (Z.eqb_spec (follow x) FR_NO_FILE) as [Hmiss|_].
    2:{ rewrite (proj2 (Z.eqb_neq _ _)) by done. by apply opened_refused. }
    rewrite (enq_lock_room _ _ _ Hv). case_bool_decide as Hroom.
    + assert (Hmay : may_open (new_obj x) true g = FR_OK) by (unfold may_open; rewrite decide_True by auto; by rewrite decide_True).
      rewrite decide_True, acc_of_create by done. by apply (opened_grant p (new_obj x) true).
    + rewrite decide_False by done. by apply opened_refused.
Qed.

Lemma opendir_refines p res sclust v g : holds v g -> op_ok (Opendir p res sclust) g -> agrees (step (Opendir p res sclust) v) (spec_step (Opendir p res sclust) g).
Proof.
  intros Hv (Hp & Hs). unfold step, f_opendir, spec_step. destruct (Z.eqb_spec res FR_OK) as [->|Hres].
  2:{ apply opened_refused; [done|]. case_cmp; [done|done]. }
  destruct (Z.eqb_spec sclust 0) as [->|Hc]; [split; [done|]; by apply insert_root_inv|].
  assert (Hd : ~ is_file (sclust, 0)) by (unfold is_file; cbn; lia). pose proof (may_open_dir _ _ _ Hv _ Hd) as Hmd.
  destruct (decide (may_open (sclust, 0) false g = FR_OK)) as [Hmay|Hmay].
  - rewrite Hmay. destruct (inc_lock_inv _ _ _ Hv p (sclust, 0) false Hp Hs ltac:(done) Hmay) as (id & t & -> & Hid & Hinv).
    rewrite (proj2 (Z.eqb_neq _ _)) by done. done.
  - destruct (decide (on (sclust, 0) g = ∅)) as [Hon|Hon]; [|by rewrite Hmd in Hmay].
    destruct (decide (size (objects g) < FS_LOCK)%nat) as [Hroom|Hroom]; [destruct Hmay; unfold may_open; by rewrite !decide_True|].
    assert (Hfull : may_open (sclust, 0) false g = FR_TOO_MANY_OPEN_FILES) by (unfold may_open; by rewrite decide_True, decide_False).
    rewrite (inc_lock_full _ _ _ Hv), Hfull by done. by apply opened_refused.
Qed.

Lemma fat_step_refines x v g : holds v g -> op_ok x g -> agrees (step x v) (spec_step x g).
Proof.
  intros Hv Hx. destruct x as [p x mode|p sync|p res sclust|p|fol o rest].
  - by apply open_refines.
  - unfold step, spec_step. destruct (g !! p) as [[[o|] w]|] eqn:Hg.
    + destruct (dec_lock_inv _ _ _ Hv p o w Hg) as (id & t & -> & Hdec & _ & Hinv). unfold f_close.
      destruct (Z.eqb_spec sync FR_OK) as [->|Hs]; unfold closed; [by rewrite Hdec|]. by rewrite (proj2 (Z.eqb_neq _ _)) by done.
    + by destruct (Hx _ _ Hg).
    + by rewrite (inv_none _ _ _ Hv).
  - by apply opendir_refines.
  - unfold step, spec_step. destruct (g !! p) as [[[o|] w]|] eqn:Hg.
    + destruct (dec_lock_inv _ _ _ Hv p o w Hg) as (id & t & -> & Hdec & Hid & Hinv). unfold f_closedir, closed. by rewrite (proj2 (Z.eqb_neq id 0)), Hdec by done.
    + destruct (inv_root _ _ _ Hv p w Hg) as [-> ->]. split; [done|]. by eapply delete_root_inv.
    + by rewrite (inv_none _ _ _ Hv).
  - unfold step, spec_step, f_remove. rewrite (chk_lock_remove _ _ _ Hv). destruct (Z.eqb_spec fol FR_OK) as [->|Hf].
    + case_decide; done.
    + by rewrite (proj2 (Z.eqb_neq _ _)) by done.
Qed.

Lemma mounted_holds : holds mounted ∅.
Proof.
  assert (Hfree : forall i e, no_files !! i = Some e -> fs e = false) by (intros i e [-> _]%lookup_replicate_1; done).
  split; try done.
  - intros i j e e' Hi _ Hf. apply Hfree in Hi. congruence.
  - intros i e Hi Hf. apply Hfree in Hi. congruence.
  - rewrite map_size_empty. lia.
Qed.

Lemma run_refines xs : forall v g, holds v g -> ops_ok xs g -> (run xs v).1 = (spec_run xs g).1 /\ holds (run xs v).2 (spec_run xs g).2.
Proof.
  induction xs as [|x xs IH]; intros v g Hv Hok; [done|]. destruct Hok as [Hx Hxs]. destruct (fat_step_refines x v g Hv Hx) as [Hr Hv'].
  cbn [run spec_run]. destruct (step x v) as [r v'], (spec_step x g) as [r' g']. cbn in Hr, Hv', Hxs. subst r'.
  destruct (IH v' g' Hv' Hxs) as [Hrs Hh]. destruct (run xs v'), (spec_run xs g'). cbn in *. by subst.
Qed.

Lemma readers_share g t l p q o w w' : inv t l g -> p <> q -> g !! p = Some (Some o, w) -> g !! q = Some (Some o, w') -> w = false /\ w' = false.
Proof.
  intros Hinv Hne Hp Hq. destruct (inv_entry _ _ _ Hinv p o w Hp) as (i & e & _ & Hi & Hf & <-).
  assert (Hp' : on (obj e) g !! p = Some (Some (obj e), w)) by by apply on_lookup.
  assert (Hq' : on (obj e) g !! q = Some (Some (obj e), w')) by by apply on_lookup.
  destruct (inv_count _ _ _ Hinv i e Hi Hf) as [_ [[_ (r & x & E)]|[_ Hr]]].
  - rewrite E in Hp', Hq'. apply lookup_singleton_Some in Hp' as [-> _]. by apply lookup_singleton_Some in Hq' as [-> _].
  - split; [exact (Hr _ _ Hp')|exact (Hr _ _ Hq')].
Qed.

(** C13: files are shared as they should be: on a volume that was mounted, any
    sequence of [f_open], [f_close], [f_opendir], [f_closedir], [f_unlink] and [f_rename]
    gives the results of a map from the open file objects to what they have open. A file
    can be opened by any number of readers or by one writer; eight files and
    directories can be open, but the root is not counted; a file that is open
    is not removed or renamed; failures leave nothing open; and when all is
    closed the table is free. *)
Theorem fat_locks_refine xs :
  ops_ok xs ∅ ->
  let v := (run xs mounted).2 in let g := (spec_run xs ∅).2 in
  (run xs mounted).1 = (spec_run xs ∅).1 /\
  (forall p q o w w', p <> q -> g !! p = Some (Some o, w) -> g !! q = Some (Some o, w') -> w = false /\ w' = false) /\
  (size (objects g) <= FS_LOCK)%nat /\
  (forall o, chk_lock o 2 (Files v) = FR_OK <-> forall p w, g !! p <> Some (Some o, w)) /\
  (g = ∅ -> Forall (fun e => fs e = false) (Files v)).
Proof.
  intros Hok v g. destruct (run_refines xs mounted ∅ mounted_holds Hok) as [Hrs Hv]. split; [done|]. fold v g in Hv. split_and!.
  - intros p q o w w'. by apply (readers_share g _ _ _ _ _ _ _ Hv).
  - rewrite (objects_objs _ _ _ Hv), <- (inv_length _ _ _ Hv). apply objs_length.
  - intros o. rewrite (chk_lock_remove _ _ _ Hv). case_decide as Hon; split; try done.
    + intros _ p w Hp. assert (H : on o g !! p = Some (Some o, w)) by by apply on_lookup. by rewrite Hon, lookup_empty in H.
    + intros Hno. destruct Hon. apply map_eq. intros p. rewrite lookup_empty. apply eq_None_not_Some. intros [[x w] [Hx Ho]%on_lookup].
      cbn in Ho. subst x. by destruct (Hno p w).
  - intros Hg. apply Forall_lookup. intros i e Hi. destruct (fs e) eqn:Hf; [|done]. destruct (inv_count _ _ _ Hv i e Hi Hf) as [Hne _].
    destruct Hne. rewrite Hg. apply map_filter_empty.
Qed.

(** After [f_mount] to unmount nothing is open. *)
Lemma clear_lock_frees t : Forall (fun e => fs e = false) (clear_lock t).
Proof. apply Forall_map, Forall_true. done. Qed.

(** ** Examples *)
Definition ex_file (o : object) : found := mkFound FR_OK o FR_OK (0, 9) FR_OK.
Definition ex_missing : found := mkFound FR_NO_FILE (0, 9) FR_OK (0, 9) FR_OK.
Definition FR_DISK_ERR : Z := 1.

(** Two readers, a writer that is refused, a new file, a directory. *)
Definition ex_ops : list op :=
  [Open 1 (ex_file (0, 4)) FA_READ; Open 2 (ex_file (0, 4)) FA_READ; Open 3 (ex_file (0, 4)) FA_WRITE; Remove FR_OK (0, 4) FR_OK;
   Open 3 ex_missing FA_READ; Open 3 ex_missing (Z.lor FA_WRITE FA_OPEN_ALWAYS); Close 1 FR_OK; Open 4 (ex_file (0, 9)) FA_READ;
   Opendir 5 FR_OK 7; Opendir 6 FR_OK 0; Close 2 FR_OK; Open 1 (ex_file (0, 4)) FA_WRITE; Closedir 5; Close 3 FR_OK; Close 1 FR_OK; Closedir 6].

Example ex_ops_run :
  ((run ex_ops mounted).1, forallb free (Files (run ex_ops mounted).2))
  = ([FR_OK; FR_OK; FR_LOCKED; FR_LOCKED; FR_NO_FILE; FR_OK; FR_OK; FR_LOCKED; FR_OK; FR_OK; FR_OK; FR_OK; FR_OK; FR_OK; FR_OK; FR_OK], true).
Proof. vm_compute. reflexivity. Qed.

(** The counter of the 256th reader is the one of a writer: a reader that
    closes the file then makes it free, though 255 have it open. *)
Definition ex_readers : list op := map (fun k => Open (Pos.of_succ_nat k) (ex_file (0, 4)) FA_READ) (seq 0 256).

Example ex_256_readers :
  (run (ex_readers ++ [Open 300 (ex_file (0, 4)) FA_READ; Close 1 FR_OK; Open 300 (ex_file (0, 4)) FA_WRITE]) mounted).1
  = replicate 256 FR_OK ++ [FR_LOCKED; FR_OK; FR_OK].
Proof. vm_compute. reflexivity. Qed.

(** A directory is locked under its own cluster, and removed under its entry in
    the one above: [f_unlink] removes the directory of cluster 7, whose entry is (0, 5), while it is open. *)
Example ex_open_directory_removed : (run [Opendir 1 FR_OK 7; Remove FR_OK (0, 5) FR_OK] mounted).1 = [FR_OK; FR_OK].
Proof. vm_compute. reflexivity. Qed.

(** A file whose last data cannot be written stays open in the table. *)
Example ex_sync_fails :
  (run [Open 1 (ex_file (0, 4)) FA_WRITE; Close 1 FR_DISK_ERR; Open 2 (ex_file (0, 4)) FA_READ] mounted).1 = [FR_OK; FR_DISK_ERR; FR_LOCKED].
Proof. vm_compute. reflexivity. Qed.

Lemma ex_fat_ops_ok : ops_ok ex_ops ∅.
Proof.
  assert (H4 : is_file (0, 4)) by by left. assert (H9 : is_file (0, 9)) by by left.
  unfold ex_ops. cbn [ops_ok op_ok].
  repeat match goal with |- context [spec_step ?x ?g] => let r := eval vm_compute in (spec_step x g).2 in change (spec_step x g).2 with r end.
  repeat split; try done; try (by intros [=]); try (vm_compute; lia). all: try (intros o w; vm_compute; by intros [= <- <-]).
Qed.

Lemma fat_locks_refine_witness :
  (run ex_ops mounted).1 = (spec_run ex_ops ∅).1 /\ Forall (fun e => fs e = false) (Files (run ex_ops mounted).2).
Proof.
  destruct (fat_locks_refine ex_ops ex_fat_ops_ok) as (Hr & _ & _ & _ & Hf). split; [exact Hr|]. apply Hf. vm_compute. reflexivity.
Defined.

End FatLocks.
