(* ===== verification/FatNames.v ===== *)
(** * Long names of a FAT volume

    What [filesystem/fat32/ff.cpp] was changed to do with names: a segment of an
    UTF-8 path becomes the UTF-16 long name of an entry ([create_name], without
    the short name that is made of it), and the name of an entry becomes UTF-8 again
    ([get_fileinfo]), in the buffer of [Fat32Directory]. *)
From S2P Require Import Prelude Errors Unicode.

Local Open Scope Z_scope.

Module FatNames.

Definition FR_OK : Z := 0.
Definition FR_INVALID_NAME : Z := 6.

(** [_MAX_LFN], and the size of [Fat32Directory::lfn]. *)
Definition MAX_LFN : Z := 255.
Definition lfsize : Z := (MAX_LFN + 1) * 2.

Definition slash : Z := 47.
Definition backslash : Z := 92.
Definition is_separator (c : Z) : bool := (c =? slash) || (c =? backslash).

(** Characters that a long name does not have. *)
Definition illegal : list Z := [34; 42; 58; 60; 62; 63; 124; 127].
Definition chk_chr (c : Z) : bool := existsb (Z.eqb c) illegal.

(** ** From a path to a long name *)
Fixpoint skip_separators (p : list Z) : list Z :=
  match p with c :: p' => if is_separator c then skip_separators p' else p | [] => [] end.

(** The loop: [None] is the return with [FR_INVALID_NAME]; else the character that ended the
    segment, the name so far, and the path from there on. *)
Fixpoint lfn_loop (fuel : nat) (p lfn : list Z) : exec (option (Z * list Z * list Z)) :=
  match fuel with
  | O => Fault OutOfFuel
  | S fuel =>
      '(w, p) ← nextUtf8 p;
      if (w =? invalid) || (0xffff <? w) then Done None
      else if (w <? 32) || is_separator w then Done (Some (w, lfn, p))
      else if MAX_LFN <=? Z.of_nat (length lfn) then Done None
      else if (w <? 0x80) && chk_chr w then Done None
      else lfn_loop fuel p (lfn ++ [w])
  end.

(** Trailing spaces and dots, on the reversed name. *)
Definition stripped (c : Z) : bool := (c =? 32) || (c =? 46).
Fixpoint strip_rev (l : list Z) : list Z := match l with c :: l' => if stripped c then strip_rev l' else l | [] => [] end.
Definition strip (l : list Z) : list Z := rev (strip_rev (rev l)).

(** The result; the name; whether it is the last of the path; the rest of the path. *)
Definition create_lfn (path : list Z) : exec (Z * list Z * bool * list Z) :=
  let p := skip_separators path in
  r ← lfn_loop (S (length p)) p [];
  match r with
  | None => Done (FR_INVALID_NAME, [], false, path)
  | Some (w, lfn, p) =>
      match strip lfn with
      | [] => Done (FR_INVALID_NAME, [], w <? 32, p)
      | lfn => Done (FR_OK, lfn, w <? 32, p)
      end
  end.

(** ** From an entry to a name *)

(** The bytes before the terminator; none if a character is not valid or does not fit. *)
Fixpoint put_name (pp units : list Z) : list Z :=
  match units with
  | [] => pp
  | w :: units =>
      let '(e, _, written) := putUtf8 w (lfsize - 1 - Z.of_nat (length pp)) in
      match e with OK => put_name (pp ++ written) units | _ => [] end
  end.

(** The long name of the entry, if it has one, and its short name. *)
Definition lfname (lfn : option (list Z)) (sfn : list Z) : list Z :=
  let pp := match lfn with Some lfn => put_name [] lfn | None => [] end in
  match pp with [] => put_name [] sfn | _ => pp end.

(** ** What they do *)
Definition legal (c : Z) : Prop := scalar c /\ 32 <= c /\ c <= 0xffff /\ is_separator c = false /\ chk_chr c = false.
#[export] Instance legal_dec c : Decision (legal c).
Proof. unfold legal. apply _. Defined.

(** The characters of a segment. *)
Definition segment (cs : list Z) : Prop := Forall (fun c => scalar c /\ 32 <= c /\ is_separator c = false) cs.

Lemma legal_scalar c : legal c -> scalar c.
Proof. by intros []. Qed.

Lemma chk_chr_ascii c : chk_chr c = true -> c < 0x80.
Proof. unfold chk_chr, illegal. cbn [existsb]. rewrite !orb_true_iff, !Z.eqb_eq. intros H. lia. Qed.

Lemma put_name_gives pp cs :
  Forall scalar cs -> put_name pp cs = if Z.of_nat (length (pp ++ flat_map enc8 cs)) <? lfsize then pp ++ flat_map enc8 cs else if decide (cs = []) then pp else [].
Proof.
  intros Hcs. revert pp. induction Hcs as [|c cs Hc _ IH]; intros pp; cbn [put_name flat_map].
  - rewrite app_nil_r. by case_match.
  - rewrite putUtf8_correct by (destruct Hc; lia). unfold put_spec. rewrite decide_True by done.
    rewrite length_app in *. destruct (Z.leb_spec (Z.of_nat (length (enc8 c))) (lfsize - 1 - Z.of_nat (length pp))) as [Hfit|Hfit].
    + rewrite IH, app_assoc. rewrite !length_app. rewrite <- Nat.add_assoc. case_cmp; [done|]. rewrite (decide_False (P := c :: cs = [])) by done.
      case_decide as Hn; [|done]. subst cs. cbn in *. lia.
    + rewrite (proj2 (Z.ltb_ge _ _)) by (rewrite length_app; lia). done.
Qed.

Lemma put_name_fits cs : Forall scalar cs -> put_name [] cs = if Z.of_nat (length (flat_map enc8 cs)) <? lfsize then flat_map enc8 cs else [].
Proof. intros Hcs. rewrite put_name_gives by done. cbn [app]. repeat case_match; done. Qed.

(** A segment that ends with [e]: the terminator or a separator. *)
Definition ends (e : Z) : Prop := e = 0 \/ is_separator e = true.

Lemma next_end e rest : ends e -> nextUtf8 (e :: rest) = Done (e, rest) /\ e <> invalid /\ e <= 0xffff /\ (e <? 32) || is_separator e = true.
Proof.
  intros [->|He]; [done|]. unfold is_separator in He. apply orb_true_iff in He as [->%Z.eqb_eq| ->%Z.eqb_eq]; done.
Qed.

Lemma lfn_loop_gives cs e rest : forall fuel lfn,
  segment cs -> ends e -> (length cs < fuel)%nat -> Forall legal lfn -> Z.of_nat (length lfn) <= MAX_LFN ->
  lfn_loop fuel (flat_map enc8 cs ++ e :: rest) lfn
  = Done (if decide (Forall legal cs) then if Z.of_nat (length (lfn ++ cs)) <=? MAX_LFN then Some (e, lfn ++ cs, rest) else None else None).
Proof.
  induction cs as [|c cs IH]; intros fuel lfn Hcs He Hfuel Hl Hn; (destruct fuel as [|fuel]; [cbn in Hfuel; lia|]); cbn [lfn_loop flat_map app].
  - destruct (next_end e rest He) as (Hnext & Hi & Hb & Ht). rewrite Hnext. cbn [mbind outcome_bind].
    rewrite (proj2 (Z.eqb_neq _ _)), (proj2 (Z.ltb_ge _ _)), Ht by done. cbn [orb]. rewrite decide_True by done. by rewrite app_nil_r, (proj2 (Z.leb_le _ _)).
  - inversion Hcs as [|?? (Hc & H32 & Hsep) Hcs']; subst. rewrite <- app_assoc. unfold nextUtf8. rewrite nextUtf8_enc8 by done. cbn [mbind outcome_bind].
    destruct (Z.eqb_spec c invalid) as [->|_]; [by destruct Hc as [[_ ?] _]|]. cbn [orb].
    destruct (Z.ltb_spec 0xffff c) as [Hbig|Hbig].
    { rewrite decide_False; [done|]. intros Hall. inversion Hall as [|?? (_ & _ & ? & _) _]; lia. }
    rewrite Hsep, (proj2 (Z.ltb_ge c 32)) by done. cbn [orb]. destruct (Z.leb_spec MAX_LFN (Z.of_nat (length lfn))) as [Hfull|Hfull].
    { destruct (decide (Forall legal (c :: cs))); [|done]. rewrite (proj2 (Z.leb_gt _ _)); [done|]. rewrite length_app. cbn [length]. lia. }
    destruct (chk_chr c) eqn:Hchk.
    { rewrite (proj2 (Z.ltb_lt _ _)) by by apply chk_chr_ascii. cbn [andb]. rewrite decide_False; [done|]. intros Hall.
      inversion Hall as [|?? (_ & _ & _ & _ & ?) _]; congruence. }
    rewrite andb_false_r. assert (Hlegal : legal c) by by split_and!. cbn [length] in Hfuel.
    rewrite IH; [|done|done|lia|by apply Forall_app; split; [|constructor]|rewrite length_app; cbn [length]; lia].
    rewrite <- app_assoc. cbn [app]. f_equal. destruct (decide (Forall legal cs)); destruct (decide (Forall legal (c :: cs))) as [Hf|Hf]; try done.
    + destruct Hf. by constructor.
    + inversion Hf; subst. done.
Qed.

Lemma skip_separators_segment cs p : segment cs -> cs <> [] -> skip_separators (flat_map enc8 cs ++ p) = flat_map enc8 cs ++ p.
Proof.
  intros Hcs Hne. destruct cs as [|c cs]; [done|]. inversion Hcs as [|?? (Hc & H32 & Hsep) _]; subst. cbn [flat_map]. rewrite <- app_assoc.
  assert (Hb : exists b l, enc8 c = b :: l /\ is_separator b = false).
  { unfold enc8, is_separator, slash, backslash in *. pose proof (Z.div_pos c 64). pose proof (Z.div_pos c 4096). pose proof (Z.div_pos c 262144).
    repeat case_cmp; eexists _, _; (split; [done|]); try done; apply orb_false_iff; rewrite !Z.eqb_neq; lia. }
  destruct Hb as (b & l & -> & Hb). cbn. by rewrite Hb.
Qed.

Lemma skip_separators_app seps p : Forall (fun c => is_separator c = true) seps -> skip_separators (seps ++ p) = skip_separators p.
Proof. induction 1 as [|c seps Hc _ IH]; [done|]. cbn. by rewrite Hc. Qed.

Lemma strip_rev_suffix l : exists l', l = l' ++ strip_rev l /\ Forall (fun c => stripped c = true) l'.
Proof.
  induction l as [|c l (l' & E & Hl)]; [by exists []|]. cbn. destruct (stripped c) eqn:Hc; [|by exists []].
  exists (c :: l'). split; [cbn; by f_equal|by constructor].
Qed.

(** What is stripped is spaces and dots at the end. *)
Lemma strip_prefix l : exists l', l = strip l ++ l' /\ Forall (fun c => stripped c = true) l'.
Proof.
  destruct (strip_rev_suffix (rev l)) as (l' & E & Hl). exists (rev l'). split; [|by apply Forall_rev].
  unfold strip. by rewrite <- rev_app_distr, <- E, rev_involutive.
Qed.

Lemma flat_map_length cs : (length cs <= length (flat_map enc8 cs))%nat.
Proof. apply enc8_cons_not_nil. Qed.

(** C15: a file is listed under the name it was created with: a segment of a
    path, of any characters, in UTF-8, makes a long name exactly when it has no
    forbidden character and none above U+FFFF, at most 255, and not only spaces
    and dots, which are dropped at the end; and the name that [readdir] makes of
    the entry is the same bytes, if they are less than [lfsize], and else the short name. *)
Theorem long_names_roundtrip seps cs e rest sfn :
  Forall (fun c => is_separator c = true) seps -> segment cs -> cs <> [] -> ends e ->
  if decide (Forall legal cs /\ Z.of_nat (length cs) <= MAX_LFN /\ strip cs <> []) then
    create_lfn (seps ++ flat_map enc8 cs ++ e :: rest) = Done (FR_OK, strip cs, e <? 32, rest) /\
    lfname (Some (strip cs)) sfn = if Z.of_nat (length (flat_map enc8 (strip cs))) <? lfsize then flat_map enc8 (strip cs) else put_name [] sfn
  else exists r, create_lfn (seps ++ flat_map enc8 cs ++ e :: rest) = Done (FR_INVALID_NAME, [], r.1, r.2).
Proof.
  intros Hseps Hcs Hne He. unfold create_lfn. rewrite skip_separators_app, skip_separators_segment by done.
  assert (Hloop := lfn_loop_gives cs e rest (S (length (flat_map enc8 cs ++ e :: rest))) [] Hcs He). rewrite Hloop; clear Hloop; [|rewrite length_app; pose proof (flat_map_length cs); lia|by constructor|done].
  cbn [mbind outcome_bind app]. destruct (decide (Forall legal cs)) as [Hl|Hl].
  2:{ rewrite decide_False by (by intros [? _]). by eexists (_, _). }
  destruct (Z.leb_spec (Z.of_nat (length cs)) MAX_LFN) as [Hlen|Hlen].
  2:{ rewrite decide_False by (intros (_ & ? & _); lia). by eexists (_, _). }
  destruct (strip cs) as [|c cs'] eqn:Hs; [rewrite decide_False by (by intros (_ & _ & ?)); by eexists (_, _)|].
  rewrite decide_True by done. split; [done|]. destruct (strip_prefix cs) as (l' & E & _). rewrite Hs in E.
  assert (Hsc : Forall scalar (c :: cs')).
  { rewrite E in Hl. apply Forall_app in Hl as [Hl _]. eapply Forall_impl; [exact Hl|]. apply legal_scalar. }
  unfold lfname. rewrite put_name_fits by done. destruct (_ <? lfsize); [|done].
  destruct (flat_map enc8 (c :: cs')) eqn:Ef; [|done]. apply (f_equal length) in Ef. pose proof (flat_map_length (c :: cs')). cbn in *. lia.
Qed.

(** ** Examples *)

(** "caf", an e with an acute accent, " 1. " in the directory "//", before "/x". *)
Definition ex_name : list Z := [99; 97; 102; 0xe9; 32; 49; 46; 32].
Definition ex_path : list Z := [47; 47] ++ flat_map enc8 ex_name ++ [47; 120; 0].

Example ex_create : create_lfn ex_path = Done (FR_OK, [99; 97; 102; 0xe9; 32; 49], false, [120; 0]).
Proof. vm_compute. reflexivity. Qed.

Example ex_lfname : lfname (Some [99; 97; 102; 0xe9; 32; 49]) [67; 126; 49] = [99; 97; 102; 195; 169; 32; 49].
Proof. vm_compute. reflexivity. Qed.

(** The longest name that can be created, of characters of three bytes, and one of 171:
    the buffer has not the room, and the entry has its short name. *)
Example ex_buffer :
  (length (lfname (Some (replicate 170 0x4e00)) [67; 126; 49]), lfname (Some (replicate 171 0x4e00)) [67; 126; 49],
   match create_lfn (flat_map enc8 (replicate 255 0x4e00) ++ [0]) with Done (r, _, _, _) => r | Fault _ => -1 end) = (510%nat, [67; 126; 49], FR_OK).
Proof. vm_compute. reflexivity. Qed.

(** A character above U+FFFF is refused; a long name that another system made of
    surrogates is listed as the short one. *)
Example ex_astral :
  (create_lfn (flat_map enc8 [97; 0x1f600] ++ [0]), lfname (Some [97; 0xd83d; 0xde00]) [65; 126; 49])
  = (Done (FR_INVALID_NAME, [], false, flat_map enc8 [97; 0x1f600] ++ [0]), [65; 126; 49]).
Proof. vm_compute. reflexivity. Qed.

Lemma long_names_roundtrip_witness :
  create_lfn ex_path = Done (FR_OK, [99; 97; 102; 0xe9; 32; 49], false, [120; 0]) /\
  lfname (Some [99; 97; 102; 0xe9; 32; 49]) [67; 126; 49] = flat_map enc8 [99; 97; 102; 0xe9; 32; 49].
Proof.
  assert (Hseg : segment ex_name) by (unfold ex_name; repeat constructor; try done; unfold scalar; lia).
  assert (Hleg : Forall legal ex_name) by (unfold ex_name; repeat constructor; try done; unfold scalar; lia).
  pose proof (long_names_roundtrip [47; 47] ex_name 47 [120; 0] [67; 126; 49] ltac:(by repeat constructor) Hseg ltac:(done) ltac:(by right)) as H.
  rewrite decide_True in H by (split_and!; [exact Hleg|done|done]). exact H.
Defined.

End FatNames.
