(* ===== verification/Fat32.v ===== *)
(** * The FAT32 filesystem

    Classes [Fat32Fs], [Fat32File] and [Fat32Directory] of
    [filesystem/fat32/fat32.cpp]: the filesystem of the kernel on the FatFs library.
    What the library does is an interface, with what its documentation says as
    laws; its table of open files is FatLocks, its names FatNames.  The mutex is held
    in each function. *)
From stdpp Require Import gmultiset.
From S2P Require Import Prelude Errors Bytes Directories FatLocks.
Import Directories.

Local Open Scope Z_scope.

Module Fat32.

Import FatLocks (FR_OK, FR_NO_FILE, FR_NO_PATH, FR_DENIED, FR_EXIST, FR_WRITE_PROTECTED, FR_LOCKED, FR_NOT_ENOUGH_CORE,
  FR_TOO_MANY_OPEN_FILES, FR_INVALID_OBJECT, FA_READ, FA_WRITE, FA_OPEN_EXISTING, FA_CREATE_ALWAYS, FA_OPEN_ALWAYS).

Definition ENOENT : Z := 2.
Definition EIO : Z := 5.
Definition ENOMEM : Z := 12.
Definition EACCES : Z := 13.
Definition EFAULT : Z := 14.
Definition EBUSY : Z := 16.
Definition EEXIST : Z := 17.
Definition ENOTDIR : Z := 20.
Definition EISDIR : Z := 21.
Definition ENFILE : Z := 23.
Definition ENOSPC : Z := 28.
Definition EROFS : Z := 30.
Definition EOVERFLOW : Z := 139.
Definition DT_REG : Z := 8.

(** [flags] plus one: [O_RDONLY] is [FREAD], [O_WRONLY] is [FWRITE]. *)
Definition FREAD : Z := 1.
Definition FWRITE : Z := 2.
Definition FAPPEND : Z := 0x8.
Definition FCREAT : Z := 0x200.
Definition FTRUNC : Z := 0x400.
Definition has (flags f : Z) : bool := negb (Z.land flags f =? 0).

Definition translateError (ec : Z) : Z :=
  if ec =? FR_OK then 0
  else if (ec =? FR_NO_FILE) || (ec =? FR_NO_PATH) then - ENOENT
  else if ec =? FR_DENIED then - ENOSPC
  else if ec =? FR_EXIST then - EEXIST
  else if ec =? FR_WRITE_PROTECTED then - EROFS
  else if ec =? FR_LOCKED then - EBUSY
  else if ec =? FR_NOT_ENOUGH_CORE then - ENOMEM
  else if ec =? FR_TOO_MANY_OPEN_FILES then - ENFILE
  else - EACCES.

(** ** The library

    [FILINFO]; [FIL] and [DIR_] objects are in the state of the library, by the address of the
    object of the kernel they are part of.  The state is up to its cache. *)
Record FILINFO := mkInfo { fsize : Z; fattrib : Z; fname : list Z; lfname : bytes; f_inode : Z }.
Definition AM_DIR : Z := 0x10.

Class FatFs (volume : Type) := {
  f_mount : bool -> volume -> Z * volume;  (**r whether to unmount *)
  f_open : positive -> str -> Z -> volume -> Z * volume;
  f_close : positive -> volume -> Z * volume;
  f_read : positive -> Z -> volume -> Z * bytes * volume;
  f_write : positive -> bytes -> volume -> Z * Z * volume;
  f_lseek : positive -> Z -> volume -> Z * volume;
  f_sync : positive -> volume -> Z * volume;
  f_tell : positive -> volume -> Z;
  f_size : positive -> volume -> Z;
  f_stat : str -> volume -> Z * FILINFO;
  f_opendir : positive -> str -> volume -> Z * volume;
  f_closedir : positive -> volume -> Z * volume;
  f_readdir : positive -> FILINFO -> volume -> Z * FILINFO * volume;
  f_mkdir : str -> volume -> Z * volume;
  f_unlink : str -> volume -> Z * volume;
  f_rename : str -> str -> volume -> Z * volume;
}.

(** ** Objects *)
Record directory := mkDirectory { fi : FILINFO; currentInode : Z; parentInode : Z; first : bool; unfinished : bool }.
Definition set_first (b : bool) (d : directory) : directory := mkDirectory (fi d) (currentInode d) (parentInode d) b (unfinished d).
Definition set_unfinished (b : bool) (d : directory) : directory := mkDirectory (fi d) (currentInode d) (parentInode d) (first d) b.
Definition set_fi (i : FILINFO) (d : directory) : directory := mkDirectory i (currentInode d) (parentInode d) (first d) (unfinished d).

(** A file has its inode, which is 0 until it is open. *)
Inductive object := File (inode : Z) | Dir (d : directory).

(** [fi] is what was in memory; its long name is empty as long as it is not used. *)
Definition no_info : FILINFO := mkInfo 0 0 [] [] 0.
Definition Fat32Directory (currentInode parentInode : Z) : directory := mkDirectory no_info currentInode parentInode true false.

Record stat := mkStat { st_dev : Z; st_ino : Z; st_mode : Z; st_nlink : Z; st_size : Z; st_blksize : Z; st_blocks : Z }.
Definition S_IFDIR : Z := 0x4000.
Definition S_IFREG : Z := 0x8000.
Definition S_ISDIR (mode : Z) : bool := Z.land mode 0xf000 =? S_IFDIR.

Definition info_type (i : FILINFO) : Z := if negb (Z.land (fattrib i) AM_DIR =? 0) then DT_DIR else DT_REG.
Definition info_entry (i : FILINFO) : entry := (lfname i, (f_inode i, info_type i)).

Section fat32.
Context {volume : Type} `{FatFs volume}.
Implicit Types (v : volume) (p : positive) (name : str) (d : directory).

(** ** [Fat32Directory] *)
Definition add_info (i : FILINFO) (pos len : Z) (b : bytes) : exec (Z * Z * bytes) := addEntry pos len (f_inode i) (info_type i) (lfname i) b.

(** The loop of [getdents], in a buffer that is filled up to [pos]. *)
Fixpoint list_items (fuel : nat) p (pos len : Z) (b : bytes) d v : exec (Z * bytes * directory * volume) :=
  match fuel with
  | O => Fault OutOfFuel
  | S fuel =>
      let '(res, i, v) := f_readdir p (fi d) v in
      let d := set_fi i d in
      if negb (translateError res =? 0) then Done (translateError res, b, d, v)
      else match fname i with
      | [] => '(_, pos, b) ← addTerminatingEntry pos len b; Done (pos, b, d, v)
      | _ =>
          '(r, pos, b) ← add_info i pos len b;
          if r <? 0 then Done (pos, b, set_unfinished true d, v) else list_items fuel p pos len b d v
      end
  end.

(** The result, the buffer, the directory; each entry takes a byte or more of the buffer. *)
Definition getdents p (len : Z) (b : bytes) d v : exec (Z * bytes * directory * volume) :=
  if len <? minimumBufferSize then Done (- EINVAL, b, d, v)
  else
    '(pos, b, d) ← (if first d then '(_, pos, b) ← addDefaultEntries 0 (currentInode d) (parentInode d) b; Done (pos, b, set_first false d)
                    else Done (0, b, d));
    if unfinished d then
      let d := set_unfinished false d in
      '(r, pos, b) ← add_info (fi d) pos len b;
      if r <? 0 then Done (- EINVAL, b, d, v) else list_items (S (Z.to_nat len)) p pos len b d v
    else list_items (S (Z.to_nat len)) p pos len b d v.

(** ** [Fat32File] *)

(** With [SYNC_AFTER_WRITE]. *)
Definition write p (data : bytes) v : Z * volume :=
  let '(res, n, v) := f_write p data v in
  if negb (translateError res =? 0) then (translateError res, v)
  else let '(res, v) := f_sync p v in if negb (res =? FR_OK) then (- EIO, v) else (s32 n, v).

Definition read p (len : Z) v : Z * bytes * volume :=
  let '(res, data, v) := f_read p len v in
  if negb (translateError res =? 0) then (translateError res, data, v) else (s32 (Z.of_nat (length data)), data, v).

Definition SEEK_SET : Z := 0.
Definition SEEK_CUR : Z := 1.
Definition SEEK_END : Z := 2.

(** [off_t] has 64 bits; a sum that has more is undefined. *)
Definition off_add (a b : Z) : exec Z := if (- 2 ^ 63 <=? a + b) && (a + b <? 2 ^ 63) then Done (a + b) else Fault Undefined.

Definition lseek p (pos whence : Z) v : exec (Z * volume) :=
  offset ← (if whence =? SEEK_CUR then o ← off_add (f_tell p v) pos; Done (Some o)
            else if whence =? SEEK_SET then Done (Some pos)
            else if whence =? SEEK_END then o ← off_add (f_size p v) pos; Done (Some o)
            else Done None);
  match offset with
  | None => Done (- EINVAL, v)
  | Some offset =>
      if (offset <? 0) || (f_size p v <? offset) then Done (- EOVERFLOW, v)
      else let '(res, v) := f_lseek p (u32 offset) v in
        Done ((if negb (translateError res =? 0) then translateError res else offset), v)
  end.

Definition fstat (fsId inode : Z) p v : Z * stat :=
  (0, mkStat fsId inode (Z.lor S_IFREG 0x1ed) 1 (f_size p v) 512 ((f_size p v + 511) / 512)).

Definition IOCTL_SYNC : Z := 100.
Definition ioctl p (cmd : Z) v : Z * volume :=
  if negb (cmd =? IOCTL_SYNC) then (- ENOTTY, v) else let '(res, v) := f_sync p v in (translateError res, v).

(** The destructors; the result of the library is not used. *)
Definition destroy p (o : object) v : volume :=
  match o with File inode => if inode =? 0 then v else (f_close p v).2 | Dir _ => (f_closedir p v).2 end.

(** ** [Fat32Fs] *)
Record fat32fs := mkFs { failed : bool; filesystemId : Z; parentFsMountpointInode : Z; filesystem : volume }.
Definition set_volume v (f : fat32fs) : fat32fs := mkFs (failed f) (filesystemId f) (parentFsMountpointInode f) v.

Definition construct (id : Z) v : fat32fs := let '(res, v) := f_mount false v in mkFs (negb (res =? FR_OK)) id 0 v.
Definition destruct_fs (f : fat32fs) : fat32fs := if failed f then f else set_volume (f_mount true (filesystem f)).2 f.

Definition dir_mode : Z := Z.lor S_IFDIR 0x1ed.
Definition reg_mode : Z := Z.lor S_IFREG 0x1ed.

Definition lstat name (f : fat32fs) : Z * option stat :=
  if failed f then (- ENOENT, None)
  else match name with
  | [] => (0, Some (mkStat (filesystemId f) 1 dir_mode 1 0 512 0))
  | _ =>
      let '(res, i) := f_stat name (filesystem f) in
      if negb (translateError res =? 0) then (translateError res, None)
      else (0, Some (mkStat (filesystemId f) (f_inode i) (if negb (Z.land (fattrib i) AM_DIR =? 0) then dir_mode else reg_mode) 1
                      (fsize i) 512 (u32 (fsize i + 511) / 512)))
  end.

Definition openflags (flags : Z) : Z :=
  let o := if has flags FREAD then FA_READ else 0 in
  let o := if has flags FWRITE then Z.lor o FA_WRITE else o in
  if has flags FTRUNC then Z.lor o FA_CREATE_ALWAYS
  else if has flags FCREAT then Z.lor o FA_OPEN_ALWAYS
  else Z.lor o FA_OPEN_EXISTING.

(** What happens to a file after [f_open], up to its use: an early return destroys the object. *)
Definition refuse p (inode err : Z) v (f : fat32fs) : Z * option object * fat32fs := (err, None, set_volume (destroy p (File inode) v) f).

Definition file_opened p (inode flags : Z) v (f : fat32fs) : Z * option object * fat32fs :=
  if s32 (f_size p v) <? 0 then refuse p inode (- EOVERFLOW) v f
  else
    let '(res, v) := f_sync p v in
    if negb (res =? FR_OK) then refuse p inode (- EFAULT) v f
    else if has flags FAPPEND then
      let '(res, v) := f_lseek p (f_size p v) v in
      if negb (res =? FR_OK) then refuse p inode (- EFAULT) v f else (0, Some (File inode), set_volume v f)
    else (0, Some (File inode), set_volume v f).

Definition open_regular p name (flags : Z) (st : option stat) (f : fat32fs) : Z * option object * fat32fs :=
  let '(res, v) := f_open p name (openflags flags) (filesystem f) in
  if negb (translateError res =? 0) then refuse p 0 (translateError res) v f
  else match st with
  | Some st => file_opened p (st_ino st) flags v f
  | None =>
      match lstat name (set_volume v f) with
      | (_, Some st) => file_opened p (st_ino st) flags v f
      | (err, None) => refuse p 0 err v f
      end
  end.

(** [findLastOf('/')]: the name up to there. *)
Fixpoint upto_last_slash name : option str :=
  match name with
  | [] => None
  | c :: name => match upto_last_slash name with Some n => Some (c :: n) | None => if c =? 47 then Some [] else None end
  end.

Definition parent_inode name (f : fat32fs) : Z + Z :=
  match name with
  | [] => inr (parentFsMountpointInode f)
  | _ =>
      match upto_last_slash name with
      | None => inr 1
      | Some parent => match lstat parent f with (_, Some st) => inr (st_ino st) | (err, None) => inl err end
      end
  end.

Definition open_directory p name (ino flags : Z) (f : fat32fs) : Z * option object * fat32fs :=
  if has flags (Z.lor FWRITE (Z.lor FAPPEND (Z.lor FCREAT FTRUNC))) then (- EISDIR, None, f)
  else
    match parent_inode name f with
    | inl err => (err, None, f)
    | inr parent =>
        let d := Fat32Directory ino parent in
        let '(res, v) := f_opendir p name (filesystem f) in
        if negb (translateError res =? 0) then (translateError res, None, set_volume (destroy p (Dir d) v) f)
        else (0, Some (Dir d), set_volume v f)
    end.

(** The object is created at [p]. *)
Definition open p name (flags : Z) (f : fat32fs) : Z * option object * fat32fs :=
  if failed f then (- ENOENT, None, f)
  else
    let flags := flags + 1 in
    match lstat name f with
    | (err, None) =>
        if negb (Z.land flags (Z.lor FWRITE FCREAT) =? Z.lor FWRITE FCREAT) then (err, None, f) else open_regular p name flags None f
    | (_, Some st) => if S_ISDIR (st_mode st) then open_directory p name (st_ino st) flags f else open_regular p name flags (Some st) f
    end.

Definition unlinkRmdirHelper name (delDir : bool) (f : fat32fs) : Z * fat32fs :=
  if failed f then (- ENOENT, f)
  else
    match lstat name f with
    | (err, None) => (err, f)
    | (_, Some st) =>
        if delDir && negb (S_ISDIR (st_mode st)) then (- ENOTDIR, f)
        else if negb delDir && S_ISDIR (st_mode st) then (- EISDIR, f)
        else let '(res, v) := f_unlink name (filesystem f) in (translateError res, set_volume v f)
    end.
Definition unlink name (f : fat32fs) : Z * fat32fs := unlinkRmdirHelper name false f.
Definition rmdir name (f : fat32fs) : Z * fat32fs := unlinkRmdirHelper name true f.

Definition rename (oldName newName : str) (f : fat32fs) : Z * fat32fs :=
  if failed f then (- ENOENT, f) else let '(res, v) := f_rename oldName newName (filesystem f) in (translateError res, set_volume v f).
Definition mkdir name (f : fat32fs) : Z * fat32fs :=
  if failed f then (- ENOENT, f) else let '(res, v) := f_mkdir name (filesystem f) in (translateError res, set_volume v f).

End fat32.

(** ** Listing

    [f_readdir] gives the entries one by one, then one without a name. *)
Class Enumerates (volume : Type) `{FatFs volume} := {
  remaining : positive -> volume -> list FILINFO;
  readdir_named : forall p v, Forall (fun i => fname i <> []) (remaining p v);
  readdir_next : forall p i0 v i l, remaining p v = i :: l -> exists v', f_readdir p i0 v = (FR_OK, i, v') /\ remaining p v' = l;
  readdir_end : forall p i0 v, remaining p v = [] -> exists i v', f_readdir p i0 v = (FR_OK, i, v') /\ fname i = [] /\ remaining p v' = [];
}.

(** Whether there is a record of no length in a buffer, at which [readdir] of the C library ends. *)
Fixpoint ended (n : nat) (b : bytes) : bool :=
  match n, b with
  | O, _ | _, [] => false
  | S n, _ => let reclen := rd 2 b d_reclen in if reclen =? 0 then true else ended n (drop (Z.to_nat reclen) b)
  end.
Definition listing_ended (b : bytes) : bool := ended (length b) b.

(** A program that reads a directory, in buffers of [len] bytes that hold anything. *)
Fixpoint read_all {volume} `{FatFs volume} (n : nat) (p : positive) (len : Z) (bufs : nat -> bytes) (d : directory) (v : volume) : exec (list bytes) :=
  match n with
  | O => Fault OutOfFuel
  | S n =>
      '(r, b, d, v) ← getdents p len (bufs n) d v;
      if r <=? 0 then Done []
      else
        let b := take (Z.to_nat r) b in
        if listing_ended b then Done [b] else l ← read_all n p len bufs d v; Done (b :: l)
  end.

Lemma record_reclen r e rest : entry_ok e -> is_record r e -> rd 2 (r ++ rest) d_reclen = record_size e.1 /\ drop (Z.to_nat (record_size e.1)) (r ++ rest) = rest.
Proof.
  intros [(_ & _ & Hsz) _] (p4 & p & Hp4 & Hr & Heq). pose proof (record_size_pos e.1). split.
  - erewrite (rd_at 2 _ (unword 4 e.2.1 ++ p4 ++ unword 8 0) (unword 2 (record_size e.1)));
      [apply word_unword; simpl; lia|by rewrite Heq, <- !app_assoc|rewrite !length_app, !length_unword; unfold d_reclen; lia|by rewrite length_unword].
  - replace (Z.to_nat (record_size e.1)) with (length r) by lia. apply drop_app_length.
Qed.

Lemma ended_records recs l z : forall k,
  Forall2 is_record recs l -> Forall entry_ok l -> (length (concat recs ++ z) <= k)%nat -> z = [] \/ z = replicate (Z.to_nat direntHeaderSize) 0 ->
  ended k (concat recs ++ z) = negb (bool_decide (z = [])).
Proof.
  intros k Hr. revert k. induction Hr as [|r e recs l Hre _ IH]; intros k Hok Hk Hz.
  - cbn [concat app] in *. destruct Hz as [->| ->]; [by destruct k|]. rewrite length_replicate in Hk. change (Z.to_nat direntHeaderSize) with 24%nat in *. destruct k; [lia|done].
  - inversion Hok as [|?? He Hl]; subst. cbn [concat] in *. rewrite <- app_assoc in *. destruct (record_reclen r e (concat recs ++ z) He Hre) as [Hrl Hd].
    pose proof (record_size_pos e.1). assert (Hlr : (0 < length r)%nat) by (destruct Hre as (? & ? & _ & Hlr & _); lia).
    destruct k as [|k]; [rewrite length_app in Hk; lia|]. destruct (r ++ concat recs ++ z) eqn:E; [destruct r; simpl in *; [lia|done]|].
    cbn [ended]. rewrite Hrl, (proj2 (Z.eqb_neq _ _)) by lia. rewrite Hd. apply IH; [done| |done].
    rewrite <- E, length_app in Hk. lia.
Qed.

Lemma listing_ended_records recs l z :
  Forall2 is_record recs l -> Forall entry_ok l -> z = [] \/ z = replicate (Z.to_nat direntHeaderSize) 0 ->
  listing_ended (concat recs ++ z) = negb (bool_decide (z = [])).
Proof. intros. by eapply ended_records. Qed.

Section listing.
Context {volume : Type} `{Enumerates volume} (p : positive) (len : Z).

Abbreviation info_ok i := (entry_ok (info_entry i)).

(** What is still to be listed. *)
Definition pending (d : directory) (v : volume) : list FILINFO := (if unfinished d then [fi d] else []) ++ remaining p v.
Definition fits_all (l : list FILINFO) : Prop := Forall (fun i => record_size (lfname i) <= len) l.

(** [list_items] adds some of the entries, at least one if there is room for it, and a terminator if there are no more and it has room. *)
Lemma list_infos_give rem : forall fuel recs0 l0 tail d v,
  remaining p v = rem -> unfinished d = false -> len = Z.of_nat (length (concat recs0 ++ tail)) -> (length tail < fuel)%nat ->
  Forall2 is_record recs0 l0 -> Forall entry_ok l0 -> Forall (fun i => info_ok i) rem ->
  exists r b d' v' added left, list_items fuel p (Z.of_nat (length (concat recs0))) len (concat recs0 ++ tail) d v = Done (r, b, d', v')
    /\ rem = added ++ left /\ parse_buffer (take (Z.to_nat r) b) = l0 ++ map info_entry added /\ pending d' v' = left
    /\ first d' = first d /\ currentInode d' = currentInode d /\ parentInode d' = parentInode d
    /\ Z.of_nat (length (concat recs0)) <= r
    /\ (listing_ended (take (Z.to_nat r) b) = true -> left = [])
    /\ match rem with
       | [] => direntHeaderSize <= Z.of_nat (length tail) -> listing_ended (take (Z.to_nat r) b) = true /\ 0 < r
       | i :: _ => record_size (lfname i) <= Z.of_nat (length tail) -> added <> [] /\ 0 < r
       end.
Proof.
  induction rem as [|i rem IH]; intros fuel recs0 l0 tail d v Hrem Hun -> Hfuel Hr0 Hl0 Hok; (destruct fuel as [|fuel]; [lia|]); cbn [list_items].
  - destruct (readdir_end p (fi d) v Hrem) as (i & v' & -> & Hname & Hrem'). cbn [translateError Z.eqb FR_OK negb]. rewrite Hname.
    destruct (addTerminatingEntry_spec (concat recs0) tail) as (z & tail' & r & Hterm & Hz & _). rewrite Hterm. cbn [mbind outcome_bind].
    assert (Hz' : z = [] \/ z = replicate (Z.to_nat direntHeaderSize) 0) by (destruct Hz as [[-> _]| ->]; auto).
    eexists _, _, _, _, [], []. split; [done|]. cbn [map]. rewrite Nat2Z.id, take_app_length, app_nil_r. unfold pending. cbn [set_fi unfinished]. rewrite Hun, Hrem'.
    rewrite (listing_ended_records recs0 l0 z), (parse_buffer_records recs0 l0 z) by done. split_and!; try done; [by rewrite app_nil_r|rewrite length_app; lia|].
    intros Ht. destruct Hz as [[-> Hz]| ->]; [lia|]. split; [done|]. rewrite length_app, length_replicate. change (Z.to_nat direntHeaderSize) with 24%nat. lia.
  - inversion Hok as [|?? Hi Hok']; subst. pose proof (readdir_named p v) as Hnamed. rewrite Hrem in Hnamed. inversion Hnamed as [|?? Hname _]; subst.
    destruct (readdir_next p (fi d) v i rem Hrem) as (v' & -> & Hrem'). cbn [translateError Z.eqb FR_OK negb].
    destruct (fname i) as [|c n] eqn:En; [done|]. clear Hname. unfold add_info.
    pose proof (record_size_pos (lfname i)) as Hpos. destruct (Z.le_gt_cases (record_size (lfname i)) (Z.of_nat (length tail))) as [Hfit|Hfull].
    + destruct (addEntry_fits (concat recs0) tail (info_entry i) (proj1 Hi) Hfit) as (r & tail1 & Hadd & Hr & Hlen).
      change (addEntry _ _ _ _ _ _) with (addEntry (Z.of_nat (length (concat recs0))) (Z.of_nat (length (concat recs0 ++ tail))) (info_entry i).2.1 (info_entry i).2.2 (info_entry i).1 (concat recs0 ++ tail)).
      rewrite Hadd. cbn [mbind outcome_bind]. rewrite (proj2 (Z.ltb_ge _ _)) by (cbn; lia).
      assert (Hlr : (0 < length r)%nat) by (destruct Hr as (? & ? & _ & Hl & _); cbn in Hl; lia).
      replace (concat recs0 ++ r) with (concat (recs0 ++ [r])) by (rewrite concat_app; cbn; by rewrite app_nil_r).
      destruct (IH fuel (recs0 ++ [r]) (l0 ++ [info_entry i]) tail1 (set_fi i d) v' Hrem' Hun) as (q & b & d' & v2 & added & left & Heq & Hs & Hp & Hpend & Hf & Hc & Hpi & Hge & He & _).
      * rewrite Hlen, concat_app. cbn. by rewrite app_nil_r.
      * rewrite !length_app in Hlen. lia.
      * apply Forall2_app; [done|by constructor].
      * apply Forall_app; split; [done|by constructor].
      * done.
      * exists q, b, d', v2, (i :: added), left. rewrite Hs, Hp, <- app_assoc. cbn [map app]. split_and!; try done.
        -- rewrite concat_app, length_app in Hge. lia.
        -- intros _. split; [done|]. rewrite concat_app, length_app in Hge. cbn [concat] in Hge. rewrite app_nil_r in Hge. lia.
    + change (addEntry _ _ _ _ _ _) with (addEntry (Z.of_nat (length (concat recs0))) (Z.of_nat (length (concat recs0 ++ tail))) (info_entry i).2.1 (info_entry i).2.2 (info_entry i).1 (concat recs0 ++ tail)).
      rewrite addEntry_full by (cbn; lia). cbn [mbind outcome_bind]. exists (Z.of_nat (length (concat recs0))), (concat recs0 ++ tail), (set_unfinished true (set_fi i d)), v', [], (i :: rem).
      cbn [map]. rewrite Nat2Z.id, take_app_length, app_nil_r, <- (app_nil_r (concat recs0)).
      rewrite (listing_ended_records recs0 l0 []), (parse_buffer_records recs0 l0 []) by auto. rewrite app_nil_r.
      unfold pending. cbn [set_unfinished unfinished set_fi fi app]. rewrite Hrem'. split_and!; try done. lia.
Qed.

Definition defaults (d : directory) : list entry := if first d then [(dot, (currentInode d, DT_DIR)); (dotdot, (parentInode d, DT_DIR))] else [].
Definition readable (d : directory) (v : volume) : Prop :=
  Forall (fun i => info_ok i) (pending d v) /\ fits_all (pending d v) /\ (first d = true -> unfinished d = false) /\
  0 <= currentInode d < 2 ^ 32 /\ 0 <= parentInode d < 2 ^ 32.

Lemma fat_getdents_gives b d v :
  Z.of_nat (length b) = len -> minimumBufferSize <= len -> readable d v ->
  exists r b' d' v' added left, getdents p len b d v = Done (r, b', d', v') /\ 0 < r
    /\ pending d v = added ++ left /\ parse_buffer (take (Z.to_nat r) b') = defaults d ++ map info_entry added
    /\ pending d' v' = left /\ first d' = false /\ readable d' v'
    /\ (listing_ended (take (Z.to_nat r) b') = true -> left = [])
    /\ (listing_ended (take (Z.to_nat r) b') = true \/ (length left < length (pending d v) + (if first d then 1 else 0))%nat).
Proof.
  intros Hb Hmin (Hok & Hfits & Hfu & Hci & Hpi). unfold getdents. rewrite (proj2 (Z.ltb_ge _ _)) by done.
  assert (Hread : forall added left d' v', pending d v = added ++ left -> pending d' v' = left -> first d' = false ->
    currentInode d' = currentInode d -> parentInode d' = parentInode d -> readable d' v').
  { intros added left d' v' Hs Hp Hf Hc Hpp. rewrite Hs in Hok, Hfits. apply Forall_app in Hok as [_ Hok]. apply Forall_app in Hfits as [_ Hfits].
    unfold readable. rewrite Hp, Hf, Hc, Hpp. by repeat split; try lia. }
  unfold defaults, pending in *. destruct (first d) eqn:Hfirst.
  - rewrite (Hfu eq_refl) in *. cbn [app] in *.
    destruct (split_length b (Z.to_nat (2 * direntHeaderSize))) as (x & tail & -> & Hx).
    { change (Z.to_nat (2 * direntHeaderSize)) with 48%nat. change minimumBufferSize with 72 in Hmin. lia. }
    destruct (addDefaultEntries_records [] x (currentInode d) (parentInode d) Hx tail) as (r1 & r2 & Hadd & Hr1 & Hr2 & Hlen).
    cbn [app length] in Hadd. change (Z.of_nat 0) with 0 in Hadd. rewrite Hadd. cbn [mbind outcome_bind]. change (unfinished (set_first false d)) with (unfinished d). rewrite (Hfu eq_refl).
    replace (r1 ++ r2) with (concat [r1; r2]) by (cbn [concat]; by rewrite app_nil_r).
    assert (Hlen' : len = Z.of_nat (length (concat [r1; r2] ++ tail))) by (cbn [concat]; rewrite app_nil_r; rewrite !length_app in *; lia).
    destruct (list_infos_give (remaining p v) (S (Z.to_nat len)) [r1; r2] [(dot, (currentInode d, DT_DIR)); (dotdot, (parentInode d, DT_DIR))] tail (set_first false d) v)
      as (r & b' & d' & v' & added & left & Heq & Hs & Hp & Hpend & Hf & Hc & Hpp & Hge & He & _); [done|exact (Hfu eq_refl)|done| | | |done|].
    + rewrite Hlen', !length_app. lia.
    + repeat constructor; done.
    + repeat constructor; cbn [fst snd]; try done; lia.
    + exists r, b', d', v', added, left. split_and!; try done.
      * cbn [concat] in Hge. rewrite app_nil_r, Hlen, Hx in Hge. change (Z.to_nat (2 * direntHeaderSize)) with 48%nat in Hge. lia.
      * by apply (Hread added left).
      * right. rewrite Hs, length_app. lia.
  - cbn [mbind outcome_bind]. destruct (unfinished d) eqn:Hun.
    + cbn [app] in *. inversion Hok as [|?? Hi Hok']; subst. inversion Hfits as [|?? Hfit _]; subst. unfold add_info.
      destruct (addEntry_fits [] b (info_entry (fi d)) (proj1 Hi)) as (r0 & tail & Hadd & Hr0 & Hlen); [cbn [app] in *; cbn; lia|].
      change (addEntry 0 _ _ _ _ _) with (addEntry (Z.of_nat (length (A := Z) [])) len (info_entry (fi d)).2.1 (info_entry (fi d)).2.2 (info_entry (fi d)).1 b).
      cbn [app] in *. rewrite Hb in Hadd. rewrite Hadd. cbn [mbind outcome_bind]. rewrite (proj2 (Z.ltb_ge _ _)) by (pose proof (record_size_pos (info_entry (fi d)).1); lia).
      assert (Hlr : (0 < length r0)%nat) by (pose proof (record_size_pos (info_entry (fi d)).1); destruct Hr0 as (? & ? & _ & Hl & _); lia).
      replace r0 with (concat [r0]) by (cbn; by rewrite app_nil_r).
      destruct (list_infos_give (remaining p v) (S (Z.to_nat len)) [r0] [info_entry (fi d)] tail (set_unfinished false d) v)
        as (r & b' & d' & v' & added & left & Heq & Hs & Hp & Hpend & Hf & Hc & Hpp & Hge & He & _); [done|done| | | | |done|].
      * cbn. by rewrite app_nil_r, <- Hlen.
      * rewrite length_app in Hlen. lia.
      * repeat constructor; done.
      * by constructor.
      * exists r, b', d', v', (fi d :: added), left. rewrite Heq. cbn [map app]. cbn [set_unfinished first] in Hf. cbn [concat] in Hge. rewrite app_nil_r in Hge.
        split_and!; try done; [lia|by f_equal|by rewrite Hf| |].
        -- apply (Hread (fi d :: added) left); try done; [cbn; by f_equal|by rewrite Hf].
        -- right. cbn. rewrite Hs, length_app. lia.
    + destruct (list_infos_give (remaining p v) (S (Z.to_nat len)) [] [] b d v)
        as (r & b' & d' & v' & added & left & Heq & Hs & Hp & Hpend & Hf & Hc & Hpp & Hge & He & Hm); [done|done|done|lia|constructor|constructor|done|].
      cbn [concat length app] in Heq. change (Z.of_nat 0) with 0 in Heq. exists r, b', d', v', added, left. rewrite Heq. cbn [app] in *.
      assert (Hcase : 0 < r /\ (listing_ended (take (Z.to_nat r) b') = true \/ (length left < length (remaining p v))%nat)).
      { destruct (remaining p v) as [|i rem] eqn:Hrem.
        - destruct Hm as [Hm Hr]; [change direntHeaderSize with 24; change minimumBufferSize with 72 in Hmin; lia|]. split; [done|by left].
        - inversion Hfits as [|?? Hfit _]; subst. destruct Hm as [Hm Hr]; [lia|]. split; [done|]. right. rewrite Hs, length_app. destruct added; [done|]. cbn. lia. }
      destruct Hcase as [Hr Hcase]. split_and!; try done; [by rewrite Hf| |].
      * apply (Hread added left); try done. by rewrite Hf.
      * destruct Hcase; [by left|right; lia].
Qed.

Lemma fat_read_all_gives n : forall bufs d v,
  (forall k, Z.of_nat (length (bufs k)) = len) -> minimumBufferSize <= len -> readable d v ->
  (length (pending d v) + (if first d then 1 else 0) < n)%nat ->
  exists chunks, read_all n p len bufs d v = Done chunks /\ concat (map parse_buffer chunks) = defaults d ++ map info_entry (pending d v).
Proof.
  induction n as [|n IH]; intros bufs d v Hb Hmin Hread Hn; [lia|].
  destruct (fat_getdents_gives (bufs n) d v (Hb n) Hmin Hread) as (r & b' & d' & v' & added & left & Heq & Hr & Hs & Hp & Hpend & Hf & Hread' & He & Hprog).
  cbn [read_all]. rewrite Heq. cbn [mbind outcome_bind]. rewrite (proj2 (Z.leb_gt _ _)) by done.
  destruct (listing_ended (take (Z.to_nat r) b')) eqn:Hend.
  - eexists. split; [done|]. cbn [map concat]. rewrite Hp, app_nil_r, Hs, (He eq_refl), app_nil_r. done.
  - destruct Hprog as [?|Hprog]; [done|]. destruct (IH bufs d' v' Hb Hmin Hread') as (chunks & Hrun & Hc); [rewrite Hpend, Hf; lia|].
    rewrite Hrun. eexists. split; [done|]. cbn [map concat]. rewrite Hc, Hp, Hs, Hpend, map_app. unfold defaults at 2. by rewrite Hf, <- app_assoc.
Qed.

End listing.

(** C22: a directory of a FAT volume whose [f_readdir] does not fail is listed completely, when the buffer
    has room for each of its entries and for three without a name: a program that calls [getdents] with such buffers up
    to the terminating record gets [.], [..] and every entry
    that [f_readdir] gives, once and in order, with its inode and whether it is a
    directory, however they are distributed on the buffers: one that does not
    fit behind others is kept for the next call.  An entry larger than the whole buffer is lost, as [ex_entry_dropped] shows. *)
Theorem fat32_listing_complete {volume} `{Enumerates volume} p len bufs currentInode parentInode (v : volume) :
  Forall (fun i => entry_ok (info_entry i)) (remaining p v) -> 0 <= currentInode < 2 ^ 32 -> 0 <= parentInode < 2 ^ 32 ->
  minimumBufferSize <= len -> fits_all len (remaining p v) -> (forall k, Z.of_nat (length (bufs k)) = len) ->
  exists chunks, read_all (length (remaining p v) + 2) p len bufs (Fat32Directory currentInode parentInode) v = Done chunks
    /\ concat (map parse_buffer chunks) = (dot, (currentInode, DT_DIR)) :: (dotdot, (parentInode, DT_DIR)) :: map info_entry (remaining p v).
Proof.
  intros Hok Hc Hp Hmin Hfits Hb. apply (fat_read_all_gives p len _ bufs (Fat32Directory currentInode parentInode) v Hb Hmin); [|cbn; lia].
  exact (conj Hok (conj Hfits (conj (fun _ => eq_refl) (conj Hc Hp)))).
Qed.

(** ** Open files

    The table of open objects of the library, by address: [f_open] and [f_opendir] add an
    object when they succeed, [f_close] and [f_closedir] take it away when they succeed.  An
    object that was freed without that stays in the table, so that there can be several of an address. *)
Class Opens (volume : Type) `{FatFs volume} := {
  opened : volume -> gmultiset positive;
  opened_mount : forall v, opened (f_mount false v).2 = ∅;
  opened_open : forall p n m v, opened (f_open p n m v).2 = if (f_open p n m v).1 =? FR_OK then {[+ p +]} ⊎ opened v else opened v;
  opened_close : forall p v, opened (f_close p v).2 = if (f_close p v).1 =? FR_OK then opened v ∖ {[+ p +]} else opened v;
  opened_opendir : forall p n v, opened (f_opendir p n v).2 = if (f_opendir p n v).1 =? FR_OK then {[+ p +]} ⊎ opened v else opened v;
  opened_closedir : forall p v, opened (f_closedir p v).2 = if (f_closedir p v).1 =? FR_OK then opened v ∖ {[+ p +]} else opened v;
  closed_closedir : forall p n v, (f_opendir p n v).1 <> FR_OK -> (f_closedir p (f_opendir p n v).2).1 <> FR_OK;
  opened_read : forall p n v, opened (f_read p n v).2 = opened v;
  opened_write : forall p d v, opened (f_write p d v).2 = opened v;
  opened_lseek : forall p o v, opened (f_lseek p o v).2 = opened v;
  opened_sync : forall p v, opened (f_sync p v).2 = opened v;
  opened_readdir : forall p i v, opened (f_readdir p i v).2 = opened v;
  opened_mkdir : forall n v, opened (f_mkdir n v).2 = opened v;
  opened_unlink : forall n v, opened (f_unlink n v).2 = opened v;
  opened_rename : forall a b v, opened (f_rename a b v).2 = opened v;
  tell_bound : forall p v, 0 <= f_tell p v < 2 ^ 32;
  size_bound : forall p v, 0 <= f_size p v < 2 ^ 32;
  tell_lseek : forall p o v, 0 <= o <= f_size p v -> (f_lseek p o v).1 = FR_OK -> f_tell p (f_lseek p o v).2 = o;
  inode_valid : forall n v, (f_stat n v).1 = FR_OK -> f_inode (f_stat n v).2 <> 0;
}.

(** Operations on a mounted filesystem; what is at an address is used as what it is. *)
Inductive op :=
| Open (p : positive) (name : str) (flags : Z)
| Release (p : positive)
| Read (p : positive) (len : Z)
| Write (p : positive) (data : bytes)
| Lseek (p : positive) (pos whence : Z)
| Ioctl (p : positive) (cmd : Z)
| Getdents (p : positive) (len : Z) (b : bytes)
| Unlink (name : str)
| Rmdir (name : str)
| Mkdir (name : str)
| Rename (a b : str).

Section run.
Context {volume : Type} `{FatFs volume}.

(** The filesystem and its files and directories that are in use. *)
Abbreviation state := (fat32fs (volume := volume) * gmap positive object)%type.
Definition on_file (p : positive) (g : volume -> exec (Z * volume)) (s : state) : exec (Z * state) :=
  match s.2 !! p with
  | Some (File _) => '(r, v) ← g (filesystem s.1); Done (r, (set_volume v s.1, s.2))
  | _ => Done (- EBADF, s)
  end.

Definition step (x : op) (s : state) : exec (Z * state) :=
  match x with
  | Open p name flags =>
      let '(r, o, f) := open p name flags s.1 in Done (r, (f, match o with Some o => <[p:=o]> s.2 | None => s.2 end))
  | Release p =>
      match s.2 !! p with
      | Some o => Done (0, (set_volume (destroy p o (filesystem s.1)) s.1, delete p s.2))
      | None => Done (- EBADF, s)
      end
  | Read p len => on_file p (fun v => let '(r, _, v) := read p len v in Done (r, v)) s
  | Write p data => on_file p (fun v => Done (write p data v)) s
  | Lseek p pos whence => on_file p (lseek p pos whence) s
  | Ioctl p cmd => on_file p (fun v => Done (ioctl p cmd v)) s
  | Getdents p len b =>
      match s.2 !! p with
      | Some (Dir d) => '(r, _, d, v) ← getdents p len b d (filesystem s.1); Done (r, (set_volume v s.1, <[p:=Dir d]> s.2))
      | _ => Done (- EBADF, s)
      end
  | Unlink n => let '(r, f) := unlink n s.1 in Done (r, (f, s.2))
  | Rmdir n => let '(r, f) := rmdir n s.1 in Done (r, (f, s.2))
  | Mkdir n => let '(r, f) := mkdir n s.1 in Done (r, (f, s.2))
  | Rename a b => let '(r, f) := rename a b s.1 in Done (r, (f, s.2))
  end.

Fixpoint run (xs : list op) (s : state) : exec (list Z * state) :=
  match xs with [] => Done ([], s) | x :: xs => '(r, s) ← step x s; '(rs, s) ← run xs s; Done (r :: rs, s) end.

(** A new object is where there is none; a buffer has the length that is given; an offset is an [off_t], 4 GB
    or more from the last one. *)
Definition op_ok (x : op) (s : state) : Prop :=
  match x with
  | Open p _ _ => s.2 !! p = None
  | Getdents _ len b => Z.of_nat (length b) = len
  | Lseek _ pos _ => - 2 ^ 63 <= pos < 2 ^ 63 - 2 ^ 32
  | _ => True
  end.
Fixpoint ops_ok (xs : list op) (s : state) : Prop :=
  match xs with [] => True | x :: xs => op_ok x s /\ forall r s', step x s = Done (r, s') -> ops_ok xs s' end.

#[export] Instance op_ok_dec x s : Decision (op_ok x s).
Proof. destruct x; cbn; apply _. Defined.

(** The same, by running. *)
Fixpoint ops_check (xs : list op) (s : state) : bool :=
  match xs with [] => true | x :: xs => bool_decide (op_ok x s) && match step x s with Done (_, s') => ops_check xs s' | Fault _ => true end end.

Lemma ops_check_ok xs : forall s, ops_check xs s = true -> ops_ok xs s.
Proof.
  induction xs as [|x xs IH]; intros s; [done|]. cbn. intros [Hx%bool_decide_eq_true Hxs]%andb_true_iff. split; [done|].
  intros r s' Hs. rewrite Hs in Hxs. by apply IH.
Qed.

(** *** Files that stay open

    Whether [open] goes on to [f_open]; and what it does with a file that [f_open] gave: whether the
    file is used, and the library then. *)
Definition opens_file (name : str) (flags : Z) (f : fat32fs (volume := volume)) : bool :=
  negb (failed f) && match lstat name f with
  | (_, Some st) => negb (S_ISDIR (st_mode st))
  | (_, None) => Z.land flags (Z.lor FWRITE FCREAT) =? Z.lor FWRITE FCREAT
  end.
Definition prepared (p : positive) (flags : Z) (v : volume) : bool * volume :=
  if 2 ^ 31 <=? f_size p v then (false, v)
  else
    let '(res, v) := f_sync p v in
    if negb (res =? FR_OK) then (false, v)
    else if has flags FAPPEND then let '(res, v) := f_lseek p (f_size p v) v in (res =? FR_OK, v) else (true, v).

(** The cases in which a file stays in the table: [f_stat] fails before and after [f_open] has created
    the file, or the library fails to close an object that is released, or a file that is not used. *)
Definition unknown (name : str) (f : fat32fs (volume := volume)) : bool := bool_decide ((lstat name f).2 = None).
Definition leaks (x : op) (s : state) : bool :=
  match x with
  | Open p name flags =>
      let '(res, v) := f_open p name (openflags (flags + 1)) (filesystem s.1) in
      opens_file name (flags + 1) s.1 && (res =? FR_OK) &&
      (if unknown name s.1 && unknown name (set_volume v s.1) then true
       else let '(used, v) := prepared p (flags + 1) v in negb used && negb ((f_close p v).1 =? FR_OK))
  | Release p =>
      match s.2 !! p with
      | Some (File _) => negb ((f_close p (filesystem s.1)).1 =? FR_OK)
      | Some (Dir _) => negb ((f_closedir p (filesystem s.1)).1 =? FR_OK)
      | None => false
      end
  | _ => false
  end.

Definition leaked (x : op) (s : state) : gmultiset positive :=
  if leaks x s then match x with Open p _ _ | Release p => {[+ p +]} | _ => ∅ end else ∅.
Fixpoint lost (xs : list op) (s : state) : gmultiset positive :=
  match xs with [] => ∅ | x :: xs => leaked x s ⊎ match step x s with Done (_, s') => lost xs s' | Fault _ => ∅ end end.

(** The addresses of the objects in use. *)
Definition in_use (os : gmap positive object) : gmultiset positive := list_to_set_disj (map_to_list os).*1.

Lemma in_use_insert os p o : os !! p = None -> in_use (<[p:=o]> os) = {[+ p +]} ⊎ in_use os.
Proof. intros Hp. unfold in_use. by rewrite (map_to_list_insert os p o Hp). Qed.

Lemma in_use_delete os p o : os !! p = Some o -> in_use os = {[+ p +]} ⊎ in_use (delete p os).
Proof. intros Hp. rewrite <- (in_use_insert (delete p os) p o) by apply lookup_delete_eq. by rewrite insert_delete_id. Qed.

Lemma in_use_update os p o o' : os !! p = Some o -> in_use (<[p:=o']> os) = in_use os.
Proof. intros Hp. rewrite <- insert_delete_eq, in_use_insert, (in_use_delete os p o Hp) by apply lookup_delete_eq. done. Qed.

(** The table has the objects in use and those lost; files have inodes. *)
Definition accounted `{!Opens volume} (lost : gmultiset positive) (s : state) : Prop :=
  opened (filesystem s.1) = in_use s.2 ⊎ lost /\ forall p i, s.2 !! p = Some (File i) -> i <> 0.
End run.

(** *** Buffers are written within their bounds *)
Lemma set_bytes_total c off l : 0 <= off -> off + Z.of_nat (length l) <= Z.of_nat (length c) -> exists c', set_bytes c off l = Done c' /\ length c' = length c.
Proof. intros. eexists. split; [by apply set_bytes_in|]. eapply set_bytes_length. by apply set_bytes_in. Qed.

Lemma c_str_length s : (length (c_str s) <= length s)%nat.
Proof. induction s as [|c s IH]; [done|]. simpl. case_cmp; simpl; lia. Qed.

Lemma set_dirent_total pos ino reclen type n b :
  0 <= pos -> pos + direntHeaderSizeNoPadding + Z.of_nat (length n) + 1 <= Z.of_nat (length b) ->
  exists b', set_dirent pos ino reclen type n b = Done b' /\ length b' = length b.
Proof.
  intros Hpos Hlen. unfold set_dirent, strcpy, d_off, d_reclen, d_type, direntHeaderSizeNoPadding in *. pose proof (c_str_length n).
  destruct (set_bytes_total b pos (unword 4 ino)) as (b1 & -> & H1); [lia|rewrite length_unword; lia|]. cbn [mbind outcome_bind].
  destruct (set_bytes_total b1 (pos + 8) (unword 8 0)) as (b2 & -> & H2); [lia|rewrite length_unword; lia|]. cbn [mbind outcome_bind].
  destruct (set_bytes_total b2 (pos + 16) (unword 2 reclen)) as (b3 & -> & H3); [lia|rewrite length_unword; lia|]. cbn [mbind outcome_bind].
  destruct (set_bytes_total b3 (pos + 18) (unword 1 type)) as (b4 & -> & H4); [lia|rewrite length_unword; lia|]. cbn [mbind outcome_bind].
  destruct (set_bytes_total b4 (pos + 19) (c_str n ++ [0])) as (b5 & -> & H5); [lia|rewrite length_app; cbn [length]; lia|]. exists b5. split; [done|lia].
Qed.

Lemma addEntry_total pos len ino type n b :
  0 <= pos <= len -> Z.of_nat (length b) = len ->
  exists r pos' b', addEntry pos len ino type n b = Done (r, pos', b') /\ length b' = length b /\ (r < 0 /\ pos' = pos \/ 0 <= r /\ pos < pos' <= len).
Proof.
  intros Hpos Hb. unfold addEntry. fold (record_size n). pose proof (record_size_bounds n). pose proof (record_size_pos n). case_cmp.
  - eexists _, _, _. split; [done|]. split; [done|]. left. done.
  - destruct (set_dirent_total pos ino (record_size n) type n b) as (b' & -> & Hl); [lia|lia|]. cbn [mbind outcome_bind].
    eexists _, _, _. split; [done|]. split; [done|]. right. lia.
Qed.

Lemma addTerminatingEntry_total pos len b :
  0 <= pos <= len -> Z.of_nat (length b) = len -> exists r pos' b', addTerminatingEntry pos len b = Done (r, pos', b').
Proof.
  intros Hpos Hb. unfold addTerminatingEntry. case_cmp; [by eexists _, _, _|].
  destruct (set_bytes_total b pos (replicate (Z.to_nat direntHeaderSize) 0)) as (b' & -> & _); [lia|rewrite length_replicate; change direntHeaderSize with 24 in *; lia|].
  by eexists _, _, _.
Qed.

Lemma translateError_0 res : (translateError res =? 0) = (res =? FR_OK).
Proof. unfold translateError. destruct (Z.eqb_spec res FR_OK); [done|]. by repeat case_match. Qed.

Lemma translateError_neg res : res <> FR_OK -> translateError res < 0.
Proof. intros Hr. unfold translateError. rewrite (proj2 (Z.eqb_neq _ _)) by done. by repeat case_match. Qed.

(** A size is 2 GB or more when it is a negative [int]. *)
Lemma s32_negative z : 0 <= z < 2 ^ 32 -> (s32 z <? 0) = (2 ^ 31 <=? z).
Proof.
  intros Hz. unfold wrapS. rewrite Z.mod_small by lia. change (32 - 1) with 31.
  destruct (Z.ltb_spec z (2 ^ 31)), (Z.leb_spec (2 ^ 31) z); try lia; apply Z.ltb_lt || apply Z.ltb_ge; lia.
Qed.

Section accounting.
Context {volume : Type} `{Opens volume}.
Implicit Types (v : volume) (p : positive).

Lemma list_items_opened fuel : forall p pos len b d v,
  0 <= pos <= len -> Z.of_nat (length b) = len -> (Z.to_nat (len - pos) < fuel)%nat ->
  exists r b' d' v', list_items fuel p pos len b d v = Done (r, b', d', v') /\ opened v' = opened v.
Proof.
  induction fuel as [|fuel IH]; intros p pos len b d v Hpos Hb Hfuel; [lia|]. cbn [list_items].
  pose proof (opened_readdir p (fi d) v) as Ho. destruct (f_readdir p (fi d) v) as [[res i] v1]. cbn [snd] in Ho.
  destruct (translateError res =? 0); cbn [negb]; [|by eexists _, _, _, _]. destruct (fname i).
  - destruct (addTerminatingEntry_total pos len b Hpos Hb) as (r & pos' & b' & ->). by eexists _, _, _, _.
  - unfold add_info. destruct (addEntry_total pos len (f_inode i) (info_type i) (lfname i) b Hpos Hb) as (r & pos' & b' & -> & Hl & Hr). cbn [mbind outcome_bind].
    case_cmp; [by eexists _, _, _, _|]. destruct (IH p pos' len b' (set_fi i d) v1) as (r' & b2 & d' & v' & -> & Ho'); [lia|lia|lia|].
    eexists _, _, _, _. split; [done|]. congruence.
Qed.

Lemma getdents_opened p len b d v : Z.of_nat (length b) = len -> exists r b' d' v', getdents p len b d v = Done (r, b', d', v') /\ opened v' = opened v.
Proof.
  intros Hb. unfold getdents. case_cmp; [by eexists _, _, _, _|]. change minimumBufferSize with 72 in *.
  assert (Hstart : exists pos b1 d1, (if first d then '(_, pos, b) ← addDefaultEntries 0 (currentInode d) (parentInode d) b; Done (pos, b, set_first false d) else Done (0, b, d)) = Done (pos, b1, d1)
    /\ 0 <= pos <= len /\ Z.of_nat (length b1) = len).
  { destruct (first d); [|eexists _, _, _; split; [done|lia]]. unfold addDefaultEntries, direntHeaderSizeNoPadding.
    destruct (set_dirent_total 0 (currentInode d) direntHeaderSize DT_DIR dot b) as (b1 & -> & Hl1); [lia|cbn; unfold direntHeaderSizeNoPadding; lia|]. cbn [mbind outcome_bind].
    destruct (set_dirent_total (0 + direntHeaderSize) (parentInode d) direntHeaderSize DT_DIR dotdot b1) as (b2 & -> & Hl2); [done|cbn; unfold direntHeaderSizeNoPadding; change direntHeaderSize with 24; lia|].
    eexists _, _, _. split; [done|]. change direntHeaderSize with 24. lia. }
  destruct Hstart as (pos & b1 & d1 & -> & Hpos & Hb1). cbn [mbind outcome_bind]. destruct (unfinished d1).
  - unfold add_info. destruct (addEntry_total pos len (f_inode (fi (set_unfinished false d1))) (info_type (fi (set_unfinished false d1))) (lfname (fi (set_unfinished false d1))) b1 Hpos Hb1)
      as (r & pos' & b' & -> & Hl & Hr). cbn [mbind outcome_bind].
    case_cmp; [by eexists _, _, _, _|]. apply list_items_opened; lia.
  - apply list_items_opened; lia.
Qed.

Lemma write_opened p data v : opened (write p data v).2 = opened v.
Proof.
  unfold write. pose proof (opened_write p data v) as Hw. destruct (f_write p data v) as [[res n] v1]. cbn [snd] in Hw.
  case_match; [done|]. pose proof (opened_sync p v1) as Hs. destruct (f_sync p v1) as [res' v2]. cbn [snd] in Hs. case_match; cbn [snd]; congruence.
Qed.

Lemma read_opened p n v : opened (read p n v).2 = opened v.
Proof. unfold read. pose proof (opened_read p n v) as Hr. destruct (f_read p n v) as [[res data] v1]. cbn [snd] in Hr. by case_match. Qed.

Lemma ioctl_opened p cmd v : opened (ioctl p cmd v).2 = opened v.
Proof. unfold ioctl. case_match; [done|]. pose proof (opened_sync p v) as Hs. by destruct (f_sync p v). Qed.

(** [lseek] goes to the position that it returns, in the file, or fails. *)
Lemma lseek_gives p pos whence v :
  - 2 ^ 63 <= pos < 2 ^ 63 - 2 ^ 32 ->
  exists r v', lseek p pos whence v = Done (r, v') /\ opened v' = opened v /\ (r < 0 \/ 0 <= r <= f_size p v /\ f_tell p v' = r).
Proof.
  intros Hpos. unfold lseek, off_add. pose proof (tell_bound p v). pose proof (size_bound p v) as Hsize.
  assert (Hin : forall x, 0 <= x < 2 ^ 32 -> (- 2 ^ 63 <=? x + pos) && (x + pos <? 2 ^ 63) = true) by (intros; apply andb_true_iff; rewrite Z.leb_le, Z.ltb_lt; lia).
  rewrite !Hin by done. cbn [mbind outcome_bind].
  assert (Hgo : forall offset, exists r v', (if (offset <? 0) || (f_size p v <? offset) then @Done fault (Z * volume) (- EOVERFLOW, v)
      else let '(res, v) := f_lseek p (u32 offset) v in Done ((if negb (translateError res =? 0) then translateError res else offset), v)) = Done (r, v')
      /\ opened v' = opened v /\ (r < 0 \/ 0 <= r <= f_size p v /\ f_tell p v' = r)).
  { intros offset. destruct (Z.ltb_spec offset 0), (Z.ltb_spec (f_size p v) offset); cbn [orb]; try (eexists _, _; split; [done|]; split; [done|by left]).
    assert (Hu : u32 offset = offset) by (apply wrapU_small; lia). rewrite Hu.
    pose proof (opened_lseek p offset v) as Ho. pose proof (tell_lseek p offset v) as Ht. destruct (f_lseek p offset v) as [res v1]. cbn [fst snd] in Ho, Ht.
    eexists _, _. split; [done|]. split; [done|]. rewrite translateError_0. destruct (Z.eqb_spec res FR_OK) as [->|Hres]; cbn [negb].
    - right. split; [done|]. by apply Ht.
    - left. by apply translateError_neg. }
  repeat case_match; try apply Hgo. eexists _, _. split; [done|]. split; [done|by left].
Qed.

Lemma lstat_inode name f err st : lstat name f = (err, Some st) -> st_ino st <> 0.
Proof.
  unfold lstat. destruct (failed f); [done|]. destruct name as [|c n]; [by intros [= <- <-]|].
  pose proof (inode_valid (c :: n) (filesystem f)) as Hi. destruct (f_stat (c :: n) (filesystem f)) as [res i]. cbn [fst snd] in Hi.
  rewrite translateError_0. destruct (Z.eqb_spec res FR_OK) as [->|]; cbn [negb]; [|done]. intros [= <- <-]. by apply Hi.
Qed.

Lemma lstat_fails name f err : lstat name f = (err, None) -> err <> 0.
Proof.
  unfold lstat. destruct (failed f); [by intros [= <-]|]. destruct name as [|c n]; [done|]. destruct (f_stat (c :: n) (filesystem f)) as [res i].
  destruct (Z.eqb_spec (translateError res) 0); cbn [negb]; [done|]. by intros [= <-].
Qed.

(** What [open] does to what the library has open, that was [O]: an object that is returned is
    open, and has an inode if it is a file; else nothing changes, or the file is [lost]. *)
Definition open_result p (O : gmultiset positive) (lost : bool) (x : Z * option object * fat32fs) : Prop :=
  (x.1.1 = 0 <-> x.1.2 <> None) /\ (forall i, x.1.2 = Some (File i) -> i <> 0) /\
  opened (filesystem x.2) = (if x.1.2 is Some _ then {[+ p +]} ⊎ O else if lost then {[+ p +]} ⊎ O else O) /\ (x.1.2 <> None -> lost = false).

Lemma open_refused p O x err f : x = (err, None, f) -> err <> 0 -> opened (filesystem f) = O -> open_result p O false x.
Proof. intros -> He Ho. by split_and!. Qed.

Lemma refuse_result p inode err v f O :
  err <> 0 -> inode <> 0 -> opened v = {[+ p +]} ⊎ O -> open_result p O (negb ((f_close p v).1 =? FR_OK)) (refuse p inode err v f).
Proof.
  intros Herr Hi Ho. unfold refuse, open_result, destroy. cbn [fst snd filesystem set_volume]. rewrite (proj2 (Z.eqb_neq _ _)) by done.
  split; [done|]. split; [done|]. split; [|done]. rewrite opened_close, Ho. destruct ((f_close p v).1 =? FR_OK); simpl; [multiset_solver|done].
Qed.

Lemma file_opened_result p inode flags v f O :
  inode <> 0 -> opened v = {[+ p +]} ⊎ O ->
  open_result p O (let '(used, v) := prepared p flags v in negb used && negb ((f_close p v).1 =? FR_OK)) (file_opened p inode flags v f).
Proof.
  intros Hi Ho. unfold file_opened, prepared. rewrite s32_negative by apply size_bound.
  destruct (2 ^ 31 <=? f_size p v); cbn [negb andb]; [by apply refuse_result|].
  pose proof (opened_sync p v) as Hs. destruct (f_sync p v) as [res v1]. cbn [snd] in Hs. rewrite <- Hs in Ho.
  destruct (res =? FR_OK); cbn [negb]; [|by apply refuse_result].
  assert (Hdone : forall v2, opened v2 = opened v1 -> open_result p O false (0, Some (File inode), set_volume v2 f)).
  { intros v2 Hv2. split; [done|]. split; [by intros i [= <-]|]. split; [|done]. cbn. by rewrite Hv2. }
  destruct (has flags FAPPEND); [|by apply Hdone]. pose proof (opened_lseek p (f_size p v1) v1) as Hl.
  destruct (f_lseek p (f_size p v1) v1) as [res' v2]. cbn [snd] in Hl.
  destruct (res' =? FR_OK); cbn [negb andb]; [by apply Hdone|]. apply refuse_result; [done|done|by rewrite Hl].
Qed.

Lemma open_regular_result p name flags f :
  failed f = false -> 
  let st := (lstat name f).2 in
  open_result p (opened (filesystem f))
    (let '(res, v) := f_open p name (openflags flags) (filesystem f) in (res =? FR_OK) &&
     (if unknown name f && unknown name (set_volume v f) then true else let '(used, v) := prepared p flags v in negb used && negb ((f_close p v).1 =? FR_OK)))
    (open_regular p name flags st f).
Proof.
  intros Hfail st. unfold open_regular, unknown. set (m := openflags flags). pose proof (opened_open p name m (filesystem f)) as Ho.
  destruct (f_open p name m (filesystem f)) as [res v]. cbn [fst snd] in Ho. rewrite translateError_0. destruct (Z.eqb_spec res FR_OK) as [->|Hres]; cbn [negb andb].
  - unfold st. destruct (lstat name f) as [err0 [st0|]] eqn:Hl0; cbn [snd].
    + rewrite bool_decide_false by done. cbn [andb]. apply file_opened_result; [by eapply lstat_inode|done].
    + rewrite bool_decide_true by done. cbn [andb]. destruct (lstat name (set_volume v f)) as [err [st1|]] eqn:Hl; cbn [snd].
      * rewrite bool_decide_false by done. apply file_opened_result; [by eapply lstat_inode|done].
      * rewrite bool_decide_true by done. unfold refuse, destroy. cbn [Z.eqb]. split; [|by split_and!]. cbn [fst snd]. split; [|done]. intros ->. by eapply lstat_fails in Hl.
  - unfold refuse, destroy. cbn [Z.eqb]. eapply open_refused; [done| |done]. by apply Z.lt_neq, translateError_neg.
Qed.

Lemma open_accounted p name flags f os : open_result p (opened (filesystem f)) (leaks (Open p name flags) (f, os)) (open p name flags f).
Proof.
  unfold open, leaks, opens_file. cbn [fst].
  assert (Herr : forall err b, err <> 0 -> b = false -> open_result p (opened (filesystem f)) b (err, None, f)) by (intros err b He ->; by eapply open_refused).
  destruct (failed f) eqn:Hfail; [apply Herr; [done|by destruct (f_open _ _ _ _)]|]. pose proof (open_regular_result p name (flags + 1) f Hfail) as Hreg.
  destruct (lstat name f) as [err [st|]] eqn:Hl; cbn [snd negb andb] in *.
  2:{ destruct (Z.land (flags + 1) (Z.lor FWRITE FCREAT) =? Z.lor FWRITE FCREAT); cbn [negb andb]; [exact Hreg|]. apply Herr; [by eapply lstat_fails|by destruct (f_open _ _ _ _)]. }
  destruct (S_ISDIR (st_mode st)); cbn [negb]; [|exact Hreg].
  match goal with |- open_result _ _ ?b _ => assert (b = false) as -> by by destruct (f_open _ _ _ _) end.
  unfold open_directory. destruct (has (flags + 1) _); [by apply Herr|]. destruct (parent_inode name f) as [e|parent] eqn:Hpar.
  - apply Herr; [|done]. unfold parent_inode in Hpar. destruct name; [done|]. destruct (upto_last_slash (_ :: _)) as [parent|]; [|done]. destruct (lstat parent f) as [e' [s|]] eqn:Hl'; [done|].
    injection Hpar as <-. by eapply lstat_fails.
  - pose proof (opened_opendir p name (filesystem f)) as Ho. pose proof (closed_closedir p name (filesystem f)) as Hc. destruct (f_opendir p name (filesystem f)) as [res v]. cbn [fst snd] in Ho, Hc.
    rewrite translateError_0. destruct (Z.eqb_spec res FR_OK) as [->|Hres]; cbn [negb].
    + split; [done|]. by split_and!.
    + eapply open_refused; [done|by apply Z.lt_neq, translateError_neg|]. unfold destroy. cbn [filesystem set_volume]. rewrite opened_closedir, (proj2 (Z.eqb_neq _ _)); [done|by apply Hc].
Qed.

Lemma unlinkRmdir_opened name del f : opened (filesystem (unlinkRmdirHelper name del f).2) = opened (filesystem f).
Proof.
  unfold unlinkRmdirHelper. destruct (failed f); [done|]. destruct (lstat name f) as [err [st|]]; [|done]. repeat (case_match; [done|]).
  pose proof (opened_unlink name (filesystem f)) as Hu. by destruct (f_unlink name (filesystem f)).
Qed.

Lemma destroy_opened p o v :
  (forall i, o = File i -> i <> 0) ->
  opened (destroy p o v) = if match o with File _ => (f_close p v).1 | Dir _ => (f_closedir p v).1 end =? FR_OK then opened v ∖ {[+ p +]} else opened v.
Proof.
  intros Hi. unfold destroy. destruct o as [i|d]; [|apply opened_closedir]. rewrite (proj2 (Z.eqb_neq _ _)) by by apply Hi. apply opened_close.
Qed.

Abbreviation state := (fat32fs (volume := volume) * gmap positive object)%type.
Implicit Types (s : state) (k : gmultiset positive).

Lemma on_file_accounted k p g s :
  accounted k s -> (exists r v, g (filesystem s.1) = Done (r, v) /\ opened v = opened (filesystem s.1)) ->
  exists r s', on_file p g s = Done (r, s') /\ accounted k s'.
Proof.
  intros Hs (r & v & Hg & Hv). unfold on_file. destruct (s.2 !! p) as [[i|d]|]; [|by eexists _, _..].
  rewrite Hg. eexists _, _. split; [done|]. destruct Hs as [Ho Hi]. split; [|done]. cbn. congruence.
Qed.

Lemma unchanged_accounted k s f : accounted k s -> opened (filesystem f) = opened (filesystem s.1) -> accounted k (f, s.2).
Proof. intros [Ho Hi] Hf. split; [|done]. cbn. congruence. Qed.

Lemma open_step k p name flags s :
  accounted k s -> s.2 !! p = None -> exists r s', step (Open p name flags) s = Done (r, s') /\ accounted (k ⊎ leaked (Open p name flags) s) s'.
Proof.
  intros [Ho Hi] Hp. pose proof (open_accounted p name flags s.1 s.2) as Hop. rewrite <- surjective_pairing in Hop. unfold leaked. cbn [step].
  destruct (open p name flags s.1) as [[r o] f]. destruct Hop as (_ & Hino & Hopen & Hno). cbn [fst snd] in *. eexists _, _. split; [done|].
  rewrite Ho in Hopen. destruct o as [o|].
  - rewrite (Hno ltac:(done)). split; cbn [fst snd]; [rewrite Hopen, in_use_insert by done; multiset_solver|].
    intros q i. rewrite lookup_insert. case_decide; [intros [= ->]; by apply Hino|apply Hi].
  - split; [|done]. cbn [fst snd]. rewrite Hopen. case_match; multiset_solver.
Qed.

Lemma release_step k p s : accounted k s -> exists r s', step (Release p) s = Done (r, s') /\ accounted (k ⊎ leaked (Release p) s) s'.
Proof.
  intros [Ho Hi]. unfold leaked, leaks. cbn [step]. destruct (s.2 !! p) as [o|] eqn:Hp.
  - eexists _, _. split; [done|]. split; cbn [fst snd filesystem set_volume].
    + rewrite destroy_opened by (intros i ->; by apply (Hi p)). rewrite Ho, (in_use_delete _ p o Hp). destruct o; case_match; simpl; multiset_solver.
    + intros q i. rewrite lookup_delete. case_decide; [done|apply Hi].
  - eexists _, _. split; [done|]. split; [|done]. rewrite Ho. multiset_solver.
Qed.

Lemma step_accounted x k s : accounted k s -> op_ok x s -> exists r s', step x s = Done (r, s') /\ accounted (k ⊎ leaked x s) s'.
Proof.
  intros Hs Hx.
  assert (Hnone : leaked x s = ∅ -> (exists r s', step x s = Done (r, s') /\ accounted k s') -> exists r s', step x s = Done (r, s') /\ accounted (k ⊎ leaked x s) s')
    by (intros ->; by rewrite gmultiset_disj_union_right_id).
  destruct x as [p name flags|p|p n|p data|p pos whence|p cmd|p n b|name|name|name|a b]; cbn [op_ok] in *.
  1: by apply open_step.
  1: by apply release_step.
  all: apply Hnone; [done|]; cbn [step].
  - apply on_file_accounted; [done|]. pose proof (read_opened p n (filesystem s.1)) as Hr. destruct (read p n (filesystem s.1)) as [[r d] v]. by exists r, v.
  - apply on_file_accounted; [done|]. pose proof (write_opened p data (filesystem s.1)) as Hr. destruct (write p data (filesystem s.1)) as [r v]. by exists r, v.
  - apply on_file_accounted; [done|]. destruct (lseek_gives p pos whence (filesystem s.1) Hx) as (r & v & Hg & Hv & _). by exists r, v.
  - apply on_file_accounted; [done|]. pose proof (ioctl_opened p cmd (filesystem s.1)) as Hr. destruct (ioctl p cmd (filesystem s.1)) as [r v]. by exists r, v.
  - destruct (s.2 !! p) as [[i|d]|] eqn:Hp; [by eexists _, _| |by eexists _, _]. destruct Hs as [Ho Hi].
    destruct (getdents_opened p n b d (filesystem s.1) Hx) as (r & b' & d' & v & -> & Hv). cbn [mbind outcome_bind]. eexists _, _. split; [done|].
    split; cbn [fst snd filesystem set_volume]; [by rewrite Hv, Ho, (in_use_update _ _ _ _ Hp)|].
    intros q i. rewrite lookup_insert. case_decide; [done|apply Hi].
  - pose proof (unlinkRmdir_opened name false s.1) as Hu. unfold unlink. destruct (unlinkRmdirHelper name false s.1) as [r f]. eexists _, _. split; [done|]. by apply unchanged_accounted.
  - pose proof (unlinkRmdir_opened name true s.1) as Hu. unfold rmdir. destruct (unlinkRmdirHelper name true s.1) as [r f]. eexists _, _. split; [done|]. by apply unchanged_accounted.
  - unfold mkdir. destruct (failed s.1); [eexists _, _; split; [done|]; by apply unchanged_accounted|].
    pose proof (opened_mkdir name (filesystem s.1)) as Hm. destruct (f_mkdir name (filesystem s.1)) as [r v]. eexists _, _. split; [done|]. by apply unchanged_accounted.
  - unfold rename. destruct (failed s.1); [eexists _, _; split; [done|]; by apply unchanged_accounted|].
    pose proof (opened_rename a b (filesystem s.1)) as Hm. destruct (f_rename a b (filesystem s.1)) as [r v]. eexists _, _. split; [done|]. by apply unchanged_accounted.
Qed.

Lemma run_accounted xs : forall k s, accounted k s -> ops_ok xs s -> exists rs s', run xs s = Done (rs, s') /\ accounted (k ⊎ lost xs s) s'.
Proof.
  induction xs as [|x xs IH]; intros k s Hs Hok; [eexists _, _; split; [done|]; cbn [lost]; by rewrite gmultiset_disj_union_right_id|].
  destruct Hok as [Hx Hxs]. destruct (step_accounted x k s Hs Hx) as (r & s1 & Hstep & Hs1).
  destruct (IH _ s1 Hs1 (Hxs _ _ Hstep)) as (rs & s2 & Hrun & Hs2). cbn [run lost]. rewrite Hstep. cbn [mbind outcome_bind]. rewrite Hrun. eexists _, _. split; [done|].
  by rewrite gmultiset_disj_union_assoc.
Qed.

Lemma construct_accounted id v : accounted ∅ (construct id v, ∅).
Proof. split; [|done]. unfold construct. pose proof (opened_mount v) as Hm. destruct (f_mount false v) as [res v1]. cbn in *. by rewrite Hm. Qed.

End accounting.

(** C14: where the eight entries of the library for open objects go.  From the mounting on, after any operations with
    any results of the library, failures of the disk included, the objects that are open
    in the library are those that are in use and those that were [lost], which are: a file that [f_open] created and
    for which [f_stat] fails afterwards as before, and a file or directory for which
    [f_close] or [f_closedir] failed, when it was released or when its [open] failed after [f_open].  All other
    errors of [open] (names that do not exist, files that are too large, directories
    opened to be written) leave nothing open; it succeeds exactly when it gives an object.  [lseek] fails or
    goes to the position it returns, which is in the file, for any offset that is 4 GB or more from the
    end of [off_t]; and no operation writes outside of a buffer. *)
Theorem fat32_files_accounted {volume} `{Opens volume} id (v : volume) xs :
  ops_ok xs (construct id v, ∅) ->
  exists rs s, run xs (construct id v, ∅) = Done (rs, s) /\ opened (filesystem s.1) = in_use s.2 ⊎ lost xs (construct id v, ∅) /\
    (forall p name flags, (open p name flags s.1).1.1 = 0 <-> (open p name flags s.1).1.2 <> None) /\
    (forall p pos whence, - 2 ^ 63 <= pos < 2 ^ 63 - 2 ^ 32 ->
       exists r v', lseek p pos whence (filesystem s.1) = Done (r, v') /\ (r < 0 \/ 0 <= r <= f_size p (filesystem s.1) /\ f_tell p v' = r)).
Proof.
  intros Hok. destruct (run_accounted xs ∅ (construct id v, ∅) (construct_accounted id v) Hok) as (rs & s & Hrun & Hs). exists rs, s.
  rewrite gmultiset_disj_union_left_id in Hs. pose proof Hs as [Ho _]. split_and!; [done|done| |].
  - intros p name flags. apply (open_accounted p name flags s.1 s.2).
  - intros p pos whence Hpos. destruct (lseek_gives p pos whence (filesystem s.1) Hpos) as (r & v' & Hl & _ & Hr). by exists r, v'.
Qed.

(** ** A volume

    One directory: names, whether they are directories, sizes and inodes.  It is full.  The disk
    fails when the file [b] is created. *)
Abbreviation ex_node := (bool * Z * positive)%type.
Record ex_volume := mkEx { tree : gmap str ex_node; objects : gmap positive (str * Z); listings : gmap positive (list (str * ex_node)); table : gmultiset positive; bad : bool }.
Definition FR_DISK_ERR : Z := 1.

Definition ex_info (e : str * ex_node) : FILINFO := mkInfo (e.2.1.2) (if e.2.1.1 then AM_DIR else 0) [65] e.1 (Zpos e.2.2).
Definition ex_set (p : positive) (o : str * Z) (v : ex_volume) : ex_volume := mkEx (tree v) (<[p:=o]> (objects v)) (listings v) (table v) (bad v).
Definition ex_new (p : positive) (n : str) (v : ex_volume) : ex_volume := mkEx (tree v) (<[p:=(n, 0)]> (objects v)) (listings v) ({[+ p +]} ⊎ table v) (bad v).
Definition ex_list (p : positive) (l : list (str * ex_node)) (v : ex_volume) : ex_volume := mkEx (tree v) (objects v) (<[p:=l]> (listings v)) (table v) (bad v).
Definition ex_unset (p : positive) (v : ex_volume) : Z * ex_volume :=
  if bad v then (FR_DISK_ERR, v)
  else match objects v !! p with Some _ => (FR_OK, mkEx (tree v) (delete p (objects v)) (listings v) (table v ∖ {[+ p +]}) false) | None => (FR_INVALID_OBJECT, v) end.
Definition ex_open (p : positive) (n : str) (m : Z) (v : ex_volume) : Z * ex_volume :=
  match tree v !! n with
  | Some (false, _, _) => (FR_OK, ex_new p n v)
  | Some _ => (FR_DENIED, v)
  | None =>
      if FatLocks.creating m then (FR_OK, ex_new p n (mkEx (<[n:=(false, 0, p)]> (tree v)) (objects v) (listings v) (table v) (bool_decide (n = [98]))))
      else (FR_NO_FILE, v)
  end.
Definition ex_opendir (p : positive) (n : str) (v : ex_volume) : Z * ex_volume :=
  match n, tree v !! n with
  | [], _ => (FR_OK, ex_list p (map_to_list (tree v)) (ex_new p n v))
  | _, Some (true, _, _) => (FR_OK, ex_list p [] (ex_new p n v))
  | _, _ => (FR_NO_PATH, mkEx (tree v) (delete p (objects v)) (listings v) (table v) (bad v))
  end.
Definition ex_size (p : positive) (v : ex_volume) : Z :=
  match objects v !! p with Some (n, _) => match tree v !! n with Some (_, z, _) => u32 z | None => 0 end | None => 0 end.
Definition ex_remaining (p : positive) (v : ex_volume) : list (str * ex_node) := default [] (listings v !! p).

#[export] Instance ex_fatfs : FatFs ex_volume := {
  f_mount _ v := (FR_OK, mkEx (tree v) ∅ ∅ ∅ false);
  f_open := ex_open;
  f_close := ex_unset;
  f_read _ _ v := (FR_OK, [], v);
  f_write _ _ v := (FR_DENIED, 0, v);
  f_lseek p o v := match objects v !! p with Some (n, _) => (FR_OK, ex_set p (n, o) v) | None => (FR_INVALID_OBJECT, v) end;
  f_sync _ v := (FR_OK, v);
  f_tell p v := match objects v !! p with Some (_, o) => u32 o | None => 0 end;
  f_size := ex_size;
  f_stat n v :=
    if bad v then (FR_DISK_ERR, no_info)
    else match tree v !! n with Some e => (FR_OK, ex_info (n, e)) | None => (FR_NO_FILE, ex_info (n, (false, 0, 1%positive))) end;
  f_opendir := ex_opendir;
  f_closedir := ex_unset;
  f_readdir p i v := match ex_remaining p v with [] => (FR_OK, no_info, v) | e :: l => (FR_OK, ex_info e, ex_list p l v) end;
  f_mkdir _ v := (FR_DENIED, v);
  f_unlink n v := (FR_OK, mkEx (delete n (tree v)) (objects v) (listings v) (table v) (bad v));
  f_rename _ _ v := (FR_EXIST, v);
}.

#[export] Program Instance ex_enumerates : Enumerates ex_volume := { remaining p v := map ex_info (ex_remaining p v) }.
Next Obligation. intros p v. by apply Forall_map, Forall_true. Qed.
Next Obligation.
  intros p i0 v i l. cbn. destruct (ex_remaining p v) as [|e r]; [done|]. intros [= <- <-]. eexists. split; [done|].
  unfold ex_remaining. cbn. by rewrite lookup_insert_eq.
Qed.
Next Obligation. intros p i0 v. cbn. destruct (ex_remaining p v) as [|e r] eqn:E; [|done]. intros _. eexists _, _. split; [done|]. by rewrite E. Qed.

Lemma ex_unset_table p v : table (ex_unset p v).2 = if (ex_unset p v).1 =? FR_OK then table v ∖ {[+ p +]} else table v.
Proof. unfold ex_unset. destruct (bad v), (objects v !! p); done. Qed.

#[export] Program Instance ex_opens : Opens ex_volume := { opened := table }.
Next Obligation. done. Qed.
Next Obligation. intros p n m v. cbn. unfold ex_open. destruct (tree v !! n) as [[[[] z] i]|]; [done..|]. by destruct (FatLocks.creating m). Qed.
Next Obligation. apply ex_unset_table. Qed.
Next Obligation. intros p n v. cbn. unfold ex_opendir. destruct n as [|c n]; [done|]. by destruct (tree v !! (c :: n)) as [[[[] z] i]|]. Qed.
Next Obligation. apply ex_unset_table. Qed.
Next Obligation.
  intros p n v. cbn. unfold ex_opendir. assert (Hno : forall v', objects v' !! p = None -> (ex_unset p v').1 <> FR_OK) by (intros v' Hv; unfold ex_unset; rewrite Hv; by destruct (bad v')).
  destruct n as [|c n]; [done|]. destruct (tree v !! (c :: n)) as [[[[] z] i]|]; [done|..]; intros _; apply Hno; apply lookup_delete_eq.
Qed.
Next Obligation. done. Qed.
Next Obligation. done. Qed.
Next Obligation. intros p o v. cbn. by destruct (objects v !! p) as [[n o']|]. Qed.
Next Obligation. done. Qed.
Next Obligation. intros p i v. cbn. by case_match. Qed.
Next Obligation. done. Qed.
Next Obligation. done. Qed.
Next Obligation. done. Qed.
Next Obligation. intros p v. cbn. repeat case_match; try done. apply wrapU_bound. done. Qed.
Next Obligation. intros p v. cbn. unfold ex_size. repeat case_match; try done. apply wrapU_bound. done. Qed.
Next Obligation.
  intros p o v Ho. assert (o < 2 ^ 32).
  { assert (f_size p v < 2 ^ 32); [|lia]. cbn. unfold ex_size. repeat case_match; try done. by apply wrapU_bound. }
  cbn. destruct (objects v !! p) as [[n o']|]; [|done]. intros _. cbn. rewrite lookup_insert_eq. apply wrapU_small. lia.
Qed.
Next Obligation. intros n v. cbn. destruct (bad v); [done|]. by case_match. Qed.

(** A directory, a file, one that is too large, and one with a long name. *)
Definition ex_v : ex_volume :=
  mkEx (<[[100]:=(true, 0, 5%positive)]> (<[[102]:=(false, 700, 6%positive)]> (<[[103]:=(false, 2 ^ 31, 7%positive)]> {[replicate 40 104 := (false, 1, 8%positive)]}))) ∅ ∅ ∅ false.

Definition O_RDONLY : Z := 0.
Definition O_RDWR : Z := 2.
Definition ex_ops : list op :=
  [Open 1 [102] O_RDONLY; Open 2 [103] O_RDONLY; Open 2 [120] O_RDWR; Open 2 [120] (Z.lor O_RDWR FCREAT); Open 3 [100] O_RDWR; Open 3 [] O_RDONLY;
   Open 4 [102] (Z.lor O_RDWR FAPPEND); Lseek 4 0 SEEK_CUR; Lseek 4 1 SEEK_END; Getdents 3 100 (replicate 100 0); Release 1; Unlink [100]; Rmdir [100]; Write 4 [1]].

Example ex_run :
  match run ex_ops (construct 9 ex_v, ∅) with Done (rs, s) => Some (rs, (dom s.2 : gset positive)) | Fault _ => None end
  = Some ([0; - EOVERFLOW; - ENOENT; 0; - EISDIR; 0; 0; 700; - EOVERFLOW; 72; 0; - EISDIR; 0; - ENOSPC], {[2; 3; 4]}%positive).
Proof. vm_compute. reflexivity. Qed.

(** The disk fails when a file was created: the file stays open, and so does the one that is released then. *)
Definition ex_lossy : list op := ex_ops ++ [Open 5 [98] (Z.lor O_RDWR FCREAT); Release 4].
Example ex_lost : lost ex_ops (construct 9 ex_v, ∅) = ∅ /\ lost ex_lossy (construct 9 ex_v, ∅) = {[+ 4; 5 +]}%positive.
Proof. split; vm_compute; reflexivity. Qed.

(** An entry that does not fit in an empty buffer is an error, and after it
    the listing goes on without the entry. *)
Example ex_entry_dropped :
  let d := Fat32Directory 1 1 in let v := (f_opendir 3 [] (filesystem (construct 9 (mkEx {[replicate 60 104 := (false, 1, 8%positive)]} ∅ ∅ ∅ false)))).2 in
  match getdents 3 72 (replicate 72 0) d v with
  | Done (r1, _, d, v) =>
      match getdents 3 72 (replicate 72 0) d v with
      | Done (r2, _, d, v) => match getdents 3 512 (replicate 512 0) d v with Done (r3, b, _, _) => (r1, r2, parse_buffer (take (Z.to_nat r3) b)) | Fault _ => (0, 0, []) end
      | Fault _ => (0, 0, [])
      end
  | Fault _ => (0, 0, [])
  end = (48, - EINVAL, []).
Proof. vm_compute. reflexivity. Qed.

Definition ex_dir : ex_volume := (f_opendir 3 [] ex_v).2.

Example ex_dir_remaining :
  remaining 3 ex_dir = [mkInfo 1 0 [65] (replicate 40 104) 8; mkInfo (2 ^ 31) 0 [65] [103] 7; mkInfo 700 0 [65] [102] 6; mkInfo 0 16 [65] [100] 5].
Proof. vm_compute. reflexivity. Qed.

Lemma fat32_listing_complete_witness :
  exists chunks, read_all (length (remaining 3 ex_dir) + 2) 3 72 (fun k => replicate 72 (Z.of_nat k)) (Fat32Directory 1 9) ex_dir = Done chunks
    /\ concat (map parse_buffer chunks) = (dot, (1, DT_DIR)) :: (dotdot, (9, DT_DIR)) :: map info_entry (remaining 3 ex_dir).
Proof.
  refine (fat32_listing_complete 3 72 (fun k => replicate 72 (Z.of_nat k)) 1 9 ex_dir _ _ _ _ _ _); [|done..| |done].
  - assert (Hn : Forall (fun c => 0 < c < 256) (replicate 40 104)) by by apply Forall_replicate.
    rewrite ex_dir_remaining. repeat constructor; cbn [fst snd info_entry lfname f_inode]; try done; try lia.
  - rewrite ex_dir_remaining. repeat constructor; done.
Defined.

Lemma fat32_files_accounted_witness :
  exists rs s, run ex_lossy (construct 9 ex_v, ∅) = Done (rs, s) /\ opened (filesystem s.1) = in_use s.2 ⊎ {[+ 4; 5 +]}%positive.
Proof.
  assert (Hok : ops_ok ex_lossy (construct 9 ex_v, ∅)) by (apply ops_check_ok; vm_compute; reflexivity).
  destruct (fat32_files_accounted 9 ex_v ex_lossy Hok) as (rs & s & Hr & Ho & _). exists rs, s. rewrite (proj2 ex_lost) in Ho. exact (conj Hr Ho).
Defined.

End Fat32.
