(* ===== verification/Terminal.v ===== *)
(** * The terminal

    Class [TerminalDevice] of [filesystem/console/console_device.cpp]: a file
    that edits what is read from a device (newlines, backspace), echoes it, and
    converts the newlines that are written.  A pointer into the buffer of [read] is its
    offset; reads are serialized by the mutex.  The device is that of DevFs. *)
From S2P Require Import Prelude Errors Bytes DevFs.
Import DevFs (Blocks, readBlock, writeBlock).

Local Open Scope Z_scope.

Module Terminal.

Definition CR : Z := 13.
Definition LF : Z := 10.
Definition BS : Z := 8.
Definition DEL : Z := 127.
Definition crlf : bytes := [CR; LF].
(** ["\033[1D \033[1D"] *)
Definition erase_sequence : bytes := [27; 91; 49; 68; 32; 27; 91; 49; 68].

Record terminal := mkTerminal { device : positive; chunkStart : Z; echo : bool; binary : bool; skipNewline : bool }.

Definition construct (device : positive) : terminal := mkTerminal device 0 true false false.
Definition set_chunkStart (c : Z) (t : terminal) : terminal := mkTerminal (device t) c (echo t) (binary t) (skipNewline t).
Definition set_skipNewline (b : bool) (t : terminal) : terminal := mkTerminal (device t) (chunkStart t) (echo t) (binary t) b.
Definition setEcho (b : bool) (t : terminal) : terminal := mkTerminal (device t) (chunkStart t) b (binary t) (skipNewline t).
Definition setBinary (b : bool) (t : terminal) : terminal := mkTerminal (device t) (chunkStart t) (echo t) b (skipNewline t).

(** Part of a buffer. *)
Definition sub_bytes (data : bytes) (from to : Z) : bytes := take (Z.to_nat (to - from)) (drop (Z.to_nat from) data).

Definition memmove (data : bytes) (dst src n : Z) : exec bytes :=
  if (0 <=? dst) && (0 <=? src) && (src + n <=? Z.of_nat (length data)) && (dst + n <=? Z.of_nat (length data)) && (0 <=? n) then
    Done (take (Z.to_nat dst) data ++ take (Z.to_nat n) (drop (Z.to_nat src) data) ++ drop (Z.to_nat (dst + n)) data)
  else Fault Undefined.

Section terminal.
Context {W : Type} `{Blocks W}.

(** *** Writing

    The chunks between newlines; [start] is the start of the current one, as what
    was passed of it. *)
Definition write_chunk (t : terminal) (chunk : bytes) (w : W) : exec (Z * W) :=
  match chunk with [] => Done (1, w) | _ => writeBlock (device t) chunk (Z.of_nat (length chunk)) 0 w end.

Fixpoint write_chunks (t : terminal) (chunk data : bytes) (length : Z) (w : W) : exec (Z * W) :=
  match data with
  | [] => '(r, w) ← write_chunk t chunk w; Done (if r <=? 0 then r else length, w)
  | c :: data =>
      if negb (c =? LF) then write_chunks t (chunk ++ [c]) data length w
      else
        '(r, w) ← write_chunk t chunk w;
        if r <=? 0 then Done (r, w)
        else
          '(r, w) ← writeBlock (device t) crlf 2 0 w;
          if r <=? 0 then Done (r, w) else write_chunks t [] data length w
  end.

Definition write (t : terminal) (data : bytes) (w : W) : exec (Z * W) :=
  if binary t then writeBlock (device t) data (Z.of_nat (length data)) 0 w
  else write_chunks t [] data (Z.of_nat (length data)) w.

(** *** Reading *)
Definition echoBack (data : bytes) (chunkEnd : Z) (sep : bytes) (t : terminal) (w : W) : exec (terminal * W) :=
  if negb (echo t) then Done (t, w)
  else
    w ← (if chunkStart t <? chunkEnd then
           '(_, w) ← writeBlock (device t) (sub_bytes data (chunkStart t) chunkEnd) (chunkEnd - chunkStart t) 0 w; Done w
         else Done w);
    let t := set_chunkStart (chunkEnd + 1) t in
    match sep with
    | [] => Done (t, w)
    | _ => '(_, w) ← writeBlock (device t) sep (Z.of_nat (length sep)) 0 w; Done (t, w)
    end.

(** The loop of [normalize]; [buffer] is at [i].  [n] is what is left. *)
Fixpoint normalize_loop (n : nat) (data : bytes) (i end_ : Z) (newlineFound : bool) (t : terminal) (w : W)
  : exec (bytes * Z * bool * terminal * W) :=
  if end_ <=? i then Done (data, end_, newlineFound, t, w)
  else
    match n with
    | O => Fault OutOfFuel
    | S n =>
        c ← get 1 data i;
        if c =? CR then
          data ← set_bytes data i [LF];
          '(t, w) ← echoBack data i crlf t w;
          normalize_loop n data (i + 1) end_ true (set_skipNewline true t) w
        else if c =? LF then
          if skipNewline t then
            data ← memmove data i (i + 1) (end_ - i - 1);
            normalize_loop n data i (end_ - 1) newlineFound (set_skipNewline false t) w
          else
            '(t, w) ← echoBack data i crlf t w;
            normalize_loop n data (i + 1) end_ true t w
        else if (c =? DEL) || (c =? BS) then
          '(t, w) ← echoBack data i erase_sequence t w;
          let backward := if i =? 0 then 1 else 2 in
          data ← memmove data (i - (backward - 1)) (i + 1) (end_ - i);
          let end_ := end_ - backward in
          let i := i - backward in
          normalize_loop n data (i + 1) end_ newlineFound (set_chunkStart (i + 1) t) w
        else normalize_loop n data (i + 1) end_ newlineFound (set_skipNewline false t) w
    end.

Definition normalize (data : bytes) (begin end_ : Z) (t : terminal) (w : W) : exec (bytes * Z * bool * terminal * W) :=
  '(data, end_, newlineFound, t, w) ← normalize_loop (Z.to_nat (end_ - begin)) data begin end_ false (set_chunkStart begin t) w;
  '(t, w) ← echoBack data end_ [] t w;
  Done (data, end_, newlineFound, t, w).

(** [data] is the memory from the buffer on. *)
Fixpoint read_loop (n : nat) (data : bytes) (length_ readBytes : Z) (t : terminal) (w : W) : exec (Z * bytes * terminal * W) :=
  match n with
  | O => Fault OutOfFuel
  | S n =>
      let size := length_ - readBytes in
      '(r, block, w) ← readBlock (device t) (sub_bytes data readBytes length_) size 0 w;
      data ← set_bytes data readBytes block;
      if r <? 0 then Done (r, data, t, w)
      else
        '(data, readBytes, newlineFound, t, w) ← normalize data readBytes (readBytes + r) t w;
        if (readBytes =? length_) || newlineFound then Done (readBytes, data, t, w) else read_loop n data length_ readBytes t w
  end.

Definition read (n : nat) (data : bytes) (length_ : Z) (t : terminal) (w : W) : exec (Z * bytes * terminal * W) :=
  if binary t then
    '(result, block, w) ← readBlock (device t) (sub_bytes data 0 length_) length_ 0 w;
    data ← set_bytes data 0 block;
    w ← (if echo t && (0 <? result) then '(_, w) ← writeBlock (device t) (sub_bytes data 0 result) result 0 w; Done w else Done w);
    Done (result, data, t, w)
  else read_loop n data length_ 0 t w.

End terminal.

(** *** The other functions *)
Definition lseek (pos whence : Z) : Z := - DevFs.EBADF.
Definition fstat (t : terminal) (objects : gmap positive DevFs.device) : exec MountpointFs.MountpointFs.stat :=
  d ← deref (objects !! device t); Done (DevFs.device_fstat d).
Definition isatty (t : terminal) (objects : gmap positive DevFs.device) : exec Z :=
  d ← deref (objects !! device t); Done (DevFs.device_isatty d).

Definition IOCTL_TCGETATTR : Z := 101.
Definition IOCTL_TCSETATTR_NOW : Z := 102.
Definition IOCTL_TCSETATTR_FLUSH : Z := 103.
Definition IOCTL_TCSETATTR_DRAIN : Z := 104.
(** The bits 1 and 3 of [c_lflag], of the C library. *)
Definition ICANON_bit : Z := 1.
Definition ECHO_bit : Z := 3.
Definition put_bit (b : bool) (n x : Z) : Z := if b then Z.setbit x n else Z.clearbit x n.

(** Given the result of the device's [ioctl]; [lflag] is [c_lflag] of the structure. *)
Definition ioctl (device_result cmd lflag : Z) (t : terminal) : Z * Z * terminal :=
  let result := if device_result =? 0 then 0 else 1 in
  if negb (result =? 0) then (result, lflag, t)
  else if cmd =? IOCTL_TCGETATTR then (0, put_bit (negb (binary t)) ICANON_bit (put_bit (echo t) ECHO_bit lflag), t)
  else if (cmd =? IOCTL_TCSETATTR_NOW) || (cmd =? IOCTL_TCSETATTR_DRAIN) || (cmd =? IOCTL_TCSETATTR_FLUSH) then
    (0, lflag, setBinary (negb (Z.testbit lflag ICANON_bit)) (setEcho (Z.testbit lflag ECHO_bit) t))
  else (0, lflag, t).

(** ** [DefaultConsole]

    The console device, and the devices there are; without files there is no
    terminal in it. *)
Record console := mkConsole { current : positive; objects : gmap positive DevFs.device }.

Definition DefaultConsole (memory : Z * Z) (objects : gmap positive DevFs.device) : console :=
  let p := fresh (dom objects) in mkConsole p (<[p:=DevFs.construct_device memory DevFs.STREAM]> objects).
Definition IRQset (p : positive) (c : console) : console := mkConsole p (objects c).
Definition get_console (c : console) : positive := current c.

(** ** What editing means

    The line as it is typed, whether the last character was a carriage return, and what is shown.  A carriage return is
    a newline, and a line feed is one unless it comes right after a carriage return; backspace and delete take back the
    last character. *)
Record line := mkLine { text : bytes; after_cr : bool; echoed : bytes }.

Definition is_erase (c : Z) : bool := (c =? DEL) || (c =? BS).
Definition edit_char (l : line) (c : Z) : line :=
  if c =? CR then mkLine (text l ++ [LF]) true (echoed l ++ crlf)
  else if c =? LF then
    if after_cr l then mkLine (text l) false (echoed l) else mkLine (text l ++ [LF]) false (echoed l ++ crlf)
  else if is_erase c then mkLine (removelast (text l)) false (echoed l ++ erase_sequence)
  else mkLine (text l ++ [c]) false (echoed l ++ [c]).
Definition edit (l : line) (typed : bytes) : line := fold_left edit_char typed l.

(** A newline is erased: a backspace comes when it is the last character, or right after a carriage return. *)
Definition erases_newline (l : line) (c : Z) : bool := is_erase c && (after_cr l || bool_decide (last (text l) = Some LF)).
Fixpoint newline_erased (l : line) (typed : bytes) : bool :=
  match typed with [] => false | c :: typed => erases_newline l c || newline_erased (edit_char l c) typed end.

(** ** What the loop does

    Its flags are kept when a character is erased: whether a line feed is skipped if it comes next, and whether there was a newline. *)
Record scanned := mkScanned { kept : bytes; skip : bool; newline : bool; shown : bytes }.

Definition scan_char (e : scanned) (c : Z) : scanned :=
  if c =? CR then mkScanned (kept e ++ [LF]) true true (shown e ++ crlf)
  else if c =? LF then
    if skip e then mkScanned (kept e) false (newline e) (shown e) else mkScanned (kept e ++ [LF]) false true (shown e ++ crlf)
  else if (c =? DEL) || (c =? BS) then mkScanned (removelast (kept e)) (skip e) (newline e) (shown e ++ erase_sequence)
  else mkScanned (kept e ++ [c]) false (newline e) (shown e ++ [c]).

Definition scan (e : scanned) (typed : bytes) : scanned := fold_left scan_char typed e.

(** As long as no newline is erased, that is editing. *)
Record agree (e : scanned) (l : line) : Prop := Agree {
  agree_text : kept e = text l;
  agree_cr : skip e = after_cr l;
  agree_newline : newline e = bool_decide (LF ∈ text l);
  agree_shown : shown e = echoed l;
}.

Lemma removelast_newline (l : bytes) : last l <> Some LF -> LF ∈ removelast l <-> LF ∈ l.
Proof.
  induction l as [|x l _] using rev_ind; [done|]. rewrite last_snoc, removelast_last. intros Hx. rewrite elem_of_app, list_elem_of_singleton. split; [by left|].
  intros [?|<-]; [done|]. done.
Qed.

Lemma scan_char_agree e l c : agree e l -> erases_newline l c = false -> agree (scan_char e c) (edit_char l c).
Proof.
  intros [Ht Hc Hn Hs]. unfold erases_newline, scan_char, edit_char. fold (is_erase c). rewrite Ht, Hc, Hn, Hs.
  destruct (Z.eqb_spec c CR) as [->|_].
  { intros _. split; [done|done| |done]. cbn. symmetry. apply bool_decide_eq_true. rewrite elem_of_app, list_elem_of_singleton. by right. }
  destruct (Z.eqb_spec c LF) as [->|Hlf].
  { intros _. destruct (after_cr l); [done|]. split; [done|done| |done]. cbn. symmetry. apply bool_decide_eq_true. rewrite elem_of_app, list_elem_of_singleton. by right. }
  destruct (is_erase c); cbn [andb].
  - intros [-> Hl%bool_decide_eq_false]%orb_false_iff. split; [done|done| |done]. cbn. apply bool_decide_ext. by rewrite removelast_newline.
  - intros _. split; [done|done| |done]. cbn. apply bool_decide_ext. rewrite elem_of_app, list_elem_of_singleton. split; [by left|]. intros [?|E]; [done|]. by destruct Hlf.
Qed.

Lemma scan_agree typed : forall e l, agree e l -> newline_erased l typed = false -> agree (scan e typed) (edit l typed).
Proof.
  induction typed as [|c typed IH]; intros e l He Hn; [done|]. cbn [newline_erased] in Hn. apply orb_false_iff in Hn as [Hc Hn].
  apply (IH (scan_char e c) (edit_char l c)); [by apply scan_char_agree|done].
Qed.

(** ** Buffers *)
Lemma memmove_down a x m z dst src n :
  dst = Z.of_nat (length a) -> src = Z.of_nat (length a + length x) -> n = Z.of_nat (length m) ->
  memmove (a ++ x ++ m ++ z) dst src n = Done (a ++ m ++ drop (length m) (x ++ m) ++ z).
Proof.
  intros -> -> ->. unfold memmove.
  rewrite !(proj2 (Z.leb_le _ _)) by (rewrite ?length_app; lia). cbn [andb].
  rewrite !Nat2Z.id, take_app_length. do 3 f_equal.
  - replace (a ++ x ++ m ++ z) with ((a ++ x) ++ m ++ z) by (by rewrite <- app_assoc). rewrite <- length_app, drop_app_length, take_app_length. done.
  - rewrite <- Nat2Z.inj_add, Nat2Z.id. rewrite <- drop_drop, drop_app_length. rewrite (app_assoc x), drop_app_le by (rewrite length_app; lia). done.
Qed.

Lemma get_mid a c z off : off = Z.of_nat (length a) -> get 1 (a ++ c :: z) off = Done c.
Proof.
  intros ->. rewrite get_in by (rewrite ?length_app; cbn [length]; lia). f_equal. rewrite (rd_mid 1 a [c] z) by done. cbn. lia.
Qed.

Lemma sub_bytes_mid a m z from to :
  from = Z.of_nat (length a) -> to = Z.of_nat (length a + length m) -> sub_bytes (a ++ m ++ z) from to = m.
Proof.
  intros -> ->. unfold sub_bytes. rewrite Nat2Z.id, drop_app_length. replace (Z.to_nat _) with (length m) by lia. by rewrite take_app_length.
Qed.

Lemma removelast_snoc (l : bytes) x : removelast (l ++ [x]) = l.
Proof. apply removelast_last. Qed.

(** ** A device that is a terminal

    What was typed and not yet read, and what was shown. *)
Class TtyLaws (W : Type) `{Blocks W} := {
  incoming : W -> positive -> bytes;
  written : W -> positive -> bytes;
  tty_read : forall p b w, b <> [] -> incoming w p <> [] ->
    exists n w', (0 < n <= length b)%nat /\ (n <= length (incoming w p))%nat /\
      readBlock p b (Z.of_nat (length b)) 0 w = Done (Z.of_nat n, take n (incoming w p) ++ drop n b, w') /\
      incoming w' p = drop n (incoming w p) /\ written w' p = written w p;
  tty_write : forall p b w, b <> [] ->
    exists w', writeBlock p b (Z.of_nat (length b)) 0 w = Done (Z.of_nat (length b), w') /\ incoming w' p = incoming w p /\ written w' p = written w p ++ b;
}.

Section tty.
Context {W : Type} `{TtyLaws W}.

Definition same_line (t t' : terminal) : Prop := device t' = device t /\ echo t' = echo t /\ binary t' = binary t.

Section echo.
Context (out after : bytes) (Hafter : after <> []).

(** What was shown is written, but for the end of the line from [chunkStart] on. *)
Definition pending (t : terminal) (w : W) (e : scanned) : Prop :=
  if echo t then
    exists k, chunkStart t = Z.of_nat k /\ (k <= length (kept e))%nat /\ written w (device t) ++ drop k (kept e) = out ++ shown e
  else written w (device t) = out.

(** All of it is. *)
Definition flushed (t : terminal) (w : W) (text : bytes) : Prop := written w (device t) = if echo t then out ++ text else out.

Lemma echoBack_flushes t w e rest sep :
  pending t w e ->
  exists t' w', echoBack (kept e ++ rest) (Z.of_nat (length (kept e))) sep t w = Done (t', w') /\
    t' = (if echo t then set_chunkStart (Z.of_nat (length (kept e)) + 1) t else t) /\
    incoming w' (device t) = incoming w (device t) /\ flushed t w' (shown e ++ sep).
Proof.
  unfold pending, echoBack, flushed. destruct (echo t) eqn:He; cbn [negb]; [|intros Hw; by exists t, w].
  intros (k & Hk & Hle & Hw). rewrite Hk.
  destruct (split_length (kept e) k Hle) as (a & m & Ham & Ha). rewrite Ham in Hw |- *.
  rewrite <- Ha, drop_app_length in Hw. rewrite length_app.
  assert (Hchunk : exists w1, (if Z.of_nat k <? Z.of_nat (length a + length m)
      then '(_, w) ← writeBlock (device t) (sub_bytes ((a ++ m) ++ rest) (Z.of_nat k) (Z.of_nat (length a + length m))) (Z.of_nat (length a + length m) - Z.of_nat k) 0 w; Done w
      else Done w) = Done w1 /\ incoming w1 (device t) = incoming w (device t) /\ written w1 (device t) = out ++ shown e).
  { rewrite <- app_assoc, sub_bytes_mid by (subst; done). destruct m as [|x m].
    - rewrite app_nil_r in Hw. rewrite (proj2 (Z.ltb_ge _ _)) by (cbn [length]; lia). by exists w.
    - rewrite (proj2 (Z.ltb_lt _ _)) by (cbn [length]; lia). destruct (tty_write (device t) (x :: m) w) as (w1 & Hw1 & Hi & Ho); [done|].
      replace (Z.of_nat (length a + length (x :: m)) - Z.of_nat k) with (Z.of_nat (length (x :: m))) by lia.
      rewrite Hw1. exists w1. split; [done|]. split; [done|]. by rewrite Ho. }
  destruct Hchunk as (w1 & E1 & Hi1 & Ho1). rewrite E1. cbn [mbind outcome_bind].
  destruct sep as [|c sep]; [exists (set_chunkStart (Z.of_nat (length a + length m) + 1) t), w1; by rewrite app_nil_r|].
  destruct (tty_write (device t) (c :: sep) w1) as (w2 & Hw2 & Hi2 & Ho2); [done|].
  cbn [device set_chunkStart]. rewrite Hw2. cbn [mbind outcome_bind]. eexists _, w2. split; [done|]. split; [done|]. split; [congruence|]. by rewrite Ho2, Ho1, <- app_assoc.
Qed.

(** The state of the loop: the kept line, what is left of the block, and memory after it. *)
Record at_ (e : scanned) (todo junk data : bytes) (i end_ : Z) (nl : bool) (t : terminal) (w : W) : Prop := At {
  at_data : data = kept e ++ todo ++ junk;
  at_i : i = Z.of_nat (length (kept e));
  at_end : end_ = i + Z.of_nat (length todo);
  at_junk : exists free, junk = free ++ after;
  at_nl : nl = newline e;
  at_skip : skipNewline t = skip e;
  at_pending : pending t w e;
}.

Lemma pending_flushed t t' w' k sk n text :
  flushed t w' text -> same_line t t' -> (echo t = true -> chunkStart t' = Z.of_nat (length k)) -> pending t' w' (mkScanned k sk n text).
Proof.
  intros Hf (Hd & He & _) Hc. unfold pending, flushed in *. rewrite Hd, He. destruct (echo t); [|done].
  exists (length k). split; [by apply Hc|]. split; [done|]. cbn [kept shown]. by rewrite drop_all, app_nil_r.
Qed.

(** One turn of the loop. *)
Definition turns_to (c : Z) (todo : bytes) (e : scanned) (data : bytes) (i end_ : Z) (nl : bool) (t : terminal) (w : W) : Prop :=
  exists data' i' end' nl' t' w' junk', normalize_loop (S (length todo)) data i end_ nl t w = normalize_loop (length todo) data' i' end' nl' t' w' /\
    at_ (scan_char e c) todo junk' data' i' end' nl' t' w' /\ same_line t t' /\ length data' = length data /\ incoming w' (device t) = incoming w (device t).

Section turn.
Context (c : Z) (todo : bytes) (e : scanned) (junk data : bytes) (i end_ : Z) (nl : bool) (t : terminal) (w : W).
Context (Hat : at_ e (c :: todo) junk data i end_ nl t w).

Lemma loop_turn : normalize_loop (S (length todo)) data i end_ nl t w =
  (if c =? CR then
     data ← set_bytes data i [LF];
     '(t, w) ← echoBack data i crlf t w;
     normalize_loop (length todo) data (i + 1) end_ true (set_skipNewline true t) w
   else if c =? LF then
     if skipNewline t then
       data ← memmove data i (i + 1) (end_ - i - 1);
       normalize_loop (length todo) data i (end_ - 1) nl (set_skipNewline false t) w
     else
       '(t, w) ← echoBack data i crlf t w;
       normalize_loop (length todo) data (i + 1) end_ true t w
   else if (c =? DEL) || (c =? BS) then
     '(t, w) ← echoBack data i erase_sequence t w;
     let backward := if i =? 0 then 1 else 2 in
     data ← memmove data (i - (backward - 1)) (i + 1) (end_ - i);
     let end_ := end_ - backward in
     let i := i - backward in
     normalize_loop (length todo) data (i + 1) end_ nl (set_chunkStart (i + 1) t) w
   else normalize_loop (length todo) data (i + 1) end_ nl (set_skipNewline false t) w).
Proof.
  destruct Hat as [Hdata Hi Hend _ _ _ _]. cbn [length] in Hend. cbn [normalize_loop]. rewrite (proj2 (Z.leb_gt _ _)) by lia.
  rewrite Hdata at 1. cbn [app]. rewrite get_mid by done. reflexivity.
Qed.

Lemma turn_cr : c = CR -> turns_to c todo e data i end_ nl t w.
Proof.
  intros Ec. unfold turns_to. rewrite loop_turn, Ec, Z.eqb_refl. destruct Hat as [Hdata Hi Hend Hjunk Hnl Hskip Hpend].
  rewrite Hdata, Hi. change ((c :: todo) ++ junk) with ([c] ++ todo ++ junk). rewrite set_bytes_mid by done. cbn [mbind outcome_bind].
  destruct (echoBack_flushes t w e ([LF] ++ todo ++ junk) crlf Hpend) as (t1 & w1 & -> & Ht1 & Hin & Hfl). cbn [mbind outcome_bind].
  assert (Hs : same_line t (set_skipNewline true t1)) by (rewrite Ht1; by destruct (echo t)).
  do 6 eexists. exists junk. split; [done|]. split; [|by rewrite !length_app].
  unfold scan_char. rewrite Z.eqb_refl. split; cbn [kept skip newline]; rewrite ?length_app; cbn [length] in *; [by rewrite <- app_assoc|lia|lia|done|done|done|].
  apply (pending_flushed t); [done|done|]. intros He. rewrite Ht1, He, length_app. cbn. lia.
Qed.

Lemma turn_skip : c = LF -> skipNewline t = true -> turns_to c todo e data i end_ nl t w.
Proof.
  intros Ec Hsk. unfold turns_to. rewrite loop_turn, Ec, Hsk. cbn [Z.eqb]. change (LF =? CR) with false. rewrite Z.eqb_refl. cbv iota.
  destruct Hat as [Hdata Hi Hend Hjunk Hnl Hskip Hpend]. cbn [length] in Hend.
  rewrite Hdata. change ((c :: todo) ++ junk) with ([c] ++ todo ++ junk). rewrite memmove_down by (cbn [length]; lia). cbn [mbind outcome_bind].
  do 6 eexists. exists (drop (length todo) ([c] ++ todo) ++ junk). split; [done|]. split; [|split; [done|]; split; [|done]].
  - unfold scan_char. change (LF =? CR) with false. rewrite Z.eqb_refl, <- Hskip, Hsk.
    split; cbn [kept skip newline]; [done|done|lia| |done|done|exact Hpend].
    destruct Hjunk as [free ->]. exists (drop (length todo) ([c] ++ todo) ++ free). by rewrite <- app_assoc.
  - rewrite !length_app, length_drop, !length_app. cbn [length]. lia.
Qed.

Lemma turn_lf : c = LF -> skipNewline t = false -> turns_to c todo e data i end_ nl t w.
Proof.
  intros Ec Hsk. unfold turns_to. rewrite loop_turn, Ec, Hsk. change (LF =? CR) with false. rewrite Z.eqb_refl. cbv iota.
  destruct Hat as [Hdata Hi Hend Hjunk Hnl Hskip Hpend]. rewrite Hdata, Hi.
  destruct (echoBack_flushes t w e ((c :: todo) ++ junk) crlf Hpend) as (t1 & w1 & -> & Ht1 & Hin & Hfl). cbn [mbind outcome_bind].
  assert (Hs : same_line t t1) by (rewrite Ht1; by destruct (echo t)).
  do 6 eexists. exists junk. split; [done|]. split; [|done].
  unfold scan_char. change (LF =? CR) with false. rewrite Z.eqb_refl, <- Hskip, Hsk.
  split; cbn [kept skip newline]; rewrite ?length_app; cbn [length] in *; [rewrite <- app_assoc, Ec; done|lia|lia|done|done| |].
  - rewrite Ht1. destruct (echo t); done.
  - apply (pending_flushed t); [done|done|]. intros He. rewrite Ht1, He, length_app. cbn. lia.
Qed.

Lemma turn_plain : c <> CR -> c <> LF -> c <> DEL -> c <> BS -> turns_to c todo e data i end_ nl t w.
Proof.
  intros H1 H2 H3 H4. unfold turns_to. rewrite loop_turn. unfold scan_char.
  rewrite (proj2 (Z.eqb_neq c CR)), (proj2 (Z.eqb_neq c LF)), (proj2 (Z.eqb_neq c DEL)), (proj2 (Z.eqb_neq c BS)) by done. cbn [orb].
  destruct Hat as [Hdata Hi Hend Hjunk Hnl Hskip Hpend]. do 6 eexists. exists junk. split; [done|]. split; [|done].
  split; cbn [kept skip newline]; rewrite ?length_app; cbn [length] in *; [by rewrite Hdata, <- app_assoc|lia|lia|done|done|done|].
  unfold pending in *. cbn [echo set_skipNewline device chunkStart kept shown]. destruct (echo t); [|done].
  destruct Hpend as (k & Hk & Hle & Hw). exists k. split; [done|]. split; [rewrite length_app; lia|]. rewrite drop_app_le by done. by rewrite app_assoc, Hw, <- app_assoc.
Qed.

Lemma turn_erase : c = DEL \/ c = BS -> turns_to c todo e data i end_ nl t w.
Proof.
  intros Hc. assert (E1 : (c =? CR) = false) by (by destruct Hc as [-> | ->]). assert (E2 : (c =? LF) = false) by (by destruct Hc as [-> | ->]).
  assert (E3 : (c =? DEL) || (c =? BS) = true) by (by destruct Hc as [-> | ->]).
  unfold turns_to. rewrite loop_turn. unfold scan_char. rewrite E1, E2, E3. destruct Hat as [Hdata Hi Hend Hjunk Hnl Hskip Hpend]. cbn [length] in Hend.
  rewrite Hdata, Hi. destruct (echoBack_flushes t w e ((c :: todo) ++ junk) erase_sequence Hpend) as (t1 & w1 & -> & Ht1 & Hin & Hfl). cbn [mbind outcome_bind].
  assert (Hs : same_line t t1) by (rewrite Ht1; by destruct (echo t)). assert (Hsk1 : skipNewline t1 = skipNewline t) by (rewrite Ht1; by destruct (echo t)).
  assert (Hj : exists j junk', junk = j :: junk').
  { destruct Hjunk as [free Hj]. destruct junk as [|j junk']; [|by exists j, junk']. by destruct free, after. }
  destruct Hj as (j & junk' & Ej). rewrite Ej in *.
  assert (Hkeep : forall x y, y = drop (length (todo ++ [j])) ((c :: x) ++ todo ++ [j]) \/ y = drop (length (todo ++ [j])) ((x ++ [c]) ++ todo ++ [j]) ->
    exists free, (j :: y ++ junk') = free ++ after).
  { intros x y Hy. destruct Hjunk as [free Hjf]. assert (Hend' : exists y', y = y' ++ [j]). 
    { assert (Hy' : exists x', y = drop (length (todo ++ [j])) (x' ++ todo ++ [j]) /\ (1 <= length x')%nat).
      { destruct Hy as [Hy|Hy]; eexists; (split; [exact Hy|]); rewrite ?length_app; cbn [length]; lia. }
      destruct Hy' as (x' & -> & Hx'). exists (drop (length (todo ++ [j])) (x' ++ todo)).
      rewrite app_assoc, drop_app_le; [done|]. rewrite !length_app. cbn [length]. lia. }
    destruct Hend' as [y' ->]. exists (j :: y' ++ free). cbn [app]. f_equal. by rewrite <- !app_assoc, <- Hjf. }
  destruct (decide (kept e = [])) as [E|E].
  - rewrite E in *. cbn [length] in *. change (Z.of_nat 0) with 0 in *. rewrite Z.eqb_refl. cbv zeta.
    replace ([] ++ (c :: todo) ++ j :: junk') with ([] ++ [c] ++ (todo ++ [j]) ++ junk') by (by rewrite <- app_assoc).
    rewrite memmove_down by (rewrite ?length_app; cbn [length]; lia). cbn [mbind outcome_bind].
    do 6 eexists. eexists (j :: drop (length (todo ++ [j])) ([c] ++ todo ++ [j]) ++ junk'). split; [done|].
    split; [|split; [done|]; split; [rewrite !length_app, !length_drop, !length_app; cbn [length]; lia|done]].
    split; cbn [kept skip newline removelast app length]; [by rewrite <- app_assoc|done|lia| |done|cbn; by rewrite Hsk1|].
    + apply (Hkeep []). by left.
    + apply (pending_flushed t); [done|done|]. done.
  - destruct (exists_last E) as (k & x & Ek). rewrite Ek in *. rewrite length_app in Hi, Ht1 |- *. cbn [length] in Hi, Ht1 |- *.
    rewrite (proj2 (Z.eqb_neq _ _)) by lia. cbv zeta.
    replace ((k ++ [x]) ++ (c :: todo) ++ j :: junk') with (k ++ [x; c] ++ (todo ++ [j]) ++ junk') by (by rewrite <- !app_assoc).
    rewrite memmove_down by (rewrite ?length_app; cbn [length]; lia). cbn [mbind outcome_bind].
    do 6 eexists. eexists (j :: drop (length (todo ++ [j])) ([x; c] ++ todo ++ [j]) ++ junk'). split; [done|].
    split; [|split; [done|]; split; [rewrite !length_app, !length_drop, !length_app; cbn [length]; lia|done]].
    rewrite removelast_snoc.
    split; cbn [kept skip newline]; [by rewrite <- app_assoc|lia|lia| |done|cbn; by rewrite Hsk1|].
    + apply (Hkeep [x]). by right.
    + apply (pending_flushed t); [done|done|]. intros _. cbn. lia.
Qed.

Lemma loop_step : turns_to c todo e data i end_ nl t w.
Proof.
  destruct (decide (c = CR)); [by apply turn_cr|]. destruct (decide (c = LF)); [destruct (skipNewline t) eqn:Hs; [by apply turn_skip|by apply turn_lf]|].
  destruct (decide (c = DEL)); [apply turn_erase; by left|]. destruct (decide (c = BS)); [apply turn_erase; by right|]. by apply turn_plain.
Qed.

End turn.

Lemma normalize_loop_scans todo : forall e junk data i end_ nl t w,
  at_ e todo junk data i end_ nl t w ->
  exists data' end' nl' t' w' junk', normalize_loop (length todo) data i end_ nl t w = Done (data', end', nl', t', w') /\
    at_ (scan e todo) [] junk' data' end' end' nl' t' w' /\ same_line t t' /\ length data' = length data /\ incoming w' (device t) = incoming w (device t).
Proof.
  induction todo as [|c todo IH]; intros e junk data i end_ nl t w [Hdata Hi Hend Hjunk Hnl Hskip Hpend].
  - exists data, end_, nl, t, w, junk. cbn [length] in Hend. rewrite Z.add_0_r in Hend. subst end_ i. cbn [length normalize_loop scan fold_left].
    rewrite Z.leb_refl. split; [done|]. split; [|done]. split; cbn; auto; lia.
  - destruct (loop_step c todo e junk data i end_ nl t w ltac:(by split)) as (d1 & i1 & e1 & n1 & t1 & w1 & j1 & Heq & Hat & (Hd & He & Hb) & Hlen & Hin).
    cbn [length]. rewrite Heq. destruct (IH _ _ _ _ _ _ _ _ Hat) as (d2 & e2 & n2 & t2 & w2 & j2 & Heq2 & Hat2 & (Hd2 & He2 & Hb2) & Hlen2 & Hin2).
    exists d2, e2, n2, t2, w2, j2. split; [done|]. split; [done|]. rewrite Hd in Hin2. split; [split_and!; congruence|]. split; congruence.
Qed.

(** ** A read *)
Definition unmarked (e : scanned) : scanned := mkScanned (kept e) (skip e) false (shown e).

(** Between two blocks: the line, memory after it, the terminal. *)
Record between (e : scanned) (junk data : bytes) (t : terminal) (w : W) : Prop := Between {
  b_data : data = kept e ++ junk;
  b_junk : exists free, junk = free ++ after;
  b_skip : skipNewline t = skip e;
  b_flushed : flushed t w (shown e);
}.

Lemma normalize_scans e block junk data t w :
  between e (block ++ junk) data t w -> (exists free, junk = free ++ after) ->
  exists data' t' w' junk', let e' := scan (unmarked e) block in
    normalize data (Z.of_nat (length (kept e))) (Z.of_nat (length (kept e)) + Z.of_nat (length block)) t w
      = Done (data', Z.of_nat (length (kept e')), newline e', t', w') /\
    between e' junk' data' t' w' /\ same_line t t' /\ length data' = length data /\ incoming w' (device t) = incoming w (device t).
Proof.
  intros [Hdata _ Hskip Hfl] Hjunk. unfold normalize. set (t0 := set_chunkStart _ t).
  assert (Hat : at_ (unmarked e) block junk data (Z.of_nat (length (kept e))) (Z.of_nat (length (kept e)) + Z.of_nat (length block)) false t0 w).
  { split; try done. apply (pending_flushed t); done. }
  replace (Z.to_nat _) with (length block) by lia.
  destruct (normalize_loop_scans block (unmarked e) junk data _ _ _ _ _ Hat) as (d1 & e1 & n1 & t1 & w1 & j1 & Heq & [Hd1 Hi1 _ Hj1 Hn1 Hs1 Hp1] & Hl1 & Hlen1 & Hin1).
  rewrite Heq. cbn [mbind outcome_bind]. set (e' := scan (unmarked e) block) in *. rewrite Hi1, Hd1. cbn [app].
  destruct (echoBack_flushes t1 w1 e' j1 [] Hp1) as (t2 & w2 & Heq2 & Ht2 & Hin2 & Hfl2). rewrite Heq2. cbn [mbind outcome_bind]. rewrite app_nil_r in Hfl2.
  exists (kept e' ++ j1), t2, w2, j1. split; [by rewrite Hn1|].
  assert (Hl2 : same_line t1 t2) by (rewrite Ht2; by destruct (echo t1)). destruct Hl1 as (Hdv1 & Hec1 & Hb1), Hl2 as (Hdv2 & Hec2 & Hb2).
  change (device t0) with (device t) in *. change (echo t0) with (echo t) in *. change (binary t0) with (binary t) in *.
  split; [|split; [split_and!; congruence|split; [rewrite <- Hlen1, Hd1; done|congruence]]].
  split; [done|done|rewrite Ht2, <- Hs1; by destruct (echo t1)|]. unfold flushed in *. by rewrite Hdv2, Hec2.
Qed.

Lemma scan_length e typed : (length (kept (scan e typed)) <= length (kept e) + length typed)%nat.
Proof.
  revert e. induction typed as [|c typed IH]; intros e; cbn [scan fold_left length]; [lia|]. change (fold_left scan_char typed _) with (scan (scan_char e c) typed).
  specialize (IH (scan_char e c)). assert (length (kept (scan_char e c)) <= length (kept e) + 1)%nat; [|lia].
  unfold scan_char. repeat case_match; cbn [kept]; rewrite ?length_app; cbn [length]; try lia.
  destruct (kept e) as [|x l] eqn:E using rev_ind; [cbn; lia|]. rewrite removelast_snoc, length_app. lia.
Qed.

Lemma newline_stays e typed : newline e = true -> newline (scan e typed) = true.
Proof.
  revert e. induction typed as [|c typed IH]; intros e He; [done|]. apply IH. unfold scan_char. by repeat case_match.
Qed.

Lemma cr_is_newline e typed : CR ∈ typed -> newline (scan e typed) = true.
Proof.
  revert e. induction typed as [|c typed IH]; intros e Hin; [by apply not_elem_of_nil in Hin|]. apply elem_of_cons in Hin as [E|Hin]; [|by apply IH].
  apply (newline_stays (scan_char e c)). unfold scan_char. by rewrite <- E, Z.eqb_refl.
Qed.

Lemma unmarked_id e : newline e = false -> unmarked e = e.
Proof. destruct e; simpl. by intros ->. Qed.

Lemma set_bytes_len a x l b c :
  c = a ++ x ++ b -> length x = length l -> set_bytes c (Z.of_nat (length a)) l = Done (a ++ l ++ b).
Proof. intros ->. by apply set_bytes_mid. Qed.

Lemma read_loop_scans n : forall e junk data length_ t w,
  between e junk data t w -> newline e = false ->
  length data = (length_ + length after)%nat -> (length (kept e) < length_)%nat ->
  CR ∈ incoming w (device t) -> (length (incoming w (device t)) < n)%nat ->
  exists r data' t' w' junk' typed block rest, read_loop n data (Z.of_nat length_) (Z.of_nat (length (kept e))) t w = Done (r, data', t', w') /\
    incoming w (device t) = typed ++ block ++ rest /\ incoming w' (device t) = rest /\
    newline (scan e typed) = false /\ (length (kept (scan e typed)) < length_)%nat /\
    let e' := scan e (typed ++ block) in
    r = Z.of_nat (length (kept e')) /\ (length (kept e') <= length_)%nat /\ (newline e' = true \/ length (kept e') = length_) /\
    between e' junk' data' t' w' /\ same_line t t' /\ length data' = length data.
Proof.
  induction n as [|n IH]; intros e junk data length_ t w Hb Hnl Hlen Hkept Hcr Hn; [lia|]. pose proof Hb as [Hdata [free Hfree] Hskip Hfl].
  cbn [read_loop]. rewrite Hfree in Hdata. assert (Hfl' : length free = (length_ - length (kept e))%nat) by (rewrite Hdata, !length_app in Hlen; lia).
  assert (Hsub : sub_bytes data (Z.of_nat (length (kept e))) (Z.of_nat length_) = free) by (rewrite Hdata; apply sub_bytes_mid; lia). rewrite Hsub.
  destruct (tty_read (device t) free w) as (k & w1 & [Hk1 Hk2] & Hk3 & Hread & Hin1 & Hwr1); [by destruct free; [cbn in Hfl'; lia|]|by intros E; rewrite E in Hcr; apply not_elem_of_nil in Hcr|].
  replace (Z.of_nat length_ - Z.of_nat (length (kept e))) with (Z.of_nat (length free)) by lia. rewrite Hread. cbn [mbind outcome_bind].
  set (block := take k (incoming w (device t))) in *. assert (Hbl : length block = k) by (unfold block; rewrite length_take; lia).
  rewrite (set_bytes_len (kept e) free (block ++ drop k free) after) by (rewrite ?length_app, ?length_drop; first [done|lia]). cbn [mbind outcome_bind].
  rewrite (proj2 (Z.ltb_ge _ _)) by lia.
  destruct (normalize_scans e block (drop k free ++ after) (kept e ++ (block ++ drop k free) ++ after) t w1) as (d2 & t2 & w2 & j2 & Heq2 & Hb2 & Hl2 & Hlen2 & Hin2).
  { split; [by rewrite <- app_assoc|exists (block ++ drop k free); by rewrite <- app_assoc|done|]. unfold flushed in *. by rewrite Hwr1. }
  { by exists (drop k free). }
  rewrite (unmarked_id e Hnl) in *. rewrite Hbl in Heq2. rewrite Heq2. cbn [mbind outcome_bind]. set (e2 := scan e block) in *.
  pose proof (scan_length e block) as Hel. fold e2 in Hel. pose proof Hl2 as (Hdv & _ & _).
  assert (Hd2 : length d2 = length data) by (rewrite Hlen2, Hdata, !length_app, length_drop; lia).
  destruct ((Z.of_nat (length (kept e2)) =? Z.of_nat length_) || newline e2) eqn:Hstop.
  - do 5 eexists. exists [], block, (drop k (incoming w (device t))). split; [done|]. split; [unfold block; cbn [app]; by rewrite take_drop|]. split; [by rewrite Hin2, Hin1|].
    split; [done|]. split; [done|]. cbn [app]. fold e2. split_and!; [done|lia| |exact Hb2|done..]. apply orb_true_iff in Hstop as [Hs|Hs]; [right; apply Z.eqb_eq in Hs; lia|by left].
  - apply orb_false_iff in Hstop as [Hs1 Hs2]. apply Z.eqb_neq in Hs1.
    assert (Hcr2 : CR ∈ drop k (incoming w (device t))).
    { rewrite <- (take_drop k (incoming w (device t))) in Hcr. apply elem_of_app in Hcr as [Hcr|]; [|done]. fold block in Hcr. apply (cr_is_newline e) in Hcr. fold e2 in Hcr. congruence. }
    destruct (IH e2 j2 d2 length_ t2 w2 Hb2 Hs2) as (r & d3 & t3 & w3 & j3 & typed & block' & rest & Hrun & Hi3 & Hi3' & Hnl3 & Hk3' & Hr & Hle & Hst & Hb3 & Hl3 & Hlen3); [lia|lia|by rewrite Hdv, Hin2, Hin1| |].
    { rewrite Hdv, Hin2, Hin1, length_drop. lia. }
    rewrite Hrun. exists r, d3, t3, w3, j3, (block ++ typed), block', rest. rewrite Hdv, Hin2, Hin1 in Hi3.
    assert (He : forall l, scan e (block ++ l) = scan e2 l) by (intros l; unfold scan; apply fold_left_app). rewrite Hdv in Hi3'.
    split; [done|]. split; [rewrite <- app_assoc, <- Hi3; unfold block; by rewrite take_drop|]. rewrite <- app_assoc, !He.
    split_and!; try done. { destruct Hl3 as (? & ? & ?), Hl2 as (? & ? & ?). split_and!; congruence. } congruence.
Qed.

End echo.

Lemma newline_erased_prefix l typed block : newline_erased l (typed ++ block) = false -> newline_erased l typed = false.
Proof. revert l. induction typed as [|c typed IH]; intros l; [done|]. cbn [app newline_erased]. intros [-> Hn]%orb_false_iff. by apply IH. Qed.

(** Before anything is typed. *)
Definition nothing_scanned (t : terminal) : scanned := mkScanned [] (skipNewline t) false [].
Definition no_line (t : terminal) : line := mkLine [] (skipNewline t) [].

(** C21: [read] in line mode, of a device that does not fail, where a carriage return is typed sooner or later, and the byte after the
    buffer is memory that can be read (the loop reads it).  It takes characters from the device, in
    blocks, and ends; nothing outside of the buffer is changed.  Unless a newline is erased among these characters,
    it gives the line that they edit: carriage
    return and line feed, or one after the other, are one newline, backspace and delete
    take back the last character, also of an earlier block; what is
    shown is the echo of each character in order, if there is echo; and it ends with the first block that
    leaves a newline in the line or fills the buffer.  ([ex_newline_erased] shows a newline that is erased.) *)
Theorem read_edits_line data after length_ t w :
  binary t = false -> (0 < length_)%nat -> length data = (length_ + length after)%nat -> after <> [] -> drop length_ data = after -> CR ∈ incoming w (device t) ->
  exists r data' t' w' typed block rest, read (S (length (incoming w (device t)))) data (Z.of_nat length_) t w = Done (r, data', t', w') /\
    incoming w (device t) = typed ++ block ++ rest /\ incoming w' (device t) = rest /\ same_line t t' /\
    0 <= r <= Z.of_nat length_ /\ drop length_ data' = after /\ length data' = length data /\
    (newline_erased (no_line t) (typed ++ block) = false ->
       let before := edit (no_line t) typed in let l := edit (no_line t) (typed ++ block) in
       r = Z.of_nat (length (text l)) /\ take (length (text l)) data' = text l /\
       (LF ∈ text l \/ length (text l) = length_) /\ (LF ∉ text before) /\ (length (text before) < length_)%nat /\
       skipNewline t' = after_cr l /\ written w' (device t) = written w (device t) ++ (if echo t then echoed l else [])).
Proof.
  intros Hbin Hl Hlen Hafter Hdrop Hcr.
  destruct (read_loop_scans (written w (device t)) after Hafter (S (length (incoming w (device t)))) (nothing_scanned t) data data length_ t w)
    as (r & d & t' & w' & junk & typed & block & rest & Hrun & Hin & Hin' & Hnl & Hbefore & Hr & Hle & Hst & [Hd [free Hfree] Hsk Hfl] & Hsame & Hld); [|done|done|done|done|lia|].
  { split; [done|exists (take length_ data); by rewrite <- Hdrop, take_drop|done|]. unfold flushed. cbn. rewrite app_nil_r. by destruct (echo t). }
  pose proof Hsame as (Hdv & Hec & _).
  exists r, d, t', w', typed, block, rest. unfold read. rewrite Hbin. split; [exact Hrun|]. split; [done|]. split; [done|]. split; [done|]. split; [lia|].
  split; [rewrite Hd, Hfree, app_assoc; apply drop_app_length'; rewrite Hd, Hfree, !length_app in Hld; rewrite length_app; lia|].
  split; [done|]. intros Hn. cbv zeta.
  assert (Hempty : agree (nothing_scanned t) (no_line t)) by done.
  assert (Hn1 : newline_erased (no_line t) typed = false) by by eapply newline_erased_prefix.
  destruct (scan_agree typed _ _ Hempty Hn1) as [Hbt _ Hbn _]. destruct (scan_agree (typed ++ block) _ _ Hempty Hn) as [Ht Hc Hnw Hs].
  rewrite <- Ht, <- Hc, <- Hs, <- Hbt. split_and!; try done.
  - by rewrite Hd, take_app_length.
  - destruct Hst as [Hst|Hst]; [left|by right]. rewrite Hnw in Hst. by rewrite Ht; apply bool_decide_eq_true in Hst.
  - rewrite Hbt. rewrite Hbn in Hnl. by apply bool_decide_eq_false in Hnl.
  - unfold flushed in Hfl. rewrite Hdv, Hec in Hfl. rewrite Hfl. destruct (echo t); [done|by rewrite app_nil_r].
Qed.

(** ** A write *)
Definition expand (data : bytes) : bytes := flat_map (fun c => if c =? LF then crlf else [c]) data.

Lemma write_chunk_gives t chunk w :
  exists r w', write_chunk t chunk w = Done (r, w') /\ 0 < r /\ incoming w' (device t) = incoming w (device t) /\ written w' (device t) = written w (device t) ++ chunk.
Proof.
  unfold write_chunk. destruct chunk as [|c chunk]; [exists 1, w; by rewrite app_nil_r|].
  destruct (tty_write (device t) (c :: chunk) w) as (w' & Hw & Hi & Ho); [done|]. do 2 eexists. split; [done|]. split; [cbn [length]; lia|done].
Qed.

Lemma write_chunks_expand t len data : forall chunk w,
  exists w', write_chunks t chunk data len w = Done (len, w') /\ incoming w' (device t) = incoming w (device t) /\
    written w' (device t) = written w (device t) ++ chunk ++ expand data.
Proof.
  induction data as [|c data IH]; intros chunk w; cbn [write_chunks expand flat_map].
  - destruct (write_chunk_gives t chunk w) as (r & w' & -> & Hr & Hi & Ho). cbn [mbind outcome_bind]. rewrite (proj2 (Z.leb_gt _ _)) by done.
    exists w'. by rewrite app_nil_r.
  - fold (expand data). destruct (c =? LF); cbn [negb].
    + destruct (write_chunk_gives t chunk w) as (r & w1 & -> & Hr & Hi1 & Ho1). cbn [mbind outcome_bind]. rewrite (proj2 (Z.leb_gt _ _)) by done.
      destruct (tty_write (device t) crlf w1) as (w2 & Hw2 & Hi2 & Ho2); [done|]. change (Z.of_nat (length crlf)) with 2 in Hw2. rewrite Hw2. cbn [mbind outcome_bind].
      change (2 <=? 0) with false. cbv iota. destruct (IH [] w2) as (w3 & Hw3 & Hi3 & Ho3). exists w3. split; [done|]. split; [congruence|].
      rewrite Ho3, Ho2, Ho1. by rewrite <- !app_assoc.
    + destruct (IH (chunk ++ [c]) w) as (w3 & Hw3 & Hi3 & Ho3). exists w3. split; [done|]. split; [done|]. by rewrite Ho3, <- !app_assoc.
Qed.

(** Text that has no control characters of the terminal. *)
Definition plain (c : Z) : Prop := c <> CR /\ c <> DEL /\ c <> BS.

Lemma edit_expand data : Forall plain data -> forall l, after_cr l = false ->
  text (edit l (expand data)) = text l ++ data /\ after_cr (edit l (expand data)) = false /\ echoed (edit l (expand data)) = echoed l ++ expand data.
Proof.
  induction 1 as [|c data (H1 & H2 & H3) _ IH]; intros l Hs; [cbn; by rewrite !app_nil_r|].
  cbn [expand flat_map]. fold (expand data). unfold edit. rewrite fold_left_app. fold (edit l (if c =? LF then crlf else [c])).
  assert (Hone : edit l (if c =? LF then crlf else [c]) = mkLine (text l ++ [c]) false (echoed l ++ (if c =? LF then crlf else [c]))).
  { destruct (Z.eqb_spec c LF) as [->|Hlf]; [done|]. cbn [edit fold_left]. unfold edit_char, is_erase.
    by rewrite (proj2 (Z.eqb_neq c CR)), (proj2 (Z.eqb_neq c LF)), (proj2 (Z.eqb_neq c DEL)), (proj2 (Z.eqb_neq c BS)) by done. }
  rewrite Hone. destruct (IH (mkLine (text l ++ [c]) false (echoed l ++ (if c =? LF then crlf else [c])))) as (Hk & Hsk & Hsh); [done|].
  unfold edit in Hk, Hsk, Hsh. cbn [text echoed] in *. rewrite Hk, Hsk, Hsh, <- !app_assoc. done.
Qed.

(** [write] in line mode shows the text with each line feed as carriage
    return and line feed, and nothing else; a terminal that gets these characters reads the text that
    was written, when there are no control characters in it, and echoes it as it came. *)
Theorem write_then_read data t w l :
  binary t = false ->
  exists w', write t data w = Done (Z.of_nat (length data), w') /\ incoming w' (device t) = incoming w (device t) /\
    written w' (device t) = written w (device t) ++ expand data /\
    (Forall plain data -> after_cr l = false -> text (edit l (expand data)) = text l ++ data /\ echoed (edit l (expand data)) = echoed l ++ expand data).
Proof.
  intros Hb. unfold write. rewrite Hb. destruct (write_chunks_expand t (Z.of_nat (length data)) data [] w) as (w' & Hw & Hi & Ho).
  exists w'. split_and!; [done..|]. intros Hp Hs. by destruct (edit_expand data Hp l Hs) as (? & _ & ?).
Qed.

End tty.

(** [tcsetattr] and then [tcgetattr] give the same modes. *)
Lemma ioctl_modes cmd lflag lflag' t :
  cmd = IOCTL_TCSETATTR_NOW \/ cmd = IOCTL_TCSETATTR_DRAIN \/ cmd = IOCTL_TCSETATTR_FLUSH ->
  let '(r, f, t1) := ioctl 0 cmd lflag t in
  let '(r', f', t2) := ioctl 0 IOCTL_TCGETATTR lflag' t1 in
  r = 0 /\ f = lflag /\ r' = 0 /\ t2 = t1 /\ Z.testbit f' ECHO_bit = Z.testbit lflag ECHO_bit /\ Z.testbit f' ICANON_bit = Z.testbit lflag ICANON_bit /\
  forall i, 0 <= i -> i <> ECHO_bit -> i <> ICANON_bit -> Z.testbit f' i = Z.testbit lflag' i.
Proof.
  assert (Hput : forall b n x i, 0 <= n -> 0 <= i -> Z.testbit (put_bit b n x) i = if i =? n then b else Z.testbit x i).
  { intros b n x i Hn Hi. unfold put_bit. destruct b; rewrite ?Z.setbit_eqb, ?Z.clearbit_eqb by done; rewrite (Z.eqb_sym n i); destruct (i =? n); cbn; [done|done|by rewrite andb_false_r|by rewrite andb_true_r]. }
  intros Hc. assert (E1 : (cmd =? IOCTL_TCGETATTR) = false) by (by destruct Hc as [->|[->| ->]]).
  assert (E2 : (cmd =? IOCTL_TCSETATTR_NOW) || (cmd =? IOCTL_TCSETATTR_DRAIN) || (cmd =? IOCTL_TCSETATTR_FLUSH) = true) by (by destruct Hc as [->|[->| ->]]).
  unfold ioctl. change (0 =? 0) with true. change (IOCTL_TCGETATTR =? IOCTL_TCGETATTR) with true. rewrite E1, E2. cbv iota. change (0 =? 0) with true. cbn [negb binary echo setBinary setEcho].
  rewrite !Hput, negb_involutive by done. split_and!; try done.
  intros i Hi H1 H2. rewrite !Hput by done. by rewrite (proj2 (Z.eqb_neq _ _) H1), (proj2 (Z.eqb_neq _ _) H2).
Qed.

(** The error of the device is lost: [int result=device->ioctl(cmd,arg)!=0]. *)
Example ex_ioctl_error t : ioctl (- DevFs.ENOTTY) IOCTL_TCGETATTR 0 t = (1, 0, t).
Proof. reflexivity. Qed.

(** ** A terminal in memory

    It gives at most three characters at a time. *)
#[local] Instance ram_tty_blocks : Blocks (bytes * bytes) := {
  readBlock p b size where_ w :=
    let n := Nat.min 3 (Nat.min (Z.to_nat size) (length w.1)) in Done (Z.of_nat n, take n w.1 ++ drop n b, (drop n w.1, w.2));
  writeBlock p b size where_ w := Done (size, (w.1, w.2 ++ b));
}.

#[local] Instance ram_tty : TtyLaws (bytes * bytes).
Proof.
  refine {| incoming w _ := w.1; written w _ := w.2 |}.
  - intros p b w Hb Hi. exists (Nat.min 3 (Nat.min (length b) (length w.1))), (drop (Nat.min 3 (Nat.min (length b) (length w.1))) w.1, w.2).
    assert (length b <> 0%nat) by (by destruct b). assert (length w.1 <> 0%nat) by (by destruct w as [[|? ?] ?]).
    split; [lia|]. split; [lia|]. cbn [readBlock ram_tty_blocks]. rewrite Nat2Z.id. done.
  - intros p b w _. eexists. split; [done|]. by split.
Defined.

(** What was typed: [ab], two backspaces, [xyy], delete, carriage return, line feed, and more. *)
Definition ex_typed : bytes := [97; 98; 8; 8; 8; 120; 121; 121; 127; 13; 10; 122].

Definition ex_read (size : nat) (data : bytes) (e : bool) : option (Z * bytes * bytes * bytes) :=
  match read 20 data (Z.of_nat size) (mkTerminal 1 0 e false false) (ex_typed, []) with
  | Done (r, d, _, w) => Some (r, d, w.1, w.2) | Fault _ => None end.

Example ex_read_line :
  ex_read 8 (replicate 9 0) true =
  Some (4, [120; 121; 10; 122; 122; 0; 0; 0; 0], [], [97; 98] ++ erase_sequence ++ erase_sequence ++ erase_sequence ++ [120; 121; 121] ++ erase_sequence ++ crlf ++ [122]).
Proof. vm_compute. reflexivity. Qed.

(** A backspace in a full buffer reads the byte after it, and moves it into the buffer. *)
Example ex_read_past : ex_read 3 (replicate 3 0) false = None /\ ex_read 3 (replicate 3 0 ++ [77]) false = Some (3, [120; 121; 121; 77], [127; 13; 10; 122], []).
Proof. split; vm_compute; reflexivity. Qed.

(** A backspace takes back the newline, if they come in one block: the line is
    given as complete without it. *)
Example ex_newline_erased :
  (match read 9 (replicate 9 0) 8 (mkTerminal 1 0 false false false) ([97; 13; 8], []) with Done (r, d, _, _) => (r, d) | Fault _ => (0, []) end) = (1, [97; 0; 8; 0; 0; 0; 0; 0; 0]).
Proof. vm_compute. reflexivity. Qed.

Lemma read_edits_line_witness :
  exists r d t w typed block rest, read 13 (replicate 8 0 ++ [77]) 8 (construct 1) (ex_typed, []) = Done (r, d, t, w) /\ ex_typed = typed ++ block ++ rest /\
    (newline_erased (no_line (construct 1)) (typed ++ block) = false ->
     take (length (text (edit (no_line (construct 1)) (typed ++ block)))) d = text (edit (no_line (construct 1)) (typed ++ block))).
Proof.
  destruct (read_edits_line (W := bytes * bytes) (replicate 8 0 ++ [77]) [77] 8 (construct 1) (ex_typed, [])) as (r & d & t & w & typed & block & rest & Hr & Hi & _ & _ & _ & _ & _ & Hk).
  - reflexivity.
  - lia.
  - reflexivity.
  - discriminate.
  - reflexivity.
  - unfold ex_typed, CR. cbn [incoming ram_tty fst]. do 9 right. left.
  - exists r, d, t, w, typed, block, rest. split; [exact Hr|]. split; [exact Hi|]. intros Hn. apply (Hk Hn).
Defined.

(** Nothing that was typed erases a newline there. *)
Example ex_not_erased : newline_erased (no_line (construct 1)) ex_typed = false.
Proof. reflexivity. Qed.

Lemma write_then_read_witness :
  exists w, write (construct 1) [97; 10] (([] : bytes), ([] : bytes)) = Done (2, w) /\ w.2 = [97; 13; 10].
Proof.
  destruct (write_then_read (W := bytes * bytes) [97; 10] (construct 1) ([], []) (no_line (construct 1)) eq_refl) as (w & Hw & _ & Ho & _).
  exists w. exact (conj Hw Ho).
Defined.

End Terminal.
