(* ===== verification/PathResolution.v ===== *)
(** * Path resolution

    Class [PathResolution] of [filesystem/file_access.cpp], with
    [FilesystemManager::resolvePath]: a path is resolved in place, one
    component at a time, through mounted filesystems and symbolic links.
    Strings are lists of character codes, positions in them natural numbers,
    [std::string::npos] is [None]; filesystems are an interface. *)
From S2P Require Import Prelude Errors.

Local Open Scope nat_scope.

Module PathResolution.

Abbreviation str := (list Z).
Definition slash_char : Z := 47.
Definition dot_char : Z := 46.

(** ** The functions of [std::string] *)

Fixpoint find_from (c : Z) (i : nat) (s : str) : option nat :=
  match s with [] => None | x :: s => if decide (x = c) then Some i else find_from c (S i) s end.

(** [find_first_of(c,pos)] and [find_last_of(c,pos)], for one character. *)
Definition find_first_of (c : Z) (pos : nat) (s : str) : option nat := find_from c pos (drop pos s).

Fixpoint find_last (c : Z) (i : nat) (s : str) : option nat :=
  match s with
  | [] => None
  | x :: s => match find_last c (S i) s with Some j => Some j | None => if decide (x = c) then Some i else None end
  end.

Definition find_last_of (c : Z) (pos : nat) (s : str) : option nat := find_last c 0 (take (S pos) s).

(** [erase(pos,n)] throws when [pos] is after the end. *)
Definition erase (pos n : nat) (s : str) : exec str :=
  if pos <=? length s then Done (take pos s ++ drop (pos + n) s) else Fault Undefined.

(** [StringPart(path,idx,off)]: the characters from [off] up to [idx]. *)
Definition string_part (s : str) (idx off : nat) : str := drop (off `min` idx) (take idx s).

(** Error numbers of the C library. *)
Definition ENOENT : Z := 2.
Definition ENOTDIR : Z := 20.
Definition ENAMETOOLONG : Z := 91.
Definition ELOOP : Z := 92.

(** [st_mode]. *)
Definition S_IFMT : Z := 0xf000.
Definition S_ISDIR (m : Z) : bool := (Z.land m S_IFMT =? 0x4000)%Z.
Definition S_ISLNK (m : Z) : bool := (Z.land m S_IFMT =? 0xa000)%Z.

(** What the class calls on [FilesystemBase]; [lstat] gives the result and
    [st_mode], [readlink] the result and the target. *)
Class FilesystemBase (F : Type) := {
  supportsSymlinks : F -> bool;
  lstat : F -> str -> Z * Z;
  readlink : F -> str -> Z * str;
}.

(** *** Facts about strings *)

Lemma find_from_app c i a b : c ∉ a -> find_from c i (a ++ c :: b) = Some (i + length a).
Proof.
  revert i. induction a as [|x a IH]; intros i Ha; simpl; [rewrite decide_True by done; f_equal; lia|].
  apply not_elem_of_cons in Ha as [? Ha]. rewrite decide_False, IH by done. f_equal. lia.
Qed.
Lemma find_from_None c i a : c ∉ a -> find_from c i a = None.
Proof. revert i. induction a as [|x a IH]; intros i Ha; [done|]. apply not_elem_of_cons in Ha as [? Ha]. simpl. rewrite decide_False; auto. Qed.

Lemma find_last_None c i a : c ∉ a -> find_last c i a = None.
Proof. revert i. induction a as [|x a IH]; intros i Ha; [done|]. apply not_elem_of_cons in Ha as [? Ha]. simpl. rewrite IH, decide_False; auto. Qed.
Lemma find_last_app c i a b : c ∉ b -> find_last c i (a ++ c :: b) = Some (i + length a).
Proof.
  intros Hb. revert i. induction a as [|x a IH]; intros i; simpl; [rewrite find_last_None, decide_True by done; f_equal; lia|].
  rewrite IH. f_equal. lia.
Qed.

Lemma find_last_of_app c pos a b :
  length a <= pos -> c ∉ take (pos - length a) b -> find_last_of c pos (a ++ c :: b) = Some (length a).
Proof.
  intros Hp Hb. unfold find_last_of. rewrite take_app_ge by lia. replace (S pos - length a) with (S (pos - length a)) by lia.
  simpl. by rewrite find_last_app.
Qed.

Lemma erase_app a b c : erase (length a) (length b) (a ++ b ++ c) = Done (a ++ c).
Proof.
  unfold erase. rewrite length_app. destruct (Nat.leb_spec (length a) (length a + length (b ++ c))); [|lia].
  rewrite take_app_length, app_assoc. rewrite <- length_app, drop_app_length. done.
Qed.

Section resolution.
Context {F : Type} `{FilesystemBase F}.
(** The limit of the C library. *)
Context (PATH_MAX : nat).

Record PathResolution := mkPathResolution {
  filesystems : gmap str F;
  root : F;
  fs : F;
  syms : bool;
  index : nat;
  indexIntoFs : nat;
  depthIntoFs : Z;
  linksFollowed : Z;
}.

Definition maxLinkToFollow : Z := 2.

Definition set_index (i : nat) (p : PathResolution) : PathResolution :=
  mkPathResolution (filesystems p) (root p) (fs p) (syms p) i (indexIntoFs p) (depthIntoFs p) (linksFollowed p).
Definition set_indexIntoFs (i : nat) (p : PathResolution) : PathResolution :=
  mkPathResolution (filesystems p) (root p) (fs p) (syms p) (index p) i (depthIntoFs p) (linksFollowed p).
Definition set_depth (d : Z) (p : PathResolution) : PathResolution :=
  mkPathResolution (filesystems p) (root p) (fs p) (syms p) (index p) (indexIntoFs p) d (linksFollowed p).
Definition set_links (l : Z) (p : PathResolution) : PathResolution :=
  mkPathResolution (filesystems p) (root p) (fs p) (syms p) (index p) (indexIntoFs p) (depthIntoFs p) l.
(** The current filesystem, where its paths start, and the depth in it. *)
Definition enter (f : F) (start : nat) (depth : Z) (p : PathResolution) : PathResolution :=
  mkPathResolution (filesystems p) (root p) f (supportsSymlinks f) (index p) start depth (linksFollowed p).

(** The methods return an error, with the path and the object. *)
Abbreviation method := (exec (Z * str * PathResolution)).

Fixpoint find_fs (n : nat) (backIndex : nat) (path : str) (p : PathResolution) : method :=
  match n with
  | O => Fault OutOfFuel
  | S n =>
      match find_last_of slash_char (backIndex - 1) path with
      | None => Done ((- ENOENT)%Z, path, p)
      | Some 0 => Done (0%Z, path, enter (root p) 1 (depthIntoFs p) p)
      | Some backIndex =>
          match filesystems p !! string_part path backIndex 0 with
          | Some f => Done (0%Z, path, enter f (backIndex + 1) (depthIntoFs p) p)
          | None => find_fs n backIndex path (set_depth (s32 (depthIntoFs p + 1)) p)
          end
      end
  end.

Definition recursiveFindFs (path : str) (p : PathResolution) : method :=
  let p := set_depth 1 p in find_fs (S (length path)) (index p) path p.

Definition upPathComponent (path : str) (slash : nat) (p : PathResolution) : method :=
  if index p <=? 1 then Done ((- ENOENT)%Z, path, p)
  else
    match find_last_of slash_char (index p - 2) path with
    | None => Done ((- ENOENT)%Z, path, p)
    | Some removeStart =>
        path ← erase removeStart (slash - removeStart) path;
        let p := set_index (removeStart + 1) p in
        let path := if decide (path = []) then [slash_char] else path in
        let p := if length path <? indexIntoFs p then set_indexIntoFs (length path) p else p in
        let p := set_depth (s32 (depthIntoFs p - 1)) p in
        if (0 <? depthIntoFs p)%Z then Done (0%Z, path, p) else recursiveFindFs path p
    end.

(** [index<=path.length()] inserts the rest of the path after the target. *)
Definition rest_of (path : str) (p : PathResolution) : str :=
  if index p <=? length path then drop (index p - 1) path else [].

Definition followSymlink (path : str) (p : PathResolution) : method :=
  let p := set_links (s32 (linksFollowed p + 1)) p in
  if (maxLinkToFollow <=? linksFollowed p)%Z then Done ((- ELOOP)%Z, path, p)
  else
    let '(res, target) := readlink (fs p) (string_part path (index p - 1) (indexIntoFs p)) in
    if (res <? 0)%Z then Done (1%Z, path, p)
    else
      match target with
      | [] => Done ((- ENOENT)%Z, path, p)
      | c :: _ =>
          if decide (c = slash_char) then
            let newPathLen := length target + length path + 1 - index p in
            if PATH_MAX <? newPathLen then Done ((- ENAMETOOLONG)%Z, path, p)
            else
              let newPath := target ++ rest_of path p in
              Done (0%Z, newPath, set_index 1 (enter (root p) 1 1 p))
          else
            removeStart ← deref (find_last_of slash_char (index p - 2) path);
            let newPathLen := length path + length target - (index p - removeStart - 2) in
            if PATH_MAX <? newPathLen then Done ((- ENAMETOOLONG)%Z, path, p)
            else
              let newPath := take (removeStart + 1) path ++ target ++ rest_of path p in
              Done (0%Z, newPath, set_depth (s32 (depthIntoFs p - 1)) (set_index (removeStart + 1) p))
      end.

Definition normalPathComponent (path : str) (followIfSymlink : bool) (p : PathResolution) : method :=
  match filesystems p !! string_part path (index p - 1) 0 with
  | Some f => Done (0%Z, path, enter f (if length path <? index p then index p - 1 else index p) 1 p)
  | None =>
      let p := set_depth (s32 (depthIntoFs p + 1)) p in
      if syms p && followIfSymlink then
        let '(res, st_mode) := lstat (fs p) (string_part path (index p - 1) (indexIntoFs p)) in
        if (res <? 0)%Z then Done (1%Z, path, p)
        else if S_ISLNK st_mode then followSymlink path p
        else if (index p <=? length path) && negb (S_ISDIR st_mode) then Done ((- ENOTDIR)%Z, path, p)
        else Done (0%Z, path, p)
      else Done (0%Z, path, p)
  end.

(** [ResolvedPath]: an error, or the filesystem and the offset; and the path. *)
Inductive ResolvedPath := ResolveError (result : Z) | Resolved (f : F) (off : nat).

(** The body of the loop: an error, or go on. *)
Definition component (followLastSymlink : bool) (path : str) (p : PathResolution) : method :=
  let slash := match find_first_of slash_char (index p) path with Some s => s | None => length path end in
  if decide (slash = index p) then path ← erase (index p) 1 path; Done (0%Z, path, p)
  else if decide (slash - index p = 1 /\ path !! index p = Some dot_char) then path ← erase (index p) 2 path; Done (0%Z, path, p)
  else if decide (slash - index p = 2 /\ path !! index p = Some dot_char /\ path !! (index p + 1) = Some dot_char) then
    upPathComponent path slash p
  else
    let p := set_index (slash + 1) p in
    let follow := if length path <? index p then followLastSymlink else true in
    normalPathComponent path follow p.

(** Remove the trailing slash. *)
Definition finish (path : str) (p : PathResolution) : exec (ResolvedPath * str) :=
  let last := length path - 1 in
  c ← deref (path !! last);
  if decide (c = slash_char) then
    path ← erase last 1 path;
    let p := if length path <? indexIntoFs p then set_indexIntoFs (length path) p else p in
    Done (Resolved (fs p) (indexIntoFs p), path)
  else Done (Resolved (fs p) (indexIntoFs p), path).

Fixpoint resolve_loop (n : nat) (followLastSymlink : bool) (path : str) (p : PathResolution) : exec (ResolvedPath * str) :=
  match n with
  | O => Fault OutOfFuel
  | S n =>
      '(result, path, p) ← component followLastSymlink path p;
      if (result <? 0)%Z then Done (ResolveError result, path)
      else if length path <=? index p then finish path p
      else resolve_loop n followLastSymlink path p
  end.

(** Every turn of the loop shortens what is left of the path, but for one
    symbolic link, after which the path has at most [PATH_MAX] characters. *)
Definition resolve_fuel (path : str) : nat := length path + PATH_MAX + 3.

Definition resolvePath (fss : gmap str F) (path : str) (followLastSymlink : bool) : exec (ResolvedPath * str) :=
  match fss !! [slash_char] with
  | None => Done (ResolveError (- ENOENT), path)
  | Some r =>
      resolve_loop (resolve_fuel path) followLastSymlink path (mkPathResolution fss r r (supportsSymlinks r) 1 1 1 0)
  end.

(** [FilesystemManager::resolvePath]. *)
Definition manager_resolvePath (fss : gmap str F) (path : str) (followLastSymlink : bool) : exec (ResolvedPath * str) :=
  if PATH_MAX <? length path then Done (ResolveError (- ENAMETOOLONG), path)
  else
    match path with
    | c :: _ => if decide (c = slash_char) then resolvePath fss path followLastSymlink else Done (ResolveError (- ENOENT), path)
    | [] => Done (ResolveError (- ENOENT), path)
    end.

(** ** What a path means

    A path is a sequence of components; resolving it keeps the stack of the
    directories entered, without symbolic links. *)

Definition canon (st : list str) : str := concat (map (fun c => slash_char :: c) st).
Definition dir (st : list str) : str := canon st ++ [slash_char].

Fixpoint join (cs : list str) : str :=
  match cs with [] => [] | [c] => c | c :: cs => c ++ slash_char :: join cs end.

Fixpoint split (s : str) : list str :=
  match s with
  | [] => [[]]
  | x :: s =>
      if decide (x = slash_char) then [] :: split s
      else match split s with c :: cs => (x :: c) :: cs | [] => [[x]] end
  end.

Context (fss : gmap str F) (rootfs : F).

(** The filesystem of a directory and the number of directories down to its
    mount point: the longest prefix that is one. *)
Fixpoint locate_rev (st : list str) : nat * F :=
  match st with
  | [] => (0, rootfs)
  | c :: up => match fss !! canon (rev st) with Some f => (length st, f) | None => locate_rev up end
  end.
Definition locate (st : list str) : nat * F := locate_rev (rev st).
Definition mounted (st : list str) : Prop := is_Some (fss !! canon st).

Definition dot_name : str := [dot_char].
Definition dotdot_name : str := [dot_char; dot_char].

(** [Escaped st]: the filesystem is searched from the parent of [st] up. *)
Inductive outcome := Found (st : list str) | Escaped (st : list str) | Failed (e : Z).

(** The path of the directory [st] in the filesystem mounted at its first [k]
    components. *)
Definition relative (k : nat) (st : list str) : str := drop (length (dir (take k st))) (canon st).

(** A symbolic link in directory [st], with [cs] after it: where to go on. *)
Definition splice (st : list str) (target : str) (cs : list str) : list str * list str :=
  if decide (head target = Some slash_char) then ([], split (tail target) ++ cs) else (st, split target ++ cs).

(** What is found at name [c] of directory [st]: go on in it, follow a link,
    or fail.  An [lstat] or [readlink] that fails is ignored. *)
Inductive found := GoOn | Follow (target : str) | Fail (e : Z).

Definition visit (follow : bool) (l : Z) (st : list str) (c : str) (cs : list str) : Z * found :=
  let '(k, f) := locate st in
  let name := relative k (st ++ [c]) in
  if supportsSymlinks f && (if decide (cs = []) then follow else true) then
    let '(res, mode) := lstat f name in
    if (res <? 0)%Z then (l, GoOn)
    else if S_ISLNK mode then
      if (maxLinkToFollow <=? l + 1)%Z then (l, Fail ELOOP)
      else
        let '(res, target) := readlink f name in
        if (res <? 0)%Z then ((l + 1)%Z, GoOn)
        else if decide (target = []) then (l, Fail ENOENT)
        else
          let '(st', cs') := splice st target cs in
          if PATH_MAX <? length (dir st' ++ join cs') then (l, Fail ENAMETOOLONG) else ((l + 1)%Z, Follow target)
    else if bool_decide (cs <> []) && negb (S_ISDIR mode) then (l, Fail ENOTDIR)
    else (l, GoOn)
  else (l, GoOn).

Definition normal (c : str) : Prop := c <> [] /\ c <> dot_name /\ c <> dotdot_name.

(** [resolves follow l st cs o]: from directory [st], with [l] links followed,
    the components [cs] lead to [o]; [follow] the last symbolic link. *)
Inductive resolves (follow : bool) : Z -> list str -> list str -> outcome -> Prop :=
| resolves_end l st : resolves follow l st [] (Found st)
| resolves_skip l st c cs o : c = [] \/ c = dot_name -> resolves follow l st cs o -> resolves follow l st (c :: cs) o
| resolves_root l cs : resolves follow l [] (dotdot_name :: cs) (Failed (- ENOENT))
| resolves_up l st x cs o :
    ~ (cs = [] /\ mounted (st ++ [x])) -> resolves follow l st cs o -> resolves follow l (st ++ [x]) (dotdot_name :: cs) o
| resolves_up_last l st x : mounted (st ++ [x]) -> resolves follow l (st ++ [x]) [dotdot_name] (Escaped st)
| resolves_mount l st c cs o :
    normal c -> mounted (st ++ [c]) -> resolves follow l (st ++ [c]) cs o -> resolves follow l st (c :: cs) o
| resolves_enter l l' st c cs o :
    normal c -> ~ mounted (st ++ [c]) -> visit follow l st c cs = (l', GoOn) ->
    resolves follow l' (st ++ [c]) cs o -> resolves follow l st (c :: cs) o
| resolves_link l l' st c cs target st' cs' o :
    normal c -> ~ mounted (st ++ [c]) -> visit follow l st c cs = (l', Follow target) -> splice st target cs = (st', cs') ->
    resolves follow l' st' cs' o -> resolves follow l st (c :: cs) o
| resolves_fail l l' st c cs e :
    normal c -> ~ mounted (st ++ [c]) -> visit follow l st c cs = (l', Fail e) -> resolves follow l st (c :: cs) (Failed (- e)).

(** The result for an outcome: the offset is past the slash that ends the
    mount point, unless the path ends there. *)
Definition located (kf : nat * F) (st : list str) : ResolvedPath * str :=
  (Resolved kf.2 (length (dir (take kf.1 st)) `min` length (canon st)), canon st).

Definition result_is (o : outcome) (r : ResolvedPath * str) : Prop :=
  match o with
  | Found st => r = located (locate st) st
  | Escaped st => r = located (locate (removelast st)) st
  | Failed e => r.1 = ResolveError e
  end.

(** ** Paths as sequences of components *)

Definition no_slash (c : str) : Prop := slash_char ∉ c.

Lemma canon_snoc st c : canon (st ++ [c]) = canon st ++ slash_char :: c.
Proof. unfold canon. rewrite map_app, concat_app. simpl. by rewrite app_nil_r. Qed.

Lemma dir_snoc st c : dir (st ++ [c]) = dir st ++ c ++ [slash_char].
Proof. unfold dir. rewrite canon_snoc, <- !app_assoc. done. Qed.

Lemma length_dir st : length (dir st) = S (length (canon st)).
Proof. unfold dir. rewrite length_app. simpl. lia. Qed.

Lemma join_app a b : a <> [] -> b <> [] -> join (a ++ b) = join a ++ slash_char :: join b.
Proof.
  intros Ha Hb. induction a as [|c a IH]; [done|]. destruct a as [|d a].
  - simpl. by destruct b.
  - change (join ((c :: d :: a) ++ b)) with (c ++ slash_char :: join ((d :: a) ++ b)). rewrite IH by done.
    change (join (c :: d :: a)) with (c ++ slash_char :: join (d :: a)). by rewrite <- app_assoc.
Qed.

Lemma join_cons c cs : cs <> [] -> join (c :: cs) = c ++ slash_char :: join cs.
Proof. by destruct cs. Qed.

Lemma split_nonempty s : split s <> [].
Proof. destruct s as [|x s]; simpl; [done|]. case_decide; [done|]. by destruct (split s). Qed.

Lemma join_split s : join (split s) = s.
Proof.
  induction s as [|x s IH]; [done|]. simpl. case_decide as Hx.
  - rewrite join_cons by apply split_nonempty. rewrite IH. by subst.
  - destruct (split s) as [|c cs] eqn:E; [by destruct (split_nonempty s)|]. destruct cs; simpl in *; by rewrite IH.
Qed.

Lemma split_no_slash s : Forall no_slash (split s).
Proof.
  induction s as [|x s IH]; simpl; [by constructor; [apply not_elem_of_nil|]|]. case_decide as Hx.
  - constructor; [apply not_elem_of_nil|done].
  - destruct (split s) as [|c cs]; inversion IH as [|? ? Hc Hcs]; subst; (constructor; [|done || constructor]).
    + unfold no_slash. set_solver.
    + unfold no_slash in *. set_solver.
Qed.

(** The last slash of a directory's path. *)
Lemma last_slash st x z pos :
  no_slash x -> length (canon st) <= pos -> (pos <= length (canon st) + length x \/ z = []) ->
  find_last_of slash_char pos (canon st ++ slash_char :: x ++ z) = Some (length (canon st)).
Proof.
  intros Hx Hp Hz. apply find_last_of_app; [done|]. destruct Hz as [Hz| ->].
  - rewrite take_app_le by lia. intros Hin. apply Hx. by eapply elem_of_take in Hin as (? & ? & _); eapply list_elem_of_lookup_2.
  - rewrite app_nil_r. intros Hin. apply Hx. by eapply elem_of_take in Hin as (? & ? & _); eapply list_elem_of_lookup_2.
Qed.

(** The next slash after a component. *)
Lemma next_slash st c cs :
  no_slash c ->
  find_first_of slash_char (length (dir st)) (dir st ++ join (c :: cs)) =
  if decide (cs = []) then None else Some (length (dir st) + length c).
Proof.
  intros Hc. unfold find_first_of. rewrite drop_app_length. case_decide as Hcs.
  - subst. simpl. by apply find_from_None.
  - rewrite join_cons by done. by apply find_from_app.
Qed.

(** *** The mount point of a directory *)

Lemma locate_snoc st c : locate (st ++ [c]) =
  match fss !! canon (st ++ [c]) with Some f => (length (st ++ [c]), f) | None => locate st end.
Proof.
  unfold locate. rewrite rev_unit. cbn [locate_rev rev length]. rewrite rev_involutive, length_rev, length_app. simpl.
  by rewrite Nat.add_1_r.
Qed.

Lemma locate_nil : locate [] = (0, rootfs).
Proof. done. Qed.

Lemma locate_bound st : (locate st).1 <= length st.
Proof.
  induction st as [|c st IH] using rev_ind; [done|]. rewrite locate_snoc, length_app. simpl. destruct (fss !! _); simpl; lia.
Qed.

Lemma locate_mounted st c f : fss !! canon (st ++ [c]) = Some f -> locate (st ++ [c]) = (S (length st), f).
Proof. intros Hf. rewrite locate_snoc, Hf, length_app. simpl. by rewrite Nat.add_1_r. Qed.

Lemma locate_unmounted st c : fss !! canon (st ++ [c]) = None -> locate (st ++ [c]) = locate st.
Proof. intros Hf. by rewrite locate_snoc, Hf. Qed.

Lemma canon_app a b : canon (a ++ b) = canon a ++ canon b.
Proof. unfold canon. by rewrite map_app, concat_app. Qed.

Lemma canon_take_le k st : length (canon (take k st)) <= length (canon st).
Proof. rewrite <- (take_drop k st) at 2. rewrite canon_app, length_app. lia. Qed.

Lemma dir_take_le k st : k < length st -> length (dir (take k st)) <= length (canon st).
Proof.
  intros Hk. rewrite length_dir. rewrite <- (take_drop k st) at 2. rewrite canon_app, length_app.
  destruct (drop k st) as [|c r] eqn:E; [apply (f_equal length) in E; rewrite length_drop in E; simpl in E; lia|].
  change (canon (c :: r)) with ((slash_char :: c) ++ canon r). simpl. lia.
Qed.

(** [recursiveFindFs]'s search, from the last slash of [st] up. *)
Lemma find_fs_spec n b st z p :
  Forall no_slash st -> length st < n -> filesystems p = fss -> root p = rootfs ->
  find_last_of slash_char (b - 1) (canon st ++ z) = Some (length (canon st)) ->
  (0 <= depthIntoFs p)%Z -> (depthIntoFs p + Z.of_nat (length st) < 2 ^ 31)%Z ->
  find_fs n b (canon st ++ z) p =
  Done (0%Z, canon st ++ z, enter (locate st).2 (length (dir (take (locate st).1 st))) (depthIntoFs p + Z.of_nat (length st - (locate st).1)) p).
Proof.
  revert n b z p. induction st as [|x st IH] using rev_ind; intros n b z p Hs Hn Hfs Hr Hlast Hd0 Hd; (destruct n as [|n]; [simpl in Hn; lia|]).
  - simpl in Hlast |- *. rewrite Hlast, Hr, Z.add_0_r. done.
  - apply Forall_app in Hs as [Hs Hx]. inversion Hx as [|? ? Hx' _]; subst.
    cbn [find_fs]. rewrite Hlast. destruct (length (canon (st ++ [x]))) as [|b'] eqn:El; [rewrite canon_snoc, length_app in El; simpl in El; lia|].
    rewrite <- El. unfold string_part. rewrite take_app_length. cbn [Nat.min]. rewrite drop_0. rewrite length_app in Hn, Hd |- *. simpl in Hn, Hd.
    rewrite Hfs. destruct (fss !! canon (st ++ [x])) as [f|] eqn:Ef.
    + rewrite (locate_mounted _ _ _ Ef). simpl. rewrite take_ge by (rewrite length_app; simpl; lia).
      rewrite length_dir, Nat.add_1_r. replace (length st + 1 - S (length st)) with 0 by lia. by rewrite Z.add_0_r.
    + rewrite (locate_unmounted _ _ Ef). pose proof (locate_bound st) as Hk.
      rewrite canon_snoc, <- app_assoc. simpl app. rewrite wrapS_small by lia.
      rewrite IH; try done; simpl.
      * rewrite take_app_le by done. unfold enter; simpl. do 3 f_equal. lia.
      * lia.
      * apply last_slash; [done|rewrite length_app; simpl; lia|left; rewrite length_app; simpl; lia].
      * lia.
      * lia.
Qed.

(** ** The loop follows the components *)

Hypothesis PATH_MAX_small : (Z.of_nat PATH_MAX < 2 ^ 30)%Z.

Definition proper (c : str) : Prop := no_slash c /\ c <> [].

(** The loop is in directory [st] with the components [cs] to go. *)
Record at_ (l : Z) (st cs : list str) (path : str) (p : PathResolution) : Prop := At {
  at_path : path = dir st ++ join cs;
  at_cs : cs <> [];
  at_st : Forall proper st;
  at_rest : Forall no_slash cs;
  at_fss : filesystems p = fss;
  at_root : root p = rootfs;
  at_fs : fs p = (locate st).2;
  at_syms : syms p = supportsSymlinks (fs p);
  at_index : index p = length (dir st);
  at_into : indexIntoFs p = length (dir (take (locate st).1 st));
  at_depth : depthIntoFs p = Z.of_nat (length st - (locate st).1 + 1);
  at_links : linksFollowed p = l;
  at_few : (0 <= l <= 1)%Z;
  at_len : length path <= PATH_MAX;
}.

(** The loop ends here with outcome [o]. *)
Definition ends (o : outcome) (path : str) (p : PathResolution) : Prop :=
  length path <= index p /\ exists r, finish path p = Done r /\ result_is o r.

Lemma finish_slash st p f k :
  fs p = f -> indexIntoFs p = length (dir (take k st)) `min` length (dir st) ->
  finish (dir st) p = Done (located (k, f) st).
Proof.
  intros Hf Hi. unfold finish, located. rewrite !length_dir in *. cbn [Nat.sub]. rewrite Nat.sub_0_r.
  assert (Hl : dir st !! length (canon st) = Some slash_char) by (unfold dir; by rewrite lookup_app_r, Nat.sub_diag by lia).
  assert (He : erase (length (canon st)) 1 (dir st) = Done (canon st)).
  { pose proof (erase_app (canon st) [slash_char] []) as He. by rewrite !app_nil_r in He. }
  rewrite Hl. cbn [mbind outcome_bind deref]. rewrite decide_True, He by done. cbn [mbind outcome_bind].
  rewrite <- Hf. destruct (Nat.ltb_spec (length (canon st)) (indexIntoFs p)); cbn [fst snd fs indexIntoFs set_indexIntoFs]; do 4 f_equal; lia.
Qed.

Lemma finish_plain st x p f k :
  proper x -> fs p = f -> indexIntoFs p = length (dir (take k (st ++ [x]))) `min` length (canon (st ++ [x])) ->
  finish (canon (st ++ [x])) p = Done (located (k, f) (st ++ [x])).
Proof.
  intros [Hx Hne] Hf Hi. unfold finish, located. simpl. rewrite <- Hi, Hf. clear Hi.
  destruct x as [|c x _] using rev_ind; [done|]. rewrite canon_snoc.
  replace (canon st ++ slash_char :: x ++ [c]) with ((canon st ++ slash_char :: x) ++ [c]) by (by rewrite <- app_assoc).
  rewrite length_app. simpl. rewrite Nat.add_sub, lookup_app_r, Nat.sub_diag by lia. simpl.
  rewrite decide_False; [done|]. intros ->. apply Hx. set_solver.
Qed.

Lemma at_ends l st path p : at_ l st [[]] path p -> ends (Found st) path p.
Proof.
  intros Ha. destruct Ha as [Hp _ _ _ _ _ Hf _ Hi Hin _ _ _ _]. rewrite Hp, app_nil_r. split; [by rewrite Hi|].
  eexists. split; [|reflexivity]. rewrite (finish_slash st p (fs p) (locate st).1); [|done|].
  - rewrite Hf. by destruct (locate st).
  - rewrite Hin. rewrite Nat.min_l; [done|]. rewrite !length_dir. apply le_n_S, canon_take_le.
Qed.

Lemma st_no_slash st : Forall proper st -> Forall no_slash st.
Proof. intros Hst. eapply Forall_impl; [done|]. by intros ? []. Qed.

Lemma st_length st : length st <= length (canon st).
Proof. induction st as [|c st IH]; [done|]. unfold canon in *. simpl. rewrite length_app. lia. Qed.

(** What a turn of the loop does. *)
Definition weight (l : Z) (cs : list str) : nat := length (join cs) + (if (l <? 1)%Z then PATH_MAX + 2 else 0).

Definition step_ok (follow : bool) (l : Z) (st cs : list str) (m : exec (Z * str * PathResolution)) : Prop :=
  exists res path' p', m = Done (res, path', p') /\
    (((res < 0)%Z /\ resolves follow l st cs (Failed res)) \/
     ((0 <= res)%Z /\ exists o, resolves follow l st cs o /\ ends o path' p') \/
     ((0 <= res)%Z /\ exists l' st' cs', at_ l' st' cs' path' p' /\ weight l' cs' < weight l cs /\
        forall o, resolves follow l' st' cs' o -> resolves follow l st cs o)).

Lemma skip_ok follow l st c cs path p :
  at_ l st (c :: cs) path p -> c = [] \/ c = dot_name ->
  (if decide (cs = []) then path = dir st ++ c else path = dir st ++ (c ++ [slash_char]) ++ join cs) ->
  step_ok follow l st (c :: cs) (path ← erase (index p) (length c + 1) path; Done (0%Z, path, p)).
Proof.
  intros Ha Hc Hpath. pose proof Ha as [_ _ Hst Hrest Hfs Hr Hf Hsy Hi Hin Hd Hl Hfew Hlen]. rewrite Hi.
  destruct (decide (cs = [])) as [->|Hcs].
  - exists 0%Z, (dir st), p. split.
    + rewrite Hpath. unfold erase. rewrite length_app. destruct (Nat.leb_spec (length (dir st)) (length (dir st) + length c)); [|lia].
      rewrite take_app_length, drop_ge by (rewrite length_app; lia). by rewrite app_nil_r.
    + right. left. split; [done|]. exists (Found st). split; [by apply resolves_skip; [|apply resolves_end]|].
      apply (at_ends l). split; try done; [by rewrite app_nil_r|by constructor; [apply not_elem_of_nil|]|].
      rewrite Hpath, length_app in Hlen. lia.
  - exists 0%Z, (dir st ++ join cs), p. split.
    + rewrite Hpath. replace (length c + 1) with (length (c ++ [slash_char])) by (by rewrite length_app).
      rewrite erase_app. done.
    + right. right. split; [done|]. exists l, st, cs. split_and!.
      * inversion Hrest; subst. split; try done. rewrite !length_app in *. simpl in *. lia.
      * unfold weight. rewrite (join_cons c) by done. rewrite length_app. simpl. lia.
      * intros o Ho. by apply resolves_skip.
Qed.

(** *** Going up *)

(** What is left after the component at the position. *)
Definition after (cs : list str) : str := if decide (cs = []) then [] else slash_char :: join cs.

Lemma join_after c cs : join (c :: cs) = c ++ after cs.
Proof. unfold after. case_decide; [subst; by rewrite app_nil_r|]. by apply join_cons. Qed.

Lemma recursiveFindFs_spec st z path p :
  Forall no_slash st -> filesystems p = fss -> root p = rootfs -> path = canon st ++ z -> length path <= PATH_MAX ->
  find_last_of slash_char (index p - 1) path = Some (length (canon st)) ->
  recursiveFindFs path p =
  Done (0%Z, path, enter (locate st).2 (length (dir (take (locate st).1 st))) (Z.of_nat (length st - (locate st).1 + 1)) p).
Proof.
  intros Hst Hfs Hr -> Hlen Hlast. unfold recursiveFindFs. pose proof (st_length st) as Hl. rewrite length_app in Hlen.
  rewrite find_fs_spec; try done; [|rewrite length_app; lia|simpl; lia]. simpl. unfold enter; simpl. do 4 f_equal. lia.
Qed.

Lemma enter_root_nil p : enter (locate []).2 (length (dir (take (locate []).1 []))) (Z.of_nat (length (@nil str) - (locate []).1 + 1)) p = enter rootfs 1 1 p.
Proof. done. Qed.

(** The path, and the object before the search for the filesystem. *)
Lemma up_start l st x cs path p :
  at_ l (st ++ [x]) (dotdot_name :: cs) path p ->
  let path' := if decide (canon st ++ after cs = []) then [slash_char] else canon st ++ after cs in
  upPathComponent path (index p + 2) p =
  let p1 := set_depth (Z.of_nat (length st + 1 - (locate (st ++ [x])).1))
    (mkPathResolution fss rootfs (fs p) (syms p) (length (dir st)) (indexIntoFs p `min` length path') (depthIntoFs p) l) in
  if (0 <? depthIntoFs p1)%Z then Done (0%Z, path', p1) else recursiveFindFs path' p1.
Proof.
  intros Ha path'. pose proof Ha as [Hp _ Hst _ Hfs Hr _ _ Hi _ Hd Hl _ Hlen].
  apply Forall_app in Hst as [Hst Hx]. inversion Hx as [|? ? [Hx' Hxn] _]; subst. unfold upPathComponent.
  assert (Hidx : index p = length (canon st) + length x + 2) by (rewrite Hi, dir_snoc, !length_app, length_dir; simpl; lia).
  rewrite Hidx. clear Hi.
  assert (Hpath : dir (st ++ [x]) ++ join (dotdot_name :: cs) = canon st ++ (slash_char :: x ++ slash_char :: dotdot_name) ++ after cs).
  { rewrite join_after, dir_snoc. unfold dir. rewrite <- !app_assoc. simpl. rewrite <- !app_assoc. done. }
  rewrite Hpath in *. clear Hpath. destruct (Nat.leb_spec (length (canon st) + length x + 2) 1); [lia|].
  rewrite Nat.add_sub.
  assert (Hlast : find_last_of slash_char (length (canon st) + length x)
    (canon st ++ (slash_char :: x ++ slash_char :: dotdot_name) ++ after cs) = Some (length (canon st))).
  { replace ((slash_char :: x ++ slash_char :: dotdot_name) ++ after cs) with (slash_char :: x ++ (slash_char :: dotdot_name ++ after cs))
      by (simpl; by rewrite <- app_assoc). apply last_slash; [done|lia|left; lia]. }
  rewrite Hlast.
  replace (length (canon st) + length x + 2 + 2 - length (canon st)) with (length (slash_char :: x ++ slash_char :: dotdot_name))
    by (simpl; rewrite length_app; simpl; lia).
  rewrite erase_app. cbn [mbind outcome_bind]. fold path'.
  pose proof (locate_bound (st ++ [x])) as Hk. rewrite length_app in Hk. simpl in Hk.
  assert (Hstl : length st <= PATH_MAX) by (pose proof (st_length st); rewrite length_app in Hlen; lia).
  replace (length st + 1 - (locate (st ++ [x])).1) with (length (st ++ [x]) - (locate (st ++ [x])).1) by (by rewrite length_app).
  assert (Hd' : s32 (depthIntoFs p - 1) = Z.of_nat (length (st ++ [x]) - (locate (st ++ [x])).1)).
  { rewrite Hd, wrapS_small; [lia|lia|]. rewrite length_app. simpl. lia. }
  rewrite length_dir, Nat.add_1_r. destruct p; simpl in *. subst.
  destruct (Nat.ltb_spec (length path') indexIntoFs0); unfold set_depth; simpl; rewrite Hd'; simpl;
    [rewrite Nat.min_r by lia|rewrite Nat.min_l by lia]; done.
Qed.

Lemma find_last_end a : find_last_of slash_char (length a) (a ++ [slash_char]) = Some (length a).
Proof. apply find_last_of_app; [done|]. rewrite Nat.sub_diag. apply not_elem_of_nil. Qed.

(** The path ends after [".."]: the directory itself is left. *)
Lemma ends_here o st p f k :
  Forall proper st -> fs p = f -> index p = length (dir st) ->
  indexIntoFs p = length (dir (take k st)) `min` length (if decide (st = []) then [slash_char] else canon st) ->
  (forall r, r = located (k, f) st -> result_is o r) ->
  ends o (if decide (st = []) then [slash_char] else canon st) p.
Proof.
  intros Hst Hf Hi Hin Ho. split.
  - rewrite Hi, length_dir. case_decide; subst; simpl; lia.
  - eexists. split; [|by apply Ho]. destruct st as [|x st _] using rev_ind.
    + rewrite decide_True in * by done. by apply (finish_slash []).
    + rewrite decide_False in * by (by destruct st). apply Forall_app in Hst as [_ Hx]. inversion Hx; subst. by apply finish_plain.
Qed.

Lemma after_nil : after [] = [].
Proof. done. Qed.
Lemma dir_after st cs : cs <> [] -> canon st ++ after cs = dir st ++ join cs.
Proof. intros Hcs. unfold after, dir. rewrite decide_False by done. by rewrite <- app_assoc. Qed.
Lemma canon_nil st : canon st = [] <-> st = [].
Proof. split; [|by intros ->]. by destruct st. Qed.

Lemma up_ok follow l st cs path p :
  at_ l st (dotdot_name :: cs) path p -> step_ok follow l st (dotdot_name :: cs) (upPathComponent path (index p + 2) p).
Proof.
  intros Ha. destruct st as [|x st _] using rev_ind.
  { exists (- ENOENT)%Z, path, p. split; [|left; split; [done|apply resolves_root]].
    unfold upPathComponent. by rewrite (at_index _ _ _ _ _ Ha). }
  pose proof (up_start l st x cs path p Ha) as Hup. simpl in Hup.
  pose proof Ha as [Hp _ Hst Hrest Hfs Hr Hf Hsy _ Hin _ _ Hfew Hlen]. apply Forall_app in Hst as [Hst _].
  pose proof (st_no_slash st Hst) as Hns. pose proof (locate_bound st) as Hk.
  assert (Hplen : length (canon st ++ after cs) + 2 <= length path).
  { rewrite Hp, join_after, dir_snoc, !length_app, length_dir. simpl. lia. }
  set (path' := if decide (canon st ++ after cs = []) then [slash_char] else canon st ++ after cs) in *.
  assert (Hp'len : length path' <= PATH_MAX) by (unfold path'; case_decide; simpl; lia).
  rewrite Hup. clear Hup.
  destruct (decide (cs = [])) as [->|Hcs].
  - (* the last component *)
    assert (Hp' : path' = if decide (st = []) then [slash_char] else canon st).
    { unfold path'. rewrite after_nil, app_nil_r. destruct (decide (canon st = [])) as [E|E]; rewrite canon_nil in E.
      - by rewrite decide_True.
      - by rewrite decide_False. }
    destruct (fss !! canon (st ++ [x])) as [f|] eqn:Ef.
    + rewrite (locate_mounted _ _ _ Ef), Nat.add_1_r, Nat.sub_diag. simpl.
      assert (Hm : mounted (st ++ [x])) by (by eexists). destruct st as [|y st _] using rev_ind.
      * change (path' = [slash_char]) in Hp'. rewrite Hp' in *.
        rewrite (recursiveFindFs_spec [] [slash_char] [slash_char]) by done.
        eexists 0%Z, [slash_char], _. split; [done|]. right. left. split; [done|]. exists (Escaped []).
        split; [by apply resolves_up_last|]. by apply (ends_here _ [] _ rootfs 0).
      * rewrite decide_False in Hp' by (by destruct st). apply Forall_app in Hst as [Hst Hy]. pose proof Hy as [[Hy' _] _]%Forall_cons.
        pose proof (locate_bound st) as Hk'.
        rewrite (recursiveFindFs_spec st (slash_char :: y)); try done; simpl.
        -- exists 0%Z, path'. eexists. split; [done|]. right. left. split; [done|]. exists (Escaped (st ++ [y])).
           split; [by apply resolves_up_last|]. rewrite Hp'.
           assert (Hif : canon (st ++ [y]) = if decide (st ++ [y] = []) then [slash_char] else canon (st ++ [y])) by (rewrite decide_False; [done|by destruct st]).
           rewrite Hif. apply (ends_here _ _ _ (locate st).2 (locate st).1); [by apply Forall_app|done|done| |].
           ++ simpl. rewrite <- Hif, take_app_le by done. rewrite Nat.min_l; [done|]. rewrite <- (take_app_le st [y]) by done.
              apply dir_take_le. rewrite length_app. simpl. lia.
           ++ intros r ->. simpl. rewrite removelast_last. by destruct (locate st).
        -- by apply st_no_slash.
        -- rewrite Hp'. by rewrite canon_snoc.
        -- rewrite Hp', canon_snoc. pose proof (last_slash st y [] (length (dir (st ++ [y])) - 1) Hy') as Hls. rewrite app_nil_r in Hls.
           apply Hls; [|by right]. rewrite length_dir, canon_snoc, length_app. simpl. lia.
    + rewrite (locate_unmounted _ _ Ef) in *. simpl. destruct (Z.ltb_spec 0 (Z.of_nat (length st + 1 - (locate st).1))); [|lia].
      eexists 0%Z, path', _. split; [done|]. right. left. split; [done|]. exists (Found st). split.
      * apply resolves_up; [|apply resolves_end]. intros [_ [f Hf']]. congruence.
      * rewrite Hp'. apply (ends_here _ _ _ (locate st).2 (locate st).1); simpl; [done|done|done| |].
        -- rewrite Hin, take_app_le by done. done.
        -- intros r ->. by destruct (locate st).
  - (* more components *)
    assert (Hp' : path' = dir st ++ join cs) by (unfold path'; rewrite dir_after by done; rewrite decide_False; [done|unfold dir; by destruct (canon st)]).
    assert (Hnext : forall p', filesystems p' = fss -> root p' = rootfs -> fs p' = (locate st).2 -> syms p' = supportsSymlinks (locate st).2 ->
      index p' = length (dir st) -> indexIntoFs p' = length (dir (take (locate st).1 st)) -> depthIntoFs p' = Z.of_nat (length st - (locate st).1 + 1) ->
      linksFollowed p' = l -> step_ok follow l (st ++ [x]) (dotdot_name :: cs) (Done (0%Z, path', p'))).
    { intros p' ? ? Hf' ? ? ? ? ?. exists 0%Z, path', p'. split; [done|]. right. right. split; [done|]. exists l, st, cs. split_and!.
      - inversion Hrest; subst. split; try done. congruence.
      - unfold weight. rewrite (join_cons dotdot_name) by done. rewrite length_app. simpl. lia.
      - intros o Ho. apply resolves_up; [by intros [? _]|done]. }
    destruct (fss !! canon (st ++ [x])) as [f|] eqn:Ef.
    + rewrite (locate_mounted _ _ _ Ef), Nat.add_1_r, Nat.sub_diag. simpl.
      rewrite (recursiveFindFs_spec st (after cs)); try done; simpl.
      * by apply Hnext.
      * by rewrite Hp', dir_after.
      * rewrite Hp', length_dir. simpl. rewrite Nat.sub_0_r. unfold dir. rewrite <- app_assoc. apply find_last_of_app; [done|].
        rewrite Nat.sub_diag. apply not_elem_of_nil.
    + rewrite (locate_unmounted _ _ Ef) in *. simpl. destruct (Z.ltb_spec 0 (Z.of_nat (length st + 1 - (locate st).1))); [|lia].
      apply Hnext; simpl; try done; [congruence| |].
      * rewrite Hin, take_app_le by done. rewrite Nat.min_l; [done|]. rewrite Hp', length_app, !length_dir. pose proof (canon_take_le (locate st).1 st). lia.
      * unfold set_depth; simpl. lia.
Qed.

(** *** Going down *)

Lemma path_after st c cs : dir st ++ join (c :: cs) = canon (st ++ [c]) ++ after cs.
Proof. rewrite join_after, canon_snoc. unfold dir. by rewrite <- !app_assoc. Qed.

Lemma length_after cs : length (after cs) = if decide (cs = []) then 0 else S (length (join cs)).
Proof. unfold after. by case_decide. Qed.

(** The state after the component [c] of directory [st] is accepted. *)
Definition entered (l : Z) (st : list str) (cs : list str) (path : str) (p : PathResolution) : Prop :=
  filesystems p = fss /\ root p = rootfs /\ fs p = (locate st).2 /\ syms p = supportsSymlinks (fs p) /\
  index p = length (dir st) /\
  indexIntoFs p = (if decide (cs = []) then length (dir (take (locate st).1 st)) `min` length (canon st) else length (dir (take (locate st).1 st))) /\
  depthIntoFs p = Z.of_nat (length st - (locate st).1 + 1) /\ linksFollowed p = l /\ (0 <= l <= 1)%Z /\
  path = canon st ++ after cs /\ length path <= PATH_MAX.

Lemma entered_ok follow l l' st c cs path res p :
  Forall proper st -> proper c -> Forall no_slash cs -> entered l' (st ++ [c]) cs path p -> (0 <= res)%Z -> (l <= l')%Z ->
  (forall o, resolves follow l' (st ++ [c]) cs o -> resolves follow l st (c :: cs) o) ->
  step_ok follow l st (c :: cs) (Done (res, path, p)).
Proof.
  intros Hst Hc Hcs (Hfs & Hr & Hf & Hsy & Hi & Hin & Hd & Hl & Hfew & Hp & Hlen) Hres Hll Hrule.
  assert (Hst' : Forall proper (st ++ [c])) by (apply Forall_app; split; [done|by constructor]).
  exists res, path, p. split; [done|]. right. destruct (decide (cs = [])) as [->|Hne].
  - left. split; [done|]. exists (Found (st ++ [c])). split; [apply Hrule, resolves_end|].
    rewrite after_nil, app_nil_r in Hp.
    assert (Hif : canon (st ++ [c]) = if decide (st ++ [c] = []) then [slash_char] else canon (st ++ [c])) by (rewrite decide_False; [done|by destruct st]).
    rewrite Hp, Hif. apply (ends_here _ _ _ (locate (st ++ [c])).2 (locate (st ++ [c])).1); [done..|by rewrite <- Hif|].
    intros r ->. simpl. by destruct (locate (st ++ [c])).
  - right. split; [done|]. exists l', (st ++ [c]), cs. split_and!; [|..|done].
    + split; try done. by rewrite Hp, dir_after.
    + unfold weight. rewrite (join_cons c) by done. rewrite length_app. simpl. destruct (Z.ltb_spec l 1), (Z.ltb_spec l' 1); lia.
Qed.

(** The object when the component has been scanned. *)
Definition scanned (c : str) (p : PathResolution) : PathResolution := set_index (index p + length c + 1) p.

Lemma scanned_facts l st c cs path p :
  at_ l st (c :: cs) path p ->
  path = canon (st ++ [c]) ++ after cs /\ index (scanned c p) = length (dir (st ++ [c])) /\
  index (scanned c p) - 1 = length (canon (st ++ [c])) /\
  string_part path (index (scanned c p) - 1) 0 = canon (st ++ [c]) /\
  string_part path (index (scanned c p) - 1) (indexIntoFs p) = relative (locate st).1 (st ++ [c]) /\
  (length path <? index (scanned c p)) = bool_decide (cs = []) /\ rest_of path (scanned c p) = after cs.
Proof.
  intros Ha. pose proof (at_path _ _ _ _ _ Ha) as Hp. rewrite path_after in Hp. pose proof (locate_bound st) as Hk.
  assert (Hi : index (scanned c p) = S (length (canon (st ++ [c])))).
  { simpl. rewrite (at_index _ _ _ _ _ Ha), length_dir, canon_snoc, length_app. simpl. lia. }
  unfold string_part, rest_of. rewrite Hi. simpl Nat.sub. rewrite Nat.sub_0_r, length_dir. rewrite Hp, take_app_length, length_app, length_after.
  assert (Hin : indexIntoFs p <= length (canon (st ++ [c]))).
  { rewrite (at_into _ _ _ _ _ Ha), <- (take_app_le st [c]) by done. apply dir_take_le. rewrite length_app. simpl. lia. }
  split_and!; try done.
  - rewrite Nat.min_l by done. unfold relative. rewrite (at_into _ _ _ _ _ Ha), take_app_le by done. done.
  - case_decide; [rewrite bool_decide_true by done; apply Nat.ltb_lt; lia|rewrite bool_decide_false by done; apply Nat.ltb_ge; lia].
  - case_decide; [rewrite (proj2 (Nat.leb_gt _ _)) by lia; by subst|rewrite (proj2 (Nat.leb_le _ _)) by lia; apply drop_app_length].
Qed.

Lemma splice_spec st target cs st' cs' :
  target <> [] -> splice st target cs = (st', cs') -> Forall no_slash cs ->
  cs' <> [] /\ Forall no_slash cs' /\
  ((head target = Some slash_char /\ st' = [] /\ dir st' ++ join cs' = target ++ after cs) \/
   (head target <> Some slash_char /\ st' = st /\ dir st' ++ join cs' = dir st ++ target ++ after cs)).
Proof.
  intros Ht Hs Hcs. unfold splice in Hs.
  assert (Hj : forall t, join (split t ++ cs) = t ++ after cs).
  { intros t. unfold after. destruct (decide (cs = [])) as [Hn|Hn]; [subst; by rewrite !app_nil_r, join_split|]. by rewrite join_app, join_split by (done || apply split_nonempty). }
  assert (Hne : forall t, split t ++ cs <> []) by (intros t E; apply app_eq_nil in E as [E _]; by destruct (split_nonempty t)).
  assert (Hns : forall t, Forall no_slash (split t ++ cs)) by (intros t; apply Forall_app; split; [apply split_no_slash|done]).
  case_decide as Hh; injection Hs as <- <-; (split; [done|]); (split; [done|]); [left|right]; (split; [done|]); (split; [done|]); rewrite Hj; [|done].
  destruct target as [|x t]; [done|]. simpl in Hh. injection Hh as ->. done.
Qed.

(** The object after the component [c], which is not a mount point. *)
Definition deeper (c : str) (p : PathResolution) : PathResolution := set_depth (depthIntoFs p + 1) (scanned c p).

Lemma follow_ok follow l st c cs path p res target :
  at_ l st (c :: cs) path p -> normal c -> ~ mounted (st ++ [c]) -> (0 <= res)%Z ->
  readlink (locate st).2 (relative (locate st).1 (st ++ [c])) = (res, target) ->
  (forall o st' cs', target <> [] -> splice st target cs = (st', cs') -> length (dir st' ++ join cs') <= PATH_MAX -> (l < 1)%Z ->
     resolves follow (l + 1) st' cs' o -> resolves follow l st (c :: cs) o) ->
  (forall e, (target = [] /\ e = ENOENT) \/ (exists st' cs', target <> [] /\ splice st target cs = (st', cs') /\
     PATH_MAX < length (dir st' ++ join cs') /\ e = ENAMETOOLONG) -> (l < 1)%Z -> resolves follow l st (c :: cs) (Failed (- e))) ->
  (l < 1)%Z -> step_ok follow l st (c :: cs) (followSymlink path (deeper c p)).
Proof.
  intros Ha [Hcn _] Hm Hres Hread Hgo Hfail Hl1.
  destruct (scanned_facts l st c cs path p Ha) as (Hp & Hi & Hi1 & _ & Hname & _ & Hrest).
  pose proof Ha as [Hp0 _ Hst Hns Hfs Hr Hf Hsy Hi0 Hin Hd Hl Hfew Hlen]. pose proof Hns as [Hc Hcs]%Forall_cons.
  unfold followSymlink, deeper. cbn [set_links set_depth scanned set_index linksFollowed index indexIntoFs fs filesystems root syms depthIntoFs].
  change (index p + length c + 1) with (index (scanned c p)).
  rewrite Hl, wrapS_small by lia. unfold maxLinkToFollow. destruct (Z.leb_spec 2 (l + 1)); [lia|].
  rewrite Hf, Hname, Hread. rewrite (proj2 (Z.ltb_ge _ _)) by done.
  destruct target as [|x t]; [eexists _, _, _; split; [done|]; left; split; [done|]; apply Hfail; [left|]; done|].
  change (rest_of path _) with (rest_of path (scanned c p)). rewrite Hrest.
  destruct (splice st (x :: t) cs) as [st' cs'] eqn:Es.
  destruct (splice_spec st (x :: t) cs st' cs') as (Hcs' & Hns' & Hcase); [done..|].
  assert (Hlp : length path = length (canon (st ++ [c])) + length (after cs)) by (by rewrite Hp, length_app).
  pose proof (length_dir (st ++ [c])) as Hld.
  assert (Hlc : length (canon (st ++ [c])) = length (dir st) + length c) by (rewrite canon_snoc, length_app, length_dir; simpl; lia).
  pose proof (locate_bound st) as Hk.
  destruct (decide (x = slash_char)) as [->|Hx].
  - destruct Hcase as [(_ & -> & Heq)|[Hh _]]; [|by destruct Hh].
    assert (Hl' : length (slash_char :: t) + length path + 1 - index (scanned c p) = length (dir [] ++ join cs')) by (rewrite Heq, Hi, length_app; lia).
    rewrite Hl'. destruct (Nat.ltb_spec PATH_MAX (length (dir [] ++ join cs'))) as [Hlong|Hshort].
    + eexists _, _, _. split; [done|]. left. split; [done|]. apply Hfail; [|done]. right. by exists [], cs'.
    + eexists _, _, _. split; [done|]. right. right. split; [done|]. exists (l + 1)%Z, [], cs'. split_and!.
      * rewrite <- Heq. split; try done; simpl; try by rewrite Hr. lia.
      * unfold weight. rewrite length_app, length_dir in Hshort. simpl in Hshort. destruct (Z.ltb_spec (l + 1) 1), (Z.ltb_spec l 1); lia.
      * intros o Ho. by eapply Hgo.
  - destruct Hcase as [[Hh _]|(_ & -> & Heq)]; [simpl in Hh; congruence|].
    assert (Hlast : find_last_of slash_char (index (scanned c p) - 2) path = Some (length (canon st))).
    { rewrite Hp, canon_snoc, <- app_assoc. simpl app. apply last_slash; [done|rewrite Hi, Hld, Hlc, length_dir; lia|left; rewrite Hi, Hld, Hlc, length_dir; lia]. }
    rewrite Hlast. cbn [mbind outcome_bind deref].
    assert (Hl' : length path + length (x :: t) - (index (scanned c p) - length (canon st) - 2) = length (dir st ++ join cs')).
    { rewrite Heq, Hi, !length_app, !length_dir. rewrite !length_dir in Hlc. simpl. lia. }
    rewrite Hl'. destruct (Nat.ltb_spec PATH_MAX (length (dir st ++ join cs'))) as [Hlong|Hshort].
    + eexists _, _, _. split; [done|]. left. split; [done|]. apply Hfail; [|done]. right. by exists st, cs'.
    + assert (Htake : take (length (canon st) + 1) path = dir st).
      { rewrite Hp0. replace (length (canon st) + 1) with (length (dir st)) by (rewrite length_dir; lia). apply take_app_length. }
      rewrite Htake. eexists _, _, _. split; [done|]. right. right. split; [done|]. exists (l + 1)%Z, st, cs'. split_and!.
      * rewrite <- Heq. split; try done; simpl; try lia; [by rewrite length_dir; lia|].
        rewrite Hd, wrapS_small; [lia|lia|]. pose proof (st_length st). rewrite length_app, length_dir in Hshort. lia.
      * unfold weight. rewrite length_app, length_dir in Hshort. destruct (Z.ltb_spec (l + 1) 1), (Z.ltb_spec l 1); lia.
      * intros o Ho. by eapply Hgo.
Qed.

Lemma normal_ok follow l st c cs path p :
  at_ l st (c :: cs) path p -> normal c ->
  step_ok follow l st (c :: cs) (normalPathComponent path (if length path <? index (scanned c p) then follow else true) (scanned c p)).
Proof.
  intros Ha Hnorm. destruct (scanned_facts l st c cs path p Ha) as (Hp & Hi & Hi1 & Hdirname & Hname & Hlast & Hrest).
  pose proof Ha as [_ _ Hst Hns Hfs Hr Hf Hsy _ Hin Hd Hl Hfew Hlen]. pose proof Hns as [Hc Hcs]%Forall_cons.
  assert (Hpc : proper c) by (split; [done|apply Hnorm]). pose proof (locate_bound st) as Hk.
  assert (Hsl : length st <= PATH_MAX).
  { pose proof (st_length (st ++ [c])) as Hsl. rewrite Hp, !length_app in *. lia. }
  unfold normalPathComponent. rewrite Hdirname, Hlast. change (filesystems (scanned c p)) with (filesystems p). rewrite Hfs.
  destruct (fss !! canon (st ++ [c])) as [f|] eqn:Ef.
  - eapply entered_ok; [done..| |done|reflexivity|].
    + unfold entered, enter. simpl. change (index p + length c + 1) with (index (scanned c p)). rewrite (locate_mounted _ _ _ Ef). cbn [fst snd].
      rewrite take_ge by (rewrite length_app; simpl; lia). rewrite length_app. simpl length.
      split_and!; try done; try lia. destruct (decide (cs = [])) as [Hn|Hn]; [rewrite bool_decide_true by done; rewrite Hi1, length_dir; lia|].
      by rewrite bool_decide_false.
    + intros o Ho. apply resolves_mount; [done|by eexists|done].
  - assert (Hm : ~ mounted (st ++ [c])) by (intros [f Hf']; congruence).
    assert (Hdeep : set_depth (s32 (depthIntoFs (scanned c p) + 1)) (scanned c p) = deeper c p).
    { unfold deeper. simpl. rewrite Hd, wrapS_small by lia. done. }
    rewrite Hdeep. change (syms (deeper c p)) with (syms p). change (fs (deeper c p)) with (fs p).
    change (index (deeper c p)) with (index (scanned c p)). change (indexIntoFs (deeper c p)) with (indexIntoFs p).
    rewrite Hsy, Hf, Hname.
    assert (Hent : entered l (st ++ [c]) cs path (deeper c p)).
    { unfold entered, deeper. rewrite (locate_unmounted _ _ Ef). simpl. change (index p + length c + 1) with (index (scanned c p)).
      rewrite Hin, Hd, length_app, take_app_le by done. cbn [length]. split_and!; try done; try lia.
      case_decide; [|done]. rewrite Nat.min_l; [done|]. rewrite <- (take_app_le st [c]) by done. apply dir_take_le. rewrite length_app. simpl. lia. }
    assert (Hgo : forall res l', (0 <= res)%Z -> (l <= l' <= 1)%Z -> visit follow l st c cs = (l', GoOn) ->
      step_ok follow l st (c :: cs) (Done (res, path, set_links l' (deeper c p)))).
    { intros res l' Hres Hl' Hv. eapply (entered_ok follow l l'); try done; [|lia|].
      - destruct Hent as (?&?&?&?&?&?&?&?&?&?&?). unfold entered. simpl. split_and!; try done; lia.
      - intros o Ho. by eapply resolves_enter. }
    assert (Hgo0 : forall res, (0 <= res)%Z -> visit follow l st c cs = (l, GoOn) -> step_ok follow l st (c :: cs) (Done (res, path, deeper c p))).
    { intros res Hres Hv. replace (deeper c p) with (set_links l (deeper c p)) by (rewrite <- Hl; by destruct p). apply Hgo; [done|lia|done]. }
    unfold visit in Hgo, Hgo0. destruct (locate st) as [k f] eqn:Eloc. cbn [fst snd] in *.
    assert (Hfol : (if bool_decide (cs = []) then follow else true) = (if decide (cs = []) then follow else true)).
    { destruct (decide (cs = [])); [by rewrite bool_decide_true|by rewrite bool_decide_false]. }
    rewrite Hfol. destruct (supportsSymlinks f && (if decide (cs = []) then follow else true)) eqn:Es; [|by apply Hgo0].
    destruct (lstat f (relative k (st ++ [c]))) as [res mode] eqn:Elst.
    destruct (Z.ltb_spec res 0) as [Hneg|Hpos]; [by apply Hgo0|].
    destruct (S_ISLNK mode) eqn:Elnk.
    + unfold maxLinkToFollow in *. destruct (Z.leb_spec 2 (l + 1)) as [Hmany|Hone].
      * unfold followSymlink. simpl. rewrite Hl, wrapS_small by lia. unfold maxLinkToFollow. rewrite (proj2 (Z.leb_le _ _)) by done.
        eexists _, _, _. split; [done|]. left. split; [done|].
        eapply resolves_fail; [done|done|]. unfold visit. rewrite Eloc, Es, Elst, Elnk. rewrite (proj2 (Z.ltb_ge _ _)) by done.
        unfold maxLinkToFollow. by rewrite (proj2 (Z.leb_le _ _)).
      * destruct (readlink f (relative k (st ++ [c]))) as [res2 target] eqn:Er.
        destruct (Z.ltb_spec res2 0) as [Hneg2|Hpos2].
        -- unfold followSymlink. simpl. change (index p + length c + 1) with (index (scanned c p)).
           rewrite Hl, wrapS_small by lia. unfold maxLinkToFollow. rewrite (proj2 (Z.leb_gt _ _)) by done.
           rewrite Hf, Hname, Er. rewrite (proj2 (Z.ltb_lt _ _)) by done. apply (Hgo 1%Z (l + 1)%Z); [done|lia|done].
        -- assert (Hvis : forall st' cs', target <> [] -> splice st target cs = (st', cs') -> visit follow l st c cs =
             if PATH_MAX <? length (dir st' ++ join cs') then (l, Fail ENAMETOOLONG) else ((l + 1)%Z, Follow target)).
           { intros st' cs' Ht Hsp. unfold visit. rewrite Eloc, Es, Elst, Elnk. rewrite (proj2 (Z.ltb_ge _ _)) by done.
             unfold maxLinkToFollow. rewrite (proj2 (Z.leb_gt _ _)) by done. rewrite Er. rewrite (proj2 (Z.ltb_ge _ _)) by done.
             rewrite decide_False by done. by rewrite Hsp. }
           eapply (follow_ok follow l st c cs path p res2 target); try done; rewrite ?Eloc; try done; [| |lia].
           ++ intros o st' cs' Ht Hsp Hshort _ Ho. eapply resolves_link; [done..| |done|done].
              rewrite (Hvis st' cs') by done. by rewrite (proj2 (Nat.ltb_ge _ _)).
           ++ intros e He _. eapply resolves_fail; [done|done|]. destruct He as [[-> ->]|(st' & cs' & Ht & Hsp & Hlong & ->)].
              ** unfold visit. rewrite Eloc, Es, Elst, Elnk. rewrite (proj2 (Z.ltb_ge _ _)) by done.
                 unfold maxLinkToFollow. rewrite (proj2 (Z.leb_gt _ _)) by done. rewrite Er. rewrite (proj2 (Z.ltb_ge _ _)) by done. done.
              ** rewrite (Hvis st' cs') by done. by rewrite (proj2 (Nat.ltb_lt _ _)).
    + assert (Hle : (index (scanned c p) <=? length path) = bool_decide (cs <> [])).
      { rewrite Nat.leb_antisym, Hlast. destruct (decide (cs = [])); [rewrite !bool_decide_true, bool_decide_false by tauto|rewrite bool_decide_false, bool_decide_true by tauto]; done. }
      rewrite Hle. destruct (bool_decide (cs <> []) && negb (S_ISDIR mode)) eqn:Edir; [|by apply Hgo0].
      eexists _, _, _. split; [done|]. left. split; [done|]. eapply resolves_fail; [done|done|].
      unfold visit. rewrite Eloc, Es, Elst, Elnk, Edir. by rewrite (proj2 (Z.ltb_ge _ _)).
Qed.

(** *** The loop *)

Lemma lookup_component st c cs path i :
  path = dir st ++ join (c :: cs) -> i < length c -> path !! (length (dir st) + i) = c !! i.
Proof.
  intros -> Hi. rewrite lookup_app_r by lia. replace (length (dir st) + i - length (dir st)) with i by lia.
  rewrite join_after. by rewrite lookup_app_l.
Qed.

Lemma component_ok follow l st c cs path p :
  at_ l st (c :: cs) path p -> step_ok follow l st (c :: cs) (component follow path p).
Proof.
  intros Ha. pose proof Ha as [Hp _ _ Hns _ _ _ _ Hi _ _ _ _ _]. pose proof Hns as [Hc Hcs]%Forall_cons. unfold component.
  assert (Hslash : match find_first_of slash_char (index p) path with Some s => s | None => length path end = index p + length c).
  { rewrite Hp, Hi, next_slash by done. destruct (decide (cs = [])) as [->|]; [|done]. by rewrite length_app. }
  rewrite Hslash.
  assert (Hskip : if decide (cs = []) then path = dir st ++ c else path = dir st ++ (c ++ [slash_char]) ++ join cs).
  { rewrite Hp. case_decide; [by subst|]. rewrite join_cons by done. by rewrite <- !app_assoc. }
  assert (Hat : forall i, i < length c -> path !! (index p + i) = c !! i) by (intros i Hlt; rewrite Hi; by eapply lookup_component).
  destruct (decide (index p + length c = index p)) as [H0|H0].
  { assert (c = []) as -> by (destruct c; [done|simpl in H0; lia]). apply (skip_ok follow l st [] cs path p Ha); [by left|done]. }
  destruct (decide (index p + length c - index p = 1 /\ path !! index p = Some dot_char)) as [[H1 Hd]|H1].
  { destruct c as [|x [|y c]]; simpl in H1; try lia. specialize (Hat 0). rewrite Nat.add_0_r, Hd in Hat. simpl in Hat.
    specialize (Hat ltac:(lia)). injection Hat as <-. apply (skip_ok follow l st dot_name cs path p Ha); [by right|done]. }
  destruct (decide (index p + length c - index p = 2 /\ path !! index p = Some dot_char /\ path !! (index p + 1) = Some dot_char)) as [(H2 & Hd1 & Hd2)|H2].
  { destruct c as [|x [|y [|z c]]]; simpl in H2; try lia. pose proof (Hat 0) as H3. pose proof (Hat 1) as H4. rewrite Nat.add_0_r in H3.
    rewrite Hd1 in H3. rewrite Hd2 in H4. simpl in H3, H4. specialize (H3 ltac:(lia)). specialize (H4 ltac:(lia)).
    injection H3 as <-. injection H4 as <-. by apply up_ok. }
  apply (normal_ok follow l st c cs path p Ha). split_and!.
  - intros ->. by apply H0; simpl; lia.
  - intros ->. apply H1. split; [simpl; lia|]. rewrite <- (Nat.add_0_r (index p)). by apply Hat; simpl; lia.
  - intros ->. apply H2. split_and!; [simpl; lia| |by apply Hat; simpl; lia]. rewrite <- (Nat.add_0_r (index p)). by apply Hat; simpl; lia.
Qed.

Lemma loop_ok follow n l st cs path p :
  at_ l st cs path p -> weight l cs < n ->
  exists o r, resolve_loop n follow path p = Done r /\ resolves follow l st cs o /\ result_is o r.
Proof.
  revert l st cs path p. induction n as [|n IH]; intros l st cs path p Ha Hw; [lia|].
  pose proof (at_cs _ _ _ _ _ Ha) as Hcs. destruct cs as [|c cs]; [done|].
  destruct (component_ok follow l st c cs path p Ha) as (res & path' & p' & Hrun & Hcases). simpl. rewrite Hrun. cbn [mbind outcome_bind].
  destruct Hcases as [[Hneg Hres]|[(Hpos & o & Hres & Hend & r & Hfin & Ho)|(Hpos & l' & st' & cs' & Ha' & Hlt & Hres)]].
  - rewrite (proj2 (Z.ltb_lt _ _)) by done. eexists _, _. split; [done|]. split; [exact Hres|done].
  - rewrite (proj2 (Z.ltb_ge _ _)), (proj2 (Nat.leb_le _ _)) by done. by exists o, r.
  - rewrite (proj2 (Z.ltb_ge _ _)) by done. destruct (Nat.leb_spec (length path') (index p')) as [Hle|Hgt].
    + assert (Hone : cs' = [[]]).
      { pose proof Ha' as [Hp' Hne _ _ _ _ _ _ Hi' _ _ _ _ _]. rewrite Hp', Hi', length_app in Hle.
        destruct (join cs') as [|x s] eqn:E; [|simpl in Hle; lia]. destruct cs' as [|d [|d' cs']]; [done| |].
        - simpl in E. by subst.
        - rewrite join_cons in E by done. by destruct d. }
      subst cs'. destruct (at_ends _ _ _ _ Ha') as (_ & r & Hfin & Ho). exists (Found st'), r. split; [done|]. split; [|done].
      apply Hres. apply resolves_skip; [by left|apply resolves_end].
    + destruct (IH l' st' cs' path' p' Ha' ltac:(lia)) as (o & r & Hloop & Hr & Ho). exists o, r. split; [done|]. split; [by apply Hres|done].
Qed.

(** The directory reached has a path. *)
Lemma splice_proper st target cs st' cs' :
  Forall proper st -> Forall no_slash cs -> splice st target cs = (st', cs') -> Forall proper st' /\ Forall no_slash cs'.
Proof.
  intros Hst Hcs. unfold splice. destruct (decide _); intros [= <- <-]; (split; [done || constructor|]);
    apply Forall_app; split; (apply split_no_slash || done).
Qed.

Lemma resolves_proper follow l st cs o :
  resolves follow l st cs o -> Forall proper st -> Forall no_slash cs ->
  match o with Found st' | Escaped st' => Forall proper st' | Failed _ => True end.
Proof.
  assert (Hsnoc : forall st c, Forall proper st -> no_slash c -> normal c -> Forall proper (st ++ [c])).
  { intros st' c Hst Hc Hn. apply Forall_app. split; [done|]. constructor; [split; [done|apply Hn]|done]. }
  intros Hr Hst Hcs. induction Hr as [| | |l st x cs o Hm Ho IH|l st x Hm|l st c cs o Hn Hm Ho IH|l l' st c cs o Hn Hm Hv Ho IH
    |l l' st c cs target st' cs' o Hn Hm Hv Hsp Ho IH|]; try done; try (apply Forall_cons in Hcs as [Hc Hcs]).
  - by apply IHHr.
  - apply Forall_app in Hst as [Hst _]. by apply IH.
  - by apply Forall_app in Hst as [Hst _].
  - apply IH; [by apply Hsnoc|done].
  - apply IH; [by apply Hsnoc|done].
  - destruct (splice_proper st target cs st' cs') as [? ?]; [done..|]. by apply IH.
Qed.

Lemma visit_fails follow l st c cs l' e : visit follow l st c cs = (l', Fail e) -> (0 < e)%Z.
Proof.
  unfold visit. intros Hv. repeat (case_match; simplify_eq; try done).
Qed.

Lemma resolves_error follow l st cs o : resolves follow l st cs o -> match o with Failed e => (e < 0)%Z | _ => True end.
Proof. induction 1; try done. pose proof (visit_fails _ _ _ _ _ _ _ H2). lia. Qed.

Lemma resolvePath_canonical follow path :
  fss !! [slash_char] = Some rootfs ->
  exists r, manager_resolvePath fss path follow = Done r /\
    match r.1 with ResolveError e => (e < 0)%Z | Resolved f off => exists st, Forall proper st /\ r.2 = canon st end.
Proof.
  intros Hroot. unfold manager_resolvePath. destruct (Nat.ltb_spec PATH_MAX (length path)) as [|Hlen]; [by eexists|].
  destruct path as [|x path]; [by eexists|]. destruct (decide (x = slash_char)) as [->|]; [|by eexists].
  unfold resolvePath. rewrite Hroot.
  destruct (loop_ok follow (resolve_fuel (slash_char :: path)) 0 [] (split path) (slash_char :: path)
    (mkPathResolution fss rootfs rootfs (supportsSymlinks rootfs) 1 1 1 0)) as (o & r & Hrun & Hres & Ho).
  - split; simpl; try done; [by rewrite join_split|apply split_nonempty|apply split_no_slash].
  - unfold weight, resolve_fuel. simpl. rewrite join_split. lia.
  - exists r. split; [done|]. pose proof (resolves_proper _ _ _ _ _ Hres (Forall_nil_2 _) (split_no_slash _)) as Hp.
    pose proof (resolves_error _ _ _ _ _ Hres) as He.
    destruct o as [st|st|e]; simpl in Ho; [subst; by exists st|subst; by exists st|by rewrite Ho].
Qed.


(** ** Paths without symbolic links *)
Lemma split_join cs : Forall no_slash cs -> cs <> [] -> split (join cs) = cs.
Proof.
  assert (Hone : forall c, no_slash c -> split c = [c]).
  { unfold no_slash. induction c as [|x c IH]; intros Hc; [done|]. apply not_elem_of_cons in Hc as [Hx Hc]. cbn [split]. rewrite decide_False by done. by rewrite IH. }
  assert (Happ : forall c s, no_slash c -> split (c ++ slash_char :: s) = c :: split s).
  { unfold no_slash. intros c s. induction c as [|x c IH]; intros Hc; cbn [app split]; [by rewrite decide_True|].
    apply not_elem_of_cons in Hc as [Hx Hc]. rewrite decide_False by done. by rewrite IH. }
  induction cs as [|c cs IH]; intros Hcs Hne; [done|]. inversion Hcs as [|?? Hc Hcs']; subst. destruct cs as [|d cs]; [by apply Hone|].
  rewrite join_cons, Happ by done. by rewrite IH.
Qed.

(** A path has one meaning. *)
Lemma resolves_det follow l st cs o : resolves follow l st cs o -> forall o', resolves follow l st cs o' -> o = o'.
Proof.
  assert (Hnd : ~ normal dot_name) by (intros (_ & ? & _); done). assert (Hndd : ~ normal dotdot_name) by (intros (_ & _ & ?); done).
  assert (Hne : forall st (x : str), [] <> st ++ [x]) by (intros [|? ?] ?; done).
  assert (Hn0 : ~ normal []) by (intros (? & _); done).
  induction 1; intros o' Ho'; inversion Ho'; subst; try done.
  all: repeat match goal with
    | H : _ ++ [_] = _ ++ [_] |- _ => apply app_inj_tail in H as [? ?]; subst
    | H : _ \/ _ |- _ => destruct H; subst
    | H : [] = _ ++ [_] |- _ => by destruct (Hne _ _ H)
    | H : _ ++ [_] = [] |- _ => symmetry in H; by destruct (Hne _ _ H)
    | H1 : visit _ _ _ _ _ = _, H2 : visit _ _ _ _ _ = _ |- _ => rewrite H1 in H2; simplify_eq
    | H1 : splice _ _ _ = _, H2 : splice _ _ _ = _ |- _ => rewrite H1 in H2; simplify_eq
    end; try done; try (by auto); try (exfalso; tauto).
Qed.

(** The result for a path of which the meaning is known. *)
Lemma resolve_means follow cs o :
  fss !! [slash_char] = Some rootfs -> Forall no_slash cs -> cs <> [] -> S (length (join cs)) <= PATH_MAX -> resolves follow 0 [] cs o ->
  exists r, manager_resolvePath fss (slash_char :: join cs) follow = Done r /\ result_is o r.
Proof.
  intros Hroot Hcs Hne Hlen Hr. unfold manager_resolvePath. cbn [length]. rewrite (proj2 (Nat.ltb_ge _ _)), decide_True by done.
  unfold resolvePath. rewrite Hroot.
  destruct (loop_ok follow (resolve_fuel (slash_char :: join cs)) 0 [] cs (slash_char :: join cs)
    (mkPathResolution fss rootfs rootfs (supportsSymlinks rootfs) 1 1 1 0)) as (o' & r & Hrun & Hr' & Ho).
  - split; simpl; done.
  - unfold weight, resolve_fuel. simpl. lia.
  - exists r. split; [done|]. by rewrite (resolves_det _ _ _ _ _ Hr _ Hr').
Qed.

Lemma resolves_names follow l : (forall st, supportsSymlinks (locate st).2 = false) -> forall cs st o,
  Forall normal cs -> resolves follow l (st ++ cs) [] o -> resolves follow l st cs o.
Proof.
  intros Hsym. induction cs as [|c cs IH]; intros st o Hcs Ho; [by rewrite app_nil_r in Ho|]. inversion Hcs as [|?? Hc Hcs']; subst.
  assert (Hnext : resolves follow l (st ++ [c]) cs o) by (apply IH; [done|by rewrite <- app_assoc]).
  destruct (fss !! canon (st ++ [c])) as [f|] eqn:Hm.
  - apply resolves_mount; [done|by exists f|done].
  - eapply (resolves_enter follow l l); [done|unfold mounted; rewrite Hm; by intros [? ?]| |done].
    unfold visit. pose proof (Hsym st) as Hs. destruct (locate st) as [k f]. cbn [snd] in Hs. by rewrite Hs.
Qed.

End resolution.

(** Resolving ends in any case, with an error or a directory. *)
Lemma manager_resolvePath_result {F} `{FilesystemBase F} (PATH_MAX : nat) (fss : gmap str F) (path : str) (follow : bool) :
  (Z.of_nat PATH_MAX < 2 ^ 30)%Z ->
  exists r, manager_resolvePath PATH_MAX fss path follow = Done r /\
    match r.1 with ResolveError e => (e < 0)%Z | Resolved f off => exists st, Forall proper st /\ r.2 = canon st end.
Proof.
  intros Hsmall. destruct (fss !! [slash_char]) as [root|] eqn:Hroot; [by apply (resolvePath_canonical PATH_MAX fss root)|].
  unfold manager_resolvePath, resolvePath. rewrite Hroot. repeat case_match; by eexists.
Qed.

(** ** An example *)

Definition codes (s : string) : str := map (fun a => Z.of_N (Ascii.N_of_ascii a)) (String.list_ascii_of_string s).

(** Filesystem 0, with a directory [a] and a link [l] to [dev]; 1 and 2 have
    no symbolic links. *)
#[local] Instance ex_fs : FilesystemBase nat := {
  supportsSymlinks f := f =? 0;
  lstat _ name :=
    if decide (name = codes "a") then (0, 0x4000)%Z else if decide (name = codes "l") then (0, 0xa000)%Z else (-2, 0)%Z;
  readlink _ _ := (0%Z, codes "dev");
}.

Definition ex_mounts : gmap str nat := {[ codes "/" := 0; codes "/dev" := 1; codes "/dev/pts" := 2 ]}.

Example ex_resolve : manager_resolvePath 1024 ex_mounts (codes "/a/.././/l/x/") true = Done (Resolved 1 5, codes "/dev/x").
Proof. vm_compute. reflexivity. Qed.

(** From the mount point [/dev/pts], [..] leads to [/dev], but without a
    trailing slash to the filesystem below it. *)
Example ex_escape :
  manager_resolvePath 1024 ex_mounts (codes "/dev/pts/../") true = Done (Resolved 1 4, codes "/dev") /\
  manager_resolvePath 1024 ex_mounts (codes "/dev/pts/..") true = Done (Resolved 0 1, codes "/dev").
Proof. split; vm_compute; reflexivity. Qed.

(** A component that does not exist is not an error. *)
Example ex_missing : manager_resolvePath 1024 ex_mounts (codes "/missing/../a") true = Done (Resolved 0 1, codes "/a").
Proof. vm_compute. reflexivity. Qed.

End PathResolution.
