(* ===== verification/StringParts.v ===== *)
(** * Substrings in place

    Class [StringPart] of [filesystem/stringpart.h] and [stringpart.cpp]: a
    substring of a string that is made by overwriting a character with a terminator,
    and undone when the object is destroyed.  Strings are in memory, so that
    objects share them; the theorem is that objects made of one another, and destroyed
    in the opposite order, are the values that the other files use. *)
From S2P Require Import Prelude Errors PathResolution Directories.
Import PathResolution (string_part).

Local Open Scope Z_scope.

Module StringParts.

Abbreviation chars := (list Z).

Inductive kind := CPPSTR | CSTR | CCSTR.
#[export] Instance kind_dec : EqDecision kind.
Proof. solve_decision. Defined.

(** What [str], [cstr] or [ccstr] points to: a string or an array, or the [saved] of an object. *)
Inductive target := At (a : positive) | Saved (q : positive).

Record part := mkPart { type : kind; ptr : target; index : Z; offset : Z; saved : Z; owner : bool }.

(** An array has all its characters, with the terminator; a C++ string those before it. *)
Record state := mkState { strings : gmap positive chars; parts : gmap positive part }.
Definition set_strings (m : gmap positive chars) (s : state) : state := mkState m (parts s).
Definition set_part (q : positive) (p : part) (s : state) : state := mkState (strings s) (<[q:=p]> (parts s)).

Definition npos : Z := 2 ^ 32 - 1.

(** ** Characters in memory *)
Definition at_index (l : chars) (i : Z) : exec Z := if 0 <=? i then deref (l !! Z.to_nat i) else Fault Undefined.
Definition set_index (l : chars) (i c : Z) : exec chars :=
  if (0 <=? i) && (i <? Z.of_nat (length l)) then Done (<[Z.to_nat i:=c]> l) else Fault Undefined.

Definition load (t : target) (i : Z) (s : state) : exec Z :=
  match t with
  | At a => l ← deref (strings s !! a); at_index l i
  | Saved q => p ← deref (parts s !! q); at_index [saved p] i
  end.
Definition store (t : target) (i c : Z) (s : state) : exec state :=
  match t with
  | At a => l ← deref (strings s !! a); l ← set_index l i c; Done (set_strings (<[a:=l]> (strings s)) s)
  | Saved q =>
      p ← deref (parts s !! q); l ← set_index [saved p] i c; c ← at_index l 0;
      Done (set_part q (mkPart (type p) (ptr p) (index p) (offset p) c (owner p)) s)
  end.

(** The characters up to the terminator, which is in the array. *)
Fixpoint upto_nul (l : chars) : exec chars :=
  match l with [] => Fault Undefined | c :: l => if c =? 0 then Done [] else r ← upto_nul l; Done (c :: r) end.

(** The array that a pointer points into; [c_str()] of a C++ string has a terminator. *)
Definition array (k : kind) (t : target) (s : state) : exec chars :=
  match t with
  | At a => l ← deref (strings s !! a); Done (match k with CPPSTR => l ++ [0] | _ => l end)
  | Saved q => p ← deref (parts s !! q); Done [saved p]
  end.

(** ** Queries *)
Definition part_length (p : part) : Z := index p - offset p.
Definition empty (p : part) : bool := part_length p =? 0.

(** The array from [c_str()] on, and the string in it. *)
Definition from_c_str (p : part) (s : state) : exec chars :=
  l ← array (type p) (ptr p) s;
  let off := match type p with CCSTR => 0 | _ => offset p end in
  if (0 <=? off) && (off <=? Z.of_nat (length l)) then Done (drop (Z.to_nat off) l) else Fault Undefined.
Definition c_str (p : part) (s : state) : exec chars := l ← from_c_str p s; upto_nul l.

Definition get (p : part) (i : Z) (s : state) : exec Z := l ← from_c_str p s; at_index l i.

(** [memcmp] of the first characters. *)
Definition startsWith (p r : part) (s : state) : exec bool :=
  if part_length p <? part_length r then Done false
  else
    a ← from_c_str p s; b ← from_c_str r s;
    let n := Z.to_nat (part_length r) in
    if (Z.of_nat (length a) <? part_length r) || (Z.of_nat (length b) <? part_length r) then Fault Undefined
    else Done (bool_decide (take n a = take n b)).

(** [memrchr], of a string whose length is known. *)
Fixpoint last_index (c : Z) (l : chars) : option nat :=
  match l with [] => None | x :: l => match last_index c l with Some i => Some (S i) | None => if x =? c then Some O else None end end.
Definition findLastOf (p : part) (c : Z) (s : state) : exec Z :=
  l ← from_c_str p s;
  if Z.of_nat (length l) <? part_length p then Fault Undefined
  else Done (match last_index c (take (Z.to_nat (part_length p)) l) with Some i => Z.of_nat i | None => npos end).

(** ** Constructors

    The new object is at [q].  A cut keeps the character that the terminator replaces. *)
Definition cut (t : target) (i : Z) (s : state) : exec (Z * state) := c ← load t i s; s ← store t i 0 s; Done (c, s).

Definition of_string (q a : positive) (idx off : Z) (s : state) : exec state :=
  l ← deref (strings s !! a);
  '(index, saved, s) ← (if (idx =? npos) || (Z.of_nat (length l) <=? idx) then Done (Z.of_nat (length l), 0, s)
                        else '(c, s) ← cut (At a) idx s; Done (idx, c, s));
  Done (set_part q (mkPart CPPSTR (At a) index (Z.min off index) saved false) s).

Definition of_cstring (q a : positive) (idx off : Z) (s : state) : exec state :=
  l ← deref (strings s !! a); r ← upto_nul l;
  '(index, saved, s) ← (if (idx =? npos) || (Z.of_nat (length r) <=? idx) then Done (Z.of_nat (length r), 0, s)
                        else '(c, s) ← cut (At a) idx s; Done (idx, c, s));
  Done (set_part q (mkPart CSTR (At a) index (Z.min off index) saved false) s).

Definition of_const (q a : positive) (s : state) : exec state :=
  l ← deref (strings s !! a); r ← upto_nul l; Done (set_part q (mkPart CCSTR (At a) (Z.of_nat (length r)) 0 0 false) s).

Section parts.
(** What is in the rest of a new array. *)
Context (junk : Z).

(** [assign] to an object that was just made or cleared: [new char[]] and [strcpy]. *)
Definition assign (q : positive) (rhs : part) (s : state) : exec state :=
  r ← c_str rhs s;
  let a := fresh (dom (strings s)) in
  if part_length rhs <? Z.of_nat (length r) then Fault Undefined
  else
    Done (set_part q (mkPart CSTR (At a) (part_length rhs) 0 0 true)
           (set_strings (<[a:=r ++ 0 :: replicate (Z.to_nat (part_length rhs) - length r) junk]> (strings s)) s)).

Definition empty_part (q : positive) : part := mkPart CSTR (Saved q) 0 0 0 false.

(** The substring constructor: the pointer of [rhs], or a copy of a constant string. *)
Definition share (q : positive) (rhs : part) (s : state) : exec (part * state) :=
  match type rhs with
  | CSTR => Done (mkPart CSTR (ptr rhs) 0 0 0 false, s)
  | CPPSTR => Done (mkPart CPPSTR (ptr rhs) 0 0 0 false, s)
  | CCSTR => if empty rhs then Done (empty_part q, s) else s ← assign q rhs s; p ← deref (parts s !! q); Done (p, s)
  end.

Definition substring (q r : positive) (idx off : Z) (s : state) : exec state :=
  rhs ← deref (parts s !! r);
  '(p, s) ← share q rhs s;
  '(index, saved, s) ← (if negb (idx =? npos) && (idx <? part_length rhs) then
                          let i := offset rhs + idx in '(c, s) ← cut (ptr p) i s; Done (i, c, s)
                        else Done (index rhs, 0, s));
  Done (set_part q (mkPart (type p) (ptr p) index (Z.min (u32 (offset rhs + off)) index) saved (owner p)) s).

(** The copy constructor. *)
Definition copy (q r : positive) (s : state) : exec state :=
  rhs ← deref (parts s !! r);
  let s := set_part q (empty_part q) s in if empty rhs then Done s else assign q rhs s.

(** ** Clearing *)
Definition clear (q : positive) (s : state) : exec state :=
  p ← deref (parts s !! q);
  s ← (match type p with
       | CSTR =>
           s ← store (ptr p) (index p) (saved p) s;
           match ptr p with
           | At a => Done (if owner p then set_strings (delete a (strings s)) s else s)
           | Saved _ => if owner p then Fault Undefined else Done s
           end
       | CPPSTR =>
           a ← (match ptr p with At a => Done a | Saved _ => Fault Undefined end);
           l ← deref (strings s !! a);
           s ← (if index p =? Z.of_nat (length l) then Done s else store (ptr p) (index p) (saved p) s);
           Done (if owner p then set_strings (delete a (strings s)) s else s)
       | CCSTR => Done s
       end);
  Done (set_part q (empty_part q) s).

Definition destroy (q : positive) (s : state) : exec state := s ← clear q s; Done (mkState (strings s) (delete q (parts s))).

(** [operator=]. *)
Definition assignment (q r : positive) (s : state) : exec state :=
  if bool_decide (q = r) then Done s
  else s ← clear q s; rhs ← deref (parts s !! r); if empty rhs then Done s else assign q rhs s.

End parts.

Definition less (p r : part) (s : state) : exec bool := a ← c_str p s; b ← c_str r s; Done (negb (Directories.strcmp_le b a)).

(** ** Runs

    Substrings and copies of the last object that was made, and the destruction of this. *)
Inductive op := Push (idx off : Z) | Copy | Pop.

Definition step (junk : Z) (x : op) (s : state) (stack : list positive) : exec (state * list positive) :=
  match x, stack with
  | Push idx off, r :: _ => let q := fresh (dom (parts s)) in s ← substring junk q r idx off s; Done (s, q :: stack)
  | Copy, r :: _ => let q := fresh (dom (parts s)) in s ← copy junk q r s; Done (s, q :: stack)
  | Pop, q :: stack => s ← destroy q s; Done (s, stack)
  | _, [] => Done (s, stack)
  end.

Fixpoint run (junk : Z) (xs : list op) (s : state) (stack : list positive) : exec (state * list positive) :=
  match xs with [] => Done (s, stack) | x :: xs => '(s, stack) ← step junk x s stack; run junk xs s stack end.

(** As values. *)
Definition spec_step (x : op) (vs : list chars) : list chars :=
  match x, vs with
  | Push idx off, v :: _ => string_part v (Z.to_nat idx) (Z.to_nat off) :: vs
  | Copy, v :: _ => v :: vs
  | Pop, _ :: vs => vs
  | _, [] => []
  end.
Definition spec_run (xs : list op) (vs : list chars) : list chars := fold_left (fun vs x => spec_step x vs) xs vs.

Definition op_ok (x : op) : Prop := match x with Push idx off => 0 <= idx <= npos /\ 0 <= off < 2 ^ 31 | Copy | Pop => True end.

(** ** What an object stands for *)
Definition text (v : chars) : Prop := Forall (fun c => c <> 0) v.

(** What follows it in memory: a terminator, or the end of a C++ string. *)
Definition terminated (k : kind) (post : chars) : Prop := head post = Some 0 \/ k = CPPSTR /\ post = [].

Definition placed (p : part) (v : chars) (s : state) : Prop :=
  match ptr p with
  | At a => exists pre post, strings s !! a = Some (pre ++ v ++ post) /\ offset p = Z.of_nat (length pre) /\ terminated (type p) post /\ (type p = CCSTR -> pre = [])
  | Saved r => type p = CSTR /\ v = [] /\ offset p = 0 /\ exists p', parts s !! r = Some p' /\ saved p' = 0
  end.

Definition stands_for (p : part) (v : chars) (s : state) : Prop :=
  text v /\ index p < 2 ^ 31 /\ index p = offset p + Z.of_nat (length v) /\ placed p v s.

Lemma upto_nul_text v l : text v -> upto_nul (v ++ 0 :: l) = Done v.
Proof. induction 1 as [|c v Hc _ IH]; [done|]. cbn. destruct (Z.eqb_spec c 0); [done|]. by rewrite IH. Qed.

Lemma terminated_array k v post : text v -> terminated k post -> exists l, v ++ (match k with CPPSTR => post ++ [0] | _ => post end) = v ++ 0 :: l.
Proof.
  intros _ [H| [-> ->]]; [|by exists []]. destruct post as [|c post]; [done|]. injection H as ->.
  destruct k; [by exists (post ++ [0])|by exists post..].
Qed.

Lemma stands_for_bounds p v s : stands_for p v s -> 0 <= offset p /\ Z.of_nat (length v) < 2 ^ 31.
Proof.
  intros (_ & Hn & Hi & Hp). assert (Ho : 0 <= offset p); [|lia].
  unfold placed in Hp. destruct (ptr p); [destruct Hp as (? & ? & _ & Ho & _); lia|destruct Hp as (_ & _ & Ho & _); lia].
Qed.

(** The queries are those of the value. *)
Lemma from_c_str_gives p v s : stands_for p v s -> exists l, from_c_str p s = Done (v ++ 0 :: l).
Proof.
  intros (Ht & _ & Hi & Hp). unfold from_c_str, array, placed in *. destruct (ptr p) as [a|r].
  - destruct Hp as (pre & post & -> & Ho & Hterm & Hc). cbn [deref mbind outcome_bind].
    destruct (terminated_array (type p) v post Ht Hterm) as [l Hl]. exists l.
    assert (Hlen : length pre = Z.to_nat (match type p with CCSTR => 0 | _ => offset p end)).
    { destruct (type p) eqn:E; [lia|lia|by rewrite (Hc eq_refl)]. }
    assert (Hoff : (match type p with CCSTR => 0 | _ => offset p end) = Z.of_nat (length pre)) by (destruct (type p) eqn:E; [done|done|by rewrite (Hc eq_refl)]).
    rewrite Hoff.
    assert (Harr : (match type p with CPPSTR => (pre ++ v ++ post) ++ [0] | _ => pre ++ v ++ post end) = pre ++ v ++ 0 :: l) by (rewrite <- Hl; destruct (type p); by rewrite <- ?app_assoc).
    rewrite Harr, (proj2 (Z.leb_le _ _)), (proj2 (Z.leb_le _ _)) by (rewrite ?length_app; lia). cbn [andb]. by rewrite Nat2Z.id, drop_app_length.
  - destruct Hp as (Hk & -> & Ho & p' & -> & Hs). cbn [deref mbind outcome_bind]. rewrite Hk, Ho, Hs. by exists [].
Qed.

Lemma c_str_gives p v s : stands_for p v s -> c_str p s = Done v.
Proof. intros H. unfold c_str. destruct (from_c_str_gives p v s H) as [l ->]. cbn [mbind outcome_bind]. by apply upto_nul_text, H. Qed.

Lemma part_length_gives p v s : stands_for p v s -> part_length p = Z.of_nat (length v).
Proof. intros (_ & _ & Hi & _). unfold part_length. lia. Qed.

Lemma get_gives p v s i c : stands_for p v s -> v !! i = Some c -> get p (Z.of_nat i) s = Done c.
Proof.
  intros H Hi. unfold get. destruct (from_c_str_gives p v s H) as [l ->]. cbn [mbind outcome_bind]. unfold at_index.
  rewrite (proj2 (Z.leb_le _ _)) by lia. rewrite Nat2Z.id, lookup_app_l by (by eapply lookup_lt_Some). by rewrite Hi.
Qed.

Lemma startsWith_gives p v r w s : stands_for p v s -> stands_for r w s -> startsWith p r s = Done (bool_decide (w `prefix_of` v)).
Proof.
  intros H Hr. unfold startsWith. rewrite (part_length_gives p v s), (part_length_gives r w s) by done. case_cmp.
  - rewrite bool_decide_eq_false_2; [done|]. intros Hpre. apply prefix_length in Hpre. lia.
  - destruct (from_c_str_gives p v s H) as [l ->], (from_c_str_gives r w s Hr) as [l' ->]. cbn [mbind outcome_bind]. rewrite Nat2Z.id.
    rewrite (proj2 (Z.ltb_ge _ _)), (proj2 (Z.ltb_ge _ _)) by (rewrite length_app; cbn; lia). cbn [orb]. f_equal. apply bool_decide_ext.
    rewrite take_app_le, take_app_length by lia. split.
    + intros E. exists (drop (length w) v). rewrite <- (take_drop (length w) v) at 1. by rewrite E.
    + intros [k ->]. by rewrite take_app_length.
Qed.

Lemma findLastOf_gives p v s c : stands_for p v s -> findLastOf p c s = Done (match last_index c v with Some i => Z.of_nat i | None => npos end).
Proof.
  intros H. unfold findLastOf. destruct (from_c_str_gives p v s H) as [l ->]. cbn [mbind outcome_bind]. rewrite (part_length_gives p v s) by done.
  rewrite (proj2 (Z.ltb_ge _ _)) by (rewrite length_app; cbn; lia). by rewrite Nat2Z.id, take_app_length.
Qed.

(** ** Making a substring, and undoing it *)
Lemma set_strings_id s a l : strings s !! a = Some l -> set_strings (<[a:=l]> (strings s)) s = s.
Proof. intros H. unfold set_strings. rewrite insert_id by done. by destruct s. Qed.

Lemma at_index_nat l i c : l !! i = Some c -> at_index l (Z.of_nat i) = Done c.
Proof. intros H. unfold at_index. rewrite (proj2 (Z.leb_le _ _)) by lia. by rewrite Nat2Z.id, H. Qed.

Lemma set_index_nat l i c : (i < length l)%nat -> set_index l (Z.of_nat i) c = Done (<[i:=c]> l).
Proof. intros H. unfold set_index. rewrite (proj2 (Z.leb_le _ _)), (proj2 (Z.ltb_lt _ _)) by lia. by rewrite Nat2Z.id. Qed.

Lemma store_at a l i c s : strings s !! a = Some l -> (i < length l)%nat -> store (At a) (Z.of_nat i) c s = Done (set_strings (<[a:=<[i:=c]> l]> (strings s)) s).
Proof. intros Ha Hi. unfold store. rewrite Ha. cbn [deref mbind outcome_bind]. by rewrite set_index_nat. Qed.

Lemma cut_at a l i c s : strings s !! a = Some l -> l !! i = Some c -> cut (At a) (Z.of_nat i) s = Done (c, set_strings (<[a:=<[i:=0]> l]> (strings s)) s).
Proof.
  intros Ha Hi. unfold cut, load. rewrite Ha. cbn [deref mbind outcome_bind]. rewrite (at_index_nat l i c) by done. cbn [mbind outcome_bind].
  by rewrite (store_at a l) by (done || by eapply lookup_lt_Some).
Qed.

(** The array after an object at [i] with [saved] was made in it: it was cut there, or it ends there. *)
Inductive overwritten (k : kind) (l : chars) (i : nat) : Z -> chars -> Prop :=
| Cut c : l !! i = Some c -> overwritten k l i c (<[i:=0]> l)
| Whole : l !! i = Some 0 \/ k = CPPSTR /\ i = length l -> overwritten k l i 0 l.

Lemma overwritten_length k l i c l' : overwritten k l i c l' -> length l' = length l.
Proof. destruct 1; [apply length_insert|done]. Qed.

Lemma restored k l i c l' : overwritten k l i c l' -> (i < length l)%nat -> <[i:=c]> l' = l.
Proof.
  destruct 1 as [c Hc|[Hz|[_ ->]]]; intros Hi; [|by apply list_insert_id|lia]. rewrite list_insert_insert_eq. by apply list_insert_id.
Qed.

Lemma overwritten_in k l i c l' : overwritten k l i c l' -> k <> CPPSTR -> (i < length l)%nat.
Proof. destruct 1 as [c Hc|[Hz|[-> _]]]; intros Hk; try done; by eapply lookup_lt_Some. Qed.

(** Destroying it gives the state before, where the array of an owner was not there. *)
Lemma destroy_gives k a l i c l' off (own : bool) q s :
  k <> CCSTR -> parts s !! q = None -> overwritten k l i c l' ->
  (if own then k = CSTR /\ strings s !! a = None else strings s !! a = Some l) ->
  destroy q (set_part q (mkPart k (At a) (Z.of_nat i) off c own) (set_strings (<[a:=l']> (strings s)) s)) = Done s.
Proof.
  intros Hk Hq Hover Ha. unfold destroy, clear. cbn [parts set_part set_strings]. rewrite lookup_insert_eq. cbn [deref mbind outcome_bind type ptr index saved owner].
  set (s1 := set_part q (mkPart k (At a) (Z.of_nat i) off c own) (set_strings (<[a:=l']> (strings s)) s)).
  assert (Hs1 : strings s1 !! a = Some l') by (cbn; by rewrite lookup_insert_eq).
  pose proof (overwritten_length _ _ _ _ _ Hover) as Hlen.
  assert (Hend : forall m, m = strings s -> mkState m (delete q (<[q:=empty_part q]> (<[q:=mkPart k (At a) (Z.of_nat i) off c own]> (parts s)))) = s).
  { intros m ->. rewrite insert_insert_eq, delete_insert_id by done. by destruct s. }
  assert (Hback : (i < length l)%nat -> <[a:=<[i:=c]> l']> (strings s1) = <[a:=l]> (strings s)).
  { intros Hi. rewrite (restored k l i c l' Hover Hi). cbn. by rewrite insert_insert_eq. }
  assert (Hdel : (if own then delete a (<[a:=l]> (strings s)) else <[a:=l]> (strings s)) = strings s).
  { destruct own; [destruct Ha as [_ Ha]; by rewrite delete_insert_id|by apply insert_id]. }
  destruct k; [| |done].
  - destruct own; [by destruct Ha|]. cbn [mbind outcome_bind]. rewrite Hs1. cbn [deref mbind outcome_bind]. rewrite Hlen. destruct (Z.eqb_spec (Z.of_nat i) (Z.of_nat (length l))) as [Hi|Hi].
    + cbn [mbind outcome_bind strings set_part set_strings parts s1]. f_equal. apply Hend. destruct Hover as [c Hc|Hz]; [apply lookup_lt_Some in Hc; lia|]. by apply insert_id.
    + assert (Hil : (i < length l)%nat) by (destruct Hover as [c Hc|[Hz|[_ Hz]]]; [by eapply lookup_lt_Some|by eapply lookup_lt_Some|lia]).
      rewrite (store_at a l') by (done || lia). cbn [mbind outcome_bind]. f_equal. cbn [strings set_part set_strings parts]. rewrite Hback by done. by apply Hend.
  - assert (Hil : (i < length l)%nat) by (by eapply overwritten_in). rewrite (store_at a l') by (done || lia). cbn [mbind outcome_bind]. f_equal.
    destruct own; cbn [strings set_part set_strings parts]; rewrite Hback by done; by apply Hend.
Qed.

(** The part of the array [pre ++ w ++ post] that ends with [w], with an offset. *)
Lemma stands_for_at k a pre w post off c own s :
  text w -> Z.of_nat (length pre + length w) < 2 ^ 31 -> 0 <= off -> k <> CCSTR -> terminated k post -> strings s !! a = Some (pre ++ w ++ post) ->
  stands_for (mkPart k (At a) (Z.of_nat (length pre + length w)) (Z.min (Z.of_nat (length pre) + off) (Z.of_nat (length pre + length w))) c own)
    (drop (Z.to_nat off `min` length w) w) s.
Proof.
  intros Hw Hn Hoff Hk Hterm Ha. set (m := (Z.to_nat off `min` length w)%nat).
  assert (Hm : (m <= length w)%nat) by lia. split; [by apply Forall_drop|]. rewrite length_drop. split; [done|]. cbn [index offset]. split; [lia|].
  unfold placed. cbn [ptr offset type]. exists (pre ++ take m w), post. split_and!; [|rewrite length_app, length_take; lia|done|done].
  rewrite Ha. f_equal. rewrite <- app_assoc. f_equal. by rewrite app_assoc, take_drop.
Qed.

Lemma string_part_cut v idx off : (idx <= length v)%nat -> string_part v idx off = drop (off `min` length (take idx v)) (take idx v).
Proof. intros Hi. unfold string_part. rewrite length_take. by replace (idx `min` length v)%nat with idx by lia. Qed.

Lemma string_part_whole v idx off : (length v <= idx)%nat -> string_part v idx off = drop (off `min` length v) v.
Proof.
  intros Hi. unfold string_part. rewrite firstn_all2 by done. destruct (decide (off <= length v)%nat); [by replace (off `min` idx)%nat with (off `min` length v)%nat by lia|].
  rewrite !drop_ge; [done|lia..].
Qed.

(** A substring in an array, whose characters before the end are [v]; it is the one of [rhs] or a copy. *)
Lemma cut_gives k a pre v post idx off own q s s1 :
  text v -> Z.of_nat (length pre + length v) < 2 ^ 31 -> k <> CCSTR -> terminated k post -> parts s !! q = None ->
  (if own : bool then k = CSTR /\ strings s !! a = None else strings s !! a = Some (pre ++ v ++ post)) ->
  0 <= idx <= npos -> 0 <= off -> strings s1 = <[a:=pre ++ v ++ post]> (strings s) -> (forall p, <[q:=p]> (parts s1) = <[q:=p]> (parts s)) ->
  exists i c s2, (if negb (idx =? npos) && (idx <? Z.of_nat (length v)) then let i := Z.of_nat (length pre) + idx in '(c, s) ← cut (At a) i s1; Done (i, c, s)
                  else Done (Z.of_nat (length pre + length v), 0, s1)) = Done (i, c, s2) /\
    let p' := mkPart k (At a) i (Z.min (Z.of_nat (length pre) + off) i) c own in
    stands_for p' (string_part v (Z.to_nat idx) (Z.to_nat off)) (set_part q p' s2) /\ destroy q (set_part q p' s2) = Done s.
Proof.
  intros Hv Hn Hk Hterm Hq Ha Hidx Hoff Hst Hpt. set (L := pre ++ v ++ post). fold L in Hst.
  assert (Hs1 : strings s1 !! a = Some L) by (rewrite Hst; by rewrite lookup_insert_eq).
  assert (Hagain : forall p' L', set_part q p' (set_strings (<[a:=L']> (strings s1)) s1) = set_part q p' (set_strings (<[a:=L']> (strings s)) s)).
  { intros p' L'. unfold set_part, set_strings. cbn. by rewrite Hst, insert_insert_eq, Hpt. }
  assert (Hsame : forall p', set_part q p' s1 = set_part q p' (set_strings (<[a:=L]> (strings s)) s)) by (intros p'; unfold set_part, set_strings; cbn; by rewrite Hst, Hpt).
  assert (Ha' : if own then k = CSTR /\ strings s !! a = None else strings s !! a = Some L) by (by destruct own).
  destruct (negb (idx =? npos) && (idx <? Z.of_nat (length v))) eqn:Hcut.
  - apply andb_true_iff in Hcut as [_ Hlt%Z.ltb_lt]. set (m := Z.to_nat idx). destruct (lookup_lt_is_Some_2 v m) as [c Hc]; [lia|].
    assert (HLi : L !! (length pre + m)%nat = Some c) by (unfold L; rewrite lookup_app_r by lia; replace (length pre + m - length pre)%nat with m by lia; by rewrite lookup_app_l by lia).
    cbv zeta. replace (Z.of_nat (length pre) + idx) with (Z.of_nat (length pre + m)) by lia. rewrite (cut_at a L _ c) by done. cbn [mbind outcome_bind].
    eexists _, c, _. split; [done|]. rewrite Hagain. split; [|eapply destroy_gives; [done|done|by constructor|done]].
    assert (HL' : <[(length pre + m)%nat:=0]> L = pre ++ take m v ++ 0 :: drop (S m) v ++ post).
    { unfold L. rewrite insert_app_r_alt by lia. f_equal. replace (length pre + m - length pre)%nat with m by lia. rewrite insert_app_l by lia.
      rewrite (insert_take_drop v m 0) by lia. by rewrite <- app_assoc. }
    rewrite HL'. assert (Hlm : length (take m v) = m) by (rewrite length_take; lia).
    rewrite string_part_cut by lia. fold m. replace (length pre + m)%nat with (length pre + length (take m v))%nat by lia.
    apply (stands_for_at k a pre (take m v) (0 :: drop (S m) v ++ post)); [by apply Forall_take|lia|done|done|by left|]. cbn. by rewrite lookup_insert_eq.
  - eexists _, _, _. split; [done|]. cbv zeta. rewrite Hsame.
    assert (Hge : (length v <= Z.to_nat idx)%nat) by (apply andb_false_iff in Hcut as [Hc|Hc%Z.ltb_ge]; [apply negb_false_iff, Z.eqb_eq in Hc; unfold npos in Hc; lia|lia]).
    split.
    + rewrite string_part_whole by done. apply (stands_for_at k a pre v post); [done..|]. cbn. by rewrite lookup_insert_eq.
    + eapply destroy_gives; [done|done| |done]. constructor. unfold L. destruct Hterm as [Hz|[-> ->]].
      * left. rewrite lookup_app_r by lia. replace (length pre + length v - length pre)%nat with (length v) by lia. rewrite lookup_app_r, Nat.sub_diag by lia. by destruct post.
      * right. split; [done|]. rewrite !length_app. cbn. lia.
Qed.

Lemma store_saved r p s : parts s !! r = Some p -> saved p = 0 -> store (Saved r) 0 0 s = Done s.
Proof.
  intros Hr Hs. unfold store. rewrite Hr. cbn [deref mbind outcome_bind]. change (set_index [saved p] 0 0) with (Done (E := fault) [0]). cbn [mbind outcome_bind].
  change (at_index [0] 0) with (Done (E := fault) 0). cbn [mbind outcome_bind]. unfold set_part.
  replace (mkPart (type p) (ptr p) (index p) (offset p) 0 (owner p)) with p by (destruct p; cbn in *; by subst). rewrite insert_id by done. by destruct s.
Qed.

(** A substring of nothing points to an empty string in an object. *)
Lemma substring_of_saved q r off c s :
  parts s !! q = None -> r = q \/ (exists p, parts s !! r = Some p /\ saved p = 0) -> c = 0 -> 0 <= off ->
  let p' := mkPart CSTR (Saved r) 0 (Z.min (0 + off) 0) c false in
  stands_for p' [] (set_part q p' s) /\ destroy q (set_part q p' s) = Done s.
Proof.
  intros Hq Hr -> Hoff. replace (Z.min (0 + off) 0) with 0 by lia. set (p' := mkPart CSTR (Saved r) 0 0 0 false). cbv zeta.
  assert (Hp : exists p, <[q:=p']> (parts s) !! r = Some p /\ saved p = 0).
  { destruct Hr as [->|(p & Hp & Hs)]; [exists p'; by rewrite lookup_insert_eq|]. exists p. rewrite lookup_insert_ne; [done|]. intros ->. congruence. }
  split; [split_and!; [constructor|done|done|by split_and!]|]. destruct Hp as (p & Hp & Hs).
  unfold destroy, clear. cbn [parts set_part]. rewrite lookup_insert_eq. cbn [deref mbind outcome_bind type ptr index saved owner p'].
  rewrite (store_saved r p) by done. cbn [mbind outcome_bind]. unfold set_part. cbn [strings parts]. f_equal.
  rewrite insert_insert_eq, delete_insert_id by done. by destruct s.
Qed.

Lemma substring_gives junk q r p v idx off s :
  parts s !! r = Some p -> stands_for p v s -> parts s !! q = None -> 0 <= idx <= npos -> 0 <= off < 2 ^ 31 ->
  exists p' s', substring junk q r idx off s = Done s' /\ parts s' !! q = Some p' /\
    stands_for p' (string_part v (Z.to_nat idx) (Z.to_nat off)) s' /\ destroy q s' = Done s.
Proof.
  intros Hr Hsf Hq Hidx Hoff. pose proof (part_length_gives p v s Hsf) as Hlen. pose proof (c_str_gives p v s Hsf) as Hcs.
  pose proof (stands_for_bounds p v s Hsf) as [Hpos Hmax]. destruct Hsf as (Ht & Hn & Hi & Hp). unfold substring. rewrite Hr. cbn [deref mbind outcome_bind].
  rewrite (wrapU_small 32 (offset p + off)) by lia. destruct Hoff as [Hoff _]. unfold placed in Hp.
  assert (Hdone : forall p' s', parts (set_part q p' s') !! q = Some p') by (intros; cbn; by rewrite lookup_insert_eq).
  destruct (ptr p) as [a|r0] eqn:Hptr.
  - destruct Hp as (pre & post & Ha & Ho & Hterm & Hc). destruct (decide (type p = CCSTR)) as [Hk|Hk].
    + assert (Ho0 : offset p = 0) by (by rewrite Ho, (Hc Hk)). unfold share. rewrite Hk. unfold empty. rewrite Hlen.
      destruct (Z.eqb_spec (Z.of_nat (length v)) 0) as [Hv|Hv].
      * assert (v = []) as -> by (by destruct v). cbn [mbind outcome_bind length] in *.
        destruct (Z.ltb_spec idx (Z.of_nat 0)); [lia|]. rewrite andb_false_r. cbn [mbind outcome_bind].
        replace (index p) with 0 by lia. rewrite Ho0. unfold string_part. rewrite take_nil, drop_nil.
        destruct (substring_of_saved q q off 0 s Hq ltac:(by left) eq_refl Hoff) as [Hsf Hd]. eexists _, _. split; [done|]. split; [apply Hdone|]. by split.
      * unfold assign. rewrite Hcs. cbn [mbind outcome_bind]. rewrite Hlen, Z.ltb_irrefl, Nat2Z.id, Nat.sub_diag. cbn [replicate].
        set (b := fresh (dom (strings s))). assert (Hb : strings s !! b = None) by (apply not_elem_of_dom, is_fresh).
        cbn [mbind outcome_bind]. set (s1 := set_part q _ _). assert (Hp1 : parts s1 !! q = Some (mkPart CSTR (At b) (Z.of_nat (length v)) 0 0 true)) by (cbn; by rewrite lookup_insert_eq).
        rewrite Hp1. cbn [deref mbind outcome_bind type ptr owner].
        destruct (cut_gives CSTR b [] v [0] idx off true q s s1) as (i & c & s2 & Hcut & Hsf & Hd); [done|cbn [length Nat.add]; lia|done|by left|done|done|done|done|done| |].
        { intros p0. cbn. apply insert_insert_eq. }
        cbn [length Nat.add] in Hcut, Hsf, Hd. change (Z.of_nat 0) with 0 in Hcut, Hsf, Hd. rewrite Ho0. replace (index p) with (Z.of_nat (length v)) by lia. cbv zeta in *. rewrite Hcut.
        cbn [mbind outcome_bind]. eexists _, _. split; [done|]. split; [apply Hdone|]. by split.
    + assert (Hshare : share junk q p s = Done (mkPart (type p) (At a) 0 0 0 false, s)) by (unfold share; destruct (type p) eqn:Ek; rewrite ?Hptr; done).
      rewrite Hshare. cbn [mbind outcome_bind type ptr owner].
      destruct (cut_gives (type p) a pre v post idx off false q s s) as (i & c & s2 & Hcut & Hsf & Hd); [done|lia|done..| |done|].
      { by rewrite insert_id. }
      rewrite Hlen, Ho. replace (index p) with (Z.of_nat (length pre + length v)) by lia. cbv zeta in *. rewrite Hcut.
      cbn [mbind outcome_bind]. eexists _, _. split; [done|]. split; [apply Hdone|]. by split.
  - destruct Hp as (Hk & -> & Ho & p0 & Hp0 & Hs0). unfold share. rewrite Hk, Hptr. cbn [mbind outcome_bind type ptr owner].
    rewrite Hlen. cbn [length] in *. destruct (Z.ltb_spec idx (Z.of_nat 0)); [lia|]. rewrite andb_false_r. cbn [mbind outcome_bind].
    replace (index p) with 0 by lia. rewrite Ho. unfold string_part. rewrite take_nil, drop_nil.
    destruct (substring_of_saved q r0 off 0 s Hq ltac:(right; by exists p0) eq_refl Hoff) as [Hsf Hd]. eexists _, _. split; [done|]. split; [apply Hdone|]. by split.
Qed.

Lemma stands_for_set q p0 p v s : parts s !! q = None -> stands_for p v s -> stands_for p v (set_part q p0 s).
Proof.
  intros Hq (Ht & Hn & Hi & Hp). split_and!; try done. unfold placed in *. destruct (ptr p) as [a|r]; [done|].
  destruct Hp as (? & ? & ? & p' & Hr & ?). split_and!; try done. exists p'. split; [|done]. cbn. rewrite lookup_insert_ne; [done|]. intros ->. congruence.
Qed.

Lemma copy_gives junk q r p v s :
  parts s !! r = Some p -> stands_for p v s -> parts s !! q = None ->
  exists p' s', copy junk q r s = Done s' /\ parts s' !! q = Some p' /\ stands_for p' v s' /\ destroy q s' = Done s.
Proof.
  intros Hr Hsf Hq. pose proof (part_length_gives p v s Hsf) as Hlen. pose proof (c_str_gives p v _ (stands_for_set q (empty_part q) p v s Hq Hsf)) as Hcs.
  pose proof (stands_for_bounds p v s Hsf) as [_ Hmax]. destruct Hsf as (Ht & Hn & _ & _). unfold copy. rewrite Hr. cbn [deref mbind outcome_bind]. unfold empty. rewrite Hlen.
  destruct (Z.eqb_spec (Z.of_nat (length v)) 0) as [Hv|Hv].
  - assert (v = []) as -> by (by destruct v). exists (empty_part q). destruct (substring_of_saved q q 0 0 s Hq ltac:(by left) eq_refl ltac:(done)) as [Hsf Hd].
    eexists. split; [done|]. split; [cbn; by rewrite lookup_insert_eq|]. by split.
  - unfold assign. rewrite Hcs. cbn [mbind outcome_bind]. rewrite Hlen, Z.ltb_irrefl, Nat2Z.id, Nat.sub_diag. cbn [replicate].
    set (b := fresh _). assert (Hb : strings s !! b = None) by (apply not_elem_of_dom, (is_fresh (dom (strings s)))).
    set (p' := mkPart CSTR (At b) (Z.of_nat (length v)) 0 0 true). exists p', (set_part q p' (set_strings (<[b:=v ++ [0]]> (strings s)) s)).
    split_and!.
    + unfold set_part, set_strings. cbn. by rewrite insert_insert_eq.
    + cbn. by rewrite lookup_insert_eq.
    + split_and!; [done|done|done|]. unfold placed. cbn [ptr p']. exists [], [0]. split_and!; [cbn; by rewrite lookup_insert_eq|done|by left|done].
    + apply (destroy_gives CSTR b (v ++ [0]) (length v) 0 (v ++ [0]) 0 true q s); [done|done| |done]. constructor. left. by rewrite lookup_app_r, Nat.sub_diag by lia.
Qed.

(** ** The first object *)
Inductive base := OfString (idx off : Z) | OfCString (idx off : Z) | OfConst.

Definition of_base (b : base) (q a : positive) (s : state) : exec state :=
  match b with OfString idx off => of_string q a idx off s | OfCString idx off => of_cstring q a idx off s | OfConst => of_const q a s end.

(** The string at [a], and its value as an object. *)
Definition base_ok (b : base) (a : positive) (v : chars) (s : state) : Prop :=
  text v /\ Z.of_nat (length v) < 2 ^ 31 /\
  match b with
  | OfString idx off => strings s !! a = Some v /\ 0 <= idx <= npos /\ 0 <= off
  | OfCString idx off => (exists l, strings s !! a = Some (v ++ 0 :: l)) /\ 0 <= idx <= npos /\ 0 <= off
  | OfConst => exists l, strings s !! a = Some (v ++ 0 :: l)
  end.
Definition base_value (b : base) (v : chars) : chars :=
  match b with OfString idx off | OfCString idx off => string_part v (Z.to_nat idx) (Z.to_nat off) | OfConst => v end.

Lemma not_whole idx n : (idx =? npos) || (n <=? idx) = negb (negb (idx =? npos) && (idx <? n)).
Proof. rewrite Z.leb_antisym. by destruct (idx =? npos), (idx <? n). Qed.

Lemma base_gives b q a v s :
  base_ok b a v s -> parts s !! q = None ->
  exists p s', of_base b q a s = Done s' /\ parts s' !! q = Some p /\ stands_for p (base_value b v) s' /\ destroy q s' = Done s.
Proof.
  intros (Ht & Hn & Hb) Hq. assert (Hdone : forall p' s', parts (set_part q p' s') !! q = Some p') by (intros; cbn; by rewrite lookup_insert_eq).
  destruct b as [idx off|idx off|]; cbn [of_base base_value].
  - destruct Hb as (Ha & Hidx & Hoff).
    destruct (cut_gives CPPSTR a [] v [] idx off false q s s) as (i & c & s2 & Hcut & Hsf & Hd); [done|done|done|by right|done| |done|done| |done|].
    { by rewrite app_nil_r. } { cbn [app]. by rewrite app_nil_r, insert_id. }
    cbn [length Nat.add] in Hcut, Hsf, Hd. change (Z.of_nat 0) with 0 in Hcut, Hsf, Hd. cbv zeta in *. unfold of_string. rewrite Ha. cbn [deref mbind outcome_bind].
    rewrite not_whole. destruct (negb (idx =? npos) && _); cbn [negb] in *.
    + rewrite !Z.add_0_l in *. rewrite Hcut. cbn [mbind outcome_bind]. eexists _, _. split; [done|]. split; [apply Hdone|]. by split.
    + injection Hcut as <- <- <-. cbn [mbind outcome_bind]. rewrite !Z.add_0_l in *. eexists _, _. split; [done|]. split; [apply Hdone|]. by split.
  - destruct Hb as ((l & Ha) & Hidx & Hoff).
    destruct (cut_gives CSTR a [] v (0 :: l) idx off false q s s) as (i & c & s2 & Hcut & Hsf & Hd); [done|done|done|by left|done|done|done|done| |done|].
    { cbn [app]. by rewrite insert_id. }
    cbn [length Nat.add] in Hcut, Hsf, Hd. change (Z.of_nat 0) with 0 in Hcut, Hsf, Hd. cbv zeta in *. unfold of_cstring. rewrite Ha. cbn [deref mbind outcome_bind].
    rewrite upto_nul_text by done. cbn [mbind outcome_bind]. rewrite not_whole. destruct (negb (idx =? npos) && _); cbn [negb] in *.
    + rewrite !Z.add_0_l in *. rewrite Hcut. cbn [mbind outcome_bind]. eexists _, _. split; [done|]. split; [apply Hdone|]. by split.
    + injection Hcut as <- <- <-. cbn [mbind outcome_bind]. rewrite !Z.add_0_l in *. eexists _, _. split; [done|]. split; [apply Hdone|]. by split.
  - destruct Hb as (l & Ha). unfold of_const. rewrite Ha. cbn [deref mbind outcome_bind]. rewrite upto_nul_text by done. cbn [mbind outcome_bind].
    eexists _, _. split; [done|]. split; [apply Hdone|]. split.
    + split_and!; [done|done|done|]. unfold placed. cbn [ptr]. exists [], (0 :: l). by split_and!; [..|left|].
    + unfold destroy, clear. cbn [parts set_part]. rewrite lookup_insert_eq. cbn [deref mbind outcome_bind type set_part parts strings].
      f_equal. rewrite insert_insert_eq, delete_insert_id by done. by destruct s.
Qed.

(** ** A stack of objects *)
Fixpoint stacked (stack : list positive) (vs : list chars) (s0 s : state) : Prop :=
  match stack, vs with
  | [], [] => s = s0
  | q :: stack, v :: vs => exists p s', parts s !! q = Some p /\ stands_for p v s /\ destroy q s = Done s' /\ stacked stack vs s0 s'
  | _, _ => False
  end.

Lemma step_stacked junk x stack vs s0 s :
  stacked stack vs s0 s -> op_ok x -> exists s' stack', step junk x s stack = Done (s', stack') /\ stacked stack' (spec_step x vs) s0 s'.
Proof.
  intros Hs Hx. destruct stack as [|r stack], vs as [|v vs]; try done.
  { exists s, []. destruct x; by split. }
  pose proof Hs as (p & s' & Hr & Hsf & Hd & Hrest). set (q := fresh (dom (parts s))). assert (Hq : parts s !! q = None) by (apply not_elem_of_dom, is_fresh).
  destruct x as [idx off| |]; cbn [step spec_step].
  - destruct Hx as [Hidx Hoff]. destruct (substring_gives junk q r p v idx off s Hr Hsf Hq Hidx Hoff) as (p' & s2 & Hsub & Hp' & Hsf' & Hd').
    fold q. rewrite Hsub. cbn [mbind outcome_bind]. eexists _, _. split; [done|]. exists p', s. by split_and!.
  - destruct (copy_gives junk q r p v s Hr Hsf Hq) as (p' & s2 & Hcp & Hp' & Hsf' & Hd').
    fold q. rewrite Hcp. cbn [mbind outcome_bind]. eexists _, _. split; [done|]. exists p', s. by split_and!.
  - rewrite Hd. cbn [mbind outcome_bind]. by eexists _, _.
Qed.

Lemma run_stacked junk xs : forall stack vs s0 s,
  stacked stack vs s0 s -> Forall op_ok xs -> exists s' stack', run junk xs s stack = Done (s', stack') /\ stacked stack' (spec_run xs vs) s0 s'.
Proof.
  induction xs as [|x xs IH]; intros stack vs s0 s Hs Hok; [by eexists _, _|]. inversion Hok as [|?? Hx Hxs]; subst.
  destruct (step_stacked junk x stack vs s0 s Hs Hx) as (s1 & st1 & Hstep & Hs1). cbn [run]. rewrite Hstep. cbn [mbind outcome_bind]. by apply IH.
Qed.

Lemma unwind junk stack : forall vs s0 s, stacked stack vs s0 s -> run junk (replicate (length stack) Pop) s stack = Done (s0, []).
Proof.
  induction stack as [|q stack IH]; intros [|v vs] s0 s Hs; try done; [by rewrite Hs|]. destruct Hs as (p & s' & _ & _ & Hd & Hrest).
  cbn [length replicate run step]. rewrite Hd. cbn [mbind outcome_bind]. by apply (IH vs).
Qed.

Lemma stacked_length stack : forall vs s0 s, stacked stack vs s0 s -> length stack = length vs.
Proof. induction stack as [|q stack IH]; intros [|v vs] s0 s Hs; try done. destruct Hs as (p & s' & _ & _ & _ & Hrest). cbn. f_equal. by eapply IH. Qed.

(** C17: substrings made in place are values: from a C++ string, an array or a
    constant string, any sequence of substrings and copies of the last object, and
    of destructions of it, runs within bounds; the last object has the characters
    that the value would have (the [string_part]s of path resolution), which its length,
    [findLastOf] and [startsWith] agree with; and when all are destroyed the
    memory is what it was, the overwritten characters and the copies included. *)
Theorem string_parts_are_values junk b a q v s0 xs :
  base_ok b a v s0 -> parts s0 !! q = None -> Forall op_ok xs ->
  exists s1 s stack, of_base b q a s0 = Done s1 /\ run junk xs s1 [q] = Done (s, stack) /\
    let vs := spec_run xs [base_value b v] in
    length stack = length vs /\
    match stack, vs with
    | r :: _, w :: _ => exists p, parts s !! r = Some p /\ c_str p s = Done w /\ part_length p = Z.of_nat (length w) /\
        (forall i c, w !! i = Some c -> get p (Z.of_nat i) s = Done c) /\
        forall c, findLastOf p c s = Done (match last_index c w with Some i => Z.of_nat i | None => npos end)
    | _, _ => s = s0
    end /\
    run junk (replicate (length stack) Pop) s stack = Done (s0, []).
Proof.
  intros Hb Hq Hxs. destruct (base_gives b q a v s0 Hb Hq) as (p & s1 & Hof & Hp & Hsf & Hd).
  destruct (run_stacked junk xs [q] [base_value b v] s0 s1) as (s & stack & Hrun & Hs); [exists p, s0; by split_and!|done|].
  exists s1, s, stack. split; [done|]. split; [done|]. split; [by eapply stacked_length|]. split; [|by eapply unwind].
  destruct stack as [|r stack], (spec_run xs [base_value b v]) as [|w vs]; try done. destruct Hs as (p' & s' & Hr & Hsf' & _). exists p'. split; [done|].
  split; [by apply c_str_gives|]. split; [by eapply part_length_gives|]. split; [by intros i c; apply get_gives|]. intros c. by apply findLastOf_gives.
Qed.

(** ** Examples

    The string /a/bcd, of which /a/bc, its b, an array of xyz, and constants. *)
Definition ex_s : state := mkState {[1%positive := [47; 97; 47; 98; 99; 100]; 2%positive := [120; 121; 122; 0; 7]]} ∅.
Definition ex_xs : list op := [Push 5 0; Push 4 3; Copy; Push npos 0; Pop; Pop; Pop; Push 3 1].

(** The objects when they are all there: the string is cut twice. *)
Example ex_cut :
  (s ← of_base (OfString npos 0) 9 1 ex_s; '(s, _) ← run 5 (take 4 ex_xs) s [9%positive]; Done (map_to_list (strings s)))
  = Done [(3%positive, [98; 0]); (2%positive, [120; 121; 122; 0; 7]); (1%positive, [47; 97; 47; 98; 0; 0])].
Proof. vm_compute. reflexivity. Qed.

(** While there is a substring, the object it was made of is shorter than its length. *)
Example ex_shadowed :
  (s ← of_base (OfCString npos 0) 9 2 ex_s; s ← substring 5 8 9 1 0 s; p ← deref (parts s !! 9%positive); r ← c_str p s; Done (r, part_length p)) = Done ([120], 3).
Proof. vm_compute. reflexivity. Qed.

(** Destroyed in the wrong order, the objects spoil the string. *)
Example ex_wrong_order :
  (s ← of_base (OfCString 2 0) 9 2 ex_s; s ← substring 5 8 9 npos 0 s; s ← destroy 9 s; s ← destroy 8 s; Done (strings s !! 2%positive))
  = Done (Some [120; 121; 0; 0; 7]).
Proof. vm_compute. reflexivity. Qed.

Lemma string_parts_are_values_witness :
  base_ok (OfString npos 0) 1 [47; 97; 47; 98; 99; 100] ex_s /\
  exists s1 s stack, of_base (OfString npos 0) 9 1 ex_s = Done s1 /\ run 5 ex_xs s1 [9%positive] = Done (s, stack) /\
    run 5 (replicate (length stack) Pop) s stack = Done (ex_s, []).
Proof.
  assert (Hb : base_ok (OfString npos 0) 1 [47; 97; 47; 98; 99; 100] ex_s) by (unfold base_ok, text, npos; split_and!; [repeat constructor; lia|done|done|lia|lia|lia]).
  split; [exact Hb|].
  assert (Hx : Forall op_ok ex_xs) by (unfold ex_xs, npos; repeat constructor; cbn; unfold npos; lia).
  destruct (string_parts_are_values 5 (OfString npos 0) 1 9 [47; 97; 47; 98; 99; 100] ex_s ex_xs Hb eq_refl Hx) as (s1 & s & stack & H1 & H2 & _ & _ & H3).
  exists s1, s, stack. exact (conj H1 (conj H2 H3)).
Defined.

End StringParts.
