(* ===== verification/FileAccess.v ===== *)
(** * File descriptors and mounted filesystems

    Classes [FileDescriptorTable] and [FilesystemManager] of
    [filesystem/file_access.cpp] and [FileBase] of [filesystem/file.cpp], over
    reference counted pointers ([RefPtr]) and path resolution
    ([PathResolution]).  The filesystems are an interface. *)
From S2P Require Import Prelude Errors RefPtr PathResolution.
Import RefPtr PathResolution.

Local Open Scope Z_scope.

Module FileAccess.

(** The pointer variables to files: entry [fd] of a descriptor table; the
    local variables of a thread, by depth of the call that declares them; the
    value [intrusive_ref_ptr<FileBase>()]. *)
Inductive ptr := Files (d : nat) (fd : Z) | Local (t k : nat) | Empty.

#[export] Instance ptr_eq_dec : EqDecision ptr.
Proof. solve_decision. Defined.
#[export] Instance ptr_countable : Countable ptr.
Proof.
  apply (inj_countable' (fun p => match p with Files d fd => inl (d, fd) | Local t k => inr (Some (t, k)) | Empty => inr None end)
    (fun p => match p with inl (d, fd) => Files d fd | inr (Some (t, k)) => Local t k | inr None => Empty end)).
  by intros [].
Defined.

(** What is called of a filesystem, on the state [W] of all of them.  [lstat]
    and [readlink] are in [view]; [open_file] says whether a file object was
    stored, and its parent. *)
Class Filesystems (F W : Type) := {
  view : W -> FilesystemBase F;
  st_ino_of : W -> F -> str -> Z;
  open_file : F -> str -> Z -> Z -> W -> Z * option (option F) * W;
  unlink_file : F -> str -> W -> Z * W;
  rename_file : F -> str -> str -> W -> Z * W;
  make_dir : F -> str -> Z -> W -> Z * W;
  remove_dir : F -> str -> W -> Z * W;
}.

(** *** Error numbers *)
Definition EBADF : Z := 9.
Definition EFAULT : Z := 14.
Definition EBUSY : Z := 16.
Definition EXDEV : Z := 18.
Definition EINVAL : Z := 22.
Definition ENFILE : Z := 23.
Definition ERANGE : Z := 34.

(** [config/miosix_settings.h] *)
Definition MAX_OPEN_FILES : Z := 8.
Definition descriptors : list Z := seqZ 0 MAX_OPEN_FILES.

(** [struct stat], the fields that are used. *)
Record stat := mkStat { st_mode : Z; st_ino : Z }.

Section file_access.
Context {F W : Type} `{EqDecision F} `{Filesystems F W}.

(** ** Files

    A file object is its parent filesystem, if any; the filesystem counts its
    open files ([openFileCount]). *)
Definition newFileOpened (f : F) (n : F -> Z) : F -> Z := fun g => if decide (g = f) then n g + 1 else n g.
Definition fileCloseHook (f : F) (n : F -> Z) : F -> Z := fun g => if decide (g = f) then n g - 1 else n g.

Definition FileBase_new (parent : option F) (n : F -> Z) : F -> Z :=
  match parent with Some f => newFileOpened f n | None => n end.
Definition FileBase_delete (parent : option F) (n : F -> Z) : F -> Z :=
  match parent with Some f => fileCloseHook f n | None => n end.

(** The number of live files of a filesystem. *)
Definition open_files (f : F) (m : gmap positive (option F)) : Z := Z.of_nat (size (filter (fun p => p.2 = Some f) m)).

Lemma open_files_insert f m o a : m !! o = None -> open_files f (<[o:=a]> m) = open_files f m + (if decide (a = Some f) then 1 else 0).
Proof.
  intros Ho. unfold open_files. rewrite map_filter_insert. simpl.
  assert (filter (fun p : positive * option F => p.2 = Some f) m !! o = None) as Hn by (apply map_lookup_filter_None; by left).
  destruct (decide (a = Some f)) as [->|].
  - rewrite map_size_insert_None by done. lia.
  - rewrite map_filter_delete, delete_id by done. lia.
Qed.

Lemma open_files_delete f m o a : m !! o = Some a -> open_files f (delete o m) = open_files f m - (if decide (a = Some f) then 1 else 0).
Proof.
  intros Ho. pose proof (open_files_insert f (delete o m) o a (lookup_delete_eq _ _)) as Hi.
  rewrite insert_delete_id in Hi by done. lia.
Qed.

#[export] Instance files_resource : Resource (option F) (F -> Z).
Proof.
  refine {| constructed := FileBase_new; destroyed := FileBase_delete; accounts m n := forall f, n f = open_files f m |}.
  - intros m n o [f|] Hn Ho g; rewrite open_files_insert by done; simpl; unfold newFileOpened; rewrite Hn; repeat case_decide; try congruence; lia.
  - intros m n o [f|] Hn Ho g; rewrite (open_files_delete _ _ _ _ Ho); simpl; unfold fileCloseHook; rewrite Hn; repeat case_decide; try congruence; lia.
Defined.

(** A file object holds its parent by a pointer that is not to a file, so no
    pointer to a file is a member. *)
#[export] Instance files_members : Members ptr (option F).
Proof. refine {| owner _ := None; members _ _ := [] |}. by intros o a l ?%elem_of_nil. Defined.

Lemma no_owner (l : ptr) : owner l = None.
Proof. done. Qed.

Abbreviation files_heap := (heap ptr (option F) (F -> Z)).

(** ** [FileDescriptorTable]: the files

    [t] is the calling thread.  Local variable 1 is the one of the operations
    that run to their end, 2 and 3 of the functions they call, 4 temporary. *)
Definition getFile (result : ptr) (d : nat) (fd : Z) (h : files_heap) : exec files_heap :=
  if (fd <? 0) || (MAX_OPEN_FILES <=? fd) then Done h else atomic_load result (Files d fd) h.

Definition close (t d : nat) (fd : Z) (h : files_heap) : exec (Z * files_heap) :=
  if (fd <? 0) || (MAX_OPEN_FILES <=? fd) then Done (- EBADF, h)
  else
    let toClose := Local t 2 in
    h ← atomic_exchange (Local t 3) (Files d fd) Empty h;
    h ← assign toClose (Local t 3) h;
    h ← reset (Local t 3) h;
    let result := match get toClose h with None => - EBADF | Some _ => 0 end in
    h ← reset toClose h;
    Done (result, h).

Definition close_entry (t d : nat) (h : files_heap) (i : Z) : exec files_heap :=
  h ← atomic_exchange (Local t 3) (Files d i) Empty h; reset (Local t 3) h.

Fixpoint for_each {A B} (f : B -> A -> exec B) (l : list A) (b : B) : exec B :=
  match l with [] => Done b | x :: l => b ← f b x; for_each f l b end.

Definition closeAll (t d : nat) (h : files_heap) : exec files_heap := for_each (close_entry t d) descriptors h.

(** The allocator of file objects. *)
Definition allocate (h : files_heap) : positive := fresh (dom (objects h)).

(** [ptr=intrusive_ref_ptr<FileBase>(new ...)] *)
Definition assign_new (t : nat) (p : ptr) (parent : option F) (h : files_heap) : exec files_heap :=
  let o := allocate h in
  h ← construct (Local t 3) (Some o) (new_object o parent h);
  h ← assign p (Local t 3) h;
  reset (Local t 3) h.

(** The constructor opens the terminal; the copy constructor and the
    assignment share the files. *)
Definition construct_table (t d : nat) (h : files_heap) : exec files_heap :=
  h ← assign_new t (Files d 2) None h;
  h ← assign (Files d 1) (Files d 2) h;
  assign (Files d 0) (Files d 1) h.

Definition copy_entry (t d rhs : nat) (h : files_heap) (i : Z) : exec files_heap :=
  h ← atomic_load (Local t 3) (Files rhs i) h;
  h ← assign (Files d i) (Local t 3) h;
  reset (Local t 3) h.

Definition copy_table (t d rhs : nat) (h : files_heap) : exec files_heap := for_each (copy_entry t d rhs) descriptors h.

Definition assign_entry (t d rhs : nat) (h : files_heap) (i : Z) : exec files_heap :=
  h ← atomic_load (Local t 3) (Files rhs i) h;
  h ← atomic_exchange (Local t 4) (Files d i) (Local t 3) h;
  h ← reset (Local t 4) h;
  reset (Local t 3) h.

Definition assign_table (t d rhs : nat) (h : files_heap) : exec files_heap := for_each (assign_entry t d rhs) descriptors h.

Definition destroy_table (d : nat) (h : files_heap) : exec files_heap :=
  for_each (fun h i => reset (Files d i) h) (reverse descriptors) h.

(** *** Operations on an open file

    What the table checks before it calls the file. *)
Inductive file_call :=
| write (data : bool) (len : Z)
| read (data : bool) (len : Z)
| lseek
| fstat (pstat : bool)
| isatty
| fcntl
| ioctl
| getdents (dp : option Z).

Definition bad_argument (c : file_call) : option Z :=
  match c with
  | write data len | read data len => if negb data then Some (- EFAULT) else if s32 len <? 0 then Some (- EINVAL) else None
  | fstat pstat => if negb pstat then Some (- EFAULT) else None
  | getdents dp => match dp with None => Some (- EFAULT) | Some dp => if Z.land dp 3 =? 0 then None else Some (- EFAULT) end
  | lseek | isatty | fcntl | ioctl => None
  end.

(** The call keeps the file until it returns: [begin_call] gives an error, or
    leaves the thread in the file's function; then [end_call]. *)
Definition begin_call (t d : nat) (fd : Z) (c : file_call) (h : files_heap) : exec (option Z * files_heap) :=
  match bad_argument c with
  | Some e => Done (Some e, h)
  | None =>
      h ← getFile (Local t 0) d fd h;
      Done (match get (Local t 0) h with None => Some (- EBADF) | Some _ => None end, h)
  end.

Definition end_call (t : nat) (h : files_heap) : exec files_heap := reset (Local t 0) h.

(** ** The whole state *)
Record system := mkSystem {
  world : W;
  filesystems : gmap str F;               (**r [FilesystemManager::filesystems] *)
  parentFsMountpointInode : F -> Z;
  fileTables : list nat;
  cwd : nat -> str;                       (**r by table *)
  files : files_heap;
}.

Definition set_world (w : W) (s : system) : system :=
  mkSystem w (filesystems s) (parentFsMountpointInode s) (fileTables s) (cwd s) (files s).
Definition set_filesystems (m : gmap str F) (s : system) : system :=
  mkSystem (world s) m (parentFsMountpointInode s) (fileTables s) (cwd s) (files s).
Definition setParentFsMountpointInode (f : F) (i : Z) (s : system) : system :=
  mkSystem (world s) (filesystems s) (fun g => if decide (g = f) then i else parentFsMountpointInode s g) (fileTables s) (cwd s) (files s).
Definition set_fileTables (l : list nat) (s : system) : system :=
  mkSystem (world s) (filesystems s) (parentFsMountpointInode s) l (cwd s) (files s).
Definition set_cwd (d : nat) (c : str) (s : system) : system :=
  mkSystem (world s) (filesystems s) (parentFsMountpointInode s) (fileTables s) (fun e => if decide (e = d) then c else cwd s e) (files s).
Definition set_files (h : files_heap) (s : system) : system :=
  mkSystem (world s) (filesystems s) (parentFsMountpointInode s) (fileTables s) (cwd s) h.

(** ** Paths

    A C string is its characters, [None] the null pointer. *)
Context (PATH_MAX : nat) (PATH_MAX_small : (Z.of_nat PATH_MAX < 2 ^ 30)).

Definition is_empty (name : option str) : bool := match name with None | Some [] => true | _ => false end.
Definition absolute (path : str) : bool := bool_decide (head path = Some slash_char).

Definition absolutePath (d : nat) (path : str) (s : system) : str :=
  let len := length path in
  if (PATH_MAX <? len)%nat then []
  else if absolute path then path
  else if (PATH_MAX <? len + length (cwd s d))%nat then []
  else cwd s d ++ path.

(** [FilesystemManager::resolvePath], and the part of a path in its filesystem. *)
Definition resolve (path : str) (follow : bool) (s : system) : exec (ResolvedPath * str) :=
  @manager_resolvePath F (view (world s)) PATH_MAX (filesystems s) path follow.
Definition subpath (path : str) (off : nat) : str := string_part path (length path) off.
Definition fs_lstat (f : F) (name : str) (s : system) : Z * stat :=
  let '(result, mode) := @lstat F (view (world s)) f name in (result, mkStat mode (st_ino_of (world s) f name)).

(** The result, [*pstat] when it was written, and the path. *)
Definition statHelper (path : str) (follow : bool) (s : system) : exec (Z * option stat * str) :=
  '(r, path) ← resolve path follow s;
  match r with
  | ResolveError e => Done (e, None, path)
  | Resolved f off => let '(result, st) := fs_lstat f (subpath path off) s in Done (result, Some st, path)
  end.

Definition statImpl (d : nat) (name : option str) (pstat follow : bool) (s : system) : exec (Z * option stat) :=
  if is_empty name || negb pstat then Done (- EFAULT, None)
  else
    name ← deref name;
    let path := absolutePath d name s in
    if decide (path = []) then Done (- ENAMETOOLONG, None)
    else '(result, st, _) ← statHelper path follow s; Done (result, st).

(** The buffer, when it is written. *)
Definition getcwd (d : nat) (buf : bool) (len : nat) (s : system) : exec (Z * option str) :=
  if negb buf || (len <? 2)%nat then Done (- EINVAL, None)
  else
    '(result, st) ← statImpl d (Some dot_name) true true s;
    if negb (result =? 0) then Done (- ENOENT, None)
    else
      st ← deref st;
      if negb (S_ISDIR (st_mode st)) then Done (- ENOENT, None)
      else if (len <? length (cwd s d))%nat then Done (- ERANGE, None)
      else
        let b := take len (cwd s d ++ replicate len 0) in
        Done (0, Some (if (1 <? length (cwd s d))%nat then <[(length (cwd s d) - 1)%nat := 0]> b else b)).

Definition chdir (d : nat) (name : option str) (s : system) : exec (Z * system) :=
  if is_empty name then Done (- EFAULT, s)
  else
    name ← deref name;
    let len := length name in
    let len := if decide (last name = Some slash_char) then len else S len in
    let len := if absolute name then len else (len + length (cwd s d))%nat in
    if (PATH_MAX <? len)%nat then Done (- ENAMETOOLONG, s)
    else
      '(r, newCwd) ← resolve (if absolute name then name else cwd s d ++ name) true s;
      match r with
      | ResolveError e => Done (e, s)
      | Resolved f off =>
          let '(result, st) := fs_lstat f (subpath newCwd off) s in
          if negb (result =? 0) then Done (result, s)
          else if negb (S_ISDIR (st_mode st)) then Done (- ENOTDIR, s)
          else Done (0, set_cwd d (newCwd ++ [slash_char]) s)
      end.

(** A function of one path: [mkdir], [rmdir], and [unlink] with its check. *)
Definition on_path (d : nat) (name : option str) (k : str -> exec (Z * system)) (s : system) : exec (Z * system) :=
  if is_empty name then Done (- EFAULT, s)
  else
    name ← deref name;
    let path := absolutePath d name s in
    if decide (path = []) then Done (- ENAMETOOLONG, s) else k path.

Definition mkdir (d : nat) (name : option str) (mode : Z) (s : system) : exec (Z * system) :=
  on_path d name (fun path =>
    '(r, path) ← resolve path true s;
    match r with
    | ResolveError e => Done (e, s)
    | Resolved f off => let '(result, w) := make_dir f (subpath path off) mode (world s) in Done (result, set_world w s)
    end) s.

Definition rmdir (d : nat) (name : option str) (s : system) : exec (Z * system) :=
  on_path d name (fun path =>
    '(r, path) ← resolve path true s;
    match r with
    | ResolveError e => Done (e, s)
    | Resolved f off => let '(result, w) := remove_dir f (subpath path off) (world s) in Done (result, set_world w s)
    end) s.

Definition unlinkHelper (path : str) (s : system) : exec (Z * system) :=
  '(r, path) ← resolve path true s;
  match r with
  | ResolveError e => Done (e, s)
  | Resolved f off =>
      if decide (is_Some (filesystems s !! path)) then Done (- EBUSY, s)
      else let '(result, w) := unlink_file f (subpath path off) (world s) in Done (result, set_world w s)
  end.

Definition unlink (d : nat) (name : option str) (s : system) : exec (Z * system) := on_path d name (fun path => unlinkHelper path s) s.

Definition startsWith (s prefix : str) : bool := bool_decide (prefix `prefix_of` s).

Definition renameHelper (oldPath newPath : str) (s : system) : exec (Z * system) :=
  '(r, oldPath) ← resolve oldPath true s;
  match r with
  | ResolveError e => Done (e, s)
  | Resolved oldFs oldOff =>
      '(r, newPath) ← resolve newPath true s;
      match r with
      | ResolveError e => Done (e, s)
      | Resolved newFs newOff =>
          if negb (bool_decide (oldFs = newFs)) then Done (- EXDEV, s)
          else if decide (is_Some (filesystems s !! oldPath)) then Done (- EBUSY, s)
          else if decide (is_Some (filesystems s !! newPath)) then Done (- EBUSY, s)
          else
            let oldSp := subpath oldPath oldOff in
            let newSp := subpath newPath newOff in
            if startsWith newSp oldSp then Done (- EINVAL, s)
            else let '(result, w) := rename_file oldFs oldSp newSp (world s) in Done (result, set_world w s)
      end
  end.

Definition rename (d : nat) (oldName newName : option str) (s : system) : exec (Z * system) :=
  if is_empty oldName then Done (- EFAULT, s)
  else if is_empty newName then Done (- EFAULT, s)
  else
    oldName ← deref oldName; newName ← deref newName;
    let oldPath := absolutePath d oldName s in
    let newPath := absolutePath d newName s in
    if decide (oldPath = []) then Done (- ENAMETOOLONG, s)
    else if decide (newPath = []) then Done (- ENAMETOOLONG, s)
    else renameHelper oldPath newPath s.

(** *** Opening a file

    The path is resolved with the manager's mutex locked, the filesystem then
    opens the file without it. *)
Inductive opening := OpenError (result : Z) | Opening (i : Z) (f : F) (name : str).

Definition free_descriptor (d : nat) (s : system) : option Z :=
  head (filter (fun i => get (Files d i) (files s) = None) (seqZ 3 (MAX_OPEN_FILES - 3))).

Definition open_begin (d : nat) (name : option str) (s : system) : exec opening :=
  if is_empty name then Done (OpenError (- EFAULT))
  else
    name ← deref name;
    match free_descriptor d s with
    | None => Done (OpenError (- ENFILE))
    | Some i =>
        let path := absolutePath d name s in
        if decide (path = []) then Done (OpenError (- ENAMETOOLONG))
        else
          '(r, path) ← resolve path true s;
          match r with
          | ResolveError e => Done (OpenError e)
          | Resolved f off => Done (Opening i f (subpath path off))
          end
    end.

Definition open_end (t d : nat) (i : Z) (f : F) (name : str) (flags mode : Z) (s : system) : exec (Z * system) :=
  let '(result, opened, w) := open_file f name flags mode (world s) in
  let s := set_world w s in
  s ← (match opened with Some parent => h ← assign_new t (Files d i) parent (files s); Done (set_files h s) | None => Done s end);
  Done (if result =? 0 then i else result, s).

Definition open (t d : nat) (name : option str) (flags mode : Z) (s : system) : exec (Z * system) :=
  o ← open_begin d name s;
  match o with
  | OpenError e => Done (e, s)
  | Opening i f name => open_end t d i f name flags mode s
  end.

(** ** [FilesystemManager] *)
Definition kmount (path : option str) (fs : option F) (s : system) : exec (Z * system) :=
  if is_empty path then Done (- EFAULT, s)
  else
    path ← deref path;
    match fs with
    | None => Done (- EFAULT, s)
    | Some fs =>
        if (PATH_MAX <? length path)%nat then Done (- ENAMETOOLONG, s)
        else
          let insert temp s :=
            if decide (is_Some (filesystems s !! temp)) then Done (- EBUSY, s)
            else Done (0, set_filesystems (<[temp:=fs]> (filesystems s)) s) in
          if bool_decide (path = [slash_char]) && bool_decide (filesystems s = ∅) then insert path s
          else
            '(result, st, temp) ← statHelper path false s;
            if negb (result =? 0) then Done (result, s)
            else
              st ← deref st;
              if negb (S_ISDIR (st_mode st)) then Done (- ENOTDIR, s)
              else
                '(result, st, _) ← statHelper (temp ++ slash_char :: dotdot_name) false s;
                if negb (result =? 0) then Done (result, s)
                else st ← deref st; insert temp (setParentFsMountpointInode fs (st_ino st) s)
    end.

(** What the other threads can do while [umount] holds the mutex: operations
    on open files, closing, and opening a file whose path was resolved. *)
Inductive file_op :=
| Begin (t d : nat) (fd : Z) (c : file_call)
| End (t : nat)
| Close (t d : nat) (fd : Z)
| OpenEnd (t d : nat) (i : Z) (f : F) (name : str) (flags mode : Z).

(** A thread in a call does nothing else. *)
Definition in_call (t : nat) (s : system) : bool := bool_decide (is_Some (get (Local t 0) (files s))).

Definition file_step (x : file_op) (s : system) : exec system :=
  match x with
  | Begin t d fd c => if in_call t s then Done s else '(_, h) ← begin_call t d fd c (files s); Done (set_files h s)
  | End t => h ← end_call t (files s); Done (set_files h s)
  | Close t d fd => '(_, h) ← close t d fd (files s); Done (set_files h s)
  | OpenEnd t d i f name flags mode => '(_, s) ← open_end t d i f name flags mode s; Done s
  end.

(** What happens between two steps of [umount], in order, and the state. *)
Definition others : Type := list (list file_op).
Definition yield (st : others * system) : exec (others * system) :=
  match st with
  | ([], s) => Done ([], s)
  | (xs :: rest, s) => s ← for_each (fun s x => file_step x s) xs s; Done (rest, s)
  end.

(** One descriptor, whose file is in local variable 1: the file of one of
    [victims] is busy, or is closed. *)
Fixpoint close_matching (t d : nat) (i : Z) (parent : option F) (force : bool) (victims : list F) (st : others * system) : exec (bool * (others * system)) :=
  match victims with
  | [] => Done (false, st)
  | f :: victims =>
      if negb (bool_decide (parent = Some f)) then close_matching t d i parent force victims st
      else if negb force then Done (true, st)
      else
        '(rest, s) ← yield st; '(_, h) ← close t d i (files s);
        close_matching t d i parent force victims (rest, set_files h s)
  end.

Definition umount_descriptor (t d : nat) (force : bool) (victims : list F) (bst : bool * (others * system)) (i : Z) : exec (bool * (others * system)) :=
  let '(busy, st) := bst in
  if (busy : bool) then Done (true, st)
  else
    '(rest, s) ← yield st;
    h ← getFile (Local t 1) d i (files s);
    let s := set_files h s in
    match get (Local t 1) h with
    | None => Done (false, (rest, s))
    | Some o =>
        '(rest, s) ← yield (rest, s);
        '(parent, _) ← deref (objects (files s) !! o);
        '(busy, st) ← close_matching t d i parent force victims (rest, s);
        '(rest, s) ← yield st;
        h ← reset (Local t 1) (files s);
        Done (busy, (rest, set_files h s))
    end.

Definition umount_table (t : nat) (force : bool) (victims : list F) (bst : bool * (others * system)) (d : nat) : exec (bool * (others * system)) :=
  for_each (umount_descriptor t d force victims) descriptors bst.

Definition umount_tables (t : nat) (force : bool) (victims : list F) (tables : list nat) (st : others * system) : exec (bool * (others * system)) :=
  for_each (umount_table t force victims) tables (false, st).

Definition areAllFilesClosed (f : F) (s : system) : bool := outside (files s) f =? 0.

(** The victims one by one, up to one that has files. *)
Fixpoint all_closed (victims : list F) (st : others * system) : exec (bool * (others * system)) :=
  match victims with
  | [] => Done (true, st)
  | f :: victims => st ← yield st; if areAllFilesClosed f st.2 then all_closed victims st else Done (false, st)
  end.

Definition maxRetry : nat := 3.

(** Up to [retries] checks, with a sleep between two of them. *)
Fixpoint wait_closed (retries : nat) (force : bool) (victims : list F) (st : others * system) : exec (bool * (others * system)) :=
  match retries with
  | O => Done (false, st)
  | S r =>
      '(closed, st) ← all_closed victims st;
      if (closed : bool) then Done (true, st)
      else if negb force then Done (false, st)
      else if decide (r = O) then Done (false, st)
      else st ← yield st; wait_closed r force victims st
  end.

(** With the mutex locked, so that no path is resolved and nothing is mounted
    meanwhile; what the other threads do is [sched]. *)
Definition umount (t : nat) (path : option str) (force : bool) (sched : others) (s : system) : exec (Z * system) :=
  if is_empty path then Done (- ENOENT, s)
  else
    path ← deref path;
    if (PATH_MAX <? length path)%nat then Done (- ENAMETOOLONG, s)
    else
      match filesystems s !! path with
      | None => Done (- EINVAL, s)
      | Some _ =>
          let fsToUmount := map_to_list (filter (fun p => startsWith p.1 path = true) (filesystems s)) in
          let victims := fsToUmount.*2 in
          '(busy, st) ← umount_tables t force victims (fileTables s) (sched, s);
          if (busy : bool) then Done (- EBUSY, st.2)
          else
            '(closed, st) ← wait_closed maxRetry force victims st;
            if negb closed then Done (- EBUSY, st.2)
            else
              '(_, s) ← yield st;
              Done (0, set_filesystems (foldr (fun p m => delete p.1 m) (filesystems s) fsToUmount) s)
      end.

Definition umountAll (t : nat) (s : system) : exec system :=
  h ← for_each (fun h d => closeAll t d h) (fileTables s) (files s);
  Done (set_filesystems ∅ (set_files h s)).

(** ** Files: counts and pointers

    Between the operations only the descriptors and the calls in progress
    point to files, and the variable of an [umount], that thread [t] of
    [held] is in. *)
Definition quiet (held : nat -> option positive) (m : gmap ptr positive) : Prop :=
  (forall t k, m !! Local t (S (S k)) = None) /\ m !! Empty = None /\ (forall t, m !! Local t 1 = held t).
Definition nobody : nat -> option positive := fun _ => None.
Definition held_by (t : nat) (o : positive) : nat -> option positive := fun u => if decide (u = t) then Some o else None.

Lemma lookup_set_pointer (l k : ptr) p m : set_pointer l p m !! k = if decide (k = l) then p else m !! k.
Proof.
  unfold set_pointer. case_decide; [subst; by rewrite lookup_partial_alter_eq|by rewrite lookup_partial_alter_ne].
Qed.

(** Equality and lookups of pointers after assignments. *)
Ltac pointers :=
  try (apply map_eq; intros ?k); unfold get in *;
  repeat match goal with H : pointers ?h = _ |- context [pointers ?h] => rewrite H | |- _ => rewrite lookup_set_pointer end;
  repeat case_decide; simplify_eq; eauto; try congruence.

Lemma leaves_bind (h : files_heap) m m' r f :
  leaves h m r ->
  (forall h', counted h' -> pointers h' = m -> contents h' ⊆ contents h -> leaves h' m' (f h')) ->
  leaves h m' (r ≫= f).
Proof.
  intros (h1 & -> & Hc1 & Hp1 & Hs1) Hf. cbn [mbind outcome_bind]. destruct (Hf h1 Hc1 Hp1 Hs1) as (h2 & Hr & Hc2 & Hp2 & Hs2).
  exists h2. split_and!; [done..|by transitivity (contents h1)].
Qed.

Lemma leaves_eq (h : files_heap) m m' r : leaves h m r -> m = m' -> leaves h m' r.
Proof. by intros ? ->. Qed.

(** With a result. *)
Definition gives {A} (h : files_heap) (a : A) (m : gmap ptr positive) (r : exec (A * files_heap)) : Prop :=
  exists h', r = Done (a, h') /\ counted h' /\ pointers h' = m /\ contents h' ⊆ contents h.

Lemma gives_bind {A} (h : files_heap) m m' (a : A) r f :
  leaves h m r ->
  (forall h', counted h' -> pointers h' = m -> contents h' ⊆ contents h -> gives h' a m' (f h')) ->
  gives h a m' (r ≫= f).
Proof.
  intros (h1 & -> & Hc1 & Hp1 & Hs1) Hf. cbn [mbind outcome_bind]. destruct (Hf h1 Hc1 Hp1 Hs1) as (h2 & Hr & Hc2 & Hp2 & Hs2).
  exists h2. split_and!; [done..|by transitivity (contents h1)].
Qed.

Lemma gives_done {A} (h : files_heap) (a : A) m : counted h -> pointers h = m -> gives h a m (Done (a, h)).
Proof. intros Hc Hp. by exists h. Qed.

Lemma in_range fd : (fd <? 0) || (MAX_OPEN_FILES <=? fd) = negb (bool_decide (0 <= fd < MAX_OPEN_FILES)).
Proof. case_bool_decide as Hr; destruct (Z.ltb_spec fd 0), (Z.leb_spec MAX_OPEN_FILES fd); simpl; try done; destruct Hr; lia. Qed.

Lemma getFile_ok p d fd (h : files_heap) :
  counted h -> get p h = None ->
  leaves h (if bool_decide (0 <= fd < MAX_OPEN_FILES) then set_pointer p (get (Files d fd) h) (pointers h) else pointers h) (getFile p d fd h).
Proof.
  intros Hc Hp. unfold getFile. rewrite in_range. case_bool_decide; simpl; [by apply (atomic_load_counted no_owner)|by exists h].
Qed.

Definition free_locals (t : nat) (m : gmap ptr positive) : Prop :=
  m !! Local t 2 = None /\ m !! Local t 3 = None /\ m !! Empty = None.

Lemma quiet_free held t m : quiet held m -> free_locals t m.
Proof. intros (Hl & He & _). by split_and!. Qed.

Lemma close_ok t d fd (h : files_heap) :
  counted h -> free_locals t (pointers h) ->
  gives h (if bool_decide (0 <= fd < MAX_OPEN_FILES) then match get (Files d fd) h with None => - EBADF | Some _ => 0 end else - EBADF)
    (if bool_decide (0 <= fd < MAX_OPEN_FILES) then set_pointer (Files d fd) None (pointers h) else pointers h) (close t d fd h).
Proof.
  intros Hc (H2 & H3 & He). unfold close. rewrite in_range. case_bool_decide; simpl; [|by apply gives_done].
  eapply gives_bind; [by apply (atomic_exchange_counted no_owner)|]. intros h1 Hc1 Hp1 _.
  eapply gives_bind; [by apply (assign_counted no_owner)|]. intros h2 Hc2 Hp2 _.
  eapply gives_bind; [by apply (reset_counted no_owner)|]. intros h3 Hc3 Hp3 _.
  assert (Hclose : get (Local t 2) h3 = get (Files d fd) h) by pointers. rewrite Hclose.
  eapply gives_bind; [by apply (reset_counted no_owner)|]. intros h4 Hc4 Hp4 _.
  apply gives_done; [done|]. pointers.
Qed.

Lemma close_entry_ok held t d i (h : files_heap) :
  counted h -> quiet held (pointers h) -> leaves h (set_pointer (Files d i) None (pointers h)) (close_entry t d h i).
Proof.
  intros Hc (Hl & He & _). eapply leaves_bind; [apply (atomic_exchange_counted no_owner); [done|apply Hl|done]|]. intros h1 Hc1 Hp1 _.
  eapply leaves_eq; [by apply (reset_counted no_owner)|]. pointers.
Qed.

Lemma allocate_free (h : files_heap) : objects h !! allocate h = None.
Proof. unfold allocate. apply not_elem_of_dom. apply is_fresh. Qed.

Lemma assign_new_ok held t p parent (h : files_heap) :
  counted h -> quiet held (pointers h) -> p <> Local t 3 ->
  exists h', assign_new t p parent h = Done h' /\ counted h' /\ pointers h' = set_pointer p (Some (allocate h)) (pointers h) /\
    contents h' ⊆ <[allocate h := parent]> (contents h).
Proof.
  intros Hc (Hl & He & _) Hp. unfold assign_new.
  destruct (create_counted h (Local t 3) (allocate h) parent) as (h1 & -> & Hc1 & Hp1 & Hk1 & _); [done|done|apply Hl|apply allocate_free|].
  cbn [mbind outcome_bind]. rewrite <- Hk1.
  assert (leaves h1 (set_pointer p (Some (allocate h)) (pointers h)) (h2 ← assign p (Local t 3) h1; reset (Local t 3) h2)) as Hr; [|exact Hr].
  eapply leaves_bind; [by apply (assign_counted no_owner)|]. intros h2 Hc2 Hp2 _.
  eapply leaves_eq; [by apply (reset_counted no_owner)|]. pointers.
Qed.

Lemma copy_entry_ok held t d rhs i (h : files_heap) :
  counted h -> quiet held (pointers h) -> leaves h (set_pointer (Files d i) (get (Files rhs i) h) (pointers h)) (copy_entry t d rhs h i).
Proof.
  intros Hc (Hl & He & _). eapply leaves_bind; [apply (atomic_load_counted no_owner); [done|apply Hl]|]. intros h1 Hc1 Hp1 _.
  eapply leaves_bind; [by apply (assign_counted no_owner)|]. intros h2 Hc2 Hp2 _.
  eapply leaves_eq; [by apply (reset_counted no_owner)|]. pointers.
Qed.

Lemma assign_entry_ok held t d rhs i (h : files_heap) :
  counted h -> quiet held (pointers h) -> leaves h (set_pointer (Files d i) (get (Files rhs i) h) (pointers h)) (assign_entry t d rhs h i).
Proof.
  intros Hc (Hl & He & _). eapply leaves_bind; [apply (atomic_load_counted no_owner); [done|apply Hl]|]. intros h1 Hc1 Hp1 _.
  eapply leaves_bind; [apply (atomic_exchange_counted no_owner); [done| |done]|]. { pointers. } intros h2 Hc2 Hp2 _.
  eapply leaves_bind; [by apply (reset_counted no_owner)|]. intros h3 Hc3 Hp3 _.
  eapply leaves_eq; [by apply (reset_counted no_owner)|]. pointers.
Qed.

(** *** What every function keeps *)
Definition sound (held : nat -> option positive) (h : files_heap) : Prop := counted h /\ quiet held (pointers h).
Definition keeps {A} (P : A -> Prop) (r : exec A) : Prop := exists a, r = Done a /\ P a.

Lemma keeps_bind {A B} (P : A -> Prop) (Q : B -> Prop) r f : keeps P r -> (forall a, P a -> keeps Q (f a)) -> keeps Q (r ≫= f).
Proof. intros (a & -> & Ha) Hf. by apply Hf. Qed.

Lemma keeps_done {A} (P : A -> Prop) a : P a -> keeps P (Done a).
Proof. by exists a. Qed.

Lemma for_each_keeps {A B} (P : B -> Prop) (f : B -> A -> exec B) l b :
  P b -> (forall x b, P b -> keeps P (f b x)) -> keeps P (for_each f l b).
Proof. intros Hb Hf. revert b Hb. induction l as [|x l IH]; intros b Hb; simpl; [by apply keeps_done|]. by eapply keeps_bind; [apply Hf|apply IH]. Qed.

Lemma leaves_sound held (h : files_heap) m r : leaves h m r -> quiet held m -> keeps (sound held) r.
Proof. intros (h' & -> & Hc & <- & _) Hq. by exists h'. Qed.

Lemma quiet_file held d i p m : quiet held m -> quiet held (set_pointer (Files d i) p m).
Proof. intros (Hl & He & H1). split_and!; intros; rewrite lookup_set_pointer, decide_False by done; [apply Hl|done|apply H1]. Qed.
Lemma quiet_call held t p m : quiet held m -> quiet held (set_pointer (Local t 0) p m).
Proof. intros (Hl & He & H1). split_and!; intros; rewrite lookup_set_pointer, decide_False by done; [apply Hl|done|apply H1]. Qed.
Hint Resolve quiet_file quiet_call : core.

Lemma close_entry_sound held t d i h : sound held h -> keeps (sound held) (close_entry t d h i).
Proof. intros [Hc Hq]. eapply leaves_sound; [by eapply close_entry_ok|auto]. Qed.
Lemma copy_entry_sound held t d rhs i h : sound held h -> keeps (sound held) (copy_entry t d rhs h i).
Proof. intros [Hc Hq]. eapply leaves_sound; [by eapply copy_entry_ok|auto]. Qed.
Lemma assign_entry_sound held t d rhs i h : sound held h -> keeps (sound held) (assign_entry t d rhs h i).
Proof. intros [Hc Hq]. eapply leaves_sound; [by eapply assign_entry_ok|auto]. Qed.

Lemma close_sound held t d fd h : sound held h -> keeps (fun x => sound held x.2) (close t d fd h).
Proof.
  intros [Hc Hq]. destruct (close_ok t d fd h Hc (quiet_free held t _ Hq)) as (h' & -> & Hc' & Hp' & _). apply keeps_done. split; [done|].
  simpl. rewrite Hp'. case_bool_decide; auto.
Qed.

Lemma closeAll_sound held t d h : sound held h -> keeps (sound held) (closeAll t d h).
Proof. intros Hs. apply for_each_keeps; [done|]. intros i h'. apply close_entry_sound. Qed.

Lemma assign_new_sound held t d i parent h : sound held h -> keeps (sound held) (assign_new t (Files d i) parent h).
Proof.
  intros [Hc Hq]. destruct (assign_new_ok held t (Files d i) parent h Hc Hq) as (h' & -> & Hc' & Hp' & _); [done|].
  apply keeps_done. split; [done|]. rewrite Hp'. auto.
Qed.

Lemma assign_file_sound held d i e j h : sound held h -> keeps (sound held) (assign (Files d i) (Files e j) h).
Proof. intros [Hc Hq]. eapply leaves_sound; [by apply (assign_counted no_owner)|auto]. Qed.

Lemma construct_table_sound held t d h : sound held h -> keeps (sound held) (construct_table t d h).
Proof.
  intros Hs. eapply keeps_bind; [by apply assign_new_sound|]. intros h1 Hs1.
  eapply keeps_bind; [by apply assign_file_sound|]. intros h2 Hs2. by apply assign_file_sound.
Qed.

Lemma copy_table_sound held t d rhs h : sound held h -> keeps (sound held) (copy_table t d rhs h).
Proof. intros Hs. apply for_each_keeps; [done|]. intros i h'. apply copy_entry_sound. Qed.
Lemma assign_table_sound held t d rhs h : sound held h -> keeps (sound held) (assign_table t d rhs h).
Proof. intros Hs. apply for_each_keeps; [done|]. intros i h'. apply assign_entry_sound. Qed.

Lemma destroy_table_sound held d h : sound held h -> keeps (sound held) (destroy_table d h).
Proof. intros Hs. apply for_each_keeps; [done|]. intros i h' [Hc Hq]. eapply leaves_sound; [by apply (reset_counted no_owner)|auto]. Qed.

Lemma begin_call_sound held t d fd c h : sound held h -> get (Local t 0) h = None -> keeps (fun x => sound held x.2) (begin_call t d fd c h).
Proof.
  intros [Hc Hq] Hl. unfold begin_call. destruct (bad_argument c); [by apply keeps_done|].
  destruct (getFile_ok (Local t 0) d fd h Hc Hl) as (h' & -> & Hc' & Hp' & _). cbn [mbind outcome_bind]. apply keeps_done.
  split; [done|]. simpl. rewrite Hp'. case_bool_decide; auto.
Qed.

Lemma end_call_sound held t h : sound held h -> keeps (sound held) (end_call t h).
Proof. intros [Hc Hq]. eapply leaves_sound; [by apply (reset_counted no_owner)|auto]. Qed.

(** ** The whole state *)
Definition cwd_ok (c : nat -> str) : Prop := forall d, exists st, Forall proper st /\ c d = dir st.
Definition inv_held (held : nat -> option positive) (s : system) : Prop := sound held (files s) /\ cwd_ok (cwd s).
Definition inv (s : system) : Prop := inv_held nobody s.

Lemma resolve_result path follow s :
  exists r path', resolve path follow s = Done (r, path') /\
    match r with ResolveError e => e < 0 | Resolved f off => exists st, Forall proper st /\ path' = canon st end.
Proof.
  unfold resolve. destruct (@manager_resolvePath_result F (view (world s)) PATH_MAX (filesystems s) path follow PATH_MAX_small) as ([r path'] & -> & Hr).
  by exists r, path'.
Qed.

Lemma statHelper_total path follow s :
  exists result st p, statHelper path follow s = Done (result, st, p) /\ (result = 0 -> is_Some st).
Proof.
  unfold statHelper. destruct (resolve_result path follow s) as ([e|f off] & p & -> & Hr); cbn [mbind outcome_bind].
  - eexists _, _, _. split; [done|]. lia.
  - destruct (fs_lstat f (subpath p off) s) as [result st]. eexists _, _, _. split; [done|]. by eexists.
Qed.

(** *** Other threads *)
Definition has_open_file (f : F) (s : system) : Prop := exists o, contents (files s) !! o = Some (Some f).

(** The end of an [open] that can give a file of a filesystem. *)
Definition may_open (f : F) (x : file_op) : Prop :=
  match x with OpenEnd _ _ _ g name flags mode => exists w, (open_file g name flags mode w).1.2 = Some (Some f) | _ => False end.
Definition in_flight (f : F) (sched : others) : Prop := exists xs x, xs ∈ sched /\ x ∈ xs /\ may_open f x.

Lemma fewer_files f (h : files_heap) s : contents h ⊆ contents (files s) -> has_open_file f (set_files h s) -> has_open_file f s.
Proof. intros Hs [o Ho]. exists o. by eapply lookup_weaken. Qed.

Lemma gives_fewer {A} f (h : files_heap) (a : A) m s r : gives (files s) a m r -> exists h', r = Done (a, h') /\ (has_open_file f (set_files h' s) -> has_open_file f s).
Proof. intros (h' & -> & _ & _ & Hs). exists h'. split; [done|]. by apply fewer_files. Qed.

Lemma open_end_ok held t d i f name flags mode s :
  inv_held held s ->
  keeps (fun x => inv_held held x.2 /\ filesystems x.2 = filesystems s /\ fileTables x.2 = fileTables s /\
    forall g, has_open_file g x.2 -> has_open_file g s \/ may_open g (OpenEnd t d i f name flags mode)) (open_end t d i f name flags mode s).
Proof.
  intros [[Hc Hq] Hd]. unfold open_end. destruct (open_file f name flags mode (world s)) as [[result [parent|]] w] eqn:Eo; simpl; [|apply keeps_done; split_and!; try done; by left].
  destruct (assign_new_ok held t (Files d i) parent (files s) Hc Hq ltac:(done)) as (h & -> & Hc' & Hp' & Hk'). cbn [mbind outcome_bind]. apply keeps_done.
  split; [split; [split; [exact Hc'|cbn [snd files set_files set_world]; rewrite Hp'; by apply quiet_file]|exact Hd]|]. split; [done|]. split; [done|]. intros g [o Ho]. simpl in Ho.
  pose proof (lookup_weaken _ _ _ _ Ho Hk') as Hi. apply lookup_insert_Some in Hi as [[_ ->]|[_ Hi]]; [right; exists (world s); by rewrite Eo|left; by exists o].
Qed.

Lemma file_step_ok held x s :
  inv_held held s ->
  keeps (fun s' => inv_held held s' /\ filesystems s' = filesystems s /\ fileTables s' = fileTables s /\
    forall f, has_open_file f s' -> has_open_file f s \/ may_open f x) (file_step x s).
Proof.
  intros [Hs Hd]. destruct x as [t d fd c|t|t d fd|t d i f name flags mode]; cbn [file_step].
  - unfold in_call. case_bool_decide as Hi; [apply keeps_done; split_and!; try done; by left|]. apply eq_None_not_Some in Hi.
    destruct (begin_call_sound held t d fd c (files s) Hs Hi) as ([r h] & Eb & Hh). rewrite Eb. cbn [mbind outcome_bind]. apply keeps_done.
    split_and!; try done. intros f Hf. left. revert Hf. apply fewer_files. unfold begin_call in Eb.
    destruct (bad_argument c); [by injection Eb as _ <-|]. destruct Hs as [Hc Hq].
    destruct (getFile_ok (Local t 0) d fd (files s) Hc Hi) as (h' & E & _ & _ & Hk). rewrite E in Eb. by injection Eb as _ <-.
  - destruct (end_call_sound held t (files s) Hs) as (h & E & Hh). rewrite E. cbn [mbind outcome_bind]. apply keeps_done.
    split_and!; try done. intros f Hf. left. revert Hf. apply fewer_files. destruct (reset_counted no_owner (files s) (Local t 0) (proj1 Hs)) as (h' & E' & _ & _ & Hk).
    unfold end_call in E. rewrite E in E'. by injection E' as ->.
  - destruct (close_sound held t d fd (files s) Hs) as ([r h] & E & Hh). rewrite E. cbn [mbind outcome_bind]. apply keeps_done.
    split_and!; try done. intros f Hf. left. revert Hf. apply fewer_files. destruct Hs as [Hc Hq].
    destruct (close_ok t d fd (files s) Hc (quiet_free held t _ Hq)) as (h' & E' & _ & _ & Hk). rewrite E in E'. by injection E' as _ ->.
  - destruct (open_end_ok held t d i f name flags mode s (conj Hs Hd)) as ([r s'] & -> & Hs' & Hf & Ht & Ho). cbn [mbind outcome_bind]. by apply keeps_done.
Qed.

(** ** [umount]

    What can have changed since a step, for the thread that holds the file [held]: nothing but files, and only those an
    [open] in flight opens are new; nothing at all without [force] when
    nothing else happens. *)
Record since (force : bool) (held : nat -> option positive) (st0 st : others * system) : Prop := {
  since_inv : inv_held held st.2;
  since_filesystems : filesystems st.2 = filesystems st0.2;
  since_left : st.1 `suffix_of` st0.1;
  since_files f : ~ in_flight f st0.1 -> has_open_file f st.2 -> has_open_file f st0.2;
  since_alone : force = false -> st0.1 = [] ->
    contents (files st.2) = contents (files st0.2) /\ (forall p, (forall u, p <> Local u 1) -> get p (files st.2) = get p (files st0.2));
}.

Lemma since_refl force held st : inv_held held st.2 -> since force held st st.
Proof. by split. Qed.

Lemma in_flight_suffix f l l' : l' `suffix_of` l -> in_flight f l' -> in_flight f l.
Proof. intros [k ->] (xs & x & Hx & ?). exists xs, x. split; [|done]. apply elem_of_app. by right. Qed.

Lemma since_trans force held held' st0 st1 st2 : since force held st0 st1 -> since force held' st1 st2 -> since force held' st0 st2.
Proof.
  intros [I1 F1 L1 N1 A1] [I2 F2 L2 N2 A2]. split; [done|congruence|by etransitivity| |].
  - intros f Hf Ho. apply N1; [done|]. apply N2; [|done]. contradict Hf. by eapply in_flight_suffix.
  - intros Hfo H0. assert (H1 : st1.1 = []) by (rewrite H0 in L1; by apply suffix_nil_inv in L1).
    destruct (A1 Hfo H0) as [C1 P1], (A2 Hfo H1) as [C2 P2]. split; [congruence|]. intros p Hp. by rewrite P2, P1.
Qed.

Lemma yield_ok force held st : inv_held held st.2 -> keeps (fun st' => since force held st st' /\ (st.1 = [] -> st' = st)) (yield st).
Proof.
  destruct st as [[|xs rest] s]; intros Hi; simpl in *; [apply keeps_done; split; [by apply since_refl|done]|].
  assert (Hr : forall l s', inv_held held s' -> (forall x, x ∈ l -> x ∈ xs) ->
    keeps (fun s2 => inv_held held s2 /\ filesystems s2 = filesystems s' /\ forall f, ~ in_flight f (xs :: rest) -> has_open_file f s2 -> has_open_file f s')
      (for_each (fun s x => file_step x s) l s')).
  { induction l as [|x l IH]; intros s' Hi' Hl; simpl; [by apply keeps_done|].
    destruct (file_step_ok held x s' Hi') as (s1 & -> & Hi1 & Hf1 & _ & Ho1). cbn [mbind outcome_bind].
    destruct (IH s1 Hi1) as (s2 & -> & Hi2 & Hf2 & Ho2); [intros y Hy; apply Hl; by apply elem_of_cons; right|]. apply keeps_done. split_and!; [done|congruence|].
    intros f Hf Hof. destruct (Ho1 f (Ho2 f Hf Hof)) as [|Hm]; [done|]. destruct Hf. exists xs, x.
    split_and!; [by apply elem_of_cons; left|apply Hl; by apply elem_of_cons; left|done]. }
  destruct (Hr xs s Hi ltac:(done)) as (s2 & -> & Hi2 & Hf2 & Ho2). cbn [mbind outcome_bind]. apply keeps_done. split; [|done].
  split; simpl; try done. by exists [xs].
Qed.

(** A step of [umount] itself, with what its own pointers do. *)
Lemma since_files_step force held held' st (h : files_heap) :
  inv_held held st.2 -> counted h -> quiet held' (pointers h) -> contents h ⊆ contents (files st.2) ->
  (force = false -> st.1 = [] -> contents h = contents (files st.2) /\ forall p, (forall u, p <> Local u 1) -> get p h = get p (files st.2)) ->
  since force held' st (st.1, set_files h st.2).
Proof.
  intros [Hs Hd] Hc Hq Hk Ha. split; simpl; try done. intros f _ [o Ho]. exists o. by eapply lookup_weaken.
Qed.

Lemma close_matching_ok t d i parent force held victims st :
  inv_held held st.2 ->
  keeps (fun x => since force held st x.2 /\ (force = true -> x.1 = false) /\ (force = false -> x.2 = st /\ x.1 = bool_decide (parent ∈ Some <$> victims)))
    (close_matching t d i parent force victims st).
Proof.
  revert st. induction victims as [|f victims IH]; intros st Hi; cbn [close_matching].
  { apply keeps_done. split_and!; [by apply since_refl|done|done]. }
  destruct (decide (parent = Some f)) as [Hpar|Hpar];
    [rewrite (bool_decide_true (parent = Some f)) by done|rewrite (bool_decide_false (parent = Some f)) by done]; cbn [negb].
  - destruct force; cbn [negb].
    + destruct (yield_ok true held st Hi) as ([rest s] & -> & H1 & _). cbn [mbind outcome_bind].
      pose proof (since_inv _ _ _ _ H1) as [[Hc Hq] Hd]. simpl in Hc, Hq, Hd.
      destruct (close_ok t d i (files s) Hc (quiet_free held t _ Hq)) as (h & -> & Hc2 & Hp2 & Hk2). cbn [mbind outcome_bind].
      assert (Hq2 : quiet held (pointers h)) by (rewrite Hp2; case_bool_decide; auto).
      pose proof (since_files_step true held held (rest, s) h (conj (conj Hc Hq) Hd) Hc2 Hq2 Hk2 ltac:(done)) as H2. cbn [fst snd] in H2.
      destruct (IH (rest, set_files h s) (since_inv _ _ _ _ H2)) as (x & -> & H3 & Hb & _). apply keeps_done.
      split_and!; [by eapply since_trans; [|eapply since_trans]|done|done].
    + apply keeps_done. split_and!; [by apply since_refl|done|]. intros _. split; [done|]. symmetry. apply bool_decide_true. rewrite Hpar. by left.
  - destruct (IH st Hi) as (x & Hx & H1 & Hb & Hn). exists x. split; [done|]. split_and!; [done|done|].
    intros Hf. destruct (Hn Hf) as [-> ->]. split; [done|]. apply bool_decide_ext. rewrite fmap_cons, elem_of_cons. split; [by right|]. by intros [?|?].
Qed.

(** The check of the descriptors: without [force], and alone, a file of a
    victim is why it fails. *)
Definition checked (force : bool) (victims : list F) (st0 : others * system) (x : bool * (others * system)) : Prop :=
  since force nobody st0 x.2 /\ (force = true -> x.1 = false) /\
  (force = false -> st0.1 = [] -> x.1 = true -> exists f, f ∈ victims /\ has_open_file f st0.2).

Lemma umount_descriptor_ok t d force victims st0 x i :
  inv st0.2 -> checked force victims st0 x -> keeps (checked force victims st0) (umount_descriptor t d force victims x i).
Proof.
  destruct x as [[] st]; intros Hi0 Hx; cbn [umount_descriptor]; [by apply keeps_done|]. destruct Hx as (H0 & Hforce & _). simpl in H0, Hforce.
  destruct (yield_ok force nobody st (since_inv _ _ _ _ H0)) as ([rest s] & -> & H1 & _). cbn [mbind outcome_bind].
  pose proof (since_trans _ _ _ _ _ _ H0 H1) as H01. pose proof (since_inv _ _ _ _ H1) as [[Hc Hq] Hd]. simpl in Hc, Hq, Hd. pose proof Hq as (_ & _ & Hq1).
  destruct (getFile_ok (Local t 1) d i (files s) Hc (Hq1 t)) as (h & -> & Hc2 & Hp2 & Hk2). cbn [mbind outcome_bind].
  assert (exists p, pointers h = set_pointer (Local t 1) p (pointers (files s))) as [p Hp].
  { rewrite Hp2. case_bool_decide; [by eexists|]. exists (pointers (files s) !! Local t 1). by rewrite set_pointer_same. }
  assert (Hgp : get (Local t 1) h = p) by (unfold get; by rewrite Hp, lookup_set_pointer, decide_True).
  assert (Hkeep : contents h = contents (files s) /\ forall q, (forall u, q <> Local u 1) -> get q h = get q (files s)).
  { split; [|intros q Hne; unfold get; by rewrite Hp, lookup_set_pointer, decide_False]. apply map_eq. intros o. apply option_eq. intros a.
    rewrite (counted_contents h _ o a Hc2 Hk2). split; [tauto|]. intros Ho. split; [done|]. destruct (counted_pointed (files s) o Hc) as [l Hl]; [by exists a|].
    exists l. unfold get. rewrite Hp, lookup_set_pointer, decide_False; [done|]. intros ->. rewrite Hq1 in Hl. done. }
  rewrite Hgp. destruct p as [o|].
  2:{ apply keeps_done. split; [|by split]. eapply since_trans; [exact H01|]. apply (since_files_step force nobody nobody (rest, s)); [done|done| |done|done].
    assert (E : pointers h = pointers (files s)) by (rewrite Hp; change None with (nobody t); rewrite <- Hq1; by rewrite set_pointer_same). by rewrite E. }
  assert (Hq3 : quiet (held_by t o) (pointers h)).
  { rewrite Hp. destruct Hq as (Ha & Hb & _). split_and!; [intros; by rewrite lookup_set_pointer, decide_False|by rewrite lookup_set_pointer, decide_False|].
    intros u. unfold held_by. rewrite lookup_set_pointer. destruct (decide (u = t)) as [->|Hne]; [by rewrite decide_True|]. rewrite decide_False by congruence. by rewrite Hq1. }
  pose proof (since_files_step force nobody (held_by t o) (rest, s) h (conj (conj Hc Hq) Hd) Hc2 Hq3 Hk2 ltac:(done)) as H3. cbn [fst snd] in H3.
  destruct (yield_ok force (held_by t o) (rest, set_files h s) (since_inv _ _ _ _ H3)) as ([rest4 s4] & -> & H4 & Halone4). cbn [mbind outcome_bind].
  pose proof (since_inv _ _ _ _ H4) as I4. pose proof I4 as [[Hc4 (_ & _ & Hq4)] _]. simpl in Hc4, Hq4.
  assert (Hlive : get (Local t 1) (files s4) = Some o) by (unfold get; rewrite Hq4; unfold held_by; by rewrite decide_True).
  destruct (counted_pointers _ Hc4 _ _ Hlive) as [[parent n] Hobj]. rewrite Hobj. cbn [mbind outcome_bind deref].
  destruct (close_matching_ok t d i parent force (held_by t o) victims (rest4, s4) I4) as ([busy st5] & -> & H5 & Hb & Hn). cbn [mbind outcome_bind].
  destruct (yield_ok force (held_by t o) st5 (since_inv _ _ _ _ H5)) as ([rest6 s6] & -> & H6 & _). cbn [mbind outcome_bind].
  pose proof (since_inv _ _ _ _ H6) as I6. pose proof I6 as [[Hc6 Hq6] Hd6]. simpl in Hc6, Hq6.
  destruct (reset_counted no_owner (files s6) (Local t 1) Hc6) as (h7 & -> & Hc7 & Hp7 & Hk7). cbn [mbind outcome_bind]. apply keeps_done.
  assert (Hq7 : quiet nobody (pointers h7)).
  { rewrite Hp7. destruct Hq6 as (Ha & Hb' & H1'). split_and!; [intros; by rewrite lookup_set_pointer, decide_False|by rewrite lookup_set_pointer, decide_False|].
    intros u. rewrite lookup_set_pointer. destruct (decide (u = t)) as [->|Hne]; [by rewrite decide_True|]. rewrite decide_False by congruence. rewrite H1'. unfold held_by. by rewrite decide_False. }
  assert (H06 : since force (held_by t o) st0 (rest6, s6)) by exact (since_trans _ _ _ _ _ _ H01 (since_trans _ _ _ _ _ _ H3 (since_trans _ _ _ _ _ _ H4 (since_trans _ _ _ _ _ _ H5 H6)))).
  assert (Hlast : force = false -> st0.1 = [] -> contents h7 = contents (files st0.2) /\ forall q, (forall u, q <> Local u 1) -> get q h7 = get q (files st0.2)).
  { intros Hf H00. destruct (since_alone _ _ _ _ H06 Hf H00) as [E6 G6]. simpl in E6, G6.
    assert (G7 : forall q, (forall u, q <> Local u 1) -> get q h7 = get q (files st0.2)).
    { intros q Hne. unfold get. rewrite Hp7, lookup_set_pointer, decide_False by done. by apply G6. }
    split; [|done]. rewrite <- E6. apply map_eq. intros x. apply option_eq. intros a. rewrite (counted_contents h7 _ x a Hc7 Hk7). split; [tauto|].
    intros Hx. split; [done|]. rewrite E6 in Hx. destruct Hi0 as [[Hc0 (_ & _ & H10)] _]. destruct (counted_pointed (files st0.2) x Hc0) as [l Hl]; [by exists a|].
    exists l. rewrite G7; [done|]. intros u ->. by rewrite H10 in Hl. }
  split; [|split; [done|]].
  - destruct H06 as [I F1 L N _]. cbn [fst snd] in *. split; cbn [fst snd]; [split; [split|]; done|done|done| |exact Hlast].
    intros f Hf Ho. apply N; [done|]. revert Ho. by apply fewer_files.
  - cbn [fst snd]. intros Hf H00 ->. destruct (Hn Hf) as [_ E]. symmetry in E. apply bool_decide_eq_true, list_elem_of_fmap in E as (f & -> & Hin).
    exists f. split; [done|]. exists o.
    assert (H04 : since force (held_by t o) st0 (rest4, s4)) by exact (since_trans _ _ _ _ _ _ H01 (since_trans _ _ _ _ _ _ H3 H4)).
    destruct (since_alone _ _ _ _ H04 Hf H00) as [E4 _]. simpl in E4. rewrite <- E4. unfold contents. by rewrite lookup_fmap, Hobj.
Qed.

Lemma umount_tables_ok t force victims tables st :
  inv st.2 -> keeps (checked force victims st) (umount_tables t force victims tables st).
Proof.
  intros Hi. apply for_each_keeps; [split; [by apply since_refl|done]|]. intros d x Hx. apply for_each_keeps; [done|].
  intros i y Hy. by apply umount_descriptor_ok.
Qed.

(** *** The wait *)
Lemma has_open_file_count held f s : inv_held held s -> has_open_file f s <-> outside (files s) f <> 0.
Proof.
  intros [[Hc _] _]. pose proof (counted_accounts _ Hc f) as Ha. rewrite Ha. unfold open_files, has_open_file. split.
  - intros [o Ho] E. assert (filter (fun p => p.2 = Some f) (contents (files s)) = ∅) as Ef by (apply map_size_empty_inv; lia).
    by apply (map_filter_empty_not_lookup _ _ o (Some f) Ef).
  - intros Hn. destruct (map_choose (filter (fun p => p.2 = Some f) (contents (files s)))) as (o & a & Ho).
    { intros E. apply Hn. by rewrite E, map_size_empty. }
    apply map_lookup_filter_Some in Ho as [Ho Ha']. simpl in Ha'. subst. by exists o.
Qed.

(** What was found closed stays so. *)
Lemma all_closed_ok force victims st :
  inv st.2 ->
  keeps (fun x => since force nobody st x.2 /\
    (x.1 = true -> forall f, f ∈ victims -> ~ in_flight f st.1 -> ~ has_open_file f x.2.2) /\
    (st.1 = [] -> x.2 = st /\ (x.1 = true -> forall f, f ∈ victims -> ~ has_open_file f st.2) /\
       (x.1 = false -> exists f, f ∈ victims /\ has_open_file f st.2))) (all_closed victims st).
Proof.
  revert st. induction victims as [|f victims IH]; intros st Hi; cbn [all_closed].
  { apply keeps_done. cbn [fst snd]. split_and!; [by apply since_refl|by intros _ f ?%elem_of_nil|]. intros _. split_and!; [done|by intros _ f ?%elem_of_nil|done]. }
  destruct (yield_ok force nobody st Hi) as (st1 & -> & H1 & Ha1). cbn [mbind outcome_bind]. pose proof (since_inv _ _ _ _ H1) as I1.
  pose proof (has_open_file_count nobody f st1.2 I1) as Hcount. unfold areAllFilesClosed. destruct (Z.eqb_spec (outside (files st1.2) f) 0) as [Hz|Hz].
  - destruct (IH st1 I1) as (x & -> & H2 & Hc2 & Ha2). apply keeps_done. split_and!; [by eapply since_trans| |].
    + intros Hx g [->|Hg]%elem_of_cons Hfl.
      * intros Ho. apply Hcount; [|done]. apply (since_files _ _ _ _ H2); [|done]. contradict Hfl. eapply in_flight_suffix; [apply (since_left _ _ _ _ H1)|done].
      * apply Hc2; [done|done|]. contradict Hfl. eapply in_flight_suffix; [apply (since_left _ _ _ _ H1)|done].
    + intros E. specialize (Ha1 E) as ->. destruct (Ha2 E) as (-> & Hy & Hn). split_and!; [done| |].
      * intros Hx g [->|Hg]%elem_of_cons; [by intros Ho%Hcount|by apply Hy].
      * intros Hx. destruct (Hn Hx) as (g & Hg & Ho). exists g. split; [by apply elem_of_cons; right|done].
  - apply keeps_done. cbn [fst snd]. split_and!; [done|done|]. intros E. rewrite (Ha1 E) in *. split_and!; [done|done|]. intros _. exists f.
    split; [by apply elem_of_cons; left|by apply Hcount].
Qed.

Lemma wait_closed_ok retries force victims st :
  inv st.2 ->
  keeps (fun x => since force nobody st x.2 /\
    (x.1 = true -> forall f, f ∈ victims -> ~ in_flight f st.1 -> ~ has_open_file f x.2.2) /\
    (force = false -> st.1 = [] -> retries <> O -> x.2 = st /\
       (x.1 = true -> forall f, f ∈ victims -> ~ has_open_file f st.2) /\ (x.1 = false -> exists f, f ∈ victims /\ has_open_file f st.2)))
    (wait_closed retries force victims st).
Proof.
  revert st. induction retries as [|r IH]; intros st Hi; cbn [wait_closed]; [apply keeps_done; split_and!; [by apply since_refl|done|done]|].
  destruct (all_closed_ok force victims st Hi) as ([closed st1] & -> & H1 & Hc1 & Ha1). cbn [mbind outcome_bind]. cbn [fst snd] in *.
  destruct closed; [apply keeps_done; split_and!; [done|done|intros _ E _; by apply Ha1]|].
  destruct force; cbn [negb]; [|apply keeps_done; split_and!; [done|done|intros _ E _; by apply Ha1]].
  case_decide; [by apply keeps_done|]. destruct (yield_ok true nobody st1 (since_inv _ _ _ _ H1)) as (st2 & -> & H2 & _). cbn [mbind outcome_bind].
  destruct (IH st2 (since_inv _ _ _ _ H2)) as (x & -> & H3 & Hc3 & _). apply keeps_done. pose proof (since_trans _ _ _ _ _ _ H1 H2) as H12.
  split_and!; [by eapply since_trans| |done]. intros Hx f Hf Hfl. apply Hc3; [done|done|]. contradict Hfl.
  eapply in_flight_suffix; [apply (since_left _ _ _ _ H12)|done].
Qed.

(** *** The filesystems that go *)
Definition mounted_under (path : str) (s : system) : gmap str F := filter (fun p => startsWith p.1 path = true) (filesystems s).

Lemma delete_all_lookup (l : list (str * F)) (m : gmap str F) k :
  foldr (fun p m => delete p.1 m) m l !! k = if decide (k ∈ l.*1) then None else m !! k.
Proof.
  induction l as [|[k' f] l IH]; [rewrite decide_False; [done|apply not_elem_of_nil]|].
  rewrite fmap_cons. cbn [foldr fst].
  destruct (decide (k = k')) as [->|Hk]; [rewrite lookup_delete_eq, decide_True by (by left); done|].
  rewrite lookup_delete_ne, IH by done. destruct (decide (k ∈ l.*1)) as [Hin|Hin].
  - rewrite decide_True by (by right). done.
  - rewrite decide_False; [done|]. by intros [?|?]%elem_of_cons.
Qed.

Lemma unmounted path s s' :
  filesystems s' = filesystems s ->
  foldr (fun p m => delete p.1 m) (filesystems s') (map_to_list (mounted_under path s)) =
  filter (fun p => startsWith p.1 path = false) (filesystems s).
Proof.
  intros ->. apply map_eq. intros k. rewrite delete_all_lookup. apply option_eq. intros f. rewrite map_lookup_filter_Some. simpl.
  assert (Hin : k ∈ (map_to_list (mounted_under path s)).*1 <-> is_Some (filesystems s !! k) /\ startsWith k path = true).
  { rewrite list_elem_of_fmap. split.
    - intros ([k' g] & -> & Hk). apply elem_of_map_to_list, map_lookup_filter_Some in Hk as [Hk Hs]. split; [by eexists|done].
    - intros [[g Hg] Hs]. exists (k, g). split; [done|]. by apply elem_of_map_to_list, map_lookup_filter_Some. }
  case_decide as Hk.
  - apply Hin in Hk as [_ ->]. naive_solver.
  - split; [|tauto]. intros Hf. split; [done|]. apply not_true_iff_false. intros Hs. apply Hk, Hin. split; [by eexists|done].
Qed.

Lemma victims_spec path s f : f ∈ (map_to_list (mounted_under path s)).*2 <-> exists p, mounted_under path s !! p = Some f.
Proof.
  rewrite list_elem_of_fmap. split.
  - intros ([p g] & -> & Hp). exists p. by apply elem_of_map_to_list.
  - intros [p Hp]. exists (p, f). split; [done|]. by apply elem_of_map_to_list.
Qed.

(** When the request is refused at once. *)
Definition umount_error (path : option str) (s : system) : option Z :=
  match path with
  | None | Some [] => Some (- ENOENT)
  | Some p => if (PATH_MAX <? length p)%nat then Some (- ENAMETOOLONG) else match filesystems s !! p with Some _ => None | None => Some (- EINVAL) end
  end.

#[local] Arguments wait_closed : simpl never.

Lemma umount_ok t path force sched s :
  inv s ->
  exists r s', umount t path force sched s = Done (r, s') /\ inv s' /\
    match umount_error path s with
    | Some e => r = e /\ s' = s
    | None =>
        exists p, path = Some p /\ (r = 0 \/ r = - EBUSY) /\
        (r = 0 -> filesystems s' = filter (fun q => startsWith q.1 p = false) (filesystems s) /\
           forall q f, mounted_under p s !! q = Some f -> ~ in_flight f sched -> ~ has_open_file f s') /\
        (r <> 0 -> filesystems s' = filesystems s) /\
        (force = false -> sched = [] ->
           (r <> 0 <-> exists q f, mounted_under p s !! q = Some f /\ has_open_file f s) /\
           pointers (files s') = pointers (files s) /\ contents (files s') = contents (files s))
    end.
Proof.
  intros Hi. unfold umount. destruct path as [[|c p]|]; simpl; [by eexists _, _|..|by eexists _, _]. cbn [mbind outcome_bind deref].
  destruct (PATH_MAX <? S (length p))%nat; [by eexists _, _|]. destruct (filesystems s !! (c :: p)) as [root|]; [|by eexists _, _].
  set (path := c :: p). set (victims := (map_to_list (mounted_under path s)).*2). fold (mounted_under path s). fold victims.
  assert (Hsame : forall st, since force nobody (sched, s) st -> force = false -> sched = [] -> pointers (files st.2) = pointers (files s) /\ contents (files st.2) = contents (files s)).
  { intros st H1 Hf Hs. destruct (since_alone _ _ _ _ H1 Hf Hs) as [Hk Hp]. split; [|done]. destruct (since_inv _ _ _ _ H1) as [[_ (_ & _ & Q1)] _], Hi as [[_ (_ & _ & Q0)] _].
    apply map_eq. intros [d fd|u [|[|k]]|]; try (by apply Hp). by rewrite Q1, Q0. }
  assert (Hvictims : forall g, (exists f, f ∈ victims /\ has_open_file f g) <-> exists q f, mounted_under path s !! q = Some f /\ has_open_file f g).
  { intros g. split; [intros (f & [q Hq]%victims_spec & Ho); by exists q, f|intros (q & f & Hq & Ho); exists f; split; [apply victims_spec; by exists q|done]]. }
  destruct (umount_tables_ok t force victims (fileTables s) (sched, s) Hi) as ([busy st1] & -> & H1 & Hforce & Hnot). cbn [mbind outcome_bind]. cbn [fst snd] in *.
  pose proof (since_inv _ _ _ _ H1) as I1. destruct busy.
  { destruct force; [by specialize (Hforce eq_refl)|]. eexists _, _. split; [done|]. split; [done|]. exists path. split_and!; [done|by right|done|intros _; apply (since_filesystems _ _ _ _ H1)|].
    intros _ Hs. split; [split; [intros _; apply Hvictims; by apply Hnot|done]|by apply Hsame]. }
  destruct (wait_closed_ok maxRetry force victims st1 I1) as ([closed st2] & -> & H2 & Hc2 & Ha2). cbn [mbind outcome_bind]. cbn [fst snd] in *.
  pose proof (since_trans _ _ _ _ _ _ H1 H2) as H12. pose proof (since_inv _ _ _ _ H2) as I2.
  assert (Hleft : sched = [] -> st1.1 = []) by (intros ->; pose proof (since_left _ _ _ _ H1) as Hl; by apply suffix_nil_inv in Hl).
  destruct closed; cbn [negb].
  - destruct (yield_ok force nobody st2 I2) as ([rest s3] & -> & H3 & Ha3). cbn [mbind outcome_bind].
    pose proof (since_trans _ _ _ _ _ _ H12 H3) as H13. pose proof (since_inv _ _ _ _ H3) as I3. eexists _, _. split; [done|]. split; [done|].
    exists path. split_and!; [done|by left| |done|].
    + intros _. cbn [filesystems set_filesystems]. split; [apply unmounted; apply (since_filesystems _ _ _ _ H13)|]. intros q f Hq Hfl Ho.
      assert (Ho3 : has_open_file f s3) by done.
      apply (Hc2 eq_refl f); [apply victims_spec; by exists q|contradict Hfl; eapply in_flight_suffix; [apply (since_left _ _ _ _ H1)|done]|].
      apply (since_files _ _ _ _ H3); [|done]. contradict Hfl. eapply in_flight_suffix; [apply (since_left _ _ _ _ H12)|done].
    + intros Hf Hs. destruct (Hsame _ H13 Hf Hs) as [Hp Hk]. split; [|done]. split; [done|]. intros (q & f & Hq & Ho).
      destruct (Ha2 Hf (Hleft Hs) ltac:(done)) as (E & Hno & _). exfalso. apply (Hno eq_refl f); [apply victims_spec; by exists q|].
      destruct (Hsame _ H1 Hf Hs) as [_ Hk1]. destruct Ho as [o Ho]. exists o. by rewrite Hk1.
  - eexists _, _. split; [done|]. split; [done|]. exists path. split_and!; [done|by right|done|intros _; apply (since_filesystems _ _ _ _ H12)|].
    intros Hf Hs. destruct (Hsame _ H12 Hf Hs) as [Hp Hk]. split; [|done]. split; [intros _|done].
    destruct (Ha2 Hf (Hleft Hs) ltac:(done)) as (E & _ & Hex). apply Hvictims. destruct (Hex eq_refl) as (f & Hf' & [o Ho]). exists f. split; [done|].
    exists o. destruct (Hsame _ H1 Hf Hs) as [_ Hk1]. by rewrite <- Hk1.
Qed.

Lemma umount_inv t path force sched s : inv s -> keeps (fun x => inv x.2) (umount t path force sched s).
Proof. intros Hi. destruct (umount_ok t path force sched s Hi) as (r & s' & -> & Hs' & _). by apply keeps_done. Qed.

(** ** Programs *)
Inductive op :=
| NewTable (t d : nat)
| CopyTable (t d rhs : nat)
| AssignTable (t d rhs : nat)
| DropTable (d : nat)
| CloseAll (t d : nat)
| Open (t d : nat) (name : option str) (flags mode : Z)
| File (x : file_op)
| Chdir (d : nat) (name : option str)
| Mkdir (d : nat) (name : option str) (mode : Z)
| Rmdir (d : nat) (name : option str)
| Unlink (d : nat) (name : option str)
| Rename (d : nat) (oldName newName : option str)
| Mount (path : option str) (fs : option F)
| Umount (t : nat) (path : option str) (force : bool) (sched : others)
| UmountAll (t : nat).

Definition on_files (f : files_heap -> exec files_heap) (s : system) : exec system := h ← f (files s); Done (set_files h s).
Definition result_dropped (r : exec (Z * system)) : exec system := '(_, s) ← r; Done s.

(** The constructors and the destructor of a table enter and remove it. *)
Definition step (x : op) (s : system) : exec system :=
  match x with
  | NewTable t d => on_files (construct_table t d) (set_fileTables (fileTables s ++ [d]) (set_cwd d [slash_char] s))
  | CopyTable t d rhs =>
      s ← on_files (copy_table t d rhs) (set_cwd d (cwd s rhs) s); Done (set_fileTables (fileTables s ++ [d]) s)
  | AssignTable t d rhs => on_files (assign_table t d rhs) s
  | DropTable d => on_files (destroy_table d) (set_fileTables (filter (fun e => e <> d) (fileTables s)) s)
  | CloseAll t d => on_files (closeAll t d) s
  | Open t d name flags mode => result_dropped (open t d name flags mode s)
  | File x => file_step x s
  | Chdir d name => result_dropped (chdir d name s)
  | Mkdir d name mode => result_dropped (mkdir d name mode s)
  | Rmdir d name => result_dropped (rmdir d name s)
  | Unlink d name => result_dropped (unlink d name s)
  | Rename d oldName newName => result_dropped (rename d oldName newName s)
  | Mount path fs => result_dropped (kmount path fs s)
  | Umount t path force sched => result_dropped (umount t path force sched s)
  | UmountAll t => umountAll t s
  end.

Definition run (xs : list op) (s : system) : exec system := for_each (fun s x => step x s) xs s.

(** Before the first table and the first mount. *)
Definition boot (w : W) : system := mkSystem w ∅ (fun _ => 1) [] (fun _ => [slash_char]) (no_pointers (fun _ => 0)).

Lemma boot_inv w : inv (boot w).
Proof.
  split; [|by intros d; exists []]. split; [|by split]. apply no_pointers_counted. intros f. reflexivity.
Qed.

Lemma on_files_ok f s : inv s -> keeps (sound nobody) (f (files s)) -> keeps inv (on_files f s).
Proof. intros [Hs Hd] Hf. eapply keeps_bind; [done|]. intros h Hh. by apply keeps_done. Qed.

Lemma set_cwd_ok d st s : cwd_ok (cwd s) -> Forall proper st -> cwd_ok (cwd (set_cwd d (dir st) s)).
Proof. intros Hc Hst e. simpl. case_decide; [by exists st|apply Hc]. Qed.

Lemma result_dropped_ok (P : system -> Prop) r : keeps (fun x => P x.2) r -> keeps P (result_dropped r).
Proof. intros ([a s] & -> & Hs). by apply keeps_done. Qed.

(** Functions that only touch the world or one field. *)
Lemma on_path_ok d name k s : inv s -> (forall path, keeps (fun x => inv x.2) (k path)) -> keeps (fun x => inv x.2) (on_path d name k s).
Proof.
  intros Hi Hk. unfold on_path. destruct name as [[|c name]|]; simpl; [by apply keeps_done| |by apply keeps_done].
  cbn [mbind outcome_bind deref]. case_decide; [by apply keeps_done|apply Hk].
Qed.

Lemma resolve_ok path follow s (k : ResolvedPath * str -> exec (Z * system)) :
  (forall r, match r.1 with ResolveError e => e < 0 | Resolved f off => exists st, Forall proper st /\ r.2 = canon st end -> keeps (fun x => inv x.2) (k r)) ->
  keeps (fun x => inv x.2) (r ← resolve path follow s; k r).
Proof. intros Hk. destruct (resolve_result path follow s) as (r & p & -> & Hr). by apply Hk. Qed.

Lemma mkdir_ok d name mode s : inv s -> keeps (fun x => inv x.2) (mkdir d name mode s).
Proof.
  intros Hi. apply on_path_ok; [done|]. intros path. apply resolve_ok. intros [[e|f off] p] _; [by apply keeps_done|].
  destruct (make_dir _ _ _ _). by apply keeps_done.
Qed.

Lemma rmdir_ok d name s : inv s -> keeps (fun x => inv x.2) (rmdir d name s).
Proof.
  intros Hi. apply on_path_ok; [done|]. intros path. apply resolve_ok. intros [[e|f off] p] _; [by apply keeps_done|].
  destruct (remove_dir _ _ _). by apply keeps_done.
Qed.

Lemma unlink_ok d name s : inv s -> keeps (fun x => inv x.2) (unlink d name s).
Proof.
  intros Hi. apply on_path_ok; [done|]. intros path. apply resolve_ok. intros [[e|f off] p] _; [by apply keeps_done|].
  case_decide; [by apply keeps_done|]. destruct (unlink_file _ _ _). by apply keeps_done.
Qed.

Lemma rename_ok d oldName newName s : inv s -> keeps (fun x => inv x.2) (rename d oldName newName s).
Proof.
  intros Hi. unfold rename. destruct oldName as [[|c n]|]; simpl; try by apply keeps_done.
  destruct newName as [[|c' n']|]; simpl; try by apply keeps_done. cbn [mbind outcome_bind deref].
  case_decide; [by apply keeps_done|]. case_decide; [by apply keeps_done|].
  apply resolve_ok. intros [[e|f off] p] _; [by apply keeps_done|].
  apply resolve_ok. intros [[e|g off'] q] _; [by apply keeps_done|].
  cbv zeta. repeat (case_match; try by apply keeps_done).
Qed.

Lemma chdir_ok d name s : inv s -> keeps (fun x => inv x.2) (chdir d name s).
Proof.
  intros [Hs Hd]. unfold chdir. destruct name as [[|c n]|]; [by apply keeps_done| |by apply keeps_done]. cbn [mbind outcome_bind deref is_empty].
  destruct (PATH_MAX <? _)%nat; [by apply keeps_done|]. apply resolve_ok. intros [[e|f off] p] Hr; [by apply keeps_done|].
  simpl in Hr. destruct (fs_lstat f _ s) as [result st]. destruct (negb (result =? 0)); [by apply keeps_done|].
  destruct (negb (S_ISDIR _)); [by apply keeps_done|]. apply keeps_done. destruct Hr as (dirs & Hdirs & ->). split; [done|]. by apply set_cwd_ok.
Qed.

Lemma kmount_ok path fs s : inv s -> keeps (fun x => inv x.2) (kmount path fs s).
Proof.
  intros Hi. unfold kmount. destruct path as [[|c n]|]; [by apply keeps_done| |by apply keeps_done]. cbn [mbind outcome_bind deref is_empty].
  destruct fs as [fs|]; [|by apply keeps_done]. destruct (PATH_MAX <? _)%nat; [by apply keeps_done|].
  destruct (bool_decide _ && bool_decide _); [case_decide; by apply keeps_done|].
  destruct (statHelper_total (c :: n) false s) as (result & st & p & -> & Hst). cbn [mbind outcome_bind].
  destruct (Z.eqb_spec result 0) as [Hr|]; simpl; [|by apply keeps_done]. destruct (Hst Hr) as [st' ->]. cbn [mbind outcome_bind deref].
  destruct (negb (S_ISDIR _)); [by apply keeps_done|].
  destruct (statHelper_total (p ++ slash_char :: dotdot_name) false s) as (result' & st2 & p2 & -> & Hst2). cbn [mbind outcome_bind].
  destruct (Z.eqb_spec result' 0) as [Hr'|]; simpl; [|by apply keeps_done]. destruct (Hst2 Hr') as [st2' ->]. cbn [mbind outcome_bind deref].
  case_decide; by apply keeps_done.
Qed.

Lemma open_ok t d name flags mode s : inv s -> keeps (fun x => inv x.2) (open t d name flags mode s).
Proof.
  intros Hi. unfold open, open_begin. destruct name as [[|c n]|]; [by apply keeps_done| |by apply keeps_done]. cbn [mbind outcome_bind deref is_empty].
  destruct (free_descriptor d s) as [i|]; [|by apply keeps_done]. case_decide; [by apply keeps_done|].
  destruct (resolve_result (absolutePath d (c :: n) s) true s) as ([e|f off] & p & -> & _); cbn [mbind outcome_bind]; [by apply keeps_done|].
  destruct (open_end_ok nobody t d i f (subpath p off) flags mode s Hi) as (x & -> & Hx & _). by apply keeps_done.
Qed.

Lemma umountAll_ok t s : inv s -> keeps inv (umountAll t s).
Proof.
  intros [Hs Hd]. eapply keeps_bind; [apply (for_each_keeps (sound nobody)); [done|]|].
  - intros d h. apply closeAll_sound.
  - intros h Hh. by apply keeps_done.
Qed.

(** *** Every program *)
Lemma step_ok x s : inv s -> keeps inv (step x s).
Proof.
  intros Hi. pose proof Hi as [Hs Hd]. destruct x; simpl; try (apply result_dropped_ok).
  - apply on_files_ok; [|by apply construct_table_sound]. split; [done|]. by apply (set_cwd_ok d []).
  - destruct (Hd rhs) as (st & Hst & Hcwd). rewrite Hcwd. eapply keeps_bind; [apply on_files_ok; [|by apply copy_table_sound]|].
    + split; [done|]. by apply set_cwd_ok.
    + intros s' Hs'. by apply keeps_done.
  - apply on_files_ok; [done|]. by apply assign_table_sound.
  - apply on_files_ok; [done|]. by apply destroy_table_sound.
  - apply on_files_ok; [done|]. by apply closeAll_sound.
  - by apply open_ok.
  - destruct (file_step_ok nobody x s Hi) as (s' & -> & Hs' & _). by apply keeps_done.
  - by apply chdir_ok.
  - by apply mkdir_ok.
  - by apply rmdir_ok.
  - by apply unlink_ok.
  - by apply rename_ok.
  - by apply kmount_ok.
  - destruct (umount_inv t path force sched s Hi) as ([r s'] & -> & Hs'). by apply keeps_done.
  - by apply umountAll_ok.
Qed.

Lemma run_ok xs s : inv s -> keeps inv (run xs s).
Proof. intros Hi. apply for_each_keeps; [done|]. intros x s'. apply step_ok. Qed.

Lemma inv_pointed s o : inv s ->
  is_Some (objects (files s) !! o) <-> (exists d fd, get (Files d fd) (files s) = Some o) \/ (exists t, get (Local t 0) (files s) = Some o).
Proof.
  intros [[Hc (Hl & He & H1)] _]. rewrite (live_pointed _ _ Hc). split.
  - intros [[d fd|t [|[|k]]|] Hp]; [left; by exists d, fd|right; by exists t|unfold get in Hp; by rewrite H1 in Hp|unfold get in Hp; by rewrite Hl in Hp|unfold get in Hp; by rewrite He in Hp].
  - intros [(d & fd & Hp)|[t Hp]]; by eexists.
Qed.

Definition reachable (s : system) : Prop := exists xs w, run xs (boot w) = Done s.

Lemma reachable_system s : reachable s -> inv s.
Proof. intros (xs & w & Hr). destruct (run_ok xs (boot w) (boot_inv w)) as (s' & Hr' & Hs'). congruence. Qed.

(** C19: any sequence of operations on descriptor tables and mounts completes,
    without a dangling or null pointer used, and the accounts are right after
    it: a file exists as long as a descriptor or a call in progress refers to
    it, its count is the number of those that do, and every filesystem's
    [openFileCount] is the number of its files.  The current directory of a
    table is the canonical path of a directory, with a slash at its end. *)
Theorem files_accounted xs w :
  exists s, run xs (boot w) = Done s /\
    (forall o, is_Some (contents (files s) !! o) <->
       (exists d fd, get (Files d fd) (files s) = Some o) \/ (exists t, get (Local t 0) (files s) = Some o)) /\
    (forall o a n, objects (files s) !! o = Some (a, n) -> n = refs o (pointers (files s))) /\
    (forall f, outside (files s) f = open_files f (contents (files s))) /\
    (forall d, exists st, Forall proper st /\ cwd s d = dir st).
Proof.
  destruct (run_ok xs (boot w) (boot_inv w)) as (s & Hr & Hi). exists s. pose proof Hi as [[Hc Hq] Hd]. split_and!; [done| | |apply (counted_accounts _ Hc)|done].
  - intros o. rewrite <- (inv_pointed _ _ Hi). unfold contents. rewrite lookup_fmap, fmap_is_Some. done.
  - intros o a n Ho. by apply (counted_objects _ Hc _ _ _ Ho).
Qed.

(** A path that is another, or is below it. *)
Definition at_or_below (q p : str) : Prop := q = p \/ (p ++ [slash_char]) `prefix_of` q \/ (p = [slash_char] /\ p `prefix_of` q).

Lemma below_starts q p : at_or_below q p -> startsWith q p = true.
Proof. intros [->|[[k ->]|[_ Hp]]]; apply bool_decide_eq_true; [done| |done]. exists (slash_char :: k). by rewrite <- app_assoc. Qed.

(** C10: [umount] is safe, whatever the other threads do to files between any
    two of its steps, in any order: use files, close
    them, and end the [open]s for which the path was resolved before.  It ends, with 0 or an error.  When
    it succeeds, the filesystem mounted at the path and those mounted below it
    are removed, and no path that does not start with it; so that if every
    mounted path that starts with it is below it, what is
    removed is exactly that.  No filesystem that was removed has a file then, be it
    open or in use by a call of another thread, unless an [open] of one of its files was in
    flight.  When it fails nothing is unmounted.  Without [force], when
    nothing else happens meanwhile, no file is touched and it fails with
    [EBUSY] exactly when one of the filesystems whose path starts with it has a file. *)
Theorem umount_safe t path force sched s :
  reachable s ->
  exists r s', umount t path force sched s = Done (r, s') /\
    match umount_error path s with
    | Some e => r = e /\ s' = s
    | None =>
        exists p, path = Some p /\ (r = 0 \/ r = - EBUSY) /\
        (r = 0 ->
           filesystems s' ⊆ filesystems s /\
           (forall q, at_or_below q p -> filesystems s' !! q = None) /\
           (forall q, startsWith q p = false -> filesystems s' !! q = filesystems s !! q) /\
           ((forall q, is_Some (filesystems s !! q) -> startsWith q p = true -> at_or_below q p) ->
            forall q f, filesystems s' !! q = Some f <-> filesystems s !! q = Some f /\ ~ at_or_below q p) /\
           (forall q f, filesystems s !! q = Some f -> filesystems s' !! q = None -> ~ in_flight f sched -> ~ has_open_file f s')) /\
        (r <> 0 -> filesystems s' = filesystems s) /\
        (force = false -> sched = [] ->
           (r <> 0 <-> exists q f, filesystems s !! q = Some f /\ startsWith q p = true /\ has_open_file f s) /\
           pointers (files s') = pointers (files s) /\ contents (files s') = contents (files s))
    end.
Proof.
  intros Hr%reachable_system. destruct (umount_ok t path force sched s Hr) as (r & s' & Hu & _ & Hm). exists r, s'. split; [done|].
  destruct (umount_error path s); [done|]. destruct Hm as (p & Hp & Hres & H0 & Hf & Hn). exists p. split_and!; [done|done| |done|].
  - intros Hr0. destruct (H0 Hr0) as [Hfs Hno]. rewrite Hfs.
    assert (Hlk : forall q f, filter (fun q => startsWith q.1 p = false) (filesystems s) !! q = Some f <-> filesystems s !! q = Some f /\ startsWith q p = false)
      by (intros q f; apply map_lookup_filter_Some).
    assert (Hgone : forall q, startsWith q p = true -> filter (fun q => startsWith q.1 p = false) (filesystems s) !! q = None).
    { intros q Hs. apply eq_None_not_Some. intros [f [_ Hq]%Hlk]. congruence. }
    split_and!.
    + apply map_filter_subseteq.
    + intros q Hq. by apply Hgone, below_starts.
    + intros q Hs. apply option_eq. intros f. rewrite Hlk. tauto.
    + intros Hall q f. rewrite Hlk. split; intros [Hq Hs]; (split; [done|]).
      * intros Hb%below_starts. congruence.
      * apply not_true_iff_false. contradict Hs. apply Hall; [by exists f|done].
    + intros q f Hq Hnone. apply (Hno q f). apply map_lookup_filter_Some. split; [done|]. apply not_false_iff_true. intros Hs.
      pose proof (proj2 (Hlk q f) (conj Hq Hs)) as E. rewrite E in Hnone. done.
  - intros Hfo Hs. destruct (Hn Hfo Hs) as [Hiff Hrest]. split; [|done]. rewrite Hiff. split.
    + intros (q & f & [Hq Hst]%map_lookup_filter_Some & Ho). by exists q, f.
    + intros (q & f & Hq & Hst & Ho). exists q, f. split; [by apply map_lookup_filter_Some|done].
Qed.

(** *** Descriptors *)
Lemma free_descriptor_spec d s :
  match free_descriptor d s with
  | Some i => 3 <= i < MAX_OPEN_FILES /\ get (Files d i) (files s) = None /\ (forall j, 3 <= j < i -> is_Some (get (Files d j) (files s)))
  | None => forall j, 3 <= j < MAX_OPEN_FILES -> is_Some (get (Files d j) (files s))
  end.
Proof.
  unfold free_descriptor. change (seqZ 3 (MAX_OPEN_FILES - 3)) with [3; 4; 5; 6; 7]. unfold MAX_OPEN_FILES.
  assert (Hsome : forall i, get (Files d i) (files s) <> None -> is_Some (get (Files d i) (files s))) by (intros i; apply not_eq_None_Some).
  rewrite !filter_cons, filter_nil.
  repeat case_decide; simpl; (split_and!; [lia|lia|done|]) || idtac; intros j Hj;
    first [assert (j = 3) as -> by lia; auto; done | idtac];
    (assert (j = 3 \/ j = 4 \/ j = 5 \/ j = 6 \/ j = 7) as Hcases by lia;
     destruct Hcases as [->|[->|[->|[->| ->]]]]; first [lia|auto]).
Qed.

Lemma contents_all (h : files_heap) k :
  counted h -> contents h ⊆ k -> (forall o, is_Some (k !! o) -> exists l, get l h = Some o) -> contents h = k.
Proof.
  intros Hc Hs Hp. apply map_eq. intros o. apply option_eq. intros a. rewrite (counted_contents h k o a Hc Hs). split; [tauto|].
  intros Ho. split; [done|]. apply Hp. by exists a.
Qed.

Lemma contents_pointed s o : inv s -> is_Some (contents (files s) !! o) -> exists l, get l (files s) = Some o.
Proof. intros [[Hc _] _] Ho. apply (live_pointed _ _ Hc). unfold contents in Ho. by rewrite lookup_fmap, fmap_is_Some in Ho. Qed.

(** [open] takes the lowest free descriptor from 3 up, or fails with
    [ENFILE] when there is none; it stores there a new file and changes no
    other, and an error changes no descriptor.  [close] frees an open
    descriptor, and deletes its file when nothing else refers to it: no other
    descriptor, of this or of a copied table, and no call in progress; of any
    other number it gives [EBADF]. *)
Theorem descriptors_open_and_close s t d :
  reachable s ->
  (forall name flags mode,
     match open_begin d name s with
     | Done (OpenError e) => open t d name flags mode s = Done (e, s)
     | Done (Opening i f path) =>
         (3 <= i < MAX_OPEN_FILES /\ get (Files d i) (files s) = None /\ forall j, 3 <= j < i -> is_Some (get (Files d j) (files s))) /\
         let '(result, opened, w) := open_file f path flags mode (world s) in
         exists s', open t d name flags mode s = Done ((if result =? 0 then i else result), s') /\
           filesystems s' = filesystems s /\ world s' = w /\
           match opened with
           | None => files s' = files s
           | Some parent =>
               exists o, contents (files s) !! o = None /\ pointers (files s') = <[Files d i := o]> (pointers (files s)) /\
                 contents (files s') = <[o := parent]> (contents (files s))
           end
     | Fault _ => False
     end /\
     (is_empty name = false -> (forall j, 3 <= j < MAX_OPEN_FILES -> is_Some (get (Files d j) (files s))) ->
      open_begin d name s = Done (OpenError (- ENFILE)))) /\
  (forall fd,
     let is_open := 0 <= fd < MAX_OPEN_FILES /\ is_Some (get (Files d fd) (files s)) in
     exists r h, close t d fd (files s) = Done (r, h) /\
       (is_open /\ r = 0 \/ ~ is_open /\ r = - EBADF) /\
       (forall p, pointers h !! p = if decide (p = Files d fd /\ 0 <= fd < MAX_OPEN_FILES) then None else pointers (files s) !! p) /\
       (forall o a, contents h !! o = Some a <-> contents (files s) !! o = Some a /\ exists p, pointers h !! p = Some o)).
Proof.
  intros Hi%reachable_system. pose proof Hi as [[Hc Hq] Hd]. split.
  - intros name flags mode. pose proof (free_descriptor_spec d s) as Hfree. unfold open, open_begin.
    destruct name as [[|c n]|]; [done| |done]. cbn [mbind outcome_bind deref is_empty].
    destruct (free_descriptor d s) as [i|]; [|by split]. split.
    + case_decide; [done|]. destruct (resolve_result (absolutePath d (c :: n) s) true s) as ([e|f off] & p & -> & _); cbn [mbind outcome_bind]; [done|].
      split; [done|]. unfold open_end. destruct (open_file f (subpath p off) flags mode (world s)) as [[result [parent|]] w]; simpl.
      * destruct (assign_new_ok nobody t (Files d i) parent (files s) Hc Hq) as (h & -> & Hc' & Hp' & Hk'); [done|]. cbn [mbind outcome_bind].
        eexists. split; [done|]. simpl. split_and!; [done|done|]. exists (allocate (files s)).
        assert (contents (files s) !! allocate (files s) = None) as Hnew by (unfold contents; by rewrite lookup_fmap, allocate_free).
        split_and!; [done|by rewrite Hp'|]. apply contents_all; [done|done|]. intros o Ho. unfold get. rewrite Hp'.
        apply lookup_insert_is_Some in Ho as [<-|[_ Ho]]; [exists (Files d i); by rewrite lookup_set_pointer, decide_True|].
        destruct (contents_pointed _ _ Hi Ho) as [l Hl]. exists l. rewrite lookup_set_pointer, decide_False; [done|].
        intros ->. destruct Hfree as (_ & Hn & _). congruence.
      * eexists. by split_and!.
    + intros _ Hall. destruct Hfree as (Hr & Hn & _). destruct (Hall i Hr). congruence.
  - intros fd. destruct (close_ok t d fd (files s) Hc (quiet_free nobody t _ Hq)) as (h & Hcl & Hc' & Hp' & Hk').
    eexists _, h. split; [exact Hcl|]. split_and!.
    + case_bool_decide as Hrange; [|right; split; [by intros [? _]|done]]. destruct (get (Files d fd) (files s)) eqn:Hg; [left|right]; split; try done.
      intros [_ [? ?]]. done.
    + intros p. rewrite Hp'. case_bool_decide as Hrange.
      * rewrite lookup_set_pointer. destruct (decide (p = Files d fd)) as [->|]; [by rewrite decide_True|]. rewrite decide_False; [done|]. by intros [? _].
      * rewrite decide_False; [done|]. by intros [_ ?].
    + intros o a. by apply counted_contents.
Qed.

End file_access.
(** ** Examples

    Every filesystem has directories [a], [ab] and the root; the rest are
    files, that always open. *)
#[local] Instance ex_filesystems : Filesystems nat unit := {
  view _ := {|
    supportsSymlinks _ := false;
    lstat _ name := (0, if decide (name = [] \/ name = codes "a" \/ name = codes "ab") then 0x4000 else 0x8000);
    readlink _ _ := (- EINVAL, []) |};
  st_ino_of _ _ _ := 1;
  open_file f _ _ _ w := (0, Some (Some f), w);
  unlink_file _ _ w := (0, w);
  rename_file _ _ _ w := (0, w);
  make_dir _ _ _ w := (0, w);
  remove_dir _ _ w := (0, w);
}.

Abbreviation path s := (Some (codes s)).
Definition nothing : others (F := nat) := [].

(** The root, a filesystem at [/a] and one at [/ab]; a process with a file of
    each, and its copy. *)
Definition ex_setup : list (op (F := nat)) :=
  [Mount (path "/") (Some 0%nat); Mount (path "/a/") (Some 1%nat); Mount (path "/ab") (Some 2%nat); NewTable 0 0;
   Open 0 0 (path "/a/x") 0 0; Open 0 0 (path "ab/y") 0 0; Chdir 0 (path "ab//./"); CopyTable 0 1 0].

Definition ex_run (xs : list (op (F := nat))) : option system := match run 1024 xs (boot ()) with Done s => Some s | Fault _ => None end.

Lemma small : (Z.of_nat 1024 < 2 ^ 30).
Proof. reflexivity. Qed.

Example ex_setup_runs :
  (s ← ex_run ex_setup; Some (cwd s 1%nat, fileTables s, map_to_list (filesystems s), get (Files 1 3) (files s),
     map (outside (files s)) [0; 1; 2]%nat)) =
  Some (codes "/ab/", [0; 1]%nat, [(codes "/ab", 2); (codes "/a", 1); (codes "/", 0)]%nat, Some 2%positive, [0; 1; 1]).
Proof. vm_compute. reflexivity. Qed.

Lemma files_accounted_witness :
  exists s, run 1024 ex_setup (boot ()) = Done s /\ (forall f, outside (files s) f = open_files f (contents (files s))).
Proof. destruct (files_accounted 1024 small ex_setup ()) as (s & Hr & _ & _ & Ha & _). exists s. exact (conj Hr Ha). Defined.

(** A thread reads a file of [/a] that is closed meanwhile, in both tables:
    [umount] waits for it, when forced, and fails otherwise. *)
Definition ex_busy : list (op (F := nat)) :=
  ex_setup ++ [File (Begin 1 0 3 (read true 10)); File (Close 0 0 3); File (Close 0 1 3); File (Close 0 0 4); File (Close 0 1 4)].

Definition ex_umount (force : bool) (sched : others (F := nat)) : option (Z * list (str * nat)) :=
  s ← ex_run ex_busy;
  match umount 1024 0 (path "/a") force sched s with Done (r, s) => Some (r, map_to_list (filesystems s)) | Fault _ => None end.

Example ex_umount_busy : fst <$> ex_umount false nothing = Some (- EBUSY).
Proof. vm_compute. reflexivity. Qed.
Example ex_umount_never_ends : fst <$> ex_umount true nothing = Some (- EBUSY).
Proof. vm_compute. reflexivity. Qed.

(** The read ends while [umount] sleeps, after its first check.  [/ab] goes with
    [/a]: its path starts with the other's. *)
Example ex_umount_prefix : ex_umount true (replicate 30 [] ++ [[End 1]]) = Some (0, [(codes "/", 0%nat)]).
Proof. vm_compute. reflexivity. Qed.

Lemma ex_busy_reachable : exists s, ex_run ex_busy = Some s /\ reachable 1024 s.
Proof.
  destruct (ex_run ex_busy) as [s|] eqn:Hr; [|by vm_compute in Hr]. exists s. split; [done|]. exists ex_busy, ().
  unfold ex_run in Hr. destruct (run 1024 ex_busy (boot ())); [by injection Hr as ->|done].
Qed.

Lemma umount_safe_witness :
  exists s r s', ex_run ex_busy = Some s /\ umount 1024 0 (path "/a") false nothing s = Done (r, s') /\ filesystems s' = filesystems s /\
    contents (files s') = contents (files s).
Proof.
  destruct ex_busy_reachable as (s & Hr & Hs).
  destruct (umount_safe 1024 small 0 (path "/a") false nothing s Hs) as (r & s' & Hu & Hm). exists s, r, s'.
  pose proof ex_umount_busy as Hb. unfold ex_umount in Hb. rewrite Hr in Hb. cbn [mbind option_bind] in Hb. rewrite Hu in Hb.
  injection Hb as ->. destruct (umount_error 1024 (path "/a") s) as [e|]; [destruct Hm as [_ ->]; by split_and!|].
  destruct Hm as (p & _ & _ & _ & Hfs & Hnot). destruct (Hnot eq_refl eq_refl) as (_ & _ & Hk). split_and!; [done|done|by apply Hfs|done].
Defined.

Definition begun (o : exec (opening (F := nat))) : Z := match o with Done (Opening i _ _) => i | _ => 0 end.

Example ex_begin : (s ← ex_run ex_busy; Some (begun (open_begin 1024 0 (path "/z") s), get (Files 0 3) (files s))) = Some (3, None).
Proof. vm_compute. reflexivity. Qed.

Lemma pair_inj {A B} (a a' : A) (b b' : B) : Some (a, b) = Some (a', b') -> a = a' /\ b = b'.
Proof. by intros [= -> ->]. Qed.

Lemma descriptors_open_and_close_witness :
  exists s, ex_run ex_busy = Some s /\
    (exists r h, close 0 0 3 (files s) = Done (r, h) /\ r = - EBADF) /\
    (exists i f n, open_begin 1024 0 (path "/z") s = Done (Opening i f n) /\ i = 3).
Proof.
  destruct ex_busy_reachable as (s & Hr & Hs). exists s. split; [done|].
  destruct (descriptors_open_and_close 1024 small s 0 0 Hs) as [_ Hc].
  pose proof ex_begin as Hb. rewrite Hr in Hb. apply pair_inj in Hb as [Hb Hg]. split.
  - destruct (Hc 3) as (r & h & Hcl & Hres & _). exists r, h. split; [exact Hcl|].
    destruct Hres as [[[_ [o Ho]] _]|[_ Hres]]; [congruence|exact Hres].
  - destruct (open_begin 1024 0 (path "/z") s) as [[e|i f n]|]; [discriminate Hb| |discriminate Hb].
    exists i, f, n. split; [reflexivity|exact Hb].
Defined.

(** The mutex is not held between the resolution of a path and the call of the
    filesystem: a file can be opened in a filesystem that is not mounted any
    more. *)
Example ex_open_after_umount :
  (s ← ex_run (take 4 ex_setup);
   match open_begin 1024 0 (path "/a/x") s with
   | Done (Opening i f name) =>
       match umount 1024 1 (path "/a") false nothing s with
       | Done (r, s) =>
           match open_end 0 0 i f name 0 0 s with
           | Done (fd, s) => Some (f, r, map_to_list (filesystems s), fd, get (Files 0 fd) (files s), outside (files s) f)
           | Fault _ => None
           end
       | Fault _ => None
       end
   | _ => None
   end) = Some (1%nat, 0, [(codes "/", 0%nat)], 3, Some 2%positive, 1).
Proof. vm_compute. reflexivity. Qed.

(** A file cannot be renamed to a name that starts with its own. *)
Example ex_rename_prefix :
  (s ← ex_run ex_setup; match rename 1024 0 (path "/f") (path "/f2") s with Done (r, _) => Some r | Fault _ => None end) = Some (- EINVAL).
Proof. vm_compute. reflexivity. Qed.

End FileAccess.
