(* ===== verification/SystemSetup.v ===== *)
(** * The files of a running system

    [basicFilesystemSetup] of [filesystem/file_access.cpp]: the filesystem of mount
    points, the one of devices on [/dev], and FAT32, whose code is a parameter, on [/sd].
    The filesystems of MountpointFs and DevFs are put behind the interface of
    FileAccess, so that its functions, with path resolution, run on them. *)
From S2P Require Import Prelude Errors Directories MountpointFs DevFs RefPtr PathResolution FileAccess Fat32.
Import PathResolution RefPtr FileAccess.

Local Open Scope Z_scope.

Module SystemSetup.

Inductive fs_id := RootFs | DeviceFs | Fat32.
#[export] Instance fs_id_dec : EqDecision fs_id.
Proof. solve_decision. Defined.

(** [PATH_MAX], and what the code of FAT32 does: its operations, and its constructor, that is given
    the file of the disk and tells whether mounting failed. *)
Section setup.
Context (PATH_MAX : nat) (PATH_MAX_small : Z.of_nat PATH_MAX < 2 ^ 30).
Context {X : Type} `{Filesystems unit X} (fat_mount : option DevFs.file -> X -> bool * X).

Record fs_world := mkWorld { root : MountpointFs.mountpointfs; devs : DevFs.devfs; fat : X }.
Definition set_root (f : MountpointFs.mountpointfs) (w : fs_world) : fs_world := mkWorld f (devs w) (fat w).
Definition set_devs (f : DevFs.devfs) (w : fs_world) : fs_world := mkWorld (root w) f (fat w).
Definition set_fat (x : X) (w : fs_world) : fs_world := mkWorld (root w) (devs w) x.

(** The interface has no faults; the functions of DevFs have none, as DevFs shows, on
    a filesystem that is [DevFs.ok]. *)
Definition unless_fault {A} (a : A) (r : exec A) : A := match r with Done a => a | Fault _ => a end.
Definition mode_of (st : option MountpointFs.stat) : Z := match st with Some st => MountpointFs.st_mode st | None => 0 end.
Definition inode_of (st : option MountpointFs.stat) : Z := match st with Some st => MountpointFs.st_ino st | None => 0 end.

Definition dev_lstat (w : fs_world) (name : str) : Z * option MountpointFs.stat := unless_fault (0, None) (DevFs.lstat name (devs w)).

(** None of them has symbolic links ([FilesystemBase] itself). *)
Definition system_view (w : fs_world) : FilesystemBase fs_id := {|
  supportsSymlinks _ := false;
  lstat f name :=
    match f with
    | RootFs => let '(r, st) := MountpointFs.lstat name (root w) in (r, mode_of st)
    | DeviceFs => let '(r, st) := dev_lstat w name in (r, mode_of st)
    | Fat32 => @lstat unit (view (fat w)) () name
    end;
  readlink _ _ := (- EINVAL, []);
|}.

Definition file_opened {A} (f : fs_id) (opened : option A) : option (option fs_id) := match opened with Some _ => Some (Some f) | None => None end.

#[export] Instance system_filesystems : Filesystems fs_id fs_world := {
  view := system_view;
  st_ino_of w f name :=
    match f with
    | RootFs => inode_of (MountpointFs.lstat name (root w)).2
    | DeviceFs => inode_of (dev_lstat w name).2
    | Fat32 => st_ino_of (fat w) () name
    end;
  open_file f name flags mode w :=
    match f with
    | RootFs => let '(r, d) := MountpointFs.open 1 name flags (root w) in (r, file_opened f d, w)
    | DeviceFs => let '(r, d) := unless_fault (0, None) (DevFs.open 1 name flags (devs w)) in (r, file_opened f d, w)
    | Fat32 => let '(r, d, x) := open_file () name flags mode (fat w) in (r, match d with Some (Some _) => Some (Some f) | Some None => Some None | None => None end, set_fat x w)
    end;
  unlink_file f name w :=
    match f with
    | RootFs => let '(r, m) := MountpointFs.unlink name (root w) in (r, set_root m w)
    | DeviceFs => let '(r, d) := DevFs.unlink name (devs w) in (r, set_devs d w)
    | Fat32 => let '(r, x) := unlink_file () name (fat w) in (r, set_fat x w)
    end;
  rename_file f a b w :=
    match f with
    | RootFs => let '(r, m) := MountpointFs.rename a b (root w) in (r, set_root m w)
    | DeviceFs => let '(r, d) := unless_fault (0, devs w) (DevFs.rename a b (devs w)) in (r, set_devs d w)
    | Fat32 => let '(r, x) := rename_file () a b (fat w) in (r, set_fat x w)
    end;
  make_dir f name mode w :=
    match f with
    | RootFs => let '(r, m) := unless_fault (0, root w) (MountpointFs.mkdir name (root w)) in (r, set_root m w)
    | DeviceFs => let '(r, d) := DevFs.mkdir name mode (devs w) in (r, set_devs d w)
    | Fat32 => let '(r, x) := make_dir () name mode (fat w) in (r, set_fat x w)
    end;
  remove_dir f name w :=
    match f with
    | RootFs => let '(r, m) := MountpointFs.rmdir name (root w) in (r, set_root m w)
    | DeviceFs => let '(r, d) := DevFs.rmdir name (devs w) in (r, set_devs d w)
    | Fat32 => let '(r, x) := remove_dir () name (fat w) in (r, set_fat x w)
    end;
}.

(** ** [basicFilesystemSetup] *)
Abbreviation system := (@system fs_id fs_world).

Definition getFilesystemId (devCount : Z) : Z * Z := (devCount, s32 (devCount + 1)).

Definition dev_name : str := [100; 101; 118].
Definition sd_name : str := [115; 100].
Definition sda_name : str := [115; 100; 97].
Definition root_path : str := [slash_char].
Definition dev_path : str := slash_char :: dev_name.
Definition sd_path : str := slash_char :: sd_name.

Definition change_root (g : MountpointFs.mountpointfs -> exec (Z * MountpointFs.mountpointfs)) (s : system) : exec (Z * system) :=
  '(r, m) ← g (root (world s)); Done (r, set_world (set_root m (world s)) s).

(** Its first part, up to [setDevFs]; whether that is reached. *)
Definition mount_devices (devCount : Z) (memory : Z * Z) (s : system) : exec (bool * system) :=
  let '(id, devCount) := getFilesystemId devCount in
  let s := set_world (set_root (MountpointFs.construct id) (world s)) s in
  '(_, s) ← kmount PATH_MAX (Some root_path) (Some RootFs) s;
  '(r1, s) ← change_root (MountpointFs.mkdir dev_name) s;
  let '(id, devCount) := getFilesystemId devCount in
  d ← DevFs.construct id memory (DevFs.devices (devs (world s)));
  let s := set_world (set_devs d (world s)) s in
  '(r2, s) ← kmount PATH_MAX (Some dev_path) (Some DeviceFs) s;
  Done ((r1 =? 0) && (r2 =? 0), s).

(** The second, with [fat32failed]. *)
Definition mount_disk (dev : option positive) (s : system) : exec (bool * system) :=
  d ← (match dev with Some p => '(_, d) ← DevFs.addDevice (Some sda_name) (Some p) (devs (world s)); Done d | None => Done (devs (world s)) end);
  let s := set_world (set_devs d (world s)) s in
  '(r, disk) ← DevFs.open 1 sda_name MountpointFs.O_RDWR (devs (world s));
  if r <? 0 then Done (true, s)
  else
    let '(failed, x) := fat_mount disk (fat (world s)) in
    let s := set_world (set_fat x (world s)) s in
    if failed : bool then Done (true, s)
    else
      '(_, s) ← change_root (MountpointFs.mkdir sd_name) s;
      '(r, s) ← kmount PATH_MAX (Some sd_path) (Some Fat32) s;
      Done (negb (r =? 0), s).

(** Whether DevFs was given to the manager, [fat32failed], and the system. *)
Definition basicFilesystemSetup (devCount : Z) (memory : Z * Z) (dev : option positive) (s : system) : exec (bool * bool * system) :=
  '(given, s) ← mount_devices devCount memory s;
  if given : bool then '(failed, s) ← mount_disk dev s; Done (true, failed, s) else Done (false, false, s).

(** ** Paths of names *)
Lemma canon_join st : st <> [] -> canon st = slash_char :: join st.
Proof.
  induction st as [|c st IH]; intros Hne; [done|]. destruct st as [|d st]; [by cbn; rewrite app_nil_r|].
  rewrite join_cons by done. change (canon (c :: d :: st)) with ((slash_char :: c) ++ canon (d :: st)). by rewrite IH.
Qed.

Definition name_normal (c : str) : Prop := normal c /\ no_slash c.

Lemma resolve_normal s st follow :
  filesystems s !! root_path = Some RootFs -> Forall name_normal st -> st <> [] -> (length (canon st) <= PATH_MAX)%nat ->
  resolve PATH_MAX (canon st) follow s = Done (located (locate (filesystems s) RootFs st) st).
Proof.
  intros Hroot Hst Hne Hlen. rewrite canon_join in Hlen by done. cbn [length] in Hlen.
  assert (Hslash : Forall no_slash st) by (eapply Forall_impl; [exact Hst|]; by intros ? []).
  assert (Hnorm : Forall normal st) by (eapply Forall_impl; [exact Hst|]; by intros ? []).
  destruct (@resolve_means _ (system_view (world s)) PATH_MAX (filesystems s) RootFs PATH_MAX_small follow st (Found st)) as (r & Hr & Ho); [done..| |].
  - apply resolves_names; [done|done|]. apply resolves_end.
  - unfold resolve. change (view (world s)) with (system_view (world s)). rewrite canon_join by done. cbn [result_is] in Ho. by rewrite Hr, Ho.
Qed.

(** From a directory that is not a mount point, [..] leads to the one above. *)
Lemma resolve_parent s c follow :
  filesystems s !! root_path = Some RootFs -> filesystems s !! canon [c] = None -> name_normal c -> (length c + 4 <= PATH_MAX)%nat ->
  resolve PATH_MAX (canon [c] ++ slash_char :: dotdot_name) follow s = Done (Resolved RootFs 0, []).
Proof.
  intros Hroot Hm [Hn Hs] Hlen.
  destruct (@resolve_means _ (system_view (world s)) PATH_MAX (filesystems s) RootFs PATH_MAX_small follow [c; dotdot_name] (Found [])) as (r & Hr & Ho).
  - done.
  - repeat constructor; [done|]. unfold no_slash, dotdot_name. set_solver.
  - done.
  - rewrite join_cons by done. rewrite length_app. cbn [length join]. unfold dotdot_name. cbn [length]. lia.
  - eapply (@resolves_enter _ _ _ _ _ _ 0 0 []); [done|unfold mounted; cbn [app]; rewrite Hm; by intros [? ?]|by unfold visit|].
    apply (@resolves_up _ _ _ _ _ _ 0 [] c); [|apply resolves_end]. intros [_ [? Hc]]. cbn [app] in Hc. congruence.
  - unfold resolve. change (view (world s)) with (system_view (world s)). replace (canon [c] ++ slash_char :: dotdot_name) with (slash_char :: join [c; dotdot_name]) by (cbn; by rewrite app_nil_r).
    rewrite Hr. cbn [result_is] in Ho. by rewrite Ho.
Qed.

(** ** Mounting on a directory of the root *)
Lemma locate_one (s : system) c f : (if filesystems s !! canon [c] is Some g then g = f else RootFs = f) ->
  locate (filesystems s) RootFs [c] = (match filesystems s !! canon [c] with Some _ => 1%nat | None => 0%nat end, f).
Proof.
  intros Hf. unfold locate. cbn [rev app locate_rev]. destruct (filesystems s !! canon [c]) as [g|]; by subst.
Qed.

Lemma canon_one c : canon [c] = slash_char :: c.
Proof. cbn. by rewrite app_nil_r. Qed.

Lemma subpath_one c : subpath (canon [c]) 1 = c.
Proof. unfold subpath, string_part. rewrite firstn_all, canon_one. cbn [length]. by destruct (length c). Qed.

Lemma kmount_on (s : system) c i f :
  filesystems s !! root_path = Some RootFs -> filesystems s !! canon [c] = None -> name_normal c -> (length c + 4 <= PATH_MAX)%nat ->
  MountpointFs.dirs (root (world s)) !! c = Some i ->
  kmount PATH_MAX (Some (canon [c])) (Some f) s
  = Done (0, set_filesystems (<[canon [c] := f]> (filesystems s)) (setParentFsMountpointInode f MountpointFs.rootDirInode s)).
Proof.
  intros Hroot Hm Hc Hlen Hi. assert (Hne : c <> []) by apply Hc. unfold kmount.
  assert (Hr : resolve PATH_MAX (canon [c]) false s = Done (Resolved RootFs 1, canon [c])).
  { rewrite resolve_normal; [|done|by constructor|done|rewrite canon_one; cbn [length]; lia].
    rewrite (locate_one s c RootFs) by (by rewrite Hm). rewrite Hm. unfold located. cbn [fst snd take]. by rewrite canon_one. }
  replace (is_empty (Some (canon [c]))) with false by (by rewrite canon_one). cbn [deref mbind outcome_bind].
  destruct (Nat.ltb_spec PATH_MAX (length (canon [c]))) as [Hlt|_]; [rewrite canon_one in Hlt; cbn [length] in Hlt; lia|].
  replace (bool_decide (canon [c] = [slash_char])) with false by (symmetry; apply bool_decide_eq_false; rewrite canon_one; by intros [= ->]).
  cbn [andb]. unfold statHelper. rewrite Hr. cbn [mbind outcome_bind].
  assert (Hst : fs_lstat RootFs (subpath (canon [c]) 1) s = (0, mkStat 0x41ed i)).
  { rewrite subpath_one. unfold fs_lstat. cbn [view st_ino_of system_filesystems lstat system_view]. unfold MountpointFs.lstat.
    destruct c; [done|]. by rewrite Hi. }
  rewrite Hst. cbn [mbind outcome_bind]. change (negb (0 =? 0)) with false. cbv iota. cbn [deref mbind outcome_bind].
  change (negb (S_ISDIR (st_mode (mkStat 0x41ed i)))) with false. cbv iota.
  rewrite resolve_parent by done. cbn [mbind outcome_bind].
  change (fs_lstat RootFs (subpath [] 0) s) with (0, mkStat 0x41ed MountpointFs.rootDirInode). cbn [mbind outcome_bind].
  change (negb (0 =? 0)) with false. cbv iota. cbn [deref mbind outcome_bind]. rewrite decide_False; [done|].
  cbn [filesystems setParentFsMountpointInode]. rewrite Hm. by intros [? ?].
Qed.

Lemma kmount_root (s : system) : filesystems s = ∅ -> kmount PATH_MAX (Some root_path) (Some RootFs) s = Done (0, set_filesystems {[root_path := RootFs]} s) \/ (PATH_MAX < 1)%nat.
Proof.
  intros He. destruct (Nat.ltb_spec PATH_MAX 1) as [Hlt|Hle]; [by right|]. left. unfold kmount, root_path. cbn [is_empty deref mbind outcome_bind length].
  rewrite (proj2 (Nat.ltb_ge _ _)) by done. rewrite bool_decide_true by done. rewrite He, bool_decide_true by done. cbn [andb].
  rewrite decide_False; [done|]. rewrite lookup_empty. by intros [? ?].
Qed.

(** ** Files of devices *)
Definition with_devs (d : DevFs.devfs) (s : system) : system := set_world (set_devs d (world s)) s.

(** The path of a name in [/dev]. *)
Definition device_path (n : str) : str := canon [dev_name; n].

Lemma dev_name_normal : name_normal dev_name.
Proof. split; [by split_and!|]. unfold no_slash, dev_name, slash_char. set_solver. Qed.

Lemma subpath_device n : subpath (device_path n) 5 = n.
Proof.
  unfold subpath, string_part, device_path. rewrite firstn_all. change (canon [dev_name; n]) with ((slash_char :: dev_name) ++ slash_char :: n ++ []).
  rewrite app_nil_r. cbn. by destruct (length n).
Qed.

Lemma resolve_device (s : system) n follow :
  filesystems s !! root_path = Some RootFs -> filesystems s !! dev_path = Some DeviceFs -> filesystems s !! device_path n = None ->
  name_normal n -> (length n + 5 <= PATH_MAX)%nat ->
  resolve PATH_MAX (device_path n) follow s = Done (Resolved DeviceFs 5, device_path n).
Proof.
  intros Hroot Hdev Hn Hname Hlen. assert (Hpl : length (device_path n) = (5 + length n)%nat).
  { unfold device_path, canon. cbn. rewrite app_nil_r. lia. }
  unfold device_path at 1. rewrite resolve_normal; [|done|apply Forall_cons; split; [apply dev_name_normal|by apply Forall_singleton]|done|change (canon [dev_name; n]) with (device_path n); lia].
  unfold locate. cbn [rev app locate_rev]. change (canon [dev_name; n]) with (device_path n). rewrite Hn.
  change (canon [dev_name]) with dev_path. rewrite Hdev. unfold located. cbn [fst snd]. change (canon [dev_name; n]) with (device_path n).
  change (length (dir (take (length [dev_name]) [dev_name; n]))) with 5%nat. by rewrite Hpl.
Qed.

Lemma kmount_in_root (s : system) c i f m :
  (9 <= PATH_MAX)%nat -> filesystems s = m -> m !! root_path = Some RootFs -> m !! (slash_char :: c) = None -> name_normal c -> (length c <= 3)%nat ->
  MountpointFs.dirs (root (world s)) !! c = Some i ->
  kmount PATH_MAX (Some (slash_char :: c)) (Some f) s
  = Done (0, set_filesystems (<[slash_char :: c := f]> m) (setParentFsMountpointInode f MountpointFs.rootDirInode s)).
Proof.
  intros HP <- Hr Hm Hc Hl Hi. rewrite <- canon_one in *. apply (kmount_on s c i f); [done..|lia|done].
Qed.

(** The state after the setup, for the device of a disk and whether FAT32 mounts it. *)
Definition mounts (failed : bool) : gmap str fs_id :=
  let m := <[dev_path := DeviceFs]> {[root_path := RootFs]} in if failed then m else <[sd_path := Fat32]> m.

Definition same_files (s s' : system) : Prop := cwd s' = cwd s /\ files s' = files s /\ fileTables s' = fileTables s.

Lemma mount_devices_gives memory s :
  (9 <= PATH_MAX)%nat -> filesystems s = ∅ ->
  exists d x y s', mount_devices 1 memory s = Done (true, s') /\ same_files s s' /\ filesystems s' = mounts true /\
    world s' = mkWorld (MountpointFs.mkMountpointFs {[dev_name := 2]} 3 1) d (fat (world s)) /\
    DevFs.ok d /\ DevFs.inodeCount d <= 4 /\ DevFs.files d = <[DevFs.zero_name:=y]> {[DevFs.null_name:=x]} /\
    (forall p, is_Some (DevFs.devices (devs (world s)) !! p) -> is_Some (DevFs.devices d !! p)).
Proof.
  intros HP He. unfold mount_devices, getFilesystemId.
  destruct (kmount_root (set_world (set_root (MountpointFs.construct 1) (world s)) s) He) as [-> |?]; [|lia]. cbn [mbind outcome_bind].
  unfold change_root. cbn [world set_world set_filesystems root set_root].
  change (MountpointFs.mkdir dev_name (MountpointFs.construct 1)) with (Done (E := fault) (0, MountpointFs.mkMountpointFs {[dev_name := 2]} 3 1)). cbn [mbind outcome_bind].
  destruct (DevFs.construct_ok 2 memory (DevFs.devices (devs (world s)))) as (d & Hd & Hok & Hic).
  destruct (DevFs.construct_names 2 memory (DevFs.devices (devs (world s)))) as (d' & x & y & Hd' & Hfs & Hdevs).
  rewrite Hd in Hd'. injection Hd' as <-. cbn [world set_world set_root devs]. change (s32 (1 + 1)) with 2. rewrite Hd. cbn [mbind outcome_bind].
  set (s1 := set_world (set_devs d _) _).
  pose proof (kmount_in_root s1 dev_name 2 DeviceFs {[root_path := RootFs]} HP eq_refl eq_refl eq_refl dev_name_normal ltac:(done) eq_refl) as Hk.
  change (slash_char :: dev_name) with dev_path in Hk. rewrite Hk. cbn [mbind outcome_bind].
  exists d, x, y. eexists. split; [done|]. by split_and!.
Qed.

Lemma sd_name_normal : name_normal sd_name.
Proof. split; [by split_and!|]. unfold no_slash, sd_name, slash_char. set_solver. Qed.

Lemma mount_disk_gives dev s d :
  (9 <= PATH_MAX)%nat -> filesystems s = mounts true -> root (world s) = MountpointFs.mkMountpointFs {[dev_name := 2]} 3 1 -> devs (world s) = d ->
  DevFs.ok d -> DevFs.inodeCount d <= 4 -> DevFs.files d !! sda_name = None -> (forall p, dev = Some p -> is_Some (DevFs.devices d !! p)) ->
  exists failed s' d', mount_disk dev s = Done (failed, s') /\ same_files s s' /\ filesystems s' = mounts failed /\
    devs (world s') = d' /\ MountpointFs.dirs (root (world s')) = (if failed then {[dev_name := 2]} else <[sd_name := 3]> {[dev_name := 2]}) /\
    DevFs.ok d' /\ DevFs.inodeCount d' <= 5 /\
    match dev with
    | None => d' = d /\ failed = true
    | Some p => DevFs.files d' = <[sda_name := p]> (DevFs.files d) /\
        exists disk, DevFs.open 1 sda_name MountpointFs.O_RDWR d' = Done (0, Some disk) /\ failed = (fat_mount (Some disk) (fat (world s))).1
    end.
Proof.
  intros HP Hfs Hrt Hds Hok Hic Hsda Hdev. unfold mount_disk. destruct dev as [p|].
  - destruct (Hdev p eq_refl) as [dv Hdv].
    assert (Hn : Directories.name_ok sda_name) by (apply DevFs.ex_name_ok; reflexivity).
    destruct (DevFs.ok_add sda_name p d Hok ltac:(by exists dv) Hn ltac:(unfold DevFs.INT_MAX; lia)) as (r & d' & Hadd & Hok' & Hic').
    pose proof (DevFs.addDevice_new sda_name p dv d ltac:(done) eq_refl Hsda Hdv) as Hadd'. rewrite Hadd in Hadd'. injection Hadd' as -> Hd'.
    rewrite Hds, Hadd. cbn [mbind outcome_bind world set_world set_devs devs].
    assert (Hfiles : DevFs.files d' = <[sda_name := p]> (DevFs.files d)) by by rewrite Hd'.
    destruct (DevFs.lstat_known d' sda_name p Hok' ltac:(by rewrite Hfiles, lookup_insert_eq)) as (dv' & Hdv' & _ & _).
    assert (Hopen : DevFs.open 1 sda_name MountpointFs.O_RDWR d' = Done (0, Some (DevFs.Device (DevFs.device_open p dv' MountpointFs.O_RDWR)))).
    { unfold DevFs.open. cbn [sda_name]. change [115; 100; 97] with sda_name. rewrite Hfiles, lookup_insert_eq, Hdv'. done. }
    rewrite Hopen. cbn [mbind outcome_bind]. change (0 <? 0) with false. cbv iota.
    set (disk := DevFs.Device _) in *. change (fat (set_devs d' (world s))) with (fat (world s)).
    destruct (fat_mount (Some disk) (fat (world s))) as [failed x] eqn:Hfat. destruct failed.
    + eexists true, _, d'. split; [done|]. split_and!; try done; [cbn; by rewrite Hrt|lia|]. exists disk. by rewrite Hfat.
    + unfold change_root. cbn [world set_world set_fat root set_devs devs]. rewrite Hrt.
      change (MountpointFs.mkdir sd_name (MountpointFs.mkMountpointFs {[dev_name := 2]} 3 1))
        with (Done (E := fault) (0, MountpointFs.mkMountpointFs (<[sd_name := 3]> {[dev_name := 2]}) 4 1)). cbn [mbind outcome_bind].
      set (s1 := set_world (set_root _ _) _).
      pose proof (kmount_in_root s1 sd_name 3 Fat32 (mounts true) HP Hfs eq_refl eq_refl sd_name_normal ltac:(cbn; lia) eq_refl) as Hk.
      change (slash_char :: sd_name) with sd_path in Hk. rewrite Hk. cbn [mbind outcome_bind].
      eexists false, _, d'. split; [done|]. split_and!; try done; [lia|]. exists disk. by rewrite Hfat.
  - rewrite Hds. cbn [mbind outcome_bind world set_world set_devs devs]. unfold DevFs.open at 1. cbn [sda_name]. change [115; 100; 97] with sda_name.
    rewrite Hsda. cbn [mbind outcome_bind]. eexists true, _, d. split; [done|]. split_and!; try done; [cbn; by rewrite Hrt|lia].
Qed.

Lemma setup_gives memory dev s :
  (9 <= PATH_MAX)%nat -> filesystems s = ∅ -> (forall p, dev = Some p -> is_Some (DevFs.devices (devs (world s)) !! p)) ->
  exists failed s0, basicFilesystemSetup 1 memory dev s = Done (true, failed, s0) /\ filesystems s0 = mounts failed /\ cwd s0 = cwd s /\ files s0 = files s /\
    DevFs.ok (devs (world s0)) /\ DevFs.inodeCount (devs (world s0)) <= 5 /\
    (forall n, is_Some (DevFs.files (devs (world s0)) !! n) <-> n = DevFs.null_name \/ n = DevFs.zero_name \/ n = sda_name /\ dev <> None) /\
    (forall n, is_Some (MountpointFs.dirs (root (world s0)) !! n) <-> n = dev_name \/ n = sd_name /\ failed = false) /\
    match dev with
    | None => failed = true
    | Some _ => exists disk, DevFs.open 1 sda_name MountpointFs.O_RDWR (devs (world s0)) = Done (0, Some disk) /\ failed = (fat_mount (Some disk) (fat (world s))).1
    end.
Proof.
  intros HP He Hdev. destruct (mount_devices_gives memory s HP He) as (d & x & y & s1 & H1 & (Hc1 & Hf1 & _) & Hm1 & Hw1 & Hok1 & Hi1 & Hn1 & Hd1).
  destruct (mount_disk_gives dev s1 d HP Hm1 ltac:(by rewrite Hw1) ltac:(by rewrite Hw1) Hok1 Hi1 ltac:(by rewrite Hn1) ltac:(intros p Hp; by apply Hd1, Hdev))
    as (failed & s0 & d' & H2 & (Hc2 & Hf2 & _) & Hm2 & Hw2 & Hdirs & Hok2 & Hi2 & Hdev2).
  exists failed, s0. unfold basicFilesystemSetup. rewrite H1. cbn [mbind outcome_bind]. rewrite H2. cbn [mbind outcome_bind]. rewrite Hw2, Hc2, Hf2.
  split_and!; try done.
  - intros n. destruct dev as [p|]; [destruct Hdev2 as [Hfd _]; rewrite Hfd, Hn1, !lookup_insert_is_Some', lookup_singleton_is_Some|destruct Hdev2 as [-> _]; rewrite Hn1, !lookup_insert_is_Some', lookup_singleton_is_Some].
    all: naive_solver.
  - intros n. rewrite Hdirs. destruct failed; rewrite ?lookup_insert_is_Some', lookup_singleton_is_Some; naive_solver.
  - destruct dev as [p|]; [|apply Hdev2]. destruct Hdev2 as (_ & disk & Ho & Hfat). exists disk. split; [done|]. by rewrite Hfat, Hw1.
Qed.

(** ** The functions of the manager on a name of [/dev] *)
Section device.
Context (s : system) (failed : bool) (n : str).
Context (Hmounts : filesystems s = mounts failed) (Hok : DevFs.ok (devs (world s))) (Hn : name_normal n) (Hlen : (length n + 5 <= PATH_MAX)%nat).

Lemma mounts_device : filesystems s !! root_path = Some RootFs /\ filesystems s !! dev_path = Some DeviceFs /\ filesystems s !! device_path n = None.
Proof.
  rewrite Hmounts. assert (Hd : device_path n = slash_char :: dev_name ++ slash_char :: n) by (unfold device_path; cbn; by rewrite app_nil_r).
  split_and!; [by destruct failed|by destruct failed|]. rewrite Hd. unfold mounts. destruct failed.
  - by rewrite lookup_insert_ne, lookup_singleton_ne.
  - by rewrite !lookup_insert_ne, lookup_singleton_ne.
Qed.

Lemma resolve_in_dev follow : resolve PATH_MAX (device_path n) follow s = Done (Resolved DeviceFs 5, device_path n).
Proof. destruct mounts_device as (Hr & Hd & Hno). by apply resolve_device. Qed.

Lemma device_absolute d : absolutePath PATH_MAX d (device_path n) s = device_path n /\ device_path n <> [].
Proof.
  split; [|done]. unfold absolutePath. destruct (Nat.ltb_spec PATH_MAX (length (device_path n))) as [Hlt|_]; [|done].
  unfold device_path, canon in Hlt. cbn in Hlt. rewrite app_nil_r in Hlt. lia.
Qed.

Definition device_stat (r : option DevFs.device) : Z * stat :=
  match r with
  | Some dv => (0, mkStat (MountpointFs.st_mode (DevFs.device_fstat dv)) (DevFs.d_st_ino dv))
  | None => (- MountpointFs.ENOENT, mkStat 0 0)
  end.

Definition device_at : option DevFs.device := p ← DevFs.files (devs (world s)) !! n; DevFs.devices (devs (world s)) !! p.

Lemma device_at_known p : DevFs.files (devs (world s)) !! n = Some p -> exists dv, DevFs.devices (devs (world s)) !! p = Some dv /\ device_at = Some dv.
Proof. intros Hp. destruct (DevFs.known _ Hok n p Hp) as (dv & Hdv & _). exists dv. split; [done|]. unfold device_at. by rewrite Hp. Qed.

Lemma stat_device d follow : statImpl PATH_MAX d (Some (device_path n)) true follow s = Done (let '(r, st) := device_stat device_at in (r, Some st)).
Proof.
  destruct (device_absolute d) as [Ha Hne]. unfold statImpl. change (is_empty (Some (device_path n)) || negb true) with false. cbv iota.
  cbn [deref mbind outcome_bind]. rewrite Ha, decide_False by done. unfold statHelper. rewrite resolve_in_dev. cbn [mbind outcome_bind]. rewrite subpath_device.
  unfold fs_lstat. cbn [view st_ino_of system_filesystems lstat system_view]. unfold dev_lstat, device_at. destruct Hn as [[Hnn _] _].
  destruct (DevFs.files (devs (world s)) !! n) as [p|] eqn:Hp.
  - destruct (DevFs.lstat_known _ _ _ Hok Hp) as (dv & Hdv & _ & Hst). rewrite Hst. cbn [mbind option_bind]. by rewrite Hdv.
  - unfold DevFs.lstat. destruct n as [|c m]; [done|]. by rewrite Hp.
Qed.

Context (Hinv : inv s).

Lemma open_device t d flags mode :
  Z.land flags (Z.lor MountpointFs.O_APPEND DevFs.O_EXCL) = 0 ->
  exists r s', open PATH_MAX t d (Some (device_path n)) flags mode s = Done (r, s') /\
    match free_descriptor d s with
    | None => r = - ENFILE
    | Some i => match device_at with
                | Some _ => r = i /\ 3 <= i < MAX_OPEN_FILES /\ get (Files d i) (files s) = None /\ is_Some (get (Files d i) (files s'))
                | None => r = - MountpointFs.ENOENT /\ files s' = files s
                end
    end.
Proof.
  intros Hfl. destruct (device_absolute d) as [Ha Hne]. pose proof (free_descriptor_spec PATH_MAX d s) as Hfree. unfold open, open_begin.
  change (is_empty (Some (device_path n))) with false. cbv iota. cbn [deref mbind outcome_bind].
  destruct (free_descriptor d s) as [i|]; [|eexists _, _; by split]. rewrite Ha, decide_False by done. rewrite resolve_in_dev. cbn [mbind outcome_bind].
  rewrite subpath_device. unfold open_end. cbn [open_file system_filesystems].
  assert (Hopen : exists r o, DevFs.open 1 n flags (devs (world s)) = Done (r, o) /\
    match device_at with Some _ => r = 0 /\ is_Some o | None => r = - MountpointFs.ENOENT /\ o = None end).
  { unfold DevFs.open. rewrite Hfl. change (negb (0 =? 0)) with false. cbv iota. destruct Hn as [[Hnn _] _].
    destruct (DevFs.files (devs (world s)) !! n) as [p|] eqn:Hp.
    - destruct (device_at_known p Hp) as (dv & Hdv & ->). destruct n as [|c m]; [done|]. rewrite ?Hp, Hdv. cbn [deref mbind outcome_bind].
      eexists _, _. split; [done|]. split; [done|by eexists].
    - unfold device_at. rewrite ?Hp. destruct n as [|c m]; [done|]. rewrite ?Hp. by eexists _, _. }
  destruct Hopen as (r & o & -> & Hres). cbn [unless_fault]. destruct device_at as [dv|].
  - destruct Hres as [-> [g ->]]. cbn [file_opened]. destruct Hinv as [[Hc Hq] _].
    destruct (assign_new_ok nobody t (Files d i) (Some DeviceFs) (files (set_world (world s) s)) Hc Hq ltac:(done)) as (h & Hh & _ & Hp & _).
    rewrite Hh. cbn [mbind outcome_bind]. eexists _, _. split; [done|]. change (0 =? 0) with true. cbv iota. destruct Hfree as (Hi & Hnone & _).
    split_and!; [done|lia|lia|done|]. cbn [files set_files]. unfold get. rewrite Hp, lookup_set_pointer, decide_True by done. by eexists.
  - destruct Hres as [-> ->]. cbn [file_opened mbind outcome_bind]. eexists _, _. split; [done|]. by split.
Qed.

End device.

(** C16: [basicFilesystemSetup] mounts the directories, DevFs on [/dev], with
    [null], [zero], and [sda] if there is a disk, and FAT32 on [/sd] when it takes the
    disk; then, whatever devices are added, removed and renamed, [stat] of
    [/dev/name] finds exactly the devices that have a name, with their inode and
    mode, and [open] of it gives the lowest free descriptor to a file, or fails. *)
Theorem system_files memory dev s :
  (9 <= PATH_MAX)%nat -> inv s -> filesystems s = ∅ -> (forall p, dev = Some p -> is_Some (DevFs.devices (devs (world s)) !! p)) ->
  exists failed s0, basicFilesystemSetup 1 memory dev s = Done (true, failed, s0) /\ filesystems s0 = mounts failed /\
    (forall n, is_Some (DevFs.files (devs (world s0)) !! n) <-> n = DevFs.null_name \/ n = DevFs.zero_name \/ n = sda_name /\ dev <> None) /\
    (forall n, is_Some (MountpointFs.dirs (root (world s0)) !! n) <-> n = dev_name \/ n = sd_name /\ failed = false) /\
    match dev with
    | None => failed = true
    | Some _ => exists disk, DevFs.open 1 sda_name MountpointFs.O_RDWR (devs (world s0)) = Done (0, Some disk) /\ failed = (fat_mount (Some disk) (fat (world s))).1
    end /\
    forall xs, DevFs.run_ok xs (devs (world s0)) -> Z.of_nat (length xs) < DevFs.INT_MAX - 5 ->
      exists f, DevFs.run xs (devs (world s0)) = Done f /\
        forall n d, name_normal n -> (length n + 5 <= PATH_MAX)%nat ->
          (forall follow, statImpl PATH_MAX d (Some (device_path n)) true follow (with_devs f s0)
             = Done (let '(r, st) := device_stat (device_at (with_devs f s0) n) in (r, Some st))) /\
          (is_Some (device_at (with_devs f s0) n) <-> is_Some (DevFs.files f !! n)) /\
          (forall t flags mode, Z.land flags (Z.lor MountpointFs.O_APPEND DevFs.O_EXCL) = 0 ->
             exists r s', open PATH_MAX t d (Some (device_path n)) flags mode (with_devs f s0) = Done (r, s') /\
               match free_descriptor d s0 with
               | None => r = - ENFILE
               | Some i => match DevFs.files f !! n with
                           | Some _ => r = i /\ 3 <= i < MAX_OPEN_FILES /\ get (Files d i) (files s0) = None /\ is_Some (get (Files d i) (files s'))
                           | None => r = - MountpointFs.ENOENT /\ files s' = files s0
                           end
               end).
Proof.
  intros HP Hinv He Hdev. destruct (setup_gives memory dev s HP He Hdev) as (failed & s0 & Hrun & Hm & Hcwd & Hfiles & Hok & Hic & Hnames & Hdirs & Hdisk).
  exists failed, s0. split_and!; [done..|]. intros xs Hxs Hlen. destruct (DevFs.ok_run xs _ Hok Hxs ltac:(lia)) as (f & Hf & Hfok). exists f. split; [done|].
  intros n d Hn Hlen'. assert (Hinv0 : inv (with_devs f s0)) by (unfold inv, inv_held in *; cbn; by rewrite Hcwd, Hfiles).
  assert (Hat : is_Some (device_at (with_devs f s0) n) <-> is_Some (DevFs.files f !! n)).
  { split; [unfold device_at; cbn; destruct (DevFs.files f !! n); [done|by intros [? ?]]|].
    intros [p Hp]. destruct (device_at_known (with_devs f s0) n Hfok p Hp) as (dv & _ & ->). by eexists. }
  split_and!; [|done|].
  - intros follow. by apply (stat_device (with_devs f s0) failed).
  - intros t flags mode Hfl. destruct (open_device (with_devs f s0) failed n Hm Hfok Hn Hlen' Hinv0 t d flags mode Hfl) as (r & s' & Ho & Hr). exists r, s'. split; [done|].
    change (free_descriptor d (with_devs f s0)) with (free_descriptor d s0) in Hr. destruct (free_descriptor d s0) as [i|]; [|done].
    destruct (device_at (with_devs f s0) n), (DevFs.files f !! n); try done; [destruct Hat as [Hat _]|destruct Hat as [_ Hat]]; by destruct Hat.
Qed.

End setup.

(** ** FAT32 behind the interface

    The filesystem of Fat32, with the files and directories that are in use, on any implementation of FatFs. *)
Section fat32.
Context {volume : Type} `{Fat32.FatFs volume}.

Record fat_world := mkFat { fat_fs : Fat32.fat32fs (volume := volume); fat_objects : gmap positive Fat32.object }.
Definition set_fat_fs (f : Fat32.fat32fs) (w : fat_world) : fat_world := mkFat f (fat_objects w).

Definition fat_mode (st : option Fat32.stat) : Z := match st with Some st => Fat32.st_mode st | None => 0 end.
Definition fat_inode (st : option Fat32.stat) : Z := match st with Some st => Fat32.st_ino st | None => 0 end.

(** Where the next object is made. *)
Definition fat_new (w : fat_world) : positive := fresh (dom (fat_objects w) : gset positive).

#[export] Instance fat_filesystems : Filesystems unit fat_world := {
  view w := {|
    supportsSymlinks _ := false;
    lstat _ name := let '(r, st) := Fat32.lstat name (fat_fs w) in (r, fat_mode st);
    readlink _ _ := (- EINVAL, []);
  |};
  st_ino_of w _ name := fat_inode (Fat32.lstat name (fat_fs w)).2;
  open_file _ name flags _ w :=
    let p := fat_new w in
    let '(r, o, f) := Fat32.open p name flags (fat_fs w) in
    match o with
    | Some o => (r, Some (Some ()), mkFat f (<[p:=o]> (fat_objects w)))
    | None => (r, None, set_fat_fs f w)
    end;
  unlink_file _ name w := let '(r, f) := Fat32.unlink name (fat_fs w) in (r, set_fat_fs f w);
  rename_file _ a b w := let '(r, f) := Fat32.rename a b (fat_fs w) in (r, set_fat_fs f w);
  make_dir _ name _ w := let '(r, f) := Fat32.mkdir name (fat_fs w) in (r, set_fat_fs f w);
  remove_dir _ name w := let '(r, f) := Fat32.rmdir name (fat_fs w) in (r, set_fat_fs f w);
}.

(** [new Fat32Fs(disk)] and [mountFailed]. *)
Definition fat32_mount (id : Z) (disk : option DevFs.file) (w : fat_world) : bool * fat_world :=
  let f := Fat32.construct id (Fat32.filesystem (fat_fs w)) in (Fat32.failed f, mkFat f ∅).

End fat32.

(** ** An example

    FAT32 on a volume with a directory and three files. *)
#[local] Existing Instance Fat32.ex_fatfs.
Definition ex_fat : fat_world := mkFat (Fat32.mkFs true 0 0 Fat32.ex_v) ∅.
Definition ex_mount : option DevFs.file -> fat_world (volume := Fat32.ex_volume) -> bool * fat_world := fat32_mount 3.

(** A disk is there when the system starts. *)
Definition ex_boot : FileAccess.system (F := fs_id) (W := fs_world) :=
  boot (mkWorld (MountpointFs.construct 0) (DevFs.new_device 1 (0, 0) DevFs.BLOCK (DevFs.mkDevFs ∅ ∅ 2 0)) ex_fat).

Lemma ex_small : Z.of_nat 255 < 2 ^ 30.
Proof. reflexivity. Qed.

Definition ex_stat (n : str) : option (Z * option stat) :=
  match basicFilesystemSetup 255 ex_mount 1 (0, 0) (Some 1%positive) ex_boot with
  | Done (_, _, s) => match statImpl 255 0 (Some (codes "/dev/./" ++ n)) true true s with Done r => Some r | Fault _ => None end
  | Fault _ => None
  end.

Example ex_stat_sda : ex_stat (codes "../dev/sda") = Some (0, Some (mkStat 0x61e8 4)).
Proof. vm_compute. reflexivity. Qed.
Example ex_stat_fat : ex_stat (codes "../sd/f") = Some (0, Some (mkStat 0x81ed 6)).
Proof. vm_compute. reflexivity. Qed.
Example ex_stat_none : ex_stat (codes "sdb") = Some (- MountpointFs.ENOENT, Some (mkStat 0 0)).
Proof. vm_compute. reflexivity. Qed.

Lemma system_files_witness :
  exists failed s0, basicFilesystemSetup 255 ex_mount 1 (0, 0) (Some 1%positive) ex_boot = Done (true, failed, s0) /\ filesystems s0 = mounts failed.
Proof.
  destruct (system_files 255 ex_small ex_mount (0, 0) (Some 1%positive) ex_boot) as (failed & s0 & Hr & Hm & _).
  - lia.
  - apply boot_inv.
  - reflexivity.
  - intros p [= <-]. vm_compute. by eexists.
  - exists failed, s0. exact (conj Hr Hm).
Defined.

End SystemSetup.
