(* ===== verification/Guards.v ===== *)
(** * Objects initialized once

    [__cxa_guard_acquire], [__cxa_guard_release] and [__cxa_guard_abort] of
    [stdlib_integration/libstdcpp_integration.cpp], which the compiler calls
    around the construction of an object with static storage duration inside a
    function, and [pthread_once] of [kernel/pthread.cpp].  Both read and write their word with
    interrupts disabled, and yield in a loop while another thread is at it. *)
From S2P Require Import Prelude Errors Threads Scheduler PriorityScheduler.

Local Open Scope Z_scope.

Module Guards.

(** ** The words

    [union MiosixGuard] is one word, [flag] or the pointer to the thread
    [owner]; [pthread_once_t] has the word [init_executed].  They are zero at
    first; here, a map by address. *)
Abbreviation guards := (gmap Z Z).
Definition flag (g : Z) (w : guards) : Z := default 0 (w !! g).

(** Pointers to threads are not null and are aligned. *)
Definition thread_pointer (t : Z) : Prop := 0 < t < 2 ^ 32 /\ t mod 2 = 0.

(** What one turn of the loop ends with: a returned value (1 to
    construct), the yield, or a function that does not return. *)
Inductive turn := Returns (result : Z) | Yields | RecursiveInit | ErrorHandler (e : Error).

(** ** The interface

    The operations: a turn of the loop, what follows a constructor that returns, and one that
    throws.  The laws: there is a word for an object that is ready, and one for
    an object under construction, by thread; a turn goes by the word, and some find out that
    the thread is the one that is constructing. *)
Class OnceOps := {
  acquire : Z -> Z -> guards -> turn * guards;
  release : Z -> guards -> guards;
  abort : Z -> guards -> guards;
  busy_word : Z -> Z;
  ready_word : Z;
  finds_recursion : bool;
}.

Class OnceLaws `{OnceOps} := {
  ready_not_fresh : ready_word <> 0;
  busy_word_ok t : thread_pointer t -> busy_word t <> 0 /\ busy_word t <> ready_word;
  busy_word_inj t t' : finds_recursion = true -> thread_pointer t -> thread_pointer t' -> busy_word t = busy_word t' -> t = t';
  acquire_ready t g w : flag g w = ready_word -> acquire t g w = (Returns 0, w);
  acquire_fresh t g w : thread_pointer t -> flag g w = 0 -> acquire t g w = (Returns 1, <[g := busy_word t]> w);
  acquire_busy t t' g w : thread_pointer t -> thread_pointer t' -> flag g w = busy_word t' ->
    acquire t g w = (if finds_recursion && (busy_word t =? busy_word t') then RecursiveInit else Yields, w);
  release_ready g w : release g w = <[g := ready_word]> w;
  abort_fresh g w : abort g w = <[g := 0]> w;
}.

(** ** Static objects *)
Definition cxa_guard_acquire (currentThread g : Z) (w : guards) : turn * guards :=
  if flag g w =? 1 then (Returns 0, w)
  else if flag g w =? 0 then
    let w := <[g := currentThread]> w in
    if negb (Z.land (flag g w) 1 =? 0) then (ErrorHandler UNEXPECTED, w) else (Returns 1, w)
  else if flag g w =? currentThread then (RecursiveInit, w)
  else (Yields, w).

Definition cxa_guard_release (g : Z) (w : guards) : guards := <[g := 1]> w.
Definition cxa_guard_abort (g : Z) (w : guards) : guards := <[g := 0]> w.

(** ** [pthread_once]

    After the checks of the arguments, with a valid pointer and a function,
    whether it goes on; then a turn of the loop, which returns at once, calls the function, or yields. *)
Definition EINVAL : Z := 22.
Definition pthread_once_check (once func : bool) (is_initialized : Z) : option Z :=
  if negb once || negb func || negb (is_initialized =? 1) then Some EINVAL else None.

Definition pthread_once_turn (_ once : Z) (init_executed : guards) : turn * guards :=
  if flag once init_executed =? 0 then (Returns 1, <[once := 1]> init_executed)
  else if flag once init_executed =? 1 then (Yields, init_executed)
  else (Returns 0, init_executed).

Definition pthread_once_succeeded (once : Z) (init_executed : guards) : guards := <[once := 2]> init_executed.
Definition pthread_once_failed (once : Z) (init_executed : guards) : guards := <[once := 0]> init_executed.

Lemma flag_insert g g' v w : flag g (<[g' := v]> w) = if decide (g = g') then v else flag g w.
Proof.
  unfold flag. case_decide; subst; [by rewrite lookup_insert_eq|by rewrite lookup_insert_ne].
Qed.

Lemma thread_pointer_word t : thread_pointer t -> t <> 0 /\ t <> 1 /\ Z.land t 1 = 0.
Proof.
  intros [Ht Hm]. split_and!; [lia| |].
  - intros ->. done.
  - change 1 with (Z.ones 1). by rewrite Z.land_ones.
Qed.

Definition cxa_ops : OnceOps := {|
  acquire := cxa_guard_acquire; release := cxa_guard_release; abort := cxa_guard_abort;
  busy_word t := t; ready_word := 1; finds_recursion := true;
|}.

Lemma cxa_laws : @OnceLaws cxa_ops.
Proof.
  split; cbn [acquire release abort busy_word ready_word finds_recursion cxa_ops]; try done; unfold cxa_guard_acquire.
  - intros t (? & ? & _)%thread_pointer_word. done.
  - by intros t g w ->.
  - intros t g w (_ & _ & Hl)%thread_pointer_word ->. rewrite flag_insert, decide_True, Hl by done. done.
  - intros t t' g w _ (? & ? & _)%thread_pointer_word ->.
    destruct (Z.eqb_spec t' 1), (Z.eqb_spec t' 0); try done. rewrite (Z.eqb_sym t t'). by destruct (t' =? t).
Qed.

Definition pthread_ops : OnceOps := {|
  acquire := pthread_once_turn; release := pthread_once_succeeded; abort := pthread_once_failed;
  busy_word _ := 1; ready_word := 2; finds_recursion := false;
|}.

Lemma pthread_laws : @OnceLaws pthread_ops.
Proof.
  split; cbn [acquire release abort busy_word ready_word finds_recursion pthread_ops]; try done; unfold pthread_once_turn.
  - by intros t g w ->.
  - by intros t g w _ ->.
  - by intros t t' g w _ _ ->.
Qed.

(** ** The threads around it

    A thread that gets to an object calls [acquire]; when it returns 1 it runs
    the constructor, which can use other objects, then [release], or [abort]
    if it throws.  A thread has the objects it is constructing, the innermost
    first, and the one it waits for when it has yielded. *)
Record system := System {
  words : guards;
  constructing : gmap Z (list Z);
  waiting : gmap Z Z;
  up : bool;                       (**r the system has not been stopped *)
}.

Definition stack (t : Z) (s : system) : list Z := default [] (constructing s !! t).

Inductive act :=
| Use (t g : Z)                    (**r a thread gets to the use of an object *)
| Again (t : Z)                    (**r a thread that yielded runs again *)
| Built (t : Z)                    (**r the innermost constructor of a thread returns *)
| Threw (t : Z).                   (**r or throws *)

(** What can be seen of it. *)
Inductive event :=
| Begins (t g : Z) | Ends (t g : Z) | Throws (t g : Z) | Gets (t g : Z) | Waits (t g : Z)
| Recursion (t g : Z) | Misaligned (t g : Z).

#[export] Instance event_eq_dec : EqDecision event.
Proof. solve_decision. Defined.

Definition leave (t : Z) (gs : list Z) (w : guards) (s : system) : system :=
  System w (<[t := gs]> (constructing s)) (waiting s) true.

Definition resume (t : Z) (s : system) : system :=
  System (words s) (constructing s) (delete t (waiting s)) true.

Definition start : system := System ∅ ∅ ∅ true.

Definition actor (a : act) : Z := match a with Use t _ | Again t | Built t | Threw t => t end.

Definition event_guard (e : event) : Z :=
  match e with
  | Begins _ g | Ends _ g | Throws _ g | Gets _ g | Waits _ g | Recursion _ g | Misaligned _ g => g
  end.

(** ** An object that is initialized once

    It is fresh, under construction by a thread, or ready; [once] says which events are right in each
    state, and where they lead.  With [found], a thread does not wait for itself. *)
Inductive object := Fresh | Busy (t : Z) | Ready.

#[export] Instance object_eq_dec : EqDecision object.
Proof. solve_decision. Defined.

Definition once (found : bool) (e : event) (o : object) : option object :=
  match e, o with
  | Begins t _, Fresh => Some (Busy t)
  | Ends t _, Busy t' => if decide (t = t') then Some Ready else None
  | Throws t _, Busy t' => if decide (t = t') then Some Fresh else None
  | Gets _ _, Ready => Some Ready
  | Waits t _, Busy t' => if decide (t = t' /\ found = true) then None else Some (Busy t')
  | Recursion t _, Busy t' => if decide (t = t' /\ found = true) then Some (Busy t') else None
  | _, _ => None
  end.

(** The events of one object, one after the other. *)
Fixpoint history (found : bool) (g : Z) (es : list event) (o : object) : option object :=
  match es with
  | [] => Some o
  | e :: es => if decide (event_guard e = g) then o ← once found e o; history found g es o else history found g es o
  end.

#[export] Instance ends_dec g e : Decision (exists t, e = Ends t g).
Proof.
  destruct e as [| t g' | | | | |]; try (right; by intros [? ?]).
  destruct (decide (g' = g)) as [->|Hg]; [left; by exists t|right; intros [? ?]; congruence].
Defined.

(** Once it is ready, an object stays ready: a constructor returns at most once. *)
Lemma history_ready b g es o : history b g es Ready = Some o -> filter (fun e => exists t, e = Ends t g) es = [].
Proof.
  induction es as [|e es IH]; intros Hh; [done|]. cbn [history] in Hh. destruct (decide (event_guard e = g)) as [He|He].
  - destruct e; simpl in *; try done. rewrite filter_cons_False; [by apply IH|]. by intros [? ?].
  - rewrite filter_cons_False; [by apply IH|]. intros [t ->]. by apply He.
Qed.

Lemma history_ends_once b g es o o' : history b g es o = Some o' ->
  (length (filter (fun e => exists t, e = Ends t g) es) <= 1)%nat.
Proof.
  revert o. induction es as [|e es IH]; intros o Hh; [simpl; lia|]. cbn [history] in Hh.
  destruct (decide (exists t, e = Ends t g)) as [Hend|Hend].
  - rewrite filter_cons_True by done. destruct Hend as [t ->]. rewrite decide_True in Hh by done.
    destruct o; simpl in Hh; try done. case_decide; [|done]. simpl in Hh.
    rewrite (history_ready b g es o' Hh). simpl. lia.
  - rewrite filter_cons_False by done. case_decide; [|by eapply IH]. inv_bind. by eapply IH.
Qed.

Lemma history_one b g e o : history b g [e] o = if decide (event_guard e = g) then once b e o else Some o.
Proof. simpl. case_decide; [|done]. by destruct (once b e o). Qed.

Lemma history_cons b g e es o : history b g (e :: es) o = history b g [e] o ≫= history b g es.
Proof. simpl. case_decide; [|done]. by destruct (once b e o). Qed.

Lemma stack_insert t t' gs s w wt u :
  stack t (System w (<[t' := gs]> (constructing s)) wt u) = if decide (t = t') then gs else stack t s.
Proof.
  unfold stack. simpl. case_decide; subst; [by rewrite lookup_insert_eq|by rewrite lookup_insert_ne].
Qed.

(** ** Any implementation of the interface *)
Section once.
Context {O : OnceOps} {L : OnceLaws}.

Definition enter (t g : Z) (s : system) : event * system :=
  let '(r, w) := acquire t g (words s) in
  match r with
  | Returns n =>
      if n =? 0 then (Gets t g, System w (constructing s) (waiting s) true)
      else (Begins t g, System w (<[t := g :: stack t s]> (constructing s)) (waiting s) true)
  | Yields => (Waits t g, System w (constructing s) (<[t := g]> (waiting s)) true)
  | RecursiveInit => (Recursion t g, System w (constructing s) (waiting s) false)
  | ErrorHandler _ => (Misaligned t g, System w (constructing s) (waiting s) false)
  end.

(** An action of a thread, if it is at the place for it. *)
Definition step (a : act) (s : system) : option (event * system) :=
  if up s then
    match a with
    | Use t g => match waiting s !! t with None => Some (enter t g s) | Some _ => None end
    | Again t => match waiting s !! t with Some g => Some (enter t g (resume t s)) | None => None end
    | Built t =>
        match waiting s !! t, stack t s with
        | None, g :: gs => Some (Ends t g, leave t gs (release g (words s)) s)
        | _, _ => None
        end
    | Threw t =>
        match waiting s !! t, stack t s with
        | None, g :: gs => Some (Throws t g, leave t gs (abort g (words s)) s)
        | _, _ => None
        end
    end
  else None.

Fixpoint run (acts : list act) (s : system) : option (list event * system) :=
  match acts with
  | [] => Some ([], s)
  | a :: acts =>
      '(e, s) ← step a s;
      '(es, s) ← run acts s;
      Some (e :: es, s)
  end.

(** The object that a word and the stacks of the threads stand for. *)
Definition is_object (s : system) (g : Z) (o : object) : Prop :=
  match o with
  | Fresh => flag g (words s) = 0 /\ forall t, thread_pointer t -> g ∉ stack t s
  | Busy t => flag g (words s) = busy_word t /\ thread_pointer t /\ forall t', thread_pointer t' -> g ∈ stack t' s <-> t' = t
  | Ready => flag g (words s) = ready_word /\ forall t, thread_pointer t -> g ∉ stack t s
  end.

Definition inv (s : system) : Prop := (forall g, exists o, is_object s g o) /\ forall t, NoDup (stack t s).

Lemma is_object_ext s s' g o : flag g (words s') = flag g (words s) -> (forall t, g ∈ stack t s' <-> g ∈ stack t s) ->
  is_object s g o -> is_object s' g o.
Proof. intros Hw Hc. destruct o; simpl; rewrite Hw; setoid_rewrite Hc; done. Qed.

Lemma inv_ext s s' : words s' = words s -> constructing s' = constructing s -> inv s -> inv s'.
Proof.
  intros Hw Hc [H1 H2]. split; [|intros t; unfold stack in *; by rewrite Hc].
  intros g. destruct (H1 g) as [o Ho]. exists o. eapply is_object_ext; [by rewrite Hw| |done].
  intros t. unfold stack. by rewrite Hc.
Qed.

Lemma inv_start : inv start /\ forall g, is_object start g Fresh.
Proof.
  assert (forall g, is_object start g Fresh) as H.
  { intros g. split; [done|]. intros t _. unfold stack, start. simpl. rewrite lookup_empty. by intros ?%elem_of_nil. }
  split; [|done]. split; [eauto|]. intros t. unfold stack, start. simpl. rewrite lookup_empty. constructor.
Qed.

(** The branches of [acquire]. *)
Lemma enter_cases t g s o : thread_pointer t -> is_object s g o ->
  match o with
  | Ready => enter t g s = (Gets t g, System (words s) (constructing s) (waiting s) true)
  | Fresh => enter t g s = (Begins t g, System (<[g := busy_word t]> (words s)) (<[t := g :: stack t s]> (constructing s)) (waiting s) true)
  | Busy t' =>
      if decide (t = t' /\ finds_recursion = true) then enter t g s = (Recursion t g, System (words s) (constructing s) (waiting s) false)
      else enter t g s = (Waits t g, System (words s) (constructing s) (<[t := g]> (waiting s)) true)
  end.
Proof.
  intros Ht. unfold enter. destruct o as [|t'|]; simpl.
  - intros [Hf _]. by rewrite acquire_fresh.
  - intros (Hf & Ht' & _). rewrite (acquire_busy t t') by done. case_decide as Hd.
    + destruct Hd as [-> ->]. by rewrite Z.eqb_refl.
    + destruct finds_recursion eqn:Hr; [|done]. simpl. destruct (Z.eqb_spec (busy_word t) (busy_word t')) as [He|]; [|done].
      destruct Hd. split; [|done]. by apply busy_word_inj.
  - intros [Hf _]. by rewrite acquire_ready.
Qed.

(** One action, seen from any object: the event is one that [once] allows, and leads to the new object. *)
Definition seen (e : event) (s s' : system) : Prop :=
  forall g o, is_object s g o -> exists o', history finds_recursion g [e] o = Some o' /\ is_object s' g o'.

Lemma seen_inv e s s' : inv s -> seen e s s' -> (forall t, NoDup (stack t s')) -> inv s'.
Proof.
  intros [H1 _] Hseen Hn. split; [|done]. intros g. destruct (H1 g) as [o Ho].
  destruct (Hseen g o Ho) as (o' & _ & Ho'). eauto.
Qed.

(** An event that changes only the object [g]. *)
Lemma seen_at e s s' g o o' : event_guard e = g -> is_object s g o -> (forall o1, is_object s g o1 -> o1 = o) ->
  once finds_recursion e o = Some o' -> is_object s' g o' ->
  (forall g', g' <> g -> flag g' (words s') = flag g' (words s) /\ forall t, g' ∈ stack t s' <-> g' ∈ stack t s) -> seen e s s'.
Proof.
  intros <- Ho Hu Hs Ho' Hother g' o1 Ho1. rewrite history_one. case_decide as Hg.
  - subst g'. rewrite (Hu o1 Ho1). eauto.
  - exists o1. split; [done|]. destruct (Hother g' ltac:(congruence)). by eapply is_object_ext.
Qed.

Lemma is_object_unique s g o o' : is_object s g o -> is_object s g o' -> o = o'.
Proof.
  pose proof ready_not_fresh.
  destruct o as [|t|], o' as [|t'|]; simpl; intros H1 H2; destruct H1 as [? H1], H2 as [? H2];
    try destruct H1 as [Ht H1]; try destruct H2 as [Ht' H2];
    try (pose proof (busy_word_ok t Ht)); try (pose proof (busy_word_ok t' Ht'));
    try done; try (exfalso; lia). f_equal. by apply H2, H1.
Qed.

(** A thread begins: the fresh object is its own. *)
Lemma begin_seen t g s : thread_pointer t -> is_object s g Fresh ->
  seen (Begins t g) s (System (<[g := busy_word t]> (words s)) (<[t := g :: stack t s]> (constructing s)) (waiting s) true).
Proof.
  intros Ht Ho. eapply (seen_at _ _ _ g Fresh (Busy t)); try done.
  - intros o1 Ho1. by eapply is_object_unique.
  - destruct Ho as [_ Hn]. split; [cbn [words]; by rewrite flag_insert, decide_True|]. split; [done|].
    intros t' Ht'. rewrite stack_insert. case_decide as Hd; [rewrite elem_of_cons; tauto|].
    split; [|done]. by intros ?%Hn.
  - intros g' Hg'. cbn [words]. rewrite flag_insert, decide_False by done. split; [done|].
    intros t'. rewrite stack_insert. case_decide; subst; [|done]. rewrite elem_of_cons. tauto.
Qed.

(** It leaves the innermost constructor. *)
Lemma leave_seen e t g gs v s o : thread_pointer t -> inv s -> stack t s = g :: gs -> event_guard e = g ->
  once finds_recursion e (Busy t) = Some o -> (o = Fresh /\ v = 0 \/ o = Ready /\ v = ready_word) ->
  seen e s (leave t gs (<[g := v]> (words s)) s) /\ NoDup gs.
Proof.
  intros Ht [Ho Hn] Hst He Honce Hv. specialize (Hn t). rewrite Hst in Hn. apply NoDup_cons in Hn as [Hng Hn].
  split; [|done]. assert (g ∈ stack t s) as Hin by (rewrite Hst; apply elem_of_cons; auto).
  assert (is_object s g (Busy t)) as Hb.
  { destruct (Ho g) as [[|t'|] Hg]; [by destruct (proj2 Hg t Ht)| |by destruct (proj2 Hg t Ht)].
    destruct Hg as (Hf & Ht' & Hs). apply Hs in Hin as Heq; [|done]. subst t'. done. }
  assert (forall t', thread_pointer t' -> g ∉ stack t' (leave t gs (<[g := v]> (words s)) s)) as Hout.
  { intros t' Ht'. unfold leave. rewrite stack_insert. case_decide; [done|]. destruct Hb as (_ & _ & Hb).
    by intros ?%Hb. }
  eapply (seen_at e s _ g (Busy t) o); try done.
  - intros o1 Ho1. by eapply is_object_unique.
  - destruct Hv as [[-> ->]|[-> ->]]; (split; [|done]); unfold leave; cbn [words]; by rewrite flag_insert, decide_True.
  - intros g' Hg'. unfold leave. cbn [words]. rewrite flag_insert, decide_False by done. split; [done|].
    intros t'. rewrite stack_insert. case_decide; subst; [|done]. rewrite Hst, elem_of_cons. tauto.
Qed.

Lemma enter_ok t g s : thread_pointer t -> inv s ->
  inv (enter t g s).2 /\ seen (enter t g s).1 s (enter t g s).2.
Proof.
  intros Ht Hinv. destruct (proj1 Hinv g) as [o Ho]. pose proof (enter_cases t g s o Ht Ho) as He.
  assert (forall e w u, event_guard e = g -> once finds_recursion e o = Some o ->
    let s' := System (words s) (constructing s) w u in inv s' /\ seen e s s') as Hsame.
  { intros e w u Hg Honce. split; [by apply (inv_ext s)|]. eapply (seen_at e s _ g o o); try done.
    intros o1 Ho1. by eapply is_object_unique. }
  destruct o as [|t'|].
  - rewrite He. pose proof (begin_seen t g s Ht Ho) as Hs. split; [|done]. apply (seen_inv _ _ _ Hinv Hs).
    intros t'. rewrite stack_insert. case_decide; subst; [|apply Hinv]. constructor; [by apply Ho|apply Hinv].
  - case_decide as Hd; rewrite He; apply Hsame; try done; simpl; [by rewrite decide_True|by rewrite decide_False].
  - rewrite He. by apply Hsame.
Qed.

Lemma leave_ok e t g gs v s o : thread_pointer t -> inv s -> stack t s = g :: gs -> event_guard e = g ->
  once finds_recursion e (Busy t) = Some o -> (o = Fresh /\ v = 0 \/ o = Ready /\ v = ready_word) ->
  let s' := leave t gs (<[g := v]> (words s)) s in inv s' /\ seen e s s'.
Proof.
  intros Ht Hi Hst He Ho Hv. destruct (leave_seen e t g gs v s o Ht Hi Hst He Ho Hv) as [Hs Hn].
  split; [|done]. apply (seen_inv _ _ _ Hi Hs). intros t'. unfold leave. rewrite stack_insert.
  case_decide; [done|apply Hi].
Qed.

Lemma guard_step_ok a s e s' : thread_pointer (actor a) -> inv s -> step a s = Some (e, s') -> inv s' /\ seen e s s'.
Proof.
  intros Ht Hinv Hs. unfold step in Hs. destruct (up s); [|done]. destruct a as [t g|t|t|t]; simpl in Ht.
  - destruct (waiting s !! t); [done|]. injection Hs as Hs.
    pose proof (enter_ok t g s Ht Hinv) as Hok. by rewrite Hs in Hok.
  - destruct (waiting s !! t) as [g|]; [|done]. injection Hs as Hs.
    destruct (enter_ok t g (resume t s) Ht (inv_ext s (resume t s) eq_refl eq_refl Hinv)) as [H1 H2].
    rewrite Hs in H1, H2. split; [done|]. intros g' o Ho. by apply H2.
  - destruct (waiting s !! t); [done|]. destruct (stack t s) as [|g gs] eqn:Hst; [done|]. simplify_eq.
    rewrite release_ready. eapply (leave_ok (Ends t g) t g gs); try done; [|by right]. simpl. by rewrite decide_True.
  - destruct (waiting s !! t); [done|]. destruct (stack t s) as [|g gs] eqn:Hst; [done|]. simplify_eq.
    rewrite abort_fresh. eapply (leave_ok (Throws t g) t g gs); try done; [|by left]. simpl. by rewrite decide_True.
Qed.

Lemma guard_run_ok acts s es s' : Forall (fun a => thread_pointer (actor a)) acts -> inv s -> run acts s = Some (es, s') ->
  inv s' /\ forall g o, is_object s g o -> exists o', history finds_recursion g es o = Some o' /\ is_object s' g o'.
Proof.
  intros Ha. revert s es. induction Ha as [|a acts Ht _ IH]; intros s es Hinv Hr.
  - cbn in Hr. simplify_eq. split; [done|]. intros g o Ho. by exists o.
  - cbn [run] in Hr. destruct (step a s) as [[e s1]|] eqn:Hs; [|done].
    cbn [mbind option_bind] in Hr. destruct (run acts s1) as [[es1 s2]|] eqn:Hr1; [|done].
    cbn in Hr. simplify_eq. destruct (guard_step_ok a s e s1 Ht Hinv Hs) as [Hinv1 Hseen].
    destruct (IH s1 es1 Hinv1 Hr1) as [Hinv2 Hh]. split; [done|]. intros g o Ho.
    destruct (Hseen g o Ho) as (o1 & Ho1 & Hi1). rewrite history_cons, Ho1. by apply Hh.
Qed.

(** ** Progress

    When the objects that constructors use can be ordered, waiting threads wait
    for one that does not. *)
Section progress.
Context (rank : Z -> nat).

Definition ordered (a : act) (s : system) : Prop :=
  match a with Use t g => forall h, h ∈ stack t s -> (rank g < rank h)%nat | _ => True end.

Inductive reachable : system -> Prop :=
| reachable_start : reachable start
| reachable_step a s e s' :
    reachable s -> thread_pointer (actor a) -> ordered a s -> step a s = Some (e, s') -> reachable s'.

(** A thread waits for an object that the other one is constructing. *)
Definition waits_for (s : system) (t t' : Z) : Prop := exists g, waiting s !! t = Some g /\ g ∈ stack t' s.

(** A thread that is not waiting, or whose next turn of the loop gets or begins
    the object. *)
Definition can_go_on (t : Z) (s : system) : Prop :=
  waiting s !! t = None \/
  exists g s', waiting s !! t = Some g /\ (step (Again t) s = Some (Gets t g, s') \/ step (Again t) s = Some (Begins t g, s')).

Record rinv (s : system) : Prop := Rinv {
  rinv_inv : inv s;
  rinv_up : up s = true;
  rinv_wait t g : waiting s !! t = Some g -> thread_pointer t /\ forall h, h ∈ stack t s -> (rank g < rank h)%nat;
}.

Lemma rinv_enter t g s : thread_pointer t -> inv s -> up s = true ->
  (forall h, h ∈ stack t s -> (rank g < rank h)%nat) -> waiting s !! t = None ->
  (forall t' g', waiting s !! t' = Some g' -> thread_pointer t' /\ forall h, h ∈ stack t' s -> (rank g' < rank h)%nat) ->
  rinv (enter t g s).2.
Proof.
  intros Ht Hinv Hup Hrank Hwt Hw. pose proof (enter_ok t g s Ht Hinv) as [Hi _].
  destruct (proj1 Hinv g) as [o Ho]. pose proof (enter_cases t g s o Ht Ho) as He.
  assert (o <> Busy t) as Hself.
  { intros ->. destruct Ho as (_ & _ & Hin). specialize (Hrank g (proj2 (Hin t Ht) eq_refl)). lia. }
  split; [done|..]; (destruct o as [|t'|]; [|case_decide as Hd; [by destruct Hself, Hd; subst|]|]; rewrite He); try done.
  - cbn [snd waiting]. intros t1 g1 H1. rewrite stack_insert. rewrite decide_False; [by apply Hw|congruence].
  - intros t1 g1. cbn [snd waiting]. intros [[<- <-]|[_ H1]]%lookup_insert_Some; [done|]. by apply (Hw t1 g1).
Qed.

Lemma rinv_leave e t g gs v s o : thread_pointer t -> rinv s -> stack t s = g :: gs -> waiting s !! t = None ->
  event_guard e = g -> once finds_recursion e (Busy t) = Some o -> (o = Fresh /\ v = 0 \/ o = Ready /\ v = ready_word) ->
  rinv (leave t gs (<[g := v]> (words s)) s).
Proof.
  intros Ht [Hi Hu Hw] Hst Hwt He Ho Hv. destruct (leave_ok e t g gs v s o Ht Hi Hst He Ho Hv) as [Hi' _].
  split; [done..|]. intros t1 g1 H1. unfold leave. rewrite stack_insert.
  rewrite decide_False; [by apply Hw|]. cbn [leave waiting] in H1. congruence.
Qed.

Lemma reachable_rinv s : reachable s -> rinv s.
Proof.
  induction 1 as [|a s e s' _ IH Ht Ho Hs].
  { split; [apply inv_start|done|]. intros t g. cbn. by rewrite lookup_empty. }
  pose proof IH as [Hi Hu Hw]. unfold step in Hs. rewrite Hu in Hs. destruct a as [t g|t|t|t]; simpl in Ht.
  - destruct (waiting s !! t) eqn:Hwt; [done|]. injection Hs as Hs.
    change s' with (e, s').2. rewrite <- Hs. by apply rinv_enter.
  - destruct (waiting s !! t) as [g|] eqn:Hwt; [|done]. injection Hs as Hs.
    change s' with (e, s').2. rewrite <- Hs. unfold resume. apply rinv_enter; try done.
    + by apply (Hw t g).
    + cbn. by rewrite lookup_delete_eq.
    + intros t1 g1. cbn [waiting]. intros [_ H1]%lookup_delete_Some. by apply (Hw t1 g1).
  - destruct (waiting s !! t) eqn:Hwt; [done|]. destruct (stack t s) as [|g gs] eqn:Hst; [done|]. simplify_eq.
    rewrite release_ready. eapply (rinv_leave (Ends t g)); try done; [|by right]. simpl. by rewrite decide_True.
  - destruct (waiting s !! t) eqn:Hwt; [done|]. destruct (stack t s) as [|g gs] eqn:Hst; [done|]. simplify_eq.
    rewrite abort_fresh. eapply (rinv_leave (Throws t g)); try done; [|by left]. simpl. by rewrite decide_True.
Qed.

Lemma wait_chain s : rinv s -> forall n t g, (rank g < n)%nat -> waiting s !! t = Some g ->
  exists t', rtc (waits_for s) t t' /\ can_go_on t' s.
Proof.
  intros [Hi Hu Hw]. induction n as [|n IH]; intros t g Hn Hwt; [lia|].
  destruct (Hw t g Hwt) as [Ht _]. destruct (proj1 Hi g) as [o Ho].
  pose proof (enter_cases t g (resume t s) o Ht Ho) as He.
  assert (step (Again t) s = Some (enter t g (resume t s))) as Hstep by (unfold step; by rewrite Hu, Hwt).
  destruct o as [|t'|].
  - exists t. split; [done|]. right. rewrite Hstep, He. eauto.
  - destruct Ho as (_ & Ht' & Hin). assert (g ∈ stack t' s) as Hg by (by apply Hin).
    assert (rtc (waits_for s) t t') as Hone by (eapply rtc_once; by exists g).
    destruct (waiting s !! t') as [g'|] eqn:Hwt'; [|exists t'; split; [done|by left]].
    destruct (Hw t' g' Hwt') as [_ Hr'].
    destruct (IH t' g' ltac:(specialize (Hr' g Hg); lia) Hwt') as (t'' & Hc & Hgo).
    exists t''. split; [by etrans|done].
  - exists t. split; [done|]. right. rewrite Hstep, He. eauto.
Qed.

Lemma progress s : reachable s -> up s = true /\ forall t, exists t', rtc (waits_for s) t t' /\ can_go_on t' s.
Proof.
  intros Hr%reachable_rinv. split; [by destruct Hr|]. intros t.
  destruct (waiting s !! t) as [g|] eqn:Hwt; [|exists t; split; [done|by left]].
  apply (wait_chain s Hr (S (rank g)) t g); [lia|done].
Qed.

Lemma guard_reachable_run acts s es s' : reachable s -> run acts s = Some (es, s') ->
  (forall n a t, acts !! n = Some a -> run (take n acts) s = Some t -> thread_pointer (actor a) /\ ordered a t.2) ->
  reachable s'.
Proof.
  revert s es. induction acts as [|a acts IH]; intros s es Hs Hr Ho; [by cbn in Hr; simplify_eq|].
  cbn [run] in Hr. destruct (step a s) as [[e s1]|] eqn:Hst; [|done].
  cbn [mbind option_bind] in Hr. destruct (run acts s1) as [[es1 s2]|] eqn:Hr1; [|done].
  cbn in Hr. simplify_eq. destruct (Ho 0%nat a ([], s) eq_refl eq_refl) as [Ht Hord].
  apply (IH s1 es1); [by eapply reachable_step|done|]. intros n a' t Ha Ht'.
  apply (Ho (S n) a' (e :: t.1, t.2) Ha). cbn [take run]. rewrite Hst. cbn [mbind option_bind]. rewrite Ht'. by destruct t.
Qed.
End progress.

(** The turns of a thread that waits change nothing. *)
Lemma waiting_changes_nothing t t' g s : thread_pointer t -> up s = true -> waiting s !! t = Some g ->
  is_object s g (Busy t') -> t <> t' -> step (Again t) s = Some (Waits t g, s).
Proof.
  intros Ht Hu Hw Ho Hne. unfold step. rewrite Hu, Hw.
  pose proof (enter_cases t g (resume t s) (Busy t') Ht Ho) as He. cbv beta iota in He. case_decide as Hd; [by destruct Hd|].
  rewrite He. destruct s as [w c wt u]. simpl in *. subst u. by rewrite insert_delete_eq, insert_id.
Qed.
End once.

(** ** The two implementations *)
Inductive api := StaticObjects | OnceControls.
Definition ops (a : api) : OnceOps := match a with StaticObjects => cxa_ops | OnceControls => pthread_ops end.
Lemma laws (a : api) : @OnceLaws (ops a).
Proof. destruct a; [apply cxa_laws|apply pthread_laws]. Qed.

(** C12: the guards make every static object, and [pthread_once] every control
    block, one that is initialized once,
    whatever the threads do and however they are interleaved.  The events of each object, in
    their order, are those of an object that is fresh, then busy with one thread, then
    fresh again if its constructor throws and ready if it returns: no thread
    gets it before, no thread constructs it after or in the meantime, a thread waits only
    while one constructs, and recursion is reported only to the thread
    that is constructing it, which then does not wait for itself if it is a static object.  The word is the
    one for the state of the object, and the thread that is busy with it has it on its stack of constructors. *)
Theorem guards_refine (a : api) acts es s :
  Forall (fun x => thread_pointer (actor x)) acts -> run (O := ops a) acts start = Some (es, s) ->
  forall g, exists o, history (@finds_recursion (ops a)) g es Fresh = Some o /\ is_object (O := ops a) s g o /\
    (length (filter (fun e => exists t, e = Ends t g) es) <= 1)%nat.
Proof.
  pose proof (laws a). intros Ha Hr g.
  destruct (guard_run_ok (O := ops a) acts start es s Ha (proj1 inv_start) Hr) as [_ Hh].
  destruct (Hh g Fresh (proj2 inv_start g)) as (o & Ho & Hi). exists o. split_and!; [done..|].
  by eapply history_ends_once.
Qed.

(** Two threads, 0x20000100 and 0x20000200, and two objects, 1000 and 1004:
    the second is used by the constructor of the first; the first attempt throws. *)
Definition ex_acts : list act :=
  [Use 0x20000100 1000; Use 0x20000200 1000; Threw 0x20000100; Again 0x20000200; Use 0x20000200 1004;
   Use 0x20000100 1004; Again 0x20000100; Built 0x20000200; Built 0x20000200; Again 0x20000100; Use 0x20000100 1000].
Definition ex_events : list event :=
  [Begins 0x20000100 1000; Waits 0x20000200 1000; Throws 0x20000100 1000; Begins 0x20000200 1000; Begins 0x20000200 1004;
   Waits 0x20000100 1004; Waits 0x20000100 1004; Ends 0x20000200 1004; Ends 0x20000200 1000; Gets 0x20000100 1004; Gets 0x20000100 1000].

Lemma guards_refine_witness (a := StaticObjects) (b := OnceControls) :
  (exists s, run (O := ops a) ex_acts start = Some (ex_events, s) /\ history true 1000 ex_events Fresh = Some Ready /\
    is_object (O := ops a) s 1000 Ready) /\
  (exists s, run (O := ops b) ex_acts start = Some (ex_events, s) /\ is_object (O := ops b) s 1004 Ready).
Proof.
  split.
  - destruct (run (O := ops a) ex_acts start) as [[es s]|] eqn:Hr; [|by vm_compute in Hr].
    assert (es = ex_events) as -> by (vm_compute in Hr; by injection Hr as <- _).
    destruct (guards_refine a ex_acts ex_events s ltac:(repeat constructor) Hr 1000) as (o & Ho & Hi & _).
    vm_compute in Ho. injection Ho as <-. exists s. split; [done|]. split; [by vm_compute|done].
  - destruct (run (O := ops b) ex_acts start) as [[es s]|] eqn:Hr; [|by vm_compute in Hr].
    assert (es = ex_events) as -> by (vm_compute in Hr; by injection Hr as <- _).
    destruct (guards_refine b ex_acts ex_events s ltac:(repeat constructor) Hr 1004) as (o & Ho & Hi & _).
    vm_compute in Ho. injection Ho as <-. exists s. by split.
Defined.

(** A thread that gets to the declaration of the static object it is constructing
    stops the system; one that calls [pthread_once] in its function waits for itself. *)
Example ex_recursion :
  fst <$> run (O := cxa_ops) [Use 0x20000100 1000; Use 0x20000100 1004; Use 0x20000100 1000] start
  = Some [Begins 0x20000100 1000; Begins 0x20000100 1004; Recursion 0x20000100 1000].
Proof. by vm_compute. Qed.

Example ex_pthread_recursion :
  fst <$> run (O := pthread_ops) [Use 0x20000100 1000; Use 0x20000100 1000; Again 0x20000100] start
  = Some [Begins 0x20000100 1000; Waits 0x20000100 1000; Waits 0x20000100 1000].
Proof. by vm_compute. Qed.

(** C23: no deadlock.  When there is a rank of the objects such that a constructor uses only
    objects of smaller rank than those being constructed by its thread, recursion is
    never reported, and for every thread that waits, following the threads that
    have the objects leads to one that can go on: it is not waiting, or it gets
    or begins its object at its next turn.  This is so for static objects and for [pthread_once]. *)
Theorem initialization_progresses (a : api) (rank : Z -> nat) s : reachable (O := ops a) rank s ->
  up s = true /\ forall t, exists t', rtc (waits_for s) t t' /\ can_go_on (O := ops a) t' s.
Proof. pose proof (laws a). apply progress. Qed.

(** The first six actions of the example, with rank 1 for 1000 and rank 0 for 1004:
    thread 0x20000100 waits for thread 0x20000200, which can go on. *)
Definition ex_rank (g : Z) : nat := if g =? 1000 then 1 else 0.

Lemma initialization_progresses_witness (a := StaticObjects) :
  exists es s, run (O := ops a) (take 6 ex_acts) start = Some (es, s) /\ waiting s !! 0x20000100 = Some 1004 /\
    exists t', rtc (waits_for s) 0x20000100 t' /\ can_go_on (O := ops a) t' s.
Proof.
  destruct (run (O := ops a) (take 6 ex_acts) start) as [[es s]|] eqn:Hr; [|by vm_compute in Hr].
  exists es, s. split; [done|].
  assert (reachable (O := ops a) ex_rank s) as Hreach.
  { eapply (guard_reachable_run (O := ops a)); [apply reachable_start|exact Hr|]. intros n x t Ha Ht.
    do 6 (destruct n as [|n]; [vm_compute in Ha, Ht; injection Ha as <-; injection Ht as <-; split;
      [repeat constructor|vm_compute; try done; intros h Hh; repeat (apply elem_of_cons in Hh as [->|Hh]; [lia|]); by apply elem_of_nil in Hh]|]).
    by destruct n. }
  split; [|apply (initialization_progresses a ex_rank s Hreach)].
  vm_compute in Hr. injection Hr as _ <-. by vm_compute.
Defined.

(** ** Priorities

    A thread that waits stays ready.  With the priority scheduler, when it is the only ready
    thread of the highest priority, it is chosen at each of its yields: a thread of lower
    priority that has the object never runs, and nothing changes. *)
Theorem waiting_starves_constructor envs r s h qs i c owner :
  PriorityScheduler.rep s h qs -> Forall (fun env => kernel_running env = 0) envs ->
  PriorityScheduler.choose h qs PriorityScheduler.priorities = Some (i, c) ->
  PriorityScheduler.ready_list h qs i = [c] -> owner <> c ->
  exists trace s', PriorityScheduler.run_find envs r s h = Done (trace, s') /\ length trace = length envs /\
    owner ∉ trace.
Proof.
  intros Hr He Hc Hl Hne. destruct (PriorityScheduler.run_find_spec envs r s h qs i c Hr He Hc) as (trace & s' & Hrun & Hlen & Ht).
  exists trace, s'. split_and!; [done..|]. intros (n & Hn)%list_elem_of_lookup.
  rewrite Ht, Hl, Nat.mod_1_r in Hn by (apply lookup_lt_Some in Hn; lia). simpl in Hn. congruence.
Qed.

End Guards.
