(* ===== verification/CLib.v ===== *)
(** * The C library on the kernel

    The parts of [stdlib_integration/libc_integration.cpp] that do more than
    forward a call: the memory of the heap ([_sbrk_r]), the POSIX clocks on the
    64 bit time of the kernel, the convention of [errno], and [fcntl]. *)
From stdpp Require Import sorting.
From S2P Require Import Prelude Errors Threads IntrusiveList SleepList.

Local Open Scope Z_scope.

(** ** The heap *)
Module Heap.

Section heap.
(** The symbols of the linker script. *)
Context (end_ heap_end : Z).

(** The static variables: [curHeapEnd] of [_sbrk_r], with [NULL] as 0, and [maxHeapEnd]. *)
Record heap := mkHeap { curHeapEnd : Z; maxHeapEnd : Z }.
Definition initial : heap := mkHeap 0 0.

(** [reinterpret_cast<void*>(-1)]. *)
Definition failed : Z := 2 ^ 32 - 1.

Definition sbrk_r (incr : Z) (h : heap) : Z * heap :=
  let curHeapEnd := if curHeapEnd h =? 0 then end_ else curHeapEnd h in
  let prevHeapEnd := curHeapEnd in
  if heap_end <? u32 (curHeapEnd + incr) then (failed, mkHeap curHeapEnd (maxHeapEnd h))
  else
    let curHeapEnd := u32 (curHeapEnd + incr) in
    (prevHeapEnd, mkHeap curHeapEnd (if maxHeapEnd h <? curHeapEnd then curHeapEnd else maxHeapEnd h)).

Definition getMaxHeap (h : heap) : Z := if maxHeapEnd h =? 0 then end_ else maxHeapEnd h.

Fixpoint sbrks (incrs : list Z) (h : heap) : list Z * heap :=
  match incrs with
  | [] => ([], h)
  | incr :: incrs =>
      let '(p, h) := sbrk_r incr h in
      let '(ps, h) := sbrks incrs h in
      (p :: ps, h)
  end.

(** The contract: a break that moves by what is asked, if it stays in the heap, and
    the highest break so far. *)
Definition move (incr : Z) (b : Z * Z) : option Z * (Z * Z) :=
  let '(brk, top) := b in
  if decide (brk + incr <= heap_end) then (Some brk, (brk + incr, Z.max top (brk + incr))) else (None, b).

Fixpoint moves (incrs : list Z) (b : Z * Z) : list (option Z) * (Z * Z) :=
  match incrs with
  | [] => ([], b)
  | incr :: incrs =>
      let '(p, b) := move incr b in
      let '(ps, b) := moves incrs b in
      (p :: ps, b)
  end.

(** What the caller has to see to: it gives back no more than it got, and does not
    ask for so much that an address past the end of memory results. *)
Fixpoint sensible (incrs : list Z) (b : Z * Z) : Prop :=
  match incrs with
  | [] => True
  | incr :: incrs => end_ <= b.1 + incr < 2 ^ 32 /\ sensible incrs (move incr b).2
  end.

(** The memory a call got: from the old break to the new one. *)
Definition got (incr : Z) (p : option Z) : list (Z * Z) := match p with Some p => [(p, p + incr)] | None => [] end.
Definition blocks (incrs : list Z) (ps : list (option Z)) : list (Z * Z) := concat (zip_with got incrs ps).

Definition apart (a b : Z * Z) : Prop := a.2 <= b.1.

Context (end_pos : 0 < end_) (end_le : end_ <= heap_end).

Definition stands_for (h : heap) (b : Z * Z) : Prop :=
  (if curHeapEnd h =? 0 then end_ else curHeapEnd h) = b.1 /\ end_ <= b.1 <= heap_end /\
  getMaxHeap h = b.2 /\ b.1 <= b.2 <= heap_end /\ (maxHeapEnd h = 0 \/ end_ <= maxHeapEnd h).

Lemma sbrk_move incr h b : stands_for h b -> end_ <= b.1 + incr < 2 ^ 32 ->
  (sbrk_r incr h).1 = default failed (move incr b).1 /\ stands_for (sbrk_r incr h).2 (move incr b).2.
Proof.
  destruct b as [brk top]. unfold stands_for, getMaxHeap, sbrk_r, move. cbn [fst snd].
  intros (Hc & Hb & Hm & Ht & Hmax) Hs. rewrite Hc, wrapU_small by lia.
  case_decide; destruct (Z.ltb_spec heap_end (brk + incr)); try lia; cbn [fst snd curHeapEnd maxHeapEnd default].
  - split; [done|]. destruct (Z.eqb_spec (brk + incr) 0); [lia|].
    destruct (Z.ltb_spec (maxHeapEnd h) (brk + incr)), (Z.eqb_spec (maxHeapEnd h) 0);
      destruct (Z.eqb_spec (brk + incr) 0); rewrite ?(proj2 (Z.eqb_neq (maxHeapEnd h) 0)) by lia; lia.
  - split; [done|]. destruct (Z.eqb_spec brk 0); [lia|]. done.
Qed.

(** The blocks of a run without negative sizes come one after the other. *)
Lemma blocks_apart incrs brk top : Forall (fun i => 0 <= i) incrs ->
  StronglySorted apart (blocks incrs (moves incrs (brk, top)).1) /\
  Forall (fun a => brk <= a.1 <= a.2 /\ (heap_end < brk \/ a.2 <= heap_end)) (blocks incrs (moves incrs (brk, top)).1).
Proof.
  intros Hi. revert brk top. induction Hi as [|incr incrs Hi _ IH]; intros brk top; [split; constructor|].
  cbn [moves]. unfold move. case_decide as Hd.
  - destruct (moves incrs (brk + incr, Z.max top (brk + incr))) as [ps b] eqn:Hms. cbn [fst].
    specialize (IH (brk + incr) (Z.max top (brk + incr))). rewrite Hms in IH. destruct IH as [IH1 IH2].
    unfold blocks in *. cbn [zip_with got concat app]. split.
    + constructor; [done|]. eapply Forall_impl; [exact IH2|]. intros a Ha. unfold apart. cbn [fst snd] in *. lia.
    + constructor; [cbn [fst snd]; lia|]. eapply Forall_impl; [exact IH2|]. intros a Ha. cbv beta in *. lia.
  - destruct (moves incrs (brk, top)) as [ps b] eqn:Hms. cbn [fst].
    specialize (IH brk top). rewrite Hms in IH. unfold blocks in *. by cbn [zip_with got concat app].
Qed.
End heap.

(** C24: the heap.  A sequence of calls of [_sbrk_r] that gives back no more than
    it got, and asks for nothing so large that an address wraps around,
    returns the breaks of the contract: each call fails exactly when the heap is full, the
    break stays between [_end] and [_heap_end], [getMaxHeap] is the highest
    break, and without negative sizes the blocks obtained do not overlap and are in the heap. *)
Theorem sbrk_refines (end_ heap_end : Z) (incrs : list Z) :
  0 < end_ -> end_ <= heap_end -> sensible end_ heap_end incrs (end_, end_) ->
  let r := moves heap_end incrs (end_, end_) in
  (sbrks end_ heap_end incrs initial).1 = default failed <$> r.1 /\
  getMaxHeap end_ (sbrks end_ heap_end incrs initial).2 = r.2.2 /\
  end_ <= r.2.1 <= heap_end /\ r.2.1 <= r.2.2 <= heap_end /\
  (Forall (fun i => 0 <= i) incrs ->
    StronglySorted apart (blocks incrs r.1) /\
    Forall (fun a => end_ <= a.1 <= a.2 /\ a.2 <= heap_end) (blocks incrs r.1)).
Proof.
  intros Hpos Hle Hs.
  assert (forall incrs h b, stands_for end_ heap_end h b -> sensible end_ heap_end incrs b ->
    (sbrks end_ heap_end incrs h).1 = default failed <$> (moves heap_end incrs b).1 /\
    stands_for end_ heap_end (sbrks end_ heap_end incrs h).2 (moves heap_end incrs b).2) as Hall.
  { clear incrs Hs. induction incrs as [|incr incrs IH]; intros h b Hh Hs; [done|].
    destruct Hs as [Hi Hs]. destruct (sbrk_move end_ heap_end Hpos Hle incr h b Hh Hi) as [H1 H2].
    cbn [sbrks moves]. destruct (sbrk_r end_ heap_end incr h) as [p h1], (move heap_end incr b) as [q b1].
    cbn [fst snd] in *. destruct (IH h1 b1 H2 Hs) as [H3 H4].
    destruct (sbrks end_ heap_end incrs h1), (moves heap_end incrs b1). cbn [fst snd] in *.
    split; [|done]. cbn. by rewrite H1, H3. }
  destruct (Hall incrs initial (end_, end_)) as [H1 H2]; [unfold stands_for, getMaxHeap; cbn; lia|done|].
  destruct H2 as (_ & Hb & Hm & Ht & _). cbn zeta. split_and!; try done; try lia. intros Hi.
  destruct (blocks_apart heap_end incrs end_ end_ Hi) as [Hsort Hin]. split; [done|].
  eapply Forall_impl; [exact Hin|]. intros a Ha. cbv beta in *. lia.
Qed.

(** Four calls on a heap of 4096 bytes: the third does not fit. *)
Lemma sbrk_refines_witness :
  (sbrks 0x20001000 0x20002000 [1024; 2048; 2048; -1024] initial).1 = [0x20001000; 0x20001400; failed; 0x20001c00] /\
  getMaxHeap 0x20001000 (sbrks 0x20001000 0x20002000 [1024; 2048; 2048; -1024] initial).2 = 0x20001c00.
Proof.
  destruct (sbrk_refines 0x20001000 0x20002000 [1024; 2048; 2048; -1024]
    ltac:(lia) ltac:(lia) ltac:(vm_compute; intuition congruence)) as (H1 & H2 & _).
  rewrite H1, H2. by vm_compute.
Defined.

(** On the boards with external memory at 0xd0000000 a request for 900 MB
    wraps around, and is granted: the break is now in the memory of the
    program, and so are the next blocks. *)
Example ex_sbrk_wraps :
  (sbrks 0xd0000000 0xd0800000 [900000000; 1024] initial).1 = [0xd0000000; 0x5a4e900].
Proof. by vm_compute. Qed.

(** A negative size is not compared with [_end]: the break goes below the heap. *)
Example ex_sbrk_below :
  curHeapEnd (sbrks 0x20001000 0x20002000 [-4096] initial).2 = 0x20000000.
Proof. by vm_compute. Qed.

End Heap.

(** ** The POSIX clocks *)
Module Clock.

Definition nsPerSec : Z := 1000000000.
Record timespec := mkTimespec { tv_sec : Z; tv_nsec : Z }.
Record timeval := mkTimeval { sec : Z; tv_usec : Z }.

(** 64 bit seconds; [tv_nsec] is a [long], of 32 bits. *)
Definition timespec2ll (tp : timespec) : Z := s64 (s64 (tv_sec tp * nsPerSec) + tv_nsec tp).
Definition ll2timespec (ns : Z) : timespec := mkTimespec (Z.quot ns nsPerSec) (s32 (Z.rem ns nsPerSec)).

(** The functions return their result, and what they write.  A pointer argument that
    may be null is a boolean, or an option when it is read; [getTime] is the time
    of the kernel. *)
Definition clock_gettime (getTime : Z) (tp : bool) : Z * option timespec :=
  if negb tp then (-1, None) else (0, Some (ll2timespec getTime)).

Definition clock_settime : Z := -1.

Definition clock_getres (osTimerGetFrequency : Z) (res : bool) : Z * option timespec :=
  if negb res then (-1, None)
  else
    let resolution := s32 (2 * nsPerSec / osTimerGetFrequency) in
    let resolution := if negb (Z.land resolution 1 =? 0) then Z.quot resolution 2 + 1 else Z.quot resolution 2 in
    (0, Some (mkTimespec 0 resolution)).

(** [time.h] of newlib. *)
Definition TIMER_ABSTIME : Z := 4.

(** Up to the yield of the current thread, whose [SleepData] is at [d]. *)
Definition clock_nanosleep (cur d : positive) (getTime flags : Z) (req : option timespec) (s : Sleep.state) : exec (option Z * Sleep.state) :=
  match req with
  | None => Done (Some (-1), s)
  | Some req =>
      let timeNs := timespec2ll req in
      let timeNs := if negb (flags =? TIMER_ABSTIME) then s64 (timeNs + getTime) else timeNs in
      s ← Sleep.nanoSleepUntil cur d timeNs s;
      Done (None, s)
  end.

Definition nanosleep (cur d : positive) (getTime : Z) (req : option timespec) (s : Sleep.state) : exec (option Z * Sleep.state) :=
  clock_nanosleep cur d getTime 0 req s.

(** [clock_t] is a 32 bit unsigned number; [tms_utime] is written when there is an argument. *)
Definition times_r (CLOCKS_PER_SEC getTime : Z) (tim : bool) : Z * option Z :=
  match clock_gettime getTime true with
  | (0, Some tp) =>
      let divFactor := 1000000000 / CLOCKS_PER_SEC in
      let utime := u32 (s64 (s64 (tv_sec tp * CLOCKS_PER_SEC) + Z.quot (tv_nsec tp) divFactor)) in
      if negb tim then (utime, None) else (0, Some utime)
  | _ => (u32 (-1), None)
  end.

Definition gettimeofday_r (getTime : Z) (tv tz : bool) : Z * option timeval :=
  if negb tv || tz then (-1, None)
  else match clock_gettime getTime true with
       | (0, Some tp) => (0, Some (mkTimeval (tv_sec tp) (Z.quot (tv_nsec tp) 1000)))
       | _ => (-1, None)
       end.

(** A time of POSIX: the nanoseconds are less than a second.  [fits] is the range of the 64 bit time. *)
Definition valid (tp : timespec) : Prop := 0 <= tv_sec tp /\ 0 <= tv_nsec tp < nsPerSec.
Definition fits (ns : Z) : Prop := - 2 ^ 63 <= ns < 2 ^ 63.
Definition value (tp : timespec) : Z := tv_sec tp * nsPerSec + tv_nsec tp.

Lemma quot_rem_sec ns : ns = nsPerSec * Z.quot ns nsPerSec + Z.rem ns nsPerSec /\ Z.abs (Z.rem ns nsPerSec) < nsPerSec /\
  0 <= Z.rem ns nsPerSec * ns.
Proof.
  unfold nsPerSec. split_and!; [apply Z.quot_rem'| |].
  - pose proof (Z.rem_bound_abs ns 1000000000 ltac:(lia)). lia.
  - apply Z.rem_sign_mul. lia.
Qed.

Lemma nsec_exact ns : s32 (Z.rem ns nsPerSec) = Z.rem ns nsPerSec.
Proof.
  destruct (quot_rem_sec ns) as (_ & Hr & _). unfold nsPerSec in *. apply wrapS_small; lia.
Qed.

Lemma value_ll2timespec ns : value (ll2timespec ns) = ns.
Proof.
  unfold value, ll2timespec. cbn [tv_sec tv_nsec]. rewrite nsec_exact.
  destruct (quot_rem_sec ns) as (Hq & _). lia.
Qed.

Lemma timespec2ll_value tp : Z.abs (tv_nsec tp) < nsPerSec -> 0 <= tv_sec tp * tv_nsec tp -> fits (value tp) ->
  timespec2ll tp = value tp.
Proof.
  unfold fits, value, timespec2ll, nsPerSec. intros Hn Hs Hf.
  rewrite (wrapS_small 64 (tv_sec tp * 1000000000)); [|lia|nia]. rewrite wrapS_small; lia.
Qed.

Lemma timespec_ns ns : fits ns -> timespec2ll (ll2timespec ns) = ns.
Proof.
  intros Hf. destruct (quot_rem_sec ns) as (Hq & Hr & Hs). rewrite timespec2ll_value; rewrite ?value_ll2timespec; try done;
    unfold ll2timespec; cbn [tv_sec tv_nsec]; rewrite nsec_exact; [done|]. unfold nsPerSec in *.
  set (q := Z.quot ns 1000000000) in *. set (r := Z.rem ns 1000000000) in *. clearbody q r.
  destruct (Z.lt_trichotomy r 0) as [|[->|]]; [|lia|].
  - assert (ns <= 0) by nia. assert (q <= 0) by lia. nia.
  - assert (0 <= ns) by nia. assert (0 <= q) by lia. nia.
Qed.

Lemma ns_timespec tp : valid tp -> ll2timespec (value tp) = tp.
Proof.
  intros [Hs Hn]. unfold ll2timespec. rewrite nsec_exact. unfold value.
  rewrite Z.quot_div_nonneg, Z.rem_mod_nonneg by (unfold nsPerSec in *; lia).
  rewrite Z.div_add_l, Z.div_small, Z.add_0_r by (unfold nsPerSec in *; lia).
  rewrite (Z.add_comm _ (tv_nsec tp)), Z.mod_add, Z.mod_small by (unfold nsPerSec in *; lia). by destruct tp.
Qed.

Lemma getres_exact f : 0 < f < 2 ^ 32 ->
  exists r, clock_getres f true = (0, Some (mkTimespec 0 r)) /\ (2 * r - 1) * f <= 2 * nsPerSec < (2 * r + 1) * f.
Proof.
  intros Hf. unfold clock_getres, nsPerSec. simpl negb.
  set (q := 2 * 1000000000 / f).
  assert (Hq : 0 <= q <= 2000000000).
  { split; [apply Z.div_pos; lia|]. apply Z.div_le_upper_bound; lia. }
  assert (Hd : q * f <= 2000000000 < (q + 1) * f).
  { pose proof (Z.mul_div_le 2000000000 f ltac:(lia)). pose proof (Z.mul_succ_div_gt 2000000000 f ltac:(lia)).
    change (2 * 1000000000) with 2000000000 in q. unfold q. lia. }
  clearbody q. cbv iota. rewrite (wrapS_small 32) by lia.
  change 1 with (Z.ones 1) at 1. rewrite Z.land_ones by lia. rewrite Z.quot_div_nonneg by lia.
  pose proof (Z.div_mod q 2 ltac:(lia)). change (2 ^ 1) with 2.
  pose proof (Z.mod_pos_bound q 2 ltac:(lia)).
  destruct (Z.eqb_spec (q mod 2) 0); simpl negb; cbv iota.
  - exists (q / 2). split; [done|]. nia.
  - exists (q / 2 + 1). split; [done|]. nia.
Qed.

Lemma sec_nsec ns : 0 <= ns -> Z.quot ns nsPerSec = ns / nsPerSec /\ Z.rem ns nsPerSec = ns mod nsPerSec.
Proof. intros. unfold nsPerSec. split; [apply Z.quot_div_nonneg|apply Z.rem_mod_nonneg]; lia. Qed.

Lemma times_exact cps ns : 0 < cps -> (cps | 1000000000) -> 0 <= ns < 2 ^ 63 ->
  times_r cps ns true = (0, Some (u32 (ns / (1000000000 / cps)))).
Proof.
  intros Hc [k Hk] Hns. unfold times_r, clock_gettime, ll2timespec. simpl negb. cbv iota. cbn [tv_sec tv_nsec].
  rewrite nsec_exact. destruct (sec_nsec ns) as [-> ->]; [lia|]. rewrite Hk.
  rewrite Z.div_mul by lia. assert (0 < k) by nia.
  unfold nsPerSec. pose proof (Z.div_mod ns 1000000000 ltac:(lia)) as Hd.
  pose proof (Z.mod_pos_bound ns 1000000000 ltac:(lia)) as Hm.
  set (a := ns / 1000000000) in *. set (b := ns mod 1000000000) in *. clearbody a b.
  rewrite Z.quot_div_nonneg by lia. assert (0 <= a) by nia.
  assert (ns / k = a * cps + b / k) as ->.
  { rewrite Hd, Hk. replace (k * cps * a + b) with (a * cps * k + b) by ring. by rewrite Z.div_add_l by lia. }
  assert (0 <= b / k <= b) by (split; [apply Z.div_pos; lia|apply Z.div_le_upper_bound; nia]).
  rewrite (wrapS_small 64 (a * cps)) by nia. rewrite wrapS_small by nia. done.
Qed.

Lemma gettimeofday_exact ns : 0 <= ns < 2 ^ 63 ->
  gettimeofday_r ns true false = (0, Some (mkTimeval (ns / 1000 / 1000000) (ns / 1000 mod 1000000))).
Proof.
  intros Hns. unfold gettimeofday_r, clock_gettime, ll2timespec. simpl. rewrite nsec_exact.
  destruct (sec_nsec ns) as [-> ->]; [lia|]. unfold nsPerSec.
  pose proof (Z.mod_pos_bound ns 1000000000 ltac:(lia)).
  rewrite Z.quot_div_nonneg by lia. rewrite Z.div_div by lia. change (1000 * 1000000) with 1000000000.
  change 1000000000 with (1000 * 1000000) at 2. rewrite Z.rem_mul_r by lia.
  rewrite (Z.mul_comm 1000), Z.div_add by lia. rewrite (Z.div_small (ns mod 1000)) by (apply Z.mod_pos_bound; lia). done.
Qed.

(** The clocks.  The conversions between the kernel's nanoseconds and
    [timespec] lose nothing: [clock_gettime] gives a time whose conversion back is the time of the
    kernel, and a valid [timespec] that fits is what its
    nanoseconds convert to.  So [clock_nanosleep] to a time that
    [clock_gettime] could give sleeps until that time, and [nanosleep] until
    the current time plus the duration.  [clock_getres] is the period of
    the timer rounded to the nearest nanosecond; [times] and [gettimeofday] are the
    time in their units, rounded down once. *)
Theorem clocks_exact (cur d : positive) (s : Sleep.state) (getTime : Z) : 0 <= getTime < 2 ^ 63 ->
  (exists tp, clock_gettime getTime true = (0, Some tp) /\ valid tp /\ timespec2ll tp = getTime) /\
  (forall tp, valid tp -> fits (value tp) -> ll2timespec (timespec2ll tp) = tp /\
    clock_nanosleep cur d getTime TIMER_ABSTIME (Some tp) s = (s ← Sleep.nanoSleepUntil cur d (value tp) s; Done (None, s)) /\
    (fits (getTime + value tp) ->
     nanosleep cur d getTime (Some tp) s = (s ← Sleep.nanoSleepUntil cur d (getTime + value tp) s; Done (None, s)))) /\
  (forall f, 0 < f < 2 ^ 32 -> exists r, clock_getres f true = (0, Some (mkTimespec 0 r)) /\
    (2 * r - 1) * f <= 2 * nsPerSec < (2 * r + 1) * f) /\
  (forall cps, 0 < cps -> (cps | nsPerSec) -> times_r cps getTime true = (0, Some (u32 (getTime / (nsPerSec / cps))))) /\
  gettimeofday_r getTime true false = (0, Some (mkTimeval (getTime / 1000 / 1000000) (getTime / 1000 mod 1000000))).
Proof.
  intros Hg. split_and!.
  - exists (ll2timespec getTime). split_and!; [done| |apply timespec_ns; unfold fits; lia].
    destruct (sec_nsec getTime) as [Hq Hr]; [lia|]. unfold valid, ll2timespec. cbn [tv_sec tv_nsec].
    rewrite nsec_exact, Hq, Hr. unfold nsPerSec. split; [apply Z.div_pos; lia|apply Z.mod_pos_bound; lia].
  - intros tp Hv Hf. assert (timespec2ll tp = value tp) as Heq.
    { destruct Hv. apply timespec2ll_value; [lia|nia|done]. }
    rewrite Heq. split; [by apply ns_timespec|]. unfold nanosleep, clock_nanosleep. rewrite Heq.
    split; [done|]. intros Hf'. unfold fits in Hf'. simpl negb. cbv iota.
    by rewrite (Z.add_comm (value tp)), wrapS_small by lia.
  - apply getres_exact.
  - intros cps Hc Hd. by apply times_exact.
  - by apply gettimeofday_exact.
Qed.

Lemma clocks_exact_witness :
  gettimeofday_r 12345678901 true false = (0, Some (mkTimeval 12 345678)) /\
  times_r 100 12345678901 true = (0, Some 1234) /\
  ll2timespec (timespec2ll (mkTimespec 3 999999999)) = mkTimespec 3 999999999 /\
  exists r, clock_getres 84000000 true = (0, Some (mkTimespec 0 r)) /\ (2 * r - 1) * 84000000 <= 2 * nsPerSec.
Proof.
  destruct (clocks_exact 2 12 (Sleep.started 1 ∅) 12345678901 ltac:(lia)) as (_ & H2 & H3 & H4 & H5).
  split_and!.
  - rewrite H5. by vm_compute.
  - rewrite (H4 100 ltac:(lia) ltac:(by exists 10000000)). by vm_compute.
  - apply (H2 (mkTimespec 3 999999999)); [unfold valid, nsPerSec; cbn [tv_sec tv_nsec]; lia|unfold fits, value, nsPerSec; cbn [tv_sec tv_nsec]; lia].
  - destruct (H3 84000000 ltac:(lia)) as (r & Hr & Hb). exists r. split; [done|apply Hb].
Defined.

(** A duration of more than 292 years overflows: the wakeup time is in the
    past.  The nanoseconds are not checked: [EINVAL] is never returned. *)
Example ex_nanosleep_overflow : timespec2ll (mkTimespec 9223372037 0) = - 9223372036709551616.
Proof. by vm_compute. Qed.

End Clock.

(** ** [errno], and the file functions

    Every file function of the C library has the same shape: the result of the
    descriptor table if it is not negative, else -1 and its opposite in [errno]; an exception is
    [ENOMEM].  The table is an interface here, with no result for an exception; [FileAccess] has its
    functions.  Pointers are their addresses. *)
Class TableOps (S : Type) := {
  t_open : Z -> Z -> Z -> S -> option Z * S;
  t_close : Z -> S -> option Z * S;
  t_write : Z -> Z -> Z -> S -> option Z * S;
  t_read : Z -> Z -> Z -> S -> option Z * S;
  t_lseek : Z -> Z -> Z -> S -> option Z * S;
  t_fstat : Z -> Z -> S -> option Z * S;
  t_stat : Z -> Z -> S -> option Z * S;
  t_isatty : Z -> S -> option Z * S;
  t_fcntl : Z -> Z -> Z -> S -> option Z * S;
  t_ioctl : Z -> Z -> Z -> S -> option Z * S;
  t_getcwd : Z -> Z -> S -> option Z * S;
  t_chdir : Z -> S -> option Z * S;
  t_mkdir : Z -> Z -> S -> option Z * S;
  t_rmdir : Z -> S -> option Z * S;
  t_unlink : Z -> S -> option Z * S;
  t_rename : Z -> Z -> S -> option Z * S;
  t_getdents : Z -> Z -> Z -> S -> option Z * S;
}.

Module Calls.

(** [errno.h] and [fcntl.h] of newlib. *)
Definition ENOENT : Z := 2.
Definition ENOMEM : Z := 12.
Definition F_DUPFD : Z := 0.
Definition F_SETFD : Z := 2.
Definition F_SETFL : Z := 4.
Definition O_CREAT : Z := 0x200.

Section calls.
Context {S : Type} `{TableOps S}.

(** The table, and [errno] of the current thread. *)
Record client := Client { table : S; errno : Z }.

Definition report (r : option Z * S) (e : Z) : Z * client :=
  match r with
  | (Some result, s) => if 0 <=? result then (result, Client s e) else (-1, Client s (s32 (- result)))
  | (None, s) => (-1, Client s ENOMEM)
  end.

Definition call_r (f : S -> option Z * S) (c : client) : Z * client := report (f (table c)) (errno c).

Definition open_r (name flags mode : Z) : client -> Z * client := call_r (t_open name flags mode).
(** The third argument is only read when it is there. *)
Definition open (name flags : Z) (arg : Z) : client -> Z * client :=
  open_r name flags (if negb (Z.land flags O_CREAT =? 0) then arg else 0).
Definition close_r (fd : Z) : client -> Z * client := call_r (t_close fd).
Definition write_r (fd buf cnt : Z) : client -> Z * client := call_r (t_write fd buf cnt).
Definition read_r (fd buf cnt : Z) : client -> Z * client := call_r (t_read fd buf cnt).
Definition lseek_r (fd pos whence : Z) : client -> Z * client := call_r (t_lseek fd pos whence).
Definition fstat_r (fd pstat : Z) : client -> Z * client := call_r (t_fstat fd pstat).
Definition stat_r (file pstat : Z) : client -> Z * client := call_r (t_stat file pstat).
Definition isatty_r (fd : Z) : client -> Z * client := call_r (t_isatty fd).
Definition fcntl_r (fd cmd opt : Z) : client -> Z * client := call_r (t_fcntl fd cmd opt).
Definition ioctl_r (fd cmd arg : Z) : client -> Z * client := call_r (t_ioctl fd cmd arg).
Definition chdir_r (path : Z) : client -> Z * client := call_r (t_chdir path).
Definition mkdir_r (path mode : Z) : client -> Z * client := call_r (t_mkdir path mode).
Definition rmdir_r (path : Z) : client -> Z * client := call_r (t_rmdir path).
Definition unlink_r (file : Z) : client -> Z * client := call_r (t_unlink file).
Definition rename_r (f_old f_new : Z) : client -> Z * client := call_r (t_rename f_old f_new).
Definition getdents (fd dirp count : Z) : client -> Z * client := call_r (t_getdents fd dirp count).

(** The buffer, or [NULL]. *)
Definition getcwd_r (buf size : Z) (c : client) : Z * client :=
  let '(result, c) := call_r (t_getcwd buf size) c in (if 0 <=? result then buf else 0, c).

(** Links are not implemented. *)
Definition link_r (f_old f_new : Z) (c : client) : Z * client := (-1, Client (table c) ENOENT).

(** The first cases have no [break]. *)
Definition fcntl (fd cmd arg : Z) (c : client) : Z * client :=
  let c := if (cmd =? F_DUPFD) || (cmd =? F_SETFD) || (cmd =? F_SETFL) then (fcntl_r fd cmd arg c).2 else c in
  fcntl_r fd cmd 0 c.

(** What a caller can rely on. *)
Lemma call_r_reports f c :
  let '(r, c') := call_r f c in
  table c' = (f (table c)).2 /\
  match (f (table c)).1 with
  | Some result => if decide (0 <= result) then r = result /\ errno c' = errno c else r = -1 /\ errno c' = s32 (- result)
  | None => r = -1 /\ errno c' = ENOMEM
  end.
Proof.
  unfold call_r, report. destruct (f (table c)) as [[result|] s]; cbn [fst snd]; [|done].
  case_decide; destruct (Z.leb_spec 0 result); try lia; done.
Qed.

(** The argument of the caller is lost: the table's last call is with 0. *)
Lemma fcntl_forgets fd cmd arg c :
  exists c', (fcntl fd cmd arg c) = fcntl_r fd cmd 0 c' /\
    (c' = c \/ c' = (fcntl_r fd cmd arg c).2 /\ (cmd = F_DUPFD \/ cmd = F_SETFD \/ cmd = F_SETFL)).
Proof.
  unfold fcntl. eexists. split; [done|].
  destruct (Z.eqb_spec cmd F_DUPFD), (Z.eqb_spec cmd F_SETFD), (Z.eqb_spec cmd F_SETFL); simpl; auto 6.
Qed.
End calls.

(** A table with one file, whose state is its flags: [fcntl] sets them, and the rest
    fails.  [F_SETFL] clears the flags that it is asked to set. *)
#[local] Instance ex_table : TableOps Z :=
  let fails := fun s => (Some (- 9), s) in
  {| t_open := fun _ _ _ => fails; t_close := fun _ => fails; t_write := fun _ _ _ => fails; t_read := fun _ _ _ => fails;
     t_lseek := fun _ _ _ => fails; t_fstat := fun _ _ => fails; t_stat := fun _ _ => fails; t_isatty := fun _ => fails;
     t_fcntl := fun _ _ opt _ => (Some 0, opt); t_ioctl := fun _ _ _ => fails; t_getcwd := fun _ _ => fails;
     t_chdir := fun _ => fails; t_mkdir := fun _ _ => fails; t_rmdir := fun _ => fails; t_unlink := fun _ => fails;
     t_rename := fun _ _ => fails; t_getdents := fun _ _ _ => fails |}.

Example ex_fcntl_setfl : fcntl 3 F_SETFL 0x4000 (Client 0x4000 0) = (0, Client 0 0).
Proof. by vm_compute. Qed.

Example ex_close : close_r 3 (Client 0 0) = (-1, Client 0 9).
Proof. by vm_compute. Qed.

End Calls.
